(* ===== verification/_CoqProject ===== *)
-Q . S2P
Prelude.v
JsNumber.v
JsString.v
JsCollections.v
Errors.v
DomainIds.v
DomainEmail.v
DomainMailbox.v
MailboxView.v
SendIntent.v
PendingMutation.v
Ports.v
MemoryState.v
MemorySyncPort.v
MemoryFacts.v
MemoryReadRepository.v
MemoryInvariant.v
MailStore.v
MemoryRefinement.v
MemoryEngine.v
EngineInterface.v
StoreEffects.v
ChangeHub.v
JsDate.v
Remote.v
Mappers.v
Prog.v
Json.v
JsText.v
E2ee.v
BodyMaterializer.v
IpcDto.v
IpcCodecs.v
CodecFacts.v
TauriAdapters.v
TauriFacts.v
NativeMail.v
ImapIds.v
ImapRemoteMail.v
ImapConnection.v
JmapTypes.v
JmapRemoteMail.v
JmapFacts.v
JmapWire.v
JmapClient.v
JmapClientFacts.v
SharedState.v
Locks.v
RemoteApplication.v
CapabilityStore.v
RemoteLifecycle.v
Stores.v
Coordinator.v
MutationRunner.v
Application.v
Controller.v
ControllerFacts.v
ControllerLocks.v
RunnerSafety.v
Outbox.v
RunnerBehaviour.v
Fixtures.v
RunnerTheorems.v
EngineTheorems.v
DomainTheorems.v
SyncTheorems.v
BodyTheorems.v
TauriTheorems.v
ImapTheorems.v
JmapTheorems.v
JmapClientTheorems.v
CapabilityTheorems.v
ApplicationTheorems.v
ControllerTheorems.v
Workers.v
WorkerTheorems.v
WorkerLink.v
E2eeAdapter.v
Sanitizer.v
Views.v
