(* ===== verification/Prelude.v ===== *)
(** * Correo Boxplot: a verified model of the mail client's TypeScript core

    Correo Boxplot is a desktop mail client.  Its TypeScript core keeps a local
    store of accounts, mailboxes, emails and pending mutations behind two ports (a
    [ReadRepository] and a [SyncPort]); a coordinator brings remote changes into the
    store, a mutation runner takes local changes out of it, a body materializer
    fetches and decrypts bodies on demand, adapters speak JMAP and, through the native
    side, IMAP, SMTP and the database, a remote application keeps the sessions, a worker
    holds a JMAP session of its own, and a controller shows all of it to Vue components.
    This development models that core as it is written under src/ and proves what
    makes it correct.

    ** Conventions

    JavaScript values: a [number] is [JsNumber.number] (integers exactly, binary
    fractions, NaN and infinities, with the rounding of [+]); a string is
    [String.string], one character per UTF-16 code unit (code units above 255 do not
    occur in it); a [Map] is [JsCollections.jsmap], an association list in insertion
    order; a [Set] is a list without repetition.  A nullable value is an [option].
    Synchronous code that may throw returns [outcome exn A]; code over mutable
    state is an [action], whose state after a throw is the state at the
    throw; an [async] method is a [Prog.prog], a tree of calls to its injected
    dependencies with any other code running between two calls.  The methods of an
    object that shares its fields among them are programs of [SharedState]: atomic
    actions on the fields, and calls out of the object.  A call that the code does not wait
    for (the broker of credentials, asked to forget one) is no call of the model but an
    entry in a log of the state.

    ** The parts and their files

    - Values of the language: JsNumber, JsString, JsText (Base64 too), JsCollections, JsDate (dates
      and their ISO form), Json ([JSON.parse] and [JSON.stringify]), Errors (what is
      thrown, from remote/errors.ts, jmap/errors.ts, app/remote/errors.ts and others).
      What the host defines (the order of [localeCompare], the numerals of numbers
      that are not integers, characters outside the byte range) is the class [Platform],
      with the laws used in [PlatformLaws].
    - The Domain (domain/*.ts): DomainIds, DomainEmail, DomainMailbox, MailboxView,
      SendIntent, PendingMutation.  One definition per factory, validator and
      transition, and a [_wf] predicate per type that the factories decide.
    - The ports (ports/*.ts): Ports is their data, EngineInterface their operations
      ([PortCall]) and the class [LocalEngine] of what a client relies on; MailStore
      is the abstract store: lookups as functions and [spec], the verdict of a write.
    - The memory engine (adapters/memory/*.ts): MemoryState, MemorySyncPort,
      MemoryReadRepository, MemoryEngine, ChangeHub.  MemoryInvariant, MemoryFacts,
      MemoryRefinement and StoreEffects hold its invariant, the
      simulation of [spec] and the effects of accepted writes.
    - The native engine's side of the ports (adapters/tauri/*.ts, ipc/*.ts): IpcDto,
      IpcCodecs, TauriAdapters; CodecFacts and TauriFacts for their proofs.
    - The remote vocabulary (remote/types, remote/mail.ts, remote/reconciliation.ts,
      remote/compat, remote/runtime.ts): Remote.  The mappers
      (sync/mappers): Mappers.  End-to-end encryption's boundary
      (e2ee/types.ts, e2ee/send-intent.ts, remote/mime/boxplot-e2ee.ts): E2ee; the
      adapter to the native side (e2ee/tauri-e2ee-adapter.ts): E2eeAdapter.
    - Programs of calls: Prog (running one, watching one with a monitor, interleaving several
      in a pool, running one over the implementation of its port), SharedState
      (methods over shared fields; what an interleaved method owns and may rely on; a
      monitor of its actions and calls),
      Locks (tables of running attempts that methods share, as locks).
    - The coordinator (sync/coordinator.ts): Coordinator.
    - The mutation runner (outbox/*.ts): MutationRunner, and
      RunnerSafety, RunnerBehaviour for its proofs.
    - The straight-line outbox (sync/outbox.ts): Outbox.
    - The body materializer (sync/body-materializer.ts): BodyMaterializer (one
      materialization, and the table of those in flight).
    - IMAP and SMTP (remote/native, remote/imap, remote/smtp): NativeMail (the native
      calls), ImapIds (and the mappers), ImapRemoteMail, ImapConnection (sessions, Gmail,
      submission, the reconciler).
    - JMAP: JmapTypes (the client's port), JmapRemoteMail (remote/jmap/*.ts), JmapWire
      (raw types, fetch, session discovery) and JmapClient (jmap/mail, jmap/normalizers,
      jmap/adapter.ts); JmapFacts, with a server that does not change, and
      JmapClientFacts hold the proofs.
    - Sessions (app/remote): RemoteApplication (remote-application.ts,
      session-registry.ts) with RemoteLifecycle for its proofs, and CapabilityStore
      (remote-body-source.ts, and the runtime of remote-runtime-composition.ts that lends
      the sessions of one to the other: [composed_connect] and its fellows call the remote
      application and then activate or drop a capability).
    - The worker (workers/*.ts, jmap/auth/token-manager.ts, app/worker-client.ts): Workers
      holds the messages, the token manager, the bridge of native calls, the worker's
      handlers and the main thread's client; [link_step] carries messages, timers and
      answers between the two sides.  WorkerTheorems and WorkerLink hold the proofs.
    - The application: Stores (app/stores/*.ts, root-view-state.ts,
      connection-status-view.ts), Application (the state of the controller of
      app/application.ts, its calls out, the status it observes), Controller (the methods of
      app/application.ts and app/services/send-service.ts); ControllerFacts (what the
      methods keep true of the stores) and ControllerLocks (their shared attempts).
    - What is displayed: Sanitizer (security/sanitizer.ts, with a matcher for its regular
      expressions) and Views (the scripts of components/ and of App.vue: what they compute
      from the stores, their handlers as programs over the controller, the setup forms and
      the reconnection dialog as a machine of events; security/external-links.ts).

    The clients (runner, coordinator, outbox, materializer) are proved against the
    class [LocalEngine]; the memory engine is its instance [memory_engine].  The Tauri
    adapters are proved transparent over any engine.  The JMAP remote mail is proved
    against the port [JmapCall] and carried over the client by [obeys_interpret].

    ** The theorems

    - RunnerTheorems: under any interleaving of runs, other writers and crashes, a
      mutation is executed at most once plus once per answer that says it was not
      applied; every write is a Domain step; no effect without a claim, and only the one
      the mutation describes, down to the message a send submits; what one run
      achieves when a send is accepted, fails, or is not due; the account summary.
    - EngineTheorems: the invariant, refinement of the abstract store by writes,
      runs and reads, atomicity, compare-and-swap, effects of commits and of
      optimistic mutations, injectivity of keys.
    - SyncTheorems: the order of the coordinator's and the outbox's calls, the effect
      of an email synchronisation, exact conditions of the mappers and of the check
      on remote transitions, id crossings, delivery of change notifications.
    - BodyTheorems: the materializer implements its specification on any engine,
      the order of its calls, sharing of materializations in flight, and the
      round trip of the encrypted envelope.
    - DomainTheorems: exact conditions of the factories, reachable lifecycles, retry
      instants.
    - TauriTheorems: round trips of the IPC codecs, what decodes is well formed, the
      adapters are transparent, subscriptions deliver until they are cancelled.
    - ImapTheorems: round trips of ids, the synchronisation protocol, queries are
      pages, changes are asked at most once, the reconciler's evidence.
    - JmapTheorems and JmapClientTheorems: snapshots and chains of changes are exact, a
      snapshot of a still server completes; over the network, whatever it answers:
      well-formed emails, when a synchronisation falls back or fails, the outcome of
      submissions and of changes, bodies and attachments in document order.
    - CapabilityTheorems: answers come from the current session, late activations
      change nothing, the composed runtime lends only sessions whose account is
      authenticated and bound to the local one, and whose connection nothing overtook.
    - WorkerTheorems: however the worker's handlers interleave, a request is answered at
      most once, and unanswered at the end only if it names no account or started a session
      whose client is no longer the worker's; every session it opened is closed or current, no token outlives its
      session.  WorkerLink: with the client on the other side, a promise is settled once,
      with the answer to its own request, and a native call with the answer to its own
      command; disposing of the client settles what is pending.
    - E2eeAdapter: the adapter never rejects, its codecs are inverse, and the two readers
      of an envelope agree.
    - Sanitizer: links written as DOMPurify writes them are given their target and rel, in
      place of those they had, and keep no address but of http or https; escaped text holds
      no markup and can be read back.
    - ApplicationTheorems: however the methods of the remote application interleave, no
      session is leaked and statuses tell the truth; connecting is all or nothing;
      changed statuses are published.
    - ControllerTheorems: however the methods of the application controller interleave
      with its tasks and with outside events, the screen is of one piece, attempts are
      exclusive and none is left in progress; a connection that fails asks for its
      credential to be forgotten; a reread displays the store; a send is staged as it was
      typed or its draft kept.
    - Views: the handlers of the components keep the screen of one piece when they run
      among the controller's own methods; a text message is displayed with its text; a
      form shows the outcome of its own attempt; the most urgent status is the one shown.

    Each theorem with hypotheses has a [_witness], an instance on concrete values.
    Some examples show where the code falls short: [encrypted_send_stays_in_flight],
    [unsubscribed_while_publishing], [flight_key_collision],
    [foreign_confirmation_accepted], [stale_body_resurfaces],
    [failed_update_counts_as_made], [superseded_start_is_not_answered],
    [refused_start_keeps_the_session], [nameless_request_is_not_answered],
    [plain_text_loses_words], [quoted_text_loses_words], [fallback_builds_a_tag], [unquoted_script_link_stays],
    [address_passes_for_attributes], [torn_down_dialog_blocks_the_forms],
    [viewer_failure_is_unseen].

    ** Bounds and fuel

    [Json.parse_value] has fuel: twice the length of the text plus one, each call
    reading a character or ending a value; [JSON_parse_serialized] shows that it is
    enough for what the code writes.  The walk over a set of listeners has a bound on
    its rounds, since a listener may subscribe further ones;
    [changed_statuses_are_published] shows that the length of the set is enough when
    none does.  The other bounds are the code's own: two attempts of the coordinator and
    of the IMAP synchronisation, 10000 pages of 500 ids per mailbox, 20 pages of changes.
    A star of a regular expression repeats at most as often as there are characters left,
    since a round that reads nothing ends it, and a replacement looks for at most one match
    per character.  The tokens' listeners, which never subscribe, are walked in two rounds;
    the worker client's listeners in as many as a parameter says, for any value of it.
    Everything else is structural recursion.

    ** Not modelled

    Templates and styles of the Vue components (only the conditions that disable a button,
    where a handler relies on them), the native side (Rust: SQLite, network,
    cryptography), the mock data, the mock client and other test doubles, the spikes, and
    jmap/transport/websocket.ts, which is a stub.  What is not under src/ is a parameter: the
    DOM purifier, the parser of addresses, [toLocaleString], what jmap-jam and [fetch] reject
    with (the class [Rejections]).  In Controller a promise's [finally] runs as a step of
    its own after the attempt, a background task when a schedule lets it; a handler of
    Views reads the stores and calls a method in two steps, and CapabilityStore reads a
    status in a call: this gives more interleavings than the code has.  [console.warn] and the [cause] of errors are left out where they
    occur. *)

From stdpp Require Export base gmap sets list strings numbers decidable fin_maps.
From Stdlib Require Export Bool.
From Stdlib Require Import ZArith Lia.
#[export] Set Warnings "-clear-no-such-hyp".

Declare Scope js_scope.
Delimit Scope js_scope with js.

(** [===] and [!==] on strings, nullable strings and enumerations. *)
Notation "a === b" := (bool_decide (a = b)) (at level 70, no associativity) : js_scope.
Notation "a !== b" := (negb (bool_decide (a = b))) (at level 70, no associativity) : js_scope.

(** ** Completions: a JavaScript computation returns or throws *)

Inductive outcome (E A : Type) : Type :=
| Return (a : A)
| Throw (e : E).
Arguments Return {E A} a.
Arguments Throw {E A} e.

Definition outcome_bind {E A B : Type} (f : A → outcome E B) (m : outcome E A) : outcome E B :=
  match m with
  | Return a => f a
  | Throw e => Throw e
  end.

#[export] Instance outcome_mret {E} : MRet (outcome E) := λ A a, Return a.
#[export] Instance outcome_mbind {E} : MBind (outcome E) := λ A B f m, outcome_bind f m.
#[export] Instance outcome_fmap {E} : FMap (outcome E) :=
  λ A B f m, outcome_bind (λ a, Return (f a)) m.
Arguments outcome_mret {E} A a /.
Arguments outcome_mbind {E} A B f !m /.
Arguments outcome_fmap {E} A B f !m /.

#[export] Instance outcome_eq_dec {E A} `{!EqDecision E, !EqDecision A} :
  EqDecision (outcome E A).
Proof. solve_decision. Defined.

(** A guard: [if (cond) throw e], then the rest of the function. *)
Definition throw_if {E : Type} (cond : bool) (e : E) : outcome E unit :=
  if cond then Throw e else Return tt.

(** [try { m } catch { return h(e) }]. *)
Definition try_catch {E A : Type} (m : outcome E A) (h : E → outcome E A) : outcome E A :=
  match m with
  | Return a => Return a
  | Throw e => h e
  end.

Definition returns {E A : Type} (m : outcome E A) : bool :=
  match m with Return _ => true | Throw _ => false end.

Lemma bind_return {E A B} (m : outcome E A) (f : A → outcome E B) b :
  (m ≫= f) = Return b ↔ ∃ a, m = Return a ∧ f a = Return b.
Proof. destruct m; simpl; naive_solver. Qed.

(** The same for a statement, whose value is [undefined]. *)
Lemma seq_return {E B} (m : outcome E unit) (f : unit → outcome E B) b :
  (m ≫= f) = Return b ↔ m = Return tt ∧ f tt = Return b.
Proof. rewrite bind_return. split; [intros ([] & ?); done | by exists tt]. Qed.

Lemma bind_throw {E A B} (m : outcome E A) (f : A → outcome E B) e :
  (m ≫= f) = Throw e ↔ m = Throw e ∨ ∃ a, m = Return a ∧ f a = Throw e.
Proof. destruct m; simpl; naive_solver. Qed.

Lemma throw_if_return {E} (c : bool) (e : E) u : throw_if c e = Return u ↔ c = false.
Proof. destruct c, u; simpl; split; congruence. Qed.

Lemma throw_if_throw {E} (c : bool) (e e' : E) : throw_if c e = Throw e' ↔ c = true ∧ e = e'.
Proof. destruct c; simpl; naive_solver. Qed.

Lemma returns_true {E A} (m : outcome E A) : returns m = true ↔ ∃ a, m = Return a.
Proof. destruct m; simpl; naive_solver. Qed.

(** ** Actions: computations over a mutable store that may throw

    The store after a throw is the store at the point of the throw, as in
    JavaScript: nothing is rolled back. *)

Definition action (E S A : Type) : Type := S → outcome E A * S.

Definition action_bind {E S A B : Type} (f : A → action E S B) (m : action E S A) :
    action E S B :=
  λ s, match m s with
       | (Return a, s') => f a s'
       | (Throw e, s') => (Throw e, s')
       end.

#[export] Instance action_mret {E S} : MRet (action E S) := λ A a s, (Return a, s).
#[export] Instance action_mbind {E S} : MBind (action E S) := λ A B f m, action_bind f m.

Definition read {E S A : Type} (f : S → A) : action E S A := λ s, (Return (f s), s).
Definition modify {E S : Type} (f : S → S) : action E S unit := λ s, (Return tt, f s).
(** A pure step that may throw, such as a Domain factory. *)
Definition pure_step {E S A : Type} (m : outcome E A) : action E S A := λ s, (m, s).

(** ** Shared lemmas on lists and booleans *)

Lemma existsb_false_forall {A} (f : A → bool) (l : list A) :
  existsb f l = false ↔ ∀ x, x ∈ l → f x = false.
Proof.
  induction l as [|y l IH]; simpl.
  - split; [intros _ x Hx; by apply not_elem_of_nil in Hx | done].
  - rewrite orb_false_iff, IH. setoid_rewrite elem_of_cons. naive_solver.
Qed.

Lemma existsb_true_exists {A} (f : A → bool) (l : list A) :
  existsb f l = true ↔ ∃ x, x ∈ l ∧ f x = true.
Proof. rewrite existsb_exists. setoid_rewrite list_elem_of_In. done. Qed.

Lemma forallb_true_forall {A} (f : A → bool) (l : list A) :
  forallb f l = true ↔ ∀ x, x ∈ l → f x = true.
Proof. rewrite forallb_forall. setoid_rewrite list_elem_of_In. done. Qed.

Lemma mapM_cons_outcome {E A B} (f : A → outcome E B) x l :
  mapM f (x :: l) = (y ← f x; k ← mapM f l; Return (y :: k)).
Proof. reflexivity. Qed.

Lemma mapM_return_Forall2 {E A B} (f : A → outcome E B) l k :
  mapM f l = Return k ↔ Forall2 (λ x y, f x = Return y) l k.
Proof.
  revert k. induction l as [|x l IH]; intros k.
  - change (mapM f []) with (@Return E (list B) []). split; [intros [= <-] | inversion 1]; constructor.
  - rewrite mapM_cons_outcome, bind_return. setoid_rewrite bind_return. split.
    + intros (y & Hy & k' & Hk' & [= <-]). constructor; [done | by apply IH].
    + inversion 1; subst. eexists; split; [done|]. eexists; split; [by apply IH | done].
Qed.

Lemma mapM_return_length {E A B} (f : A → outcome E B) l k :
  mapM f l = Return k → length k = length l.
Proof. intros H%mapM_return_Forall2. symmetry. by eapply Forall2_length. Qed.

(** A factory that returns its argument unchanged on a list: the list is returned. *)
Lemma mapM_return_id {E A} (f : A → outcome E A) l :
  Forall (λ x, f x = Return x) l → mapM f l = Return l.
Proof.
  intros Hl. apply mapM_return_Forall2. induction Hl; constructor; auto.
Qed.

(** ** Proof automation *)

Create HintDb correo.
Create Rewrite HintDb completions.
#[export] Hint Rewrite @bind_return @throw_if_return @bind_throw @throw_if_throw : completions.

(** [run_guards H] turns [H : (guards ;; rest) = Return v] into one hypothesis per guard. *)
Ltac run_guards H :=
  repeat first
    [ rewrite seq_return in H
    | rewrite bind_return in H
    | match type of H with
      | ∃ _, _ => let a := fresh "a" in destruct H as [a H]
      | _ ∧ _ => let H1 := fresh "Hg" in destruct H as [H1 H]
      end ];
  repeat match goal with
    | Hx : throw_if _ _ = Return _ |- _ => apply throw_if_return in Hx
    | Hx : Return _ = Return _ |- _ => injection Hx as Hx
    end; subst.

(** Step over a guard whose condition [tac] proves false. *)
Tactic Notation "pass_guard" "by" tactic3(tac) :=
  rewrite seq_return; split; [apply throw_if_return; tac|].

Lemma differs_false {A} `{!EqDecision A} (a b : A) : negb (bool_decide (a = b)) = false ↔ a = b.
Proof. by rewrite negb_false_iff, bool_decide_eq_true. Qed.

Lemma differs_true {A} `{!EqDecision A} (a b : A) : negb (bool_decide (a = b)) = true ↔ a ≠ b.
Proof. by rewrite negb_true_iff, bool_decide_eq_false. Qed.

(** Split boolean conjunctions, disjunctions and negations in the hypotheses. *)
Ltac bool_hyps :=
  repeat match goal with
    | H : _ && _ = true |- _ => apply andb_true_iff in H as [? ?]
    | H : _ || _ = false |- _ => apply orb_false_iff in H as [? ?]
    | H : negb _ = true |- _ => apply negb_true_iff in H
    | H : negb _ = false |- _ => apply negb_false_iff in H
    | H : bool_decide _ = true |- _ => apply bool_decide_eq_true in H
    | H : bool_decide _ = false |- _ => apply bool_decide_eq_false in H
    end.

(** Evaluate a closed goal. *)
Ltac by_computation := vm_compute; reflexivity.
