(* ===== verification/JsNumber.v ===== *)
(** * JavaScript numbers

    An IEEE-754 double, as the source's [number] uses it: [Int z] is every
    integer-valued double (both zeros are [Int 0], which [===] identifies),
    [Frac m k] is the non-integer [m / 2^k] with [m] odd and [0 < k], and the
    three special values.  Comparison and addition are the ones of ECMAScript;
    addition rounds to 53 significant bits, ties to even. *)

From S2P Require Import Prelude.
#[export] Set Warnings "-clear-no-such-hyp".
Open Scope Z_scope.

Inductive number : Type :=
| Int (z : Z)
| Frac (m : Z) (k : positive)
| Infinity (negative : bool)
| NaN.

#[export] Instance number_eq_dec : EqDecision number.
Proof. solve_decision. Defined.

Definition MAX_SAFE_INTEGER : Z := 2 ^ 53 - 1.

(** [Number.isInteger] and [Number.isSafeInteger]. *)
Definition isInteger (n : number) : bool :=
  match n with Int _ => true | _ => false end.

Definition isSafeInteger (n : number) : bool :=
  match n with Int z => Z.abs z <=? MAX_SAFE_INTEGER | _ => false end.

(** [Number.isFinite]. *)
Definition isFinite (n : number) : bool :=
  match n with Int _ | Frac _ _ => true | _ => false end.

(** A finite number as [mantissa / 2^exponent]. *)
Definition scaled (n : number) : option (Z * Z) :=
  match n with
  | Int z => Some (z, 0)
  | Frac m k => Some (m, Z.pos k)
  | _ => None
  end.

(** [===] on numbers: [NaN] differs from itself. *)
Definition num_eqb (a b : number) : bool :=
  match a, b with
  | NaN, _ | _, NaN => false
  | _, _ => bool_decide (a = b)
  end.

(** [a < b]. *)
Definition num_ltb (a b : number) : bool :=
  match a, b with
  | NaN, _ | _, NaN => false
  | Infinity n, Infinity n' => n && negb n'
  | Infinity n, _ => n
  | _, Infinity n => negb n
  | _, _ =>
      match scaled a, scaled b with
      | Some (m, k), Some (m', k') => m * 2 ^ k' <? m' * 2 ^ k
      | _, _ => false
      end
  end.

(** [a <= b]; not the negation of [b < a] when a [NaN] is involved. *)
Definition num_leb (a b : number) : bool := num_ltb a b || num_eqb a b.

(** Round [m] to 53 significant bits, ties to even. *)
Definition round53 (m : Z) : Z :=
  let e := Z.max 0 (Z.log2 (Z.abs m) - 52) in
  let q := m / 2 ^ e in
  let r := m mod 2 ^ e in
  let half := 2 ^ e / 2 in
  let up := (half <? r) || ((half =? r) && (0 <? r) && Z.odd q) in
  (if up then q + 1 else q) * 2 ^ e.

(** The canonical form of [m / 2^k]. *)
Fixpoint strip (m : Z) (k : nat) : Z * nat :=
  match k with
  | O => (m, O)
  | S k' => if Z.odd m then (m, k) else strip (m / 2) k'
  end.

Definition of_scaled (m k : Z) : number :=
  let '(m', k') := strip (round53 m) (Z.to_nat k) in
  if Z.abs m' >=? 2 ^ 1024 * 2 ^ Z.of_nat k' then Infinity (m' <? 0)
  else match k' with O => Int m' | S _ => Frac m' (Pos.of_nat k') end.

(** [a + b]. *)
Definition num_add (a b : number) : number :=
  match a, b with
  | NaN, _ | _, NaN => NaN
  | Infinity n, Infinity n' => if bool_decide (n = n') then Infinity n else NaN
  | Infinity n, _ => Infinity n
  | _, Infinity n => Infinity n
  | _, _ =>
      match scaled a, scaled b with
      | Some (m, k), Some (m', k') =>
          let d := Z.max k k' in
          of_scaled (m * 2 ^ (d - k) + m' * 2 ^ (d - k')) d
      | _, _ => NaN
      end
  end.

(** [Math.max(a, b)] and [Math.min(a, b)]. *)
Definition num_max (a b : number) : number :=
  match a, b with NaN, _ | _, NaN => NaN | _, _ => if num_ltb a b then b else a end.
Definition num_min (a b : number) : number :=
  match a, b with NaN, _ | _, NaN => NaN | _, _ => if num_ltb b a then b else a end.

(** [xs.length] as a number. *)
Definition len {A} (l : list A) : number := Int (Z.of_nat (length l)).

(** ** Facts *)

Lemma isSafeInteger_spec n :
  isSafeInteger n = true ↔ ∃ z, n = Int z ∧ - MAX_SAFE_INTEGER <= z <= MAX_SAFE_INTEGER.
Proof.
  destruct n; simpl; split; try (intros; naive_solver).
  - intros H%Z.leb_le. eexists; split; [done|]. lia.
  - intros (? & [= <-] & ?). apply Z.leb_le. lia.
Qed.

Lemma num_eqb_spec a b : num_eqb a b = true ↔ a = b ∧ a ≠ NaN.
Proof.
  destruct a, b; simpl; rewrite ?bool_decide_eq_true; naive_solver.
Qed.

Lemma num_ltb_Int a b : num_ltb (Int a) (Int b) = (a <? b).
Proof. simpl. by rewrite !Z.mul_1_r. Qed.

Lemma num_eqb_Int a b : num_eqb (Int a) (Int b) = (a =? b).
Proof.
  simpl. destruct (Z.eqb_spec a b) as [->|Hab].
  - by apply bool_decide_eq_true.
  - apply bool_decide_eq_false. congruence.
Qed.

Lemma num_leb_Int a b : num_leb (Int a) (Int b) = (a <=? b).
Proof.
  unfold num_leb. rewrite num_ltb_Int, num_eqb_Int.
  destruct (Z.ltb_spec a b), (Z.eqb_spec a b), (Z.leb_spec a b); try done; lia.
Qed.

Lemma round53_exact m : Z.abs m <= 2 ^ 53 → round53 m = m.
Proof.
  intros Hm. unfold round53.
  assert (Z.log2 (Z.abs m) <= 53) as Hl.
  { change 53 with (Z.log2 (2 ^ 53)). by apply Z.log2_le_mono. }
  destruct (Z.le_gt_cases (Z.log2 (Z.abs m)) 52) as [Hs|Hb].
  - rewrite Z.max_l by lia. rewrite Z.pow_0_r, Z.div_1_r, Z.mod_1_r. simpl. lia.
  - assert (Z.log2 (Z.abs m) = 53) as Hl53 by lia.
    assert (Z.abs m = 2 ^ 53) as Habs.
    { destruct (Z.log2_spec (Z.abs m)) as [H1 _]; [|rewrite Hl53 in H1; lia].
      destruct (Z.eq_dec (Z.abs m) 0) as [E|]; [rewrite E in Hl53; discriminate | lia]. }
    destruct (Z.abs_spec m) as [[_ E]|[_ E]]; rewrite E in Habs;
      [subst | assert (m = - 2 ^ 53) as -> by lia]; reflexivity.
Qed.

(** Additions whose exact result fits in 53 bits are exact. *)
Lemma num_add_exact a b : Z.abs (a + b) <= 2 ^ 53 → num_add (Int a) (Int b) = Int (a + b).
Proof.
  intros H. unfold num_add, scaled, of_scaled. simpl Z.max. rewrite Z.sub_diag, Z.pow_0_r, !Z.mul_1_r.
  rewrite round53_exact by done. simpl strip. cbv iota beta.
  rewrite Z.mul_1_r. destruct (Z.geb_spec (Z.abs (a + b)) (2 ^ 1024)) as [Hge|]; [|done].
  assert (2 ^ 53 < 2 ^ 1024) by reflexivity. lia.
Qed.

(** Above the safe range the successor of a double may be itself. *)
Example num_add_saturates : num_add (Int (2 ^ 53)) (Int 1) = Int (2 ^ 53).
Proof. reflexivity. Qed.

#[global] Arguments num_ltb : simpl never.
#[global] Arguments num_leb : simpl never.
#[global] Arguments num_eqb : simpl never.
#[global] Arguments num_add : simpl never.
#[global] Arguments isSafeInteger : simpl never.

#[export] Hint Rewrite num_ltb_Int num_eqb_Int num_leb_Int : completions.
