(* ===== verification/JsString.v ===== *)
(** * JavaScript strings

    A string is a [String.string]: one character per UTF-16 code unit, for the
    code units below 256.  [===] is equality, [<] and [>] compare code units
    from the left, [.length] counts code units. *)

From S2P Require Import Prelude.
From S2P Require Import JsNumber.
From stdpp Require Export pretty.
From Stdlib Require Export Ascii.
#[export] Set Warnings "-clear-no-such-hyp".
Open Scope string_scope.

(** [s.length]. *)
Definition slen (s : string) : number := Int (Z.of_nat (String.length s)).

(** [s.length === 0]. *)
Definition is_empty (s : string) : bool :=
  match s with EmptyString => true | _ => false end.

(** [a < b] and [a > b] on strings. *)
Definition string_ltb (a b : string) : bool := String.ltb a b.
Definition string_gtb (a b : string) : bool := String.ltb b a.
Definition string_leb (a b : string) : bool := negb (String.ltb b a).

(** [s.includes(c)] for a one-character needle. *)
Fixpoint includes (s : string) (c : ascii) : bool :=
  match s with
  | EmptyString => false
  | String d s' => bool_decide (d = c) || includes s' c
  end.

(** [s.indexOf(c)] for a one-character needle; [-1] when absent. *)
Fixpoint indexOf_from (i : Z) (s : string) (c : ascii) : Z :=
  match s with
  | EmptyString => (-1)%Z
  | String d s' => if bool_decide (d = c) then i else indexOf_from (i + 1) s' c
  end.
Definition indexOf (s : string) (c : ascii) : Z := indexOf_from 0 s c.

(** [s.startsWith(p)]. *)
Definition startsWith (s p : string) : bool := String.prefix p s.

(** [s.includes(word)], and the test of a regular expression that is a word. *)
Fixpoint contains (word s : string) : bool :=
  startsWith s word || match s with String _ rest => contains word rest | EmptyString => false end.

(** [s.toLowerCase()]: the code units below 256 that have a lower case. *)
Definition lower_char (c : ascii) : ascii :=
  let n := nat_of_ascii c in
  if ((65 <=? n) && (n <=? 90) || (192 <=? n) && (n <=? 222) && negb (n =? 215))%nat
  then ascii_of_nat (n + 32) else c.

Fixpoint toLowerCase (s : string) : string :=
  match s with
  | EmptyString => EmptyString
  | String c s' => String (lower_char c) (toLowerCase s')
  end.

(** [`${n}`] for a length. *)
Definition decimal (n : nat) : string := pretty n.

(** ** Facts *)

Lemma is_empty_true s : is_empty s = true ↔ s = "".
Proof. destruct s; simpl; naive_solver. Qed.

Lemma is_empty_false s : is_empty s = false ↔ s ≠ "".
Proof. destruct s; simpl; naive_solver. Qed.

Lemma string_app_cons c (a b : string) : String c a +:+ b = String c (a +:+ b).
Proof. reflexivity. Qed.

Lemma string_app_nil (b : string) : "" +:+ b = b.
Proof. reflexivity. Qed.

Create Rewrite HintDb strings_db.
#[export] Hint Rewrite string_app_cons string_app_nil : strings_db.

(** Induction on the first string of a concatenation. *)
Ltac string_induction a :=
  induction a as [|? a IHa]; simpl; autorewrite with strings_db in *; [done || auto|].

Lemma string_app_assoc (a b c : string) : (a +:+ b) +:+ c = a +:+ (b +:+ c).
Proof. string_induction a. by rewrite IHa. Qed.

Lemma string_app_nil_r (a : string) : a +:+ "" = a.
Proof. string_induction a. by rewrite IHa. Qed.

Lemma string_length_app (a b : string) :
  String.length (a +:+ b) = (String.length a + String.length b)%nat.
Proof. string_induction a. simpl. by rewrite IHa. Qed.

(** Concatenation is injective when the left parts have the same length. *)
Lemma string_app_inj_length a b x y :
  String.length a = String.length b → a +:+ x = b +:+ y → a = b ∧ x = y.
Proof.
  revert b. induction a as [|c a IH]; intros [|d b]; simpl; autorewrite with strings_db; try done.
  intros [= Hl] [= -> Hs]. destruct (IH _ Hl Hs) as [-> ->]. done.
Qed.

Lemma includes_app a b c : includes (a +:+ b) c = includes a c || includes b c.
Proof. string_induction a. simpl. by rewrite IHa, orb_assoc. Qed.

(** Two strings cut at the first [c] agree on both sides. *)
Lemma cut_at_inj c a b x y :
  includes a c = false → includes b c = false →
  a +:+ String c x = b +:+ String c y → a = b ∧ x = y.
Proof.
  revert b. induction a as [|d a IH]; intros [|e b]; simpl; autorewrite with strings_db.
  - by intros _ _ [= ->].
  - intros _ Hb [= -> _]. bool_hyps. done.
  - intros Ha _ [= -> _]. bool_hyps. done.
  - intros Ha Hb [= -> Hs]. bool_hyps. destruct (IH b) as [-> ->]; auto.
Qed.

Lemma includes_pretty_go c x s :
  (∀ n, pretty_N_char n ≠ c) → includes (pretty_N_go x s) c = includes s c.
Proof.
  intros Hc. revert s. induction (N.lt_wf_0 x) as [x _ IH]; intros s.
  assert (x = 0 ∨ 0 < x)%N as [->|Hx] by lia; [by rewrite pretty_N_go_0|].
  rewrite pretty_N_go_step by done. rewrite IH by (apply N.div_lt; lia). simpl.
  by rewrite bool_decide_eq_false_2.
Qed.

Lemma includes_decimal c n : (∀ n, pretty_N_char n ≠ c) → includes (decimal n) c = false.
Proof.
  intros Hc. unfold decimal, pretty, pretty_nat, pretty, pretty_N. case_decide.
  - simpl. pose proof (Hc 0%N). simpl in *. by rewrite bool_decide_eq_false_2.
  - by rewrite includes_pretty_go.
Qed.

Lemma decimal_no_colon n : includes (decimal n) ":" = false.
Proof. apply includes_decimal. intros k. unfold pretty_N_char. by repeat case_match. Qed.

Lemma decimal_inj a b : decimal a = decimal b → a = b.
Proof. apply (inj (R := eq)). apply _. Qed.

Lemma indexOf_from_range i s c :
  (indexOf_from i s c = -1 ∧ includes s c = false ∨
   i <= indexOf_from i s c < i + Z.of_nat (String.length s) ∧ includes s c = true)%Z.
Proof.
  revert i. induction s as [|d s IH]; intros i; simpl; [by left|].
  case_bool_decide; simpl; [right; lia|]. destruct (IH (i + 1)%Z) as [[-> ->]|[H1 ->]]; [by left|].
  right. split; [lia|done].
Qed.

(** The character at the position [indexOf] returns, and what precedes it. *)
Lemma indexOf_from_split i s c :
  includes s c = true →
  ∃ a b, s = a +:+ String c b ∧ includes a c = false ∧
         indexOf_from i s c = (i + Z.of_nat (String.length a))%Z.
Proof.
  revert i. induction s as [|d s IH]; intros i; simpl; [done|].
  case_bool_decide as Hd; simpl.
  - intros _. exists "", s. subst. simpl. split_and!; [done..|lia].
  - intros Hs. destruct (IH (i + 1)%Z Hs) as (a & b & -> & Ha & ->).
    exists (String d a), b. simpl. autorewrite with strings_db.
    rewrite bool_decide_eq_false_2 by done. split_and!; [done..|lia].
Qed.

Lemma string_leb_total a b : string_leb a b = true ∨ string_ltb b a = true.
Proof. unfold string_leb, string_ltb. destruct (String.ltb b a); auto. Qed.
