(* ===== verification/JsCollections.v ===== *)
(** * JavaScript [Map] and [Set]

    Both keep insertion order: a [Map] is the list of its entries, [set] on a
    present key overwrites the value in place, and on a new key appends.  The
    finite map [to_gmap] forgets the order; [map_equiv] identifies maps with the
    same lookups. *)

From S2P Require Import Prelude.
From S2P Require Import JsNumber.
#[export] Set Warnings "-clear-no-such-hyp".

(** ** [Map<K, V>] *)

Definition jsmap (K V : Type) : Type := list (K * V).

Section jsmap.
Context {K V : Type} `{!EqDecision K}.
Implicit Types (m : jsmap K V) (k : K) (v : V).

Definition map_new : jsmap K V := [].

Fixpoint map_get (k : K) (m : jsmap K V) : option V :=
  match m with
  | [] => None
  | (k', v) :: m' => if decide (k' = k) then Some v else map_get k m'
  end.

Definition map_has (k : K) (m : jsmap K V) : bool :=
  match map_get k m with Some _ => true | None => false end.

Fixpoint map_set (k : K) (v : V) (m : jsmap K V) : jsmap K V :=
  match m with
  | [] => [(k, v)]
  | (k', v') :: m' => if decide (k' = k) then (k', v) :: m' else (k', v') :: map_set k v m'
  end.

Fixpoint map_delete (k : K) (m : jsmap K V) : jsmap K V :=
  match m with
  | [] => []
  | (k', v') :: m' => if decide (k' = k) then m' else (k', v') :: map_delete k m'
  end.

(** [for (const [key, value] of m) if (p(key, value)) m.delete(key)]. *)
Definition map_delete_if (p : K → V → bool) (m : jsmap K V) : jsmap K V :=
  List.filter (λ kv, negb (p kv.1 kv.2)) m.

(** [[...m.values()]]. *)
Definition map_values (m : jsmap K V) : list V := m.*2.

(** The keys of a [Map] are distinct; [map_new] has none and every operation
    keeps them so. *)
Definition map_wf (m : jsmap K V) : Prop := NoDup m.*1.

Lemma map_get_set k k' v m :
  map_get k' (map_set k v m) = if decide (k = k') then Some v else map_get k' m.
Proof.
  induction m as [|[k1 v1] m IH]; simpl.
  - by repeat case_decide.
  - repeat case_decide; simpl; subst; repeat case_decide; congruence.
Qed.

Lemma map_get_set_eq k v m : map_get k (map_set k v m) = Some v.
Proof. rewrite map_get_set. by case_decide. Qed.

Lemma map_get_set_ne k k' v m : k ≠ k' → map_get k' (map_set k v m) = map_get k' m.
Proof. intros. rewrite map_get_set. by case_decide. Qed.

Lemma map_has_spec k m : map_has k m = true ↔ is_Some (map_get k m).
Proof. unfold map_has. destruct (map_get k m); split; try done; by intros []. Qed.

Lemma map_has_false k m : map_has k m = false ↔ map_get k m = None.
Proof. unfold map_has. by destruct (map_get k m). Qed.

Lemma map_get_elem k v m : map_get k m = Some v → (k, v) ∈ m.
Proof.
  induction m as [|[k1 v1] m IH]; simpl; [done|]. case_decide.
  - intros [= ->]; subst. by left.
  - intros. right. auto.
Qed.

Lemma map_get_None_keys k m : map_get k m = None ↔ k ∉ m.*1.
Proof.
  induction m as [|[k1 v1] m IH]; simpl; [split; [intros _; apply not_elem_of_nil|done]|].
  rewrite not_elem_of_cons. case_decide; naive_solver.
Qed.

Lemma map_elem_get k v m : map_wf m → (k, v) ∈ m → map_get k m = Some v.
Proof.
  unfold map_wf. induction m as [|[k1 v1] m IH]; simpl; intros Hwf Hin.
  - by apply not_elem_of_nil in Hin.
  - apply NoDup_cons in Hwf as [Hk1 Hwf]. apply elem_of_cons in Hin as [[= -> ->]|Hin].
    + by case_decide.
    + case_decide as Hd; [|auto]. subst. destruct Hk1. apply list_elem_of_fmap. by exists (k, v).
Qed.

Lemma map_elem_iff k v m : map_wf m → (k, v) ∈ m ↔ map_get k m = Some v.
Proof. split; [by apply map_elem_get | apply map_get_elem]. Qed.

Lemma map_values_elem v m : map_wf m → v ∈ map_values m ↔ ∃ k, map_get k m = Some v.
Proof.
  intros Hwf. unfold map_values. rewrite list_elem_of_fmap. split.
  - intros [[k w] [-> Hin]]. exists k. by apply map_elem_get.
  - intros [k Hk]. exists (k, v). split; [done|]. by apply map_get_elem.
Qed.

Lemma map_set_keys k v m :
  (map_set k v m).*1 = if decide (k ∈ m.*1) then m.*1 else m.*1 ++ [k].
Proof.
  induction m as [|[k1 v1] m IH]; csimpl.
  - done.
  - destruct (decide (k1 = k)) as [->|Hne]; csimpl.
    + rewrite decide_True; [done|]. by left.
    + rewrite IH. repeat case_decide; rewrite ?elem_of_cons in *; naive_solver.
Qed.

Lemma map_wf_new : map_wf map_new.
Proof. constructor. Qed.

Lemma map_wf_set k v m : map_wf m → map_wf (map_set k v m).
Proof.
  unfold map_wf. intros Hm. rewrite map_set_keys. case_decide; [done|].
  apply NoDup_app. split_and!; [done| |apply NoDup_singleton].
  intros x Hx Hk. apply list_elem_of_singleton in Hk. by subst.
Qed.

Lemma map_delete_sub k m : map_delete k m `sublist_of` m.
Proof.
  induction m as [|[k1 v1] m IH]; simpl; [constructor|].
  case_decide; [by apply sublist_cons | by apply sublist_skip].
Qed.

Lemma map_wf_delete k m : map_wf m → map_wf (map_delete k m).
Proof.
  unfold map_wf. intros Hm. eapply sublist_NoDup; [exact Hm|].
  apply fmap_sublist, map_delete_sub.
Qed.

Lemma map_get_delete k k' m :
  map_wf m → map_get k' (map_delete k m) = if decide (k = k') then None else map_get k' m.
Proof.
  unfold map_wf. induction m as [|[k1 v1] m IH]; simpl; intros Hwf.
  - by case_decide.
  - apply NoDup_cons in Hwf as [Hk1 Hwf]. apply map_get_None_keys in Hk1.
    destruct (decide (k1 = k)) as [->|Hne]; simpl.
    + by case_decide; subst.
    + rewrite IH by done. repeat case_decide; congruence.
Qed.

Lemma map_get_delete_eq k m : map_wf m → map_get k (map_delete k m) = None.
Proof. intros. rewrite map_get_delete by done. by case_decide. Qed.

Lemma map_get_delete_ne k k' m : map_wf m → k ≠ k' → map_get k' (map_delete k m) = map_get k' m.
Proof. intros. rewrite map_get_delete by done. by case_decide. Qed.

Lemma map_delete_if_sub p m : map_delete_if p m `sublist_of` m.
Proof.
  unfold map_delete_if. induction m as [|kv m IH]; simpl; [constructor|].
  destruct (negb _); [by apply sublist_skip | by apply sublist_cons].
Qed.

Lemma map_wf_delete_if p m : map_wf m → map_wf (map_delete_if p m).
Proof.
  unfold map_wf. intros Hm. eapply sublist_NoDup; [exact Hm|].
  apply fmap_sublist, map_delete_if_sub.
Qed.

Lemma map_get_delete_if p k m :
  map_wf m →
  map_get k (map_delete_if p m) =
    match map_get k m with
    | Some v => if p k v then None else Some v
    | None => None
    end.
Proof.
  unfold map_wf. induction m as [|[k1 v1] m IH]; csimpl; intros Hwf; [done|].
  apply NoDup_cons in Hwf as [Hk1 Hwf]. apply map_get_None_keys in Hk1. specialize (IH Hwf).
  destruct (decide (k1 = k)) as [->|Hne].
  - destruct (p k v1); simpl; [by rewrite IH, Hk1 | by rewrite decide_True].
  - destruct (p k1 v1); simpl; rewrite ?decide_False by done; apply IH.
Qed.
End jsmap.

#[export] Hint Resolve map_wf_new map_wf_set map_wf_delete map_wf_delete_if : correo.

(** ** Maps up to order *)

Section to_gmap.
Context {K V : Type} `{Countable K}.
Implicit Types (m : jsmap K V).

Definition to_gmap (m : jsmap K V) : gmap K V := list_to_map m.

Lemma lookup_to_gmap m k : to_gmap m !! k = map_get k m.
Proof.
  unfold to_gmap. induction m as [|[k1 v1] m IH]; simpl; [apply lookup_empty|].
  rewrite lookup_insert. by rewrite IH.
Qed.

Lemma to_gmap_set k v m : to_gmap (map_set k v m) = <[k := v]> (to_gmap m).
Proof.
  apply map_eq. intros i. rewrite lookup_insert, !lookup_to_gmap. apply map_get_set.
Qed.

Lemma to_gmap_delete k m : map_wf m → to_gmap (map_delete k m) = delete k (to_gmap m).
Proof.
  intros. apply map_eq. intros i. rewrite lookup_delete, !lookup_to_gmap.
  by apply map_get_delete.
Qed.
End to_gmap.

(** ** [Set<T>] *)

Section jsset.
Context {T : Type} `{!EqDecision T}.
Implicit Types (s : list T) (x : T).

Definition set_new : list T := [].
Definition set_has (x : T) (s : list T) : bool := bool_decide (x ∈ s).
Definition set_add (x : T) (s : list T) : list T := if set_has x s then s else s ++ [x].
Definition set_delete (x : T) (s : list T) : list T :=
  List.filter (λ y, negb (bool_decide (y = x))) s.
(** [new Set(values)]. *)
Definition set_of_list (values : list T) : list T :=
  fold_left (λ s x, set_add x s) values set_new.

Lemma set_has_spec x s : set_has x s = true ↔ x ∈ s.
Proof. apply bool_decide_eq_true. Qed.

Lemma set_has_false x s : set_has x s = false ↔ x ∉ s.
Proof. apply bool_decide_eq_false. Qed.

Lemma elem_of_set_add x y s : y ∈ set_add x s ↔ y = x ∨ y ∈ s.
Proof.
  unfold set_add. destruct (set_has x s) eqn:Hx.
  - apply set_has_spec in Hx. split; [by right|]. intros [->|]; done.
  - rewrite elem_of_app, list_elem_of_singleton. naive_solver.
Qed.

Lemma NoDup_set_add x s : NoDup s → NoDup (set_add x s).
Proof.
  intros Hs. unfold set_add. destruct (set_has x s) eqn:Hx; [done|].
  apply set_has_false in Hx. apply NoDup_app. split_and!; [done| |apply NoDup_singleton].
  intros y Hy Hy'%list_elem_of_singleton. by subst.
Qed.

Lemma elem_of_set_delete x y s : y ∈ set_delete x s ↔ y ≠ x ∧ y ∈ s.
Proof.
  unfold set_delete. rewrite !list_elem_of_In, filter_In, negb_true_iff, bool_decide_eq_false.
  naive_solver.
Qed.

Lemma NoDup_set_delete x s : NoDup s → NoDup (set_delete x s).
Proof.
  intros Hs. unfold set_delete. rewrite NoDup_ListNoDup in *. by apply List.NoDup_filter.
Qed.

Lemma set_add_fresh x s : x ∉ s → set_add x s = s ++ [x].
Proof. intros Hx. unfold set_add. by rewrite (proj2 (set_has_false x s) Hx). Qed.

(** Adding all elements of [l] to [s], whatever the intermediate states. *)
Lemma fold_set_add_elem l s y : y ∈ fold_left (λ s x, set_add x s) l s ↔ y ∈ l ∨ y ∈ s.
Proof.
  revert s. induction l as [|x l IH]; intros s; simpl.
  - split; [by right|]. intros [Hy|]; [by apply not_elem_of_nil in Hy | done].
  - rewrite IH, elem_of_set_add, elem_of_cons. naive_solver.
Qed.

Lemma fold_set_add_NoDup l s : NoDup s → NoDup (fold_left (λ s x, set_add x s) l s).
Proof.
  revert s. induction l as [|x l IH]; intros s Hs; simpl; [done|]. by apply IH, NoDup_set_add.
Qed.

Lemma fold_set_add_fresh l s :
  NoDup (s ++ l) → fold_left (λ s x, set_add x s) l s = s ++ l.
Proof.
  revert s. induction l as [|x l IH]; intros s Hs; simpl; [by rewrite app_nil_r|].
  rewrite set_add_fresh, IH.
  - by rewrite <- app_assoc.
  - by rewrite <- app_assoc.
  - apply NoDup_app in Hs as (_ & Hd & _). intros Hin. apply (Hd x Hin). by left.
Qed.

Lemma set_of_list_elem l y : y ∈ set_of_list l ↔ y ∈ l.
Proof.
  unfold set_of_list. rewrite fold_set_add_elem. split; [|by left].
  intros [|Hn]; [done|by apply not_elem_of_nil in Hn].
Qed.

Lemma set_of_list_NoDup l : NoDup (set_of_list l).
Proof. apply fold_set_add_NoDup. constructor. Qed.

Lemma set_of_list_id l : NoDup l → set_of_list l = l.
Proof. intros. by apply (fold_set_add_fresh l []). Qed.
End jsset.

#[export] Hint Resolve NoDup_set_add NoDup_set_delete set_of_list_NoDup : correo.
