(* ===== verification/Errors.v ===== *)
(** * Thrown values

    The error classes the modelled code throws, catches and tests with
    [instanceof]: the language's own, [remote/errors.ts], [remote/body-source.ts],
    [remote/mutation-source.ts], [sync/body-materialization-errors.ts],
    [app/remote/errors.ts], [jmap/errors.ts] and the objects of [remote/native/ipc.ts].  The
    [cause] of a [RemoteError] is diagnostic: no code reads it, and it is left out. *)

From S2P Require Import Prelude.
Open Scope string_scope.
Open Scope list_scope.

(** ** remote/errors.ts *)

Inductive RemoteErrorKind : Type :=
| kind_auth | kind_network | kind_unavailable | kind_protocol | kind_malformedRemoteData
| kind_stateInvalid | kind_conflict | kind_unsupported | kind_rateLimited | kind_tooLarge
| kind_rejected | kind_unexpected.

Inductive RetryDisposition : Type := never | safeImmediate | safeBackoff | retry_reconcile.
Inductive SessionDisposition : Type := session_keep | session_expire.
Inductive OperationOutcome : Type := notApplicable | knownNotApplied | outcome_unknown.

Record RemoteError : Type := mkRemoteError {
  remote_message : string;
  remote_kind : RemoteErrorKind;
  remote_retry : RetryDisposition;
  remote_session : SessionDisposition;
  remote_outcome : OperationOutcome;
}.

#[export] Instance RemoteErrorKind_eq_dec : EqDecision RemoteErrorKind.
Proof. solve_decision. Defined.
#[export] Instance RetryDisposition_eq_dec : EqDecision RetryDisposition.
Proof. solve_decision. Defined.
#[export] Instance SessionDisposition_eq_dec : EqDecision SessionDisposition.
Proof. solve_decision. Defined.
#[export] Instance OperationOutcome_eq_dec : EqDecision OperationOutcome.
Proof. solve_decision. Defined.
#[export] Instance RemoteError_eq_dec : EqDecision RemoteError.
Proof. solve_decision. Defined.

(** ** remote/mutation-source.ts *)

Inductive RemoteMutationSourceFailure : Type :=
| failure_notConnected
| failure_cancelled
| failure_remote (error : RemoteError)
| failure_unexpected.

#[export] Instance RemoteMutationSourceFailure_eq_dec : EqDecision RemoteMutationSourceFailure.
Proof. solve_decision. Defined.

(** ** remote/body-source.ts *)

Inductive RemoteBodySourceErrorKind : Type :=
| source_notConnected | source_remote | source_cancelled | source_unexpected.

#[export] Instance RemoteBodySourceErrorKind_eq_dec : EqDecision RemoteBodySourceErrorKind.
Proof. solve_decision. Defined.

(** ** e2ee/types.ts *)

Inductive E2eeErrorKind : Type :=
| multipleRecipientsUnsupported | keyUnavailable | peerKeyUnavailable | keyMismatch
| invalidPublicKey | e2ee_invalidEnvelope | metadataMismatch | authenticationFailed
| e2ee_unavailable | e2ee_unexpected.

#[export] Instance E2eeErrorKind_eq_dec : EqDecision E2eeErrorKind.
Proof. solve_decision. Defined.

(** ** sync/body-materialization-errors.ts *)

Inductive BodyMaterializationErrorKind : Type :=
| body_emailAbsent | body_notConnected | body_remote | body_local | body_invalidEnvelope
| body_metadataUnavailable | body_e2ee | body_cancelled | body_unexpected.

#[export] Instance BodyMaterializationErrorKind_eq_dec : EqDecision BodyMaterializationErrorKind.
Proof. solve_decision. Defined.

(** ** app/remote/errors.ts, app/remote/types.ts *)

Inductive RemoteApplicationErrorKind : Type :=
| app_auth | app_network | app_remote | app_local | app_accountMismatch
| app_accountSelectionRequired | app_notConnected | app_busy | app_cancelled | app_disposed
| app_unexpected.

#[export] Instance RemoteApplicationErrorKind_eq_dec : EqDecision RemoteApplicationErrorKind.
Proof. solve_decision. Defined.

(** ** jmap/errors.ts *)

Inductive JmapErrorRetryability : Type := retryable | terminal.

#[export] Instance JmapErrorRetryability_eq_dec : EqDecision JmapErrorRetryability.
Proof. solve_decision. Defined.

(** The subclasses of [JmapError]; the [originalError] of the second and third is
    diagnostic. *)
Inductive JmapFailure : Type :=
| JmapAuthError (message : string)
| JmapNetworkError (message : string)
| JmapSubmissionAmbiguousError (message : string)
| JmapMethodError (method type message : string).

#[export] Instance JmapFailure_eq_dec : EqDecision JmapFailure.
Proof. solve_decision. Defined.

Definition RETRYABLE_METHOD_ERROR_TYPES : list string :=
  ["serverFail"; "serverPartialFail"; "serverUnavailable"; "rateLimited"; "networkOrServerFail"].

(** The [retryability] each constructor passes to [JmapError]'s. *)
Definition jmap_retryability (error : JmapFailure) : JmapErrorRetryability :=
  match error with
  | JmapAuthError _ => terminal
  | JmapNetworkError _ => retryable
  | JmapSubmissionAmbiguousError _ => terminal
  | JmapMethodError _ type _ =>
      if bool_decide (type ∈ RETRYABLE_METHOD_ERROR_TYPES) then retryable else terminal
  end.

(** ** remote/native/ipc.ts: what the native side rejects with

    An object that is no instance of the classes above, read field by field: [kind]
    when it is a string, the next three as [String(x)] prints them, [code] as a
    template prints it ([None] when falsy). *)
Record NativeRejection : Type := mkNativeRejection {
  native_kind : option string;
  native_retry : string;
  native_session : string;
  native_outcome : string;
  native_code : option string;
}.

#[export] Instance NativeRejection_eq_dec : EqDecision NativeRejection.
Proof. solve_decision. Defined.

(** ** Everything a computation can throw

    [TransportFailure] is the record [{ kind: 'transportFailure', cause }] of
    ipc/local-engine-ipc-client.ts, thrown as it is. *)

Inductive exn : Type :=
| TypeError (message : string)
| RangeError (message : string)
| Error (message : string)
| ThrownRemoteError (error : RemoteError)
| RemoteMutationSourceError (failure : RemoteMutationSourceFailure)
| RemoteBodySourceError (kind : RemoteBodySourceErrorKind)
| BodyMaterializationError (kind : BodyMaterializationErrorKind) (e2eeKind : option E2eeErrorKind)
| TransportFailure (cause : exn)
| ThrownJmapError (error : JmapFailure)
| RemoteApplicationError (kind : RemoteApplicationErrorKind)
| ThrownNativeObject (value : NativeRejection)
| OtherThrown (value : string).

#[export] Instance exn_eq_dec : EqDecision exn.
Proof. solve_decision. Defined.

(** [m] throws nothing but [TypeError]s. *)
Definition only_type_errors {A} (m : outcome exn A) : Prop :=
  ∀ e, m = Throw e → ∃ message, e = TypeError message.

(** The statements of a function, one after the other. *)
Lemma type_errors_return {A} (a : A) : only_type_errors (Return a).
Proof. by intros e. Qed.
Lemma type_errors_throw {A} message : only_type_errors (A := A) (Throw (TypeError message)).
Proof. intros e [= <-]. by exists message. Qed.
Lemma type_errors_guard cond message : only_type_errors (throw_if cond (TypeError message)).
Proof. destruct cond; [apply type_errors_throw | apply type_errors_return]. Qed.
Lemma type_errors_bind {A B} (m : outcome exn A) (f : A → outcome exn B) :
  only_type_errors m → (∀ a, only_type_errors (f a)) → only_type_errors (m ≫= f).
Proof. intros Hm Hf e He. apply bind_throw in He as [He|(a & _ & He)]; [by apply Hm | by eapply Hf]. Qed.
Lemma type_errors_fmap {A B} (m : outcome exn A) (f : A → B) :
  only_type_errors m → only_type_errors (f <$> m).
Proof. intros Hm e He. apply Hm. destruct m; [done|]. by injection He as ->. Qed.
Lemma type_errors_mapM {A B} (f : A → outcome exn B) l :
  (∀ a, only_type_errors (f a)) → only_type_errors (mapM f l).
Proof.
  intros Hf. induction l as [|a l IH]; [apply type_errors_return|].
  rewrite mapM_cons_outcome. apply type_errors_bind; [done|]. intros b.
  apply type_errors_bind; [done|]. intros. apply type_errors_return.
Qed.

Create HintDb throws.
#[export] Hint Resolve type_errors_return type_errors_throw type_errors_guard type_errors_bind
  type_errors_fmap type_errors_mapM : throws.

(** Follow the control flow of a function, up to the functions it calls. *)
Ltac type_errors :=
  repeat first
    [ solve [eauto with throws]
    | apply type_errors_bind; [|intros ?]
    | match goal with
      | |- only_type_errors (match ?x with _ => _ end) => destruct x
      | |- only_type_errors (if ?x then _ else _) => destruct x
      end ].
