(* ===== verification/DomainIds.v ===== *)
(** * Domain identities: domain/ids.ts, domain/address.ts, domain/account.ts,
    domain/sync-cursor.ts

    Branded strings are plain strings (the brand exists at compile time only);
    a scoped id pairs an account key with a remote id. *)

From S2P Require Import Prelude.
From S2P Require Import JsNumber.
From S2P Require Import JsString.
From S2P Require Import Errors.
Open Scope string_scope.
Open Scope list_scope.
Open Scope js_scope.

(** ** domain/ids.ts *)

Definition AccountKey : Type := string.
Definition ServiceKey : Type := string.
Definition MutationId : Type := string.
Definition JmapAccountId : Type := string.
Definition JmapMailboxId : Type := string.
Definition JmapEmailId : Type := string.
Definition JmapIdentityId : Type := string.
Definition JmapThreadId : Type := string.
Definition JmapBlobId : Type := string.

Record ScopedId : Type := mkScopedId {
  accountKey : AccountKey;
  jmapId : string;
}.

Definition ScopedMailboxId : Type := ScopedId.
Definition ScopedEmailId : Type := ScopedId.
Definition ScopedIdentityId : Type := ScopedId.
Definition ScopedThreadId : Type := ScopedId.
Definition ScopedBlobId : Type := ScopedId.

#[export] Instance ScopedId_eq_dec : EqDecision ScopedId.
Proof. solve_decision. Defined.

Definition opaqueIdFromString (value typeName : string) : outcome exn string :=
  if is_empty value then Throw (TypeError (typeName +:+ " must not be empty"))
  else Return value.

Definition accountKeyFromString (value : string) : outcome exn AccountKey :=
  opaqueIdFromString value "AccountKey".
Definition serviceKeyFromString (value : string) : outcome exn ServiceKey :=
  opaqueIdFromString value "ServiceKey".
Definition mutationIdFromString (value : string) : outcome exn MutationId :=
  opaqueIdFromString value "MutationId".
Definition jmapAccountIdFromString (value : string) : outcome exn JmapAccountId :=
  opaqueIdFromString value "JmapAccountId".
Definition jmapMailboxIdFromString (value : string) : outcome exn JmapMailboxId :=
  opaqueIdFromString value "JmapMailboxId".
Definition jmapEmailIdFromString (value : string) : outcome exn JmapEmailId :=
  opaqueIdFromString value "JmapEmailId".
Definition jmapIdentityIdFromString (value : string) : outcome exn JmapIdentityId :=
  opaqueIdFromString value "JmapIdentityId".
Definition jmapThreadIdFromString (value : string) : outcome exn JmapThreadId :=
  opaqueIdFromString value "JmapThreadId".
Definition jmapBlobIdFromString (value : string) : outcome exn JmapBlobId :=
  opaqueIdFromString value "JmapBlobId".

Definition scopedMailboxId (accountKey : AccountKey) (jmapId : JmapMailboxId) : ScopedMailboxId :=
  {| accountKey := accountKey; jmapId := jmapId |}.
Definition scopedEmailId (accountKey : AccountKey) (jmapId : JmapEmailId) : ScopedEmailId :=
  {| accountKey := accountKey; jmapId := jmapId |}.
Definition scopedIdentityId (accountKey : AccountKey) (jmapId : JmapIdentityId) : ScopedIdentityId :=
  {| accountKey := accountKey; jmapId := jmapId |}.
Definition scopedThreadId (accountKey : AccountKey) (jmapId : JmapThreadId) : ScopedThreadId :=
  {| accountKey := accountKey; jmapId := jmapId |}.
Definition scopedBlobId (accountKey : AccountKey) (jmapId : JmapBlobId) : ScopedBlobId :=
  {| accountKey := accountKey; jmapId := jmapId |}.

Definition sameScopedId (left right : ScopedId) : bool :=
  (left.(accountKey) === right.(accountKey)) && (left.(jmapId) === right.(jmapId)).
Definition sameScopedMailboxId (left right : ScopedMailboxId) : bool := sameScopedId left right.
Definition sameScopedEmailId (left right : ScopedEmailId) : bool := sameScopedId left right.
Definition sameScopedIdentityId (left right : ScopedIdentityId) : bool := sameScopedId left right.
Definition sameScopedThreadId (left right : ScopedThreadId) : bool := sameScopedId left right.
Definition sameScopedBlobId (left right : ScopedBlobId) : bool := sameScopedId left right.

(** ** domain/address.ts *)

Record EmailAddress : Type := mkEmailAddress {
  address_name : option string;
  address_email : string;
}.
Definition EmailAddressList : Type := option (list EmailAddress).

#[export] Instance EmailAddress_eq_dec : EqDecision EmailAddress.
Proof. solve_decision. Defined.

Definition emailAddress (name : option string) (email : string) : EmailAddress :=
  {| address_name := name; address_email := email |}.

(** ** domain/account.ts *)

Record RemoteAccountRef : Type := mkRemoteAccountRef {
  serviceKey : ServiceKey;
  jmapAccountId : JmapAccountId;
}.

Record Account : Type := mkAccount {
  account_key : AccountKey;
  remoteRef : RemoteAccountRef;
}.

#[export] Instance RemoteAccountRef_eq_dec : EqDecision RemoteAccountRef.
Proof. solve_decision. Defined.
#[export] Instance Account_eq_dec : EqDecision Account.
Proof. solve_decision. Defined.

Definition remoteAccountRef (serviceKey : ServiceKey) (jmapAccountId : JmapAccountId) :
    RemoteAccountRef :=
  {| serviceKey := serviceKey; jmapAccountId := jmapAccountId |}.

Definition account (key : AccountKey) (remoteRef : RemoteAccountRef) : Account :=
  {| account_key := key; remoteRef := remoteRef |}.

Definition sameRemoteAccountRef (left right : RemoteAccountRef) : bool :=
  (left.(serviceKey) === right.(serviceKey)) && (left.(jmapAccountId) === right.(jmapAccountId)).

(** ** domain/sync-cursor.ts *)

Inductive CollectionDataType : Type := data_email | data_mailbox | data_identity.
Definition CollectionSyncState : Type := string.

#[export] Instance CollectionDataType_eq_dec : EqDecision CollectionDataType.
Proof. solve_decision. Defined.

Record CollectionSyncCursor : Type := mkCollectionSyncCursor {
  cursor_accountKey : AccountKey;
  cursor_dataType : CollectionDataType;
  cursor_state : CollectionSyncState;
}.

Definition collectionSyncStateFromString (value : string) : CollectionSyncState := value.

Definition collectionSyncCursor (input : CollectionSyncCursor) : CollectionSyncCursor :=
  {| cursor_accountKey := input.(cursor_accountKey);
     cursor_dataType := input.(cursor_dataType);
     cursor_state := input.(cursor_state) |}.

Definition sameCollectionSyncCursorIdentity (left right : CollectionSyncCursor) : bool :=
  (left.(cursor_accountKey) === right.(cursor_accountKey)) &&
  (left.(cursor_dataType) === right.(cursor_dataType)).

(** ** Facts *)

Lemma opaqueId_return value typeName s :
  opaqueIdFromString value typeName = Return s ↔ s = value ∧ value ≠ "".
Proof. unfold opaqueIdFromString. destruct value; simpl; naive_solver. Qed.

Lemma sameScopedId_spec a b : sameScopedId a b = true ↔ a = b.
Proof.
  unfold sameScopedId. rewrite andb_true_iff, !bool_decide_eq_true.
  destruct a, b; simpl; naive_solver.
Qed.

Lemma sameScopedId_false a b : sameScopedId a b = false ↔ a ≠ b.
Proof. rewrite <- not_true_iff_false, sameScopedId_spec. done. Qed.

Lemma sameScopedEmailId_spec a b : sameScopedEmailId a b = true ↔ a = b.
Proof. apply sameScopedId_spec. Qed.
Lemma sameScopedMailboxId_spec a b : sameScopedMailboxId a b = true ↔ a = b.
Proof. apply sameScopedId_spec. Qed.
Lemma sameScopedIdentityId_spec a b : sameScopedIdentityId a b = true ↔ a = b.
Proof. apply sameScopedId_spec. Qed.

Lemma sameRemoteAccountRef_spec a b : sameRemoteAccountRef a b = true ↔ a = b.
Proof.
  unfold sameRemoteAccountRef. rewrite andb_true_iff, !bool_decide_eq_true.
  destruct a, b; simpl; naive_solver.
Qed.

Lemma collectionSyncCursor_id c : collectionSyncCursor c = c.
Proof. by destruct c. Qed.
