(* ===== verification/DomainEmail.v ===== *)
(** * Messages: domain/email.ts, domain/email-body.ts, domain/attachment-ref.ts

    A factory takes a candidate value, throws a [TypeError] when it breaks a
    rule, and otherwise returns a snapshot of it. *)

From S2P Require Import Prelude.
From S2P Require Import JsNumber.
From S2P Require Import JsString.
From S2P Require Import JsCollections.
From S2P Require Import Errors.
From S2P Require Import DomainIds.
Open Scope string_scope.
Open Scope list_scope.
Open Scope js_scope.

(** ** domain/email.ts *)

(** The insertion-ordered elements of a [ReadonlySet<string>]. *)
Definition KeywordSet : Type := list string.

Record Email : Type := mkEmail {
  email_id : ScopedEmailId;
  email_blobId : ScopedBlobId;
  email_threadId : ScopedThreadId;
  email_sender : EmailAddressList;
  email_from : EmailAddressList;
  email_replyTo : EmailAddressList;
  email_to : EmailAddressList;
  email_cc : EmailAddressList;
  email_bcc : EmailAddressList;
  email_subject : option string;
  email_sentAt : option string;
  email_receivedAt : string;
  email_size : number;
  email_preview : string;
  email_hasAttachment : bool;
  email_keywords : KeywordSet;
}.

#[export] Instance Email_eq_dec : EqDecision Email.
Proof. solve_decision. Defined.

Fixpoint keywordSet_loop (values : list string) (result : KeywordSet) : outcome exn KeywordSet :=
  match values with
  | [] => Return result
  | value :: rest =>
      if is_empty value then Throw (TypeError "Keyword must not be empty")
      else keywordSet_loop rest (set_add value result)
  end.

Definition keywordSet (values : list string) : outcome exn KeywordSet :=
  keywordSet_loop values set_new.

Definition snapshotAddressList (value : EmailAddressList) : EmailAddressList :=
  match value with None => None | Some l => Some l end.

Definition email (input : Email) : outcome exn Email :=
  let accountKey0 := input.(email_id).(accountKey) in
  throw_if ((input.(email_blobId).(accountKey) !== accountKey0) ||
            (input.(email_threadId).(accountKey) !== accountKey0))
    (TypeError "Email id, blobId, and threadId must belong to the same AccountKey");;
  throw_if (negb (isSafeInteger input.(email_size)) || num_ltb input.(email_size) (Int 0))
    (TypeError "Email size must be a non-negative safe integer");;
  throw_if (is_empty input.(email_receivedAt))
    (TypeError "Email receivedAt must not be empty");;
  throw_if (input.(email_sentAt) === Some "")
    (TypeError "Email sentAt must be null or non-empty");;
  keywords ← keywordSet input.(email_keywords);
  Return {|
    email_id := input.(email_id);
    email_blobId := input.(email_blobId);
    email_threadId := input.(email_threadId);
    email_sender := snapshotAddressList input.(email_sender);
    email_from := snapshotAddressList input.(email_from);
    email_replyTo := snapshotAddressList input.(email_replyTo);
    email_to := snapshotAddressList input.(email_to);
    email_cc := snapshotAddressList input.(email_cc);
    email_bcc := snapshotAddressList input.(email_bcc);
    email_subject := input.(email_subject);
    email_sentAt := input.(email_sentAt);
    email_receivedAt := input.(email_receivedAt);
    email_size := input.(email_size);
    email_preview := input.(email_preview);
    email_hasAttachment := input.(email_hasAttachment);
    email_keywords := keywords;
  |}.

(** ** domain/email-body.ts *)

Record EmailBody : Type := mkEmailBody {
  body_emailId : ScopedEmailId;
  body_text : option string;
  body_html : option string;
}.

#[export] Instance EmailBody_eq_dec : EqDecision EmailBody.
Proof. solve_decision. Defined.

Definition emailBody (input : EmailBody) : EmailBody :=
  {| body_emailId := input.(body_emailId);
     body_text := input.(body_text);
     body_html := input.(body_html) |}.

Definition sameEmailBodyIdentity (left right : EmailBody) : bool :=
  sameScopedEmailId left.(body_emailId) right.(body_emailId).

(** ** domain/attachment-ref.ts *)

Definition AttachmentPartId : Type := string.

Record AttachmentRef : Type := mkAttachmentRef {
  att_emailId : ScopedEmailId;
  att_partId : AttachmentPartId;
  att_blobId : ScopedBlobId;
  att_name : option string;
  att_mediaType : string;
  att_size : number;
  att_disposition : option string;
  att_cid : option string;
}.

#[export] Instance AttachmentRef_eq_dec : EqDecision AttachmentRef.
Proof. solve_decision. Defined.

Definition attachmentPartIdFromString (value : string) : AttachmentPartId := value.

Definition attachmentRef (input : AttachmentRef) : outcome exn AttachmentRef :=
  throw_if (input.(att_emailId).(accountKey) !== input.(att_blobId).(accountKey))
    (TypeError "AttachmentRef emailId and blobId must belong to the same AccountKey");;
  throw_if (is_empty input.(att_mediaType))
    (TypeError "AttachmentRef mediaType must not be empty");;
  throw_if (startsWith (toLowerCase input.(att_mediaType)) "multipart/")
    (TypeError "AttachmentRef mediaType must not be multipart");;
  throw_if (negb (isSafeInteger input.(att_size)) || num_ltb input.(att_size) (Int 0))
    (TypeError "AttachmentRef size must be a non-negative safe integer");;
  Return {|
    att_emailId := input.(att_emailId);
    att_partId := input.(att_partId);
    att_blobId := input.(att_blobId);
    att_name := input.(att_name);
    att_mediaType := input.(att_mediaType);
    att_size := input.(att_size);
    att_disposition := input.(att_disposition);
    att_cid := input.(att_cid);
  |}.

Definition sameAttachmentRefIdentity (left right : AttachmentRef) : bool :=
  sameScopedEmailId left.(att_emailId) right.(att_emailId) &&
  (left.(att_partId) === right.(att_partId)).

(** ** Well-formed values: the rules the factories enforce *)

(** A size or a count: a non-negative safe integer. *)
Definition nonneg_safe (n : number) : Prop := ∃ z, n = Int z ∧ (0 <= z <= MAX_SAFE_INTEGER)%Z.

Definition keywords_wf (k : KeywordSet) : Prop := NoDup k ∧ Forall (λ s, s ≠ "") k.

Record email_wf (e : Email) : Prop := {
  email_wf_blob : e.(email_blobId).(accountKey) = e.(email_id).(accountKey);
  email_wf_thread : e.(email_threadId).(accountKey) = e.(email_id).(accountKey);
  email_wf_size : nonneg_safe e.(email_size);
  email_wf_received : e.(email_receivedAt) ≠ "";
  email_wf_sent : e.(email_sentAt) ≠ Some "";
  email_wf_keywords : keywords_wf e.(email_keywords);
}.

Record attachment_wf (a : AttachmentRef) : Prop := {
  attachment_wf_account : a.(att_emailId).(accountKey) = a.(att_blobId).(accountKey);
  attachment_wf_media : a.(att_mediaType) ≠ "";
  attachment_wf_leaf : startsWith (toLowerCase a.(att_mediaType)) "multipart/" = false;
  attachment_wf_size : nonneg_safe a.(att_size);
}.

(** ** Facts *)

Lemma size_guard n :
  negb (isSafeInteger n) || num_ltb n (Int 0) = false ↔ nonneg_safe n.
Proof.
  rewrite orb_false_iff, negb_false_iff, isSafeInteger_spec. split.
  - intros [(z & -> & Hz) Hlt]. rewrite num_ltb_Int, Z.ltb_ge in Hlt. exists z. split; [done|lia].
  - intros (z & -> & Hz). rewrite num_ltb_Int, Z.ltb_ge. split; [|lia]. exists z. split; [done|lia].
Qed.

Lemma keywordSet_loop_return values result k :
  keywordSet_loop values result = Return k ↔
  Forall (λ s, s ≠ "") values ∧ k = fold_left (λ s x, set_add x s) values result.
Proof.
  revert result. induction values as [|v values IH]; intros result; simpl.
  - split; [intros [= ->]; by split | by intros [_ ->]].
  - destruct (is_empty v) eqn:Hv.
    + apply is_empty_true in Hv. split; [done|]. intros [Hall _]. by inversion Hall.
    + apply is_empty_false in Hv. rewrite IH, Forall_cons. naive_solver.
Qed.

Lemma keywordSet_return values k :
  keywordSet values = Return k ↔ Forall (λ s, s ≠ "") values ∧ k = set_of_list values.
Proof. apply keywordSet_loop_return. Qed.

Lemma keywordSet_wf values k : keywordSet values = Return k → keywords_wf k.
Proof.
  intros [Hne ->]%keywordSet_return. split; [apply set_of_list_NoDup|].
  rewrite Forall_forall in *. intros s Hs. apply Hne. by apply set_of_list_elem.
Qed.

Lemma keywordSet_id k : keywords_wf k → keywordSet k = Return k.
Proof. intros [Hnd Hne]. apply keywordSet_return. split; [done|]. by rewrite set_of_list_id. Qed.

Lemma email_return_wf i e : email i = Return e → email_wf e.
Proof.
  unfold email. intros H. run_guards H. bool_hyps.
  constructor; simpl; try done.
  - by apply size_guard, orb_false_iff; split; [apply negb_false_iff|].
  - by apply is_empty_false.
  - by eapply keywordSet_wf.
Qed.

Lemma email_return_id i e : email i = Return e → email_id e = email_id i.
Proof. unfold email. intros H. by run_guards H. Qed.

Lemma email_id_wf e : email_wf e → email e = Return e.
Proof.
  intros [Hb Ht Hs Hr Hsent Hk]. unfold email.
  pass_guard by (apply orb_false_iff; split; by apply differs_false).
  pass_guard by (by apply size_guard).
  pass_guard by (by apply is_empty_false).
  pass_guard by (by apply bool_decide_eq_false).
  rewrite (keywordSet_id _ Hk). destruct e as [? ? ? s f r t c b]. simpl.
  destruct s, f, r, t, c, b; reflexivity.
Qed.

Lemma attachmentRef_return i a : attachmentRef i = Return a ↔ attachment_wf i ∧ a = i.
Proof.
  unfold attachmentRef. split.
  - intros H. run_guards H. bool_hyps. split; [|by destruct i].
    constructor; simpl; try done; [by apply is_empty_false|].
    by apply size_guard, orb_false_iff; split; [apply negb_false_iff|].
  - intros [[Ha Hm Hl Hs] ->].
    pass_guard by (by apply differs_false).
    pass_guard by (by apply is_empty_false).
    pass_guard by done.
    pass_guard by (by apply size_guard).
    by destruct i.
Qed.

Lemma emailBody_id b : emailBody b = b.
Proof. by destruct b. Qed.

Lemma attachmentRef_id a : attachment_wf a → attachmentRef a = Return a.
Proof. intros. by apply attachmentRef_return. Qed.
