(* ===== verification/DomainMailbox.v ===== *)
(** * Mailboxes: domain/mailbox.ts *)

From S2P Require Import Prelude.
From S2P Require Import JsNumber.
From S2P Require Import JsString.
From S2P Require Import Errors.
From S2P Require Import DomainIds.
From S2P Require Import DomainEmail.
Open Scope string_scope.
Open Scope list_scope.
Open Scope js_scope.

Definition MailboxRole : Type := string.

Record MailboxRights : Type := mkMailboxRights {
  mayReadItems : bool;
  mayAddItems : bool;
  mayRemoveItems : bool;
  maySetSeen : bool;
  maySetKeywords : bool;
  maySubmit : bool;
}.

Record Mailbox : Type := mkMailbox {
  mailbox_id : ScopedMailboxId;
  mailbox_name : string;
  mailbox_parent : option ScopedMailboxId;
  mailbox_role : option MailboxRole;
  mailbox_sortOrder : number;
  mailbox_totalEmails : number;
  mailbox_unreadEmails : number;
  mailbox_rights : MailboxRights;
}.

Record EmailMailbox : Type := mkEmailMailbox {
  em_emailId : ScopedEmailId;
  em_mailboxId : ScopedMailboxId;
}.

#[export] Instance MailboxRights_eq_dec : EqDecision MailboxRights.
Proof. solve_decision. Defined.
#[export] Instance Mailbox_eq_dec : EqDecision Mailbox.
Proof. solve_decision. Defined.
#[export] Instance EmailMailbox_eq_dec : EqDecision EmailMailbox.
Proof. solve_decision. Defined.

Definition MAX_SORT_ORDER : number := Int (2 ^ 31).

Definition mailboxRights (input : MailboxRights) : MailboxRights :=
  {| mayReadItems := input.(mayReadItems);
     mayAddItems := input.(mayAddItems);
     mayRemoveItems := input.(mayRemoveItems);
     maySetSeen := input.(maySetSeen);
     maySetKeywords := input.(maySetKeywords);
     maySubmit := input.(maySubmit) |}.

Definition assertMailboxCount (value : number) (fieldName : string) : outcome exn unit :=
  throw_if (negb (isSafeInteger value) || num_ltb value (Int 0))
    (TypeError (fieldName +:+ " must be a non-negative safe integer")).

Definition mailbox (input : Mailbox) : outcome exn Mailbox :=
  throw_if (is_empty input.(mailbox_name)) (TypeError "Mailbox name must not be empty");;
  match input.(mailbox_parent) with
  | None => Return tt
  | Some parent =>
      throw_if (parent.(accountKey) !== input.(mailbox_id).(accountKey))
        (TypeError "Mailbox parent must belong to the same AccountKey");;
      throw_if (sameScopedMailboxId parent input.(mailbox_id))
        (TypeError "Mailbox cannot be its own parent")
  end;;
  throw_if (input.(mailbox_role) === Some "")
    (TypeError "Mailbox role must be null or non-empty");;
  throw_if (negb (isInteger input.(mailbox_sortOrder)) ||
            num_ltb input.(mailbox_sortOrder) (Int 0) ||
            num_leb MAX_SORT_ORDER input.(mailbox_sortOrder))
    (TypeError "Mailbox sortOrder must be an integer between 0 and 2^31 - 1");;
  assertMailboxCount input.(mailbox_totalEmails) "Mailbox totalEmails";;
  assertMailboxCount input.(mailbox_unreadEmails) "Mailbox unreadEmails";;
  throw_if (num_ltb input.(mailbox_totalEmails) input.(mailbox_unreadEmails))
    (TypeError "Mailbox unreadEmails must not exceed totalEmails");;
  Return {|
    mailbox_id := input.(mailbox_id);
    mailbox_name := input.(mailbox_name);
    mailbox_parent := input.(mailbox_parent);
    mailbox_role := input.(mailbox_role);
    mailbox_sortOrder := input.(mailbox_sortOrder);
    mailbox_totalEmails := input.(mailbox_totalEmails);
    mailbox_unreadEmails := input.(mailbox_unreadEmails);
    mailbox_rights := mailboxRights input.(mailbox_rights);
  |}.

Definition emailMailbox (emailId : ScopedEmailId) (mailboxId : ScopedMailboxId) :
    outcome exn EmailMailbox :=
  throw_if (emailId.(accountKey) !== mailboxId.(accountKey))
    (TypeError "EmailMailbox emailId and mailboxId must belong to the same AccountKey");;
  Return {| em_emailId := emailId; em_mailboxId := mailboxId |}.

Definition sameEmailMailbox (left right : EmailMailbox) : bool :=
  sameScopedEmailId left.(em_emailId) right.(em_emailId) &&
  sameScopedMailboxId left.(em_mailboxId) right.(em_mailboxId).

(** ** The rules the factories enforce *)

Record mailbox_wf (m : Mailbox) : Prop := {
  mailbox_wf_name : m.(mailbox_name) ≠ "";
  mailbox_wf_parent : ∀ p, m.(mailbox_parent) = Some p →
    p.(accountKey) = m.(mailbox_id).(accountKey) ∧ p ≠ m.(mailbox_id);
  mailbox_wf_role : m.(mailbox_role) ≠ Some "";
  mailbox_wf_sort : ∃ z, m.(mailbox_sortOrder) = Int z ∧ (0 <= z < 2 ^ 31)%Z;
  mailbox_wf_counts : ∃ total unread,
    m.(mailbox_totalEmails) = Int total ∧ m.(mailbox_unreadEmails) = Int unread ∧
    (0 <= unread <= total)%Z ∧ (total <= MAX_SAFE_INTEGER)%Z;
}.

Lemma sort_guard n :
  negb (isInteger n) || num_ltb n (Int 0) || num_leb MAX_SORT_ORDER n = false ↔
  ∃ z, n = Int z ∧ (0 <= z < 2 ^ 31)%Z.
Proof.
  unfold MAX_SORT_ORDER. destruct n as [z| | |]; simpl isInteger; simpl negb;
    try (split; [done | intros (z & ? & _); done]).
  rewrite num_ltb_Int, num_leb_Int, !orb_false_iff, Z.ltb_ge, Z.leb_gt. split.
  - intros [[_ ?] ?]. exists z. split; [done|lia].
  - intros (z' & [= ->] & ?). split_and!; [done|lia|lia].
Qed.

Lemma mailbox_return i m : mailbox i = Return m ↔ mailbox_wf i ∧ m = i.
Proof.
  unfold mailbox, assertMailboxCount. split.
  - intros H. run_guards H.
    repeat match goal with H : _ |- _ => apply size_guard in H as (? & ? & ?) end.
    split; [constructor|].
    + by apply is_empty_false.
    + intros p Hp. rewrite Hp in *. run_guards Hg0.
      split; [by apply differs_false | by apply sameScopedId_false].
    + by eapply bool_decide_eq_false.
    + by apply sort_guard.
    + match goal with Hu : num_ltb _ (mailbox_unreadEmails i) = false |- _ =>
        repeat match goal with E : _ = Int _ |- _ => rewrite E in Hu end;
        rewrite num_ltb_Int, Z.ltb_ge in Hu
      end. naive_solver lia.
    + destruct i as [? ? ? ? ? ? ? []]. done.
  - intros [[Hn Hp Hr Hs (total & unread & Ht & Hu & Hc & Hmax)] ->].
    pass_guard by (by apply is_empty_false).
    rewrite bind_return. exists tt. split.
    { destruct (mailbox_parent i) as [p|]; [|done]. destruct (Hp p) as [Hacc Hself]; [done|].
      pass_guard by (by apply differs_false). apply throw_if_return. by apply sameScopedId_false. }
    pass_guard by (by apply bool_decide_eq_false).
    pass_guard by (by apply sort_guard).
    pass_guard by (apply size_guard; exists total; split; [done|lia]).
    pass_guard by (apply size_guard; exists unread; split; [done|lia]).
    pass_guard by (rewrite Ht, Hu, num_ltb_Int; apply Z.ltb_ge; lia).
    destruct i as [? ? ? ? ? ? ? []]. done.
Qed.

Lemma mailbox_id_wf m : mailbox_wf m → mailbox m = Return m.
Proof. intros. by apply mailbox_return. Qed.

Lemma emailMailbox_return e m em :
  emailMailbox e m = Return em ↔
  accountKey e = accountKey m ∧ em = {| em_emailId := e; em_mailboxId := m |}.
Proof.
  unfold emailMailbox. rewrite bind_return. setoid_rewrite throw_if_return.
  setoid_rewrite differs_false. naive_solver.
Qed.
