(* ===== verification/MailboxView.v ===== *)
(** * Mailbox views: domain/mailbox-view.ts

    A view is a partial materialisation of a query result: the positions that
    are known ([coverage], a list of half-open ranges) and the email at each. *)

From S2P Require Import Prelude.
From S2P Require Import JsNumber.
From S2P Require Import JsString.
From S2P Require Import Errors.
From S2P Require Import DomainIds.
From S2P Require Import DomainEmail.
Open Scope string_scope.
Open Scope list_scope.
Open Scope js_scope.

(** [{ kind: 'all' }] is the only filter, ['receivedAt'] the only sort property. *)
Inductive FilterKind : Type := filter_all.
Inductive SortProperty : Type := sort_receivedAt.
Inductive SortDirection : Type := ascending | descending.

Record MailboxViewFilterSpec : Type := mkFilterSpec { filter_kind : FilterKind }.
Record MailboxViewSortSpec : Type := mkSortSpec {
  sort_property : SortProperty;
  sort_direction : SortDirection;
}.
Record MailboxViewSpec : Type := mkMailboxViewSpec {
  spec_mailboxId : ScopedMailboxId;
  spec_filter : MailboxViewFilterSpec;
  spec_sort : MailboxViewSortSpec;
}.
Definition MailboxViewQueryState : Type := string.
Record MailboxViewCoverageRange : Type := mkRange { range_start : number; range_end : number }.
Definition MailboxViewCoverage : Type := list MailboxViewCoverageRange.
Record MailboxViewItem : Type := mkItem { item_position : number; item_emailId : ScopedEmailId }.
Record MailboxView : Type := mkMailboxView {
  view_spec : MailboxViewSpec;
  view_queryState : MailboxViewQueryState;
  view_total : number;
  view_coverage : MailboxViewCoverage;
  view_items : list MailboxViewItem;
}.

#[export] Instance FilterKind_eq_dec : EqDecision FilterKind.
Proof. solve_decision. Defined.
#[export] Instance SortProperty_eq_dec : EqDecision SortProperty.
Proof. solve_decision. Defined.
#[export] Instance SortDirection_eq_dec : EqDecision SortDirection.
Proof. solve_decision. Defined.
#[export] Instance MailboxViewFilterSpec_eq_dec : EqDecision MailboxViewFilterSpec.
Proof. solve_decision. Defined.
#[export] Instance MailboxViewSortSpec_eq_dec : EqDecision MailboxViewSortSpec.
Proof. solve_decision. Defined.
#[export] Instance MailboxViewSpec_eq_dec : EqDecision MailboxViewSpec.
Proof. solve_decision. Defined.
#[export] Instance MailboxViewCoverageRange_eq_dec : EqDecision MailboxViewCoverageRange.
Proof. solve_decision. Defined.
#[export] Instance MailboxViewItem_eq_dec : EqDecision MailboxViewItem.
Proof. solve_decision. Defined.
#[export] Instance MailboxView_eq_dec : EqDecision MailboxView.
Proof. solve_decision. Defined.

Definition mailboxViewFilterAll : MailboxViewFilterSpec := {| filter_kind := filter_all |}.

Definition mailboxViewSort (direction : SortDirection) : MailboxViewSortSpec :=
  {| sort_property := sort_receivedAt; sort_direction := direction |}.

Definition mailboxViewSpec (mailboxId : ScopedMailboxId) (filter : MailboxViewFilterSpec)
    (sort : MailboxViewSortSpec) : MailboxViewSpec :=
  {| spec_mailboxId := mailboxId;
     spec_filter := {| filter_kind := filter.(filter_kind) |};
     spec_sort := {| sort_property := sort.(sort_property);
                     sort_direction := sort.(sort_direction) |} |}.

Definition sameMailboxViewSpec (left right : MailboxViewSpec) : bool :=
  sameScopedMailboxId left.(spec_mailboxId) right.(spec_mailboxId) &&
  (left.(spec_filter).(filter_kind) === right.(spec_filter).(filter_kind)) &&
  (left.(spec_sort).(sort_property) === right.(spec_sort).(sort_property)) &&
  (left.(spec_sort).(sort_direction) === right.(spec_sort).(sort_direction)).

Definition mailboxViewQueryStateFromString (value : string) : outcome exn MailboxViewQueryState :=
  if is_empty value then Throw (TypeError "MailboxViewQueryState must not be empty")
  else Return value.

Definition assertNonNegativeSafeInteger (value : number) (fieldName : string) : outcome exn unit :=
  throw_if (negb (isSafeInteger value) || num_ltb value (Int 0))
    (TypeError (fieldName +:+ " must be a non-negative safe integer")).

Definition assertCoverageRangeShape (range : MailboxViewCoverageRange) : outcome exn unit :=
  assertNonNegativeSafeInteger range.(range_start) "Coverage start";;
  assertNonNegativeSafeInteger range.(range_end) "Coverage endExclusive";;
  throw_if (num_leb range.(range_end) range.(range_start))
    (TypeError "Coverage range must not be empty or reversed").

Definition mailboxViewCoverageRange (start endExclusive : number) :
    outcome exn MailboxViewCoverageRange :=
  let range := {| range_start := start; range_end := endExclusive |} in
  assertCoverageRangeShape range;;
  Return range.

Definition assertItemPosition (position : number) : outcome exn unit :=
  assertNonNegativeSafeInteger position "MailboxViewItem position".

Definition mailboxViewItem (position : number) (emailId : ScopedEmailId) :
    outcome exn MailboxViewItem :=
  assertItemPosition position;;
  Return {| item_position := position; item_emailId := emailId |}.

(** The body of [for (const range of coverage)], with [previousEnd]. *)
Fixpoint validateCoverage_loop (coverage : MailboxViewCoverage) (total : number)
    (previousEnd : option number) : outcome exn unit :=
  match coverage with
  | [] => Return tt
  | range :: rest =>
      assertCoverageRangeShape range;;
      throw_if (num_ltb total range.(range_end))
        (TypeError "Coverage range must not exceed MailboxView total");;
      throw_if (match previousEnd with
                | Some previous => num_leb range.(range_start) previous
                | None => false
                end)
        (TypeError "Coverage ranges must be ordered, disjoint, and non-adjacent");;
      validateCoverage_loop rest total (Some range.(range_end))
  end.

Definition validateCoverage (coverage : MailboxViewCoverage) (total : number) : outcome exn unit :=
  validateCoverage_loop coverage total None.

(** The body of [for (const item of items)], with its two variables. *)
Fixpoint validateItems_loop (items : list MailboxViewItem) (account : AccountKey)
    (previousPosition : option number) (knownEmailIds : list ScopedEmailId) : outcome exn unit :=
  match items with
  | [] => Return tt
  | item :: rest =>
      assertItemPosition item.(item_position);;
      throw_if (match previousPosition with
                | Some previous => num_leb item.(item_position) previous
                | None => false
                end)
        (TypeError "MailboxViewItem positions must be strictly ascending");;
      throw_if (item.(item_emailId).(accountKey) !== account)
        (TypeError "MailboxViewItem emailId must belong to the View AccountKey");;
      throw_if (existsb (λ emailId, sameScopedEmailId emailId item.(item_emailId)) knownEmailIds)
        (TypeError "MailboxView must not contain a duplicate Email ID");;
      validateItems_loop rest account (Some item.(item_position))
        (knownEmailIds ++ [item.(item_emailId)])
  end.

Definition validateItems (items : list MailboxViewItem) (account : AccountKey) :
    outcome exn unit :=
  validateItems_loop items account None [].

Definition coverage_mismatch : exn :=
  TypeError "MailboxView coverage and item positions must match exactly".

(** The [while] loop of one range.  [itemIndex] is represented by the suffix of
    [items] that starts there. *)
Fixpoint consume_range (items : list MailboxViewItem) (expectedPosition endExclusive : number) :
    outcome exn (number * list MailboxViewItem) :=
  match items with
  | [] => Return (expectedPosition, [])
  | item :: rest =>
      if num_ltb item.(item_position) endExclusive then
        throw_if (negb (num_eqb item.(item_position) expectedPosition)) coverage_mismatch;;
        consume_range rest (num_add expectedPosition (Int 1)) endExclusive
      else Return (expectedPosition, items)
  end.

Fixpoint validateCoverageItems_loop (coverage : MailboxViewCoverage)
    (items : list MailboxViewItem) : outcome exn (list MailboxViewItem) :=
  match coverage with
  | [] => Return items
  | range :: rest =>
      r ← consume_range items range.(range_start) range.(range_end);
      throw_if (negb (num_eqb r.1 range.(range_end))) coverage_mismatch;;
      validateCoverageItems_loop rest r.2
  end.

Definition validateCoverageItems (coverage : MailboxViewCoverage)
    (items : list MailboxViewItem) : outcome exn unit :=
  rest ← validateCoverageItems_loop coverage items;
  throw_if (match rest with [] => false | _ => true end)
    (TypeError "MailboxView items must not exist outside declared coverage").

Definition mailboxView (input : MailboxView) : outcome exn MailboxView :=
  assertNonNegativeSafeInteger input.(view_total) "MailboxView total";;
  validateCoverage input.(view_coverage) input.(view_total);;
  validateItems input.(view_items) input.(view_spec).(spec_mailboxId).(accountKey);;
  validateCoverageItems input.(view_coverage) input.(view_items);;
  Return {|
    view_spec := mailboxViewSpec input.(view_spec).(spec_mailboxId)
                   input.(view_spec).(spec_filter) input.(view_spec).(spec_sort);
    view_queryState := input.(view_queryState);
    view_total := input.(view_total);
    view_coverage := map (λ range, {| range_start := range.(range_start);
                                      range_end := range.(range_end) |})
                       input.(view_coverage);
    view_items := map (λ item, {| item_position := item.(item_position);
                                  item_emailId := item.(item_emailId) |})
                    input.(view_items);
  |}.

(** ** What a view must satisfy

    [coverage_wf total lower coverage]: the ranges are non-empty, within
    [total], and separated: each starts strictly above the end of the previous
    one ([lower]). *)
Fixpoint coverage_wf (total : Z) (lower : option Z) (coverage : list (Z * Z)) : Prop :=
  match coverage with
  | [] => True
  | (s, e) :: rest =>
      (0 <= s < e)%Z ∧ (e <= total)%Z ∧ (∀ l, lower = Some l → (l < s)%Z) ∧
      coverage_wf total (Some e) rest
  end.

(** The positions a list of ranges covers, in order. *)
Definition covered (coverage : list (Z * Z)) : list Z :=
  flat_map (λ r, seqZ r.1 (r.2 - r.1)) coverage.

Definition int_range (r : Z * Z) : MailboxViewCoverageRange :=
  {| range_start := Int r.1; range_end := Int r.2 |}.

(** A well-formed view: its items sit exactly at the covered positions, in
    ascending order, with distinct emails of the view's account. *)
Definition view_wf (v : MailboxView) : Prop :=
  ∃ (total : Z) (coverage : list (Z * Z)),
    v.(view_total) = Int total ∧ (0 <= total <= MAX_SAFE_INTEGER)%Z ∧
    v.(view_coverage) = map int_range coverage ∧ coverage_wf total None coverage ∧
    map item_position v.(view_items) = map Int (covered coverage) ∧
    NoDup (map item_emailId v.(view_items)) ∧
    Forall (λ item, item.(item_emailId).(accountKey) = v.(view_spec).(spec_mailboxId).(accountKey))
      v.(view_items).

(** ** The validators decide it *)

Lemma assert_nonneg_return n name u :
  assertNonNegativeSafeInteger n name = Return u ↔ nonneg_safe n.
Proof. unfold assertNonNegativeSafeInteger. rewrite throw_if_return. apply size_guard. Qed.

Lemma assertCoverageRangeShape_return r u :
  assertCoverageRangeShape r = Return u ↔
  ∃ s e, r = int_range (s, e) ∧ (0 <= s < e)%Z ∧ (e <= MAX_SAFE_INTEGER)%Z.
Proof.
  unfold assertCoverageRangeShape. rewrite !seq_return, !assert_nonneg_return, throw_if_return.
  split.
  - intros ((s & Hs & ?) & (e & He & ?) & Hlt). rewrite Hs, He, num_leb_Int, Z.leb_gt in Hlt.
    exists s, e. destruct r as [rs re]; simpl in *; subst. split; [done|lia].
  - intros (s & e & -> & ? & ?). unfold int_range; simpl. rewrite num_leb_Int, Z.leb_gt.
    split_and!; [exists s|exists e|]; try split; try done; lia.
Qed.

Lemma validateCoverage_loop_return cov total lower u :
  (total <= MAX_SAFE_INTEGER)%Z →
  validateCoverage_loop cov (Int total) (Int <$> lower) = Return u ↔
  ∃ c, cov = map int_range c ∧ coverage_wf total lower c.
Proof.
  intros Htotal. revert lower. induction cov as [|r cov IH]; intros lower; simpl.
  - destruct u. split; [intros _; by exists [] | done].
  - rewrite !seq_return, !throw_if_return, assertCoverageRangeShape_return. split.
    + intros ((s & e & -> & Hse & He) & Ht & Hl & H). simpl in *.
      apply (IH (Some e)) in H as (c & -> & Hc). rewrite num_ltb_Int, Z.ltb_ge in Ht.
      exists ((s, e) :: c). split; [done|]. simpl. split_and!; try done; try lia.
      intros l ->. simpl in Hl. rewrite num_leb_Int, Z.leb_gt in Hl. done.
    + intros ([|[s e] c] & Hc & Hwf); simplify_eq/=. destruct Hwf as (? & ? & Hl & Hwf).
      rewrite num_ltb_Int, Z.ltb_ge. split_and!; [|lia| |apply (IH (Some e)); by exists c].
      * exists s, e. split_and!; [done|lia..].
      * destruct lower as [l|]; simpl; [|done]. rewrite num_leb_Int. apply Z.leb_gt. by apply Hl.
Qed.

(** Strictly ascending, and above [lower]. *)
Fixpoint ascending_from (lower : option Z) (l : list Z) : Prop :=
  match l with
  | [] => True
  | x :: l' => (0 <= x <= MAX_SAFE_INTEGER)%Z ∧ (∀ y, lower = Some y → (y < x)%Z) ∧
      ascending_from (Some x) l'
  end.

Lemma validateItems_loop_return items ak lower known u :
  validateItems_loop items ak (Int <$> lower) known = Return u ↔
  (∃ l, map item_position items = map Int l ∧ ascending_from lower l) ∧
  Forall (λ item, item.(item_emailId).(accountKey) = ak) items ∧
  NoDup (map item_emailId items) ∧ (∀ id, id ∈ map item_emailId items → id ∉ known).
Proof.
  revert lower known. induction items as [|i items IH]; intros lower known; simpl.
  - destruct u. split; [intros _ | done]. split_and!; [by exists []|constructor|constructor|].
    intros id Hid. by apply not_elem_of_nil in Hid.
  - rewrite !seq_return, !throw_if_return, differs_false, existsb_false_forall, Forall_cons,
      NoDup_cons. unfold assertItemPosition. rewrite assert_nonneg_return. split.
    + intros ((p & Hp & Hpr) & Hl & Hak & Hk & H).
      rewrite Hp in H. apply (IH (Some p)) in H as ((l & Hpos & Hasc) & Hall & Hnd & Hdis).
      setoid_rewrite elem_of_app in Hdis. setoid_rewrite list_elem_of_singleton in Hdis.
      split_and!; try done.
      * exists (p :: l). simpl. split; [congruence|]. split_and!; try done; try lia.
        intros y ->. rewrite Hp in Hl. simpl in Hl. rewrite num_leb_Int, Z.leb_gt in Hl. done.
      * intros Hin. eapply Hdis; [exact Hin|]. by right.
      * intros id [->|Hid]%elem_of_cons; [|intros Hin; eapply Hdis; [done|by left]].
        intros Hin. apply Hk, sameScopedId_false in Hin. done.
    + intros (([|p l] & Hpos & Hasc) & [Hak Hall] & [Hni Hnd] & Hdis); simplify_eq/=.
      destruct Hasc as (? & Hl & Hasc). match goal with H : item_position i = _ |- _ => rename H into Hi end.
      split_and!; [by exists p| |done| |].
      * destruct lower as [y|]; simpl; [|done]. rewrite Hi, num_leb_Int. apply Z.leb_gt. by apply Hl.
      * intros x Hx. apply sameScopedId_false. intros ->. eapply Hdis; [by left|done].
      * rewrite Hi. apply (IH (Some p)). split_and!; try done; [by exists l|].
        intros id Hid [Hin|Hin%list_elem_of_singleton]%elem_of_app; [eapply Hdis; [by right|done]|].
        by subst.
Qed.

Lemma covered_cons s e c : covered ((s, e) :: c) = seqZ s (e - s) ++ covered c.
Proof. reflexivity. Qed.

Lemma covered_bounds total lower c x :
  coverage_wf total lower c → x ∈ covered c →
  (0 <= x < total)%Z ∧ (∀ l, lower = Some l → (l < x)%Z).
Proof.
  revert lower. induction c as [|[s e] c IH]; intros lower; simpl coverage_wf.
  - intros _ Hx. by apply not_elem_of_nil in Hx.
  - intros (? & ? & Hl & Hwf). rewrite covered_cons, elem_of_app, elem_of_seqZ. intros [Hx|Hx].
    + split; [lia|]. intros l Hlower. specialize (Hl l Hlower). lia.
    + destruct (IH _ Hwf Hx) as [Hb Hle]. specialize (Hle e eq_refl).
      split; [lia|]. intros l Hlower. specialize (Hl l Hlower). lia.
Qed.

Lemma ascending_seqZ s n lower rest :
  (0 <= s)%Z → (s + n <= MAX_SAFE_INTEGER)%Z → (0 < n)%Z → (∀ y, lower = Some y → (y < s)%Z) →
  ascending_from (Some (s + n - 1)%Z) rest → ascending_from lower (seqZ s n ++ rest).
Proof.
  intros Hs Hmax Hn. revert s Hs Hmax lower. pattern n.
  apply Zlt_lower_bound_ind with 1%Z; [|lia]. clear n Hn. intros n IH Hn s Hs Hmax lower Hl Hrest.
  rewrite seqZ_cons by lia. simpl. split_and!; try lia; [done|].
  destruct (Z.eq_dec n 1%Z) as [->|Hn1].
  - simpl. replace (s + 1 - 1)%Z with s in Hrest by lia. done.
  - apply IH; try lia; [intros y [= <-]; lia|]. by replace (Z.succ s + Z.pred n - 1)%Z with (s + n - 1)%Z by lia.
Qed.

Lemma ascending_weaken lower lower' l :
  (∀ y, lower' = Some y → ∃ x, lower = Some x ∧ (y <= x)%Z) →
  ascending_from lower l → ascending_from lower' l.
Proof.
  destruct l as [|x l]; simpl; [done|]. intros H (? & Hl & ?). split_and!; try done; try lia.
  intros y Hy. destruct (H y Hy) as (z & Hz & ?). specialize (Hl z Hz). lia.
Qed.

Lemma covered_ascending total lower c :
  (total <= MAX_SAFE_INTEGER)%Z → coverage_wf total lower c → ascending_from lower (covered c).
Proof.
  intros Hmax. revert lower. induction c as [|[s e] c IH]; intros lower; [done|].
  simpl coverage_wf. intros (? & ? & Hl & Hwf). rewrite covered_cons.
  apply ascending_seqZ; try lia; [done|].
  eapply ascending_weaken, IH, Hwf. intros y [= <-]. exists e. split; [done|lia].
Qed.

Lemma consume_range_sound items x e rest :
  (x <= e <= MAX_SAFE_INTEGER)%Z → (0 <= x)%Z →
  consume_range items (Int x) (Int e) = Return (Int e, rest) →
  ∃ pre, items = pre ++ rest ∧ map item_position pre = map Int (seqZ x (e - x)).
Proof.
  revert x. induction items as [|i items IH]; intros x Hx H0; simpl.
  - intros [= -> <-]. exists []. rewrite Z.sub_diag. done.
  - destruct (num_ltb _ _) eqn:Hlt.
    + rewrite seq_return, throw_if_return, negb_false_iff, num_eqb_spec. intros ((Hp & _) & Hrest).
      rewrite Hp, num_ltb_Int, Z.ltb_lt in Hlt.
      rewrite num_add_exact in Hrest by (unfold MAX_SAFE_INTEGER in *; lia).
      apply IH in Hrest as (pre & -> & Hpre); [|lia..].
      exists (i :: pre). split; [done|]. simpl. rewrite Hpre, Hp, (seqZ_cons x) by lia.
      simpl. do 3 f_equal; lia.
    + intros [= -> <-]. exists []. rewrite Z.sub_diag. done.
Qed.

Lemma consume_range_complete pre rest x e :
  (0 <= x <= e)%Z → (e <= MAX_SAFE_INTEGER)%Z →
  map item_position pre = map Int (seqZ x (e - x)) →
  (∀ i, head rest = Some i → num_ltb i.(item_position) (Int e) = false) →
  consume_range (pre ++ rest) (Int x) (Int e) = Return (Int e, rest).
Proof.
  revert x. induction pre as [|i pre IH]; intros x Hx He Hpre Hrest; simpl.
  - assert (x = e) as ->.
    { destruct (Z.eq_dec x e); [done|]. rewrite seqZ_cons in Hpre by lia. done. }
    destruct rest as [|i rest]; simpl; [done|]. by rewrite (Hrest i).
  - assert (x < e)%Z by (destruct (Z.eq_dec x e); [subst; by rewrite Z.sub_diag in Hpre | lia]).
    rewrite seqZ_cons in Hpre by lia. simpl in Hpre. injection Hpre as Hi Hpre.
    rewrite Hi, num_ltb_Int, num_eqb_Int, Z.eqb_refl, (proj2 (Z.ltb_lt x e)) by lia. simpl.
    rewrite num_add_exact by (unfold MAX_SAFE_INTEGER in *; lia).
    apply IH; try lia; [|done]. rewrite Hpre. do 2 f_equal; lia.
Qed.

Lemma validateCoverageItems_loop_sound c total lower items rest :
  (total <= MAX_SAFE_INTEGER)%Z → coverage_wf total lower c →
  validateCoverageItems_loop (map int_range c) items = Return rest →
  ∃ pre, items = pre ++ rest ∧ map item_position pre = map Int (covered c).
Proof.
  intros Hmax. revert lower items. induction c as [|[s e] c IH]; intros lower items; simpl.
  - intros _ [= ->]. by exists [].
  - intros (Hse & Het & _ & Hwf) H. rewrite bind_return in H. destruct H as ([n items'] & Hc & H).
    rewrite seq_return, throw_if_return, negb_false_iff, num_eqb_spec in H.
    destruct H as ((Hn & _) & H). simpl in Hn, H. subst n.
    apply consume_range_sound in Hc as (pre & -> & Hpre); [|lia..].
    apply (IH _ _ Hwf) in H as (pre' & -> & Hpre'). exists (pre ++ pre').
    rewrite app_assoc. split; [done|]. by rewrite !map_app, Hpre, Hpre'.
Qed.

Lemma validateCoverageItems_loop_complete c total lower items :
  (total <= MAX_SAFE_INTEGER)%Z → coverage_wf total lower c →
  map item_position items = map Int (covered c) →
  validateCoverageItems_loop (map int_range c) items = Return [].
Proof.
  intros Hmax. revert lower items. induction c as [|[s e] c IH]; intros lower items; simpl.
  - intros _ Hi. by destruct items.
  - intros (? & ? & _ & Hwf) Hi.
    rewrite map_app in Hi. apply map_eq_app in Hi as (pre & rest & -> & Hpre & Hrest).
    rewrite (consume_range_complete pre rest); try done; try lia.
    + simpl. rewrite num_eqb_Int, Z.eqb_refl. simpl. by eapply IH.
    + intros i Hi. destruct rest as [|i' rest]; simpl in Hi; [done|]. injection Hi as ->.
      destruct (covered c) as [|p l] eqn:Hcov; simpl in Hrest; [done|]. injection Hrest as -> _.
      rewrite num_ltb_Int. apply Z.ltb_ge.
      assert (p ∈ covered c) as Hp by (rewrite Hcov; by left).
      destruct (covered_bounds _ _ _ _ Hwf Hp) as [_ Hl]. specialize (Hl e eq_refl). lia.
Qed.

Lemma validateCoverageItems_return c total lower items u :
  (total <= MAX_SAFE_INTEGER)%Z → coverage_wf total lower c →
  validateCoverageItems (map int_range c) items = Return u ↔
  map item_position items = map Int (covered c).
Proof.
  intros Hmax Hwf. unfold validateCoverageItems. rewrite bind_return. split.
  - intros (rest & Hr & Hempty). rewrite throw_if_return in Hempty.
    eapply validateCoverageItems_loop_sound in Hr as (pre & -> & Hpre); [|done..].
    destruct rest; [|done]. by rewrite app_nil_r.
  - intros Hi. exists []. split; [by eapply validateCoverageItems_loop_complete|].
    by destruct u.
Qed.

Lemma snapshot_view v :
  {| view_spec := mailboxViewSpec v.(view_spec).(spec_mailboxId) v.(view_spec).(spec_filter)
                    v.(view_spec).(spec_sort);
     view_queryState := v.(view_queryState);
     view_total := v.(view_total);
     view_coverage := map (λ r, {| range_start := r.(range_start); range_end := r.(range_end) |})
                        v.(view_coverage);
     view_items := map (λ i, {| item_position := i.(item_position);
                                item_emailId := i.(item_emailId) |}) v.(view_items) |} = v.
Proof.
  destruct v as [[m [f] [p d]] q t c i]; simpl. f_equal.
  - induction c as [|[] c IH]; simpl; congruence.
  - induction i as [|[] i IH]; simpl; congruence.
Qed.

Lemma mailboxView_return i v : mailboxView i = Return v ↔ view_wf i ∧ v = i.
Proof.
  unfold mailboxView, validateCoverage, validateItems. rewrite snapshot_view, !seq_return.
  rewrite assert_nonneg_return. split.
  - intros ((total & Ht & Htb) & Hc & Hi & Hci & [= ->]). split; [|done]. rewrite Ht in Hc.
    apply (validateCoverage_loop_return _ _ None) in Hc as (c & Hc & Hwf); [|lia].
    apply (validateItems_loop_return _ _ None) in Hi as (_ & Hak & Hnd & _).
    rewrite Hc in Hci. apply (validateCoverageItems_return c total None) in Hci; [|lia|done].
    exists total, c. done.
  - intros [(total & c & Ht & Htb & Hc & Hwf & Hpos & Hnd & Hak) ->]. split_and!; [by exists total| | | |done].
    + rewrite Ht. apply (validateCoverage_loop_return _ _ None); [lia|]. by exists c.
    + apply (validateItems_loop_return _ _ None). split_and!; try done.
      * exists (covered c). split; [done|]. apply (covered_ascending total); [lia|done].
      * intros id _ Hid. by apply not_elem_of_nil in Hid.
    + rewrite Hc. apply (validateCoverageItems_return c total None); [lia|done..].
Qed.
