(* ===== verification/SendIntent.v ===== *)
(** * Sending: domain/identity.ts, domain/send-intent.ts *)

From S2P Require Import Prelude.
From S2P Require Import JsNumber.
From S2P Require Import JsString.
From S2P Require Import JsCollections.
From S2P Require Import Errors.
From S2P Require Import DomainIds.
From S2P Require Import DomainEmail.
Open Scope string_scope.
Open Scope list_scope.
Open Scope js_scope.

(** ** domain/identity.ts *)

Record Identity : Type := mkIdentity {
  identity_id : ScopedIdentityId;
  identity_name : string;
  identity_email : string;
  identity_replyTo : EmailAddressList;
  identity_bcc : EmailAddressList;
}.

#[export] Instance Identity_eq_dec : EqDecision Identity.
Proof. solve_decision. Defined.

Definition identity (input : Identity) : outcome exn Identity :=
  throw_if (is_empty input.(identity_email)) (TypeError "Identity email must not be empty");;
  Return {|
    identity_id := input.(identity_id);
    identity_name := input.(identity_name);
    identity_email := input.(identity_email);
    identity_replyTo := snapshotAddressList input.(identity_replyTo);
    identity_bcc := snapshotAddressList input.(identity_bcc);
  |}.

Definition isWildcardIdentity (value : Identity) : bool :=
  startsWith value.(identity_email) "*@".

(** ** domain/send-intent.ts *)

Record SendBody : Type := mkSendBody { send_text : string; send_html : option string }.
Inductive SendSecurityMode : Type := mode_plain | boxplotE2eeV1.

Record SendIntent : Type := mkSendIntent {
  intent_securityMode : SendSecurityMode;
  intent_identityId : ScopedIdentityId;
  intent_from : EmailAddress;
  intent_replyTo : list EmailAddress;
  intent_to : list EmailAddress;
  intent_cc : list EmailAddress;
  intent_bcc : list EmailAddress;
  intent_subject : string;
  intent_body : SendBody;
}.

Record SendIntentInput : Type := mkSendIntentInput {
  input_securityMode : SendSecurityMode;
  input_identity : Identity;
  input_to : list EmailAddress;
  input_cc : list EmailAddress;
  input_bcc : list EmailAddress;
  input_subject : string;
  input_body : SendBody;
}.

#[export] Instance SendBody_eq_dec : EqDecision SendBody.
Proof. solve_decision. Defined.
#[export] Instance SendSecurityMode_eq_dec : EqDecision SendSecurityMode.
Proof. solve_decision. Defined.
#[export] Instance SendIntent_eq_dec : EqDecision SendIntent.
Proof. solve_decision. Defined.

Definition carriage_return : ascii := ascii_of_nat 13.
Definition line_feed : ascii := ascii_of_nat 10.
Definition nul : ascii := ascii_of_nat 0.
Definition at_sign : ascii := "@".

Definition containsUnsafeHeaderCharacter (value : string) : bool :=
  includes value carriage_return || includes value line_feed || includes value nul.

Definition assertUsableOutboundAddress (address : EmailAddress) : outcome exn unit :=
  let email := address.(address_email) in
  let atIndex := Int (indexOf email at_sign) in
  throw_if (is_empty email || containsUnsafeHeaderCharacter email ||
            num_leb atIndex (Int 0) ||
            num_eqb atIndex (num_add (slen email) (Int (-1))))
    (TypeError "Outbound email address is not usable");;
  throw_if (match address.(address_name) with
            | None => false
            | Some name => containsUnsafeHeaderCharacter name
            end)
    (TypeError "Outbound display name contains an unsafe character").

(** [for (const address of [...userBcc, ...(defaultBcc ?? [])])] with [result]
    and [seenEmails]. *)
Fixpoint mergeBcc_loop (addresses : list EmailAddress) (result : list EmailAddress)
    (seenEmails : list string) : list EmailAddress :=
  match addresses with
  | [] => result
  | address :: rest =>
      if negb (set_has address.(address_email) seenEmails)
      then mergeBcc_loop rest (result ++ [address]) (set_add address.(address_email) seenEmails)
      else mergeBcc_loop rest result seenEmails
  end.

Definition mergeBcc (userBcc : list EmailAddress) (defaultBcc : option (list EmailAddress)) :
    list EmailAddress :=
  mergeBcc_loop (userBcc ++ default [] defaultBcc) [] set_new.

(** [for (const address of addresses) assertUsableOutboundAddress(address)]. *)
Fixpoint assertAllUsable (addresses : list EmailAddress) : outcome exn unit :=
  match addresses with
  | [] => Return tt
  | address :: rest => assertUsableOutboundAddress address;; assertAllUsable rest
  end.

Definition sendIntent (input : SendIntentInput) : outcome exn SendIntent :=
  throw_if (isWildcardIdentity input.(input_identity))
    (TypeError "Wildcard Identity cannot be used for Send in the MVP");;
  let from := emailAddress (Some input.(input_identity).(identity_name))
                input.(input_identity).(identity_email) in
  let replyTo := match input.(input_identity).(identity_replyTo) with
                 | None => []
                 | Some l => l
                 end in
  let to := input.(input_to) in
  let cc := input.(input_cc) in
  let bcc := mergeBcc input.(input_bcc) input.(input_identity).(identity_bcc) in
  throw_if (bool_decide (length to + length cc + length bcc = 0)%nat)
    (TypeError "SendIntent requires an effective recipient");;
  assertAllUsable ([from] ++ replyTo ++ to ++ cc ++ bcc);;
  Return {|
    intent_securityMode := input.(input_securityMode);
    intent_identityId := input.(input_identity).(identity_id);
    intent_from := from;
    intent_replyTo := replyTo;
    intent_to := to;
    intent_cc := cc;
    intent_bcc := bcc;
    intent_subject := input.(input_subject);
    intent_body := {| send_text := input.(input_body).(send_text);
                      send_html := input.(input_body).(send_html) |};
  |}.

(** ** What the factories guarantee *)

Definition identity_wf (i : Identity) : Prop := i.(identity_email) ≠ "".

(** No carriage return, line feed or NUL. *)
Definition header_safe (s : string) : Prop :=
  includes s carriage_return = false ∧ includes s line_feed = false ∧ includes s nul = false.

(** [local@rest] with both sides non-empty at the first [@]. *)
Definition address_shape (s : string) : Prop :=
  ∃ local rest, s = local +:+ String at_sign rest ∧ local ≠ "" ∧ rest ≠ "" ∧
    includes local at_sign = false.

Record address_usable (a : EmailAddress) : Prop := {
  usable_safe : header_safe a.(address_email);
  usable_shape : address_shape a.(address_email);
  usable_name : ∀ name, a.(address_name) = Some name → header_safe name;
}.

Definition intent_addresses (i : SendIntent) : list EmailAddress :=
  [i.(intent_from)] ++ i.(intent_replyTo) ++ i.(intent_to) ++ i.(intent_cc) ++ i.(intent_bcc).

Definition intent_recipients (i : SendIntent) : list EmailAddress :=
  i.(intent_to) ++ i.(intent_cc) ++ i.(intent_bcc).

Record intent_wf (i : SendIntent) : Prop := {
  intent_wf_usable : Forall address_usable (intent_addresses i);
  intent_wf_recipient : intent_recipients i ≠ [];
  intent_wf_bcc : NoDup (map address_email i.(intent_bcc));
}.

(** ** Facts *)

Lemma identity_return i j : identity i = Return j ↔ identity_wf i ∧ j = i.
Proof.
  unfold identity, identity_wf. rewrite seq_return, throw_if_return, is_empty_false.
  destruct i as [? ? ? [?|] [?|]]; simpl; naive_solver.
Qed.

Lemma unsafe_false s : containsUnsafeHeaderCharacter s = false ↔ header_safe s.
Proof.
  unfold containsUnsafeHeaderCharacter, header_safe. rewrite !orb_false_iff. naive_solver.
Qed.

(** The two [indexOf] tests say that the first [@] has something on both sides. *)
Lemma at_sign_guard s :
  (Z.of_nat (String.length s) <= 2 ^ 53)%Z →
  is_empty s = false ∧ num_leb (Int (indexOf s at_sign)) (Int 0) = false ∧
  num_eqb (Int (indexOf s at_sign)) (num_add (slen s) (Int (-1))) = false ↔ address_shape s.
Proof.
  intros Hlen. unfold slen. rewrite num_leb_Int, Z.leb_gt.
  rewrite num_add_exact by lia. rewrite num_eqb_Int, Z.eqb_neq. unfold indexOf.
  destruct (indexOf_from_range 0 s at_sign) as [[Hi Hin]|[Hi Hin]].
  - rewrite Hi. split; [intros (_ & ? & _); lia|].
    intros (l & r & -> & _ & _ & _). rewrite includes_app in Hin. simpl in Hin.
    apply orb_false_iff in Hin as [_ Hin]. done.
  - destruct (indexOf_from_split 0 s at_sign Hin) as (l & r & -> & Hl & Hidx). rewrite Hidx.
    rewrite string_length_app, is_empty_false. simpl String.length. split.
    + intros (_ & ? & ?). exists l, r. split_and!; try done.
      * intros ->. simpl in *. lia.
      * intros ->. simpl in *. lia.
    + intros (l' & r' & Heq & Hl' & Hr' & Hinc).
      apply cut_at_inj in Heq as [-> ->]; [|done..]. split_and!.
      * by destruct l'.
      * destruct l'; [done|]. simpl. lia.
      * destruct r'; [done|]. simpl. lia.
Qed.

(** Strings are shorter than 2^53 code units (the engine's limit is far below). *)
Definition fits (a : EmailAddress) : Prop :=
  (Z.of_nat (String.length a.(address_email)) <= 2 ^ 53)%Z.

Lemma assertUsable_return a u :
  fits a → assertUsableOutboundAddress a = Return u ↔ address_usable a.
Proof.
  intros Hfit. unfold assertUsableOutboundAddress.
  rewrite seq_return, !throw_if_return, !orb_false_iff, unsafe_false. destruct u.
  pose proof (at_sign_guard _ Hfit) as Hat. split.
  - intros ((((H1 & H2) & H3) & H4) & Hname). constructor; [done|by apply Hat|].
    intros name Hn. rewrite Hn in Hname. by apply unsafe_false.
  - intros [Hsafe Hshape Hname]. apply Hat in Hshape as (? & ? & ?). split_and!; try done.
    destruct (address_name a) as [n|]; [|done]. apply unsafe_false. by apply Hname.
Qed.

Lemma assertAllUsable_return l u :
  Forall fits l → assertAllUsable l = Return u ↔ Forall address_usable l.
Proof.
  intros Hl. induction Hl as [|a l Ha Hl IH]; simpl.
  - destruct u. done.
  - rewrite seq_return, assertUsable_return, IH, Forall_cons by done. done.
Qed.

(** [mergeBcc] keeps the first address of every email, in order. *)
Lemma mergeBcc_loop_spec l result seen :
  seen = map address_email result → NoDup seen →
  let merged := mergeBcc_loop l result seen in
  NoDup (map address_email merged) ∧
  (∃ tail, merged = result ++ tail ∧ tail `sublist_of` l) ∧
  (∀ x, x ∈ map address_email merged ↔ x ∈ map address_email result ∨ x ∈ map address_email l).
Proof.
  revert result seen. induction l as [|a l IH]; intros result seen Hseen Hnd; simpl.
  - subst. split_and!; [done|exists []; by rewrite app_nil_r|].
    intros x. split; [by left|]. intros [|Hx]; [done|by apply not_elem_of_nil in Hx].
  - destruct (set_has (address_email a) seen) eqn:Hhas; simpl.
    + apply set_has_spec in Hhas. destruct (IH result seen Hseen Hnd) as (H1 & (t & Ht & Hs) & H3).
      split_and!; [done|exists t; split; [done|by apply sublist_cons]|].
      intros x. rewrite H3, elem_of_cons. subst. naive_solver.
    + apply set_has_false in Hhas. subst seen. rewrite set_add_fresh by done.
      destruct (IH (result ++ [a]) (map address_email result ++ [address_email a]))
        as (H1 & (t & Ht & Hs) & H3).
      { by rewrite map_app. }
      { rewrite <- set_add_fresh by done. by apply NoDup_set_add. }
      split_and!; [done| |].
      * exists (a :: t). rewrite Ht, <- app_assoc. split; [done|by apply sublist_skip].
      * intros x. rewrite H3, map_app, elem_of_app, elem_of_cons. simpl.
        rewrite list_elem_of_singleton. naive_solver.
Qed.

Lemma mergeBcc_spec user defaults :
  NoDup (map address_email (mergeBcc user defaults)) ∧
  mergeBcc user defaults `sublist_of` user ++ default [] defaults ∧
  (∀ x, x ∈ map address_email (mergeBcc user defaults) ↔
        x ∈ map address_email user ∨ x ∈ map address_email (default [] defaults)).
Proof.
  unfold mergeBcc.
  destruct (mergeBcc_loop_spec (user ++ default [] defaults) [] [] eq_refl NoDup_nil_2)
    as (H1 & (t & Ht & Hs) & H3).
  unfold set_new. split_and!; [done|by rewrite Ht|].
  intros x. rewrite H3, map_app, elem_of_app. split; [|by right].
  intros [Hx|]; [by apply not_elem_of_nil in Hx | done].
Qed.

(** The addresses a send input puts in headers. *)
Definition input_addresses (i : SendIntentInput) : list EmailAddress :=
  [emailAddress (Some i.(input_identity).(identity_name)) i.(input_identity).(identity_email)] ++
  default [] i.(input_identity).(identity_replyTo) ++ i.(input_to) ++ i.(input_cc) ++
  i.(input_bcc) ++ default [] i.(input_identity).(identity_bcc).

Lemma sendIntent_addresses_fit i :
  Forall fits (input_addresses i) →
  Forall fits ([emailAddress (Some i.(input_identity).(identity_name))
                  i.(input_identity).(identity_email)] ++
    match i.(input_identity).(identity_replyTo) with None => [] | Some l => l end ++
    i.(input_to) ++ i.(input_cc) ++ mergeBcc i.(input_bcc) i.(input_identity).(identity_bcc)).
Proof.
  unfold input_addresses. rewrite !Forall_app. intros (Hf & Hr & Ht & Hc & Hb & Hd).
  split_and!; try done. rewrite Forall_forall. intros a Ha.
  destruct (mergeBcc_spec (input_bcc i) (identity_bcc (input_identity i))) as (_ & Hsub & _).
  eapply elem_of_sublist in Hsub; [|exact Ha]. apply elem_of_app in Hsub as [H|H];
    [by eapply (proj1 (Forall_forall _ _) Hb) | by eapply (proj1 (Forall_forall _ _) Hd)].
Qed.

Lemma sendIntent_return i s :
  Forall fits (input_addresses i) →
  sendIntent i = Return s →
  intent_wf s ∧ isWildcardIdentity i.(input_identity) = false ∧
  s.(intent_identityId) = i.(input_identity).(identity_id) ∧
  s.(intent_securityMode) = i.(input_securityMode) ∧
  s.(intent_to) = i.(input_to) ∧ s.(intent_cc) = i.(input_cc) ∧
  s.(intent_bcc) = mergeBcc i.(input_bcc) i.(input_identity).(identity_bcc).
Proof.
  intros Hfit%sendIntent_addresses_fit H. unfold sendIntent in H.
  rewrite !seq_return, !throw_if_return, assertAllUsable_return in H by done.
  destruct H as (Hw & Hlen & Hus & [= <-]). apply bool_decide_eq_false in Hlen.
  split_and!; try done. constructor; simpl; try done.
  - unfold intent_recipients; simpl. intros Hnil. apply Hlen.
    apply (f_equal length) in Hnil. rewrite !length_app in Hnil. simpl in Hnil. lia.
  - apply mergeBcc_spec.
Qed.
