(* ===== verification/PendingMutation.v ===== *)
(** * Pending mutations: domain/pending-mutation.ts

    A durable local write waiting to reach the server.  Its lifecycle is a state
    machine: pending, inFlight, then retrying (back to inFlight), confirmed or
    failedTerminal. *)

From S2P Require Import Prelude.
From S2P Require Import JsNumber.
From S2P Require Import JsString.
From S2P Require Import JsCollections.
From S2P Require Import Errors.
From S2P Require Import DomainIds.
From S2P Require Import DomainEmail.
From S2P Require Import SendIntent.
Open Scope string_scope.
Open Scope list_scope.
Open Scope js_scope.

Definition MutationInstant : Type := string.

Record SendConfirmation : Type := mkSendConfirmation { confirmation_emailId : ScopedEmailId }.

(** The five lifecycle shapes.  [C] is what a confirmation carries: a
    [SendConfirmation] for a send, nothing for an email update. *)
Inductive Lifecycle (C : Type) : Type :=
| Pending (attemptCount : number)
| InFlight (attemptCount : number)
| Retrying (attemptCount : number) (nextAttemptAt : MutationInstant)
| Confirmed (attemptCount : number) (confirmation : C)
| FailedTerminal (attemptCount : number).
Arguments Pending {C} attemptCount.
Arguments InFlight {C} attemptCount.
Arguments Retrying {C} attemptCount nextAttemptAt.
Arguments Confirmed {C} attemptCount confirmation.
Arguments FailedTerminal {C} attemptCount.

Definition SendMutationLifecycle : Type := Lifecycle SendConfirmation.
Definition EmailUpdateLifecycle : Type := Lifecycle unit.

(** [InFlightMutationLifecycle | RetryingMutationLifecycle | FailedTerminalMutationLifecycle]. *)
Inductive TransitionLifecycle : Type :=
| ToInFlight (attemptCount : number)
| ToRetrying (attemptCount : number) (nextAttemptAt : MutationInstant)
| ToFailedTerminal (attemptCount : number).

Definition as_lifecycle {C} (l : TransitionLifecycle) : Lifecycle C :=
  match l with
  | ToInFlight n => InFlight n
  | ToRetrying n at_ => Retrying n at_
  | ToFailedTerminal n => FailedTerminal n
  end.

Record KeywordChange : Type := mkKeywordChange {
  keyword_add : KeywordSet;
  keyword_remove : KeywordSet;
}.

Record MailboxMembershipChange : Type := mkMembershipChange {
  membership_add : list ScopedMailboxId;
  membership_remove : list ScopedMailboxId;
}.

Record SendMutation : Type := mkSendMutation {
  send_mutationId : MutationId;
  send_accountKey : AccountKey;
  send_createdAt : MutationInstant;
  send_intent : SendIntent;
  send_lifecycle : SendMutationLifecycle;
}.

Record KeywordMutation : Type := mkKeywordMutation {
  kw_mutationId : MutationId;
  kw_accountKey : AccountKey;
  kw_createdAt : MutationInstant;
  kw_emailId : ScopedEmailId;
  kw_change : KeywordChange;
  kw_lifecycle : EmailUpdateLifecycle;
}.

Record MailboxMembershipMutation : Type := mkMembershipMutation {
  mm_mutationId : MutationId;
  mm_accountKey : AccountKey;
  mm_createdAt : MutationInstant;
  mm_emailId : ScopedEmailId;
  mm_change : MailboxMembershipChange;
  mm_lifecycle : EmailUpdateLifecycle;
}.

(** [KeywordMutation | MailboxMembershipMutation]. *)
Inductive EmailUpdateMutation : Type :=
| UpdateKeyword (m : KeywordMutation)
| UpdateMembership (m : MailboxMembershipMutation).

Inductive PendingMutation : Type :=
| MutSend (m : SendMutation)
| MutKeyword (m : KeywordMutation)
| MutMembership (m : MailboxMembershipMutation).

Definition of_update (m : EmailUpdateMutation) : PendingMutation :=
  match m with
  | UpdateKeyword k => MutKeyword k
  | UpdateMembership k => MutMembership k
  end.

#[export] Instance SendConfirmation_eq_dec : EqDecision SendConfirmation.
Proof. solve_decision. Defined.
#[export] Instance Lifecycle_eq_dec {C} `{!EqDecision C} : EqDecision (Lifecycle C).
Proof. solve_decision. Defined.
#[export] Instance KeywordChange_eq_dec : EqDecision KeywordChange.
Proof. solve_decision. Defined.
#[export] Instance MailboxMembershipChange_eq_dec : EqDecision MailboxMembershipChange.
Proof. solve_decision. Defined.
#[export] Instance SendMutation_eq_dec : EqDecision SendMutation.
Proof. solve_decision. Defined.
#[export] Instance KeywordMutation_eq_dec : EqDecision KeywordMutation.
Proof. solve_decision. Defined.
#[export] Instance MailboxMembershipMutation_eq_dec : EqDecision MailboxMembershipMutation.
Proof. solve_decision. Defined.
#[export] Instance PendingMutation_eq_dec : EqDecision PendingMutation.
Proof. solve_decision. Defined.

(** ** The fields every mutation has *)

Inductive MutationKind : Type := kind_send | kind_keyword | kind_mailboxMembership.
Inductive MutationStatus : Type :=
| st_pending | st_inFlight | st_retrying | st_confirmed | st_failedTerminal.

#[export] Instance MutationKind_eq_dec : EqDecision MutationKind.
Proof. solve_decision. Defined.
#[export] Instance MutationStatus_eq_dec : EqDecision MutationStatus.
Proof. solve_decision. Defined.

Definition mutation_kind (m : PendingMutation) : MutationKind :=
  match m with
  | MutSend _ => kind_send
  | MutKeyword _ => kind_keyword
  | MutMembership _ => kind_mailboxMembership
  end.

Definition mutation_id (m : PendingMutation) : MutationId :=
  match m with
  | MutSend m => m.(send_mutationId)
  | MutKeyword m => m.(kw_mutationId)
  | MutMembership m => m.(mm_mutationId)
  end.

Definition mutation_accountKey (m : PendingMutation) : AccountKey :=
  match m with
  | MutSend m => m.(send_accountKey)
  | MutKeyword m => m.(kw_accountKey)
  | MutMembership m => m.(mm_accountKey)
  end.

Definition mutation_createdAt (m : PendingMutation) : MutationInstant :=
  match m with
  | MutSend m => m.(send_createdAt)
  | MutKeyword m => m.(kw_createdAt)
  | MutMembership m => m.(mm_createdAt)
  end.

(** [mutation.lifecycle], with [undefined] where an update has no confirmation. *)
Definition erase_confirmation {C D} (f : C → D) (l : Lifecycle C) : Lifecycle D :=
  match l with
  | Pending n => Pending n
  | InFlight n => InFlight n
  | Retrying n at_ => Retrying n at_
  | Confirmed n c => Confirmed n (f c)
  | FailedTerminal n => FailedTerminal n
  end.

Definition mutation_lifecycle (m : PendingMutation) : Lifecycle (option SendConfirmation) :=
  match m with
  | MutSend m => erase_confirmation Some m.(send_lifecycle)
  | MutKeyword m => erase_confirmation (λ _, None) m.(kw_lifecycle)
  | MutMembership m => erase_confirmation (λ _, None) m.(mm_lifecycle)
  end.

Definition lifecycle_status {C} (l : Lifecycle C) : MutationStatus :=
  match l with
  | Pending _ => st_pending
  | InFlight _ => st_inFlight
  | Retrying _ _ => st_retrying
  | Confirmed _ _ => st_confirmed
  | FailedTerminal _ => st_failedTerminal
  end.

Definition lifecycle_attemptCount {C} (l : Lifecycle C) : number :=
  match l with
  | Pending n | InFlight n | Retrying n _ | Confirmed n _ | FailedTerminal n => n
  end.

Definition mutation_status (m : PendingMutation) : MutationStatus :=
  lifecycle_status (mutation_lifecycle m).
Definition mutation_attemptCount (m : PendingMutation) : number :=
  lifecycle_attemptCount (mutation_lifecycle m).

(** ** Factories *)

Definition mutationInstantFromString (value : string) : outcome exn MutationInstant :=
  if is_empty value then Throw (TypeError "MutationInstant must not be empty")
  else Return value.

Definition keywordChange (input : KeywordChange) : outcome exn KeywordChange :=
  add ← keywordSet input.(keyword_add);
  remove ← keywordSet input.(keyword_remove);
  throw_if (bool_decide (length add = 0)%nat && bool_decide (length remove = 0)%nat)
    (TypeError "KeywordChange must add or remove at least one keyword");;
  throw_if (existsb (λ keyword, set_has keyword remove) add)
    (TypeError "KeywordChange cannot add and remove the same keyword");;
  Return {| keyword_add := add; keyword_remove := remove |}.

Definition containsMailboxId (values : list ScopedMailboxId) (candidate : ScopedMailboxId) : bool :=
  existsb (λ value, sameScopedMailboxId value candidate) values.

(** [values.some((value, index) => containsMailboxId(values.slice(0, index), value))]:
    [before] is the slice. *)
Fixpoint hasDuplicateMailboxId_from (before values : list ScopedMailboxId) : bool :=
  match values with
  | [] => false
  | value :: rest =>
      containsMailboxId before value || hasDuplicateMailboxId_from (before ++ [value]) rest
  end.

Definition hasDuplicateMailboxId (values : list ScopedMailboxId) : bool :=
  hasDuplicateMailboxId_from [] values.

Definition mailboxMembershipChange (input : MailboxMembershipChange) :
    outcome exn MailboxMembershipChange :=
  let add := input.(membership_add) in
  let remove := input.(membership_remove) in
  throw_if (bool_decide (length add = 0)%nat && bool_decide (length remove = 0)%nat)
    (TypeError "MailboxMembershipChange must add or remove at least one Mailbox");;
  throw_if (hasDuplicateMailboxId add || hasDuplicateMailboxId remove)
    (TypeError "MailboxMembershipChange cannot contain duplicate Mailbox IDs");;
  throw_if (existsb (λ mailboxId, containsMailboxId remove mailboxId) add)
    (TypeError "MailboxMembershipChange cannot add and remove the same Mailbox");;
  Return {| membership_add := add; membership_remove := remove |}.

Definition pendingLifecycle {C} : Lifecycle C := Pending (Int 0).

Definition sendConfirmation (emailId : ScopedEmailId) : SendConfirmation :=
  {| confirmation_emailId := emailId |}.

Definition sendMutation (mutationId : MutationId) (accountKey0 : AccountKey)
    (createdAt : MutationInstant) (intent : SendIntent) : outcome exn SendMutation :=
  throw_if (intent.(intent_identityId).(accountKey) !== accountKey0)
    (TypeError "SendMutation AccountKey must match its SendIntent Identity AccountKey");;
  Return {|
    send_mutationId := mutationId;
    send_accountKey := accountKey0;
    send_createdAt := createdAt;
    send_intent := intent;
    send_lifecycle := pendingLifecycle;
  |}.

Definition keywordMutation (mutationId : MutationId) (accountKey0 : AccountKey)
    (createdAt : MutationInstant) (emailId : ScopedEmailId) (change : KeywordChange) :
    outcome exn KeywordMutation :=
  throw_if (emailId.(accountKey) !== accountKey0)
    (TypeError "KeywordMutation AccountKey must match its Email AccountKey");;
  change' ← keywordChange change;
  Return {|
    kw_mutationId := mutationId;
    kw_accountKey := accountKey0;
    kw_createdAt := createdAt;
    kw_emailId := emailId;
    kw_change := change';
    kw_lifecycle := pendingLifecycle;
  |}.

Definition mailboxMembershipMutation (mutationId : MutationId) (accountKey0 : AccountKey)
    (createdAt : MutationInstant) (emailId : ScopedEmailId) (change : MailboxMembershipChange) :
    outcome exn MailboxMembershipMutation :=
  throw_if (emailId.(accountKey) !== accountKey0)
    (TypeError "MailboxMembershipMutation AccountKey must match its Email AccountKey");;
  change' ← mailboxMembershipChange change;
  throw_if (existsb (λ mailboxId, mailboxId.(accountKey) !== accountKey0)
              (change'.(membership_add) ++ change'.(membership_remove)))
    (TypeError "MailboxMembershipMutation Mailboxes must match its AccountKey");;
  Return {|
    mm_mutationId := mutationId;
    mm_accountKey := accountKey0;
    mm_createdAt := createdAt;
    mm_emailId := emailId;
    mm_change := change';
    mm_lifecycle := pendingLifecycle;
  |}.

Definition samePendingMutationIdentity (left right : PendingMutation) : bool :=
  (mutation_accountKey left === mutation_accountKey right) &&
  (mutation_id left === mutation_id right).

(** ** Transitions *)

Definition assertStartedAttemptCount (attemptCount : number) : outcome exn unit :=
  throw_if (negb (isSafeInteger attemptCount) || num_ltb attemptCount (Int 1))
    (TypeError "Started mutation attemptCount must be a positive safe integer").

Definition replaceLifecycle (mutation : PendingMutation) (lifecycle : TransitionLifecycle) :
    PendingMutation :=
  match mutation with
  | MutSend m => MutSend {|
      send_mutationId := m.(send_mutationId);
      send_accountKey := m.(send_accountKey);
      send_createdAt := m.(send_createdAt);
      send_intent := m.(send_intent);
      send_lifecycle := as_lifecycle lifecycle |}
  | MutKeyword m => MutKeyword {|
      kw_mutationId := m.(kw_mutationId);
      kw_accountKey := m.(kw_accountKey);
      kw_createdAt := m.(kw_createdAt);
      kw_emailId := m.(kw_emailId);
      kw_change := m.(kw_change);
      kw_lifecycle := as_lifecycle lifecycle |}
  | MutMembership m => MutMembership {|
      mm_mutationId := m.(mm_mutationId);
      mm_accountKey := m.(mm_accountKey);
      mm_createdAt := m.(mm_createdAt);
      mm_emailId := m.(mm_emailId);
      mm_change := m.(mm_change);
      mm_lifecycle := as_lifecycle lifecycle |}
  end.

Definition startMutationAttempt (mutation : PendingMutation) : outcome exn PendingMutation :=
  match mutation_lifecycle mutation with
  | Pending attemptCount =>
      throw_if (negb (num_eqb attemptCount (Int 0)))
        (TypeError "Pending mutation attemptCount must be zero");;
      Return (replaceLifecycle mutation (ToInFlight (Int 1)))
  | Retrying attemptCount _ =>
      assertStartedAttemptCount attemptCount;;
      let nextAttemptCount := num_add attemptCount (Int 1) in
      assertStartedAttemptCount nextAttemptCount;;
      Return (replaceLifecycle mutation (ToInFlight nextAttemptCount))
  | _ => Throw (TypeError "Mutation attempt can start only from pending or retrying")
  end.

Definition scheduleMutationRetry (mutation : PendingMutation) (nextAttemptAt : MutationInstant) :
    outcome exn PendingMutation :=
  match mutation_lifecycle mutation with
  | InFlight attemptCount =>
      assertStartedAttemptCount attemptCount;;
      Return (replaceLifecycle mutation (ToRetrying attemptCount nextAttemptAt))
  | _ => Throw (TypeError "Mutation retry can be scheduled only from inFlight")
  end.

Definition confirmEmailUpdateMutation (mutation : EmailUpdateMutation) :
    outcome exn EmailUpdateMutation :=
  match mutation_lifecycle (of_update mutation) with
  | InFlight attemptCount =>
      assertStartedAttemptCount attemptCount;;
      let lifecycle := Confirmed attemptCount tt in
      match mutation with
      | UpdateKeyword m => Return (UpdateKeyword {|
          kw_mutationId := m.(kw_mutationId);
          kw_accountKey := m.(kw_accountKey);
          kw_createdAt := m.(kw_createdAt);
          kw_emailId := m.(kw_emailId);
          kw_change := m.(kw_change);
          kw_lifecycle := lifecycle |})
      | UpdateMembership m => Return (UpdateMembership {|
          mm_mutationId := m.(mm_mutationId);
          mm_accountKey := m.(mm_accountKey);
          mm_createdAt := m.(mm_createdAt);
          mm_emailId := m.(mm_emailId);
          mm_change := m.(mm_change);
          mm_lifecycle := lifecycle |})
      end
  | _ => Throw (TypeError "Email update mutation can be confirmed only from inFlight")
  end.

Definition confirmSendMutation (mutation : SendMutation) (confirmation : SendConfirmation) :
    outcome exn SendMutation :=
  match mutation.(send_lifecycle) with
  | InFlight attemptCount =>
      assertStartedAttemptCount attemptCount;;
      throw_if (confirmation.(confirmation_emailId).(accountKey) !== mutation.(send_accountKey))
        (TypeError "Send confirmation Email must match the SendMutation AccountKey");;
      Return {|
        send_mutationId := mutation.(send_mutationId);
        send_accountKey := mutation.(send_accountKey);
        send_createdAt := mutation.(send_createdAt);
        send_intent := mutation.(send_intent);
        send_lifecycle :=
          Confirmed attemptCount (sendConfirmation confirmation.(confirmation_emailId)) |}
  | _ => Throw (TypeError "SendMutation can be confirmed only from inFlight")
  end.

Definition failMutationTerminal (mutation : PendingMutation) : outcome exn PendingMutation :=
  match mutation_lifecycle mutation with
  | InFlight attemptCount =>
      assertStartedAttemptCount attemptCount;;
      Return (replaceLifecycle mutation (ToFailedTerminal attemptCount))
  | _ => Throw (TypeError "Mutation can fail terminally only from inFlight")
  end.

(** One application of a Domain transition function. *)
Inductive domain_step : PendingMutation → PendingMutation → Prop :=
| step_start m m' : startMutationAttempt m = Return m' → domain_step m m'
| step_retry m at_ m' : scheduleMutationRetry m at_ = Return m' → domain_step m m'
| step_confirm_update m m' :
    confirmEmailUpdateMutation m = Return m' → domain_step (of_update m) (of_update m')
| step_confirm_send m c m' :
    confirmSendMutation m c = Return m' → domain_step (MutSend m) (MutSend m')
| step_fail m m' : failMutationTerminal m = Return m' → domain_step m m'.

(** A freshly staged mutation: the result of one of the three factories. *)
Inductive domain_new : PendingMutation → Prop :=
| new_send id ak at_ intent m : sendMutation id ak at_ intent = Return m → domain_new (MutSend m)
| new_keyword id ak at_ e c m : keywordMutation id ak at_ e c = Return m → domain_new (MutKeyword m)
| new_membership id ak at_ e c m :
    mailboxMembershipMutation id ak at_ e c = Return m → domain_new (MutMembership m).

(** ** Well-formed mutations *)

Definition attempt_started (n : number) : Prop :=
  ∃ z, n = Int z ∧ (1 <= z <= MAX_SAFE_INTEGER)%Z.

Definition lifecycle_wf (ak : AccountKey) (l : Lifecycle (option SendConfirmation)) : Prop :=
  match l with
  | Pending n => n = Int 0
  | InFlight n | Retrying n _ | FailedTerminal n => attempt_started n
  | Confirmed n c =>
      attempt_started n ∧ ∀ sc, c = Some sc → sc.(confirmation_emailId).(accountKey) = ak
  end.

Definition keyword_change_wf (c : KeywordChange) : Prop :=
  keywords_wf c.(keyword_add) ∧ keywords_wf c.(keyword_remove) ∧
  (c.(keyword_add) ≠ [] ∨ c.(keyword_remove) ≠ []) ∧
  (∀ k, k ∈ c.(keyword_add) → k ∉ c.(keyword_remove)).

Definition membership_change_wf (ak : AccountKey) (c : MailboxMembershipChange) : Prop :=
  NoDup c.(membership_add) ∧ NoDup c.(membership_remove) ∧
  (c.(membership_add) ≠ [] ∨ c.(membership_remove) ≠ []) ∧
  (∀ id, id ∈ c.(membership_add) → id ∉ c.(membership_remove)) ∧
  Forall (λ id, id.(accountKey) = ak) (c.(membership_add) ++ c.(membership_remove)).

Definition payload_wf (m : PendingMutation) : Prop :=
  match m with
  | MutSend m => m.(send_intent).(intent_identityId).(accountKey) = m.(send_accountKey)
  | MutKeyword m => m.(kw_emailId).(accountKey) = m.(kw_accountKey) ∧ keyword_change_wf m.(kw_change)
  | MutMembership m =>
      m.(mm_emailId).(accountKey) = m.(mm_accountKey) ∧
      membership_change_wf m.(mm_accountKey) m.(mm_change)
  end.

Definition mutation_wf (m : PendingMutation) : Prop :=
  payload_wf m ∧ lifecycle_wf (mutation_accountKey m) (mutation_lifecycle m).

(** Everything but the lifecycle. *)
Inductive same_payload : PendingMutation → PendingMutation → Prop :=
| same_send m l : same_payload (MutSend m)
    (MutSend {| send_mutationId := m.(send_mutationId); send_accountKey := m.(send_accountKey);
                send_createdAt := m.(send_createdAt); send_intent := m.(send_intent);
                send_lifecycle := l |})
| same_keyword m l : same_payload (MutKeyword m)
    (MutKeyword {| kw_mutationId := m.(kw_mutationId); kw_accountKey := m.(kw_accountKey);
                   kw_createdAt := m.(kw_createdAt); kw_emailId := m.(kw_emailId);
                   kw_change := m.(kw_change); kw_lifecycle := l |})
| same_membership m l : same_payload (MutMembership m)
    (MutMembership {| mm_mutationId := m.(mm_mutationId); mm_accountKey := m.(mm_accountKey);
                      mm_createdAt := m.(mm_createdAt); mm_emailId := m.(mm_emailId);
                      mm_change := m.(mm_change); mm_lifecycle := l |}).

(** The D-08 lifecycle edges, on attempt counts as integers. *)
Inductive lifecycle_edge : Lifecycle (option SendConfirmation) →
    Lifecycle (option SendConfirmation) → Prop :=
| edge_first : lifecycle_edge (Pending (Int 0)) (InFlight (Int 1))
| edge_again n at_ : (1 <= n < MAX_SAFE_INTEGER)%Z →
    lifecycle_edge (Retrying (Int n) at_) (InFlight (Int (n + 1)))
| edge_retry n at_ : (1 <= n <= MAX_SAFE_INTEGER)%Z →
    lifecycle_edge (InFlight (Int n)) (Retrying (Int n) at_)
| edge_confirm n c : (1 <= n <= MAX_SAFE_INTEGER)%Z →
    lifecycle_edge (InFlight (Int n)) (Confirmed (Int n) c)
| edge_fail n : (1 <= n <= MAX_SAFE_INTEGER)%Z →
    lifecycle_edge (InFlight (Int n)) (FailedTerminal (Int n)).

(** ** Facts: the factories *)

Lemma mutationInstantFromString_return s t :
  mutationInstantFromString s = Return t ↔ t = s ∧ s ≠ "".
Proof. unfold mutationInstantFromString. destruct s; simpl; naive_solver. Qed.

Lemma both_empty_guard {A} (a b : list A) :
  bool_decide (length a = 0)%nat && bool_decide (length b = 0)%nat = false ↔ a ≠ [] ∨ b ≠ [].
Proof.
  rewrite andb_false_iff, !bool_decide_eq_false. destruct a, b; simpl; naive_solver.
Qed.

Lemma keywordChange_wf i c : keywordChange i = Return c → keyword_change_wf c.
Proof.
  unfold keywordChange. rewrite bind_return. intros (add & Ha & H).
  rewrite bind_return in H. destruct H as (remove & Hr & H).
  rewrite !seq_return, !throw_if_return, both_empty_guard, existsb_false_forall in H.
  destruct H as (Hne & Hdis & [= <-]).
  split_and!; simpl; [by eapply keywordSet_wf.. | done |].
  intros k Hk. by apply set_has_false, Hdis.
Qed.

Lemma keywordChange_id c : keyword_change_wf c → keywordChange c = Return c.
Proof.
  intros (Ha & Hr & Hne & Hdis). unfold keywordChange.
  rewrite (keywordSet_id _ Ha). simpl. rewrite (keywordSet_id _ Hr). simpl.
  pass_guard by (by apply both_empty_guard).
  pass_guard by (apply existsb_false_forall; intros k Hk; by apply set_has_false, Hdis).
  by destruct c.
Qed.

Lemma containsMailboxId_spec l id : containsMailboxId l id = true ↔ id ∈ l.
Proof.
  unfold containsMailboxId. rewrite existsb_true_exists. setoid_rewrite sameScopedId_spec.
  naive_solver.
Qed.

Lemma containsMailboxId_false l id : containsMailboxId l id = false ↔ id ∉ l.
Proof. by rewrite <- not_true_iff_false, containsMailboxId_spec. Qed.

Lemma hasDuplicateMailboxId_from_false before l :
  hasDuplicateMailboxId_from before l = false ↔ NoDup l ∧ ∀ id, id ∈ l → id ∉ before.
Proof.
  revert before. induction l as [|x l IH]; intros before; simpl.
  - split; [|done]. intros _. split; [constructor|]. intros id Hid. by apply not_elem_of_nil in Hid.
  - rewrite orb_false_iff, containsMailboxId_false, IH, NoDup_cons.
    setoid_rewrite elem_of_cons. setoid_rewrite elem_of_app. setoid_rewrite list_elem_of_singleton.
    naive_solver.
Qed.

Lemma hasDuplicateMailboxId_false l : hasDuplicateMailboxId l = false ↔ NoDup l.
Proof.
  unfold hasDuplicateMailboxId. rewrite hasDuplicateMailboxId_from_false.
  split; [by intros [] | intros; split; [done|]; intros ? _; apply not_elem_of_nil].
Qed.

Lemma mailboxMembershipChange_return i c :
  mailboxMembershipChange i = Return c ↔
  NoDup i.(membership_add) ∧ NoDup i.(membership_remove) ∧
  (i.(membership_add) ≠ [] ∨ i.(membership_remove) ≠ []) ∧
  (∀ id, id ∈ i.(membership_add) → id ∉ i.(membership_remove)) ∧ c = i.
Proof.
  unfold mailboxMembershipChange.
  rewrite !seq_return, !throw_if_return, both_empty_guard, orb_false_iff,
    !hasDuplicateMailboxId_false, existsb_false_forall.
  setoid_rewrite containsMailboxId_false. destruct i; simpl. naive_solver.
Qed.

Lemma domain_new_wf m : domain_new m → mutation_wf m.
Proof.
  destruct 1 as [id ak at_ i m H|id ak at_ e c m H|id ak at_ e c m H].
  - unfold sendMutation in H. rewrite seq_return, throw_if_return, differs_false in H.
    destruct H as (Hak & [= <-]). split; simpl; done.
  - unfold keywordMutation in H. rewrite seq_return, throw_if_return, differs_false, bind_return in H.
    destruct H as (Hak & c' & Hc & [= <-]). apply keywordChange_wf in Hc. split; simpl; done.
  - unfold mailboxMembershipMutation in H.
    rewrite seq_return, throw_if_return, differs_false, bind_return in H.
    destruct H as (Hak & c' & Hc & H). apply mailboxMembershipChange_return in Hc as (?&?&?&?& ->).
    rewrite seq_return, throw_if_return, existsb_false_forall in H. destruct H as (Hall & [= <-]).
    split; simpl; [|done]. split; [done|]. split_and!; try done.
    apply Forall_forall. intros x Hx. by apply differs_false, Hall.
Qed.

(** ** Facts: the transitions *)

Lemma assertStarted_return n u : assertStartedAttemptCount n = Return u ↔ attempt_started n.
Proof.
  unfold assertStartedAttemptCount, attempt_started.
  rewrite throw_if_return, orb_false_iff, negb_false_iff, isSafeInteger_spec. split.
  - intros [(z & -> & Hz) Hlt]. rewrite num_ltb_Int, Z.ltb_ge in Hlt. exists z. split; [done|lia].
  - intros (z & -> & Hz). rewrite num_ltb_Int, Z.ltb_ge. split; [|lia].
    exists z. split; [done|]. unfold MAX_SAFE_INTEGER in *. lia.
Qed.

Lemma lifecycle_replace m l : mutation_lifecycle (replaceLifecycle m l) = as_lifecycle l.
Proof. by destruct m, l. Qed.

Lemma same_payload_replace m l : same_payload m (replaceLifecycle m l).
Proof. destruct m; constructor. Qed.

Lemma next_attempt_started z :
  (1 <= z <= MAX_SAFE_INTEGER)%Z →
  attempt_started (num_add (Int z) (Int 1)) ↔ (z < MAX_SAFE_INTEGER)%Z.
Proof.
  intros Hz. rewrite num_add_exact by (unfold MAX_SAFE_INTEGER in *; lia). split.
  - intros (z' & [= <-] & ?). lia.
  - intros. exists (z + 1)%Z. split; [done|lia].
Qed.

Lemma startMutationAttempt_return m m' :
  startMutationAttempt m = Return m' ↔
  (mutation_lifecycle m = Pending (Int 0) ∧ m' = replaceLifecycle m (ToInFlight (Int 1))) ∨
  (∃ z at_, mutation_lifecycle m = Retrying (Int z) at_ ∧ (1 <= z < MAX_SAFE_INTEGER)%Z ∧
     m' = replaceLifecycle m (ToInFlight (Int (z + 1)))).
Proof.
  unfold startMutationAttempt. destruct (mutation_lifecycle m) as [n|n|n at_|n c|n];
    try (split; [done | naive_solver]).
  - rewrite seq_return, throw_if_return, negb_false_iff, num_eqb_spec. naive_solver.
  - rewrite !seq_return, !assertStarted_return. split.
    + intros ((z & -> & Hz) & Hn & [= <-]). apply next_attempt_started in Hn; [|done].
      right. exists z, at_. rewrite num_add_exact by (unfold MAX_SAFE_INTEGER in *; lia).
      split_and!; [done|lia|lia|done].
    + intros [[? _]|(z & at' & [= -> ->] & Hz & ->)]; [done|].
      rewrite next_attempt_started by lia.
      rewrite num_add_exact by (unfold MAX_SAFE_INTEGER in *; lia).
      split_and!; [exists z; split; [done|lia]|lia|done].
Qed.

Lemma scheduleMutationRetry_return m at_ m' :
  scheduleMutationRetry m at_ = Return m' ↔
  ∃ z, mutation_lifecycle m = InFlight (Int z) ∧ (1 <= z <= MAX_SAFE_INTEGER)%Z ∧
    m' = replaceLifecycle m (ToRetrying (Int z) at_).
Proof.
  unfold scheduleMutationRetry, attempt_started.
  destruct (mutation_lifecycle m) as [n|n|n a|n c|n]; try (split; [done | naive_solver]).
  rewrite seq_return, assertStarted_return. unfold attempt_started. naive_solver.
Qed.

Lemma failMutationTerminal_return m m' :
  failMutationTerminal m = Return m' ↔
  ∃ z, mutation_lifecycle m = InFlight (Int z) ∧ (1 <= z <= MAX_SAFE_INTEGER)%Z ∧
    m' = replaceLifecycle m (ToFailedTerminal (Int z)).
Proof.
  unfold failMutationTerminal.
  destruct (mutation_lifecycle m) as [n|n|n a|n c|n]; try (split; [done | naive_solver]).
  rewrite seq_return, assertStarted_return. unfold attempt_started. naive_solver.
Qed.

Lemma confirmEmailUpdate_return m m' :
  confirmEmailUpdateMutation m = Return m' →
  ∃ z, mutation_lifecycle (of_update m) = InFlight (Int z) ∧ (1 <= z <= MAX_SAFE_INTEGER)%Z ∧
    same_payload (of_update m) (of_update m') ∧
    mutation_lifecycle (of_update m') = Confirmed (Int z) None.
Proof.
  unfold confirmEmailUpdateMutation.
  destruct (mutation_lifecycle (of_update m)) as [n|n|n a|n c|n] eqn:Hl; try done.
  rewrite seq_return, assertStarted_return. intros ((z & -> & Hz) & H).
  exists z. destruct m as [k|k]; injection H as <-; split_and!; try done; try lia; constructor.
Qed.

Lemma confirmSend_return m c m' :
  confirmSendMutation m c = Return m' →
  ∃ z, m.(send_lifecycle) = InFlight (Int z) ∧ (1 <= z <= MAX_SAFE_INTEGER)%Z ∧
    c.(confirmation_emailId).(accountKey) = m.(send_accountKey) ∧
    same_payload (MutSend m) (MutSend m') ∧ m'.(send_lifecycle) = Confirmed (Int z) c.
Proof.
  unfold confirmSendMutation. destruct (send_lifecycle m) as [n|n|n a|n c'|n]; try done.
  rewrite !seq_return, assertStarted_return, throw_if_return, differs_false.
  intros ((z & -> & Hz) & Hak & [= <-]). exists z. split_and!; try done; try lia; [constructor|].
  simpl. by destruct c.
Qed.

Lemma domain_step_edge m m' :
  domain_step m m' →
  same_payload m m' ∧ lifecycle_edge (mutation_lifecycle m) (mutation_lifecycle m').
Proof.
  destruct 1 as [m m' H|m a m' H|m m' H|m c m' H|m m' H].
  - apply startMutationAttempt_return in H as [[Hl ->]|(z & a & Hl & Hz & ->)];
      rewrite lifecycle_replace, Hl; split; try apply same_payload_replace; by constructor.
  - apply scheduleMutationRetry_return in H as (z & Hl & Hz & ->).
    rewrite lifecycle_replace, Hl. split; [apply same_payload_replace | by constructor].
  - apply confirmEmailUpdate_return in H as (z & Hl & Hz & Hs & Hl').
    rewrite Hl, Hl'. split; [done | by constructor].
  - apply confirmSend_return in H as (z & Hl & Hz & _ & Hs & Hl'). simpl. rewrite Hl, Hl'.
    split; [done | by constructor].
  - apply failMutationTerminal_return in H as (z & Hl & Hz & ->).
    rewrite lifecycle_replace, Hl. split; [apply same_payload_replace | by constructor].
Qed.

Lemma same_payload_wf m m' : same_payload m m' → payload_wf m → payload_wf m'.
Proof. by destruct 1. Qed.

Lemma same_payload_fields m m' :
  same_payload m m' →
  mutation_kind m = mutation_kind m' ∧ mutation_accountKey m = mutation_accountKey m' ∧
  mutation_id m = mutation_id m' ∧ mutation_createdAt m = mutation_createdAt m'.
Proof. by destruct 1. Qed.

Lemma attempt_started_Int z : (1 <= z <= MAX_SAFE_INTEGER)%Z → attempt_started (Int z).
Proof. intros. by exists z. Qed.

(** Every edge leads to a well-formed lifecycle, once a confirmation names the
    mutation's own account. *)
Lemma edge_target_wf ak l l' :
  lifecycle_edge l l' →
  (∀ n sc, l' = Confirmed n (Some sc) → sc.(confirmation_emailId).(accountKey) = ak) →
  lifecycle_wf ak l'.
Proof.
  intros Hedge Hc. destruct Hedge; simpl; try split; try apply attempt_started_Int;
    unfold MAX_SAFE_INTEGER in *; try lia.
  intros sc ->. by eapply Hc.
Qed.

(** The only step to a confirmed send checks the account of the confirmation. *)
Lemma domain_step_confirmed m m' n sc :
  domain_step m m' → mutation_lifecycle m' = Confirmed n (Some sc) →
  sc.(confirmation_emailId).(accountKey) = mutation_accountKey m.
Proof.
  destruct 1 as [m m' H|m a m' H|m m' H|m c m' H|m m' H].
  - apply startMutationAttempt_return in H as [[_ ->]|(z & a & _ & _ & ->)];
      by rewrite lifecycle_replace.
  - apply scheduleMutationRetry_return in H as (z & _ & _ & ->). by rewrite lifecycle_replace.
  - apply confirmEmailUpdate_return in H as (z & _ & _ & _ & ->). done.
  - apply confirmSend_return in H as (z & _ & _ & Hak & _ & Hl'). simpl. rewrite Hl'. simpl.
    by intros [= _ <-].
  - apply failMutationTerminal_return in H as (z & _ & _ & ->). by rewrite lifecycle_replace.
Qed.

Lemma domain_step_wf m m' : domain_step m m' → mutation_wf m → mutation_wf m'.
Proof.
  intros Hstep [Hp Hl]. destruct (domain_step_edge _ _ Hstep) as [Hs Hedge].
  split; [by eapply same_payload_wf|]. destruct (same_payload_fields _ _ Hs) as (_ & <- & _).
  eapply edge_target_wf; [done|]. intros n sc. by apply domain_step_confirmed.
Qed.
