(* ===== verification/Ports.v ===== *)
(** * The ports: ports/port-result.ts, ports/read-repository.ts, ports/sync-port.ts,
    ports/local-change-source.ts

    The data the application exchanges with a local engine.  The operations are
    in [EngineInterface]. *)

From S2P Require Import Prelude.
From S2P Require Import JsNumber.
From S2P Require Import JsString.
From S2P Require Import Errors.
From S2P Require Import DomainIds.
From S2P Require Import DomainEmail.
From S2P Require Import DomainMailbox.
From S2P Require Import MailboxView.
From S2P Require Import SendIntent.
From S2P Require Import PendingMutation.
(** ** ports/port-result.ts *)

Inductive PortResult (T E : Type) : Type :=
| PortOk (value : T)
| PortError (error : E).
Arguments PortOk {T E} value.
Arguments PortError {T E} error.

#[export] Instance PortResult_eq_dec {T E} `{!EqDecision T, !EqDecision E} :
  EqDecision (PortResult T E).
Proof. solve_decision. Defined.

(** ** ports/read-repository.ts *)

Inductive LocalReadError : Type := read_unavailable | read_corruptState | read_unexpected.
Definition ReadResult (T : Type) : Type := PortResult T LocalReadError.

Inductive LocalEntityRead (T : Type) : Type :=
| EntityAbsent
| EntityPresent (value : T).
Arguments EntityAbsent {T}.
Arguments EntityPresent {T} value.

Inductive OwnedSnapshotRead (T : Type) : Type :=
| SnapshotOwnerAbsent
| SnapshotPresent (value : T).
Arguments SnapshotOwnerAbsent {T}.
Arguments SnapshotPresent {T} value.

Inductive OwnedOptionalRead (T : Type) : Type :=
| OptionalOwnerAbsent
| OptionalAbsent
| OptionalPresent (value : T).
Arguments OptionalOwnerAbsent {T}.
Arguments OptionalAbsent {T}.
Arguments OptionalPresent {T} value.

Inductive OwnedCacheRead (T : Type) : Type :=
| CacheOwnerAbsent
| NotCached
| Cached (value : T).
Arguments CacheOwnerAbsent {T}.
Arguments NotCached {T}.
Arguments Cached {T} value.

(** ** ports/sync-port.ts *)

Inductive LocalWriteError : Type :=
| write_unavailable | write_corruptState | write_conflict | write_unexpected.
Definition WriteResult : Type := PortResult unit LocalWriteError.

#[export] Instance LocalReadError_eq_dec : EqDecision LocalReadError.
Proof. solve_decision. Defined.
#[export] Instance LocalWriteError_eq_dec : EqDecision LocalWriteError.
Proof. solve_decision. Defined.

Inductive CollectionCursorPrecondition : Type :=
| ExpectAbsent
| ExpectMatches (cursor : CollectionSyncCursor).

Record EmailSyncRecord : Type := mkEmailSyncRecord {
  record_email : Email;
  record_memberships : list EmailMailbox;
}.

(** The [mode] of a commit.  A delta always carries a [matches] precondition. *)
Inductive CollectionCommit (T Id : Type) : Type :=
| Delta (expectedCursor nextCursor : CollectionSyncCursor) (changed : list T) (destroyed : list Id)
| Replace (expectedCursor : CollectionCursorPrecondition) (nextCursor : CollectionSyncCursor)
    (snapshot : list T).
Arguments Delta {T Id} expectedCursor nextCursor changed destroyed.
Arguments Replace {T Id} expectedCursor nextCursor snapshot.

(** The [kind] of a commit. *)
Inductive CollectionSyncCommit : Type :=
| EmailCommit (c : CollectionCommit EmailSyncRecord ScopedEmailId)
| MailboxCommit (c : CollectionCommit Mailbox ScopedMailboxId)
| IdentityCommit (c : CollectionCommit Identity ScopedIdentityId).

Definition collection_expected {T Id} (c : CollectionCommit T Id) : CollectionCursorPrecondition :=
  match c with Delta e _ _ _ => ExpectMatches e | Replace e _ _ => e end.
Definition collection_next {T Id} (c : CollectionCommit T Id) : CollectionSyncCursor :=
  match c with Delta _ n _ _ => n | Replace _ n _ => n end.
(** [commit.mode === 'delta' ? commit.changed : commit.snapshot]. *)
Definition collection_records {T Id} (c : CollectionCommit T Id) : list T :=
  match c with Delta _ _ changed _ => changed | Replace _ _ snapshot => snapshot end.
Definition collection_destroyed {T Id} (c : CollectionCommit T Id) : list Id :=
  match c with Delta _ _ _ destroyed => destroyed | Replace _ _ _ => [] end.

Definition commit_kind (c : CollectionSyncCommit) : CollectionDataType :=
  match c with
  | EmailCommit _ => data_email
  | MailboxCommit _ => data_mailbox
  | IdentityCommit _ => data_identity
  end.
Definition commit_expectedCursor (c : CollectionSyncCommit) : CollectionCursorPrecondition :=
  match c with
  | EmailCommit c => collection_expected c
  | MailboxCommit c => collection_expected c
  | IdentityCommit c => collection_expected c
  end.
Definition commit_nextCursor (c : CollectionSyncCommit) : CollectionSyncCursor :=
  match c with
  | EmailCommit c => collection_next c
  | MailboxCommit c => collection_next c
  | IdentityCommit c => collection_next c
  end.

(** ** ports/local-change-source.ts *)

Inductive LocalChangeHint : Type :=
| AccountsChanged
| MailboxesChanged (accountKey : AccountKey)
| IdentitiesChanged (accountKey : AccountKey)
| EmailsChanged (accountKey : AccountKey)
| EmailMembershipsChanged (accountKey : AccountKey)
| EmailBodyChanged (emailId : ScopedEmailId)
| AttachmentRefsChanged (emailId : ScopedEmailId)
| MailboxViewChanged (spec : MailboxViewSpec)
| SyncCursorChanged (accountKey : AccountKey) (dataType : CollectionDataType)
| PendingMutationsChanged (accountKey : AccountKey).

(** A non-empty delivery unit: its first hint and the others. *)
Record LocalChangeBatch : Type := mkBatch {
  batch_first : LocalChangeHint;
  batch_rest : list LocalChangeHint;
}.

Definition batch_hints (b : LocalChangeBatch) : list LocalChangeHint :=
  b.(batch_first) :: b.(batch_rest).

#[export] Instance LocalChangeHint_eq_dec : EqDecision LocalChangeHint.
Proof. solve_decision. Defined.
#[export] Instance LocalChangeBatch_eq_dec : EqDecision LocalChangeBatch.
Proof. solve_decision. Defined.
