(* ===== verification/MemoryState.v ===== *)
(** * The memory engine's state: adapters/memory/memory-state.ts

    Ten maps, keyed by strings built from the ids ([compoundKey] is a netstring
    encoding), and the [clone] functions, which send every value that enters or
    leaves the state through its Domain factory. *)

From S2P Require Import Prelude.
From S2P Require Import JsNumber.
From S2P Require Import JsString.
From S2P Require Import JsCollections.
From S2P Require Import Errors.
From S2P Require Import DomainIds.
From S2P Require Import DomainEmail.
From S2P Require Import DomainMailbox.
From S2P Require Import MailboxView.
From S2P Require Import SendIntent.
From S2P Require Import PendingMutation.
From S2P Require Import Ports.
Open Scope string_scope.
Open Scope list_scope.
Open Scope js_scope.

(** ** Keys *)

(** [parts.map((part) => `${part.length}:${part}`).join('')]. *)
Definition compoundKey (parts : list string) : string :=
  fold_right (λ part rest, (decimal (String.length part) +:+ ":" +:+ part) +:+ rest) "" parts.

Definition mailboxKey (id : ScopedMailboxId) : string := compoundKey [id.(accountKey); id.(jmapId)].
Definition emailKey (id : ScopedEmailId) : string := compoundKey [id.(accountKey); id.(jmapId)].
Definition identityKey (id : ScopedIdentityId) : string :=
  compoundKey [id.(accountKey); id.(jmapId)].

(** The literal types as the strings they are at run time. *)
Definition filter_kind_string (k : FilterKind) : string := match k with filter_all => "all" end.
Definition sort_property_string (p : SortProperty) : string :=
  match p with sort_receivedAt => "receivedAt" end.
Definition sort_direction_string (d : SortDirection) : string :=
  match d with ascending => "ascending" | descending => "descending" end.
Definition data_type_string (t : CollectionDataType) : string :=
  match t with data_email => "email" | data_mailbox => "mailbox" | data_identity => "identity" end.

Definition viewKey (spec : MailboxViewSpec) : string :=
  compoundKey [
    spec.(spec_mailboxId).(accountKey);
    spec.(spec_mailboxId).(jmapId);
    filter_kind_string spec.(spec_filter).(filter_kind);
    sort_property_string spec.(spec_sort).(sort_property);
    sort_direction_string spec.(spec_sort).(sort_direction)].

Definition cursorKey (accountKey0 : AccountKey) (dataType : CollectionDataType) : string :=
  compoundKey [accountKey0; data_type_string dataType].

Definition mutationKey (accountKey0 : AccountKey) (mutationId : MutationId) : string :=
  compoundKey [accountKey0; mutationId].

(** ** State *)

Record MemoryState : Type := mkMemoryState {
  accounts : jsmap AccountKey Account;
  mailboxes : jsmap string Mailbox;
  identities : jsmap string Identity;
  emails : jsmap string Email;
  memberships : jsmap string (list EmailMailbox);
  bodies : jsmap string EmailBody;
  attachments : jsmap string (list AttachmentRef);
  views : jsmap string MailboxView;
  cursors : jsmap string CollectionSyncCursor;
  mutations : jsmap string PendingMutation;
}.

Definition new_MemoryState : MemoryState :=
  {| accounts := map_new; mailboxes := map_new; identities := map_new; emails := map_new;
     memberships := map_new; bodies := map_new; attachments := map_new; views := map_new;
     cursors := map_new; mutations := map_new |}.

(** Assignments [this.state.field = ...]. *)
Definition set_accounts v s := mkMemoryState v (mailboxes s) (identities s) (emails s)
  (memberships s) (bodies s) (attachments s) (views s) (cursors s) (mutations s).
Definition set_mailboxes v s := mkMemoryState (accounts s) v (identities s) (emails s)
  (memberships s) (bodies s) (attachments s) (views s) (cursors s) (mutations s).
Definition set_identities v s := mkMemoryState (accounts s) (mailboxes s) v (emails s)
  (memberships s) (bodies s) (attachments s) (views s) (cursors s) (mutations s).
Definition set_emails v s := mkMemoryState (accounts s) (mailboxes s) (identities s) v
  (memberships s) (bodies s) (attachments s) (views s) (cursors s) (mutations s).
Definition set_memberships v s := mkMemoryState (accounts s) (mailboxes s) (identities s) (emails s)
  v (bodies s) (attachments s) (views s) (cursors s) (mutations s).
Definition set_bodies v s := mkMemoryState (accounts s) (mailboxes s) (identities s) (emails s)
  (memberships s) v (attachments s) (views s) (cursors s) (mutations s).
Definition set_attachments v s := mkMemoryState (accounts s) (mailboxes s) (identities s) (emails s)
  (memberships s) (bodies s) v (views s) (cursors s) (mutations s).
Definition set_views v s := mkMemoryState (accounts s) (mailboxes s) (identities s) (emails s)
  (memberships s) (bodies s) (attachments s) v (cursors s) (mutations s).
Definition set_cursors v s := mkMemoryState (accounts s) (mailboxes s) (identities s) (emails s)
  (memberships s) (bodies s) (attachments s) (views s) v (mutations s).
Definition set_mutations v s := mkMemoryState (accounts s) (mailboxes s) (identities s) (emails s)
  (memberships s) (bodies s) (attachments s) (views s) (cursors s) v.

(** ** Clones *)

Definition cloneAccount (value : Account) : Account :=
  account value.(account_key)
    (remoteAccountRef value.(remoteRef).(serviceKey) value.(remoteRef).(jmapAccountId)).
Definition cloneMailbox (value : Mailbox) : outcome exn Mailbox := mailbox value.
Definition cloneIdentity (value : Identity) : outcome exn Identity := identity value.
Definition cloneEmail (value : Email) : outcome exn Email := email value.
Definition cloneMembership (value : EmailMailbox) : outcome exn EmailMailbox :=
  emailMailbox value.(em_emailId) value.(em_mailboxId).
Definition cloneBody (value : EmailBody) : EmailBody := emailBody value.
Definition cloneAttachment (value : AttachmentRef) : outcome exn AttachmentRef :=
  attachmentRef value.
Definition cloneView (value : MailboxView) : outcome exn MailboxView := mailboxView value.
Definition cloneCursor (value : CollectionSyncCursor) : CollectionSyncCursor :=
  collectionSyncCursor value.

(** [({ ...entry })]. *)
Definition spread_address (a : EmailAddress) : EmailAddress :=
  {| address_name := a.(address_name); address_email := a.(address_email) |}.

Definition cloneSendIntent (value : SendIntent) : SendIntent :=
  {| intent_securityMode := value.(intent_securityMode);
     intent_identityId := value.(intent_identityId);
     intent_from := {| address_name := value.(intent_from).(address_name);
                       address_email := value.(intent_from).(address_email) |};
     intent_replyTo := map spread_address value.(intent_replyTo);
     intent_to := map spread_address value.(intent_to);
     intent_cc := map spread_address value.(intent_cc);
     intent_bcc := map spread_address value.(intent_bcc);
     intent_subject := value.(intent_subject);
     intent_body := {| send_text := value.(intent_body).(send_text);
                       send_html := value.(intent_body).(send_html) |} |}.

Definition cloneSendLifecycle (value : SendMutationLifecycle) : SendMutationLifecycle :=
  match value with
  | Confirmed attemptCount confirmation =>
      Confirmed attemptCount {| confirmation_emailId := confirmation.(confirmation_emailId) |}
  | other => other
  end.

Definition cloneUpdateLifecycle (value : EmailUpdateLifecycle) : EmailUpdateLifecycle := value.

Definition cloneMutation (value : PendingMutation) : PendingMutation :=
  match value with
  | MutSend m => MutSend {|
      send_mutationId := m.(send_mutationId);
      send_accountKey := m.(send_accountKey);
      send_createdAt := m.(send_createdAt);
      send_intent := cloneSendIntent m.(send_intent);
      send_lifecycle := cloneSendLifecycle m.(send_lifecycle) |}
  | MutKeyword m => MutKeyword {|
      kw_mutationId := m.(kw_mutationId);
      kw_accountKey := m.(kw_accountKey);
      kw_createdAt := m.(kw_createdAt);
      kw_emailId := m.(kw_emailId);
      kw_change := {| keyword_add := set_of_list m.(kw_change).(keyword_add);
                      keyword_remove := set_of_list m.(kw_change).(keyword_remove) |};
      kw_lifecycle := cloneUpdateLifecycle m.(kw_lifecycle) |}
  | MutMembership m => MutMembership {|
      mm_mutationId := m.(mm_mutationId);
      mm_accountKey := m.(mm_accountKey);
      mm_createdAt := m.(mm_createdAt);
      mm_emailId := m.(mm_emailId);
      mm_change := {| membership_add := m.(mm_change).(membership_add);
                      membership_remove := m.(mm_change).(membership_remove) |};
      mm_lifecycle := cloneUpdateLifecycle m.(mm_lifecycle) |}
  end.

(** ** Keys are injective *)

Lemma netstring_split p q x y :
  (decimal (String.length p) +:+ ":" +:+ p) +:+ x = (decimal (String.length q) +:+ ":" +:+ q) +:+ y →
  p = q ∧ x = y.
Proof.
  rewrite !string_app_assoc, !string_app_cons, !string_app_nil. intros H.
  apply cut_at_inj in H as [Hlen H]; [|apply decimal_no_colon..].
  apply decimal_inj in Hlen. by apply string_app_inj_length.
Qed.

Lemma decimal_nonempty n s : decimal n +:+ ":" +:+ s ≠ "".
Proof. destruct (decimal n); autorewrite with strings_db; done. Qed.

(** A compound key determines its parts, whatever follows it. *)
Lemma compoundKey_app_inj a b x y :
  length a = length b → compoundKey a +:+ x = compoundKey b +:+ y → a = b ∧ x = y.
Proof.
  revert b. induction a as [|p a IH]; intros [|q b]; simpl; try done.
  intros [= Hlen] H. rewrite (string_app_assoc _ _ x), (string_app_assoc _ _ y) in H.
  apply netstring_split in H as [-> H]. apply IH in H as [-> ->]; done.
Qed.

Lemma compoundKey_nil_iff l : compoundKey l = "" ↔ l = [].
Proof.
  destruct l as [|p l]; [done|]. split; [|done]. simpl. intros H.
  rewrite string_app_assoc, (string_app_assoc ":") in H. by apply decimal_nonempty in H.
Qed.

Lemma compoundKey_inj a b : compoundKey a = compoundKey b → a = b.
Proof.
  revert b. induction a as [|p a IH]; intros [|q b]; intros H.
  - done.
  - symmetry in H. by apply compoundKey_nil_iff in H.
  - by apply compoundKey_nil_iff in H.
  - simpl in H. apply netstring_split in H as [-> H]. f_equal. by apply IH.
Qed.

Lemma emailKey_inj a b : emailKey a = emailKey b → a = b.
Proof. intros [= ? ?]%compoundKey_inj. destruct a, b; simpl in *; congruence. Qed.
Lemma mailboxKey_inj a b : mailboxKey a = mailboxKey b → a = b.
Proof. apply emailKey_inj. Qed.
Lemma identityKey_inj a b : identityKey a = identityKey b → a = b.
Proof. apply emailKey_inj. Qed.

Lemma mutationKey_inj ak ak' m m' : mutationKey ak m = mutationKey ak' m' → ak = ak' ∧ m = m'.
Proof. by intros [= ? ?]%compoundKey_inj. Qed.

Lemma cursorKey_inj ak ak' t t' : cursorKey ak t = cursorKey ak' t' → ak = ak' ∧ t = t'.
Proof. intros [= -> H]%compoundKey_inj. split; [done|]. by destruct t, t'. Qed.

Lemma viewKey_inj a b : viewKey a = viewKey b → a = b.
Proof.
  intros [= ? ? _ _ Hd]%compoundKey_inj.
  destruct a as [[? ?] [[]] [[] d]], b as [[? ?] [[]] [[] d']]; simpl in *.
  destruct d, d'; simpl in *; congruence.
Qed.

(** ** Clones of well-formed values *)

Definition membership_wf (em : EmailMailbox) : Prop :=
  em.(em_emailId).(accountKey) = em.(em_mailboxId).(accountKey).

(** The keyword sets of a stored mutation have no duplicates. *)
Definition mutation_sets_wf (m : PendingMutation) : Prop :=
  match m with
  | MutKeyword m => NoDup m.(kw_change).(keyword_add) ∧ NoDup m.(kw_change).(keyword_remove)
  | _ => True
  end.

Lemma cloneAccount_id a : cloneAccount a = a.
Proof. by destruct a as [? []]. Qed.

Lemma cloneMembership_return em em' : cloneMembership em = Return em' ↔ membership_wf em ∧ em' = em.
Proof. unfold cloneMembership, membership_wf. rewrite emailMailbox_return. by destruct em. Qed.

Lemma spread_address_map l : map spread_address l = l.
Proof. induction l as [|[] l IH]; [done|]. simpl. by rewrite IH. Qed.

Lemma cloneSendIntent_id i : cloneSendIntent i = i.
Proof.
  destruct i as [? ? [] ? ? ? ? ? []]. unfold cloneSendIntent; simpl.
  by rewrite !spread_address_map.
Qed.

Lemma cloneSendLifecycle_id l : cloneSendLifecycle l = l.
Proof. by destruct l as [| | |? []|]. Qed.

Lemma cloneMutation_sets m : mutation_sets_wf (cloneMutation m).
Proof. destruct m; simpl; split_and?; auto using set_of_list_NoDup. Qed.

Lemma cloneMutation_id m : mutation_sets_wf m → cloneMutation m = m.
Proof.
  destruct m as [[]|[? ? ? ? [] ?]|[? ? ? ? [] ?]]; simpl; unfold cloneMutation; simpl.
  - by rewrite cloneSendIntent_id, cloneSendLifecycle_id.
  - intros [? ?]. by rewrite !set_of_list_id.
  - done.
Qed.

Lemma cloneMutation_fields m :
  mutation_kind (cloneMutation m) = mutation_kind m ∧
  mutation_accountKey (cloneMutation m) = mutation_accountKey m ∧
  mutation_id (cloneMutation m) = mutation_id m ∧
  mutation_lifecycle (cloneMutation m) = mutation_lifecycle m.
Proof.
  destruct m as [m| |]; try done. simpl. by rewrite cloneSendLifecycle_id.
Qed.

(** ** The state invariant

    Every map has distinct keys; every value sits under its own key and belongs to a
    registered account; mailboxes, identities, emails, memberships, attachments and views
    satisfy their factory's rules; every email has a membership list, which names that email
    only, without duplicates.  Bodies and cursors have no rules, and of a mutation the engine
    only makes the sets of its change free of duplicates: the rest is up to who stages it. *)

Definition map_forall {V} (P : string → V → Prop) (m : jsmap string V) : Prop :=
  map_wf m ∧ ∀ k v, map_get k m = Some v → P k v.

Definition memberships_ok (id : ScopedEmailId) (l : list EmailMailbox) : Prop :=
  Forall (λ em, em.(em_emailId) = id ∧ membership_wf em) l ∧ NoDup l.

Record state_wf (s : MemoryState) : Prop := {
  wf_accounts : map_forall (λ k a, k = a.(account_key)) s.(accounts);
  wf_mailboxes : map_forall (λ k m, k = mailboxKey m.(mailbox_id) ∧ mailbox_wf m ∧
    is_Some (map_get m.(mailbox_id).(accountKey) s.(accounts))) s.(mailboxes);
  wf_identities : map_forall (λ k i, k = identityKey i.(identity_id) ∧ identity_wf i ∧
    is_Some (map_get i.(identity_id).(accountKey) s.(accounts))) s.(identities);
  wf_emails : map_forall (λ k e, k = emailKey e.(email_id) ∧ email_wf e ∧
    is_Some (map_get e.(email_id).(accountKey) s.(accounts)) ∧
    is_Some (map_get k s.(memberships))) s.(emails);
  wf_memberships : map_forall (λ k l, ∃ e, map_get k s.(emails) = Some e ∧
    memberships_ok e.(email_id) l) s.(memberships);
  wf_bodies : map_forall (λ k b, k = emailKey b.(body_emailId) ∧
    is_Some (map_get b.(body_emailId).(accountKey) s.(accounts))) s.(bodies);
  wf_attachments : map_forall (λ k l, ∃ id, k = emailKey id ∧ is_Some (map_get id.(accountKey) s.(accounts)) ∧
    Forall (λ a, a.(att_emailId) = id ∧ attachment_wf a) l) s.(attachments);
  wf_views : map_forall (λ k v, k = viewKey v.(view_spec) ∧ view_wf v ∧
    is_Some (map_get v.(view_spec).(spec_mailboxId).(accountKey) s.(accounts))) s.(views);
  wf_cursors : map_forall (λ k c, k = cursorKey c.(cursor_accountKey) c.(cursor_dataType) ∧
    is_Some (map_get c.(cursor_accountKey) s.(accounts))) s.(cursors);
  wf_mutations : map_forall (λ k m, k = mutationKey (mutation_accountKey m) (mutation_id m) ∧
    mutation_sets_wf m ∧ is_Some (map_get (mutation_accountKey m) s.(accounts))) s.(mutations);
}.

Lemma map_forall_new {V} (P : string → V → Prop) : map_forall P map_new.
Proof. split; [apply map_wf_new | done]. Qed.

Lemma map_forall_set {V} (P : string → V → Prop) k v m :
  map_forall P m → P k v → map_forall P (map_set k v m).
Proof.
  intros [Hm Hall] Hv. split; [by apply map_wf_set|]. intros k' v'. rewrite map_get_set.
  case_decide; [by intros [= <-]; subst | apply Hall].
Qed.

Lemma map_forall_delete {V} (P : string → V → Prop) k m :
  map_forall P m → map_forall P (map_delete k m).
Proof.
  intros [Hm Hall]. split; [by apply map_wf_delete|]. intros k' v'.
  rewrite map_get_delete by done. case_decide; [done | apply Hall].
Qed.

Lemma map_forall_impl {V} (P Q : string → V → Prop) m :
  map_forall P m → (∀ k v, P k v → Q k v) → map_forall Q m.
Proof. intros [Hm Hall] HPQ. split; [done|]. eauto. Qed.

Lemma state_wf_new : state_wf new_MemoryState.
Proof. split; apply map_forall_new. Qed.

#[export] Hint Resolve map_forall_new map_forall_set map_forall_delete state_wf_new : correo.
