(* ===== verification/MemorySyncPort.v ===== *)
(** * The memory engine's write side: adapters/memory/memory-sync-port.ts

    Each method of [MemorySyncPort] is an action over a [World]: the engine's
    state and the batches handed to the change hub so far, oldest first.  The
    methods are [async] but await nothing, so each runs as one step. *)

From S2P Require Import Prelude.
From S2P Require Import JsNumber.
From S2P Require Import JsString.
From S2P Require Import JsCollections.
From S2P Require Import Errors.
From S2P Require Import DomainIds.
From S2P Require Import DomainEmail.
From S2P Require Import DomainMailbox.
From S2P Require Import MailboxView.
From S2P Require Import SendIntent.
From S2P Require Import PendingMutation.
From S2P Require Import Ports.
From S2P Require Import MemoryState.
Open Scope string_scope.
Open Scope list_scope.
Open Scope js_scope.

Record World : Type := mkWorld {
  db : MemoryState;
  published : list LocalChangeBatch;
}.

Definition Action (A : Type) : Type := action exn World A.

Definition get_db : Action MemoryState := read db.
Definition update_db (f : MemoryState → MemoryState) : Action unit :=
  modify (λ w, {| db := f (db w); published := published w |}).
Definition publish (first : LocalChangeHint) (rest : list LocalChangeHint) : Action unit :=
  modify (λ w, {| db := db w; published := published w ++ [mkBatch first rest] |}).

Definition writeOk : Action WriteResult := mret (PortOk tt).
Definition conflict : Action WriteResult := mret (PortError write_conflict).

(** ** Comparisons *)

Fixpoint hasDuplicates_loop {T} (key : T → string) (values : list T) (seen : list string) : bool :=
  match values with
  | [] => false
  | value :: rest =>
      let current := key value in
      if set_has current seen then true
      else hasDuplicates_loop key rest (set_add current seen)
  end.

Definition hasDuplicates {T} (values : list T) (key : T → string) : bool :=
  hasDuplicates_loop key values set_new.

Definition setsEqual (left right : list string) : bool :=
  bool_decide (length left = length right) && forallb (λ value, set_has value right) left.

Definition addressEqual (left right : EmailAddress) : bool :=
  (left.(address_name) === right.(address_name)) &&
  (left.(address_email) === right.(address_email)).

(** [left.length === right.length && left.every((v, i) => eq(v, right[i]))]. *)
Definition listsEqual {T} (eq : T → T → bool) (left right : list T) : bool :=
  bool_decide (length left = length right) &&
  forallb (λ p, eq p.1 p.2) (zip left right).

Definition addressListsEqual (left right : list EmailAddress) : bool :=
  listsEqual addressEqual left right.

Definition sendIntentsEqual (left right : SendIntent) : bool :=
  (left.(intent_securityMode) === right.(intent_securityMode)) &&
  sameScopedIdentityId left.(intent_identityId) right.(intent_identityId) &&
  addressEqual left.(intent_from) right.(intent_from) &&
  addressListsEqual left.(intent_replyTo) right.(intent_replyTo) &&
  addressListsEqual left.(intent_to) right.(intent_to) &&
  addressListsEqual left.(intent_cc) right.(intent_cc) &&
  addressListsEqual left.(intent_bcc) right.(intent_bcc) &&
  (left.(intent_subject) === right.(intent_subject)) &&
  (left.(intent_body).(send_text) === right.(intent_body).(send_text)) &&
  (left.(intent_body).(send_html) === right.(intent_body).(send_html)).

Definition lifecycleEqual (left right : Lifecycle (option SendConfirmation)) : bool :=
  if (lifecycle_status left !== lifecycle_status right) ||
     negb (num_eqb (lifecycle_attemptCount left) (lifecycle_attemptCount right))
  then false
  else
    match left, right with
    | Retrying _ leftNext, Retrying _ rightNext => leftNext === rightNext
    | Confirmed _ leftConfirmation, Confirmed _ rightConfirmation =>
        match leftConfirmation, rightConfirmation with
        | Some l, Some r => sameScopedEmailId l.(confirmation_emailId) r.(confirmation_emailId)
        | None, None => true
        | _, _ => false
        end
    | _, _ => true
    end.

Definition mailboxIdsEqual (left right : list ScopedMailboxId) : bool :=
  listsEqual sameScopedMailboxId left right.

Definition mutationsEqual (left right : PendingMutation) : bool :=
  if (mutation_kind left !== mutation_kind right) ||
     (mutation_accountKey left !== mutation_accountKey right) ||
     (mutation_id left !== mutation_id right) ||
     (mutation_createdAt left !== mutation_createdAt right) ||
     negb (lifecycleEqual (mutation_lifecycle left) (mutation_lifecycle right))
  then false
  else
    match left, right with
    | MutSend l, MutSend r => sendIntentsEqual l.(send_intent) r.(send_intent)
    | MutKeyword l, MutKeyword r =>
        sameScopedEmailId l.(kw_emailId) r.(kw_emailId) &&
        setsEqual l.(kw_change).(keyword_add) r.(kw_change).(keyword_add) &&
        setsEqual l.(kw_change).(keyword_remove) r.(kw_change).(keyword_remove)
    | MutMembership l, MutMembership r =>
        sameScopedEmailId l.(mm_emailId) r.(mm_emailId) &&
        mailboxIdsEqual l.(mm_change).(membership_add) r.(mm_change).(membership_add) &&
        mailboxIdsEqual l.(mm_change).(membership_remove) r.(mm_change).(membership_remove)
    | _, _ => false
    end.

(** [{ ...m, lifecycle: { status: 'pending', attemptCount: 0 } }]. *)
Definition with_pending (m : PendingMutation) : PendingMutation :=
  match m with
  | MutSend m => MutSend {|
      send_mutationId := m.(send_mutationId); send_accountKey := m.(send_accountKey);
      send_createdAt := m.(send_createdAt); send_intent := m.(send_intent);
      send_lifecycle := Pending (Int 0) |}
  | MutKeyword m => MutKeyword {|
      kw_mutationId := m.(kw_mutationId); kw_accountKey := m.(kw_accountKey);
      kw_createdAt := m.(kw_createdAt); kw_emailId := m.(kw_emailId);
      kw_change := m.(kw_change); kw_lifecycle := Pending (Int 0) |}
  | MutMembership m => MutMembership {|
      mm_mutationId := m.(mm_mutationId); mm_accountKey := m.(mm_accountKey);
      mm_createdAt := m.(mm_createdAt); mm_emailId := m.(mm_emailId);
      mm_change := m.(mm_change); mm_lifecycle := Pending (Int 0) |}
  end.

Definition sameImmutableMutation (left right : PendingMutation) : bool :=
  mutationsEqual (with_pending left) (with_pending right).

Definition validTransition (expected next : PendingMutation) : bool :=
  let from := mutation_lifecycle expected in
  let to := mutation_lifecycle next in
  if lifecycle_status from === st_pending then
    (lifecycle_status to === st_inFlight) && num_eqb (lifecycle_attemptCount to) (Int 1)
  else if lifecycle_status from === st_retrying then
    (lifecycle_status to === st_inFlight) &&
    num_eqb (lifecycle_attemptCount to) (num_add (lifecycle_attemptCount from) (Int 1))
  else if (lifecycle_status from !== st_inFlight) ||
          negb (num_eqb (lifecycle_attemptCount to) (lifecycle_attemptCount from))
  then false
  else (lifecycle_status to === st_retrying) || (lifecycle_status to === st_confirmed) ||
       (lifecycle_status to === st_failedTerminal).

(** ** Accounts *)

Definition registerAccount (value : Account) : Action WriteResult :=
  s ← get_db;
  let current := map_get value.(account_key) s.(accounts) in
  if match current with
     | Some a => negb (sameRemoteAccountRef a.(remoteRef) value.(remoteRef))
     | None => false
     end
  then conflict
  else
    match current with
    | None => update_db (λ s, set_accounts (map_set value.(account_key) (cloneAccount value)
                                              s.(accounts)) s)
    | Some _ => mret tt
    end;;
    publish AccountsChanged [];;
    writeOk.

(** ** Collections *)

Definition cursorPreconditionHolds (s : MemoryState) (expected : CollectionCursorPrecondition)
    (next : CollectionSyncCursor) : bool :=
  let current := map_get (cursorKey next.(cursor_accountKey) next.(cursor_dataType)) s.(cursors) in
  match expected with
  | ExpectAbsent => match current with None => true | Some _ => false end
  | ExpectMatches cursor =>
      match current with
      | None => false
      | Some current =>
          (cursor.(cursor_accountKey) === next.(cursor_accountKey)) &&
          (cursor.(cursor_dataType) === next.(cursor_dataType)) &&
          (current.(cursor_accountKey) === cursor.(cursor_accountKey)) &&
          (current.(cursor_dataType) === cursor.(cursor_dataType)) &&
          (current.(cursor_state) === cursor.(cursor_state))
      end
  end.

Definition membership_pair_key (entry : EmailMailbox) : string :=
  emailKey entry.(em_emailId) +:+ "|" +:+ mailboxKey entry.(em_mailboxId).

Definition validateEmailRecord (record : EmailSyncRecord) (accountKey0 : AccountKey) : bool :=
  (record.(record_email).(email_id).(accountKey) === accountKey0) &&
  forallb (λ entry, sameScopedEmailId entry.(em_emailId) record.(record_email).(email_id))
    record.(record_memberships) &&
  negb (hasDuplicates record.(record_memberships) membership_pair_key).

Definition validateEmailCommit (commit : CollectionCommit EmailSyncRecord ScopedEmailId)
    (accountKey0 : AccountKey) : bool :=
  let records := collection_records commit in
  if existsb (λ record, negb (validateEmailRecord record accountKey0)) records ||
     hasDuplicates records (λ record, emailKey record.(record_email).(email_id))
  then false
  else
    match commit with
    | Replace _ _ _ => true
    | Delta _ _ changed destroyed =>
        forallb (λ id : ScopedEmailId, id.(accountKey) === accountKey0) destroyed &&
        negb (hasDuplicates destroyed emailKey) &&
        negb (existsb (λ record, existsb (λ id, sameScopedEmailId record.(record_email).(email_id) id)
                                   destroyed) changed)
    end.

(** [for (const record of records) { emails.set(...); memberships.set(...) }]. *)
Fixpoint store_email_records (records : list EmailSyncRecord)
    (maps : jsmap string Email * jsmap string (list EmailMailbox)) :
    outcome exn (jsmap string Email * jsmap string (list EmailMailbox)) :=
  match records with
  | [] => Return maps
  | record :: rest =>
      let key := emailKey record.(record_email).(email_id) in
      value ← cloneEmail record.(record_email);
      entries ← mapM cloneMembership record.(record_memberships);
      store_email_records rest (map_set key value maps.1, map_set key entries maps.2)
  end.

Definition commitEmails (commit : CollectionCommit EmailSyncRecord ScopedEmailId)
    (accountKey0 : AccountKey) : Action unit :=
  s ← get_db;
  let cleared :=
    match commit with
    | Replace _ _ _ =>
        (map_delete_if (λ _ value, value.(email_id).(accountKey) === accountKey0) s.(emails),
         map_delete_if (λ key value,
             match head value with
             | Some entry => entry.(em_emailId).(accountKey) === accountKey0
             | None => false
             end ||
             match map_get key s.(emails) with
             | Some e => e.(email_id).(accountKey) === accountKey0
             | None => false
             end) s.(memberships))
    | Delta _ _ _ destroyed =>
        (fold_left (λ m id, map_delete (emailKey id) m) destroyed s.(emails),
         fold_left (λ m id, map_delete (emailKey id) m) destroyed s.(memberships))
    end in
  maps ← pure_step (store_email_records (collection_records commit) cleared);
  update_db (λ s, set_memberships maps.2 (set_emails maps.1 s)).

Definition validateMailboxCommit (commit : CollectionCommit Mailbox ScopedMailboxId)
    (accountKey0 : AccountKey) : bool :=
  let records := collection_records commit in
  if existsb (λ value, value.(mailbox_id).(accountKey) !== accountKey0) records ||
     hasDuplicates records (λ value, mailboxKey value.(mailbox_id))
  then false
  else
    match commit with
    | Replace _ _ _ => true
    | Delta _ _ changed destroyed =>
        forallb (λ id : ScopedMailboxId, id.(accountKey) === accountKey0) destroyed &&
        negb (hasDuplicates destroyed mailboxKey) &&
        negb (existsb (λ value, existsb (λ id, sameScopedMailboxId value.(mailbox_id) id) destroyed)
                changed)
    end.

(** [for (const value of values) m.set(key(value), clone(value))]. *)
Fixpoint store_values {T} (key : T → string) (clone : T → outcome exn T) (values : list T)
    (m : jsmap string T) : outcome exn (jsmap string T) :=
  match values with
  | [] => Return m
  | value :: rest =>
      cloned ← clone value;
      store_values key clone rest (map_set (key value) cloned m)
  end.

Definition commitMailboxes (commit : CollectionCommit Mailbox ScopedMailboxId)
    (accountKey0 : AccountKey) : Action unit :=
  s ← get_db;
  let cleared :=
    match commit with
    | Replace _ _ _ =>
        map_delete_if (λ _ value, value.(mailbox_id).(accountKey) === accountKey0) s.(mailboxes)
    | Delta _ _ _ destroyed =>
        fold_left (λ m id, map_delete (mailboxKey id) m) destroyed s.(mailboxes)
    end in
  values ← pure_step (store_values (λ value, mailboxKey value.(mailbox_id)) cloneMailbox
                        (collection_records commit) cleared);
  update_db (set_mailboxes values).

Definition validateIdentityCommit (commit : CollectionCommit Identity ScopedIdentityId)
    (accountKey0 : AccountKey) : bool :=
  let records := collection_records commit in
  if existsb (λ value, value.(identity_id).(accountKey) !== accountKey0) records ||
     hasDuplicates records (λ value, identityKey value.(identity_id))
  then false
  else
    match commit with
    | Replace _ _ _ => true
    | Delta _ _ changed destroyed =>
        forallb (λ id : ScopedIdentityId, id.(accountKey) === accountKey0) destroyed &&
        negb (hasDuplicates destroyed identityKey) &&
        negb (existsb (λ value, existsb (λ id, sameScopedIdentityId value.(identity_id) id) destroyed)
                changed)
    end.

Definition commitIdentities (commit : CollectionCommit Identity ScopedIdentityId)
    (accountKey0 : AccountKey) : Action unit :=
  s ← get_db;
  let cleared :=
    match commit with
    | Replace _ _ _ =>
        map_delete_if (λ _ value, value.(identity_id).(accountKey) === accountKey0) s.(identities)
    | Delta _ _ _ destroyed =>
        fold_left (λ m id, map_delete (identityKey id) m) destroyed s.(identities)
    end in
  values ← pure_step (store_values (λ value, identityKey value.(identity_id)) cloneIdentity
                        (collection_records commit) cleared);
  update_db (set_identities values).

Definition set_cursor (accountKey0 : AccountKey) (dataType : CollectionDataType)
    (next : CollectionSyncCursor) : Action unit :=
  update_db (λ s, set_cursors (map_set (cursorKey accountKey0 dataType) (cloneCursor next)
                                 s.(cursors)) s).

Definition applyCollectionSync (commit : CollectionSyncCommit) : Action WriteResult :=
  s ← get_db;
  let next := commit_nextCursor commit in
  let accountKey0 := next.(cursor_accountKey) in
  if negb (map_has accountKey0 s.(accounts)) ||
     (next.(cursor_dataType) !== commit_kind commit) ||
     negb (cursorPreconditionHolds s (commit_expectedCursor commit) next)
  then conflict
  else
    match commit with
    | EmailCommit c =>
        if negb (validateEmailCommit c accountKey0) then conflict
        else
          commitEmails c accountKey0;;
          set_cursor accountKey0 data_email next;;
          publish (EmailsChanged accountKey0)
            [EmailMembershipsChanged accountKey0; SyncCursorChanged accountKey0 data_email];;
          writeOk
    | MailboxCommit c =>
        if negb (validateMailboxCommit c accountKey0) then conflict
        else
          commitMailboxes c accountKey0;;
          set_cursor accountKey0 data_mailbox next;;
          publish (MailboxesChanged accountKey0) [SyncCursorChanged accountKey0 data_mailbox];;
          writeOk
    | IdentityCommit c =>
        if negb (validateIdentityCommit c accountKey0) then conflict
        else
          commitIdentities c accountKey0;;
          set_cursor accountKey0 data_identity next;;
          publish (IdentitiesChanged accountKey0) [SyncCursorChanged accountKey0 data_identity];;
          writeOk
    end.

(** ** Caches and views *)

Definition cacheEmailBody (body : EmailBody) : Action WriteResult :=
  s ← get_db;
  if negb (map_has (emailKey body.(body_emailId)) s.(emails)) then conflict
  else
    update_db (λ s, set_bodies (map_set (emailKey body.(body_emailId)) (cloneBody body)
                                  s.(bodies)) s);;
    publish (EmailBodyChanged body.(body_emailId)) [];;
    writeOk.

Definition attachment_pair_key (value : AttachmentRef) : string :=
  emailKey value.(att_emailId) +:+ "|" +:+ value.(att_partId).

Definition replaceAttachmentRefs (emailId : ScopedEmailId) (refs : list AttachmentRef) :
    Action WriteResult :=
  s ← get_db;
  if negb (map_has (emailKey emailId) s.(emails)) ||
     existsb (λ value, negb (sameScopedEmailId value.(att_emailId) emailId)) refs ||
     hasDuplicates refs attachment_pair_key
  then conflict
  else
    cloned ← pure_step (mapM cloneAttachment refs);
    update_db (λ s, set_attachments (map_set (emailKey emailId) cloned s.(attachments)) s);;
    publish (AttachmentRefsChanged emailId) [];;
    writeOk.

Definition replaceMailboxView (view : MailboxView) : Action WriteResult :=
  s ← get_db;
  if negb (map_has (mailboxKey view.(view_spec).(spec_mailboxId)) s.(mailboxes)) then conflict
  else
    cloned ← pure_step (cloneView view);
    update_db (λ s, set_views (map_set (viewKey view.(view_spec)) cloned s.(views)) s);;
    publish (MailboxViewChanged view.(view_spec)) [];;
    writeOk.

(** ** Mutations *)

Definition put_mutation (key : string) (value : PendingMutation) : Action unit :=
  update_db (λ s, set_mutations (map_set key (cloneMutation value) s.(mutations)) s).

Definition stageSendMutation (value : SendMutation) : Action WriteResult :=
  s ← get_db;
  let key := mutationKey value.(send_accountKey) value.(send_mutationId) in
  if negb (map_has value.(send_accountKey) s.(accounts)) || map_has key s.(mutations)
  then conflict
  else
    put_mutation key (MutSend value);;
    publish (PendingMutationsChanged value.(send_accountKey)) [];;
    writeOk.

Definition with_keywords (e : Email) (keywords : KeywordSet) : Email :=
  mkEmail e.(email_id) e.(email_blobId) e.(email_threadId) e.(email_sender) e.(email_from)
    e.(email_replyTo) e.(email_to) e.(email_cc) e.(email_bcc) e.(email_subject) e.(email_sentAt)
    e.(email_receivedAt) e.(email_size) e.(email_preview) e.(email_hasAttachment) keywords.

Definition applyOptimisticKeywordMutation (value : KeywordMutation) : Action WriteResult :=
  s ← get_db;
  let key := mutationKey value.(kw_accountKey) value.(kw_mutationId) in
  match map_get (emailKey value.(kw_emailId)) s.(emails) with
  | None => conflict
  | Some target =>
      if negb (map_has value.(kw_accountKey) s.(accounts)) || map_has key s.(mutations)
      then conflict
      else
        let keywords := set_of_list target.(email_keywords) in
        let keywords := fold_left (λ k item, set_add item k)
                          value.(kw_change).(keyword_add) keywords in
        let keywords := fold_left (λ k item, set_delete item k)
                          value.(kw_change).(keyword_remove) keywords in
        checked ← pure_step (keywordSet keywords);
        next ← pure_step (email (with_keywords target checked));
        update_db (λ s, set_emails (map_set (emailKey value.(kw_emailId)) next s.(emails)) s);;
        put_mutation key (MutKeyword value);;
        publish (EmailsChanged value.(kw_accountKey))
          [PendingMutationsChanged value.(kw_accountKey)];;
        writeOk
  end.

(** [for (const id of add) if (!next.some(...)) next.push(emailMailbox(emailId, id))]. *)
Fixpoint push_memberships (emailId : ScopedEmailId) (add : list ScopedMailboxId)
    (next : list EmailMailbox) : outcome exn (list EmailMailbox) :=
  match add with
  | [] => Return next
  | id :: rest =>
      if negb (existsb (λ entry, sameScopedMailboxId entry.(em_mailboxId) id) next) then
        entry ← emailMailbox emailId id;
        push_memberships emailId rest (next ++ [entry])
      else push_memberships emailId rest next
  end.

Definition applyOptimisticMailboxMembershipMutation (value : MailboxMembershipMutation) :
    Action WriteResult :=
  s ← get_db;
  let key := mutationKey value.(mm_accountKey) value.(mm_mutationId) in
  let targetKey := emailKey value.(mm_emailId) in
  if negb (map_has value.(mm_accountKey) s.(accounts)) || negb (map_has targetKey s.(emails)) ||
     map_has key s.(mutations)
  then conflict
  else if existsb (λ id, negb (map_has (mailboxKey id) s.(mailboxes)))
            (value.(mm_change).(membership_add) ++ value.(mm_change).(membership_remove))
  then conflict
  else
    let current := default [] (map_get targetKey s.(memberships)) in
    let kept := List.filter
      (λ entry, negb (existsb (λ id, sameScopedMailboxId entry.(em_mailboxId) id)
                        value.(mm_change).(membership_remove))) current in
    next ← pure_step (push_memberships value.(mm_emailId) value.(mm_change).(membership_add) kept);
    if bool_decide (length next = 0)%nat then conflict
    else
      cloned ← pure_step (mapM cloneMembership next);
      update_db (λ s, set_memberships (map_set targetKey cloned s.(memberships)) s);;
      put_mutation key (MutMembership value);;
      publish (EmailMembershipsChanged value.(mm_accountKey))
        [PendingMutationsChanged value.(mm_accountKey)];;
      writeOk.

Definition replacePendingMutationIfCurrent (expected next : PendingMutation) :
    Action WriteResult :=
  s ← get_db;
  let key := mutationKey (mutation_accountKey expected) (mutation_id expected) in
  if match map_get key s.(mutations) with
     | None => true
     | Some current =>
         negb (mutationsEqual current expected) || negb (sameImmutableMutation expected next) ||
         negb (validTransition expected next)
     end
  then conflict
  else
    put_mutation key next;;
    publish (PendingMutationsChanged (mutation_accountKey expected)) [];;
    writeOk.

Definition removeConfirmedMutation (accountKey0 : AccountKey) (mutationId : MutationId) :
    Action WriteResult :=
  s ← get_db;
  let key := mutationKey accountKey0 mutationId in
  if match map_get key s.(mutations) with
     | None => true
     | Some current => mutation_status current !== st_confirmed
     end
  then conflict
  else
    update_db (λ s, set_mutations (map_delete key s.(mutations)) s);;
    publish (PendingMutationsChanged accountKey0) [];;
    writeOk.
