(* ===== verification/MemoryFacts.v ===== *)
(** * Facts about the memory engine's writes

    [writes m w ok]: run in [w], the write either changes nothing (it conflicts,
    or a factory throws), or commits: it publishes exactly one batch and the new
    state and the batch satisfy [ok].  Every method is proved in this form. *)

From S2P Require Import Prelude.
From S2P Require Import JsNumber.
From S2P Require Import JsString.
From S2P Require Import JsCollections.
From S2P Require Import Errors.
From S2P Require Import DomainIds.
From S2P Require Import DomainEmail.
From S2P Require Import DomainMailbox.
From S2P Require Import MailboxView.
From S2P Require Import SendIntent.
From S2P Require Import PendingMutation.
From S2P Require Import Ports.
From S2P Require Import MemoryState.
From S2P Require Import MemorySyncPort.
From Stdlib Require Import Setoid Morphisms.
Open Scope list_scope.

Definition writes (m : Action WriteResult) (w : World)
    (ok : MemoryState → LocalChangeBatch → Prop) : Prop :=
  match m w with
  | (Return (PortOk tt), w') =>
      ∃ b, published w' = published w ++ [b] ∧ ok (db w') b
  | (Return (PortError e), w') => e = write_conflict ∧ w' = w
  | (Throw _, w') => w' = w
  end.

Section rules.
Context (w : World) (ok : MemoryState → LocalChangeBatch → Prop).

Lemma writes_conflict : writes conflict w ok.
Proof. done. Qed.

Lemma writes_get k : writes (k (db w)) w ok → writes (s ← get_db; k s) w ok.
Proof. done. Qed.

Lemma writes_if (c : bool) m :
  (c = false → writes m w ok) → writes (if c then conflict else m) w ok.
Proof. destruct c; [done|]. intros H. by apply H. Qed.

Lemma writes_pure {A} (m : outcome exn A) k :
  (∀ a, m = Return a → writes (k a) w ok) → writes (a ← pure_step m; k a) w ok.
Proof.
  intros H. unfold writes, pure_step, mbind, action_mbind, action_bind. destruct m as [a|e]; [|done].
  by apply H.
Qed.

Lemma writes_commit f first rest :
  ok (f (db w)) (mkBatch first rest) →
  writes (update_db f;; publish first rest;; writeOk) w ok.
Proof. intros H. by exists (mkBatch first rest). Qed.

Lemma writes_commit2 f g first rest :
  ok (g (f (db w))) (mkBatch first rest) →
  writes (update_db f;; update_db g;; publish first rest;; writeOk) w ok.
Proof. intros H. by exists (mkBatch first rest). Qed.

(** A commit whose new values are computed first: a throw leaves nothing changed. *)
Lemma writes_staged {A} (m : MemoryState → outcome exn A) (f : A → MemoryState → MemoryState) g
    first rest :
  (∀ a, m (db w) = Return a → ok (g (f a (db w))) (mkBatch first rest)) →
  writes ((s ← get_db; a ← pure_step (m s); update_db (f a));;
          update_db g;; publish first rest;; writeOk) w ok.
Proof.
  intros H. unfold writes, get_db, pure_step, mbind, action_mbind, action_bind, read; simpl.
  destruct (m (db w)) as [a|e]; [|done]. exists (mkBatch first rest). split; [done|]. by apply H.
Qed.
End rules.

Lemma writes_mono m w (ok ok' : MemoryState → LocalChangeBatch → Prop) :
  (∀ s b, ok s b → ok' s b) → writes m w ok → writes m w ok'.
Proof.
  intros Himpl. unfold writes. destruct (m w) as [[[[]|]|] w']; try done. naive_solver.
Qed.

(** ** [hasDuplicates] decides [NoDup] of the keys *)

Lemma hasDuplicates_loop_false {T} (key : T → string) values seen :
  hasDuplicates_loop key values seen = false ↔
  NoDup (map key values) ∧ ∀ k, k ∈ map key values → k ∉ seen.
Proof.
  revert seen. induction values as [|v values IH]; intros seen; simpl.
  - split; [intros _|done]. split; [constructor|]. intros k Hk. by apply not_elem_of_nil in Hk.
  - destruct (set_has (key v) seen) eqn:Hv.
    + apply set_has_spec in Hv. split; [done|]. intros [_ Hd]. exfalso. apply (Hd (key v)); [by left|done].
    + apply set_has_false in Hv. rewrite IH, NoDup_cons. setoid_rewrite elem_of_set_add.
      setoid_rewrite elem_of_cons. naive_solver.
Qed.

Lemma hasDuplicates_false {T} (key : T → string) values :
  hasDuplicates values key = false ↔ NoDup (map key values).
Proof.
  unfold hasDuplicates. rewrite hasDuplicates_loop_false.
  split; [by intros []|]. intros; split; [done|]. intros ? _. apply not_elem_of_nil.
Qed.

Lemma NoDup_map_inj_iff {A B} (f : A → B) (l : list A) :
  (∀ x y, f x = f y → x = y) → NoDup (map f l) ↔ NoDup l.
Proof.
  intros Hinj. split; [apply NoDup_fmap_1|]. apply NoDup_fmap_2. intros x y. apply Hinj.
Qed.

Lemma hasDuplicates_inj_false {T} (key : T → string) values :
  (∀ x y, key x = key y → x = y) → hasDuplicates values key = false ↔ NoDup values.
Proof. intros. rewrite hasDuplicates_false. by apply NoDup_map_inj_iff. Qed.

Lemma membership_pair_key_inj a b : membership_pair_key a = membership_pair_key b → a = b.
Proof.
  unfold membership_pair_key. intros H. apply compoundKey_app_inj in H as [He H]; [|done].
  apply string_app_inj_length in H as [_ H]; [|done].
  destruct a as [ea ma], b as [eb mb]; simpl in *.
  f_equal; [apply emailKey_inj; unfold emailKey; by f_equal | by apply mailboxKey_inj].
Qed.

Lemma attachment_pair_key_inj a b :
  attachment_pair_key a = attachment_pair_key b →
  a.(att_emailId) = b.(att_emailId) ∧ a.(att_partId) = b.(att_partId).
Proof.
  unfold attachment_pair_key. intros H. apply compoundKey_app_inj in H as [He H]; [|done].
  apply string_app_inj_length in H as [_ H]; [|done].
  split; [|done]. apply emailKey_inj. unfold emailKey. by f_equal.
Qed.

(** ** Storing a list of values *)

Lemma store_values_forall {T} (P : string → T → Prop) key clone values m m' :
  store_values key clone values m = Return m' →
  map_forall P m →
  (∀ v v', v ∈ values → clone v = Return v' → P (key v) v') →
  map_forall P m'.
Proof.
  revert m. induction values as [|v values IH]; intros m; simpl; [by intros [= <-]|].
  rewrite bind_return. intros (v' & Hv & H) Hm Hall. eapply IH; [done| |].
  - apply map_forall_set; [done|]. apply Hall; [by left|done].
  - intros. apply Hall; [by right|done].
Qed.

(** The state a successful store reaches, key by key. *)
Lemma store_values_get {T} key (clone : T → outcome exn T) values m m' k :
  store_values key clone values m = Return m' →
  NoDup (map key values) →
  map_get k m' = match find (λ v, bool_decide (key v = k)) values with
                 | Some v => match clone v with Return v' => Some v' | Throw _ => None end
                 | None => map_get k m
                 end.
Proof.
  revert m. induction values as [|v values IH]; intros m; simpl; [by intros [= <-]|].
  rewrite bind_return. intros (v' & Hv & H) [Hni Hnd]%NoDup_cons. rewrite (IH _ H Hnd).
  case_bool_decide as Hk.
  - subst k. rewrite Hv. destruct (find _ values) as [u|] eqn:Hf; [|apply map_get_set_eq].
    apply find_some in Hf as [Hin Hku%bool_decide_eq_true]. destruct Hni. rewrite <- Hku.
    apply list_elem_of_In. by apply in_map.
  - destruct (find _ values); [done|]. by apply map_get_set_ne.
Qed.

Lemma store_values_wf {T} key (clone : T → outcome exn T) values m m' :
  store_values key clone values m = Return m' → map_wf m → map_wf m'.
Proof.
  revert m. induction values as [|v values IH]; intros m; simpl; [by intros [= <-]|].
  rewrite bind_return. intros (v' & _ & H) Hm. eapply IH; [done|]. by apply map_wf_set.
Qed.

(** Deleting a list of keys, one after the other. *)
Lemma delete_all_wf {V Id} (key : Id → string) ids (m : jsmap string V) :
  map_wf m → map_wf (fold_left (λ m id, map_delete (key id) m) ids m).
Proof.
  revert m. induction ids as [|id ids IH]; intros m Hm; simpl; [done|]. by apply IH, map_wf_delete.
Qed.

Lemma delete_all_get {V Id} (key : Id → string) ids (m : jsmap string V) k :
  map_wf m →
  map_get k (fold_left (λ m id, map_delete (key id) m) ids m) =
    if decide (k ∈ map key ids) then None else map_get k m.
Proof.
  revert m. induction ids as [|id ids IH]; intros m Hm; cbn [fold_left map].
  - by rewrite decide_False by apply not_elem_of_nil.
  - rewrite IH by (by apply map_wf_delete). rewrite map_get_delete by done.
    repeat case_decide; rewrite ?elem_of_cons in *; naive_solver.
Qed.

Lemma delete_all_forall {V Id} (P : string → V → Prop) (key : Id → string) ids m :
  map_forall P m → map_forall P (fold_left (λ m id, map_delete (key id) m) ids m).
Proof.
  intros [Hm Hall]. split; [by apply delete_all_wf|]. intros k v. rewrite delete_all_get by done.
  case_decide; [done | apply Hall].
Qed.

Lemma delete_if_forall {V} (P : string → V → Prop) p m :
  map_forall P m → map_forall P (map_delete_if p m).
Proof.
  intros [Hm Hall]. split; [by apply map_wf_delete_if|]. intros k v.
  rewrite map_get_delete_if by done. destruct (map_get k m) eqn:Hk; [|done].
  destruct (p k _); [done|]. intros [= <-]. by apply Hall.
Qed.

(** ** What the compare-and-swap compares

    [replacePendingMutationIfCurrent] decides three things with boolean functions:
    whether the stored mutation is the expected one, whether the next one carries
    the same payload, and whether the lifecycle moves along an allowed edge.  Here
    they are related to [mutation_equiv], equality up to the order of keyword
    sets, [same_record], the same without the lifecycle, and [store_edge]. *)

Open Scope list_scope.

(** ** Sets and lists *)

Definition as_set (s : list string) : gset string := list_to_set s.

Lemma setsEqual_spec l r : NoDup l → NoDup r → setsEqual l r = true ↔ as_set l = as_set r.
Proof.
  intros Hl Hr. unfold setsEqual, as_set.
  rewrite andb_true_iff, bool_decide_eq_true, forallb_true_forall. setoid_rewrite set_has_spec.
  split.
  - intros [Hlen Hincl]. apply set_eq. intros x. rewrite !elem_of_list_to_set. split; [apply Hincl|].
    apply NoDup_ListNoDup in Hl. apply NoDup_ListNoDup in Hr.
    rewrite !list_elem_of_In. apply NoDup_length_incl; [done | lia |].
    intros y Hy. rewrite <- list_elem_of_In in *. by apply Hincl.
  - intros Heq. assert (l ≡ₚ r) as Hp.
    { apply NoDup_Permutation; [done..|]. intros x. rewrite <- !(elem_of_list_to_set (C := gset string)).
      by rewrite Heq. }
    split; [by apply Permutation_length | intros x Hx; by rewrite <- Hp].
Qed.

Lemma listsEqual_spec {T} (eq : T → T → bool) l r :
  (∀ a b, eq a b = true ↔ a = b) → listsEqual eq l r = true ↔ l = r.
Proof.
  intros Heq. unfold listsEqual. rewrite andb_true_iff, bool_decide_eq_true. revert r.
  induction l as [|a l IH]; intros [|b r]; simpl; try (split; [by intros []|done]).
  rewrite andb_true_iff, Heq. specialize (IH r).
  split; [intros (? & -> & ?); f_equal; apply IH; auto | intros [= -> ->]].
  destruct (proj2 IH eq_refl). auto.
Qed.

Lemma addressEqual_spec a b : addressEqual a b = true ↔ a = b.
Proof.
  unfold addressEqual. rewrite andb_true_iff, !bool_decide_eq_true. destruct a, b; simpl. naive_solver.
Qed.

Lemma sendIntentsEqual_spec a b : sendIntentsEqual a b = true ↔ a = b.
Proof.
  unfold sendIntentsEqual, addressListsEqual.
  rewrite !andb_true_iff, !bool_decide_eq_true, sameScopedIdentityId_spec, addressEqual_spec,
    !(listsEqual_spec addressEqual) by apply addressEqual_spec.
  destruct a as [? ? ? ? ? ? ? ? []], b as [? ? ? ? ? ? ? ? []]; simpl.
  split; [intros; destruct_and!; congruence | by intros [= -> -> -> -> -> -> -> -> -> ->]].
Qed.

Lemma mailboxIdsEqual_spec l r : mailboxIdsEqual l r = true ↔ l = r.
Proof. apply listsEqual_spec, sameScopedMailboxId_spec. Qed.

Lemma lifecycleEqual_spec l r :
  lifecycleEqual l r = true ↔ l = r ∧ lifecycle_attemptCount l ≠ NaN.
Proof.
  unfold lifecycleEqual.
  destruct l as [n|n|n a|n c|n], r as [m|m|m b|m d|m]; simpl;
    try (split; [done | by intros [? _]]);
    (destruct (num_eqb n m) eqn:Hn; simpl;
      [apply num_eqb_spec in Hn as [-> Hn]
      | split; [done | intros [[= ->] Hne]; exfalso; apply not_true_iff_false in Hn;
          apply Hn; by apply num_eqb_spec]]); try (split; by intros).
  - rewrite bool_decide_eq_true. split; [by intros ->|naive_solver].
  - destruct c as [[c]|], d as [[d]|]; simpl; try (split; [done|naive_solver]).
    rewrite sameScopedEmailId_spec. split; [by intros -> | naive_solver].
Qed.

(** ** Equality up to the order of keyword sets *)

Definition same_record (l r : PendingMutation) : Prop :=
  match l, r with
  | MutSend l, MutSend r =>
      l.(send_mutationId) = r.(send_mutationId) ∧ l.(send_accountKey) = r.(send_accountKey) ∧
      l.(send_createdAt) = r.(send_createdAt) ∧ l.(send_intent) = r.(send_intent)
  | MutKeyword l, MutKeyword r =>
      l.(kw_mutationId) = r.(kw_mutationId) ∧ l.(kw_accountKey) = r.(kw_accountKey) ∧
      l.(kw_createdAt) = r.(kw_createdAt) ∧ l.(kw_emailId) = r.(kw_emailId) ∧
      as_set l.(kw_change).(keyword_add) = as_set r.(kw_change).(keyword_add) ∧
      as_set l.(kw_change).(keyword_remove) = as_set r.(kw_change).(keyword_remove)
  | MutMembership l, MutMembership r =>
      l.(mm_mutationId) = r.(mm_mutationId) ∧ l.(mm_accountKey) = r.(mm_accountKey) ∧
      l.(mm_createdAt) = r.(mm_createdAt) ∧ l.(mm_emailId) = r.(mm_emailId) ∧
      l.(mm_change) = r.(mm_change)
  | _, _ => False
  end.

#[export] Instance same_record_dec l r : Decision (same_record l r).
Proof. destruct l, r; simpl; solve_decision. Defined.

#[export] Instance same_record_equivalence : Equivalence same_record.
Proof.
  split.
  - by intros [].
  - intros [] []; simpl; naive_solver congruence.
  - intros [] [] []; simpl; try done; naive_solver congruence.
Qed.

#[export] Instance mutation_equiv : Equiv PendingMutation :=
  λ l r, same_record l r ∧ mutation_lifecycle l = mutation_lifecycle r.

Lemma mutation_equiv_iff (l r : PendingMutation) :
  l ≡ r ↔ same_record l r ∧ mutation_lifecycle l = mutation_lifecycle r.
Proof. done. Qed.

#[export] Instance mutation_equiv_dec (l r : PendingMutation) : Decision (l ≡ r).
Proof. unfold equiv, mutation_equiv. apply _. Defined.

#[export] Instance mutation_equivalence : Equivalence (≡@{PendingMutation}).
Proof.
  unfold equiv, mutation_equiv. split.
  - intros m. by split.
  - intros l r [H1 H2]. by split.
  - intros a b c [H1 H2] [H3 H4]. split; [by transitivity b | congruence].
Qed.

#[export] Instance mutation_equiv_lifecycle : Proper ((≡) ==> eq) mutation_lifecycle.
Proof. by intros l r []. Qed.

Lemma same_record_fields l r :
  same_record l r →
  mutation_kind l = mutation_kind r ∧ mutation_accountKey l = mutation_accountKey r ∧
  mutation_id l = mutation_id r ∧ mutation_createdAt l = mutation_createdAt r.
Proof. destruct l, r; simpl; naive_solver. Qed.

Lemma same_payload_record m m' : same_payload m m' → same_record m m'.
Proof. by intros []. Qed.

Lemma cloneMutation_equiv m : cloneMutation m ≡ m.
Proof.
  split; [|by apply cloneMutation_fields]. destruct m as [m|m|m]; simpl.
  - by rewrite cloneSendIntent_id.
  - split_and!; try done; unfold as_set; apply set_eq; intros x;
      by rewrite !elem_of_list_to_set, set_of_list_elem.
  - by destruct (mm_change m).
Qed.

(** ** The three comparisons *)

Definition counted (m : PendingMutation) : Prop := mutation_attemptCount m ≠ NaN.

Lemma attemptCount_lifecycle m : mutation_attemptCount m = lifecycle_attemptCount (mutation_lifecycle m).
Proof. done. Qed.

Lemma mutationsEqual_spec l r :
  mutation_sets_wf l → mutation_sets_wf r →
  mutationsEqual l r = true ↔ l ≡ r ∧ counted l.
Proof.
  intros Hl Hr. unfold mutationsEqual, counted. rewrite attemptCount_lifecycle.
  destruct (_ || _) eqn:Hg.
  - split; [done|]. intros [[Hrec Hlc] Hn]. apply same_record_fields in Hrec as (Hk & Ha & Hi & Hc).
    rewrite !orb_true_iff, !differs_true, negb_true_iff in Hg.
    destruct Hg as [[[[?|?]|?]|?]|Hf]; try done.
    apply not_true_iff_false in Hf. by destruct Hf; apply lifecycleEqual_spec.
  - bool_hyps.
    match goal with H : lifecycleEqual _ _ = true |- _ => apply lifecycleEqual_spec in H as [Hlc Hn] end.
    rewrite mutation_equiv_iff. destruct l as [l|l|l], r as [r|r|r]; simpl in *; try done.
    + rewrite sendIntentsEqual_spec. tauto.
    + destruct Hl, Hr. rewrite !andb_true_iff, sameScopedEmailId_spec, !setsEqual_spec by done.
      tauto.
    + rewrite !andb_true_iff, sameScopedEmailId_spec, !mailboxIdsEqual_spec.
      destruct (mm_change l), (mm_change r); simpl.
      split; [intros; destruct_and!; split; [split_and!; congruence | done]|].
      intros [[(? & ? & ? & ? & [= -> ->]) ?] ?]. done.
Qed.

Lemma with_pending_sets m : mutation_sets_wf m → mutation_sets_wf (with_pending m).
Proof. by destruct m. Qed.

Lemma with_pending_equiv l r : with_pending l ≡ with_pending r ↔ same_record l r.
Proof. rewrite mutation_equiv_iff. destruct l, r; simpl; tauto. Qed.

Lemma sameImmutableMutation_spec l r :
  mutation_sets_wf l → mutation_sets_wf r → sameImmutableMutation l r = true ↔ same_record l r.
Proof.
  intros Hl Hr. unfold sameImmutableMutation.
  rewrite mutationsEqual_spec by (by apply with_pending_sets). rewrite with_pending_equiv.
  split; [by intros []|]. intros H. split; [done|]. by destruct l.
Qed.

(** The lifecycle edges the store accepts, on attempt counts as JavaScript numbers. *)
Inductive store_edge :
    Lifecycle (option SendConfirmation) → Lifecycle (option SendConfirmation) → Prop :=
| store_first n : store_edge (Pending n) (InFlight (Int 1))
| store_again n at_ : num_add n (Int 1) ≠ NaN →
    store_edge (Retrying n at_) (InFlight (num_add n (Int 1)))
| store_retry n at_ : n ≠ NaN → store_edge (InFlight n) (Retrying n at_)
| store_confirm n c : n ≠ NaN → store_edge (InFlight n) (Confirmed n c)
| store_fail n : n ≠ NaN → store_edge (InFlight n) (FailedTerminal n).

Lemma validTransition_spec m m' :
  validTransition m m' = true ↔ store_edge (mutation_lifecycle m) (mutation_lifecycle m').
Proof.
  unfold validTransition.
  assert (Hsplit : ∀ k n (b : bool), (if negb (num_eqb k n) then false else b) = true ↔
      b = true ∧ k = n ∧ n ≠ NaN).
  { intros k n b. destruct (num_eqb k n) eqn:Hn; simpl.
    - apply num_eqb_spec in Hn as [-> Hn]. tauto.
    - split; [done|]. intros (_ & -> & Hne). apply not_true_iff_false in Hn.
      destruct Hn. by apply num_eqb_spec. }
  destruct (mutation_lifecycle m) as [n|n|n a|n c|n], (mutation_lifecycle m') as [k|k|k b|k d|k];
    simpl; rewrite ?Hsplit, ?num_eqb_spec; try (split; [done | by inversion 1]);
    (split; [intros; destruct_and?; subst; first [done | constructor; done]
           | inversion 1; subst; by split_and?]).
Qed.

#[export] Instance store_edge_dec m m' :
  Decision (store_edge (mutation_lifecycle m) (mutation_lifecycle m')).
Proof.
  refine (cast_if (decide (validTransition m m' = true))); by rewrite <- validTransition_spec.
Defined.

(** Below the largest safe count, the store's edges are the Domain's. *)
Lemma lifecycle_edge_store l l' : lifecycle_edge l l' → store_edge l l'.
Proof.
  intros [|n at_ Hn|n at_ Hn|n c Hn|n Hn]; try by constructor.
  rewrite <- (num_add_exact n 1) by (unfold MAX_SAFE_INTEGER in *; lia). constructor.
  rewrite num_add_exact by (unfold MAX_SAFE_INTEGER in *; lia). done.
Qed.
