(* ===== verification/MemoryReadRepository.v ===== *)
(** * The memory engine's reads: adapters/memory/memory-read-repository.ts

    Every method is a function of the state: the reads are [async] methods with
    no [await], and change nothing.  A stored value leaves through its [clone]
    function, which runs the Domain factory again and may throw. *)

From S2P Require Import Prelude.
From S2P Require Import JsNumber.
From S2P Require Import JsString.
From S2P Require Import JsCollections.
From S2P Require Import Errors.
From S2P Require Import DomainIds.
From S2P Require Import DomainEmail.
From S2P Require Import DomainMailbox.
From S2P Require Import MailboxView.
From S2P Require Import SendIntent.
From S2P Require Import PendingMutation.
From S2P Require Import Ports.
From S2P Require Import MemoryState.
Open Scope list_scope.
Open Scope js_scope.

Definition Read (T : Type) : Type := MemoryState → outcome exn (ReadResult T).

Definition ok {T} (value : T) : outcome exn (ReadResult T) := Return (PortOk value).

(** [value === undefined ? absent() : { kind: 'present', value: clone(value) }]. *)
Definition present_or_absent {T} (clone : T → outcome exn T) (value : option T) :
    outcome exn (LocalEntityRead T) :=
  match value with
  | None => Return EntityAbsent
  | Some value => cloned ← clone value; Return (EntityPresent cloned)
  end.

(** [value === undefined ? { kind: 'notCached' } : { kind: 'cached', value: clone(value) }]. *)
Definition cached_or_not {T} (clone : T → outcome exn T) (value : option T) :
    outcome exn (OwnedCacheRead T) :=
  match value with
  | None => Return NotCached
  | Some value => cloned ← clone value; Return (Cached cloned)
  end.

(** [value === undefined ? absent() : { kind: 'present', value: clone(value) }], for an owned value. *)
Definition optional_or_absent {T} (clone : T → T) (value : option T) : OwnedOptionalRead T :=
  match value with
  | None => OptionalAbsent
  | Some value => OptionalPresent (clone value)
  end.

Definition readAccount (accountKey0 : AccountKey) : Read (LocalEntityRead Account) := λ s,
  value ← present_or_absent (λ a, Return (cloneAccount a)) (map_get accountKey0 s.(accounts));
  ok value.

Definition listAccounts : Read (list Account) := λ s,
  ok (map cloneAccount (map_values s.(accounts))).

Definition readMailbox (id : ScopedMailboxId) : Read (LocalEntityRead Mailbox) := λ s,
  value ← present_or_absent cloneMailbox (map_get (mailboxKey id) s.(mailboxes));
  ok value.

Definition listMailboxes (accountKey0 : AccountKey) : Read (OwnedSnapshotRead (list Mailbox)) := λ s,
  if negb (map_has accountKey0 s.(accounts)) then ok SnapshotOwnerAbsent
  else
    value ← mapM cloneMailbox
      (List.filter (λ value, value.(mailbox_id).(accountKey) === accountKey0)
         (map_values s.(mailboxes)));
    ok (SnapshotPresent value).

Definition readIdentity (id : ScopedIdentityId) : Read (LocalEntityRead Identity) := λ s,
  value ← present_or_absent cloneIdentity (map_get (identityKey id) s.(identities));
  ok value.

Definition listIdentities (accountKey0 : AccountKey) : Read (OwnedSnapshotRead (list Identity)) := λ s,
  if negb (map_has accountKey0 s.(accounts)) then ok SnapshotOwnerAbsent
  else
    value ← mapM cloneIdentity
      (List.filter (λ value, value.(identity_id).(accountKey) === accountKey0)
         (map_values s.(identities)));
    ok (SnapshotPresent value).

Definition readEmail (id : ScopedEmailId) : Read (LocalEntityRead Email) := λ s,
  value ← present_or_absent cloneEmail (map_get (emailKey id) s.(emails));
  ok value.

Definition readEmails (ids : list ScopedEmailId) : Read (list (LocalEntityRead Email)) := λ s,
  values ← mapM (λ id, present_or_absent cloneEmail (map_get (emailKey id) s.(emails))) ids;
  ok values.

Definition readEmailMemberships (id : ScopedEmailId) :
    Read (OwnedSnapshotRead (list EmailMailbox)) := λ s,
  if negb (map_has (emailKey id) s.(emails)) then ok SnapshotOwnerAbsent
  else
    value ← mapM cloneMembership (default [] (map_get (emailKey id) s.(memberships)));
    ok (SnapshotPresent value).

Definition readEmailBody (id : ScopedEmailId) : Read (OwnedCacheRead EmailBody) := λ s,
  if negb (map_has (emailKey id) s.(emails)) then ok CacheOwnerAbsent
  else
    value ← cached_or_not (λ b, Return (cloneBody b)) (map_get (emailKey id) s.(bodies));
    ok value.

Definition readAttachmentRefs (id : ScopedEmailId) : Read (OwnedCacheRead (list AttachmentRef)) := λ s,
  if negb (map_has (emailKey id) s.(emails)) then ok CacheOwnerAbsent
  else
    value ← cached_or_not (mapM cloneAttachment) (map_get (emailKey id) s.(attachments));
    ok value.

Definition readMailboxView (spec : MailboxViewSpec) : Read (OwnedCacheRead MailboxView) := λ s,
  if negb (map_has (mailboxKey spec.(spec_mailboxId)) s.(mailboxes)) then ok CacheOwnerAbsent
  else
    value ← cached_or_not cloneView (map_get (viewKey spec) s.(views));
    ok value.

Definition readCollectionSyncCursor (accountKey0 : AccountKey) (dataType : CollectionDataType) :
    Read (OwnedOptionalRead CollectionSyncCursor) := λ s,
  if negb (map_has accountKey0 s.(accounts)) then ok OptionalOwnerAbsent
  else ok (optional_or_absent cloneCursor (map_get (cursorKey accountKey0 dataType) s.(cursors))).

Definition readPendingMutation (accountKey0 : AccountKey) (mutationId : MutationId) :
    Read (OwnedOptionalRead PendingMutation) := λ s,
  if negb (map_has accountKey0 s.(accounts)) then ok OptionalOwnerAbsent
  else ok (optional_or_absent cloneMutation
             (map_get (mutationKey accountKey0 mutationId) s.(mutations))).

Definition listPendingMutations (accountKey0 : AccountKey) :
    Read (OwnedSnapshotRead (list PendingMutation)) := λ s,
  if negb (map_has accountKey0 s.(accounts)) then ok SnapshotOwnerAbsent
  else ok (SnapshotPresent (map cloneMutation
             (List.filter (λ value, mutation_accountKey value === accountKey0)
                (map_values s.(mutations))))).
