(* ===== verification/MemoryInvariant.v ===== *)
(** * The memory engine keeps its state well formed

    Every write of [SyncPort], run on a well-formed state with any arguments,
    either changes nothing or commits a well-formed state. *)

From S2P Require Import Prelude.
From S2P Require Import JsNumber.
From S2P Require Import JsString.
From S2P Require Import JsCollections.
From S2P Require Import Errors.
From S2P Require Import DomainIds.
From S2P Require Import DomainEmail.
From S2P Require Import DomainMailbox.
From S2P Require Import MailboxView.
From S2P Require Import SendIntent.
From S2P Require Import PendingMutation.
From S2P Require Import Ports.
From S2P Require Import MemoryState.
From S2P Require Import MemorySyncPort.
From S2P Require Import MemoryFacts.
Open Scope list_scope.

(** ** One field at a time *)

Definition registered (s : MemoryState) (ak : AccountKey) : Prop :=
  is_Some (map_get ak s.(accounts)).

Definition mail_ok (A : jsmap AccountKey Account)
    (maps : jsmap string Email * jsmap string (list EmailMailbox)) : Prop :=
  map_forall (λ k e, k = emailKey e.(email_id) ∧ email_wf e ∧
    is_Some (map_get e.(email_id).(accountKey) A) ∧ is_Some (map_get k maps.2)) maps.1 ∧
  map_forall (λ k l, ∃ e, map_get k maps.1 = Some e ∧ memberships_ok e.(email_id) l) maps.2.

Section fields.
Context (s : MemoryState) (Hwf : state_wf s).

Lemma wf_set_mailboxes v :
  map_forall (λ k m, k = mailboxKey m.(mailbox_id) ∧ mailbox_wf m ∧
    registered s m.(mailbox_id).(accountKey)) v → state_wf (set_mailboxes v s).
Proof. destruct Hwf. by constructor. Qed.

Lemma wf_set_identities v :
  map_forall (λ k i, k = identityKey i.(identity_id) ∧ identity_wf i ∧
    registered s i.(identity_id).(accountKey)) v → state_wf (set_identities v s).
Proof. destruct Hwf. by constructor. Qed.

Lemma wf_set_mail maps :
  mail_ok s.(accounts) maps → state_wf (set_memberships maps.2 (set_emails maps.1 s)).
Proof. destruct Hwf. intros []. by constructor. Qed.

Lemma wf_set_emails v :
  mail_ok s.(accounts) (v, s.(memberships)) → state_wf (set_emails v s).
Proof. destruct Hwf. intros []. by constructor. Qed.

Lemma wf_set_memberships v :
  mail_ok s.(accounts) (s.(emails), v) → state_wf (set_memberships v s).
Proof. destruct Hwf. intros []. by constructor. Qed.

Lemma wf_mail : mail_ok s.(accounts) (s.(emails), s.(memberships)).
Proof. destruct Hwf. by split. Qed.

Lemma wf_set_bodies v :
  map_forall (λ k b, k = emailKey b.(body_emailId) ∧ registered s b.(body_emailId).(accountKey)) v →
  state_wf (set_bodies v s).
Proof. destruct Hwf. by constructor. Qed.

Lemma wf_set_attachments v :
  map_forall (λ k l, ∃ id, k = emailKey id ∧ registered s id.(accountKey) ∧
    Forall (λ a, a.(att_emailId) = id ∧ attachment_wf a) l) v → state_wf (set_attachments v s).
Proof. destruct Hwf. by constructor. Qed.

Lemma wf_set_views v :
  map_forall (λ k v, k = viewKey v.(view_spec) ∧ view_wf v ∧
    registered s v.(view_spec).(spec_mailboxId).(accountKey)) v → state_wf (set_views v s).
Proof. destruct Hwf. by constructor. Qed.

Lemma wf_set_cursors v :
  map_forall (λ k c, k = cursorKey c.(cursor_accountKey) c.(cursor_dataType) ∧
    registered s c.(cursor_accountKey)) v → state_wf (set_cursors v s).
Proof. destruct Hwf. by constructor. Qed.

Lemma wf_set_mutations v :
  map_forall (λ k m, k = mutationKey (mutation_accountKey m) (mutation_id m) ∧
    mutation_sets_wf m ∧ registered s (mutation_accountKey m)) v → state_wf (set_mutations v s).
Proof. destruct Hwf. by constructor. Qed.

(** Registering one more account keeps everything. *)
Lemma wf_add_account a : state_wf (set_accounts (map_set a.(account_key) a s.(accounts)) s).
Proof.
  assert (Hmono : ∀ ak, is_Some (map_get ak s.(accounts)) →
      is_Some (map_get ak (map_set a.(account_key) a s.(accounts)))).
  { intros ak Hak. rewrite map_get_set. by case_decide. }
  destruct Hwf. constructor; simpl; try done; [by apply map_forall_set|..];
    (eapply map_forall_impl; [done|]; naive_solver).
Qed.
End fields.

(** ** Emails and their memberships *)

Lemma mail_ok_store A maps record key value entries :
  mail_ok A maps →
  key = emailKey record.(record_email).(email_id) →
  is_Some (map_get record.(record_email).(email_id).(accountKey) A) →
  cloneEmail record.(record_email) = Return value →
  memberships_ok record.(record_email).(email_id) entries →
  mail_ok A (map_set key value maps.1, map_set key entries maps.2).
Proof.
  intros [HE HM] -> Hak Hv Hent. pose proof (email_return_id _ _ Hv) as Hid.
  apply email_return_wf in Hv. split; simpl.
  - apply map_forall_set; [|rewrite Hid, map_get_set_eq; by split_and!].
    eapply map_forall_impl; [exact HE|]. intros k e (-> & ? & ? & ?). split_and!; try done.
    rewrite map_get_set. by case_decide.
  - destruct HM as [HMwf HM]. split; [by apply map_wf_set|]. intros k l. rewrite !map_get_set.
    case_decide; [|apply HM]. intros [= <-]. exists value. by rewrite Hid.
Qed.

(** The memberships a validated record carries are well formed once cloned. *)
Lemma cloned_memberships_ok record ak entries :
  validateEmailRecord record ak = true →
  mapM cloneMembership record.(record_memberships) = Return entries →
  memberships_ok record.(record_email).(email_id) entries.
Proof.
  unfold validateEmailRecord. intros Hv Hm. bool_hyps.
  match goal with H : hasDuplicates _ _ = false |- _ =>
    apply hasDuplicates_inj_false in H; [|apply membership_pair_key_inj] end.
  match goal with H : forallb _ _ = true |- _ => rename H into Hall end.
  rewrite forallb_true_forall in Hall.
  assert (entries = record.(record_memberships) ∧ Forall membership_wf record.(record_memberships))
    as [-> Hwf].
  { apply mapM_return_Forall2 in Hm. clear -Hm. induction Hm as [|x y l k Hxy _ [-> IH]]; [done|].
    apply cloneMembership_return in Hxy as [Hwf ->]. split; [done|]. by constructor. }
  split; [|done]. rewrite Forall_forall in *. intros em Hin. split; [|by apply Hwf].
  apply sameScopedEmailId_spec. by apply Hall.
Qed.

Lemma store_email_records_ok A ak records maps maps' :
  is_Some (map_get ak A) →
  existsb (λ record, negb (validateEmailRecord record ak)) records = false →
  mail_ok A maps →
  store_email_records records maps = Return maps' → mail_ok A maps'.
Proof.
  intros HA. revert maps. induction records as [|record records IH]; intros maps Hv Hok; simpl in *.
  - by intros [= <-].
  - bool_hyps. rewrite bind_return. intros (value & Hval & Hrest).
    apply bind_return in Hrest as (entries & Hent & Hrest).
    eapply IH; [done| |exact Hrest]. eapply mail_ok_store; [done..| | |].
    + match goal with Hr : validateEmailRecord _ _ = true |- _ => unfold validateEmailRecord in Hr end.
      bool_hyps. congruence.
    + done.
    + by eapply cloned_memberships_ok.
Qed.

(** Deleting the same keys from both maps keeps them consistent. *)
Lemma mail_ok_restrict A (E E' : jsmap string Email) (M M' : jsmap string (list EmailMailbox))
    (keep : string → bool) :
  mail_ok A (E, M) → map_wf E' → map_wf M' →
  (∀ k, map_get k E' = if keep k then map_get k E else None) →
  (∀ k, map_get k M' = if keep k then map_get k M else None) →
  mail_ok A (E', M').
Proof.
  intros [[_ HE] [_ HM]] HwE HwM HgE HgM. split; (split; [done|]); simpl in *; intros k v.
  - rewrite HgE. destruct (keep k) eqn:Hk; [|done]. intros Hget. apply HE in Hget as (-> & ? & ? & ?).
    rewrite HgM, Hk. by split_and!.
  - rewrite HgM. destruct (keep k) eqn:Hk; [|done]. intros Hget. apply HM in Hget as (e & ? & ?).
    exists e. by rewrite HgE, Hk.
Qed.

(** What a commit clears, before its records are stored. *)
Definition cleared_mail (commit : CollectionCommit EmailSyncRecord ScopedEmailId) (ak : AccountKey)
    (s : MemoryState) : jsmap string Email * jsmap string (list EmailMailbox) :=
  match commit with
  | Replace _ _ _ =>
      (map_delete_if (λ _ value, bool_decide (value.(email_id).(accountKey) = ak)) s.(emails),
       map_delete_if (λ key value,
           match head value with
           | Some entry => bool_decide (entry.(em_emailId).(accountKey) = ak)
           | None => false
           end ||
           match map_get key s.(emails) with
           | Some e => bool_decide (e.(email_id).(accountKey) = ak)
           | None => false
           end) s.(memberships))
  | Delta _ _ _ destroyed =>
      (fold_left (λ m id, map_delete (emailKey id) m) destroyed s.(emails),
       fold_left (λ m id, map_delete (emailKey id) m) destroyed s.(memberships))
  end.

(** The keys of the emails a commit clears. *)
Definition clears (commit : CollectionCommit EmailSyncRecord ScopedEmailId) (ak : AccountKey)
    (s : MemoryState) (k : string) : bool :=
  match commit with
  | Replace _ _ _ =>
      match map_get k s.(emails) with
      | Some e => bool_decide (e.(email_id).(accountKey) = ak)
      | None => false
      end
  | Delta _ _ _ destroyed => bool_decide (k ∈ map emailKey destroyed)
  end.

Lemma cleared_emails_get commit ak s k :
  state_wf s →
  map_get k (cleared_mail commit ak s).1 = if clears commit ak s k then None else map_get k s.(emails).
Proof.
  intros Hwf. pose proof (proj1 (wf_emails s Hwf)) as HE. destruct commit; simpl.
  - rewrite delete_all_get by done. case_bool_decide; by case_decide.
  - rewrite map_get_delete_if by done. by destruct (map_get k (emails s)).
Qed.

Lemma cleared_memberships_get commit ak s k :
  state_wf s →
  map_get k (cleared_mail commit ak s).2 =
    if clears commit ak s k then None else map_get k s.(memberships).
Proof.
  intros Hwf. destruct (wf_memberships s Hwf) as [HM HMall]. destruct commit; simpl.
  - rewrite delete_all_get by done. case_bool_decide; by case_decide.
  - rewrite map_get_delete_if by done. destruct (map_get k (memberships s)) as [l|] eqn:Hl.
    + apply HMall in Hl as (e & -> & Hl & _).
      assert (match head l with
              | Some entry => bool_decide (entry.(em_emailId).(accountKey) = ak)
              | None => false end || bool_decide (e.(email_id).(accountKey) = ak) =
              bool_decide (e.(email_id).(accountKey) = ak)) as ->; [|done].
      destruct Hl as [|em l [Hem _] _]; simpl; [done|]. rewrite Hem. apply orb_diag.
    + by destruct (map_get k (emails s)) as [e|]; [destruct (bool_decide _)|].
Qed.

Lemma cleared_mail_wf commit ak s :
  state_wf s → map_wf (cleared_mail commit ak s).1 ∧ map_wf (cleared_mail commit ak s).2.
Proof.
  intros Hwf. pose proof (proj1 (wf_emails s Hwf)). pose proof (proj1 (wf_memberships s Hwf)).
  destruct commit; simpl; split; first [by apply delete_all_wf | by apply map_wf_delete_if].
Qed.

Lemma cleared_mail_ok commit ak s :
  state_wf s → mail_ok s.(accounts) (cleared_mail commit ak s).
Proof.
  intros Hwf. destruct (cleared_mail_wf commit ak s Hwf) as [H1 H2].
  destruct (cleared_mail commit ak s) as [E M] eqn:Hc.
  eapply (mail_ok_restrict _ s.(emails) E s.(memberships) M (λ k, negb (clears commit ak s k)));
    [by apply wf_mail | done..| |]; intros k.
  - change E with (E, M).1. rewrite <- Hc, cleared_emails_get by done. by destruct (clears _ _ _ _).
  - change M with (E, M).2. rewrite <- Hc, cleared_memberships_get by done. by destruct (clears _ _ _ _).
Qed.

(** ** Every write *)

Local Abbreviation keeps m w := (state_wf (db w) → writes m w (λ s _, state_wf s)).

Lemma registerAccount_wf value w : keeps (registerAccount value) w.
Proof.
  intros Hwf. apply writes_get, writes_if. intros _.
  destruct (map_get _ _); [by exists (mkBatch AccountsChanged [])|].
  apply (writes_commit w _ (λ s, set_accounts (map_set value.(account_key) (cloneAccount value)
    s.(accounts)) s)). simpl. rewrite cloneAccount_id. by apply wf_add_account.
Qed.

Lemma validateEmailCommit_records commit ak :
  validateEmailCommit commit ak = true →
  existsb (λ record, negb (validateEmailRecord record ak)) (collection_records commit) = false.
Proof. unfold validateEmailCommit. by destruct (existsb _ _). Qed.

Lemma with_cursor_wf s t next :
  state_wf s → registered s next.(cursor_accountKey) → next.(cursor_dataType) = t →
  state_wf (set_cursors (map_set (cursorKey next.(cursor_accountKey) t) (cloneCursor next)
    s.(cursors)) s).
Proof.
  intros Hwf Hak Ht. apply wf_set_cursors; [done|]. apply map_forall_set; [by apply wf_cursors|].
  unfold cloneCursor. rewrite collectionSyncCursor_id, <- Ht. by split.
Qed.

Lemma applyCollectionSync_wf commit w : keeps (applyCollectionSync commit) w.
Proof.
  intros Hwf. apply writes_get, writes_if. intros Hg. bool_hyps.
  match goal with H : map_has _ _ = true |- _ => apply map_has_spec in H as Hak end.
  destruct commit as [c|c|c]; simpl in *; apply writes_if; intros Hv%negb_false_iff.
  - apply (writes_staged w _ (λ s, store_email_records (collection_records c) (cleared_mail c _ s))
      (λ maps s, set_memberships maps.2 (set_emails maps.1 s))).
    intros maps Hstore. apply with_cursor_wf; [|done..]. apply wf_set_mail; [done|].
    eapply store_email_records_ok; [exact Hak | by apply validateEmailCommit_records | | exact Hstore].
    by apply cleared_mail_ok.
  - apply (writes_staged w _ (λ s, store_values _ _ _ _) set_mailboxes).
    intros values Hstore. apply with_cursor_wf; [|done..]. apply wf_set_mailboxes; [done|].
    eapply store_values_forall; [exact Hstore| |].
    + destruct c; [apply delete_all_forall | apply delete_if_forall]; by apply wf_mailboxes.
    + intros m m' Hin [Hm ->]%mailbox_return. split_and!; try done.
      unfold validateMailboxCommit in Hv. destruct (existsb _ _) eqn:He; [done|].
      rewrite existsb_false_forall in He. apply He in Hin. bool_hyps.
      unfold registered. congruence.
  - apply (writes_staged w _ (λ s, store_values _ _ _ _) set_identities).
    intros values Hstore. apply with_cursor_wf; [|done..]. apply wf_set_identities; [done|].
    eapply store_values_forall; [exact Hstore| |].
    + destruct c; [apply delete_all_forall | apply delete_if_forall]; by apply wf_identities.
    + intros m m' Hin [Hm ->]%identity_return. split_and!; try done.
      unfold validateIdentityCommit in Hv. destruct (existsb _ _) eqn:He; [done|].
      rewrite existsb_false_forall in He. apply He in Hin. bool_hyps.
      unfold registered. congruence.
Qed.

(** What is stored for an email or a mailbox that exists belongs to a registered account. *)
Lemma stored_email_registered s id :
  state_wf s → map_has (emailKey id) s.(emails) = true → registered s id.(accountKey).
Proof.
  intros Hwf [e He]%map_has_spec. apply (wf_emails _ Hwf) in He as (Hk & _ & Hr & _).
  apply emailKey_inj in Hk. by subst.
Qed.
Lemma stored_mailbox_registered s id :
  state_wf s → map_has (mailboxKey id) s.(mailboxes) = true → registered s id.(accountKey).
Proof.
  intros Hwf [m Hm]%map_has_spec. apply (wf_mailboxes _ Hwf) in Hm as (Hk & _ & Hr).
  apply mailboxKey_inj in Hk. by subst.
Qed.

Lemma cacheEmailBody_wf body w : keeps (cacheEmailBody body) w.
Proof.
  intros Hwf. apply writes_get, writes_if. intros Hg. bool_hyps. apply writes_commit. apply wf_set_bodies; [done|].
  apply map_forall_set; [by apply wf_bodies|]. unfold cloneBody. rewrite emailBody_id.
  split; [done|]. by apply stored_email_registered.
Qed.

Lemma mapM_cloneAttachment_return l k :
  mapM cloneAttachment l = Return k ↔ Forall attachment_wf l ∧ k = l.
Proof.
  rewrite mapM_return_Forall2. split.
  - induction 1 as [|x y l k Hxy _ [IH ->]]; [done|]. apply attachmentRef_return in Hxy as [Hx ->].
    split; [by constructor | done].
  - intros [Hl ->]. induction Hl; constructor; [|done]. by apply attachmentRef_return.
Qed.

Lemma replaceAttachmentRefs_wf id refs w : keeps (replaceAttachmentRefs id refs) w.
Proof.
  intros Hwf. apply writes_get, writes_if. intros Hg. bool_hyps.
  apply writes_pure. intros cloned Hc. apply writes_commit. apply wf_set_attachments; [done|].
  apply map_forall_set; [by apply wf_attachments|]. exists id. split_and!; [done|by apply stored_email_registered|].
  apply mapM_cloneAttachment_return in Hc as [Hc ->].
  match goal with H : existsb _ _ = false |- _ => rewrite existsb_false_forall in H; rename H into Hids end.
  rewrite Forall_forall in *. intros a Ha. split; [|by apply Hc].
  apply sameScopedEmailId_spec. apply Hids in Ha. by bool_hyps.
Qed.

Lemma replaceMailboxView_wf view w : keeps (replaceMailboxView view) w.
Proof.
  intros Hwf. apply writes_get, writes_if. intros Hg. bool_hyps. apply writes_pure.
  intros cloned [Hv ->]%mailboxView_return. apply writes_commit. apply wf_set_views; [done|].
  apply map_forall_set; [by apply wf_views|]. split_and!; [done|done|]. by apply stored_mailbox_registered.
Qed.

(** Storing a mutation under its own key. *)
Lemma put_mutation_wf s m :
  state_wf s → registered s (mutation_accountKey m) →
  state_wf (set_mutations (map_set (mutationKey (mutation_accountKey m) (mutation_id m))
    (cloneMutation m) s.(mutations)) s).
Proof.
  intros Hwf Hak. apply wf_set_mutations; [done|]. apply map_forall_set; [by apply wf_mutations|].
  destruct (cloneMutation_fields m) as (_ & -> & -> & _). split_and!; [done | apply cloneMutation_sets | done].
Qed.

Lemma registered_spec s ak : map_has ak s.(accounts) = true → registered s ak.
Proof. apply map_has_spec. Qed.

Lemma stageSendMutation_wf value w : keeps (stageSendMutation value) w.
Proof.
  intros Hwf. apply writes_get, writes_if. intros Hg. bool_hyps. apply writes_commit.
  apply (put_mutation_wf _ (MutSend value)); [done|]. by apply registered_spec.
Qed.

Lemma applyOptimisticKeywordMutation_wf value w : keeps (applyOptimisticKeywordMutation value) w.
Proof.
  intros Hwf. apply writes_get. destruct (map_get _ _) as [target|] eqn:Ht; [|done].
  apply writes_if. intros Hg. bool_hyps. apply writes_pure. intros checked _.
  apply writes_pure. intros next Hnext. apply writes_commit2.
  pose proof (email_return_id _ _ Hnext) as Hid. simpl in Hid. apply email_return_wf in Hnext.
  apply (put_mutation_wf _ (MutKeyword value)); [|by apply registered_spec].
  apply wf_set_emails; [done|]. destruct (wf_mail _ Hwf) as [HE HM].
  pose proof Ht as HeP. apply (proj2 HE) in HeP as (Hkey & _ & Hak & Hmem). split; simpl.
  - apply map_forall_set; [done|]. by rewrite Hid.
  - destruct HM as [HMwf HM]. split; [done|]. intros k l Hl. rewrite map_get_set.
    destruct (HM k l Hl) as (e & He & Hl'). case_decide; [|by exists e]. exists next.
    split; [done|]. rewrite Hid. simpl in *. congruence.
Qed.

Lemma push_memberships_ok id add next next' :
  push_memberships id add next = Return next' → memberships_ok id next → memberships_ok id next'.
Proof.
  revert next. induction add as [|m add IH]; intros next; simpl; [by intros [= <-]|].
  destruct (existsb _ _) eqn:He; simpl; [apply IH|]. rewrite bind_return.
  intros (em & [Hak ->]%emailMailbox_return & Hrest) [Hall Hnd]. eapply IH; [exact Hrest|]. split.
  - apply Forall_app. split; [done|]. by repeat constructor.
  - apply NoDup_app. split_and!; [done| |apply NoDup_singleton].
    intros x Hx Hx'%list_elem_of_singleton. subst x.
    rewrite existsb_false_forall in He. apply He in Hx. by apply sameScopedId_false in Hx.
Qed.

Lemma memberships_ok_filter id f l : memberships_ok id l → memberships_ok id (List.filter f l).
Proof.
  intros [Hall Hnd]. split.
  - rewrite Forall_forall in *. intros x Hx. apply Hall. rewrite list_elem_of_In in *.
    by apply filter_In in Hx as [].
  - rewrite NoDup_ListNoDup in *. by apply List.NoDup_filter.
Qed.

Lemma memberships_ok_clone id l k : memberships_ok id l → mapM cloneMembership l = Return k → k = l.
Proof.
  intros [Hall _]. rewrite (mapM_return_id cloneMembership l); [by intros [= <-]|].
  eapply Forall_impl; [exact Hall|]. intros em [_ ?]. by apply cloneMembership_return.
Qed.

Lemma stored_memberships_ok s k e :
  state_wf s → map_get k s.(emails) = Some e →
  k = emailKey e.(email_id) ∧ ∃ l, map_get k s.(memberships) = Some l ∧ memberships_ok e.(email_id) l.
Proof.
  intros Hwf He. destruct (wf_emails s Hwf) as [_ HE]. destruct (HE k e He) as (Hk & _ & _ & [l Hl]).
  split; [done|]. exists l. split; [done|]. destruct (wf_memberships s Hwf) as [_ HM].
  destruct (HM k l Hl) as (e' & He' & Hok). congruence.
Qed.

Lemma applyOptimisticMailboxMembershipMutation_wf value w :
  keeps (applyOptimisticMailboxMembershipMutation value) w.
Proof.
  intros Hwf. apply writes_get, writes_if. intros Hg. bool_hyps. apply writes_if. intros _.
  apply writes_pure. intros next Hnext. apply writes_if. intros _.
  apply writes_pure. intros cloned Hc. apply writes_commit2.
  match goal with H : map_has _ (emails _) = true |- _ => apply map_has_spec in H as [e He] end.
  destruct (stored_memberships_ok _ _ _ Hwf He) as (Hkey & l & Hl & Hok).
  apply emailKey_inj in Hkey. rewrite Hl in Hnext. simpl in Hnext.
  assert (memberships_ok e.(email_id) next) as Hnext_ok.
  { rewrite Hkey in Hnext. eapply push_memberships_ok; [exact Hnext|]. by apply memberships_ok_filter. }
  apply (memberships_ok_clone _ _ _ Hnext_ok) in Hc as ->.
  apply (put_mutation_wf _ (MutMembership value)); [|by apply registered_spec].
  apply wf_set_memberships; [done|]. destruct (wf_mail _ Hwf) as [HE HM]. split; simpl in *.
  - eapply map_forall_impl; [exact HE|]. intros k v (? & ? & ? & ?). split_and!; try done.
    rewrite map_get_set. by case_decide.
  - apply map_forall_set; [done|]. by exists e.
Qed.

Lemma mutationsEqual_fields l r :
  mutationsEqual l r = true →
  mutation_kind l = mutation_kind r ∧ mutation_accountKey l = mutation_accountKey r ∧
  mutation_id l = mutation_id r ∧ mutation_createdAt l = mutation_createdAt r ∧
  lifecycleEqual (mutation_lifecycle l) (mutation_lifecycle r) = true.
Proof. unfold mutationsEqual. destruct (_ || _) eqn:Hg; [done|]. bool_hyps. done. Qed.

Lemma with_pending_fields m :
  mutation_kind (with_pending m) = mutation_kind m ∧
  mutation_accountKey (with_pending m) = mutation_accountKey m ∧
  mutation_id (with_pending m) = mutation_id m ∧
  mutation_createdAt (with_pending m) = mutation_createdAt m.
Proof. by destruct m. Qed.

Lemma sameImmutable_fields l r :
  sameImmutableMutation l r = true →
  mutation_kind l = mutation_kind r ∧ mutation_accountKey l = mutation_accountKey r ∧
  mutation_id l = mutation_id r ∧ mutation_createdAt l = mutation_createdAt r.
Proof.
  intros (Hk & Ha & Hi & Hc & _)%mutationsEqual_fields.
  destruct (with_pending_fields l) as (? & ? & ? & ?), (with_pending_fields r) as (? & ? & ? & ?).
  split_and!; congruence.
Qed.

Lemma replacePendingMutationIfCurrent_wf expected next w :
  keeps (replacePendingMutationIfCurrent expected next) w.
Proof.
  intros Hwf. apply writes_get, writes_if. intros Hg. apply writes_commit.
  destruct (map_get _ _) as [current|] eqn:Hc; [|done]. bool_hyps.
  match goal with H : mutationsEqual _ _ = true |- _ =>
    apply mutationsEqual_fields in H as (_ & Hak & _) end.
  match goal with H : sameImmutableMutation _ _ = true |- _ =>
    apply sameImmutable_fields in H as (_ & Ha & Hi & _) end.
  rewrite Ha, Hi. apply put_mutation_wf; [done|]. unfold registered. rewrite <- Ha, <- Hak.
  by apply (wf_mutations _ Hwf) in Hc as (_ & _ & ?).
Qed.

Lemma removeConfirmedMutation_wf ak id w : keeps (removeConfirmedMutation ak id) w.
Proof.
  intros Hwf. apply writes_get, writes_if. intros _. apply writes_commit.
  apply wf_set_mutations; [done|]. apply map_forall_delete. by apply wf_mutations.
Qed.
