(* ===== verification/MailStore.v ===== *)
(** * The contract of [SyncPort], without an engine

    A local mail store as the ports describe it: lookups by id, and for every
    write a [verdict] (accepted with the new store and the published batch,
    rejected as a conflict, or refused by a Domain factory).  Nothing of the
    memory engine's string keys, insertion order or loops is left.  The memory
    engine refines this store ([MemoryRefinement]). *)

From S2P Require Import Prelude.
From S2P Require Import JsNumber.
From S2P Require Import JsString.
From S2P Require Import JsCollections.
From S2P Require Import Errors.
From S2P Require Import DomainIds.
From S2P Require Import DomainEmail.
From S2P Require Import DomainMailbox.
From S2P Require Import MailboxView.
From S2P Require Import SendIntent.
From S2P Require Import PendingMutation.
From S2P Require Import Ports.
From S2P Require Import MemorySyncPort.
From S2P Require Import MemoryFacts.
Open Scope string_scope.
Open Scope list_scope.

(** ** The writes of ports/sync-port.ts *)

Inductive SyncOp : Type :=
| OpRegisterAccount (value : Account)
| OpApplyCollectionSync (commit : CollectionSyncCommit)
| OpCacheEmailBody (body : EmailBody)
| OpReplaceAttachmentRefs (emailId : ScopedEmailId) (refs : list AttachmentRef)
| OpReplaceMailboxView (view : MailboxView)
| OpStageSendMutation (value : SendMutation)
| OpApplyOptimisticKeywordMutation (value : KeywordMutation)
| OpApplyOptimisticMailboxMembershipMutation (value : MailboxMembershipMutation)
| OpReplacePendingMutationIfCurrent (expected next : PendingMutation)
| OpRemoveConfirmedMutation (accountKey : AccountKey) (mutationId : MutationId).

(** A JavaScript [Set] argument holds no value twice. *)
Definition op_wf (op : SyncOp) : Prop :=
  match op with
  | OpApplyOptimisticKeywordMutation value => MemoryState.mutation_sets_wf (MutKeyword value)
  | OpReplacePendingMutationIfCurrent expected next =>
      MemoryState.mutation_sets_wf expected ∧ MemoryState.mutation_sets_wf next
  | _ => True
  end.

(** ** The store *)

Record Store : Type := mkStore {
  st_account : AccountKey → option Account;
  st_mailbox : ScopedMailboxId → option Mailbox;
  st_identity : ScopedIdentityId → option Identity;
  st_email : ScopedEmailId → option Email;
  st_memberships : ScopedEmailId → option (list EmailMailbox);
  st_body : ScopedEmailId → option EmailBody;
  st_attachments : ScopedEmailId → option (list AttachmentRef);
  st_view : MailboxViewSpec → option MailboxView;
  st_cursor : AccountKey * CollectionDataType → option CollectionSyncCursor;
  st_mutation : AccountKey * MutationId → option PendingMutation;
}.

(** Two stores are the same when every lookup agrees. *)
#[export] Instance store_equiv : Equiv Store := λ a b,
  (∀ k, st_account a k = st_account b k) ∧ (∀ k, st_mailbox a k = st_mailbox b k) ∧
  (∀ k, st_identity a k = st_identity b k) ∧ (∀ k, st_email a k = st_email b k) ∧
  (∀ k, st_memberships a k = st_memberships b k) ∧ (∀ k, st_body a k = st_body b k) ∧
  (∀ k, st_attachments a k = st_attachments b k) ∧ (∀ k, st_view a k = st_view b k) ∧
  (∀ k, st_cursor a k = st_cursor b k) ∧ (∀ k, st_mutation a k = st_mutation b k).

#[export] Instance store_equivalence : Equivalence (≡@{Store}).
Proof.
  unfold equiv, store_equiv. split.
  - done.
  - intros a b H. destruct_and! H. by split_and!.
  - intros a b c H1 H2. destruct_and! H1. destruct_and! H2. split_and!; congruence.
Qed.

Definition upd {K V} `{!EqDecision K} (k : K) (v : option V) (f : K → option V) : K → option V :=
  λ k', if decide (k = k') then v else f k'.

(** Store every value under its id, in order. *)
Definition insert_all {K V} `{!EqDecision K} (entries : list (K * V)) (f : K → option V) :
    K → option V :=
  fold_left (λ f kv, upd kv.1 (Some kv.2) f) entries f.

Definition keyed {K V} (id_of : V → K) (values : list V) : list (K * V) :=
  map (λ v, (id_of v, v)) values.

Definition remove_ids {K V} (gone : K → bool) (f : K → option V) : K → option V :=
  λ k, if gone k then None else f k.

Definition st_with_account f st := mkStore f (st_mailbox st) (st_identity st) (st_email st)
  (st_memberships st) (st_body st) (st_attachments st) (st_view st) (st_cursor st) (st_mutation st).
Definition st_with_mailbox f st := mkStore (st_account st) f (st_identity st) (st_email st)
  (st_memberships st) (st_body st) (st_attachments st) (st_view st) (st_cursor st) (st_mutation st).
Definition st_with_identity f st := mkStore (st_account st) (st_mailbox st) f (st_email st)
  (st_memberships st) (st_body st) (st_attachments st) (st_view st) (st_cursor st) (st_mutation st).
Definition st_with_email f st := mkStore (st_account st) (st_mailbox st) (st_identity st) f
  (st_memberships st) (st_body st) (st_attachments st) (st_view st) (st_cursor st) (st_mutation st).
Definition st_with_memberships f st := mkStore (st_account st) (st_mailbox st) (st_identity st)
  (st_email st) f (st_body st) (st_attachments st) (st_view st) (st_cursor st) (st_mutation st).
Definition st_with_body f st := mkStore (st_account st) (st_mailbox st) (st_identity st)
  (st_email st) (st_memberships st) f (st_attachments st) (st_view st) (st_cursor st) (st_mutation st).
Definition st_with_attachments f st := mkStore (st_account st) (st_mailbox st) (st_identity st)
  (st_email st) (st_memberships st) (st_body st) f (st_view st) (st_cursor st) (st_mutation st).
Definition st_with_view f st := mkStore (st_account st) (st_mailbox st) (st_identity st)
  (st_email st) (st_memberships st) (st_body st) (st_attachments st) f (st_cursor st) (st_mutation st).
Definition st_with_cursor f st := mkStore (st_account st) (st_mailbox st) (st_identity st)
  (st_email st) (st_memberships st) (st_body st) (st_attachments st) (st_view st) f (st_mutation st).
Definition st_with_mutation f st := mkStore (st_account st) (st_mailbox st) (st_identity st)
  (st_email st) (st_memberships st) (st_body st) (st_attachments st) (st_view st) (st_cursor st) f.

(** ** The verdict of a write *)

Inductive verdict : Type :=
| Accepted (st : Store) (batch : LocalChangeBatch)
| Rejected
| Refused (e : exn).

Definition refuse_or {A} (m : outcome exn A) (k : A → verdict) : verdict :=
  match m with Return a => k a | Throw e => Refused e end.

Definition reject_unless (P : Prop) `{!Decision P} (v : verdict) : verdict :=
  if decide P then v else Rejected.

Definition put_in_store (m : PendingMutation) (st : Store) : Store :=
  st_with_mutation (upd (mutation_accountKey m, mutation_id m) (Some m) (st_mutation st)) st.

(** A mutation may be staged for a registered account under a new id. *)
Definition stageable (m : PendingMutation) (st : Store) : Prop :=
  st_account st (mutation_accountKey m) ≠ None ∧
  st_mutation st (mutation_accountKey m, mutation_id m) = None.
#[export] Instance stageable_dec m st : Decision (stageable m st).
Proof. apply _. Defined.

(** *** Collections *)

Section collection.
Context {T : Type} (id_of : T → ScopedId).

(** The commit touches its account only, no id twice, and never both changes and
    destroys one. *)
Definition commit_valid (commit : CollectionCommit T ScopedId) (ak : AccountKey) : Prop :=
  let ids := map id_of (collection_records commit) in
  Forall (λ id, id.(accountKey) = ak) ids ∧ NoDup ids ∧
  Forall (λ id, id.(accountKey) = ak) (collection_destroyed commit) ∧
  NoDup (collection_destroyed commit) ∧
  Forall (λ id, id ∉ collection_destroyed commit) ids.
#[export] Instance commit_valid_dec commit ak : Decision (commit_valid commit ak).
Proof. unfold commit_valid. apply _. Defined.

(** What disappears unless the commit brings it again: the destroyed ids, or
    everything of the account when the commit replaces the collection. *)
Definition commit_removes (commit : CollectionCommit T ScopedId) (ak : AccountKey) (id : ScopedId) :
    bool :=
  match commit with
  | Delta _ _ _ destroyed => bool_decide (id ∈ destroyed)
  | Replace _ _ _ => bool_decide (id.(accountKey) = ak)
  end.
End collection.

Definition record_id (r : EmailSyncRecord) : ScopedEmailId := r.(record_email).(email_id).

(** A record names its own email in every membership, and no mailbox twice. *)
Definition record_valid (r : EmailSyncRecord) : Prop :=
  Forall (λ em, em.(em_emailId) = record_id r) r.(record_memberships) ∧
  NoDup r.(record_memberships).
#[export] Instance record_valid_dec r : Decision (record_valid r).
Proof. unfold record_valid. apply _. Defined.

Definition checked_record (r : EmailSyncRecord) : outcome exn EmailSyncRecord :=
  value ← email r.(record_email);
  entries ← mapM (λ em, emailMailbox em.(em_emailId) em.(em_mailboxId)) r.(record_memberships);
  Return (mkEmailSyncRecord value entries).

(** The cursor stored for the collection is the one the commit expects. *)
Definition cursor_current (st : Store) (commit : CollectionSyncCommit) : Prop :=
  let next := commit_nextCursor commit in
  let current := st_cursor st (next.(cursor_accountKey), next.(cursor_dataType)) in
  match commit_expectedCursor commit with
  | ExpectAbsent => current = None
  | ExpectMatches cursor =>
      current = Some cursor ∧ cursor.(cursor_accountKey) = next.(cursor_accountKey) ∧
      cursor.(cursor_dataType) = next.(cursor_dataType)
  end.

Definition commit_allowed (st : Store) (commit : CollectionSyncCommit) : Prop :=
  let next := commit_nextCursor commit in
  st_account st next.(cursor_accountKey) ≠ None ∧
  next.(cursor_dataType) = commit_kind commit ∧
  cursor_current st commit ∧
  match commit with
  | EmailCommit c =>
      commit_valid record_id c next.(cursor_accountKey) ∧ Forall record_valid (collection_records c)
  | MailboxCommit c => commit_valid mailbox_id c next.(cursor_accountKey)
  | IdentityCommit c => commit_valid identity_id c next.(cursor_accountKey)
  end.
#[export] Instance CollectionSyncCursor_eq_dec : EqDecision CollectionSyncCursor.
Proof. solve_decision. Defined.
#[export] Instance cursor_current_dec st commit : Decision (cursor_current st commit).
Proof. unfold cursor_current. destruct (commit_expectedCursor commit); apply _. Defined.
#[export] Instance commit_allowed_dec st commit : Decision (commit_allowed st commit).
Proof. unfold commit_allowed. destruct commit; apply _. Defined.

Definition put_cursor (next : CollectionSyncCursor) (st : Store) : Store :=
  st_with_cursor (upd (next.(cursor_accountKey), next.(cursor_dataType)) (Some next) (st_cursor st)) st.

Definition spec_sync (commit : CollectionSyncCommit) (st : Store) : verdict :=
  let next := commit_nextCursor commit in
  let ak := next.(cursor_accountKey) in
  reject_unless (commit_allowed st commit)
    match commit with
    | EmailCommit c =>
        refuse_or (mapM checked_record (collection_records c)) (λ records,
          let gone := commit_removes c ak in
          let st := st_with_email
            (insert_all (keyed email_id (map record_email records)) (remove_ids gone (st_email st))) st in
          let st := st_with_memberships
            (insert_all (map (λ r, (record_id r, r.(record_memberships))) records)
               (remove_ids gone (st_memberships st))) st in
          Accepted (put_cursor next st)
            (mkBatch (EmailsChanged ak) [EmailMembershipsChanged ak; SyncCursorChanged ak data_email]))
    | MailboxCommit c =>
        refuse_or (mapM mailbox (collection_records c)) (λ values,
          Accepted
            (put_cursor next (st_with_mailbox
              (insert_all (keyed mailbox_id values) (remove_ids (commit_removes c ak) (st_mailbox st))) st))
            (mkBatch (MailboxesChanged ak) [SyncCursorChanged ak data_mailbox]))
    | IdentityCommit c =>
        refuse_or (mapM identity (collection_records c)) (λ values,
          Accepted
            (put_cursor next (st_with_identity
              (insert_all (keyed identity_id values) (remove_ids (commit_removes c ak) (st_identity st))) st))
            (mkBatch (IdentitiesChanged ak) [SyncCursorChanged ak data_identity]))
    end.

(** *** Accounts, caches and views *)

Definition spec_register (value : Account) (st : Store) : verdict :=
  let batch := mkBatch AccountsChanged [] in
  match st_account st value.(account_key) with
  | None =>
      Accepted (st_with_account (upd value.(account_key) (Some value) (st_account st)) st) batch
  | Some current => reject_unless (current.(remoteRef) = value.(remoteRef)) (Accepted st batch)
  end.

Definition spec_cache_body (body : EmailBody) (st : Store) : verdict :=
  let id := body.(body_emailId) in
  reject_unless (st_email st id ≠ None)
    (Accepted (st_with_body (upd id (Some body) (st_body st)) st) (mkBatch (EmailBodyChanged id) [])).

Definition spec_attachments (id : ScopedEmailId) (refs : list AttachmentRef) (st : Store) : verdict :=
  reject_unless (st_email st id ≠ None ∧ Forall (λ a, a.(att_emailId) = id) refs ∧
                 NoDup (map att_partId refs))
    (refuse_or (mapM attachmentRef refs) (λ refs,
      Accepted (st_with_attachments (upd id (Some refs) (st_attachments st)) st)
        (mkBatch (AttachmentRefsChanged id) []))).

Definition spec_view (view : MailboxView) (st : Store) : verdict :=
  reject_unless (st_mailbox st view.(view_spec).(spec_mailboxId) ≠ None)
    (refuse_or (mailboxView view) (λ view,
      Accepted (st_with_view (upd view.(view_spec) (Some view) (st_view st)) st)
        (mkBatch (MailboxViewChanged view.(view_spec)) []))).

(** *** Mutations *)

Definition spec_stage (value : SendMutation) (st : Store) : verdict :=
  reject_unless (stageable (MutSend value) st)
    (Accepted (put_in_store (MutSend value) st)
       (mkBatch (PendingMutationsChanged value.(send_accountKey)) [])).

(** The email's keywords and the added ones, less the removed ones. *)
Definition changed_keywords (current : KeywordSet) (change : KeywordChange) : KeywordSet :=
  List.filter (λ k, negb (bool_decide (k ∈ change.(keyword_remove))))
    (set_of_list (current ++ change.(keyword_add))).

Definition spec_keyword (value : KeywordMutation) (st : Store) : verdict :=
  match st_email st value.(kw_emailId) with
  | None => Rejected
  | Some target =>
      reject_unless (stageable (MutKeyword value) st)
        (refuse_or (keywordSet (changed_keywords target.(email_keywords) value.(kw_change)))
          (λ keywords, refuse_or (email (with_keywords target keywords)) (λ next,
            Accepted
              (put_in_store (MutKeyword value)
                 (st_with_email (upd value.(kw_emailId) (Some next) (st_email st)) st))
              (mkBatch (EmailsChanged value.(kw_accountKey))
                 [PendingMutationsChanged value.(kw_accountKey)]))))
  end.

(** The mailboxes of an email after a membership change: those not removed, in
    their order, then the added ones that are new. *)
Definition changed_mailboxes (current : list ScopedMailboxId) (change : MailboxMembershipChange) :
    list ScopedMailboxId :=
  fold_left (λ s id, set_add id s) change.(membership_add)
    (List.filter (λ id, negb (bool_decide (id ∈ change.(membership_remove)))) current).

Definition foreign_mailbox : exn :=
  TypeError "EmailMailbox emailId and mailboxId must belong to the same AccountKey".

(** The email's membership in mailboxes of its own account. *)
Definition memberships_in (id : ScopedEmailId) (mailboxes : list ScopedMailboxId) :
    outcome exn (list EmailMailbox) :=
  if decide (Forall (λ m : ScopedMailboxId, m.(accountKey) = id.(accountKey)) mailboxes)
  then Return (map (mkEmailMailbox id) mailboxes)
  else Throw foreign_mailbox.

Definition spec_membership (value : MailboxMembershipMutation) (st : Store) : verdict :=
  let id := value.(mm_emailId) in
  let change := value.(mm_change) in
  reject_unless
    (stageable (MutMembership value) st ∧ st_email st id ≠ None ∧
     Forall (λ m, st_mailbox st m ≠ None) (change.(membership_add) ++ change.(membership_remove)))
    (let current := map em_mailboxId (default [] (st_memberships st id)) in
     refuse_or (memberships_in id (changed_mailboxes current change)) (λ next,
       reject_unless (next ≠ [])
         (Accepted
           (put_in_store (MutMembership value)
              (st_with_memberships (upd id (Some next) (st_memberships st)) st))
           (mkBatch (EmailMembershipsChanged value.(mm_accountKey))
              [PendingMutationsChanged value.(mm_accountKey)])))).

(** Compare and swap: the stored mutation is the expected one, and the next one
    differs from it by one lifecycle edge only. *)
Definition swappable (current expected next : PendingMutation) : Prop :=
  current ≡ expected ∧ counted current ∧ same_record expected next ∧
  store_edge (mutation_lifecycle expected) (mutation_lifecycle next).
#[export] Instance counted_dec m : Decision (counted m).
Proof. unfold counted. apply _. Defined.
#[export] Instance swappable_dec current expected next : Decision (swappable current expected next).
Proof. apply _. Defined.

Definition spec_replace (expected next : PendingMutation) (st : Store) : verdict :=
  match st_mutation st (mutation_accountKey expected, mutation_id expected) with
  | None => Rejected
  | Some current =>
      reject_unless (swappable current expected next)
        (Accepted (put_in_store next st)
           (mkBatch (PendingMutationsChanged (mutation_accountKey expected)) []))
  end.

Definition spec_remove (ak : AccountKey) (id : MutationId) (st : Store) : verdict :=
  match st_mutation st (ak, id) with
  | None => Rejected
  | Some current =>
      reject_unless (mutation_status current = st_confirmed)
        (Accepted (st_with_mutation (upd (ak, id) None (st_mutation st)) st)
           (mkBatch (PendingMutationsChanged ak) []))
  end.

Definition spec (op : SyncOp) : Store → verdict :=
  match op with
  | OpRegisterAccount value => spec_register value
  | OpApplyCollectionSync commit => spec_sync commit
  | OpCacheEmailBody body => spec_cache_body body
  | OpReplaceAttachmentRefs id refs => spec_attachments id refs
  | OpReplaceMailboxView view => spec_view view
  | OpStageSendMutation value => spec_stage value
  | OpApplyOptimisticKeywordMutation value => spec_keyword value
  | OpApplyOptimisticMailboxMembershipMutation value => spec_membership value
  | OpReplacePendingMutationIfCurrent expected next => spec_replace expected next
  | OpRemoveConfirmedMutation ak id => spec_remove ak id
  end.
