(* ===== verification/MemoryRefinement.v ===== *)
(** * The memory engine refines the mail store

    [abs] reads a memory state as a [Store]; on a well-formed state, every write
    of [MemorySyncPort] gives exactly the verdict of [MailStore.spec]. *)

From S2P Require Import Prelude.
From S2P Require Import JsNumber.
From S2P Require Import JsString.
From S2P Require Import JsCollections.
From S2P Require Import Errors.
From S2P Require Import DomainIds.
From S2P Require Import DomainEmail.
From S2P Require Import DomainMailbox.
From S2P Require Import MailboxView.
From S2P Require Import SendIntent.
From S2P Require Import PendingMutation.
From S2P Require Import Ports.
From S2P Require Import MemoryState.
From S2P Require Import MemorySyncPort.
From S2P Require Import MemoryFacts.
From S2P Require Import MemoryInvariant.
From S2P Require Import MailStore.
Open Scope list_scope.

Definition abs (s : MemoryState) : Store := {|
  st_account := λ k, map_get k s.(accounts);
  st_mailbox := λ id, map_get (mailboxKey id) s.(mailboxes);
  st_identity := λ id, map_get (identityKey id) s.(identities);
  st_email := λ id, map_get (emailKey id) s.(emails);
  st_memberships := λ id, map_get (emailKey id) s.(memberships);
  st_body := λ id, map_get (emailKey id) s.(bodies);
  st_attachments := λ id, map_get (emailKey id) s.(attachments);
  st_view := λ spec, map_get (viewKey spec) s.(views);
  st_cursor := λ k, map_get (cursorKey k.1 k.2) s.(cursors);
  st_mutation := λ k, map_get (mutationKey k.1 k.2) s.(mutations);
|}.

(** The method [m], run in [w], behaves as the verdict [v] says. *)
Definition refines (m : Action WriteResult) (w : World) (v : verdict) : Prop :=
  match v with
  | Accepted st batch => ∃ w',
      m w = (Return (PortOk tt), w') ∧ abs (db w') ≡ st ∧ published w' = published w ++ [batch]
  | Rejected => m w = (Return (PortError write_conflict), w)
  | Refused e => m w = (Throw e, w)
  end.

Section rules.
Context (w : World).

Lemma refines_get k v : refines (k (db w)) w v → refines (s ← get_db; k s) w v.
Proof. done. Qed.

Lemma refines_guard (c : bool) (P : Prop) `{!Decision P} m v :
  (c = false ↔ P) → (P → refines m w v) →
  refines (if c then conflict else m) w (reject_unless P v).
Proof.
  intros Hc Hm. unfold reject_unless. destruct (decide P) as [HP|HP].
  - apply Hc in HP as Hf. rewrite Hf. auto.
  - destruct c; [done|]. by destruct HP; apply Hc.
Qed.

Lemma refines_guard2 (c c' : bool) (P : Prop) `{!Decision P} m v :
  (c || c' = false ↔ P) → (P → refines m w v) →
  refines (if c then conflict else if c' then conflict else m) w (reject_unless P v).
Proof. destruct c; [|apply refines_guard]. intros Hc Hm. by apply (refines_guard true _ m). Qed.

Lemma refines_pure {A} (m : outcome exn A) k v :
  (∀ a, m = Return a → refines (k a) w (v a)) →
  refines (a ← pure_step m; k a) w (refuse_or m v).
Proof. destruct m as [a|e]; intros H; [by apply H | done]. Qed.

Lemma refines_commit f first rest st :
  abs (f (db w)) ≡ st →
  refines (update_db f;; publish first rest;; writeOk) w (Accepted st (mkBatch first rest)).
Proof. intros H. eexists. by split_and!. Qed.

Lemma refines_commit2 f g first rest st :
  abs (g (f (db w))) ≡ st →
  refines (update_db f;; update_db g;; publish first rest;; writeOk) w
    (Accepted st (mkBatch first rest)).
Proof. intros H. eexists. by split_and!. Qed.

Lemma refines_staged {A B} (m : MemoryState → outcome exn A) (m' : outcome exn B) (h : B → A) f g
    first rest st :
  m (db w) = (b ← m'; Return (h b)) →
  (∀ b, m' = Return b → abs (g (f (h b) (db w))) ≡ st b) →
  refines ((s ← get_db; a ← pure_step (m s); update_db (f a));;
           update_db g;; publish first rest;; writeOk) w
    (refuse_or m' (λ b, Accepted (st b) (mkBatch first rest))).
Proof.
  intros Hm H. unfold refines, get_db, pure_step, mbind, action_mbind, action_bind, read in *; simpl in *.
  rewrite Hm. destruct m' as [b|e]; simpl; [|done]. eexists. split_and!; [done| |done]. by apply H.
Qed.
End rules.

(** ** Lookups through injective keys *)

Section keyed_lookup.
Context {K V : Type} `{!EqDecision K} (key : K → string) (key_inj : ∀ a b, key a = key b → a = b).
Implicit Types (m : jsmap string V).

Lemma lookup_set i v m k :
  map_get (key k) (map_set (key i) v m) = upd i (Some v) (λ k, map_get (key k) m) k.
Proof. rewrite map_get_set. unfold upd. repeat case_decide; naive_solver. Qed.

Lemma lookup_delete_key i m k :
  map_wf m → map_get (key k) (map_delete (key i) m) = upd i None (λ k, map_get (key k) m) k.
Proof. intros. rewrite map_get_delete by done. unfold upd. repeat case_decide; naive_solver. Qed.

Lemma insert_all_ext (entries : list (K * V)) f g k :
  (∀ k, f k = g k) → insert_all entries f k = insert_all entries g k.
Proof.
  revert f g. unfold insert_all. induction entries as [|e entries IH]; intros f g H; simpl; [done|].
  apply IH. intros k'. unfold upd. by case_decide.
Qed.

(** Storing entries one after the other under their keys. *)
Definition set_all (entries : list (K * V)) m : jsmap string V :=
  fold_left (λ m e, map_set (key e.1) e.2 m) entries m.

Lemma lookup_set_all entries m k :
  map_get (key k) (set_all entries m) = insert_all entries (λ k, map_get (key k) m) k.
Proof.
  revert m. unfold set_all, insert_all. induction entries as [|e entries IH]; intros m; simpl; [done|].
  rewrite IH. apply insert_all_ext. intros k'. apply lookup_set.
Qed.

Lemma store_values_set_all (id_of : V → K) (clone : V → outcome exn V) values m :
  (∀ v v', clone v = Return v' → id_of v' = id_of v) →
  store_values (λ v, key (id_of v)) clone values m =
    (vs ← mapM clone values; Return (set_all (keyed id_of vs) m)).
Proof.
  intros Hid. revert m. induction values as [|v values IH]; intros m; [done|].
  rewrite mapM_cons_outcome. simpl. destruct (clone v) as [v'|e] eqn:Hv; simpl; [|done].
  rewrite IH. destruct (mapM clone values); simpl; [|done]. by rewrite (Hid v v').
Qed.

Lemma in_keys_iff (ids : list K) k : key k ∈ map key ids ↔ k ∈ ids.
Proof.
  rewrite list_elem_of_fmap. split; [|by exists k]. intros (k' & Hk & Hin).
  apply key_inj in Hk. by subst.
Qed.

Lemma NoDup_keys (ids : list K) : NoDup (map key ids) ↔ NoDup ids.
Proof. by apply NoDup_map_inj_iff. Qed.
End keyed_lookup.

(** ** Validation decides the store's rules *)

Lemma forallb_Forall {A} (f : A → bool) (P : A → Prop) l :
  (∀ x, f x = true ↔ P x) → forallb f l = true ↔ Forall P l.
Proof. intros H. rewrite forallb_true_forall, Forall_forall. by setoid_rewrite H. Qed.

Lemma existsb_Forall {A} (f : A → bool) (P : A → Prop) l :
  (∀ x, f x = false ↔ P x) → existsb f l = false ↔ Forall P l.
Proof. intros H. rewrite existsb_false_forall, Forall_forall. by setoid_rewrite H. Qed.

Section validation.
Context {T : Type} (id_of : T → ScopedId) (ak : AccountKey).

Lemma hasDuplicates_ids (values : list T) :
  hasDuplicates values (λ v, emailKey (id_of v)) = false ↔ NoDup (map id_of values).
Proof.
  rewrite hasDuplicates_false. rewrite <- (map_map id_of emailKey).
  apply NoDup_keys. apply emailKey_inj.
Qed.

(** The common shape of [validateEmailCommit], [validateMailboxCommit] and
    [validateIdentityCommit]. *)
Lemma validate_commit_spec (bad : T → bool) (good : T → Prop) (commit : CollectionCommit T ScopedId) :
  (∀ v, bad v = false ↔ (id_of v).(accountKey) = ak ∧ good v) →
  (if existsb bad (collection_records commit) ||
      hasDuplicates (collection_records commit) (λ v, emailKey (id_of v))
   then false
   else
     match commit with
     | Replace _ _ _ => true
     | Delta _ _ changed destroyed =>
         forallb (λ id : ScopedId, bool_decide (id.(accountKey) = ak)) destroyed &&
         negb (hasDuplicates destroyed emailKey) &&
         negb (existsb (λ v, existsb (λ id, sameScopedId (id_of v) id) destroyed) changed)
     end) = true ↔ commit_valid id_of commit ak ∧ Forall good (collection_records commit).
Proof.
  intros Hbad. unfold commit_valid. rewrite Forall_fmap.
  assert (existsb bad (collection_records commit) = false ↔
    Forall (λ v, accountKey (id_of v) = ak) (collection_records commit) ∧
    Forall good (collection_records commit)) as Hb.
  { rewrite <- Forall_and. by apply existsb_Forall. }
  pose proof (hasDuplicates_ids (collection_records commit)) as Hd.
  destruct (existsb bad _); simpl.
  { split; [done|]. intros [(Hi & _) Hgood]. destruct Hb as [_ Hb]. by specialize (Hb (conj Hi Hgood)). }
  destruct (hasDuplicates (collection_records commit) _); simpl.
  { split; [done|]. intros [(_ & Hnd & _) _]. destruct Hd as [_ Hd]. by specialize (Hd Hnd). }
  destruct Hb as [[Hb1 Hb2] _]; [done|]. destruct Hd as [Hd _]. specialize (Hd eq_refl).
  destruct commit as [e n changed destroyed|e n snapshot]; simpl in *.
  - rewrite !andb_true_iff, !negb_true_iff, Forall_fmap.
    rewrite (forallb_Forall _ (λ id : ScopedId, id.(accountKey) = ak)) by
      (intros; apply bool_decide_eq_true).
    rewrite (hasDuplicates_inj_false emailKey) by apply emailKey_inj.
    rewrite (existsb_Forall _ (λ v, id_of v ∉ destroyed)).
    + tauto.
    + intros v. rewrite existsb_false_forall. setoid_rewrite sameScopedId_false. set_solver.
  - split; [|done]. intros _. split_and!; try done; [by constructor..|].
    rewrite Forall_fmap. apply Forall_forall. intros ? _. apply not_elem_of_nil.
Qed.
End validation.

Lemma validateEmailRecord_spec r ak :
  validateEmailRecord r ak = true ↔ (record_id r).(accountKey) = ak ∧ record_valid r.
Proof.
  unfold validateEmailRecord, record_valid. rewrite !andb_true_iff, bool_decide_eq_true, negb_true_iff.
  rewrite (forallb_Forall _ (λ em, em.(em_emailId) = record_id r)) by
    (intros; apply sameScopedEmailId_spec).
  rewrite (hasDuplicates_inj_false membership_pair_key) by apply membership_pair_key_inj. tauto.
Qed.

Lemma validateEmailCommit_spec c ak :
  validateEmailCommit c ak = true ↔
  commit_valid record_id c ak ∧ Forall record_valid (collection_records c).
Proof.
  apply (validate_commit_spec record_id ak (λ r, negb (validateEmailRecord r ak))). intros r.
  rewrite negb_false_iff. apply validateEmailRecord_spec.
Qed.

Lemma account_guard {T} (id_of : T → ScopedId) ak (v : T) :
  negb (bool_decide ((id_of v).(accountKey) = ak)) = false ↔ (id_of v).(accountKey) = ak ∧ True.
Proof. rewrite differs_false. tauto. Qed.

Lemma validateMailboxCommit_spec c ak :
  validateMailboxCommit c ak = true ↔ commit_valid mailbox_id c ak.
Proof.
  etransitivity; [apply (validate_commit_spec mailbox_id ak _ (λ _, True));
    intros; apply account_guard|].
  split; [by intros []|]. intros; split; [done|]. by apply Forall_true.
Qed.

Lemma validateIdentityCommit_spec c ak :
  validateIdentityCommit c ak = true ↔ commit_valid identity_id c ak.
Proof.
  etransitivity; [apply (validate_commit_spec identity_id ak _ (λ _, True));
    intros; apply account_guard|].
  split; [by intros []|]. intros; split; [done|]. by apply Forall_true.
Qed.

(** ** Every write *)

Lemma has_false_iff {K V} `{!EqDecision K} (k : K) (m : jsmap K V) :
  negb (map_has k m) = false ↔ map_get k m ≠ None.
Proof.
  rewrite negb_false_iff, map_has_spec. destruct (map_get k m); split; done.
Qed.

Lemma or_false_iff (a b : bool) (P Q : Prop) :
  (a = false ↔ P) → (b = false ↔ Q) → a || b = false ↔ P ∧ Q.
Proof. rewrite orb_false_iff. tauto. Qed.

Ltac same_store :=
  unfold equiv, store_equiv; simpl; split_and!; intros; try done.

Lemma registerAccount_refines value w : refines (registerAccount value) w (spec_register value (abs (db w))).
Proof.
  unfold registerAccount, spec_register. apply refines_get. cbv zeta.
  set (current := map_get (account_key value) (accounts (db w))).
  change (st_account (abs (db w)) (account_key value)) with current.
  destruct current as [current|].
  - apply refines_guard; [by rewrite negb_false_iff, sameRemoteAccountRef_spec|].
    intros _. eexists. split; [reflexivity|]. split; [|done]. reflexivity.
  - eexists. split_and!; [done| |done].
    same_store. by rewrite cloneAccount_id, map_get_set.
Qed.

Lemma cursorPreconditionHolds_spec s commit :
  cursorPreconditionHolds s (commit_expectedCursor commit) (commit_nextCursor commit) = true ↔
  cursor_current (abs s) commit.
Proof.
  unfold cursorPreconditionHolds, cursor_current. simpl.
  destruct (commit_expectedCursor commit) as [|c], (map_get _ _) as [current|]; simpl;
    try (by split); try (by split; [|intros []]).
  rewrite !andb_true_iff, !bool_decide_eq_true. destruct c, current; simpl.
  split; [intros; destruct_and!; split_and!; congruence | by intros ([= -> -> ->] & ? & ?)].
Qed.

Lemma sync_guard_spec s commit :
  negb (map_has (commit_nextCursor commit).(cursor_accountKey) s.(accounts)) ||
  negb (bool_decide ((commit_nextCursor commit).(cursor_dataType) = commit_kind commit)) ||
  negb (cursorPreconditionHolds s (commit_expectedCursor commit) (commit_nextCursor commit)) ||
  match commit with
  | EmailCommit c => negb (validateEmailCommit c (commit_nextCursor commit).(cursor_accountKey))
  | MailboxCommit c => negb (validateMailboxCommit c (commit_nextCursor commit).(cursor_accountKey))
  | IdentityCommit c => negb (validateIdentityCommit c (commit_nextCursor commit).(cursor_accountKey))
  end = false ↔ commit_allowed (abs s) commit.
Proof.
  unfold commit_allowed. rewrite !orb_false_iff, has_false_iff, differs_false, negb_false_iff,
    cursorPreconditionHolds_spec. simpl.
  destruct commit; rewrite negb_false_iff, ?validateEmailCommit_spec, ?validateMailboxCommit_spec,
    ?validateIdentityCommit_spec; tauto.
Qed.

Lemma cursor_put next t s st :
  abs s ≡ st → next.(cursor_dataType) = t →
  abs (set_cursors (map_set (cursorKey next.(cursor_accountKey) t) (cloneCursor next) s.(cursors)) s)
    ≡ put_cursor next st.
Proof.
  intros Hst <-. unfold equiv, store_equiv in *. simpl in *. destruct_and! Hst. split_and!; try done.
  intros [ak t]. simpl. rewrite map_get_set. unfold cloneCursor, upd. rewrite collectionSyncCursor_id.
  destruct (decide (_ = _)) as [Heq|Hne].
  - apply cursorKey_inj in Heq as [-> ->]. by rewrite decide_True.
  - rewrite decide_False by naive_solver.
    match goal with H : ∀ k : AccountKey * CollectionDataType, _ = _ |- _ => apply (H (ak, t)) end.
Qed.

(** Storing a commit's records and the store's own effect give the same lookups. *)
Lemma lookup_commit {V} (key : ScopedId → string) (entries : list (ScopedId * V))
    (m m' : jsmap string V) (gone : ScopedId → bool) k :
  (∀ a b, key a = key b → a = b) →
  (∀ k, map_get (key k) m' = if gone k then None else map_get (key k) m) →
  map_get (key k) (set_all key entries m') =
    insert_all entries (remove_ids gone (λ k, map_get (key k) m)) k.
Proof. intros Hinj Hm. rewrite lookup_set_all by done. apply insert_all_ext, Hm. Qed.

Lemma lookup_destroyed {V} (key : ScopedId → string) destroyed (m : jsmap string V) k :
  (∀ a b, key a = key b → a = b) → map_wf m →
  map_get (key k) (fold_left (λ m id, map_delete (key id) m) destroyed m) =
    if bool_decide (k ∈ destroyed) then None else map_get (key k) m.
Proof.
  intros Hinj Hm. rewrite delete_all_get by done.
  destruct (decide (key k ∈ map key destroyed)) as [Hin|Hin]; rewrite in_keys_iff in Hin by done.
  - by rewrite bool_decide_true.
  - by rewrite bool_decide_false.
Qed.

(** In a well-formed map, the account of a value is the account of its key. *)
Lemma lookup_replaced {V} (key : ScopedId → string) (id_of : V → ScopedId) ak (m : jsmap string V) k :
  (∀ a b, key a = key b → a = b) → map_forall (λ k v, k = key (id_of v)) m →
  map_get (key k)
    (map_delete_if (λ _ v, bool_decide ((id_of v).(accountKey) = ak)) m) =
    if bool_decide (k.(accountKey) = ak) then None else map_get (key k) m.
Proof.
  intros Hinj [Hm Hkeys]. rewrite map_get_delete_if by done.
  destruct (map_get (key k) m) as [v|] eqn:Hv.
  - apply Hkeys, Hinj in Hv as ->. done.
  - by destruct (bool_decide _).
Qed.

Lemma mailbox_return_id i m : mailbox i = Return m → mailbox_id m = mailbox_id i.
Proof. by intros [_ ->]%mailbox_return. Qed.
Lemma identity_return_id i m : identity i = Return m → identity_id m = identity_id i.
Proof. by intros [_ ->]%identity_return. Qed.

Lemma lookup_cleared {T} (key : ScopedId → string) (id_of : T → ScopedId) ak
    (c : CollectionCommit T ScopedId) (m : jsmap string T) k :
  (∀ a b, key a = key b → a = b) → map_forall (λ k v, k = key (id_of v)) m →
  map_get (key k)
    match c with
    | Replace _ _ _ => map_delete_if (λ _ v, bool_decide ((id_of v).(accountKey) = ak)) m
    | Delta _ _ _ destroyed => fold_left (λ m id, map_delete (key id) m) destroyed m
    end = if commit_removes c ak k then None else map_get (key k) m.
Proof.
  intros Hinj Hm. destruct c; simpl; [by apply lookup_destroyed; [|apply Hm] | by apply lookup_replaced].
Qed.

(** *** Emails: the loop that stores both maps *)

Lemma checked_record_eq r :
  checked_record r =
    (value ← cloneEmail r.(record_email);
     entries ← mapM cloneMembership r.(record_memberships);
     Return (mkEmailSyncRecord value entries)).
Proof. done. Qed.

Lemma store_email_records_spec records maps :
  store_email_records records maps =
    (rs ← mapM checked_record records;
     Return (set_all emailKey (keyed email_id (map record_email rs)) maps.1,
             set_all emailKey (map (λ r, (record_id r, r.(record_memberships))) rs) maps.2)).
Proof.
  revert maps. induction records as [|r records IH]; intros maps; [by destruct maps|].
  rewrite mapM_cons_outcome. simpl. rewrite checked_record_eq.
  destruct (cloneEmail (record_email r)) as [e|e] eqn:He; simpl; [|done].
  destruct (mapM _ (record_memberships r)) as [entries|]; simpl; [|done].
  rewrite IH. simpl. destruct (mapM checked_record records); simpl; [|done].
  unfold set_all, record_id. simpl. by rewrite (email_return_id _ _ He).
Qed.

Lemma emails_keyed s : state_wf s → map_forall (λ k v, k = emailKey v.(email_id)) s.(emails).
Proof. intros Hwf. eapply map_forall_impl; [by apply wf_emails|]. by intros k v []. Qed.
Lemma mailboxes_keyed s : state_wf s → map_forall (λ k v, k = mailboxKey v.(mailbox_id)) s.(mailboxes).
Proof. intros Hwf. eapply map_forall_impl; [by apply wf_mailboxes|]. by intros k v []. Qed.
Lemma identities_keyed s :
  state_wf s → map_forall (λ k v, k = identityKey v.(identity_id)) s.(identities).
Proof. intros Hwf. eapply map_forall_impl; [by apply wf_identities|]. by intros k v []. Qed.

Lemma lookup_cleared_emails c ak s k :
  state_wf s →
  map_get (emailKey k) (cleared_mail c ak s).1 =
    if commit_removes c ak k then None else map_get (emailKey k) s.(emails).
Proof.
  intros Hwf. pose proof (emails_keyed _ Hwf) as Hkeys. pose proof emailKey_inj.
  destruct c; simpl; [by apply lookup_destroyed; [|apply Hkeys] | by apply lookup_replaced].
Qed.

Lemma lookup_cleared_memberships c ak s k :
  state_wf s →
  map_get (emailKey k) (cleared_mail c ak s).2 =
    if commit_removes c ak k then None else map_get (emailKey k) s.(memberships).
Proof.
  intros Hwf. rewrite cleared_memberships_get by done. destruct c as [e n ch destroyed|e n sn]; simpl.
  - destruct (decide (k ∈ destroyed)) as [Hin|Hin].
    + rewrite !bool_decide_true; [done..|]. by apply (in_keys_iff emailKey emailKey_inj).
    + rewrite !bool_decide_false; [done..|]. by rewrite (in_keys_iff emailKey emailKey_inj).
  - destruct (map_get (emailKey k) s.(emails)) as [e'|] eqn:He.
    + apply (emails_keyed _ Hwf), emailKey_inj in He as ->. done.
    + destruct (map_get (emailKey k) s.(memberships)) as [l|] eqn:Hl.
      * apply (wf_memberships _ Hwf) in Hl as (? & ? & _). congruence.
      * by destruct (bool_decide _).
Qed.

(** The common frame of the three branches of [applyCollectionSync]. *)
Lemma sync_frame w commit m v :
  (commit_allowed (abs (db w)) commit → refines m w v) →
  refines
    (if negb (map_has (commit_nextCursor commit).(cursor_accountKey) (db w).(accounts)) ||
        negb (bool_decide ((commit_nextCursor commit).(cursor_dataType) = commit_kind commit)) ||
        negb (cursorPreconditionHolds (db w) (commit_expectedCursor commit) (commit_nextCursor commit))
     then conflict
     else
       if match commit with
          | EmailCommit c => negb (validateEmailCommit c (commit_nextCursor commit).(cursor_accountKey))
          | MailboxCommit c =>
              negb (validateMailboxCommit c (commit_nextCursor commit).(cursor_accountKey))
          | IdentityCommit c =>
              negb (validateIdentityCommit c (commit_nextCursor commit).(cursor_accountKey))
          end
       then conflict else m) w (reject_unless (commit_allowed (abs (db w)) commit) v).
Proof. apply refines_guard2, sync_guard_spec. Qed.

Lemma applyCollectionSync_refines commit w :
  state_wf (db w) → refines (applyCollectionSync commit) w (spec_sync commit (abs (db w))).
Proof.
  intros Hwf. apply refines_get. unfold spec_sync.
  destruct commit as [c|c|c].
  - apply (sync_frame w (EmailCommit c)). intros (_ & Ht & _).
    eapply (refines_staged w (λ s, store_email_records _ (cleared_mail c _ s)) _
      _ (λ maps s, set_memberships maps.2 (set_emails maps.1 s)));
      [apply store_email_records_spec|].
    intros rs _. apply cursor_put; [|done]. same_store.
    + apply (lookup_commit emailKey); [apply emailKey_inj|]. intros id.
      by apply lookup_cleared_emails.
    + apply (lookup_commit emailKey); [apply emailKey_inj|]. intros id.
      by apply lookup_cleared_memberships.
  - apply (sync_frame w (MailboxCommit c)). intros (_ & Ht & _).
    eapply (refines_staged w (λ s, store_values _ _ _ _) _ _ set_mailboxes);
      [apply store_values_set_all; apply mailbox_return_id|].
    intros vs _. apply cursor_put; [|done]. same_store.
    apply (lookup_commit mailboxKey); [apply mailboxKey_inj|]. intros id.
    apply (lookup_cleared mailboxKey mailbox_id); [apply mailboxKey_inj | by apply mailboxes_keyed].
  - apply (sync_frame w (IdentityCommit c)). intros (_ & Ht & _).
    eapply (refines_staged w (λ s, store_values _ _ _ _) _ _ set_identities);
      [apply store_values_set_all; apply identity_return_id|].
    intros vs _. apply cursor_put; [|done]. same_store.
    apply (lookup_commit identityKey); [apply identityKey_inj|]. intros id.
    apply (lookup_cleared identityKey identity_id); [apply identityKey_inj | by apply identities_keyed].
Qed.

(** *** Caches and views *)

Lemma cacheEmailBody_refines body w : refines (cacheEmailBody body) w (spec_cache_body body (abs (db w))).
Proof.
  apply refines_get, refines_guard; [apply has_false_iff|]. intros _. apply refines_commit. same_store.
  unfold cloneBody. rewrite emailBody_id. apply (lookup_set emailKey emailKey_inj).
Qed.

Lemma attachment_keys_NoDup id refs :
  Forall (λ a, a.(att_emailId) = id) refs →
  NoDup (map attachment_pair_key refs) ↔ NoDup (map att_partId refs).
Proof.
  intros Hids. induction Hids as [|a refs Ha Hids IH]; simpl; [by split|].
  rewrite !NoDup_cons, IH. assert (attachment_pair_key a ∈ map attachment_pair_key refs ↔
    att_partId a ∈ map att_partId refs) as ->; [|done].
  rewrite !list_elem_of_fmap. rewrite Forall_forall in Hids. split.
  - intros (b & Hb & Hin). exists b. split; [|done]. by apply attachment_pair_key_inj in Hb as [].
  - intros (b & Hb & Hin). exists b. split; [|done]. unfold attachment_pair_key.
    by rewrite Hb, Ha, (Hids b Hin).
Qed.

Lemma replaceAttachmentRefs_refines id refs w :
  refines (replaceAttachmentRefs id refs) w (spec_attachments id refs (abs (db w))).
Proof.
  apply refines_get, refines_guard.
  - rewrite !orb_false_iff, has_false_iff, hasDuplicates_false. simpl.
    rewrite (existsb_Forall _ (λ a, a.(att_emailId) = id)) by
      (intros; rewrite negb_false_iff; apply sameScopedEmailId_spec).
    split; [intros [[? Hids] Hnd] | intros (? & Hids & Hnd)]; split_and!; try done;
      by apply (attachment_keys_NoDup id).
  - intros _. apply refines_pure. intros cloned _. apply refines_commit. same_store.
    apply (lookup_set emailKey emailKey_inj).
Qed.

Lemma replaceMailboxView_refines view w :
  refines (replaceMailboxView view) w (spec_view view (abs (db w))).
Proof.
  apply refines_get, refines_guard; [apply has_false_iff|]. intros _. apply refines_pure.
  intros cloned [_ ->]%mailboxView_return. apply refines_commit. same_store.
  apply (lookup_set viewKey viewKey_inj).
Qed.

(** *** Mutations *)

Lemma lookup_mutation_set ak id v (m : jsmap string PendingMutation) k :
  map_get (mutationKey k.1 k.2) (map_set (mutationKey ak id) v m) =
    upd (ak, id) (Some v) (λ k, map_get (mutationKey k.1 k.2) m) k.
Proof.
  apply (lookup_set (λ k, mutationKey k.1 k.2) (λ a b, ltac:(intros [? ?]%mutationKey_inj;
    destruct a, b; simpl in *; congruence)) (ak, id)).
Qed.

Lemma put_mutation_store m s st :
  mutation_sets_wf m → abs s ≡ st →
  abs (set_mutations (map_set (mutationKey (mutation_accountKey m) (mutation_id m))
         (cloneMutation m) s.(mutations)) s) ≡ put_in_store m st.
Proof.
  intros Hm Hst. unfold equiv, store_equiv in *. simpl in *. destruct_and! Hst. split_and!; try done.
  intros k. rewrite cloneMutation_id by done. rewrite lookup_mutation_set. unfold upd.
  case_decide; [done|]. by match goal with H : ∀ k : AccountKey * MutationId, _ |- _ => apply (H k) end.
Qed.

Lemma map_has_false_iff {V} k (m : jsmap string V) : map_has k m = false ↔ map_get k m = None.
Proof. apply map_has_false. Qed.

Lemma stageable_spec m s :
  negb (map_has (mutation_accountKey m) s.(accounts)) ||
  map_has (mutationKey (mutation_accountKey m) (mutation_id m)) s.(mutations) = false ↔
  stageable m (abs s).
Proof. rewrite orb_false_iff, has_false_iff, map_has_false. done. Qed.

Lemma stageSendMutation_refines value w :
  refines (stageSendMutation value) w (spec_stage value (abs (db w))).
Proof.
  apply refines_get, refines_guard; [apply (stageable_spec (MutSend value))|]. intros _.
  apply refines_commit. by apply (put_mutation_store (MutSend value)).
Qed.

Lemma fold_set_delete remove s :
  fold_left (λ (k : list string) item, set_delete item k) remove s =
    List.filter (λ k, negb (bool_decide (k ∈ remove))) s.
Proof.
  revert s. induction remove as [|x remove IH]; intros s; simpl.
  - induction s as [|y s IHs]; simpl; [done|]. by f_equal.
  - rewrite IH. unfold set_delete. induction s as [|y s IHs]; simpl; [done|].
    destruct (decide (y = x)) as [->|Hne].
    + rewrite (bool_decide_true (x = x)) by done. rewrite (bool_decide_true (x ∈ x :: remove)) by left.
      simpl. apply IHs.
    + rewrite (bool_decide_false (y = x)) by done. simpl. rewrite IHs.
      assert (bool_decide (y ∈ x :: remove) = bool_decide (y ∈ remove)) as ->; [|done].
      apply bool_decide_ext. rewrite elem_of_cons. naive_solver.
Qed.

Lemma changed_keywords_spec current change :
  fold_left (λ k item, set_delete item k) change.(keyword_remove)
    (fold_left (λ k item, set_add item k) change.(keyword_add) (set_of_list current)) =
  changed_keywords current change.
Proof.
  rewrite fold_set_delete. unfold changed_keywords, set_of_list. by rewrite fold_left_app.
Qed.

Lemma applyOptimisticKeywordMutation_refines value w :
  mutation_sets_wf (MutKeyword value) →
  refines (applyOptimisticKeywordMutation value) w (spec_keyword value (abs (db w))).
Proof.
  intros Hsets. apply refines_get. unfold spec_keyword. simpl.
  destruct (map_get (emailKey (kw_emailId value)) (emails (db w))) as [target|]; [|done].
  apply refines_guard; [apply (stageable_spec (MutKeyword value))|]. intros _.
  rewrite changed_keywords_spec. apply refines_pure. intros checked _.
  apply refines_pure. intros next _. apply refines_commit2.
  apply (put_mutation_store (MutKeyword value)); [done|]. same_store.
  apply (lookup_set emailKey emailKey_inj).
Qed.

(** [push_memberships] adds the new mailboxes in order. *)
Lemma push_memberships_spec id add next :
  Forall (λ em, em.(em_emailId) = id ∧ membership_wf em) next →
  push_memberships id add next =
    memberships_in id (fold_left (λ s id, set_add id s) add (map em_mailboxId next)).
Proof.
  revert next. induction add as [|m add IH]; intros next Hnext; simpl.
  - unfold memberships_in. rewrite decide_True.
    + f_equal. induction Hnext as [|[e m] next [He _] _ IHn]; simpl in *; [done|]. by f_equal; subst.
    + rewrite Forall_fmap. eapply Forall_impl; [exact Hnext|]. intros em [<- Hw]. done.
  - assert (existsb (λ entry, sameScopedMailboxId (em_mailboxId entry) m) next =
      set_has m (map em_mailboxId next)) as Hhas.
    { destruct (set_has m (map em_mailboxId next)) eqn:Hm.
      - apply set_has_spec, list_elem_of_fmap in Hm as (em & -> & Hin).
        apply existsb_true_exists. exists em. split; [done|]. by apply sameScopedMailboxId_spec.
      - apply set_has_false in Hm. apply existsb_false_forall. intros em Hin.
        apply sameScopedId_false. intros <-. apply Hm. apply list_elem_of_fmap. by exists em. }
    rewrite Hhas. unfold set_add at 2. destruct (set_has m (map em_mailboxId next)) eqn:Hm; simpl;
      [by apply IH|].
    destruct (decide (accountKey id = accountKey m)) as [Hak|Hak].
    + rewrite (proj2 (emailMailbox_return id m (mkEmailMailbox id m))) by done. simpl.
      rewrite IH; [by rewrite map_app|]. apply Forall_app. split; [done|]. by repeat constructor.
    + unfold emailMailbox. unfold memberships_in. rewrite bool_decide_false by done. simpl.
      rewrite decide_False; [done|].
      rewrite Forall_forall. intros Hall. destruct Hak. symmetry. apply Hall.
      apply fold_set_add_elem. right. apply elem_of_app. right. apply list_elem_of_singleton. done.
Qed.

Lemma filter_map_comp {A B} (f : A → B) (p : B → bool) l :
  map f (List.filter (λ x, p (f x)) l) = List.filter p (map f l).
Proof. induction l as [|x l IH]; simpl; [done|]. destruct (p (f x)); simpl; by rewrite IH. Qed.

Lemma kept_mailboxes remove current :
  map em_mailboxId (List.filter
    (λ entry, negb (existsb (λ id, sameScopedMailboxId entry.(em_mailboxId) id) remove)) current) =
  List.filter (λ id, negb (bool_decide (id ∈ remove))) (map em_mailboxId current).
Proof.
  rewrite <- filter_map_comp. f_equal. apply filter_ext. intros em. f_equal.
  destruct (existsb _ _) eqn:He; symmetry.
  - apply existsb_true_exists in He as (id & Hin & ->%sameScopedMailboxId_spec).
    by apply bool_decide_true.
  - rewrite existsb_false_forall in He. apply bool_decide_false. intros Hin.
    apply He in Hin. by apply sameScopedId_false in Hin.
Qed.

Lemma memberships_in_wf id ids l :
  memberships_in id ids = Return l → Forall (λ em, em.(em_emailId) = id ∧ membership_wf em) l.
Proof.
  unfold memberships_in. case_decide as Hall; [|done]. intros [= <-]. rewrite Forall_fmap.
  eapply Forall_impl; [exact Hall|]. intros m Hm. split; [done|]. by unfold membership_wf.
Qed.

Lemma applyOptimisticMailboxMembershipMutation_refines value w :
  state_wf (db w) →
  refines (applyOptimisticMailboxMembershipMutation value) w (spec_membership value (abs (db w))).
Proof.
  intros Hwf. apply refines_get, refines_guard2.
  - rewrite !orb_false_iff, !has_false_iff, map_has_false. unfold stageable. simpl.
    rewrite (existsb_Forall _ (λ m, map_get (mailboxKey m) (mailboxes (db w)) ≠ None)) by
      (intros; apply has_false_iff). tauto.
  - intros (_ & Hem & _). simpl in Hem. cbv zeta. simpl.
    destruct (map_get (emailKey (mm_emailId value)) (emails (db w))) as [e|] eqn:He; [|done].
    destruct (stored_memberships_ok _ _ _ Hwf He) as (Hkey & l & Hl & [Hok _]).
    apply emailKey_inj in Hkey. rewrite <- Hkey in Hok. rewrite Hl. simpl.
    rewrite push_memberships_spec, kept_mailboxes.
    + apply refines_pure. intros next Hnext. apply memberships_in_wf in Hnext.
      apply refines_guard; [rewrite bool_decide_eq_false; by destruct next|]. intros _.
      rewrite (mapM_return_id cloneMembership).
      * apply (refines_commit2 w _ (λ s, set_mutations _ s)). apply (put_mutation_store (MutMembership value)); [done|]. same_store.
        apply (lookup_set emailKey emailKey_inj).
      * eapply Forall_impl; [exact Hnext|]. intros em [_ ?]. by apply cloneMembership_return.
    + rewrite Forall_forall in *. intros em Hin. apply Hok.
      rewrite list_elem_of_In in *. by apply filter_In in Hin as [].
Qed.

Lemma replacePendingMutationIfCurrent_refines expected next w :
  state_wf (db w) → mutation_sets_wf expected → mutation_sets_wf next →
  refines (replacePendingMutationIfCurrent expected next) w (spec_replace expected next (abs (db w))).
Proof.
  intros Hwf He Hn. apply refines_get. unfold spec_replace. simpl.
  destruct (map_get _ (mutations (db w))) as [current|] eqn:Hc; [|done].
  apply (wf_mutations _ Hwf) in Hc as (_ & Hsets & _). apply refines_guard.
  - unfold swappable. rewrite !orb_false_iff, !negb_false_iff, mutationsEqual_spec,
      sameImmutableMutation_spec, validTransition_spec by done. tauto.
  - intros (_ & _ & Hrec & _). apply refines_commit. apply same_record_fields in Hrec as (_ & -> & -> & _).
    by apply put_mutation_store.
Qed.

Lemma removeConfirmedMutation_refines ak id w :
  state_wf (db w) → refines (removeConfirmedMutation ak id) w (spec_remove ak id (abs (db w))).
Proof.
  intros Hwf. apply refines_get. unfold spec_remove. simpl.
  destruct (map_get _ (mutations (db w))) as [current|] eqn:Hc; [|done].
  apply refines_guard; [apply differs_false|]. intros _. apply refines_commit. same_store.
  apply (lookup_delete_key (λ k, mutationKey k.1 k.2) (λ a b, ltac:(intros [? ?]%mutationKey_inj;
    destruct a, b; simpl in *; congruence)) (ak, id)). by apply wf_mutations.
Qed.
