(* ===== verification/MemoryEngine.v ===== *)
(** * The memory engine as a whole: adapters/memory/memory-local-engine.ts

    Every method of [SyncPort] as one operation, runs of operations, and reads of
    the state they reach. *)

From S2P Require Import Prelude.
From S2P Require Import JsNumber.
From S2P Require Import JsString.
From S2P Require Import JsCollections.
From S2P Require Import Errors.
From S2P Require Import DomainIds.
From S2P Require Import DomainEmail.
From S2P Require Import DomainMailbox.
From S2P Require Import MailboxView.
From S2P Require Import SendIntent.
From S2P Require Import PendingMutation.
From S2P Require Import Ports.
From S2P Require Import MemoryState.
From S2P Require Import MemorySyncPort.
From S2P Require Import MemoryFacts.
From S2P Require Import MemoryReadRepository.
From S2P Require Import MemoryInvariant.
From S2P Require Import MailStore.
From S2P Require Import MemoryRefinement.
Open Scope string_scope.
Open Scope list_scope.

Definition perform (op : SyncOp) : Action WriteResult :=
  match op with
  | OpRegisterAccount value => registerAccount value
  | OpApplyCollectionSync commit => applyCollectionSync commit
  | OpCacheEmailBody body => cacheEmailBody body
  | OpReplaceAttachmentRefs id refs => replaceAttachmentRefs id refs
  | OpReplaceMailboxView view => replaceMailboxView view
  | OpStageSendMutation value => stageSendMutation value
  | OpApplyOptimisticKeywordMutation value => applyOptimisticKeywordMutation value
  | OpApplyOptimisticMailboxMembershipMutation value => applyOptimisticMailboxMembershipMutation value
  | OpReplacePendingMutationIfCurrent expected next => replacePendingMutationIfCurrent expected next
  | OpRemoveConfirmedMutation ak id => removeConfirmedMutation ak id
  end.

(** [createMemoryLocalEngine]: an empty state, nothing published. *)
Definition createMemoryLocalEngine : World :=
  {| db := new_MemoryState; published := [] |}.

(** The calls of a client, one after the other; a thrown call is a rejected promise
    and the next call still runs. *)
Definition perform_all (ops : list SyncOp) (w : World) : World :=
  fold_left (λ w op, (perform op w).2) ops w.

(** ** One write *)

Lemma perform_wf op w : state_wf (db w) → writes (perform op) w (λ s _, state_wf s).
Proof.
  destruct op; [apply registerAccount_wf | apply applyCollectionSync_wf | apply cacheEmailBody_wf
  | apply replaceAttachmentRefs_wf | apply replaceMailboxView_wf | apply stageSendMutation_wf
  | apply applyOptimisticKeywordMutation_wf | apply applyOptimisticMailboxMembershipMutation_wf
  | apply replacePendingMutationIfCurrent_wf | apply removeConfirmedMutation_wf].
Qed.

Lemma perform_state_wf op w : state_wf (db w) → state_wf (db (perform op w).2).
Proof.
  intros Hwf. pose proof (perform_wf op w Hwf) as H. unfold writes in H.
  destruct (perform op w) as [[[[]|e]|e] w']; simpl.
  - by destruct H as (b & _ & H).
  - by destruct H as [_ ->].
  - by subst.
Qed.

Lemma perform_all_wf ops w : state_wf (db w) → state_wf (db (perform_all ops w)).
Proof.
  revert w. induction ops as [|op ops IH]; intros w Hwf; [done|]. by apply IH, perform_state_wf.
Qed.

Lemma perform_refines op w :
  state_wf (db w) → op_wf op → refines (perform op) w (spec op (abs (db w))).
Proof.
  intros Hwf Hop. destruct op; simpl in *; [apply registerAccount_refines
  | by apply applyCollectionSync_refines | apply cacheEmailBody_refines
  | apply replaceAttachmentRefs_refines | apply replaceMailboxView_refines
  | apply stageSendMutation_refines | by apply applyOptimisticKeywordMutation_refines
  | by apply applyOptimisticMailboxMembershipMutation_refines
  | destruct Hop; by apply replacePendingMutationIfCurrent_refines
  | by apply removeConfirmedMutation_refines].
Qed.

(** Without any assumption on the state: a write that does not succeed changes
    nothing, and one that does publishes one batch. *)
Lemma perform_atomic op w : writes (perform op) w (λ _ _, True).
Proof.
  destruct op; simpl.
  - apply writes_get, writes_if. intros _. by destruct (map_get _ _); eexists.
  - apply writes_get, writes_if. intros _.
    destruct commit; apply writes_if; intros _; by apply writes_staged.
  - apply writes_get, writes_if. intros _. by apply writes_commit.
  - apply writes_get, writes_if. intros _. apply writes_pure. intros. by apply writes_commit.
  - apply writes_get, writes_if. intros _. apply writes_pure. intros. by apply writes_commit.
  - apply writes_get, writes_if. intros _. by apply writes_commit.
  - apply writes_get. destruct (map_get _ _); [|done]. apply writes_if. intros _.
    apply writes_pure. intros. apply writes_pure. intros. by apply writes_commit2.
  - apply writes_get, writes_if. intros _. apply writes_if. intros _. apply writes_pure. intros.
    apply writes_if. intros _. apply writes_pure. intros. by apply writes_commit2.
  - apply writes_get, writes_if. intros _. by apply writes_commit.
  - apply writes_get, writes_if. intros _. by apply writes_commit.
Qed.

(** ** The store's verdict depends on its lookups only *)

Inductive verdict_equiv : verdict → verdict → Prop :=
| accepted_equiv st st' batch : st ≡ st' → verdict_equiv (Accepted st batch) (Accepted st' batch)
| rejected_equiv : verdict_equiv Rejected Rejected
| refused_equiv e : verdict_equiv (Refused e) (Refused e).

Definition performed (op : SyncOp) (st : Store) : Store :=
  match spec op st with Accepted st' _ => st' | _ => st end.

(** The store after a run of operations. *)
Definition performed_all (ops : list SyncOp) (st : Store) : Store :=
  fold_left (λ st op, performed op st) ops st.

Lemma reject_unless_equiv (P Q : Prop) `{!Decision P, !Decision Q} v v' :
  (P ↔ Q) → (P → verdict_equiv v v') → verdict_equiv (reject_unless P v) (reject_unless Q v').
Proof.
  intros HPQ Hv. unfold reject_unless. destruct (decide P) as [HP|HP], (decide Q) as [HQ|HQ];
    [auto | tauto | tauto | constructor].
Qed.

Lemma refuse_or_equiv {A} (m : outcome exn A) v v' :
  (∀ a, verdict_equiv (v a) (v' a)) → verdict_equiv (refuse_or m v) (refuse_or m v').
Proof. intros H. destruct m; [apply H | constructor]. Qed.

Lemma upd_ext {K V} `{!EqDecision K} (k : K) (v : option V) f g k' :
  (∀ k, f k = g k) → upd k v f k' = upd k v g k'.
Proof. intros H. unfold upd. by case_decide. Qed.

Lemma insert_removed_ext {K V} `{!EqDecision K} (entries : list (K * V)) gone f g k :
  (∀ k, f k = g k) →
  insert_all entries (remove_ids gone f) k = insert_all entries (remove_ids gone g) k.
Proof. intros H. apply insert_all_ext. intros k'. unfold remove_ids. by rewrite H. Qed.

Ltac equiv_stores H :=
  constructor; unfold equiv, store_equiv in *; simpl in *; destruct_and! H; split_and!; intros;
  auto using upd_ext, insert_removed_ext.

Lemma put_in_store_equiv m st st' : st ≡ st' → put_in_store m st ≡ put_in_store m st'.
Proof.
  intros H. unfold equiv, store_equiv in *; simpl in *. destruct_and! H.
  split_and!; intros; auto using upd_ext.
Qed.

Lemma put_cursor_equiv c st st' : st ≡ st' → put_cursor c st ≡ put_cursor c st'.
Proof.
  intros H. unfold equiv, store_equiv in *; simpl in *. destruct_and! H.
  split_and!; intros; auto using upd_ext.
Qed.

Lemma stageable_equiv m st st' : st ≡ st' → stageable m st ↔ stageable m st'.
Proof. intros H. unfold stageable. destruct_and! H. naive_solver congruence. Qed.

Lemma commit_allowed_equiv st st' commit :
  st ≡ st' → commit_allowed st commit ↔ commit_allowed st' commit.
Proof.
  intros H. unfold commit_allowed, cursor_current. destruct_and! H.
  repeat match goal with H : ∀ k : _, _ = _ |- _ => rewrite !H; clear H end. done.
Qed.

Lemma spec_sync_equiv commit st st' :
  st ≡ st' → verdict_equiv (spec_sync commit st) (spec_sync commit st').
Proof.
  intros H. apply reject_unless_equiv; [by apply commit_allowed_equiv|]. intros _.
  destruct commit; apply refuse_or_equiv; intros; constructor; apply put_cursor_equiv;
    unfold equiv, store_equiv in *; simpl in *; destruct_and! H; split_and!; intros;
    auto using insert_removed_ext.
Qed.

Lemma spec_equiv op st st' : st ≡ st' → verdict_equiv (spec op st) (spec op st').
Proof.
  intros H. pose proof H as (Hacc & Hmb & _ & Hem & Hms & _ & _ & _ & _ & Hmut).
  destruct op; simpl.
  - unfold spec_register. rewrite <- Hacc. destruct (st_account st _).
    + apply reject_unless_equiv; [done|]. by constructor.
    + equiv_stores H.
  - by apply spec_sync_equiv.
  - apply reject_unless_equiv; [by rewrite Hem|]. intros _. equiv_stores H.
  - apply reject_unless_equiv; [by rewrite Hem|]. intros _. apply refuse_or_equiv. intros. equiv_stores H.
  - apply reject_unless_equiv; [by rewrite Hmb|]. intros _. apply refuse_or_equiv. intros. equiv_stores H.
  - apply reject_unless_equiv; [by apply stageable_equiv|]. intros _. constructor.
    by apply put_in_store_equiv.
  - unfold spec_keyword. rewrite <- Hem. destruct (st_email st _); [|constructor].
    apply reject_unless_equiv; [by apply stageable_equiv|]. intros _.
    apply refuse_or_equiv. intros. apply refuse_or_equiv. intros. constructor.
    apply put_in_store_equiv. unfold equiv, store_equiv in *; simpl in *. destruct_and! H.
    split_and!; intros; auto using upd_ext.
  - unfold spec_membership. rewrite <- Hms. apply reject_unless_equiv.
    { rewrite (stageable_equiv _ _ _ H), Hem. by setoid_rewrite Hmb. }
    intros _. apply refuse_or_equiv. intros. apply reject_unless_equiv; [done|]. intros _. constructor.
    apply put_in_store_equiv. unfold equiv, store_equiv in *; simpl in *. destruct_and! H.
    split_and!; intros; auto using upd_ext.
  - unfold spec_replace. rewrite <- Hmut. destruct (st_mutation st _); [|constructor].
    apply reject_unless_equiv; [done|]. intros _. constructor. by apply put_in_store_equiv.
  - unfold spec_remove. rewrite <- Hmut. destruct (st_mutation st _); [|constructor].
    apply reject_unless_equiv; [done|]. intros _. equiv_stores H.
Qed.

#[export] Instance performed_proper op : Proper ((≡) ==> (≡)) (performed op).
Proof.
  intros st st' H. unfold performed. destruct (spec_equiv op st st' H); done.
Qed.

#[export] Instance performed_all_proper ops : Proper ((≡) ==> (≡)) (performed_all ops).
Proof.
  intros st st' H. unfold performed_all. revert st st' H.
  induction ops as [|op ops IH]; intros st st' H; simpl; [done|]. apply IH. by rewrite H.
Qed.

(** ** Runs *)

Lemma perform_performed op w :
  state_wf (db w) → op_wf op → abs (db (perform op w).2) ≡ performed op (abs (db w)).
Proof.
  intros Hwf Hop. pose proof (perform_refines op w Hwf Hop) as H. unfold performed, refines in *.
  destruct (spec op (abs (db w))).
  - by destruct H as (w' & -> & ? & _).
  - by rewrite H.
  - by rewrite H.
Qed.

Lemma perform_all_performed ops w :
  state_wf (db w) → Forall op_wf ops → abs (db (perform_all ops w)) ≡ performed_all ops (abs (db w)).
Proof.
  intros Hwf Hops. revert w Hwf. induction Hops as [|op ops Hop _ IH]; intros w Hwf; [done|].
  change (performed_all (op :: ops) ?st) with (performed_all ops (performed op st)).
  rewrite <- (perform_performed op w) by done. by apply IH, perform_state_wf.
Qed.

(** ** Reads of a well-formed state

    The factories accept what is stored, so no read throws, and each returns the
    store's value. *)

Definition entity {T} (v : option T) : LocalEntityRead T :=
  match v with Some v => EntityPresent v | None => EntityAbsent end.
Definition owned_cache {O T} (owner : option O) (v : option T) : OwnedCacheRead T :=
  match owner with
  | None => CacheOwnerAbsent
  | Some _ => match v with Some v => Cached v | None => NotCached end
  end.
Definition owned_optional {O T} (owner : option O) (v : option T) : OwnedOptionalRead T :=
  match owner with
  | None => OptionalOwnerAbsent
  | Some _ => match v with Some v => OptionalPresent v | None => OptionalAbsent end
  end.

Lemma NoDup_map_filter {A B} (f : A → B) (p : A → bool) l :
  NoDup (map f l) → NoDup (map f (List.filter p l)).
Proof.
  induction l as [|x l IH]; simpl; [done|]. intros [Hx Hl]%NoDup_cons.
  destruct (p x); simpl; [|auto]. apply NoDup_cons. split; [|auto]. intros Hin. apply Hx.
  rewrite list_elem_of_fmap in *. destruct Hin as (y & -> & Hy). exists y. split; [done|].
  rewrite list_elem_of_In in *. by apply filter_In in Hy as [].
Qed.

Lemma NoDup_value_keys {V} (m : jsmap string V) (key : V → string) :
  map_forall (λ k v, k = key v) m → NoDup (map key (map_values m)).
Proof.
  intros [Hm Hall]. assert (map key (map_values m) = m.*1) as ->; [|done].
  unfold map_values. assert (∀ k v, (k, v) ∈ m → k = key v) as Hin.
  { intros k v Hkv. by apply Hall, map_elem_get. }
  clear Hm Hall. induction m as [|[k v] m IH]; csimpl; [done|]. f_equal.
  - symmetry. apply Hin. by left.
  - apply IH. intros k' v' Hkv. apply Hin. by right.
Qed.

Lemma map_cloneMutation_id l : Forall mutation_sets_wf l → map cloneMutation l = l.
Proof. induction 1 as [|m l Hm _ IH]; simpl; [done|]. by rewrite cloneMutation_id, IH. Qed.

Section reads.
Context (s : MemoryState) (Hwf : state_wf s).

Lemma readAccount_store k : readAccount k s = ok (entity (st_account (abs s) k)).
Proof.
  unfold readAccount, ok. simpl. destruct (map_get k (accounts s)); simpl; [by rewrite cloneAccount_id|done].
Qed.

Lemma present_store {V} (clone : V → outcome exn V) (P : string → V → Prop) k m :
  map_forall P m → (∀ k v, P k v → clone v = Return v) →
  present_or_absent clone (map_get k m) = Return (entity (map_get k m)).
Proof.
  intros [_ Hm] Hclone. destruct (map_get k m) as [v|] eqn:Hv; simpl; [|done].
  apply Hm, Hclone in Hv. by rewrite Hv.
Qed.

Lemma stored_email_id k e : map_get k s.(emails) = Some e → cloneEmail e = Return e.
Proof. intros (_ & He & _)%(wf_emails _ Hwf). by apply email_id_wf. Qed.

Lemma readEmail_store id : readEmail id s = ok (entity (st_email (abs s) id)).
Proof.
  unfold readEmail. simpl. destruct (map_get (emailKey id) (emails s)) as [e|] eqn:He; simpl; [|done].
  by rewrite (stored_email_id _ _ He).
Qed.

Lemma readEmails_store ids :
  readEmails ids s = ok (map (λ id, entity (st_email (abs s) id)) ids).
Proof.
  unfold readEmails. assert (mapM (λ id, present_or_absent cloneEmail (map_get (emailKey id) (emails s)))
    ids = Return (map (λ id, entity (st_email (abs s) id)) ids)) as ->; [|done].
  apply mapM_return_Forall2. induction ids as [|id ids IH]; constructor; [|done]. simpl.
  destruct (map_get (emailKey id) (emails s)) as [e|] eqn:He; simpl; [|done].
  by rewrite (stored_email_id _ _ He).
Qed.

Lemma readMailbox_store id : readMailbox id s = ok (entity (st_mailbox (abs s) id)).
Proof.
  unfold readMailbox. erewrite present_store; [done | by apply wf_mailboxes |].
  intros k v (_ & Hv & _). by apply mailbox_id_wf.
Qed.

Lemma readIdentity_store id : readIdentity id s = ok (entity (st_identity (abs s) id)).
Proof.
  unfold readIdentity. erewrite present_store; [done | by apply wf_identities |].
  intros k v (_ & Hv & _). by apply identity_return.
Qed.

Lemma readEmailMemberships_store id :
  readEmailMemberships id s =
    ok match st_email (abs s) id with
       | None => SnapshotOwnerAbsent
       | Some _ => SnapshotPresent (default [] (st_memberships (abs s) id))
       end.
Proof.
  unfold readEmailMemberships, map_has. simpl.
  destruct (map_get (emailKey id) (emails s)) as [e|] eqn:He; simpl; [|done].
  destruct (stored_memberships_ok _ _ _ Hwf He) as (_ & l & -> & [Hl _]). simpl.
  rewrite mapM_return_id; [done|]. eapply Forall_impl; [exact Hl|]. intros em [_ ?].
  by apply cloneMembership_return.
Qed.

Lemma readEmailBody_store id :
  readEmailBody id s = ok (owned_cache (st_email (abs s) id) (st_body (abs s) id)).
Proof.
  unfold readEmailBody, map_has. simpl. destruct (map_get (emailKey id) (emails s)); simpl; [|done].
  destruct (map_get (emailKey id) (bodies s)); simpl; [|done]. unfold cloneBody. by rewrite emailBody_id.
Qed.

Lemma readAttachmentRefs_store id :
  readAttachmentRefs id s = ok (owned_cache (st_email (abs s) id) (st_attachments (abs s) id)).
Proof.
  unfold readAttachmentRefs, map_has. simpl.
  destruct (map_get (emailKey id) (emails s)); simpl; [|done].
  destruct (map_get (emailKey id) (attachments s)) as [l|] eqn:Hl; simpl; [|done].
  apply (wf_attachments _ Hwf) in Hl as (id' & _ & _ & Hl).
  rewrite mapM_return_id; [done|]. eapply Forall_impl; [exact Hl|]. intros a [_ ?].
  by apply attachmentRef_id.
Qed.

Lemma readMailboxView_store spec :
  readMailboxView spec s =
    ok (owned_cache (st_mailbox (abs s) spec.(spec_mailboxId)) (st_view (abs s) spec)).
Proof.
  unfold readMailboxView, map_has. simpl.
  destruct (map_get (mailboxKey _) (mailboxes s)); simpl; [|done].
  destruct (map_get (viewKey spec) (views s)) as [v|] eqn:Hv; simpl; [|done].
  apply (wf_views _ Hwf) in Hv as (_ & Hv & _). unfold cloneView.
  by rewrite (proj2 (mailboxView_return v v)).
Qed.

Lemma readCollectionSyncCursor_store ak t :
  readCollectionSyncCursor ak t s =
    ok (owned_optional (st_account (abs s) ak) (st_cursor (abs s) (ak, t))).
Proof.
  unfold readCollectionSyncCursor, map_has. simpl. destruct (map_get ak (accounts s)); simpl; [|done].
  destruct (map_get (cursorKey ak t) (cursors s)); simpl; [|done].
  unfold cloneCursor. by rewrite collectionSyncCursor_id.
Qed.

Lemma readPendingMutation_store ak id :
  readPendingMutation ak id s =
    ok (owned_optional (st_account (abs s) ak) (st_mutation (abs s) (ak, id))).
Proof.
  unfold readPendingMutation, map_has. simpl. destruct (map_get ak (accounts s)); simpl; [|done].
  destruct (map_get (mutationKey ak id) (mutations s)) as [m|] eqn:Hm; simpl; [|done].
  apply (wf_mutations _ Hwf) in Hm as (_ & Hm & _). by rewrite cloneMutation_id.
Qed.

(** The stored values of one owner, or of all: each once, and no others. *)
Definition lists {K V} (key_of : V → K) (mine : V → Prop) (lookup : K → option V) (l : list V) : Prop :=
  NoDup (map key_of l) ∧ ∀ v, v ∈ l ↔ mine v ∧ lookup (key_of v) = Some v.

Lemma stored_values {K V} (m : jsmap string V) (key_of : V → K) (keyf : K → string) (mine : V → bool) :
  (∀ a b, keyf a = keyf b → a = b) → map_forall (λ k v, k = keyf (key_of v)) m →
  lists key_of (λ v, mine v = true) (λ k, map_get (keyf k) m) (List.filter mine (map_values m)).
Proof.
  intros Hinj Hm. split.
  - apply NoDup_map_filter. rewrite <- (NoDup_keys keyf Hinj), map_map. by apply NoDup_value_keys.
  - intros v. destruct Hm as [Hmwf Hall].
    rewrite list_elem_of_In, filter_In, <- list_elem_of_In, map_values_elem by done. split.
    + intros [[k Hk] Hv]. by rewrite <- (Hall k v Hk).
    + intros [Hv Hk]. split; [by eexists | done].
Qed.

Lemma lists_mono {K V} (key_of : V → K) (P Q : V → Prop) lookup l :
  (∀ v, P v ↔ Q v) → lists key_of P lookup l → lists key_of Q lookup l.
Proof. intros HPQ [Hnd Hl]. split; [done|]. intros v. rewrite Hl, HPQ. done. Qed.

Lemma filter_all {V} (l : list V) : List.filter (λ _, true) l = l.
Proof. induction l as [|v l IH]; simpl; [done|]. by rewrite IH. Qed.

Lemma map_cloneAccount l : map cloneAccount l = l.
Proof. induction l as [|a l IH]; simpl; [done|]. by rewrite cloneAccount_id, IH. Qed.

Lemma listAccounts_store :
  ∃ l, listAccounts s = ok l ∧ lists account_key (λ _, True) (st_account (abs s)) l.
Proof.
  exists (map_values (accounts s)). unfold listAccounts. rewrite map_cloneAccount. split; [done|].
  rewrite <- (filter_all (map_values (accounts s))).
  eapply lists_mono; [|apply (stored_values (accounts s) account_key (λ k, k) (λ _, true)); [done|]].
  - done.
  - by apply wf_accounts.
Qed.

(** The values of an account, when the factory accepts what is stored. *)
Lemma owned_values {V} (m : jsmap string V) (key_of : V → ScopedId) (keyf : ScopedId → string)
    (clone : V → outcome exn V) (P : string → V → Prop) ak :
  (∀ a b, keyf a = keyf b → a = b) → map_forall P m →
  (∀ k v, P k v → k = keyf (key_of v) ∧ clone v = Return v) →
  ∃ l, mapM clone (List.filter (λ v, bool_decide ((key_of v).(accountKey) = ak)) (map_values m)) = Return l ∧
    lists key_of (λ v, (key_of v).(accountKey) = ak) (λ k, map_get (keyf k) m) l.
Proof.
  intros Hinj Hm HP.
  pose proof (stored_values m key_of keyf (λ v, bool_decide ((key_of v).(accountKey) = ak)) Hinj) as Hl.
  eexists. split; [|eapply lists_mono; [intros v; apply bool_decide_eq_true | apply Hl]].
  - apply mapM_return_id, Forall_forall. intros v Hv. rewrite list_elem_of_In in Hv.
    apply filter_In in Hv as [Hv _]. rewrite <- list_elem_of_In in Hv. destruct Hm as [Hmwf Hall].
    apply map_values_elem in Hv as [k Hk]; [|done]. by apply (HP k v), Hall.
  - eapply map_forall_impl; [exact Hm|]. intros k v Hkv. by apply HP.
Qed.

Definition lists_owned {T} (owner : option Account) (P : list T → Prop)
    (r : outcome exn (ReadResult (OwnedSnapshotRead (list T)))) : Prop :=
  match r with
  | Return (PortOk SnapshotOwnerAbsent) => owner = None
  | Return (PortOk (SnapshotPresent l)) => owner ≠ None ∧ P l
  | _ => False
  end.

Lemma listMailboxes_store ak :
  lists_owned (st_account (abs s) ak)
    (lists mailbox_id (λ m, m.(mailbox_id).(accountKey) = ak) (st_mailbox (abs s)))
    (listMailboxes ak s).
Proof.
  unfold listMailboxes, map_has. simpl. destruct (map_get ak (accounts s)); [|done].
  destruct (owned_values (mailboxes s) mailbox_id mailboxKey cloneMailbox _ ak mailboxKey_inj
    (wf_mailboxes s Hwf)) as (l & Hl & Hlists).
  - intros k m (-> & Hm & _). split; [done|]. by apply mailbox_id_wf.
  - simpl. unfold ScopedMailboxId in *. rewrite Hl. by split.
Qed.

Lemma listIdentities_store ak :
  lists_owned (st_account (abs s) ak)
    (lists identity_id (λ i, i.(identity_id).(accountKey) = ak) (st_identity (abs s)))
    (listIdentities ak s).
Proof.
  unfold listIdentities, map_has. simpl. destruct (map_get ak (accounts s)); [|done].
  destruct (owned_values (identities s) identity_id identityKey cloneIdentity _ ak identityKey_inj
    (wf_identities s Hwf)) as (l & Hl & Hlists).
  - intros k i (-> & Hi & _). split; [done|]. by apply identity_return.
  - simpl. unfold ScopedIdentityId in *. rewrite Hl. by split.
Qed.

(** The listed mutations are the account's, each once. *)
Lemma listPendingMutations_store ak :
  match listPendingMutations ak s with
  | Return (PortOk SnapshotOwnerAbsent) => st_account (abs s) ak = None
  | Return (PortOk (SnapshotPresent l)) =>
      st_account (abs s) ak ≠ None ∧
      NoDup (map mutation_id l) ∧
      ∀ m, m ∈ l ↔ mutation_accountKey m = ak ∧ st_mutation (abs s) (ak, mutation_id m) = Some m
  | _ => False
  end.
Proof.
  unfold listPendingMutations, map_has. simpl.
  destruct (map_get ak (accounts s)); simpl; [split; [done|]|done].
  destruct (wf_mutations _ Hwf) as [Hm Hall].
  assert (∀ m, m ∈ map_values (mutations s) ↔
    map_get (mutationKey (mutation_accountKey m) (mutation_id m)) (mutations s) = Some m) as Hval.
  { intros m. rewrite map_values_elem by done. split; [|by eexists]. intros [k Hk].
    by destruct (Hall k m Hk) as (<- & _). }
  set (mine := List.filter _ _).
  assert (∀ m, m ∈ mine ↔ mutation_accountKey m = ak ∧
    map_get (mutationKey ak (mutation_id m)) (mutations s) = Some m) as Hmine.
  { intros m. unfold mine. rewrite list_elem_of_In, filter_In, <- list_elem_of_In, Hval,
      bool_decide_eq_true. naive_solver. }
  assert (map cloneMutation mine = mine) as ->.
  { assert (Forall mutation_sets_wf mine) as Hsets.
    { apply Forall_forall. intros m [_ Hk]%Hmine. by apply Hall in Hk as (_ & ? & _). }
    by apply map_cloneMutation_id. }
  split; [|exact Hmine].
  assert (map (λ m, mutationKey (mutation_accountKey m) (mutation_id m)) mine =
    map (mutationKey ak) (map mutation_id mine)) as Hkeys.
  { rewrite map_map. apply map_ext_in. intros m Hin. rewrite <- list_elem_of_In in Hin.
    by apply Hmine in Hin as [-> _]. }
  rewrite <- (NoDup_keys (mutationKey ak)) by (by intros ? ? []%mutationKey_inj).
  rewrite <- Hkeys. apply NoDup_map_filter. apply (NoDup_value_keys (mutations s)).
  eapply map_forall_impl; [by apply wf_mutations|]. by intros k m [].
Qed.
End reads.
