(* ===== verification/EngineInterface.v ===== *)
(** * The ports as an interface: ports/read-repository.ts and ports/sync-port.ts

    [PortCall] is one call of [ReadRepository] or [SyncPort].  [LocalEngine] is what
    the clients (the mutation runner, the coordinator, the body materializer) rely
    on: a write gives the verdict of [MailStore.spec], a read returns what the
    store holds and changes nothing.  The memory engine is an instance. *)

From S2P Require Import Prelude.
From S2P Require Import JsNumber.
From S2P Require Import JsString.
From S2P Require Import JsCollections.
From S2P Require Import Errors.
From S2P Require Import DomainIds.
From S2P Require Import DomainEmail.
From S2P Require Import DomainMailbox.
From S2P Require Import MailboxView.
From S2P Require Import SendIntent.
From S2P Require Import PendingMutation.
From S2P Require Import Ports.
From S2P Require Import MemoryState.
From S2P Require Import MemorySyncPort.
From S2P Require Import MemoryReadRepository.
From S2P Require Import MailStore.
From S2P Require Import MemoryRefinement.
From S2P Require Import MemoryEngine.
Open Scope string_scope.
Open Scope list_scope.

Inductive PortCall : Type → Type :=
| Write (op : SyncOp) : PortCall WriteResult
| ReadAccount (ak : AccountKey) : PortCall (ReadResult (LocalEntityRead Account))
| ListAccounts : PortCall (ReadResult (list Account))
| ReadMailbox (id : ScopedMailboxId) : PortCall (ReadResult (LocalEntityRead Mailbox))
| ListMailboxes (ak : AccountKey) : PortCall (ReadResult (OwnedSnapshotRead (list Mailbox)))
| ReadIdentity (id : ScopedIdentityId) : PortCall (ReadResult (LocalEntityRead Identity))
| ListIdentities (ak : AccountKey) : PortCall (ReadResult (OwnedSnapshotRead (list Identity)))
| ReadEmail (id : ScopedEmailId) : PortCall (ReadResult (LocalEntityRead Email))
| ReadEmails (ids : list ScopedEmailId) : PortCall (ReadResult (list (LocalEntityRead Email)))
| ReadEmailMemberships (id : ScopedEmailId) :
    PortCall (ReadResult (OwnedSnapshotRead (list EmailMailbox)))
| ReadEmailBody (id : ScopedEmailId) : PortCall (ReadResult (OwnedCacheRead EmailBody))
| ReadAttachmentRefs (id : ScopedEmailId) :
    PortCall (ReadResult (OwnedCacheRead (list AttachmentRef)))
| ReadMailboxView (spec : MailboxViewSpec) : PortCall (ReadResult (OwnedCacheRead MailboxView))
| ReadCollectionSyncCursor (ak : AccountKey) (t : CollectionDataType) :
    PortCall (ReadResult (OwnedOptionalRead CollectionSyncCursor))
| ReadPendingMutation (ak : AccountKey) (id : MutationId) :
    PortCall (ReadResult (OwnedOptionalRead PendingMutation))
| ListPendingMutations (ak : AccountKey) :
    PortCall (ReadResult (OwnedSnapshotRead (list PendingMutation))).

(** The [kind] strings of the port errors, as they appear in messages. *)
Definition read_error_string (e : LocalReadError) : string :=
  match e with
  | read_unavailable => "unavailable" | read_corruptState => "corruptState"
  | read_unexpected => "unexpected"
  end.
Definition write_error_string (e : LocalWriteError) : string :=
  match e with
  | write_unavailable => "unavailable" | write_corruptState => "corruptState"
  | write_conflict => "conflict" | write_unexpected => "unexpected"
  end.

(** ** What the clients rely on *)

(** What a call answers on a store.  Lists are described up to order. *)
Definition read_spec {X} (c : PortCall X) (st : Store) : outcome exn X → Prop :=
  match c in PortCall X return outcome exn X → Prop with
  | Write op => λ r,
      match spec op st with
      | Accepted _ _ => r = Return (PortOk tt)
      | Rejected => r = Return (PortError write_conflict)
      | Refused e => r = Throw e
      end
  | ReadAccount ak => λ r, r = Return (PortOk (entity (st_account st ak)))
  | ListAccounts => λ r, ∃ l, r = Return (PortOk l) ∧ lists account_key (λ _, True) (st_account st) l
  | ListMailboxes ak =>
      lists_owned (st_account st ak)
        (lists mailbox_id (λ m, m.(mailbox_id).(accountKey) = ak) (st_mailbox st))
  | ListIdentities ak =>
      lists_owned (st_account st ak)
        (lists identity_id (λ i, i.(identity_id).(accountKey) = ak) (st_identity st))
  | ReadMailbox id => λ r, r = Return (PortOk (entity (st_mailbox st id)))
  | ReadIdentity id => λ r, r = Return (PortOk (entity (st_identity st id)))
  | ReadEmail id => λ r, r = Return (PortOk (entity (st_email st id)))
  | ReadEmails ids => λ r, r = Return (PortOk (map (λ id, entity (st_email st id)) ids))
  | ReadEmailMemberships id => λ r,
      r = Return (PortOk match st_email st id with
                         | None => SnapshotOwnerAbsent
                         | Some _ => SnapshotPresent (default [] (st_memberships st id))
                         end)
  | ReadEmailBody id => λ r, r = Return (PortOk (owned_cache (st_email st id) (st_body st id)))
  | ReadAttachmentRefs id => λ r,
      r = Return (PortOk (owned_cache (st_email st id) (st_attachments st id)))
  | ReadMailboxView spec => λ r,
      r = Return (PortOk (owned_cache (st_mailbox st spec.(spec_mailboxId)) (st_view st spec)))
  | ReadCollectionSyncCursor ak t => λ r,
      r = Return (PortOk (owned_optional (st_account st ak) (st_cursor st (ak, t))))
  | ReadPendingMutation ak id => λ r,
      r = Return (PortOk (owned_optional (st_account st ak) (st_mutation st (ak, id))))
  | ListPendingMutations ak => λ r,
      match r with
      | Return (PortOk SnapshotOwnerAbsent) => st_account st ak = None
      | Return (PortOk (SnapshotPresent l)) =>
          st_account st ak ≠ None ∧ NoDup (map mutation_id l) ∧
          ∀ m, m ∈ l ↔ mutation_accountKey m = ak ∧ st_mutation st (ak, mutation_id m) = Some m
      | _ => False
      end
  end.

Definition is_write {X} (c : PortCall X) : bool :=
  match c with Write _ => true | _ => false end.

Definition call_wf {X} (c : PortCall X) : Prop :=
  match c with Write op => op_wf op | _ => True end.

(** The keyword sets of a mutation that is read are JavaScript [Set]s. *)
Definition answer_wf {X} (c : PortCall X) : outcome exn X → Prop :=
  match c in PortCall X return outcome exn X → Prop with
  | ReadPendingMutation _ _ => λ r,
      ∀ m, r = Return (PortOk (OptionalPresent m)) → mutation_sets_wf m
  | _ => λ _, True
  end.

Class LocalEngine (W : Type) : Type := {
  engine_answer : ∀ X, PortCall X → W → outcome exn X * W;
  engine_ok : W → Prop;
  engine_store : W → Store;
  engine_ok_kept : ∀ X (c : PortCall X) w, engine_ok w → engine_ok (engine_answer X c w).2;
  engine_answers : ∀ X (c : PortCall X) w,
    engine_ok w → call_wf c → read_spec c (engine_store w) (engine_answer X c w).1;
  engine_answer_wf : ∀ X (c : PortCall X) w, answer_wf c (engine_answer X c w).1;
  engine_writes : ∀ op w, engine_ok w → op_wf op →
    engine_store (engine_answer _ (Write op) w).2 ≡ performed op (engine_store w);
  engine_reads : ∀ X (c : PortCall X) w,
    is_write c = false → engine_store (engine_answer X c w).2 ≡ engine_store w;
}.
Arguments engine_answer {W _ X}.

(** ** The memory engine *)

Definition memory_answer X (c : PortCall X) (w : World) : outcome exn X * World :=
  match c in PortCall X return outcome exn X * World with
  | Write op => perform op w
  | ReadAccount ak => (readAccount ak (db w), w)
  | ListAccounts => (listAccounts (db w), w)
  | ReadMailbox id => (readMailbox id (db w), w)
  | ListMailboxes ak => (listMailboxes ak (db w), w)
  | ReadIdentity id => (readIdentity id (db w), w)
  | ListIdentities ak => (listIdentities ak (db w), w)
  | ReadEmail id => (readEmail id (db w), w)
  | ReadEmails ids => (readEmails ids (db w), w)
  | ReadEmailMemberships id => (readEmailMemberships id (db w), w)
  | ReadEmailBody id => (readEmailBody id (db w), w)
  | ReadAttachmentRefs id => (readAttachmentRefs id (db w), w)
  | ReadMailboxView spec => (readMailboxView spec (db w), w)
  | ReadCollectionSyncCursor ak t => (readCollectionSyncCursor ak t (db w), w)
  | ReadPendingMutation ak id => (readPendingMutation ak id (db w), w)
  | ListPendingMutations ak => (listPendingMutations ak (db w), w)
  end.

#[export] Instance memory_engine : LocalEngine World.
Proof.
  refine {| engine_answer := memory_answer; engine_ok := λ w, state_wf (db w);
            engine_store := λ w, abs (db w) |}.
  - intros X c w Hwf. destruct c; simpl; [by apply perform_state_wf | done..].
  - intros X c w Hwf Hc. destruct c; simpl in *.
    + pose proof (perform_refines op w Hwf Hc) as H. unfold refines in H.
      destruct (spec op (abs (db w))); [by destruct H as (w' & -> & _) | by rewrite H..].
    + by apply readAccount_store.
    + by apply listAccounts_store.
    + by apply readMailbox_store.
    + by apply listMailboxes_store.
    + by apply readIdentity_store.
    + by apply listIdentities_store.
    + by apply readEmail_store.
    + by apply readEmails_store.
    + by apply readEmailMemberships_store.
    + by apply readEmailBody_store.
    + by apply readAttachmentRefs_store.
    + by apply readMailboxView_store.
    + by apply readCollectionSyncCursor_store.
    + by apply readPendingMutation_store.
    + by apply listPendingMutations_store.
  - intros X c w. destruct c; try done. intros m. simpl. unfold readPendingMutation.
    destruct (negb _); [done|]. destruct (map_get _ _); simpl; [|done].
    intros [= <-]. apply cloneMutation_sets.
  - intros op w Hwf Hop. by apply perform_performed.
  - intros X c w Hc. by destruct c.
Defined.
