(* ===== verification/StoreEffects.v ===== *)
(** * What the accepted writes do to the store

    The verdicts of [MailStore.spec], read back through the lookups; a lifecycle
    step of the Domain is always an accepted swap, on any engine. *)

From S2P Require Import Prelude.
From S2P Require Import JsNumber.
From S2P Require Import JsString.
From S2P Require Import JsCollections.
From S2P Require Import Errors.
From S2P Require Import DomainIds.
From S2P Require Import DomainEmail.
From S2P Require Import DomainMailbox.
From S2P Require Import SendIntent.
From S2P Require Import PendingMutation.
From S2P Require Import Ports.
From S2P Require Import MemoryState.
From S2P Require Import MemorySyncPort.
From S2P Require Import MemoryFacts.
From S2P Require Import MailStore.
From S2P Require Import MemoryRefinement.
From S2P Require Import MemoryEngine.
From S2P Require Import EngineInterface.
Open Scope list_scope.

(** ** Storing a list of entries *)

Section entries.
Context {K V : Type} `{!EqDecision K}.
Implicit Types (entries : list (K * V)) (f : K → option V).

Lemma insert_all_other entries f k : k ∉ entries.*1 → insert_all entries f k = f k.
Proof.
  revert f. unfold insert_all. induction entries as [|[k1 v1] entries IH]; intros f; csimpl; [done|].
  intros [Hk Hentries]%not_elem_of_cons. rewrite IH by done. unfold upd. by rewrite decide_False.
Qed.

Lemma insert_all_entry entries f k v :
  NoDup entries.*1 → (k, v) ∈ entries → insert_all entries f k = Some v.
Proof.
  revert f. induction entries as [|[k1 v1] entries IH]; intros f; csimpl.
  - intros _ H. by apply not_elem_of_nil in H.
  - intros [Hk1 Hnd]%NoDup_cons [[= -> ->]|Hin]%elem_of_cons.
    + change (insert_all ((k1, v1) :: entries) f) with (insert_all entries (upd k1 (Some v1) f)).
      rewrite insert_all_other by done. unfold upd. by rewrite decide_True.
    + by apply IH.
Qed.

Lemma keyed_keys (id_of : V → K) values : (keyed id_of values).*1 = map id_of values.
Proof. unfold keyed. induction values as [|v values IH]; csimpl; [done|]. by rewrite <- IH. Qed.
End entries.

(** ** An accepted write *)

Lemma accepted_write op w w' :
  state_wf (db w) → op_wf op → perform op w = (Return (PortOk tt), w') →
  ∃ st batch, spec op (abs (db w)) = Accepted st batch ∧ abs (db w') ≡ st ∧
    published w' = published w ++ [batch].
Proof.
  intros Hwf Hop Hrun. pose proof (perform_refines op w Hwf Hop) as H. unfold refines in H.
  destruct (spec op (abs (db w))) as [st batch| |e]; [|pose proof (eq_trans (eq_sym Hrun) H) as Hno; done..].
  destruct H as (w'' & Hrun' & Hst & Hb). exists st, batch. split; [done|].
  pose proof (eq_trans (eq_sym Hrun) Hrun') as [= <-]. done.
Qed.

Lemma rejected_write op w :
  state_wf (db w) → op_wf op → spec op (abs (db w)) = Rejected →
  perform op w = (Return (PortError write_conflict), w).
Proof.
  intros Hwf Hop Hspec. pose proof (perform_refines op w Hwf Hop) as H. unfold refines in H.
  by rewrite Hspec in H.
Qed.

Lemma reject_unless_accepted (P : Prop) `{!Decision P} v st batch :
  reject_unless P v = Accepted st batch → P ∧ v = Accepted st batch.
Proof. unfold reject_unless. by case_decide. Qed.

Lemma refuse_or_accepted {A} (m : outcome exn A) k st batch :
  refuse_or m k = Accepted st batch → ∃ a, m = Return a ∧ k a = Accepted st batch.
Proof. destruct m; [by eexists | done]. Qed.

(** ** Email commits *)

Lemma checked_record_return r r' :
  checked_record r = Return r' →
  email r.(record_email) = Return r'.(record_email) ∧
  r'.(record_memberships) = r.(record_memberships) ∧ record_id r' = record_id r.
Proof.
  unfold checked_record. rewrite bind_return. intros (e & He & H).
  rewrite bind_return in H. destruct H as (l & Hl & [= <-]). simpl. split; [done|].
  apply mapM_return_Forall2 in Hl. split.
  - induction Hl as [|em em' ? ? Hem _ IH]; [done|].
    apply emailMailbox_return in Hem as [_ ->]. rewrite IH. by destruct em.
  - unfold record_id. simpl. by eapply email_return_id.
Qed.

Lemma checked_records rs rs' :
  mapM checked_record rs = Return rs' →
  map record_id rs' = map record_id rs ∧
  ∀ r, r ∈ rs → ∃ r', r' ∈ rs' ∧ record_id r' = record_id r ∧
    email r.(record_email) = Return r'.(record_email) ∧
    r'.(record_memberships) = r.(record_memberships).
Proof.
  intros H%mapM_return_Forall2. induction H as [|r r' rs rs' Hr _ [IHids IH]].
  - split; [done|]. intros r Hr. by apply not_elem_of_nil in Hr.
  - apply checked_record_return in Hr as (He & Hm & Hid). split; [simpl; congruence|].
    intros x [->|Hx]%elem_of_cons; [exists r'; by split_and!; [left|..]|].
    destruct (IH x Hx) as (x' & ? & ?). exists x'. by split; [right|].
Qed.

(** What an accepted email commit leaves: every record brought is stored, what it
    removes and does not bring is gone, the rest is as before. *)
Record email_commit_effect (c : CollectionCommit EmailSyncRecord ScopedEmailId) (st st' : Store) : Prop := {
  committed_records : ∀ r, r ∈ collection_records c →
    (∃ e, email r.(record_email) = Return e ∧ st_email st' (record_id r) = Some e) ∧
    st_memberships st' (record_id r) = Some r.(record_memberships);
  committed_removals : ∀ id, id ∉ map record_id (collection_records c) →
    commit_removes c (collection_next c).(cursor_accountKey) id = true →
    st_email st' id = None ∧ st_memberships st' id = None;
  committed_rest : ∀ id, id ∉ map record_id (collection_records c) →
    commit_removes c (collection_next c).(cursor_accountKey) id = false →
    st_email st' id = st_email st id ∧ st_memberships st' id = st_memberships st id;
  committed_cursor : st_cursor st' ((collection_next c).(cursor_accountKey), data_email) =
    Some (collection_next c);
}.

Lemma commit_keys rs : (keyed email_id (map record_email rs)).*1 = map record_id rs.
Proof. by rewrite keyed_keys, map_map. Qed.

Lemma membership_keys rs : (map (λ r, (record_id r, r.(record_memberships))) rs).*1 = map record_id rs.
Proof. induction rs as [|r rs IH]; csimpl; [done|]. by rewrite IH. Qed.

Lemma equiv_lookups (st st' : Store) :
  st ≡ st' → (∀ k, st_email st k = st_email st' k) ∧
    (∀ k, st_memberships st k = st_memberships st' k) ∧ (∀ k, st_cursor st k = st_cursor st' k) ∧
    (∀ k, st_mutation st k = st_mutation st' k).
Proof. intros H. unfold equiv, store_equiv in H. destruct_and! H. by split_and!. Qed.

Lemma email_commit_effects c st st1 st' batch :
  spec_sync (EmailCommit c) st = Accepted st1 batch → st' ≡ st1 → email_commit_effect c st st'.
Proof.
  intros Hspec (He & Hm & Hcur & _)%equiv_lookups.
  unfold spec_sync in Hspec. apply reject_unless_accepted in Hspec as [Hallowed Hspec].
  apply refuse_or_accepted in Hspec as (rs & Hrs & Hspec).
  destruct Hallowed as (_ & Hkind & _ & (_ & Hnd & _) & _). simpl in Hkind, Hnd.
  destruct (checked_records _ _ Hrs) as [Hids Hrec]. injection Hspec as Hst Hbatch. subst st1. simpl in *.
  split.
  - intros r Hr. destruct (Hrec r Hr) as (r' & Hr' & Hid & Hemail & Hmem). rewrite He, Hm, <- Hid. split.
    + exists (record_email r'). split; [done|]. apply insert_all_entry.
      * by rewrite commit_keys, Hids.
      * unfold keyed. apply list_elem_of_fmap. exists (record_email r'). split; [done|].
        apply list_elem_of_fmap. by exists r'.
    + apply insert_all_entry; [by rewrite membership_keys, Hids|]. rewrite <- Hmem.
      apply list_elem_of_fmap. by exists r'.
  - intros id Hid Hgone. rewrite He, Hm.
    rewrite !insert_all_other by (by rewrite ?commit_keys, ?membership_keys, Hids).
    unfold remove_ids. by rewrite Hgone.
  - intros id Hid Hkept. rewrite He, Hm.
    rewrite !insert_all_other by (by rewrite ?commit_keys, ?membership_keys, Hids).
    unfold remove_ids. by rewrite Hkept.
  - rewrite Hcur. unfold upd. rewrite decide_True; [done|]. by rewrite Hkind.
Qed.

(** ** Optimistic mutations *)

Lemma changed_keywords_elem current change k :
  k ∈ changed_keywords current change ↔
  (k ∈ current ∨ k ∈ change.(keyword_add)) ∧ k ∉ change.(keyword_remove).
Proof.
  unfold changed_keywords. rewrite list_elem_of_In, filter_In, <- list_elem_of_In, set_of_list_elem,
    elem_of_app, negb_true_iff, bool_decide_eq_false. done.
Qed.

Lemma changed_mailboxes_elem current change id :
  id ∈ changed_mailboxes current change ↔
  id ∈ change.(membership_add) ∨ id ∈ current ∧ id ∉ change.(membership_remove).
Proof.
  unfold changed_mailboxes. rewrite fold_set_add_elem, (list_elem_of_In (List.filter _ _)), filter_In,
    <- list_elem_of_In, negb_true_iff, bool_decide_eq_false. done.
Qed.

Lemma keywordSet_elem l k : keywordSet l = Return k → ∀ x, x ∈ k ↔ x ∈ l.
Proof. intros [_ ->]%keywordSet_return x. apply set_of_list_elem. Qed.

(** The target's keywords change as the mutation says, nothing else about it does,
    and the mutation waits in the outbox. *)
Lemma keyword_effects value st st1 st' batch :
  spec_keyword value st = Accepted st1 batch → st' ≡ st1 →
  ∃ target next, st_email st value.(kw_emailId) = Some target ∧
    st_email st' value.(kw_emailId) = Some next ∧
    (∀ k, k ∈ next.(email_keywords) ↔
      (k ∈ target.(email_keywords) ∨ k ∈ value.(kw_change).(keyword_add)) ∧
      k ∉ value.(kw_change).(keyword_remove)) ∧
    with_keywords next [] = with_keywords target [] ∧
    (∀ id, id ≠ value.(kw_emailId) → st_email st' id = st_email st id) ∧
    st_mutation st' (value.(kw_accountKey), value.(kw_mutationId)) = Some (MutKeyword value).
Proof.
  intros Hspec (He & _ & _ & Hmut)%equiv_lookups. unfold spec_keyword in Hspec.
  destruct (st_email st (kw_emailId value)) as [target|] eqn:Htarget; [|done].
  apply reject_unless_accepted in Hspec as [_ Hspec].
  apply refuse_or_accepted in Hspec as (keywords & Hk & Hspec).
  apply refuse_or_accepted in Hspec as (next & Hnext & Hspec).
  injection Hspec as <- <-. simpl in *. exists target, next. split_and!.
  - done.
  - rewrite He. unfold upd. by rewrite decide_True.
  - intros k. rewrite <- changed_keywords_elem, <- (keywordSet_elem _ _ Hk).
    unfold email in Hnext. run_guards Hnext. simpl in *.
    match goal with H : keywordSet keywords = Return _ |- _ => by rewrite (keywordSet_elem _ _ H) end.
  - unfold email in Hnext. run_guards Hnext. unfold with_keywords, snapshotAddressList. simpl.
    f_equal; by repeat case_match.
  - intros id Hid. rewrite He. unfold upd. by rewrite decide_False.
  - rewrite Hmut. unfold upd. by rewrite decide_True.
Qed.

(** The email is then in the mailboxes kept and added, at least one. *)
Lemma membership_effects value st st1 st' batch :
  spec_membership value st = Accepted st1 batch → st' ≡ st1 →
  ∃ next, st_memberships st' value.(mm_emailId) = Some next ∧ next ≠ [] ∧
    (∀ id, id ∈ map em_mailboxId next ↔
      id ∈ value.(mm_change).(membership_add) ∨
      id ∈ map em_mailboxId (default [] (st_memberships st value.(mm_emailId))) ∧
      id ∉ value.(mm_change).(membership_remove)) ∧
    Forall (λ em, em.(em_emailId) = value.(mm_emailId)) next ∧
    (∀ id, id ≠ value.(mm_emailId) → st_memberships st' id = st_memberships st id) ∧
    st_mutation st' (value.(mm_accountKey), value.(mm_mutationId)) = Some (MutMembership value).
Proof.
  intros Hspec (_ & Hm & _ & Hmut)%equiv_lookups. unfold spec_membership in Hspec.
  apply reject_unless_accepted in Hspec as [_ Hspec].
  apply refuse_or_accepted in Hspec as (next & Hnext & Hspec).
  apply reject_unless_accepted in Hspec as [Hne Hspec]. injection Hspec as <- <-. simpl in *.
  unfold memberships_in in Hnext. case_decide; [|done]. injection Hnext as <-.
  exists (map (mkEmailMailbox value.(mm_emailId)) (changed_mailboxes
    (map em_mailboxId (default [] (st_memberships st value.(mm_emailId)))) value.(mm_change))).
  split_and!.
  - rewrite Hm. unfold upd. by rewrite decide_True.
  - done.
  - intros id. rewrite map_map. simpl. rewrite map_id. apply changed_mailboxes_elem.
  - apply Forall_map, Forall_forall. done.
  - intros id Hid. rewrite Hm. unfold upd. by rewrite decide_False.
  - rewrite Hmut. unfold upd. by rewrite decide_True.
Qed.

(** ** Competing swaps *)

Lemma store_edge_irrefl l : ¬ store_edge l l.
Proof. inversion 1. Qed.

(** A swap that took place leaves a mutation that the old value no longer matches. *)
Lemma second_swap_rejected st expected a b st1 batch st' :
  spec_replace expected a st = Accepted st1 batch → st' ≡ st1 → spec_replace expected b st' = Rejected.
Proof.
  unfold spec_replace at 1. intros Hspec (_ & _ & _ & Hmut)%equiv_lookups.
  destruct (st_mutation st _) as [current|]; [|done].
  apply reject_unless_accepted in Hspec as [(_ & _ & Hrec & Hedge) Hspec].
  injection Hspec as <- <-. simpl in Hmut. unfold spec_replace. rewrite Hmut.
  destruct (same_record_fields _ _ Hrec) as (_ & -> & -> & _). unfold upd. rewrite decide_True by done.
  unfold reject_unless. rewrite decide_False; [done|]. intros ([_ Hl] & _). rewrite Hl in Hedge.
  by apply store_edge_irrefl in Hedge.
Qed.

(** ** Swaps along Domain edges succeed *)

Lemma edge_counted m l : lifecycle_edge (mutation_lifecycle m) l → counted m.
Proof. unfold counted. rewrite attemptCount_lifecycle. by inversion 1. Qed.

Lemma domain_step_swappable m m' : domain_step m m' → swappable m m m'.
Proof.
  intros Hstep. destruct (domain_step_edge m m' Hstep) as [Hp He]. unfold swappable. split_and!.
  - done.
  - by eapply edge_counted.
  - by apply same_payload_record.
  - by apply lifecycle_edge_store.
Qed.

Lemma domain_step_key m m' :
  domain_step m m' → mutation_accountKey m = mutation_accountKey m' ∧ mutation_id m = mutation_id m'.
Proof. intros [Hp _]%domain_step_edge. by apply same_payload_fields in Hp as (_ & ? & ? & _). Qed.

Lemma same_payload_sets m m' : same_payload m m' → mutation_sets_wf m → mutation_sets_wf m'.
Proof. by intros []. Qed.

Lemma domain_step_sets m m' : domain_step m m' → mutation_sets_wf m → mutation_sets_wf m'.
Proof. intros Hstep. eapply same_payload_sets, domain_step_edge, Hstep. Qed.

Section engine.
Context {W : Type} `{!LocalEngine W}.

Definition stored (w : W) (m : PendingMutation) : Prop :=
  st_mutation (engine_store w) (mutation_accountKey m, mutation_id m) = Some m.

Lemma engine_swap w m m' :
  engine_ok w → stored w m → mutation_sets_wf m → domain_step m m' →
  ∃ w', engine_answer (Write (OpReplacePendingMutationIfCurrent m m')) w = (Return (PortOk tt), w') ∧
    engine_ok w' ∧ stored w' m' ∧
    ∀ k, k ≠ (mutation_accountKey m, mutation_id m) →
      st_mutation (engine_store w') k = st_mutation (engine_store w) k.
Proof.
  intros Hok Hm Hsets Hstep. set (op := OpReplacePendingMutationIfCurrent m m').
  assert (op_wf op) as Hop by (split; [done | by eapply domain_step_sets]).
  assert (spec op (engine_store w) = Accepted (put_in_store m' (engine_store w))
    (mkBatch (PendingMutationsChanged (mutation_accountKey m)) [])) as Hspec.
  { simpl. unfold spec_replace. unfold stored in Hm. rewrite Hm. unfold reject_unless.
    by rewrite decide_True by (by apply domain_step_swappable). }
  pose proof (engine_answers _ (Write op) w Hok Hop) as Hr. simpl in Hr. simpl in Hspec. rewrite Hspec in Hr.
  pose proof (engine_writes op w Hok Hop) as Hw. unfold performed in Hw. simpl in Hw. rewrite Hspec in Hw.
  apply equiv_lookups in Hw as (_ & _ & _ & Hw).
  exists (engine_answer (Write op) w).2. split_and!.
  - rewrite <- Hr. by destruct (engine_answer (Write op) w).
  - by apply engine_ok_kept.
  - unfold stored. rewrite Hw. simpl. unfold upd. by rewrite decide_True.
  - intros k Hk. rewrite Hw. simpl. unfold upd. apply decide_False.
    destruct (domain_step_key m m' Hstep) as [<- <-]. congruence.
Qed.
End engine.
