(* ===== verification/ChangeHub.v ===== *)
(** * Change notifications: adapters/memory/memory-local-change-source.ts

    A listener is client code: calling it may use the hub again (subscribe,
    unsubscribe, publish, clear) and may throw.  [call] is that code, with the
    hub it leaves and whether it threw. *)

From S2P Require Import Prelude.
From S2P Require Import JsNumber.
From S2P Require Import JsCollections.
From S2P Require Import DomainIds.
From S2P Require Import Ports.
Open Scope list_scope.

Section hub.
(** The listeners, and whatever they share. *)
Context {Listener Client : Type}.

Record MemoryChangeHub : Type := mkHub {
  listeners : jsmap nat Listener;
  nextListenerId : nat;
}.

Definition new_MemoryChangeHub : MemoryChangeHub := {| listeners := map_new; nextListenerId := 0 |}.

(** [subscribe]: the id stands for the returned closure, which deletes it.  Ids are
    natural numbers: a page makes fewer than 2^53 subscriptions. *)
Definition hub_subscribe (listener : Listener) (h : MemoryChangeHub) : nat * MemoryChangeHub :=
  (h.(nextListenerId),
   {| listeners := map_set h.(nextListenerId) listener h.(listeners);
      nextListenerId := S h.(nextListenerId) |}).

Definition hub_unsubscribe (id : nat) (h : MemoryChangeHub) : MemoryChangeHub :=
  {| listeners := map_delete id h.(listeners); nextListenerId := h.(nextListenerId) |}.

Definition hub_clear (h : MemoryChangeHub) : MemoryChangeHub :=
  {| listeners := map_new; nextListenerId := h.(nextListenerId) |}.

Context (call : Listener → LocalChangeBatch → MemoryChangeHub * Client → (MemoryChangeHub * Client) * bool).

(** The loop over the snapshot; [try] and [catch] drop what a listener throws. *)
Fixpoint publish_loop (snapshot : list Listener) (batch : LocalChangeBatch)
    (s : MemoryChangeHub * Client) : MemoryChangeHub * Client :=
  match snapshot with
  | [] => s
  | listener :: rest => publish_loop rest batch (call listener batch s).1
  end.

Definition hub_publish (first : LocalChangeHint) (rest : list LocalChangeHint)
    (s : MemoryChangeHub * Client) : MemoryChangeHub * Client :=
  publish_loop (map_values s.1.(listeners)) (mkBatch first rest) s.

(** ** [MemoryLocalChangeSource] *)

(** A subscription: the hub's closure and the [active] flag. *)
Record Subscription : Type := mkSubscription { sub_id : nat; sub_active : bool }.

Definition source_subscribe (listener : Listener) (h : MemoryChangeHub) : Subscription * MemoryChangeHub :=
  let '(id, h) := hub_subscribe listener h in ({| sub_id := id; sub_active := true |}, h).

Definition unsubscribe (s : Subscription) (h : MemoryChangeHub) : Subscription * MemoryChangeHub :=
  if s.(sub_active) then ({| sub_id := s.(sub_id); sub_active := false |}, hub_unsubscribe s.(sub_id) h)
  else (s, h).

(** ** Facts *)

(** Ids are handed out in order and never reused. *)
Definition hub_wf (h : MemoryChangeHub) : Prop :=
  map_wf h.(listeners) ∧ ∀ id l, map_get id h.(listeners) = Some l → (id < h.(nextListenerId))%nat.

Lemma hub_wf_new : hub_wf new_MemoryChangeHub.
Proof. split; [apply map_wf_new | done]. Qed.

Lemma hub_subscribe_wf l h : hub_wf h → hub_wf (hub_subscribe l h).2.
Proof.
  intros [Hm Hid]. split; [by apply map_wf_set|]. intros id l'. simpl. rewrite map_get_set.
  case_decide; [intros; subst; simpl; lia|]. intros Hl%Hid. simpl. lia.
Qed.

Lemma hub_unsubscribe_wf id h : hub_wf h → hub_wf (hub_unsubscribe id h).
Proof.
  intros [Hm Hid]. split; [by apply map_wf_delete|]. intros id' l'. simpl.
  rewrite map_get_delete by done. case_decide; [done|]. apply Hid.
Qed.

Lemma hub_clear_wf h : hub_wf h → hub_wf (hub_clear h).
Proof. intros _. split; [apply map_wf_new | done]. Qed.

(** The hub's operations, in any order. *)
Inductive hub_op : Type :=
| HubSubscribe (l : Listener)
| HubUnsubscribe (id : nat)
| HubClear.

Definition hub_step (op : hub_op) (h : MemoryChangeHub) : MemoryChangeHub :=
  match op with
  | HubSubscribe l => (hub_subscribe l h).2
  | HubUnsubscribe id => hub_unsubscribe id h
  | HubClear => hub_clear h
  end.

Definition hub_steps (ops : list hub_op) (h : MemoryChangeHub) : MemoryChangeHub :=
  fold_left (λ h op, hub_step op h) ops h.

Lemma hub_steps_wf ops h : hub_wf h → hub_wf (hub_steps ops h).
Proof.
  revert h. induction ops as [|op ops IH]; intros h Hh; [done|]. apply IH.
  destruct op; [by apply hub_subscribe_wf | by apply hub_unsubscribe_wf | by apply hub_clear_wf].
Qed.

Lemma hub_steps_next ops h : (h.(nextListenerId) ≤ (hub_steps ops h).(nextListenerId))%nat.
Proof.
  revert h. induction ops as [|op ops IH]; intros h; simpl; [done|].
  etransitivity; [|apply IH]. destruct op; simpl; lia.
Qed.

(** An id once unsubscribed stays so, whatever happens next. *)
Lemma hub_steps_absent ops h id :
  hub_wf h → (id < h.(nextListenerId))%nat → map_get id h.(listeners) = None →
  map_get id (hub_steps ops h).(listeners) = None.
Proof.
  revert h. induction ops as [|op ops IH]; intros h Hh Hlt Hid; [done|]. apply IH.
  - destruct op; [by apply hub_subscribe_wf | by apply hub_unsubscribe_wf | by apply hub_clear_wf].
  - destruct op; simpl; lia.
  - destruct op as [l|id'|]; simpl; [|rewrite map_get_delete by apply Hh; by case_decide | done].
    rewrite map_get_set. case_decide; [lia|done].
Qed.

(** Calls made by one [publish], for listeners that do not publish themselves. *)
Section deliveries.
Context (log : Client → list (Listener * LocalChangeBatch)).
Context (call_logs : ∀ l batch s,
  log (call l batch s).1.2 = log s.2 ++ [(l, batch)]).

Lemma publish_loop_log snapshot batch s :
  log (publish_loop snapshot batch s).2 = log s.2 ++ map (λ l, (l, batch)) snapshot.
Proof.
  revert s. induction snapshot as [|l snapshot IH]; intros s; simpl; [by rewrite app_nil_r|].
  rewrite IH, call_logs, <- app_assoc. done.
Qed.

Lemma publish_log first rest s :
  log (hub_publish first rest s).2 =
    log s.2 ++ map (λ l, (l, mkBatch first rest)) (map_values s.1.(listeners)).
Proof. apply publish_loop_log. Qed.
End deliveries.
End hub.
Arguments MemoryChangeHub : clear implicits.
Arguments hub_op : clear implicits.
