(* ===== verification/JsDate.v ===== *)
(** * JavaScript dates: [Date.parse] and [Date.prototype.toISOString]

    Time values are milliseconds since 1970-01-01 UTC.  [toISOString] is
    ECMAScript's; [date_parse] reads exactly the strings [toISOString] writes and
    leaves every other string, whose reading depends on the implementation and on
    the local time zone, to a parameter.  Both are inverse to each other, and for
    the years 0 to 9999 the order of the strings is the order of the times. *)

From S2P Require Import Prelude.
From S2P Require Import JsNumber.
From S2P Require Import JsString.
From S2P Require Import Errors.
Open Scope string_scope.
Open Scope Z_scope.

(** ** Days and years (ECMAScript, Time Values and Time Range) *)

Definition msPerDay : Z := 86400000.
Definition MAX_TIME : Z := 8640000000000000.

Definition day_from_year (y : Z) : Z :=
  365 * (y - 1970) + (y - 1969) / 4 - (y - 1901) / 100 + (y - 1601) / 400.

Definition year_from_day (d : Z) : Z :=
  let y := d * 400 / 146097 + 1970 in
  if day_from_year (y + 1) <=? d then y + 1
  else if d <? day_from_year y then y - 1
  else y.

Definition leap (y : Z) : bool :=
  (y mod 4 =? 0) && (negb (y mod 100 =? 0) || (y mod 400 =? 0)).

(** The first day of each month, as a day of the year; the 13th is the year's length. *)
Definition month_starts (lp : bool) : list Z :=
  if lp then [0; 31; 60; 91; 121; 152; 182; 213; 244; 274; 305; 335; 366]
  else [0; 31; 59; 90; 120; 151; 181; 212; 243; 273; 304; 334; 365].
Definition month_start (lp : bool) (m : Z) : Z := nth (Z.to_nat (m - 1)) (month_starts lp) 0.

(** The month (1 to 12) of a day of the year. *)
Definition month_from_day (lp : bool) (d : Z) : Z :=
  Z.of_nat (length (List.filter (λ s, s <=? d) (take 12 (month_starts lp)))).

Record fields : Type := mkFields {
  f_year : Z; f_month : Z; f_day : Z; f_hour : Z; f_minute : Z; f_second : Z; f_ms : Z;
}.

Definition fields_of_time (t : Z) : fields :=
  let d := t / msPerDay in
  let ms := t mod msPerDay in
  let y := year_from_day d in
  let yd := d - day_from_year y in
  let m := month_from_day (leap y) yd in
  {| f_year := y; f_month := m; f_day := yd - month_start (leap y) m + 1;
     f_hour := ms / 3600000; f_minute := ms / 60000 mod 60; f_second := ms / 1000 mod 60;
     f_ms := ms mod 1000 |}.

Definition time_of_fields (f : fields) : Z :=
  (day_from_year f.(f_year) + month_start (leap f.(f_year)) f.(f_month) + f.(f_day) - 1) * msPerDay +
  f.(f_hour) * 3600000 + f.(f_minute) * 60000 + f.(f_second) * 1000 + f.(f_ms).

(** ** Digits *)

Definition digit (d : Z) : ascii := ascii_of_nat (48 + Z.to_nat d).
Definition digit_value (c : ascii) : option Z :=
  let n := Z.of_nat (nat_of_ascii c) in
  if (48 <=? n) && (n <=? 57) then Some (n - 48) else None.

(** [n] in [k] decimal digits. *)
Fixpoint digits (k : nat) (n : Z) : string :=
  match k with
  | O => ""
  | S k => String (digit (n / 10 ^ Z.of_nat k)) (digits k (n mod 10 ^ Z.of_nat k))
  end.

(** Read [k] digits, most significant first. *)
Fixpoint read_digits (k : nat) (acc : Z) (s : string) : option (Z * string) :=
  match k with
  | O => Some (acc, s)
  | S k =>
      match s with
      | String c s => match digit_value c with
                      | Some d => read_digits k (acc * 10 + d) s
                      | None => None
                      end
      | EmptyString => None
      end
  end.

Definition expect (c : ascii) (s : string) : option string :=
  match s with
  | String d s => if bool_decide (d = c) then Some s else None
  | EmptyString => None
  end.

(** ** [toISOString] *)

Definition year_string (y : Z) : string :=
  if (0 <=? y) && (y <=? 9999) then digits 4 y
  else if y <? 0 then "-" +:+ digits 6 (- y) else "+" +:+ digits 6 y.

(** [MM-DDTHH:mm:ss.sssZ] *)
Definition date_tail (f : fields) : string :=
  "-" +:+ digits 2 f.(f_month) +:+ "-" +:+ digits 2 f.(f_day) +:+
  "T" +:+ digits 2 f.(f_hour) +:+ ":" +:+ digits 2 f.(f_minute) +:+
  ":" +:+ digits 2 f.(f_second) +:+ "." +:+ digits 3 f.(f_ms) +:+ "Z".

Definition iso_string (t : Z) : string :=
  let f := fields_of_time t in year_string f.(f_year) +:+ date_tail f.

(** [new Date(n).toISOString()] *)
Definition date_toISOString (n : number) : outcome exn string :=
  match n with
  | Int t => if Z.abs t <=? MAX_TIME then Return (iso_string t) else Throw (RangeError "Invalid time value")
  | _ => Throw (RangeError "Invalid time value")
  end.

(** ** [Date.parse] *)

Definition read_year (s : string) : option (Z * string) :=
  match s with
  | String c s' =>
      if bool_decide (c = "-"%char) then
        match read_digits 6 0 s' with Some (y, r) => Some (- y, r) | None => None end
      else if bool_decide (c = "+"%char) then read_digits 6 0 s'
      else read_digits 4 0 s
  | EmptyString => None
  end.

Definition read_fields (s : string) : option fields :=
  '(y, s) ← read_year s;
  s ← expect "-" s; '(mo, s) ← read_digits 2 0 s;
  s ← expect "-" s; '(d, s) ← read_digits 2 0 s;
  s ← expect "T" s; '(h, s) ← read_digits 2 0 s;
  s ← expect ":" s; '(mi, s) ← read_digits 2 0 s;
  s ← expect ":" s; '(se, s) ← read_digits 2 0 s;
  s ← expect "." s; '(ms, s) ← read_digits 3 0 s;
  s ← expect "Z" s;
  if is_empty s then Some (mkFields y mo d h mi se ms) else None.

(** The canonical strings: what [toISOString] writes for some time in range. *)
Definition parse_iso (s : string) : option Z :=
  match read_fields s with
  | Some f =>
      let t := time_of_fields f in
      if (Z.abs t <=? MAX_TIME) && bool_decide (iso_string t = s) then Some t else None
  | None => None
  end.

(** [Date.parse(s)]; [other] reads the strings that are not canonical. *)
Definition date_parse (other : string → number) (s : string) : number :=
  match parse_iso s with Some t => Int t | None => other s end.

(** ** The calendar round trip *)

Lemma year_from_day_spec d :
  day_from_year (year_from_day d) <= d < day_from_year (year_from_day d + 1).
Proof.
  unfold year_from_day.
  set (y := d * 400 / 146097 + 1970).
  assert (day_from_year (y - 1) <= d < day_from_year (y + 2)) as [H1 H2].
  { unfold y, day_from_year. Z.to_euclidean_division_equations. lia. }
  destruct (Z.leb_spec (day_from_year (y + 1)) d); [by replace (y + 1 + 1) with (y + 2) by lia|].
  destruct (Z.ltb_spec d (day_from_year y)); [by replace (y - 1 + 1) with y by lia|]. lia.
Qed.

Lemma year_length y : day_from_year (y + 1) - day_from_year y = if leap y then 366 else 365.
Proof.
  unfold day_from_year, leap.
  destruct (Z.eqb_spec (y mod 4) 0), (Z.eqb_spec (y mod 100) 0), (Z.eqb_spec (y mod 400) 0); simpl;
    Z.to_euclidean_division_equations; lia.
Qed.

Lemma month_start_table (lp : bool) (d : Z) :
  0 <= d < (if lp then 366 else 365) →
  let m := month_from_day lp d in
  1 <= m <= 12 ∧ month_start lp m <= d < month_start lp (m + 1) ∧
  month_start lp (m + 1) - month_start lp m <= 31.
Proof.
  intros Hd. set (good := λ (lp : bool) (d : Z), let m := month_from_day lp d in
    (1 <=? m) && (m <=? 12) && (month_start lp m <=? d) && (d <? month_start lp (m + 1)) &&
    (month_start lp (m + 1) - month_start lp m <=? 31)).
  assert (good lp d = true) as Hc.
  { assert (forallb (λ d, good true d) (seqZ 0 366) = true) as Ht by by_computation.
    assert (forallb (λ d, good false d) (seqZ 0 365) = true) as Hf by by_computation.
    rewrite forallb_true_forall in Ht, Hf.
    destruct lp; [apply Ht | apply Hf]; apply elem_of_seqZ; lia. }
  unfold good in Hc. rewrite !andb_true_iff, !Z.leb_le, Z.ltb_lt in Hc. simpl. lia.
Qed.

Record fields_ok (f : fields) : Prop := {
  ok_month : 1 <= f.(f_month) <= 12;
  ok_day : 1 <= f.(f_day) <= 31;
  ok_hour : 0 <= f.(f_hour) <= 23;
  ok_minute : 0 <= f.(f_minute) <= 59;
  ok_second : 0 <= f.(f_second) <= 59;
  ok_ms : 0 <= f.(f_ms) <= 999;
}.

Lemma day_of_year_range t :
  let y := year_from_day (t / msPerDay) in
  0 <= t / msPerDay - day_from_year y < if leap y then 366 else 365.
Proof.
  simpl. pose proof (year_from_day_spec (t / msPerDay)).
  pose proof (year_length (year_from_day (t / msPerDay))). lia.
Qed.

Lemma fields_of_time_ok t : fields_ok (fields_of_time t).
Proof.
  pose proof (month_start_table _ _ (day_of_year_range t)) as (Hm & Hd & Hl).
  unfold fields_of_time. constructor; simpl; [lia | lia |..];
    unfold msPerDay; Z.to_euclidean_division_equations; lia.
Qed.

Lemma clock_split r :
  0 <= r < msPerDay →
  r / 3600000 * 3600000 + r / 60000 mod 60 * 60000 + r / 1000 mod 60 * 1000 + r mod 1000 = r.
Proof. unfold msPerDay. intros H. Z.to_euclidean_division_equations. lia. Qed.

(** Splitting a time into fields loses nothing. *)
Lemma time_of_fields_of_time t : time_of_fields (fields_of_time t) = t.
Proof.
  unfold time_of_fields, fields_of_time. simpl.
  pose proof (clock_split (t mod msPerDay) (Z.mod_pos_bound t msPerDay eq_refl)) as Hclock.
  pose proof (Z.div_mod t msPerDay ltac:(done)) as Hdm.
  set (m := month_from_day _ _). set (q := t / msPerDay) in *. set (r := t mod msPerDay) in *. lia.
Qed.

Lemma year_range t : Z.abs t <= MAX_TIME → -271822 <= (fields_of_time t).(f_year) <= 275761.
Proof.
  unfold MAX_TIME. intros Ht. simpl. pose proof (year_from_day_spec (t / msPerDay)) as [H1 H2].
  assert (-100000000 <= t / msPerDay <= 100000000) as Hd
    by (unfold msPerDay; Z.to_euclidean_division_equations; lia).
  unfold day_from_year in *. Z.to_euclidean_division_equations. lia.
Qed.

(** ** Digits *)

Lemma digit_value_digit d : 0 <= d <= 9 → digit_value (digit d) = Some d.
Proof.
  intros Hd. unfold digit_value, digit. rewrite nat_ascii_embedding by lia.
  rewrite Nat2Z.inj_add, Z2Nat.id by lia. change (Z.of_nat 48) with 48.
  destruct (Z.leb_spec 48 (48 + d)), (Z.leb_spec (48 + d) 57); simpl; try lia. f_equal. lia.
Qed.

Lemma pow10_pos k : 0 < 10 ^ Z.of_nat k.
Proof. apply Z.pow_pos_nonneg; lia. Qed.

Lemma pow10_S k : 10 ^ Z.of_nat (S k) = 10 * 10 ^ Z.of_nat k.
Proof. rewrite Nat2Z.inj_succ, Z.pow_succ_r by lia. done. Qed.

Lemma leading_digit k n :
  0 <= n < 10 ^ Z.of_nat (S k) →
  0 <= n / 10 ^ Z.of_nat k <= 9 ∧ 0 <= n mod 10 ^ Z.of_nat k < 10 ^ Z.of_nat k.
Proof.
  rewrite pow10_S. pose proof (pow10_pos k). intros Hn. split; [|by apply Z.mod_pos_bound].
  split; [by apply Z.div_pos; lia|].
  enough (n / 10 ^ Z.of_nat k < 10) by lia. apply Z.div_lt_upper_bound; lia.
Qed.

Lemma read_digits_digits k acc n s :
  0 <= n < 10 ^ Z.of_nat k →
  read_digits k acc (digits k n +:+ s) = Some (acc * 10 ^ Z.of_nat k + n, s).
Proof.
  revert acc n. induction k as [|k IH]; intros acc n Hn.
  - cbn [read_digits digits]. rewrite string_app_nil. do 2 f_equal.
    change (10 ^ Z.of_nat 0) with 1 in *. clear -Hn. lia.
  - pose proof (leading_digit k n Hn) as [Hd Hr]. cbn [digits]. rewrite string_app_cons.
    cbn [read_digits]. rewrite digit_value_digit by done. rewrite IH by done. do 2 f_equal.
    rewrite pow10_S. pose proof (Z.div_mod n (10 ^ Z.of_nat k) ltac:(pose proof (pow10_pos k); lia)). lia.
Qed.

Lemma length_digits k n : String.length (digits k n) = k.
Proof. revert n. induction k as [|k IH]; intros n; simpl; [done|]. by rewrite IH. Qed.

(** Fixed-width digits are ordered as numbers. *)
Lemma digit_order a b : 0 <= a <= 9 → 0 <= b <= 9 → Ascii.compare (digit a) (digit b) = (a ?= b).
Proof.
  intros Ha Hb.
  assert (forallb (λ a, forallb (λ b, bool_decide (Ascii.compare (digit a) (digit b) = (a ?= b)))
    (seqZ 0 10)) (seqZ 0 10) = true) as Hall by by_computation.
  rewrite forallb_true_forall in Hall. specialize (Hall a). rewrite forallb_true_forall in Hall.
  eapply bool_decide_eq_true, Hall; apply elem_of_seqZ; lia.
Qed.

(** ** The string round trip *)

Definition year_printable (y : Z) : Prop := -999999 <= y <= 999999.

Lemma digit_not_sign d : 0 <= d <= 9 → digit d ≠ "-"%char ∧ digit d ≠ "+"%char.
Proof.
  intros Hd. assert (forallb (λ d, negb (bool_decide (digit d = "-"%char)) &&
    negb (bool_decide (digit d = "+"%char))) (seqZ 0 10) = true) as Hall by by_computation.
  rewrite forallb_true_forall in Hall. specialize (Hall d). rewrite elem_of_seqZ in Hall.
  specialize (Hall ltac:(lia)). by bool_hyps.
Qed.

Lemma read_year_string y s :
  year_printable y → read_year (year_string y +:+ s) = Some (y, s).
Proof.
  intros Hy. unfold year_string.
  destruct (Z.leb_spec 0 y), (Z.leb_spec y 9999), (Z.ltb_spec y 0); cbn [andb]; try lia.
  - change (digits 4 y) with (String (digit (y / 1000)) (digits 3 (y mod 1000))).
    rewrite string_app_cons. unfold read_year.
    assert (0 <= y / 1000 <= 9) as Hd by (Z.to_euclidean_division_equations; lia).
    destruct (digit_not_sign _ Hd) as [Hminus Hplus]. rewrite !bool_decide_false by done.
    rewrite <- string_app_cons.
    change (String (digit (y / 1000)) (digits 3 (y mod 1000))) with (digits 4 y).
    rewrite read_digits_digits; [f_equal; f_equal; lia | simpl; lia].
  - rewrite string_app_assoc, string_app_cons, string_app_nil. unfold read_year, year_printable in *.
    rewrite bool_decide_false by done. rewrite bool_decide_true by done.
    rewrite read_digits_digits; [f_equal; f_equal; lia | simpl; lia].
  - rewrite string_app_assoc, string_app_cons, string_app_nil. unfold read_year, year_printable in *.
    rewrite bool_decide_true by done.
    rewrite read_digits_digits; [f_equal; f_equal; lia | simpl; lia].
Qed.

Lemma expect_char (c : ascii) s : expect c (String c EmptyString +:+ s) = Some s.
Proof. rewrite string_app_cons, string_app_nil. simpl. by rewrite bool_decide_true. Qed.

Lemma expect_bind {A} (c : ascii) s (k : string → option A) :
  (s ← expect c (String c EmptyString +:+ s); k s) = k s.
Proof. by rewrite expect_char. Qed.

Lemma read_digits_bind {A} k n s (f : Z * string → option A) :
  0 <= n < 10 ^ Z.of_nat k → (r ← read_digits k 0 (digits k n +:+ s); f r) = f (n, s).
Proof. intros Hn. by rewrite read_digits_digits. Qed.

Lemma read_fields_written f :
  year_printable f.(f_year) → fields_ok f → read_fields (year_string f.(f_year) +:+ date_tail f) = Some f.
Proof.
  intros Hy [Hmo Hd Hh Hmi Hs Hms]. unfold read_fields, date_tail. rewrite read_year_string by done.
  assert (10 ^ Z.of_nat 2 = 100 ∧ 10 ^ Z.of_nat 3 = 1000) as [H2 H3] by done.
  cbn [mbind option_bind].
  repeat first [rewrite expect_bind | rewrite read_digits_bind by (rewrite ?H2, ?H3; lia)].
  by destruct f.
Qed.

Lemma parse_iso_string t : Z.abs t <= MAX_TIME → parse_iso (iso_string t) = Some t.
Proof.
  intros Ht. unfold parse_iso. unfold iso_string at 1.
  rewrite read_fields_written, time_of_fields_of_time.
  - cbv zeta. rewrite bool_decide_true by done. by rewrite (proj2 (Z.leb_le _ _) Ht).
  - pose proof (year_range t Ht). unfold year_printable. lia.
  - apply fields_of_time_ok.
Qed.

Lemma parse_iso_spec s t : parse_iso s = Some t ↔ Z.abs t <= MAX_TIME ∧ s = iso_string t.
Proof.
  split; [|intros [Ht ->]; by apply parse_iso_string].
  unfold parse_iso. destruct (read_fields s) as [f|]; [|done].
  cbv zeta. destruct (Z.leb_spec (Z.abs (time_of_fields f)) MAX_TIME); cbn [andb]; [|done].
  case_bool_decide as Hs; [|done]. by intros [= <-].
Qed.

(** ** The order of canonical strings is the order of times *)

(** Compare by [c], then by [d]. *)
Definition thenc (c d : comparison) : comparison := match c with Eq => d | _ => c end.

Lemma compare_app (a b x y : string) :
  String.length a = String.length b →
  String.compare (a +:+ x) (b +:+ y) = thenc (String.compare a b) (String.compare x y).
Proof.
  revert b. induction a as [|c a IH]; intros [|d b]; try done.
  rewrite !string_app_cons. simpl. intros [= Hlen]. destruct (Ascii.compare c d); [|done..].
  by apply IH.
Qed.

(** Values in consecutive intervals [[f a, f (a + 1))] are ordered by interval first. *)
Lemma interval_compare (f : Z → Z) a b x y :
  (∀ a b, a < b → f (a + 1) <= f b) →
  f a <= x < f (a + 1) → f b <= y < f (b + 1) →
  (x ?= y) = thenc (a ?= b) (x - f a ?= y - f b).
Proof.
  intros Hf Hx Hy. destruct (Z.compare_spec a b) as [->|Hab|Hab]; simpl.
  - destruct (Z.compare_spec x y), (Z.compare_spec (x - f b) (y - f b)); try done; lia.
  - specialize (Hf a b Hab). apply Z.compare_lt_iff. lia.
  - specialize (Hf b a Hab). apply Z.compare_gt_iff. lia.
Qed.

Lemma digits_order k a b :
  0 <= a < 10 ^ Z.of_nat k → 0 <= b < 10 ^ Z.of_nat k →
  String.compare (digits k a) (digits k b) = (a ?= b).
Proof.
  revert a b. induction k as [|k IH]; intros a b Ha Hb.
  - change (10 ^ Z.of_nat 0) with 1 in *. assert (a = b) as -> by (clear -Ha Hb; lia).
    by rewrite Z.compare_refl.
  - destruct (leading_digit k a Ha) as [Hda Hra], (leading_digit k b Hb) as [Hdb Hrb].
    cbn [digits String.compare]. rewrite digit_order, IH by done.
    pose proof (pow10_pos k) as Hp. set (p := 10 ^ Z.of_nat k) in *. clearbody p.
    rewrite (interval_compare (λ q, q * p) (a / p) (b / p) a b);
      [|intros; nia | pose proof (Z.div_mod a p ltac:(lia)); lia
       | pose proof (Z.div_mod b p ltac:(lia)); lia].
    rewrite !Zmod_eq_full by lia. by destruct (a / p ?= b / p).
Qed.

Lemma day_from_year_mono a b : a < b → day_from_year (a + 1) <= day_from_year b.
Proof. unfold day_from_year. intros. Z.to_euclidean_division_equations. lia. Qed.

Lemma clock_compare h m s k h' m' s' k' :
  0 <= m <= 59 → 0 <= s <= 59 → 0 <= k <= 999 → 0 <= m' <= 59 → 0 <= s' <= 59 → 0 <= k' <= 999 →
  (h * 3600000 + m * 60000 + s * 1000 + k ?= h' * 3600000 + m' * 60000 + s' * 1000 + k') =
  thenc (h ?= h') (thenc (m ?= m') (thenc (s ?= s') (k ?= k'))).
Proof.
  intros. destruct (Z.compare_spec h h') as [->|?|?]; simpl;
    [| apply Z.compare_lt_iff; lia | apply Z.compare_gt_iff; lia].
  destruct (Z.compare_spec m m') as [->|?|?]; simpl;
    [| apply Z.compare_lt_iff; lia | apply Z.compare_gt_iff; lia].
  destruct (Z.compare_spec s s') as [->|?|?]; simpl;
    [| apply Z.compare_lt_iff; lia | apply Z.compare_gt_iff; lia].
  destruct (Z.compare_spec k k') as [->|?|?]; simpl;
    [apply Z.compare_eq_iff | apply Z.compare_lt_iff | apply Z.compare_gt_iff]; lia.
Qed.

Lemma month_start_mono lp a b :
  1 <= a <= 12 → 1 <= b <= 12 → a < b → month_start lp (a + 1) <= month_start lp b.
Proof.
  intros Ha Hb Hab.
  assert (forallb (λ a, forallb (λ b, negb (a <? b) ||
      (month_start true (a + 1) <=? month_start true b) &&
      (month_start false (a + 1) <=? month_start false b)) (seqZ 1 12)) (seqZ 1 12) = true) as Hall
    by by_computation.
  rewrite forallb_true_forall in Hall. specialize (Hall a). rewrite forallb_true_forall in Hall.
  assert (negb (a <? b) || (month_start true (a + 1) <=? month_start true b) &&
      (month_start false (a + 1) <=? month_start false b) = true) as Hc
    by (apply Hall; apply elem_of_seqZ; lia).
  rewrite (proj2 (Z.ltb_lt a b) Hab) in Hc. cbn [negb orb] in Hc.
  apply andb_true_iff in Hc as [H1 H2]. apply Z.leb_le in H1, H2. by destruct lp.
Qed.

Definition compare_fields (f g : fields) : comparison :=
  thenc (f.(f_year) ?= g.(f_year)) (thenc (f.(f_month) ?= g.(f_month)) (thenc (f.(f_day) ?= g.(f_day))
    (thenc (f.(f_hour) ?= g.(f_hour)) (thenc (f.(f_minute) ?= g.(f_minute))
      (thenc (f.(f_second) ?= g.(f_second)) (f.(f_ms) ?= g.(f_ms))))))).

(** Days of the same year are ordered by month, then by day. *)
Lemma month_compare lp d d' :
  0 <= d < (if lp : bool then 366 else 365) → 0 <= d' < (if lp : bool then 366 else 365) →
  (d ?= d') = thenc (month_from_day lp d ?= month_from_day lp d')
    (d - month_start lp (month_from_day lp d) + 1 ?= d' - month_start lp (month_from_day lp d') + 1).
Proof.
  intros Hd Hd'. destruct (month_start_table lp d Hd) as (Hm & Hs & _).
  destruct (month_start_table lp d' Hd') as (Hm' & Hs' & _).
  set (m := month_from_day lp d) in *. set (m' := month_from_day lp d') in *. clearbody m m'.
  destruct (Z.compare_spec m m') as [->|Hlt|Hgt]; simpl.
  - destruct (Z.compare_spec d d'); symmetry;
      [apply Z.compare_eq_iff | apply Z.compare_lt_iff | apply Z.compare_gt_iff]; lia.
  - pose proof (month_start_mono lp m m' Hm Hm' Hlt). apply Z.compare_lt_iff. lia.
  - pose proof (month_start_mono lp m' m Hm' Hm Hgt). apply Z.compare_gt_iff. lia.
Qed.

Lemma compare_fields_of_time t u : compare_fields (fields_of_time t) (fields_of_time u) = (t ?= u).
Proof.
  assert ((t ?= u) = thenc (t / msPerDay ?= u / msPerDay) (t mod msPerDay ?= u mod msPerDay)) as ->.
  { rewrite (interval_compare (λ d, d * msPerDay) (t / msPerDay) (u / msPerDay)).
    - rewrite !Zmod_eq_full by done. done.
    - unfold msPerDay. lia.
    - unfold msPerDay. Z.to_euclidean_division_equations. lia.
    - unfold msPerDay. Z.to_euclidean_division_equations. lia. }
  rewrite (interval_compare day_from_year _ _ _ _ day_from_year_mono
    (year_from_day_spec (t / msPerDay)) (year_from_day_spec (u / msPerDay))).
  pose proof (fields_of_time_ok t) as [_ _ _ ? ? ?]. pose proof (fields_of_time_ok u) as [_ _ _ ? ? ?].
  unfold compare_fields.
  change (f_year (fields_of_time t)) with (year_from_day (t / msPerDay)).
  change (f_year (fields_of_time u)) with (year_from_day (u / msPerDay)).
  destruct (Z.compare_spec (year_from_day (t / msPerDay)) (year_from_day (u / msPerDay)))
    as [Hy|?|?]; [|done..]. cbn [thenc].
  assert ((t mod msPerDay ?= u mod msPerDay) = thenc (f_hour (fields_of_time t) ?= f_hour (fields_of_time u))
    (thenc (f_minute (fields_of_time t) ?= f_minute (fields_of_time u))
      (thenc (f_second (fields_of_time t) ?= f_second (fields_of_time u))
        (f_ms (fields_of_time t) ?= f_ms (fields_of_time u))))) as ->.
  { rewrite <- (clock_compare (f_hour (fields_of_time t))) by done. cbn [fields_of_time f_hour f_minute f_second f_ms].
    by rewrite !clock_split by (by apply Z.mod_pos_bound). }
  pose proof (day_of_year_range t) as Ht. pose proof (day_of_year_range u) as Hu. cbv zeta in Ht, Hu.
  rewrite <- Hy in Hu.
  assert (f_month (fields_of_time u) = month_from_day (leap (year_from_day (t / msPerDay)))
    (u / msPerDay - day_from_year (year_from_day (t / msPerDay)))) as -> by (by rewrite Hy).
  assert (f_day (fields_of_time u) = u / msPerDay - day_from_year (year_from_day (t / msPerDay)) -
    month_start (leap (year_from_day (t / msPerDay)))
      (month_from_day (leap (year_from_day (t / msPerDay)))
        (u / msPerDay - day_from_year (year_from_day (t / msPerDay)))) + 1) as -> by (by rewrite Hy).
  rewrite <- Hy. rewrite (month_compare (leap (year_from_day (t / msPerDay))) _ _ Ht Hu).
  cbn [fields_of_time f_month f_day].
  by destruct (_ ?= _).
Qed.

(** The year of [t] has four digits. *)
Definition four_digit_year (t : Z) : Prop := 0 <= (fields_of_time t).(f_year) <= 9999.

Lemma compare_char (c : ascii) x y :
  String.compare (String c EmptyString +:+ x) (String c EmptyString +:+ y) = String.compare x y.
Proof.
  rewrite compare_app by done. simpl. unfold Ascii.compare. by rewrite N.compare_refl.
Qed.

Lemma compare_digits k a b x y :
  0 <= a < 10 ^ Z.of_nat k → 0 <= b < 10 ^ Z.of_nat k →
  String.compare (digits k a +:+ x) (digits k b +:+ y) = thenc (a ?= b) (String.compare x y).
Proof. intros. rewrite compare_app by (by rewrite !length_digits). by rewrite digits_order. Qed.

Lemma thenc_Eq c : thenc c Eq = c.
Proof. by destruct c. Qed.

Lemma iso_string_compare t u :
  four_digit_year t → four_digit_year u → String.compare (iso_string t) (iso_string u) = (t ?= u).
Proof.
  unfold four_digit_year. intros Ht Hu. rewrite <- compare_fields_of_time. unfold iso_string. cbv zeta.
  pose proof (fields_of_time_ok t) as [Hmo Hd Hh Hmi Hs Hms].
  pose proof (fields_of_time_ok u) as [Hmo' Hd' Hh' Hmi' Hs' Hms'].
  set (f := fields_of_time t) in *. set (g := fields_of_time u) in *. clearbody f g.
  assert (year_string (f_year f) = digits 4 (f_year f) ∧ year_string (f_year g) = digits 4 (f_year g))
    as [-> ->].
  { unfold year_string. rewrite !(proj2 (Z.leb_le _ _)) by lia. done. }
  assert (10 ^ Z.of_nat 2 = 100 ∧ 10 ^ Z.of_nat 3 = 1000 ∧ 10 ^ Z.of_nat 4 = 10000)
    as (H2 & H3 & H4) by done.
  unfold date_tail, compare_fields.
  repeat first [rewrite compare_char | rewrite compare_digits by (rewrite ?H2, ?H3, ?H4; lia)].
  simpl. by rewrite thenc_Eq.
Qed.

Lemma iso_string_gtb t u :
  four_digit_year t → four_digit_year u → string_gtb (iso_string t) (iso_string u) = (u <? t).
Proof.
  intros Ht Hu. unfold string_gtb, String.ltb, Z.ltb. by rewrite iso_string_compare.
Qed.

Lemma four_digit_range t : -62167219200000 <= t < 253402300800000 → four_digit_year t.
Proof.
  intros Ht. unfold four_digit_year. simpl. pose proof (year_from_day_spec (t / msPerDay)) as [H1 H2].
  assert (-719528 <= t / msPerDay < 2932897) as Hd
    by (unfold msPerDay; Z.to_euclidean_division_equations; lia).
  unfold day_from_year in *. Z.to_euclidean_division_equations. lia.
Qed.

#[global] Opaque iso_string parse_iso.
