(* ===== verification/Remote.v ===== *)
(** * Protocol-neutral remote vocabulary: remote/types, remote/mail.ts,
    remote/reconciliation.ts, remote/submission-message.ts, remote/compat, remote/runtime.ts

    Remote ids are strings; [remote/compat] is the only crossing between them and
    the account-scoped local ids. *)

From S2P Require Import Prelude.
From S2P Require Import JsNumber.
From S2P Require Import JsString.
From S2P Require Import JsCollections.
From S2P Require Import Errors.
From S2P Require Import DomainIds.
From S2P Require Import DomainEmail.
From S2P Require Import SendIntent.
Open Scope string_scope.
Open Scope list_scope.
Open Scope js_scope.

(** ** remote/types/ids.ts *)

Definition RemoteAccountId : Type := string.
Definition RemoteMailboxId : Type := string.
Definition RemoteEmailId : Type := string.
Definition RemoteIdentityId : Type := string.
Definition RemoteThreadId : Type := string.
Definition RemoteBlobId : Type := string.
Definition RemoteSyncState : Type := string.

Definition remoteIdFromString (value name : string) : outcome exn string :=
  throw_if (is_empty value) (TypeError (name +:+ " must not be empty"));; Return value.

Definition remoteAccountIdFromString (value : string) : outcome exn RemoteAccountId :=
  remoteIdFromString value "RemoteAccountId".
Definition remoteMailboxIdFromString (value : string) : outcome exn RemoteMailboxId :=
  remoteIdFromString value "RemoteMailboxId".
Definition remoteEmailIdFromString (value : string) : outcome exn RemoteEmailId :=
  remoteIdFromString value "RemoteEmailId".
Definition remoteIdentityIdFromString (value : string) : outcome exn RemoteIdentityId :=
  remoteIdFromString value "RemoteIdentityId".
Definition remoteThreadIdFromString (value : string) : outcome exn RemoteThreadId :=
  remoteIdFromString value "RemoteThreadId".
Definition remoteBlobIdFromString (value : string) : outcome exn RemoteBlobId :=
  remoteIdFromString value "RemoteBlobId".
Definition remoteSyncStateFromString (value : string) : RemoteSyncState := value.

(** ** remote/types/models.ts *)

Record RemoteMailboxRights : Type := mkRemoteMailboxRights {
  r_mayReadItems : bool;
  r_mayAddItems : bool;
  r_mayRemoveItems : bool;
  r_maySetSeen : bool;
  r_maySetKeywords : bool;
  r_maySubmit : bool;
}.

(** [RemoteAddress] is [{ name, email }], as [EmailAddress]. *)
Definition RemoteAddress : Type := EmailAddress.
Definition RemoteAddressList : Type := option (list RemoteAddress).

Record RemoteIdentity : Type := mkRemoteIdentity {
  r_identity_id : RemoteIdentityId;
  r_identity_name : string;
  r_identity_email : string;
  r_identity_replyTo : RemoteAddressList;
  r_identity_bcc : RemoteAddressList;
}.

Record RemoteMailbox : Type := mkRemoteMailbox {
  r_mailbox_id : RemoteMailboxId;
  r_mailbox_name : string;
  r_mailbox_parent : option RemoteMailboxId;
  r_mailbox_role : option string;
  r_mailbox_sortOrder : number;
  r_mailbox_totalEmails : number;
  r_mailbox_unreadEmails : number;
  r_mailbox_rights : RemoteMailboxRights;
}.

Record RemoteEmail : Type := mkRemoteEmail {
  r_email_id : RemoteEmailId;
  r_email_blobId : RemoteBlobId;
  r_email_threadId : RemoteThreadId;
  r_email_sender : RemoteAddressList;
  r_email_from : RemoteAddressList;
  r_email_replyTo : RemoteAddressList;
  r_email_to : RemoteAddressList;
  r_email_cc : RemoteAddressList;
  r_email_bcc : RemoteAddressList;
  r_email_subject : option string;
  r_email_sentAt : option string;
  r_email_receivedAt : string;
  r_email_size : number;
  r_email_preview : string;
  r_email_hasAttachment : bool;
  r_email_keywords : list string;
  r_email_mailboxIds : list RemoteMailboxId;
}.

Record RemoteAttachment : Type := mkRemoteAttachment {
  r_att_blobId : RemoteBlobId;
  r_att_partId : option string;
  r_att_name : option string;
  r_att_mediaType : string;
  r_att_size : number;
  r_att_disposition : option string;
  r_att_cid : option string;
}.

(** ** remote/body.ts *)

Inductive RemoteBody : Type :=
| PlainBody (text html : option string)
| BoxplotE2eeBody (payload : string).

(** ** remote/mail.ts *)

Inductive RemoteCollectionSync (T Id : Type) : Type :=
| RemoteReplace (state : RemoteSyncState) (snapshot : list T)
| RemoteDelta (state : RemoteSyncState) (changed : list T) (destroyed : list Id).
Arguments RemoteReplace {T Id} state snapshot.
Arguments RemoteDelta {T Id} state changed destroyed.

Definition transition_state {T Id} (t : RemoteCollectionSync T Id) : RemoteSyncState :=
  match t with RemoteReplace state _ => state | RemoteDelta state _ _ => state end.
Definition transition_values {T Id} (t : RemoteCollectionSync T Id) : list T :=
  match t with RemoteReplace _ snapshot => snapshot | RemoteDelta _ changed _ => changed end.

(** The first loop: collects the identities, throws on a repeated one. *)
Fixpoint collect_identities {T} (identityOf : T → string) (values : list T)
    (identities : list string) : outcome exn (list string) :=
  match values with
  | [] => Return identities
  | value :: rest =>
      let identity := identityOf value in
      throw_if (set_has identity identities)
        (TypeError ("Remote collection contains duplicate ID " +:+ identity));;
      collect_identities identityOf rest (set_add identity identities)
  end.

(** The second loop: the destroyed ids. *)
Fixpoint check_destroyed (identities : list string) (ids : list string) (destroyed : list string) :
    outcome exn unit :=
  match ids with
  | [] => Return tt
  | identity :: rest =>
      throw_if (set_has identity destroyed)
        (TypeError ("Remote collection contains duplicate destroyed ID " +:+ identity));;
      throw_if (set_has identity identities)
        (TypeError ("Remote collection ID " +:+ identity +:+ " is both changed and destroyed"));;
      check_destroyed identities rest (set_add identity destroyed)
  end.

Definition validateRemoteCollectionSync {T} (transition : RemoteCollectionSync T string)
    (identityOf : T → string) : outcome exn (RemoteCollectionSync T string) :=
  identities ← collect_identities identityOf (transition_values transition) set_new;
  match transition with
  | RemoteDelta _ _ destroyed => check_destroyed identities destroyed set_new
  | RemoteReplace _ _ => Return tt
  end;;
  Return transition.

Record RemoteQueryOptions : Type := mkRemoteQueryOptions {
  query_position : option number;
  query_limit : option number;
  query_anchor : option RemoteEmailId;
  query_anchorOffset : option number;
}.

Record RemoteMailboxQuery : Type := mkRemoteMailboxQuery {
  query_ids : list RemoteEmailId;
  query_queryState : RemoteSyncState;
  query_total : number;
  query_result_position : number;
  query_canCalculateChanges : bool;
}.

Record RemoteKeywordChange : Type := mkRemoteKeywordChange {
  remote_keyword_add : list string;
  remote_keyword_remove : list string;
}.

Record RemoteMembershipChange : Type := mkRemoteMembershipChange {
  remote_membership_add : list RemoteMailboxId;
  remote_membership_remove : list RemoteMailboxId;
}.

(** ** remote/submission-message.ts, remote/submission.ts *)

Inductive SubmissionBody : Type :=
| SubmitPlain (text : string) (html : option string)
| SubmitE2ee (payload : string).

(** [Omit<SubmissionMessage, 'remoteAccountId'>]. *)
Record RemoteSubmissionDraft : Type := mkRemoteSubmissionDraft {
  draft_identityId : option RemoteIdentityId;
  draft_from : RemoteAddress;
  draft_to : list RemoteAddress;
  draft_cc : list RemoteAddress;
  draft_bcc : list RemoteAddress;
  draft_replyTo : list RemoteAddress;
  draft_subject : string;
  draft_body : SubmissionBody;
}.

Record SubmissionMessage : Type := mkSubmissionMessage {
  message_accountId : RemoteAccountId;
  message_draft : RemoteSubmissionDraft;
}.

(** [{ kind: 'accepted', ... }]. *)
Record SubmissionResult : Type := mkSubmissionResult {
  submission_emailId : option RemoteEmailId;
  submission_receiptId : option string;
}.

(** ** remote/reconciliation.ts *)

Inductive RemoteMutationEvidence : Type :=
| EvidenceApplied (emailId : RemoteEmailId)
| EvidenceInconclusive.

Definition appliedRemoteMutationEvidence (emailId : RemoteEmailId) : RemoteMutationEvidence :=
  EvidenceApplied emailId.
Definition inconclusiveRemoteMutationEvidence : RemoteMutationEvidence := EvidenceInconclusive.

Definition remoteMutationEvidenceFromExactMatches (matches_ : list RemoteEmailId) :
    RemoteMutationEvidence :=
  match head matches_ with
  | Some match_ =>
      if bool_decide (length matches_ = 1%nat) then appliedRemoteMutationEvidence match_
      else inconclusiveRemoteMutationEvidence
  | None => inconclusiveRemoteMutationEvidence
  end.

(** ** remote/compat/domain-ids.ts *)

Definition localAccountId (id : RemoteAccountId) : outcome exn JmapAccountId :=
  jmapAccountIdFromString id.
Definition remoteAccountId (id : JmapAccountId) : outcome exn RemoteAccountId :=
  remoteAccountIdFromString id.

Definition localEmailId (ak : AccountKey) (id : RemoteEmailId) : outcome exn ScopedEmailId :=
  j ← jmapEmailIdFromString id; Return (scopedEmailId ak j).
Definition localMailboxId (ak : AccountKey) (id : RemoteMailboxId) : outcome exn ScopedMailboxId :=
  j ← jmapMailboxIdFromString id; Return (scopedMailboxId ak j).
Definition localIdentityId (ak : AccountKey) (id : RemoteIdentityId) : outcome exn ScopedIdentityId :=
  j ← jmapIdentityIdFromString id; Return (scopedIdentityId ak j).
Definition localThreadId (ak : AccountKey) (id : RemoteThreadId) : outcome exn ScopedThreadId :=
  j ← jmapThreadIdFromString id; Return (scopedThreadId ak j).
Definition localBlobId (ak : AccountKey) (id : RemoteBlobId) : outcome exn ScopedBlobId :=
  j ← jmapBlobIdFromString id; Return (scopedBlobId ak j).
Definition localCollectionState (state : RemoteSyncState) : CollectionSyncState :=
  collectionSyncStateFromString state.

Definition remoteEmailId (id : ScopedEmailId) : outcome exn RemoteEmailId :=
  remoteEmailIdFromString id.(jmapId).
Definition remoteMailboxId (id : ScopedMailboxId) : outcome exn RemoteMailboxId :=
  remoteMailboxIdFromString id.(jmapId).
Definition remoteIdentityId (id : ScopedIdentityId) : outcome exn RemoteIdentityId :=
  remoteIdentityIdFromString id.(jmapId).
Definition remoteThreadId (id : ScopedThreadId) : outcome exn RemoteThreadId :=
  remoteThreadIdFromString id.(jmapId).
Definition remoteBlobId (id : ScopedBlobId) : outcome exn RemoteBlobId :=
  remoteBlobIdFromString id.(jmapId).

(** ** remote/compat/submission-message.ts *)

Definition submissionMessageFromSendIntent (remoteAccountId : RemoteAccountId) (intent : SendIntent) :
    outcome exn SubmissionMessage :=
  throw_if (intent.(intent_securityMode) !== mode_plain)
    (TypeError "Encrypted SendIntent cannot use the plaintext submission converter");;
  identityId ← remoteIdentityId intent.(intent_identityId);
  Return {| message_accountId := remoteAccountId;
            message_draft := {|
              draft_identityId := Some identityId;
              draft_from := intent.(intent_from);
              draft_to := intent.(intent_to);
              draft_cc := intent.(intent_cc);
              draft_bcc := intent.(intent_bcc);
              draft_replyTo := intent.(intent_replyTo);
              draft_subject := intent.(intent_subject);
              draft_body := SubmitPlain intent.(intent_body).(send_text)
                              intent.(intent_body).(send_html) |} |}.

(** ** remote/runtime.ts *)

(** The [provider] and the fields of a configuration. *)
Inductive RemoteConnectionConfig : Type :=
| ConfigJmap (sessionUrl : string)
| ConfigImapSmtp (host username password : string) (imapPort smtpPort : number)
| ConfigGmail (username credentialRef : string).

Section runtime.
Context {RemoteConnection : Type}.

(** The factories are injected; the last two may be absent. *)
Record RemoteConnectionFactories : Type := mkRemoteConnectionFactories {
  factory_jmap : RemoteConnectionConfig → outcome exn RemoteConnection;
  factory_imapSmtp : option (RemoteConnectionConfig → outcome exn RemoteConnection);
  factory_gmail : option (RemoteConnectionConfig → outcome exn RemoteConnection);
}.

Definition not_configured (message : string) : exn :=
  ThrownRemoteError {| remote_message := message; remote_kind := kind_unsupported;
                       remote_retry := never; remote_session := session_keep;
                       remote_outcome := notApplicable |}.

Definition createRemoteConnection (config : RemoteConnectionConfig)
    (factories : RemoteConnectionFactories) : outcome exn RemoteConnection :=
  match config with
  | ConfigJmap _ => factories.(factory_jmap) config
  | ConfigImapSmtp _ _ _ _ _ =>
      match factories.(factory_imapSmtp) with
      | None => Throw (not_configured "IMAP/SMTP connection factory is not configured")
      | Some factory => factory config
      end
  | ConfigGmail _ _ =>
      match factories.(factory_gmail) with
      | None => Throw (not_configured "Gmail connection factory is not configured")
      | Some factory => factory config
      end
  end.
End runtime.

(** ** Facts about the check on remote transitions (remote/mail.ts) *)

Open Scope string_scope.
Open Scope list_scope.
Open Scope js_scope.

Lemma collect_identities_spec {T} (identityOf : T → string) values seen k :
  collect_identities identityOf values seen = Return k ↔
  NoDup (map identityOf values) ∧ (∀ v, v ∈ map identityOf values → v ∉ seen) ∧
  k = seen ++ map identityOf values.
Proof.
  revert seen. induction values as [|v values IH]; intros seen; simpl.
  - rewrite app_nil_r. split; [|naive_solver]. intros [= <-]. split_and!; [constructor| |done].
    intros v Hv. by apply not_elem_of_nil in Hv.
  - rewrite seq_return, throw_if_return, set_has_false, IH. split.
    + intros (Hv & Hnd & Hseen & ->). rewrite set_add_fresh, <- app_assoc in * by done.
      split_and!; [| |done].
      * constructor; [|done]. intros Hin. apply (Hseen _ Hin). apply elem_of_app. right. by left.
      * intros w [->|Hw]%elem_of_cons; [done|]. intros Hs. apply (Hseen _ Hw). apply elem_of_app. by left.
    + intros ([Hnot Hnd]%NoDup_cons & Hseen & ->).
      assert (identityOf v ∉ seen) as Hv by (apply Hseen; by left).
      rewrite set_add_fresh, <- app_assoc by done. split_and!; [done|done| |done].
      intros w Hw [Hs|Hs]%elem_of_app.
      * apply (Hseen w); [by right | done].
      * apply list_elem_of_singleton in Hs as ->. done.
Qed.

Lemma check_destroyed_spec identities ids destroyed :
  check_destroyed identities ids destroyed = Return tt ↔
  NoDup ids ∧ (∀ i, i ∈ ids → (i ∉ destroyed) ∧ (i ∉ identities)).
Proof.
  revert destroyed. induction ids as [|i ids IH]; intros destroyed; simpl.
  - split; [|done]. intros _. split; [constructor|]. intros i Hi. by apply not_elem_of_nil in Hi.
  - rewrite !seq_return, !throw_if_return, !set_has_false, IH, NoDup_cons.
    setoid_rewrite elem_of_set_add. setoid_rewrite elem_of_cons. naive_solver.
Qed.

Lemma remote_transition_check_iff {T} (t t' : RemoteCollectionSync T string) (identityOf : T → string) :
  validateRemoteCollectionSync t identityOf = Return t' ↔
  t' = t ∧ NoDup (map identityOf (transition_values t)) ∧
  match t with
  | RemoteReplace _ _ => True
  | RemoteDelta _ _ destroyed =>
      NoDup destroyed ∧ ∀ id, id ∈ destroyed → id ∉ map identityOf (transition_values t)
  end.
Proof.
  unfold validateRemoteCollectionSync. rewrite bind_return. setoid_rewrite seq_return.
  setoid_rewrite collect_identities_spec. split.
  - intros (k & (Hnd & _ & ->) & Hd & [= <-]). split_and!; [done..|]. destruct t; [done|].
    apply check_destroyed_spec in Hd as [Hd Hnot]. split; [done|]. intros i Hi. by apply Hnot in Hi as [_ ?].
  - intros (-> & Hnd & Hd). exists (map identityOf (transition_values t)). split_and!; [done|..|done].
    + intros v _. apply not_elem_of_nil.
    + done.
    + destruct t; [done|]. destruct Hd as [Hd Hnot]. apply check_destroyed_spec. split; [done|].
      intros i Hi. split; [apply not_elem_of_nil | by apply Hnot].
Qed.

(** A replacement that passes. *)
Lemma validate_replace {T} state (snapshot : list T) (identityOf : T → string) t :
  validateRemoteCollectionSync (RemoteReplace state snapshot) identityOf = Return t →
  t = RemoteReplace state snapshot ∧ NoDup (map identityOf snapshot).
Proof. by intros (-> & Hnd & _)%remote_transition_check_iff. Qed.

(** The check throws nothing but [TypeError]s. *)
Lemma validate_type_errors {T} (t : RemoteCollectionSync T string) (identityOf : T → string) :
  only_type_errors (validateRemoteCollectionSync t identityOf).
Proof.
  assert (∀ values seen, only_type_errors (collect_identities identityOf values seen)) as H1.
  { induction values; intros seen; cbn [collect_identities]; type_errors. }
  assert (∀ seen ids destroyed, only_type_errors (check_destroyed seen ids destroyed)) as H2.
  { intros seen ids. induction ids; intros d; cbn [check_destroyed]; type_errors. }
  unfold validateRemoteCollectionSync. type_errors.
Qed.
