(* ===== verification/Mappers.v ===== *)
(** * From the remote vocabulary to the Domain: sync/mappers/

    A mapper builds a Domain value with the real factories and returns [null]
    ([None]) when one of them throws.  The warnings it prints are left out. *)

From S2P Require Import Prelude.
From S2P Require Import JsNumber.
From S2P Require Import JsString.
From S2P Require Import JsCollections.
From S2P Require Import Errors.
From S2P Require Import DomainIds.
From S2P Require Import DomainEmail.
From S2P Require Import DomainMailbox.
From S2P Require Import MailboxView.
From S2P Require Import SendIntent.
From S2P Require Import Ports.
From S2P Require Import Remote.
Open Scope string_scope.
Open Scope list_scope.
Open Scope js_scope.

(** [try { return m } catch { return null }]. *)
Definition or_null {A} (m : outcome exn A) : option A :=
  match m with Return a => Some a | Throw _ => None end.

Definition toDomainAddressList (raw : RemoteAddressList) : EmailAddressList :=
  match raw with
  | None => None
  | Some l => Some (map (λ addr, emailAddress addr.(address_name) addr.(address_email)) l)
  end.

(** ** to-domain-email.ts *)

Definition email_record (accountKey : AccountKey) (raw : RemoteEmail) : outcome exn EmailSyncRecord :=
  id ← localEmailId accountKey raw.(r_email_id);
  blobId ← localBlobId accountKey raw.(r_email_blobId);
  threadId ← localThreadId accountKey raw.(r_email_threadId);
  keywords ← keywordSet raw.(r_email_keywords);
  domainEmail ← email {|
    email_id := id;
    email_blobId := blobId;
    email_threadId := threadId;
    email_sender := toDomainAddressList raw.(r_email_sender);
    email_from := toDomainAddressList raw.(r_email_from);
    email_replyTo := toDomainAddressList raw.(r_email_replyTo);
    email_to := toDomainAddressList raw.(r_email_to);
    email_cc := toDomainAddressList raw.(r_email_cc);
    email_bcc := toDomainAddressList raw.(r_email_bcc);
    email_subject := raw.(r_email_subject);
    email_sentAt := raw.(r_email_sentAt);
    email_receivedAt := raw.(r_email_receivedAt);
    email_size := raw.(r_email_size);
    email_preview := raw.(r_email_preview);
    email_hasAttachment := raw.(r_email_hasAttachment);
    email_keywords := keywords;
  |};
  memberships ← mapM (λ mailboxId,
    local ← localMailboxId accountKey mailboxId;
    emailMailbox id local) raw.(r_email_mailboxIds);
  Return {| record_email := domainEmail; record_memberships := memberships |}.

Definition toDomainEmailRecord (accountKey : AccountKey) (raw : RemoteEmail) : option EmailSyncRecord :=
  or_null (email_record accountKey raw).

(** ** to-domain-identity.ts *)

Definition domain_identity (accountKey : AccountKey) (raw : RemoteIdentity) : outcome exn Identity :=
  id ← localIdentityId accountKey raw.(r_identity_id);
  identity {|
    identity_id := id;
    identity_name := raw.(r_identity_name);
    identity_email := raw.(r_identity_email);
    identity_replyTo := toDomainAddressList raw.(r_identity_replyTo);
    identity_bcc := toDomainAddressList raw.(r_identity_bcc);
  |}.

Definition toDomainIdentity (accountKey : AccountKey) (raw : RemoteIdentity) : option Identity :=
  or_null (domain_identity accountKey raw).

(** ** to-domain-mailbox.ts *)

Definition domain_rights (r : RemoteMailboxRights) : MailboxRights :=
  {| mayReadItems := r.(r_mayReadItems); mayAddItems := r.(r_mayAddItems);
     mayRemoveItems := r.(r_mayRemoveItems); maySetSeen := r.(r_maySetSeen);
     maySetKeywords := r.(r_maySetKeywords); maySubmit := r.(r_maySubmit) |}.

Definition domain_mailbox (accountKey : AccountKey) (raw : RemoteMailbox) : outcome exn Mailbox :=
  id ← localMailboxId accountKey raw.(r_mailbox_id);
  parent ← match raw.(r_mailbox_parent) with
           | None => Return None
           | Some parent => id ← localMailboxId accountKey parent; Return (Some id)
           end;
  mailbox {|
    mailbox_id := id;
    mailbox_name := raw.(r_mailbox_name);
    mailbox_parent := parent;
    mailbox_role := raw.(r_mailbox_role);
    mailbox_sortOrder := raw.(r_mailbox_sortOrder);
    mailbox_totalEmails := raw.(r_mailbox_totalEmails);
    mailbox_unreadEmails := raw.(r_mailbox_unreadEmails);
    mailbox_rights := mailboxRights (domain_rights raw.(r_mailbox_rights));
  |}.

Definition toDomainMailbox (accountKey : AccountKey) (raw : RemoteMailbox) : option Mailbox :=
  or_null (domain_mailbox accountKey raw).

(** ** to-domain-email-body.ts *)

Definition toDomainEmailBody (emailId : ScopedEmailId) (text html : option string) : EmailBody :=
  emailBody {| body_emailId := emailId; body_text := text; body_html := html |}.

(** ** to-domain-attachment-refs.ts *)

(** One turn of the loop: what it pushes, if anything. *)
Definition domain_attachment (accountKey : AccountKey) (emailId : ScopedEmailId)
    (attachment : RemoteAttachment) : option AttachmentRef :=
  match attachment.(r_att_partId) with
  | None => None
  | Some partId =>
      if is_empty attachment.(r_att_blobId) then None
      else or_null (
        blobId ← localBlobId accountKey attachment.(r_att_blobId);
        attachmentRef {|
          att_emailId := emailId;
          att_partId := attachmentPartIdFromString partId;
          att_blobId := blobId;
          att_name := attachment.(r_att_name);
          att_mediaType := attachment.(r_att_mediaType);
          att_size := attachment.(r_att_size);
          att_disposition := attachment.(r_att_disposition);
          att_cid := attachment.(r_att_cid);
        |})
  end.

Fixpoint toDomainAttachmentRefs (accountKey : AccountKey) (emailId : ScopedEmailId)
    (raw : list RemoteAttachment) : list AttachmentRef :=
  match raw with
  | [] => []
  | attachment :: rest =>
      match domain_attachment accountKey emailId attachment with
      | Some ref => ref :: toDomainAttachmentRefs accountKey emailId rest
      | None => toDomainAttachmentRefs accountKey emailId rest
      end
  end.

(** ** to-mailbox-view.ts *)

(** [ids.map((id, index) => mailboxViewItem(position + index, ...))]. *)
Fixpoint view_items_from (accountKey : AccountKey) (position : number) (index : nat)
    (ids : list RemoteEmailId) : outcome exn (list MailboxViewItem) :=
  match ids with
  | [] => Return []
  | id :: rest =>
      local ← localEmailId accountKey id;
      item ← mailboxViewItem (num_add position (Int (Z.of_nat index))) local;
      items ← view_items_from accountKey position (S index) rest;
      Return (item :: items)
  end.

Definition mailbox_view (spec : MailboxViewSpec) (accountKey : AccountKey) (result : RemoteMailboxQuery) :
    outcome exn MailboxView :=
  items ← view_items_from accountKey result.(query_result_position) 0 result.(query_ids);
  coverage ← match items with
             | [] => Return []
             | _ =>
                 range ← mailboxViewCoverageRange result.(query_result_position)
                           (num_add result.(query_result_position) (len items));
                 Return [range]
             end;
  queryState ← mailboxViewQueryStateFromString result.(query_queryState);
  mailboxView {|
    view_spec := spec;
    view_queryState := queryState;
    view_total := result.(query_total);
    view_coverage := coverage;
    view_items := items;
  |}.

Definition toMailboxView (spec : MailboxViewSpec) (accountKey : AccountKey) (result : RemoteMailboxQuery) :
    option MailboxView :=
  or_null (mailbox_view spec accountKey result).

(** ** Facts: what a mapper returns is well formed and belongs to the account *)

Lemma or_null_some {A} (m : outcome exn A) a : or_null m = Some a ↔ m = Return a.
Proof. destruct m; simpl; naive_solver. Qed.

Lemma local_id_return (f : AccountKey → string → ScopedId) name ak id s :
  (j ← opaqueIdFromString id name; Return (f ak j)) = Return s ↔ id ≠ "" ∧ s = f ak id.
Proof. rewrite bind_return. setoid_rewrite opaqueId_return. naive_solver. Qed.

Lemma localEmailId_return ak id s : localEmailId ak id = Return s ↔ id ≠ "" ∧ s = scopedEmailId ak id.
Proof. apply (local_id_return scopedEmailId). Qed.
Lemma localMailboxId_return ak id s : localMailboxId ak id = Return s ↔ id ≠ "" ∧ s = scopedMailboxId ak id.
Proof. apply (local_id_return scopedMailboxId). Qed.
Lemma localIdentityId_return ak id s :
  localIdentityId ak id = Return s ↔ id ≠ "" ∧ s = scopedIdentityId ak id.
Proof. apply (local_id_return scopedIdentityId). Qed.
Lemma localBlobId_return ak id s : localBlobId ak id = Return s ↔ id ≠ "" ∧ s = scopedBlobId ak id.
Proof. apply (local_id_return scopedBlobId). Qed.

Lemma toDomainMailbox_some ak raw m :
  toDomainMailbox ak raw = Some m → mailbox_wf m ∧ m.(mailbox_id) = scopedMailboxId ak raw.(r_mailbox_id).
Proof.
  intros H%or_null_some. unfold domain_mailbox in H. rewrite bind_return in H.
  destruct H as (id & [_ ->]%localMailboxId_return & H). rewrite bind_return in H.
  destruct H as (parent & _ & H). apply mailbox_return in H as [Hwf ->]. by split.
Qed.

Lemma toDomainIdentity_some ak raw i :
  toDomainIdentity ak raw = Some i →
  identity_wf i ∧ i.(identity_id) = scopedIdentityId ak raw.(r_identity_id).
Proof.
  intros H%or_null_some. unfold domain_identity in H. rewrite bind_return in H.
  destruct H as (id & [_ ->]%localIdentityId_return & H). apply identity_return in H as [Hwf ->].
  by split.
Qed.

Lemma toDomainEmailRecord_some ak raw r :
  toDomainEmailRecord ak raw = Some r →
  email_wf r.(record_email) ∧ r.(record_email).(email_id) = scopedEmailId ak raw.(r_email_id) ∧
  r.(record_memberships) =
    map (λ id, mkEmailMailbox (scopedEmailId ak raw.(r_email_id)) (scopedMailboxId ak id))
      raw.(r_email_mailboxIds).
Proof.
  intros H%or_null_some. unfold email_record in H.
  rewrite bind_return in H. destruct H as (id & [_ ->]%localEmailId_return & H).
  do 3 (rewrite bind_return in H; destruct H as (? & _ & H)).
  rewrite bind_return in H. destruct H as (e & He & H).
  rewrite bind_return in H. destruct H as (l & Hl & [= <-]). simpl. split_and!.
  - by eapply email_return_wf.
  - by rewrite (email_return_id _ _ He).
  - apply mapM_return_Forall2 in Hl. induction Hl as [|mid em mids ems Hem _ IH]; [done|].
    rewrite bind_return in Hem. destruct Hem as (local & [_ ->]%localMailboxId_return & Hem).
    apply emailMailbox_return in Hem as [_ ->]. simpl. by rewrite IH.
Qed.

Lemma toDomainAttachmentRefs_spec ak emailId raw :
  toDomainAttachmentRefs ak emailId raw = omap (domain_attachment ak emailId) raw.
Proof. induction raw as [|a raw IH]; csimpl; [done|]. rewrite IH. by case_match. Qed.

Lemma domain_attachment_some ak emailId a ref :
  domain_attachment ak emailId a = Some ref → attachment_wf ref ∧ ref.(att_emailId) = emailId.
Proof.
  unfold domain_attachment. destruct (r_att_partId a); [|done]. destruct (is_empty _); [done|].
  rewrite or_null_some, bind_return. intros (blobId & _ & H).
  apply attachmentRef_return in H as [Hwf ->]. by split.
Qed.

Lemma view_items_from_return ak position index ids items :
  view_items_from ak position index ids = Return items →
  length items = length ids ∧ map item_emailId items = map (scopedEmailId ak) ids.
Proof.
  revert index items. induction ids as [|id ids IH]; intros index items; simpl.
  - by intros [= <-].
  - rewrite bind_return. intros (local & [_ ->]%localEmailId_return & H).
    rewrite bind_return in H. destruct H as (item & Hi & H).
    rewrite bind_return in H. destruct H as (rest & Hrest & [= <-]).
    apply IH in Hrest as [Hlen Hids]. simpl. rewrite Hlen, Hids. split; [done|].
    unfold mailboxViewItem in Hi. rewrite seq_return in Hi. by destruct Hi as (_ & [= <-]).
Qed.

Lemma toMailboxView_some spec ak result v :
  toMailboxView spec ak result = Some v →
  view_wf v ∧ v.(view_spec) = spec ∧ v.(view_total) = result.(query_total) ∧
  map item_emailId v.(view_items) = map (scopedEmailId ak) result.(query_ids).
Proof.
  intros H%or_null_some. unfold mailbox_view in H.
  rewrite bind_return in H. destruct H as (items & Hitems & H).
  rewrite bind_return in H. destruct H as (coverage & _ & H).
  rewrite bind_return in H. destruct H as (qs & _ & H).
  apply mailboxView_return in H as [Hwf ->]. apply view_items_from_return in Hitems as [_ Hids].
  by split_and!.
Qed.

(** ** Which remote values the mappers accept, and what they make of them

    The mappers catch every exception of the Domain factories; these are the
    conditions under which nothing is thrown. *)

Open Scope string_scope.
Open Scope list_scope.

(** ** Emails *)

Record remote_email_ok (raw : RemoteEmail) : Prop := {
  remote_email_id : raw.(r_email_id) ≠ "";
  remote_email_blob : raw.(r_email_blobId) ≠ "";
  remote_email_thread : raw.(r_email_threadId) ≠ "";
  remote_email_size : nonneg_safe raw.(r_email_size);
  remote_email_received : raw.(r_email_receivedAt) ≠ "";
  remote_email_sent : raw.(r_email_sentAt) ≠ Some "";
  remote_email_keywords : Forall (λ k, k ≠ "") raw.(r_email_keywords);
  remote_email_mailboxes : Forall (λ id, id ≠ "") raw.(r_email_mailboxIds);
}.

Definition email_of_remote (ak : AccountKey) (raw : RemoteEmail) : Email :=
  {| email_id := scopedEmailId ak raw.(r_email_id);
     email_blobId := scopedBlobId ak raw.(r_email_blobId);
     email_threadId := scopedThreadId ak raw.(r_email_threadId);
     email_sender := raw.(r_email_sender); email_from := raw.(r_email_from);
     email_replyTo := raw.(r_email_replyTo); email_to := raw.(r_email_to);
     email_cc := raw.(r_email_cc); email_bcc := raw.(r_email_bcc);
     email_subject := raw.(r_email_subject); email_sentAt := raw.(r_email_sentAt);
     email_receivedAt := raw.(r_email_receivedAt); email_size := raw.(r_email_size);
     email_preview := raw.(r_email_preview); email_hasAttachment := raw.(r_email_hasAttachment);
     email_keywords := set_of_list raw.(r_email_keywords) |}.

Definition record_of_remote (ak : AccountKey) (raw : RemoteEmail) : EmailSyncRecord :=
  {| record_email := email_of_remote ak raw;
     record_memberships :=
       map (λ id, mkEmailMailbox (scopedEmailId ak raw.(r_email_id)) (scopedMailboxId ak id))
         raw.(r_email_mailboxIds) |}.

Lemma toDomainAddressList_id l : toDomainAddressList l = l.
Proof.
  destruct l as [l|]; [|done]. simpl. f_equal. induction l as [|[] l IH]; simpl; [done|]. by rewrite IH.
Qed.

Lemma localThreadId_return ak id s : localThreadId ak id = Return s ↔ id ≠ "" ∧ s = scopedThreadId ak id.
Proof. apply (local_id_return scopedThreadId). Qed.

Lemma memberships_return ak id ids l :
  mapM (λ mailboxId, local ← localMailboxId ak mailboxId; emailMailbox (scopedEmailId ak id) local) ids = Return l ↔
  Forall (λ mailboxId, mailboxId ≠ "") ids ∧
  l = map (λ mailboxId, mkEmailMailbox (scopedEmailId ak id) (scopedMailboxId ak mailboxId)) ids.
Proof.
  rewrite mapM_return_Forall2. split.
  - induction 1 as [|mid em mids ems Hem _ [Hne IH]]; [done|]. rewrite bind_return in Hem.
    destruct Hem as (local & [Hmid ->]%localMailboxId_return & Hem).
    apply emailMailbox_return in Hem as [_ ->]. split; [by constructor|]. simpl. by rewrite IH.
  - intros [Hne ->]. induction Hne as [|mid mids Hmid _ IH]; simpl; constructor; [|done].
    apply bind_return. exists (scopedMailboxId ak mid). split; [by apply localMailboxId_return|].
    by apply emailMailbox_return.
Qed.

Lemma email_return_fields i e :
  email i = Return e →
  nonneg_safe i.(email_size) ∧ i.(email_receivedAt) ≠ "" ∧ i.(email_sentAt) ≠ Some "".
Proof.
  unfold email. intros H. run_guards H.
  match goal with H : _ || _ = false |- nonneg_safe _ ∧ _ => idtac end. bool_hyps.
  split_and!; [|by apply is_empty_false|done].
  by apply size_guard, orb_false_iff; split; [apply negb_false_iff|].
Qed.

(** An email input with checked keywords is returned as it is when its fields are in
    range. *)
Lemma email_of_fields ak raw :
  remote_email_ok raw → email (email_of_remote ak raw) = Return (email_of_remote ak raw).
Proof.
  intros []. apply email_id_wf. constructor; simpl; try done.
  split; [apply set_of_list_NoDup|]. apply Forall_forall. intros k Hk. rewrite set_of_list_elem in Hk.
  rewrite Forall_forall in remote_email_keywords0. auto.
Qed.

Lemma toDomainEmailRecord_iff ak raw r :
  toDomainEmailRecord ak raw = Some r ↔ remote_email_ok raw ∧ r = record_of_remote ak raw.
Proof.
  unfold toDomainEmailRecord, email_record. rewrite or_null_some, !toDomainAddressList_id. split.
  - intros H. rewrite bind_return in H. destruct H as (id & [Hid ->]%localEmailId_return & H).
    rewrite bind_return in H. destruct H as (blob & [Hb ->]%localBlobId_return & H).
    rewrite bind_return in H. destruct H as (thread & [Ht ->]%localThreadId_return & H).
    rewrite bind_return in H. destruct H as (k & [Hk ->]%keywordSet_return & H).
    rewrite bind_return in H. destruct H as (e & He & H).
    rewrite bind_return in H. destruct H as (l & [Hm ->]%memberships_return & [= <-]).
    destruct (email_return_fields _ _ He) as (Hs & Hr & Hsent). simpl in *.
    assert (remote_email_ok raw) as Hok by (by constructor). split; [done|].
    unfold record_of_remote. f_equal. pose proof (email_of_fields ak raw Hok) as He'.
    unfold email_of_remote in *. congruence.
  - intros [Hok ->]. pose proof Hok as [].
    apply bind_return. eexists. split; [by apply localEmailId_return|].
    apply bind_return. eexists. split; [by apply localBlobId_return|].
    apply bind_return. eexists. split; [by apply localThreadId_return|].
    apply bind_return. eexists. split; [by apply keywordSet_return|].
    apply bind_return. eexists. split; [by apply (email_of_fields ak raw)|].
    apply bind_return. eexists. split; [by apply memberships_return | done].
Qed.

(** ** Views *)

(** The result of a mailbox query that makes a view of the account. *)
Definition query_ok (spec : MailboxViewSpec) (ak : AccountKey) (q : RemoteMailboxQuery) : Prop :=
  q.(query_queryState) ≠ "" ∧ Forall (λ id, id ≠ "") q.(query_ids) ∧ NoDup q.(query_ids) ∧
  ∃ total, q.(query_total) = Int total ∧ (0 <= total <= MAX_SAFE_INTEGER)%Z ∧
    (q.(query_ids) = [] ∨
     ∃ position, q.(query_result_position) = Int position ∧ (0 <= position)%Z ∧
       (position + Z.of_nat (length q.(query_ids)) <= total)%Z ∧
       ak = spec.(spec_mailboxId).(accountKey)).

(** The item at [index] of a page that starts at [position]. *)
Definition page_item (ak : AccountKey) (position : Z) (index : nat) (id : RemoteEmailId) : MailboxViewItem :=
  {| item_position := Int (position + Z.of_nat index); item_emailId := scopedEmailId ak id |}.

Definition view_of_query (spec : MailboxViewSpec) (ak : AccountKey) (q : RemoteMailboxQuery) : MailboxView :=
  let position := match q.(query_result_position) with Int p => p | _ => 0%Z end in
  {| view_spec := spec;
     view_queryState := q.(query_queryState);
     view_total := q.(query_total);
     view_coverage :=
       match q.(query_ids) with
       | [] => []
       | _ => [int_range (position, position + Z.of_nat (length q.(query_ids)))%Z]
       end;
     view_items := imap (page_item ak position) q.(query_ids) |}.

Lemma view_items_from_iff ak position index ids items :
  (0 <= position)%Z → (position + Z.of_nat index + Z.of_nat (length ids) <= MAX_SAFE_INTEGER + 1)%Z →
  view_items_from ak (Int position) index ids = Return items ↔
  Forall (λ id, id ≠ "") ids ∧ items = imap (λ i, page_item ak position (index + i)) ids.
Proof.
  intros Hp. revert index items. induction ids as [|id ids IH]; intros index items Hb; simpl in Hb.
  - simpl. split; [by intros [= <-] | by intros [_ ->]].
  - cbn [view_items_from]. rewrite num_add_exact by (unfold MAX_SAFE_INTEGER in Hb; lia).
    rewrite Forall_cons. rewrite imap_cons, Nat.add_0_r.
    rewrite (imap_ext _ (λ i, page_item ak position (S index + i)))
      by (intros i x _; unfold compose; f_equal; lia).
    assert (∀ k, view_items_from ak (Int position) (S index) ids = Return k ↔
      Forall (λ id, id ≠ "") ids ∧ k = imap (λ i, page_item ak position (S index + i)) ids) as IH'
      by (intros k; apply IH; lia).
    rewrite bind_return. split.
    + intros (local & [Hid ->]%localEmailId_return & H). rewrite bind_return in H.
      destruct H as (item & Hitem & H). rewrite bind_return in H. destruct H as (rest & Hrest & [= <-]).
      apply seq_return in Hitem as [_ [= <-]]. apply IH' in Hrest as [Hne ->]. done.
    + intros [[Hid Hne] ->]. exists (scopedEmailId ak id). split; [by apply localEmailId_return|].
      apply bind_return. exists (page_item ak position index id). split.
      * apply seq_return. split; [|done]. apply assert_nonneg_return.
        exists (position + Z.of_nat index)%Z. split; [done|]. lia.
      * apply bind_return. eexists. split; [by apply IH' | done].
Qed.

Lemma page_positions ak position ids :
  map item_position (imap (page_item ak position) ids) =
    map Int (seqZ position (Z.of_nat (length ids))).
Proof.
  apply list_eq. intros i. rewrite !list_lookup_fmap, list_lookup_imap.
  destruct (ids !! i) as [id|] eqn:Hid; simpl.
  - rewrite lookup_seqZ_lt; [done|]. apply lookup_lt_Some in Hid. lia.
  - rewrite lookup_seqZ_ge; [done|]. apply lookup_ge_None in Hid. lia.
Qed.

Lemma page_emails ak position ids :
  map item_emailId (imap (page_item ak position) ids) = map (scopedEmailId ak) ids.
Proof.
  unfold RemoteEmailId, JmapEmailId in *. apply list_eq. intros i.
  rewrite !list_lookup_fmap, list_lookup_imap. by destruct (ids !! i).
Qed.

Lemma range_return start stop range :
  mailboxViewCoverageRange (Int start) (Int stop) = Return range ↔
  range = int_range (start, stop) ∧ (0 <= start < stop)%Z ∧ (stop <= MAX_SAFE_INTEGER)%Z.
Proof.
  unfold mailboxViewCoverageRange, assertCoverageRangeShape.
  rewrite !seq_return, !assert_nonneg_return, throw_if_return. cbn [range_start range_end].
  rewrite num_leb_Int, Z.leb_gt. unfold int_range, nonneg_safe. cbn [fst snd]. split.
  - intros [((z1 & [= <-] & ?) & (z2 & [= <-] & ?) & ?) [= <-]]. split_and!; [done|lia..].
  - intros (-> & ? & ?). split; [|done]. split_and!; [eexists; split; [done|lia]..|lia].
Qed.

(** What the view of a page says about the page. *)
Lemma page_view_wf spec ak total position ids state :
  ids ≠ [] → (0 <= position)%Z →
  view_wf {| view_spec := spec; view_queryState := state; view_total := Int total;
             view_coverage := [int_range (position, position + Z.of_nat (length ids))%Z];
             view_items := imap (page_item ak position) ids |} ↔
  (0 <= total <= MAX_SAFE_INTEGER)%Z ∧ (position + Z.of_nat (length ids) <= total)%Z ∧
  NoDup ids ∧ ak = spec.(spec_mailboxId).(accountKey).
Proof.
  intros Hne Hp. unfold view_wf. cbn [view_total view_coverage view_items view_spec].
  rewrite page_positions, page_emails.
  assert (Forall (λ item, (item_emailId item).(accountKey) = spec.(spec_mailboxId).(accountKey))
    (imap (page_item ak position) ids) ↔ ak = spec.(spec_mailboxId).(accountKey)) as Hitems.
  { split.
    - destruct ids as [|id ids]; [done|]. rewrite imap_cons. by intros [H _]%Forall_cons.
    - intros ->. apply Forall_lookup. intros i item. rewrite list_lookup_imap.
      destruct (ids !! i); [|done]. by intros [= <-]. }
  assert (NoDup (map (scopedEmailId ak) ids) ↔ NoDup ids) as Hids.
  { split; [apply NoDup_fmap_1|]. apply NoDup_fmap_2. by intros ? ? [= ->]. }
  assert (0 < Z.of_nat (length ids))%Z as Hlen by (destruct ids; simpl; [done|lia]).
  split.
  - intros (t & c & [= <-] & Ht & Hc & Hwf & _ & Hnd & Hak).
    destruct c as [|[s e] [|]]; [done| |done]. injection Hc as <- <-.
    destruct Hwf as (_ & ? & _). split_and!; [lia..|by apply Hids|by apply Hitems].
  - intros (Ht & Hle & Hnd & ->). exists total, [(position, position + Z.of_nat (length ids))%Z].
    split_and!; [done|lia|lia|done| | |by apply Hids|by apply Hitems]; simpl.
    + split_and!; [lia..|done|done].
    + rewrite app_nil_r. do 2 f_equal. lia.
Qed.

Lemma empty_view_wf spec total state :
  view_wf {| view_spec := spec; view_queryState := state; view_total := total;
             view_coverage := []; view_items := [] |} ↔
  ∃ t, total = Int t ∧ (0 <= t <= MAX_SAFE_INTEGER)%Z.
Proof.
  unfold view_wf. simpl. split.
  - intros (t & c & Ht & Hb & _). by exists t.
  - intros (t & Ht & Hb). exists t, []. split_and!; [done|lia|lia|done|done|done|constructor|constructor].
Qed.

Lemma query_state_return s v : mailboxViewQueryStateFromString s = Return v ↔ s ≠ "" ∧ v = s.
Proof.
  unfold mailboxViewQueryStateFromString. destruct (is_empty s) eqn:H.
  - apply is_empty_true in H. naive_solver.
  - apply is_empty_false in H. naive_solver.
Qed.

(** The coverage the mapper builds for its items. *)
Definition built_coverage (position : number) (items : list MailboxViewItem) :
    outcome exn MailboxViewCoverage :=
  match items with
  | [] => Return []
  | _ =>
      range ← mailboxViewCoverageRange position (num_add position (len items));
      Return [range]
  end.

Lemma built_coverage_page p items :
  items ≠ [] → (0 <= p)%Z → (p + Z.of_nat (length items) <= MAX_SAFE_INTEGER)%Z →
  built_coverage (Int p) items = Return [int_range (p, p + Z.of_nat (length items))%Z].
Proof.
  intros Hne Hp Hb. unfold built_coverage, len. destruct items as [|item items]; [done|].
  set (its := item :: items) in *. assert (0 < Z.of_nat (length its))%Z by (simpl; lia).
  rewrite num_add_exact by (unfold MAX_SAFE_INTEGER in Hb; lia).
  apply bind_return. eexists. split; [|done]. apply range_return. split_and!; [done|lia..].
Qed.

Lemma mailbox_view_return spec ak q v :
  mailbox_view spec ak q = Return v ↔
  ∃ items coverage, view_items_from ak q.(query_result_position) 0 q.(query_ids) = Return items ∧
    built_coverage q.(query_result_position) items = Return coverage ∧ q.(query_queryState) ≠ "" ∧
    v = {| view_spec := spec; view_queryState := q.(query_queryState); view_total := q.(query_total);
           view_coverage := coverage; view_items := items |} ∧ view_wf v.
Proof.
  unfold mailbox_view. rewrite bind_return. setoid_rewrite bind_return. setoid_rewrite bind_return.
  setoid_rewrite query_state_return. setoid_rewrite mailboxView_return. split.
  - intros (items & Hi & coverage & Hc & s & [Hs ->] & Hwf & ->). by exists items, coverage.
  - intros (items & coverage & Hi & Hc & Hs & -> & Hwf). exists items. split; [done|].
    exists coverage. split; [done|]. by eexists.
Qed.

Lemma toMailboxView_iff spec ak q v :
  toMailboxView spec ak q = Some v ↔ query_ok spec ak q ∧ v = view_of_query spec ak q.
Proof.
  unfold toMailboxView. rewrite or_null_some, mailbox_view_return. unfold query_ok, view_of_query.
  destruct q as [ids state total position calc]; cbn [query_ids query_queryState query_total query_result_position].
  destruct ids as [|id ids].
  - split.
    + intros (items & coverage & [= <-] & [= <-] & Hs & -> & (t & -> & Ht)%empty_view_wf).
      split; [|done]. split_and!; [done|constructor..|]. exists t. split_and!; [done|lia..|by left].
    + intros [(Hs & _ & _ & t & -> & Ht & _) ->]. exists [], []. split_and!; try done.
      apply empty_view_wf. by exists t.
  - set (all := id :: ids) in *. assert (all ≠ []) as Hne by done.
    assert (0 < Z.of_nat (length all))%Z as Hpos by (simpl; lia).
    split.
    + intros (items & coverage & Hi & Hc & Hs & -> & Hwf).
      pose proof (proj1 (view_items_from_return _ _ _ _ _ Hi)) as Hlen.
      unfold built_coverage in Hc. destruct items as [|item items]; [done|]. set (its := item :: items) in *.
      rewrite bind_return in Hc. destruct Hc as (range & Hr & [= <-]).
      pose proof Hr as Hstart. unfold mailboxViewCoverageRange, assertCoverageRangeShape in Hstart.
      rewrite !seq_return, !assert_nonneg_return in Hstart. cbn [range_start range_end] in Hstart.
      destruct Hstart as [[(p & Hp & Hpb) [(e & He & Heb) Hlt]] _]. subst position.
      rewrite He in Hr. apply range_return in Hr as (-> & Hpe & _).
      destruct Hwf as (t & c & Ht & Htb & Hcov & Hcwf & Hpositions & Hnd & Hak).
      cbn [view_total view_coverage view_items view_spec] in *.
      destruct c as [|[s' e'] [|]]; [done| |done]. injection Hcov as <- <-.
      assert (e = p + Z.of_nat (length all))%Z as ->.
      { apply (f_equal length) in Hpositions. simpl in Hpositions.
        rewrite length_map, length_map, app_nil_r, length_seqZ in Hpositions. unfold its in Hlen. simpl in *. lia. }
      apply view_items_from_iff in Hi as [Hids Hi]; [|lia|simpl in *; lia].
      change (imap (λ i, page_item ak p (0 + i)) all) with (imap (page_item ak p) all) in Hi.
      clearbody its. subst its. split; [|done]. rewrite page_emails in Hnd. apply NoDup_fmap_1 in Hnd.
      split_and!; [done..|]. exists t. destruct Hcwf as (_ & Hle & _).
      split_and!; [done|lia|lia|]. right. exists p. split_and!; [done|lia|done|].
      by apply Forall_cons in Hak as [Hak _].
    + intros [(Hs & Hids & Hnd & t & -> & Ht & [Hno|(p & -> & Hp & Hle & ->)]) ->]; [done|].
      exists (imap (page_item spec.(spec_mailboxId).(accountKey) p) all),
        [int_range (p, p + Z.of_nat (length all))%Z].
      split_and!; [| |done|done|].
      * apply view_items_from_iff; [lia..|]. done.
      * pose proof (length_imap (page_item spec.(spec_mailboxId).(accountKey) p) all) as Hlen.
        unfold RemoteEmailId in *. rewrite <- Hlen in *. apply built_coverage_page; [done|lia..].
      * apply page_view_wf; [done..|]. split_and!; done || lia.
Qed.
