(* ===== verification/Prog.v ===== *)
(** * Asynchronous methods as programs over their dependencies

    An [async] method is a tree of calls to its injected dependencies ([await
    this.dependencies.x.f(...)]): between two calls it runs without interruption,
    and at each call anything else may run.  A call answers with a value or with
    an exception (a rejected promise).

    A [monitor] is a ghost state machine that watches the calls of a program and
    says which calls may happen.  [obeys] is the weakest precondition of a
    program under a monitor.  [pool] interleaves several programs over one shared
    environment. *)

From S2P Require Import Prelude.
From S2P Require Import Errors.
Open Scope list_scope.

Section prog.
Context (E : Type → Type).

Inductive prog (A : Type) : Type :=
| Ret (a : A)
| Raise (e : exn)
| Call {X : Type} (c : E X) (k : outcome exn X → prog A).
End prog.
Arguments Ret {E A} a.
Arguments Raise {E A} e.
Arguments Call {E A X} c k.

Section operations.
Context {E : Type → Type}.

Fixpoint prog_bind {A B} (f : A → prog E B) (p : prog E A) : prog E B :=
  match p with
  | Ret a => f a
  | Raise e => Raise e
  | Call c k => Call c (λ r, prog_bind f (k r))
  end.

#[global] Instance prog_mret : MRet (prog E) := λ A a, Ret a.
#[global] Instance prog_mbind : MBind (prog E) := λ A B f p, prog_bind f p.

(** [try { p } catch (error) { h(error) }]. *)
Fixpoint prog_try {A} (p : prog E A) (h : exn → prog E A) : prog E A :=
  match p with
  | Ret a => Ret a
  | Raise e => h e
  | Call c k => Call c (λ r, prog_try (k r) h)
  end.

Definition of_outcome {A} (m : outcome exn A) : prog E A :=
  match m with Return a => Ret a | Throw e => Raise e end.

(** [await c]. *)
Definition await {X} (c : E X) : prog E X := Call c of_outcome.

(** [for (const x of l) await f(x)]. *)
Fixpoint prog_for {A B} (l : list A) (f : B → A → prog E B) (acc : B) : prog E B :=
  match l with
  | [] => Ret acc
  | x :: l => prog_bind (λ acc, prog_for l f acc) (f acc x)
  end.

Definition finished {A} (p : prog E A) : option (outcome exn A) :=
  match p with
  | Ret a => Some (Return a)
  | Raise e => Some (Throw e)
  | Call _ _ => None
  end.
End operations.

(** ** Running a program against a deterministic environment *)

Section run.
Context {E : Type → Type} {S : Type} (answer : ∀ X, E X → S → outcome exn X * S).

Fixpoint run {A} (p : prog E A) (s : S) : outcome exn A * S :=
  match p with
  | Ret a => (Return a, s)
  | Raise e => (Throw e, s)
  | @Call _ _ X c k => run (k (answer X c s).1) (answer X c s).2
  end.

Lemma run_bind {A B} (p : prog E A) (f : A → prog E B) s :
  run (prog_bind f p) s =
    match run p s with
    | (Return a, s') => run (f a) s'
    | (Throw e, s') => (Throw e, s')
    end.
Proof. revert s. induction p as [a|e|X c k IH]; intros s; simpl; [done..|]. apply IH. Qed.

Lemma run_await {X A} (c : E X) (f : X → prog E A) s :
  run (await c ≫= f) s =
    match answer X c s with
    | (Return x, s') => run (f x) s'
    | (Throw e, s') => (Throw e, s')
    end.
Proof.
  unfold await. cbn [mbind prog_mbind prog_bind run].
  by destruct (answer X c s) as [[x|e] s'].
Qed.

Lemma run_mbind {A B} (p : prog E A) (f : A → prog E B) s :
  run (p ≫= f) s =
    match run p s with
    | (Return a, s') => run (f a) s'
    | (Throw e, s') => (Throw e, s')
    end.
Proof. apply run_bind. Qed.

Lemma run_try {A} (p : prog E A) (h : exn → prog E A) s :
  run (prog_try p h) s =
    match run p s with
    | (Return a, s') => (Return a, s')
    | (Throw e, s') => run (h e) s'
    end.
Proof. revert s. induction p as [a|e|X c k IH]; intros s; simpl; [done..|]. apply IH. Qed.
End run.

(** [runs p s Q]: run from [s], [p] ends with a result and a state in [Q]. *)
Section runs.
Context {E : Type → Type} {S : Type} (answer : ∀ X, E X → S → outcome exn X * S).

Definition runs {A} (p : prog E A) (s : S) (Q : outcome exn A → S → Prop) : Prop :=
  Q (run answer p s).1 (run answer p s).2.

Lemma runs_bind {A B} (p : prog E A) (f : A → prog E B) s Q :
  runs p s (λ r s', match r with Return a => runs (f a) s' Q | Throw e => Q (Throw e) s' end) →
  runs (p ≫= f) s Q.
Proof.
  unfold runs. change (p ≫= f) with (prog_bind f p). rewrite run_bind.
  by destruct (run answer p s) as [[a|e] s'].
Qed.

Lemma runs_try {A} (p : prog E A) h s Q :
  runs p s (λ r s', match r with Return a => Q (Return a) s' | Throw e => runs (h e) s' Q end) →
  runs (prog_try p h) s Q.
Proof. unfold runs. rewrite run_try. by destruct (run answer p s) as [[a|e] s']. Qed.

Lemma runs_mono {A} (p : prog E A) s (Q Q' : outcome exn A → S → Prop) :
  (∀ r s', Q r s' → Q' r s') → runs p s Q → runs p s Q'.
Proof. intros HQ. apply HQ. Qed.

Lemma runs_outcome {A} (m : outcome exn A) s (Q : outcome exn A → S → Prop) :
  Q m s → runs (of_outcome m) s Q.
Proof. by destruct m. Qed.

Lemma runs_await {X} (c : E X) s (Q : outcome exn X → S → Prop) :
  Q (answer X c s).1 (answer X c s).2 → runs (await c) s Q.
Proof. unfold runs. simpl. by destruct (answer X c s) as [[] ?]. Qed.

Lemma runs_call {X} (c : E X) s r s' (Q : outcome exn X → S → Prop) :
  answer X c s = (r, s') → Q r s' → runs (await c) s Q.
Proof. intros H HQ. apply runs_await. by rewrite H. Qed.
End runs.

(** ** Monitors *)

Record monitor (E : Type → Type) (M : Type) : Type := {
  (** The calls that may be made in a ghost state. *)
  allowed : ∀ X, M → E X → Prop;
  watch : ∀ X, M → E X → outcome exn X → M;
  (** The answers the dependency may give. *)
  possible : ∀ X, E X → outcome exn X → Prop;
}.
Arguments allowed {E M} m {X}.
Arguments watch {E M} m {X}.
Arguments possible {E M} m {X}.

Section obeys.
Context {E : Type → Type} {M : Type} (mon : monitor E M).

Fixpoint obeys {A} (p : prog E A) (m : M) (Q : outcome exn A → M → Prop) : Prop :=
  match p with
  | Ret a => Q (Return a) m
  | Raise e => Q (Throw e) m
  | Call c k =>
      allowed mon m c ∧ ∀ r, possible mon c r → obeys (k r) (watch mon m c r) Q
  end.

Lemma obeys_mono {A} (p : prog E A) m (Q Q' : outcome exn A → M → Prop) :
  (∀ r m, Q r m → Q' r m) → obeys p m Q → obeys p m Q'.
Proof.
  intros HQ. revert m. induction p as [a|e|X c k IH]; intros m; simpl; [apply HQ..|].
  intros [Hc H]. split; [done|]. intros r Hr. by apply IH, H.
Qed.

Lemma obeys_bind {A B} (p : prog E A) (f : A → prog E B) m Q :
  obeys p m (λ r m, match r with Return a => obeys (f a) m Q | Throw e => Q (Throw e) m end) →
  obeys (prog_bind f p) m Q.
Proof.
  revert m. induction p as [a|e|X c k IH]; intros m; simpl; [done..|].
  intros [Hc H]. split; [done|]. intros r Hr. by apply IH, H.
Qed.

Lemma obeys_mbind {A B} (p : prog E A) (f : A → prog E B) m Q :
  obeys p m (λ r m, match r with Return a => obeys (f a) m Q | Throw e => Q (Throw e) m end) →
  obeys (p ≫= f) m Q.
Proof. apply obeys_bind. Qed.

Lemma obeys_try {A} (p : prog E A) (h : exn → prog E A) m Q :
  obeys p m (λ r m, match r with Return a => Q (Return a) m | Throw e => obeys (h e) m Q end) →
  obeys (prog_try p h) m Q.
Proof.
  revert m. induction p as [a|e|X c k IH]; intros m; simpl; [done..|].
  intros [Hc H]. split; [done|]. intros r Hr. by apply IH, H.
Qed.

Lemma obeys_outcome {A} (o : outcome exn A) m Q : Q o m → obeys (of_outcome o) m Q.
Proof. by destruct o. Qed.

Lemma obeys_await {X} (c : E X) m Q :
  allowed mon m c → (∀ r, possible mon c r → Q r (watch mon m c r)) → obeys (await c) m Q.
Proof. intros Hc H. split; [done|]. intros r Hr. by apply obeys_outcome, H. Qed.

(** A loop keeps an invariant of the ghost state and the accumulator. *)
Lemma obeys_for {A B} (l : list A) (f : B → A → prog E B) (I : B → M → Prop) acc m Q :
  I acc m →
  (∀ acc m x, x ∈ l → I acc m →
    obeys (f acc x) m (λ r m, match r with Return acc => I acc m | Throw e => Q (Throw e) m end)) →
  (∀ acc m, I acc m → Q (Return acc) m) →
  obeys (prog_for l f acc) m Q.
Proof.
  intros HI Hf HQ. revert acc m HI. induction l as [|x l IH]; intros acc m HI; simpl; [by apply HQ|].
  apply obeys_bind. eapply obeys_mono; [|apply Hf; [by left | done]].
  intros [acc'|e] m'; [|done]. apply IH. intros. apply Hf; [by right | done].
Qed.
End obeys.

(** ** Pools: several programs, one environment *)

Section pool.
Context {E : Type → Type} {A W : Type}.
(** [answers c w r w']: in [w], the call [c] may be answered [r], leaving [w']. *)
Context (answers : ∀ X, E X → W → outcome exn X → W → Prop).

Inductive event : Type :=
| Event {X : Type} (c : E X) (r : outcome exn X).

Record system : Type := mkSystem {
  programs : list (prog E A);
  world : W;
  history : list event;
}.

(** One program makes its next call. *)
Inductive pool_step : system → system → Prop :=
| Pool_step ps w h i X (c : E X) k r w' :
    ps !! i = Some (Call c k) → answers X c w r w' →
    pool_step (mkSystem ps w h) (mkSystem (<[i := k r]> ps) w' (h ++ [Event c r])).

Definition pool_reaches : system → system → Prop := rtc pool_step.

Definition start (ps : list (prog E A)) (w : W) : system := mkSystem ps w [].

(** A property kept by every step holds wherever the system gets. *)
Lemma pool_invariant (I : system → Prop) s s' :
  (∀ s s', I s → pool_step s s' → I s') → I s → pool_reaches s s' → I s'.
Proof. intros Hstep HI. induction 1; eauto. Qed.
(** A concrete run: the programs take their turns as [schedule] says. *)
Context (answer : ∀ X, E X → W → outcome exn X * W).
Context (answer_answers : ∀ X c w, answers X c w (answer X c w).1 (answer X c w).2).

Definition turn (σ : system) (i : nat) : system :=
  match σ.(programs) !! i with
  | Some (Call c k) =>
      let '(r, w) := answer _ c σ.(world) in
      mkSystem (<[i := k r]> σ.(programs)) w (σ.(history) ++ [Event c r])
  | _ => σ
  end.
Definition follow (schedule : list nat) (σ : system) : system := fold_left turn schedule σ.

Lemma follow_reaches schedule σ : pool_reaches σ (follow schedule σ).
Proof.
  unfold pool_reaches in *. revert σ. induction schedule as [|i schedule IH]; intros σ; [apply rtc_refl|]. cbn.
  transitivity (turn σ i); [|apply IH]. unfold turn. destruct σ as [ps w h]. cbn.
  destruct (ps !! i) as [[a|e|X c k]|] eqn:Hi; try apply rtc_refl.
  pose proof (answer_answers X c w) as Hans. destruct (answer X c w) as [r w'].
  by apply rtc_once, Pool_step.
Qed.
End pool.
Arguments event : clear implicits.
Arguments system : clear implicits.

(** ** Tokens

    A token monitor counts: some answers grant tokens, some calls spend one and
    are forbidden without.  If every program of a pool obeys it, the pool as a
    whole spends at most what it is granted, whatever the interleaving. *)

Section tokens.
Context {E : Type → Type}.
Context (granted : ∀ X, E X → outcome exn X → nat) (spends : ∀ X, E X → bool).
Context (can_answer : ∀ X, E X → outcome exn X → Prop).

Definition token_monitor : monitor E nat :=
  {| allowed := λ X m c, spends X c = true → (0 < m)%nat;
     watch := λ X m c r, ((if spends X c then pred m else m) + granted X c r)%nat;
     possible := can_answer |}.

Definition event_granted (e : event E) : nat := match e with Event c r => granted _ c r end.
Definition event_spent (e : event E) : nat :=
  match e with Event c r => if spends _ c then 1 else 0 end.
Definition total_granted (h : list (event E)) : nat := sum_list_with event_granted h.
Definition total_spent (h : list (event E)) : nat := sum_list_with event_spent h.

Lemma sum_list_with_snoc {X} (f : X → nat) l x :
  sum_list_with f (l ++ [x]) = (sum_list_with f l + f x)%nat.
Proof. rewrite sum_list_with_app. simpl. lia. Qed.

Lemma sum_list_insert (ms : list nat) i m m' :
  ms !! i = Some m → (sum_list (<[i := m']> ms) + m = sum_list ms + m')%nat.
Proof.
  revert i. induction ms as [|x ms IH]; intros [|i]; simpl; try done.
  - intros [= ->]. unfold id. lia.
  - intros H%IH. unfold id in *. lia.
Qed.

Context {A W : Type} (answers : ∀ X, E X → W → outcome exn X → W → Prop).
Context (answers_can : ∀ X c w r w', answers X c w r w' → can_answer X c r).

Lemma pool_tokens (ps : list (prog E A)) w s :
  Forall (λ p, obeys token_monitor p 0 (λ _ _, True)) ps →
  pool_reaches answers (start ps w) s →
  (total_spent s.(history) ≤ total_granted s.(history))%nat.
Proof.
  intros Hps Hreach.
  pose (I (s : system E A W) := ∃ ms, Forall2 (λ p m, obeys token_monitor p m (λ _ _, True)) s.(programs) ms ∧
    (total_spent s.(history) + sum_list ms = total_granted s.(history))%nat).
  assert (I s) as (ms & _ & Hsum); [|lia].
  eapply (pool_invariant answers I); [| |exact Hreach].
  - intros s1 s2 (ms & Hms & Hsum) Hstep.
    destruct Hstep as [qs v h i X c k r v' Hi Hans]. simpl in *.
    destruct (Forall2_lookup_l _ _ _ _ _ Hms Hi) as (m & Hm & Hobeys).
    destruct Hobeys as [Hallowed Hobeys]. specialize (Hobeys r (answers_can _ _ _ _ _ Hans)).
    simpl in Hallowed, Hobeys.
    set (m' := ((if spends X c then pred m else m) + granted X c r)%nat) in *.
    exists (<[i := m']> ms). split; [by apply Forall2_insert|].
    unfold total_spent, total_granted in *. cbn [history]. rewrite !sum_list_with_snoc.
    pose proof (sum_list_insert ms i m m' Hm) as Hins. unfold m' in *. simpl.
    destruct (spends X c); [specialize (Hallowed eq_refl)|]; lia.
  - exists (replicate (length ps) 0%nat). simpl. split.
    + clear -Hps. induction Hps; simpl; by constructor.
    + unfold total_spent, total_granted. simpl. clear. induction ps; simpl; [done|]. by unfold id.
Qed.
End tokens.

(** ** Programs of a pool keep obeying their monitor *)

Section monitored.
Context {E : Type → Type} {A W M : Type} (mon : monitor E M).
Context (answers : ∀ X, E X → W → outcome exn X → W → Prop).
Context (answers_possible : ∀ X c w r w', answers X c w r w' → possible mon c r).

Definition obedient (p : prog E A) : Prop := ∃ m, obeys mon p m (λ _ _, True).

Lemma pool_obedient (ps : list (prog E A)) w s :
  Forall obedient ps → pool_reaches answers (start ps w) s → Forall obedient s.(programs).
Proof.
  intros Hps Hreach. apply (pool_invariant answers (λ s, Forall obedient s.(programs))) in Hreach;
    [done | | done].
  intros s1 s2 Hall Hstep. destruct Hstep as [qs v h i X c k r v' Hi Hans]. simpl in *.
  apply Forall_insert; [done|]. rewrite Forall_lookup in Hall.
  destruct (Hall i _ Hi) as [m [_ Hm]].
  exists (watch mon m c r). apply Hm. by eapply answers_possible.
Qed.

(** What an obedient program calls next, the monitor allows. *)
Lemma obedient_call {X} (c : E X) k : obedient (Call c k) → ∃ m, allowed mon m c.
Proof. intros [m [Hc _]]. by exists m. Qed.
End monitored.

(** ** Programs that are safe in every ghost state *)

Section safe.
Context {E : Type → Type} {M : Type} (mon : monitor E M).

Definition safe {A} (p : prog E A) (P : A → Prop) : Prop :=
  ∀ m, obeys mon p m (λ r _, match r with Return a => P a | Throw _ => True end).

Lemma safe_ret {A} (a : A) (P : A → Prop) : P a → safe (Ret a) P.
Proof. by intros Ha m. Qed.

Lemma safe_raise {A} e (P : A → Prop) : safe (Raise e) P.
Proof. by intros m. Qed.

Lemma safe_bind {A B} (p : prog E A) (f : A → prog E B) (P : A → Prop) (Q : B → Prop) :
  safe p P → (∀ a, P a → safe (f a) Q) → safe (p ≫= f) Q.
Proof.
  intros Hp Hf m. apply obeys_mbind. eapply obeys_mono; [|apply Hp].
  intros [a|e] m' H; [by apply Hf | done].
Qed.

Lemma safe_try {A} (p : prog E A) (h : exn → prog E A) P :
  safe p P → (∀ e, safe (h e) P) → safe (prog_try p h) P.
Proof.
  intros Hp Hh m. apply obeys_try. eapply obeys_mono; [|apply Hp].
  intros [a|e] m' H; [done | by apply Hh].
Qed.

Lemma safe_outcome {A} (o : outcome exn A) (P : A → Prop) :
  (∀ a, o = Return a → P a) → safe (of_outcome o) P.
Proof. intros HP m. apply obeys_outcome. destruct o; auto. Qed.

Lemma safe_await {X} (c : E X) (P : X → Prop) :
  (∀ m, allowed mon m c) → (∀ x, possible mon c (Return x) → P x) → safe (await c) P.
Proof. intros Hc HP m. apply obeys_await; [done|]. intros [x|e] Hr; auto. Qed.

Lemma safe_for {A B} (l : list A) (f : B → A → prog E B) acc (P : B → Prop) :
  P acc → (∀ acc x, x ∈ l → P acc → safe (f acc x) P) → safe (prog_for l f acc) P.
Proof.
  intros Hacc Hf m. eapply (obeys_for _ _ _ (λ acc _, P acc)); [done| |done].
  intros acc' m' x Hx HP. eapply obeys_mono; [|by apply Hf]. by intros [].
Qed.

Lemma safe_mono {A} (p : prog E A) (P Q : A → Prop) :
  (∀ a, P a → Q a) → safe p P → safe p Q.
Proof. intros HPQ Hp m. eapply obeys_mono; [|apply Hp]. intros [a|e]; auto. Qed.

Lemma safe_obedient {A} (p : prog E A) P (m : M) : safe p P → obedient mon p.
Proof. intros Hp. exists m. eapply obeys_mono; [|apply Hp]. done. Qed.
End safe.

(** ** The same, with a bound on what the program throws *)

Section safely.
Context {E : Type → Type} {M : Type} (mon : monitor E M) (X : exn → Prop).

Definition safely {A} (p : prog E A) (P : A → Prop) : Prop :=
  ∀ m, obeys mon p m (λ r _, match r with Return a => P a | Throw e => X e end).

Lemma safely_ret {A} (a : A) (P : A → Prop) : P a → safely (Ret a) P.
Proof. by intros Ha m. Qed.

Lemma safely_raise {A} e (P : A → Prop) : X e → safely (Raise e) P.
Proof. by intros He m. Qed.

Lemma safely_bind {A B} (p : prog E A) (f : A → prog E B) (P : A → Prop) (Q : B → Prop) :
  safely p P → (∀ a, P a → safely (f a) Q) → safely (p ≫= f) Q.
Proof.
  intros Hp Hf m. apply obeys_mbind. eapply obeys_mono; [|apply Hp].
  intros [a|e] m' H; [by apply Hf | done].
Qed.

Lemma safely_outcome {A} (o : outcome exn A) (P : A → Prop) :
  (∀ a, o = Return a → P a) → (∀ e, o = Throw e → X e) → safely (of_outcome o) P.
Proof. intros HP HX m. apply obeys_outcome. destruct o; auto. Qed.

Lemma safely_await {Y} (c : E Y) (P : Y → Prop) :
  (∀ m, allowed mon m c) → (∀ y, possible mon c (Return y) → P y) →
  (∀ e, possible mon c (Throw e) → X e) → safely (await c) P.
Proof. intros Hc HP HX m. apply obeys_await; [done|]. intros [y|e] Hr; auto. Qed.
End safely.

(** ** Programs that make allowed calls only *)

Definition allow_monitor {E : Type → Type} (may : ∀ X, E X → Prop)
    (can_answer : ∀ X, E X → outcome exn X → Prop) : monitor E unit :=
  {| allowed := λ X _ c, may X c; watch := λ X _ _ _, tt; possible := can_answer |}.

(** ** Running a program over the implementation of its dependency

    A component that calls a port is a program over the calls of the port; the adapter of
    the port is a program, for each call, over the calls one layer down.  [interpret] is
    the program that results, and [obeys_interpret] carries what was proved of the
    component against the port's protocol to the composition. *)

Open Scope list_scope.

Section interpret.
Context {E F : Type → Type} (handle : ∀ X, E X → prog F X).

(** Go on with the outcome of [p], value or exception. *)
Fixpoint continue {X A} (p : prog F X) (k : outcome exn X → prog F A) : prog F A :=
  match p with
  | Ret x => k (Return x)
  | Raise e => k (Throw e)
  | Call c k' => Call c (λ r, continue (k' r) k)
  end.

Fixpoint interpret {A} (p : prog E A) : prog F A :=
  match p with
  | Ret a => Ret a
  | Raise e => Raise e
  | Call c k => continue (handle _ c) (λ r, interpret (k r))
  end.

Lemma run_continue {S X A} (answer : ∀ X, F X → S → outcome exn X * S) (p : prog F X)
    (k : outcome exn X → prog F A) s :
  run answer (continue p k) s = run answer (k (run answer p s).1) (run answer p s).2.
Proof. revert s. induction p as [x|e|Y c k' IH]; intros s; cbn [continue run]; [done..|]. apply IH. Qed.

Section obeys.
Context {M : Type} (mon : monitor F M).

Lemma obeys_continue {X A} (p : prog F X) (k : outcome exn X → prog F A) m Q :
  obeys mon p m (λ r m, obeys mon (k r) m Q) → obeys mon (continue p k) m Q.
Proof.
  revert m. induction p as [x|e|Y c k' IH]; intros m; simpl; [done..|].
  intros [Hc H]. split; [done|]. intros r Hr. by apply IH, H.
Qed.

(** The implementation refines the port: when it starts a permitted call in related
    ghost states it keeps to its own protocol, answers as the port may, and leaves the
    ghost states related. *)
Lemma obeys_interpret {N A} (port : monitor E N) (R : N → M → Prop) (p : prog E A) n m Q :
  (∀ X (c : E X) n m, R n m → allowed port n c →
     obeys mon (handle X c) m (λ r m, possible port c r ∧ R (watch port n c r) m)) →
  R n m → obeys port p n Q → obeys mon (interpret p) m (λ r m, ∃ n, R n m ∧ Q r n).
Proof.
  intros Hhandle. revert n m. induction p as [a|e|X c k IH]; intros n m HR Hp; simpl in *.
  - by exists n.
  - by exists n.
  - destruct Hp as [Hc Hp]. apply obeys_continue. eapply obeys_mono; [|by apply Hhandle].
    intros r m' [Hr HR']. eapply IH; [exact HR'|]. by apply Hp.
Qed.

Lemma obeys_interpret_bind {A B} (p : prog E A) (f : A → prog E B) m Q :
  obeys mon (interpret p) m
    (λ r m, match r with Return a => obeys mon (interpret (f a)) m Q | Throw e => Q (Throw e) m end) →
  obeys mon (interpret (p ≫= f)) m Q.
Proof.
  change (p ≫= f) with (prog_bind f p). revert m.
  induction p as [a|e|X c k IH]; intros m; simpl; [done..|].
  generalize (handle X c). intros q. revert m.
  induction q as [x|e|Y d k' IH']; intros m; simpl; [apply IH..|].
  intros [Hd H]. split; [done|]. intros r Hr. by apply IH', H.
Qed.

Lemma obeys_interpret_try {A} (p : prog E A) (h : exn → prog E A) m Q :
  obeys mon (interpret p) m
    (λ r m, match r with Return a => Q (Return a) m | Throw e => obeys mon (interpret (h e)) m Q end) →
  obeys mon (interpret (prog_try p h)) m Q.
Proof.
  revert m. induction p as [a|e|X c k IH]; intros m; simpl; [done..|].
  generalize (handle X c). intros q. revert m.
  induction q as [x|e|Y d k' IH']; intros m; simpl; [apply IH..|].
  intros [Hd H]. split; [done|]. intros r Hr. by apply IH', H.
Qed.

Lemma obeys_interpret_await {X} (c : E X) m Q :
  obeys mon (handle X c) m Q → obeys mon (interpret (await c)) m Q.
Proof.
  intros H. unfold await. cbn [interpret]. apply obeys_continue.
  eapply obeys_mono; [|exact H]. by intros [].
Qed.

Lemma obeys_interpret_outcome {A} (o : outcome exn A) m Q :
  Q o m → obeys mon (interpret (of_outcome o)) m Q.
Proof. by destruct o. Qed.
End obeys.
End interpret.
