(* ===== verification/Json.v ===== *)
(** * JSON values and [JSON.parse]

    The part of ECMAScript's [JSON.parse] the source relies on.  A string is a
    list of 8-bit code units here; [wide] represents the code units above 255
    that an escape can name.  Integer literals are read exactly (as doubles);
    [other_number] reads the literals with a fraction or an exponent. *)

Set Warnings "-register-all".
From S2P Require Import Prelude.
From S2P Require Import JsNumber.
From S2P Require Import JsString.
From S2P Require Import JsCollections.
Open Scope string_scope.
Open Scope list_scope.

(** What [unknown] holds when it comes out of JSON or an IPC call. *)
Inductive json : Type :=
| JNull
| JBool (b : bool)
| JNumber (n : number)
| JString (s : string)
| JArray (l : list json)
| JObject (fields : jsmap string json).

(** [value[key]]: [undefined] ([None]) for an absent field. *)
Definition get_field (key : string) (fields : jsmap string json) : option json := map_get key fields.

(** ** Characters *)

Definition quote_mark : ascii := ascii_of_nat 34.
(** A string between quotation marks, inside a string. *)
Definition quoted (s : string) : string :=
  String quote_mark (s +:+ String quote_mark EmptyString).
Definition backslash : ascii := ascii_of_nat 92.

Definition is_space (c : ascii) : bool :=
  let n := nat_of_ascii c in (n =? 32)%nat || (n =? 9)%nat || (n =? 10)%nat || (n =? 13)%nat.

Fixpoint skip_spaces (s : string) : string :=
  match s with
  | String c rest => if is_space c then skip_spaces rest else s
  | EmptyString => s
  end.

Definition is_digit (c : ascii) : bool :=
  let n := nat_of_ascii c in (48 <=? n)%nat && (n <=? 57)%nat.

Definition hex_value (c : ascii) : option nat :=
  let n := nat_of_ascii c in
  if (48 <=? n)%nat && (n <=? 57)%nat then Some (n - 48)%nat
  else if (97 <=? n)%nat && (n <=? 102)%nat then Some (n - 87)%nat
  else if (65 <=? n)%nat && (n <=? 70)%nat then Some (n - 55)%nat
  else None.

(** The character a one-letter escape stands for. *)
Definition simple_escape (c : ascii) : option ascii :=
  let n := nat_of_ascii c in
  if (n =? 34)%nat || (n =? 92)%nat || (n =? 47)%nat then Some c
  else if (n =? 98)%nat then Some (ascii_of_nat 8)
  else if (n =? 102)%nat then Some (ascii_of_nat 12)
  else if (n =? 110)%nat then Some (ascii_of_nat 10)
  else if (n =? 114)%nat then Some (ascii_of_nat 13)
  else if (n =? 116)%nat then Some (ascii_of_nat 9)
  else None.

(** Strip a literal such as [true]. *)
Fixpoint strip_prefix (p s : string) : option string :=
  match p, s with
  | EmptyString, _ => Some s
  | String c p, String d s => if bool_decide (c = d) then strip_prefix p s else None
  | _, _ => None
  end.

Section parse.
Context (wide : nat → string) (other_number : string → option number).

Definition code_unit (n : nat) : string :=
  if (n <? 256)%nat then String (ascii_of_nat n) EmptyString else wide n.

(** After the opening quote: the contents and what follows the closing quote. *)
Fixpoint parse_chars (s : string) : option (string * string) :=
  match s with
  | EmptyString => None
  | String c rest =>
      if bool_decide (c = quote_mark) then Some (EmptyString, rest)
      else if bool_decide (c = backslash) then
        match rest with
        | EmptyString => None
        | String e rest1 =>
            if (nat_of_ascii e =? 117)%nat then
              match rest1 with
              | String a (String b (String c' (String d rest2))) =>
                  match hex_value a, hex_value b, hex_value c', hex_value d with
                  | Some a, Some b, Some c', Some d =>
                      match parse_chars rest2 with
                      | Some (out, rest) =>
                          Some (code_unit (a * 4096 + b * 256 + c' * 16 + d) +:+ out, rest)
                      | None => None
                      end
                  | _, _, _, _ => None
                  end
              | _ => None
              end
            else
              match simple_escape e, parse_chars rest1 with
              | Some e, Some (out, rest) => Some (String e out, rest)
              | _, _ => None
              end
        end
      else if (nat_of_ascii c <? 32)%nat then None
      else
        match parse_chars rest with
        | Some (out, rest) => Some (String c out, rest)
        | None => None
        end
  end.

(** The longest run of digits, its value and its length. *)
Fixpoint parse_digits (acc : Z) (count : nat) (s : string) : Z * nat * string :=
  match s with
  | String c rest =>
      if is_digit c then parse_digits (acc * 10 + (Z.of_nat (nat_of_ascii c) - 48)) (S count) rest
      else (acc, count, s)
  | EmptyString => (acc, count, s)
  end.

(** A character that continues a numeral with a fraction or an exponent. *)
Definition continues_number (s : string) : bool :=
  match s with
  | String c _ => let n := nat_of_ascii c in (n =? 46)%nat || (n =? 69)%nat || (n =? 101)%nat
  | EmptyString => false
  end.

Definition is_number_char (c : ascii) : bool :=
  let n := nat_of_ascii c in
  is_digit c || (n =? 46)%nat || (n =? 69)%nat || (n =? 101)%nat || (n =? 43)%nat || (n =? 45)%nat.

Fixpoint span_number (s : string) : string * string :=
  match s with
  | String c rest =>
      if is_number_char c then let '(a, b) := span_number rest in (String c a, b) else (EmptyString, s)
  | EmptyString => (EmptyString, EmptyString)
  end.

(** The double nearest to an integer. *)
Definition integer_number (z : Z) : number := of_scaled z 0.

Definition parse_number (s : string) : option (number * string) :=
  let '(negative, digits) :=
    match s with
    | String c rest => if (nat_of_ascii c =? 45)%nat then (true, rest) else (false, s)
    | EmptyString => (false, s)
    end in
  let '(z, count, rest) := parse_digits 0 0 digits in
  if (count =? 0)%nat then None
  else if (1 <? count)%nat && match digits with
                              | String c _ => (nat_of_ascii c =? 48)%nat
                              | EmptyString => false
                              end then None
  else if continues_number rest then
    let '(literal, rest) := span_number s in
    n ← other_number literal; Some (n, rest)
  else Some (integer_number (if (negative : bool) then - z else z)%Z, rest).

(** [fuel] bounds the number of values and separators that are read; the length of
    the text is enough, since each reads at least one character. *)
Fixpoint parse_value (fuel : nat) (s : string) : option (json * string) :=
  match fuel with
  | O => None
  | S fuel =>
      let s := skip_spaces s in
      match s with
      | EmptyString => None
      | String c rest =>
          let n := nat_of_ascii c in
          if (n =? 123)%nat then parse_members fuel map_new true rest
          else if (n =? 91)%nat then parse_elements fuel [] true rest
          else if bool_decide (c = quote_mark) then
            '(str, rest) ← parse_chars rest; Some (JString str, rest)
          else
            match strip_prefix "true" s, strip_prefix "false" s, strip_prefix "null" s with
            | Some rest, _, _ => Some (JBool true, rest)
            | _, Some rest, _ => Some (JBool false, rest)
            | _, _, Some rest => Some (JNull, rest)
            | _, _, _ => '(num, rest) ← parse_number s; Some (JNumber num, rest)
            end
      end
  end
with parse_members (fuel : nat) (fields : jsmap string json) (first : bool) (s : string) :
    option (json * string) :=
  match fuel with
  | O => None
  | S fuel =>
      match skip_spaces s with
      | String c rest =>
          let n := nat_of_ascii c in
          if (n =? 125)%nat && first then Some (JObject fields, rest)
          else if bool_decide (c = quote_mark) then
            '(key, rest) ← parse_chars rest;
            match skip_spaces rest with
            | String colon rest =>
                if (nat_of_ascii colon =? 58)%nat then
                  '(value, rest) ← parse_value fuel rest;
                  let fields := map_set key value fields in
                  match skip_spaces rest with
                  | String d rest =>
                      if (nat_of_ascii d =? 44)%nat then parse_members fuel fields false rest
                      else if (nat_of_ascii d =? 125)%nat then Some (JObject fields, rest)
                      else None
                  | EmptyString => None
                  end
                else None
            | EmptyString => None
            end
          else None
      | EmptyString => None
      end
  end
with parse_elements (fuel : nat) (elements : list json) (first : bool) (s : string) :
    option (json * string) :=
  match fuel with
  | O => None
  | S fuel =>
      match skip_spaces s with
      | String c rest' =>
          if (nat_of_ascii c =? 93)%nat && first then Some (JArray elements, rest')
          else
            '(value, rest) ← parse_value fuel s;
            let elements := elements ++ [value] in
            match skip_spaces rest with
            | String d rest =>
                if (nat_of_ascii d =? 44)%nat then parse_elements fuel elements false rest
                else if (nat_of_ascii d =? 93)%nat then Some (JArray elements, rest)
                else None
            | EmptyString => None
            end
      | EmptyString => None
      end
  end.

(** [JSON.parse]: [None] when it throws a [SyntaxError]. *)
Definition JSON_parse (s : string) : option json :=
  match parse_value (S (2 * String.length s)) s with
  | Some (value, rest) => if is_empty (skip_spaces rest) then Some value else None
  | None => None
  end.

(** ** [JSON.stringify] of strings *)

Definition hex_digit (n : nat) : ascii :=
  ascii_of_nat (if (n <? 10)%nat then 48 + n else 87 + n).

(** QuoteJSONString on one code unit. *)
Definition json_escape (c : ascii) : string :=
  let n := nat_of_ascii c in
  let short (d : ascii) := String backslash (String d EmptyString) in
  if (n =? 8)%nat then short "b"%char
  else if (n =? 9)%nat then short "t"%char
  else if (n =? 10)%nat then short "n"%char
  else if (n =? 12)%nat then short "f"%char
  else if (n =? 13)%nat then short "r"%char
  else if (n =? 34)%nat then short quote_mark
  else if (n =? 92)%nat then short backslash
  else if (n <? 32)%nat then
    String backslash (String "u"%char (String "0"%char (String "0"%char
      (String (hex_digit (n / 16)) (String (hex_digit (n mod 16)) EmptyString)))))
  else String c EmptyString.

Fixpoint json_escape_all (s : string) : string :=
  match s with
  | EmptyString => EmptyString
  | String c s => json_escape c +:+ json_escape_all s
  end.

Definition json_string (s : string) : string :=
  String quote_mark (json_escape_all s +:+ String quote_mark EmptyString).

Definition json_field (key value : string) : string := json_string key +:+ ":" +:+ value.

(** ** What is written is read back *)

Lemma parse_chars_escape c rest :
  parse_chars (json_escape c +:+ rest) =
    match parse_chars rest with
    | Some (out, rest) => Some (String c out, rest)
    | None => None
    end.
Proof. by destruct c as [[] [] [] [] [] [] [] []]. Qed.

Lemma parse_chars_written s rest :
  parse_chars (json_escape_all s +:+ String quote_mark rest) = Some (s, rest).
Proof.
  induction s as [|c s IH]; [done|]. simpl json_escape_all.
  rewrite string_app_assoc, parse_chars_escape, IH. done.
Qed.

Lemma json_string_app s rest :
  json_string s +:+ rest = String quote_mark (json_escape_all s +:+ String quote_mark rest).
Proof. unfold json_string. by rewrite string_app_cons, string_app_assoc. Qed.

Lemma parse_value_string n s rest :
  parse_value (S n) (json_string s +:+ rest) = Some (JString s, rest).
Proof.
  rewrite json_string_app. cbn [parse_value skip_spaces].
  change (is_space quote_mark) with false. cbv iota.
  change (nat_of_ascii quote_mark =? 123)%nat with false.
  change (nat_of_ascii quote_mark =? 91)%nat with false. cbv iota.
  rewrite bool_decide_true by done. by rewrite parse_chars_written.
Qed.

(** One member, when its value is read back. *)
Lemma parse_members_field n fields first key value v (d : ascii) rest :
  (d = ","%char ∨ d = "}"%char) →
  parse_value (S n) (value +:+ String d rest) = Some (v, String d rest) →
  parse_members (S (S n)) fields first (json_field key value +:+ String d rest) =
    if bool_decide (d = ","%char) then parse_members (S n) (map_set key v fields) false rest
    else Some (JObject (map_set key v fields), rest).
Proof.
  intros Hd Hv. unfold json_field. rewrite string_app_assoc, json_string_app.
  set (fuel := S n) in *. cbn [parse_members skip_spaces].
  change (is_space quote_mark) with false. cbv iota.
  change (nat_of_ascii quote_mark =? 125)%nat with false. cbn [andb].
  rewrite bool_decide_true by done. rewrite parse_chars_written. cbn [mbind option_bind].
  rewrite string_app_assoc, string_app_cons, string_app_nil. cbn [skip_spaces].
  change (is_space ":"%char) with false. cbv iota. change (nat_of_ascii ":"%char =? 58)%nat with true.
  cbv iota. rewrite Hv. cbn [mbind option_bind]. by destruct Hd as [-> | ->].
Qed.
End parse.
