(* ===== verification/JsText.v ===== *)
(** * Numbers as text, [JSON.stringify], sorting and slicing

    The parts of the standard library that the remote adapters use on text and on
    arrays.  A safe integer prints in decimal; [other] prints the remaining finite
    numbers, as [Json.other_number] reads them. *)

Set Warnings "-register-all".
From S2P Require Import Prelude.
From S2P Require Import JsNumber.
From S2P Require Import JsString.
From S2P Require Import JsCollections.
From S2P Require Import Json.
From Stdlib Require Import ZArith Lia Sorting.Sorted.
From Stdlib Require Import NArith Lia.
(** ** Bytes as text: TextEncoder, TextDecoder, btoa, atob

    The platform functions the id codecs use.  A binary string holds one byte per
    character.  Text is 8-bit code units here, as everywhere in the development;
    [wide] represents the code points above 255 that a decoder can produce. *)

Open Scope string_scope.
#[local] Open Scope N_scope.
Open Scope js_scope.

(** ** UTF-8 *)

Definition byte (n : N) : ascii := ascii_of_N n.
Definition code (c : ascii) : N := N_of_ascii c.

(** [new TextEncoder().encode(s)]. *)
Fixpoint utf8_encode (s : string) : string :=
  match s with
  | EmptyString => EmptyString
  | String c s =>
      if code c <? 128 then String c (utf8_encode s)
      else String (byte (192 + code c / 64)) (String (byte (128 + code c mod 64)) (utf8_encode s))
  end.

(** The low six bits of a continuation byte between [low] and [high]. *)
Definition continuation (low high : N) (c : ascii) : option N :=
  if (low <=? code c) && (code c <=? high) then Some (code c - 128) else None.

Section decoder.
Context (wide : N → string).

Definition code_point (n : N) (s : string) : string :=
  if n <? 256 then String (byte n) s else wide n +:+ s.

(** The bounds of the second byte after a given first byte. *)
Definition second_low (lead : N) : N := if lead =? 224 then 160 else if lead =? 240 then 144 else 128.
Definition second_high (lead : N) : N := if lead =? 237 then 159 else if lead =? 244 then 143 else 191.

(** The UTF-8 decoder of the Encoding standard: [None] on a malformed sequence. *)
Fixpoint utf8_decode_bytes (s : string) : option string :=
  match s with
  | EmptyString => Some EmptyString
  | String c s1 =>
      let n := code c in
      if n <? 128 then t ← utf8_decode_bytes s1; Some (code_point n t)
      else if (194 <=? n) && (n <=? 223) then
        match s1 with
        | String c1 s2 =>
            x ← continuation 128 191 c1;
            t ← utf8_decode_bytes s2;
            Some (code_point ((n - 192) * 64 + x) t)
        | EmptyString => None
        end
      else if (224 <=? n) && (n <=? 239) then
        match s1 with
        | String c1 (String c2 s3) =>
            x ← continuation (second_low n) (second_high n) c1;
            y ← continuation 128 191 c2;
            t ← utf8_decode_bytes s3;
            Some (code_point ((n - 224) * 4096 + x * 64 + y) t)
        | _ => None
        end
      else if (240 <=? n) && (n <=? 244) then
        match s1 with
        | String c1 (String c2 (String c3 s4)) =>
            x ← continuation (second_low n) (second_high n) c1;
            y ← continuation 128 191 c2;
            z ← continuation 128 191 c3;
            t ← utf8_decode_bytes s4;
            Some (code_point ((n - 240) * 262144 + x * 4096 + y * 64 + z) t)
        | _ => None
        end
      else None
  end.

(** [new TextDecoder('utf-8', { fatal: true }).decode(s)]: a leading byte order
    mark is removed. *)
Definition utf8_decode (s : string) : option string :=
  match s with
  | String a (String b (String c rest)) =>
      if (code a =? 239) && (code b =? 187) && (code c =? 191) then utf8_decode_bytes rest
      else utf8_decode_bytes s
  | _ => utf8_decode_bytes s
  end.
End decoder.

(** ** Base64 *)

Definition b64_char (n : N) : ascii :=
  if n <? 26 then byte (65 + n)
  else if n <? 52 then byte (97 + (n - 26))
  else if n <? 62 then byte (48 + (n - 52))
  else if n =? 62 then "+" else "/".

Definition b64_value (c : ascii) : option N :=
  let n := code c in
  if (65 <=? n) && (n <=? 90) then Some (n - 65)
  else if (97 <=? n) && (n <=? 122) then Some (n - 97 + 26)
  else if (48 <=? n) && (n <=? 57) then Some (n - 48 + 52)
  else if n =? 43 then Some 62
  else if n =? 47 then Some 63
  else None.

Definition equals_sign : ascii := "=".

(** [btoa(s)] on a binary string. *)
Fixpoint btoa (s : string) : string :=
  match s with
  | EmptyString => EmptyString
  | String a EmptyString =>
      String (b64_char (code a / 4)) (String (b64_char (code a mod 4 * 16)) "==")
  | String a (String b EmptyString) =>
      String (b64_char (code a / 4))
        (String (b64_char (code a mod 4 * 16 + code b / 16))
          (String (b64_char (code b mod 16 * 4)) "="))
  | String a (String b (String c rest)) =>
      String (b64_char (code a / 4))
        (String (b64_char (code a mod 4 * 16 + code b / 16))
          (String (b64_char (code b mod 16 * 4 + code c / 64))
            (String (b64_char (code c mod 64)) (btoa rest))))
  end.

(** ASCII whitespace. *)
Definition is_ascii_space (c : ascii) : bool :=
  let n := code c in (n =? 9) || (n =? 10) || (n =? 12) || (n =? 13) || (n =? 32).
Fixpoint strip_spaces (s : string) : string :=
  match s with
  | EmptyString => EmptyString
  | String c s => if is_ascii_space c then strip_spaces s else String c (strip_spaces s)
  end.

(** Without its last character when that is [=]. *)
Fixpoint drop_equals (s : string) : string :=
  match s with
  | EmptyString => EmptyString
  | String c EmptyString => if bool_decide (c = equals_sign) then EmptyString else s
  | String c s => String c (drop_equals s)
  end.

Definition slength (s : string) : N := N.of_nat (String.length s).

(** Four characters at a time; the bits left over by the last group are dropped. *)
Fixpoint b64_groups (s : string) : option string :=
  match s with
  | EmptyString => Some EmptyString
  | String a EmptyString => None
  | String a (String b EmptyString) =>
      v ← b64_value a; w ← b64_value b;
      Some (String (byte (v * 4 + w / 16)) EmptyString)
  | String a (String b (String c EmptyString)) =>
      v ← b64_value a; w ← b64_value b; x ← b64_value c;
      Some (String (byte (v * 4 + w / 16)) (String (byte (w mod 16 * 16 + x / 4)) EmptyString))
  | String a (String b (String c (String d rest))) =>
      v ← b64_value a; w ← b64_value b; x ← b64_value c; y ← b64_value d;
      t ← b64_groups rest;
      Some (String (byte (v * 4 + w / 16))
             (String (byte (w mod 16 * 16 + x / 4)) (String (byte (x mod 4 * 64 + y)) t)))
  end.

(** [atob(s)], forgiving as the standard says: [None] when it throws. *)
Definition atob (s : string) : option string :=
  let data := strip_spaces s in
  let data := if slength data mod 4 =? 0 then drop_equals (drop_equals data) else data in
  if slength data mod 4 =? 1 then None else b64_groups data.

(** ** String methods of the codecs *)

(** [s.replaceAll(from, to)] on one-character strings. *)
Fixpoint replaceAll (from to : ascii) (s : string) : string :=
  match s with
  | EmptyString => EmptyString
  | String c s => String (if bool_decide (c = from) then to else c) (replaceAll from to s)
  end.

(** [s.replace(/=+$/, '')]. *)
Fixpoint strip_trailing (x : ascii) (s : string) : string :=
  match s with
  | EmptyString => EmptyString
  | String c s =>
      match strip_trailing x s with
      | EmptyString => if bool_decide (c = x) then EmptyString else String c EmptyString
      | t => String c t
      end
  end.

(** [x.repeat(n)]. *)
Fixpoint repeat_char (x : ascii) (n : nat) : string :=
  match n with O => EmptyString | S n => String x (repeat_char x n) end.

(** The URL-safe alphabet: [[A-Za-z0-9_-]]. *)
Definition is_url_char (c : ascii) : bool :=
  let n := code c in
  ((65 <=? n) && (n <=? 90)) || ((97 <=? n) && (n <=? 122)) || ((48 <=? n) && (n <=? 57)) ||
  (n =? 95) || (n =? 45).

Fixpoint string_forallb (p : ascii → bool) (s : string) : bool :=
  match s with EmptyString => true | String c s => p c && string_forallb p s end.

(** ** Facts *)

Lemma byte_code c : byte (code c) = c.
Proof. apply ascii_N_embedding. Qed.
Lemma code_byte n : n < 256 → code (byte n) = n.
Proof. apply N_ascii_embedding. Qed.
Lemma code_bounded c : code c < 256.
Proof. apply N_ascii_bounded. Qed.

Lemma byte_eq n c : n = code c → byte n = c.
Proof. intros ->. apply byte_code. Qed.

(** A property of the 64 digits, by enumeration. *)
Lemma digits_forall (p : N → bool) :
  forallb p (map N.of_nat (seq 0 64)) = true → ∀ n, n < 64 → p n = true.
Proof.
  intros H n Hn. apply forallb_forall with (x := n) in H; [done|].
  apply in_map_iff. exists (N.to_nat n). split; [lia|]. apply in_seq. lia.
Qed.

Lemma b64_value_char n : n < 64 → b64_value (b64_char n) = Some n.
Proof.
  intros Hn. apply (bool_decide_eq_true (b64_value (b64_char n) = Some n)).
  revert n Hn. apply digits_forall. vm_compute. reflexivity.
Qed.

(** What the translation to the URL-safe alphabet relies on. *)
Definition digit_ok (c : ascii) : bool :=
  let url := if bool_decide (c = "+"%char) then "-"%char
             else if bool_decide (c = "/"%char) then "_"%char else c in
  negb (bool_decide (c = equals_sign)) && negb (is_ascii_space c) && is_url_char url &&
  negb (bool_decide (c = "-"%char)) && negb (bool_decide (c = "_"%char)).

Lemma b64_char_ok n : n < 64 → digit_ok (b64_char n) = true.
Proof. revert n. apply digits_forall. vm_compute. reflexivity. Qed.

(** Induction by groups of three bytes. *)
Lemma string_ind3 (P : string → Prop) :
  P "" → (∀ a, P (String a "")) → (∀ a b, P (String a (String b ""))) →
  (∀ a b c s, P s → P (String a (String b (String c s)))) → ∀ s, P s.
Proof.
  intros H0 H1 H2 H3 s. enough (∀ n s, (String.length s ≤ n)%nat → P s) by eauto.
  clear s. induction n as [|n IH]; intros s Hs.
  - destruct s; [done|]. simpl in Hs. lia.
  - destruct s as [|a [|b [|c s]]]; [done..|]. apply H3, IH. simpl in Hs. lia.
Qed.

Lemma digit_bounds a b c :
  a < 256 → b < 256 → c < 256 →
  a / 4 < 64 ∧ a mod 4 * 16 < 64 ∧ a mod 4 * 16 + b / 16 < 64 ∧ b mod 16 * 4 < 64 ∧
  b mod 16 * 4 + c / 64 < 64 ∧ c mod 64 < 64.
Proof. intros. zify. Z.to_euclidean_division_equations. lia. Qed.

Lemma split_digit x y m : y < m → (x * m + y) / m = x ∧ (x * m + y) mod m = y.
Proof.
  intros Hy. split.
  - symmetry. apply (N.div_unique _ m x y); lia.
  - symmetry. apply (N.mod_unique _ m x y); lia.
Qed.

Lemma div_bound n m k : n < m * k → m ≠ 0 → n / m < k.
Proof. intros. by apply N.Div0.div_lt_upper_bound. Qed.

Lemma join_digits n m : m ≠ 0 → n / m * m + n mod m = n.
Proof. intros. rewrite (N.mul_comm (n / m)). symmetry. by apply N.div_mod. Qed.

Lemma group_bytes a b c :
  a < 256 → b < 256 → c < 256 →
  a / 4 * 4 + (a mod 4 * 16 + b / 16) / 16 = a ∧
  (a mod 4 * 16 + b / 16) mod 16 * 16 + (b mod 16 * 4 + c / 64) / 4 = b ∧
  (b mod 16 * 4 + c / 64) mod 4 * 64 + c mod 64 = c.
Proof.
  intros Ha Hb Hc.
  destruct (split_digit (a mod 4) (b / 16) 16) as [-> ->]; [apply div_bound; lia|].
  destruct (split_digit (b mod 16) (c / 64) 4) as [-> ->]; [apply div_bound; lia|].
  split_and!; by apply join_digits.
Qed.

(** The last, shorter groups. *)
Lemma group_bytes_1 a : a < 256 → a / 4 * 4 + a mod 4 * 16 / 16 = a.
Proof. intros. rewrite N.div_mul by done. by apply join_digits. Qed.

Lemma group_bytes_2 a b :
  a < 256 → b < 256 →
  a / 4 * 4 + (a mod 4 * 16 + b / 16) / 16 = a ∧
  (a mod 4 * 16 + b / 16) mod 16 * 16 + b mod 16 * 4 / 4 = b.
Proof.
  intros Ha Hb.
  destruct (split_digit (a mod 4) (b / 16) 16) as [-> ->]; [apply div_bound; lia|].
  rewrite N.div_mul by done. split; by apply join_digits.
Qed.

(** ** [atob] inverts [btoa] *)

(** [btoa] without its padding. *)
Fixpoint b64_raw (s : string) : string :=
  match s with
  | EmptyString => EmptyString
  | String a EmptyString => String (b64_char (code a / 4)) (String (b64_char (code a mod 4 * 16)) "")
  | String a (String b EmptyString) =>
      String (b64_char (code a / 4))
        (String (b64_char (code a mod 4 * 16 + code b / 16))
          (String (b64_char (code b mod 16 * 4)) ""))
  | String a (String b (String c rest)) =>
      String (b64_char (code a / 4))
        (String (b64_char (code a mod 4 * 16 + code b / 16))
          (String (b64_char (code b mod 16 * 4 + code c / 64))
            (String (b64_char (code c mod 64)) (b64_raw rest))))
  end.

Definition b64_padding (s : string) : nat :=
  match (slength (b64_raw s) mod 4)%N with 2%N => 2%nat | 3%N => 1%nat | _ => 0%nat end.

Lemma slength_cons4 a b c d s :
  slength (String a (String b (String c (String d s)))) = slength s + 1 * 4.
Proof. unfold slength. cbn [String.length]. lia. Qed.

Lemma slength_mod4 a b c d s :
  slength (String a (String b (String c (String d s)))) mod 4 = slength s mod 4.
Proof. rewrite slength_cons4. by apply N.Div0.mod_add. Qed.

Lemma btoa_raw s : btoa s = b64_raw s +:+ repeat_char equals_sign (b64_padding s).
Proof.
  induction s as [|a|a b|a b c s IH] using string_ind3; [done..|].
  unfold b64_padding. cbn [btoa b64_raw]. rewrite slength_mod4, IH.
  rewrite !string_app_cons. done.
Qed.

(** The six-bit digits of a group are below 64. *)
Ltac digit a b c :=
  destruct (digit_bounds (code a) (code b) (code c) (code_bounded a) (code_bounded b)
              (code_bounded c)) as (? & ? & ? & ? & ? & ?).

Lemma b64_groups_raw s : b64_groups (b64_raw s) = Some s.
Proof.
  induction s as [|a|a b|a b c s IH] using string_ind3; [done|..].
  - digit a a a. cbn [b64_raw b64_groups]. rewrite !b64_value_char by done. cbn.
    do 2 f_equal. apply byte_eq. apply group_bytes_1, code_bounded.
  - digit a b a. cbn [b64_raw b64_groups]. rewrite !b64_value_char by done. cbn.
    destruct (group_bytes_2 (code a) (code b)) as [-> ->]; try apply code_bounded.
    by rewrite !byte_code.
  - digit a b c. cbn [b64_raw b64_groups]. rewrite !b64_value_char, IH by done. cbn.
    destruct (group_bytes (code a) (code b) (code c)) as (-> & -> & ->); try apply code_bounded.
    by rewrite !byte_code.
Qed.

(** Every character of the raw text is a digit. *)
Lemma b64_raw_ok s : string_forallb digit_ok (b64_raw s) = true.
Proof.
  induction s as [|a|a b|a b c s IH] using string_ind3; [done|..];
    [digit a a a | digit a b a | digit a b c]; cbn [b64_raw string_forallb];
    rewrite ?b64_char_ok, ?IH by done; done.
Qed.

Lemma string_forallb_app p s t : string_forallb p (s +:+ t) = string_forallb p s && string_forallb p t.
Proof.
  induction s as [|c s IH]; [done|]. rewrite string_app_cons. cbn. by rewrite IH, andb_assoc.
Qed.

Lemma string_forallb_impl p q s :
  (∀ c, p c = true → q c = true) → string_forallb p s = true → string_forallb q s = true.
Proof.
  intros Hpq. induction s as [|c s IH]; [done|]. cbn. rewrite !andb_true_iff. naive_solver.
Qed.

Lemma strip_spaces_id s :
  string_forallb (λ c, negb (is_ascii_space c)) s = true → strip_spaces s = s.
Proof.
  induction s as [|c s IH]; [done|]. cbn. rewrite andb_true_iff, negb_true_iff.
  intros [-> Hs]. by rewrite IH.
Qed.

Lemma repeat_no_space n :
  string_forallb (λ c, negb (is_ascii_space c)) (repeat_char equals_sign n) = true.
Proof. induction n; [done|]. cbn. done. Qed.

Lemma digit_ok_parts c :
  digit_ok c = true →
  c ≠ equals_sign ∧ is_ascii_space c = false ∧ c ≠ "-"%char ∧ c ≠ "_"%char.
Proof. unfold digit_ok. intros H. bool_hyps. done. Qed.

Lemma btoa_no_space s : strip_spaces (btoa s) = btoa s.
Proof.
  apply strip_spaces_id. rewrite btoa_raw, string_forallb_app, repeat_no_space, andb_true_r.
  eapply string_forallb_impl; [|apply b64_raw_ok]. intros c Hc. by apply digit_ok_parts in Hc as (_ & -> & _).
Qed.

Lemma drop_equals_snoc s : drop_equals (s +:+ "=") = s.
Proof.
  induction s as [|c s IH]; [done|]. rewrite string_app_cons. cbn [drop_equals].
  destruct (s +:+ "=") eqn:Hs; [by destruct s|]. by rewrite IH.
Qed.

(** A text that ends with a digit keeps it. *)
Lemma drop_equals_ok s : string_forallb digit_ok s = true → drop_equals s = s.
Proof.
  induction s as [|c s IH]; [done|]. cbn [string_forallb drop_equals].
  rewrite andb_true_iff. intros [Hc Hs]. destruct s as [|d s].
  - apply digit_ok_parts in Hc as [Hc _]. by rewrite bool_decide_eq_false_2.
  - by rewrite IH.
Qed.

Lemma raw_length s : slength (b64_raw s) mod 4 = 0 ∨ slength (b64_raw s) mod 4 = 2 ∨
  slength (b64_raw s) mod 4 = 3.
Proof.
  induction s as [|a|a b|a b c s IH] using string_ind3; [by left|by right; left|by right; right|].
  cbn [b64_raw]. by rewrite slength_mod4.
Qed.

Lemma slength_app s t : slength (s +:+ t) = slength s + slength t.
Proof. unfold slength. rewrite string_length_app. lia. Qed.

(** The padding completes the last group. *)
Lemma btoa_length s : slength (btoa s) mod 4 = 0.
Proof.
  rewrite btoa_raw, slength_app. unfold b64_padding.
  rewrite <- N.Div0.add_mod_idemp_l by done.
  destruct (raw_length s) as [-> | [-> | ->]]; reflexivity.
Qed.

Lemma drop_padding s : drop_equals (drop_equals (btoa s)) = b64_raw s.
Proof.
  pose proof (b64_raw_ok s) as Hok. rewrite btoa_raw. unfold b64_padding.
  destruct (raw_length s) as [-> | [-> | ->]]; cbn [repeat_char].
  - rewrite string_app_nil_r. by rewrite !(drop_equals_ok _ Hok).
  - change (String equals_sign (String equals_sign "")) with ("=" +:+ "=").
    rewrite <- string_app_assoc. by rewrite !drop_equals_snoc.
  - change (String equals_sign "") with "=". by rewrite drop_equals_snoc, drop_equals_ok.
Qed.

(** [atob] inverts [btoa]. *)
Lemma atob_btoa s : atob (btoa s) = Some s.
Proof.
  unfold atob. rewrite btoa_no_space, btoa_length. cbn [N.eqb]. rewrite drop_padding.
  destruct (raw_length s) as [-> | [-> | ->]]; apply b64_groups_raw.
Qed.

(** ** The URL-safe form *)

Lemma replaceAll_app f t a b : replaceAll f t (a +:+ b) = replaceAll f t a +:+ replaceAll f t b.
Proof. induction a as [|c a IH]; [done|]. rewrite !string_app_cons. cbn. by rewrite IH. Qed.

Lemma slength_replaceAll f t s : slength (replaceAll f t s) = slength s.
Proof. unfold slength. f_equal. induction s; cbn; [done|]. by f_equal. Qed.

(** To the URL-safe alphabet and back. *)
Definition to_url (s : string) : string := replaceAll "/" "_" (replaceAll "+" "-" s).
Definition from_url (s : string) : string := replaceAll "_" "/" (replaceAll "-" "+" s).

Lemma from_to_url s : string_forallb digit_ok s = true → from_url (to_url s) = s.
Proof.
  unfold from_url, to_url. induction s as [|c s IH]; [done|].
  cbn [string_forallb replaceAll]. rewrite andb_true_iff. intros [Hc Hs]. rewrite IH by done. f_equal.
  apply digit_ok_parts in Hc as (_ & _ & Hm & Hu).
  destruct (decide (c = "+"%char)) as [->|Hp]; [reflexivity|].
  rewrite (bool_decide_eq_false_2 _ Hp).
  destruct (decide (c = "/"%char)) as [->|Hsl]; [reflexivity|].
  rewrite (bool_decide_eq_false_2 _ Hsl), (bool_decide_eq_false_2 _ Hm), (bool_decide_eq_false_2 _ Hu).
  done.
Qed.

Lemma to_url_ok s : string_forallb digit_ok s = true → string_forallb is_url_char (to_url s) = true.
Proof.
  unfold to_url. induction s as [|c s IH]; [done|]. cbn [string_forallb replaceAll].
  rewrite !andb_true_iff. intros [Hc Hs]. split; [|by apply IH].
  unfold digit_ok in Hc. cbn zeta in Hc. bool_hyps.
  destruct (decide (c = "+"%char)) as [->|Hp]; [reflexivity|].
  rewrite (bool_decide_eq_false_2 (c = "+"%char) Hp) in *. done.
Qed.

Lemma url_char_not_equals c : is_url_char c = true → c ≠ equals_sign.
Proof. intros H ->. vm_compute in H. done. Qed.

(** Trailing padding is stripped, digits stay. *)
Lemma strip_trailing_ok x s :
  string_forallb (λ c, negb (bool_decide (c = x))) s = true → strip_trailing x s = s.
Proof.
  induction s as [|c s IH]; [done|]. cbn [string_forallb strip_trailing].
  rewrite andb_true_iff, negb_true_iff. intros [Hc Hs]. rewrite IH by done.
  destruct s; [by rewrite Hc | done].
Qed.

Lemma strip_trailing_repeat x n : strip_trailing x (repeat_char x n) = "".
Proof. induction n as [|n IH]; [done|]. cbn. rewrite IH. by rewrite bool_decide_eq_true_2. Qed.

Lemma strip_trailing_pad x s n :
  string_forallb (λ c, negb (bool_decide (c = x))) s = true →
  strip_trailing x (s +:+ repeat_char x n) = s.
Proof.
  induction s as [|c s IH]; intros Hs.
  - apply strip_trailing_repeat.
  - cbn [string_forallb] in Hs. apply andb_true_iff in Hs as [Hc Hs]. rewrite string_app_cons.
    cbn [strip_trailing]. rewrite IH by done. apply negb_true_iff in Hc. destruct s; [by rewrite Hc | done].
Qed.

Lemma replaceAll_repeat f t n :
  f ≠ equals_sign → replaceAll f t (repeat_char equals_sign n) = repeat_char equals_sign n.
Proof.
  intros Hf. induction n as [|n IH]; [done|]. cbn. rewrite IH.
  rewrite bool_decide_eq_false_2; [done|]. congruence.
Qed.

(** [btoa(s).replaceAll('+', '-').replaceAll('/', '_').replace(/=+$/, '')]. *)
Definition base64url (s : string) : string := strip_trailing equals_sign (to_url (btoa s)).

Lemma base64url_raw s : base64url s = to_url (b64_raw s).
Proof.
  unfold base64url. rewrite btoa_raw. unfold to_url. rewrite !replaceAll_app.
  rewrite !replaceAll_repeat by done. apply strip_trailing_pad.
  eapply string_forallb_impl; [|apply to_url_ok, b64_raw_ok].
  intros c Hc%url_char_not_equals. by apply negb_true_iff, bool_decide_eq_false.
Qed.

Lemma base64url_chars s : string_forallb is_url_char (base64url s) = true.
Proof. rewrite base64url_raw. apply to_url_ok, b64_raw_ok. Qed.

Lemma base64url_empty s : base64url s = "" ↔ s = "".
Proof.
  rewrite base64url_raw. split; [|by intros ->]. destruct s as [|a [|b [|c s]]]; done.
Qed.

(** The padding [decode] restores is the one [btoa] wrote. *)
Definition restored (s : string) : string :=
  from_url s +:+ repeat_char equals_sign (N.to_nat ((4 - slength (from_url s) mod 4) mod 4)).

Lemma restored_base64url s : restored (base64url s) = btoa s.
Proof.
  unfold restored. rewrite base64url_raw, from_to_url by apply b64_raw_ok. rewrite btoa_raw. f_equal.
  unfold b64_padding. by destruct (raw_length s) as [-> | [-> | ->]].
Qed.

(** ** The UTF-8 decoder inverts the encoder *)

Lemma continuation_byte n : n < 64 → continuation 128 191 (byte (128 + n)) = Some n.
Proof.
  intros Hn. unfold continuation. rewrite code_byte by lia.
  rewrite (proj2 (N.leb_le 128 _)), (proj2 (N.leb_le _ 191)) by lia. cbn [andb]. f_equal. lia.
Qed.

Lemma utf8_decode_encode_bytes wide s : utf8_decode_bytes wide (utf8_encode s) = Some s.
Proof.
  induction s as [|c s IH]; [done|]. cbn [utf8_encode].
  pose proof (code_bounded c) as Hc. destruct (N.ltb_spec (code c) 128) as [Hlow|Hhigh].
  - cbn [utf8_decode_bytes]. rewrite (proj2 (N.ltb_lt _ _) Hlow). rewrite IH. cbn.
    unfold code_point. rewrite (proj2 (N.ltb_lt _ _) Hc). by rewrite byte_code.
  - assert (2 <= code c / 64 < 4) as Hq.
    { split; [apply N.div_le_lower_bound; lia | apply div_bound; lia]. }
    cbn [utf8_decode_bytes]. rewrite code_byte by lia.
    destruct (N.ltb_spec (192 + code c / 64) 128); [lia|].
    rewrite (proj2 (N.leb_le 194 _)), (proj2 (N.leb_le _ 223)) by lia. cbn [andb].
    rewrite continuation_byte by (apply N.mod_lt; done). rewrite IH. cbn.
    unfold code_point.
    replace ((192 + code c / 64 - 192) * 64 + code c mod 64) with (code c).
    + by rewrite (proj2 (N.ltb_lt _ _) Hc), byte_code.
    + replace (192 + code c / 64 - 192) with (code c / 64) by lia. symmetry. by apply join_digits.
Qed.

(** Encoded 8-bit text never starts with a byte order mark. *)
Lemma utf8_encode_first s c t : utf8_encode s = String c t → code c ≠ 239.
Proof.
  destruct s as [|d s]; [done|]. cbn [utf8_encode]. pose proof (code_bounded d) as Hd.
  destruct (N.ltb_spec (code d) 128).
  - intros [= <- _]. lia.
  - intros [= <- _]. rewrite code_byte; assert (code d / 64 < 4) by (apply div_bound; lia); lia.
Qed.

Lemma utf8_decode_encode wide s : utf8_decode wide (utf8_encode s) = Some s.
Proof.
  unfold utf8_decode. pose proof (utf8_encode_first s) as Hf.
  pose proof (utf8_decode_encode_bytes wide s) as Hd.
  destruct (utf8_encode s) as [|a [|b [|c rest]]]; [done..|].
  specialize (Hf a _ eq_refl). rewrite (proj2 (N.eqb_neq _ _) Hf). done.
Qed.

Open Scope string_scope.
Open Scope list_scope.
Open Scope js_scope.

(** ** Digits *)

(** [Number(s)] on a string of decimal digits. *)
Fixpoint digits_value (acc : Z) (s : string) : Z :=
  match s with
  | EmptyString => acc
  | String c s => digits_value (acc * 10 + (Z.of_nat (nat_of_ascii c) - 48)) s
  end.
Definition digits_number (s : string) : number := integer_number (digits_value 0 s).

(** What precedes the first [c] and what follows it. *)
Fixpoint cut (c : ascii) (s : string) : option (string * string) :=
  match s with
  | EmptyString => None
  | String d s =>
      if bool_decide (d = c) then Some (EmptyString, s)
      else '(a, b) ← cut c s; Some (String d a, b)
  end.

(** A group [[...]+] of a regular expression. *)
Definition nonempty_all (p : ascii → bool) (s : string) : bool :=
  negb (is_empty s) && string_forallb p s.

Lemma cut_app c a b : includes a c = false → cut c (a +:+ String c b) = Some (a, b).
Proof.
  induction a as [|d a IH]; cbn [includes]; intros Ha.
  - rewrite string_app_nil. cbn [cut]. by rewrite bool_decide_eq_true_2.
  - apply orb_false_iff in Ha as [Hd Ha]. rewrite string_app_cons. cbn [cut]. by rewrite Hd, IH.
Qed.

Lemma cut_some c s a b : cut c s = Some (a, b) → s = a +:+ String c b ∧ includes a c = false.
Proof.
  revert a. induction s as [|d s IH]; intros a; cbn [cut]; [done|].
  case_bool_decide as Hd.
  - intros [= <- <-]. by subst.
  - destruct (cut c s) as [[a' b']|]; [|done]. cbn. intros [= <- <-].
    destruct (IH a' eq_refl) as [-> Ha]. rewrite string_app_cons. cbn [includes].
    by rewrite bool_decide_eq_false_2, Ha.
Qed.

Lemma strip_prefix_app p s : strip_prefix p (p +:+ s) = Some s.
Proof.
  induction p as [|c p IH]; [by destruct s|]. rewrite string_app_cons. cbn [strip_prefix].
  by rewrite bool_decide_eq_true_2.
Qed.

Lemma strip_prefix_some p s t : strip_prefix p s = Some t → s = p +:+ t.
Proof.
  revert s. induction p as [|c p IH]; intros s; [by destruct s; intros [= <-]|].
  destruct s as [|d s]; cbn [strip_prefix]; [done|]. case_bool_decide as Hc; [|done]. subst.
  intros H%IH. by subst.
Qed.

Lemma string_forallb_includes p s c : string_forallb p s = true → p c = false → includes s c = false.
Proof.
  induction s as [|d s IH]; [done|]. cbn [string_forallb includes]. rewrite andb_true_iff.
  intros [Hd Hs] Hc. rewrite IH by done. rewrite bool_decide_eq_false_2; [done|].
  intros ->. by rewrite Hd in Hc.
Qed.

(** ** Decimal numerals *)

Lemma digit_value x : (x < 10)%N → (Z.of_nat (nat_of_ascii (pretty_N_char x)) - 48)%Z = Z.of_N x.
Proof.
  intros Hx. assert (x = 0 ∨ x = 1 ∨ x = 2 ∨ x = 3 ∨ x = 4 ∨ x = 5 ∨ x = 6 ∨ x = 7 ∨ x = 8 ∨ x = 9)%N
    as H by lia.
  by destruct H as [->|[->|[->|[->|[->|[->|[->|[->|[->| ->]]]]]]]]].
Qed.

Lemma pretty_char_digit x : is_digit (pretty_N_char x) = true.
Proof. unfold pretty_N_char. by repeat case_match. Qed.

(** What holds of the empty text and survives a digit in front holds of a numeral. *)
Lemma pretty_go_ind (P : N → string → Prop) :
  (∀ s, P 0%N s) →
  (∀ x s, (0 < x)%N → P (x / 10)%N (String (pretty_N_char (x mod 10)) s) → P x s) → ∀ x s, P x s.
Proof.
  intros H0 Hstep x. induction (N.lt_wf_0 x) as [x _ IH]. intros s.
  assert (x = 0 ∨ 0 < x)%N as [->|Hx] by lia; [apply H0|].
  apply Hstep; [done|]. apply IH, N.div_lt; lia.
Qed.

Lemma digits_value_go x s acc :
  acc = 0%Z → digits_value acc (pretty_N_go x s) = digits_value (Z.of_N x) s.
Proof.
  intros ->. revert x s. apply pretty_go_ind.
  - intros s. by rewrite pretty_N_go_0.
  - intros x s Hx IH. rewrite pretty_N_go_step by done. rewrite IH. cbn [digits_value].
    rewrite digit_value by (apply N.mod_lt; lia). f_equal.
    rewrite N2Z.inj_div, N2Z.inj_mod. change (Z.of_N 10) with 10%Z.
    pose proof (Z.div_mod (Z.of_N x) 10). lia.
Qed.

Lemma digits_go x s : string_forallb is_digit (pretty_N_go x s) = string_forallb is_digit s.
Proof.
  revert x s. apply pretty_go_ind.
  - intros s. by rewrite pretty_N_go_0.
  - intros x s Hx IH. rewrite pretty_N_go_step, IH by done. cbn [string_forallb].
    by rewrite pretty_char_digit.
Qed.

Lemma pretty_pos p : pretty (Z.pos p) = pretty_N_go (N.pos p) "".
Proof. reflexivity. Qed.

Lemma pretty_digits_value (z : Z) : (0 < z)%Z → digits_value 0 (pretty z) = z.
Proof. destruct z as [|p|]; try lia. intros _. rewrite pretty_pos. by rewrite digits_value_go. Qed.

Lemma pretty_digits (z : Z) : (0 <= z)%Z → string_forallb is_digit (pretty z) = true.
Proof. destruct z as [|p|]; try lia; [done|]. intros _. rewrite pretty_pos. by rewrite digits_go. Qed.

Lemma pretty_nonempty (z : Z) : pretty z ≠ "".
Proof.
  destruct z as [|p|p]; [done| |done]. intros H.
  assert (digits_value 0 (pretty (Z.pos p)) = Z.pos p) as Hv by by apply pretty_digits_value.
  rewrite H in Hv. done.
Qed.

Lemma integer_number_safe z : (Z.abs z <= MAX_SAFE_INTEGER)%Z → integer_number z = Int z.
Proof.
  intros Hz. pose proof (num_add_exact z 0) as H. unfold num_add, scaled in H.
  change (Z.max 0 0) with 0%Z in H. rewrite Z.sub_diag, Z.pow_0_r, !Z.mul_1_r, Z.add_0_r in H.
  apply H. unfold MAX_SAFE_INTEGER in Hz. lia.
Qed.

(** ** Numbers as text *)

Section text.
Context (other : number → string).

(** [`${n}`]. *)
Definition number_text (n : number) : string :=
  match n with
  | Int z => if (Z.abs z <=? MAX_SAFE_INTEGER)%Z then pretty z else other n
  | Frac _ _ => other n
  | Infinity negative => if negative then "-Infinity" else "Infinity"
  | NaN => "NaN"
  end.

(** [JSON.stringify(n)]. *)
Definition json_number (n : number) : string := if isFinite n then number_text n else "null".

(** [values.join(',')]. *)
Fixpoint join_commas (l : list string) : string :=
  match l with
  | [] => ""
  | [s] => s
  | s :: l => s +:+ "," +:+ join_commas l
  end.

(** [JSON.stringify(value)]. *)
Fixpoint JSON_stringify (value : json) : string :=
  match value with
  | JNull => "null"
  | JBool b => if b then "true" else "false"
  | JNumber n => json_number n
  | JString s => json_string s
  | JArray l => "[" +:+ join_commas (List.map JSON_stringify l) +:+ "]"
  | JObject fields =>
      "{" +:+ join_commas (List.map (λ '(k, v), json_field k (JSON_stringify v)) fields) +:+ "}"
  end.

(** What separates the elements of an array does not occur in a numeral. *)
Definition numerals : Prop := ∀ n, includes (other n) "," = false ∧ includes (other n) "]" = false.

Lemma number_text_safe z :
  (Z.abs z <= MAX_SAFE_INTEGER)%Z → number_text (Int z) = pretty z.
Proof. intros Hz. unfold number_text. by rewrite (proj2 (Z.leb_le _ _)). Qed.

Lemma includes_pretty c (z : Z) : is_digit c = false → c ≠ "-"%char → includes (pretty z) c = false.
Proof.
  intros Hc Hm. destruct z as [|p|p].
  - eapply string_forallb_includes; [by apply (pretty_digits 0)|done].
  - eapply string_forallb_includes; [by apply (pretty_digits (Z.pos p))|done].
  - change (pretty (Z.neg p)) with (String "-" (pretty (Z.pos p))). cbn [includes].
    rewrite bool_decide_eq_false_2 by done. cbn.
    eapply string_forallb_includes; [by apply (pretty_digits (Z.pos p))|done].
Qed.

Lemma json_number_delimited n :
  numerals → includes (json_number n) "," = false ∧ includes (json_number n) "]" = false.
Proof.
  intros Hother. unfold json_number. destruct n as [z|m k|b|]; cbn [isFinite number_text]; try done.
  destruct (Z.abs z <=? MAX_SAFE_INTEGER)%Z; [|done].
  split; by apply includes_pretty.
Qed.

Lemma json_number_safe_inj a b :
  isSafeInteger a = true → isSafeInteger b = true → json_number a = json_number b → a = b.
Proof.
  intros (x & -> & Hx)%isSafeInteger_spec (y & -> & Hy)%isSafeInteger_spec.
  unfold json_number. cbn [isFinite]. rewrite !number_text_safe by lia.
  intros H%(inj pretty). by subst.
Qed.

(** A string literal ends where it ends. *)
Lemma json_string_inj_app s t x y :
  json_string s +:+ x = json_string t +:+ y → s = t ∧ x = y.
Proof.
  rewrite !json_string_app. intros [= H].
  pose proof (parse_chars_written (λ _, "") s x) as Hs.
  pose proof (parse_chars_written (λ _, "") t y) as Ht.
  rewrite H in Hs. rewrite Ht in Hs. by injection Hs as -> ->.
Qed.

Lemma string_cons_inj c s t : String c s = String c t → s = t.
Proof. by intros [= ->]. Qed.
End text.

(** ** Sorting

    [Array.prototype.sort(compare)] with a consistent comparator: the one stable
    arrangement.  The comparator may throw. *)

Section sort.
Context {E A : Type} (compare : A → A → outcome E Z).

Fixpoint sort_insert (x : A) (l : list A) : outcome E (list A) :=
  match l with
  | [] => Return [x]
  | y :: l' =>
      c ← compare x y;
      if (c <=? 0)%Z then Return (x :: l) else rest ← sort_insert x l'; Return (y :: rest)
  end.

Fixpoint js_sortM (l : list A) : outcome E (list A) :=
  match l with
  | [] => Return []
  | x :: l => sorted ← js_sortM l; sort_insert x sorted
  end.

Lemma sort_insert_perm x l k : sort_insert x l = Return k → k ≡ₚ x :: l.
Proof.
  revert k. induction l as [|y l IH]; intros k; cbn [sort_insert]; [by intros [= <-]|].
  intros (c & _ & H)%bind_return. destruct (c <=? 0)%Z; [by injection H as <-|].
  apply bind_return in H as (rest & Hrest & [= <-]). rewrite (IH _ Hrest). constructor.
Qed.

Lemma js_sortM_perm l k : js_sortM l = Return k → k ≡ₚ l.
Proof.
  revert k. induction l as [|x l IH]; intros k; cbn [js_sortM]; [by intros [= <-]|].
  intros (s & Hs & H)%bind_return. apply sort_insert_perm in H. by rewrite H, (IH _ Hs).
Qed.

(** The comparator only runs on elements of the array. *)
Lemma sort_insert_return x l :
  (∀ y, y ∈ l → ∃ c, compare x y = Return c) → ∃ k, sort_insert x l = Return k.
Proof.
  induction l as [|y l IH]; intros H; cbn [sort_insert]; [eauto|].
  destruct (H y) as [c Hc]; [left|]. rewrite Hc. cbn [mbind outcome_mbind outcome_bind].
  destruct (c <=? 0)%Z; [eauto|]. destruct IH as [k Hk]; [intros z Hz; apply H; by right|].
  rewrite Hk. cbn. eauto.
Qed.

Lemma js_sortM_return l :
  (∀ x y, x ∈ l → y ∈ l → ∃ c, compare x y = Return c) → ∃ k, js_sortM l = Return k.
Proof.
  induction l as [|x l IH]; intros H; cbn [js_sortM]; [eauto|].
  destruct IH as [s Hs]; [intros; apply H; by right|]. rewrite Hs.
  cbn [mbind outcome_mbind outcome_bind].
  apply sort_insert_return. intros y Hy. rewrite (js_sortM_perm _ _ Hs) in Hy.
  apply H; [by left | by right].
Qed.

(** The arrangement is ordered when the comparator is a total preorder on the
    elements. *)
Context (P : A → Prop) (le : A → A → Prop).
Context (compare_le : ∀ x y c, P x → P y → compare x y = Return c →
  if (c <=? 0)%Z then le x y else le y x).
Context (le_trans : ∀ x y z, P x → P y → P z → le x y → le y z → le x z).

Lemma sort_insert_sorted x l k :
  P x → Forall P l → StronglySorted le l → sort_insert x l = Return k → StronglySorted le k.
Proof.
  intros Hx. revert k. induction l as [|y l IH]; intros k HP Hl; cbn [sort_insert].
  - intros [= <-]. repeat constructor.
  - intros (c & Hc & H)%bind_return. apply StronglySorted_inv in Hl as [Hs Hy].
    apply Forall_cons in HP as [HPy HP].
    specialize (compare_le _ _ _ Hx HPy Hc). destruct (c <=? 0)%Z.
    + injection H as <-. constructor; [by constructor|]. constructor; [done|].
      rewrite Forall_forall in Hy, HP |- *. intros z Hz. apply (le_trans x y z); auto.
    + apply bind_return in H as (rest & Hrest & [= <-]). constructor; [by apply IH|].
      rewrite (sort_insert_perm _ _ _ Hrest). by constructor.
Qed.

Lemma js_sortM_sorted l k : Forall P l → js_sortM l = Return k → StronglySorted le k.
Proof.
  revert k. induction l as [|x l IH]; intros k HP; cbn [js_sortM].
  - intros [= <-]. constructor.
  - apply Forall_cons in HP as [Hx HP]. intros (s & Hs & H)%bind_return.
    eapply sort_insert_sorted; [exact Hx| |by apply IH|exact H].
    by rewrite (js_sortM_perm _ _ Hs).
Qed.
End sort.

(** A comparator that cannot throw. *)
Definition js_sort {A} (compare : A → A → Z) (l : list A) : list A :=
  match js_sortM (E := Empty_set) (λ x y, Return (compare x y)) l with
  | Return k => k
  | Throw e => match e with end
  end.

Lemma js_sort_perm {A} (compare : A → A → Z) l : js_sort compare l ≡ₚ l.
Proof.
  unfold js_sort. destruct (js_sortM _ l) as [k|[]] eqn:H. by apply js_sortM_perm in H.
Qed.

(** [strings.sort()]: by code units. *)
Definition compare_code_units (a b : string) : Z :=
  if string_ltb a b then -1 else if string_ltb b a then 1 else 0.
Definition sort_strings (l : list string) : list string := js_sort compare_code_units l.

(** ** [Array.prototype.slice] *)

(** ToIntegerOrInfinity, then relative to the length. *)
Definition relative_index (n : number) (length : Z) : Z :=
  let from (z : Z) := if (z <? 0)%Z then Z.max 0 (length + z) else Z.min z length in
  match n with
  | NaN => 0
  | Infinity negative => if negative then 0 else length
  | Int z => from z
  | Frac m k => from (Z.quot m (2 ^ Z.pos k))
  end.

Definition js_slice {A} (l : list A) (start finish : number) : list A :=
  let length := Z.of_nat (length l) in
  let from := relative_index start length in
  let to := relative_index finish length in
  take (Z.to_nat (to - from)) (drop (Z.to_nat from) l).

Lemma js_slice_in_range {A} (l : list A) a n :
  (0 <= a)%Z → (0 <= n)%Z → js_slice l (Int a) (Int (a + n)) = take (Z.to_nat n) (drop (Z.to_nat a) l).
Proof.
  intros Ha Hn. unfold js_slice, relative_index.
  destruct (Z.ltb_spec a 0) as [|_]; [lia|]. destruct (Z.ltb_spec (a + n) 0) as [|_]; [lia|].
  destruct (Z.le_gt_cases (Z.of_nat (length l)) a) as [Hl|Hl].
  - rewrite !drop_ge by lia. by rewrite !take_nil.
  - rewrite (Z.min_l a) by lia. destruct (Z.le_gt_cases (a + n) (Z.of_nat (length l))).
    + rewrite Z.min_l by lia. do 2 f_equal. lia.
    + rewrite Z.min_r by lia. rewrite !take_ge; [done|rewrite length_drop; lia..].
Qed.

(** ** What the platform decides

    The code points above 255 as text, the numerals of numbers that are not safe
    integers, and the collation of [String.prototype.localeCompare]. *)
Class Platform : Type := {
  platform_wide : N → string;
  platform_numeral : number → string;
  localeCompare : string → string → Z;
}.

(** What ECMA-402 and ECMA-262 promise of them. *)
Class PlatformLaws `{!Platform} : Prop := {
  platform_numerals : numerals platform_numeral;
  locale_opposite x y : (Z.sgn (localeCompare x y) = - Z.sgn (localeCompare y x))%Z;
  locale_trans x y z :
    (localeCompare x y <= 0 → localeCompare y z <= 0 → localeCompare x z <= 0)%Z;
}.

#[global] Arguments number_text : simpl never.
