(* ===== verification/E2ee.v ===== *)
(** * End-to-end encryption as the core sees it: e2ee/types.ts, e2ee/port.ts,
    e2ee/send-intent.ts and remote/mime/boxplot-e2ee.ts

    The cryptography is behind [E2eePort] and is not part of the repository's
    TypeScript; the port's methods are calls of the programs that use it. *)

From S2P Require Import Prelude.
From S2P Require Import JsNumber.
From S2P Require Import JsString.
From S2P Require Import JsCollections.
From S2P Require Import Errors.
From S2P Require Import DomainIds.
From S2P Require Import SendIntent.
From S2P Require Import Json.
Open Scope string_scope.
Open Scope list_scope.

(** [Readonly<{ ok: true; value: T }> | Readonly<{ ok: false; error: { kind } }>]. *)
Inductive E2eeResult (T : Type) : Type :=
| E2eeOk (value : T)
| E2eeFailed (kind : E2eeErrorKind).
Arguments E2eeOk {T} value.
Arguments E2eeFailed {T} kind.

(** The fields [version: 1] and [algorithm: 'boxplot-crypto-box-v1'] are literals. *)
Record BoxplotE2eeEnvelope : Type := mkEnvelope {
  env_sender : string;
  env_recipient : string;
  env_senderPublicKey : string;
  env_recipientPublicKey : string;
  env_nonce : string;
  env_ciphertext : string;
}.

Record E2eePlaintext : Type := mkPlaintext {
  plain_sender : string;
  plain_recipient : string;
  plain_subject : string;
  plain_text : string;
  plain_html : option string;
}.

Record EncryptForInput : Type := mkEncryptForInput {
  enc_localIdentity : string;
  enc_recipientIdentity : string;
  enc_subject : string;
  enc_text : string;
  enc_html : option string;
}.

Record DecryptFromInput : Type := mkDecryptFromInput {
  dec_localIdentity : string;
  dec_expectedSender : string;
  dec_expectedRecipient : string;
  dec_expectedSubject : string;
  dec_envelope : BoxplotE2eeEnvelope;
}.

(** [encryptSendIntent] without its call: the failure it resolves to at once, or
    the input of [port.encryptFor]. *)
Definition encryptSendIntent (intent : SendIntent) : E2eeResult EncryptForInput :=
  match intent.(intent_to) with
  | [recipient] =>
      if negb (bool_decide (length intent.(intent_cc) = 0%nat)) ||
         negb (bool_decide (length intent.(intent_bcc) = 0%nat))
      then E2eeFailed multipleRecipientsUnsupported
      else E2eeOk {|
        enc_localIdentity := intent.(intent_from).(address_email);
        enc_recipientIdentity := recipient.(address_email);
        enc_subject := intent.(intent_subject);
        enc_text := intent.(intent_body).(send_text);
        enc_html := intent.(intent_body).(send_html) |}
  | _ => E2eeFailed multipleRecipientsUnsupported
  end.

(** ** remote/mime/boxplot-e2ee.ts *)

Definition serializeBoxplotE2eeEnvelope (envelope : BoxplotE2eeEnvelope) : string :=
  "{" +:+ json_field "version" "1" +:+
  "," +:+ json_field "algorithm" (json_string "boxplot-crypto-box-v1") +:+
  "," +:+ json_field "sender" (json_string envelope.(env_sender)) +:+
  "," +:+ json_field "recipient" (json_string envelope.(env_recipient)) +:+
  "," +:+ json_field "senderPublicKey" (json_string envelope.(env_senderPublicKey)) +:+
  "," +:+ json_field "recipientPublicKey" (json_string envelope.(env_recipientPublicKey)) +:+
  "," +:+ json_field "nonce" (json_string envelope.(env_nonce)) +:+
  "," +:+ json_field "ciphertext" (json_string envelope.(env_ciphertext)) +:+ "}".

Definition invalid_envelope : exn := TypeError "Invalid Boxplot E2EE envelope".

Definition isRecord (value : json) : option (jsmap string json) :=
  match value with JObject fields => Some fields | _ => None end.

Definition requiredString (value : jsmap string json) (field : string) : outcome exn string :=
  match get_field field value with
  | Some (JString result) => Return result
  | _ => Throw invalid_envelope
  end.

(** [parsed.version === 1]. *)
Definition is_number (n : number) (value : option json) : bool :=
  match value with Some (JNumber m) => num_eqb m n | _ => false end.
(** [parsed.algorithm === s]. *)
Definition is_string (s : string) (value : option json) : bool :=
  match value with Some (JString t) => bool_decide (t = s) | _ => false end.

Section envelope.
Context (wide : nat → string) (other_number : string → option number).

Definition parseBoxplotE2eeEnvelope (payload : string) : outcome exn BoxplotE2eeEnvelope :=
  match JSON_parse wide other_number payload with
  | None => Throw invalid_envelope
  | Some parsed =>
      match isRecord parsed with
      | None => Throw invalid_envelope
      | Some fields =>
          throw_if (negb (is_number (Int 1) (get_field "version" fields)) ||
                    negb (is_string "boxplot-crypto-box-v1" (get_field "algorithm" fields)))
            invalid_envelope;;
          sender ← requiredString fields "sender";
          recipient ← requiredString fields "recipient";
          senderPublicKey ← requiredString fields "senderPublicKey";
          recipientPublicKey ← requiredString fields "recipientPublicKey";
          nonce ← requiredString fields "nonce";
          ciphertext ← requiredString fields "ciphertext";
          Return {| env_sender := sender; env_recipient := recipient;
                    env_senderPublicKey := senderPublicKey;
                    env_recipientPublicKey := recipientPublicKey;
                    env_nonce := nonce; env_ciphertext := ciphertext |}
      end
  end.

(** ** What is serialized is parsed back *)

(** The members that are still to be read, each followed by its separator. *)
Lemma parse_members_string n fields first key value (d : ascii) rest :
  (d = ","%char ∨ d = "}"%char) →
  parse_members wide other_number (S (S n)) fields first
    (json_field key (json_string value) +:+ String d rest) =
    if bool_decide (d = ","%char)
    then parse_members wide other_number (S n) (map_set key (JString value) fields) false rest
    else Some (JObject (map_set key (JString value) fields), rest).
Proof. intros Hd. apply parse_members_field; [done|]. apply parse_value_string. Qed.

Lemma parse_members_one n fields first rest :
  parse_members wide other_number (S (S n)) fields first
    (json_field "version" "1" +:+ String ","%char rest) =
    parse_members wide other_number (S n) (map_set "version" (JNumber (Int 1)) fields) false rest.
Proof.
  rewrite (parse_members_field wide other_number n fields first "version" "1" (JNumber (Int 1)));
    [done|by left|]. done.
Qed.

Lemma parse_object n rest :
  parse_value wide other_number (S n) (String "{"%char rest) =
    parse_members wide other_number n map_new true rest.
Proof. reflexivity. Qed.

(** The object the serializer writes. *)
Definition envelope_fields (e : BoxplotE2eeEnvelope) : jsmap string json :=
  [("version", JNumber (Int 1)); ("algorithm", JString "boxplot-crypto-box-v1");
   ("sender", JString e.(env_sender)); ("recipient", JString e.(env_recipient));
   ("senderPublicKey", JString e.(env_senderPublicKey));
   ("recipientPublicKey", JString e.(env_recipientPublicKey));
   ("nonce", JString e.(env_nonce)); ("ciphertext", JString e.(env_ciphertext))].

Lemma parse_serialized n e :
  parse_value wide other_number (11 + n) (serializeBoxplotE2eeEnvelope e) =
    Some (JObject (envelope_fields e), "").
Proof.
  unfold serializeBoxplotE2eeEnvelope. cbn [Nat.add].
  rewrite (string_app_cons "{"), string_app_nil, parse_object.
  rewrite !(string_app_cons ","), !string_app_nil.
  rewrite parse_members_one.
  rewrite !parse_members_string by auto. done.
Qed.

Lemma length_serialized e : (10 ≤ String.length (serializeBoxplotE2eeEnvelope e))%nat.
Proof.
  unfold serializeBoxplotE2eeEnvelope, json_field. rewrite !string_length_app.
  change (String.length (json_string "version")) with 9%nat. simpl String.length. lia.
Qed.

Lemma JSON_parse_serialized e :
  JSON_parse wide other_number (serializeBoxplotE2eeEnvelope e) = Some (JObject (envelope_fields e)).
Proof.
  unfold JSON_parse. pose proof (length_serialized e) as Hlen.
  replace (S (2 * String.length (serializeBoxplotE2eeEnvelope e)))
    with (11 + (2 * String.length (serializeBoxplotE2eeEnvelope e) - 10))%nat by lia.
  by rewrite parse_serialized.
Qed.

Lemma parse_envelope_fields e :
  parseBoxplotE2eeEnvelope (serializeBoxplotE2eeEnvelope e) = Return e.
Proof. unfold parseBoxplotE2eeEnvelope. rewrite JSON_parse_serialized. by destruct e. Qed.

Lemma parse_envelope_throws payload e :
  parseBoxplotE2eeEnvelope payload = Throw e → e = invalid_envelope.
Proof.
  unfold parseBoxplotE2eeEnvelope.
  destruct (JSON_parse _ _ _) as [parsed|]; [|by intros [= <-]].
  destruct (isRecord parsed) as [fields|]; [|by intros [= <-]].
  assert (∀ field e', requiredString fields field = Throw e' → e' = invalid_envelope) as Hreq.
  { intros field e'. unfold requiredString. by destruct (get_field field fields) as [[]|]; intros [= <-]. }
  rewrite bind_throw. intros [[_ <-]%throw_if_throw|(? & _ & H)]; [done|].
  repeat (apply bind_throw in H as [?%Hreq|(? & _ & H)]; [done|]). done.
Qed.
End envelope.
