(* ===== verification/BodyMaterializer.v ===== *)
(** * Fetching and decrypting bodies on demand: sync/body-materializer.ts

    [materializeOnce] is the program of one materialization over the local engine,
    the remote body source and the cryptography; [materialize] is the table of
    materializations in flight that shares them. *)

From S2P Require Import Prelude.
From S2P Require Import JsNumber.
From S2P Require Import JsString.
From S2P Require Import JsCollections.
From S2P Require Import Errors.
From S2P Require Import DomainIds.
From S2P Require Import DomainEmail.
From S2P Require Import DomainMailbox.
From S2P Require Import SendIntent.
From S2P Require Import Ports.
From S2P Require Import MailStore.
From S2P Require Import EngineInterface.
From S2P Require Import Remote.
From S2P Require Import Prog.
From S2P Require Import E2ee.
Open Scope string_scope.
Open Scope list_scope.
Open Scope js_scope.

Inductive BodyMaterializationResult : Type := alreadyCached | materialized.

#[export] Instance BodyMaterializationResult_eq_dec : EqDecision BodyMaterializationResult.
Proof. solve_decision. Defined.

(** [RemoteBodyFetch]: a body, and the session its [assertCurrent] closes over. *)
Record RemoteBodyFetch : Type := mkRemoteBodyFetch {
  fetch_body : RemoteBody;
  fetch_session : nat;
}.

(** [assertCurrent()] is synchronous: no other code runs between it and the call
    that follows. *)
Inductive BodyCall : Type → Type :=
| BodyPort {X : Type} (c : PortCall X) : BodyCall X
| FetchBody (ak : AccountKey) (id : RemoteEmailId) : BodyCall RemoteBodyFetch
| AssertCurrent (session : nat) : BodyCall unit
| DecryptFrom (input : DecryptFromInput) : BodyCall (E2eeResult E2eePlaintext).

Abbreviation materializing := (prog BodyCall).

Record ExpectedE2eeMetadata : Type := mkExpectedE2eeMetadata {
  meta_localIdentity : string;
  meta_expectedSender : string;
  meta_expectedRecipient : string;
  meta_expectedSubject : string;
}.

Definition body_error (kind : BodyMaterializationErrorKind) : exn :=
  BodyMaterializationError kind None.

Definition singleAddress (value : option (list EmailAddress)) : option string :=
  match value with Some [a] => Some a.(address_email) | _ => None end.

Definition isEmptyAddressList (value : option (list EmailAddress)) : bool :=
  match value with None | Some [] => true | _ => false end.

(** [email.subject ?? failMetadata()]. *)
Definition subject_or_fail (email : Email) : outcome exn string :=
  match email.(email_subject) with
  | Some subject => Return subject
  | None => Throw (body_error body_metadataUnavailable)
  end.

Definition matchingEmails (identities : list Identity) (expectedRecipient : string) : list string :=
  set_of_list (List.filter (λ value, value === expectedRecipient) (map identity_email identities)).

Definition resolveLocalIdentity (email : Email) (expectedSender expectedRecipient : string) :
    materializing ExpectedE2eeMetadata :=
  identities ← await (BodyPort (ListIdentities email.(email_id).(accountKey)));
  match identities with
  | PortError _ => Raise (body_error body_local)
  | PortOk SnapshotOwnerAbsent => Raise (body_error body_metadataUnavailable)
  | PortOk (SnapshotPresent values) =>
      of_outcome (throw_if (length (matchingEmails values expectedRecipient) !== 1%nat)
        (body_error body_metadataUnavailable));;
      subject ← of_outcome (subject_or_fail email);
      Ret {| meta_localIdentity := expectedRecipient; meta_expectedSender := expectedSender;
             meta_expectedRecipient := expectedRecipient; meta_expectedSubject := subject |}
  end.

(** The sender and the recipient of an email that can have been end-to-end encrypted. *)
Definition encrypted_parties (email : Email) : option (string * string) :=
  match singleAddress email.(email_from), singleAddress email.(email_to) with
  | Some expectedSender, Some expectedRecipient =>
      if negb (isEmptyAddressList email.(email_cc)) || negb (isEmptyAddressList email.(email_bcc)) ||
         (email.(email_subject) === None)
      then None else Some (expectedSender, expectedRecipient)
  | _, _ => None
  end.

Definition resolveExpectedMetadata (emailId : ScopedEmailId) : materializing ExpectedE2eeMetadata :=
  emailResult ← await (BodyPort (ReadEmail emailId));
  match emailResult with
  | PortError _ => Raise (body_error body_local)
  | PortOk EntityAbsent => Raise (body_error body_emailAbsent)
  | PortOk (EntityPresent email) =>
      match encrypted_parties email with
      | None => Raise (body_error body_metadataUnavailable)
      | Some (expectedSender, expectedRecipient) =>
          resolveLocalIdentity email expectedSender expectedRecipient
      end
  end.

Section materializer.
Context (wide : nat → string) (other_number : string → option number).

(** [try { envelope = parse(...) } catch { throw new BodyMaterializationError('invalidEnvelope') }]. *)
Definition parse_envelope (body : RemoteBody) : outcome exn BoxplotE2eeEnvelope :=
  try_catch
    (match body with
     | PlainBody _ _ => Throw (TypeError "Expected encrypted body")
     | BoxplotE2eeBody payload => parseBoxplotE2eeEnvelope wide other_number payload
     end)
    (λ _, Throw (body_error body_invalidEnvelope)).

Definition decrypt_input (metadata : ExpectedE2eeMetadata) (envelope : BoxplotE2eeEnvelope) :
    DecryptFromInput :=
  {| dec_localIdentity := metadata.(meta_localIdentity);
     dec_expectedSender := metadata.(meta_expectedSender);
     dec_expectedRecipient := metadata.(meta_expectedRecipient);
     dec_expectedSubject := metadata.(meta_expectedSubject);
     dec_envelope := envelope |}.

Definition decrypted_body (emailId : ScopedEmailId) (value : E2eePlaintext) : EmailBody :=
  emailBody {| body_emailId := emailId; body_text := Some value.(plain_text);
               body_html := value.(plain_html) |}.

Definition decryptBody (emailId : ScopedEmailId) (fetched : RemoteBodyFetch) : materializing EmailBody :=
  metadata ← resolveExpectedMetadata emailId;
  envelope ← of_outcome (parse_envelope fetched.(fetch_body));
  decrypted ← await (DecryptFrom (decrypt_input metadata envelope));
  match decrypted with
  | E2eeFailed kind => Raise (BodyMaterializationError body_e2ee (Some kind))
  | E2eeOk value => Ret (decrypted_body emailId value)
  end.

Definition source_kind (k : RemoteBodySourceErrorKind) : BodyMaterializationErrorKind :=
  match k with
  | source_notConnected => body_notConnected
  | source_remote => body_remote
  | source_cancelled => body_cancelled
  | source_unexpected => body_unexpected
  end.

(** The [catch] of [materializeOnce]. *)
Definition as_materialization_error (error : exn) : exn :=
  match error with
  | BodyMaterializationError _ _ => error
  | RemoteBodySourceError kind => body_error (source_kind kind)
  | _ => body_error body_unexpected
  end.

Definition body_of_fetch (emailId : ScopedEmailId) (fetched : RemoteBodyFetch) : materializing EmailBody :=
  match fetched.(fetch_body) with
  | PlainBody text html =>
      Ret (emailBody {| body_emailId := emailId; body_text := text; body_html := html |})
  | BoxplotE2eeBody _ => decryptBody emailId fetched
  end.

(** From [fetched.assertCurrent()] on. *)
Definition store_body (fetched : RemoteBodyFetch) (body : EmailBody) :
    materializing BodyMaterializationResult :=
  await (AssertCurrent fetched.(fetch_session));;
  written ← await (BodyPort (Write (OpCacheEmailBody body)));
  match written with
  | PortOk _ => Ret materialized
  | PortError write_conflict => Raise (body_error body_emailAbsent)
  | PortError _ => Raise (body_error body_local)
  end.

Definition fetch_and_store (emailId : ScopedEmailId) : materializing BodyMaterializationResult :=
  remote ← of_outcome (remoteEmailId emailId);
  fetched ← await (FetchBody emailId.(accountKey) remote);
  body ← body_of_fetch emailId fetched;
  store_body fetched body.

Definition materialize_body (emailId : ScopedEmailId) : materializing BodyMaterializationResult :=
  cached ← await (BodyPort (ReadEmailBody emailId));
  match cached with
  | PortError _ => Raise (body_error body_local)
  | PortOk CacheOwnerAbsent => Raise (body_error body_emailAbsent)
  | PortOk (Cached _) => Ret alreadyCached
  | PortOk NotCached => fetch_and_store emailId
  end.

Definition materializeOnce (emailId : ScopedEmailId) : materializing BodyMaterializationResult :=
  prog_try (materialize_body emailId) (λ error, Raise (as_materialization_error error)).

(** ** The order of its calls *)

(** What one materialization has seen. *)
Record body_ghost : Type := mkBodyGhost {
  seen_fetch : option RemoteBodyFetch;
  seen_email : option Email;
  seen_identities : option (list Identity);
  seen_plain : option E2eePlaintext;
  seen_current : bool;
}.

Definition body_start : body_ghost := mkBodyGhost None None None None false.

(** The input of a decryption is what the local record of the email says, and the
    envelope that was fetched. *)
Definition expected_input (g : body_ghost) (input : DecryptFromInput) : Prop :=
  ∃ fetched payload email identities,
    g.(seen_fetch) = Some fetched ∧ fetched.(fetch_body) = BoxplotE2eeBody payload ∧
    parseBoxplotE2eeEnvelope wide other_number payload = Return input.(dec_envelope) ∧
    g.(seen_email) = Some email ∧ g.(seen_identities) = Some identities ∧
    singleAddress email.(email_from) = Some input.(dec_expectedSender) ∧
    singleAddress email.(email_to) = Some input.(dec_expectedRecipient) ∧
    isEmptyAddressList email.(email_cc) = true ∧ isEmptyAddressList email.(email_bcc) = true ∧
    email.(email_subject) = Some input.(dec_expectedSubject) ∧
    input.(dec_localIdentity) = input.(dec_expectedRecipient) ∧
    input.(dec_localIdentity) ∈ map identity_email identities.

(** The body that may be cached: the fetched one, or its decryption. *)
Definition obtained (emailId : ScopedEmailId) (g : body_ghost) (body : EmailBody) : Prop :=
  ∃ fetched, g.(seen_fetch) = Some fetched ∧
    match fetched.(fetch_body) with
    | PlainBody text html => body = mkEmailBody emailId text html
    | BoxplotE2eeBody _ => ∃ plain, g.(seen_plain) = Some plain ∧
        body = mkEmailBody emailId (Some plain.(plain_text)) plain.(plain_html)
    end.

Definition body_allowed (emailId : ScopedEmailId) X (g : body_ghost) (c : BodyCall X) : Prop :=
  match c with
  | BodyPort (Write (OpCacheEmailBody body)) => g.(seen_current) = true ∧ obtained emailId g body
  | BodyPort (Write _) => False
  | BodyPort _ => True
  | FetchBody ak id => ak = emailId.(accountKey) ∧ id = emailId.(jmapId) ∧ g.(seen_fetch) = None
  | AssertCurrent session => ∃ fetched, g.(seen_fetch) = Some fetched ∧ session = fetched.(fetch_session)
  | DecryptFrom input => expected_input g input ∧ g.(seen_plain) = None
  end.

Definition body_watch (emailId : ScopedEmailId) X (g : body_ghost) (c : BodyCall X) :
    outcome exn X → body_ghost :=
  let '(mkBodyGhost fetch email identities plain _) := g in
  let stale := mkBodyGhost fetch email identities plain false in
  match c in BodyCall X return outcome exn X → body_ghost with
  | BodyPort c =>
      match c in PortCall X return outcome exn X → body_ghost with
      | ReadEmail id => λ r,
          match r with
          | Return (PortOk (EntityPresent e)) =>
              if decide (id = emailId) then mkBodyGhost fetch (Some e) identities plain false else stale
          | _ => stale
          end
      | ListIdentities ak => λ r,
          match r with
          | Return (PortOk (SnapshotPresent l)) =>
              if decide ((λ e, e.(email_id).(accountKey)) <$> email = Some ak)
              then mkBodyGhost fetch email (Some l) plain false else stale
          | _ => stale
          end
      | _ => λ _, stale
      end
  | FetchBody _ _ => λ r,
      match r with Return f => mkBodyGhost (Some f) email identities plain false | Throw _ => stale end
  | AssertCurrent _ => λ r, mkBodyGhost fetch email identities plain (returns r)
  | DecryptFrom _ => λ r,
      match r with
      | Return (E2eeOk p) => mkBodyGhost fetch email identities (Some p) false
      | _ => stale
      end
  end.

Definition body_protocol (emailId : ScopedEmailId) : monitor BodyCall body_ghost :=
  {| allowed := body_allowed emailId; watch := body_watch emailId; possible := λ _ _ _, True |}.

Lemma matching_one l recipient :
  length (matchingEmails l recipient) = 1%nat → recipient ∈ map identity_email l.
Proof.
  intros H. destruct (matchingEmails l recipient) as [|e rest] eqn:Hm; [done|].
  assert (e ∈ matchingEmails l recipient) as He by (rewrite Hm; by left).
  apply set_of_list_elem, list_elem_of_In, filter_In in He as [Hin Heq%bool_decide_eq_true].
  subst. by apply list_elem_of_In.
Qed.

Lemma encrypted_parties_some email sender recipient :
  encrypted_parties email = Some (sender, recipient) →
  singleAddress email.(email_from) = Some sender ∧ singleAddress email.(email_to) = Some recipient ∧
  isEmptyAddressList email.(email_cc) = true ∧ isEmptyAddressList email.(email_bcc) = true ∧
  email.(email_subject) ≠ None.
Proof.
  unfold encrypted_parties. destruct (singleAddress _), (singleAddress _); try done.
  destruct (_ || _) eqn:Hg; [done|]. intros [= <- <-]. bool_hyps. by split_and!.
Qed.

Lemma parse_envelope_body payload envelope :
  parse_envelope (BoxplotE2eeBody payload) = Return envelope →
  parseBoxplotE2eeEnvelope wide other_number payload = Return envelope.
Proof. unfold parse_envelope. by destruct (parseBoxplotE2eeEnvelope _ _ _). Qed.

Section protocol.
Context (emailId : ScopedEmailId).

Lemma resolve_obeys fetched :
  obeys (body_protocol emailId) (resolveExpectedMetadata emailId)
    (mkBodyGhost (Some fetched) None None None false)
    (λ r g, match r with
     | Return metadata => ∃ email identities,
         g = mkBodyGhost (Some fetched) (Some email) (Some identities) None false ∧
         encrypted_parties email = Some (metadata.(meta_expectedSender), metadata.(meta_expectedRecipient)) ∧
         email.(email_subject) = Some metadata.(meta_expectedSubject) ∧
         metadata.(meta_localIdentity) = metadata.(meta_expectedRecipient) ∧
         metadata.(meta_localIdentity) ∈ map identity_email identities
     | Throw _ => True
     end).
Proof.
  apply obeys_mbind, obeys_await; [done|]. intros [[[|email]|kind]|e] _; try done. cbv beta iota.
  destruct (encrypted_parties email) as [[sender recipient]|] eqn:Hp; [|done].
  simpl watch. rewrite decide_True by done.
  apply obeys_mbind, obeys_await; [done|]. intros [[[|l]|kind]|e] _; try done. cbv beta iota.
  simpl watch. rewrite decide_True by done.
  apply obeys_mbind, obeys_outcome. destruct (throw_if _ _) as [[]|] eqn:Hone; [|done].
  apply throw_if_return, differs_false, matching_one in Hone.
  apply obeys_mbind, obeys_outcome. unfold subject_or_fail.
  destruct (email_subject email) as [subject|] eqn:Hs; [|done]. by exists email, l.
Qed.

Lemma decryptBody_obeys fetched payload :
  fetched.(fetch_body) = BoxplotE2eeBody payload →
  obeys (body_protocol emailId) (decryptBody emailId fetched)
    (mkBodyGhost (Some fetched) None None None false)
    (λ r g, match r with
     | Return body => g.(seen_fetch) = Some fetched ∧ obtained emailId g body
     | Throw _ => True end).
Proof.
  intros Hbody. apply obeys_mbind. eapply obeys_mono; [|apply resolve_obeys].
  intros [metadata|e] g; [|done].
  intros (email & identities & -> & (Hfrom & Hto & Hcc & Hbcc & _)%encrypted_parties_some & Hsub & Hid & Hin).
  apply obeys_mbind, obeys_outcome. rewrite Hbody.
  destruct (parse_envelope _) as [envelope|] eqn:Henv; [|done]. apply parse_envelope_body in Henv.
  apply obeys_mbind, obeys_await; [|].
  - split; [|done]. exists fetched, payload, email, identities. by split_and!.
  - intros [[value|kind]|e] _; try done. split; [done|]. exists fetched. split; [done|].
    rewrite Hbody. by exists value.
Qed.

Lemma store_obeys fetched body g :
  g.(seen_fetch) = Some fetched → obtained emailId g body →
  obeys (body_protocol emailId) (store_body fetched body) g (λ _ _, True).
Proof.
  destruct g as [fetch email identities plain current]. intros Hf Hb.
  apply obeys_mbind, obeys_await; [by exists fetched|]. intros [[]|e] _; [|done].
  apply obeys_mbind, obeys_await; [by split|]. by intros [[u|[]]|e] _.
Qed.

Lemma materialize_body_obeys :
  obeys (body_protocol emailId) (materialize_body emailId) body_start (λ _ _, True).
Proof.
  apply obeys_mbind, obeys_await; [done|]. intros [[[| |v]|kind]|e] _; try done. cbv beta iota.
  change (watch (body_protocol emailId) _ _ _) with body_start. unfold fetch_and_store.
  apply obeys_mbind, obeys_outcome. destruct (remoteEmailId emailId) as [id|] eqn:Hid; [|done].
  apply seq_return in Hid as [_ [= <-]].
  apply obeys_mbind, obeys_await; [by split_and!|]. intros [fetched|e] _; [|done]. cbv beta iota.
  simpl watch. apply obeys_mbind.
  apply (obeys_mono _ _ _ (λ r g, match r with
     | Return body => g.(seen_fetch) = Some fetched ∧ obtained emailId g body
     | Throw _ => True end)).
  { intros [body|e] g; [|done]. intros [Hf Hb]. by apply store_obeys. }
  unfold body_of_fetch. destruct (fetch_body fetched) as [text html|payload] eqn:Hbody.
  - split; [done|]. exists fetched. split; [done|]. by rewrite Hbody.
  - by eapply decryptBody_obeys.
Qed.

Definition is_materialization_error (e : exn) : Prop := ∃ kind e2ee, e = BodyMaterializationError kind e2ee.

Lemma as_materialization_error_is e : is_materialization_error (as_materialization_error e).
Proof. destruct e; by do 2 eexists. Qed.

Lemma materializeOnce_obeys :
  obeys (body_protocol emailId) (materializeOnce emailId) body_start
    (λ r _, match r with Return _ => True | Throw e => is_materialization_error e end).
Proof.
  apply obeys_try. eapply obeys_mono; [|apply materialize_body_obeys].
  intros [r|e] g _; [done|]. apply as_materialization_error_is.
Qed.
End protocol.
End materializer.

(** ** Sharing the materializations in flight: [DefaultBodyMaterializer.materialize]

    [inFlight] maps a key to the promise of the running materialization.  A promise
    is its index among the materializations started; [settled] is the [finally]
    callback, which runs once the promise is settled. *)

Open Scope string_scope.
Open Scope list_scope.

Abbreviation OperationId := nat.

Record BodyTable : Type := mkBodyTable {
  inFlight : jsmap string OperationId;
  operations : list ScopedEmailId;
}.

Definition table_new : BodyTable := mkBodyTable map_new [].

(** [\u0000]. *)
Definition nul : ascii := ascii_of_nat 0.

Definition flight_key (id : ScopedEmailId) : string :=
  id.(accountKey) +:+ String nul id.(jmapId).

(** The promise returned, and whether a [materializeOnce] was started for it. *)
Definition materialize (id : ScopedEmailId) (t : BodyTable) : OperationId * BodyTable :=
  let key := flight_key id in
  match map_get key t.(inFlight) with
  | Some current => (current, t)
  | None =>
      let operation := length t.(operations) in
      (operation, mkBodyTable (map_set key operation t.(inFlight)) (t.(operations) ++ [id]))
  end.

(** [.finally(() => { if (inFlight.get(key) === operation) inFlight.delete(key) })]. *)
Definition settled (operation : OperationId) (t : BodyTable) : BodyTable :=
  match t.(operations) !! operation with
  | None => t
  | Some id =>
      let key := flight_key id in
      if bool_decide (map_get key t.(inFlight) = Some operation)
      then mkBodyTable (map_delete key t.(inFlight)) t.(operations)
      else t
  end.

(** ** Its histories *)

(** The table, with the operations that have settled. *)
Record table_system : Type := mkTableSystem {
  table : BodyTable;
  done_operations : list OperationId;
}.

Inductive table_step : table_system → table_system → Prop :=
| Table_materialize t d id :
    table_step (mkTableSystem t d) (mkTableSystem (materialize id t).2 d)
| Table_settled t d op :
    op ∉ d → (op < length t.(operations))%nat →
    table_step (mkTableSystem t d) (mkTableSystem (settled op t) (op :: d)).

Definition table_reaches (s : table_system) : Prop :=
  rtc table_step (mkTableSystem table_new []) s.

(** A running operation: started, and not yet settled. *)
Definition running (s : table_system) (op : OperationId) (id : ScopedEmailId) : Prop :=
  s.(table).(operations) !! op = Some id ∧ op ∉ s.(done_operations).

(** What is in flight is what is running. *)
Record table_wf (s : table_system) : Prop := {
  wf_keys : map_wf s.(table).(inFlight);
  wf_running : ∀ key op, map_get key s.(table).(inFlight) = Some op ↔
    ∃ id, running s op id ∧ key = flight_key id;
  wf_settled : ∀ op, op ∈ s.(done_operations) → (op < length s.(table).(operations))%nat;
}.

Lemma table_wf_new : table_wf (mkTableSystem table_new []).
Proof.
  split; simpl; [constructor| |].
  - intros key op. split; [done|]. by intros (id & [? _] & _).
  - intros op H. by apply not_elem_of_nil in H.
Qed.

Lemma running_functional s op id id' : running s op id → running s op id' → id = id'.
Proof. intros [H _] [H' _]. congruence. Qed.

Lemma materialize_wf s id :
  table_wf s → table_wf (mkTableSystem (materialize id s.(table)).2 s.(done_operations)).
Proof.
  intros [Hk Hr Hd]. unfold materialize. destruct s as [t d]; simpl in *.
  destruct (map_get (flight_key id) (inFlight t)) as [current|] eqn:Hc; [by split|]. split; simpl.
  - by apply map_wf_set.
  - intros key op. rewrite map_get_set. unfold running in *. simpl in *. case_decide as Hkey.
    + subst key. split.
      * intros [= <-]. exists id. split; [|done]. split.
        -- rewrite lookup_app_r by done. by rewrite Nat.sub_diag.
        -- intros Hin%Hd. lia.
      * intros (id' & [Hop Hnd] & Hkey). apply lookup_app_Some in Hop as [Hop|[Hge Hop]].
        -- exfalso. assert (map_get (flight_key id) (inFlight t) = Some op) as Hno
             by (apply Hr; by exists id'). congruence.
        -- apply list_lookup_singleton_Some in Hop as [Hop _]. f_equal. lia.
    + rewrite Hr. split; intros (id' & [Hop Hnd] & ->).
      * exists id'. split; [|done]. split; [|done]. by apply lookup_app_l_Some.
      * exists id'. split; [|done]. split; [|done].
        apply lookup_app_Some in Hop as [Hop|[_ Hop]]; [done|].
        apply list_lookup_singleton_Some in Hop as [_ ->]. by destruct Hkey.
  - intros op Hin%Hd. rewrite length_app. simpl. lia.
Qed.

Lemma settled_wf s op :
  op ∉ s.(done_operations) → (op < length s.(table).(operations))%nat →
  table_wf s → table_wf (mkTableSystem (settled op s.(table)) (op :: s.(done_operations))).
Proof.
  intros Hop Hlt [Hk Hr Hd]. destruct s as [t d]; simpl in *.
  destruct (lookup_lt_is_Some_2 _ _ Hlt) as [id Hid]. unfold settled. rewrite Hid.
  assert (map_get (flight_key id) (inFlight t) = Some op) as Hin by (apply Hr; by exists id).
  rewrite bool_decide_true by done. split; simpl.
  - by apply map_wf_delete.
  - intros key op'. destruct (decide (key = flight_key id)) as [->|Hne].
    + rewrite map_get_delete_eq by done. split; [done|].
      intros (id' & [Hop' Hnd] & Hkey). simpl in *. apply not_elem_of_cons in Hnd as [Hne Hnd].
      assert (map_get (flight_key id) (inFlight t) = Some op') as Hno by (apply Hr; by exists id').
      congruence.
    + rewrite map_get_delete_ne, Hr by done. unfold running. simpl.
      split; intros (id' & [Hop' Hnd] & ->); exists id'; (split; [split; [done|]|done]).
      * intros [->|]%elem_of_cons; [|done]. congruence.
      * by apply not_elem_of_cons in Hnd as [_ ?].
  - intros op' [->|Hop']%elem_of_cons; [done|]. by apply Hd.
Qed.

Lemma table_reaches_wf s : table_reaches s → table_wf s.
Proof.
  unfold table_reaches. intros H.
  enough (∀ s0, table_wf s0 → rtc table_step s0 s → table_wf s) as Hall
    by (eapply Hall; [apply table_wf_new | exact H]).
  clear H. intros s0 Hs0 H. induction H as [|s1 s2 s3 Hstep _ IH]; [done|]. apply IH.
  destruct Hstep as [t d id|t d op Hop Hlt].
  - by apply (materialize_wf (mkTableSystem t d)).
  - by apply (settled_wf (mkTableSystem t d)).
Qed.

(** ** The key *)

Lemma flight_key_inj a b :
  includes a.(accountKey) nul = false → includes b.(accountKey) nul = false →
  flight_key a = flight_key b → a = b.
Proof.
  intros Ha Hb H. destruct (cut_at_inj nul _ _ _ _ Ha Hb H) as [H1 H2].
  destruct a, b; simpl in *; congruence.
Qed.

(** An account key that contains [\u0000] can collide with another one. *)
Lemma flight_key_collision (a b c : string) :
  flight_key (mkScopedId a (b +:+ String nul c)) = flight_key (mkScopedId (a +:+ String nul b) c).
Proof. unfold flight_key. simpl. by rewrite string_app_assoc, string_app_cons. Qed.
