(* ===== verification/IpcDto.v ===== *)
(** * The IPC data types: ipc/dto/index.ts

    What crosses the boundary between the web view and the native local engine.
    The fields have their declared types; a discriminant ([kind], [status]) may be
    any string at run time, and the unions whose discriminant the code checks have
    a constructor for the others. *)

From S2P Require Import Prelude.
From S2P Require Import JsNumber.
Record IpcScopedMailboxId : Type := mkIpcMailboxId {
  imid_accountKey : string; imid_jmapMailboxId : string }.
Record IpcScopedEmailId : Type := mkIpcEmailId {
  ieid_accountKey : string; ieid_jmapEmailId : string }.
Record IpcScopedIdentityId : Type := mkIpcIdentityId {
  iiid_accountKey : string; iiid_jmapIdentityId : string }.
Record IpcScopedThreadId : Type := mkIpcThreadId {
  itid_accountKey : string; itid_jmapThreadId : string }.
Record IpcScopedBlobId : Type := mkIpcBlobId {
  ibid_accountKey : string; ibid_jmapBlobId : string }.

Record IpcEmailAddress : Type := mkIpcAddress { iaddr_name : option string; iaddr_email : string }.
Definition IpcEmailAddressList : Type := option (list IpcEmailAddress).

Record IpcRemoteAccountRef : Type := mkIpcRemoteRef {
  iref_serviceKey : string; iref_jmapAccountId : string }.
Record IpcAccount : Type := mkIpcAccount { iacc_key : string; iacc_remoteRef : IpcRemoteAccountRef }.

Record IpcMailboxRights : Type := mkIpcRights {
  ir_mayReadItems : bool;
  ir_mayAddItems : bool;
  ir_mayRemoveItems : bool;
  ir_maySetSeen : bool;
  ir_maySetKeywords : bool;
  ir_maySubmit : bool;
}.
Record IpcMailbox : Type := mkIpcMailbox {
  imb_id : IpcScopedMailboxId;
  imb_name : string;
  imb_parent : option IpcScopedMailboxId;
  imb_role : option string;
  imb_sortOrder : number;
  imb_totalEmails : number;
  imb_unreadEmails : number;
  imb_rights : IpcMailboxRights;
}.
Record IpcIdentity : Type := mkIpcIdentity {
  iid_id : IpcScopedIdentityId;
  iid_name : string;
  iid_email : string;
  iid_replyTo : IpcEmailAddressList;
  iid_bcc : IpcEmailAddressList;
}.
Record IpcEmail : Type := mkIpcEmail {
  ie_id : IpcScopedEmailId;
  ie_blobId : IpcScopedBlobId;
  ie_threadId : IpcScopedThreadId;
  ie_sender : IpcEmailAddressList;
  ie_from : IpcEmailAddressList;
  ie_replyTo : IpcEmailAddressList;
  ie_to : IpcEmailAddressList;
  ie_cc : IpcEmailAddressList;
  ie_bcc : IpcEmailAddressList;
  ie_subject : option string;
  ie_sentAt : option string;
  ie_receivedAt : string;
  ie_size : number;
  ie_preview : string;
  ie_hasAttachment : bool;
  ie_keywords : list string;
}.
Record IpcEmailMailbox : Type := mkIpcEmailMailbox {
  iem_emailId : IpcScopedEmailId; iem_mailboxId : IpcScopedMailboxId }.
Record IpcEmailBody : Type := mkIpcEmailBody {
  ieb_emailId : IpcScopedEmailId; ieb_text : option string; ieb_html : option string }.
Record IpcAttachmentRef : Type := mkIpcAttachmentRef {
  ia_emailId : IpcScopedEmailId;
  ia_partId : string;
  ia_blobId : IpcScopedBlobId;
  ia_name : option string;
  ia_mediaType : string;
  ia_size : number;
  ia_disposition : option string;
  ia_cid : option string;
}.

(** The [kind] of a filter and the [property] of a sort are not read back: they
    stay strings.  The direction is copied without a check, so its type is the
    declared one. *)
Inductive IpcSortDirection : Type := ipc_ascending | ipc_descending.
Record IpcMailboxViewFilterSpec : Type := mkIpcFilter { ifs_kind : string }.
Record IpcMailboxViewSortSpec : Type := mkIpcSort {
  iss_property : string; iss_direction : IpcSortDirection }.
Record IpcMailboxViewSpec : Type := mkIpcViewSpec {
  ivs_mailboxId : IpcScopedMailboxId;
  ivs_filter : IpcMailboxViewFilterSpec;
  ivs_sort : IpcMailboxViewSortSpec;
}.
Record IpcMailboxViewCoverageRange : Type := mkIpcRange {
  icr_start : number; icr_endExclusive : number }.
Record IpcMailboxViewItem : Type := mkIpcItem {
  ivi_position : number; ivi_emailId : IpcScopedEmailId }.
Record IpcMailboxView : Type := mkIpcView {
  iv_spec : IpcMailboxViewSpec;
  iv_queryState : string;
  iv_total : number;
  iv_coverage : list IpcMailboxViewCoverageRange;
  iv_items : list IpcMailboxViewItem;
}.

Inductive IpcCollectionDataType : Type := ipc_email | ipc_mailbox | ipc_identity.
Record IpcCollectionSyncCursor : Type := mkIpcCursor {
  ic_accountKey : string; ic_dataType : IpcCollectionDataType; ic_state : string }.
Inductive IpcCursorPrecondition : Type :=
| IpcExpectAbsent
| IpcExpectMatches (cursor : IpcCollectionSyncCursor).

Record IpcSendBody : Type := mkIpcSendBody { isb_text : string; isb_html : option string }.
Inductive IpcSendSecurityMode : Type := ipc_plain | ipc_boxplotE2eeV1.
Record IpcSendConfirmation : Type := mkIpcConfirmation { iconf_emailId : IpcScopedEmailId }.
Record IpcSendIntent : Type := mkIpcSendIntent {
  isi_securityMode : IpcSendSecurityMode;
  isi_identityId : IpcScopedIdentityId;
  isi_from : IpcEmailAddress;
  isi_replyTo : list IpcEmailAddress;
  isi_to : list IpcEmailAddress;
  isi_cc : list IpcEmailAddress;
  isi_bcc : list IpcEmailAddress;
  isi_subject : string;
  isi_body : IpcSendBody;
}.

(** The lifecycles, [C] being what [confirmed] carries: a confirmation for a send,
    nothing for an update.  [IpcOtherLifecycle] has none of the five statuses. *)
Inductive IpcLifecycle (C : Type) : Type :=
| IpcPending (attemptCount : number)
| IpcInFlight (attemptCount : number)
| IpcRetrying (attemptCount : number) (nextAttemptAt : string)
| IpcConfirmed (attemptCount : number) (confirmation : C)
| IpcFailedTerminal (attemptCount : number)
| IpcOtherLifecycle (attemptCount : number).
Arguments IpcPending {C} attemptCount.
Arguments IpcInFlight {C} attemptCount.
Arguments IpcRetrying {C} attemptCount nextAttemptAt.
Arguments IpcConfirmed {C} attemptCount confirmation.
Arguments IpcFailedTerminal {C} attemptCount.
Arguments IpcOtherLifecycle {C} attemptCount.
Definition IpcSendMutationLifecycle : Type := IpcLifecycle IpcSendConfirmation.
Definition IpcEmailUpdateLifecycle : Type := IpcLifecycle unit.

Record IpcSendMutation : Type := mkIpcSend {
  is_mutationId : string;
  is_accountKey : string;
  is_createdAt : string;
  is_intent : IpcSendIntent;
  is_lifecycle : IpcSendMutationLifecycle;
}.
Record IpcKeywordChange : Type := mkIpcKeywordChange {
  ikc_add : list string; ikc_remove : list string }.
Record IpcKeywordMutation : Type := mkIpcKeyword {
  ik_mutationId : string;
  ik_accountKey : string;
  ik_createdAt : string;
  ik_emailId : IpcScopedEmailId;
  ik_change : IpcKeywordChange;
  ik_lifecycle : IpcEmailUpdateLifecycle;
}.
Record IpcMembershipChange : Type := mkIpcMembershipChange {
  imc_add : list IpcScopedMailboxId; imc_remove : list IpcScopedMailboxId }.
Record IpcMailboxMembershipMutation : Type := mkIpcMembership {
  im_mutationId : string;
  im_accountKey : string;
  im_createdAt : string;
  im_emailId : IpcScopedEmailId;
  im_change : IpcMembershipChange;
  im_lifecycle : IpcEmailUpdateLifecycle;
}.
Inductive IpcPendingMutation : Type :=
| IpcMutSend (m : IpcSendMutation)
| IpcMutKeyword (m : IpcKeywordMutation)
| IpcMutMembership (m : IpcMailboxMembershipMutation).

Record IpcEmailSyncRecord : Type := mkIpcEmailSyncRecord {
  isr_email : IpcEmail; isr_memberships : list IpcEmailMailbox }.
(** The [mode] of a commit, and its [kind]. *)
Inductive IpcCollectionCommit (T Id : Type) : Type :=
| IpcDelta (expectedCursor nextCursor : IpcCollectionSyncCursor) (changed : list T)
    (destroyed : list Id)
| IpcReplace (expectedCursor : IpcCursorPrecondition) (nextCursor : IpcCollectionSyncCursor)
    (snapshot : list T).
Arguments IpcDelta {T Id} expectedCursor nextCursor changed destroyed.
Arguments IpcReplace {T Id} expectedCursor nextCursor snapshot.
Inductive IpcCollectionSyncCommit : Type :=
| IpcEmailCommit (c : IpcCollectionCommit IpcEmailSyncRecord IpcScopedEmailId)
| IpcMailboxCommit (c : IpcCollectionCommit IpcMailbox IpcScopedMailboxId)
| IpcIdentityCommit (c : IpcCollectionCommit IpcIdentity IpcScopedIdentityId).

(** ** Results *)

Inductive IpcLocalEntityRead (T : Type) : Type :=
| IpcEntityAbsent
| IpcEntityPresent (value : T)
| IpcEntityOther.
Inductive IpcOwnedSnapshotRead (T : Type) : Type :=
| IpcSnapshotOwnerAbsent
| IpcSnapshotPresent (value : T)
| IpcSnapshotOther.
Inductive IpcOwnedOptionalRead (T : Type) : Type :=
| IpcOptionalOwnerAbsent
| IpcOptionalAbsent
| IpcOptionalPresent (value : T)
| IpcOptionalOther.
Inductive IpcOwnedCacheRead (T : Type) : Type :=
| IpcCacheOwnerAbsent
| IpcNotCached
| IpcCached (value : T)
| IpcCacheOther.
Arguments IpcEntityAbsent {T}.
Arguments IpcEntityPresent {T} value.
Arguments IpcEntityOther {T}.
Arguments IpcSnapshotOwnerAbsent {T}.
Arguments IpcSnapshotPresent {T} value.
Arguments IpcSnapshotOther {T}.
Arguments IpcOptionalOwnerAbsent {T}.
Arguments IpcOptionalAbsent {T}.
Arguments IpcOptionalPresent {T} value.
Arguments IpcOptionalOther {T}.
Arguments IpcCacheOwnerAbsent {T}.
Arguments IpcNotCached {T}.
Arguments IpcCached {T} value.
Arguments IpcCacheOther {T}.

(** [error.kind] is any string: the adapters check it. *)
Inductive IpcResult (T : Type) : Type :=
| IpcOk (value : T)
| IpcError (kind : string).
Arguments IpcOk {T} value.
Arguments IpcError {T} kind.

(** The value of a write: [null], or something else. *)
Inductive IpcWriteValue : Type := IpcNull | IpcNotNull.

(** ** Change notifications *)

Inductive IpcLocalChangeHint : Type :=
| IpcAccountsChanged
| IpcMailboxesChanged (accountKey : string)
| IpcIdentitiesChanged (accountKey : string)
| IpcEmailsChanged (accountKey : string)
| IpcEmailMembershipsChanged (accountKey : string)
| IpcEmailBodyChanged (emailId : IpcScopedEmailId)
| IpcAttachmentRefsChanged (emailId : IpcScopedEmailId)
| IpcMailboxViewChanged (spec : IpcMailboxViewSpec)
| IpcSyncCursorChanged (accountKey : string) (dataType : IpcCollectionDataType)
| IpcPendingMutationsChanged (accountKey : string)
| IpcOtherHint.

(** A non-empty tuple by its declared type, an array at run time. *)
Record IpcLocalChangeBatch : Type := mkIpcBatch { ib_hints : list IpcLocalChangeHint }.

#[export] Instance IpcScopedMailboxId_eq_dec : EqDecision IpcScopedMailboxId.
Proof. solve_decision. Defined.
#[export] Instance IpcScopedEmailId_eq_dec : EqDecision IpcScopedEmailId.
Proof. solve_decision. Defined.

(** ** Requests *)

Record IpcReadAccountRequest : Type := mkReadAccount { rq_account : string }.
Record IpcReadMailboxRequest : Type := mkReadMailbox { rq_mailboxId : IpcScopedMailboxId }.
Record IpcListOwnedRequest : Type := mkListOwned { rq_owner : string }.
Record IpcReadIdentityRequest : Type := mkReadIdentity { rq_identityId : IpcScopedIdentityId }.
Record IpcReadEmailRequest : Type := mkReadEmail { rq_emailId : IpcScopedEmailId }.
Record IpcReadEmailsRequest : Type := mkReadEmails { rq_emailIds : list IpcScopedEmailId }.
Record IpcReadMailboxViewRequest : Type := mkReadView { rq_spec : IpcMailboxViewSpec }.
Record IpcReadCursorRequest : Type := mkReadCursor {
  rq_cursorAccount : string; rq_dataType : IpcCollectionDataType }.
Record IpcReadMutationRequest : Type := mkReadMutation {
  rq_mutationAccount : string; rq_mutationId : string }.
Record IpcRegisterAccountRequest : Type := mkRegisterAccount { rq_newAccount : IpcAccount }.
Record IpcApplyCollectionSyncRequest : Type := mkApplySync { rq_commit : IpcCollectionSyncCommit }.
Record IpcCacheEmailBodyRequest : Type := mkCacheBody { rq_body : IpcEmailBody }.
Record IpcReplaceAttachmentRefsRequest : Type := mkReplaceRefs {
  rq_refsEmailId : IpcScopedEmailId; rq_refs : list IpcAttachmentRef }.
Record IpcReplaceMailboxViewRequest : Type := mkReplaceView { rq_view : IpcMailboxView }.
Record IpcMutationRequest (T : Type) : Type := mkMutationRequest { rq_mutation : T }.
Arguments mkMutationRequest {T} rq_mutation.
Arguments rq_mutation {T} i.
Record IpcReplaceMutationRequest : Type := mkReplaceMutation {
  rq_expected : IpcPendingMutation; rq_next : IpcPendingMutation }.
Definition IpcRemoveMutationRequest : Type := IpcReadMutationRequest.
