(* ===== verification/IpcCodecs.v ===== *)
(** * The IPC codecs: adapters/tauri/domain-ipc-codecs.ts

    [encode*] copies a Domain value into its data type; [decode*] rebuilds the
    Domain value through its factories, and so throws on anything they refuse. *)

From S2P Require Import Prelude.
From S2P Require Import JsNumber.
From S2P Require Import JsString.
From S2P Require Import JsCollections.
From S2P Require Import Errors.
From S2P Require Import DomainIds.
From S2P Require Import DomainEmail.
From S2P Require Import DomainMailbox.
From S2P Require Import MailboxView.
From S2P Require Import SendIntent.
From S2P Require Import PendingMutation.
From S2P Require Import Ports.
From S2P Require Import IpcDto.
Open Scope string_scope.
Open Scope list_scope.
Open Scope js_scope.

(** ** Ids *)

Definition encodeAccountKey (value : AccountKey) : string := value.
Definition decodeAccountKey (value : string) : outcome exn AccountKey :=
  accountKeyFromString value.

Definition encodeScopedMailboxId (value : ScopedMailboxId) : IpcScopedMailboxId :=
  {| imid_accountKey := value.(accountKey); imid_jmapMailboxId := value.(jmapId) |}.
Definition decodeScopedMailboxId (value : IpcScopedMailboxId) : outcome exn ScopedMailboxId :=
  ak ← accountKeyFromString value.(imid_accountKey);
  id ← jmapMailboxIdFromString value.(imid_jmapMailboxId);
  Return (scopedMailboxId ak id).

Definition encodeScopedEmailId (value : ScopedEmailId) : IpcScopedEmailId :=
  {| ieid_accountKey := value.(accountKey); ieid_jmapEmailId := value.(jmapId) |}.
Definition decodeScopedEmailId (value : IpcScopedEmailId) : outcome exn ScopedEmailId :=
  ak ← accountKeyFromString value.(ieid_accountKey);
  id ← jmapEmailIdFromString value.(ieid_jmapEmailId);
  Return (scopedEmailId ak id).

Definition encodeScopedIdentityId (value : ScopedIdentityId) : IpcScopedIdentityId :=
  {| iiid_accountKey := value.(accountKey); iiid_jmapIdentityId := value.(jmapId) |}.
Definition decodeScopedIdentityId (value : IpcScopedIdentityId) : outcome exn ScopedIdentityId :=
  ak ← accountKeyFromString value.(iiid_accountKey);
  id ← jmapIdentityIdFromString value.(iiid_jmapIdentityId);
  Return (scopedIdentityId ak id).

Definition encodeScopedThreadId (value : ScopedThreadId) : IpcScopedThreadId :=
  {| itid_accountKey := value.(accountKey); itid_jmapThreadId := value.(jmapId) |}.
Definition decodeScopedThreadId (value : IpcScopedThreadId) : outcome exn ScopedThreadId :=
  ak ← accountKeyFromString value.(itid_accountKey);
  id ← jmapThreadIdFromString value.(itid_jmapThreadId);
  Return (scopedThreadId ak id).

Definition encodeScopedBlobId (value : ScopedBlobId) : IpcScopedBlobId :=
  {| ibid_accountKey := value.(accountKey); ibid_jmapBlobId := value.(jmapId) |}.
Definition decodeScopedBlobId (value : IpcScopedBlobId) : outcome exn ScopedBlobId :=
  ak ← accountKeyFromString value.(ibid_accountKey);
  id ← jmapBlobIdFromString value.(ibid_jmapBlobId);
  Return (scopedBlobId ak id).

(** ** Addresses and accounts *)

Definition encodeAddress (value : EmailAddress) : IpcEmailAddress :=
  {| iaddr_name := value.(address_name); iaddr_email := value.(address_email) |}.
Definition decodeAddress (value : IpcEmailAddress) : EmailAddress :=
  emailAddress value.(iaddr_name) value.(iaddr_email).
Definition encodeAddressList (value : EmailAddressList) : IpcEmailAddressList :=
  match value with None => None | Some l => Some (map encodeAddress l) end.
Definition decodeAddressList (value : IpcEmailAddressList) : EmailAddressList :=
  match value with None => None | Some l => Some (map decodeAddress l) end.

Definition encodeAccount (value : Account) : IpcAccount :=
  {| iacc_key := value.(account_key);
     iacc_remoteRef := {|
       iref_serviceKey := value.(remoteRef).(serviceKey);
       iref_jmapAccountId := value.(remoteRef).(jmapAccountId) |} |}.
Definition decodeAccount (value : IpcAccount) : outcome exn Account :=
  key ← accountKeyFromString value.(iacc_key);
  service ← serviceKeyFromString value.(iacc_remoteRef).(iref_serviceKey);
  id ← jmapAccountIdFromString value.(iacc_remoteRef).(iref_jmapAccountId);
  Return (account key (remoteAccountRef service id)).

(** ** Records *)

Definition encodeRights (value : MailboxRights) : IpcMailboxRights :=
  {| ir_mayReadItems := value.(mayReadItems);
     ir_mayAddItems := value.(mayAddItems);
     ir_mayRemoveItems := value.(mayRemoveItems);
     ir_maySetSeen := value.(maySetSeen);
     ir_maySetKeywords := value.(maySetKeywords);
     ir_maySubmit := value.(maySubmit) |}.
Definition decodeRights (value : IpcMailboxRights) : MailboxRights :=
  mailboxRights {|
    mayReadItems := value.(ir_mayReadItems);
    mayAddItems := value.(ir_mayAddItems);
    mayRemoveItems := value.(ir_mayRemoveItems);
    maySetSeen := value.(ir_maySetSeen);
    maySetKeywords := value.(ir_maySetKeywords);
    maySubmit := value.(ir_maySubmit) |}.

(** [value === null ? null : decode(value)]. *)
Definition decode_nullable {A B} (decode : A → outcome exn B) (value : option A) :
    outcome exn (option B) :=
  match value with
  | None => Return None
  | Some a => b ← decode a; Return (Some b)
  end.

Definition encodeMailbox (value : Mailbox) : IpcMailbox :=
  {| imb_id := encodeScopedMailboxId value.(mailbox_id);
     imb_name := value.(mailbox_name);
     imb_parent := encodeScopedMailboxId <$> value.(mailbox_parent);
     imb_role := value.(mailbox_role);
     imb_sortOrder := value.(mailbox_sortOrder);
     imb_totalEmails := value.(mailbox_totalEmails);
     imb_unreadEmails := value.(mailbox_unreadEmails);
     imb_rights := encodeRights value.(mailbox_rights) |}.
Definition decodeMailbox (value : IpcMailbox) : outcome exn Mailbox :=
  id ← decodeScopedMailboxId value.(imb_id);
  parent ← decode_nullable decodeScopedMailboxId value.(imb_parent);
  mailbox {|
    mailbox_id := id;
    mailbox_name := value.(imb_name);
    mailbox_parent := parent;
    mailbox_role := value.(imb_role);
    mailbox_sortOrder := value.(imb_sortOrder);
    mailbox_totalEmails := value.(imb_totalEmails);
    mailbox_unreadEmails := value.(imb_unreadEmails);
    mailbox_rights := decodeRights value.(imb_rights) |}.

Definition encodeIdentity (value : Identity) : IpcIdentity :=
  {| iid_id := encodeScopedIdentityId value.(identity_id);
     iid_name := value.(identity_name);
     iid_email := value.(identity_email);
     iid_replyTo := encodeAddressList value.(identity_replyTo);
     iid_bcc := encodeAddressList value.(identity_bcc) |}.
Definition decodeIdentity (value : IpcIdentity) : outcome exn Identity :=
  id ← decodeScopedIdentityId value.(iid_id);
  identity {|
    identity_id := id;
    identity_name := value.(iid_name);
    identity_email := value.(iid_email);
    identity_replyTo := decodeAddressList value.(iid_replyTo);
    identity_bcc := decodeAddressList value.(iid_bcc) |}.

Definition encodeEmail (value : Email) : IpcEmail :=
  {| ie_id := encodeScopedEmailId value.(email_id);
     ie_blobId := encodeScopedBlobId value.(email_blobId);
     ie_threadId := encodeScopedThreadId value.(email_threadId);
     ie_sender := encodeAddressList value.(email_sender);
     ie_from := encodeAddressList value.(email_from);
     ie_replyTo := encodeAddressList value.(email_replyTo);
     ie_to := encodeAddressList value.(email_to);
     ie_cc := encodeAddressList value.(email_cc);
     ie_bcc := encodeAddressList value.(email_bcc);
     ie_subject := value.(email_subject);
     ie_sentAt := value.(email_sentAt);
     ie_receivedAt := value.(email_receivedAt);
     ie_size := value.(email_size);
     ie_preview := value.(email_preview);
     ie_hasAttachment := value.(email_hasAttachment);
     ie_keywords := value.(email_keywords) |}.
Definition decodeEmail (value : IpcEmail) : outcome exn Email :=
  id ← decodeScopedEmailId value.(ie_id);
  blobId ← decodeScopedBlobId value.(ie_blobId);
  threadId ← decodeScopedThreadId value.(ie_threadId);
  keywords ← keywordSet value.(ie_keywords);
  email {|
    email_id := id;
    email_blobId := blobId;
    email_threadId := threadId;
    email_sender := decodeAddressList value.(ie_sender);
    email_from := decodeAddressList value.(ie_from);
    email_replyTo := decodeAddressList value.(ie_replyTo);
    email_to := decodeAddressList value.(ie_to);
    email_cc := decodeAddressList value.(ie_cc);
    email_bcc := decodeAddressList value.(ie_bcc);
    email_subject := value.(ie_subject);
    email_sentAt := value.(ie_sentAt);
    email_receivedAt := value.(ie_receivedAt);
    email_size := value.(ie_size);
    email_preview := value.(ie_preview);
    email_hasAttachment := value.(ie_hasAttachment);
    email_keywords := keywords |}.

Definition encodeEmailMailbox (value : EmailMailbox) : IpcEmailMailbox :=
  {| iem_emailId := encodeScopedEmailId value.(em_emailId);
     iem_mailboxId := encodeScopedMailboxId value.(em_mailboxId) |}.
Definition decodeEmailMailbox (value : IpcEmailMailbox) : outcome exn EmailMailbox :=
  emailId ← decodeScopedEmailId value.(iem_emailId);
  mailboxId ← decodeScopedMailboxId value.(iem_mailboxId);
  emailMailbox emailId mailboxId.

Definition encodeEmailBody (value : EmailBody) : IpcEmailBody :=
  {| ieb_emailId := encodeScopedEmailId value.(body_emailId);
     ieb_text := value.(body_text);
     ieb_html := value.(body_html) |}.
Definition decodeEmailBody (value : IpcEmailBody) : outcome exn EmailBody :=
  emailId ← decodeScopedEmailId value.(ieb_emailId);
  Return (emailBody {| body_emailId := emailId;
                       body_text := value.(ieb_text);
                       body_html := value.(ieb_html) |}).

Definition encodeAttachmentRef (value : AttachmentRef) : IpcAttachmentRef :=
  {| ia_emailId := encodeScopedEmailId value.(att_emailId);
     ia_partId := value.(att_partId);
     ia_blobId := encodeScopedBlobId value.(att_blobId);
     ia_name := value.(att_name);
     ia_mediaType := value.(att_mediaType);
     ia_size := value.(att_size);
     ia_disposition := value.(att_disposition);
     ia_cid := value.(att_cid) |}.
Definition decodeAttachmentRef (value : IpcAttachmentRef) : outcome exn AttachmentRef :=
  emailId ← decodeScopedEmailId value.(ia_emailId);
  blobId ← decodeScopedBlobId value.(ia_blobId);
  attachmentRef {|
    att_emailId := emailId;
    att_partId := attachmentPartIdFromString value.(ia_partId);
    att_blobId := blobId;
    att_name := value.(ia_name);
    att_mediaType := value.(ia_mediaType);
    att_size := value.(ia_size);
    att_disposition := value.(ia_disposition);
    att_cid := value.(ia_cid) |}.

(** ** Views and cursors *)

Definition encodeDirection (d : SortDirection) : IpcSortDirection :=
  match d with ascending => ipc_ascending | descending => ipc_descending end.
Definition decodeDirection (d : IpcSortDirection) : SortDirection :=
  match d with ipc_ascending => ascending | ipc_descending => descending end.

Definition encodeMailboxViewSpec (value : MailboxViewSpec) : IpcMailboxViewSpec :=
  {| ivs_mailboxId := encodeScopedMailboxId value.(spec_mailboxId);
     ivs_filter := {| ifs_kind := match value.(spec_filter).(filter_kind) with
                                  | filter_all => "all"
                                  end |};
     ivs_sort := {| iss_property := match value.(spec_sort).(sort_property) with
                                    | sort_receivedAt => "receivedAt"
                                    end;
                    iss_direction := encodeDirection value.(spec_sort).(sort_direction) |} |}.
Definition decodeMailboxViewSpec (value : IpcMailboxViewSpec) : outcome exn MailboxViewSpec :=
  mailboxId ← decodeScopedMailboxId value.(ivs_mailboxId);
  Return (mailboxViewSpec mailboxId mailboxViewFilterAll
            (mailboxViewSort (decodeDirection value.(ivs_sort).(iss_direction)))).

Definition encodeRange (range : MailboxViewCoverageRange) : IpcMailboxViewCoverageRange :=
  {| icr_start := range.(range_start); icr_endExclusive := range.(range_end) |}.
Definition encodeItem (item : MailboxViewItem) : IpcMailboxViewItem :=
  {| ivi_position := item.(item_position);
     ivi_emailId := encodeScopedEmailId item.(item_emailId) |}.
Definition decodeRange (range : IpcMailboxViewCoverageRange) :
    outcome exn MailboxViewCoverageRange :=
  mailboxViewCoverageRange range.(icr_start) range.(icr_endExclusive).
Definition decodeItem (item : IpcMailboxViewItem) : outcome exn MailboxViewItem :=
  emailId ← decodeScopedEmailId item.(ivi_emailId);
  mailboxViewItem item.(ivi_position) emailId.

Definition encodeMailboxView (value : MailboxView) : IpcMailboxView :=
  {| iv_spec := encodeMailboxViewSpec value.(view_spec);
     iv_queryState := value.(view_queryState);
     iv_total := value.(view_total);
     iv_coverage := map encodeRange value.(view_coverage);
     iv_items := map encodeItem value.(view_items) |}.
Definition decodeMailboxView (value : IpcMailboxView) : outcome exn MailboxView :=
  spec ← decodeMailboxViewSpec value.(iv_spec);
  queryState ← mailboxViewQueryStateFromString value.(iv_queryState);
  coverage ← mapM decodeRange value.(iv_coverage);
  items ← mapM decodeItem value.(iv_items);
  mailboxView {|
    view_spec := spec;
    view_queryState := queryState;
    view_total := value.(iv_total);
    view_coverage := coverage;
    view_items := items |}.

Definition encodeDataType (t : CollectionDataType) : IpcCollectionDataType :=
  match t with
  | data_email => ipc_email | data_mailbox => ipc_mailbox | data_identity => ipc_identity
  end.
Definition decodeDataType (t : IpcCollectionDataType) : CollectionDataType :=
  match t with
  | ipc_email => data_email | ipc_mailbox => data_mailbox | ipc_identity => data_identity
  end.

Definition encodeCursor (value : CollectionSyncCursor) : IpcCollectionSyncCursor :=
  {| ic_accountKey := value.(cursor_accountKey);
     ic_dataType := encodeDataType value.(cursor_dataType);
     ic_state := value.(cursor_state) |}.
Definition decodeCursor (value : IpcCollectionSyncCursor) : outcome exn CollectionSyncCursor :=
  ak ← accountKeyFromString value.(ic_accountKey);
  Return (collectionSyncCursor {|
    cursor_accountKey := ak;
    cursor_dataType := decodeDataType value.(ic_dataType);
    cursor_state := collectionSyncStateFromString value.(ic_state) |}).

(** ** Send intents *)

Definition encodeSecurityMode (m : SendSecurityMode) : IpcSendSecurityMode :=
  match m with mode_plain => ipc_plain | boxplotE2eeV1 => ipc_boxplotE2eeV1 end.
Definition decodeSecurityMode (m : IpcSendSecurityMode) : SendSecurityMode :=
  match m with ipc_plain => mode_plain | ipc_boxplotE2eeV1 => boxplotE2eeV1 end.

Definition encodeSendIntent (value : SendIntent) : IpcSendIntent :=
  {| isi_securityMode := encodeSecurityMode value.(intent_securityMode);
     isi_identityId := encodeScopedIdentityId value.(intent_identityId);
     isi_from := encodeAddress value.(intent_from);
     isi_replyTo := map encodeAddress value.(intent_replyTo);
     isi_to := map encodeAddress value.(intent_to);
     isi_cc := map encodeAddress value.(intent_cc);
     isi_bcc := map encodeAddress value.(intent_bcc);
     isi_subject := value.(intent_subject);
     isi_body := {| isb_text := value.(intent_body).(send_text);
                    isb_html := value.(intent_body).(send_html) |} |}.

Definition decodeSendIntent (value : IpcSendIntent) : outcome exn SendIntent :=
  let from := decodeAddress value.(isi_from) in
  match from.(address_name) with
  | None => Throw (TypeError "Persisted SendIntent From must contain Identity name")
  | Some name =>
      identityId ← decodeScopedIdentityId value.(isi_identityId);
      identity0 ← identity {|
        identity_id := identityId;
        identity_name := name;
        identity_email := from.(address_email);
        identity_replyTo := Some (map decodeAddress value.(isi_replyTo));
        identity_bcc := None |};
      sendIntent {|
        input_securityMode := decodeSecurityMode value.(isi_securityMode);
        input_identity := identity0;
        input_to := map decodeAddress value.(isi_to);
        input_cc := map decodeAddress value.(isi_cc);
        input_bcc := map decodeAddress value.(isi_bcc);
        input_subject := value.(isi_subject);
        input_body := {| send_text := value.(isi_body).(isb_text);
                         send_html := value.(isi_body).(isb_html) |} |}
  end.

(** ** Lifecycles *)

Definition assertAttemptCount (value : number) (pending : bool) : outcome exn unit :=
  throw_if (negb (isSafeInteger value) ||
            (if pending then negb (num_eqb value (Int 0)) else num_ltb value (Int 1)))
    (TypeError "Invalid mutation attemptCount").

Definition decodeSendLifecycle (value : IpcSendMutationLifecycle) (owner : AccountKey) :
    outcome exn SendMutationLifecycle :=
  match value with
  | IpcPending attemptCount =>
      assertAttemptCount attemptCount true;;
      Return (Pending (Int 0))
  | IpcRetrying attemptCount nextAttemptAt =>
      assertAttemptCount attemptCount false;;
      at_ ← mutationInstantFromString nextAttemptAt;
      Return (Retrying attemptCount at_)
  | IpcConfirmed attemptCount confirmation =>
      assertAttemptCount attemptCount false;;
      emailId ← decodeScopedEmailId confirmation.(iconf_emailId);
      throw_if (emailId.(accountKey) !== owner)
        (TypeError "Send confirmation account mismatch");;
      Return (Confirmed attemptCount {| confirmation_emailId := emailId |})
  | IpcInFlight attemptCount =>
      assertAttemptCount attemptCount false;;
      Return (InFlight attemptCount)
  | IpcFailedTerminal attemptCount =>
      assertAttemptCount attemptCount false;;
      Return (FailedTerminal attemptCount)
  | IpcOtherLifecycle attemptCount =>
      assertAttemptCount attemptCount false;;
      Throw (TypeError "Unknown SendMutation lifecycle")
  end.

Definition decodeUpdateLifecycle (value : IpcEmailUpdateLifecycle) :
    outcome exn EmailUpdateLifecycle :=
  match value with
  | IpcPending attemptCount =>
      assertAttemptCount attemptCount true;;
      Return (Pending (Int 0))
  | IpcRetrying attemptCount nextAttemptAt =>
      assertAttemptCount attemptCount false;;
      at_ ← mutationInstantFromString nextAttemptAt;
      Return (Retrying attemptCount at_)
  | IpcInFlight attemptCount =>
      assertAttemptCount attemptCount false;;
      Return (InFlight attemptCount)
  | IpcConfirmed attemptCount _ =>
      assertAttemptCount attemptCount false;;
      Return (Confirmed attemptCount tt)
  | IpcFailedTerminal attemptCount =>
      assertAttemptCount attemptCount false;;
      Return (FailedTerminal attemptCount)
  | IpcOtherLifecycle attemptCount =>
      assertAttemptCount attemptCount false;;
      Throw (TypeError "Unknown Email update lifecycle")
  end.

Definition encodeSendLifecycle (value : SendMutationLifecycle) : IpcSendMutationLifecycle :=
  match value with
  | Retrying attemptCount nextAttemptAt => IpcRetrying attemptCount nextAttemptAt
  | Confirmed attemptCount confirmation =>
      IpcConfirmed attemptCount
        {| iconf_emailId := encodeScopedEmailId confirmation.(confirmation_emailId) |}
  | Pending _ => IpcPending (Int 0)
  | InFlight attemptCount => IpcInFlight attemptCount
  | FailedTerminal attemptCount => IpcFailedTerminal attemptCount
  end.

Definition encodeUpdateLifecycle (value : EmailUpdateLifecycle) : IpcEmailUpdateLifecycle :=
  match value with
  | Retrying attemptCount nextAttemptAt => IpcRetrying attemptCount nextAttemptAt
  | Pending _ => IpcPending (Int 0)
  | InFlight attemptCount => IpcInFlight attemptCount
  | Confirmed attemptCount _ => IpcConfirmed attemptCount tt
  | FailedTerminal attemptCount => IpcFailedTerminal attemptCount
  end.

(** ** Mutations *)

Definition encodeSendMutation (value : SendMutation) : IpcSendMutation :=
  {| is_mutationId := value.(send_mutationId);
     is_accountKey := value.(send_accountKey);
     is_createdAt := value.(send_createdAt);
     is_intent := encodeSendIntent value.(send_intent);
     is_lifecycle := encodeSendLifecycle value.(send_lifecycle) |}.

Definition encodeKeywordMutation (value : KeywordMutation) : IpcKeywordMutation :=
  {| ik_mutationId := value.(kw_mutationId);
     ik_accountKey := value.(kw_accountKey);
     ik_createdAt := value.(kw_createdAt);
     ik_emailId := encodeScopedEmailId value.(kw_emailId);
     ik_change := {| ikc_add := value.(kw_change).(keyword_add);
                     ikc_remove := value.(kw_change).(keyword_remove) |};
     ik_lifecycle := encodeUpdateLifecycle value.(kw_lifecycle) |}.

Definition encodeMailboxMembershipMutation (value : MailboxMembershipMutation) :
    IpcMailboxMembershipMutation :=
  {| im_mutationId := value.(mm_mutationId);
     im_accountKey := value.(mm_accountKey);
     im_createdAt := value.(mm_createdAt);
     im_emailId := encodeScopedEmailId value.(mm_emailId);
     im_change := {| imc_add := map encodeScopedMailboxId value.(mm_change).(membership_add);
                     imc_remove := map encodeScopedMailboxId value.(mm_change).(membership_remove) |};
     im_lifecycle := encodeUpdateLifecycle value.(mm_lifecycle) |}.

(** The three branches build the same objects as the three functions above. *)
Definition encodePendingMutation (value : PendingMutation) : IpcPendingMutation :=
  match value with
  | MutSend m => IpcMutSend (encodeSendMutation m)
  | MutKeyword m => IpcMutKeyword (encodeKeywordMutation m)
  | MutMembership m => IpcMutMembership (encodeMailboxMembershipMutation m)
  end.

Definition with_send_lifecycle (base : SendMutation) (l : SendMutationLifecycle) : SendMutation :=
  {| send_mutationId := base.(send_mutationId);
     send_accountKey := base.(send_accountKey);
     send_createdAt := base.(send_createdAt);
     send_intent := base.(send_intent);
     send_lifecycle := l |}.
Definition with_keyword_lifecycle (base : KeywordMutation) (l : EmailUpdateLifecycle) :
    KeywordMutation :=
  {| kw_mutationId := base.(kw_mutationId);
     kw_accountKey := base.(kw_accountKey);
     kw_createdAt := base.(kw_createdAt);
     kw_emailId := base.(kw_emailId);
     kw_change := base.(kw_change);
     kw_lifecycle := l |}.
Definition with_membership_lifecycle (base : MailboxMembershipMutation) (l : EmailUpdateLifecycle) :
    MailboxMembershipMutation :=
  {| mm_mutationId := base.(mm_mutationId);
     mm_accountKey := base.(mm_accountKey);
     mm_createdAt := base.(mm_createdAt);
     mm_emailId := base.(mm_emailId);
     mm_change := base.(mm_change);
     mm_lifecycle := l |}.

Definition decodePendingMutation (value : IpcPendingMutation) : outcome exn PendingMutation :=
  match value with
  | IpcMutSend value =>
      owner ← accountKeyFromString value.(is_accountKey);
      mutationId ← mutationIdFromString value.(is_mutationId);
      createdAt ← mutationInstantFromString value.(is_createdAt);
      intent ← decodeSendIntent value.(is_intent);
      base ← sendMutation mutationId owner createdAt intent;
      lifecycle ← decodeSendLifecycle value.(is_lifecycle) owner;
      Return (MutSend (with_send_lifecycle base lifecycle))
  | IpcMutKeyword value =>
      owner ← accountKeyFromString value.(ik_accountKey);
      mutationId ← mutationIdFromString value.(ik_mutationId);
      createdAt ← mutationInstantFromString value.(ik_createdAt);
      emailId ← decodeScopedEmailId value.(ik_emailId);
      add ← keywordSet value.(ik_change).(ikc_add);
      remove ← keywordSet value.(ik_change).(ikc_remove);
      base ← keywordMutation mutationId owner createdAt emailId
               {| keyword_add := add; keyword_remove := remove |};
      lifecycle ← decodeUpdateLifecycle value.(ik_lifecycle);
      Return (MutKeyword (with_keyword_lifecycle base lifecycle))
  | IpcMutMembership value =>
      owner ← accountKeyFromString value.(im_accountKey);
      mutationId ← mutationIdFromString value.(im_mutationId);
      createdAt ← mutationInstantFromString value.(im_createdAt);
      emailId ← decodeScopedEmailId value.(im_emailId);
      add ← mapM decodeScopedMailboxId value.(im_change).(imc_add);
      remove ← mapM decodeScopedMailboxId value.(im_change).(imc_remove);
      change ← mailboxMembershipChange {| membership_add := add; membership_remove := remove |};
      base ← mailboxMembershipMutation mutationId owner createdAt emailId change;
      lifecycle ← decodeUpdateLifecycle value.(im_lifecycle);
      Return (MutMembership (with_membership_lifecycle base lifecycle))
  end.

(** ** Sync commits *)

Definition encodePrecondition (value : CollectionCursorPrecondition) : IpcCursorPrecondition :=
  match value with
  | ExpectAbsent => IpcExpectAbsent
  | ExpectMatches cursor => IpcExpectMatches (encodeCursor cursor)
  end.

Definition encodeRecord (item : EmailSyncRecord) : IpcEmailSyncRecord :=
  {| isr_email := encodeEmail item.(record_email);
     isr_memberships := map encodeEmailMailbox item.(record_memberships) |}.

(** The two modes, the same for each kind. *)
Definition encodeCommit {T Id T' Id'} (encode : T → T') (encodeId : Id → Id')
    (c : CollectionCommit T Id) : IpcCollectionCommit T' Id' :=
  match c with
  | Delta expected next changed destroyed =>
      IpcDelta (encodeCursor expected) (encodeCursor next) (map encode changed)
        (map encodeId destroyed)
  | Replace expected next snapshot =>
      IpcReplace (encodePrecondition expected) (encodeCursor next) (map encode snapshot)
  end.

Definition encodeCollectionSyncCommit (value : CollectionSyncCommit) : IpcCollectionSyncCommit :=
  match value with
  | EmailCommit c => IpcEmailCommit (encodeCommit encodeRecord encodeScopedEmailId c)
  | MailboxCommit c => IpcMailboxCommit (encodeCommit encodeMailbox encodeScopedMailboxId c)
  | IdentityCommit c => IpcIdentityCommit (encodeCommit encodeIdentity encodeScopedIdentityId c)
  end.

(** ** Change notifications *)

Definition decodeLocalChangeHint (value : IpcLocalChangeHint) : outcome exn LocalChangeHint :=
  match value with
  | IpcAccountsChanged => Return AccountsChanged
  | IpcMailboxesChanged ak => MailboxesChanged <$> accountKeyFromString ak
  | IpcIdentitiesChanged ak => IdentitiesChanged <$> accountKeyFromString ak
  | IpcEmailsChanged ak => EmailsChanged <$> accountKeyFromString ak
  | IpcEmailMembershipsChanged ak => EmailMembershipsChanged <$> accountKeyFromString ak
  | IpcPendingMutationsChanged ak => PendingMutationsChanged <$> accountKeyFromString ak
  | IpcEmailBodyChanged id => EmailBodyChanged <$> decodeScopedEmailId id
  | IpcAttachmentRefsChanged id => AttachmentRefsChanged <$> decodeScopedEmailId id
  | IpcMailboxViewChanged spec => MailboxViewChanged <$> decodeMailboxViewSpec spec
  | IpcSyncCursorChanged ak t =>
      ak ← accountKeyFromString ak;
      Return (SyncCursorChanged ak (decodeDataType t))
  | IpcOtherHint => Throw (TypeError "Unknown local change hint")
  end.

Definition decodeLocalChangeBatch (value : IpcLocalChangeBatch) : outcome exn LocalChangeBatch :=
  match value.(ib_hints) with
  | [] => Throw (TypeError "LocalChangeBatch must contain a hint")
  | first :: rest =>
      first' ← decodeLocalChangeHint first;
      rest' ← mapM decodeLocalChangeHint rest;
      Return {| batch_first := first'; batch_rest := rest' |}
  end.
