(* ===== verification/CodecFacts.v ===== *)
(** * The IPC codecs are round trips

    [Codec] states what a pair of functions of [IpcCodecs] promises: decoding
    undoes encoding on valid values, and whatever decodes is valid.  There is an
    instance for every Domain type that has both directions. *)

From S2P Require Import Prelude.
From S2P Require Import JsNumber.
From S2P Require Import JsString.
From S2P Require Import JsCollections.
From S2P Require Import Errors.
From S2P Require Import DomainIds.
From S2P Require Import DomainEmail.
From S2P Require Import DomainMailbox.
From S2P Require Import MailboxView.
From S2P Require Import SendIntent.
From S2P Require Import PendingMutation.
From S2P Require Import Ports.
From S2P Require Import IpcDto.
From S2P Require Import IpcCodecs.
(** ** The codecs throw nothing but [TypeError]s

    Every check of the Domain and of the decoders is a [TypeError]: the lemmas
    follow the control flow with the tactic [type_errors]. *)

Open Scope list_scope.

Lemma opaqueId_type_errors s n : only_type_errors (opaqueIdFromString s n).
Proof. unfold opaqueIdFromString. type_errors. Qed.
#[export] Hint Resolve opaqueId_type_errors : throws.

Lemma instant_type_errors s : only_type_errors (mutationInstantFromString s).
Proof. unfold mutationInstantFromString. type_errors. Qed.
Lemma keywordSet_type_errors l : only_type_errors (keywordSet l).
Proof.
  unfold keywordSet. generalize (set_new (T := string)). induction l as [|k l IH]; intros s; cbn [keywordSet_loop]; type_errors.
Qed.
Lemma assertUsable_type_errors a : only_type_errors (assertUsableOutboundAddress a).
Proof. unfold assertUsableOutboundAddress. type_errors. Qed.
#[export] Hint Resolve instant_type_errors keywordSet_type_errors assertUsable_type_errors : throws.

Lemma assertAllUsable_type_errors l : only_type_errors (assertAllUsable l).
Proof. induction l; cbn [assertAllUsable]; type_errors. Qed.
#[export] Hint Resolve assertAllUsable_type_errors : throws.

Lemma scopedEmailId_type_errors v : only_type_errors (decodeScopedEmailId v).
Proof. unfold decodeScopedEmailId, accountKeyFromString, jmapEmailIdFromString. type_errors. Qed.
Lemma scopedMailboxId_type_errors v : only_type_errors (decodeScopedMailboxId v).
Proof. unfold decodeScopedMailboxId, accountKeyFromString, jmapMailboxIdFromString. type_errors. Qed.
Lemma scopedIdentityId_type_errors v : only_type_errors (decodeScopedIdentityId v).
Proof. unfold decodeScopedIdentityId, accountKeyFromString, jmapIdentityIdFromString. type_errors. Qed.
#[export] Hint Resolve scopedEmailId_type_errors scopedMailboxId_type_errors
  scopedIdentityId_type_errors : throws.

Lemma identity_type_errors i : only_type_errors (identity i).
Proof. unfold identity. type_errors. Qed.
Lemma sendIntent_type_errors i : only_type_errors (sendIntent i).
Proof. unfold sendIntent. type_errors. Qed.
#[export] Hint Resolve identity_type_errors sendIntent_type_errors : throws.

Lemma decodeSendIntent_type_errors v : only_type_errors (decodeSendIntent v).
Proof. unfold decodeSendIntent. type_errors. Qed.
Lemma attemptCount_type_errors n p : only_type_errors (assertAttemptCount n p).
Proof. unfold assertAttemptCount. type_errors. Qed.
#[export] Hint Resolve decodeSendIntent_type_errors attemptCount_type_errors : throws.

Lemma sendLifecycle_type_errors v ak : only_type_errors (decodeSendLifecycle v ak).
Proof. destruct v; cbn [decodeSendLifecycle]; type_errors. Qed.
Lemma updateLifecycle_type_errors v : only_type_errors (decodeUpdateLifecycle v).
Proof. destruct v; cbn [decodeUpdateLifecycle]; type_errors. Qed.
Lemma keywordChange_type_errors c : only_type_errors (keywordChange c).
Proof. unfold keywordChange. type_errors. Qed.
Lemma membershipChange_type_errors c : only_type_errors (mailboxMembershipChange c).
Proof. unfold mailboxMembershipChange. type_errors. Qed.
#[export] Hint Resolve sendLifecycle_type_errors updateLifecycle_type_errors
  keywordChange_type_errors membershipChange_type_errors : throws.

Lemma decodePendingMutation_type_errors v : only_type_errors (decodePendingMutation v).
Proof.
  destruct v; cbn [decodePendingMutation];
    unfold accountKeyFromString, mutationIdFromString, sendMutation, keywordMutation,
      mailboxMembershipMutation; type_errors.
Qed.

Open Scope string_scope.
Open Scope list_scope.
Open Scope js_scope.

(** ** The interface *)

Class Codec (A B : Type) : Type := {
  encode_value : A → B;
  decode_value : B → outcome exn A;
  (** What decoding guarantees. *)
  valid : A → Prop;
  (** The strings have a length the language allows. *)
  sized : A → Prop;
  round_trip : ∀ a, valid a → sized a → decode_value (encode_value a) = Return a;
  decode_valid : ∀ b a, decode_value b = Return a → valid a;
}.
Arguments valid {A B} _ a.
Arguments sized {A B} _ a.
Arguments encode_value {A B} _ a.
Arguments decode_value {A B} _ b.

(** A decoder that inverts its encoder exactly. *)
Definition exact_codec {A B} (enc : A → B) (dec : B → outcome exn A) (P : A → Prop)
    (H : ∀ b a, dec b = Return a ↔ P a ∧ b = enc a) : Codec A B.
Proof.
  refine {| encode_value := enc; decode_value := dec; valid := P; sized := λ _, True |}.
  - intros a Ha _. by apply H.
  - intros b a Hb. by apply H in Hb as [? _].
Defined.

Section lists.
Context {A B : Type} (C : Codec A B).

(** Encoding is injective on valid values. *)
Lemma codec_inj a a' :
  valid C a → sized C a → valid C a' → sized C a' →
  encode_value C a = encode_value C a' → a = a'.
Proof.
  intros Hv Hs Hv' Hs' Heq. pose proof (round_trip a Hv Hs) as H.
  rewrite Heq, (round_trip a' Hv' Hs') in H. congruence.
Qed.

Lemma round_trip_list l :
  Forall (valid C) l → Forall (sized C) l →
  mapM (decode_value C) (map (encode_value C) l) = Return l.
Proof.
  intros Hv Hs. apply mapM_return_Forall2.
  induction l as [|a l IH]; simpl; [constructor|]. inversion Hv; inversion Hs; subst.
  constructor; [by apply round_trip | auto].
Qed.

Lemma decode_valid_list l k : mapM (decode_value C) l = Return k → Forall (valid C) k.
Proof.
  intros H%mapM_return_Forall2. induction H as [|b a l k Hb _ IH]; constructor; [|done].
  by eapply decode_valid.
Qed.
End lists.

(** ** Decoding of lists and nullable values, exactly *)

Lemma mapM_exact {A B} (enc : A → B) (dec : B → outcome exn A) (P : A → Prop) l k :
  (∀ b a, dec b = Return a ↔ P a ∧ b = enc a) →
  mapM dec l = Return k ↔ Forall P k ∧ l = map enc k.
Proof.
  intros H. rewrite mapM_return_Forall2. split.
  - induction 1 as [|b a l k Hb _ [IH1 IH2]]; [done|]. apply H in Hb as [? ->].
    split; [by constructor | simpl; congruence].
  - intros [Hk ->]. induction Hk; simpl; constructor; [by apply H | done].
Qed.

Lemma nullable_exact {A B} (enc : A → B) (dec : B → outcome exn A) (P : A → Prop) v k :
  (∀ b a, dec b = Return a ↔ P a ∧ b = enc a) →
  decode_nullable dec v = Return k ↔ (∀ a, k = Some a → P a) ∧ v = enc <$> k.
Proof.
  intros H. unfold decode_nullable. destruct v as [b|].
  - rewrite bind_return. setoid_rewrite H. split.
    + intros (a & [Ha ->] & [= <-]). split; [by intros ? [= <-] | done].
    + intros [Hk Hb]. destruct k as [a|]; [|done]. injection Hb as ->. exists a. auto.
  - split; [intros [= <-]; split; [by intros ? | done]|]. intros [_ Hb]. by destruct k.
Qed.

(** ** Ids *)

Definition scoped_wf (id : ScopedId) : Prop := id.(accountKey) ≠ "" ∧ id.(jmapId) ≠ "".

Ltac decode_id :=
  rewrite bind_return;
  unfold accountKeyFromString, jmapMailboxIdFromString, jmapEmailIdFromString,
    jmapIdentityIdFromString, jmapThreadIdFromString, jmapBlobIdFromString;
  setoid_rewrite bind_return; setoid_rewrite opaqueId_return;
  split;
  [ intros (? & [-> ?] & ? & [-> ?] & ?); simplify_eq/=; by split
  | intros [[? ?] ?]; simplify_eq/=;
    eexists; split; [by split|]; eexists; split; [by split | done] ].

Lemma decodeScopedMailboxId_return v id :
  decodeScopedMailboxId v = Return id ↔ scoped_wf id ∧ v = encodeScopedMailboxId id.
Proof. unfold decodeScopedMailboxId, encodeScopedMailboxId. destruct v, id. decode_id. Qed.
Lemma decodeScopedEmailId_return v id :
  decodeScopedEmailId v = Return id ↔ scoped_wf id ∧ v = encodeScopedEmailId id.
Proof. unfold decodeScopedEmailId, encodeScopedEmailId. destruct v, id. decode_id. Qed.
Lemma decodeScopedIdentityId_return v id :
  decodeScopedIdentityId v = Return id ↔ scoped_wf id ∧ v = encodeScopedIdentityId id.
Proof. unfold decodeScopedIdentityId, encodeScopedIdentityId. destruct v, id. decode_id. Qed.
Lemma decodeScopedThreadId_return v id :
  decodeScopedThreadId v = Return id ↔ scoped_wf id ∧ v = encodeScopedThreadId id.
Proof. unfold decodeScopedThreadId, encodeScopedThreadId. destruct v, id. decode_id. Qed.
Lemma decodeScopedBlobId_return v id :
  decodeScopedBlobId v = Return id ↔ scoped_wf id ∧ v = encodeScopedBlobId id.
Proof. unfold decodeScopedBlobId, encodeScopedBlobId. destruct v, id. decode_id. Qed.

#[local] Opaque decodeScopedMailboxId decodeScopedEmailId decodeScopedIdentityId
  decodeScopedThreadId decodeScopedBlobId keywordSet.

(** The next decoder of a chain succeeds. *)
Ltac decoded :=
  eexists; split; [first [split; [|by reflexivity]; done | split; [by reflexivity|]; done]|].

(** ** Addresses *)

Lemma decode_encode_address a : decodeAddress (encodeAddress a) = a.
Proof. by destruct a. Qed.
Lemma encode_decode_address a : encodeAddress (decodeAddress a) = a.
Proof. by destruct a. Qed.

Lemma decode_encode_addresses l : map decodeAddress (map encodeAddress l) = l.
Proof. induction l as [|a l IH]; simpl; [done|]. by rewrite decode_encode_address, IH. Qed.
Lemma encode_decode_addresses l : map encodeAddress (map decodeAddress l) = l.
Proof. induction l as [|a l IH]; simpl; [done|]. by rewrite encode_decode_address, IH. Qed.

Lemma decode_encode_addressList l : decodeAddressList (encodeAddressList l) = l.
Proof. destruct l; simpl; [|done]. by rewrite decode_encode_addresses. Qed.
Lemma encode_decode_addressList l : encodeAddressList (decodeAddressList l) = l.
Proof. destruct l; simpl; [|done]. by rewrite encode_decode_addresses. Qed.

Create Rewrite HintDb codecs.
#[export] Hint Rewrite decode_encode_addressList encode_decode_addressList decode_encode_addresses
  encode_decode_addresses decode_encode_address encode_decode_address : codecs.

(** ** Records whose decoder is exact *)

Definition wire_account (a : Account) : Prop :=
  a.(account_key) ≠ "" ∧ a.(remoteRef).(serviceKey) ≠ "" ∧ a.(remoteRef).(jmapAccountId) ≠ "".

Lemma decodeAccount_return v a : decodeAccount v = Return a ↔ wire_account a ∧ v = encodeAccount a.
Proof.
  unfold decodeAccount, encodeAccount, wire_account, accountKeyFromString, serviceKeyFromString,
    jmapAccountIdFromString.
  rewrite bind_return. setoid_rewrite bind_return. setoid_rewrite bind_return.
  setoid_rewrite opaqueId_return. destruct v as [k [s i]], a as [k' [s' i']]. simpl. split.
  - intros (? & [-> ?] & ? & [-> ?] & ? & [-> ?] & ?). unfold account in *. by simplify_eq/=.
  - intros ((? & ? & ?) & ?). simplify_eq/=. decoded. decoded.
    decoded. done.
Qed.

Lemma decodeCursor_return v c :
  decodeCursor v = Return c ↔ c.(cursor_accountKey) ≠ "" ∧ v = encodeCursor c.
Proof.
  unfold decodeCursor, encodeCursor, accountKeyFromString. rewrite bind_return.
  setoid_rewrite opaqueId_return. destruct v as [k t s], c as [k' t' s']. simpl. split.
  - intros (? & [-> ?] & ?). unfold collectionSyncCursor, collectionSyncStateFromString in *.
    simplify_eq/=. split; [done|]. by destruct t.
  - intros (? & ?). simplify_eq/=. decoded. by destruct t'.
Qed.

Lemma decodeEmailBody_return v b :
  decodeEmailBody v = Return b ↔ scoped_wf b.(body_emailId) ∧ v = encodeEmailBody b.
Proof.
  unfold decodeEmailBody, encodeEmailBody, emailBody. rewrite bind_return.
  setoid_rewrite decodeScopedEmailId_return.
  destruct v, b; simpl. split.
  - intros (? & [? ->] & ?). by simplify_eq/=.
  - intros [? ?]. simplify_eq/=. decoded. done.
Qed.

Definition wire_membership (m : EmailMailbox) : Prop :=
  scoped_wf m.(em_emailId) ∧ scoped_wf m.(em_mailboxId) ∧
  m.(em_emailId).(accountKey) = m.(em_mailboxId).(accountKey).

Lemma decodeEmailMailbox_return v m :
  decodeEmailMailbox v = Return m ↔ wire_membership m ∧ v = encodeEmailMailbox m.
Proof.
  unfold decodeEmailMailbox, encodeEmailMailbox, wire_membership.
  rewrite bind_return. setoid_rewrite bind_return.
  setoid_rewrite decodeScopedEmailId_return. setoid_rewrite decodeScopedMailboxId_return.
  setoid_rewrite emailMailbox_return. destruct v, m; simpl. split.
  - intros (? & [? ->] & ? & [? ->] & ? & ?). by simplify_eq/=.
  - intros [(? & ? & ?) ?]. simplify_eq/=. decoded. decoded. by split.
Qed.

Definition wire_attachment (a : AttachmentRef) : Prop :=
  scoped_wf a.(att_emailId) ∧ scoped_wf a.(att_blobId) ∧ attachment_wf a.

Lemma decodeAttachmentRef_return v a :
  decodeAttachmentRef v = Return a ↔ wire_attachment a ∧ v = encodeAttachmentRef a.
Proof.
  unfold decodeAttachmentRef, encodeAttachmentRef, wire_attachment.
  rewrite bind_return. setoid_rewrite bind_return.
  setoid_rewrite decodeScopedEmailId_return. setoid_rewrite decodeScopedBlobId_return.
  setoid_rewrite attachmentRef_return. split.
  - destruct v; simpl. intros (? & [? ->] & ? & [? ->] & ? & ->). done.
  - intros [(? & ? & ?) ->]. simpl. decoded.
    decoded. by destruct a.
Qed.

Definition wire_identity (i : Identity) : Prop := scoped_wf i.(identity_id) ∧ identity_wf i.

Lemma decodeIdentity_return v i :
  decodeIdentity v = Return i ↔ wire_identity i ∧ v = encodeIdentity i.
Proof.
  unfold decodeIdentity, encodeIdentity, wire_identity. rewrite bind_return.
  setoid_rewrite decodeScopedIdentityId_return. setoid_rewrite identity_return.
  split.
  - destruct v; simpl. intros (? & [? ->] & ? & ->). simpl. by autorewrite with codecs.
  - intros [(? & ?) ->]. simpl. decoded.
    autorewrite with codecs. by destruct i.
Qed.

Definition wire_mailbox (m : Mailbox) : Prop :=
  scoped_wf m.(mailbox_id) ∧ (∀ p, m.(mailbox_parent) = Some p → scoped_wf p) ∧ mailbox_wf m.

Lemma decode_encode_rights r : decodeRights (encodeRights r) = r.
Proof. by destruct r. Qed.
Lemma encode_decode_rights r : encodeRights (decodeRights r) = r.
Proof. by destruct r. Qed.

Lemma decodeMailbox_return v m :
  decodeMailbox v = Return m ↔ wire_mailbox m ∧ v = encodeMailbox m.
Proof.
  unfold decodeMailbox, encodeMailbox, wire_mailbox. rewrite bind_return. setoid_rewrite bind_return.
  setoid_rewrite (λ v k, nullable_exact _ _ _ v k decodeScopedMailboxId_return).
  setoid_rewrite decodeScopedMailboxId_return. setoid_rewrite mailbox_return.
  split.
  - destruct v; simpl. intros (? & [? ->] & ? & [? ->] & ? & ->). simpl. by rewrite encode_decode_rights.
  - intros [(? & ? & ?) ->]. simpl. decoded.
    decoded. rewrite decode_encode_rights. by destruct m.
Qed.

(** ** Emails *)

Definition wire_email (e : Email) : Prop :=
  scoped_wf e.(email_id) ∧ scoped_wf e.(email_blobId) ∧ scoped_wf e.(email_threadId) ∧ email_wf e.

Lemma decode_encode_email e : wire_email e → decodeEmail (encodeEmail e) = Return e.
Proof.
  intros (Hid & Hblob & Hthread & Hwf). unfold decodeEmail. cbn.
  rewrite (proj2 (decodeScopedEmailId_return _ _) (conj Hid eq_refl)). cbn.
  rewrite (proj2 (decodeScopedBlobId_return _ _) (conj Hblob eq_refl)). cbn.
  rewrite (proj2 (decodeScopedThreadId_return _ _) (conj Hthread eq_refl)). cbn.
  rewrite (keywordSet_id _ (email_wf_keywords _ Hwf)). cbn.
  autorewrite with codecs. rewrite <- (email_id_wf e Hwf). by destruct e.
Qed.

(** The factory keeps the three ids. *)
Lemma email_return_ids i e :
  email i = Return e →
  email_id e = email_id i ∧ email_blobId e = email_blobId i ∧ email_threadId e = email_threadId i.
Proof. unfold email. intros H. by run_guards H. Qed.

Lemma decodeEmail_valid v e : decodeEmail v = Return e → wire_email e.
Proof.
  unfold decodeEmail. rewrite bind_return. setoid_rewrite bind_return.
  setoid_rewrite bind_return. setoid_rewrite bind_return.
  intros (id & [Hid _]%decodeScopedEmailId_return & blob & [Hblob _]%decodeScopedBlobId_return &
    thread & [Hthread _]%decodeScopedThreadId_return & k & _ & He).
  destruct (email_return_ids _ _ He) as (H1 & H2 & H3). cbn in *. unfold wire_email.
  rewrite H1, H2, H3. split_and!; [done..|]. by eapply email_return_wf.
Qed.

(** ** Views *)

Definition wire_spec (s : MailboxViewSpec) : Prop := scoped_wf s.(spec_mailboxId).

Lemma decode_encode_spec s :
  wire_spec s → decodeMailboxViewSpec (encodeMailboxViewSpec s) = Return s.
Proof.
  intros Hs. unfold decodeMailboxViewSpec. cbn.
  rewrite (proj2 (decodeScopedMailboxId_return _ _) (conj Hs eq_refl)). cbn.
  by destruct s as [? [[]] [[] []]].
Qed.

Lemma decodeSpec_valid v s : decodeMailboxViewSpec v = Return s → wire_spec s.
Proof.
  unfold decodeMailboxViewSpec. rewrite bind_return.
  by intros (id & [Hid _]%decodeScopedMailboxId_return & [= <-]).
Qed.

Lemma decodeRange_return v r :
  decodeRange v = Return r ↔ assertCoverageRangeShape r = Return tt ∧ v = encodeRange r.
Proof.
  unfold decodeRange, mailboxViewCoverageRange. rewrite seq_return. destruct v, r. cbn. split.
  - by intros [? [= -> ->]].
  - by intros [? [= -> ->]].
Qed.

Definition wire_item (i : MailboxViewItem) : Prop :=
  scoped_wf i.(item_emailId) ∧ assertItemPosition i.(item_position) = Return tt.

Lemma decodeItem_return v i : decodeItem v = Return i ↔ wire_item i ∧ v = encodeItem i.
Proof.
  unfold decodeItem, mailboxViewItem, wire_item, encodeItem. rewrite bind_return.
  setoid_rewrite seq_return. setoid_rewrite decodeScopedEmailId_return. split.
  - destruct v; cbn. intros (id & [? ->] & ? & [= <-]). done.
  - intros [[? ?] ->]. cbn. decoded. by destruct i.
Qed.

Lemma coverage_shapes cov total previous u :
  validateCoverage_loop cov total previous = Return u →
  Forall (λ r, assertCoverageRangeShape r = Return tt) cov.
Proof.
  revert previous. induction cov as [|r cov IH]; intros previous; [constructor|].
  cbn [validateCoverage_loop]. rewrite !seq_return. intros (? & _ & _ & ?). constructor; eauto.
Qed.

Lemma item_positions items ak previous known u :
  validateItems_loop items ak previous known = Return u →
  Forall (λ i, assertItemPosition i.(item_position) = Return tt) items.
Proof.
  revert previous known. induction items as [|i items IH]; intros previous known; [constructor|].
  cbn [validateItems_loop]. rewrite !seq_return. intros (? & _ & _ & _ & ?). constructor; eauto.
Qed.

(** A well-formed view passes its own checks. *)
Lemma view_wf_parts v :
  view_wf v →
  Forall (λ r, assertCoverageRangeShape r = Return tt) v.(view_coverage) ∧
  Forall (λ i, assertItemPosition i.(item_position) = Return tt) v.(view_items).
Proof.
  intros Hv. assert (mailboxView v = Return v) as H by by apply mailboxView_return.
  unfold mailboxView, validateCoverage, validateItems in H. rewrite !seq_return in H.
  destruct H as (_ & Hc & Hi & _). split; [by eapply coverage_shapes | by eapply item_positions].
Qed.

Definition wire_view (v : MailboxView) : Prop :=
  wire_spec v.(view_spec) ∧ v.(view_queryState) ≠ "" ∧
  Forall (λ i, scoped_wf i.(item_emailId)) v.(view_items) ∧ view_wf v.

Lemma queryState_return s q :
  mailboxViewQueryStateFromString s = Return q ↔ q = s ∧ s ≠ "".
Proof. unfold mailboxViewQueryStateFromString. destruct s; simpl; naive_solver. Qed.

Lemma decode_encode_view v : wire_view v → decodeMailboxView (encodeMailboxView v) = Return v.
Proof.
  intros (Hspec & Hq & Hids & Hwf). destruct (view_wf_parts v Hwf) as [Hcov Hitems].
  unfold decodeMailboxView. cbn [encodeMailboxView iv_spec iv_queryState iv_total iv_coverage iv_items].
  rewrite (decode_encode_spec _ Hspec). cbn [mbind outcome_mbind outcome_bind].
  rewrite (proj2 (queryState_return _ _) (conj eq_refl Hq)). cbn [mbind outcome_mbind outcome_bind].
  rewrite (proj2 (mapM_exact _ _ _ _ (view_coverage v) decodeRange_return) (conj Hcov eq_refl)).
  cbn [mbind outcome_mbind outcome_bind].
  rewrite (proj2 (mapM_exact _ _ _ _ (view_items v) decodeItem_return)).
  2: { split; [|done]. apply Forall_forall. intros i Hi.
       by split; [apply (proj1 (Forall_forall _ _) Hids) | apply (proj1 (Forall_forall _ _) Hitems)]. }
  cbn [mbind outcome_mbind outcome_bind]. apply mailboxView_return. by destruct v.
Qed.

Lemma decodeMailboxView_valid b v : decodeMailboxView b = Return v → wire_view v.
Proof.
  unfold decodeMailboxView. intros H. apply bind_return in H as (s & Hs & H).
  apply bind_return in H as (q & Hq & H). apply bind_return in H as (cov & Hcov & H).
  apply bind_return in H as (items & Hitems & Hv).
  apply decodeSpec_valid in Hs. apply queryState_return in Hq as [-> Hq].
  apply (mapM_exact _ _ _ _ _ decodeItem_return) in Hitems as [Hitems _].
  apply mailboxView_return in Hv as [Hv ->]. split_and!; try done. cbn.
  eapply Forall_impl; [exact Hitems|]. by intros i [? _].
Qed.

(** ** Send intents *)

(** What the decoder guarantees.  [assertUsableOutboundAddress] decides
    [address_usable] on strings of the length the language allows ([fits]). *)
Record wire_intent (i : SendIntent) : Prop := {
  wire_intent_identity : scoped_wf i.(intent_identityId);
  wire_intent_from : i.(intent_from).(address_email) ≠ "";
  wire_intent_name : i.(intent_from).(address_name) ≠ None;
  wire_intent_wildcard : startsWith i.(intent_from).(address_email) "*@" = false;
  wire_intent_recipient : intent_recipients i ≠ [];
  wire_intent_bcc : NoDup (map address_email i.(intent_bcc));
  wire_intent_usable : Forall (λ a, fits a → address_usable a) (intent_addresses i);
}.

Definition intent_sized (i : SendIntent) : Prop := Forall fits (intent_addresses i).

Lemma wire_intent_wf i : wire_intent i → intent_sized i → intent_wf i.
Proof.
  intros [_ _ _ _ Hr Hb Hu] Hs. constructor; [|done..].
  unfold intent_sized in Hs. rewrite Forall_forall in *. auto.
Qed.

Lemma mergeBcc_loop_id l result :
  NoDup (map address_email (result ++ l)) →
  mergeBcc_loop l result (map address_email result) = result ++ l.
Proof.
  revert result. induction l as [|a l IH]; intros result Hnd; simpl; [by rewrite app_nil_r|].
  assert (address_email a ∉ map address_email result) as Hfresh.
  { rewrite map_app in Hnd. apply NoDup_app in Hnd as (_ & Hdis & _). intros Hin.
    apply (Hdis _ Hin). simpl. by left. }
  rewrite (proj2 (set_has_false _ _) Hfresh). simpl. rewrite set_add_fresh by done.
  change [address_email a] with (map address_email [a]). rewrite <- map_app, IH.
  - by rewrite <- app_assoc.
  - by rewrite <- app_assoc.
Qed.

Lemma mergeBcc_id l : NoDup (map address_email l) → mergeBcc l None = l.
Proof. intros H. unfold mergeBcc. simpl. rewrite app_nil_r. by apply (mergeBcc_loop_id l []). Qed.

Lemma assertAllUsable_each l u :
  assertAllUsable l = Return u → Forall (λ a, fits a → address_usable a) l.
Proof.
  induction l as [|a l IH]; simpl; [constructor|]. rewrite seq_return. intros [Ha Hl].
  constructor; [|auto]. intros Hfit. by eapply assertUsable_return.
Qed.

Lemma recipients_guard {A} (a b c : list A) :
  bool_decide (length a + length b + length c = 0)%nat = false ↔ a ++ b ++ c ≠ [].
Proof.
  rewrite bool_decide_eq_false. split.
  - intros Hl Hnil. apply Hl. apply (f_equal length) in Hnil. rewrite !length_app in Hnil.
    simpl in Hnil. lia.
  - intros Hne Hl. apply Hne. destruct a, b, c; simpl in *; [done|lia..].
Qed.

Lemma decode_encode_intent i :
  wire_intent i → intent_sized i → decodeSendIntent (encodeSendIntent i) = Return i.
Proof.
  intros Hw Hs. pose proof (wire_intent_wf i Hw Hs) as [Hu _ _].
  destruct Hw as [Hid Hfrom Hname Hwild Hr Hb _].
  unfold decodeSendIntent. cbn [encodeSendIntent isi_from].
  rewrite decode_encode_address. destruct (intent_from i) as [[name|] mail] eqn:Hf; [|done].
  cbn [address_name isi_identityId encodeSendIntent].
  rewrite (proj2 (decodeScopedIdentityId_return _ _) (conj Hid eq_refl)).
  cbn [mbind outcome_mbind outcome_bind].
  rewrite (proj2 (identity_return _ _) (conj (Hfrom : identity_wf (mkIdentity _ _ mail _ _)) eq_refl)).
  cbn [mbind outcome_mbind outcome_bind isi_replyTo isi_to isi_cc isi_bcc encodeSendIntent].
  rewrite !decode_encode_addresses.
  unfold sendIntent. cbn [input_identity input_to input_cc input_bcc identity_bcc identity_replyTo
    identity_name identity_email address_email emailAddress].
  pass_guard by exact Hwild. rewrite (mergeBcc_id _ Hb).
  pass_guard by (by apply recipients_guard).
  rewrite seq_return. split.
  { apply assertAllUsable_return; unfold intent_sized, intent_addresses in *; by rewrite Hf in *. }
  cbn. destruct i as [[] ? ? ? ? ? ? ? []]; cbn in *; by subst.
Qed.

Lemma decodeSendIntent_valid v i : decodeSendIntent v = Return i → wire_intent i.
Proof.
  unfold decodeSendIntent. destruct (address_name _) as [name|]; [|done].
  intros H. apply bind_return in H as (id & Hid & H). apply bind_return in H as (idn & Hidn & H).
  apply decodeScopedIdentityId_return in Hid as [Hid _].
  apply identity_return in Hidn as [Hmail ->]. unfold sendIntent in H.
  cbn [input_identity input_to input_cc input_bcc identity_bcc identity_replyTo identity_name
    identity_email] in H.
  apply seq_return in H as [Hwild H]. apply throw_if_return in Hwild.
  apply seq_return in H as [Hr H]. apply throw_if_return, recipients_guard in Hr.
  apply seq_return in H as [Hu [= <-]]. apply assertAllUsable_each in Hu.
  constructor; cbn; try done. apply mergeBcc_spec.
Qed.

(** ** Lifecycles *)

Definition wire_lifecycle {C} (confirmation_ok : C → Prop) (l : Lifecycle C) : Prop :=
  match l with
  | Pending n => n = Int 0
  | InFlight n | FailedTerminal n => attempt_started n
  | Retrying n at_ => attempt_started n ∧ at_ ≠ ""
  | Confirmed n c => attempt_started n ∧ confirmation_ok c
  end.

(** A confirmation names an email of the mutation's own account. *)
Definition confirmation_of (owner : AccountKey) (c : SendConfirmation) : Prop :=
  scoped_wf c.(confirmation_emailId) ∧ c.(confirmation_emailId).(accountKey) = owner.

Lemma attempt_guard n u : assertAttemptCount n false = Return u ↔ attempt_started n.
Proof.
  rewrite <- (assertStarted_return n tt). unfold assertAttemptCount, assertStartedAttemptCount.
  by rewrite !throw_if_return.
Qed.

Lemma pending_guard n u : assertAttemptCount n true = Return u ↔ n = Int 0.
Proof.
  unfold assertAttemptCount. rewrite throw_if_return, orb_false_iff, !negb_false_iff, num_eqb_spec.
  split; [by intros [_ [-> _]] | by intros ->].
Qed.

Lemma pass_attempts n : attempt_started n → assertAttemptCount n false = Return tt.
Proof. apply attempt_guard. Qed.

Lemma decode_encode_sendLifecycle owner l :
  wire_lifecycle (confirmation_of owner) l →
  decodeSendLifecycle (encodeSendLifecycle l) owner = Return l.
Proof.
  destruct l as [n|n|n at_|n [id]|n]; cbn [wire_lifecycle encodeSendLifecycle decodeSendLifecycle].
  - by intros ->.
  - intros Hn. by rewrite pass_attempts.
  - intros [Hn Ha]. rewrite pass_attempts by done. cbn.
    by rewrite (proj2 (mutationInstantFromString_return _ _) (conj eq_refl Ha)).
  - intros [Hn [Hid Hak]]. rewrite pass_attempts by done. cbn in *.
    rewrite (proj2 (decodeScopedEmailId_return _ _) (conj Hid eq_refl)). cbn.
    by rewrite (proj2 (differs_false _ _) Hak).
  - intros Hn. by rewrite pass_attempts.
Qed.

Lemma decode_encode_updateLifecycle l :
  wire_lifecycle (λ _, True) l → decodeUpdateLifecycle (encodeUpdateLifecycle l) = Return l.
Proof.
  destruct l as [n|n|n at_|n []|n]; cbn [wire_lifecycle encodeUpdateLifecycle decodeUpdateLifecycle].
  - by intros ->.
  - intros Hn. by rewrite pass_attempts.
  - intros [Hn Ha]. rewrite pass_attempts by done. cbn.
    by rewrite (proj2 (mutationInstantFromString_return _ _) (conj eq_refl Ha)).
  - intros [Hn _]. by rewrite pass_attempts.
  - intros Hn. by rewrite pass_attempts.
Qed.

Lemma decodeSendLifecycle_valid v owner l :
  decodeSendLifecycle v owner = Return l → wire_lifecycle (confirmation_of owner) l.
Proof.
  destruct v as [n|n|n at_|n c|n|n]; cbn [decodeSendLifecycle];
    rewrite seq_return, ?attempt_guard, ?pending_guard.
  - by intros [_ [= <-]].
  - by intros [? [= <-]].
  - rewrite bind_return. setoid_rewrite mutationInstantFromString_return.
    by intros (? & ? & [-> ?] & [= <-]).
  - rewrite bind_return. setoid_rewrite decodeScopedEmailId_return. setoid_rewrite seq_return.
    setoid_rewrite throw_if_return. setoid_rewrite differs_false.
    by intros (? & id & [? _] & ? & [= <-]).
  - by intros [? [= <-]].
  - by intros [_ ?].
Qed.

Lemma decodeUpdateLifecycle_valid v l :
  decodeUpdateLifecycle v = Return l → wire_lifecycle (λ _, True) l.
Proof.
  destruct v as [n|n|n at_|n c|n|n]; cbn [decodeUpdateLifecycle];
    rewrite seq_return, ?attempt_guard, ?pending_guard.
  - by intros [_ [= <-]].
  - by intros [? [= <-]].
  - rewrite bind_return. setoid_rewrite mutationInstantFromString_return.
    by intros (? & ? & [-> ?] & [= <-]).
  - by intros [? [= <-]].
  - by intros [? [= <-]].
  - by intros [_ ?].
Qed.

(** ** Mutations *)

Definition wire_send (m : SendMutation) : Prop :=
  wire_intent m.(send_intent) ∧ m.(send_intent).(intent_identityId).(accountKey) = m.(send_accountKey) ∧
  wire_lifecycle (confirmation_of m.(send_accountKey)) m.(send_lifecycle).

Definition wire_keyword (m : KeywordMutation) : Prop :=
  scoped_wf m.(kw_emailId) ∧ m.(kw_emailId).(accountKey) = m.(kw_accountKey) ∧
  keyword_change_wf m.(kw_change) ∧ wire_lifecycle (λ _, True) m.(kw_lifecycle).

Definition wire_move (m : MailboxMembershipMutation) : Prop :=
  scoped_wf m.(mm_emailId) ∧ m.(mm_emailId).(accountKey) = m.(mm_accountKey) ∧
  membership_change_wf m.(mm_accountKey) m.(mm_change) ∧
  Forall scoped_wf m.(mm_change).(membership_add) ∧
  Forall scoped_wf m.(mm_change).(membership_remove) ∧
  wire_lifecycle (λ _, True) m.(mm_lifecycle).

Definition wire_mutation (m : PendingMutation) : Prop :=
  mutation_id m ≠ "" ∧ mutation_accountKey m ≠ "" ∧ mutation_createdAt m ≠ "" ∧
  match m with
  | MutSend m => wire_send m
  | MutKeyword m => wire_keyword m
  | MutMembership m => wire_move m
  end.

Definition mutation_sized (m : PendingMutation) : Prop :=
  match m with MutSend m => intent_sized m.(send_intent) | _ => True end.

Lemma membership_factory ak id at_ e c :
  e.(accountKey) = ak → membership_change_wf ak c →
  mailboxMembershipMutation id ak at_ e c = Return {|
    mm_mutationId := id; mm_accountKey := ak; mm_createdAt := at_; mm_emailId := e;
    mm_change := c; mm_lifecycle := pendingLifecycle |}.
Proof.
  intros Hak (Ha & Hr & Hne & Hdis & Hall). unfold mailboxMembershipMutation.
  pass_guard by (by apply differs_false).
  rewrite (proj2 (mailboxMembershipChange_return c c)) by done. cbn [mbind outcome_mbind outcome_bind].
  pass_guard by (apply existsb_false_forall; intros x Hx; apply differs_false;
                 by apply (proj1 (Forall_forall _ _) Hall)).
  done.
Qed.

(** The start of every mutation: owner, id and instant. *)
Ltac decode_header Hak Hid Hat :=
  cbn [decodePendingMutation is_accountKey is_mutationId is_createdAt ik_accountKey ik_mutationId
    ik_createdAt im_accountKey im_mutationId im_createdAt];
  unfold accountKeyFromString, mutationIdFromString;
  rewrite (proj2 (opaqueId_return _ _ _) (conj eq_refl Hak)); cbn [mbind outcome_mbind outcome_bind];
  rewrite (proj2 (opaqueId_return _ _ _) (conj eq_refl Hid)); cbn [mbind outcome_mbind outcome_bind];
  rewrite (proj2 (mutationInstantFromString_return _ _) (conj eq_refl Hat));
  cbn [mbind outcome_mbind outcome_bind].

Lemma decode_encode_mutation m :
  wire_mutation m → mutation_sized m → decodePendingMutation (encodePendingMutation m) = Return m.
Proof.
  intros (Hid & Hak & Hat & Hm) Hs. destruct m as [m|m|m]; cbn [encodePendingMutation mutation_id mutation_accountKey mutation_createdAt] in *;
    unfold encodeSendMutation, encodeKeywordMutation, encodeMailboxMembershipMutation;
    decode_header Hak Hid Hat.
  - destruct Hm as (Hi & Howner & Hl). cbn [is_intent is_lifecycle].
    rewrite (decode_encode_intent _ Hi Hs). cbn [mbind outcome_mbind outcome_bind].
    unfold sendMutation. cbn. rewrite (proj2 (differs_false _ _) Howner). cbn.
    rewrite (decode_encode_sendLifecycle _ _ Hl). by destruct m.
  - destruct Hm as (Hscoped & Hacc & Hc & Hl). destruct (Hc) as (Ha & Hr & _).
    cbn [ik_emailId ik_change ik_lifecycle ikc_add ikc_remove].
    rewrite (proj2 (decodeScopedEmailId_return _ _) (conj Hscoped eq_refl)).
    cbn [mbind outcome_mbind outcome_bind].
    rewrite (keywordSet_id _ Ha). cbn [mbind outcome_mbind outcome_bind].
    rewrite (keywordSet_id _ Hr). cbn [mbind outcome_mbind outcome_bind].
    replace (mkKeywordChange _ _) with (kw_change m) by by destruct (kw_change m).
    unfold keywordMutation. rewrite (proj2 (differs_false _ _) Hacc). cbn [throw_if mbind outcome_mbind outcome_bind].
    rewrite (keywordChange_id _ Hc). cbn [mbind outcome_mbind outcome_bind].
    rewrite (decode_encode_updateLifecycle _ Hl). by destruct m.
  - destruct Hm as (Hscoped & Hacc & Hc & Ha & Hr & Hl).
    cbn [im_emailId im_change im_lifecycle imc_add imc_remove].
    rewrite (proj2 (decodeScopedEmailId_return _ _) (conj Hscoped eq_refl)).
    cbn [mbind outcome_mbind outcome_bind].
    rewrite (proj2 (mapM_exact _ _ _ _ _ decodeScopedMailboxId_return) (conj Ha eq_refl)).
    cbn [mbind outcome_mbind outcome_bind].
    rewrite (proj2 (mapM_exact _ _ _ _ _ decodeScopedMailboxId_return) (conj Hr eq_refl)).
    cbn [mbind outcome_mbind outcome_bind].
    replace (mkMembershipChange _ _) with (mm_change m) by by destruct (mm_change m).
    rewrite (proj2 (mailboxMembershipChange_return _ (mm_change m))).
    2: { destruct Hc as (? & ? & ? & ? & _). done. }
    cbn [mbind outcome_mbind outcome_bind].
    rewrite (membership_factory _ _ _ _ _ Hacc Hc). cbn [mbind outcome_mbind outcome_bind].
    rewrite (decode_encode_updateLifecycle _ Hl). by destruct m.
Qed.

(** The same, read backwards. *)
Ltac decoded_header H Hak Hid Hat :=
  apply bind_return in H as (owner & Hak & H); apply bind_return in H as (id & Hid & H);
  apply bind_return in H as (at_ & Hat & H);
  apply opaqueId_return in Hak as [-> Hak]; apply opaqueId_return in Hid as [-> Hid];
  apply mutationInstantFromString_return in Hat as [-> Hat].

Lemma decodePendingMutation_valid v m : decodePendingMutation v = Return m → wire_mutation m.
Proof.
  intros H. destruct v as [v|v|v]; cbn [decodePendingMutation] in H; decoded_header H Hak Hid Hat.
  - apply bind_return in H as (i & Hi%decodeSendIntent_valid & H).
    apply bind_return in H as (base & Hb & H). apply bind_return in H as (l & Hl & [= <-]).
    unfold sendMutation in Hb. apply seq_return in Hb as [Hg [= <-]].
    rewrite throw_if_return, differs_false in Hg. apply decodeSendLifecycle_valid in Hl.
    split_and!; try done.
  - apply bind_return in H as (e & He & H). apply decodeScopedEmailId_return in He as [He _].
    apply bind_return in H as (add & Ha & H). apply bind_return in H as (remove & Hr & H).
    apply bind_return in H as (base & Hb & H). apply bind_return in H as (l & Hl & [= <-]).
    apply decodeUpdateLifecycle_valid in Hl. unfold keywordMutation in Hb.
    apply seq_return in Hb as [Hg Hb]. rewrite throw_if_return, differs_false in Hg.
    apply bind_return in Hb as (c & Hc%keywordChange_wf & [= <-]). done.
  - apply bind_return in H as (e & He & H). apply decodeScopedEmailId_return in He as [He _].
    apply bind_return in H as (add & Ha & H). apply bind_return in H as (remove & Hr & H).
    apply (mapM_exact _ _ _ _ _ decodeScopedMailboxId_return) in Ha as [Ha _], Hr as [Hr _].
    apply bind_return in H as (c & Hc & H). apply mailboxMembershipChange_return in Hc as (?&?&?&?&->).
    apply bind_return in H as (base & Hb & H). apply bind_return in H as (l & Hl & [= <-]).
    apply decodeUpdateLifecycle_valid in Hl.
    assert (domain_new (MutMembership base)) as [[_ Hwf] _]%domain_new_wf by by eapply new_membership.
    unfold mailboxMembershipMutation in Hb.
    apply seq_return in Hb as [Hg Hb]. rewrite throw_if_return, differs_false in Hg.
    apply bind_return in Hb as (c & Hc & Hb). apply mailboxMembershipChange_return in Hc as (?&?&?&?&->).
    apply seq_return in Hb as [_ [= <-]]. done.
Qed.

(** What decodes satisfies the Domain's own invariant. *)
Lemma wire_mutation_wf m : wire_mutation m → mutation_wf m.
Proof.
  intros (_ & _ & _ & Hm). destruct m as [m|m|m]; cbn in Hm.
  - destruct Hm as (_ & Hak & Hl). split; [done|]. cbn.
    destruct (send_lifecycle m); cbn in *; try naive_solver.
    destruct Hl as [? [? ?]]. split; [done|]. by intros ? [= <-].
  - destruct Hm as (_ & ? & ? & Hl). split; [done|]. cbn.
    destruct (kw_lifecycle m); cbn in *; try naive_solver.
  - destruct Hm as (_ & ? & ? & _ & _ & Hl). split; [done|]. cbn.
    destruct (mm_lifecycle m); cbn in *; try naive_solver.
Qed.

(** ** The instances *)

#[export] Instance account_codec : Codec Account IpcAccount :=
  exact_codec _ _ _ decodeAccount_return.
#[export] Instance mailbox_codec : Codec Mailbox IpcMailbox :=
  exact_codec _ _ _ decodeMailbox_return.
#[export] Instance identity_codec : Codec Identity IpcIdentity :=
  exact_codec _ _ _ decodeIdentity_return.
#[export] Instance membership_codec : Codec EmailMailbox IpcEmailMailbox :=
  exact_codec _ _ _ decodeEmailMailbox_return.
#[export] Instance body_codec : Codec EmailBody IpcEmailBody :=
  exact_codec _ _ _ decodeEmailBody_return.
#[export] Instance attachment_codec : Codec AttachmentRef IpcAttachmentRef :=
  exact_codec _ _ _ decodeAttachmentRef_return.
#[export] Instance cursor_codec : Codec CollectionSyncCursor IpcCollectionSyncCursor :=
  exact_codec _ _ _ decodeCursor_return.

#[export] Instance email_codec : Codec Email IpcEmail.
Proof.
  refine {| encode_value := encodeEmail; decode_value := decodeEmail; valid := wire_email;
            sized := λ _, True |}.
  - intros e He _. by apply decode_encode_email.
  - apply decodeEmail_valid.
Defined.

#[export] Instance view_codec : Codec MailboxView IpcMailboxView.
Proof.
  refine {| encode_value := encodeMailboxView; decode_value := decodeMailboxView;
            valid := wire_view; sized := λ _, True |}.
  - intros v Hv _. by apply decode_encode_view.
  - apply decodeMailboxView_valid.
Defined.

#[export] Instance mutation_codec : Codec PendingMutation IpcPendingMutation.
Proof.
  refine {| encode_value := encodePendingMutation; decode_value := decodePendingMutation;
            valid := wire_mutation; sized := mutation_sized |}.
  - apply decode_encode_mutation.
  - apply decodePendingMutation_valid.
Defined.

(** A nullable or repeated value, lifted once for all. *)
#[export] Instance list_codec {A B} (C : Codec A B) : Codec (list A) (list B).
Proof.
  refine {| encode_value := map (encode_value C); decode_value := mapM (decode_value C);
            valid := Forall (valid C); sized := Forall (sized C) |}.
  - apply round_trip_list.
  - intros b a. apply decode_valid_list.
Defined.

(** ** Change notifications *)

Definition wire_hint (h : LocalChangeHint) : Prop :=
  match h with
  | AccountsChanged => True
  | MailboxesChanged ak | IdentitiesChanged ak | EmailsChanged ak | EmailMembershipsChanged ak
  | PendingMutationsChanged ak | SyncCursorChanged ak _ => ak ≠ ""
  | EmailBodyChanged id | AttachmentRefsChanged id => scoped_wf id
  | MailboxViewChanged s => wire_spec s
  end.

Lemma decodeHint_valid v h : decodeLocalChangeHint v = Return h → wire_hint h.
Proof.
  unfold decodeLocalChangeHint, accountKeyFromString. destruct v; cbn;
    try (destruct (opaqueIdFromString _ _) as [ak|] eqn:Hak; [|done]; intros [= <-];
         by apply opaqueId_return in Hak as [-> Hak]);
    try (destruct (decodeScopedEmailId _) as [id|] eqn:Hid; [|done]; intros [= <-];
         by apply decodeScopedEmailId_return in Hid as [Hid _]).
  - by intros [= <-].
  - destruct (decodeMailboxViewSpec spec) as [s|] eqn:Hs; [|done]. intros [= <-].
    by apply decodeSpec_valid in Hs.
  - done.
Qed.

Lemma decodeBatch_valid v b : decodeLocalChangeBatch v = Return b → Forall wire_hint (batch_hints b).
Proof.
  unfold decodeLocalChangeBatch. destruct (ib_hints v) as [|h l]; [done|].
  rewrite bind_return. intros (h' & Hh%decodeHint_valid & H).
  apply bind_return in H as (l' & Hl & [= <-]). constructor; [done|]. cbn.
  apply mapM_return_Forall2 in Hl. clear Hh. induction Hl; constructor; [|done].
  by eapply decodeHint_valid.
Qed.
