(* ===== verification/TauriAdapters.v ===== *)
(** * The Tauri adapters: adapters/tauri/*.ts

    The ports implemented over IPC: each method invokes one command and decodes
    what comes back.  No method throws: a failure is an error of the port. *)

From S2P Require Import Prelude.
From S2P Require Import JsNumber.
From S2P Require Import JsString.
From S2P Require Import JsCollections.
From S2P Require Import Errors.
From S2P Require Import DomainIds.
From S2P Require Import DomainEmail.
From S2P Require Import DomainMailbox.
From S2P Require Import MailboxView.
From S2P Require Import SendIntent.
From S2P Require Import PendingMutation.
From S2P Require Import Ports.
From S2P Require Import MailStore.
From S2P Require Import EngineInterface.
From S2P Require Import Prog.
From S2P Require Import IpcDto.
From S2P Require Import IpcCodecs.
(** ** The IPC client: ipc/local-engine-ipc-client.ts, ipc/commands.ts

    [Invocation] is one [invoke(command, { request })]: the native side answers it
    with a value of any shape ([Response]), or rejects.  The client checks the
    envelope of the response and turns every failure into a [TransportFailure]. *)

Open Scope string_scope.
Open Scope list_scope.

(** ** ipc/commands.ts *)

Definition IPC_READ_COMMANDS : list string := [
  "local_read_account"; "local_list_accounts"; "local_read_mailbox"; "local_list_mailboxes";
  "local_read_identity"; "local_list_identities"; "local_read_email"; "local_read_emails";
  "local_read_email_memberships"; "local_read_email_body"; "local_read_attachment_refs";
  "local_read_mailbox_view"; "local_read_collection_sync_cursor"; "local_read_pending_mutation";
  "local_list_pending_mutations"].

Definition IPC_WRITE_COMMANDS : list string := [
  "local_register_account"; "local_apply_collection_sync"; "local_cache_email_body";
  "local_replace_attachment_refs"; "local_replace_mailbox_view"; "local_stage_send_mutation";
  "local_apply_optimistic_keyword_mutation"; "local_apply_optimistic_mailbox_membership_mutation";
  "local_replace_pending_mutation_if_current"; "local_remove_confirmed_mutation"].

(** ** What comes back *)

(** [value.error.kind]. *)
Inductive KindField : Type := KindString (kind : string) | KindOther.
(** [value.error]: not an object, [null], or an object with or without [kind]. *)
Inductive ErrorField : Type :=
| ErrorNotObject
| ErrorNull
| ErrorObject (kind : option KindField).
(** [value.ok]. *)
Inductive OkField : Type := OkBoolean (ok : bool) | OkOther.

(** The response.  Where [T] stands, the client trusts the declared type: the
    decoders check the rest. *)
Inductive Response (T : Type) : Type :=
| ResponseNotObject
| ResponseNull
| ResponseObject (ok : option OkField) (value : option T) (error : option ErrorField).
Arguments ResponseNotObject {T}.
Arguments ResponseNull {T}.
Arguments ResponseObject {T} ok value error.

(** ** What is invoked *)

Inductive Invocation : Type → Type :=
| InvReadAccount (request : IpcReadAccountRequest) :
    Invocation (Response (IpcLocalEntityRead IpcAccount))
| InvListAccounts : Invocation (Response (list IpcAccount))
| InvReadMailbox (request : IpcReadMailboxRequest) :
    Invocation (Response (IpcLocalEntityRead IpcMailbox))
| InvListMailboxes (request : IpcListOwnedRequest) :
    Invocation (Response (IpcOwnedSnapshotRead (list IpcMailbox)))
| InvReadIdentity (request : IpcReadIdentityRequest) :
    Invocation (Response (IpcLocalEntityRead IpcIdentity))
| InvListIdentities (request : IpcListOwnedRequest) :
    Invocation (Response (IpcOwnedSnapshotRead (list IpcIdentity)))
| InvReadEmail (request : IpcReadEmailRequest) :
    Invocation (Response (IpcLocalEntityRead IpcEmail))
| InvReadEmails (request : IpcReadEmailsRequest) :
    Invocation (Response (list (IpcLocalEntityRead IpcEmail)))
| InvReadEmailMemberships (request : IpcReadEmailRequest) :
    Invocation (Response (IpcOwnedSnapshotRead (list IpcEmailMailbox)))
| InvReadEmailBody (request : IpcReadEmailRequest) :
    Invocation (Response (IpcOwnedCacheRead IpcEmailBody))
| InvReadAttachmentRefs (request : IpcReadEmailRequest) :
    Invocation (Response (IpcOwnedCacheRead (list IpcAttachmentRef)))
| InvReadMailboxView (request : IpcReadMailboxViewRequest) :
    Invocation (Response (IpcOwnedCacheRead IpcMailboxView))
| InvReadCollectionSyncCursor (request : IpcReadCursorRequest) :
    Invocation (Response (IpcOwnedOptionalRead IpcCollectionSyncCursor))
| InvReadPendingMutation (request : IpcReadMutationRequest) :
    Invocation (Response (IpcOwnedOptionalRead IpcPendingMutation))
| InvListPendingMutations (request : IpcListOwnedRequest) :
    Invocation (Response (IpcOwnedSnapshotRead (list IpcPendingMutation)))
| InvRegisterAccount (request : IpcRegisterAccountRequest) : Invocation (Response IpcWriteValue)
| InvApplyCollectionSync (request : IpcApplyCollectionSyncRequest) :
    Invocation (Response IpcWriteValue)
| InvCacheEmailBody (request : IpcCacheEmailBodyRequest) : Invocation (Response IpcWriteValue)
| InvReplaceAttachmentRefs (request : IpcReplaceAttachmentRefsRequest) :
    Invocation (Response IpcWriteValue)
| InvReplaceMailboxView (request : IpcReplaceMailboxViewRequest) :
    Invocation (Response IpcWriteValue)
| InvStageSendMutation (request : IpcMutationRequest IpcSendMutation) :
    Invocation (Response IpcWriteValue)
| InvApplyOptimisticKeywordMutation (request : IpcMutationRequest IpcKeywordMutation) :
    Invocation (Response IpcWriteValue)
| InvApplyOptimisticMailboxMembershipMutation
    (request : IpcMutationRequest IpcMailboxMembershipMutation) :
    Invocation (Response IpcWriteValue)
| InvReplacePendingMutationIfCurrent (request : IpcReplaceMutationRequest) :
    Invocation (Response IpcWriteValue)
| InvRemoveConfirmedMutation (request : IpcRemoveMutationRequest) :
    Invocation (Response IpcWriteValue).

(** The index of the command in its list. *)
Definition command_of {X} (c : Invocation X) : option string :=
  match c with
  | InvReadAccount _ => IPC_READ_COMMANDS !! 0
  | InvListAccounts => IPC_READ_COMMANDS !! 1
  | InvReadMailbox _ => IPC_READ_COMMANDS !! 2
  | InvListMailboxes _ => IPC_READ_COMMANDS !! 3
  | InvReadIdentity _ => IPC_READ_COMMANDS !! 4
  | InvListIdentities _ => IPC_READ_COMMANDS !! 5
  | InvReadEmail _ => IPC_READ_COMMANDS !! 6
  | InvReadEmails _ => IPC_READ_COMMANDS !! 7
  | InvReadEmailMemberships _ => IPC_READ_COMMANDS !! 8
  | InvReadEmailBody _ => IPC_READ_COMMANDS !! 9
  | InvReadAttachmentRefs _ => IPC_READ_COMMANDS !! 10
  | InvReadMailboxView _ => IPC_READ_COMMANDS !! 11
  | InvReadCollectionSyncCursor _ => IPC_READ_COMMANDS !! 12
  | InvReadPendingMutation _ => IPC_READ_COMMANDS !! 13
  | InvListPendingMutations _ => IPC_READ_COMMANDS !! 14
  | InvRegisterAccount _ => IPC_WRITE_COMMANDS !! 0
  | InvApplyCollectionSync _ => IPC_WRITE_COMMANDS !! 1
  | InvCacheEmailBody _ => IPC_WRITE_COMMANDS !! 2
  | InvReplaceAttachmentRefs _ => IPC_WRITE_COMMANDS !! 3
  | InvReplaceMailboxView _ => IPC_WRITE_COMMANDS !! 4
  | InvStageSendMutation _ => IPC_WRITE_COMMANDS !! 5
  | InvApplyOptimisticKeywordMutation _ => IPC_WRITE_COMMANDS !! 6
  | InvApplyOptimisticMailboxMembershipMutation _ => IPC_WRITE_COMMANDS !! 7
  | InvReplacePendingMutationIfCurrent _ => IPC_WRITE_COMMANDS !! 8
  | InvRemoveConfirmedMutation _ => IPC_WRITE_COMMANDS !! 9
  end%nat.

(** ** [call] *)

(** The condition of [call], negated part by part: the result it lets through. *)
Definition check_envelope {T} (value : Response T) : outcome exn (IpcResult T) :=
  let malformed := Throw (TypeError "Malformed Local Engine IPC response envelope") in
  match value with
  | ResponseNotObject | ResponseNull => malformed
  | ResponseObject ok value error =>
      match ok with
      | None | Some OkOther => malformed
      | Some (OkBoolean true) =>
          match value with None => malformed | Some v => Return (IpcOk v) end
      | Some (OkBoolean false) =>
          match error with
          | Some (ErrorObject (Some (KindString kind))) => Return (IpcError kind)
          | _ => malformed
          end
      end
  end.

Definition client_call {T} (c : Invocation (Response T)) : prog Invocation (IpcResult T) :=
  prog_try (value ← await c; of_outcome (check_envelope value))
    (λ cause, Raise (TransportFailure cause)).

(** ** [listenLocalStateChanged] *)

(** [event.payload.hints]. *)
Inductive HintsField : Type := HintsNotArray | HintsArray (hints : list IpcLocalChangeHint).
(** [event.payload]. *)
Inductive Payload : Type :=
| PayloadNotObject
| PayloadNull
| PayloadObject (hints : option HintsField).

(** The handler given to [listen]: it throws, or passes the payload on. *)
Definition check_payload (payload : Payload) : outcome exn IpcLocalChangeBatch :=
  let malformed := Throw (TypeError "Malformed Local Engine change batch") in
  match payload with
  | PayloadObject (Some (HintsArray hints)) =>
      match hints with [] => malformed | _ => Return {| ib_hints := hints |} end
  | _ => malformed
  end.

Open Scope string_scope.
Open Scope list_scope.
Open Scope js_scope.

(** ** adapter-results.ts *)

Definition isTransportFailure (value : exn) : option exn :=
  match value with TransportFailure cause => Some cause | _ => None end.

Inductive TransportKind : Type := transport_unavailable | transport_unexpected.

Definition mapTransportFailure (value : exn) : TransportKind :=
  match isTransportFailure value with
  | Some (TypeError _) => transport_unexpected
  | _ => transport_unavailable
  end.

Definition read_transport (k : TransportKind) : LocalReadError :=
  match k with
  | transport_unavailable => read_unavailable | transport_unexpected => read_unexpected
  end.
Definition write_transport (k : TransportKind) : LocalWriteError :=
  match k with
  | transport_unavailable => write_unavailable | transport_unexpected => write_unexpected
  end.

(** ** tauri-read-repository.ts *)

(** [['unavailable', 'corruptState', 'unexpected'].includes(kind)]: the error, or
    none of them. *)
Definition read_error_of (kind : string) : option LocalReadError :=
  if kind === "unavailable" then Some read_unavailable
  else if kind === "corruptState" then Some read_corruptState
  else if kind === "unexpected" then Some read_unexpected
  else None.

Definition tauri_read {I O} (call : prog Invocation (IpcResult I)) (decode : I → outcome exn O) :
    prog Invocation (ReadResult O) :=
  prog_try (
    result ← call;
    Ret match result with
        | IpcError kind => PortError (default read_unexpected (read_error_of kind))
        | IpcOk value =>
            match decode value with
            | Return o => PortOk o
            | Throw _ => PortError read_corruptState
            end
        end)
    (λ cause, Ret (PortError (read_transport (mapTransportFailure cause)))).

Definition tauri_entity {I O} (decode : I → outcome exn O) (value : IpcLocalEntityRead I) :
    outcome exn (LocalEntityRead O) :=
  match value with
  | IpcEntityAbsent => Return EntityAbsent
  | IpcEntityPresent v => EntityPresent <$> decode v
  | IpcEntityOther => Throw (TypeError "Invalid local entity presence")
  end.

Definition tauri_snapshot {I O} (decode : I → outcome exn O)
    (value : IpcOwnedSnapshotRead (list I)) : outcome exn (OwnedSnapshotRead (list O)) :=
  match value with
  | IpcSnapshotOwnerAbsent => Return SnapshotOwnerAbsent
  | IpcSnapshotPresent l => SnapshotPresent <$> mapM decode l
  | IpcSnapshotOther => Throw (TypeError "Invalid owned snapshot presence")
  end.

Definition tauri_cache {I O} (decode : I → outcome exn O) (value : IpcOwnedCacheRead I) :
    outcome exn (OwnedCacheRead O) :=
  match value with
  | IpcCached v => Cached <$> decode v
  | IpcCacheOwnerAbsent => Return CacheOwnerAbsent
  | IpcNotCached => Return NotCached
  | IpcCacheOther => Throw (TypeError "Invalid owned cache presence")
  end.

Definition tauri_optional {I O} (decode : I → outcome exn O) (value : IpcOwnedOptionalRead I) :
    outcome exn (OwnedOptionalRead O) :=
  match value with
  | IpcOptionalPresent v => OptionalPresent <$> decode v
  | IpcOptionalOwnerAbsent => Return OptionalOwnerAbsent
  | IpcOptionalAbsent => Return OptionalAbsent
  | IpcOptionalOther => Throw (TypeError "Invalid owned optional presence")
  end.

(** [value.map((item, index) => ...)] of [readEmails], with [ids[index]] at the
    head of [ids]. *)
Fixpoint decode_bulk (items : list (IpcLocalEntityRead IpcEmail)) (ids : list ScopedEmailId) :
    outcome exn (list (LocalEntityRead Email)) :=
  match items, ids with
  | item :: items, id :: ids =>
      decoded ← tauri_entity decodeEmail item;
      throw_if (match decoded with
                | EntityPresent e => negb (sameScopedEmailId e.(email_id) id)
                | EntityAbsent => false
                end)
        (TypeError "Bulk Email response position mismatch");;
      rest ← decode_bulk items ids;
      Return (decoded :: rest)
  | _, _ => Return []
  end.

Definition decode_emails (ids : list ScopedEmailId) (value : list (IpcLocalEntityRead IpcEmail)) :
    outcome exn (list (LocalEntityRead Email)) :=
  throw_if (negb (bool_decide (length value = length ids)))
    (TypeError "Bulk Email response length mismatch");;
  decode_bulk value ids.

Definition tauri_readAccount (key : AccountKey) :=
  tauri_read (client_call (InvReadAccount {| rq_account := encodeAccountKey key |}))
    (tauri_entity decodeAccount).
Definition tauri_listAccounts :=
  tauri_read (client_call InvListAccounts) (mapM decodeAccount).
Definition tauri_readMailbox (id : ScopedMailboxId) :=
  tauri_read (client_call (InvReadMailbox {| rq_mailboxId := encodeScopedMailboxId id |}))
    (tauri_entity decodeMailbox).
Definition tauri_listMailboxes (key : AccountKey) :=
  tauri_read (client_call (InvListMailboxes {| rq_owner := encodeAccountKey key |}))
    (tauri_snapshot decodeMailbox).
Definition tauri_readIdentity (id : ScopedIdentityId) :=
  tauri_read (client_call (InvReadIdentity {| rq_identityId := encodeScopedIdentityId id |}))
    (tauri_entity decodeIdentity).
Definition tauri_listIdentities (key : AccountKey) :=
  tauri_read (client_call (InvListIdentities {| rq_owner := encodeAccountKey key |}))
    (tauri_snapshot decodeIdentity).
Definition tauri_readEmail (id : ScopedEmailId) :=
  tauri_read (client_call (InvReadEmail {| rq_emailId := encodeScopedEmailId id |}))
    (tauri_entity decodeEmail).
Definition tauri_readEmails (ids : list ScopedEmailId) :=
  tauri_read (client_call (InvReadEmails {| rq_emailIds := map encodeScopedEmailId ids |}))
    (decode_emails ids).
Definition tauri_readEmailMemberships (id : ScopedEmailId) :=
  tauri_read (client_call (InvReadEmailMemberships {| rq_emailId := encodeScopedEmailId id |}))
    (tauri_snapshot decodeEmailMailbox).
Definition tauri_readEmailBody (id : ScopedEmailId) :=
  tauri_read (client_call (InvReadEmailBody {| rq_emailId := encodeScopedEmailId id |}))
    (tauri_cache decodeEmailBody).
Definition tauri_readAttachmentRefs (id : ScopedEmailId) :=
  tauri_read (client_call (InvReadAttachmentRefs {| rq_emailId := encodeScopedEmailId id |}))
    (tauri_cache (mapM decodeAttachmentRef)).
Definition tauri_readMailboxView (spec : MailboxViewSpec) :=
  tauri_read (client_call (InvReadMailboxView {| rq_spec := encodeMailboxViewSpec spec |}))
    (tauri_cache decodeMailboxView).
Definition tauri_readCollectionSyncCursor (key : AccountKey) (dataType : CollectionDataType) :=
  tauri_read (client_call (InvReadCollectionSyncCursor
                {| rq_cursorAccount := encodeAccountKey key;
                   rq_dataType := encodeDataType dataType |}))
    (tauri_optional decodeCursor).
Definition tauri_readPendingMutation (key : AccountKey) (mutationId : MutationId) :=
  tauri_read (client_call (InvReadPendingMutation
                {| rq_mutationAccount := encodeAccountKey key; rq_mutationId := mutationId |}))
    (tauri_optional decodePendingMutation).
Definition tauri_listPendingMutations (key : AccountKey) :=
  tauri_read (client_call (InvListPendingMutations {| rq_owner := encodeAccountKey key |}))
    (tauri_snapshot decodePendingMutation).

(** ** tauri-sync-port.ts *)

Definition write_error_of (kind : string) : option LocalWriteError :=
  if kind === "unavailable" then Some write_unavailable
  else if kind === "corruptState" then Some write_corruptState
  else if kind === "conflict" then Some write_conflict
  else if kind === "unexpected" then Some write_unexpected
  else None.

Definition tauri_write (call : prog Invocation (IpcResult IpcWriteValue)) :
    prog Invocation WriteResult :=
  prog_try (
    result ← call;
    Ret match result with
        | IpcOk IpcNull => PortOk tt
        | IpcOk IpcNotNull => PortError write_unexpected
        | IpcError kind => PortError (default write_unexpected (write_error_of kind))
        end)
    (λ cause, Ret (PortError (write_transport (mapTransportFailure cause)))).

(** The invocation of each write. *)
Definition write_invocation (op : SyncOp) : Invocation (Response IpcWriteValue) :=
  match op with
  | OpRegisterAccount value => InvRegisterAccount {| rq_newAccount := encodeAccount value |}
  | OpApplyCollectionSync value =>
      InvApplyCollectionSync {| rq_commit := encodeCollectionSyncCommit value |}
  | OpCacheEmailBody value => InvCacheEmailBody {| rq_body := encodeEmailBody value |}
  | OpReplaceAttachmentRefs emailId refs =>
      InvReplaceAttachmentRefs {| rq_refsEmailId := encodeScopedEmailId emailId;
                                  rq_refs := map encodeAttachmentRef refs |}
  | OpReplaceMailboxView value => InvReplaceMailboxView {| rq_view := encodeMailboxView value |}
  | OpStageSendMutation value => InvStageSendMutation {| rq_mutation := encodeSendMutation value |}
  | OpApplyOptimisticKeywordMutation value =>
      InvApplyOptimisticKeywordMutation {| rq_mutation := encodeKeywordMutation value |}
  | OpApplyOptimisticMailboxMembershipMutation value =>
      InvApplyOptimisticMailboxMembershipMutation
        {| rq_mutation := encodeMailboxMembershipMutation value |}
  | OpReplacePendingMutationIfCurrent expected next =>
      InvReplacePendingMutationIfCurrent {| rq_expected := encodePendingMutation expected;
                                            rq_next := encodePendingMutation next |}
  | OpRemoveConfirmedMutation accountKey mutationId =>
      InvRemoveConfirmedMutation {| rq_mutationAccount := accountKey;
                                    rq_mutationId := mutationId |}
  end.

Definition tauri_perform (op : SyncOp) : prog Invocation WriteResult :=
  tauri_write (client_call (write_invocation op)).

(** Both adapters, call by call. *)
Definition tauri {X} (c : PortCall X) : prog Invocation X :=
  match c in PortCall X return prog Invocation X with
  | Write op => tauri_perform op
  | ReadAccount ak => tauri_readAccount ak
  | ListAccounts => tauri_listAccounts
  | ReadMailbox id => tauri_readMailbox id
  | ListMailboxes ak => tauri_listMailboxes ak
  | ReadIdentity id => tauri_readIdentity id
  | ListIdentities ak => tauri_listIdentities ak
  | ReadEmail id => tauri_readEmail id
  | ReadEmails ids => tauri_readEmails ids
  | ReadEmailMemberships id => tauri_readEmailMemberships id
  | ReadEmailBody id => tauri_readEmailBody id
  | ReadAttachmentRefs id => tauri_readAttachmentRefs id
  | ReadMailboxView spec => tauri_readMailboxView spec
  | ReadCollectionSyncCursor ak t => tauri_readCollectionSyncCursor ak t
  | ReadPendingMutation ak id => tauri_readPendingMutation ak id
  | ListPendingMutations ak => tauri_listPendingMutations ak
  end.

(** ** tauri-local-change-source.ts

    A subscription is the [active] flag of its closure and the number of times
    [unlisten] was called.  The listener is client code: [listener] is what it does
    to its own state, and whether it throws. *)

Section changes.
Context {Client : Type} (listener : LocalChangeBatch → Client → outcome exn unit * Client).

Record TauriSubscription : Type := mkTauriSubscription { ts_active : bool; ts_unlistened : nat }.

(** [subscribe], once [listen] has answered. *)
Definition tauri_subscribe (listening : outcome exn unit) :
    PortResult TauriSubscription TransportKind :=
  match listening with
  | Return _ => PortOk {| ts_active := true; ts_unlistened := 0 |}
  | Throw cause => PortError (mapTransportFailure (TransportFailure cause))
  end.

(** An event: what the client's handler throws to the event system, and the
    client's state. *)
Definition tauri_event (payload : Payload) (s : TauriSubscription) (client : Client) :
    outcome exn unit * Client :=
  match check_payload payload with
  | Throw e => (Throw e, client)
  | Return value =>
      if ts_active s then
        match decodeLocalChangeBatch value with
        | Throw _ => (Return tt, client)
        | Return batch => (Return tt, (listener batch client).2)
        end
      else (Return tt, client)
  end.

(** [unlisten] may throw: the exception is dropped. *)
Definition tauri_unsubscribe (s : TauriSubscription) : TauriSubscription :=
  if ts_active s then {| ts_active := false; ts_unlistened := S (ts_unlistened s) |} else s.

(** What can happen to a subscription. *)
Inductive tauri_happening : Type :=
| Arrives (payload : Payload)
| Unsubscribes.

Definition tauri_happens (h : tauri_happening) (s : TauriSubscription * Client) :
    TauriSubscription * Client :=
  match h with
  | Arrives payload => (s.1, (tauri_event payload s.1 s.2).2)
  | Unsubscribes => (tauri_unsubscribe s.1, s.2)
  end.

Definition tauri_happens_all (hs : list tauri_happening) (s : TauriSubscription * Client) :
    TauriSubscription * Client :=
  fold_left (λ s h, tauri_happens h s) hs s.
End changes.
