(* ===== verification/TauriFacts.v ===== *)
(** * What the Tauri adapters guarantee

    Whatever the native side answers, an adapter returns; what it returns as a
    success is valid; and over a native side that serves an engine, it answers as
    the engine does. *)

From S2P Require Import Prelude.
From S2P Require Import JsNumber.
From S2P Require Import JsString.
From S2P Require Import JsCollections.
From S2P Require Import Errors.
From S2P Require Import DomainIds.
From S2P Require Import DomainEmail.
From S2P Require Import DomainMailbox.
From S2P Require Import MailboxView.
From S2P Require Import SendIntent.
From S2P Require Import PendingMutation.
From S2P Require Import Ports.
From S2P Require Import MailStore.
From S2P Require Import EngineInterface.
From S2P Require Import Prog.
From S2P Require Import IpcDto.
From S2P Require Import IpcCodecs.
From S2P Require Import CodecFacts.
From S2P Require Import TauriAdapters.
Open Scope string_scope.
Open Scope list_scope.
Open Scope js_scope.

(** ** Results over the values they carry *)

Definition ok_all {T E} (P : T → Prop) (r : PortResult T E) : Prop := ∀ v, r = PortOk v → P v.
Definition entity_all {T} (P : T → Prop) (r : LocalEntityRead T) : Prop :=
  match r with EntityPresent v => P v | EntityAbsent => True end.
Definition snapshot_all {T} (P : T → Prop) (r : OwnedSnapshotRead (list T)) : Prop :=
  match r with SnapshotPresent l => Forall P l | SnapshotOwnerAbsent => True end.
Definition cache_all {T} (P : T → Prop) (r : OwnedCacheRead T) : Prop :=
  match r with Cached v => P v | _ => True end.
Definition optional_all {T} (P : T → Prop) (r : OwnedOptionalRead T) : Prop :=
  match r with OptionalPresent v => P v | _ => True end.

(** What a bulk read answers at the position of an id. *)
Definition bulk_entry (id : ScopedEmailId) (r : LocalEntityRead Email) : Prop :=
  entity_all (λ e, wire_email e ∧ email_id e = id) r.

(** A successful answer holds valid values only. *)
Definition answer_valid {X} (c : PortCall X) : X → Prop :=
  match c in PortCall X return X → Prop with
  | Write _ => λ _, True
  | ReadAccount _ => ok_all (entity_all wire_account)
  | ListAccounts => ok_all (Forall wire_account)
  | ReadMailbox _ => ok_all (entity_all wire_mailbox)
  | ListMailboxes _ => ok_all (snapshot_all wire_mailbox)
  | ReadIdentity _ => ok_all (entity_all wire_identity)
  | ListIdentities _ => ok_all (snapshot_all wire_identity)
  | ReadEmail _ => ok_all (entity_all wire_email)
  | ReadEmails ids => ok_all (Forall2 bulk_entry ids)
  | ReadEmailMemberships _ => ok_all (snapshot_all wire_membership)
  | ReadEmailBody _ => ok_all (cache_all (λ b, scoped_wf b.(body_emailId)))
  | ReadAttachmentRefs _ => ok_all (cache_all (Forall wire_attachment))
  | ReadMailboxView _ => ok_all (cache_all wire_view)
  | ReadCollectionSyncCursor _ _ => ok_all (optional_all (λ c, c.(cursor_accountKey) ≠ ""))
  | ReadPendingMutation _ _ => ok_all (optional_all wire_mutation)
  | ListPendingMutations _ => ok_all (snapshot_all wire_mutation)
  end.

(** The strings in it have a length the language allows. *)
Definition answer_sized {X} (c : PortCall X) : X → Prop :=
  match c in PortCall X return X → Prop with
  | ReadPendingMutation _ _ => ok_all (optional_all mutation_sized)
  | ListPendingMutations _ => ok_all (snapshot_all mutation_sized)
  | _ => λ _, True
  end.

(** ** What a method makes of a response *)

Definition read_result {I O} (decode : I → outcome exn O) (r : outcome exn (Response I)) :
    ReadResult O :=
  match r with
  | Throw cause => PortError (read_transport (mapTransportFailure (TransportFailure cause)))
  | Return response =>
      match check_envelope response with
      | Throw cause => PortError (read_transport (mapTransportFailure (TransportFailure cause)))
      | Return (IpcError kind) => PortError (default read_unexpected (read_error_of kind))
      | Return (IpcOk value) =>
          match decode value with
          | Return o => PortOk o
          | Throw _ => PortError read_corruptState
          end
      end
  end.

Definition write_result (r : outcome exn (Response IpcWriteValue)) : WriteResult :=
  match r with
  | Throw cause => PortError (write_transport (mapTransportFailure (TransportFailure cause)))
  | Return response =>
      match check_envelope response with
      | Throw cause => PortError (write_transport (mapTransportFailure (TransportFailure cause)))
      | Return (IpcError kind) => PortError (default write_unexpected (write_error_of kind))
      | Return (IpcOk IpcNull) => PortOk tt
      | Return (IpcOk IpcNotNull) => PortError write_unexpected
      end
  end.

Section adapters.
Context {S : Type} (answer : ∀ X, Invocation X → S → outcome exn X * S).

Lemma tauri_read_run {I O} (c : Invocation (Response I)) (decode : I → outcome exn O) s :
  run answer (tauri_read (client_call c) decode) s =
    (Return (read_result decode (answer _ c s).1), (answer _ c s).2).
Proof.
  unfold tauri_read, client_call. cbn. destruct (answer _ c s) as [[response|e] s']; [|done]. cbn.
  by destruct (check_envelope response) as [[v|k]|e].
Qed.

Lemma tauri_write_run (c : Invocation (Response IpcWriteValue)) s :
  run answer (tauri_write (client_call c)) s =
    (Return (write_result (answer _ c s).1), (answer _ c s).2).
Proof.
  unfold tauri_write, client_call. cbn. destruct (answer _ c s) as [[response|e] s']; [|done]. cbn.
  by destruct (check_envelope response) as [[[]|k]|e].
Qed.
End adapters.

(** A success comes from a value that decodes. *)
Lemma read_result_ok {I O} (decode : I → outcome exn O) (P : O → Prop) r :
  (∀ v o, decode v = Return o → P o) → ok_all P (read_result decode r).
Proof.
  intros HP o. unfold read_result. destruct r as [response|]; [|done].
  destruct (check_envelope response) as [[v|k]|]; [|done..].
  destruct (decode v) as [o'|] eqn:Hv; [|done]. intros [= <-]. by eapply HP.
Qed.

(** ** The presence wrappers keep validity *)

Section presence.
Context {I O : Type} (decode : I → outcome exn O) (P : O → Prop).
Context (decode_ok : ∀ v o, decode v = Return o → P o).

Lemma entity_valid v r : tauri_entity decode v = Return r → entity_all P r.
Proof.
  destruct v as [|v|]; cbn; [by intros [= <-] | | done].
  destruct (decode v) eqn:Hv; [|done]. intros [= <-]. by eapply decode_ok.
Qed.

Lemma snapshot_valid v r : tauri_snapshot decode v = Return r → snapshot_all P r.
Proof.
  destruct v as [|l|]; cbn [tauri_snapshot]; [by intros [= <-] | | done].
  cbn. destruct (mapM decode l) as [k|] eqn:Hl; [|done]. intros [= <-]. cbn.
  apply mapM_return_Forall2 in Hl. induction Hl; constructor; eauto.
Qed.

Lemma cache_valid v r : tauri_cache decode v = Return r → cache_all P r.
Proof.
  destruct v as [| |v|]; cbn; [by intros [= <-].. | | done].
  destruct (decode v) eqn:Hv; [|done]. intros [= <-]. by eapply decode_ok.
Qed.

Lemma optional_valid v r : tauri_optional decode v = Return r → optional_all P r.
Proof.
  destruct v as [| |v|]; cbn; [by intros [= <-].. | | done].
  destruct (decode v) eqn:Hv; [|done]. intros [= <-]. by eapply decode_ok.
Qed.
End presence.

Lemma decode_bulk_valid items ids l :
  length items = length ids → decode_bulk items ids = Return l → Forall2 bulk_entry ids l.
Proof.
  revert ids l. induction items as [|item items IH]; intros [|id ids] l; try done.
  - intros _ [= <-]. constructor.
  - intros [= Hlen] H. cbn [decode_bulk] in H. apply bind_return in H as (d & Hd & H).
    apply seq_return in H as [Hg H]. apply throw_if_return in Hg.
    apply bind_return in H as (rest & Hrest & [= <-]). constructor; [|by apply IH].
    apply (entity_valid _ _ decodeEmail_valid) in Hd. destruct d as [|e]; [done|].
    split; [done|]. apply negb_false_iff in Hg. by apply sameScopedEmailId_spec.
Qed.

Lemma decode_emails_valid ids v l : decode_emails ids v = Return l → Forall2 bulk_entry ids l.
Proof.
  unfold decode_emails. rewrite seq_return, throw_if_return, negb_false_iff, bool_decide_eq_true.
  intros [Hlen H]. by eapply decode_bulk_valid.
Qed.

(** ** A native side that serves an engine *)

Definition ok_response {T} (v : T) : Response T :=
  ResponseObject (Some (OkBoolean true)) (Some v) None.
Definition error_response {T} (kind : string) : Response T :=
  ResponseObject (Some (OkBoolean false)) None (Some (ErrorObject (Some (KindString kind)))).

Definition encode_entity {I O} (encode : O → I) (r : LocalEntityRead O) : IpcLocalEntityRead I :=
  match r with EntityAbsent => IpcEntityAbsent | EntityPresent v => IpcEntityPresent (encode v) end.
Definition encode_snapshot {I O} (encode : O → I) (r : OwnedSnapshotRead (list O)) :
    IpcOwnedSnapshotRead (list I) :=
  match r with
  | SnapshotOwnerAbsent => IpcSnapshotOwnerAbsent
  | SnapshotPresent l => IpcSnapshotPresent (map encode l)
  end.
Definition encode_cache {I O} (encode : O → I) (r : OwnedCacheRead O) : IpcOwnedCacheRead I :=
  match r with
  | CacheOwnerAbsent => IpcCacheOwnerAbsent | NotCached => IpcNotCached
  | Cached v => IpcCached (encode v)
  end.
Definition encode_optional {I O} (encode : O → I) (r : OwnedOptionalRead O) :
    IpcOwnedOptionalRead I :=
  match r with
  | OptionalOwnerAbsent => IpcOptionalOwnerAbsent | OptionalAbsent => IpcOptionalAbsent
  | OptionalPresent v => IpcOptionalPresent (encode v)
  end.

Definition encode_read {T I} (encode : T → I) (r : ReadResult T) : Response I :=
  match r with
  | PortOk v => ok_response (encode v)
  | PortError e => error_response (read_error_string e)
  end.
Definition encode_write (r : WriteResult) : Response IpcWriteValue :=
  match r with
  | PortOk _ => ok_response IpcNull
  | PortError e => error_response (write_error_string e)
  end.

(** The value a call's answer travels as. *)
Definition wire_type {X} (c : PortCall X) : Type :=
  match c with
  | Write _ => IpcWriteValue
  | ReadAccount _ => IpcLocalEntityRead IpcAccount
  | ListAccounts => list IpcAccount
  | ReadMailbox _ => IpcLocalEntityRead IpcMailbox
  | ListMailboxes _ => IpcOwnedSnapshotRead (list IpcMailbox)
  | ReadIdentity _ => IpcLocalEntityRead IpcIdentity
  | ListIdentities _ => IpcOwnedSnapshotRead (list IpcIdentity)
  | ReadEmail _ => IpcLocalEntityRead IpcEmail
  | ReadEmails _ => list (IpcLocalEntityRead IpcEmail)
  | ReadEmailMemberships _ => IpcOwnedSnapshotRead (list IpcEmailMailbox)
  | ReadEmailBody _ => IpcOwnedCacheRead IpcEmailBody
  | ReadAttachmentRefs _ => IpcOwnedCacheRead (list IpcAttachmentRef)
  | ReadMailboxView _ => IpcOwnedCacheRead IpcMailboxView
  | ReadCollectionSyncCursor _ _ => IpcOwnedOptionalRead IpcCollectionSyncCursor
  | ReadPendingMutation _ _ => IpcOwnedOptionalRead IpcPendingMutation
  | ListPendingMutations _ => IpcOwnedSnapshotRead (list IpcPendingMutation)
  end.

Definition wire_call {X} (c : PortCall X) : Invocation (Response (wire_type c)) :=
  match c return Invocation (Response (wire_type c)) with
  | Write op => write_invocation op
  | ReadAccount ak => InvReadAccount {| rq_account := encodeAccountKey ak |}
  | ListAccounts => InvListAccounts
  | ReadMailbox id => InvReadMailbox {| rq_mailboxId := encodeScopedMailboxId id |}
  | ListMailboxes ak => InvListMailboxes {| rq_owner := encodeAccountKey ak |}
  | ReadIdentity id => InvReadIdentity {| rq_identityId := encodeScopedIdentityId id |}
  | ListIdentities ak => InvListIdentities {| rq_owner := encodeAccountKey ak |}
  | ReadEmail id => InvReadEmail {| rq_emailId := encodeScopedEmailId id |}
  | ReadEmails ids => InvReadEmails {| rq_emailIds := map encodeScopedEmailId ids |}
  | ReadEmailMemberships id => InvReadEmailMemberships {| rq_emailId := encodeScopedEmailId id |}
  | ReadEmailBody id => InvReadEmailBody {| rq_emailId := encodeScopedEmailId id |}
  | ReadAttachmentRefs id => InvReadAttachmentRefs {| rq_emailId := encodeScopedEmailId id |}
  | ReadMailboxView spec => InvReadMailboxView {| rq_spec := encodeMailboxViewSpec spec |}
  | ReadCollectionSyncCursor ak t =>
      InvReadCollectionSyncCursor {| rq_cursorAccount := encodeAccountKey ak;
                                     rq_dataType := encodeDataType t |}
  | ReadPendingMutation ak id =>
      InvReadPendingMutation {| rq_mutationAccount := encodeAccountKey ak; rq_mutationId := id |}
  | ListPendingMutations ak => InvListPendingMutations {| rq_owner := encodeAccountKey ak |}
  end.

Definition wire_answer {X} (c : PortCall X) : X → Response (wire_type c) :=
  match c in PortCall X return X → Response (wire_type c) with
  | Write _ => encode_write
  | ReadAccount _ => encode_read (encode_entity encodeAccount)
  | ListAccounts => encode_read (map encodeAccount)
  | ReadMailbox _ => encode_read (encode_entity encodeMailbox)
  | ListMailboxes _ => encode_read (encode_snapshot encodeMailbox)
  | ReadIdentity _ => encode_read (encode_entity encodeIdentity)
  | ListIdentities _ => encode_read (encode_snapshot encodeIdentity)
  | ReadEmail _ => encode_read (encode_entity encodeEmail)
  | ReadEmails _ => encode_read (map (encode_entity encodeEmail))
  | ReadEmailMemberships _ => encode_read (encode_snapshot encodeEmailMailbox)
  | ReadEmailBody _ => encode_read (encode_cache encodeEmailBody)
  | ReadAttachmentRefs _ => encode_read (encode_cache (map encodeAttachmentRef))
  | ReadMailboxView _ => encode_read (encode_cache encodeMailboxView)
  | ReadCollectionSyncCursor _ _ => encode_read (encode_optional encodeCursor)
  | ReadPendingMutation _ _ => encode_read (encode_optional encodePendingMutation)
  | ListPendingMutations _ => encode_read (encode_snapshot encodePendingMutation)
  end.

(** ** The adapters in one step *)

(** What a method makes of the response to its invocation. *)
Definition tauri_result {X} (c : PortCall X) : outcome exn (Response (wire_type c)) → X :=
  match c in PortCall X return outcome exn (Response (wire_type c)) → X with
  | Write _ => write_result
  | ReadAccount _ => read_result (tauri_entity decodeAccount)
  | ListAccounts => read_result (mapM decodeAccount)
  | ReadMailbox _ => read_result (tauri_entity decodeMailbox)
  | ListMailboxes _ => read_result (tauri_snapshot decodeMailbox)
  | ReadIdentity _ => read_result (tauri_entity decodeIdentity)
  | ListIdentities _ => read_result (tauri_snapshot decodeIdentity)
  | ReadEmail _ => read_result (tauri_entity decodeEmail)
  | ReadEmails ids => read_result (decode_emails ids)
  | ReadEmailMemberships _ => read_result (tauri_snapshot decodeEmailMailbox)
  | ReadEmailBody _ => read_result (tauri_cache decodeEmailBody)
  | ReadAttachmentRefs _ => read_result (tauri_cache (mapM decodeAttachmentRef))
  | ReadMailboxView _ => read_result (tauri_cache decodeMailboxView)
  | ReadCollectionSyncCursor _ _ => read_result (tauri_optional decodeCursor)
  | ReadPendingMutation _ _ => read_result (tauri_optional decodePendingMutation)
  | ListPendingMutations _ => read_result (tauri_snapshot decodePendingMutation)
  end.

(** One invocation, no exception. *)
Lemma tauri_run {S} (answer : ∀ X, Invocation X → S → outcome exn X * S) {X} (c : PortCall X) s :
  run answer (tauri c) s =
    (Return (tauri_result c (answer _ (wire_call c) s).1), (answer _ (wire_call c) s).2).
Proof. destruct c; first [apply tauri_read_run | apply tauri_write_run]. Qed.

Lemma tauri_result_valid {X} (c : PortCall X) r : answer_valid c (tauri_result c r).
Proof.
  destruct c; cbn [answer_valid tauri_result]; [done|..]; apply read_result_ok; intros v o.
  - apply entity_valid. apply (decode_valid (Codec := account_codec)).
  - apply (decode_valid_list account_codec).
  - apply entity_valid. apply (decode_valid (Codec := mailbox_codec)).
  - apply snapshot_valid. apply (decode_valid (Codec := mailbox_codec)).
  - apply entity_valid. apply (decode_valid (Codec := identity_codec)).
  - apply snapshot_valid. apply (decode_valid (Codec := identity_codec)).
  - apply entity_valid. apply (decode_valid (Codec := email_codec)).
  - apply decode_emails_valid.
  - apply snapshot_valid. apply (decode_valid (Codec := membership_codec)).
  - apply cache_valid. apply (decode_valid (Codec := body_codec)).
  - apply cache_valid. apply (decode_valid_list attachment_codec).
  - apply cache_valid. apply (decode_valid (Codec := view_codec)).
  - apply optional_valid. apply (decode_valid (Codec := cursor_codec)).
  - apply optional_valid. apply (decode_valid (Codec := mutation_codec)).
  - apply snapshot_valid. apply (decode_valid (Codec := mutation_codec)).
Qed.

(** ** Transparency *)

Lemma read_error_of_string e : read_error_of (read_error_string e) = Some e.
Proof. by destruct e. Qed.
Lemma write_error_of_string e : write_error_of (write_error_string e) = Some e.
Proof. by destruct e. Qed.

Lemma read_result_encoded {T I} (encode : T → I) (decode : I → outcome exn T) (P : T → Prop) r :
  (∀ v, P v → decode (encode v) = Return v) → ok_all P r →
  read_result decode (Return (encode_read encode r)) = r.
Proof.
  intros HP Hr. destruct r as [v|e]; cbn.
  - by rewrite (HP v (Hr v eq_refl)).
  - by rewrite read_error_of_string.
Qed.

Lemma write_result_encoded r : write_result (Return (encode_write r)) = r.
Proof. destruct r as [[]|e]; cbn; [done|]. by rewrite write_error_of_string. Qed.

Section presence_round_trip.
Context {I O : Type} (C : Codec O I).
Let P (v : O) : Prop := valid C v ∧ sized C v.

Lemma entity_round_trip r :
  entity_all P r → tauri_entity (decode_value C) (encode_entity (encode_value C) r) = Return r.
Proof. destruct r as [|v]; cbn; [done|]. intros []. by rewrite round_trip. Qed.

Lemma snapshot_round_trip r :
  snapshot_all P r → tauri_snapshot (decode_value C) (encode_snapshot (encode_value C) r) = Return r.
Proof.
  destruct r as [|l]; cbn [snapshot_all encode_snapshot tauri_snapshot]; [done|].
  unfold P. rewrite Forall_and. intros []. by rewrite round_trip_list.
Qed.

Lemma cache_round_trip r :
  cache_all P r → tauri_cache (decode_value C) (encode_cache (encode_value C) r) = Return r.
Proof. destruct r as [| |v]; cbn; [done..|]. intros []. by rewrite round_trip. Qed.

Lemma optional_round_trip r :
  optional_all P r → tauri_optional (decode_value C) (encode_optional (encode_value C) r) = Return r.
Proof. destruct r as [| |v]; cbn; [done..|]. intros []. by rewrite round_trip. Qed.
End presence_round_trip.

Lemma emails_round_trip ids l :
  Forall2 bulk_entry ids l → decode_emails ids (map (encode_entity encodeEmail) l) = Return l.
Proof.
  intros H. unfold decode_emails.
  pass_guard by (rewrite length_map; apply negb_false_iff, bool_decide_eq_true;
                 symmetry; by eapply Forall2_length).
  induction H as [|id r ids l Hr _ IH]; [done|]. cbn [map decode_bulk].
  destruct r as [|e]; cbn [encode_entity tauri_entity].
  - cbn. by rewrite IH.
  - destruct Hr as [He Hid]. rewrite (decode_encode_email _ He). cbn.
    rewrite (proj2 (sameScopedEmailId_spec _ _) Hid). cbn. by rewrite IH.
Qed.

(** Results that are valid, and of a size the language allows. *)
Lemma ok_all_impl {T E} (P Q : T → Prop) (r : PortResult T E) :
  (∀ v, P v → Q v) → ok_all P r → ok_all Q r.
Proof. intros HPQ Hr v Hv. auto. Qed.
Lemma ok_all_and {T E} (P Q : T → Prop) (r : PortResult T E) :
  ok_all P r → ok_all Q r → ok_all (λ v, P v ∧ Q v) r.
Proof. intros HP HQ v Hv. split; auto. Qed.
Lemma Forall_valid {A B} (C : Codec A B) l :
  (∀ a, sized C a) → Forall (valid C) l → Forall (λ v, valid C v ∧ sized C v) l.
Proof. intros Hs Hl. eapply Forall_impl; [exact Hl|]. auto. Qed.

Lemma tauri_result_encoded {X} (c : PortCall X) r :
  answer_valid c r → answer_sized c r → tauri_result c (Return (wire_answer c r)) = r.
Proof.
  destruct c; cbn [answer_valid answer_sized tauri_result wire_answer]; intros Hv Hs;
    [by apply write_result_encoded|..];
    try (refine (read_result_encoded _ _ _ r _ (ok_all_and _ _ _ Hv Hs)));
    try (refine (read_result_encoded _ _ _ r _ Hv)).
  - intros v Hw. apply (entity_round_trip account_codec). by destruct v.
  - intros v Hw. apply (round_trip_list account_codec); [done|]. by apply Forall_true.
  - intros v Hw. apply (entity_round_trip mailbox_codec). by destruct v.
  - intros v Hw. apply (snapshot_round_trip mailbox_codec). destruct v; [done|]. by apply Forall_valid.
  - intros v Hw. apply (entity_round_trip identity_codec). by destruct v.
  - intros v Hw. apply (snapshot_round_trip identity_codec). destruct v; [done|]. by apply Forall_valid.
  - intros v Hw. apply (entity_round_trip email_codec). by destruct v.
  - intros v Hw. by apply emails_round_trip.
  - intros v Hw. apply (snapshot_round_trip membership_codec). destruct v; [done|]. by apply Forall_valid.
  - intros v Hw. apply (cache_round_trip body_codec). by destruct v.
  - intros v Hw. apply (cache_round_trip (list_codec attachment_codec)). destruct v; [done..|].
    split; [done|]. by apply Forall_true.
  - intros v Hw. apply (cache_round_trip view_codec). by destruct v.
  - intros v Hw. apply (optional_round_trip cursor_codec). by destruct v.
  - intros v Hw. apply (optional_round_trip mutation_codec). destruct Hw. by destruct v.
  - intros v Hw. apply (snapshot_round_trip mutation_codec). destruct Hw. destruct v; [done|].
    by apply Forall_and.
Qed.

(** ** Subscriptions *)

(** The batches a subscription passes on: those that decode, until the first
    unsubscription. *)
Fixpoint delivered (hs : list tauri_happening) : list LocalChangeBatch :=
  match hs with
  | [] => []
  | Unsubscribes :: _ => []
  | Arrives payload :: hs =>
      match (value ← check_payload payload; decodeLocalChangeBatch value) with
      | Return batch => batch :: delivered hs
      | Throw _ => delivered hs
      end
  end.

Definition is_unsubscription (h : tauri_happening) : bool :=
  match h with Unsubscribes => true | Arrives _ => false end.

Section subscriptions.
Context {Client : Type} (listener : LocalChangeBatch → Client → outcome exn unit * Client).

Lemma tauri_event_inactive payload s client :
  ts_active s = false → (tauri_event listener payload s client).2 = client.
Proof. intros Hs. unfold tauri_event. destruct (check_payload payload); [|done]. by rewrite Hs. Qed.

Lemma tauri_event_active payload s client :
  ts_active s = true →
  (tauri_event listener payload s client).2 =
    match (value ← check_payload payload; decodeLocalChangeBatch value) with
    | Return batch => (listener batch client).2
    | Throw _ => client
    end.
Proof.
  intros Hs. unfold tauri_event. destruct (check_payload payload) as [v|]; [|done]. cbn. rewrite Hs.
  by destruct (decodeLocalChangeBatch v).
Qed.

Lemma tauri_inactive hs s client :
  ts_active s = false → tauri_happens_all listener hs (s, client) = (s, client).
Proof.
  intros Hs. unfold tauri_happens_all. induction hs as [|h hs IH]; [done|]. cbn [fold_left].
  replace (tauri_happens listener h (s, client)) with (s, client); [done|].
  destruct h as [p|]; cbn [tauri_happens fst snd].
  - by rewrite tauri_event_inactive.
  - unfold tauri_unsubscribe. by rewrite Hs.
Qed.

Lemma tauri_happens_all_spec hs n client :
  tauri_happens_all listener hs ({| ts_active := true; ts_unlistened := n |}, client) =
    ({| ts_active := negb (existsb is_unsubscription hs);
        ts_unlistened := if existsb is_unsubscription hs then S n else n |},
     fold_left (λ client batch, (listener batch client).2) (delivered hs) client).
Proof.
  revert client. induction hs as [|[p|] hs IH]; intros client; [done| |].
  - change (tauri_happens_all listener (Arrives p :: hs) ({| ts_active := true; ts_unlistened := n |}, client))
      with (tauri_happens_all listener hs
              ({| ts_active := true; ts_unlistened := n |},
               (tauri_event listener p {| ts_active := true; ts_unlistened := n |} client).2)).
    rewrite IH, tauri_event_active by done. cbn [existsb is_unsubscription orb delivered].
    by destruct (check_payload p ≫= _).
  - apply (tauri_inactive hs {| ts_active := false; ts_unlistened := S n |}). done.
Qed.
End subscriptions.

Lemma delivered_valid hs : Forall (λ b, Forall wire_hint (batch_hints b)) (delivered hs).
Proof.
  induction hs as [|[p|] hs IH]; cbn [delivered]; [constructor| |constructor].
  destruct (check_payload p) as [v|] eqn:Hp; cbn; [|done].
  destruct (decodeLocalChangeBatch v) as [b|] eqn:Hb; [|done]. constructor; [|done].
  by eapply decodeBatch_valid.
Qed.

(** ** Commits lose nothing on the way out *)

#[export] Instance encodeScopedEmailId_inj : Inj (=) (=) encodeScopedEmailId.
Proof. intros [] [] [=]. by subst. Qed.
#[export] Instance encodeScopedMailboxId_inj : Inj (=) (=) encodeScopedMailboxId.
Proof. intros [] [] [=]. by subst. Qed.
#[export] Instance encodeScopedIdentityId_inj : Inj (=) (=) encodeScopedIdentityId.
Proof. intros [] [] [=]. by subst. Qed.
#[export] Instance encodeScopedBlobId_inj : Inj (=) (=) encodeScopedBlobId.
Proof. intros [] [] [=]. by subst. Qed.
#[export] Instance encodeScopedThreadId_inj : Inj (=) (=) encodeScopedThreadId.
Proof. intros [] [] [=]. by subst. Qed.
#[export] Instance encodeAddressList_inj : Inj (=) (=) encodeAddressList.
Proof.
  intros a b H. by rewrite <- (decode_encode_addressList a), H, decode_encode_addressList.
Qed.
#[export] Instance encodeRights_inj : Inj (=) (=) encodeRights.
Proof. intros a b H. by rewrite <- (decode_encode_rights a), H, decode_encode_rights. Qed.
#[export] Instance encodeCursor_inj : Inj (=) (=) encodeCursor.
Proof. intros [? [] ?] [? [] ?] [=]; by subst. Qed.

(** The encodings agree on one field; [by_field p enc H] undoes [enc] on field [p]. *)
Ltac by_field p enc H := apply (inj enc); exact (f_equal p H).

Lemma mkEmail_eta e :
  e = mkEmail (email_id e) (email_blobId e) (email_threadId e) (email_sender e) (email_from e)
        (email_replyTo e) (email_to e) (email_cc e) (email_bcc e) (email_subject e)
        (email_sentAt e) (email_receivedAt e) (email_size e) (email_preview e)
        (email_hasAttachment e) (email_keywords e).
Proof. by destruct e. Qed.

#[export] Instance encodeEmail_inj : Inj (=) (=) encodeEmail.
Proof.
  intros a b H. rewrite (mkEmail_eta a), (mkEmail_eta b). f_equal.
  - by_field ie_id encodeScopedEmailId H.
  - by_field ie_blobId encodeScopedBlobId H.
  - by_field ie_threadId encodeScopedThreadId H.
  - by_field ie_sender encodeAddressList H.
  - by_field ie_from encodeAddressList H.
  - by_field ie_replyTo encodeAddressList H.
  - by_field ie_to encodeAddressList H.
  - by_field ie_cc encodeAddressList H.
  - by_field ie_bcc encodeAddressList H.
  - exact (f_equal ie_subject H).
  - exact (f_equal ie_sentAt H).
  - exact (f_equal ie_receivedAt H).
  - exact (f_equal ie_size H).
  - exact (f_equal ie_preview H).
  - exact (f_equal ie_hasAttachment H).
  - exact (f_equal ie_keywords H).
Qed.

#[export] Instance encodeEmailMailbox_inj : Inj (=) (=) encodeEmailMailbox.
Proof.
  intros [e m] [e' m'] H. f_equal; [by_field iem_emailId encodeScopedEmailId H
                                   | by_field iem_mailboxId encodeScopedMailboxId H].
Qed.

#[export] Instance encodeIdentity_inj : Inj (=) (=) encodeIdentity.
Proof.
  intros [i n e r b] [i' n' e' r' b'] H. f_equal.
  - by_field iid_id encodeScopedIdentityId H.
  - exact (f_equal iid_name H).
  - exact (f_equal iid_email H).
  - by_field iid_replyTo encodeAddressList H.
  - by_field iid_bcc encodeAddressList H.
Qed.

#[export] Instance encodeMailbox_inj : Inj (=) (=) encodeMailbox.
Proof.
  intros [i n p r s t u g] [i' n' p' r' s' t' u' g'] H. f_equal.
  - by_field imb_id encodeScopedMailboxId H.
  - exact (f_equal imb_name H).
  - apply (inj (fmap encodeScopedMailboxId)). exact (f_equal imb_parent H).
  - exact (f_equal imb_role H).
  - exact (f_equal imb_sortOrder H).
  - exact (f_equal imb_totalEmails H).
  - exact (f_equal imb_unreadEmails H).
  - by_field imb_rights encodeRights H.
Qed.

#[export] Instance encodeRecord_inj : Inj (=) (=) encodeRecord.
Proof.
  intros [e ms] [e' ms'] H. f_equal.
  - by_field isr_email encodeEmail H.
  - apply (inj (fmap encodeEmailMailbox)). exact (f_equal isr_memberships H).
Qed.

#[export] Instance encodePrecondition_inj : Inj (=) (=) encodePrecondition.
Proof.
  intros [|c] [|c'] H; try done. f_equal. apply (inj encodeCursor). cbn [encodePrecondition] in H.
  congruence.
Qed.

Lemma encodeCommit_inj {T Id T' Id'} (enc : T → T') (encId : Id → Id')
    `{!Inj (=) (=) enc, !Inj (=) (=) encId} : Inj (=) (=) (encodeCommit enc encId).
Proof.
  intros [e n c d|e n s] [e' n' c' d'|e' n' s'] H; try done; cbn [encodeCommit] in H; f_equal;
    first [apply (inj encodeCursor) | apply (inj encodePrecondition) | apply (inj (fmap enc))
          | apply (inj (fmap encId))];
    try match goal with |- ?f <$> ?a = ?f <$> ?b => change (map f a = map f b) end; congruence.
Qed.

#[export] Instance encodeCollectionSyncCommit_inj : Inj (=) (=) encodeCollectionSyncCommit.
Proof.
  intros [c|c|c] [c'|c'|c'] H; try done; f_equal;
    [eapply (encodeCommit_inj encodeRecord encodeScopedEmailId)
    |eapply (encodeCommit_inj encodeMailbox encodeScopedMailboxId)
    |eapply (encodeCommit_inj encodeIdentity encodeScopedIdentityId)];
    cbn [encodeCollectionSyncCommit] in H; congruence.
Qed.
