(* ===== verification/NativeMail.v ===== *)
(** * The native mail port: remote/native/ipc.ts, native-mail-ipc-client.ts, error-mapper.ts

    The requests the TypeScript side makes of the native IMAP and SMTP client, one
    constructor of [NativeCall] per method, and the translation of what it rejects
    with into a [RemoteError]. *)

From S2P Require Import Prelude.
From S2P Require Import JsNumber.
From S2P Require Import JsString.
From S2P Require Import Errors.
From S2P Require Import DomainIds.
From S2P Require Import Remote.
From S2P Require Import Prog.
Open Scope string_scope.
Open Scope list_scope.
Open Scope js_scope.

(** ** remote/native/ipc.ts *)

Record NativeMailOpenRequest : Type := mkNativeMailOpenRequest {
  open_host : string;
  open_username : string;
  open_password : string;
  open_imapPort : number;
  open_smtpPort : number;
}.

Record NativeMailOpenResponse : Type := mkNativeMailOpenResponse {
  opened_sessionId : string;
  opened_authenticatedUser : string;
}.

(** [NativeAddressDto] is [{ name, email }], as [EmailAddress]. *)
Definition NativeAddressDto : Type := EmailAddress.

(** [specialUse] may be absent or [null]: the code does not distinguish. *)
Record NativeMailboxDto : Type := mkNativeMailboxDto {
  nm_name : string;
  nm_messages : number;
  nm_unseen : number;
  nm_uidValidity : number;
  nm_uidNext : number;
  nm_specialUse : option string;
}.

Record NativeMessageMetadataDto : Type := mkNativeMessageMetadataDto {
  nd_mailbox : string;
  nd_uidValidity : number;
  nd_uid : number;
  nd_flags : list string;
  nd_internalDate : string;
  nd_size : number;
  nd_sender : option (list NativeAddressDto);
  nd_from : option (list NativeAddressDto);
  nd_replyTo : option (list NativeAddressDto);
  nd_to : option (list NativeAddressDto);
  nd_cc : option (list NativeAddressDto);
  nd_bcc : option (list NativeAddressDto);
  nd_subject : option string;
  nd_sentAt : option string;
  nd_preview : string;
  nd_hasAttachment : bool;
}.

Record NativeMailboxSnapshotDto : Type := mkNativeMailboxSnapshotDto {
  snapshot_mailbox : NativeMailboxDto;
  snapshot_messages : list NativeMessageMetadataDto;
}.

Inductive NativeBodyDto : Type :=
| NativePlainBody (text html : option string)
| NativeE2eeBody (payload : string).

Record NativeAttachmentDto : Type := mkNativeAttachmentDto {
  na_partId : string;
  na_name : option string;
  na_mediaType : string;
  na_size : number;
  na_disposition : option string;
  na_cid : option string;
}.

Record NativeMessageRequest : Type := mkNativeMessageRequest {
  target_sessionId : string;
  target_mailbox : string;
  target_uidValidity : number;
  target_uid : number;
}.

Record NativeFoundEmailIdDto : Type := mkNativeFoundEmailIdDto {
  found_mailbox : string;
  found_uidValidity : number;
  found_uid : number;
}.

Inductive NativeFindMessageIdResponse : Type :=
| MessageNotFound
| MessageFound (emailId : NativeFoundEmailIdDto)
| MessageAmbiguous.

Inductive NativeFlag : Type := flag_seen | flag_flagged.

#[export] Instance NativeFlag_eq_dec : EqDecision NativeFlag.
Proof. solve_decision. Defined.

Record NativeMoveResponse : Type := mkNativeMoveResponse {
  moved_sourceMailbox : string;
  moved_sourceUidValidity : number;
  moved_sourceUid : number;
  moved_destinationMailbox : string;
  moved_destinationUid : number;
}.

Inductive NativeSubmissionBodyDto : Type :=
| NativeSubmitPlain (text : string) (html : option string)
| NativeSubmitE2ee (payload : string).

Record NativeSmtpSubmitRequest : Type := mkNativeSmtpSubmitRequest {
  smtp_sessionId : string;
  smtp_from : NativeAddressDto;
  smtp_to : list NativeAddressDto;
  smtp_cc : list NativeAddressDto;
  smtp_bcc : list NativeAddressDto;
  smtp_replyTo : list NativeAddressDto;
  smtp_subject : string;
  smtp_body : NativeSubmissionBodyDto;
  smtp_idempotencyKey : string;
}.

(** [NativeMailIpcPort].  The request records of two or three fields are the
    constructor's arguments; a submission answers with its receipt. *)
Inductive NativeCall : Type → Type :=
| NativeOpen (request : NativeMailOpenRequest) : NativeCall NativeMailOpenResponse
| NativeAuthorizeGoogle (accountKey username : string) : NativeCall string
| NativeForgetGoogle (credentialRef : string) : NativeCall unit
| NativeOpenGoogle (username credentialRef : string) : NativeCall NativeMailOpenResponse
| NativeClose (sessionId : string) : NativeCall unit
| NativeListMailboxes (sessionId : string) : NativeCall (list NativeMailboxDto)
| NativeSnapshotMailbox (sessionId mailbox : string) : NativeCall NativeMailboxSnapshotDto
| NativeFetchBody (request : NativeMessageRequest) : NativeCall NativeBodyDto
| NativeFetchAttachments (request : NativeMessageRequest) : NativeCall (list NativeAttachmentDto)
| NativeFindMessageId (sessionId mailbox messageId : string) : NativeCall NativeFindMessageIdResponse
| NativeStoreFlags (request : NativeMessageRequest) (add remove : list NativeFlag) : NativeCall unit
| NativeMove (request : NativeMessageRequest) (destinationMailbox : string) : NativeCall NativeMoveResponse
| NativeSmtpSubmit (request : NativeSmtpSubmitRequest) : NativeCall string.

(** ** remote/native/native-mail-ipc-client.ts: the command of each method *)

Definition native_command {X} (c : NativeCall X) : string :=
  match c with
  | NativeOpen _ => "native_mail_open"
  | NativeAuthorizeGoogle _ _ => "native_google_oauth_authorize"
  | NativeForgetGoogle _ => "native_google_oauth_forget"
  | NativeOpenGoogle _ _ => "native_mail_open_google"
  | NativeClose _ => "native_mail_close"
  | NativeListMailboxes _ => "native_imap_list_mailboxes"
  | NativeSnapshotMailbox _ _ => "native_imap_snapshot_mailbox"
  | NativeFetchBody _ => "native_imap_fetch_body"
  | NativeFetchAttachments _ => "native_imap_fetch_attachments"
  | NativeFindMessageId _ _ _ => "native_imap_find_message_id"
  | NativeStoreFlags _ _ _ => "native_imap_store_flags"
  | NativeMove _ _ => "native_imap_move"
  | NativeSmtpSubmit _ => "native_smtp_submit"
  end.

(** ** remote/native/error-mapper.ts *)

(** The strings of [RemoteErrorKind]; the set [kinds] is the domain. *)
Definition remote_kind_of (kind : string) : option RemoteErrorKind :=
  if kind === "auth" then Some kind_auth
  else if kind === "network" then Some kind_network
  else if kind === "unavailable" then Some kind_unavailable
  else if kind === "protocol" then Some kind_protocol
  else if kind === "malformedRemoteData" then Some kind_malformedRemoteData
  else if kind === "stateInvalid" then Some kind_stateInvalid
  else if kind === "conflict" then Some kind_conflict
  else if kind === "unsupported" then Some kind_unsupported
  else if kind === "rateLimited" then Some kind_rateLimited
  else if kind === "tooLarge" then Some kind_tooLarge
  else if kind === "rejected" then Some kind_rejected
  else if kind === "unexpected" then Some kind_unexpected
  else None.

Definition retry_of (retry : string) : option RetryDisposition :=
  if retry === "never" then Some never
  else if retry === "safeImmediate" then Some safeImmediate
  else if retry === "safeBackoff" then Some safeBackoff
  else if retry === "reconcile" then Some retry_reconcile
  else None.

Definition session_of (session : string) : option SessionDisposition :=
  if session === "keep" then Some session_keep
  else if session === "expire" then Some session_expire
  else None.

Definition outcome_of (outcome : string) : option OperationOutcome :=
  if outcome === "notApplicable" then Some notApplicable
  else if outcome === "knownNotApplied" then Some knownNotApplied
  else if outcome === "unknown" then Some outcome_unknown
  else None.

(** [isNativeError(value)], together with the fields it validates. *)
Definition native_error (value : NativeRejection) :
    option (RemoteErrorKind * RetryDisposition * SessionDisposition * OperationOutcome) :=
  kind ← value.(native_kind);
  kind ← remote_kind_of kind;
  retry ← retry_of value.(native_retry);
  session ← session_of value.(native_session);
  outcome ← outcome_of value.(native_outcome);
  Some (kind, retry, session, outcome).

Definition native_unavailable : RemoteError :=
  {| remote_message := "Native mail IPC is unavailable"; remote_kind := kind_unavailable;
     remote_retry := safeBackoff; remote_session := session_expire;
     remote_outcome := knownNotApplied |}.

Definition toNativeRemoteError (error : exn) : RemoteError :=
  match error with
  | ThrownRemoteError error => error
  | ThrownNativeObject value =>
      match native_error value with
      | Some (kind, retry, session, outcome) =>
          {| remote_message :=
               "Native mail operation failed" +:+
               match value.(native_code) with
               | Some code => " (" +:+ code +:+ ")"
               | None => ""
               end;
             remote_kind := kind; remote_retry := retry; remote_session := session;
             remote_outcome := outcome |}
      | None => native_unavailable
      end
  | _ => native_unavailable
  end.

(** [catch (error) { throw toNativeRemoteError(error) }]. *)
Definition rethrow_native {A} (error : exn) : prog NativeCall A :=
  Raise (ThrownRemoteError (toNativeRemoteError error)).

(** The error both [SmtpSubmission] and [ImapMutationReconciler] make of an account
    that is not theirs. *)
Definition account_mismatch : exn :=
  ThrownRemoteError (toNativeRemoteError (ThrownNativeObject
    {| native_kind := Some "stateInvalid"; native_retry := "never"; native_session := "keep";
       native_outcome := "knownNotApplied"; native_code := Some "remote_account_mismatch" |})).
