(* ===== verification/ImapIds.v ===== *)
(** * IMAP identities: remote/imap/ids.ts

    IMAP has no stable ids of the kind the rest of the program expects: an account is
    its user, a mailbox its name, an email the triple of mailbox, UIDVALIDITY and UID.
    The module packs them into opaque ids, each with a prefix of its own, with the text
    in URL-safe base64. *)

Set Warnings "-register-all".
From S2P Require Import Prelude.
From S2P Require Import JsNumber.
From S2P Require Import JsString.
From S2P Require Import JsCollections.
From S2P Require Import Errors.
From S2P Require Import DomainIds.
From S2P Require Import Remote.
From S2P Require Import Json.
From S2P Require Import JsText.
From S2P Require Import NativeMail.
Open Scope string_scope.
Open Scope js_scope.

Record DecodedImapEmailId : Type := mkDecodedImapEmailId {
  imap_mailbox : string;
  imap_uidValidity : number;
  imap_uid : number;
}.

#[export] Instance DecodedImapEmailId_eq_dec : EqDecision DecodedImapEmailId.
Proof. solve_decision. Defined.

Definition invalidId : exn :=
  ThrownRemoteError {| remote_message := "Malformed IMAP remote identity";
                       remote_kind := kind_stateInvalid; remote_retry := never;
                       remote_session := session_keep; remote_outcome := knownNotApplied |}.

Section ids.
Context {platform : Platform}.

Definition encode (value : string) : string := base64url (utf8_encode value).

Definition decode (value : string) : outcome exn string :=
  match binary ← atob (restored value); utf8_decode platform_wide binary with
  | Some text => Return text
  | None => Throw invalidId
  end.

Definition assertPositiveInteger (value : number) : outcome exn unit :=
  throw_if (negb (isSafeInteger value) || num_leb value (Int 0)) invalidId.

(** The group of [/^prefix([A-Za-z0-9_-]+)$/.exec(value)]. *)
Definition exec_id (prefix value : string) : option string :=
  group ← strip_prefix prefix value;
  if nonempty_all is_url_char group then Some group else None.

Definition decode_with (prefix value : string) : outcome exn string :=
  match exec_id prefix value with
  | None => Throw invalidId
  | Some group => decode group
  end.

Definition imapAccountId (username : string) : outcome exn RemoteAccountId :=
  remoteAccountIdFromString ("imap-account-v1:" +:+ encode username).
Definition decodeImapAccountId (value : RemoteAccountId) : outcome exn string :=
  decode_with "imap-account-v1:" value.
Definition imapIdentityId (username : string) : outcome exn RemoteIdentityId :=
  remoteIdentityIdFromString ("imap-identity-v1:" +:+ encode username).
Definition decodeImapIdentityId (value : RemoteIdentityId) : outcome exn string :=
  decode_with "imap-identity-v1:" value.
Definition imapMailboxId (mailbox : string) : outcome exn RemoteMailboxId :=
  remoteMailboxIdFromString ("imap-mailbox-v1:" +:+ encode mailbox).
Definition decodeImapMailboxId (value : RemoteMailboxId) : outcome exn string :=
  decode_with "imap-mailbox-v1:" value.

Definition imapEmailId (value : DecodedImapEmailId) : outcome exn RemoteEmailId :=
  assertPositiveInteger value.(imap_uidValidity);;
  assertPositiveInteger value.(imap_uid);;
  remoteEmailIdFromString
    ("imap-email-v1:" +:+ encode value.(imap_mailbox) +:+ ":" +:+
     number_text platform_numeral value.(imap_uidValidity) +:+ ":" +:+
     number_text platform_numeral value.(imap_uid)).

(** The groups of [/^imap-email-v1:([A-Za-z0-9_-]+):(\d+):(\d+)$/.exec(value)]: a
    colon is in none of the three. *)
Definition exec_email_id (value : string) : option (string * string * string) :=
  groups ← strip_prefix "imap-email-v1:" value;
  '(mailbox, rest) ← cut ":" groups;
  '(uidValidity, uid) ← cut ":" rest;
  if nonempty_all is_url_char mailbox && nonempty_all is_digit uidValidity &&
     nonempty_all is_digit uid
  then Some (mailbox, uidValidity, uid) else None.

Definition decodeImapEmailId (value : RemoteEmailId) : outcome exn DecodedImapEmailId :=
  match exec_email_id value with
  | None => Throw invalidId
  | Some (mailbox, validity, number) =>
      let uidValidity := digits_number validity in
      let uid := digits_number number in
      assertPositiveInteger uidValidity;;
      assertPositiveInteger uid;;
      mailbox ← decode mailbox;
      Return {| imap_mailbox := mailbox; imap_uidValidity := uidValidity; imap_uid := uid |}
  end.

Definition imapThreadId (emailId : RemoteEmailId) : outcome exn RemoteThreadId :=
  remoteThreadIdFromString ("imap-thread-v1:" +:+ encode emailId).
Definition imapBlobId (emailId : RemoteEmailId) : outcome exn RemoteBlobId :=
  remoteBlobIdFromString ("imap-blob-v1:" +:+ encode emailId).
Definition imapAttachmentBlobId (emailId : RemoteEmailId) (partId : string) :
    outcome exn RemoteBlobId :=
  remoteBlobIdFromString ("imap-attachment-v1:" +:+ encode emailId +:+ ":" +:+ encode partId).
End ids.

(** ** Facts *)

Section facts.
Context {platform : Platform}.

(** A message the native side may return: numbers IMAP calls [nz-number]. *)
Definition positive_safe (n : number) : Prop := ∃ z, n = Int z ∧ (0 < z <= MAX_SAFE_INTEGER)%Z.

Lemma assertPositiveInteger_return n u : assertPositiveInteger n = Return u ↔ positive_safe n.
Proof.
  unfold assertPositiveInteger. rewrite throw_if_return, orb_false_iff, negb_false_iff. split.
  - intros [(z & -> & Hz)%isSafeInteger_spec Hp]. rewrite num_leb_Int in Hp.
    apply Z.leb_gt in Hp. exists z. split; [done|lia].
  - intros (z & -> & Hz). rewrite num_leb_Int, Z.leb_gt. split; [|lia].
    apply isSafeInteger_spec. exists z. split; [done|]. lia.
Qed.

Lemma decode_encode s : decode (encode s) = Return s.
Proof.
  unfold decode, encode. rewrite restored_base64url, atob_btoa. cbn.
  by rewrite utf8_decode_encode.
Qed.

Lemma encode_inj s t : encode s = encode t → s = t.
Proof. intros H. pose proof (decode_encode s) as Hs. rewrite H, decode_encode in Hs. by injection Hs. Qed.

Lemma encode_nonempty s : s ≠ "" → nonempty_all is_url_char (encode s) = true.
Proof.
  intros Hs. unfold nonempty_all, encode. rewrite base64url_chars, andb_true_r.
  apply negb_true_iff, is_empty_false. rewrite base64url_empty. destruct s; [done|].
  cbn [utf8_encode]. by case_match.
Qed.

Lemma encode_no_colon s : includes (encode s) ":" = false.
Proof. eapply string_forallb_includes; [apply base64url_chars | done]. Qed.

Lemma decode_with_encode prefix s : s ≠ "" → decode_with prefix (prefix +:+ encode s) = Return s.
Proof.
  intros Hs. unfold decode_with, exec_id. rewrite strip_prefix_app. cbn.
  rewrite encode_nonempty by done. apply decode_encode.
Qed.

(** Every id has its prefix, so the constructor that rejects the empty string never
    throws. *)
Lemma prefixed_id_return (p s name : string) (c : ascii) :
  remoteIdFromString (String c p +:+ s) name = Return (String c p +:+ s).
Proof. by rewrite string_app_cons. Qed.

Lemma imapAccountId_return s : imapAccountId s = Return ("imap-account-v1:" +:+ encode s).
Proof. apply prefixed_id_return. Qed.
Lemma imapIdentityId_return s : imapIdentityId s = Return ("imap-identity-v1:" +:+ encode s).
Proof. apply prefixed_id_return. Qed.
Lemma imapMailboxId_return s : imapMailboxId s = Return ("imap-mailbox-v1:" +:+ encode s).
Proof. apply prefixed_id_return. Qed.
Lemma imapThreadId_return s : imapThreadId s = Return ("imap-thread-v1:" +:+ encode s).
Proof. apply prefixed_id_return. Qed.
Lemma imapBlobId_return s : imapBlobId s = Return ("imap-blob-v1:" +:+ encode s).
Proof. apply prefixed_id_return. Qed.
Lemma imapAttachmentBlobId_return s p :
  imapAttachmentBlobId s p = Return ("imap-attachment-v1:" +:+ encode s +:+ ":" +:+ encode p).
Proof. apply prefixed_id_return. Qed.

Definition email_id_text (mailbox : string) (uidValidity uid : Z) : string :=
  "imap-email-v1:" +:+ encode mailbox +:+ ":" +:+ pretty uidValidity +:+ ":" +:+ pretty uid.

Lemma imapEmailId_return value id :
  imapEmailId value = Return id ↔
  ∃ v u, value = mkDecodedImapEmailId value.(imap_mailbox) (Int v) (Int u) ∧
    (0 < v <= MAX_SAFE_INTEGER)%Z ∧ (0 < u <= MAX_SAFE_INTEGER)%Z ∧
    id = email_id_text value.(imap_mailbox) v u.
Proof.
  unfold imapEmailId. rewrite !seq_return, !assertPositiveInteger_return. split.
  - intros ((v & Hv & Hvb) & (u & Hu & Hub) & H). destruct value as [mb v' u']. simpl in *. subst.
    rewrite !number_text_safe in H by lia. unfold remoteEmailIdFromString in H.
    rewrite prefixed_id_return in H. injection H as <-. by exists v, u.
  - intros (v & u & -> & Hv & Hu & ->). simpl. split_and!; [by exists v|by exists u|].
    rewrite !number_text_safe by lia. apply prefixed_id_return.
Qed.

Lemma exec_email_id_text mailbox v u :
  mailbox ≠ "" → (0 < v)%Z → (0 < u)%Z →
  exec_email_id (email_id_text mailbox v u) = Some (encode mailbox, pretty v, pretty u).
Proof.
  intros Hm Hv Hu. unfold exec_email_id, email_id_text. rewrite strip_prefix_app.
  cbn [mbind option_bind]. rewrite string_app_cons, string_app_nil.
  rewrite cut_app by apply encode_no_colon. cbn [mbind option_bind].
  rewrite string_app_cons, string_app_nil.
  rewrite cut_app by (eapply string_forallb_includes; [apply pretty_digits; lia | done]).
  cbn [mbind option_bind]. rewrite encode_nonempty by done. unfold nonempty_all.
  rewrite !pretty_digits by lia.
  rewrite !(proj2 (is_empty_false _)) by apply pretty_nonempty. done.
Qed.

(** Round trip of the packed email identity. *)
Lemma decode_email_id_text mailbox v u :
  mailbox ≠ "" → (0 < v <= MAX_SAFE_INTEGER)%Z → (0 < u <= MAX_SAFE_INTEGER)%Z →
  decodeImapEmailId (email_id_text mailbox v u) = Return (mkDecodedImapEmailId mailbox (Int v) (Int u)).
Proof.
  intros Hm Hv Hu. unfold decodeImapEmailId. rewrite exec_email_id_text by (done || lia).
  unfold digits_number. rewrite !pretty_digits_value by lia.
  rewrite !integer_number_safe by lia.
  rewrite !(proj2 (assertPositiveInteger_return _ tt)) by (eexists; split; [done|lia]). cbn.
  by rewrite decode_encode.
Qed.

Lemma email_id_text_inj m v u m' v' u' :
  (0 < v)%Z → (0 < u)%Z → (0 < v')%Z → (0 < u')%Z →
  email_id_text m v u = email_id_text m' v' u' → m = m' ∧ v = v' ∧ u = u'.
Proof.
  intros Hv Hu Hv' Hu'. unfold email_id_text. rewrite !string_app_cons, !string_app_nil.
  intros H. simplify_eq H. clear H. intros H.
  apply cut_at_inj in H as [Hm H]; [|apply encode_no_colon..].
  apply cut_at_inj in H as [Hvv Huu];
    [|eapply string_forallb_includes; [apply pretty_digits; lia | done]..].
  apply encode_inj in Hm. apply (inj pretty) in Hvv, Huu. done.
Qed.
End facts.

(** The [decode] functions invert the constructors. *)
#[export] Hint Rewrite @decode_encode : completions.

(** ** IMAP mappers: remote/imap/mappers.ts *)

Open Scope string_scope.
Open Scope list_scope.
Open Scope js_scope.

Definition roleFor (specialUse : option string) (name : string) : option string :=
  let by_name :=
    if toLowerCase name === "inbox" then Some "inbox"
    else if toLowerCase name === "sent" then Some "sent"
    else if toLowerCase name === "trash" then Some "trash"
    else None in
  match specialUse with
  | None => by_name
  | Some use =>
      if toLowerCase use === "\inbox" then Some "inbox"
      else if toLowerCase use === "\sent" then Some "sent"
      else if toLowerCase use === "\trash" then Some "trash"
      else by_name
  end.

Definition native_addresses (values : option (list NativeAddressDto)) : RemoteAddressList :=
  match values with
  | Some values => Some (List.map (λ value, mkEmailAddress value.(address_name) value.(address_email)) values)
  | None => None
  end.

(** The keywords of a flag. *)
Definition flag_keywords (flag : string) : list string :=
  if toLowerCase flag === "\seen" then ["$seen"]
  else if toLowerCase flag === "\flagged" then ["$flagged"]
  else [].

Section mappers.
Context {platform : Platform}.

Definition mapNativeMailbox (value : NativeMailboxDto) (index : nat) : outcome exn RemoteMailbox :=
  let role := roleFor value.(nm_specialUse) value.(nm_name) in
  id ← imapMailboxId value.(nm_name);
  Return {|
    r_mailbox_id := id;
    r_mailbox_name := value.(nm_name);
    r_mailbox_parent := None;
    r_mailbox_role := role;
    r_mailbox_sortOrder :=
      if role === Some "inbox" then Int 0
      else if role === Some "sent" then Int 1
      else if role === Some "trash" then Int 2
      else Int (Z.of_nat index + 3);
    r_mailbox_totalEmails := value.(nm_messages);
    r_mailbox_unreadEmails := value.(nm_unseen);
    r_mailbox_rights := mkRemoteMailboxRights true false true true true true;
  |}.

(** The argument [imapEmailId] takes from a message. *)
Definition message_identity (value : NativeMessageMetadataDto) : DecodedImapEmailId :=
  mkDecodedImapEmailId value.(nd_mailbox) value.(nd_uidValidity) value.(nd_uid).

Definition mapNativeEmail (value : NativeMessageMetadataDto) : outcome exn RemoteEmail :=
  id ← imapEmailId (message_identity value);
  blobId ← imapBlobId id;
  threadId ← imapThreadId id;
  mailboxId ← imapMailboxId value.(nd_mailbox);
  Return {|
    r_email_id := id;
    r_email_blobId := blobId;
    r_email_threadId := threadId;
    r_email_sender := native_addresses value.(nd_sender);
    r_email_from := native_addresses value.(nd_from);
    r_email_replyTo := native_addresses value.(nd_replyTo);
    r_email_to := native_addresses value.(nd_to);
    r_email_cc := native_addresses value.(nd_cc);
    r_email_bcc := native_addresses value.(nd_bcc);
    r_email_subject := value.(nd_subject);
    r_email_sentAt := value.(nd_sentAt);
    r_email_receivedAt := value.(nd_internalDate);
    r_email_size := value.(nd_size);
    r_email_preview := value.(nd_preview);
    r_email_hasAttachment := value.(nd_hasAttachment);
    r_email_keywords := set_of_list (flat_map flag_keywords value.(nd_flags));
    r_email_mailboxIds := [mailboxId];
  |}.

Definition mapNativeAttachment (emailId : RemoteEmailId) (value : NativeAttachmentDto) :
    outcome exn RemoteAttachment :=
  blobId ← imapAttachmentBlobId emailId value.(na_partId);
  Return {|
    r_att_blobId := blobId;
    r_att_partId := Some value.(na_partId);
    r_att_name := value.(na_name);
    r_att_mediaType := value.(na_mediaType);
    r_att_size := value.(na_size);
    r_att_disposition := value.(na_disposition);
    r_att_cid := value.(na_cid);
  |}.
End mappers.
