(* ===== verification/ImapRemoteMail.v ===== *)
(** * IMAP remote mail: remote/imap/imap-remote-mail.ts

    The adapter of the native IMAP client to [RemoteMail].  IMAP offers no snapshot of
    a whole account: [syncEmails] lists the mailboxes, snapshots each one, lists them
    again, and only trusts what it read when three fingerprints agree. *)

Set Warnings "-register-all".
From S2P Require Import Prelude.
From S2P Require Import JsNumber.
From S2P Require Import JsString.
From S2P Require Import JsCollections.
From S2P Require Import Errors.
From S2P Require Import DomainIds.
From S2P Require Import Remote.
From S2P Require Import Prog.
From S2P Require Import Json.
From S2P Require Import JsText.
From S2P Require Import NativeMail.
From S2P Require Import ImapIds.
Open Scope string_scope.
Open Scope list_scope.
Open Scope js_scope.

Inductive SyncPolicy : Type := genericImap | gmailDogfood.

#[export] Instance SyncPolicy_eq_dec : EqDecision SyncPolicy.
Proof. solve_decision. Defined.

(** An IMAP method: a program over the native port. *)
Abbreviation native := (prog NativeCall).

Definition imap_error (message : string) (kind : RemoteErrorKind) (retry : RetryDisposition) :
    RemoteError :=
  {| remote_message := message; remote_kind := kind; remote_retry := retry;
     remote_session := session_keep; remote_outcome := knownNotApplied |}.

Definition unsupported (message : string) : exn :=
  ThrownRemoteError (imap_error message kind_unsupported never).
Definition invalidState (message : string) : exn :=
  ThrownRemoteError (imap_error message kind_stateInvalid never).
Definition snapshotConflict : exn :=
  ThrownRemoteError (imap_error "IMAP account snapshot changed during synchronization"
                       kind_conflict safeImmediate).

(** [values.map((value, index) => f(value, index))] when [f] may throw. *)
Fixpoint mapM_from {A B} (f : A → nat → outcome exn B) (index : nat) (l : list A) :
    outcome exn (list B) :=
  match l with
  | [] => Return []
  | x :: l => y ← f x index; rest ← mapM_from f (S index) l; Return (y :: rest)
  end.

Section imap.
Context {platform : Platform}.

(** ** Fingerprints *)

Definition stringify (value : json) : string := JSON_stringify platform_numeral value.

Definition sync_state (kind : string) (value : json) : RemoteSyncState :=
  remoteSyncStateFromString ("imap-state-v1:" +:+ kind +:+ ":" +:+ stringify value).

Definition mailbox_rank (name : string) : Z :=
  if toLowerCase name === "inbox" then 0
  else if toLowerCase name === "sent" then 1
  else if toLowerCase name === "trash" then 2
  else 3.

Definition compare_mailboxes (left right : NativeMailboxDto) : Z :=
  let difference := (mailbox_rank left.(nm_name) - mailbox_rank right.(nm_name))%Z in
  if (difference =? 0)%Z then localeCompare left.(nm_name) right.(nm_name) else difference.

Definition sortMailboxes (values : list NativeMailboxDto) : list NativeMailboxDto :=
  js_sort compare_mailboxes values.

(** The row both [syncMailboxes] and [mailboxFingerprint] write for a mailbox. *)
Definition mailbox_row (value : NativeMailboxDto) : json :=
  JArray [JString value.(nm_name); JNumber value.(nm_uidValidity); JNumber value.(nm_uidNext);
          JNumber value.(nm_messages); JNumber value.(nm_unseen)].

Definition mailboxFingerprint (values : list NativeMailboxDto) : string :=
  stringify (JArray (List.map mailbox_row values)).

Definition email_row (value : NativeMessageMetadataDto) : json :=
  JArray [JString value.(nd_mailbox); JNumber value.(nd_uidValidity); JNumber value.(nd_uid);
          JArray (List.map JString (sort_strings value.(nd_flags)));
          JString value.(nd_internalDate); JNumber value.(nd_size)].

Definition compare_rows (left right : json) : Z := localeCompare (stringify left) (stringify right).

Definition query_row (value : NativeMessageMetadataDto) : json :=
  JArray [JNumber value.(nd_uidValidity); JNumber value.(nd_uid); JString value.(nd_internalDate)].

(** ** [ImapRemoteMail] *)

Record ImapRemoteMail : Type := mkImapRemoteMail {
  imap_sessionId : string;
  imap_authenticatedUser : string;
  imap_syncPolicy : SyncPolicy;
  imap_accountId : RemoteAccountId;
}.

(** The constructor. *)
Definition new_ImapRemoteMail (sessionId authenticatedUser : string) (syncPolicy : SyncPolicy) :
    outcome exn ImapRemoteMail :=
  accountId ← imapAccountId authenticatedUser;
  Return (mkImapRemoteMail sessionId authenticatedUser syncPolicy accountId).

Section methods.
Context (self : ImapRemoteMail).

Definition assertAccount (accountId : RemoteAccountId) : native unit :=
  of_outcome (throw_if (accountId !== self.(imap_accountId))
                (invalidState "Remote Account does not belong to session")).

Definition syncMailboxesForPolicy (values : list NativeMailboxDto) : list NativeMailboxDto :=
  match self.(imap_syncPolicy) with
  | genericImap => values
  | gmailDogfood =>
      List.filter (λ value,
        let role := roleFor value.(nm_specialUse) value.(nm_name) in
        (role === Some "inbox") || (role === Some "sent") || (role === Some "trash")) values
  end.

(** [this.syncMailboxesForPolicy(sortMailboxes(await this.ipc.listMailboxes(...)))]. *)
Definition list_for_sync : native (list NativeMailboxDto) :=
  values ← await (NativeListMailboxes self.(imap_sessionId));
  Ret (syncMailboxesForPolicy (sortMailboxes values)).

Definition imap_syncIdentities (accountId : RemoteAccountId) :
    native (RemoteCollectionSync RemoteIdentity RemoteIdentityId) :=
  assertAccount accountId;;
  id ← of_outcome (imapIdentityId self.(imap_authenticatedUser));
  Ret (RemoteReplace (sync_state "identity" (JArray [JString self.(imap_authenticatedUser)]))
         [mkRemoteIdentity id self.(imap_authenticatedUser) self.(imap_authenticatedUser) None None]).

(** What [syncMailboxes] makes of the mailboxes it lists. *)
Definition mailbox_transition (values : list NativeMailboxDto) :
    outcome exn (RemoteCollectionSync RemoteMailbox RemoteMailboxId) :=
  snapshot ← mapM_from mapNativeMailbox 0 values;
  validateRemoteCollectionSync
    (RemoteReplace (sync_state "mailboxes" (JArray (List.map mailbox_row values))) snapshot)
    r_mailbox_id.

Definition imap_syncMailboxes (accountId : RemoteAccountId) :
    native (RemoteCollectionSync RemoteMailbox RemoteMailboxId) :=
  assertAccount accountId;;
  prog_try (values ← list_for_sync; of_outcome (mailbox_transition values)) rethrow_native.

(** [for (const mailbox of mailboxes) snapshots.push(await snapshotMailbox(...))]. *)
Definition take_snapshots (mailboxes : list NativeMailboxDto) : native (list NativeMailboxSnapshotDto) :=
  prog_for mailboxes (λ snapshots mailbox,
    snapshot ← await (NativeSnapshotMailbox self.(imap_sessionId) mailbox.(nm_name));
    Ret (snapshots ++ [snapshot])) [].

Definition email_records (snapshots : list NativeMailboxSnapshotDto) : list NativeMessageMetadataDto :=
  flat_map snapshot_messages snapshots.

(** What an attempt makes of the snapshots it trusts. *)
Definition email_transition (snapshots : list NativeMailboxSnapshotDto) :
    outcome exn (RemoteCollectionSync RemoteEmail RemoteEmailId) :=
  let records := email_records snapshots in
  snapshot ← mapM mapNativeEmail records;
  validateRemoteCollectionSync
    (RemoteReplace
       (sync_state "emails" (JArray (js_sort compare_rows (List.map email_row records)))) snapshot)
    r_email_id.

(** The two [!==] on fingerprints. *)
Definition snapshot_changed (initial : list NativeMailboxDto)
    (snapshots : list NativeMailboxSnapshotDto) (final : list NativeMailboxDto) : bool :=
  let initialFingerprint := mailboxFingerprint initial in
  (initialFingerprint !== mailboxFingerprint (sortMailboxes (List.map snapshot_mailbox snapshots))) ||
  (initialFingerprint !== mailboxFingerprint final).

Definition syncEmailsAttempt : native (RemoteCollectionSync RemoteEmail RemoteEmailId) :=
  initialMailboxes ← list_for_sync;
  snapshots ← take_snapshots initialMailboxes;
  finalMailboxes ← list_for_sync;
  of_outcome (throw_if (snapshot_changed initialMailboxes snapshots finalMailboxes) snapshotConflict);;
  of_outcome (email_transition snapshots).

(** The loop [for (let attempt = 0; attempt < 2; attempt += 1)]: [remaining] counts
    the iterations left. *)
Fixpoint sync_attempts (attempt remaining : nat) :
    native (RemoteCollectionSync RemoteEmail RemoteEmailId) :=
  match remaining with
  | O => Raise snapshotConflict
  | S remaining =>
      prog_try syncEmailsAttempt (λ error,
        let remoteError := toNativeRemoteError error in
        if bool_decide (attempt = 0%nat) && (remoteError.(remote_kind) === kind_conflict) &&
           (remoteError.(remote_retry) === safeImmediate)
        then sync_attempts (S attempt) remaining
        else Raise (ThrownRemoteError remoteError))
  end.

Definition imap_syncEmails (accountId : RemoteAccountId) :
    native (RemoteCollectionSync RemoteEmail RemoteEmailId) :=
  assertAccount accountId;;
  sync_attempts 0 2.

(** ** Queries *)

(** [compareEmails(left, right)].  [decodeImapEmailId] may throw; the uids it returns
    are safe integers, whose difference is exact. *)
Definition compareEmails (left right : RemoteEmail) : outcome exn Z :=
  let dates := localeCompare right.(r_email_receivedAt) left.(r_email_receivedAt) in
  if (dates =? 0)%Z then
    r ← decodeImapEmailId right.(r_email_id);
    l ← decodeImapEmailId left.(r_email_id);
    match r.(imap_uid), l.(imap_uid) with
    | Int r, Int l => Return (r - l)%Z
    | _, _ => Return 0%Z
    end
  else Return dates.

(** [emails.findIndex(email => email.id === anchor)]; [None] is [-1]. *)
Fixpoint index_of_email (anchor : RemoteEmailId) (emails : list RemoteEmail) : option nat :=
  match emails with
  | [] => None
  | email :: emails =>
      if email.(r_email_id) === anchor then Some 0%nat else S <$> index_of_email anchor emails
  end.

Definition query_start (mailbox : string) (emails : list RemoteEmail) (options : RemoteQueryOptions) :
    outcome exn number :=
  let requestedPosition := default (Int 0) options.(query_position) in
  throw_if (negb (isSafeInteger requestedPosition) || num_ltb requestedPosition (Int 0))
    (unsupported "Invalid mailbox position");;
  match options.(query_anchor) with
  | None => Return requestedPosition
  | Some anchor =>
      decoded ← decodeImapEmailId anchor;
      throw_if (decoded.(imap_mailbox) !== mailbox) (invalidState "Anchor belongs to another mailbox");;
      match index_of_email anchor emails with
      | None => Throw (invalidState "Anchor is absent from mailbox")
      | Some index =>
          Return (num_max (Int 0) (num_add (Int (Z.of_nat index))
                                     (default (Int 0) options.(query_anchorOffset))))
      end
  end.

(** What [queryMailbox] makes of a snapshot. *)
Definition query_result (mailbox : string) (messages : list NativeMessageMetadataDto)
    (options : RemoteQueryOptions) : outcome exn RemoteMailboxQuery :=
  mapped ← mapM mapNativeEmail messages;
  emails ← js_sortM compareEmails mapped;
  position ← query_start mailbox emails options;
  let limit := default (Int 500) options.(query_limit) in
  throw_if (negb (isSafeInteger limit) || num_ltb limit (Int 0)) (unsupported "Invalid mailbox limit");;
  Return {|
    query_ids := List.map r_email_id (js_slice emails position (num_add position limit));
    query_queryState := sync_state "query" (JArray (List.map query_row messages));
    query_total := len emails;
    query_result_position := position;
    query_canCalculateChanges := false;
  |}.

(** [filter] is [None] for [undefined] and [null]. *)
Definition imap_queryMailbox (accountId : RemoteAccountId) (mailboxId : RemoteMailboxId)
    (filter : option json) (options : RemoteQueryOptions) : native RemoteMailboxQuery :=
  assertAccount accountId;;
  match filter with
  | Some _ => Raise (unsupported "IMAP MVP does not support mailbox filters")
  | None =>
      prog_try (
        mailbox ← of_outcome (decodeImapMailboxId mailboxId);
        snapshot ← await (NativeSnapshotMailbox self.(imap_sessionId) mailbox);
        of_outcome (query_result mailbox snapshot.(snapshot_messages) options)) rethrow_native
  end.

(** ** Messages *)

Definition imap_target (emailId : RemoteEmailId) : outcome exn NativeMessageRequest :=
  decoded ← decodeImapEmailId emailId;
  Return (mkNativeMessageRequest self.(imap_sessionId) decoded.(imap_mailbox)
            decoded.(imap_uidValidity) decoded.(imap_uid)).

Definition imap_fetchBody (accountId : RemoteAccountId) (emailId : RemoteEmailId) : native RemoteBody :=
  assertAccount accountId;;
  prog_try (
    target ← of_outcome (imap_target emailId);
    body ← await (NativeFetchBody target);
    match body with
    | NativePlainBody text html => Ret (PlainBody text html)
    | NativeE2eeBody payload => Ret (BoxplotE2eeBody payload)
    end) rethrow_native.

Definition imap_fetchAttachments (accountId : RemoteAccountId) (emailId : RemoteEmailId) :
    native (list RemoteAttachment) :=
  assertAccount accountId;;
  prog_try (
    target ← of_outcome (imap_target emailId);
    values ← await (NativeFetchAttachments target);
    of_outcome (mapM (mapNativeAttachment emailId) values)) rethrow_native.

Definition convert_keyword (value : string) : outcome exn NativeFlag :=
  if value === "$seen" then Return flag_seen
  else if value === "$flagged" then Return flag_flagged
  else Throw (unsupported ("Unsupported IMAP keyword " +:+ value)).

Definition imap_applyKeywordChange (accountId : RemoteAccountId) (emailId : RemoteEmailId)
    (change : RemoteKeywordChange) : native unit :=
  assertAccount accountId;;
  add ← of_outcome (mapM convert_keyword change.(remote_keyword_add));
  remove ← of_outcome (mapM convert_keyword change.(remote_keyword_remove));
  prog_try (
    target ← of_outcome (imap_target emailId);
    await (NativeStoreFlags target add remove)) rethrow_native.

(** The guard on a membership change: [change.remove[0]] is only decoded when both
    lists have one element. *)
Definition one_mailbox_move (source : DecodedImapEmailId) (change : RemoteMembershipChange) :
    outcome exn RemoteMailboxId :=
  match change.(remote_membership_add), change.(remote_membership_remove) with
  | [added], [removed] =>
      mailbox ← decodeImapMailboxId removed;
      throw_if (mailbox !== source.(imap_mailbox))
        (unsupported "IMAP MVP only supports one-mailbox MOVE");;
      Return added
  | _, _ => Throw (unsupported "IMAP MVP only supports one-mailbox MOVE")
  end.

Definition imap_applyMembershipChange (accountId : RemoteAccountId) (emailId : RemoteEmailId)
    (change : RemoteMembershipChange) : native unit :=
  assertAccount accountId;;
  if bool_decide (change.(remote_membership_add) = []) &&
     bool_decide (change.(remote_membership_remove) = [])
  then Ret tt
  else
    source ← of_outcome (decodeImapEmailId emailId);
    added ← of_outcome (one_mailbox_move source change);
    prog_try (
      target ← of_outcome (imap_target emailId);
      destinationMailbox ← of_outcome (decodeImapMailboxId added);
      await (NativeMove target destinationMailbox);;
      Ret tt) rethrow_native.
End methods.
End imap.
