(* ===== verification/ImapConnection.v ===== *)
(** * IMAP and SMTP sessions: remote/imap/imap-mutation-reconciler.ts,
    remote/smtp/smtp-submission.ts, remote/native/imap-smtp-connection.ts,
    remote/native/gmail-remote-connection.ts, remote/native/gmail-oauth-broker.ts *)

From S2P Require Import Prelude.
From S2P Require Import JsNumber.
From S2P Require Import JsString.
From S2P Require Import Errors.
From S2P Require Import DomainIds.
From S2P Require Import Remote.
From S2P Require Import Prog.
From S2P Require Import JsText.
From S2P Require Import NativeMail.
From S2P Require Import ImapIds.
From S2P Require Import ImapRemoteMail.
Open Scope string_scope.
Open Scope list_scope.
Open Scope js_scope.

(** ** remote/imap/imap-mutation-reconciler.ts *)

(** A session's reconciler and its submission hold the same two fields. *)
Record NativeSessionRef : Type := mkNativeSessionRef {
  ref_sessionId : string;
  ref_accountId : RemoteAccountId;
}.

Definition assert_session_account (self : NativeSessionRef) (accountId : RemoteAccountId) : native unit :=
  of_outcome (throw_if (accountId !== self.(ref_accountId)) account_mismatch).

Definition smtpMessageId (idempotencyKey : string) : string :=
  "<boxplot." +:+ base64url (utf8_encode idempotencyKey) +:+ "@boxplot.invalid>".

Section session.
Context {platform : Platform}.

(** [mailboxes.filter((mailbox, index) => mapNativeMailbox(mailbox, index).role === 'sent')]. *)
Fixpoint sent_mailboxes (index : nat) (mailboxes : list NativeMailboxDto) :
    outcome exn (list NativeMailboxDto) :=
  match mailboxes with
  | [] => Return []
  | mailbox :: rest =>
      mapped ← mapNativeMailbox mailbox index;
      kept ← sent_mailboxes (S index) rest;
      Return (if mapped.(r_mailbox_role) === Some "sent" then mailbox :: kept else kept)
  end.

Definition imap_reconcileSend (self : NativeSessionRef) (remoteAccountId : RemoteAccountId)
    (idempotencyKey : string) : native RemoteMutationEvidence :=
  assert_session_account self remoteAccountId;;
  prog_try (
    mailboxes ← await (NativeListMailboxes self.(ref_sessionId));
    sent ← of_outcome (sent_mailboxes 0 mailboxes);
    match sent with
    | [mailbox] =>
        result ← await (NativeFindMessageId self.(ref_sessionId) mailbox.(nm_name)
                          (smtpMessageId idempotencyKey));
        match result with
        | MessageFound found =>
            emailId ← of_outcome (imapEmailId (mkDecodedImapEmailId found.(found_mailbox)
                                    found.(found_uidValidity) found.(found_uid)));
            Ret (EvidenceApplied emailId)
        | MessageNotFound | MessageAmbiguous => Ret inconclusiveRemoteMutationEvidence
        end
    | _ => Ret inconclusiveRemoteMutationEvidence
    end) rethrow_native.

Definition imap_reconcileMembership (self : NativeSessionRef) (remoteAccountId : RemoteAccountId) :
    native RemoteMutationEvidence :=
  assert_session_account self remoteAccountId;;
  Ret inconclusiveRemoteMutationEvidence.

(** ** remote/smtp/smtp-submission.ts *)

Definition smtp_address (value : NativeAddressDto) : NativeAddressDto :=
  mkEmailAddress value.(address_name) value.(address_email).

Definition native_submission_body (body : SubmissionBody) : NativeSubmissionBodyDto :=
  match body with
  | SubmitPlain text html => NativeSubmitPlain text html
  | SubmitE2ee payload => NativeSubmitE2ee payload
  end.

Definition smtp_submit (self : NativeSessionRef) (message : SubmissionMessage) (idempotencyKey : string) :
    native SubmissionResult :=
  of_outcome (throw_if (message.(message_accountId) !== self.(ref_accountId)) account_mismatch);;
  let draft := message.(message_draft) in
  prog_try (
    receiptId ← await (NativeSmtpSubmit {|
      smtp_sessionId := self.(ref_sessionId);
      smtp_from := smtp_address draft.(draft_from);
      smtp_to := List.map smtp_address draft.(draft_to);
      smtp_cc := List.map smtp_address draft.(draft_cc);
      smtp_bcc := List.map smtp_address draft.(draft_bcc);
      smtp_replyTo := List.map smtp_address draft.(draft_replyTo);
      smtp_subject := draft.(draft_subject);
      smtp_body := native_submission_body draft.(draft_body);
      smtp_idempotencyKey := idempotencyKey |});
    Ret {| submission_emailId := None; submission_receiptId := Some receiptId |}) rethrow_native.

(** ** Connections

    [open] takes the configuration out of the connection before its first await: the
    function returns the field as it leaves it, and the rest of the method. *)

(** A session: its mail adapter, and the pair the submission and the reconciler hold. *)
Record NativeRemoteSession : Type := mkNativeRemoteSession {
  ns_accounts : list (RemoteAccountId * list string);
  ns_mail : ImapRemoteMail;
  ns_submission : NativeSessionRef;
  ns_reconciler : NativeSessionRef;
}.

(** Both [open] methods build the session from the answer the same way. *)
Definition session_of_opened (opened : NativeMailOpenResponse) (policy : SyncPolicy) :
    outcome exn NativeRemoteSession :=
  accountId ← imapAccountId opened.(opened_authenticatedUser);
  mail ← new_ImapRemoteMail opened.(opened_sessionId) opened.(opened_authenticatedUser) policy;
  let ref := mkNativeSessionRef opened.(opened_sessionId) accountId in
  Return {| ns_accounts := [(accountId, ["mail"; "submission"])]; ns_mail := mail;
            ns_submission := ref; ns_reconciler := ref |}.

Definition imap_open (config : option NativeMailOpenRequest) :
    option NativeMailOpenRequest * native NativeRemoteSession :=
  (None,
   prog_try
     match config with
     | None => Raise (TypeError "Native mail connection is single-use")
     | Some config =>
         opened ← await (NativeOpen config);
         of_outcome (session_of_opened opened genericImap)
     end rethrow_native).

(** [openGoogle] is an optional method of the port. *)
Definition gmail_open (has_openGoogle : bool) (config : option (string * string)) :
    option (string * string) * native NativeRemoteSession :=
  (None,
   prog_try
     match config with
     | None => Raise (TypeError "Gmail connection is single-use")
     | Some (username, credentialRef) =>
         if has_openGoogle then
           opened ← await (NativeOpenGoogle username credentialRef);
           of_outcome (session_of_opened opened gmailDogfood)
         else Raise (TypeError "Google native mail IPC unavailable")
     end rethrow_native).

(** [close], with the [closed] flag as it leaves it. *)
Definition imap_close (sessionId : string) (closed : bool) : bool * native unit :=
  (true, if closed then Ret tt else prog_try (await (NativeClose sessionId)) rethrow_native).
Definition gmail_close (sessionId : string) (closed : bool) : bool * native unit :=
  (true, if closed then Ret tt else await (NativeClose sessionId)).

(** ** remote/native/gmail-oauth-broker.ts *)

Definition broker_authorize (has_authorizeGoogle : bool) (accountKey : AccountKey) (username : string) :
    native string :=
  if has_authorizeGoogle then await (NativeAuthorizeGoogle accountKey username)
  else Raise (TypeError "Google OAuth IPC unavailable").

Definition broker_forget (has_forgetGoogle : bool) (credentialRef : string) : native unit :=
  if has_forgetGoogle then await (NativeForgetGoogle credentialRef)
  else Raise (TypeError "Google OAuth IPC unavailable").
End session.
