(* ===== verification/JmapTypes.v ===== *)
(** * The JMAP client port: jmap/types.ts, jmap/client.ts, jmap/errors.ts,
    remote/jmap/error-mapper.ts, remote/jmap/mappers.ts *)

Set Warnings "-register-all".
From S2P Require Import Prelude.
From S2P Require Import JsNumber.
From S2P Require Import JsString.
From S2P Require Import JsCollections.
From S2P Require Import Errors.
From S2P Require Import DomainIds.
From S2P Require Import Remote.
From S2P Require Import Prog.
From S2P Require Import Json.
Open Scope string_scope.
Open Scope list_scope.
Open Scope js_scope.

(** ** jmap/types.ts

    A [Record<string, boolean>] is the list of its entries.  The enumeration of an
    object puts keys that are array indices first; the keys here are keywords, URNs
    and server ids, taken in insertion order. *)

(** [JmapEmailAddress] is [{ name, email }], as [EmailAddress]; [JmapMailboxRights]
    has the fields of [RemoteMailboxRights]. *)
Definition JmapEmailAddress : Type := EmailAddress.
Definition JmapEmailAddressList : Type := option (list JmapEmailAddress).

Record JmapMailbox : Type := mkJmapMailbox {
  jm_id : string;
  jm_name : string;
  jm_parent : option string;
  jm_role : option string;
  jm_sortOrder : number;
  jm_totalEmails : number;
  jm_unreadEmails : number;
  jm_rights : RemoteMailboxRights;
}.

Record JmapMailboxesResult : Type := mkJmapMailboxesResult {
  jms_mailboxes : list JmapMailbox;
  jms_state : string;
}.

Record JmapEmail : Type := mkJmapEmail {
  je_id : string;
  je_blobId : string;
  je_threadId : string;
  je_sender : JmapEmailAddressList;
  je_from : JmapEmailAddressList;
  je_replyTo : JmapEmailAddressList;
  je_to : JmapEmailAddressList;
  je_cc : JmapEmailAddressList;
  je_bcc : JmapEmailAddressList;
  je_subject : option string;
  je_sentAt : option string;
  je_receivedAt : string;
  je_size : number;
  je_preview : string;
  je_hasAttachment : bool;
  je_keywords : jsmap string bool;
  je_mailboxIds : list string;
}.

Record JmapEmailsResult : Type := mkJmapEmailsResult {
  jes_emails : list JmapEmail;
  jes_state : string;
}.

Record JmapEmailBody : Type := mkJmapEmailBody {
  jb_emailId : string;
  jb_html : option string;
  jb_text : option string;
}.

Record JmapAttachment : Type := mkJmapAttachment {
  ja_blobId : string;
  ja_partId : option string;
  ja_name : option string;
  ja_mediaType : string;
  ja_size : number;
  ja_disposition : option string;
  ja_cid : option string;
}.

Record JmapQueryResult : Type := mkJmapQueryResult {
  jq_ids : list string;
  jq_queryState : string;
  jq_total : number;
  jq_position : number;
  jq_canCalculateChanges : bool;
}.

(** [QueryOptions] has the fields of [RemoteQueryOptions]. *)
Definition QueryOptions : Type := RemoteQueryOptions.

Record JmapDelta : Type := mkJmapDelta {
  jd_accountId : string;
  jd_oldState : string;
  jd_newState : string;
  jd_hasMoreChanges : bool;
  jd_created : list string;
  jd_updated : list string;
  jd_destroyed : list string;
}.

Record JmapQueryChanges : Type := mkJmapQueryChanges {
  jqc_accountId : string;
  jqc_oldQueryState : string;
  jqc_newQueryState : string;
  jqc_added : list (string * number);
  jqc_removed : list string;
  jqc_total : number;
}.

Record JmapIdentity : Type := mkJmapIdentity {
  ji_id : string;
  ji_name : string;
  ji_email : string;
  ji_replyTo : JmapEmailAddressList;
  ji_bcc : JmapEmailAddressList;
  ji_htmlSignature : string;
  ji_textSignature : string;
}.

Record JmapIdentitiesResult : Type := mkJmapIdentitiesResult {
  jis_identities : list JmapIdentity;
  jis_state : string;
}.

Record JmapEmailDraft : Type := mkJmapEmailDraft {
  jdr_from : list JmapEmailAddress;
  jdr_to : list JmapEmailAddress;
  jdr_cc : list JmapEmailAddress;
  jdr_bcc : list JmapEmailAddress;
  jdr_replyTo : list JmapEmailAddress;
  jdr_subject : string;
  jdr_textBody : option string;
  jdr_htmlBody : option string;
}.

Record JmapSession : Type := mkJmapSession {
  jse_apiUrl : string;
  jse_downloadUrl : string;
  jse_uploadUrl : string;
  jse_eventSourceUrl : string;
  jse_webSocketUrl : option string;
  jse_primaryAccounts : jsmap string string;
  jse_capabilities : jsmap string json;
}.

(** ** jmap/client.ts

    [onStateChange], which the adapter defers, has no constructor.  A submission
    answers with the email id and the submission id. *)
Inductive JmapCall : Type → Type :=
| OpenSession : JmapCall JmapSession
| GetMailboxes (accountId : string) : JmapCall JmapMailboxesResult
| GetIdentities (accountId : string) : JmapCall JmapIdentitiesResult
| QueryEmails (accountId mailboxId : string) (filter : option json) (options : option QueryOptions) :
    JmapCall JmapQueryResult
| GetEmails (accountId : string) (emailIds : list string) : JmapCall JmapEmailsResult
| GetEmailChanges (accountId sinceState : string) : JmapCall JmapDelta
| GetEmailQueryChanges (accountId mailboxId sinceQueryState : string) : JmapCall JmapQueryChanges
| GetEmailBody (accountId emailId : string) : JmapCall JmapEmailBody
| GetEmailAttachments (accountId emailId : string) : JmapCall (list JmapAttachment)
| UpdateEmailKeywords (accountId emailId : string) (keywords : jsmap string bool) : JmapCall unit
| UpdateEmailMailboxes (accountId emailId : string) (mailboxIds : jsmap string bool) : JmapCall unit
| SubmitEmail (accountId : string) (draft : JmapEmailDraft) (rawIdentityId : string) :
    JmapCall (string * string).

Abbreviation jmap := (prog JmapCall).

(** ** jmap/errors.ts *)

Definition isRetryable (error : exn) : bool :=
  match error with
  | ThrownJmapError error => jmap_retryability error === retryable
  | _ => false
  end.

(** ** remote/jmap/error-mapper.ts *)

Definition remote_error (message : string) (kind : RemoteErrorKind) (retry : RetryDisposition)
    (session : SessionDisposition) (outcome : OperationOutcome) : RemoteError :=
  {| remote_message := message; remote_kind := kind; remote_retry := retry;
     remote_session := session; remote_outcome := outcome |}.

Definition method_error_kind (type : string) (retryability : JmapErrorRetryability) : RemoteErrorKind :=
  if type === "rateLimited" then kind_rateLimited
  else if type === "tooLarge" then kind_tooLarge
  else if (type === "cannotCalculateChanges") || (type === "stateMismatch") then kind_stateInvalid
  else if type === "serverUnavailable" then kind_unavailable
  else if retryability === retryable then kind_protocol
  else kind_rejected.

Definition toRemoteError (error : exn) (outcome : OperationOutcome) : RemoteError :=
  match error with
  | ThrownRemoteError error => error
  | ThrownJmapError (JmapAuthError _) =>
      remote_error "Remote authentication failed" kind_auth never session_expire knownNotApplied
  | ThrownJmapError (JmapSubmissionAmbiguousError _) =>
      remote_error "Submission outcome is unknown" kind_network retry_reconcile session_keep
        outcome_unknown
  | ThrownJmapError (JmapNetworkError _) =>
      remote_error "Remote network operation failed" kind_network
        (if outcome === outcome_unknown then retry_reconcile else safeBackoff) session_keep outcome
  | ThrownJmapError (JmapMethodError method type message as error) =>
      let retryability := jmap_retryability error in
      remote_error "Remote protocol operation failed" (method_error_kind type retryability)
        (if retryability === retryable then safeBackoff else never) session_keep outcome
  | _ =>
      remote_error "Unexpected remote adapter failure" kind_unexpected
        (if outcome === outcome_unknown then retry_reconcile else never) session_keep outcome
  end.

(** [catch (error) { throw toRemoteError(error) }]. *)
Definition rethrow_jmap {A} (error : exn) : jmap A :=
  Raise (ThrownRemoteError (toRemoteError error knownNotApplied)).

(** ** remote/jmap/mappers.ts *)

Definition jmap_addressList (value : JmapEmailAddressList) : RemoteAddressList :=
  match value with
  | None => None
  | Some value =>
      Some (List.map (λ address, mkEmailAddress address.(address_name) address.(address_email)) value)
  end.

Definition mapJmapIdentity (value : JmapIdentity) : outcome exn RemoteIdentity :=
  id ← remoteIdentityIdFromString value.(ji_id);
  Return {| r_identity_id := id; r_identity_name := value.(ji_name);
            r_identity_email := value.(ji_email);
            r_identity_replyTo := jmap_addressList value.(ji_replyTo);
            r_identity_bcc := jmap_addressList value.(ji_bcc) |}.

Definition mapJmapMailbox (value : JmapMailbox) : outcome exn RemoteMailbox :=
  id ← remoteMailboxIdFromString value.(jm_id);
  parent ← match value.(jm_parent) with
           | None => Return None
           | Some parent => p ← remoteMailboxIdFromString parent; Return (Some p)
           end;
  let r := value.(jm_rights) in
  Return {| r_mailbox_id := id; r_mailbox_name := value.(jm_name); r_mailbox_parent := parent;
            r_mailbox_role := value.(jm_role); r_mailbox_sortOrder := value.(jm_sortOrder);
            r_mailbox_totalEmails := value.(jm_totalEmails);
            r_mailbox_unreadEmails := value.(jm_unreadEmails);
            r_mailbox_rights := mkRemoteMailboxRights r.(r_mayReadItems) r.(r_mayAddItems)
              r.(r_mayRemoveItems) r.(r_maySetSeen) r.(r_maySetKeywords) r.(r_maySubmit) |}.

(** [Object.keys(record).filter((key) => record[key] === true)]. *)
Definition true_keys (record : jsmap string bool) : list string :=
  List.filter (λ key, map_get key record === Some true) record.*1.

Definition mapJmapEmail (value : JmapEmail) : outcome exn RemoteEmail :=
  id ← remoteEmailIdFromString value.(je_id);
  blobId ← remoteBlobIdFromString value.(je_blobId);
  threadId ← remoteThreadIdFromString value.(je_threadId);
  mailboxIds ← mapM remoteMailboxIdFromString value.(je_mailboxIds);
  Return {|
    r_email_id := id;
    r_email_blobId := blobId;
    r_email_threadId := threadId;
    r_email_sender := jmap_addressList value.(je_sender);
    r_email_from := jmap_addressList value.(je_from);
    r_email_replyTo := jmap_addressList value.(je_replyTo);
    r_email_to := jmap_addressList value.(je_to);
    r_email_cc := jmap_addressList value.(je_cc);
    r_email_bcc := jmap_addressList value.(je_bcc);
    r_email_subject := value.(je_subject);
    r_email_sentAt := value.(je_sentAt);
    r_email_receivedAt := value.(je_receivedAt);
    r_email_size := value.(je_size);
    r_email_preview := value.(je_preview);
    r_email_hasAttachment := value.(je_hasAttachment);
    r_email_keywords := set_of_list (true_keys value.(je_keywords));
    r_email_mailboxIds := mailboxIds;
  |}.

Definition mapJmapQuery (value : JmapQueryResult) : outcome exn RemoteMailboxQuery :=
  ids ← mapM remoteEmailIdFromString value.(jq_ids);
  Return {| query_ids := ids; query_queryState := remoteSyncStateFromString value.(jq_queryState);
            query_total := value.(jq_total); query_result_position := value.(jq_position);
            query_canCalculateChanges := value.(jq_canCalculateChanges) |}.

Definition mapJmapAttachment (value : JmapAttachment) : outcome exn RemoteAttachment :=
  blobId ← remoteBlobIdFromString value.(ja_blobId);
  Return {| r_att_blobId := blobId; r_att_partId := value.(ja_partId); r_att_name := value.(ja_name);
            r_att_mediaType := value.(ja_mediaType); r_att_size := value.(ja_size);
            r_att_disposition := value.(ja_disposition); r_att_cid := value.(ja_cid) |}.
