(* ===== verification/JmapRemoteMail.v ===== *)
(** * JMAP remote mail: remote/jmap/jmap-remote-mail.ts, remote/jmap/jmap-submission.ts,
    remote/jmap/jmap-connection.ts

    The adapter of the JMAP client to [RemoteMail].  A synchronisation from a known
    state follows the server's changes page by page; without one, or when the server
    cannot calculate the changes, it reads every mailbox of the account by pages and
    fetches exactly the emails it saw. *)

Set Warnings "-register-all".
From S2P Require Import Prelude.
From S2P Require Import JsNumber.
From S2P Require Import JsString.
From S2P Require Import JsCollections.
From S2P Require Import Errors.
From S2P Require Import DomainIds.
From S2P Require Import Remote.
From S2P Require Import Prog.
From S2P Require Import Json.
From S2P Require Import JmapTypes.
Open Scope string_scope.
Open Scope list_scope.
Open Scope js_scope.

Definition PAGE_SIZE : nat := 500.
Definition MAX_PAGES : nat := Z.to_nat 10000.
Definition MAX_DELTA_PAGES : nat := 20.

(** [chunks(values, size)]: the loop [for (index = 0; index < length; index += size)];
    each turn takes a slice, so the length bounds the turns. *)
Fixpoint chunks_from {T} (turns : nat) (values : list T) (size : nat) : list (list T) :=
  match turns, values with
  | O, _ | _, [] => []
  | S turns, _ => take size values :: chunks_from turns (drop size values) size
  end.
Definition chunks {T} (values : list T) (size : nat) : list (list T) :=
  chunks_from (length values) values size.

(** ** [fetchExactEmails] *)

(** The loop over [result.emails]: [expected] loses what arrives. *)
Fixpoint take_expected (received : list JmapEmail) (expected : list string) (emails : list JmapEmail) :
    outcome exn (list string * list JmapEmail) :=
  match received with
  | [] => Return (expected, emails)
  | email :: received =>
      throw_if (negb (set_has email.(je_id) expected))
        (Error ("Email/get returned unexpected or duplicate " +:+ email.(je_id)));;
      take_expected received (set_delete email.(je_id) expected) (emails ++ [email])
  end.

(** One batch: [state] is the state of the first one. *)
Definition accept_batch (includeState : bool) (batch : list string) (emails : list JmapEmail)
    (state : option string) (result : JmapEmailsResult) : outcome exn (list JmapEmail * option string) :=
  let state := default result.(jes_state) state in
  throw_if (includeState && (result.(jes_state) !== state))
    (Error "Email collection changed during replacement");;
  '(expected, emails) ← take_expected result.(jes_emails) (set_of_list batch) emails;
  throw_if (negb (bool_decide (expected = []))) (Error "Email/get omitted a requested Email");;
  Return (emails, Some state).

(** Both overloads: the emails, and the state of the first batch. *)
Definition fetchExactEmails (accountId : RemoteAccountId) (ids : list string) (includeState : bool) :
    jmap (list JmapEmail * string) :=
  let batches := if bool_decide (ids = []) then [[]] else chunks ids PAGE_SIZE in
  '(emails, state) ← prog_for batches (λ '(emails, state) batch,
      result ← await (GetEmails accountId batch);
      of_outcome (accept_batch includeState batch emails state result)) ([], None);
  Ret (emails, default "" state).

(** ** [completeEmailSnapshot] *)

(** The loop over [query.ids]: what the mailbox and the account have seen. *)
Fixpoint note_ids (mailboxId : string) (ids : list string) (mailboxIds accountIds : list string) :
    outcome exn (list string * list string) :=
  match ids with
  | [] => Return (mailboxIds, accountIds)
  | id :: ids =>
      throw_if (set_has id mailboxIds)
        (Error ("Repeated Email " +:+ id +:+ " in Mailbox " +:+ mailboxId));;
      note_ids mailboxId ids (set_add id mailboxIds) (set_add id accountIds)
  end.

Definition page_options (position : number) : QueryOptions :=
  mkRemoteQueryOptions (Some position) (Some (Int (Z.of_nat PAGE_SIZE))) None None.

(** The checks on a page, with the total and the query state of the first one. *)
Definition accept_page (mailboxId : string) (position : number) (expected : option (number * string))
    (query : JmapQueryResult) : outcome exn (number * string) :=
  throw_if (negb (isSafeInteger query.(jq_total)) || num_ltb query.(jq_total) (Int 0) ||
            negb (num_eqb query.(jq_position) position) ||
            (PAGE_SIZE <? length query.(jq_ids))%nat)
    (Error ("Malformed query page for Mailbox " +:+ mailboxId));;
  let '(total, queryState) := default (query.(jq_total), query.(jq_queryState)) expected in
  throw_if (negb (num_eqb query.(jq_total) total) || (query.(jq_queryState) !== queryState))
    (Error ("Mailbox " +:+ mailboxId +:+ " changed during replacement"));;
  Return (total, queryState).

(** The loop [for (let page = 0; page < MAX_PAGES; page++)]; [remaining] counts the
    pages left.  Answers the ids the account has seen. *)
Fixpoint query_pages (accountId : RemoteAccountId) (mailboxId : string) (remaining : nat)
    (position : number) (expected : option (number * string)) (mailboxIds accountIds : list string) :
    jmap (list string) :=
  match remaining with
  | O => Ret accountIds
  | S remaining =>
      query ← await (QueryEmails accountId mailboxId None (Some (page_options position)));
      expected ← of_outcome (accept_page mailboxId position expected query);
      '(mailboxIds, accountIds) ← of_outcome (note_ids mailboxId query.(jq_ids) mailboxIds accountIds);
      let next := num_add query.(jq_position) (len query.(jq_ids)) in
      if num_leb query.(jq_total) next then Ret accountIds
      else
        of_outcome (throw_if (num_leb next position)
          (Error ("Query made no progress for Mailbox " +:+ mailboxId)));;
        of_outcome (throw_if (bool_decide (remaining = 0%nat))
          (Error "Mailbox replacement exceeded safety bound"));;
        query_pages accountId mailboxId remaining next (Some expected) mailboxIds accountIds
  end.

(** The ids of every mailbox. *)
Definition account_ids (accountId : RemoteAccountId) (mailboxes : list JmapMailbox) : jmap (list string) :=
  prog_for mailboxes (λ ids mailbox,
    query_pages accountId mailbox.(jm_id) MAX_PAGES (Int 0) None set_new ids) set_new.

Definition replacement (emails : list JmapEmail) (state : string) :
    outcome exn (RemoteCollectionSync RemoteEmail RemoteEmailId) :=
  snapshot ← mapM mapJmapEmail emails;
  validateRemoteCollectionSync (RemoteReplace (remoteSyncStateFromString state) snapshot) r_email_id.

Definition completeEmailSnapshot (accountId : RemoteAccountId) :
    jmap (RemoteCollectionSync RemoteEmail RemoteEmailId) :=
  prog_try (
    result ← await (GetMailboxes accountId);
    ids ← account_ids accountId result.(jms_mailboxes);
    '(emails, state) ← fetchExactEmails accountId ids true;
    of_outcome (replacement emails state)) rethrow_jmap.

(** ** [JmapRemoteMail] *)

Definition jmap_syncIdentities (accountId : RemoteAccountId) :
    jmap (RemoteCollectionSync RemoteIdentity RemoteIdentityId) :=
  prog_try (
    result ← await (GetIdentities accountId);
    snapshot ← of_outcome (mapM mapJmapIdentity result.(jis_identities));
    of_outcome (validateRemoteCollectionSync
      (RemoteReplace (remoteSyncStateFromString result.(jis_state)) snapshot) r_identity_id)) rethrow_jmap.

Definition jmap_syncMailboxes (accountId : RemoteAccountId) :
    jmap (RemoteCollectionSync RemoteMailbox RemoteMailboxId) :=
  prog_try (
    result ← await (GetMailboxes accountId);
    snapshot ← of_outcome (mapM mapJmapMailbox result.(jms_mailboxes));
    of_outcome (validateRemoteCollectionSync
      (RemoteReplace (remoteSyncStateFromString result.(jms_state)) snapshot) r_mailbox_id)) rethrow_jmap.

(** What a page of changes does to the two sets. *)
Definition apply_delta (changedIds destroyedIds : list string) (delta : JmapDelta) :
    list string * list string :=
  let changedIds := fold_left (λ s id, set_add id s) (delta.(jd_created) ++ delta.(jd_updated)) changedIds in
  fold_left (λ '(changed, destroyed) id, (set_delete id changed, set_add id destroyed))
    delta.(jd_destroyed) (changedIds, destroyedIds).

Definition delta_transition (state : string) (fetched : list JmapEmail) (destroyedIds : list string) :
    outcome exn (RemoteCollectionSync RemoteEmail RemoteEmailId) :=
  changed ← mapM mapJmapEmail fetched;
  destroyed ← mapM remoteEmailIdFromString destroyedIds;
  validateRemoteCollectionSync (RemoteDelta (remoteSyncStateFromString state) changed destroyed) r_email_id.

Definition too_many_changes : exn :=
  ThrownRemoteError (remote_error "Remote email changes still has more changes after 20 pages"
    kind_protocol safeBackoff session_keep knownNotApplied).

(** The loop [for (let page = 0; page < MAX_DELTA_PAGES; page++)]. *)
Fixpoint delta_pages (accountId : RemoteAccountId) (remaining : nat) (state : string)
    (changedIds destroyedIds : list string) : jmap (RemoteCollectionSync RemoteEmail RemoteEmailId) :=
  match remaining with
  | O => Raise too_many_changes
  | S remaining =>
      delta ← await (GetEmailChanges accountId state);
      let '(changedIds, destroyedIds) := apply_delta changedIds destroyedIds delta in
      let state := delta.(jd_newState) in
      if delta.(jd_hasMoreChanges) then delta_pages accountId remaining state changedIds destroyedIds
      else
        '(fetched, _) ← fetchExactEmails accountId changedIds false;
        of_outcome (delta_transition state fetched destroyedIds)
  end.

(** [error instanceof JmapMethodError && error.type === 'cannotCalculateChanges']. *)
Definition cannot_calculate (error : exn) : bool :=
  match error with
  | ThrownJmapError (JmapMethodError _ type _) => type === "cannotCalculateChanges"
  | _ => false
  end.

Definition jmap_syncEmails (accountId : RemoteAccountId) (previousState : option RemoteSyncState) :
    jmap (RemoteCollectionSync RemoteEmail RemoteEmailId) :=
  match previousState with
  | None => completeEmailSnapshot accountId
  | Some state =>
      prog_try (delta_pages accountId MAX_DELTA_PAGES state set_new set_new) (λ error,
        if cannot_calculate error then completeEmailSnapshot accountId else rethrow_jmap error)
  end.

Definition jmap_queryMailbox (accountId : RemoteAccountId) (mailboxId : RemoteMailboxId)
    (filter : option json) (options : option RemoteQueryOptions) : jmap RemoteMailboxQuery :=
  prog_try (
    result ← await (QueryEmails accountId mailboxId filter options);
    of_outcome (mapJmapQuery result)) rethrow_jmap.

Definition jmap_fetchBody (accountId : RemoteAccountId) (emailId : RemoteEmailId) : jmap RemoteBody :=
  prog_try (
    body ← await (GetEmailBody accountId emailId);
    Ret (PlainBody body.(jb_text) body.(jb_html))) rethrow_jmap.

Definition jmap_fetchAttachments (accountId : RemoteAccountId) (emailId : RemoteEmailId) :
    jmap (list RemoteAttachment) :=
  prog_try (
    values ← await (GetEmailAttachments accountId emailId);
    of_outcome (mapM mapJmapAttachment values)) rethrow_jmap.

(** [patch[value] = true] for what is added, then [false] for what is removed. *)
Definition change_patch (add remove : list string) : jsmap string bool :=
  fold_left (λ patch value, map_set value false patch) remove
    (fold_left (λ patch value, map_set value true patch) add map_new).

Definition jmap_applyKeywordChange (accountId : RemoteAccountId) (emailId : RemoteEmailId)
    (change : RemoteKeywordChange) : jmap unit :=
  prog_try (await (UpdateEmailKeywords accountId emailId
              (change_patch change.(remote_keyword_add) change.(remote_keyword_remove)))) rethrow_jmap.

Definition jmap_applyMembershipChange (accountId : RemoteAccountId) (emailId : RemoteEmailId)
    (change : RemoteMembershipChange) : jmap unit :=
  prog_try (await (UpdateEmailMailboxes accountId emailId
              (change_patch change.(remote_membership_add) change.(remote_membership_remove))))
    rethrow_jmap.

(** ** remote/jmap/jmap-submission.ts *)

Definition jmap_address (value : JmapEmailAddress) : JmapEmailAddress :=
  mkEmailAddress value.(address_name) value.(address_email).

Definition unsupported_submission (message : string) : exn :=
  ThrownRemoteError (remote_error message kind_unsupported never session_keep knownNotApplied).

(** [error instanceof JmapNetworkError || error instanceof JmapSubmissionAmbiguousError]. *)
Definition submission_outcome (error : exn) : OperationOutcome :=
  match error with
  | ThrownJmapError (JmapNetworkError _) | ThrownJmapError (JmapSubmissionAmbiguousError _) =>
      outcome_unknown
  | _ => knownNotApplied
  end.

Definition jmap_submit (message : SubmissionMessage) : jmap SubmissionResult :=
  let draft := message.(message_draft) in
  match draft.(draft_identityId), draft.(draft_body) with
  | None, _ => Raise (unsupported_submission "JMAP submission requires a remote Identity")
  | Some _, SubmitE2ee _ => Raise (unsupported_submission "Encrypted submission is not integrated yet")
  | Some identityId, SubmitPlain text html =>
      prog_try (
        result ← await (SubmitEmail message.(message_accountId) {|
          jdr_from := [jmap_address draft.(draft_from)];
          jdr_to := List.map jmap_address draft.(draft_to);
          jdr_cc := List.map jmap_address draft.(draft_cc);
          jdr_bcc := List.map jmap_address draft.(draft_bcc);
          jdr_replyTo := List.map jmap_address draft.(draft_replyTo);
          jdr_subject := draft.(draft_subject);
          jdr_textBody := Some text;
          jdr_htmlBody := html |} identityId);
        emailId ← of_outcome (remoteEmailIdFromString result.1);
        Ret {| submission_emailId := Some emailId; submission_receiptId := Some result.2 |})
      (λ error, Raise (ThrownRemoteError (toRemoteError error (submission_outcome error))))
  end.

(** ** remote/jmap/jmap-connection.ts *)

(** The accounts of a session, each with its capabilities. *)
Definition capabilities_by_account (primaryAccounts : jsmap string string) : jsmap string (list string) :=
  fold_left (λ byAccount '(capability, accountId),
    map_set accountId (default [] (map_get accountId byAccount) ++ [capability]) byAccount)
    primaryAccounts map_new.

Definition jmap_accounts (session : JmapSession) : outcome exn (list (RemoteAccountId * list string)) :=
  let byAccount := capabilities_by_account session.(jse_primaryAccounts) in
  accountIds ← mapM remoteAccountIdFromString byAccount.*1;
  throw_if (bool_decide (accountIds = [])) (TypeError "JMAP Session has no primary mail Account");;
  Return (List.map (λ id, (id, default [] (map_get id byAccount))) accountIds).

(** [open]: the accounts of the session, whose mail and submission are those above. *)
Definition jmap_open : jmap (list (RemoteAccountId * list string)) :=
  prog_try (session ← await OpenSession; of_outcome (jmap_accounts session)) rethrow_jmap.
