(* ===== verification/JmapFacts.v ===== *)
(** * Facts about the JMAP adapter: batches, exact fetches, pages, deltas *)

From S2P Require Import Prelude.
From S2P Require Import JsNumber.
From S2P Require Import JsString.
From S2P Require Import JsCollections.
From S2P Require Import Errors.
From S2P Require Import DomainIds.
From S2P Require Import Remote.
From S2P Require Import Prog.
From S2P Require Import JmapTypes.
From S2P Require Import JmapRemoteMail.
From Stdlib Require Import ZArith Lia.
Open Scope string_scope.
Open Scope list_scope.
Open Scope js_scope.

(** ** Batches *)

Lemma chunks_from_concat {T} turns (values : list T) size :
  (0 < size)%nat → (length values <= turns)%nat → concat (chunks_from turns values size) = values.
Proof.
  intros Hsize. revert values. induction turns as [|turns IH]; intros values Hl.
  - by destruct values; [|cbn in Hl; lia].
  - destruct values as [|v values]; [done|]. cbn [chunks_from concat].
    rewrite IH; [apply take_drop|]. rewrite length_drop. cbn in *. lia.
Qed.

Lemma chunks_from_size {T} turns (values : list T) size :
  Forall (λ c, (length c <= size)%nat) (chunks_from turns values size).
Proof.
  revert values. induction turns as [|turns IH]; intros values; [constructor|].
  destruct values as [|v values]; [constructor|]. cbn [chunks_from].
  constructor; [|apply IH]. rewrite length_take. lia.
Qed.

(** ** Exact fetches *)

Lemma set_delete_perm {T} `{!EqDecision T} (x : T) s :
  NoDup s → x ∈ s → s ≡ₚ x :: set_delete x s.
Proof.
  intros Hnd Hx. apply NoDup_Permutation; [done| |].
  - constructor; [|by apply NoDup_set_delete]. rewrite elem_of_set_delete. by intros [].
  - intros y. rewrite elem_of_cons, elem_of_set_delete. destruct (decide (y = x)); naive_solver.
Qed.

(** What the server returns is what was expected, and leaves what is missing. *)
Lemma take_expected_return received expected emails rest emails' :
  NoDup expected →
  take_expected received expected emails = Return (rest, emails') →
  emails' = emails ++ received ∧ expected ≡ₚ List.map je_id received ++ rest ∧ NoDup rest.
Proof.
  revert expected emails. induction received as [|email received IH]; intros expected emails Hnd;
    cbn [take_expected List.map].
  - intros [= <- <-]. by rewrite app_nil_r.
  - rewrite seq_return, throw_if_return, negb_false_iff, set_has_spec. intros [Hin H].
    apply IH in H as (-> & Hperm & Hrest); [|by apply NoDup_set_delete].
    rewrite <- app_assoc. split_and!; [done| |done].
    rewrite (set_delete_perm email.(je_id) expected) by done. cbn. by rewrite Hperm.
Qed.

Lemma accept_batch_return includeState batch emails state result emails' state' :
  accept_batch includeState batch emails state result = Return (emails', state') →
  emails' = emails ++ result.(jes_emails) ∧
  List.map je_id result.(jes_emails) ≡ₚ set_of_list batch ∧
  state' = Some (default result.(jes_state) state) ∧
  (includeState = true → result.(jes_state) = default result.(jes_state) state).
Proof.
  unfold accept_batch. rewrite seq_return, throw_if_return. intros [Hs H].
  apply bind_return in H as ([rest taken] & Ht & H). rewrite seq_return, throw_if_return in H.
  destruct H as [Hrest [= <- <-]]. apply negb_false_iff, bool_decide_eq_true in Hrest as ->.
  apply take_expected_return in Ht as (-> & Hperm & _); [|apply set_of_list_NoDup].
  rewrite app_nil_r in Hperm. split_and!; [done|by symmetry|done|].
  intros ->. cbn in Hs. by rewrite differs_false in Hs.
Qed.

(** The failures [accept_batch] makes itself. *)
Lemma accept_batch_throw includeState batch emails state result e :
  accept_batch includeState batch emails state result = Throw e → ∃ message, e = Error message.
Proof.
  unfold accept_batch. intros [[_ <-]%throw_if_throw|(u & _ & H)]%bind_throw; [by eexists|].
  apply bind_throw in H as [H|([expected taken] & _ & H)].
  - revert H. generalize (set_of_list batch) emails.
    induction result.(jes_emails) as [|email received IH]; intros expected taken; cbn [take_expected]; [done|].
    intros [[_ <-]%throw_if_throw|(u' & _ & H)]%bind_throw; [by eexists|by eapply IH].
  - apply bind_throw in H as [[_ <-]%throw_if_throw|(u' & _ & H)]; [by eexists|done].
Qed.

(** Fetching under a monitor whose ghost an answered fetch does not move. *)
Section exact.
Context {M : Type} (mon : monitor JmapCall M) (accountId : RemoteAccountId) (m : M).
Context (still : ∀ batch result, watch mon m (GetEmails accountId batch) (Return result) = m).

(** How a fetch ends: with the emails, with a failure of its own, or with the server's. *)
Definition fetched_exactly (ids : list string) (r : outcome exn (list JmapEmail * string)) (m' : M) : Prop :=
  match r with
  | Return (emails, _) => m' = m ∧ List.map je_id emails ≡ₚ ids
  | Throw e =>
      (m' = m ∧ ∃ message, e = Error message) ∨
      ∃ batch, m' = watch mon m (GetEmails accountId batch) (Throw e)
  end.

Lemma fetchExactEmails_obeys ids includeState :
  NoDup ids →
  (∀ batch, (length batch <= PAGE_SIZE)%nat → (∀ id, id ∈ batch → id ∈ ids) →
     allowed mon m (GetEmails accountId batch)) →
  obeys mon (fetchExactEmails accountId ids includeState) m (fetched_exactly ids).
Proof.
  intros Hnd Hallowed. unfold fetchExactEmails. cbv zeta.
  set (batches := if bool_decide (ids = []) then [[]] else chunks ids PAGE_SIZE).
  assert (concat batches = ids) as Hconcat.
  { unfold batches. case_bool_decide as Hids; [by subst|]. apply chunks_from_concat; [|done].
    unfold PAGE_SIZE. lia. }
  assert (Forall (λ c, (length c <= PAGE_SIZE)%nat) batches) as Hsize.
  { unfold batches. case_bool_decide; [|apply chunks_from_size].
    constructor; [cbn; lia|constructor]. }
  clearbody batches. apply obeys_mbind.
  enough (∀ rest done emails state,
    batches = done ++ rest → List.map je_id emails ≡ₚ concat done →
    obeys mon (prog_for rest (λ '(emails, state) batch,
        result ← await (GetEmails accountId batch);
        of_outcome (accept_batch includeState batch emails state result)) (emails, state)) m
      (λ r m', match r with
       | Return (emails, _) => m' = m ∧ List.map je_id emails ≡ₚ ids
       | Throw e => fetched_exactly ids (Throw e) m'
       end)) as H.
  { eapply obeys_mono; [|apply (H batches [])]; [|done|done].
    intros [[emails state]|e] m'; done. }
  intros rest. induction rest as [|batch rest IH]; intros done emails state Hb He; cbn [prog_for].
  - split; [done|]. rewrite He, <- Hconcat, Hb, app_nil_r. done.
  - assert (batch ∈ batches) as Hin by (rewrite Hb; apply elem_of_app; right; by left).
    apply obeys_bind, obeys_mbind, obeys_await.
    { apply Hallowed; [by eapply Forall_forall in Hsize|]. intros id Hid.
      rewrite <- Hconcat. apply list_elem_of_In, in_concat. exists batch.
      by rewrite <- !list_elem_of_In. }
    intros r _. destruct r as [result|e]; [|right; by eexists]. rewrite still. apply obeys_outcome.
    destruct (accept_batch _ _ _ _ _) as [[emails' state']|e] eqn:Ha.
    2: { left. split; [done|]. by eapply accept_batch_throw. }
    apply accept_batch_return in Ha as (-> & Hperm & _). apply (IH (done ++ [batch])).
    + by rewrite <- app_assoc.
    + rewrite map_app, concat_app, Hperm, He. cbn. rewrite app_nil_r.
      rewrite set_of_list_id; [done|]. rewrite <- Hconcat, Hb in Hnd.
      rewrite concat_app in Hnd. cbn in Hnd. apply NoDup_app in Hnd as (_ & _ & Hnd).
      by apply NoDup_app in Hnd as (Hnd & _).
Qed.
End exact.

(** ** Reading a mailbox by pages *)

(** The ids the pages of a mailbox brought. *)
Definition page_ids (pages : list JmapQueryResult) : list string := flat_map jq_ids pages.

Lemma page_ids_app a b : page_ids (a ++ b) = page_ids a ++ page_ids b.
Proof. apply flat_map_app. Qed.

(** A mailbox read to its end: under one total and one query state, each page starts
    where the one before ended, no id repeats, and there are as many ids as the server
    says the mailbox has, or more. *)
Definition mailbox_read (pages : list JmapQueryResult) : Prop :=
  ∃ total queryState,
    Forall (λ q, q.(jq_total) = Int total ∧ q.(jq_queryState) = queryState) pages ∧
    (∀ before q after, pages = before ++ q :: after →
       q.(jq_position) = Int (Z.of_nat (length (page_ids before)))) ∧
    NoDup (page_ids pages) ∧ (total <= Z.of_nat (length (page_ids pages)))%Z.

(** The same, before the end. *)
Definition mailbox_reading (expected : option (number * string)) (pages : list JmapQueryResult) : Prop :=
  match expected with
  | None => pages = []
  | Some (total, queryState) =>
      Forall (λ q, q.(jq_total) = total ∧ q.(jq_queryState) = queryState) pages ∧
      ∃ t, total = Int t ∧ (0 <= t <= MAX_SAFE_INTEGER)%Z
  end ∧
  (∀ before q after, pages = before ++ q :: after →
     q.(jq_position) = Int (Z.of_nat (length (page_ids before)))) ∧
  NoDup (page_ids pages).

Lemma note_ids_return mailboxId ids seen account seen' account' :
  NoDup seen →
  note_ids mailboxId ids seen account = Return (seen', account') ↔
  NoDup (seen ++ ids) ∧ seen' = seen ++ ids ∧ account' = fold_left (λ s x, set_add x s) ids account.
Proof.
  revert seen account. induction ids as [|id ids IH]; intros seen account Hnd; cbn [note_ids fold_left].
  - rewrite app_nil_r. naive_solver.
  - rewrite seq_return, throw_if_return, set_has_false. split.
    + intros [Hid H]. rewrite set_add_fresh in H by done. apply IH in H as (H & -> & ->).
      * by rewrite <- app_assoc in *.
      * apply NoDup_app. split_and!; [done| |apply NoDup_singleton].
        intros x Hx Hx'%list_elem_of_singleton. by subst.
    + intros (H & -> & ->). assert (id ∉ seen) as Hid.
      { apply NoDup_app in H as (_ & H & _). intros Hin. apply (H id Hin). by left. }
      split; [done|]. rewrite set_add_fresh by done. apply IH.
      * apply NoDup_app. split_and!; [done| |apply NoDup_singleton].
        intros x Hx Hx'%list_elem_of_singleton. by subst.
      * rewrite <- app_assoc. done.
Qed.

Lemma position_snoc pages q :
  (∀ before p after, pages = before ++ p :: after →
     p.(jq_position) = Int (Z.of_nat (length (page_ids before)))) →
  q.(jq_position) = Int (Z.of_nat (length (page_ids pages))) →
  ∀ before p after, pages ++ [q] = before ++ p :: after →
     p.(jq_position) = Int (Z.of_nat (length (page_ids before))).
Proof.
  intros Hpages Hq before p after H. destruct after as [|a after _] using rev_ind.
  - apply app_inj_tail in H as [-> ->]. done.
  - rewrite app_comm_cons, app_assoc in H. apply app_inj_tail in H as [H _]. by eapply Hpages.
Qed.

(** What a page must satisfy to be accepted. *)
Lemma accept_page_return mailboxId position expected q total queryState :
  accept_page mailboxId (Int position) expected q = Return (total, queryState) →
  q.(jq_total) = total ∧ q.(jq_queryState) = queryState ∧ q.(jq_position) = Int position ∧
  (length q.(jq_ids) <= PAGE_SIZE)%nat ∧
  (∃ t, total = Int t ∧ (0 <= t <= MAX_SAFE_INTEGER)%Z) ∧
  match expected with Some e => e = (total, queryState) | None => True end.
Proof.
  unfold accept_page. rewrite seq_return, throw_if_return, !orb_false_iff, !negb_false_iff.
  intros ((((Hsafe & Hneg) & Hpos) & Hlen) & H).
  apply isSafeInteger_spec in Hsafe as (t & Ht & Hb). rewrite Ht, num_ltb_Int, Z.ltb_ge in Hneg.
  apply num_eqb_spec in Hpos as [Hpos _]. apply Nat.ltb_ge in Hlen.
  destruct (default _ expected) as [total' state'] eqn:Hd. rewrite seq_return, throw_if_return in H.
  destruct H as [Hsame [= -> ->]]. apply orb_false_iff in Hsame as [H1 H2].
  rewrite differs_false in H2. apply negb_false_iff, num_eqb_spec in H1 as [H1 _].
  split_and!; [done..| |].
  - exists t. split; [congruence|lia].
  - destruct expected as [e|]; [|done]. cbn in Hd. by subst.
Qed.

(** Following a synchronisation from nothing: the mailboxes the server listed, and the
    pages it answered, with their mailbox. *)
Record snapshot_ghost : Type := mkSnapshotGhost {
  sg_mailboxes : option (list JmapMailbox);
  sg_pages : list (string * JmapQueryResult);
}.

Definition snapshot_allowed (accountId : RemoteAccountId) X (g : snapshot_ghost) (c : JmapCall X) : Prop :=
  match c with
  | GetMailboxes account => account = accountId ∧ g.(sg_mailboxes) = None
  | QueryEmails account mailboxId None (Some options) =>
      account = accountId ∧
      (∃ mailboxes m, g.(sg_mailboxes) = Some mailboxes ∧ m ∈ mailboxes ∧ mailboxId = m.(jm_id)) ∧
      ∃ p, options = page_options (Int p) ∧ (0 <= p <= 10000 * 500)%Z
  | GetEmails account batch =>
      account = accountId ∧ (length batch <= PAGE_SIZE)%nat ∧
      ∀ id, id ∈ batch → id ∈ page_ids g.(sg_pages).*2
  | _ => False
  end.

Definition snapshot_watch X (g : snapshot_ghost) (c : JmapCall X) : outcome exn X → snapshot_ghost :=
  match c in JmapCall X return outcome exn X → snapshot_ghost with
  | GetMailboxes _ => λ r,
      match r with
      | Return result => mkSnapshotGhost (Some result.(jms_mailboxes)) g.(sg_pages)
      | Throw _ => g
      end
  | QueryEmails _ mailboxId _ _ => λ r,
      match r with
      | Return q => mkSnapshotGhost g.(sg_mailboxes) (g.(sg_pages) ++ [(mailboxId, q)])
      | Throw _ => g
      end
  | _ => λ _, g
  end.

Definition snapshot_protocol (accountId : RemoteAccountId) : monitor JmapCall snapshot_ghost :=
  {| allowed := snapshot_allowed accountId; watch := snapshot_watch; possible := λ _ _ _, True |}.

Definition tagged (mailboxId : string) (pages : list JmapQueryResult) : list (string * JmapQueryResult) :=
  List.map (λ q, (mailboxId, q)) pages.

Section pages.
Context (accountId : RemoteAccountId) (mailboxes : list JmapMailbox) (mailbox : JmapMailbox).
Context (Hmailbox : mailbox ∈ mailboxes).

Lemma query_pages_obeys (earlier : list (string * JmapQueryResult)) remaining position expected pages account :
  position = Int (Z.of_nat (length (page_ids pages))) →
  (Z.of_nat (length (page_ids pages)) + Z.of_nat remaining * 500 <= 10000 * 500)%Z →
  (0 < remaining)%nat →
  mailbox_reading expected pages →
  obeys (snapshot_protocol accountId)
    (query_pages accountId mailbox.(jm_id) remaining position expected (page_ids pages) account)
    (mkSnapshotGhost (Some mailboxes) (earlier ++ tagged mailbox.(jm_id) pages))
    (λ r g, match r with
     | Return account' => ∃ more,
         g = mkSnapshotGhost (Some mailboxes) (earlier ++ tagged mailbox.(jm_id) (pages ++ more)) ∧
         mailbox_read (pages ++ more) ∧
         account' = fold_left (λ s x, set_add x s) (page_ids more) account
     | Throw _ => True
     end).
Proof.
  revert position expected pages account.
  induction remaining as [|remaining IH]; intros position expected pages account -> Hbound Hremaining Hreading;
    [lia|]. cbn [query_pages].
  apply obeys_mbind, obeys_await.
  { split_and!; [done|by exists mailboxes, mailbox|]. eexists. split; [done|lia]. }
  intros [q|e] _; [|done]. cbv beta iota. apply obeys_mbind, obeys_outcome.
  destruct (accept_page _ _ _ _) as [[total queryState]|e] eqn:Ha; [|done].
  apply accept_page_return in Ha as (Htotal & Hstate & Hpos & Hlen & (t & Ht & Htb) & He).
  apply obeys_mbind, obeys_outcome.
  destruct (note_ids _ _ _ _) as [[seen account']|e] eqn:Hn; [|done].
  destruct Hreading as (Hexp & Hpositions & Hnd).
  apply note_ids_return in Hn as (Hnd' & -> & ->); [|done].
  set (pages' := pages ++ [q]).
  assert (page_ids pages ++ q.(jq_ids) = page_ids pages') as Hids.
  { unfold pages'. rewrite page_ids_app. cbn. by rewrite app_nil_r. }
  assert (Forall (λ q, q.(jq_total) = Int t ∧ q.(jq_queryState) = queryState) pages') as Hall.
  { unfold pages'. apply Forall_app. split; [|repeat constructor; congruence].
    destruct expected as [e|]; [|by subst]. subst e. destruct Hexp as [Hexp _]. by rewrite <- Ht. }
  assert (∀ before p after, pages' = before ++ p :: after →
    p.(jq_position) = Int (Z.of_nat (length (page_ids before)))) as Hpositions'
    by (apply position_snoc; done).
  rewrite Hids in Hnd' |- *.
  assert (length (page_ids pages') = (length (page_ids pages) + length q.(jq_ids))%nat) as Hl.
  { rewrite <- Hids. by rewrite length_app. }
  assert (num_add q.(jq_position) (len q.(jq_ids)) = Int (Z.of_nat (length (page_ids pages')))) as Hnext.
  { unfold PAGE_SIZE in *. rewrite Hpos. unfold len. rewrite num_add_exact; [f_equal|]; lia. }
  change (watch (snapshot_protocol accountId) _ _ _) with
    (mkSnapshotGhost (Some mailboxes) ((earlier ++ tagged mailbox.(jm_id) pages) ++ [(mailbox.(jm_id), q)])).
  assert ((earlier ++ tagged mailbox.(jm_id) pages) ++ [(mailbox.(jm_id), q)] =
          earlier ++ tagged mailbox.(jm_id) pages') as ->.
  { unfold pages', tagged. by rewrite map_app, <- app_assoc. }
  cbv zeta. rewrite Hnext, Htotal, Ht, num_leb_Int. destruct (Z.leb_spec t (Z.of_nat (length (page_ids pages')))).
  - exists [q]. split_and!; [done| |by cbn; rewrite app_nil_r]. exists t, queryState. done.
  - apply obeys_mbind, obeys_outcome. destruct (throw_if _ _); [|done].
    apply obeys_mbind, obeys_outcome. destruct (throw_if _ _) eqn:Hmore; [|done].
    apply throw_if_return, bool_decide_eq_false in Hmore.
    eapply obeys_mono; [|apply (IH _ _ pages')]; [|done|unfold PAGE_SIZE in *; lia|lia|].
    + intros [account''|e] g; [|done]. intros (more & -> & Hread & ->). exists (q :: more).
      assert (pages ++ q :: more = pages' ++ more) as -> by (unfold pages'; by rewrite <- app_assoc).
      split_and!; [done|done|]. cbn. by rewrite fold_left_app.
    + split; [|done]. split; [done|by exists t].
Qed.
End pages.

(** ** Reading an account *)

(** One reading per mailbox, in the order the server listed them. *)
Definition account_read (mailboxes : list JmapMailbox) (pages : list (string * JmapQueryResult)) : Prop :=
  ∃ readings,
    Forall2 (λ (_ : JmapMailbox) reading, mailbox_read reading) mailboxes readings ∧
    pages = concat (zip_with (λ m reading, tagged m.(jm_id) reading) mailboxes readings).

Lemma account_read_snoc mailboxes pages m reading :
  account_read mailboxes pages → mailbox_read reading →
  account_read (mailboxes ++ [m]) (pages ++ tagged m.(jm_id) reading).
Proof.
  intros (readings & Hall & ->) Hread. exists (readings ++ [reading]). split.
  - by apply Forall2_app; [|repeat constructor].
  - rewrite zip_with_app by by eapply Forall2_length. rewrite concat_app. cbn. by rewrite app_nil_r.
Qed.

Lemma tagged_snd mailboxId pages : (tagged mailboxId pages).*2 = pages.
Proof. unfold tagged. induction pages; csimpl; [done|]. by f_equal. Qed.

Lemma account_ids_obeys accountId mailboxes :
  obeys (snapshot_protocol accountId) (account_ids accountId mailboxes) (mkSnapshotGhost (Some mailboxes) [])
    (λ r g, match r with
     | Return ids => g.(sg_mailboxes) = Some mailboxes ∧ account_read mailboxes g.(sg_pages) ∧
                     ids = set_of_list (page_ids g.(sg_pages).*2)
     | Throw _ => True
     end).
Proof.
  unfold account_ids.
  enough (∀ rest before pages,
    mailboxes = before ++ rest → account_read before pages →
    obeys (snapshot_protocol accountId)
      (prog_for rest (λ ids mailbox,
         query_pages accountId mailbox.(jm_id) MAX_PAGES (Int 0) None set_new ids)
         (set_of_list (page_ids pages.*2))) (mkSnapshotGhost (Some mailboxes) pages)
      (λ r g, match r with
       | Return ids => g.(sg_mailboxes) = Some mailboxes ∧ account_read mailboxes g.(sg_pages) ∧
                       ids = set_of_list (page_ids g.(sg_pages).*2)
       | Throw _ => True
       end)) as H.
  { apply (H mailboxes [] []); [done|]. by exists []. }
  intros rest. induction rest as [|m rest IH]; intros before pages Hm Hread; cbn [prog_for].
  - rewrite app_nil_r in Hm. by subst.
  - assert (m ∈ mailboxes) as Hin by (rewrite Hm; apply elem_of_app; right; by left).
    pose proof (query_pages_obeys accountId mailboxes m Hin pages MAX_PAGES (Int 0) None []
                  (set_of_list (page_ids pages.*2))) as Hpages.
    cbn [tagged List.map] in Hpages. rewrite app_nil_r in Hpages.
    apply obeys_bind. eapply obeys_mono; [|apply Hpages].
    + intros [ids|e] g; [|done]. cbn [app]. intros (more & -> & Hmore & ->).
      assert (fold_left (λ s x, set_add x s) (page_ids more) (set_of_list (page_ids pages.*2)) =
              set_of_list (page_ids (pages ++ tagged m.(jm_id) more).*2)) as ->.
      { rewrite fmap_app, tagged_snd, page_ids_app. unfold set_of_list. by rewrite fold_left_app. }
      apply (IH (before ++ [m])); [by rewrite <- app_assoc|by apply account_read_snoc].
    + done.
    + unfold MAX_PAGES. cbn [page_ids flat_map length]. lia.
    + unfold MAX_PAGES. lia.
    + split; [done|]. split; [|constructor]. by intros [].
Qed.

(** A mapped email keeps its id. *)
Lemma mapJmapEmail_id value email : mapJmapEmail value = Return email → email.(r_email_id) = value.(je_id).
Proof.
  unfold mapJmapEmail. intros (id & Hid & H)%bind_return.
  apply seq_return in Hid as [_ [= <-]].
  apply bind_return in H as (blobId & _ & H). apply bind_return in H as (threadId & _ & H).
  apply bind_return in H as (mailboxIds & _ & [= <-]). done.
Qed.

Lemma mapJmapEmail_ids values emails :
  mapM mapJmapEmail values = Return emails →
  List.map r_email_id emails = List.map je_id values.
Proof.
  intros H%mapM_return_Forall2. induction H as [|v e vs es Hve _ IH]; cbn; [done|].
  by rewrite IH, (mapJmapEmail_id _ _ Hve).
Qed.

Definition is_remote (e : exn) : Prop := ∃ error, e = ThrownRemoteError error.

(** A replacement answers exactly the emails of the mailboxes it read. *)
Definition replaced (g : snapshot_ghost) (t : RemoteCollectionSync RemoteEmail RemoteEmailId) : Prop :=
  ∃ mailboxes emails state,
    g.(sg_mailboxes) = Some mailboxes ∧ account_read mailboxes g.(sg_pages) ∧
    t = RemoteReplace state emails ∧ NoDup (List.map r_email_id emails) ∧
    ∀ id, id ∈ List.map r_email_id emails ↔ id ∈ page_ids g.(sg_pages).*2.

Lemma completeEmailSnapshot_obeys accountId :
  obeys (snapshot_protocol accountId) (completeEmailSnapshot accountId) (mkSnapshotGhost None [])
    (λ r g, match r with Return t => replaced g t | Throw e => is_remote e end).
Proof.
  unfold completeEmailSnapshot. apply obeys_try, obeys_mbind, obeys_await; [done|].
  intros [result|e] _; [|by eexists]. cbv beta iota. apply obeys_mbind.
  eapply obeys_mono; [|apply account_ids_obeys].
  intros [ids|e] [mbs pages]; [|by eexists]. cbn [sg_mailboxes sg_pages]. intros (-> & Hread & ->).
  apply obeys_mbind. eapply obeys_mono; [|apply fetchExactEmails_obeys; [done|apply set_of_list_NoDup|]].
  - intros [[emails state]|e] g; [|by eexists]. intros [-> Hids]. apply obeys_outcome.
    destruct (replacement emails state) as [t|e] eqn:Ht; [|by eexists].
    apply bind_return in Ht as (snapshot & Hmap & Ht). apply validate_replace in Ht as [-> Hnd].
    exists (jms_mailboxes result), snapshot, (remoteSyncStateFromString state).
    split_and!; try done. intros id. rewrite (mapJmapEmail_ids _ _ Hmap), Hids. apply set_of_list_elem.
  - intros batch Hl Hin. split_and!; [done..|]. intros id Hid. by apply set_of_list_elem, Hin.
Qed.

(** ** Following changes *)

(** The sets after a sequence of pages of changes. *)
Definition delta_sets (deltas : list JmapDelta) : list string * list string :=
  fold_left (λ '(changed, destroyed) delta, apply_delta changed destroyed delta) deltas ([], []).

(** The state the next page is asked from. *)
Definition delta_state (state : string) (deltas : list JmapDelta) : string :=
  match last deltas with Some delta => delta.(jd_newState) | None => state end.

Lemma apply_delta_NoDup changed destroyed delta :
  NoDup changed → NoDup destroyed →
  NoDup (apply_delta changed destroyed delta).1 ∧ NoDup (apply_delta changed destroyed delta).2.
Proof.
  intros Hc Hd. unfold apply_delta. cbv zeta.
  apply (fold_set_add_NoDup (delta.(jd_created) ++ delta.(jd_updated))) in Hc.
  revert Hc. generalize (fold_left (λ s id, set_add id s) (delta.(jd_created) ++ delta.(jd_updated)) changed).
  revert destroyed Hd. induction delta.(jd_destroyed) as [|id ids IH]; intros destroyed Hd c Hc; [done|].
  cbn [fold_left]. apply IH; auto with correo.
Qed.

(** An id is changed after a page when the page changed it or it was changed before,
    unless the page destroyed it. *)
Lemma apply_delta_changed changed destroyed delta id :
  id ∈ (apply_delta changed destroyed delta).1 ↔
  (id ∈ changed ∨ id ∈ delta.(jd_created) ∨ id ∈ delta.(jd_updated)) ∧ id ∉ delta.(jd_destroyed).
Proof.
  unfold apply_delta. cbv zeta.
  assert (id ∈ fold_left (λ s id, set_add id s) (delta.(jd_created) ++ delta.(jd_updated)) changed ↔
          id ∈ changed ∨ id ∈ delta.(jd_created) ∨ id ∈ delta.(jd_updated)) as Hc.
  { rewrite fold_set_add_elem, elem_of_app. naive_solver. }
  rewrite <- Hc. clear Hc.
  generalize (fold_left (λ s id, set_add id s) (delta.(jd_created) ++ delta.(jd_updated)) changed).
  revert destroyed. induction delta.(jd_destroyed) as [|i ids IH]; intros destroyed c; cbn [fold_left].
  - cbn. rewrite elem_of_nil. naive_solver.
  - rewrite IH, elem_of_set_delete, not_elem_of_cons. naive_solver.
Qed.

Lemma apply_delta_destroyed changed destroyed delta id :
  id ∈ (apply_delta changed destroyed delta).2 ↔ id ∈ destroyed ∨ id ∈ delta.(jd_destroyed).
Proof.
  unfold apply_delta. cbv zeta.
  generalize (fold_left (λ s id, set_add id s) (delta.(jd_created) ++ delta.(jd_updated)) changed).
  revert destroyed. induction delta.(jd_destroyed) as [|i ids IH]; intros destroyed c; cbn [fold_left].
  - cbn. rewrite elem_of_nil. naive_solver.
  - rewrite IH, elem_of_set_add, elem_of_cons. naive_solver.
Qed.

Lemma delta_sets_snoc deltas delta :
  delta_sets (deltas ++ [delta]) = apply_delta (delta_sets deltas).1 (delta_sets deltas).2 delta.
Proof.
  unfold delta_sets. rewrite fold_left_app. cbn. by destruct (fold_left _ deltas _).
Qed.

Lemma delta_sets_NoDup deltas : NoDup (delta_sets deltas).1 ∧ NoDup (delta_sets deltas).2.
Proof.
  induction deltas as [|delta deltas [H1 H2]] using rev_ind; [split; constructor|].
  rewrite delta_sets_snoc. by apply apply_delta_NoDup.
Qed.

Lemma delta_sets_destroyed deltas id :
  id ∈ (delta_sets deltas).2 ↔ ∃ delta, delta ∈ deltas ∧ id ∈ delta.(jd_destroyed).
Proof.
  induction deltas as [|delta deltas IH] using rev_ind.
  - split; [intros H; by apply elem_of_nil in H|]. intros (d & Hd & _). by apply elem_of_nil in Hd.
  - rewrite delta_sets_snoc, apply_delta_destroyed, IH. setoid_rewrite elem_of_app.
    setoid_rewrite list_elem_of_singleton. naive_solver.
Qed.

(** An id is fetched exactly when some page changed it and neither that page nor a
    later one destroyed it. *)
Lemma delta_sets_changed deltas id :
  id ∈ (delta_sets deltas).1 ↔
  ∃ before delta after, deltas = before ++ delta :: after ∧
    (id ∈ delta.(jd_created) ∨ id ∈ delta.(jd_updated)) ∧
    ∀ later, later ∈ delta :: after → id ∉ later.(jd_destroyed).
Proof.
  induction deltas as [|delta deltas IH] using rev_ind.
  - split; [intros H; by apply elem_of_nil in H|]. by intros ([] & ? & ? & ? & _).
  - rewrite delta_sets_snoc, apply_delta_changed, IH. split.
    + intros [[(before & d & after & -> & Hin & Hlater)|Hin] Hnot].
      * exists before, d, (after ++ [delta]). split_and!; [by rewrite <- app_assoc|done|].
        intros later Hl. rewrite app_comm_cons in Hl. apply elem_of_app in Hl as [Hl|Hl]; [auto|].
        by apply list_elem_of_singleton in Hl as ->.
      * exists deltas, delta, []. split_and!; [done|done|]. by intros later ->%list_elem_of_singleton.
    + intros (before & d & after & Heq & Hin & Hlater). destruct after as [|a after _] using rev_ind.
      * apply app_inj_tail in Heq as [-> ->]. split; [by right|]. apply Hlater. by left.
      * rewrite app_comm_cons, app_assoc in Heq. apply app_inj_tail in Heq as [-> ->]. split.
        -- left. exists before, d, after. split_and!; [done|done|]. intros later Hl. apply Hlater.
           rewrite app_comm_cons. apply elem_of_app. by left.
        -- apply Hlater. rewrite app_comm_cons. apply elem_of_app. right. by left.
Qed.

(** ** Synchronising from a state

    The pages of changes received; whether a call said that changes cannot be
    calculated; and the ghost of the snapshot that follows. *)
Record delta_ghost : Type := mkDeltaGhost {
  dg_deltas : list JmapDelta;
  dg_fallback : bool;
  dg_snapshot : snapshot_ghost;
}.

Definition delta_start : delta_ghost := mkDeltaGhost [] false (mkSnapshotGhost None []).

Section delta.
Context (accountId : RemoteAccountId) (previous : RemoteSyncState).

Definition delta_allowed X (g : delta_ghost) (c : JmapCall X) : Prop :=
  if g.(dg_fallback) then snapshot_allowed accountId X g.(dg_snapshot) c
  else
    match c with
    | GetEmailChanges account state =>
        account = accountId ∧ state = delta_state previous g.(dg_deltas) ∧
        (length g.(dg_deltas) < MAX_DELTA_PAGES)%nat ∧
        Forall (λ d, d.(jd_hasMoreChanges) = true) g.(dg_deltas)
    | GetEmails account batch =>
        account = accountId ∧ (length batch <= PAGE_SIZE)%nat ∧
        (∀ id, id ∈ batch → id ∈ (delta_sets g.(dg_deltas)).1) ∧
        ∃ d, last g.(dg_deltas) = Some d ∧ d.(jd_hasMoreChanges) = false
    | _ => False
    end.

Definition delta_watch X (g : delta_ghost) (c : JmapCall X) (r : outcome exn X) : delta_ghost :=
  if g.(dg_fallback) then mkDeltaGhost g.(dg_deltas) true (snapshot_watch X g.(dg_snapshot) c r)
  else
    match r with
    | Throw e => mkDeltaGhost g.(dg_deltas) (cannot_calculate e) g.(dg_snapshot)
    | Return x =>
        match c in JmapCall X return X → delta_ghost with
        | GetEmailChanges _ _ => λ delta, mkDeltaGhost (g.(dg_deltas) ++ [delta]) false g.(dg_snapshot)
        | _ => λ _, g
        end x
    end.

Definition delta_protocol : monitor JmapCall delta_ghost :=
  {| allowed := delta_allowed; watch := delta_watch; possible := λ _ _ _, True |}.

(** What a synchronisation from a state answers. *)
Definition synchronised (g : delta_ghost) (t : RemoteCollectionSync RemoteEmail RemoteEmailId) : Prop :=
  if g.(dg_fallback) then replaced g.(dg_snapshot) t
  else ∃ changed destroyed,
    t = RemoteDelta (delta_state previous g.(dg_deltas)) changed destroyed ∧
    (∃ d, last g.(dg_deltas) = Some d ∧ d.(jd_hasMoreChanges) = false) ∧
    List.map r_email_id changed ≡ₚ (delta_sets g.(dg_deltas)).1 ∧
    destroyed = (delta_sets g.(dg_deltas)).2 ∧
    ∀ id, id ∈ destroyed → id ∉ List.map r_email_id changed.

(** The snapshot after a fallback follows its own protocol. *)
Lemma fallback_obeys {A} (p : jmap A) deltas g (Q : outcome exn A → snapshot_ghost → Prop) :
  obeys (snapshot_protocol accountId) p g Q →
  obeys delta_protocol p (mkDeltaGhost deltas true g)
    (λ r g', g'.(dg_fallback) = true ∧ Q r g'.(dg_snapshot)).
Proof.
  revert g. induction p as [a|e|X c k IH]; intros g; cbn [obeys]; [done..|].
  intros [Hc H]. split; [done|]. intros r Hr. by apply IH, H.
Qed.

Lemma mapM_remoteEmailId_return l k : mapM remoteEmailIdFromString l = Return k → k = l.
Proof.
  intros H%mapM_return_Forall2. induction H as [|x y l k Hxy _ ->]; [done|].
  by apply seq_return in Hxy as [_ [= <-]].
Qed.

Lemma last_snoc_state deltas d : delta_state previous (deltas ++ [d]) = d.(jd_newState).
Proof. unfold delta_state. by rewrite last_snoc. Qed.

(** How the loop over the pages ends. *)
Definition delta_done (r : outcome exn (RemoteCollectionSync RemoteEmail RemoteEmailId))
    (g : delta_ghost) : Prop :=
  match r with
  | Return t => synchronised g t
  | Throw e => cannot_calculate e = true → ∃ deltas, g = mkDeltaGhost deltas true (mkSnapshotGhost None [])
  end.

Lemma is_type_error_calculable e : (∃ message, e = TypeError message) → cannot_calculate e = false.
Proof. by intros [message ->]. Qed.

Lemma delta_transition_type_errors state fetched destroyedIds :
  only_type_errors (delta_transition state fetched destroyedIds).
Proof.
  assert (∀ name value, only_type_errors (remoteIdFromString value name)) as Hid.
  { intros name value. unfold remoteIdFromString. type_errors. }
  unfold delta_transition. apply type_errors_bind; [|intros changed; apply type_errors_bind].
  - apply type_errors_mapM. intros v. unfold mapJmapEmail.
    repeat first [apply Hid | apply type_errors_bind; [|intros ?] | apply type_errors_return
                 | apply type_errors_mapM; intros ?].
  - apply type_errors_mapM. intros v. apply Hid.
  - intros ids. apply validate_type_errors.
Qed.

Lemma fetch_delta_obeys deltas d :
  last deltas = Some d → d.(jd_hasMoreChanges) = false →
  obeys delta_protocol
    ('(fetched, _) ← fetchExactEmails accountId (delta_sets deltas).1 false;
     of_outcome (delta_transition (delta_state previous deltas) fetched (delta_sets deltas).2))
    (mkDeltaGhost deltas false (mkSnapshotGhost None [])) delta_done.
Proof.
  intros Hlast Hmore. apply obeys_mbind. eapply obeys_mono; [|apply fetchExactEmails_obeys].
  - intros [[fetched state]|e] g.
    + intros [-> Hids]. apply obeys_outcome.
      destruct (delta_transition _ _ _) as [t|e] eqn:Ht; unfold delta_transition in Ht.
      * apply bind_return in Ht as (changed & Hchanged & Ht).
        apply bind_return in Ht as (destroyed & Hdestroyed & Ht).
        apply mapM_remoteEmailId_return in Hdestroyed as ->.
        apply remote_transition_check_iff in Ht as (-> & _ & _ & Hdisjoint).
        cbn [transition_values] in Hdisjoint.
        exists changed, (delta_sets deltas).2. pose proof (mapJmapEmail_ids _ _ Hchanged) as Hsame.
        rewrite <- Hsame in Hids.
        split_and!; [done|by exists d|done|done|]. intros id Hid. by apply Hdisjoint.
      * intros Hc. by rewrite (is_type_error_calculable e) in Hc by by eapply delta_transition_type_errors.
    + intros [[-> [message ->]]|[batch ->]]; [done|]. intros Hc. exists deltas.
      unfold delta_protocol, watch, delta_watch. cbn. by rewrite Hc.
  - done.
  - apply delta_sets_NoDup.
  - intros batch Hl Hin. split_and!; [done|done|done|by exists d].
Qed.

Lemma delta_pages_obeys remaining deltas :
  (length deltas + remaining = MAX_DELTA_PAGES)%nat →
  Forall (λ d, d.(jd_hasMoreChanges) = true) deltas →
  obeys delta_protocol
    (delta_pages accountId remaining (delta_state previous deltas) (delta_sets deltas).1 (delta_sets deltas).2)
    (mkDeltaGhost deltas false (mkSnapshotGhost None [])) delta_done.
Proof.
  revert deltas. induction remaining as [|remaining IH]; intros deltas Hl Hmore; cbn [delta_pages]; [done|].
  apply obeys_mbind, obeys_await; [split_and!; [done|done|cbn; lia|done]|].
  intros [delta|e] _.
  - change (watch delta_protocol _ _ _) with (mkDeltaGhost (deltas ++ [delta]) false (mkSnapshotGhost None [])).
    rewrite (surjective_pairing (apply_delta _ _ _)), <- delta_sets_snoc, <- (last_snoc_state deltas delta).
    destruct (jd_hasMoreChanges delta) eqn:Hd.
    + apply IH; [rewrite length_app; cbn; lia|]. apply Forall_app. by repeat constructor.
    + apply (fetch_delta_obeys _ delta); [apply last_snoc|done].
  - intros Hc. exists deltas. unfold delta_protocol, watch, delta_watch. cbn. by rewrite Hc.
Qed.

Lemma syncEmails_from_obeys :
  obeys delta_protocol (jmap_syncEmails accountId (Some previous)) delta_start
    (λ r g, match r with Return t => synchronised g t | Throw e => is_remote e end).
Proof.
  unfold jmap_syncEmails. apply obeys_try. eapply obeys_mono; [|apply (delta_pages_obeys MAX_DELTA_PAGES [])].
  - intros [t|e] g; [done|]. intros He. destruct (cannot_calculate e) eqn:Hc; [|by eexists].
    destruct (He Hc) as [deltas ->].
    eapply obeys_mono; [|apply fallback_obeys, completeEmailSnapshot_obeys].
    intros [t|e'] g' [Hf Hr]; [|done]. unfold synchronised. by rewrite Hf.
  - done.
  - constructor.
Qed.
End delta.

(** ** A JMAP server that does not change

    What RFC 8620 and RFC 8621 promise of a server between two changes: a query is a
    window of a fixed list under one state, never longer than the limit and empty only
    past the end; [Email/get] returns the emails asked for.  Against such a server the
    snapshot terminates, within the safety bounds of the code, with every email. *)

Open Scope string_scope.
Open Scope list_scope.
Open Scope js_scope.

Record JmapServer : Type := mkJmapServer {
  server_mailboxes : list JmapMailbox;
  (** The ids of a mailbox, in the order of the query. *)
  server_listing : string → list string;
  server_emails : list JmapEmail;
  (** The longest page the server gives. *)
  server_page : nat;
  server_state : string;
}.

Section server.
Context (server : JmapServer).

(** The window of a query from a position. *)
Definition window (mailboxId : string) (position : nat) : list string :=
  take server.(server_page) (drop position (server.(server_listing) mailboxId)).

Definition server_query (mailboxId : string) (options : option QueryOptions) : JmapQueryResult :=
  let position := match options with
                  | Some options => match options.(query_position) with Some (Int z) => Z.to_nat z | _ => 0%nat end
                  | None => 0%nat
                  end in
  mkJmapQueryResult (window mailboxId position) server.(server_state)
    (len (server.(server_listing) mailboxId)) (Int (Z.of_nat position)) false.

Definition server_get (ids : list string) : list JmapEmail :=
  List.filter (λ email, bool_decide (email.(je_id) ∈ ids)) server.(server_emails).

Definition server_answer X (c : JmapCall X) (u : unit) : outcome exn X * unit :=
  (match c in JmapCall X return outcome exn X with
   | GetMailboxes _ => Return (mkJmapMailboxesResult server.(server_mailboxes) server.(server_state))
   | QueryEmails _ mailboxId _ options => Return (server_query mailboxId options)
   | GetEmails _ ids => Return (mkJmapEmailsResult (server_get ids) server.(server_state))
   | _ => Throw (Error "not served")
   end, u).

(** A server the snapshot can read: pages of at least one id and at most the limit,
    mailboxes within the bound on pages, and every listed email there, once, valid. *)
Record server_ok : Prop := {
  ok_page : (1 <= server.(server_page) <= PAGE_SIZE)%nat;
  ok_listing m : m ∈ server.(server_mailboxes) →
    NoDup (server.(server_listing) m.(jm_id)) ∧
    (Z.of_nat (length (server.(server_listing) m.(jm_id))) <= 10000 * Z.of_nat server.(server_page))%Z;
  ok_emails : NoDup (List.map je_id server.(server_emails));
  ok_listed m id : m ∈ server.(server_mailboxes) → id ∈ server.(server_listing) m.(jm_id) →
    id ∈ List.map je_id server.(server_emails);
  ok_valid : Forall (λ e, ∃ r, mapJmapEmail e = Return r) server.(server_emails);
}.

Context (Hok : server_ok).

Lemma note_ids_fresh mailboxId ids seen account :
  NoDup (seen ++ ids) →
  note_ids mailboxId ids seen account =
    Return (seen ++ ids, fold_left (λ s x, set_add x s) ids account).
Proof. intros H. apply note_ids_return; [|done]. by apply NoDup_app in H as (H & _). Qed.

(** Reading from a position takes what is left of the mailbox. *)
Lemma query_pages_run accountId m remaining position expected account :
  m ∈ server.(server_mailboxes) →
  let listing := server.(server_listing) m.(jm_id) in
  (position <= length listing)%nat →
  (Z.of_nat (length listing - position) <= Z.of_nat remaining * Z.of_nat server.(server_page))%Z →
  (0 < remaining)%nat → (position < length listing ∨ position = 0)%nat →
  (∀ e, expected = Some e → e = (len listing, server.(server_state))) →
  run server_answer
    (query_pages accountId m.(jm_id) remaining (Int (Z.of_nat position)) expected
       (take position listing) account) tt =
    (Return (fold_left (λ s x, set_add x s) (drop position listing) account), tt).
Proof.
  intros Hm listing. destruct (ok_listing Hok m Hm) as [Hnd Hbound]. fold listing in Hnd, Hbound.
  destruct (ok_page Hok) as [Hpage1 Hpage]. unfold PAGE_SIZE in Hpage.
  revert position expected account.
  induction remaining as [|remaining IH]; intros position expected account Hpos Hleft Hrem Hstart Hexp; [lia|].
  cbn [query_pages]. rewrite run_await.
  cbn [server_answer]. unfold server_query. cbn [query_position page_options]. rewrite Nat2Z.id.
  fold server_answer. fold listing.
  assert (window m.(jm_id) position = take server.(server_page) (drop position listing)) as -> by done.
  set (ids := take server.(server_page) (drop position listing)).
  assert (length ids = Nat.min server.(server_page) (length listing - position)) as Hids
    by (unfold ids; by rewrite length_take, length_drop).
  assert (accept_page m.(jm_id) (Int (Z.of_nat position)) expected
    (mkJmapQueryResult ids server.(server_state) (len listing) (Int (Z.of_nat position)) false) =
    Return (len listing, server.(server_state))) as Haccept.
  { unfold accept_page. cbn [jq_total jq_position jq_ids jq_queryState].
    assert (isSafeInteger (len listing) = true) as ->.
    { apply isSafeInteger_spec. eexists. split; [done|]. unfold MAX_SAFE_INTEGER. lia. }
    unfold len. rewrite num_ltb_Int, num_eqb_Int, Z.eqb_refl.
    rewrite (proj2 (Z.ltb_ge _ _)) by lia. rewrite (proj2 (Nat.ltb_ge _ _)) by (unfold PAGE_SIZE; lia).
    cbn [negb orb throw_if mbind outcome_mbind outcome_bind].
    assert (default (Int (Z.of_nat (length listing)), server.(server_state)) expected =
            (Int (Z.of_nat (length listing)), server.(server_state))) as ->.
    { destruct expected as [e|]; [|done]. by rewrite (Hexp e eq_refl). }
    rewrite num_eqb_Int, Z.eqb_refl. by rewrite bool_decide_eq_true_2. }
  rewrite Haccept. cbn [of_outcome mbind prog_mbind prog_bind jq_ids jq_position jq_total].
  assert (take position listing ++ ids = take (position + server.(server_page)) listing) as Htake.
  { unfold ids. by rewrite take_take_drop. }
  rewrite note_ids_fresh.
  2: { rewrite Htake. eapply sublist_NoDup; [exact Hnd|apply sublist_take]. }
  cbn [of_outcome mbind prog_mbind prog_bind]. unfold len.
  rewrite num_add_exact by lia. rewrite num_leb_Int.
  destruct (Z.leb_spec (Z.of_nat (length listing)) (Z.of_nat position + Z.of_nat (length ids))) as [Hend|Hmore].
  - cbn [run]. unfold ids. rewrite take_ge; [done|]. rewrite length_drop. lia.
  - rewrite num_leb_Int. rewrite (proj2 (Z.leb_gt _ _)) by lia. cbn [throw_if of_outcome mbind prog_mbind prog_bind].
    destruct remaining as [|remaining]; [lia|]. rewrite bool_decide_eq_false_2 by done.
    cbn [throw_if of_outcome mbind prog_mbind prog_bind].
    rewrite <- Nat2Z.inj_add.
    assert (take (position + server.(server_page)) listing = take (position + length ids) listing) as Hsame.
    { f_equal. lia. }
    rewrite Htake, Hsame. rewrite IH; [|lia|lia|lia|left; lia|by intros e [= <-]].
    rewrite <- fold_left_app. do 3 f_equal. unfold ids at 1.
    rewrite <- (drop_drop _ (length ids) position).
    replace (take (server_page server) (drop position listing)) with (take (length ids) (drop position listing)).
    + apply take_drop.
    + rewrite Hids. destruct (Nat.min_spec (server_page server) (length listing - position)) as [[? ->]|[? ->]]; [done|].
      rewrite !take_ge; [done|rewrite length_drop; lia..].
Qed.

(** A loop that succeeds on each element and leaves the server alone. *)
Lemma run_for {A B} (l : list A) (f : B → A → jmap B) (g : B → A → B) (P : B → Prop) acc :
  P acc →
  (∀ acc x, x ∈ l → P acc → P (g acc x) ∧ run server_answer (f acc x) tt = (Return (g acc x), tt)) →
  run server_answer (prog_for l f acc) tt = (Return (fold_left g l acc), tt).
Proof.
  intros HP Hf. revert acc HP. induction l as [|x l IH]; intros acc HP; cbn [prog_for fold_left]; [done|].
  destruct (Hf acc x) as [HP' Hrun]; [by left|done|]. rewrite run_bind, Hrun. apply IH; [|done].
  intros. apply Hf; [by right|done].
Qed.

Lemma account_ids_run accountId :
  run server_answer (account_ids accountId server.(server_mailboxes)) tt =
    (Return (set_of_list (flat_map (λ m, server.(server_listing) m.(jm_id)) server.(server_mailboxes))), tt).
Proof.
  unfold account_ids.
  rewrite (run_for _ _ (λ acc m, fold_left (λ s x, set_add x s) (server.(server_listing) m.(jm_id)) acc)
             (λ _, True)); [|done|].
  - do 2 f_equal. unfold set_of_list. generalize (@set_new string).
    induction server.(server_mailboxes) as [|m l IH]; intros acc; cbn [fold_left flat_map]; [done|].
    by rewrite IH, fold_left_app.
  - intros acc m Hm _. split; [done|]. destruct (ok_listing Hok m Hm) as [_ Hb].
    pose proof (query_pages_run accountId m MAX_PAGES 0 None acc Hm) as H. cbv zeta in H.
    rewrite take_0, drop_0 in H. apply H.
    + lia.
    + unfold MAX_PAGES. rewrite Z2Nat.id by lia. lia.
    + unfold MAX_PAGES. lia.
    + by right.
    + done.
Qed.

Lemma take_expected_perm received expected emails :
  NoDup expected → expected ≡ₚ List.map je_id received →
  take_expected received expected emails = Return ([], emails ++ received).
Proof.
  revert expected emails. induction received as [|email received IH]; intros expected emails Hnd Hperm;
    cbn [take_expected List.map] in *.
  - apply Permutation_nil_r in Hperm as ->. by rewrite app_nil_r.
  - assert (email.(je_id) ∈ expected) as Hin by (rewrite Hperm; by left).
    rewrite (proj2 (set_has_spec _ _) Hin). cbn [negb throw_if mbind outcome_mbind outcome_bind].
    rewrite IH; [by rewrite <- app_assoc|by apply NoDup_set_delete|].
    apply (Permutation_cons_inv (a := email.(je_id))). by rewrite <- set_delete_perm.
Qed.

Lemma server_get_ids batch :
  NoDup batch → (∀ id, id ∈ batch → id ∈ List.map je_id server.(server_emails)) →
  List.map je_id (server_get batch) ≡ₚ batch.
Proof.
  intros Hnd Hin. apply NoDup_Permutation; [|done|].
  - unfold server_get. pose proof (ok_emails Hok) as H. revert H. clear Hin.
    induction server.(server_emails) as [|e l IH]; cbn [List.map List.filter]; [done|].
    intros [He Hl]%NoDup_cons. case_bool_decide; [|by apply IH]. cbn. constructor; [|by apply IH].
    intros H'. apply He. apply list_elem_of_In, in_map_iff in H' as (e' & Heq & H').
    apply filter_In in H' as [H' _]. rewrite <- Heq. by apply list_elem_of_In, in_map.
  - intros id. rewrite list_elem_of_In, in_map_iff. split.
    + intros (e & <- & He). apply filter_In in He as [_ He]. by apply bool_decide_eq_true in He.
    + intros Hid. specialize (Hin _ Hid). apply list_elem_of_In, in_map_iff in Hin as (e & <- & He).
      exists e. split; [done|]. apply filter_In. split; [done|]. by apply bool_decide_eq_true.
Qed.

Lemma fetchExactEmails_run accountId ids :
  NoDup ids → (∀ id, id ∈ ids → id ∈ List.map je_id server.(server_emails)) →
  ∃ emails, run server_answer (fetchExactEmails accountId ids true) tt =
      (Return (emails, server.(server_state)), tt) ∧
    List.map je_id emails ≡ₚ ids ∧ Forall (λ e, e ∈ server.(server_emails)) emails.
Proof.
  intros Hnd Hin. unfold fetchExactEmails. cbv zeta.
  set (batches := if bool_decide (ids = []) then [[]] else chunks ids PAGE_SIZE).
  assert (concat batches = ids ∧ batches ≠ []) as [Hconcat Hne].
  { unfold batches. case_bool_decide as Hids; [by subst|]. split.
    - apply chunks_from_concat; [|done]. unfold PAGE_SIZE. lia.
    - unfold chunks. by destruct ids. }
  clearbody batches.
  set (next := λ (acc : list JmapEmail * option string) batch, (acc.1 ++ server_get batch, Some server.(server_state))).
  assert (∀ batch, batch ∈ batches → NoDup batch ∧ ∀ id, id ∈ batch → id ∈ ids) as Hbatch.
  { intros batch Hb. apply list_elem_of_split in Hb as (before & after & ->). rewrite <- Hconcat in Hnd |- *.
    rewrite concat_app in *. cbn in *. apply NoDup_app in Hnd as (_ & _ & Hnd).
    apply NoDup_app in Hnd as (Hnd & _). split; [done|]. intros id Hid. apply elem_of_app. right.
    apply elem_of_app. by left. }
  rewrite run_mbind. rewrite (run_for _ _ next (λ acc, ∀ s, acc.2 = Some s → s = server.(server_state))); [|done|].
  - assert (∀ acc, fold_left next batches acc =
      (acc.1 ++ concat (List.map server_get batches), Some server.(server_state))) as Hfold.
    { clear Hconcat Hbatch. induction batches as [|b batches IH]; intros acc; [done|]. cbn [fold_left].
      destruct batches as [|b' batches]; [cbn; by rewrite app_nil_r|].
      rewrite IH by done. cbn. by rewrite <- app_assoc. }
    rewrite Hfold. cbn [fst snd app run default]. eexists. split; [done|]. split.
    + rewrite <- Hconcat at 1. clear Hfold Hne Hconcat. induction batches as [|b batches IH]; [done|].
      cbn [List.map concat]. rewrite map_app, IH by (intros; apply Hbatch; by right).
      destruct (Hbatch b) as [Hb1 Hb2]; [by left|]. rewrite server_get_ids by eauto. done.
    + apply Forall_forall. intros e He. apply list_elem_of_In, in_concat in He as (l & Hl & He).
      apply in_map_iff in Hl as (b & <- & _). apply filter_In in He as [He _]. by apply list_elem_of_In.
  - intros [emails state] batch Hb Hs. split; [by intros s [= <-]|]. cbn [fst snd] in *.
    rewrite run_await. cbn [server_answer]. fold server_answer. destruct (Hbatch batch Hb) as [Hb1 Hb2].
    unfold accept_batch. cbn [jes_state jes_emails].
    assert (default server.(server_state) state = server.(server_state)) as ->.
    { destruct state as [s|]; [by apply Hs|done]. }
    rewrite bool_decide_eq_true_2 by done. cbn [negb andb throw_if mbind outcome_mbind outcome_bind].
    rewrite set_of_list_id by done. rewrite take_expected_perm; [done|done|].
    symmetry. apply server_get_ids; eauto.
Qed.

(** Every email of the server maps. *)
Lemma server_emails_map emails :
  Forall (λ e, e ∈ server.(server_emails)) emails → ∃ mapped, mapM mapJmapEmail emails = Return mapped.
Proof.
  pose proof (ok_valid Hok) as Hvalid. rewrite Forall_forall in Hvalid.
  induction 1 as [|e l He _ [k IH]]; [by exists []|]. destruct (Hvalid e He) as [r Hr].
  exists (r :: k). by rewrite mapM_cons_outcome, Hr, IH.
Qed.

(** The ids of every mailbox of the account. *)
Definition server_ids : list string :=
  flat_map (λ m, server.(server_listing) m.(jm_id)) server.(server_mailboxes).

Lemma complete_run accountId :
  ∃ emails,
    run server_answer (completeEmailSnapshot accountId) tt =
      (Return (RemoteReplace server.(server_state) emails), tt) ∧
    NoDup (List.map r_email_id emails) ∧
    ∀ id, id ∈ List.map r_email_id emails ↔ id ∈ server_ids.
Proof.
  unfold completeEmailSnapshot. rewrite run_try, run_await. cbn [server_answer]. fold server_answer.
  cbn [jms_mailboxes]. rewrite run_mbind, account_ids_run. fold server_ids. rewrite run_mbind.
  destruct (fetchExactEmails_run accountId (set_of_list server_ids)) as (emails & -> & Hids & Hall).
  { apply set_of_list_NoDup. }
  { intros id Hid. rewrite set_of_list_elem in Hid. apply list_elem_of_In, in_flat_map in Hid as (m & Hm & Hid).
    apply list_elem_of_In in Hm, Hid. by eapply ok_listed. }
  destruct (server_emails_map _ Hall) as [mapped Hmapped].
  pose proof (mapJmapEmail_ids _ _ Hmapped) as Hsame.
  assert (NoDup (List.map r_email_id mapped)) as Hnd.
  { rewrite Hsame, Hids. apply set_of_list_NoDup. }
  assert (replacement emails server.(server_state) = Return (RemoteReplace server.(server_state) mapped)) as ->.
  { unfold replacement. rewrite Hmapped. cbn [mbind outcome_mbind outcome_bind].
    by apply remote_transition_check_iff. }
  exists mapped. split_and!; [done|done|]. intros id. rewrite Hsame, Hids. apply set_of_list_elem.
Qed.
End server.
