(* ===== verification/JmapWire.v ===== *)
(** * Under the JMAP client: jmap/mail/types-raw.ts, jmap/transport/http.ts, jmap/session.ts

    What goes over the network.  [WireCall] is a request of the jmap-jam library or of
    [fetch], answered with data of the declared raw types; a field the code reads with a
    default is an [option], [None] for [undefined] and [null].  The maps are the own
    properties of the objects, in their order. *)

Set Warnings "-register-all".
From S2P Require Import Prelude.
From S2P Require Import JsNumber.
From S2P Require Import JsString.
From S2P Require Import JsCollections.
From S2P Require Import Errors.
From S2P Require Import DomainIds.
From S2P Require Import Remote.
From S2P Require Import Prog.
From S2P Require Import Json.
From S2P Require Import JsText.
From S2P Require Import JmapTypes.
From Stdlib Require Import ZArith.
Open Scope string_scope.
Open Scope list_scope.
Open Scope js_scope.

(** [value || fallback] on a nullable string. *)
Definition or_string (value : option string) (fallback : string) : string :=
  match value with Some s => if is_empty s then fallback else s | None => fallback end.
(** The truth of a nullable string. *)
Definition truthy (value : option string) : bool :=
  match value with Some s => negb (is_empty s) | None => false end.

(** ** jmap/mail/types-raw.ts *)

Record RawJmapMailboxRights : Type := mkRawRights {
  rr_mayReadItems : option bool;
  rr_mayAddItems : option bool;
  rr_mayRemoveItems : option bool;
  rr_maySetSeen : option bool;
  rr_maySetKeywords : option bool;
  rr_maySubmit : option bool;
}.

Record RawJmapMailbox : Type := mkRawMailbox {
  rm_id : string;
  rm_name : string;
  rm_parentId : option string;
  rm_role : option string;
  rm_sortOrder : option number;
  rm_totalEmails : option number;
  rm_unreadEmails : option number;
  rm_myRights : option RawJmapMailboxRights;
}.

Definition RawJmapEmailAddress : Type := EmailAddress.

Record RawJmapEmail : Type := mkRawEmail {
  re_id : option string;
  re_blobId : option string;
  re_threadId : option string;
  re_sender : option (list RawJmapEmailAddress);
  re_from : option (list RawJmapEmailAddress);
  re_replyTo : option (list RawJmapEmailAddress);
  re_to : option (list RawJmapEmailAddress);
  re_cc : option (list RawJmapEmailAddress);
  re_bcc : option (list RawJmapEmailAddress);
  re_subject : option string;
  re_sentAt : option string;
  re_receivedAt : option string;
  re_size : option number;
  re_preview : option string;
  re_hasAttachment : option bool;
  re_keywords : option (jsmap string bool);
  re_mailboxIds : option (jsmap string bool);
}.

(** jmap/mail/identity.ts *)
Record RawJmapIdentity : Type := mkRawIdentity {
  ri_id : string;
  ri_name : option string;
  ri_email : option string;
  ri_replyTo : option (list RawJmapEmailAddress);
  ri_bcc : option (list RawJmapEmailAddress);
  ri_textSignature : option string;
  ri_htmlSignature : option string;
}.

Record RawJmapQueryResponse : Type := mkRawQueryResponse {
  rq_queryState : option string;
  rq_canCalculateChanges : option bool;
  rq_position : option number;
  rq_ids : option (list string);
  rq_total : option number;
}.

(** [rc_cannotCalculate]: whether the response has a property [cannotCalculateChanges]. *)
Record RawJmapChangesResponse : Type := mkRawChanges {
  rc_oldState : string;
  rc_newState : string;
  rc_hasMoreChanges : bool;
  rc_created : option (list string);
  rc_updated : option (list string);
  rc_destroyed : option (list string);
  rc_cannotCalculate : bool;
}.

Record RawJmapSetError : Type := mkRawSetError {
  se_type : option string;
  se_description : option string;
}.

Inductive RawJmapEmailBodyPart : Type := mkBodyPart {
  part_partId : option string;
  part_blobId : option string;
  part_size : option number;
  part_name : option string;
  part_type : string;
  part_disposition : option string;
  part_cid : option string;
  part_subParts : option (list RawJmapEmailBodyPart);
}.

Record RawJmapEmailBodyValue : Type := mkBodyValue {
  value_value : option string;
  value_isEncodingProblem : option bool;
  value_isTruncated : option bool;
}.

(** The email of [Email/get] with [bodyStructure] and [bodyValues]. *)
Record RawJmapBody : Type := mkRawBody {
  raw_bodyStructure : option RawJmapEmailBodyPart;
  raw_bodyValues : option (jsmap string RawJmapEmailBodyValue);
}.

(** The [list] and the [state] of a [get] response. *)
Record RawGetResponse (A : Type) : Type := mkRawGet {
  get_list : option (list A);
  get_state : option string;
}.
Arguments mkRawGet {A} get_list get_state.
Arguments get_list {A} r.
Arguments get_state {A} r.

(** ** Raw method calls *)

(** The email [submitEmail] creates. *)
Record RawEmailCreate : Type := mkRawEmailCreate {
  create_mailboxIds : jsmap string bool;
  create_from : list (string * string);
  create_to : list (string * string);
  create_cc : list (string * string);
  create_bcc : list (string * string);
  create_replyTo : list (string * string);
  create_subject : string;
  create_bodyValues : jsmap string string;
  create_textBody : list string;
  create_htmlBody : list string;
}.

Inductive MethodArguments : Type :=
| QueryRole (accountId role : string) (limit : number)
| SetKeywords (accountId emailId : string) (keywords : jsmap string bool)
| SetMailboxIds (accountId emailId : string) (mailboxIds : jsmap string bool)
| CreateEmail (accountId creationId : string) (email : RawEmailCreate)
| CreateSubmission (accountId creationId emailId identityId : string)
| QueryChanges (accountId inMailbox sinceQueryState : string)
| QueryBy (accountId : string) (filter : jsmap string json) (options : QueryOptions)
(** ['#ids': { resultOf, name, path }]. *)
| GetResultOf (accountId : string) (resultOf name path : string) (properties : list string).

(** [[name, arguments, callId]]. *)
Definition MethodCall : Type := string * MethodArguments * string.

(** The fields that are read of the arguments of a response, whatever its method. *)
Record RawMethodResult : Type := mkMethodResult {
  result_type : option string;
  result_ids : option (list string);
  result_created : option (jsmap string (option string));
  result_notCreated : option (jsmap string RawJmapSetError);
  result_notUpdated : option (jsmap string RawJmapSetError);
  result_oldQueryState : option string;
  result_newQueryState : option string;
  result_added : option (list (string * number));
  result_removed : option (list string);
  result_total : option number;
  result_list : option (list RawJmapEmail);
}.

(** [{}]. *)
Definition no_result : RawMethodResult := mkMethodResult None None None None None None None None None None None.

Definition MethodResponse : Type := string * RawMethodResult * string.

(** [responses.find((entry) => entry[2] === callId)?.[1]]. *)
Definition response_to (callId : string) (responses : list MethodResponse) : option RawMethodResult :=
  (λ entry, entry.1.2) <$> List.find (λ entry, entry.2 === callId) responses.

(** ** The network *)

Inductive AuthConfig : Type := Bearer (token : string) | Basic (token : string).

(** [response_json]: what [response.json()] gives. *)
Record HttpResponse (A : Type) : Type := mkHttpResponse {
  response_status : Z;
  response_json : outcome exn A;
}.
Arguments mkHttpResponse {A} response_status response_json.
Arguments response_status {A} h.
Arguments response_json {A} h.

(** [response.ok]. *)
Definition response_ok {A} (response : HttpResponse A) : bool :=
  (200 <=? response.(response_status))%Z && (response.(response_status) <=? 299)%Z.

(** The session object, read field by field. *)
Record RawSession : Type := mkRawSession {
  rs_primaryAccounts : option (jsmap string string);
  (** The keys of [accounts] whose value is truthy. *)
  rs_accounts : option (list string);
  rs_apiUrl : option string;
  rs_downloadUrl : option string;
  rs_uploadUrl : option string;
  rs_eventSourceUrl : option string;
  rs_capabilities : option (jsmap string json);
}.

Inductive WireCall : Type → Type :=
(** [fetch(url, { headers })]; a session that is [null] is [None]. *)
| FetchSession (url : string) (headers : jsmap string string) : WireCall (HttpResponse (option RawSession))
(** [fetch(apiUrl, { method: 'POST', headers, body })]; [None] when [methodResponses] is
    no array. *)
| FetchMethods (apiUrl : string) (headers : jsmap string string) (capabilities : list string)
    (methodCalls : list MethodCall) : WireCall (HttpResponse (option (list MethodResponse)))
(** [jam.request] of one method. *)
| JamMailboxGet (accountId : string) : WireCall (RawGetResponse RawJmapMailbox)
| JamIdentityGet (accountId : string) : WireCall (RawGetResponse RawJmapIdentity)
| JamEmailGet (accountId : string) (ids : list string) (properties : list string) :
    WireCall (RawGetResponse RawJmapEmail)
| JamBodyGet (accountId : string) (ids : list string) (properties : list string) :
    WireCall (RawGetResponse RawJmapBody)
| JamEmailQuery (accountId : string) (filter : jsmap string json) (options : QueryOptions) :
    WireCall RawJmapQueryResponse
| JamEmailChanges (accountId sinceState : string) : WireCall RawJmapChangesResponse.

Abbreviation wire := (prog WireCall).

(** ** jmap/errors.ts: [throwJmapRequestError]

    What the library or [fetch] rejects with is outside the source: [rejection_status] is
    its [status ?? statusCode] when it is an object, [rejection_detail] its message, itself
    when it is a string, or its JSON form, [rejection_text] its message or its [String]. *)
Class Rejections : Type := {
  rejection_status : exn → option Z;
  rejection_detail : exn → string;
  rejection_text : exn → string;
}.

Definition jmap_message (error : JmapFailure) : string :=
  match error with
  | JmapAuthError message | JmapNetworkError message | JmapSubmissionAmbiguousError message
  | JmapMethodError _ _ message => message
  end.

(** [/(?:^|\D)(?:401|403)(?:\D|$)/]: one of the codes between characters that are no
    digits. *)
Definition starts_with_digit (s : string) : bool :=
  match s with String c _ => is_digit c | EmptyString => false end.
Fixpoint has_auth_code (after_digit : bool) (s : string) : bool :=
  match s with
  | EmptyString => false
  | String c rest =>
      negb after_digit && (startsWith s "401" || startsWith s "403") &&
        negb (starts_with_digit (String.substring 3 (String.length s) s)) ||
      has_auth_code (is_digit c) rest
  end.

(** The regular expression of [throwJmapRequestError], its words without regard to case. *)
Definition mentions_auth (detail : string) : bool :=
  has_auth_code false detail ||
  contains "unauthorized" (toLowerCase detail) || contains "unauthorised" (toLowerCase detail) ||
  contains "forbidden" (toLowerCase detail).

Section wire.
Context {rejections : Rejections}.

Definition error_detail (error : exn) : string :=
  match error with ThrownJmapError error => jmap_message error | _ => rejection_detail error end.
Definition error_text (error : exn) : string :=
  match error with ThrownJmapError error => jmap_message error | _ => rejection_text error end.

(** What is thrown in place of [error]. *)
Definition jmap_request_error (method : string) (error : exn) : exn :=
  match error with
  | ThrownJmapError (JmapAuthError _) => error
  | _ =>
      if bool_decide (rejection_status error ∈ [Some 401%Z; Some 403%Z]) || mentions_auth (error_detail error)
      then ThrownJmapError (JmapAuthError ("Authentication failed during " +:+ method))
      else ThrownJmapError (JmapMethodError method "networkOrServerFail" (error_detail error))
  end.

(** [try { await call } catch (err) { throwJmapRequestError(method, err) }]. *)
Definition jam_request {A} (method : string) (call : WireCall A) : wire A :=
  prog_try (await call) (λ error, Raise (jmap_request_error method error)).

(** ** jmap/transport/http.ts *)

Definition authorization (auth : AuthConfig) : string :=
  match auth with
  | Basic token => "Basic " +:+ btoa token
  | Bearer token => "Bearer " +:+ token
  end.

Definition network_error (message : string) : exn := ThrownJmapError (JmapNetworkError message).
Definition auth_error (status : Z) : exn :=
  ThrownJmapError (JmapAuthError ("Authentication failed with status " +:+ pretty status)).
Definition method_error (method type message : string) : exn :=
  ThrownJmapError (JmapMethodError method type message).

Definition refused_status (status : Z) : bool := (status =? 401)%Z || (status =? 403)%Z.

(** [createAuthenticatedFetch(baseUrl, auth)], for the one kind of request made through
    it. *)
Definition authenticated_fetch (baseUrl : string) (auth : AuthConfig) (url : string)
    (headers : jsmap string string) : wire (HttpResponse (option RawSession)) :=
  if negb (startsWith url baseUrl) then await (FetchSession url headers)
  else
    response ← prog_try (await (FetchSession url (map_set "Authorization" (authorization auth) headers)))
                 (λ _, Raise (network_error "Network error during JMAP request"));
    if refused_status response.(response_status) then Raise (auth_error response.(response_status))
    else Ret response.

Definition standard_using : list string :=
  ["urn:ietf:params:jmap:core"; "urn:ietf:params:jmap:mail"; "urn:ietf:params:jmap:submission"].

Definition fetchJmapRaw (apiUrl : string) (auth : AuthConfig) (methodCalls : list MethodCall) :
    wire (list MethodResponse) :=
  response ← prog_try
    (await (FetchMethods apiUrl [("Content-Type", "application/json"); ("Authorization", authorization auth)]
              standard_using methodCalls))
    (λ _, Raise (network_error "Network error during JMAP batch request"));
  if refused_status response.(response_status) then Raise (auth_error response.(response_status))
  else if negb (response_ok response)
  then Raise (network_error ("JMAP batch request failed with status " +:+ pretty response.(response_status)))
  else
    match response.(response_json) with
    | Throw _ => Raise (network_error "Failed to parse JMAP batch response as JSON")
    | Return None => Raise (network_error "JMAP batch response is missing methodResponses")
    | Return (Some methodResponses) => Ret methodResponses
    end.

(** ** jmap/session.ts *)

Definition URN_MAIL : string := "urn:ietf:params:jmap:mail".
Definition URN_WEBSOCKET : string := "urn:ietf:params:jmap:websocket".

(** What follows [response.json()]. *)
Definition session_of_raw (raw : option RawSession) : outcome exn JmapSession :=
  match raw with
  | None => Throw (method_error "openSession" "invalidSession" "Failed to retrieve JMAP session object.")
  | Some session =>
      let primaryAccounts := default map_new session.(rs_primaryAccounts) in
      let mailAccountId := or_string (map_get URN_MAIL primaryAccounts) "" in
      throw_if (is_empty mailAccountId)
        (method_error "openSession" "missingCapability"
           "Server does not support JMAP Mail or no primary account configured.");;
      throw_if (negb (bool_decide (mailAccountId ∈ default [] session.(rs_accounts))))
        (method_error "openSession" "invalidSession"
           ("Primary account " +:+ mailAccountId +:+ " not found in session.accounts."));;
      throw_if (negb (truthy session.(rs_apiUrl) && truthy session.(rs_downloadUrl) &&
                      truthy session.(rs_uploadUrl) && truthy session.(rs_eventSourceUrl)))
        (method_error "openSession" "invalidSession" "Server returned empty URLs for essential endpoints (apiUrl, downloadUrl, uploadUrl, or eventSourceUrl).");;
      let capabilities := default map_new session.(rs_capabilities) in
      Return {|
        jse_apiUrl := or_string session.(rs_apiUrl) "";
        jse_downloadUrl := or_string session.(rs_downloadUrl) "";
        jse_uploadUrl := or_string session.(rs_uploadUrl) "";
        jse_eventSourceUrl := or_string session.(rs_eventSourceUrl) "";
        jse_webSocketUrl :=
          match map_get URN_WEBSOCKET capabilities with
          | Some (JObject fields) =>
              match get_field "url" fields with Some (JString url) => Some url | _ => None end
          | _ => None
          end;
        jse_primaryAccounts := primaryAccounts;
        jse_capabilities := capabilities |}
  end.

Definition discoverSession (sessionUrl : string) (auth : AuthConfig) : wire JmapSession :=
  response ← prog_try (authenticated_fetch sessionUrl auth sessionUrl [("Accept", "application/json")])
    (λ error,
      match error with
      | ThrownJmapError (JmapAuthError _ | JmapNetworkError _) => Raise error
      | _ => Raise (network_error "Network error during JMAP session discovery")
      end);
  if negb (response_ok response)
  then Raise (method_error "openSession" "networkOrServerFail"
                ("Session discovery failed with status " +:+ pretty response.(response_status)))
  else
    match response.(response_json) with
    | Throw _ => Raise (method_error "openSession" "invalidSession" "Failed to parse the JMAP session response as JSON.")
    | Return raw => of_outcome (session_of_raw raw)
    end.
End wire.
