(* ===== verification/JmapClient.v ===== *)
(** * The JMAP client: jmap/mail/*.ts, jmap/normalizers/*.ts, jmap/adapter.ts

    [JamClientAdapter] implements the port [JmapCall] by requests of [JmapWire.WireCall]:
    one definition per function of jmap/mail, and [jmap_client] for the adapter, so that
    the remote mail of [JmapRemoteMail] can be run over the network. *)

Set Warnings "-register-all".
From S2P Require Import Prelude.
From S2P Require Import JsNumber.
From S2P Require Import JsString.
From S2P Require Import JsCollections.
From S2P Require Import Errors.
From S2P Require Import DomainIds.
From S2P Require Import SendIntent.
From S2P Require Import Remote.
From S2P Require Import Prog.
From S2P Require Import Json.
From S2P Require Import JmapTypes.
From S2P Require Import JmapWire.
From Stdlib Require Import ZArith.
Open Scope string_scope.
Open Scope list_scope.
Open Scope js_scope.

Section client.
Context {rejections : Rejections}.

(** ** jmap/mail/mailbox.ts *)

Definition raw_right (read : RawJmapMailboxRights → option bool) (raw : RawJmapMailbox) : bool :=
  match raw.(rm_myRights) with Some rights => default false (read rights) | None => false end.

Definition map_raw_mailbox (raw : RawJmapMailbox) : JmapMailbox :=
  {| jm_id := raw.(rm_id);
     jm_name := raw.(rm_name);
     jm_parent := raw.(rm_parentId);
     jm_role := raw.(rm_role);
     jm_sortOrder := default (Int 0) raw.(rm_sortOrder);
     jm_totalEmails := default (Int 0) raw.(rm_totalEmails);
     jm_unreadEmails := default (Int 0) raw.(rm_unreadEmails);
     jm_rights := {|
       r_mayReadItems := raw_right rr_mayReadItems raw;
       r_mayAddItems := raw_right rr_mayAddItems raw;
       r_mayRemoveItems := raw_right rr_mayRemoveItems raw;
       r_maySetSeen := raw_right rr_maySetSeen raw;
       r_maySetKeywords := raw_right rr_maySetKeywords raw;
       r_maySubmit := raw_right rr_maySubmit raw |} |}.

Definition getMailboxes (accountId : string) : wire JmapMailboxesResult :=
  response ← jam_request "Mailbox/get" (JamMailboxGet accountId);
  Ret {| jms_mailboxes := List.map map_raw_mailbox (default [] response.(get_list));
         jms_state := default "" response.(get_state) |}.

(** ** jmap/mail/identity.ts *)

(** [mapAddresses], here and in email-get.ts: [null] for an empty list. *)
Definition map_raw_addresses (raw : option (list RawJmapEmailAddress)) : JmapEmailAddressList :=
  match raw with
  | None | Some [] => None
  | Some addresses => Some (List.map (λ addr, {| address_name := addr.(address_name); address_email := addr.(address_email) |}) addresses)
  end.

Definition map_raw_identity (raw : RawJmapIdentity) : JmapIdentity :=
  {| ji_id := raw.(ri_id);
     ji_name := or_string raw.(ri_name) "";
     ji_email := or_string raw.(ri_email) "";
     ji_replyTo := map_raw_addresses raw.(ri_replyTo);
     ji_bcc := map_raw_addresses raw.(ri_bcc);
     ji_htmlSignature := or_string raw.(ri_htmlSignature) "";
     ji_textSignature := or_string raw.(ri_textSignature) "" |}.

Definition getIdentities (accountId : string) : wire JmapIdentitiesResult :=
  response ← jam_request "Identity/get" (JamIdentityGet accountId);
  Ret {| jis_identities := List.map map_raw_identity (default [] response.(get_list));
         jis_state := default "" response.(get_state) |}.

(** ** jmap/mail/email-get.ts *)

Definition EMAIL_PROPERTIES : list string :=
  ["id"; "blobId"; "threadId"; "sender"; "from"; "replyTo"; "to"; "cc"; "bcc"; "subject"; "sentAt";
   "receivedAt"; "size"; "preview"; "hasAttachment"; "keywords"; "mailboxIds"].

(** The ids a mailbox set maps to [true]. *)
Definition true_mailboxes (raw : RawJmapEmail) : list string :=
  let ids := default map_new raw.(re_mailboxIds) in
  List.filter (λ id, bool_decide (map_get id ids = Some true)) ids.*1.

Definition safe_size (size : option number) : number :=
  match size with
  | Some size => if isSafeInteger size && num_leb (Int 0) size then size else Int 0
  | None => Int 0
  end.

Definition validateAndMapEmail (raw : RawJmapEmail) : option JmapEmail :=
  match raw.(re_id), raw.(re_blobId), raw.(re_threadId), raw.(re_receivedAt) with
  | Some id, Some blobId, Some threadId, Some receivedAt =>
      if is_empty id || is_empty blobId || is_empty threadId then None
      else if is_empty receivedAt then None
      else
        match true_mailboxes raw with
        | [] => None
        | mailboxIds => Some {|
            je_id := id; je_blobId := blobId; je_threadId := threadId;
            je_sender := map_raw_addresses raw.(re_sender);
            je_from := map_raw_addresses raw.(re_from);
            je_replyTo := map_raw_addresses raw.(re_replyTo);
            je_to := map_raw_addresses raw.(re_to);
            je_cc := map_raw_addresses raw.(re_cc);
            je_bcc := map_raw_addresses raw.(re_bcc);
            je_subject := raw.(re_subject);
            je_sentAt := raw.(re_sentAt);
            je_receivedAt := receivedAt;
            je_size := safe_size raw.(re_size);
            je_preview := default "" raw.(re_preview);
            je_hasAttachment := default false raw.(re_hasAttachment);
            je_keywords := default map_new raw.(re_keywords);
            je_mailboxIds := mailboxIds |}
        end
  | _, _, _, _ => None
  end.

Definition getEmails (accountId : string) (emailIds : list string) : wire JmapEmailsResult :=
  response ← jam_request "Email/get" (JamEmailGet accountId emailIds EMAIL_PROPERTIES);
  Ret {| jes_emails := omap validateAndMapEmail (default [] response.(get_list));
         jes_state := default "" response.(get_state) |}.

(** ** jmap/mail/email-query.ts *)

Fixpoint index_keys (n : nat) (values : list json) : jsmap string json :=
  match values with
  | [] => map_new
  | value :: values => (pretty n, value) :: index_keys (S n) values
  end.

(** [{ inMailbox: mailboxId, ...filter }] when [filter] is an object. *)
Definition query_filter (mailboxId : string) (filter : option json) : jsmap string json :=
  let spread := fold_left (λ m '(key, value), map_set key value m) in
  let base := map_set "inMailbox" (JString mailboxId) map_new in
  match filter with
  | Some (JObject fields) => spread fields base
  | Some (JArray values) => spread (index_keys 0 values) base
  | _ => base
  end.

Definition no_options : QueryOptions := mkRemoteQueryOptions None None None None.

Definition queryEmails (accountId mailboxId : string) (filter : option json) (options : option QueryOptions) :
    wire JmapQueryResult :=
  response ← jam_request "Email/query"
    (JamEmailQuery accountId (query_filter mailboxId filter) (default no_options options));
  Ret {| jq_ids := default [] response.(rq_ids);
         jq_queryState := or_string response.(rq_queryState) "";
         jq_total := default (Int 0) response.(rq_total);
         jq_position := default (Int 0) response.(rq_position);
         jq_canCalculateChanges := default false response.(rq_canCalculateChanges) |}.

(** ** jmap/mail/email-changes.ts *)

Definition getEmailChanges (accountId sinceState : string) : wire JmapDelta :=
  response ← jam_request "Email/changes" (JamEmailChanges accountId sinceState);
  if response.(rc_cannotCalculate)
  then Raise (method_error "Email/changes" "cannotCalculateChanges" "Server cannot calculate changes from this state.")
  else
    Ret {| jd_accountId := accountId;
           jd_oldState := response.(rc_oldState);
           jd_newState := response.(rc_newState);
           jd_hasMoreChanges := response.(rc_hasMoreChanges);
           jd_created := default [] response.(rc_created);
           jd_updated := default [] response.(rc_updated);
           jd_destroyed := default [] response.(rc_destroyed) |}.

(** ** jmap/mail/email-query-changes.ts *)

(** [try { await fetchJmapRaw(...) } catch (err) { throw new JmapMethodError(...) }]. *)
Definition fetch_or_fail (method apiUrl : string) (auth : AuthConfig) (methodCalls : list MethodCall) :
    wire (list MethodResponse) :=
  prog_try (fetchJmapRaw apiUrl auth methodCalls)
    (λ error, Raise (method_error method "networkOrServerFail" (error_text error))).

Definition getEmailQueryChanges (apiUrl : string) (auth : AuthConfig) (accountId mailboxId sinceQueryState : string) :
    wire JmapQueryChanges :=
  methodResponses ← fetch_or_fail "Email/queryChanges" apiUrl auth
    [("Email/queryChanges", QueryChanges accountId mailboxId sinceQueryState, "qc1")];
  match response_to "qc1" methodResponses with
  | None => Raise (method_error "Email/queryChanges" "invalidResponse" "No response for Email/queryChanges")
  | Some result =>
      if bool_decide (result.(result_type) = Some "cannotCalculateChanges")
      then Raise (method_error "Email/queryChanges" "cannotCalculateChanges"
                    "Server cannot calculate query changes from this state.")
      else
        Ret {| jqc_accountId := accountId;
               jqc_oldQueryState := or_string result.(result_oldQueryState) sinceQueryState;
               jqc_newQueryState := or_string result.(result_newQueryState) "";
               jqc_added := default [] result.(result_added);
               jqc_removed := default [] result.(result_removed);
               jqc_total := default (Int 0) result.(result_total) |}
  end.

(** ** jmap/mail/mutations.ts *)

(** The two functions differ in the property they set and in two messages. *)
Definition set_email (apiUrl : string) (auth : AuthConfig) (emailId : string) (update : MethodArguments)
    (mismatch failure : string) : wire unit :=
  methodResponses ← fetch_or_fail "Email/set" apiUrl auth [("Email/set", update, "e1")];
  let result := default no_result (response_to "e1" methodResponses) in
  match map_get emailId (default map_new result.(result_notUpdated)) with
  | None => Ret tt
  | Some errorDetails =>
      if bool_decide (errorDetails.(se_type) = Some "stateMismatch")
      then Raise (method_error "Email/set" "stateMismatch" (or_string errorDetails.(se_description) mismatch))
      else Raise (method_error "Email/set" (or_string errorDetails.(se_type) "unknown")
                    (or_string errorDetails.(se_description) failure))
  end.

Definition patchEmailKeywords (apiUrl : string) (auth : AuthConfig) (accountId emailId : string)
    (keywords : jsmap string bool) : wire unit :=
  set_email apiUrl auth emailId (SetKeywords accountId emailId keywords)
    "State mismatch when updating keywords" "Failed to update keywords".

Definition patchEmailMailboxes (apiUrl : string) (auth : AuthConfig) (accountId emailId : string)
    (mailboxIds : jsmap string bool) : wire unit :=
  set_email apiUrl auth emailId (SetMailboxIds accountId emailId mailboxIds)
    "State mismatch when updating mailboxes" "Failed to update mailboxes".

(** ** jmap/mail/submission.ts *)

Definition formatAddresses : list JmapEmailAddress → list (string * string) :=
  List.map (λ addr, (or_string addr.(address_name) "", addr.(address_email))).

(** A body part of the draft, when there is text for it. *)
Definition draft_part (partId : string) (text : option string) : list (string * string) :=
  if truthy text then [(partId, or_string text "")] else [].

Definition email_to_create (draftsMailboxId : string) (draft : JmapEmailDraft) : RawEmailCreate :=
  let text := draft_part "t1" draft.(jdr_textBody) in
  let html := draft_part "h1" draft.(jdr_htmlBody) in
  {| create_mailboxIds := map_set draftsMailboxId true map_new;
     create_from := formatAddresses draft.(jdr_from);
     create_to := formatAddresses draft.(jdr_to);
     create_cc := formatAddresses draft.(jdr_cc);
     create_bcc := formatAddresses draft.(jdr_bcc);
     create_replyTo := formatAddresses draft.(jdr_replyTo);
     create_subject := draft.(jdr_subject);
     create_bodyValues := text ++ html;
     create_textBody := text.*1;
     create_htmlBody := html.*1 |}.

(** Step 1: [mbxResult[0][1]] throws a [TypeError] when there is no response. *)
Definition drafts_query (apiUrl : string) (auth : AuthConfig) (accountId : string) : wire (list string) :=
  prog_try
    (mbxResult ← fetchJmapRaw apiUrl auth [("Mailbox/query", QueryRole accountId "drafts" (Int 1), "m1")];
     match mbxResult with
     | (_, result, _) :: _ => Ret (default [] result.(result_ids))
     | [] => Raise (TypeError "Cannot read properties of undefined")
     end)
    (λ error,
      match error with
      | ThrownJmapError (JmapAuthError _) => Raise error
      | _ => Raise (method_error "Mailbox/query" "networkOrServerFail" (error_text error))
      end).

(** Step 3: the batch. *)
Definition submission_batch (apiUrl : string) (auth : AuthConfig) (accountId draftsMailboxId : string)
    (draft : JmapEmailDraft) (rawIdentityId : string) : wire (list MethodResponse) :=
  prog_try
    (fetchJmapRaw apiUrl auth
       [("Email/set", CreateEmail accountId "draft1" (email_to_create draftsMailboxId draft), "e1");
        ("EmailSubmission/set", CreateSubmission accountId "sub1" "#draft1" rawIdentityId, "s1")])
    (λ error,
      match error with
      | ThrownJmapError (JmapAuthError _) => Raise error
      | ThrownJmapError (JmapNetworkError _) =>
          Raise (ThrownJmapError (JmapSubmissionAmbiguousError
                   "Submission outcome is unknown after a transport failure"))
      | _ => Raise (method_error "Email/set+EmailSubmission/set" "networkOrServerFail" (error_text error))
      end).

Definition not_created (creationId : string) (result : RawMethodResult) : option RawJmapSetError :=
  map_get creationId (default map_new result.(result_notCreated)).
Definition created_id (creationId : string) (result : RawMethodResult) : string :=
  match map_get creationId (default map_new result.(result_created)) with
  | Some id => or_string id ""
  | None => ""
  end.

(** What the responses of the batch come to. *)
Definition submission_answer (batchResponse : list MethodResponse) : outcome exn (string * string) :=
  let emailSetResponse := default no_result (response_to "e1" batchResponse) in
  let subSetResponse := default no_result (response_to "s1" batchResponse) in
  match not_created "draft1" emailSetResponse with
  | Some refused =>
      if bool_decide (refused.(se_type) = Some "tooLarge")
      then Throw (method_error "Email/set" "tooLarge" (or_string refused.(se_description) "Email is too large"))
      else Throw (method_error "Email/set" (or_string refused.(se_type) "unknown")
                    (or_string refused.(se_description) "Failed to create email draft"))
  | None =>
      match not_created "sub1" subSetResponse with
      | Some refused =>
          Throw (method_error "EmailSubmission/set" (or_string refused.(se_type) "unknown")
                   (or_string refused.(se_description) "Failed to submit email"))
      | None =>
          let createdEmailId := created_id "draft1" emailSetResponse in
          let createdSubId := created_id "sub1" subSetResponse in
          if is_empty createdEmailId || is_empty createdSubId
          then Throw (method_error "EmailSubmission/set" "unknown" "Server returned success but missing IDs")
          else Return (createdEmailId, createdSubId)
      end
  end.

Definition submitEmail (apiUrl : string) (auth : AuthConfig) (accountId : string) (draft : JmapEmailDraft)
    (rawIdentityId : string) : wire (string * string) :=
  mailboxIds ← drafts_query apiUrl auth accountId;
  match mailboxIds with
  | [] => Raise (method_error "Mailbox/query" "notFound" "Drafts mailbox not found")
  | draftsMailboxId :: _ =>
      batchResponse ← submission_batch apiUrl auth accountId draftsMailboxId draft rawIdentityId;
      of_outcome (submission_answer batchResponse)
  end.

(** ** jmap/mail/batching.ts *)

Definition queryAndGetEmails (apiUrl : string) (auth : AuthConfig) (accountId mailboxId : string)
    (filter : option json) (options : option QueryOptions) : wire (list JmapEmail) :=
  response ← fetch_or_fail "Email/query+get" apiUrl auth
    [("Email/query", QueryBy accountId (query_filter mailboxId filter) (default no_options options), "q1");
     ("Email/get", GetResultOf accountId "q1" "Email/query" "/ids" EMAIL_PROPERTIES, "g1")];
  let requestResult := default no_result (response_to "g1" response) in
  Ret (omap validateAndMapEmail (default [] requestResult.(result_list))).

(** ** jmap/mail/draft-mapper.ts *)

Definition map_draft_address (addr : EmailAddress) : JmapEmailAddress :=
  {| address_name := addr.(address_name); address_email := addr.(address_email) |}.

Definition mapSendIntentToJmapDraft (intent : SendIntent) : JmapEmailDraft :=
  {| jdr_from := [map_draft_address intent.(intent_from)];
     jdr_to := List.map map_draft_address intent.(intent_to);
     jdr_cc := List.map map_draft_address intent.(intent_cc);
     jdr_bcc := List.map map_draft_address intent.(intent_bcc);
     jdr_replyTo := List.map map_draft_address intent.(intent_replyTo);
     jdr_subject := intent.(intent_subject);
     jdr_textBody := Some intent.(intent_body).(send_text);
     jdr_htmlBody := intent.(intent_body).(send_html) |}.

(** ** jmap/normalizers/body-normalizer.ts *)

Fixpoint findPartIdsByType (part : RawJmapEmailBodyPart) (type : string) : list string :=
  (if (part.(part_type) === type) && truthy part.(part_partId) then [or_string part.(part_partId) ""] else []) ++
  match part.(part_subParts) with
  | Some subParts => List.flat_map (λ subPart, findPartIdsByType subPart type) subParts
  | None => []
  end.

(** The content of a part: [null] when it is absent, damaged, cut or empty. *)
Definition extractFromPartId (bodyValues : jsmap string RawJmapEmailBodyValue) (partId : string) : option string :=
  match map_get partId bodyValues with
  | None => None
  | Some valueData =>
      if default false valueData.(value_isEncodingProblem) then None
      else if default false valueData.(value_isTruncated) then None
      else if truthy valueData.(value_value) then valueData.(value_value) else None
  end.

(** [for (const pid of ids) { ...; if (val !== null) { result = val; break } }]. *)
Fixpoint first_content (bodyValues : jsmap string RawJmapEmailBodyValue) (ids : list string) : option string :=
  match ids with
  | [] => None
  | pid :: ids =>
      match extractFromPartId bodyValues pid with
      | Some val => Some val
      | None => first_content bodyValues ids
      end
  end.

Definition extractEmailBody (emailId : string) (bodyStructure : RawJmapEmailBodyPart)
    (bodyValues : jsmap string RawJmapEmailBodyValue) : option JmapEmailBody :=
  let html := first_content bodyValues (findPartIdsByType bodyStructure "text/html") in
  let text := first_content bodyValues (findPartIdsByType bodyStructure "text/plain") in
  match html, text with
  | None, None => None
  | _, _ => Some {| jb_emailId := emailId; jb_html := html; jb_text := text |}
  end.

(** ** jmap/normalizers/attachment-normalizer.ts *)

Definition is_attachment (part : RawJmapEmailBodyPart) : bool :=
  let isAttachmentDisposition := bool_decide (part.(part_disposition) = Some "attachment") in
  let isInlineDisposition := bool_decide (part.(part_disposition) = Some "inline") || truthy part.(part_cid) in
  let isMainBody := (part.(part_type) === "text/html") || (part.(part_type) === "text/plain") in
  truthy part.(part_blobId) && (isAttachmentDisposition || isInlineDisposition || negb isMainBody).

Definition attachment_of (part : RawJmapEmailBodyPart) : JmapAttachment :=
  {| ja_blobId := or_string part.(part_blobId) "";
     ja_partId := part.(part_partId);
     ja_name := part.(part_name);
     ja_mediaType := part.(part_type);
     ja_size := default (Int 0) part.(part_size);
     ja_disposition := part.(part_disposition);
     ja_cid := part.(part_cid) |}.

Fixpoint traverse (part : RawJmapEmailBodyPart) (attachments : list JmapAttachment) : list JmapAttachment :=
  let attachments := if is_attachment part then attachments ++ [attachment_of part] else attachments in
  match part.(part_subParts) with
  | Some subParts => fold_left (λ attachments subPart, traverse subPart attachments) subParts attachments
  | None => attachments
  end.

Definition extractAttachments (bodyStructure : RawJmapEmailBodyPart) : list JmapAttachment :=
  traverse bodyStructure [].

(** ** jmap/adapter.ts

    [sessionData] is the field of the adapter: what the last [openSession] found. *)

Definition apiUrl_of (sessionData : option JmapSession) : outcome exn string :=
  match sessionData with
  | Some session =>
      if is_empty session.(jse_apiUrl) then Throw (Error "Session has not been opened or apiUrl is missing")
      else Return session.(jse_apiUrl)
  | None => Throw (Error "Session has not been opened or apiUrl is missing")
  end.

(** The structure of one email: the first of the list, which the two readers of bodies
    check the same way. *)
Definition body_structure (method : string) (response : RawGetResponse RawJmapBody) :
    outcome exn (RawJmapBody * RawJmapEmailBodyPart) :=
  match default [] response.(get_list) with
  | [] => Throw (method_error method "notFound" "Email not found")
  | rawEmail :: _ =>
      match rawEmail.(raw_bodyStructure) with
      | None => Throw (method_error method "missingBodyStructure" "Email lacks bodyStructure")
      | Some bodyStructure => Return (rawEmail, bodyStructure)
      end
  end.

Definition getEmailBody (accountId emailId : string) : wire JmapEmailBody :=
  response ← jam_request "Email/get (body)" (JamBodyGet accountId [emailId] ["bodyStructure"; "bodyValues"]);
  '(rawEmail, bodyStructure) ← of_outcome (body_structure "Email/get (body)" response);
  match extractEmailBody emailId bodyStructure (default map_new rawEmail.(raw_bodyValues)) with
  | Some emailBody => Ret emailBody
  | None => Raise (method_error "Email/get (body)" "invalidBody"
                     "Could not extract a valid HTML or Text body from the email.")
  end.

Definition getEmailAttachments (accountId emailId : string) : wire (list JmapAttachment) :=
  response ← jam_request "Email/get (attachments)" (JamBodyGet accountId [emailId] ["bodyStructure"]);
  '(_, bodyStructure) ← of_outcome (body_structure "Email/get (attachments)" response);
  Ret (extractAttachments bodyStructure).

Section adapter.
Context (sessionUrl : string) (auth : AuthConfig) (sessionData : option JmapSession).

(** The methods of [JamClientAdapter]; [openSession] also sets [sessionData] to what it
    answers. *)
Definition jmap_client X (c : JmapCall X) : wire X :=
  match c in JmapCall X return wire X with
  | OpenSession => discoverSession sessionUrl auth
  | GetMailboxes accountId => getMailboxes accountId
  | GetIdentities accountId => getIdentities accountId
  | QueryEmails accountId mailboxId filter options => queryEmails accountId mailboxId filter options
  | GetEmails accountId emailIds => getEmails accountId emailIds
  | GetEmailChanges accountId sinceState => getEmailChanges accountId sinceState
  | GetEmailQueryChanges accountId mailboxId sinceQueryState =>
      apiUrl ← of_outcome (apiUrl_of sessionData);
      getEmailQueryChanges apiUrl auth accountId mailboxId sinceQueryState
  | GetEmailBody accountId emailId => getEmailBody accountId emailId
  | GetEmailAttachments accountId emailId => getEmailAttachments accountId emailId
  | UpdateEmailKeywords accountId emailId keywords =>
      apiUrl ← of_outcome (apiUrl_of sessionData);
      patchEmailKeywords apiUrl auth accountId emailId keywords
  | UpdateEmailMailboxes accountId emailId mailboxIds =>
      apiUrl ← of_outcome (apiUrl_of sessionData);
      patchEmailMailboxes apiUrl auth accountId emailId mailboxIds
  | SubmitEmail accountId draft rawIdentityId =>
      apiUrl ← of_outcome (apiUrl_of sessionData);
      submitEmail apiUrl auth accountId draft rawIdentityId
  end.
End adapter.
End client.
