(* ===== verification/JmapClientFacts.v ===== *)
(** * Facts on the JMAP client

    The emails it lets through, the reads it makes, the bodies and attachments it takes out
    of a message, and the two kinds of writes. *)

Set Warnings "-register-all".
From S2P Require Import Prelude.
From S2P Require Import JsNumber.
From S2P Require Import JsString.
From S2P Require Import JsCollections.
From S2P Require Import Errors.
From S2P Require Import DomainIds.
From S2P Require Import Remote.
From S2P Require Import Prog.
From S2P Require Import Json.
From S2P Require Import JmapTypes.
From S2P Require Import JmapRemoteMail.
From S2P Require Import JmapFacts.
From S2P Require Import JmapWire.
From S2P Require Import JmapClient.
From Stdlib Require Import ZArith.
Open Scope string_scope.
Open Scope list_scope.
Open Scope js_scope.

(** ** Emails *)

Definition present (value : option string) : Prop := ∃ s, value = Some s ∧ s ≠ "".

Record valid_email (email : JmapEmail) : Prop := {
  valid_id : email.(je_id) ≠ "";
  valid_blob : email.(je_blobId) ≠ "";
  valid_thread : email.(je_threadId) ≠ "";
  valid_received : email.(je_receivedAt) ≠ "";
  valid_size : isSafeInteger email.(je_size) = true ∧ num_leb (Int 0) email.(je_size) = true;
  valid_mailboxes : email.(je_mailboxIds) ≠ [];
}.

Lemma safe_size_safe size :
  isSafeInteger (safe_size size) = true ∧ num_leb (Int 0) (safe_size size) = true.
Proof.
  unfold safe_size. destruct size as [size|]; [|done].
  destruct (isSafeInteger size && num_leb (Int 0) size) eqn:H; [|done]. by apply andb_true_iff.
Qed.

Lemma validateAndMapEmail_valid raw email : validateAndMapEmail raw = Some email → valid_email email.
Proof.
  unfold validateAndMapEmail. intros H.
  destruct (re_id raw) as [id|], (re_blobId raw) as [blobId|], (re_threadId raw) as [threadId|],
    (re_receivedAt raw) as [receivedAt|]; try done.
  destruct (is_empty id) eqn:?, (is_empty blobId) eqn:?, (is_empty threadId) eqn:?,
    (is_empty receivedAt) eqn:?; try done. cbn [orb] in H.
  destruct (true_mailboxes raw) as [|m mailboxIds] eqn:?; [done|]. injection H as <-.
  split; cbn [je_id je_blobId je_threadId je_receivedAt je_size je_mailboxIds];
    try (by apply is_empty_false); [apply safe_size_safe|done].
Qed.

Lemma validateAndMapEmail_accepts raw :
  is_Some (validateAndMapEmail raw) ↔
    present raw.(re_id) ∧ present raw.(re_blobId) ∧ present raw.(re_threadId) ∧
    present raw.(re_receivedAt) ∧
    ∃ ids id, raw.(re_mailboxIds) = Some ids ∧ map_get id ids = Some true.
Proof.
  assert (true_mailboxes raw ≠ [] ↔ ∃ ids id, raw.(re_mailboxIds) = Some ids ∧ map_get id ids = Some true) as Hm.
  { unfold true_mailboxes. split.
    - intros H. destruct (List.filter _ _) as [|id l] eqn:Hf in H; [done|].
      assert (id ∈ id :: l) as Hin by left. rewrite <- Hf in Hin.
      apply list_elem_of_In, filter_In in Hin as [_ Hid%bool_decide_eq_true].
      destruct (re_mailboxIds raw) as [ids|]; [by exists ids, id|done].
    - intros (ids & id & -> & Hid) Hf. cbn [default] in Hf.
      assert (id ∈ List.filter (λ id, bool_decide (map_get id ids = Some true)) ids.*1) as Hin.
      { apply list_elem_of_In, filter_In. split; [|by apply bool_decide_eq_true].
        apply list_elem_of_In. apply list_elem_of_fmap. exists (id, true). split; [done|]. by apply map_get_elem. }
      cbn in Hf. rewrite Hf in Hin. by apply elem_of_nil in Hin. }
  rewrite <- Hm. unfold validateAndMapEmail, present.
  destruct (re_id raw) as [id|], (re_blobId raw) as [blobId|], (re_threadId raw) as [threadId|],
    (re_receivedAt raw) as [receivedAt|];
    try (split; [by intros [? ?]|by intros ((? & ? & ?) & (? & ? & ?) & (? & ? & ?) & (? & ? & ?) & ?)]).
  destruct id, blobId, threadId, receivedAt; cbn [is_empty orb];
    try (split; [by intros [? ?]|intros ((? & [= <-] & ?) & (? & [= <-] & ?) & (? & [= <-] & ?) & (? & [= <-] & ?) & ?); done]).
  destruct (true_mailboxes raw) as [|m mailboxIds]; split.
  - by intros [? ?].
  - by intros (_ & _ & _ & _ & ?).
  - intros _. split_and!; try (by eexists); done.
  - intros _. by eexists.
Qed.

(** ** What a remote email inherits *)

Record sound_email (email : RemoteEmail) : Prop := {
  sound_id : email.(r_email_id) ≠ "";
  sound_blob : email.(r_email_blobId) ≠ "";
  sound_thread : email.(r_email_threadId) ≠ "";
  sound_received : email.(r_email_receivedAt) ≠ "";
  sound_size : isSafeInteger email.(r_email_size) = true ∧ num_leb (Int 0) email.(r_email_size) = true;
  sound_mailboxes : email.(r_email_mailboxIds) ≠ [] ∧ "" ∉ email.(r_email_mailboxIds);
}.

Lemma remoteId_return value name id : remoteIdFromString value name = Return id ↔ value ≠ "" ∧ id = value.
Proof.
  unfold remoteIdFromString. rewrite seq_return, throw_if_return, is_empty_false.
  split; [intros [? [= <-]]|intros [? ->]]; done.
Qed.

Lemma mapM_remoteId_return l k name :
  (mapM (λ value, remoteIdFromString value name) l) = Return k ↔ ("" ∉ l) ∧ k = l.
Proof.
  revert k. induction l as [|x l IH]; intros k; cbn.
  - split; [intros [= <-]|intros [_ ->]]; [split; [apply not_elem_of_nil|done]|done].
  - rewrite !bind_return. setoid_rewrite remoteId_return. setoid_rewrite bind_return. setoid_rewrite IH.
    rewrite not_elem_of_cons. split.
    + intros (y & [Hx ->] & k' & [Hl ->] & [= <-]). done.
    + intros [[Hx Hl] ->]. exists x. split; [done|]. by exists l.
Qed.

(** Only an empty mailbox id can make the mapper throw on a valid email. *)
Lemma mapJmapEmail_valid email :
  valid_email email →
  (∀ r, mapJmapEmail email = Return r → sound_email r) ∧
  ((∃ r, mapJmapEmail email = Return r) ↔ "" ∉ email.(je_mailboxIds)).
Proof.
  intros [Hid Hblob Hthread Hreceived Hsize Hmailboxes]. unfold mapJmapEmail.
  setoid_rewrite bind_return. setoid_rewrite remoteId_return.
  setoid_rewrite bind_return. setoid_rewrite remoteId_return.
  setoid_rewrite bind_return. setoid_rewrite remoteId_return.
  setoid_rewrite bind_return. unfold remoteMailboxIdFromString.
  setoid_rewrite mapM_remoteId_return. split.
  - intros r (id & [_ ->] & b & [_ ->] & t & [_ ->] & ms & [Hm ->] & [= <-]). by split.
  - split.
    + by intros (r & id & _ & b & _ & t & _ & ms & [Hm _] & _).
    + intros Hm. eexists. exists (je_id email). split; [done|]. exists (je_blobId email). split; [done|].
      exists (je_threadId email). split; [done|]. exists (je_mailboxIds email). by split.
Qed.

Lemma mapM_mapJmapEmail_sound emails mapped :
  Forall valid_email emails → mapM mapJmapEmail emails = Return mapped → Forall sound_email mapped.
Proof.
  intros Hvalid H%mapM_return_Forall2. induction H as [|v e vs es Hve _ IH]; [done|].
  apply Forall_cons in Hvalid as [Hv Hvalid]. constructor; [|by apply IH].
  by apply (mapJmapEmail_valid v Hv).
Qed.

(** ** Reading over the network *)

(** What a synchronisation answers: sound emails under distinct ids. *)
Definition sound_transition (t : RemoteCollectionSync RemoteEmail RemoteEmailId) : Prop :=
  Forall sound_email (transition_values t) ∧ NoDup (List.map r_email_id (transition_values t)).

Section reading.
Context {rejections : Rejections} (accountId : RemoteAccountId).

(** The reads of the port, and what is expected of their answers. *)
Definition reads_port X (c : JmapCall X) : Prop :=
  match c with
  | GetMailboxes a | QueryEmails a _ _ _ | GetEmailChanges a _ => a = accountId
  | GetEmails a ids => a = accountId ∧ (length ids <= PAGE_SIZE)%nat
  | _ => False
  end.
Definition valid_answer X (c : JmapCall X) : outcome exn X → Prop :=
  match c in JmapCall X return outcome exn X → Prop with
  | GetEmails _ _ => λ r, match r with Return result => Forall valid_email result.(jes_emails) | Throw _ => True end
  | _ => λ _, True
  end.
Definition read_port : monitor JmapCall unit := allow_monitor reads_port valid_answer.

(** The requests they become: no [fetch], nothing that writes, for this account only and
    for at most 500 emails at a time. *)
Definition reads_wire X (c : WireCall X) : Prop :=
  match c with
  | JamMailboxGet a | JamEmailQuery a _ _ | JamEmailChanges a _ => a = accountId
  | JamEmailGet a ids properties =>
      a = accountId ∧ (length ids <= PAGE_SIZE)%nat ∧ properties = EMAIL_PROPERTIES
  | _ => False
  end.
Definition read_wire : monitor WireCall unit := allow_monitor reads_wire (λ _ _ _, True).

Lemma jam_request_obeys {A} method (call : WireCall A) m Q :
  reads_wire A call → (∀ r, Q r m) → obeys read_wire (jam_request method call) m Q.
Proof.
  intros Hcall HQ. apply obeys_try, obeys_await; [done|]. destruct m. intros [a|e] _; apply HQ.
Qed.

(** The client reads as the port may, and answers valid emails only. *)
Lemma jmap_client_reads sessionUrl auth sessionData X (c : JmapCall X) m n :
  m = n → reads_port X c →
  obeys read_wire (jmap_client sessionUrl auth sessionData X c) n
    (λ r m', valid_answer X c r ∧ watch read_port m c r = m').
Proof.
  intros -> Hc. destruct c; try done; cbn [reads_port] in Hc; cbn [jmap_client].
  - subst. unfold getMailboxes. apply obeys_mbind, jam_request_obeys; [done|]. by intros []; destruct n.
  - subst. unfold queryEmails. apply obeys_mbind, jam_request_obeys; [done|]. by intros []; destruct n.
  - destruct Hc as [-> Hl]. unfold getEmails. apply obeys_mbind, jam_request_obeys; [done|].
    intros [response|e]; destruct n; [|done]. split; [|done]. cbn [valid_answer jes_emails].
    apply Forall_forall. intros email Hin. apply list_elem_of_omap in Hin as (raw & _ & Hraw).
    by eapply validateAndMapEmail_valid.
  - subst. unfold getEmailChanges. apply obeys_mbind, jam_request_obeys; [done|].
    intros [response|e]; destruct n; [|done]. by destruct (rc_cannotCalculate response).
Qed.

Lemma query_pages_reads mailboxId remaining position expected mailboxIds accountIds :
  safe read_port (query_pages accountId mailboxId remaining position expected mailboxIds accountIds) (λ _, True).
Proof.
  revert position expected mailboxIds accountIds.
  induction remaining as [|remaining IH]; intros; cbn [query_pages]; [by apply safe_ret|].
  apply safe_bind with (λ _, True); [by apply safe_await|]. intros query _.
  apply safe_bind with (λ _, True); [by apply safe_outcome|]. intros pair _.
  apply safe_bind with (λ _, True); [by apply safe_outcome|]. intros [seen account] _. cbv zeta.
  destruct (num_leb _ _); [by apply safe_ret|].
  do 2 (apply safe_bind with (λ _, True); [by apply safe_outcome|]; intros ? _). apply IH.
Qed.

Lemma fetchExactEmails_reads ids includeState :
  safe read_port (fetchExactEmails accountId ids includeState) (λ r, Forall valid_email r.1).
Proof.
  unfold fetchExactEmails. cbv zeta.
  apply safe_bind with (λ acc, Forall valid_email acc.1); [|by intros [emails state] H m].
  apply safe_for; [done|]. intros [emails state] batch Hin Hemails.
  apply safe_bind with (λ result, Forall valid_email result.(jes_emails)).
  - apply safe_await; [|done]. intros m. split; [done|].
    case_bool_decide; [|by eapply (proj1 (Forall_forall _ _) (chunks_from_size _ _ _)) in Hin].
    apply list_elem_of_singleton in Hin as ->. cbn. unfold PAGE_SIZE. lia.
  - intros result Hresult. apply safe_outcome. intros [emails' state'] Ha.
    apply accept_batch_return in Ha as (-> & _). by apply Forall_app.
Qed.

(** [try { p } catch { rethrow as RemoteError }] over reads. *)
Lemma reads_try {A} (p : jmap A) (P : A → Prop) :
  safe read_port p P →
  obeys read_port (prog_try p rethrow_jmap) tt
    (λ r _, match r with Return a => P a | Throw e => is_remote e end).
Proof.
  intros Hp. apply obeys_try. eapply obeys_mono; [|apply Hp].
  intros [a|e] m; [done|]. intros _. by eexists.
Qed.

Lemma replacement_sound emails state t :
  Forall valid_email emails → replacement emails state = Return t → sound_transition t.
Proof.
  intros Hv (snapshot & Hmap & Ht)%bind_return. apply validate_replace in Ht as [-> Hnd].
  split; [|done]. by eapply mapM_mapJmapEmail_sound.
Qed.

Lemma delta_transition_sound state emails destroyed t :
  Forall valid_email emails → delta_transition state emails destroyed = Return t → sound_transition t.
Proof.
  intros Hv (changed & Hmap & H)%bind_return. apply bind_return in H as (ids & _ & Ht).
  apply remote_transition_check_iff in Ht as (-> & Hnd & _). split; [|done].
  by eapply mapM_mapJmapEmail_sound.
Qed.

Lemma snapshot_reads : 
  obeys read_port (completeEmailSnapshot accountId) tt
    (λ r _, match r with Return t => sound_transition t | Throw e => is_remote e end).
Proof.
  apply reads_try. apply safe_bind with (λ _, True); [by apply safe_await|]. intros result _.
  apply safe_bind with (λ _, True).
  { apply safe_for; [done|]. intros ids mailbox _ _. apply query_pages_reads. }
  intros ids _. eapply safe_bind; [apply fetchExactEmails_reads|]. intros [emails state] Hv.
  apply safe_outcome. intros t. by apply replacement_sound.
Qed.

Lemma delta_pages_reads remaining state changedIds destroyedIds :
  safe read_port (delta_pages accountId remaining state changedIds destroyedIds) sound_transition.
Proof.
  revert state changedIds destroyedIds. induction remaining as [|remaining IH]; intros; cbn [delta_pages];
    [apply safe_raise|].
  apply safe_bind with (λ _, True); [by apply safe_await|]. intros delta _.
  destruct (apply_delta changedIds destroyedIds delta) as [changed destroyed]. cbv zeta.
  destruct (jd_hasMoreChanges delta); [apply IH|].
  eapply safe_bind; [apply fetchExactEmails_reads|]. intros [emails s] Hv.
  apply safe_outcome. intros t. by apply delta_transition_sound.
Qed.

Lemma syncEmails_reads previousState :
  obeys read_port (jmap_syncEmails accountId previousState) tt
    (λ r _, match r with Return t => sound_transition t | Throw e => is_remote e end).
Proof.
  destruct previousState as [state|]; [|apply snapshot_reads]. unfold jmap_syncEmails.
  apply obeys_try. eapply obeys_mono; [|apply delta_pages_reads].
  intros [t|e] []; [done|]. intros _. destruct (cannot_calculate e); [apply snapshot_reads|by eexists].
Qed.
End reading.

(** ** A rejected request for changes *)

Section fallback.
Context {rejections : Rejections} (accountId : RemoteAccountId) (previous : RemoteSyncState).

Lemma request_error_calculable method e : cannot_calculate (jmap_request_error method e) = false.
Proof. unfold jmap_request_error. destruct e as [| | | | | | | |[]| | |]; try done; by case_match. Qed.

(** The ghost tells whether a response said, by its property, that changes cannot be
    calculated; the requests of a snapshot need it. *)
Definition fallback_allowed X (said : bool) (c : WireCall X) : Prop :=
  match c with
  | JamMailboxGet _ | JamEmailQuery _ _ _ => said = true
  | JamEmailGet _ _ _ | JamEmailChanges _ _ => True
  | _ => False
  end.
Definition fallback_watch X (said : bool) (c : WireCall X) : outcome exn X → bool :=
  match c in WireCall X return outcome exn X → bool with
  | JamEmailChanges _ _ => λ r, match r with Return response => response.(rc_cannotCalculate) | Throw _ => said end
  | _ => λ _, said
  end.
Definition fallback_wire : monitor WireCall bool :=
  {| allowed := fallback_allowed; watch := fallback_watch; possible := λ _ _ _, True |}.

Definition told (g : delta_ghost) (said : bool) : Prop := g.(dg_fallback) = said.

Lemma told_true X (c : JmapCall X) (r : outcome exn X) g :
  told g true → told (watch (delta_protocol accountId previous) g c r) true.
Proof. unfold told, watch, delta_protocol, delta_watch. by intros ->. Qed.

Lemma jam_request_told {A} method (call : WireCall A) said Q :
  fallback_allowed A said call →
  (∀ a, Q (Return a) (fallback_watch A said call (Return a))) →
  (∀ e cause, cannot_calculate e = false → Q (Throw e) (fallback_watch A said call (Throw cause))) →
  obeys fallback_wire (jam_request method call) said Q.
Proof.
  intros Hcall HQ He. apply obeys_try, obeys_await; [done|].
  intros [a|e] _; [apply HQ|]. apply He, request_error_calculable.
Qed.

Lemma jmap_client_told sessionUrl auth sessionData X (c : JmapCall X) g said :
  told g said → delta_allowed accountId previous X g c →
  obeys fallback_wire (jmap_client sessionUrl auth sessionData X c) said
    (λ r said', True ∧ told (watch (delta_protocol accountId previous) g c r) said').
Proof.
  unfold told. intros <- Hc. destruct c; try (unfold delta_allowed in Hc; by destruct (dg_fallback g)); cbn [jmap_client].
  - assert (dg_fallback g = true) as Hf by (unfold delta_allowed in Hc; by destruct (dg_fallback g)).
    rewrite Hf. apply obeys_mbind, jam_request_told; [done|..];
      [intros a|intros e cause _]; (split; [done|by apply told_true]).
  - assert (dg_fallback g = true) as Hf by (unfold delta_allowed in Hc; by destruct (dg_fallback g)).
    rewrite Hf. apply obeys_mbind, jam_request_told; [done|..];
      [intros a|intros e cause _]; (split; [done|by apply told_true]).
  - apply obeys_mbind, jam_request_told; [done|..]; [intros a|intros e cause He]; (split; [done|]);
      unfold watch, delta_protocol, delta_watch; destruct (dg_fallback g) eqn:Hf; try done; by rewrite Hf.
  - assert (dg_fallback g = false) as Hf by (unfold delta_allowed in Hc; by destruct (dg_fallback g)).
    rewrite Hf. apply obeys_mbind, jam_request_told; [done|..].
    + intros a. cbn [fallback_watch]. destruct (rc_cannotCalculate a) eqn:Ha;
        (split; [done|]); unfold watch, delta_protocol, delta_watch; by rewrite Hf.
    + intros e cause He. split; [done|]. unfold watch, delta_protocol, delta_watch. by rewrite Hf.
Qed.
End fallback.

(** ** Raw requests *)

Section requests.
Context {rejections : Rejections}.

(** What a raw request comes to. *)
Definition raw_outcome (r : outcome exn (HttpResponse (option (list MethodResponse)))) :
    outcome exn (list MethodResponse) :=
  match r with
  | Throw _ => Throw (network_error "Network error during JMAP batch request")
  | Return response =>
      if refused_status response.(response_status) then Throw (auth_error response.(response_status))
      else if negb (response_ok response)
      then Throw (network_error ("JMAP batch request failed with status " +:+ pretty response.(response_status)))
      else
        match response.(response_json) with
        | Throw _ => Throw (network_error "Failed to parse JMAP batch response as JSON")
        | Return None => Throw (network_error "JMAP batch response is missing methodResponses")
        | Return (Some methodResponses) => Return methodResponses
        end
  end.

Definition raw_request (apiUrl : string) (auth : AuthConfig) (calls : list MethodCall) :
    WireCall (HttpResponse (option (list MethodResponse))) :=
  FetchMethods apiUrl [("Content-Type", "application/json"); ("Authorization", authorization auth)]
    standard_using calls.

Lemma fetchJmapRaw_obeys {M} (mon : monitor WireCall M) apiUrl auth calls m Q :
  allowed mon m (raw_request apiUrl auth calls) →
  (∀ r, possible mon (raw_request apiUrl auth calls) r →
     Q (raw_outcome r) (watch mon m (raw_request apiUrl auth calls) r)) →
  obeys mon (fetchJmapRaw apiUrl auth calls) m Q.
Proof.
  intros Hc HQ. apply obeys_mbind, obeys_try, obeys_await; [done|]. intros r Hr.
  specialize (HQ r Hr). destruct r as [response|e]; [|done]. cbn [raw_outcome] in HQ.
  destruct (refused_status _); [done|]. destruct (negb (response_ok response)); [done|].
  by destruct (response_json response) as [[responses|]|e].
Qed.

Lemma fetchJmapRaw_run {S} (answer : ∀ X, WireCall X → S → outcome exn X * S) apiUrl auth calls s :
  run answer (fetchJmapRaw apiUrl auth calls) s =
    (raw_outcome (answer _ (raw_request apiUrl auth calls) s).1,
     (answer _ (raw_request apiUrl auth calls) s).2).
Proof.
  unfold fetchJmapRaw. rewrite run_mbind, run_try. fold (raw_request apiUrl auth calls).
  unfold await. cbn [run]. destruct (answer _ _ s) as [[response|e] s']; [|done]. cbn.
  destruct (refused_status _); [done|]. destruct (negb (response_ok response)); [done|].
  by destruct (response_json response) as [[responses|]|e].
Qed.
End requests.

(** ** Submissions *)

Section submitting.
Context {rejections : Rejections} (apiUrl : string) (auth : AuthConfig).
Context (accountId : string) (draft : JmapEmailDraft) (identityId : string).

Definition Answered : Type := outcome exn (HttpResponse (option (list MethodResponse))).

(** The transport failed: no response, or one that is no refusal and no list of method
    responses. *)
Definition transport_failed (r : Answered) : Prop :=
  match r with
  | Throw _ => True
  | Return response =>
      refused_status response.(response_status) = false ∧
      (response_ok response = false ∨ (∃ e, response.(response_json) = Throw e) ∨
       response.(response_json) = Return None)
  end.

Lemma raw_outcome_cases r :
  (∃ responses, raw_outcome r = Return responses ∧ ¬ transport_failed r) ∨
  (∃ text, raw_outcome r = Throw (ThrownJmapError (JmapAuthError text)) ∧ ¬ transport_failed r) ∨
  (∃ text, raw_outcome r = Throw (ThrownJmapError (JmapNetworkError text)) ∧ transport_failed r).
Proof.
  destruct r as [response|e]; [|right; right; by eexists]. cbn [raw_outcome transport_failed].
  destruct (refused_status _); [right; left; eexists; split; [done|]; by intros []|].
  destruct (response_ok response); cbn [negb]; [|right; right; eexists; split; [done|]; split; [done|]; by left].
  destruct (response_json response) as [[responses|]|e].
  - left. eexists. split; [done|]. by intros [_ [|[[? ?]|]]].
  - right; right. eexists. split; [done|]. split; [done|]. by right; right.
  - right; right. eexists. split; [done|]. split; [done|]. right; left. by eexists.
Qed.

Definition drafts_calls : list MethodCall :=
  [("Mailbox/query", QueryRole accountId "drafts" (Int 1), "m1")].
Definition batch_calls (draftsMailboxId : string) : list MethodCall :=
  [("Email/set", CreateEmail accountId "draft1" (email_to_create draftsMailboxId draft), "e1");
   ("EmailSubmission/set", CreateSubmission accountId "sub1" "#draft1" identityId, "s1")].

(** The mailbox the answer to the first request names. *)
Definition drafts_mailbox (first : Answered) : option string :=
  match raw_outcome first with
  | Return ((_, result, _) :: _) => head (default [] result.(result_ids))
  | _ => None
  end.

(** The answers so far: first the question for the drafts mailbox, then, once, the batch
    that creates the email in it and submits it. *)
Definition submission_allowed X (g : list Answered) (c : WireCall X) : Prop :=
  match c with
  | FetchMethods url headers capabilities calls =>
      url = apiUrl ∧ map_get "Authorization" headers = Some (authorization auth) ∧
      capabilities = standard_using ∧
      match g with
      | [] => calls = drafts_calls
      | [first] => ∃ mailboxId, drafts_mailbox first = Some mailboxId ∧ calls = batch_calls mailboxId
      | _ => False
      end
  | _ => False
  end.
Definition submission_watch X (g : list Answered) (c : WireCall X) : outcome exn X → list Answered :=
  match c in WireCall X return outcome exn X → list Answered with
  | FetchMethods _ _ _ _ => λ r, g ++ [r]
  | _ => λ _, g
  end.
Definition submission_protocol : monitor WireCall (list Answered) :=
  {| allowed := submission_allowed; watch := submission_watch; possible := λ _ _ _, True |}.

(** The response to [callId] created [creationId] as [id]. *)
Definition created_in (responses : list MethodResponse) (callId creationId id : string) : Prop :=
  ∃ result, response_to callId responses = Some result ∧
    map_get creationId (default map_new result.(result_created)) = Some (Some id) ∧ id ≠ "".

Lemma created_id_spec responses callId creationId id :
  created_id creationId (default no_result (response_to callId responses)) = id → id ≠ "" →
  created_in responses callId creationId id.
Proof.
  intros Hid Hne. unfold created_id in Hid. destruct (response_to callId responses) as [result|] eqn:Hr; [|by subst].
  cbn [default] in Hid. destruct (map_get creationId _) as [[s|]|] eqn:Hm in Hid; [|by subst..].
  unfold or_string in Hid. destruct (is_empty s); [by subst|]. subst. by exists result.
Qed.

Lemma submission_answer_return responses emailId submissionId :
  submission_answer responses = Return (emailId, submissionId) →
  created_in responses "e1" "draft1" emailId ∧ created_in responses "s1" "sub1" submissionId.
Proof.
  unfold submission_answer. cbv zeta.
  destruct (not_created "draft1" _) as [refused|]; [by case_bool_decide|].
  destruct (not_created "sub1" _) as [refused|]; [done|].
  destruct (is_empty _ || is_empty _) eqn:He; [done|]. apply orb_false_iff in He as [He Hs].
  apply is_empty_false in He. apply is_empty_false in Hs. intros [= <- <-]. split; by apply created_id_spec.
Qed.

(** Failures of a submission whose outcome is known. *)
Definition definite (e : exn) : Prop :=
  (∃ text, e = ThrownJmapError (JmapAuthError text)) ∨
  (∃ method type text, e = ThrownJmapError (JmapMethodError method type text)).

Lemma submission_answer_throw responses e : submission_answer responses = Throw e → definite e.
Proof.
  unfold submission_answer, method_error, definite. cbv zeta.
  destruct (not_created "draft1" _) as [refused|].
  { case_bool_decide; intros [= <-]; right; eauto. }
  destruct (not_created "sub1" _) as [refused|]; [intros [= <-]; right; eauto|].
  destruct (is_empty _ || is_empty _); [|done]. intros [= <-]. right. eauto.
Qed.

(** The batch was sent and its transport failed. *)
Definition batch_lost (g : list Answered) : Prop :=
  ∃ first batch, g = [first; batch] ∧ transport_failed batch.

(** How [submitEmail] ends. *)
Definition submitted (r : outcome exn (string * string)) (g : list Answered) : Prop :=
  match r with
  | Return ids => ∃ first batch responses, g = [first; batch] ∧ raw_outcome batch = Return responses ∧
      created_in responses "e1" "draft1" ids.1 ∧ created_in responses "s1" "sub1" ids.2
  | Throw e =>
      ((∃ text, e = ThrownJmapError (JmapSubmissionAmbiguousError text)) ∧ batch_lost g) ∨
      (definite e ∧ ¬ batch_lost g)
  end.

Lemma drafts_query_obeys Q :
  (∀ first ids, drafts_mailbox first = head ids → Q (Return ids) [first]) →
  (∀ first e, definite e → Q (Throw e) [first]) →
  obeys submission_protocol (drafts_query apiUrl auth accountId) [] Q.
Proof.
  intros HQ He. apply obeys_try, obeys_mbind, fetchJmapRaw_obeys; [done|]. intros first _.
  change (watch submission_protocol [] _ first) with [first]. specialize (HQ first). specialize (He first).
  unfold drafts_mailbox in HQ. unfold definite, method_error in *.
  destruct (raw_outcome first) as [[|[[name result] callId] responses]|e] eqn:Hr.
  - apply He. right. eauto.
  - by apply HQ.
  - destruct (raw_outcome_cases first) as [(? & Hr' & _)|[(text & Hr' & _)|(text & Hr' & _)]];
      rewrite Hr in Hr'; [done|..]; injection Hr' as ->; apply He; eauto.
Qed.

Lemma submission_batch_obeys first mailboxId Q :
  drafts_mailbox first = Some mailboxId →
  (∀ batch responses, raw_outcome batch = Return responses → ¬ transport_failed batch →
     Q (Return responses) [first; batch]) →
  (∀ batch text, transport_failed batch → Q (Throw (ThrownJmapError (JmapSubmissionAmbiguousError text))) [first; batch]) →
  (∀ batch text, ¬ transport_failed batch → Q (Throw (ThrownJmapError (JmapAuthError text))) [first; batch]) →
  obeys submission_protocol (submission_batch apiUrl auth accountId mailboxId draft identityId) [first] Q.
Proof.
  intros Hm HQ Hlost Hauth. apply obeys_try, fetchJmapRaw_obeys.
  { split_and!; [done..|]. by exists mailboxId. }
  intros batch _. change (watch submission_protocol [first] _ batch) with [first; batch].
  destruct (raw_outcome_cases batch) as [(responses & Hr & Hn)|[(text & Hr & Hn)|(text & Hr & Hf)]];
    rewrite Hr; [by apply HQ|by apply Hauth|by apply Hlost].
Qed.

Lemma submitEmail_obeys :
  obeys submission_protocol (submitEmail apiUrl auth accountId draft identityId) [] submitted.
Proof.
  assert (∀ first, ¬ batch_lost [first]) as Hone by (intros first (? & ? & [=] & _)).
  assert (∀ first batch, ¬ transport_failed batch → ¬ batch_lost [first; batch]) as Htwo.
  { intros first batch Hn (? & ? & [= <- <-] & ?). done. }
  apply obeys_mbind, drafts_query_obeys; [|by right].
  intros first [|mailboxId ids] Hm; [right; split; [right; eauto|apply Hone]|].
  apply obeys_mbind, submission_batch_obeys; [done|..].
  - intros batch responses Hr Hn. apply obeys_outcome.
    destruct (submission_answer responses) as [[emailId submissionId]|e] eqn:Ha.
    + apply submission_answer_return in Ha as [? ?]. by exists first, batch, responses.
    + right. apply submission_answer_throw in Ha. auto.
  - intros batch text Hf. left. split; [by exists text|]. by exists first, batch.
  - intros batch text Hn. right. split; [left; eauto|auto].
Qed.

(** What the adapter makes of the failures. *)
Lemma definite_outcome e :
  definite e →
  (toRemoteError e (submission_outcome e)).(remote_outcome) = knownNotApplied ∧
  (toRemoteError e (submission_outcome e)).(remote_retry) ≠ retry_reconcile.
Proof. intros [[text ->]|(method & type & text & ->)]; cbn; [done|]. by case_bool_decide. Qed.
End submitting.

(** ** Bodies and attachments *)

(** Body parts nest through lists: induction on them. *)
Lemma body_part_ind (P : RawJmapEmailBodyPart → Prop) :
  (∀ part, Forall P (default [] part.(part_subParts)) → P part) → ∀ part, P part.
Proof.
  intros H. fix rec 1. intros part. apply H. destruct part as [? ? ? ? ? ? ? [subParts|]]; cbn; [|constructor].
  induction subParts as [|subPart subParts IH]; constructor; [apply rec|exact IH].
Qed.

(** The parts of a message, in document order. *)
Fixpoint document (part : RawJmapEmailBodyPart) : list RawJmapEmailBodyPart :=
  part :: match part.(part_subParts) with
          | Some subParts => List.flat_map document subParts
          | None => []
          end.

Lemma traverse_document part attachments :
  traverse part attachments = attachments ++ List.map attachment_of (List.filter is_attachment (document part)).
Proof.
  revert attachments. induction part as [part IH] using body_part_ind. intros attachments.
  assert (traverse part attachments =
    fold_left (λ attachments subPart, traverse subPart attachments) (default [] part.(part_subParts))
      (if is_attachment part then attachments ++ [attachment_of part] else attachments)) as ->.
  { destruct part as [? ? ? ? ? ? ? [subParts|]]; done. }
  assert (document part = part :: List.flat_map document (default [] part.(part_subParts))) as ->.
  { destruct part as [? ? ? ? ? ? ? [subParts|]]; done. }
  assert (∀ acc, fold_left (λ attachments subPart, traverse subPart attachments) (default [] part.(part_subParts)) acc =
    acc ++ List.map attachment_of (List.filter is_attachment (List.flat_map document (default [] part.(part_subParts))))) as Hsub.
  { induction IH as [|subPart subParts Hs _ IHs]; intros acc; cbn [fold_left List.flat_map];
      [by rewrite app_nil_r|]. by rewrite IHs, Hs, List.filter_app, map_app, app_assoc. }
  rewrite Hsub. cbn [List.filter]. destruct (is_attachment part); [|done]. cbn. by rewrite <- app_assoc.
Qed.

(** The part has the type, and names its content. *)
Definition has_content_id (type : string) (part : RawJmapEmailBodyPart) : option string :=
  if (part.(part_type) === type) && truthy part.(part_partId) then part.(part_partId) else None.

Lemma findPartIdsByType_document type part :
  findPartIdsByType part type = omap (has_content_id type) (document part).
Proof.
  induction part as [part IH] using body_part_ind.
  assert (findPartIdsByType part type =
    option_list (has_content_id type part) ++
    List.flat_map (λ subPart, findPartIdsByType subPart type) (default [] part.(part_subParts))) as ->.
  { unfold has_content_id. destruct part as [[partId|] ? ? ? ? ? ? [subParts|]]; cbn;
      case_bool_decide; cbn; try done; unfold truthy, or_string; by destruct (is_empty partId). }
  assert (document part = part :: List.flat_map document (default [] part.(part_subParts))) as ->.
  { destruct part as [? ? ? ? ? ? ? [subParts|]]; done. }
  assert (List.flat_map (λ subPart, findPartIdsByType subPart type) (default [] part.(part_subParts)) =
          omap (has_content_id type) (List.flat_map document (default [] part.(part_subParts)))) as ->.
  { induction IH as [|subPart subParts Hs _ IHs]; [done|]. cbn [List.flat_map]. by rewrite omap_app, Hs, IHs. }
  cbn [omap list_omap]. by destruct (has_content_id type part).
Qed.

(** The value of [partId] is there, whole and not empty. *)
Definition whole (bodyValues : jsmap string RawJmapEmailBodyValue) (partId content : string) : Prop :=
  ∃ data, map_get partId bodyValues = Some data ∧ data.(value_isEncodingProblem) ≠ Some true ∧
    data.(value_isTruncated) ≠ Some true ∧ data.(value_value) = Some content ∧ content ≠ "".

Lemma extractFromPartId_spec bodyValues partId content :
  extractFromPartId bodyValues partId = Some content ↔ whole bodyValues partId content.
Proof.
  unfold extractFromPartId, whole. destruct (map_get partId bodyValues) as [[value problem cut]|]; cbn.
  2: { split; [done|]. by intros (? & [=] & _). }
  split.
  - intros H. exists (mkBodyValue value problem cut). split; [done|]. cbn.
    destruct problem as [[]|], cut as [[]|], value as [s|]; cbn in H; try done;
      destruct (is_empty s) eqn:Hs; try done; injection H as <-; by rewrite <- is_empty_false.
  - intros (data & [= <-] & Hp & Hc & Hv & Hne). cbn in Hp, Hc, Hv. subst value. apply is_empty_false in Hne.
    destruct problem as [[]|], cut as [[]|]; try done; cbn; by rewrite Hne.
Qed.

(** The content is that of the first part, in document order, of the type and whole. *)
Definition first_whole (bodyValues : jsmap string RawJmapEmailBodyValue) (type : string)
    (parts : list RawJmapEmailBodyPart) (content : string) : Prop :=
  ∃ before part after partId, parts = before ++ part :: after ∧
    has_content_id type part = Some partId ∧ whole bodyValues partId content ∧
    ∀ earlier partId content, earlier ∈ before → has_content_id type earlier = Some partId →
      ¬ whole bodyValues partId content.

Lemma first_content_spec bodyValues type parts content :
  first_content bodyValues (omap (has_content_id type) parts) = Some content ↔
  first_whole bodyValues type parts content.
Proof.
  unfold first_whole. induction parts as [|part parts IH].
  { split; [done|]. intros ([|] & ? & ? & ? & ? & _); done. }
  cbn [omap list_omap]. destruct (has_content_id type part) as [partId|] eqn:Hp.
  - cbn [first_content]. destruct (extractFromPartId bodyValues partId) as [val|] eqn:Hv.
    + apply extractFromPartId_spec in Hv. split.
      * intros [= <-]. exists [], part, parts, partId. split_and!; try done. intros ? ? ? H. by apply elem_of_nil in H.
      * intros (before & p & after & id & Hparts & Hid & Hw & Hno). destruct before as [|b before].
        -- injection Hparts as <- <-. assert (id = partId) as -> by congruence.
           apply extractFromPartId_spec in Hv. apply extractFromPartId_spec in Hw. congruence.
        -- injection Hparts as <- ->. exfalso. by eapply (Hno part); [left|..].
    + assert (∀ content, ¬ whole bodyValues partId content) as Hnone.
      { intros c Hc. apply extractFromPartId_spec in Hc. congruence. }
      rewrite IH. split.
      * intros (before & p & after & id & -> & Hid & Hw & Hno). exists (part :: before), p, after, id.
        split_and!; try done. intros e i c [->|He]%elem_of_cons Hi; [|by eapply Hno]. by assert (i = partId) as -> by congruence.
      * intros ([|b before] & p & after & id & Hparts & Hid & Hw & Hno); injection Hparts as <- ->.
        -- assert (id = partId) as -> by congruence. by destruct (Hnone content).
        -- exists before, p, after, id. split_and!; try done. intros e i c He. apply Hno. by right.
  - rewrite IH. split.
    + intros (before & p & after & id & -> & Hid & Hw & Hno). exists (part :: before), p, after, id.
      split_and!; try done. intros e i c [->|He]%elem_of_cons Hi; [congruence|by eapply Hno].
    + intros ([|b before] & p & after & id & Hparts & Hid & Hw & Hno); injection Hparts as <- ->; [congruence|].
      exists before, p, after, id. split_and!; try done. intros e i c He. apply Hno. by right.
Qed.

Lemma first_content_none bodyValues type parts :
  first_content bodyValues (omap (has_content_id type) parts) = None ↔
  ∀ part partId content, part ∈ parts → has_content_id type part = Some partId → ¬ whole bodyValues partId content.
Proof.
  induction parts as [|part parts IH].
  { split; [intros _ ? ? ? H; by apply elem_of_nil in H|done]. }
  setoid_rewrite elem_of_cons. cbn [omap list_omap].
  destruct (has_content_id type part) as [partId|] eqn:Hp; cbn [first_content].
  - destruct (extractFromPartId bodyValues partId) as [val|] eqn:Hv.
    + split; [done|]. intros H. apply extractFromPartId_spec in Hv. exfalso. eapply H; [by left|done..].
    + assert (∀ content, ¬ whole bodyValues partId content) as Hnone.
      { intros c Hc. apply extractFromPartId_spec in Hc. congruence. }
      rewrite IH. split; [|eauto]. intros H p i c [->|Hin] Hi; [|eauto]. assert (i = partId) as -> by congruence. apply Hnone.
  - rewrite IH. split; [|eauto]. intros H p i c [->|Hin] Hi; [congruence|eauto].
Qed.

(** ** Changes of keywords and mailboxes *)

(** What the response holds against the update of an email. *)
Definition not_updated (emailId : string) (responses : list MethodResponse) : option RawJmapSetError :=
  map_get emailId (default map_new (default no_result (response_to "e1" responses)).(result_notUpdated)).

Lemma change_patch_get add remove k :
  map_get k (change_patch add remove) =
    if bool_decide (k ∈ remove) then Some false else if bool_decide (k ∈ add) then Some true else None.
Proof.
  assert (∀ (v : bool) l m, map_get k (fold_left (λ patch value, map_set value v patch) l m) =
    if bool_decide (k ∈ l) then Some v else map_get k m) as Hfold.
  { intros v l. induction l as [|x l IH]; intros m; cbn [fold_left]; [done|]. rewrite IH, map_get_set.
    rewrite (bool_decide_ext (k ∈ x :: l) (k = x ∨ k ∈ l)) by apply elem_of_cons.
    destruct (bool_decide_reflect (k ∈ l)); [by rewrite bool_decide_true by auto|].
    destruct (decide (x = k)) as [->|Hne].
    - by rewrite !bool_decide_true by auto.
    - rewrite (bool_decide_false (k = x ∨ k ∈ l)) by naive_solver. by try rewrite bool_decide_false. }
  unfold change_patch. by rewrite !Hfold.
Qed.

Section changes.
Context {rejections : Rejections} {S : Type} (answer : ∀ X, WireCall X → S → outcome exn X * S).

(** The outcome of an update, of what the network answered. *)
Definition update_outcome (emailId mismatch failure : string) (r : Answered) : outcome exn unit :=
  match raw_outcome r with
  | Throw e => Throw (method_error "Email/set" "networkOrServerFail" (error_text e))
  | Return responses =>
      match not_updated emailId responses with
      | None => Return tt
      | Some refused =>
          if bool_decide (refused.(se_type) = Some "stateMismatch")
          then Throw (method_error "Email/set" "stateMismatch" (or_string refused.(se_description) mismatch))
          else Throw (method_error "Email/set" (or_string refused.(se_type) "unknown")
                        (or_string refused.(se_description) failure))
      end
  end.

Lemma set_email_run apiUrl auth emailId update mismatch failure s :
  let request := raw_request apiUrl auth [("Email/set", update, "e1")] in
  run answer (set_email apiUrl auth emailId update mismatch failure) s =
    (update_outcome emailId mismatch failure (answer _ request s).1, (answer _ request s).2).
Proof.
  intros request. unfold set_email, fetch_or_fail, update_outcome, not_updated.
  rewrite run_mbind, run_try, fetchJmapRaw_run. fold request.
  destruct (answer _ request s) as [r s']. cbn [fst snd].
  destruct (raw_outcome r) as [responses|e]; [|done]. cbv zeta.
  destruct (map_get emailId _) as [refused|]; [|done]. by case_bool_decide.
Qed.
End changes.
