(* ===== verification/SharedState.v ===== *)
(** * Programs over a shared mutable object

    The methods of a stateful class: between two awaits a method runs without
    interruption, so its synchronous parts are [Atomic] actions on the object's fields,
    and everything it awaits is an [Outside] call, during which other methods may run. *)

From S2P Require Import Prelude.
From S2P Require Import Errors.
From S2P Require Import Prog.
From Stdlib Require Import Lia.
Open Scope list_scope.

Inductive with_state (S : Type) (E : Type → Type) : Type → Type :=
| Atomic {X : Type} (f : action exn S X) : with_state S E X
| Outside {X : Type} (c : E X) : with_state S E X.
Arguments Atomic {S E X} f.
Arguments Outside {S E X} c.

Section shared.
Context {S : Type} {E : Type → Type}.

Definition atomically {X} (f : action exn S X) : prog (with_state S E) X := await (Atomic f).
Definition outside {X} (c : E X) : prog (with_state S E) X := await (Outside c).

(** [attempt p]: how [p] ends, as a value. *)
Definition attempt {F : Type → Type} {A} (p : prog F A) : prog F (outcome exn A) :=
  prog_try (a ← p; Ret (Return a)) (λ e, Ret (Throw e)).

(** [try { p } finally { cleanup }], for a cleanup that does not throw. *)
Definition prog_finally {A} (p : prog (with_state S E) A) (cleanup : S → S) : prog (with_state S E) A :=
  r ← attempt p;
  atomically (modify cleanup);;
  of_outcome r.

(** An action answers for itself; an outside call is answered anything and leaves the
    object alone. *)
Definition shared_answers X (c : with_state S E X) (s : S) (r : outcome exn X) (s' : S) : Prop :=
  match c in with_state _ _ X return outcome exn X → Prop with
  | Atomic f => λ r, (r, s') = f s
  | Outside _ => λ _, s' = s
  end r.

(** An action keeps an invariant, whether it returns or throws. *)
Definition keeps (I : S → Prop) {X} (f : action exn S X) : Prop := ∀ s, I s → I (f s).2.

(** A method keeps an invariant: each of its actions does. *)
Definition keeper (I : S → Prop) : monitor (with_state S E) unit :=
  allow_monitor (λ X c, match c with Atomic f => keeps I f | Outside _ => True end) (λ _ _ _, True).

Definition method_keeps (I : S → Prop) {A} (p : prog (with_state S E) A) : Prop :=
  safe (keeper I) p (λ _, True).

(** Methods that keep an invariant keep it together, however they interleave. *)
Lemma pool_keeps {A} (I : S → Prop) (ps : list (prog (with_state S E) A)) s σ :
  Forall (method_keeps I) ps → I s →
  pool_reaches shared_answers (start ps s) σ → I σ.(world).
Proof.
  intros Hps HI Hreach.
  assert (Forall (obedient (keeper I)) σ.(programs) ∧ I σ.(world)) as [_ H]; [|done].
  eapply (pool_invariant shared_answers (λ σ, Forall (obedient (keeper I)) σ.(programs) ∧ I σ.(world)));
    [| |exact Hreach].
  - intros s1 s2 [Hall Hworld] Hstep. destruct Hstep as [qs w h i X c k r w' Hi Hans]. cbn in *.
    pose proof Hall as Hcall. rewrite Forall_lookup in Hcall. specialize (Hcall i _ Hi).
    destruct Hcall as [m Hm]. destruct Hm as [Hallowed Hnext]. split.
    + apply Forall_insert; [done|]. exists tt. by apply Hnext.
    + destruct c as [X f|X c]; cbn in Hans; [|by subst]. cbn in Hallowed.
      specialize (Hallowed w Hworld). by rewrite <- Hans in Hallowed.
  - split; [|done]. cbn. eapply List.Forall_impl; [|exact Hps]. intros p Hp. by apply (safe_obedient _ _ (λ _, True) tt).
Qed.

(** ** Actions that keep an invariant *)

Lemma keeps_return (I : S → Prop) {X} (x : X) : keeps I (mret x).
Proof. by intros s. Qed.
Lemma keeps_read (I : S → Prop) {X} (f : S → X) : keeps I (read f).
Proof. by intros s. Qed.
Lemma keeps_pure (I : S → Prop) {X} (m : outcome exn X) : keeps I (pure_step m).
Proof. by intros s. Qed.
Lemma keeps_bind (I : S → Prop) {X Y} (f : action exn S X) (g : X → action exn S Y) :
  keeps I f → (∀ x, keeps I (g x)) → keeps I (f ≫= g).
Proof.
  intros Hf Hg s Hs. specialize (Hf s Hs). unfold mbind, action_mbind, action_bind.
  destruct (f s) as [[x|e] s']; [by apply Hg|done].
Qed.
Lemma keeps_modify (I : S → Prop) (f : S → S) : (∀ s, I s → I (f s)) → keeps I (modify f).
Proof. intros H s. apply H. Qed.

(** ** Methods that keep an invariant *)

Lemma method_ret (I : S → Prop) {A} (a : A) : method_keeps I (Ret a).
Proof. by apply safe_ret. Qed.
Lemma method_raise (I : S → Prop) {A} e : method_keeps I (Raise (A := A) e).
Proof. by apply safe_raise. Qed.
Lemma method_outcome (I : S → Prop) {A} (m : outcome exn A) : method_keeps I (of_outcome m).
Proof. by apply safe_outcome. Qed.
Lemma method_bind (I : S → Prop) {A B} (p : prog (with_state S E) A) (f : A → prog (with_state S E) B) :
  method_keeps I p → (∀ a, method_keeps I (f a)) → method_keeps I (p ≫= f).
Proof. intros Hp Hf. eapply safe_bind; [exact Hp|]. intros a _. apply Hf. Qed.
Lemma method_try (I : S → Prop) {A} (p : prog (with_state S E) A) h :
  method_keeps I p → (∀ e, method_keeps I (h e)) → method_keeps I (prog_try p h).
Proof. intros. by apply safe_try. Qed.
Lemma method_attempt (I : S → Prop) {A} (p : prog (with_state S E) A) :
  method_keeps I p → method_keeps I (attempt p).
Proof.
  intros Hp. apply method_try; [|intros; apply method_ret].
  apply method_bind; [done|]. intros. apply method_ret.
Qed.
Lemma method_atomic (I : S → Prop) {X} (f : action exn S X) : keeps I f → method_keeps I (atomically f).
Proof. intros Hf. by apply safe_await. Qed.
Lemma method_outside (I : S → Prop) {X} (c : E X) : method_keeps I (outside c).
Proof. by apply safe_await. Qed.
Lemma method_for (I : S → Prop) {A B} (l : list A) (f : B → A → prog (with_state S E) B) acc :
  (∀ acc x, method_keeps I (f acc x)) → method_keeps I (prog_for l f acc).
Proof. intros Hf. apply safe_for; [done|]. intros. apply Hf. Qed.
Lemma method_finally (I : S → Prop) {A} (p : prog (with_state S E) A) cleanup :
  method_keeps I p → (∀ s, I s → I (cleanup s)) → method_keeps I (prog_finally p cleanup).
Proof.
  intros Hp Hc. apply method_bind; [by apply method_attempt|]. intros r.
  apply method_bind; [|intros; apply method_outcome]. by apply method_atomic, keeps_modify.
Qed.
End shared.

Create HintDb keeping.
#[export] Hint Resolve keeps_return keeps_read keeps_pure method_ret method_raise method_outcome
  method_outside : keeping.

(** Follow a method call by call: what is left is its actions. *)
Ltac keep_method :=
  repeat first
    [ solve [eauto with keeping]
    | apply method_bind; [|intros ?]
    | apply method_try; [|intros ?]
    | apply method_attempt
    | apply method_for; intros ? ?
    | apply method_atomic
    | match goal with
      | |- method_keeps _ (match ?x with _ => _ end) => destruct x
      | |- method_keeps _ (if ?x then _ else _) => destruct x
      end ].

(** ** The same, relying on what outside calls answer *)

Section given.
Context {S : Type} {E : Type → Type} (may : ∀ X, E X → outcome exn X → Prop).

Definition given_answers X (c : with_state S E X) (s : S) (r : outcome exn X) (s' : S) : Prop :=
  shared_answers X c s r s' ∧
  match c in with_state _ _ X return outcome exn X → Prop with
  | Atomic _ => λ _, True
  | Outside c => may _ c
  end r.

Lemma given_shared {A} (σ σ' : system (with_state S E) A S) :
  pool_reaches given_answers σ σ' → pool_reaches shared_answers σ σ'.
Proof.
  induction 1 as [|σ1 σ2 σ3 Hstep _ IH]; [apply rtc_refl|]. eapply rtc_l; [|exact IH].
  destruct Hstep as [ps w h i X c k r w' Hi [Hans _]]. by apply Pool_step.
Qed.

Definition given_keeper (I : S → Prop) : monitor (with_state S E) unit :=
  allow_monitor (λ X c, match c with Atomic f => keeps I f | Outside _ => True end)
    (λ X c, match c in with_state _ _ X return outcome exn X → Prop with
            | Atomic _ => λ _, True
            | Outside c => may _ c
            end).

Definition method_given (I : S → Prop) {A} (p : prog (with_state S E) A) : Prop :=
  safe (given_keeper I) p (λ _, True).

Lemma given_ret (I : S → Prop) {A} (a : A) : method_given I (Ret a).
Proof. by apply safe_ret. Qed.
Lemma given_raise (I : S → Prop) {A} e : method_given I (Raise (A := A) e).
Proof. by apply safe_raise. Qed.
Lemma given_outcome (I : S → Prop) {A} (m : outcome exn A) : method_given I (of_outcome m).
Proof. by apply safe_outcome. Qed.
Lemma given_bind (I : S → Prop) {A B} (p : prog (with_state S E) A) (f : A → prog (with_state S E) B) :
  method_given I p → (∀ a, method_given I (f a)) → method_given I (p ≫= f).
Proof. intros Hp Hf. eapply safe_bind; [exact Hp|]. intros a _. apply Hf. Qed.
Lemma given_try (I : S → Prop) {A} (p : prog (with_state S E) A) h :
  method_given I p → (∀ e, method_given I (h e)) → method_given I (prog_try p h).
Proof. intros. by apply safe_try. Qed.
Lemma given_attempt (I : S → Prop) {A} (p : prog (with_state S E) A) :
  method_given I p → method_given I (attempt p).
Proof.
  intros Hp. apply given_try; [|intros; apply given_ret].
  apply given_bind; [done|]. intros. apply given_ret.
Qed.
Lemma given_atomic (I : S → Prop) {X} (f : action exn S X) : keeps I f → method_given I (atomically f).
Proof. intros Hf. by apply safe_await. Qed.
Lemma given_outside (I : S → Prop) {X} (c : E X) : method_given I (outside c).
Proof. by apply safe_await. Qed.
(** What comes after a call may rely on its answer. *)
Lemma given_answer (I : S → Prop) {X A} (c : E X) (f : X → prog (with_state S E) A) :
  (∀ x, may _ c (Return x) → method_given I (f x)) → method_given I (outside c ≫= f).
Proof.
  intros Hf. eapply (safe_bind _ _ _ (λ x, may _ c (Return x))); [|exact Hf].
  by apply safe_await.
Qed.
Lemma given_finally (I : S → Prop) {A} (p : prog (with_state S E) A) cleanup :
  method_given I p → (∀ s, I s → I (cleanup s)) → method_given I (prog_finally p cleanup).
Proof.
  intros Hp Hc. apply given_bind; [by apply given_attempt|]. intros r.
  apply given_bind; [|intros; apply given_outcome]. by apply given_atomic, keeps_modify.
Qed.

Lemma pool_given {A} (I : S → Prop) (ps : list (prog (with_state S E) A)) s σ :
  Forall (method_given I) ps → I s →
  pool_reaches given_answers (start ps s) σ → I σ.(world).
Proof.
  intros Hps HI Hreach.
  enough (Forall (obedient (given_keeper I)) σ.(programs) ∧ I σ.(world)) as [_ H] by done.
  eapply (pool_invariant given_answers (λ σ, Forall (obedient (given_keeper I)) σ.(programs) ∧ I σ.(world)));
    [| |exact Hreach].
  - intros s1 s2 [Hall Hworld] Hstep. destruct Hstep as [qs w h i X c k r w' Hi [Hans Hmay]]. cbn in *.
    pose proof Hall as Hcall. rewrite Forall_lookup in Hcall. specialize (Hcall i _ Hi).
    destruct Hcall as [m [Hallowed Hnext]]. split.
    + apply Forall_insert; [done|]. exists tt. by apply Hnext.
    + destruct c as [X f|X c]; cbn in Hans; [|by subst]. cbn in Hallowed.
      specialize (Hallowed w Hworld). by rewrite <- Hans in Hallowed.
  - split; [|done]. cbn. eapply List.Forall_impl; [|exact Hps]. intros p Hp. by apply (safe_obedient _ _ (λ _, True) tt).
Qed.
End given.

#[export] Hint Resolve given_ret given_raise given_outcome given_outside : keeping.

(** ** What an interleaved method owns and knows

    Methods of one object that interleave call by call share its state.  A method owns
    resources (sessions it opened and has neither handed over nor closed) and knows facts
    about the state.  A fact is worth keeping only if the other methods cannot make it
    false: every action respects a guarantee [G], and a known fact is stable under it.
    [owned] follows a method with both; [pool_owned] puts methods together: no resource
    is ever lost, and every state satisfies the invariant. *)

Open Scope list_scope.

(** ** Multisets as lists *)

Fixpoint remove_one (x : nat) (l : list nat) : list nat :=
  match l with
  | [] => []
  | y :: l => if decide (x = y) then l else y :: remove_one x l
  end.

Definition remove_option (x : option nat) (l : list nat) : list nat :=
  match x with Some x => remove_one x l | None => l end.

Lemma remove_one_perm x l : x ∈ l → l ≡ₚ x :: remove_one x l.
Proof.
  induction l as [|y l IH]; intros Hx; [by apply elem_of_nil in Hx|]. cbn.
  case_decide as Hxy; [by subst|]. apply elem_of_cons in Hx as [->|Hx]; [done|].
  rewrite IH at 1 by done. apply Permutation_swap.
Qed.

Lemma insert_perm {A} (l : list A) i x :
  l !! i = Some x → ∃ rest, l ≡ₚ x :: rest ∧ ∀ y, <[i := y]> l ≡ₚ y :: rest.
Proof.
  intros Hi. exists (take i l ++ drop (S i) l). split.
  - rewrite <- (take_drop_middle l i x Hi) at 1. by rewrite <- Permutation_middle.
  - intros y. rewrite insert_take_drop by by eapply lookup_lt_Some. by rewrite <- Permutation_middle.
Qed.

Lemma concat_perm {A} (l k : list (list A)) : l ≡ₚ k → concat l ≡ₚ concat k.
Proof.
  induction 1 as [|x l k _ IH|x y l|l1 l2 l3 _ IH1 _ IH2]; cbn.
  - done.
  - by rewrite IH.
  - rewrite !(assoc (++)). by rewrite (comm (++) y x).
  - by rewrite IH1.
Qed.

Section ownership.
Context {S : Type} {E : Type → Type}.
(** The invariant, the guarantee, the resources the state holds; the resource a call
    gives, by its answer, and the one it takes. *)
Context (I : S → Prop) (G : S → S → Prop) (held : S → list nat).
Context (opens : ∀ X, E X → outcome exn X → option nat) (closes : ∀ X, E X → option nat).

Definition stable (known : S → Prop) : Prop := ∀ s s', I s → G s s' → known s → known s'.

Definition option_list {A} (x : option A) : list A := match x with Some x => [x] | None => [] end.

(** A call, and what is owned and known after it. *)
Definition call_owned {X} (c : with_state S E X) (own : list nat) (known : S → Prop)
    (K : outcome exn X → list nat → (S → Prop) → Prop) : Prop :=
  match c in with_state _ _ X return (outcome exn X → list nat → (S → Prop) → Prop) → Prop with
  | Atomic f => λ K, ∀ s, I s → known s →
      I (f s).2 ∧ G s (f s).2 ∧
      ∃ own' known', held s ++ own ≡ₚ held (f s).2 ++ own' ∧ stable known' ∧ known' (f s).2 ∧
        K (f s).1 own' known'
  | Outside c => λ K, ∃ rest, own ≡ₚ option_list (closes _ c) ++ rest ∧
      ∀ r, K r (option_list (opens _ c r) ++ rest) known
  end K.

Fixpoint owned {A} (p : prog (with_state S E) A) (own : list nat) (known : S → Prop)
    (Q : outcome exn A → list nat → (S → Prop) → Prop) : Prop :=
  match p with
  | Ret a => Q (Return a) own known
  | Raise e => Q (Throw e) own known
  | Call c k => call_owned c own known (λ r own' known', owned (k r) own' known' Q)
  end.

Lemma call_owned_mono {X} (c : with_state S E X) own known (K K' : _ → _ → _ → Prop) :
  (∀ r own' known', K r own' known' → K' r own' known') →
  call_owned c own known K → call_owned c own known K'.
Proof.
  intros HK. destruct c as [X f|X c]; cbn.
  - intros H s Hs Hknown. destruct (H s Hs Hknown) as (HI & HG & own' & known' & Hheld & Hst & Hk & Hrest).
    split_and!; [done|done|]. exists own', known'. auto.
  - intros (rest & Hown & H). exists rest. auto.
Qed.

Lemma owned_mono {A} (p : prog (with_state S E) A) own known (Q Q' : _ → _ → _ → Prop) :
  (∀ r own' known', Q r own' known' → Q' r own' known') → owned p own known Q → owned p own known Q'.
Proof.
  intros HQ. revert own known. induction p as [a|e|X c k IH]; intros own known; cbn; [apply HQ..|].
  apply call_owned_mono. intros. by apply IH.
Qed.

Lemma owned_bind {A B} (p : prog (with_state S E) A) (f : A → prog (with_state S E) B) own known Q :
  owned p own known (λ r own' known',
    match r with Return a => owned (f a) own' known' Q | Throw e => Q (Throw e) own' known' end) →
  owned (p ≫= f) own known Q.
Proof.
  unfold mbind, prog_mbind. revert own known.
  induction p as [a|e|X c k IH]; intros own known; cbn; [done..|].
  apply call_owned_mono. intros. by apply IH.
Qed.

Lemma owned_try {A} (p : prog (with_state S E) A) h own known Q :
  owned p own known (λ r own' known',
    match r with Return a => Q (Return a) own' known' | Throw e => owned (h e) own' known' Q end) →
  owned (prog_try p h) own known Q.
Proof.
  revert own known. induction p as [a|e|X c k IH]; intros own known; cbn; [done..|].
  apply call_owned_mono. intros. by apply IH.
Qed.

Lemma owned_attempt {A} (p : prog (with_state S E) A) own known (Q : _ → _ → _ → Prop) :
  owned p own known (λ r, Q (Return r)) → owned (attempt p) own known Q.
Proof.
  intros Hp. apply owned_try, owned_bind. eapply owned_mono; [|exact Hp]. by intros [a|e].
Qed.

Lemma owned_outcome {A} (m : outcome exn A) own known (Q : _ → _ → _ → Prop) :
  Q m own known → owned (of_outcome m) own known Q.
Proof. by destruct m. Qed.

Lemma owned_atomic {X} (f : action exn S X) own known (Q : _ → _ → _ → Prop) :
  (∀ s, I s → known s →
     I (f s).2 ∧ G s (f s).2 ∧
     ∃ own' known', held s ++ own ≡ₚ held (f s).2 ++ own' ∧ stable known' ∧ known' (f s).2 ∧
       Q (f s).1 own' known') →
  owned (atomically f) own known Q.
Proof.
  intros H s Hs Hknown. destruct (H s Hs Hknown) as (HI & HG & own' & known' & Hheld & Hst & Hk & HQ).
  split_and!; [done|done|]. exists own', known'. split_and!; [done..|]. by apply owned_outcome.
Qed.

(** An action that changes nothing. *)
Lemma owned_look {X} (f : action exn S X) own known (Q : _ → _ → _ → Prop) :
  (∀ s, G s s) → stable known → (∀ s, (f s).2 = s) → (∀ s, I s → known s → Q (f s).1 own known) →
  owned (atomically f) own known Q.
Proof.
  intros HG Hst Hsame HQ. apply owned_atomic. intros s Hs Hknown. rewrite Hsame.
  split_and!; [done|done|]. exists own, known. auto.
Qed.

Lemma owned_outside {X} (c : E X) own known (Q : _ → _ → _ → Prop) :
  closes _ c = None → (∀ r, Q r (option_list (opens _ c r) ++ own) known) →
  owned (outside c) own known Q.
Proof. intros Hc HQ. exists own. rewrite Hc. split; [done|]. intros r. by apply owned_outcome. Qed.

Lemma owned_closing {X} (c : E X) x own known (Q : _ → _ → _ → Prop) :
  closes _ c = Some x → (∀ r, opens _ c r = None) → (∀ r, Q r own known) →
  owned (outside c) (x :: own) known Q.
Proof.
  intros Hc Ho HQ. exists own. rewrite Hc. split; [done|]. intros r. rewrite Ho. by apply owned_outcome.
Qed.

(** [try { p } finally { cleanup }]. *)
Lemma owned_finally {A} (p : prog (with_state S E) A) cleanup own known (Q : _ → _ → _ → Prop) :
  owned p own known (λ r own' known', owned (atomically (modify cleanup)) own' known' (λ done own'' known'',
    match done with Return _ => Q r own'' known'' | Throw _ => False end)) →
  owned (prog_finally p cleanup) own known Q.
Proof.
  intros Hp. apply owned_bind, owned_attempt. eapply owned_mono; [|exact Hp].
  intros r own' known' H. apply owned_bind. eapply owned_mono; [|exact H].
  intros [[]|e] own'' known'' HQ; [by apply owned_outcome|done].
Qed.

(** ** Methods together *)

(** The world: the object, and the resources there are. *)
Definition accountable X (c : with_state S E X) (w : S * list nat) (r : outcome exn X)
    (w' : S * list nat) : Prop :=
  match c in with_state _ _ X return outcome exn X → Prop with
  | Atomic f => λ r, r = (f w.1).1 ∧ w' = ((f w.1).2, w.2)
  | Outside c => λ r, w' = (w.1, option_list (opens _ c r) ++ remove_option (closes _ c) w.2)
  end r.

Lemma remove_option_perm x l rest :
  l ≡ₚ option_list x ++ rest → remove_option x l ≡ₚ rest.
Proof.
  destruct x as [x|]; cbn; [|done]. intros Hl.
  apply (Permutation_cons_inv (a := x)). rewrite <- Hl. symmetry. apply remove_one_perm.
  rewrite Hl. by left.
Qed.

(** A method whose resources and knowledge are accounted for. *)
Definition settled {A} (Q : outcome exn A → Prop) (p : prog (with_state S E) A) (own : list nat)
    (known : S → Prop) (s : S) : Prop :=
  owned p own known (λ r own' _, own' = [] ∧ Q r) ∧ stable known ∧ known s.

Definition books {A} (Q : outcome exn A → Prop) (σ : system (with_state S E) A (S * list nat)) : Prop :=
  ∃ owns, Forall2 (λ p own, ∃ known, settled Q p own known σ.(world).1) σ.(programs) owns ∧
    I σ.(world).1 ∧ σ.(world).2 ≡ₚ held σ.(world).1 ++ concat owns.

Lemma settled_later {A} Q (p : prog (with_state S E) A) own s s' :
  I s → G s s' → (∃ known, settled Q p own known s) → ∃ known, settled Q p own known s'.
Proof. intros HI HG (known & Hp & Hst & Hk). exists known. split_and!; [done|done|by eapply Hst]. Qed.

Lemma books_step {A} (Q : outcome exn A → Prop) σ σ' :
  (∀ s, G s s) → books Q σ → pool_step accountable σ σ' → books Q σ'.
Proof.
  intros Hrefl (owns & Hps & HI & Hopen) Hstep. destruct Hstep as [ps w h i X c k r w' Hi Hans]. cbn in *.
  destruct (Forall2_lookup_l _ _ _ _ _ Hps Hi) as (own & Hown & known & Hp & Hst & Hknown).
  destruct (insert_perm _ _ _ Hown) as (others & Hothers & Hins).
  assert (I w'.1 ∧ G w.1 w'.1 ∧ ∃ own', (∃ known', settled Q (k r) own' known' w'.1) ∧
    w'.2 ≡ₚ held w'.1 ++ own' ++ concat others) as (HI' & HG & own' & Hsettled & Hopen').
  { rewrite (concat_perm _ _ Hothers) in Hopen. cbn in Hopen. destruct c as [X f|X c]; cbn in Hans, Hp.
    - destruct Hans as [-> ->]. destruct (Hp _ HI Hknown) as (HI' & HG & own' & known' & Hheld & Hst' & Hk' & Hrest).
      split_and!; [done|done|]. exists own'. split; [by exists known'|]. cbn.
      rewrite (assoc (++)), <- Hheld, <- (assoc (++)). exact Hopen.
    - subst w'. destruct Hp as (rest & Hrest & Hk). cbn. split_and!; [done|done|].
      exists (option_list (opens X c r) ++ rest). split; [by exists known|].
      rewrite (remove_option_perm _ _ (held w.1 ++ rest ++ concat others)).
      + by rewrite Permutation_app_swap_app, <- (assoc (++) (option_list _)).
      + rewrite Hopen, Hrest, <- (assoc (++) (option_list _)). apply Permutation_app_swap_app. }
  exists (<[i := own']> owns). split_and!.
  - apply Forall2_insert; [|done]. eapply Forall2_impl; [exact Hps|]. intros p own1 Hp1. cbn in Hp1 |- *.
    by apply (settled_later Q p own1 w.1).
  - done.
  - cbn. rewrite (concat_perm _ _ (Hins own')). exact Hopen'.
Qed.

Lemma books_start {A} (Q : outcome exn A → Prop) (ps : list (prog (with_state S E) A)) s open :
  Forall (λ p, owned p [] (λ _, True) (λ r own' _, own' = [] ∧ Q r)) ps →
  I s → open ≡ₚ held s → books Q (start ps (s, open)).
Proof.
  intros Hps HI Hopen. exists (replicate (length ps) []). cbn. split_and!; [|done|].
  - induction Hps as [|p ps Hp _ IH]; cbn; constructor; [|done]. by exists (λ _, True).
  - rewrite Hopen. clear. rewrite <- (app_nil_r (held s)) at 1. f_equiv.
    induction ps; [done|]. cbn. exact IHps.
Qed.

(** Wherever the methods get, the invariant holds, a finished method ended as [Q] says,
    and the resources there are those the object holds and those owned by methods still
    running. *)
Lemma pool_owned {A} (Q : outcome exn A → Prop) (ps : list (prog (with_state S E) A)) s open σ :
  (∀ s, G s s) → Forall (λ p, owned p [] (λ _, True) (λ r own' _, own' = [] ∧ Q r)) ps →
  I s → open ≡ₚ held s → pool_reaches accountable (start ps (s, open)) σ →
  I σ.(world).1 ∧ (∃ owns, σ.(world).2 ≡ₚ held σ.(world).1 ++ owns) ∧
  (∀ i p r, σ.(programs) !! i = Some p → finished p = Some r → Q r) ∧
  (Forall (λ p, is_Some (finished p)) σ.(programs) → σ.(world).2 ≡ₚ held σ.(world).1).
Proof.
  intros Hrefl Hps HI Hopen Hreach. assert (books Q σ) as (owns & Hall & HI' & Hopen').
  { eapply (pool_invariant accountable); [| |exact Hreach]; [|by apply books_start].
    intros s1 s2. by apply books_step. }
  assert (∀ p own known r, settled Q p own known σ.(world).1 → finished p = Some r → own = [] ∧ Q r) as Hend.
  { intros p own known r (Hp & _). destruct p; cbn in *; [by intros [= <-]..|done]. }
  split_and!; [done|by eexists| |].
  - intros i p r Hi Hr. destruct (Forall2_lookup_l _ _ _ _ _ Hall Hi) as (own & _ & known & Hp).
    by eapply Hend.
  - intros Hfin. rewrite Hopen'. enough (concat owns = []) as -> by by rewrite app_nil_r.
    clear Hopen'. induction Hall as [|p own ps' owns' (known & Hp) Hall' IH]; [done|].
    apply Forall_cons in Hfin as [[r Hr] Hfin]. destruct (Hend _ _ _ _ Hp Hr) as [-> _]. by apply IH.
Qed.
End ownership.

(** ** Rights and tickets

    A method owns rights (a session it opened, the answer it has yet to give); a step may
    hand rights over to the state, a call may grant some, and none is ever lost.  It may also
    hold a ticket: the number of an attempt, issued by a step and never issued again, with
    what is known of it.  The steps of the others may make a ticket worthless, but they keep
    the fact that goes with it.  A method that has ended may still hold a ticket, as a
    receipt. *)

Section accounting.
Context {S : Type} {E : Type → Type} {R T K : Type}.
Context (I : S → Prop) (held : S → list R) (grants : ∀ X, E X → outcome exn X → list R).
Context (issued : S → nat) (fact : K → nat → S → Prop).

(** A ticket: its number and what is known of it. *)
Definition held_ticket : Type := option (nat * K).
Definition ticket_number (ticket : held_ticket) : option nat := fst <$> ticket.

Definition valid_ticket (ticket : held_ticket) (s : S) : Prop :=
  ∀ t k, ticket = Some (t, k) → (t < issued s)%nat ∧ fact k t s.

Definition ticket_step (s s' : S) (ticket ticket' : held_ticket) : Prop :=
  I s' ∧ (issued s ≤ issued s')%nat ∧
  (∀ t k, (t < issued s)%nat → ticket_number ticket ≠ Some t → fact k t s → fact k t s') ∧
  valid_ticket ticket' s' ∧
  (∀ t, ticket_number ticket' = Some t → ticket_number ticket = Some t ∨ (issued s ≤ t)%nat).

Definition call_accounts {X} (c : with_state S E X) (own : list R) (ticket : held_ticket)
    (K : outcome exn X → list R → held_ticket → Prop) : Prop :=
  match c in with_state _ _ X return (outcome exn X → list R → held_ticket → Prop) → Prop with
  | Atomic f => λ K, ∀ s, I s → valid_ticket ticket s → ∃ own' ticket',
      ticket_step s (f s).2 ticket ticket' ∧ held s ++ own ≡ₚ held (f s).2 ++ own' ∧
      K (f s).1 own' ticket'
  | Outside c => λ K, ∀ r, K r (grants _ c r ++ own) ticket
  end K.

Fixpoint accounts {A} (p : prog (with_state S E) A) (own : list R) (ticket : held_ticket)
    (Q : outcome exn A → list R → held_ticket → Prop) : Prop :=
  match p with
  | Ret a => Q (Return a) own ticket
  | Raise e => Q (Throw e) own ticket
  | Call c k => call_accounts c own ticket (λ r own' ticket', accounts (k r) own' ticket' Q)
  end.

(** An action, then the rest. *)
Lemma accounts_atomic {X A} (f : action exn S X) (k : outcome exn X → prog (with_state S E) A) own ticket Q :
  (∀ s, I s → valid_ticket ticket s → ∃ own' ticket',
     ticket_step s (f s).2 ticket ticket' ∧ held s ++ own ≡ₚ held (f s).2 ++ own' ∧
     accounts (k (f s).1) own' ticket' Q) →
  accounts (Call (Atomic f) k) own ticket Q.
Proof. done. Qed.

(** The rights that the answers of a run have granted. *)
Definition granted (h : list (event (with_state S E))) : list R :=
  concat (List.map (λ e, match e with
    | Event c r =>
        match c in with_state _ _ X return outcome exn X → list R with
        | Atomic _ => λ _, []
        | Outside c => λ r, grants _ c r
        end r
    end) h).

Lemma granted_snoc h e : granted (h ++ [e]) = granted h ++ granted [e].
Proof. unfold granted. by rewrite List.map_app, concat_app. Qed.

Context {A : Type} (Q : T → outcome exn A → list R → held_ticket → Prop).

Definition holding : Type := T * list R * held_ticket.

Definition entry_ok (s : S) (p : prog (with_state S E) A) (a : holding) : Prop :=
  accounts p a.1.2 a.2 (Q a.1.1) ∧ valid_ticket a.2 s.

Definition one_holder (accs : list holding) : Prop :=
  ∀ i j a b t, accs !! i = Some a → accs !! j = Some b →
    ticket_number a.2 = Some t → ticket_number b.2 = Some t → i = j.

Definition rights_of (accs : list holding) : list R := concat (List.map (λ a : holding, a.1.2) accs).

Definition ledger (tags : list T) (given : list R) (σ : system (with_state S E) A S) : Prop :=
  ∃ accs, Forall2 (entry_ok σ.(world)) σ.(programs) accs ∧ one_holder accs ∧ I σ.(world) ∧
    given ++ granted σ.(history) ≡ₚ held σ.(world) ++ rights_of accs ∧
    List.map (λ a : holding, a.1.1) accs = tags.

Lemma map_insert {X Y} (f : X → Y) (l : list X) i x :
  List.map f (<[i := x]> l) = <[i := f x]> (List.map f l).
Proof. revert i. induction l as [|y l IH]; intros [|i]; cbn; [done..|]. by rewrite IH. Qed.

Lemma map_lookup {X Y} (f : X → Y) (l : list X) i x :
  l !! i = Some x → List.map f l !! i = Some (f x).
Proof. revert i. induction l as [|y l IH]; intros [|i]; cbn; [done..|by intros [= ->]|apply IH]. Qed.

Lemma rights_insert accs i a0 a :
  accs !! i = Some a0 →
  rights_of accs ≡ₚ a0.1.2 ++ rights_of (delete i accs) ∧
  rights_of (<[i := a]> accs) ≡ₚ a.1.2 ++ rights_of (delete i accs).
Proof.
  intros Hi. pose proof (lookup_lt_Some _ _ _ Hi). unfold rights_of. split.
  - rewrite <- (take_drop_middle accs i a0 Hi) at 1. rewrite delete_take_drop, !List.map_app, !concat_app. cbn.
    apply Permutation_app_swap_app.
  - rewrite insert_take_drop by done. rewrite delete_take_drop, !List.map_app, !concat_app. cbn.
    apply Permutation_app_swap_app.
Qed.

Lemma one_holder_insert accs i a0 a s :
  one_holder accs → accs !! i = Some a0 →
  (∀ j b, accs !! j = Some b → valid_ticket b.2 s) →
  (∀ t, ticket_number a.2 = Some t → ticket_number a0.2 = Some t ∨ (issued s ≤ t)%nat) →
  one_holder (<[i := a]> accs).
Proof.
  intros Hone Hi Hvalid Hnew j k b c t Hj Hk Hb Hc.
  apply list_lookup_insert_Some in Hj, Hk.
  assert (∀ j b, accs !! j = Some b → ticket_number b.2 = Some t → ticket_number a.2 = Some t → j = i) as Hother.
  { intros j' b' Hj' Hb' Ha. destruct (Hnew t Ha) as [Ha0|Hge]; [by eapply Hone|].
    apply fmap_Some in Hb' as ([t' k'] & Hb' & ->). destruct (Hvalid _ _ Hj' t' k' Hb') as [? _]. cbn in *. lia. }
  destruct Hj as [(-> & <- & _)|[_ Hj]], Hk as [(-> & <- & _)|[_ Hk]]; [done| | |by eapply Hone].
  - symmetry. by eapply Hother.
  - by eapply Hother.
Qed.

(** The tickets of the others stay valid. *)
Lemma others_valid accs i a0 s s' ticket' :
  one_holder accs → accs !! i = Some a0 → ticket_step s s' a0.2 ticket' →
  ∀ j b, j ≠ i → accs !! j = Some b → valid_ticket b.2 s → valid_ticket b.2 s'.
Proof.
  intros Hone Hi (_ & Hle & Hkeep & _) j b Hne Hj Hb t k Ht. destruct (Hb t k Ht) as [Hlt Hfact].
  split; [lia|]. apply Hkeep; [done| |done]. intros Ha0. apply Hne. eapply Hone; [done|done| |exact Ha0].
  by rewrite Ht.
Qed.

(** Replace the holding of one program. *)
Lemma ledger_update tags given ps s h i accs (a0 : holding) own' ticket' s' p' :
  Forall2 (entry_ok s) ps accs → one_holder accs → accs !! i = Some a0 →
  List.map (λ a : holding, a.1.1) accs = tags →
  ticket_step s s' a0.2 ticket' → accounts p' own' ticket' (Q a0.1.1) →
  given ++ granted h ≡ₚ held s' ++ own' ++ rights_of (delete i accs) →
  ledger tags given (mkSystem (<[i := p']> ps) s' h).
Proof.
  intros Hall Hone Hi Htags Hstep Hacc Hopen. pose proof Hstep as (HI & Hle & _ & Hvalid & Hnew).
  assert (∀ j b, accs !! j = Some b → valid_ticket b.2 s) as Hvalids.
  { intros j b Hj. destruct (Forall2_lookup_r _ _ _ _ _ Hall Hj) as (p & _ & _ & Hb). done. }
  exists (<[i := (a0.1.1, own', ticket')]> accs). cbn. split_and!; [|by eapply one_holder_insert|done| |].
  - apply Forall2_same_length_lookup. rewrite !length_insert. split; [by eapply Forall2_length|].
    intros j p b Hj Hb. apply list_lookup_insert_Some in Hj, Hb.
    destruct Hb as [(-> & <- & _)|[Hne Hb]].
    + destruct Hj as [(_ & <- & _)|[? _]]; [|done]. by split.
    + destruct Hj as [(-> & _)|[_ Hj]]; [done|].
      destruct (Forall2_lookup_lr _ _ _ _ _ _ Hall Hj Hb) as [Hb1 Hb2]. split; [done|].
      by eapply (others_valid accs i a0 s s').
  - rewrite Hopen. f_equiv. symmetry. by apply (rights_insert accs i a0 (a0.1.1, own', ticket')).
  - rewrite map_insert. cbn. rewrite <- Htags. apply list_insert_id.
    apply (map_lookup (λ a : holding, a.1.1) _ _ _ Hi).
Qed.

Lemma ledger_step tags given σ σ' : ledger tags given σ → pool_step shared_answers σ σ' → ledger tags given σ'.
Proof.
  intros (accs & Hall & Hone & HI & Hopen & Htags) Hstep.
  destruct Hstep as [ps s h i X c k r s' Hp Hans]. cbn in *.
  destruct (Forall2_lookup_l _ _ _ _ _ Hall Hp) as (a0 & Hi & Hacc & Hvalid).
  destruct (rights_insert accs i a0 a0 Hi) as [Hrights _]. rewrite Hrights in Hopen.
  destruct c as [X f|X c]; cbn in Hans, Hacc.
  - destruct (Hacc _ HI Hvalid) as (own' & ticket' & Hstep & Hheld & Hrest). rewrite <- Hans in *. cbn in *.
    eapply ledger_update; try done. rewrite granted_snoc. cbn. rewrite app_nil_r, Hopen, (assoc (++)), Hheld.
    by rewrite <- (assoc (++)).
  - subst s'. eapply (ledger_update _ _ _ _ _ _ _ _ (grants X c r ++ a0.1.2) a0.2); [done..| |by apply Hacc|].
    + split_and!; [done|done|done|done|]. intros t Ht. by left.
    + rewrite granted_snoc, (assoc (++)), Hopen. cbn. rewrite app_nil_r.
      rewrite (Permutation_app_comm _ (grants X c r)), Permutation_app_swap_app. by rewrite <- (assoc (++) (grants X c r)).
Qed.

Lemma ledger_start (starts : list (T * prog (with_state S E) A * list R)) s given :
  Forall (λ x, accounts x.1.2 x.2 None (Q x.1.1)) starts → I s →
  given ≡ₚ held s ++ concat (List.map snd starts) →
  ledger (List.map (λ x, x.1.1) starts) given (start (List.map (λ x, x.1.2) starts) s).
Proof.
  intros Hall HI Hopen. exists (List.map (λ x, (x.1.1, x.2, None)) starts). cbn. split_and!; [| |done| |].
  - clear Hopen. induction Hall as [|x l Hx _ IH]; cbn; constructor; [|done]. split; [done|]. by intros t.
  - intros i j a b t Hi _ Ha. apply list_elem_of_lookup_2, list_elem_of_In, in_map_iff in Hi as (x & <- & _). done.
  - rewrite app_nil_r, Hopen. f_equiv. unfold rights_of. by rewrite List.map_map.
  - rewrite List.map_map. by apply List.map_ext.
Qed.

(** Wherever the programs get, no right is lost: those given and granted lie with the state or
    with a program, and a program that has finished keeps what [Q] says; tickets are
    valid, and no two programs hold the same. *)
Lemma pool_accounts (starts : list (T * prog (with_state S E) A * list R)) s given σ :
  Forall (λ x, accounts x.1.2 x.2 None (Q x.1.1)) starts → I s →
  given ≡ₚ held s ++ concat (List.map snd starts) →
  pool_reaches shared_answers (start (List.map (λ x, x.1.2) starts) s) σ →
  I σ.(world) ∧ ∃ accs : list holding, one_holder accs ∧
    List.map (λ a, a.1.1) accs = List.map (λ x, x.1.1) starts ∧
    given ++ granted σ.(history) ≡ₚ held σ.(world) ++ rights_of accs ∧
    Forall2 (λ p a, valid_ticket a.2 σ.(world) ∧ ∀ r, finished p = Some r → Q a.1.1 r a.1.2 a.2) σ.(programs) accs.
Proof.
  intros Hall HI Hopen Hreach.
  assert (ledger (List.map (λ x, x.1.1) starts) given σ) as (accs & Hps & Hone & HI' & Hopen' & Htags).
  { eapply (pool_invariant shared_answers); [intros s1 s2; apply ledger_step|by apply ledger_start|exact Hreach]. }
  split; [done|]. exists accs. split_and!; [done..|]. eapply Forall2_impl; [exact Hps|].
  intros p a [Hacc Hvalid]. split; [done|]. intros r Hr. destruct p; cbn in *; first [by injection Hr as <-|done].
Qed.
End accounting.

(** ** A method and what its steps do to the state

    A monitor of the calls out that also sees each step on the state.  Between two steps
    the rest of the program may leave the state in any way. *)

Section watching.
Context {S : Type} {E : Type → Type} {M : Type} (mon : monitor E M) (seen : S → S → M → M).

Definition call_watched {X} (c : with_state S E X) (m : M) (K : outcome exn X → M → Prop) : Prop :=
  match c in with_state _ _ X return (outcome exn X → M → Prop) → Prop with
  | Atomic f => λ K, ∀ s, K (f s).1 (seen s (f s).2 m)
  | Outside c => λ K, allowed mon m c ∧ ∀ r, possible mon c r → K r (watch mon m c r)
  end K.

Fixpoint watched {A} (p : prog (with_state S E) A) (m : M) (Q : outcome exn A → M → Prop) : Prop :=
  match p with
  | Ret a => Q (Return a) m
  | Raise e => Q (Throw e) m
  | Call c k => call_watched c m (λ r m', watched (k r) m' Q)
  end.

Lemma call_watched_mono {X} (c : with_state S E X) m (K K' : outcome exn X → M → Prop) :
  (∀ r m, K r m → K' r m) → call_watched c m K → call_watched c m K'.
Proof.
  intros HK. destruct c as [X f|X c]; cbn; [by intros H s; apply HK|].
  intros [Hc H]. split; [done|]. intros r Hr. by apply HK, H.
Qed.

Lemma watched_mono {A} (p : prog (with_state S E) A) m (Q Q' : outcome exn A → M → Prop) :
  (∀ r m, Q r m → Q' r m) → watched p m Q → watched p m Q'.
Proof.
  intros HQ. revert m. induction p as [a|e|X c k IH]; intros m; cbn; [apply HQ..|].
  apply call_watched_mono. intros. by apply IH.
Qed.

Lemma watched_bind {A B} (p : prog (with_state S E) A) (f : A → prog (with_state S E) B) m Q :
  watched p m (λ r m, match r with Return a => watched (f a) m Q | Throw e => Q (Throw e) m end) →
  watched (p ≫= f) m Q.
Proof.
  unfold mbind, prog_mbind. revert m. induction p as [a|e|X c k IH]; intros m; cbn; [done..|].
  apply call_watched_mono. intros. by apply IH.
Qed.

Lemma watched_try {A} (p : prog (with_state S E) A) h m Q :
  watched p m (λ r m, match r with Return a => Q (Return a) m | Throw e => watched (h e) m Q end) →
  watched (prog_try p h) m Q.
Proof.
  revert m. induction p as [a|e|X c k IH]; intros m; cbn; [done..|].
  apply call_watched_mono. intros. by apply IH.
Qed.

Lemma watched_attempt {A} (p : prog (with_state S E) A) m (Q : outcome exn (outcome exn A) → M → Prop) :
  watched p m (λ r, Q (Return r)) → watched (attempt p) m Q.
Proof. intros Hp. apply watched_try, watched_bind. eapply watched_mono; [|exact Hp]. by intros [a|e]. Qed.

Lemma watched_outcome {A} (o : outcome exn A) m (Q : outcome exn A → M → Prop) : Q o m → watched (of_outcome o) m Q.
Proof. by destruct o. Qed.

Lemma watched_atomic {X} (f : action exn S X) m (Q : outcome exn X → M → Prop) :
  (∀ s, Q (f s).1 (seen s (f s).2 m)) → watched (atomically f) m Q.
Proof. intros HQ s. by apply watched_outcome. Qed.

Lemma watched_outside {X} (c : E X) m (Q : outcome exn X → M → Prop) :
  allowed mon m c → (∀ r, possible mon c r → Q r (watch mon m c r)) → watched (outside c) m Q.
Proof. intros Hc HQ. split; [done|]. intros r Hr. by apply watched_outcome, HQ. Qed.
(** A run whose calls out are answered by [handle], with what is seen of it. *)
Context (handle : ∀ X, E X → S → outcome exn X * S).

Fixpoint watch_run {A} (p : prog (with_state S E) A) (s : S) (m : M) : outcome exn A * M :=
  match p with
  | Ret a => (Return a, m)
  | Raise e => (Throw e, m)
  | Call c k =>
      match c in with_state _ _ X return (outcome exn X → S → M → outcome exn A * M) → outcome exn A * M with
      | Atomic f => λ go, go (f s).1 (f s).2 (seen s (f s).2 m)
      | Outside c => λ go, go (handle _ c s).1 (handle _ c s).2 (watch mon m c (handle _ c s).1)
      end (λ r s m, watch_run (k r) s m)
  end.

Lemma watched_run {A} (p : prog (with_state S E) A) s m Q :
  (∀ X (c : E X) s, possible mon c (handle X c s).1) → watched p m Q →
  Q (watch_run p s m).1 (watch_run p s m).2.
Proof.
  intros Hpossible. revert s m. induction p as [a|e|X c k IH]; intros s m; cbn; [done..|].
  destruct c as [X f|X c]; cbn; [intros H; apply IH, H|]. intros [_ H]. by apply IH, H.
Qed.
End watching.
