(* ===== verification/Locks.v ===== *)
(** * Shared attempts as locks

    A class that shares running attempts keeps, per key, the promise of the attempt that
    runs: a lock.  A method that finds no attempt claims the lock and runs; it releases the
    lock when it is done, or leaves the attempt to a background task.  The holder of a lock
    knows facts about the state; they last because every step of another method is
    [quiet] about the lock.  [pool_locked] puts the methods together: a lock has one
    holder at a time, and what is locked is locked by a method or a task that still runs.
    Once the object is [closed] (disposed) its locks mean nothing. *)

From S2P Require Import Prelude.
From S2P Require Import Errors.
From S2P Require Import Prog.
From S2P Require Import SharedState.
Open Scope list_scope.

Section locks.
Context {S N : Type} {E : Type → Type}.
(** The invariant, who holds a lock, what a step leaves alone of a lock, and the lock a
    call is made under. *)
Context (I : S → Prop) (closed : S → Prop) (holder : S → N → option nat) (quiet : N → S → S → Prop)
  (under : ∀ X, E X → option N).

(** A lock, the attempt that holds it, and what its owner knows. *)
Definition held_lock : Type := N * nat * (S → Prop).
Definition lock_name (h : held_lock) : N := h.1.1.
(** The locks of the background tasks. *)
Context (waiting : S → list held_lock).

Definition lasting (n : N) (known : S → Prop) : Prop :=
  ∀ s s', I s → I s' → quiet n s s' → known s → known s'.

Definition holds (h : held_lock) (s : S) : Prop :=
  let '(n, p, known) := h in holder s n = Some p ∧ known s ∧ lasting n known.

Definition owned_locks (own : option held_lock) : list held_lock :=
  match own with Some h => [h] | None => [] end.

(** What a method may rely on: its own lock and those of the tasks are held. *)
Definition aware (own : option held_lock) (s : S) : Prop := ∀ h, own = Some h ∨ h ∈ waiting s → holds h s.

(** What a step does to the locks: nothing; it claims one, for the method or for a task;
    it releases that of the method; it takes that of a task.  An owner may learn. *)
Inductive lock_move (s s' : S) : option held_lock → option held_lock → Prop :=
| Move_stays own :
    waiting s' = waiting s → (∀ m, holder s' m = holder s m) → lock_move s s' own own
| Move_learns n p known known' :
    waiting s' = waiting s → (∀ m, holder s' m = holder s m) →
    lock_move s s' (Some (n, p, known)) (Some (n, p, known'))
| Move_claims n p known :
    waiting s' = waiting s → holder s n = None → (∀ m q, holder s' m = Some q ↔ holder s m = Some q ∨ (m, q) = (n, p)) →
    lock_move s s' None (Some (n, p, known))
| Move_spawns own n p known :
    waiting s' = waiting s ++ [(n, p, known)] → holder s n = None →
    (∀ m q, holder s' m = Some q ↔ holder s m = Some q ∨ (m, q) = (n, p)) → holds (n, p, known) s' →
    lock_move s s' own own
| Move_releases n p known :
    waiting s' = waiting s → (∀ m q, holder s' m = Some q ↔ holder s m = Some q ∧ (m, q) ≠ (n, p)) →
    lock_move s s' (Some (n, p, known)) None
| Move_takes h :
    waiting s ≡ₚ h :: waiting s' → (∀ m, holder s' m = holder s m) → lock_move s s' None (Some h).

(** An admissible step of a method that owns [own], in a state it knows. *)
Definition step_locks (s s' : S) (own own' : option held_lock) : Prop :=
  I s' ∧ lock_move s s' own own' ∧
  (∀ n p, holder s n = Some p → n ∉ lock_name <$> owned_locks own → quiet n s s') ∧
  (∀ h, own' = Some h → holds h s').

Definition call_locking {X} (c : with_state S E X) (own : option held_lock)
    (K : outcome exn X → option held_lock → Prop) : Prop :=
  match c in with_state _ _ X return (outcome exn X → option held_lock → Prop) → Prop with
  | Atomic f => λ K, ∀ s, I s → aware own s →
      closed (f s).2 ∨ ∃ own', step_locks s (f s).2 own own' ∧ K (f s).1 own'
  | Outside c => λ K,
      (∀ n, under _ c = Some n → ∃ p known, own = Some (n, p, known)) ∧ ∀ r, K r own
  end K.

Fixpoint locking {A} (p : prog (with_state S E) A) (own : option held_lock)
    (Q : outcome exn A → option held_lock → Prop) : Prop :=
  match p with
  | Ret a => Q (Return a) own
  | Raise e => Q (Throw e) own
  | Call c k => call_locking c own (λ r own', locking (k r) own' Q)
  end.

(** ** The locks of all methods and tasks *)

Record sound (all : list held_lock) (s : S) : Prop := {
  sound_names : NoDup (lock_name <$> all);
  sound_holds : Forall (λ h, holds h s) all;
  sound_covers n p : holder s n = Some p → ∃ known, (n, p, known) ∈ all;
}.

Lemma sound_perm all all' s : all ≡ₚ all' → sound all s → sound all' s.
Proof.
  intros Hp [Hn Hh Hc]. split.
  - by rewrite <- Hp.
  - by rewrite <- Hp.
  - intros n p Hnp. destruct (Hc n p Hnp) as [known Hk]. exists known. by rewrite <- Hp.
Qed.

Lemma sound_held all s n p known : sound all s → (n, p, known) ∈ all → holder s n = Some p.
Proof. intros [_ Hh _] Hin. rewrite Forall_forall in Hh. by destruct (Hh _ Hin). Qed.

Lemma sound_fresh all s n : sound all s → holder s n = None → n ∉ lock_name <$> all.
Proof.
  intros Hs Hn ([[m p] known] & -> & Hin)%list_elem_of_fmap. cbn in Hn.
  apply (sound_held _ _ _ _ _ Hs) in Hin. by rewrite Hin in Hn.
Qed.

Lemma own_holds own s : (∀ h, own = Some h → holds h s) → Forall (λ h, holds h s) (owned_locks own).
Proof. intros H. destruct own as [h|]; [|done]. apply Forall_singleton. by apply H. Qed.

(** The locks of the others stay what they are. *)
Lemma move_keeps s s' own own' n p :
  lock_move s s' own own' → holder s n = Some p → n ∉ lock_name <$> owned_locks own → holder s' n = Some p.
Proof.
  intros Hm Hn Hown. destruct Hm as [own _ Hs'|m q k k' _ Hs'|m q k _ _ Hs'|own m q k _ _ Hs' _|m q k _ Hs'|h _ Hs'];
    try (by rewrite Hs'); apply Hs'; [by left|by left|].
  split; [done|]. intros [= -> ->]. apply Hown. by left.
Qed.

Lemma others_hold s s' own own' rest :
  I s → step_locks s s' own own' → NoDup (lock_name <$> owned_locks own ++ rest) →
  Forall (λ h, holds h s) rest → Forall (λ h, holds h s') rest.
Proof.
  intros HI (HI' & Hmove & Hquiet & _) Hnames Hrest. rewrite fmap_app in Hnames.
  apply NoDup_app in Hnames as (_ & Hdisj & _). rewrite Forall_forall in Hrest |- *.
  intros [[n p] known] Hin. destruct (Hrest _ Hin) as (Hn & Hk & Hl).
  assert (n ∉ lock_name <$> owned_locks own) as Hnot.
  { intros Hno. apply (Hdisj n Hno). apply list_elem_of_fmap. by exists (n, p, known). }
  split_and!; [by eapply move_keeps| |done]. eapply Hl; [exact HI|exact HI'| |done]. by eapply Hquiet.
Qed.

Lemma step_sound s s' own own' rest :
  I s → step_locks s s' own own' → sound (owned_locks own ++ waiting s ++ rest) s →
  sound (owned_locks own' ++ waiting s' ++ rest) s'.
Proof.
  intros HI Hstep Hs. pose proof Hs as [Hnames Hholds Hcovers].
  pose proof (others_hold _ _ _ _ _ HI Hstep Hnames (proj2 (proj1 (Forall_app _ _ _) Hholds))) as Hothers.
  destruct Hstep as (_ & Hmove & _ & Hown).
  destruct Hmove as [own Hw Hh|n p k k' Hw Hh|n p k Hw Hnone Hs'|own n p k Hw Hnone Hs' Hnew|n p k Hw Hs'|h Hw Hh].
  - rewrite Hw. split; [done| |intros m q; rewrite Hh; apply Hcovers]. apply Forall_app. split; [by apply own_holds|done].
  - rewrite Hw. split; [done| |].
    + apply Forall_app. split; [by apply own_holds|done].
    + intros m q. rewrite Hh. intros Hmq. destruct (Hcovers m q Hmq) as [known [[= -> -> ->]|Hin]%elem_of_cons].
      * exists k'. by left.
      * exists known. by right.
  - rewrite Hw. split.
    + cbn. constructor; [|done]. by apply (sound_fresh _ _ _ Hs).
    + constructor; [by apply Hown|done].
    + intros m q [Hmq|[= -> ->]]%Hs'; [|exists k; by left].
      destruct (Hcovers m q Hmq) as [known Hin]. exists known. by right.
  - apply (sound_perm ((n, p, k) :: owned_locks own ++ waiting s ++ rest)).
    { rewrite Hw, <- (assoc (++)). rewrite Permutation_middle. f_equiv. by rewrite Permutation_middle. }
    split.
    + cbn. constructor; [|done]. by apply (sound_fresh _ _ _ Hs).
    + constructor; [done|]. apply Forall_app. split; [by apply own_holds|done].
    + intros m q [Hmq|[= -> ->]]%Hs'; [|exists k; by left].
      destruct (Hcovers m q Hmq) as [known Hin]. exists known. by right.
  - rewrite Hw. cbn in *. apply NoDup_cons in Hnames as [Hn Hnames]. split; [done|done|].
    intros m q [Hmq Hne]%Hs'. destruct (Hcovers m q Hmq) as [known [[= -> -> ->]|Hin]%elem_of_cons]; [done|].
    by exists known.
  - apply (sound_perm _ (owned_locks (Some h) ++ waiting s' ++ rest)) in Hs; [|by rewrite Hw].
    clear Hnames Hholds Hcovers. destruct Hs as [Hnames _ Hcovers]. split; [done| |intros m q; rewrite Hh; apply Hcovers].
    constructor; [by apply Hown|]. rewrite Hw in Hothers. by apply Forall_cons in Hothers as [_ ?].
Qed.

(** ** Rules for programs *)

Lemma call_locking_mono {X} (c : with_state S E X) own (K K' : _ → _ → Prop) :
  (∀ r own', K r own' → K' r own') → call_locking c own K → call_locking c own K'.
Proof.
  intros HK. destruct c as [X f|X c]; cbn.
  - intros H s HI Hown. destruct (H s HI Hown) as [Hcl|(own' & Hs & Hr)]; [by left|].
    right. exists own'. auto.
  - intros [Hn H]. auto.
Qed.

Lemma locking_mono {A} (p : prog (with_state S E) A) own (Q Q' : outcome exn A → option held_lock → Prop) :
  (∀ r own', Q r own' → Q' r own') → locking p own Q → locking p own Q'.
Proof.
  intros HQ. revert own. induction p as [a|e|X c k IH]; intros own; cbn; [apply HQ..|].
  apply call_locking_mono. intros. by apply IH.
Qed.

Lemma locking_bind {A B} (p : prog (with_state S E) A) (f : A → prog (with_state S E) B) own Q :
  locking p own (λ r own', match r with Return a => locking (f a) own' Q | Throw e => Q (Throw e) own' end) →
  locking (p ≫= f) own Q.
Proof.
  unfold mbind, prog_mbind. revert own. induction p as [a|e|X c k IH]; intros own; cbn; [done..|].
  apply call_locking_mono. intros. by apply IH.
Qed.

Lemma locking_try {A} (p : prog (with_state S E) A) h own Q :
  locking p own (λ r own', match r with Return a => Q (Return a) own' | Throw e => locking (h e) own' Q end) →
  locking (prog_try p h) own Q.
Proof.
  revert own. induction p as [a|e|X c k IH]; intros own; cbn; [done..|].
  apply call_locking_mono. intros. by apply IH.
Qed.

Lemma locking_attempt {A} (p : prog (with_state S E) A) own (Q : _ → _ → Prop) :
  locking p own (λ r, Q (Return r)) → locking (attempt p) own Q.
Proof. intros Hp. apply locking_try, locking_bind. eapply locking_mono; [|exact Hp]. by intros [a|e]. Qed.

Lemma locking_outcome {A} (m : outcome exn A) own (Q : _ → _ → Prop) : Q m own → locking (of_outcome m) own Q.
Proof. by destruct m. Qed.

Lemma locking_atomic {X} (f : action exn S X) own (Q : _ → _ → Prop) :
  (∀ s, I s → aware own s →
     closed (f s).2 ∨ ∃ own', step_locks s (f s).2 own own' ∧ Q (f s).1 own') →
  locking (atomically f) own Q.
Proof.
  intros H s HI Hown. destruct (H s HI Hown) as [Hcl|(own' & Hs & HQ)]; [by left|].
  right. exists own'. split; [done|]. by apply locking_outcome.
Qed.

Lemma locking_outside {X} (c : E X) own (Q : _ → _ → Prop) :
  (∀ n, under _ c = Some n → ∃ p known, own = Some (n, p, known)) → (∀ r, Q r own) →
  locking (outside c) own Q.
Proof. intros Hc HQ. split; [done|]. intros r. by apply locking_outcome. Qed.

Lemma locking_finally {A} (p : prog (with_state S E) A) cleanup own (Q : _ → _ → Prop) :
  locking p own (λ r own', locking (atomically (modify cleanup)) own' (λ done own'',
    match done with Return _ => Q r own'' | Throw _ => False end)) →
  locking (prog_finally p cleanup) own Q.
Proof.
  intros Hp. apply locking_bind, locking_attempt. eapply locking_mono; [|exact Hp].
  intros r own' H. apply locking_bind. eapply locking_mono; [|exact H].
  intros [[]|e] own''; [by apply locking_outcome|done].
Qed.

(** *** Methods that keep to themselves

    A mild action changes no lock, or leaves a new one to a task; whatever is owned and
    known stays so.  A gentle method takes only mild actions and calls nothing that needs
    a lock. *)

Definition mild_move (s s' : S) : Prop :=
  I s' ∧ (∀ n p, holder s n = Some p → holder s' n = Some p ∧ quiet n s s') ∧ ∀ own, lock_move s s' own own.

Definition mild {X} (f : action exn S X) : Prop :=
  ∀ s, I s → closed (f s).2 ∨ mild_move s (f s).2.

Lemma mild_step s s' own :
  I s → aware own s → mild_move s s' → step_locks s s' own own.
Proof.
  intros HI Hown (HI' & Hq & Hm). split_and!; [done|done| |].
  - intros n p Hn _. by eapply Hq.
  - intros [[n p] known] ->. destruct (Hown _ (or_introl eq_refl)) as (Hn & Hk & Hl). destruct (Hq _ _ Hn) as [Hn' Hquiet].
    split_and!; [done|by apply (Hl s s')|done].
Qed.

Definition gentle_monitor (lock : option N) : monitor (with_state S E) unit :=
  allow_monitor (λ X c, match c with
                        | Atomic f => mild f ∧ keeps closed f
                        | Outside c => ∀ n, under _ c = Some n → lock = Some n
                        end) (λ _ _ _, True).
Definition gentle (lock : option N) {A} (p : prog (with_state S E) A) : Prop :=
  safe (gentle_monitor lock) p (λ _, True).

Lemma gentle_locking {A} (p : prog (with_state S E) A) own (Q : _ → _ → Prop) :
  gentle (lock_name <$> own) p → (∀ r, Q r own) → locking p own Q.
Proof.
  intros Hp HQ. specialize (Hp tt). revert Hp.
  induction p as [a|e|X c k IH]; cbn; intros Hp; [apply HQ..|]. destruct Hp as [Hc Hk].
  destruct c as [X f|X c]; cbn in Hc |- *.
  - intros s HI Hown. destruct (proj1 Hc s HI) as [Hcl|Hmove]; [by left|right].
    exists own. split; [by apply mild_step|]. by apply IH, Hk.
  - split; [|intros r; by apply IH, Hk]. intros n Hn. apply Hc in Hn.
    destruct own as [[[m p] known]|]; [|done]. injection Hn as <-. by exists p, known.
Qed.

Section gentle.
Context (lock : option N).
Lemma gentle_ret {A} (a : A) : gentle lock (Ret a).
Proof. by apply safe_ret. Qed.
Lemma gentle_raise {A} e : gentle lock (Raise (A := A) e).
Proof. by apply safe_raise. Qed.
Lemma gentle_outcome {A} (m : outcome exn A) : gentle lock (of_outcome m).
Proof. by apply safe_outcome. Qed.
Lemma gentle_bind {A B} (p : prog (with_state S E) A) (f : A → prog (with_state S E) B) :
  gentle lock p → (∀ a, gentle lock (f a)) → gentle lock (p ≫= f).
Proof. intros Hp Hf. eapply safe_bind; [exact Hp|]. intros a _. apply Hf. Qed.
Lemma gentle_try {A} (p : prog (with_state S E) A) h :
  gentle lock p → (∀ e, gentle lock (h e)) → gentle lock (prog_try p h).
Proof. intros. by apply safe_try. Qed.
Lemma gentle_attempt {A} (p : prog (with_state S E) A) : gentle lock p → gentle lock (attempt p).
Proof.
  intros Hp. apply gentle_try; [|intros; apply gentle_ret].
  apply gentle_bind; [done|]. intros. apply gentle_ret.
Qed.
Lemma gentle_atomic {X} (f : action exn S X) : mild f → keeps closed f → gentle lock (atomically f).
Proof. intros Hf Hc. by apply safe_await. Qed.
Lemma gentle_outside {X} (c : E X) : (∀ n, under _ c = Some n → lock = Some n) → gentle lock (outside c).
Proof. intros Hc. by apply safe_await. Qed.

Lemma gentle_keeps {A} (p : prog (with_state S E) A) : gentle lock p → method_keeps closed p.
Proof.
  intros Hp []. specialize (Hp tt). revert Hp.
  induction p as [a|e|X c k IH]; cbn; intros Hp; [done..|]. destruct Hp as [Hc Hk].
  split; [by destruct c; cbn in *; [apply Hc|]|]. intros r Hr. by apply IH, Hk.
Qed.
End gentle.

(** ** Methods together *)

Definition ends_free {A} (r : outcome exn A) (own : option held_lock) : Prop := own = None.

Definition all_locks (owns : list (option held_lock)) (s : S) : list held_lock :=
  concat (owned_locks <$> owns) ++ waiting s.

Definition lock_books {A} (σ : system (with_state S E) A S) : Prop :=
  I σ.(world) ∧ ∃ owns, Forall2 (λ p own, locking p own ends_free) σ.(programs) owns ∧
    sound (all_locks owns σ.(world)) σ.(world).

Lemma all_locks_perm owns i own s :
  owns !! i = Some own → ∃ rest,
    all_locks owns s ≡ₚ owned_locks own ++ waiting s ++ rest ∧
    ∀ own' s', all_locks (<[i := own']> owns) s' ≡ₚ owned_locks own' ++ waiting s' ++ rest.
Proof.
  intros Hi. destruct (insert_perm _ _ _ Hi) as (rest & Hp & Hins). exists (concat (owned_locks <$> rest)).
  unfold all_locks. split.
  - rewrite (concat_perm _ _ (fmap_Permutation owned_locks _ _ Hp)). cbn.
    rewrite <- (assoc (++)). f_equiv. apply Permutation_app_comm.
  - intros own' s'. rewrite (concat_perm _ _ (fmap_Permutation owned_locks _ _ (Hins own'))). cbn.
    rewrite <- (assoc (++)). f_equiv. apply Permutation_app_comm.
Qed.

Lemma lock_books_step {A} (σ σ' : system (with_state S E) A S) :
  lock_books σ → pool_step shared_answers σ σ' → closed σ'.(world) ∨ lock_books σ'.
Proof.
  intros (HI & owns & Hps & Hs) Hstep. destruct Hstep as [ps s h i X c k r s' Hi Hans]. cbn in *.
  destruct (Forall2_lookup_l _ _ _ _ _ Hps Hi) as (own & Hown & Hp).
  destruct (all_locks_perm _ _ _ s Hown) as (rest & Hall & Hins).
  destruct c as [X f|X c]; cbn in Hans, Hp.
  - assert (sound (owned_locks own ++ waiting s ++ rest) s) as Hs' by by eapply sound_perm.
    destruct (Hp s HI) as [Hcl|(own' & Hstep & Hnext)].
    { intros h' Hin. destruct Hs' as [_ Hholds _]. rewrite Forall_forall in Hholds. apply Hholds.
      destruct Hin as [->|Hin]; [by left|]. apply elem_of_app. right. apply elem_of_app. by left. }
    { left. by rewrite <- Hans in Hcl. }
    right. rewrite <- Hans in Hstep, Hnext. cbn in Hstep, Hnext. split; [apply Hstep|].
    exists (<[i := own']> owns). split; [by apply Forall2_insert|].
    eapply sound_perm; [symmetry; apply Hins|]. by eapply step_sound.
  - subst s'. right. split; [done|]. exists owns. split; [|done].
    rewrite <- (list_insert_id owns i own) by done. apply Forall2_insert; [done|]. by apply Hp.
Qed.

Lemma names_apart owns i j h1 h2 :
  NoDup (lock_name <$> concat (owned_locks <$> owns)) →
  owns !! i = Some (Some h1) → owns !! j = Some (Some h2) → lock_name h1 = lock_name h2 → i = j.
Proof.
  intros Hn Hi Hj Heq. destruct (decide (i = j)) as [|Hne]; [done|exfalso].
  rewrite <- (take_drop_middle owns i _ Hi) in Hn.
  rewrite fmap_app, concat_app, fmap_app in Hn. cbn in Hn.
  assert (∀ l : list (option held_lock), Some h2 ∈ l → lock_name h1 ∈ lock_name <$> concat (owned_locks <$> l)) as Hin.
  { intros l Hl. apply list_elem_of_fmap. exists h2. split; [done|]. apply list_elem_of_In, in_concat.
    exists [h2]. split; [|by left]. apply list_elem_of_In, list_elem_of_fmap. by exists (Some h2). }
  apply NoDup_app in Hn as (_ & Hd & Hn). apply NoDup_cons in Hn as [Hn _].
  destruct (Nat.lt_ge_cases j i) as [Hlt|Hge].
  - eapply Hd; [|by left]. apply Hin. apply (list_elem_of_lookup_2 _ j). by rewrite lookup_take_lt.
  - apply Hn, Hin. apply (list_elem_of_lookup_2 _ (j - Datatypes.S i)%nat).
    rewrite lookup_drop. by replace (Datatypes.S i + (j - Datatypes.S i))%nat with j by lia.
Qed.

(** Methods that keep to the protocol of their locks, run together until some point:
    unless the object is closed, two calls made under one lock are one call of one
    method, and what is locked is locked by a method that has not ended or by a task that
    waits. *)
Lemma pool_locked {A} (ps : list (prog (with_state S E) A)) s σ :
  Forall (λ p, locking p None ends_free) ps → Forall (method_keeps closed) ps →
  I s → waiting s = [] → (∀ n, holder s n = None) →
  pool_reaches shared_answers (start ps s) σ →
  closed σ.(world) ∨
  I σ.(world) ∧
  (∀ i j X Y (c : E X) (d : E Y) k l n,
     σ.(programs) !! i = Some (Call (Outside c) k) → σ.(programs) !! j = Some (Call (Outside d) l) →
     under _ c = Some n → under _ d = Some n → i = j) ∧
  (Forall (λ p, is_Some (finished p)) σ.(programs) → waiting σ.(world) = [] →
   ∀ n, holder σ.(world) n = None).
Proof.
  intros Hps Hkeeps HI Hwaiting Hfree Hreach.
  assert (Forall (obedient (keeper closed)) σ.(programs) ∧ (closed σ.(world) ∨ lock_books σ)) as [_ Hend].
  { eapply (pool_invariant shared_answers
      (λ σ, Forall (obedient (keeper closed)) σ.(programs) ∧ (closed σ.(world) ∨ lock_books σ)));
      [| |exact Hreach].
    - intros s1 s2 [Hob Hbooks] Hstep. split.
      + destruct Hstep as [qs v h i X c k r v' Hi Hans]. cbn in *.
        apply Forall_insert; [done|]. rewrite Forall_lookup in Hob.
        destruct (Hob i _ Hi) as [m [_ Hm]]. exists tt. by apply Hm.
      + destruct Hbooks as [Hcl|Hbooks]; [|by eapply lock_books_step]. left.
        destruct Hstep as [qs v h i X c k r v' Hi Hans]. cbn in *. rewrite Forall_lookup in Hob.
        destruct (Hob i _ Hi) as [m [Hm _]]. destruct c as [X f|X c]; cbn in Hans, Hm; [|by subst].
        specialize (Hm v Hcl). by rewrite <- Hans in Hm.
    - split.
      + cbn. eapply List.Forall_impl; [|exact Hkeeps]. intros p Hp. by apply (safe_obedient _ _ (λ _, True) tt).
      + right. split; [done|]. exists (replicate (length ps) None). cbn. unfold all_locks. rewrite Hwaiting, app_nil_r.
        assert (concat (owned_locks <$> replicate (length ps) None) = []) as ->.
        { clear. by induction ps. }
        split; [clear -Hps; induction Hps; cbn; by constructor|].
        split; [constructor|constructor|]. intros n p Hn. by rewrite Hfree in Hn. }
  destruct Hend as [Hcl|(HI' & owns & Hall & Hs)]; [by left|right]. split; [done|]. split.
  - intros i j X Y c d k l n Hi Hj Hc Hd.
    destruct (Forall2_lookup_l _ _ _ _ _ Hall Hi) as (own1 & Ho1 & [Hn1 _]).
    destruct (Forall2_lookup_l _ _ _ _ _ Hall Hj) as (own2 & Ho2 & [Hn2 _]).
    destruct (Hn1 n Hc) as (p1 & k1 & ->). destruct (Hn2 n Hd) as (p2 & k2 & ->).
    eapply names_apart; [|exact Ho1|exact Ho2|done].
    pose proof (sound_names _ _ Hs) as Hnames. unfold all_locks in Hnames. rewrite fmap_app in Hnames.
    by apply NoDup_app in Hnames as [? _].
  - intros Hfin Hw n. destruct (holder σ.(world) n) as [p|] eqn:Hn; [exfalso|done].
    destruct (sound_covers _ _ Hs n p Hn) as [known Hin]. unfold all_locks in Hin. rewrite Hw, app_nil_r in Hin.
    enough (concat (owned_locks <$> owns) = []) as Hnil by (rewrite Hnil in Hin; by apply elem_of_nil in Hin).
    clear -Hall Hfin. induction Hall as [|p own ps owns Hp _ IH]; [done|].
    apply Forall_cons in Hfin as [[r Hr] Hfin]. cbn. rewrite IH by done.
    destruct p; cbn in Hp, Hr; [|..|done]; unfold ends_free in Hp; by subst.
Qed.
End locks.
