(* ===== verification/RemoteApplication.v ===== *)
(** * The remote application: app/remote/remote-application.ts

    [DefaultRemoteApplication] owns the connected session of every account:
    app/remote/session-registry.ts and app/remote/types.ts are modelled with it.  Its
    fields are a state; a method is a program whose synchronous parts are atomic and
    which, at every call out of the object (a connection that opens or closes, the ports,
    the coordinator, a listener), lets other methods run: a listener may call the
    application back. *)

From S2P Require Import Prelude.
From S2P Require Import JsNumber.
From S2P Require Import JsString.
From S2P Require Import JsCollections.
From S2P Require Import Errors.
From S2P Require Import DomainIds.
From S2P Require Import Ports.
From S2P Require Import MailStore.
From S2P Require Import MemoryEngine.
From S2P Require Import EngineInterface.
From S2P Require Import Remote.
From S2P Require Import Prog.
From S2P Require Import SharedState.
Open Scope string_scope.
Open Scope list_scope.
Open Scope js_scope.

(** ** app/remote/types.ts *)

Inductive RemoteAuthState : Type := anonymous | authenticating | authenticated | expired.
Inductive RemoteConnectivityState : Type := online | offline.

Record RemoteAccountStatus : Type := mkStatus {
  status_auth : RemoteAuthState;
  status_connectivity : RemoteConnectivityState;
  status_lastError : option RemoteApplicationErrorKind;
}.

#[export] Instance RemoteAuthState_eq_dec : EqDecision RemoteAuthState.
Proof. solve_decision. Defined.
#[export] Instance RemoteConnectivityState_eq_dec : EqDecision RemoteConnectivityState.
Proof. solve_decision. Defined.
#[export] Instance RemoteAccountStatus_eq_dec : EqDecision RemoteAccountStatus.
Proof. solve_decision. Defined.

Record RemoteConnectRequest : Type := mkConnectRequest {
  request_accountKey : AccountKey;
  request_serviceKey : ServiceKey;
  request_config : RemoteConnectionConfig;
}.

(** What the application reads of a session; its mail and its submission go with its
    handle. *)
Record RemoteAccountDescriptor : Type := mkDescriptor {
  descriptor_id : RemoteAccountId;
  descriptor_capabilities : list string;
}.
Record RemoteSession : Type := mkRemoteSession {
  session_handle : nat;
  session_accounts : list RemoteAccountDescriptor;
}.

(** ** app/remote/session-registry.ts

    An entry is compared by identity: it carries the number of its allocation.  Its
    coordinator is the one made for its session. *)

Record ActiveRemoteAccount : Type := mkActive {
  active_identity : nat;
  active_accountKey : AccountKey;
  active_remoteAccountId : RemoteAccountId;
  active_session : RemoteSession;
  active_generation : Z;
}.

Definition registry : Type := jsmap AccountKey ActiveRemoteAccount.
Definition registry_set (entry : ActiveRemoteAccount) (entries : registry) : registry :=
  map_set entry.(active_accountKey) entry entries.
Definition registry_delete (accountKey : AccountKey) (entries : registry) :
    option ActiveRemoteAccount * registry :=
  (map_get accountKey entries, map_delete accountKey entries).
Definition registry_drain (entries : registry) : list ActiveRemoteAccount * registry :=
  (entries.*2, map_new).

(** ** The fields

    A [Set] of listeners is an object that [publishStatus] walks while listeners may
    change it, so the sets live in a store and an account's entry is the number of its
    set.  As the language has it, deleting an element leaves a hole and adding one appends it:
    a walk goes on by position.  A listener is a function, named by a number.
    [app_subscriptions] holds, for every subscription, its account, its listener and the
    [subscribed] flag of the function it returned. *)
Record RemoteApp : Type := mkRemoteApp {
  app_sessions : registry;
  app_generations : jsmap AccountKey Z;
  app_pendingConnects : jsmap AccountKey Z;
  app_statuses : jsmap AccountKey RemoteAccountStatus;
  app_listeners : jsmap AccountKey nat;
  app_sets : list (list (option nat));
  app_subscriptions : list (AccountKey * nat * bool);
  app_isDisposed : bool;
  app_next : nat;
}.

Definition new_app : RemoteApp :=
  mkRemoteApp map_new map_new map_new map_new map_new [] [] false 0.

(** Assignments to the fields. *)
Definition put_sessions (x : registry) (s : RemoteApp) : RemoteApp :=
  mkRemoteApp x s.(app_generations) s.(app_pendingConnects) s.(app_statuses) s.(app_listeners)
    s.(app_sets) s.(app_subscriptions) s.(app_isDisposed) s.(app_next).
Definition put_generations (x : jsmap AccountKey Z) (s : RemoteApp) : RemoteApp :=
  mkRemoteApp s.(app_sessions) x s.(app_pendingConnects) s.(app_statuses) s.(app_listeners)
    s.(app_sets) s.(app_subscriptions) s.(app_isDisposed) s.(app_next).
Definition put_pending (x : jsmap AccountKey Z) (s : RemoteApp) : RemoteApp :=
  mkRemoteApp s.(app_sessions) s.(app_generations) x s.(app_statuses) s.(app_listeners)
    s.(app_sets) s.(app_subscriptions) s.(app_isDisposed) s.(app_next).
Definition put_statuses (x : jsmap AccountKey RemoteAccountStatus) (s : RemoteApp) : RemoteApp :=
  mkRemoteApp s.(app_sessions) s.(app_generations) s.(app_pendingConnects) x s.(app_listeners)
    s.(app_sets) s.(app_subscriptions) s.(app_isDisposed) s.(app_next).
Definition put_listeners (x : jsmap AccountKey nat) (sets : list (list (option nat)))
    (subscriptions : list (AccountKey * nat * bool)) (s : RemoteApp) : RemoteApp :=
  mkRemoteApp s.(app_sessions) s.(app_generations) s.(app_pendingConnects) s.(app_statuses) x
    sets subscriptions s.(app_isDisposed) s.(app_next).
Definition put_disposed (s : RemoteApp) : RemoteApp :=
  mkRemoteApp s.(app_sessions) s.(app_generations) s.(app_pendingConnects) s.(app_statuses)
    s.(app_listeners) s.(app_sets) s.(app_subscriptions) true s.(app_next).
Definition allocate (s : RemoteApp) : RemoteApp :=
  mkRemoteApp s.(app_sessions) s.(app_generations) s.(app_pendingConnects) s.(app_statuses)
    s.(app_listeners) s.(app_sets) s.(app_subscriptions) s.(app_isDisposed) (S s.(app_next)).

(** ** Calls out of the object

    [connectionFactory] and a listener are called synchronously; the rest is awaited. *)
Inductive AppCall : Type → Type :=
| ConnectionFactory (config : RemoteConnectionConfig) : AppCall nat
| OpenConnection (connection : nat) : AppCall RemoteSession
| CloseSession (session : nat) : AppCall unit
| AppPort {X : Type} (c : PortCall X) : AppCall X
| SyncAccount (session : nat) (accountKey : AccountKey) (remoteAccountId : RemoteAccountId) :
    AppCall unit
| NotifyListener (listener : nat) (status : RemoteAccountStatus) : AppCall unit.

Abbreviation app_method := (prog (with_state RemoteApp AppCall)).
Abbreviation app_action := (action exn RemoteApp).

Definition app_failure (kind : RemoteApplicationErrorKind) : exn := RemoteApplicationError kind.

Definition disconnectedStatus : RemoteAccountStatus := mkStatus anonymous offline None.

(** ** Synchronous parts *)

Definition assertUsable : app_action unit := λ s,
  (throw_if s.(app_isDisposed) (app_failure app_disposed), s).

Definition hasConnectAuthority (accountKey : AccountKey) (generation : Z) (s : RemoteApp) : bool :=
  negb s.(app_isDisposed) &&
  bool_decide (map_get accountKey s.(app_generations) = Some generation) &&
  bool_decide (map_get accountKey s.(app_pendingConnects) = Some generation).

Definition assertConnectAuthority (accountKey : AccountKey) (generation : Z) : app_action unit := λ s,
  (throw_if (negb (hasConnectAuthority accountKey generation s)) (app_failure app_cancelled), s).

(** [isCurrent(entry)]: [===] on objects is equality of their numbers. *)
Definition app_isCurrent (entry : ActiveRemoteAccount) (s : RemoteApp) : bool :=
  negb s.(app_isDisposed) &&
  bool_decide (map_get entry.(active_accountKey) s.(app_generations) = Some entry.(active_generation)) &&
  match map_get entry.(active_accountKey) s.(app_sessions) with
  | Some current => bool_decide (current.(active_identity) = entry.(active_identity))
  | None => false
  end.

Definition nextGeneration (accountKey : AccountKey) : app_action Z := λ s,
  let next := (default 0 (map_get accountKey s.(app_generations)) + 1)%Z in
  (Return next, put_generations (map_set accountKey next s.(app_generations)) s).

Definition getStatus (accountKey : AccountKey) (s : RemoteApp) : RemoteAccountStatus :=
  default disconnectedStatus (map_get accountKey s.(app_statuses)).

(** The first half of [publishStatus]: the set to walk, if there is one, and the status
    to hand out; [None] when the status stays. *)
Definition publication : Type := option (option nat * RemoteAccountStatus).

Definition set_status (accountKey : AccountKey) (status : RemoteAccountStatus) : app_action publication := λ s,
  if bool_decide (getStatus accountKey s = status) then (Return None, s)
  else
    (Return (Some (map_get accountKey s.(app_listeners), status)),
     put_statuses (map_set accountKey status s.(app_statuses)) s).

(** ** Sets of listeners *)

Definition entries_add (listener : nat) (entries : list (option nat)) : list (option nat) :=
  if bool_decide (Some listener ∈ entries) then entries else entries ++ [Some listener].
Definition entries_delete (listener : nat) (entries : list (option nat)) : list (option nat) :=
  List.map (λ entry, if bool_decide (entry = Some listener) then None else entry) entries.
Definition entries_size (entries : list (option nat)) : nat := length (omap id entries).

Section methods.
(** How many positions of a set a walk visits at most; a set no listener adds to is
    walked to its end when [rounds] exceeds its length. *)
Context (rounds : nat).

Definition notify (listener : nat) (status : RemoteAccountStatus) : app_method unit :=
  _ ← attempt (outside (NotifyListener listener status));
  Ret tt.

(** [for (const listener of set) this.notify(listener, status)]. *)
Fixpoint walk (fuel set position : nat) (status : RemoteAccountStatus) : app_method unit :=
  match fuel with
  | O => Ret tt
  | S fuel =>
      entry ← atomically (read (λ s, (default [] (s.(app_sets) !! set)) !! position));
      match entry with
      | None => Ret tt
      | Some None => walk fuel set (S position) status
      | Some (Some listener) =>
          notify listener status;;
          walk fuel set (S position) status
      end
  end.

Definition announce (p : publication) : app_method unit :=
  match p with
  | Some (Some set, status) => walk rounds set 0 status
  | _ => Ret tt
  end.

Definition publishStatus (accountKey : AccountKey) (status : RemoteAccountStatus) : app_method unit :=
  p ← atomically (set_status accountKey status);
  announce p.

Definition closeQuietly (session : RemoteSession) : app_method unit :=
  _ ← attempt (outside (CloseSession session.(session_handle)));
  Ret tt.

(** ** Kinds of errors and statuses *)

Definition remoteErrorKind (error : RemoteError) : RemoteApplicationErrorKind :=
  match error.(remote_kind) with
  | kind_auth => app_auth
  | kind_network | kind_unavailable => app_network
  | _ => app_remote
  end.

Definition classifyConnectError (error : exn) : RemoteApplicationErrorKind :=
  match error with
  | RemoteApplicationError kind => kind
  | ThrownRemoteError error => remoteErrorKind error
  | _ => app_unexpected
  end.

Definition connectFailureStatus (kind : RemoteApplicationErrorKind) (sessionOpened : bool) :
    RemoteAccountStatus :=
  mkStatus anonymous
    (if sessionOpened ||
        bool_decide (kind ∈ [app_auth; app_accountMismatch; app_accountSelectionRequired; app_local])
     then online else offline)
    (Some kind).

Definition retainedStatus (kind : RemoteApplicationErrorKind) : RemoteAccountStatus :=
  mkStatus authenticated (if bool_decide (kind = app_network) then offline else online) (Some kind).

Definition expiredStatus (error : RemoteError) : RemoteAccountStatus :=
  let kind := remoteErrorKind error in
  mkStatus expired (if bool_decide (kind = app_network) then offline else online) (Some kind).

Definition fail_with {A} (kind : RemoteApplicationErrorKind) : app_action A :=
  pure_step (Throw (app_failure kind)).

(** ** [connect] *)

Definition onlineStatus : RemoteAccountStatus := mkStatus authenticated online None.

(** Up to the first call out: the guards, the generation of this attempt, and the new
    status. *)
Definition begin_connect (accountKey : AccountKey) : app_action (Z * publication) :=
  assertUsable;;
  occupied ← read (λ s, map_has accountKey s.(app_sessions) || map_has accountKey s.(app_pendingConnects));
  if (occupied : bool) then fail_with app_busy
  else
    generation ← nextGeneration accountKey;
    modify (λ s, put_pending (map_set accountKey generation s.(app_pendingConnects)) s);;
    p ← set_status accountKey (mkStatus authenticating offline None);
    mret (generation, p).

Definition resolveBinding (accountKey : AccountKey) (service : ServiceKey) (session : RemoteSession)
    (generation : Z) : app_method RemoteAccountId :=
  result ← outside (AppPort (ReadAccount accountKey));
  atomically (assertConnectAuthority accountKey generation);;
  match result with
  | PortError _ => Raise (app_failure app_local)
  | PortOk (EntityPresent local) =>
      if negb (bool_decide (local.(remoteRef).(serviceKey) = service))
      then Raise (app_failure app_accountMismatch)
      else
        expected ← of_outcome (remoteAccountId local.(remoteRef).(jmapAccountId));
        if negb (existsb (λ descriptor, bool_decide (descriptor.(descriptor_id) = expected))
                   session.(session_accounts))
        then Raise (app_failure app_accountMismatch)
        else Ret expected
  | PortOk EntityAbsent =>
      match session.(session_accounts) with
      | [descriptor] =>
          let selected := descriptor.(descriptor_id) in
          selectedId ← of_outcome (localAccountId selected);
          let registration := account accountKey (remoteAccountRef service selectedId) in
          write ← outside (AppPort (Write (OpRegisterAccount registration)));
          atomically (assertConnectAuthority accountKey generation);;
          match write with
          | PortOk _ => Ret selected
          | PortError write_conflict =>
              reread ← outside (AppPort (ReadAccount accountKey));
              atomically (assertConnectAuthority accountKey generation);;
              match reread with
              | PortError _ => Raise (app_failure app_local)
              | PortOk (EntityPresent local) =>
                  if bool_decide (local.(remoteRef).(serviceKey) = service) then
                    known ← of_outcome (remoteAccountId local.(remoteRef).(jmapAccountId));
                    if bool_decide (known = selected) then Ret selected
                    else Raise (app_failure app_accountMismatch)
                  else Raise (app_failure app_accountMismatch)
              | PortOk EntityAbsent => Raise (app_failure app_accountMismatch)
              end
          | PortError _ => Raise (app_failure app_local)
          end
      | _ => Raise (app_failure app_accountSelectionRequired)
      end
  end.

(** The [try] of [connect], until the session is there. *)
Definition open_session (request : RemoteConnectRequest) (generation : Z) (p : publication) :
    app_method RemoteSession :=
  announce p;;
  atomically (assertConnectAuthority request.(request_accountKey) generation);;
  connection ← outside (ConnectionFactory request.(request_config));
  atomically (assertConnectAuthority request.(request_accountKey) generation);;
  outside (OpenConnection connection).

Definition install (accountKey : AccountKey) (remoteAccountId : RemoteAccountId) (session : RemoteSession)
    (generation : Z) : app_action publication :=
  assertConnectAuthority accountKey generation;;
  modify (λ s,
    let entry := mkActive s.(app_next) accountKey remoteAccountId session generation in
    put_pending (map_delete accountKey s.(app_pendingConnects))
      (put_sessions (registry_set entry s.(app_sessions)) (allocate s)));;
  set_status accountKey onlineStatus.

(** The [try] of [connect], from there on; the result is the account key. *)
Definition bind_session (request : RemoteConnectRequest) (generation : Z) (session : RemoteSession) :
    app_method AccountKey :=
  atomically (assertConnectAuthority request.(request_accountKey) generation);;
  selectedAccountId ← resolveBinding request.(request_accountKey) request.(request_serviceKey) session generation;
  p ← atomically (install request.(request_accountKey) selectedAccountId session generation);
  announce p;;
  Ret request.(request_accountKey).

(** The [catch] of [connect]. *)
Definition abandon (accountKey : AccountKey) (generation : Z) (error : exn) (sessionOpened : bool) :
    app_action (RemoteApplicationErrorKind * publication) :=
  authority ← read (hasConnectAuthority accountKey generation);
  if negb authority then fail_with app_cancelled
  else
    modify (λ s, put_pending (map_delete accountKey s.(app_pendingConnects)) s);;
    let kind := classifyConnectError error in
    p ← set_status accountKey (connectFailureStatus kind sessionOpened);
    mret (kind, p).

Definition connect_failed {A} (accountKey : AccountKey) (generation : Z) (session : option RemoteSession)
    (error : exn) : app_method A :=
  match session with Some session => closeQuietly session | None => Ret tt end;;
  '(kind, p) ← atomically (abandon accountKey generation error (bool_decide (is_Some session)));
  announce p;;
  Raise (app_failure kind).

(** The [finally] of [connect]. *)
Definition forget_pending (accountKey : AccountKey) (generation : Z) (s : RemoteApp) : RemoteApp :=
  if bool_decide (map_get accountKey s.(app_pendingConnects) = Some generation)
  then put_pending (map_delete accountKey s.(app_pendingConnects)) s else s.

Definition connect (request : RemoteConnectRequest) : app_method AccountKey :=
  '(generation, p) ← atomically (begin_connect request.(request_accountKey));
  prog_finally
    (opened ← attempt (open_session request generation p);
     match opened with
     | Throw error => connect_failed request.(request_accountKey) generation None error
     | Return session =>
         bound ← attempt (bind_session request generation session);
         match bound with
         | Throw error => connect_failed request.(request_accountKey) generation (Some session) error
         | Return result => Ret result
         end
     end)
    (forget_pending request.(request_accountKey) generation).

(** ** [disconnect] *)

Definition take_session (accountKey : AccountKey) : app_action (option ActiveRemoteAccount) := λ s,
  let '(active, entries) := registry_delete accountKey s.(app_sessions) in
  (Return active, put_sessions entries s).

Definition begin_disconnect (accountKey : AccountKey) :
    app_action (option ActiveRemoteAccount * publication) :=
  assertUsable;;
  active ← take_session accountKey;
  hadPending ← read (λ s, map_has accountKey s.(app_pendingConnects));
  modify (λ s, put_pending (map_delete accountKey s.(app_pendingConnects)) s);;
  (if bool_decide (is_Some active) || (hadPending : bool) then _ ← nextGeneration accountKey; mret tt else mret tt);;
  p ← set_status accountKey disconnectedStatus;
  mret (active, p).

Definition disconnect (accountKey : AccountKey) : app_method unit :=
  '(active, p) ← atomically (begin_disconnect accountKey);
  announce p;;
  match active with
  | None => Ret tt
  | Some active =>
      prog_try (outside (CloseSession active.(active_session).(session_handle)))
        (λ _, Raise (app_failure app_remote))
  end.

(** ** [refreshAccount] *)

Definition begin_refresh (accountKey : AccountKey) : app_action ActiveRemoteAccount :=
  assertUsable;;
  active ← read (λ s, map_get accountKey s.(app_sessions));
  match active with
  | Some active => mret active
  | None => fail_with app_notConnected
  end.

(** After a synchronisation that succeeded; what it throws, the [catch] throws again. *)
Definition refreshed (active : ActiveRemoteAccount) (accountKey : AccountKey) : app_action publication :=
  current ← read (app_isCurrent active);
  if negb current then fail_with app_cancelled else set_status accountKey onlineStatus.

(** The [catch]: the kind to throw, whether the session is to be closed, and the new
    status. *)
Definition refresh_failed (active : ActiveRemoteAccount) (accountKey : AccountKey) (error : exn) :
    app_action (RemoteApplicationErrorKind * bool * publication) :=
  current ← read (app_isCurrent active);
  if negb current then fail_with app_cancelled
  else
    match error with
    | ThrownRemoteError error =>
        let kind := remoteErrorKind error in
        if bool_decide (error.(remote_session) = session_expire) then
          _ ← take_session accountKey;
          _ ← nextGeneration accountKey;
          p ← set_status accountKey (expiredStatus error);
          mret (kind, true, p)
        else
          p ← set_status accountKey (retainedStatus kind);
          mret (kind, false, p)
    | _ =>
        p ← set_status accountKey (mkStatus authenticated online (Some app_local));
        mret (app_local, false, p)
    end.

Definition refreshAccount (accountKey : AccountKey) : app_method unit :=
  active ← atomically (begin_refresh accountKey);
  synced ← attempt (outside (SyncAccount active.(active_session).(session_handle) accountKey
                               active.(active_remoteAccountId)));
  match synced with
  | Return _ =>
      p ← atomically (refreshed active accountKey);
      announce p
  | Throw error =>
      '(kind, closes, p) ← atomically (refresh_failed active accountKey error);
      announce p;;
      (if (closes : bool) then closeQuietly active.(active_session) else Ret tt);;
      Raise (app_failure kind)
  end.

(** ** [subscribe] *)

(** The number of the subscription stands for the function returned. *)
Definition add_listener (accountKey : AccountKey) (listener : nat) : app_action (nat * RemoteAccountStatus) := λ s,
  let subscription := length s.(app_subscriptions) in
  let subscriptions := s.(app_subscriptions) ++ [(accountKey, listener, true)] in
  (Return (subscription, getStatus accountKey s),
   match map_get accountKey s.(app_listeners) with
   | Some set =>
       put_listeners s.(app_listeners)
         (<[set := entries_add listener (default [] (s.(app_sets) !! set))]> s.(app_sets)) subscriptions s
   | None =>
       put_listeners (map_set accountKey (length s.(app_sets)) s.(app_listeners))
         (s.(app_sets) ++ [entries_add listener []]) subscriptions s
   end).

Definition begin_subscribe (accountKey : AccountKey) (listener : nat) :
    app_action (nat * RemoteAccountStatus) :=
  assertUsable;;
  add_listener accountKey listener.

Definition app_subscribe (accountKey : AccountKey) (listener : nat) : app_method nat :=
  '(subscription, status) ← atomically (begin_subscribe accountKey listener);
  notify listener status;;
  Ret subscription.

(** The function [subscribe] returned. *)
Definition app_unsubscribe (subscription : nat) (s : RemoteApp) : RemoteApp :=
  match s.(app_subscriptions) !! subscription with
  | Some (accountKey, listener, true) =>
      let subscriptions := <[subscription := (accountKey, listener, false)]> s.(app_subscriptions) in
      match map_get accountKey s.(app_listeners) with
      | None => put_listeners s.(app_listeners) s.(app_sets) subscriptions s
      | Some set =>
          let entries := entries_delete listener (default [] (s.(app_sets) !! set)) in
          put_listeners
            (if bool_decide (entries_size entries = 0) then map_delete accountKey s.(app_listeners)
             else s.(app_listeners))
            (<[set := entries]> s.(app_sets)) subscriptions s
      end
  | _ => s
  end.

(** ** [dispose] *)

(** [affected]: a set of account keys, in the order of their first insertion. *)
Definition affected_accounts (s : RemoteApp) : list AccountKey :=
  set_of_list (s.(app_pendingConnects).*1 ++ s.(app_generations).*1 ++
    List.map active_accountKey s.(app_sessions).*2).

(** One turn of [for (const accountKey of affected)]. *)
Definition retire (s : RemoteApp) (accountKey : AccountKey) : RemoteApp :=
  let s := (nextGeneration accountKey s).2 in
  put_statuses (map_set accountKey disconnectedStatus s.(app_statuses)) s.

Definition begin_dispose (s : RemoteApp) : list ActiveRemoteAccount * RemoteApp :=
  if s.(app_isDisposed) then ([], s)
  else
    let s := put_disposed s in
    let affected := affected_accounts s in
    let '(active, entries) := registry_drain s.(app_sessions) in
    let s := fold_left retire affected (put_sessions entries s) in
    (active, put_listeners map_new s.(app_sets) s.(app_subscriptions) (put_pending map_new s)).

(** [Promise.allSettled]: every session is asked to close; how that ends is not looked
    at.  The model asks one after the other. *)
Definition app_dispose : app_method unit :=
  active ← atomically (λ s, let '(active, s) := begin_dispose s in (Return active, s));
  prog_for active (λ _ entry, closeQuietly entry.(active_session)) tt.
End methods.
