(* ===== verification/CapabilityStore.v ===== *)
(** * The capabilities of the active sessions: app/remote/remote-body-source.ts,
    remote-runtime-composition.ts and tauri-remote-composition.ts

    [RemoteBodyCapabilityStore] lends the session of a connected account to the body
    materializer and the mutation runner.  A capability is an object compared by
    identity, so it carries the number of its allocation; a mail, a submission and a
    reconciler belong to a session, named by its handle. *)

From S2P Require Import Prelude.
From S2P Require Import JsNumber.
From S2P Require Import JsString.
From S2P Require Import JsCollections.
From S2P Require Import Errors.
From S2P Require Import DomainIds.
From S2P Require Import PendingMutation.
From S2P Require Import Remote.
From S2P Require Import Prog.
From S2P Require Import BodyMaterializer.
From S2P Require Import SharedState.
From S2P Require Import Ports.
From S2P Require Import RemoteApplication.
Open Scope string_scope.
Open Scope list_scope.
Open Scope js_scope.

Record ActiveBodyCapability : Type := mkCapability {
  cap_identity : nat;
  cap_accountKey : AccountKey;
  cap_remoteAccountId : RemoteAccountId;
  cap_session : nat;
  cap_reconciler : bool;
  cap_generation : Z;
}.

#[export] Instance ActiveBodyCapability_eq_dec : EqDecision ActiveBodyCapability.
Proof. solve_decision. Defined.

(** The fields of the class, and the number of the next capability.  [statusAuthority]
    is what the injected predicate answers at the moment; [None] before it is set. *)
Record CapabilityStore : Type := mkCapabilityStore {
  cs_active : jsmap AccountKey ActiveBodyCapability;
  cs_generations : jsmap AccountKey Z;
  cs_statusAuthority : option (AccountKey → bool);
  cs_disposed : bool;
  cs_next : nat;
}.

Definition new_store : CapabilityStore := mkCapabilityStore map_new map_new None false 0.

(** What the capability's session is asked. *)
Inductive SessionCall : Type → Type :=
| SessionSubmit (session : nat) (message : SubmissionMessage) (idempotencyKey : string) :
    SessionCall SubmissionResult
| SessionApplyKeywordChange (session : nat) (remoteAccountId : RemoteAccountId)
    (emailId : RemoteEmailId) (change : RemoteKeywordChange) : SessionCall unit
| SessionApplyMembershipChange (session : nat) (remoteAccountId : RemoteAccountId)
    (emailId : RemoteEmailId) (change : RemoteMembershipChange) : SessionCall unit
| SessionReconcileSend (session : nat) (remoteAccountId : RemoteAccountId) (idempotencyKey : string) :
    SessionCall RemoteMutationEvidence
| SessionReconcileMembership (session : nat) (remoteAccountId : RemoteAccountId)
    (idempotencyKey : string) (emailId : RemoteEmailId) (change : RemoteMembershipChange) :
    SessionCall RemoteMutationEvidence
| SessionFetchBody (session : nat) (remoteAccountId : RemoteAccountId) (emailId : RemoteEmailId) :
    SessionCall RemoteBody.

Abbreviation capability := (prog (with_state CapabilityStore SessionCall)).
Abbreviation store_action := (action exn CapabilityStore).

(** ** Synchronous methods *)

(** [this.statusAuthority?.(accountKey) === true]. *)
Definition has_status (accountKey : AccountKey) (s : CapabilityStore) : bool :=
  match s.(cs_statusAuthority) with Some authority => authority accountKey | None => false end.

Definition store_generation (accountKey : AccountKey) (s : CapabilityStore) : Z :=
  default 0%Z (map_get accountKey s.(cs_generations)).

Definition setStatusAuthority (authority : AccountKey → bool) (s : CapabilityStore) : CapabilityStore :=
  mkCapabilityStore s.(cs_active) s.(cs_generations) (Some authority) s.(cs_disposed) s.(cs_next).

(** [activate]: the fields of the capability but its generation. *)
Definition activate (accountKey : AccountKey) (remoteAccountId : RemoteAccountId) (session : nat)
    (reconciler : bool) (expectedGeneration : Z) (s : CapabilityStore) : CapabilityStore :=
  if s.(cs_disposed) || negb (store_generation accountKey s =? expectedGeneration)%Z ||
     negb (has_status accountKey s)
  then s
  else
    mkCapabilityStore
      (map_set accountKey
         (mkCapability s.(cs_next) accountKey remoteAccountId session reconciler expectedGeneration)
         s.(cs_active))
      s.(cs_generations) s.(cs_statusAuthority) s.(cs_disposed) (S s.(cs_next)).

Definition invalidate (accountKey : AccountKey) (s : CapabilityStore) : CapabilityStore :=
  mkCapabilityStore (map_delete accountKey s.(cs_active))
    (map_set accountKey (store_generation accountKey s + 1)%Z s.(cs_generations))
    s.(cs_statusAuthority) s.(cs_disposed) s.(cs_next).

(** [for (const accountKey of this.active.keys()) this.invalidate(accountKey)]: each
    turn deletes the entry it visits. *)
Definition dispose_store (s : CapabilityStore) : CapabilityStore :=
  let s := mkCapabilityStore s.(cs_active) s.(cs_generations) s.(cs_statusAuthority) true s.(cs_next) in
  let s := fold_left (λ s accountKey, invalidate accountKey s) s.(cs_active).*1 s in
  mkCapabilityStore map_new s.(cs_generations) s.(cs_statusAuthority) s.(cs_disposed) s.(cs_next).

(** [isCurrent(capability)]: [===] on objects is equality of their numbers. *)
Definition isCurrent (capability : ActiveBodyCapability) (s : CapabilityStore) : bool :=
  negb s.(cs_disposed) &&
  match map_get capability.(cap_accountKey) s.(cs_active) with
  | Some current => bool_decide (current.(cap_identity) = capability.(cap_identity))
  | None => false
  end &&
  (store_generation capability.(cap_accountKey) s =? capability.(cap_generation))%Z &&
  has_status capability.(cap_accountKey) s.

Definition isConnected (accountKey : AccountKey) (s : CapabilityStore) : bool :=
  match map_get accountKey s.(cs_active) with
  | Some capability => isCurrent capability s
  | None => false
  end.

(** ** The parts of the asynchronous methods *)

Definition source_failure (failure : RemoteMutationSourceFailure) : exn :=
  RemoteMutationSourceError failure.

Definition mutationCapability (accountKey : AccountKey) : store_action ActiveBodyCapability :=
  λ s, (match map_get accountKey s.(cs_active) with
        | Some capability =>
            if isCurrent capability s then Return capability
            else Throw (source_failure failure_notConnected)
        | None => Throw (source_failure failure_notConnected)
        end, s).

Definition assertMutationCurrent (capability : ActiveBodyCapability) : store_action unit :=
  λ s, (throw_if (negb (isCurrent capability s)) (source_failure failure_cancelled), s).

Definition handleMutationFailure {A} (capability : ActiveBodyCapability) (error : exn) : store_action A :=
  λ s,
    if negb (isCurrent capability s) then (Throw (source_failure failure_cancelled), s)
    else
      match error with
      | ThrownRemoteError error =>
          (Throw (source_failure (failure_remote error)),
           if bool_decide (error.(remote_session) = session_expire)
           then invalidate capability.(cap_accountKey) s else s)
      | _ => (Throw (source_failure failure_unexpected), s)
      end.

(** What follows the await of a mutation: [assertMutationCurrent] is inside the [try],
    so that what it throws goes through [handleMutationFailure] too. *)
Definition finish_mutation {A} (capability : ActiveBodyCapability) (r : outcome exn A) : store_action A :=
  match r with
  | Return result => λ s,
      match assertMutationCurrent capability s with
      | (Return _, s) => (Return result, s)
      | (Throw error, s) => handleMutationFailure capability error s
      end
  | Throw error => handleMutationFailure capability error
  end.

(** [const capability = this.mutationCapability(accountKey)], a call of its session, and
    what follows. *)
Definition mutation {A} (accountKey : AccountKey) (ask : ActiveBodyCapability → outcome exn (SessionCall A)) :
    capability A :=
  capability ← atomically (mutationCapability accountKey);
  call ← of_outcome (ask capability);
  r ← attempt (outside call);
  atomically (finish_mutation capability r).

Definition store_submit (accountKey : AccountKey) (message : RemoteSubmissionDraft) (idempotencyKey : string) :
    capability SubmissionResult :=
  mutation accountKey (λ capability,
    Return (SessionSubmit capability.(cap_session)
              (mkSubmissionMessage capability.(cap_remoteAccountId) message) idempotencyKey)).

Definition store_applyKeywordChange (accountKey : AccountKey) (emailId : RemoteEmailId)
    (change : RemoteKeywordChange) : capability unit :=
  mutation accountKey (λ capability,
    Return (SessionApplyKeywordChange capability.(cap_session) capability.(cap_remoteAccountId)
              emailId change)).

Definition store_applyMembershipChange (accountKey : AccountKey) (emailId : RemoteEmailId)
    (change : RemoteMembershipChange) : capability unit :=
  mutation accountKey (λ capability,
    Return (SessionApplyMembershipChange capability.(cap_session) capability.(cap_remoteAccountId)
              emailId change)).

(** [if (reconciler === null) throw ...]. *)
Definition with_reconciler {A} (capability : ActiveBodyCapability) (call : SessionCall A) :
    outcome exn (SessionCall A) :=
  if capability.(cap_reconciler) then Return call else Throw (source_failure failure_unexpected).

Definition store_reconcileSend (accountKey : AccountKey) (idempotencyKey : string) :
    capability RemoteMutationEvidence :=
  mutation accountKey (λ capability,
    with_reconciler capability
      (SessionReconcileSend capability.(cap_session) capability.(cap_remoteAccountId) idempotencyKey)).

Definition store_reconcileMembership (accountKey : AccountKey) (idempotencyKey : string)
    (emailId : RemoteEmailId) (change : RemoteMembershipChange) : capability RemoteMutationEvidence :=
  mutation accountKey (λ capability,
    with_reconciler capability
      (SessionReconcileMembership capability.(cap_session) capability.(cap_remoteAccountId)
         idempotencyKey emailId change)).

(** ** [fetchBody] *)

Definition assertCurrent (capability : ActiveBodyCapability) : store_action unit :=
  λ s, (throw_if (negb (isCurrent capability s)) (RemoteBodySourceError source_cancelled), s).

Definition body_capability (accountKey : AccountKey) : store_action ActiveBodyCapability :=
  λ s, (match map_get accountKey s.(cs_active) with
        | Some capability =>
            if s.(cs_disposed) || negb (has_status accountKey s)
            then Throw (RemoteBodySourceError source_notConnected) else Return capability
        | None => Throw (RemoteBodySourceError source_notConnected)
        end, s).

(** The [catch] of [fetchBody]. *)
Definition body_failure (capability : ActiveBodyCapability) (error : exn) : store_action RemoteBodyFetch :=
  match error with
  | RemoteBodySourceError kind => λ s, (Throw error, s)
  | _ => λ s,
      match assertCurrent capability s with
      | (Throw cancelled, s) => (Throw cancelled, s)
      | (Return _, s) =>
          match error with
          | ThrownRemoteError error =>
              (Throw (RemoteBodySourceError source_remote),
               if bool_decide (error.(remote_session) = session_expire)
               then invalidate capability.(cap_accountKey) s else s)
          | _ => (Throw (RemoteBodySourceError source_unexpected), s)
          end
      end
  end.

(** The [assertCurrent] of the answer closes over the capability: it is named by its
    number. *)
Definition finish_body (capability : ActiveBodyCapability) (r : outcome exn RemoteBody) :
    store_action RemoteBodyFetch :=
  match r with
  | Return body => λ s,
      match assertCurrent capability s with
      | (Return _, s) => (Return (mkRemoteBodyFetch body capability.(cap_identity)), s)
      | (Throw error, s) => body_failure capability error s
      end
  | Throw error => body_failure capability error
  end.

Definition store_fetchBody (accountKey : AccountKey) (emailId : RemoteEmailId) : capability RemoteBodyFetch :=
  capability ← atomically (body_capability accountKey);
  r ← attempt (outside (SessionFetchBody capability.(cap_session) capability.(cap_remoteAccountId) emailId));
  atomically (finish_body capability r).

(** ** app/remote/remote-runtime-composition.ts

    [BodyCapableRemoteApplication] wraps the remote application: it lends the session that
    a [connect] bound.  The delegate makes and opens its connection within its [connect], so
    the answer of that call says which session the tracked connection opened, if any, and
    whether it has a reconciler.  [getStatus] is synchronous in the code; here it is a call
    like the others, so more may come in between. *)

Record Composition : Type := mkComposition {
  capabilities : CapabilityStore;
  composition_disposed : bool;
}.

Inductive DelegateCall : Type → Type :=
| DelegateConnect (request : RemoteConnectRequest) :
    DelegateCall (AccountKey * option (RemoteSession * bool))
| DelegateDisconnect (accountKey : AccountKey) : DelegateCall unit
| DelegateRefresh (accountKey : AccountKey) : DelegateCall unit
| DelegateStatus (accountKey : AccountKey) : DelegateCall RemoteAuthState
| DelegateReadAccount (accountKey : AccountKey) : DelegateCall (ReadResult (LocalEntityRead Account))
| DelegateDispose : DelegateCall unit.

Abbreviation composed := (prog (with_state Composition DelegateCall)).

Definition on_capabilities (f : CapabilityStore → CapabilityStore) (s : Composition) : Composition :=
  mkComposition (f s.(capabilities)) s.(composition_disposed).

(** [this.delegate.getStatus(accountKey).auth === 'authenticated']. *)
Definition is_authenticated (accountKey : AccountKey) : composed bool :=
  auth ← outside (DelegateStatus accountKey);
  Ret (bool_decide (auth = authenticated)).

(** The account of the session that the local account is bound to. *)
Definition selected_account (session : RemoteSession)
    (local : ReadResult (LocalEntityRead Account)) : outcome exn (option RemoteAccountId) :=
  match local with
  | PortOk (EntityPresent account) =>
      selected ← Remote.remoteAccountId account.(remoteRef).(jmapAccountId);
      Return (if existsb (λ value, bool_decide (value.(descriptor_id) = selected))
                   session.(session_accounts)
              then Some selected else None)
  | _ => Return None
  end.

Definition activateAfterBinding (accountKey : AccountKey) (generation : Z)
    (session : option (RemoteSession * bool)) : composed unit :=
  disposed ← atomically (read composition_disposed);
  match session with
  | None => Ret tt
  | Some (session, reconciler) =>
      if (disposed : bool) then Ret tt
      else
        connected ← is_authenticated accountKey;
        if negb connected then Ret tt
        else
          local ← outside (DelegateReadAccount accountKey);
          match local with
          | PortOk (EntityPresent _) =>
              connected ← is_authenticated accountKey;
              if negb connected then Ret tt
              else
                selected ← of_outcome (selected_account session local);
                match selected with
                | None => Ret tt
                | Some selected =>
                    atomically (modify (on_capabilities
                      (activate accountKey selected session.(session_handle) reconciler generation)))
                end
          | _ => Ret tt
          end
  end.

Definition composed_connect (request : RemoteConnectRequest) : composed AccountKey :=
  let accountKey := request.(request_accountKey) in
  generation ← atomically (read (λ s, store_generation accountKey s.(capabilities)));
  answer ← outside (DelegateConnect request);
  activateAfterBinding accountKey generation answer.2;;
  Ret answer.1.

Definition composed_disconnect (accountKey : AccountKey) : composed unit :=
  atomically (modify (on_capabilities (invalidate accountKey)));;
  outside (DelegateDisconnect accountKey).

Definition composed_refreshAccount (accountKey : AccountKey) : composed unit :=
  prog_try (outside (DelegateRefresh accountKey)) (λ error,
    connected ← is_authenticated accountKey;
    if (connected : bool) then Raise error
    else
      atomically (modify (on_capabilities (invalidate accountKey)));;
      Raise error).

Definition composed_dispose : composed unit :=
  atomically (modify (λ s,
    if s.(composition_disposed) then s else mkComposition (dispose_store s.(capabilities)) true));;
  outside DelegateDispose.

(** ** app/remote/tauri-remote-composition.ts: the connections of the product *)

Definition createTauriConnectionFactory {Connection : Type} (imapSmtp gmail : RemoteConnectionConfig → outcome exn Connection)
    (config : RemoteConnectionConfig) : outcome exn Connection :=
  createRemoteConnection config (mkRemoteConnectionFactories
    (λ _, Throw (not_configured "JMAP remains on the explicit Worker lifecycle until migration"))
    (Some imapSmtp) (Some gmail)).
