(* ===== verification/RemoteLifecycle.v ===== *)
(** * The lifecycle of the remote application's accounts

    The invariant of [RemoteApplication], the guarantee its actions respect, and what
    each method owns and knows on its way: the session it opened, the generation it has
    used up. *)

From S2P Require Import Prelude.
From S2P Require Import JsNumber.
From S2P Require Import JsString.
From S2P Require Import JsCollections.
From S2P Require Import Errors.
From S2P Require Import DomainIds.
From S2P Require Import Ports.
From S2P Require Import EngineInterface.
From S2P Require Import Remote.
From S2P Require Import Prog.
From S2P Require Import SharedState.
From S2P Require Import RemoteApplication.
From Stdlib Require Import ZArith Lia.
Open Scope list_scope.

Definition session_of (k : AccountKey) (s : RemoteApp) := map_get k s.(app_sessions).
Definition generation_of (k : AccountKey) (s : RemoteApp) : Z := default 0%Z (map_get k s.(app_generations)).
Definition pending_of (k : AccountKey) (s : RemoteApp) := map_get k s.(app_pendingConnects).
Definition auth_of (k : AccountKey) (s : RemoteApp) : RemoteAuthState := (getStatus k s).(status_auth).

(** An account is connected, connecting, or neither; its status says which, and its
    generation is the one of its session or of its attempt. *)
Definition account_ok (k : AccountKey) (s : RemoteApp) : Prop :=
  match session_of k s, pending_of k s with
  | Some active, None =>
      active.(active_accountKey) = k ∧ map_get k s.(app_generations) = Some active.(active_generation) ∧
      auth_of k s = authenticated ∧ s.(app_isDisposed) = false ∧
      (active.(active_identity) < s.(app_next))%nat
  | None, Some generation =>
      map_get k s.(app_generations) = Some generation ∧ auth_of k s = authenticating ∧
      s.(app_isDisposed) = false
  | None, None => auth_of k s ≠ authenticated ∧ auth_of k s ≠ authenticating
  | Some _, Some _ => False
  end.

Record app_wf (s : RemoteApp) : Prop := {
  wf_sessions : map_wf s.(app_sessions);
  wf_pending : map_wf s.(app_pendingConnects);
  wf_account k : account_ok k s;
}.

(** What every action respects. *)
Record guarantee (s s' : RemoteApp) : Prop := {
  guarantee_generation k : (generation_of k s <= generation_of k s')%Z;
  (** An attempt that appears has a new generation. *)
  guarantee_pending k g : pending_of k s' = Some g → pending_of k s = Some g ∨ (generation_of k s < g)%Z;
  (** An entry that appears has a new number. *)
  guarantee_session k active : session_of k s' = Some active →
    session_of k s = Some active ∨ (s.(app_next) <= active.(active_identity))%nat;
  guarantee_next : (s.(app_next) <= s'.(app_next))%nat;
  guarantee_disposed : s.(app_isDisposed) = true → s'.(app_isDisposed) = true;
}.

Lemma guarantee_refl s : guarantee s s.
Proof. split; [lia|by left|by left|lia|done]. Qed.

(** The sessions the registry holds. *)
Definition held_sessions (s : RemoteApp) : list nat :=
  List.map (λ active, session_handle active.(active_session)) s.(app_sessions).*2.

Lemma new_app_wf : app_wf new_app.
Proof. split; [constructor..|]. done. Qed.

Lemma held_disposed s : app_wf s → s.(app_isDisposed) = true → held_sessions s = [].
Proof.
  intros Hs Hd. unfold held_sessions.
  assert (∀ k, session_of k s = None) as Hnone.
  { intros k. pose proof (wf_account _ Hs k) as Hk. unfold account_ok in Hk.
    destruct (session_of k s); [|done]. destruct (pending_of k s); [done|].
    destruct Hk as (_ & _ & _ & Hd' & _). congruence. }
  unfold session_of in Hnone. destruct s.(app_sessions) as [|[k a] m]; [done|].
  specialize (Hnone k). cbn in Hnone. by rewrite decide_True in Hnone.
Qed.

(** ** Actions that concern one account *)

Record changes (k : AccountKey) (s s' : RemoteApp) : Prop := {
  changes_sessions : map_wf s.(app_sessions) → map_wf s'.(app_sessions);
  changes_pending : map_wf s.(app_pendingConnects) → map_wf s'.(app_pendingConnects);
  changes_disposed : s'.(app_isDisposed) = s.(app_isDisposed);
  changes_next : (s.(app_next) <= s'.(app_next))%nat;
  changes_session k' : map_wf s.(app_sessions) → k' ≠ k → session_of k' s' = session_of k' s;
  changes_generation k' : k' ≠ k → map_get k' s'.(app_generations) = map_get k' s.(app_generations);
  changes_attempt k' : map_wf s.(app_pendingConnects) → k' ≠ k → pending_of k' s' = pending_of k' s;
  changes_status k' : k' ≠ k → getStatus k' s' = getStatus k' s;
}.

Lemma changes_refl k s : changes k s s.
Proof. by split. Qed.

Lemma changes_trans k s1 s2 s3 : changes k s1 s2 → changes k s2 s3 → changes k s1 s3.
Proof.
  intros [S1 P1 D1 N1 A1 G1 B1 T1] [S2 P2 D2 N2 A2 G2 B2 T2]. split; try (intros; auto; congruence).
  - lia.
  - intros. rewrite A2 by auto. auto.
  - intros. rewrite G2 by auto. auto.
  - intros. rewrite B2 by auto. auto.
  - intros. rewrite T2 by auto. auto.
Qed.

(** Such an action keeps the invariant and the guarantee if it does for its account. *)
Lemma changes_step k s s' :
  app_wf s → changes k s s' → account_ok k s' →
  (generation_of k s <= generation_of k s')%Z →
  (∀ g, pending_of k s' = Some g → pending_of k s = Some g ∨ (generation_of k s < g)%Z) →
  (∀ active, session_of k s' = Some active →
    session_of k s = Some active ∨ (s.(app_next) <= active.(active_identity))%nat) →
  app_wf s' ∧ guarantee s s'.
Proof.
  intros [Hs Hp Ha] [S P D N A G B T] Hok Hgen Hpend Hsess. split; split.
  - auto.
  - auto.
  - intros k'. destruct (decide (k' = k)) as [->|Hk]; [done|]. specialize (Ha k').
    unfold account_ok, auth_of in *. rewrite A, B, G, T, D by done. repeat case_match; naive_solver lia.
  - intros k'. destruct (decide (k' = k)) as [->|Hk]; [done|]. unfold generation_of. rewrite G by done. lia.
  - intros k' g. destruct (decide (k' = k)) as [->|Hk]; [auto|]. rewrite B by done. by left.
  - intros k' active. destruct (decide (k' = k)) as [->|Hk]; [auto|]. rewrite A by done. by left.
  - done.
  - by rewrite D.
Qed.

(** *** The primitive changes *)

Lemma changes_set_status k status s : changes k s (set_status k status s).2.
Proof.
  unfold set_status. case_bool_decide; [apply changes_refl|]. split; try done.
  intros k' Hk. unfold getStatus. cbn. by rewrite map_get_set_ne.
Qed.

Lemma changes_nextGeneration k s : changes k s (nextGeneration k s).2.
Proof. split; try done. intros k' Hk. cbn. by rewrite map_get_set_ne. Qed.

Lemma changes_put_pending k g s : changes k s (put_pending (map_set k g s.(app_pendingConnects)) s).
Proof. split; try done; intros; cbn; [by apply map_wf_set|]. unfold pending_of. cbn. by rewrite map_get_set_ne. Qed.

Lemma changes_drop_pending k s : changes k s (put_pending (map_delete k s.(app_pendingConnects)) s).
Proof. split; try done; intros; cbn; [by apply map_wf_delete|]. unfold pending_of. cbn. by rewrite map_get_delete_ne. Qed.

Lemma changes_take_session k s : changes k s (take_session k s).2.
Proof. split; try done; intros; cbn; [by apply map_wf_delete|]. unfold session_of. cbn. by rewrite map_get_delete_ne. Qed.

Lemma changes_allocate k s : changes k s (allocate s).
Proof. split; try done. cbn. lia. Qed.

Lemma changes_registry_set entry s :
  changes entry.(active_accountKey) s (put_sessions (registry_set entry s.(app_sessions)) s).
Proof.
  split; try done; intros; cbn; [by apply map_wf_set|]. unfold session_of, registry_set. cbn.
  by rewrite map_get_set_ne.
Qed.

Create HintDb changing.
#[export] Hint Resolve changes_refl changes_set_status changes_nextGeneration changes_put_pending
  changes_drop_pending changes_take_session changes_allocate changes_registry_set : changing.

(** What [set_status] leaves alone, and what it sets. *)
Lemma set_status_fields k status s :
  let s' := (set_status k status s).2 in
  s'.(app_sessions) = s.(app_sessions) ∧ s'.(app_generations) = s.(app_generations) ∧
  s'.(app_pendingConnects) = s.(app_pendingConnects) ∧ s'.(app_isDisposed) = s.(app_isDisposed) ∧
  s'.(app_next) = s.(app_next) ∧ getStatus k s' = status ∧
  ∃ p, (set_status k status s).1 = Return p.
Proof.
  unfold set_status. case_bool_decide as Hsame; cbn; split_and!; try done; [by eexists| |by eexists].
  unfold getStatus. cbn. by rewrite map_get_set_eq.
Qed.

(** ** Permutations of the sessions held *)

Lemma held_add k entry s :
  session_of k s = None → entry.(active_accountKey) = k →
  held_sessions (put_sessions (registry_set entry s.(app_sessions)) s) =
    held_sessions s ++ [session_handle entry.(active_session)].
Proof.
  unfold session_of, held_sessions, registry_set. cbn. intros Hk ->.
  induction s.(app_sessions) as [|[k1 a1] m IH]; cbn in *; [done|].
  case_decide as Hk1; [done|]. cbn. by rewrite IH.
Qed.

Lemma held_take k active s :
  session_of k s = Some active →
  held_sessions s ≡ₚ held_sessions (take_session k s).2 ++ [session_handle active.(active_session)].
Proof.
  unfold session_of, held_sessions. cbn. intros Hk.
  induction s.(app_sessions) as [|[k1 a1] m IH]; cbn in *; [done|].
  case_decide as Hk1; [injection Hk as ->; by rewrite Permutation_app_comm|]. cbn. by rewrite <- IH.
Qed.

Lemma held_take_none k s : session_of k s = None → held_sessions (take_session k s).2 = held_sessions s.
Proof.
  unfold session_of, held_sessions. cbn. intros Hk.
  induction s.(app_sessions) as [|[k1 a1] m IH]; cbn in *; [done|]. case_decide; [done|]. cbn. by rewrite IH.
Qed.

Lemma held_same s s' : s'.(app_sessions) = s.(app_sessions) → held_sessions s' = held_sessions s.
Proof. unfold held_sessions. by intros ->. Qed.

(** ** The actions, one by one *)

(** An action on an account ends with its new status. *)
Definition ready_for (k : AccountKey) (auth : RemoteAuthState) (s : RemoteApp) : Prop :=
  match session_of k s, pending_of k s with
  | Some active, None =>
      active.(active_accountKey) = k ∧ map_get k s.(app_generations) = Some active.(active_generation) ∧
      auth = authenticated ∧ s.(app_isDisposed) = false ∧ (active.(active_identity) < s.(app_next))%nat
  | None, Some generation =>
      map_get k s.(app_generations) = Some generation ∧ auth = authenticating ∧ s.(app_isDisposed) = false
  | None, None => auth ≠ authenticated ∧ auth ≠ authenticating
  | Some _, Some _ => False
  end.

Definition settled_as (k : AccountKey) (status : RemoteAccountStatus) (s1 s2 : RemoteApp) : Prop :=
  getStatus k s2 = status ∧ session_of k s2 = session_of k s1 ∧ s2.(app_sets) = s1.(app_sets).

Lemma set_status_ok k status s s1 :
  app_wf s → changes k s s1 → ready_for k status.(status_auth) s1 →
  (generation_of k s <= generation_of k s1)%Z →
  (∀ g, pending_of k s1 = Some g → pending_of k s = Some g ∨ (generation_of k s < g)%Z) →
  (∀ active, session_of k s1 = Some active →
    session_of k s = Some active ∨ (s.(app_next) <= active.(active_identity))%nat) →
  let s2 := (set_status k status s1).2 in
  app_wf s2 ∧ guarantee s s2 ∧ held_sessions s2 = held_sessions s1 ∧ generation_of k s2 = generation_of k s1 ∧
  pending_of k s2 = pending_of k s1 ∧ settled_as k status s1 s2 ∧
  ∃ p, set_status k status s1 = (Return p, s2).
Proof.
  intros Hs Hch Hready Hgen Hpend Hsess s2.
  destruct (set_status_fields k status s1) as (Hse & Hg & Hp & Hd & Hn & Hst & p & Hret).
  fold s2 in Hse, Hg, Hp, Hd, Hn, Hst.
  assert (changes k s s2) as Hch2 by (eapply changes_trans; [exact Hch|apply changes_set_status]).
  destruct (changes_step k s s2) as [Hwf HG]; [done|done|..].
  - unfold account_ok, ready_for, auth_of, session_of, pending_of in *. by rewrite Hse, Hp, Hst, Hg, Hd, Hn.
  - unfold generation_of in *. by rewrite Hg.
  - unfold pending_of in *. by rewrite Hp.
  - unfold session_of in *. by rewrite Hse.
  - split_and!; [done..| | | | |].
    + by apply held_same.
    + unfold generation_of. by rewrite Hg.
    + unfold pending_of. by rewrite Hp.
    + split_and!; [done|unfold session_of; by rewrite Hse|].
      unfold s2, set_status. by case_bool_decide.
    + exists p. unfold s2. rewrite <- Hret. by destruct (set_status k status s1).
Qed.

(** What is known of a status that is there. *)
Lemma ready_as_is k s : app_wf s → ready_for k (auth_of k s) s.
Proof. intros Hs. apply (wf_account _ Hs k). Qed.

Lemma begin_connect_ok k s :
  app_wf s →
  (∃ kind, begin_connect k s = (Throw (app_failure kind), s) ∧
     (s.(app_isDisposed) = true ∨ is_Some (session_of k s) ∨ is_Some (pending_of k s))) ∨
  ∃ p s', begin_connect k s = (Return ((generation_of k s + 1)%Z, p), s') ∧ app_wf s' ∧ guarantee s s' ∧
    held_sessions s' = held_sessions s ∧ generation_of k s' = (generation_of k s + 1)%Z ∧
    pending_of k s' = Some (generation_of k s + 1)%Z ∧ s'.(app_sets) = s.(app_sets).
Proof.
  intros Hs. destruct s.(app_isDisposed) eqn:Hd.
  { left. unfold begin_connect, assertUsable, mbind, action_mbind, action_bind. rewrite Hd. eexists. by split; [|left]. }
  destruct (map_has k s.(app_sessions) || map_has k s.(app_pendingConnects)) eqn:Hfree.
  { left. unfold begin_connect, assertUsable, mbind, action_mbind, action_bind, read, fail_with, pure_step.
    rewrite Hd. cbn. rewrite Hfree. eexists. split; [done|right].
    by apply orb_true_iff in Hfree as [H%map_has_spec|H%map_has_spec]; [left|right]. }
  right. apply orb_false_iff in Hfree as [Hsess%map_has_false Hpend%map_has_false].
  set (g := (generation_of k s + 1)%Z).
  set (s1 := put_pending (map_set k g s.(app_pendingConnects)) (nextGeneration k s).2).
  destruct (set_status_ok k (mkStatus authenticating offline None) s s1) as
    (Hwf & HG & Hheld & Hgen & Hpend' & (_ & _ & Hsets) & p & Hret); [done|..].
  - apply changes_trans with (nextGeneration k s).2; [apply changes_nextGeneration|].
    exact (changes_put_pending k g (nextGeneration k s).2).
  - unfold ready_for, session_of, pending_of. cbn. rewrite Hsess, !map_get_set_eq. by rewrite Hd.
  - unfold generation_of. cbn. rewrite map_get_set_eq. cbn. lia.
  - unfold pending_of, generation_of. cbn. rewrite map_get_set_eq. intros g' [= <-]. right.
    unfold g, generation_of. lia.
  - by left.
  - exists p, (set_status k (mkStatus authenticating offline None) s1).2. split_and!; [|done|done|done| | |done].
    + unfold begin_connect, assertUsable, mbind, action_mbind, action_bind, read, modify. rewrite Hd. cbn.
      unfold map_has. rewrite Hsess, Hpend. cbn. fold (generation_of k s). fold g.
      change (put_pending _ _) with s1. by rewrite Hret.
    + rewrite Hgen. unfold generation_of. cbn. by rewrite map_get_set_eq.
    + rewrite Hpend'. unfold pending_of. cbn. by rewrite map_get_set_eq.
Qed.

(** [hasConnectAuthority], as a fact. *)
Lemma has_authority k g s :
  app_wf s → hasConnectAuthority k g s = true → pending_of k s = Some g ∧ session_of k s = None ∧
    generation_of k s = g ∧ s.(app_isDisposed) = false.
Proof.
  intros Hs H. apply andb_true_iff in H as [[Hd Hgen]%andb_true_iff Hpend].
  apply negb_true_iff in Hd. apply bool_decide_eq_true in Hgen, Hpend.
  pose proof (wf_account _ Hs k) as Hk. unfold account_ok, pending_of in Hk. rewrite Hpend in Hk.
  destruct (session_of k s) as [active|]; [done|]. split_and!; try done.
  unfold generation_of. by rewrite Hgen.
Qed.

Lemma pending_authority k g s : app_wf s → pending_of k s = Some g → hasConnectAuthority k g s = true.
Proof.
  intros Hs Hp. pose proof (wf_account _ Hs k) as Hk. unfold account_ok in Hk. rewrite Hp in Hk.
  destruct (session_of k s); [done|]. destruct Hk as (Hgen & _ & Hd). unfold hasConnectAuthority.
  unfold pending_of in Hp. by rewrite Hd, Hgen, Hp, bool_decide_eq_true_2.
Qed.

(** An attempt is over: its generation is given out and no longer pending. *)
Definition spent (k : AccountKey) (g : Z) (s : RemoteApp) : Prop :=
  (g <= generation_of k s)%Z ∧ pending_of k s ≠ Some g.
Definition begun (k : AccountKey) (g : Z) (s : RemoteApp) : Prop := (g <= generation_of k s)%Z.

Lemma no_authority k g s :
  app_wf s → begun k g s → hasConnectAuthority k g s = false → spent k g s.
Proof.
  intros Hs Hg H. split; [done|]. intros Hp. pose proof (wf_account _ Hs k) as Hk. unfold account_ok in Hk.
  rewrite Hp in Hk. destruct (session_of k s); [done|]. destruct Hk as (Hgen & _ & Hd).
  unfold hasConnectAuthority in H. unfold pending_of in Hp.
  by rewrite Hd, Hgen, Hp, !bool_decide_eq_true_2 in H.
Qed.

Lemma begun_stable k g : stable app_wf guarantee (begun k g).
Proof. intros s s' _ HG Hg. unfold begun in *. pose proof (guarantee_generation _ _ HG k). lia. Qed.

Lemma spent_stable k g : stable app_wf guarantee (spent k g).
Proof.
  intros s s' Hs HG [Hg Hp]. split; [pose proof (guarantee_generation _ _ HG k); lia|].
  intros Hp'. destruct (guarantee_pending _ _ HG k g Hp'); [done|lia].
Qed.

Lemma true_stable : stable app_wf guarantee (λ _, True).
Proof. done. Qed.
#[export] Hint Resolve begun_stable spent_stable true_stable guarantee_refl : changing.

(** *** [install] *)

Lemma install_ok k remoteId session g s :
  app_wf s → begun k g s →
  (install k remoteId session g s = (Throw (app_failure app_cancelled), s) ∧
   hasConnectAuthority k g s = false) ∨
  ∃ p s', install k remoteId session g s = (Return p, s') ∧ app_wf s' ∧ guarantee s s' ∧
    held_sessions s' = held_sessions s ++ [session_handle session] ∧ spent k g s' ∧
    session_of k s' = Some (mkActive s.(app_next) k remoteId session g) ∧ getStatus k s' = onlineStatus ∧
    pending_of k s' = None ∧ s'.(app_sets) = s.(app_sets).
Proof.
  intros Hs Hg. destruct (hasConnectAuthority k g s) eqn:Hauth.
  2:{ left. unfold install, assertConnectAuthority, mbind, action_mbind, action_bind. by rewrite Hauth. }
  right. destruct (has_authority _ _ _ Hs Hauth) as (Hpend & Hsess & Hgen & Hd).
  set (entry := mkActive s.(app_next) k remoteId session g).
  set (s1 := put_pending (map_delete k s.(app_pendingConnects))
               (put_sessions (registry_set entry s.(app_sessions)) (allocate s))).
  assert (changes k s s1) as Hch.
  { apply changes_trans with (allocate s); [apply changes_allocate|].
    apply changes_trans with (put_sessions (registry_set entry s.(app_sessions)) (allocate s)).
    - exact (changes_registry_set entry (allocate s)).
    - exact (changes_drop_pending k (put_sessions (registry_set entry s.(app_sessions)) (allocate s))). }
  assert (pending_of k s1 = None) as Hnone.
  { unfold pending_of. cbn. by rewrite map_get_delete_eq by apply Hs. }
  assert (session_of k s1 = Some entry) as Hentry.
  { unfold session_of. cbn. unfold registry_set. cbn. apply map_get_set_eq. }
  destruct (set_status_ok k onlineStatus s s1) as (Hwf & HG & Hheld & Hgen' & Hpend' & Has & p & Hret); [done|done|..].
  - unfold ready_for. rewrite Hnone, Hentry. cbn. split_and!; try done; [|lia].
    pose proof (wf_account _ Hs k) as Hk. unfold account_ok in Hk. rewrite Hpend, Hsess in Hk. apply Hk.
  - unfold generation_of. cbn. lia.
  - rewrite Hnone. done.
  - rewrite Hentry. intros active [= <-]. right. cbn. lia.
  - exists p, (set_status k onlineStatus s1).2. destruct Has as (Hst & Hse & Hsets). split_and!; [|done|done| | |by rewrite Hse|done|by rewrite Hpend'|done].
    + unfold install, assertConnectAuthority, mbind, action_mbind, action_bind, modify. rewrite Hauth. cbn -[set_status].
      exact Hret.
    + rewrite Hheld. exact (held_add k entry (allocate s) Hsess eq_refl).
    + split; [rewrite Hgen'; unfold begun, generation_of in *; cbn; lia|]. by rewrite Hpend', Hnone.
Qed.

(** *** [abandon] and [forget_pending] *)

Lemma failure_status_auth kind opened : (connectFailureStatus kind opened).(status_auth) = anonymous.
Proof. done. Qed.

Lemma abandon_ok k g error opened s :
  app_wf s → begun k g s →
  (abandon k g error opened s = (Throw (app_failure app_cancelled), s) ∧ spent k g s ∧
   hasConnectAuthority k g s = false) ∨
  ∃ p s', abandon k g error opened s = (Return (classifyConnectError error, p), s') ∧ app_wf s' ∧
    guarantee s s' ∧ held_sessions s' = held_sessions s ∧ spent k g s' ∧ session_of k s' = None ∧
    getStatus k s' = connectFailureStatus (classifyConnectError error) opened ∧ pending_of k s' = None ∧
    s'.(app_sets) = s.(app_sets).
Proof.
  intros Hs Hg. unfold abandon, mbind, action_mbind, action_bind, read, modify, fail_with, pure_step.
  destruct (hasConnectAuthority k g s) eqn:Hauth; cbn -[set_status].
  2:{ left. split_and!; [done|by apply no_authority|done]. }
  right. destruct (has_authority _ _ _ Hs Hauth) as (Hpend & Hsess & Hgen & Hd).
  set (s1 := put_pending (map_delete k s.(app_pendingConnects)) s).
  assert (pending_of k s1 = None) as Hnone.
  { unfold pending_of. cbn. by rewrite map_get_delete_eq by apply Hs. }
  destruct (set_status_ok k (connectFailureStatus (classifyConnectError error) opened) s s1)
    as (Hwf & HG & Hheld & Hgen' & Hpend' & Has & p & Hret); [done|apply changes_drop_pending|..].
  - unfold ready_for. rewrite Hnone. change (session_of k s1) with (session_of k s). by rewrite Hsess.
  - unfold generation_of. cbn. lia.
  - by rewrite Hnone.
  - by left.
  - destruct Has as (Hst & Hse & Hsets). eexists p, _. rewrite Hret.
    split_and!; [done|done|done| | |by rewrite Hse|done|by rewrite Hpend'|done].
    + rewrite Hheld. by apply held_same.
    + split; [rewrite Hgen'; unfold begun, generation_of in *; cbn; lia|]. by rewrite Hpend', Hnone.
Qed.

Lemma forget_spent k g s : spent k g s → forget_pending k g s = s.
Proof. intros [_ Hp]. unfold forget_pending. by rewrite bool_decide_eq_false_2. Qed.

(** *** [disconnect] *)

Lemma take_session_gone k s : app_wf s → session_of k (take_session k s).2 = None.
Proof. intros Hs. unfold session_of. cbn. apply map_get_delete_eq, Hs. Qed.

Lemma begin_disconnect_ok k s :
  app_wf s →
  (begin_disconnect k s = (Throw (app_failure app_disposed), s)) ∨
  ∃ p s', begin_disconnect k s = (Return (session_of k s, p), s') ∧ app_wf s' ∧ guarantee s s' ∧
    held_sessions s ≡ₚ held_sessions s' ++
      option_list ((λ active, session_handle active.(active_session)) <$> session_of k s).
Proof.
  intros Hs. destruct s.(app_isDisposed) eqn:Hd.
  { left. unfold begin_disconnect, assertUsable, mbind, action_mbind, action_bind. by rewrite Hd. }
  right. set (s1 := (take_session k s).2).
  set (s2 := put_pending (map_delete k s1.(app_pendingConnects)) s1).
  set (s3 := if bool_decide (is_Some (session_of k s)) || map_has k s1.(app_pendingConnects)
             then (nextGeneration k s2).2 else s2).
  assert (changes k s s3) as Hch.
  { apply changes_trans with s1; [apply changes_take_session|].
    apply changes_trans with s2; [apply changes_drop_pending|]. unfold s3. case_match; auto with changing. }
  assert (pending_of k s3 = None ∧ session_of k s3 = None) as [Hnone Hno].
  { assert (pending_of k s2 = None ∧ session_of k s2 = None) as [H1 H2].
    - split; [unfold pending_of; cbn; apply map_get_delete_eq, Hs|by apply take_session_gone].
    - unfold s3. by case_match. }
  destruct (set_status_ok k disconnectedStatus s s3) as (Hwf & HG & Hheld & Hgen' & Hpend' & Has & p & Hret);
    [done|done|..].
  - unfold ready_for. by rewrite Hnone, Hno.
  - unfold s3. case_match; unfold generation_of; cbn; [rewrite map_get_set_eq; cbn|]; lia.
  - by rewrite Hnone.
  - by rewrite Hno.
  - exists p, (set_status k disconnectedStatus s3).2. split_and!; [|done|done|].
    + unfold begin_disconnect, assertUsable, mbind, action_mbind, action_bind, read, modify. rewrite Hd.
      cbn -[set_status nextGeneration bool_decide].
      subst s3 s2 s1. unfold session_of in *. cbn -[set_status nextGeneration bool_decide] in *.
      destruct (bool_decide _ || _); cbn -[set_status] in *; by rewrite Hret.
    + rewrite Hheld. assert (held_sessions s3 = held_sessions s1) as ->.
      { apply held_same. unfold s3. by case_match. }
      destruct (session_of k s) as [active|] eqn:Hactive; cbn.
      * by apply held_take.
      * rewrite app_nil_r. change (held_sessions s ≡ₚ held_sessions (take_session k s).2).
        by rewrite held_take_none.
Qed.

(** *** [refreshAccount] *)

(** The entry read at the start is the one its number names, for ever. *)
Definition entry_known (active : ActiveRemoteAccount) (s : RemoteApp) : Prop :=
  (active.(active_identity) < s.(app_next))%nat ∧
  ∀ c, session_of active.(active_accountKey) s = Some c →
    c.(active_identity) = active.(active_identity) → c = active.

Lemma entry_known_stable active : stable app_wf guarantee (entry_known active).
Proof.
  intros s s' Hs HG [Hlt Hsame]. pose proof (guarantee_next _ _ HG). split; [lia|].
  intros c Hc Hid. destruct (guarantee_session _ _ HG _ _ Hc) as [Hold|Hnew]; [by apply Hsame|lia].
Qed.
#[export] Hint Resolve entry_known_stable : changing.

Lemma begin_refresh_ok k s :
  app_wf s →
  (∃ kind, begin_refresh k s = (Throw (app_failure kind), s)) ∨
  ∃ active, begin_refresh k s = (Return active, s) ∧ entry_known active s ∧
    active.(active_accountKey) = k.
Proof.
  intros Hs. unfold begin_refresh, assertUsable, mbind, action_mbind, action_bind, read, fail_with, pure_step.
  destruct s.(app_isDisposed); cbn; [left; by eexists|].
  pose proof (wf_account _ Hs k) as Hk. unfold account_ok, session_of in Hk.
  destruct (map_get k s.(app_sessions)) as [active|] eqn:Hactive; cbn; [right|left; by eexists].
  destruct (pending_of k s); [done|]. destruct Hk as (Hkey & _ & _ & _ & Hlt).
  exists active. split_and!; try done. split; [done|]. rewrite Hkey. unfold session_of. congruence.
Qed.

Lemma app_isCurrent_true active s :
  entry_known active s → app_isCurrent active s = true →
  session_of active.(active_accountKey) s = Some active.
Proof.
  intros [_ Hsame] H. unfold app_isCurrent in H. apply andb_true_iff in H as [_ H].
  fold (session_of active.(active_accountKey) s) in H.
  destruct (session_of _ s) as [c|]; [|done]. apply bool_decide_eq_true in H. f_equal. by apply Hsame.
Qed.

(** A connected account's status changes, and stays authenticated. *)
Lemma connected_status k active status s :
  app_wf s → session_of k s = Some active → status.(status_auth) = authenticated →
  ∃ p s', set_status k status s = (Return p, s') ∧ app_wf s' ∧ guarantee s s' ∧
    held_sessions s' = held_sessions s.
Proof.
  intros Hs Hactive Hauth.
  destruct (set_status_ok k status s s) as (Hwf & HG & Hheld & _ & _ & _ & p & Hret);
    [done|auto with changing|..].
  - pose proof (ready_as_is k s Hs) as H. unfold ready_for in *. rewrite Hactive in *.
    destruct (pending_of k s); [done|]. naive_solver.
  - lia.
  - by left.
  - by left.
  - by eexists p, _.
Qed.

Lemma refreshed_ok active k s :
  app_wf s → entry_known active s → active.(active_accountKey) = k →
  refreshed active k s = (Throw (app_failure app_cancelled), s) ∨
  ∃ p s', refreshed active k s = (Return p, s') ∧ app_wf s' ∧ guarantee s s' ∧
    held_sessions s' = held_sessions s.
Proof.
  intros Hs Hknown <-. unfold refreshed, mbind, action_mbind, action_bind, read, fail_with, pure_step.
  destruct (app_isCurrent active s) eqn:Hcur; cbn -[set_status]; [right|by left].
  eapply connected_status; [done| |done]. by apply app_isCurrent_true.
Qed.

Lemma refresh_failed_ok active k error s :
  app_wf s → entry_known active s → active.(active_accountKey) = k →
  refresh_failed active k error s = (Throw (app_failure app_cancelled), s) ∨
  ∃ kind closes p s', refresh_failed active k error s = (Return (kind, closes, p), s') ∧ app_wf s' ∧
    guarantee s s' ∧
    held_sessions s ≡ₚ held_sessions s' ++
      (if (closes : bool) then [session_handle active.(active_session)] else []).
Proof.
  intros Hs Hknown <-. set (k := active.(active_accountKey)).
  unfold refresh_failed, mbind, action_mbind, action_bind, read, fail_with, pure_step.
  destruct (app_isCurrent active s) eqn:Hcur; cbn -[set_status take_session nextGeneration]; [right|by left].
  pose proof (app_isCurrent_true _ _ Hknown Hcur) as Hactive. fold k in Hactive.
  assert (∀ status (kind : RemoteApplicationErrorKind), status.(status_auth) = authenticated →
    ∃ kind' closes p s',
    (match set_status k status s with
     | (Return p, s') => (Return (kind, false, p), s')
     | (Throw e, s') => (Throw e, s')
     end) = (Return (kind', closes, p), s') ∧ app_wf s' ∧ guarantee s s' ∧
    held_sessions s ≡ₚ held_sessions s' ++
      (if (closes : bool) then [session_handle active.(active_session)] else [])) as Hkeep.
  { intros status kind Hauth. destruct (connected_status k active status s Hs Hactive Hauth)
      as (p & s' & -> & Hwf & HG & Hheld).
    exists kind, false, p, s'. split_and!; [done..|]. by rewrite app_nil_r, Hheld. }
  destruct error; try (apply Hkeep; done). case_bool_decide as Hexp; [|apply Hkeep; done]. clear Hkeep.
  set (s1 := (take_session k s).2). set (s2 := (nextGeneration k s1).2).
  pose proof (ready_as_is k s Hs) as Hready. unfold ready_for in Hready. rewrite Hactive in Hready.
  assert (pending_of k s2 = None) as Hnone.
  { change (pending_of k s2) with (pending_of k s). by destruct (pending_of k s). }
  assert (session_of k s2 = None) as Hno by by apply (take_session_gone k s).
  destruct (set_status_ok k (expiredStatus error) s s2) as (Hwf & HG & Hheld & _ & _ & _ & p & Hret);
    [done| |..].
  - apply changes_trans with s1; [apply changes_take_session|apply changes_nextGeneration].
  - unfold ready_for. by rewrite Hnone, Hno.
  - unfold generation_of. cbn. rewrite map_get_set_eq. cbn. lia.
  - by rewrite Hnone.
  - by rewrite Hno.
  - eexists _, true, p, _. split; [|split; [exact Hwf|split; [exact HG|]]].
    + cbn -[set_status]. fold k. change (set_status k (expiredStatus error) _) with
        (set_status k (expiredStatus error) s2). by rewrite Hret.
    + rewrite Hheld. by apply held_take.
Qed.

(** *** Listeners *)

Lemma put_listeners_ok x sets subscriptions s :
  app_wf s → app_wf (put_listeners x sets subscriptions s) ∧ guarantee s (put_listeners x sets subscriptions s) ∧
  held_sessions (put_listeners x sets subscriptions s) = held_sessions s.
Proof.
  intros [Hs Hp Ha]. split_and!; [split; [done..|exact Ha]| |done].
  split; [intros; unfold generation_of; cbn; lia|by left|by left|cbn; lia|done].
Qed.

Lemma add_listener_ok k listener s :
  app_wf s → ∃ r s', add_listener k listener s = (Return r, s') ∧ app_wf s' ∧ guarantee s s' ∧
    held_sessions s' = held_sessions s.
Proof.
  intros Hs. unfold add_listener. destruct (map_get k s.(app_listeners)); eexists _, _;
    (split; [reflexivity|by apply put_listeners_ok]).
Qed.

Lemma app_unsubscribe_ok subscription s :
  app_wf s → app_wf (app_unsubscribe subscription s) ∧ guarantee s (app_unsubscribe subscription s) ∧
  held_sessions (app_unsubscribe subscription s) = held_sessions s.
Proof.
  intros Hs. unfold app_unsubscribe.
  destruct (s.(app_subscriptions) !! subscription) as [[[k listener] [|]]|];
    [|split_and!; [done|apply guarantee_refl|done]..].
  destruct (map_get k s.(app_listeners)); by apply put_listeners_ok.
Qed.

(** *** [dispose] *)

Lemma retire_fields ks s :
  let s' := fold_left retire ks s in
  s'.(app_sessions) = s.(app_sessions) ∧ s'.(app_pendingConnects) = s.(app_pendingConnects) ∧
  s'.(app_isDisposed) = s.(app_isDisposed) ∧ s'.(app_next) = s.(app_next) ∧
  (∀ k, generation_of k s <= generation_of k s')%Z ∧
  (∀ k, k ∈ ks → getStatus k s' = disconnectedStatus) ∧
  (∀ k, getStatus k s' = getStatus k s ∨ getStatus k s' = disconnectedStatus).
Proof.
  revert s. induction ks as [|k ks IH]; intros s; cbn [fold_left].
  - split_and!; try done; [|by left]. intros k Hk. by apply elem_of_nil in Hk.
  - destruct (IH (retire s k)) as (H1 & H2 & H3 & H4 & H5 & H6 & H7).
    assert (getStatus k (retire s k) = disconnectedStatus) as Hk.
    { unfold getStatus. cbn. by rewrite map_get_set_eq. }
    split_and!; try done.
    + intros k'. specialize (H5 k'). enough (generation_of k' s <= generation_of k' (retire s k))%Z by lia.
      unfold generation_of. cbn. rewrite map_get_set. case_decide; subst; cbn; lia.
    + intros k' [->|Hk']%elem_of_cons; [|by apply H6]. destruct (H7 k) as [->|]; done.
    + intros k'. destruct (H7 k') as [->|]; [|by right].
      unfold getStatus. cbn. rewrite map_get_set. case_decide; [by right|by left].
Qed.

Lemma begin_dispose_ok s :
  app_wf s →
  let '(active, s') := begin_dispose s in
  app_wf s' ∧ guarantee s s' ∧ s'.(app_isDisposed) = true ∧
  held_sessions s = held_sessions s' ++ List.map (λ entry, session_handle entry.(active_session)) active.
Proof.
  intros Hs. unfold begin_dispose. destruct s.(app_isDisposed) eqn:Hd; cbn [registry_drain].
  { split_and!; [done|apply guarantee_refl|done|]. by rewrite app_nil_r. }
  set (s0 := put_sessions map_new (put_disposed s)).
  destruct (retire_fields (affected_accounts (put_disposed s)) s0) as (H1 & H2 & H3 & H4 & H5 & H6 & H7).
  cbv zeta beta iota. fold s0. set (s1 := fold_left retire _ s0) in *. clearbody s1.
  split_and!; [|split; try done|exact H3|].
  - split; cbn; [by rewrite H1; constructor|constructor|]. intros k.
    unfold account_ok, session_of, pending_of. cbn. rewrite H1. cbn.
    destruct (decide (k ∈ affected_accounts (put_disposed s))) as [Hin|Hout].
    { unfold auth_of. change (getStatus k _) with (getStatus k s1). by rewrite H6. }
    assert (auth_of k s ≠ authenticated ∧ auth_of k s ≠ authenticating) as Hquiet.
    { pose proof (wf_account _ Hs k) as Hk. unfold account_ok in Hk.
      unfold affected_accounts in Hout. rewrite set_of_list_elem, !elem_of_app in Hout. cbn in Hout.
      destruct (session_of k s) as [a|] eqn:Ha.
      - exfalso. apply Hout. right. right. destruct (pending_of k s); [done|].
        apply map_get_elem in Ha. rewrite list_elem_of_In, in_map_iff. exists a. split; [apply Hk|].
        rewrite <- list_elem_of_In. apply list_elem_of_fmap. by exists (k, a).
      - destruct (pending_of k s) as [g|] eqn:Hg; [|done]. exfalso. apply Hout. left.
        apply map_get_elem in Hg. apply list_elem_of_fmap. by exists (k, g). }
    unfold auth_of. change (getStatus k (put_listeners _ _ _ _)) with (getStatus k s1).
    destruct (H7 k) as [->| ->]; [exact Hquiet|done].
  - unfold session_of. cbn. intros k active. by rewrite H1.
  - cbn. by rewrite H4.
  - unfold held_sessions. cbn. by rewrite H1.
Qed.

(** ** The methods *)

Section methods.
Context (rounds : nat).

(** The sessions a call opens and closes. *)
Definition app_opens X (c : AppCall X) (r : outcome exn X) : option nat :=
  match c in AppCall X return outcome exn X → option nat with
  | OpenConnection _ => λ r, match r with Return session => Some session.(session_handle) | Throw _ => None end
  | _ => λ _, None
  end r.
Definition app_closes X (c : AppCall X) : option nat :=
  match c with CloseSession session => Some session | _ => None end.

Abbreviation app_owned := (owned app_wf guarantee held_sessions app_opens app_closes).

(** Calls that neither open nor close a session. *)
Ltac call_out := apply owned_outside; [done|]; intros answer; cbn [option_list app_opens app].

Lemma owned_notify listener status own known (Q : outcome exn unit → _ → _ → Prop) :
  Q (Return tt) own known → app_owned (notify listener status) own known Q.
Proof. intros HQ. apply owned_bind, owned_attempt. call_out. exact HQ. Qed.

Lemma owned_walk fuel set position status own known (Q : outcome exn unit → _ → _ → Prop) :
  stable app_wf guarantee known → Q (Return tt) own known →
  app_owned (walk fuel set position status) own known Q.
Proof.
  intros Hst HQ. revert position. induction fuel as [|fuel IH]; intros position; [exact HQ|].
  cbn [walk]. apply owned_bind, owned_look; [apply guarantee_refl|done|done|]. intros s _ _. cbn [read fst].
  destruct (_ !! position) as [[listener|]|]; [|apply IH|exact HQ].
  apply owned_bind, owned_notify, IH.
Qed.

Lemma owned_announce p own known (Q : outcome exn unit → _ → _ → Prop) :
  stable app_wf guarantee known → Q (Return tt) own known → app_owned (announce rounds p) own known Q.
Proof. intros Hst HQ. destruct p as [[[set|] status]|]; [by apply owned_walk|exact HQ..]. Qed.

Lemma owned_closeQuietly session own known (Q : outcome exn unit → _ → _ → Prop) :
  Q (Return tt) own known →
  app_owned (closeQuietly session) (session.(session_handle) :: own) known Q.
Proof. intros HQ. apply owned_bind, owned_attempt, owned_closing; [done|done|]. intros r. exact HQ. Qed.

(** [assertConnectAuthority]: go on, or throw. *)
Lemma owned_authority k g own known (Q : outcome exn unit → _ → _ → Prop) :
  stable app_wf guarantee known → Q (Return tt) own known → Q (Throw (app_failure app_cancelled)) own known →
  app_owned (atomically (assertConnectAuthority k g)) own known Q.
Proof.
  intros Hst HQ HQ'. apply owned_look; [apply guarantee_refl|done|done|]. intros s _ _.
  unfold assertConnectAuthority. by destruct (negb _).
Qed.

(** *** [connect] *)

Ltac call_port := apply owned_bind; call_out.

Lemma owned_resolveBinding k service session g own known (Q : outcome exn RemoteAccountId → _ → _ → Prop) :
  stable app_wf guarantee known → (∀ r, Q r own known) →
  app_owned (resolveBinding k service session g) own known Q.
Proof.
  intros Hst HQ.
  assert (∀ r, app_owned (of_outcome r) own known Q) as Hend by (intros; by apply owned_outcome).
  assert (∀ e, app_owned (Raise e) own known Q) as Hraise by (intros; apply HQ).
  call_port. destruct answer as [result|e]; [|apply HQ].
  apply owned_bind, owned_authority; [done| |apply HQ].
  destruct result as [[|local]|]; [| |apply Hraise].
  - destruct session.(session_accounts) as [|descriptor [|]]; [apply Hraise| |apply Hraise].
    apply owned_bind, owned_outcome. destruct (localAccountId _) as [selectedId|]; [|apply HQ].
    call_port. destruct answer as [write|e]; [|apply HQ].
    apply owned_bind, owned_authority; [done| |apply HQ].
    destruct write as [|[]]; try apply Hraise; [apply HQ|].
    call_port. destruct answer as [reread|e]; [|apply HQ].
    apply owned_bind, owned_authority; [done| |apply HQ].
    destruct reread as [[|local]|]; [apply Hraise| |apply Hraise].
    case_bool_decide; [|apply Hraise].
    apply owned_bind, owned_outcome. destruct (remoteAccountId _) as [known'|]; [|apply HQ].
    case_bool_decide; [apply HQ|apply Hraise].
  - case_match; [apply Hraise|].
    apply owned_bind, owned_outcome. destruct (remoteAccountId _) as [expected|]; [|apply HQ].
    case_match; [apply Hraise|apply HQ].
Qed.

Lemma owned_open_session request g p (Q : outcome exn RemoteSession → _ → _ → Prop) :
  let k := request.(request_accountKey) in
  (∀ session, Q (Return session) [session.(session_handle)] (begun k g)) →
  (∀ e, Q (Throw e) [] (begun k g)) →
  app_owned (open_session rounds request g p) [] (begun k g) Q.
Proof.
  intros k HQ Hfail. apply owned_bind, owned_announce; [apply begun_stable|].
  apply owned_bind, owned_authority; [apply begun_stable| |apply Hfail].
  call_port. destruct answer as [connection|e]; [|apply Hfail].
  apply owned_bind, owned_authority; [apply begun_stable| |apply Hfail].
  apply owned_outside; [done|]. intros [session|e]; [apply HQ|apply Hfail].
Qed.

Lemma owned_bind_session request g session (Q : outcome exn AccountKey → _ → _ → Prop) :
  let k := request.(request_accountKey) in
  (∀ result, Q (Return result) [] (spent k g)) →
  (∀ e, Q (Throw e) [session.(session_handle)] (begun k g)) →
  app_owned (bind_session rounds request g session) [session.(session_handle)] (begun k g) Q.
Proof.
  intros k HQ Hfail. apply owned_bind, owned_authority; [apply begun_stable| |apply Hfail].
  apply owned_bind, owned_resolveBinding; [apply begun_stable|]. intros [remoteId|e]; [|apply Hfail].
  apply owned_bind, owned_atomic. intros s Hs Hg.
  subst k. destruct (install_ok _ remoteId session g s Hs Hg) as [[-> _]|(p & s' & -> & Hwf & HG & Hheld & Hspent & _)];
    cbn [fst snd].
  - split_and!; [done|apply guarantee_refl|]. eexists [session.(session_handle)], (begun _ g).
    split_and!; [done|apply begun_stable|done|apply Hfail].
  - split_and!; [done|done|]. eexists [], (spent _ g). rewrite app_nil_r, Hheld.
    split_and!; [done|apply spent_stable|done|]. apply owned_bind, owned_announce; [apply spent_stable|]. apply HQ.
Qed.

Lemma owned_connect_failed {A} k g session error (Q : outcome exn A → _ → _ → Prop) :
  (∀ kind, Q (Throw (app_failure kind)) [] (spent k g)) →
  app_owned (connect_failed rounds k g session error) (option_list (session_handle <$> session)) (begun k g) Q.
Proof.
  intros HQ. apply owned_bind.
  assert (app_owned ('(kind, p) ← atomically (abandon k g error (bool_decide (is_Some session)));
    announce rounds p;; Raise (app_failure kind)) [] (begun k g) Q) as Hrest.
  { apply owned_bind, owned_atomic. intros s Hs Hg.
    destruct (abandon_ok k g error (bool_decide (is_Some session)) s Hs Hg)
      as [(-> & Hspent & _)|(p & s' & -> & Hwf & HG & Hheld & Hspent & _)]; cbn [fst snd].
    - split_and!; [done|apply guarantee_refl|]. exists [], (spent k g).
      split_and!; [done|apply spent_stable|done|apply HQ].
    - split_and!; [done|done|]. exists [], (spent k g). rewrite Hheld.
      split_and!; [done|apply spent_stable|done|]. apply owned_bind, owned_announce; [apply spent_stable|]. apply HQ. }
  destruct session as [session|]; [by apply owned_closeQuietly|exact Hrest].
Qed.

(** A method that ends in a failure of the application, or returns. *)
Definition fails_as_application {A} (r : outcome exn A) : Prop :=
  ∀ e, r = Throw e → ∃ kind, e = RemoteApplicationError kind.

Lemma fails_as kind {A} : fails_as_application (A := A) (Throw (app_failure kind)).
Proof. intros e [= <-]. by exists kind. Qed.
Lemma fails_not {A} (a : A) : fails_as_application (Return a).
Proof. by intros e. Qed.
Hint Resolve fails_as fails_not : changing.

(** How every method ends: it owns nothing. *)
Definition ends_well {A} (r : outcome exn A) (own : list nat) (_ : RemoteApp → Prop) : Prop :=
  own = [] ∧ fails_as_application r.

Lemma ends_failing {A} kind known : ends_well (A := A) (Throw (app_failure kind)) [] known.
Proof. split; [done|apply fails_as]. Qed.
Lemma ends_returning {A} (a : A) known : ends_well (Return a) [] known.
Proof. split; [done|apply fails_not]. Qed.

Lemma owned_connect request : app_owned (connect rounds request) [] (λ _, True) ends_well.
Proof.
  apply owned_bind, owned_atomic. intros s Hs _. set (k := request.(request_accountKey)).
  destruct (begin_connect_ok k s Hs) as [(kind & -> & _)|(p & s' & -> & Hwf & HG & Hheld & Hgen & _)]; cbn [fst snd].
  { split_and!; [done|apply guarantee_refl|]. exists [], (λ _, True). split_and!; try done. apply ends_failing. }
  set (g := (generation_of k s + 1)%Z) in *. split_and!; [done|done|]. exists [], (begun k g).
  split_and!; [by rewrite Hheld|apply begun_stable|unfold begun; lia|]. apply owned_finally.
  assert (∀ r, fails_as_application r → app_owned (atomically (modify (forget_pending k g))) [] (spent k g)
    (λ done own'' known'', match done with Return _ => ends_well (A := AccountKey) r own'' known''
                           | Throw _ => False end)) as Hfinally.
  { intros r Hr. apply owned_atomic. intros s1 Hs1 Hspent. cbn [modify fst snd].
    rewrite forget_spent by done. split_and!; [done|apply guarantee_refl|].
    exists [], (spent k g). split_and!; [done|apply spent_stable|done..]. }
  apply owned_bind, owned_attempt, owned_open_session.
  - intros session. apply owned_bind, owned_attempt, owned_bind_session.
    + intros result. apply Hfinally, fails_not.
    + intros e. apply (owned_connect_failed k g (Some session)). intros kind. apply Hfinally, fails_as.
  - intros e. apply (owned_connect_failed k g None). intros kind. apply Hfinally, fails_as.
Qed.

(** *** The others *)

Lemma owned_disconnect k : app_owned (disconnect rounds k) [] (λ _, True) ends_well.
Proof.
  apply owned_bind, owned_atomic. intros s Hs _.
  destruct (begin_disconnect_ok k s Hs) as [->|(p & s' & -> & Hwf & HG & Hheld)]; cbn [fst snd].
  { split_and!; [done|apply guarantee_refl|]. exists [], (λ _, True). split_and!; try done. apply ends_failing. }
  split_and!; [done|done|].
  exists (option_list ((λ active, session_handle active.(active_session)) <$> session_of k s)), (λ _, True).
  split_and!; [by rewrite app_nil_r|done|done|]. apply owned_bind, owned_announce; [done|].
  destruct (session_of k s) as [active|]; cbn [fmap option_fmap option_map option_list]; [|apply ends_returning].
  apply owned_try, owned_closing; [done|done|]. intros [[]|e]; [apply ends_returning|apply ends_failing].
Qed.

Lemma owned_refreshAccount k : app_owned (refreshAccount rounds k) [] (λ _, True) ends_well.
Proof.
  apply owned_bind, owned_atomic. intros s Hs _.
  destruct (begin_refresh_ok k s Hs) as [[kind ->]|(active & -> & Hknown & Hkey)]; cbn [fst snd];
    (split_and!; [done|apply guarantee_refl|]).
  { exists [], (λ _, True). split_and!; try done. apply ends_failing. }
  exists [], (entry_known active). split_and!; [done|apply entry_known_stable|done|].
  apply owned_bind, owned_attempt. call_out. destruct answer as [[]|error].
  - apply owned_bind, owned_atomic. intros s1 Hs1 Hk1.
    destruct (refreshed_ok active k s1 Hs1 Hk1 Hkey) as [->|(p & s' & -> & Hwf & HG & Hheld)]; cbn [fst snd].
    + split_and!; [done|apply guarantee_refl|]. exists [], (λ _, True). split_and!; try done. apply ends_failing.
    + split_and!; [done|done|]. exists [], (λ _, True). rewrite Hheld. split_and!; try done.
      apply owned_announce; [done|]. apply ends_returning.
  - apply owned_bind, owned_atomic. intros s1 Hs1 Hk1.
    destruct (refresh_failed_ok active k error s1 Hs1 Hk1 Hkey)
      as [->|(kind & closes & p & s' & -> & Hwf & HG & Hheld)]; cbn [fst snd].
    + split_and!; [done|apply guarantee_refl|]. exists [], (λ _, True). split_and!; try done. apply ends_failing.
    + split_and!; [done|done|].
      exists (if closes then [session_handle active.(active_session)] else []), (λ _, True).
      rewrite app_nil_r. split_and!; try done. apply owned_bind, owned_announce; [done|]. apply owned_bind.
      destruct closes; [apply owned_closeQuietly|]; apply ends_failing.
Qed.

Lemma owned_app_subscribe k listener : app_owned (app_subscribe k listener) [] (λ _, True) ends_well.
Proof.
  apply owned_bind, owned_atomic. intros s Hs _.
  unfold begin_subscribe, assertUsable, mbind, action_mbind, action_bind. destruct s.(app_isDisposed); cbn [throw_if].
  { split_and!; [done|apply guarantee_refl|]. exists [], (λ _, True). split_and!; try done. apply ends_failing. }
  destruct (add_listener_ok k listener s Hs) as ([subscription status] & s' & -> & Hwf & HG & Hheld).
  split_and!; [done|done|]. exists [], (λ _, True). cbn [fst snd]. rewrite Hheld. split_and!; try done.
  apply owned_bind, owned_notify. apply ends_returning.
Qed.

Lemma owned_app_dispose : app_owned app_dispose [] (λ _, True) ends_well.
Proof.
  apply owned_bind, owned_atomic. intros s Hs _. pose proof (begin_dispose_ok s Hs) as Hdispose.
  destruct (begin_dispose s) as [active s']. destruct Hdispose as (Hwf & HG & _ & Hheld). cbn [fst snd].
  split_and!; [done|done|]. exists (List.map (λ entry, session_handle entry.(active_session)) active), (λ _, True).
  rewrite app_nil_r, Hheld. split_and!; try done. clear.
  induction active as [|entry active IH]; cbn [List.map]; [apply ends_returning|].
  apply (owned_bind _ _ _ _ _ (closeQuietly entry.(active_session))), owned_closeQuietly. exact IH.
Qed.
End methods.
