(* ===== verification/Stores.v ===== *)
(** * The application's stores: app/stores/*.ts, app/root-view-state.ts,
    app/connection-status-view.ts

    A store is a record with one function per action and per getter that computes.  The
    texts shown to the user are named by what produces them ([Text]). *)

From S2P Require Import Prelude.
From S2P Require Import JsNumber.
From S2P Require Import JsString.
From S2P Require Import JsCollections.
From S2P Require Import DomainIds.
From S2P Require Import DomainEmail.
From S2P Require Import DomainMailbox.
From S2P Require Import MailboxView.
From S2P Require Import SendIntent.
From S2P Require Import PendingMutation.
From S2P Require Import RemoteApplication.
From Stdlib Require Import ZArith.
Open Scope string_scope.
Open Scope list_scope.
Open Scope js_scope.

(** ** Texts, and the kinds of app/application.ts that choose them *)

Inductive AccountConnectionErrorKind : Type :=
| connection_auth | connection_network | connection_accountMismatch
| connection_accountSelectionRequired | connection_serviceMismatch | connection_accountUnavailable
| connection_connectionInProgress | connection_local | connection_unexpected | connection_cancelled.

Inductive RemoteRefreshErrorKind : Type :=
| refresh_notConnected | refresh_auth | refresh_network | refresh_remote | refresh_local
| refresh_cancelled | refresh_connectionInProgress | refresh_unexpected.

Inductive BodyLoadErrorKind : Type :=
| load_emailAbsent | load_notConnected | load_remote | load_local | load_invalidEnvelope
| load_metadataUnavailable | load_e2ee | load_cancelled | load_unexpected.

Inductive Text : Type :=
| ConnectionText (kind : AccountConnectionErrorKind)
| RefreshText (kind : RemoteRefreshErrorKind)
| BodyText (kind : BodyLoadErrorKind)
| LocalStorageUnavailable | LocalStorageUnreadable | LocalAccountGone | LocalViewUnreadable
| LocalMailboxGone | LocalViewDangling
| UsernameRequired | GoogleAccountInvalid | PasswordRequired | HostRequired | PortRequired | PortInvalid
| SetupInvalid | OtherText (text : string)
| RecipientsEmpty | NoAccountSelected | IdentitiesUnreadable | SenderAccountGone | NoSendIdentity
| AddressInvalid | SendNotStored.

#[export] Instance AccountConnectionErrorKind_eq_dec : EqDecision AccountConnectionErrorKind.
Proof. solve_decision. Defined.
#[export] Instance RemoteRefreshErrorKind_eq_dec : EqDecision RemoteRefreshErrorKind.
Proof. solve_decision. Defined.
#[export] Instance BodyLoadErrorKind_eq_dec : EqDecision BodyLoadErrorKind.
Proof. solve_decision. Defined.
#[export] Instance Text_eq_dec : EqDecision Text.
Proof. solve_decision. Defined.

(** ** app/stores/mail.ts *)

Inductive MailLoadState : Type := mail_idle | mail_loading | mail_ready | mail_notCached | mail_error.
Inductive BodyLoadState : Type :=
| body_idle | body_loading | body_cached | body_notCached | body_ownerAbsent | body_error.
Inductive RefreshPhase : Type := phase_idle | phase_refreshing | phase_error.

#[export] Instance MailLoadState_eq_dec : EqDecision MailLoadState.
Proof. solve_decision. Defined.
#[export] Instance BodyLoadState_eq_dec : EqDecision BodyLoadState.
Proof. solve_decision. Defined.
#[export] Instance RefreshPhase_eq_dec : EqDecision RefreshPhase.
Proof. solve_decision. Defined.

Record RefreshActivity : Type := mkRefreshActivity {
  refresh_phase : RefreshPhase;
  refresh_error : option Text;
}.

Record MailState : Type := mkMailState {
  ms_accounts : list Account;
  ms_selectedAccountKey : option AccountKey;
  ms_selectedMailboxId : option ScopedMailboxId;
  ms_selectedEmailId : option ScopedEmailId;
  ms_visiblePage : number;
  ms_loadState : MailLoadState;
  ms_mailboxes : list Mailbox;
  ms_mailboxView : option MailboxView;
  ms_emails : list Email;
  ms_emailBody : option EmailBody;
  ms_bodyLoadState : BodyLoadState;
  ms_bodyMaterializing : bool;
  ms_bodyError : option Text;
  ms_refreshActivity : jsmap string RefreshActivity;
  ms_error : option Text;
}.

Definition mail_initial : MailState :=
  mkMailState [] None None None (Int 0) mail_idle [] None [] None body_idle false None map_new None.

Definition selectedMailbox (s : MailState) : option Mailbox :=
  match s.(ms_selectedMailboxId) with
  | None => None
  | Some selected => List.find (λ mailbox, sameScopedMailboxId mailbox.(mailbox_id) selected) s.(ms_mailboxes)
  end.

Definition selectedEmail (s : MailState) : option Email :=
  match s.(ms_selectedEmailId) with
  | None => None
  | Some selected => List.find (λ email, sameScopedEmailId email.(email_id) selected) s.(ms_emails)
  end.

Definition setAccounts (values : list Account) (s : MailState) : MailState :=
  mkMailState values s.(ms_selectedAccountKey) s.(ms_selectedMailboxId) s.(ms_selectedEmailId) s.(ms_visiblePage)
    s.(ms_loadState) s.(ms_mailboxes) s.(ms_mailboxView) s.(ms_emails) s.(ms_emailBody) s.(ms_bodyLoadState)
    s.(ms_bodyMaterializing) s.(ms_bodyError) s.(ms_refreshActivity) s.(ms_error).

Definition selectAccountInStore (accountKey : option AccountKey) (s : MailState) : MailState :=
  mkMailState s.(ms_accounts) accountKey None None (Int 0) mail_idle [] None [] None body_idle false None
    s.(ms_refreshActivity) None.

Definition selectMailboxInStore (mailboxId : option ScopedMailboxId) (s : MailState) : MailState :=
  mkMailState s.(ms_accounts) s.(ms_selectedAccountKey) mailboxId None (Int 0) mail_idle s.(ms_mailboxes) None []
    None body_idle false None s.(ms_refreshActivity) None.

Definition selectEmailInStore (emailId : option ScopedEmailId) (s : MailState) : MailState :=
  mkMailState s.(ms_accounts) s.(ms_selectedAccountKey) s.(ms_selectedMailboxId) emailId s.(ms_visiblePage)
    s.(ms_loadState) s.(ms_mailboxes) s.(ms_mailboxView) s.(ms_emails) None
    (match emailId with None => body_idle | Some _ => body_loading end) false None s.(ms_refreshActivity) None.

Definition setVisiblePage (page : number) (s : MailState) : MailState :=
  mkMailState s.(ms_accounts) s.(ms_selectedAccountKey) s.(ms_selectedMailboxId) s.(ms_selectedEmailId) page
    s.(ms_loadState) s.(ms_mailboxes) s.(ms_mailboxView) s.(ms_emails) s.(ms_emailBody) s.(ms_bodyLoadState)
    s.(ms_bodyMaterializing) s.(ms_bodyError) s.(ms_refreshActivity) s.(ms_error).

Definition setMailboxes (values : list Mailbox) (s : MailState) : MailState :=
  mkMailState s.(ms_accounts) s.(ms_selectedAccountKey) s.(ms_selectedMailboxId) s.(ms_selectedEmailId) s.(ms_visiblePage)
    s.(ms_loadState) values s.(ms_mailboxView) s.(ms_emails) s.(ms_emailBody) s.(ms_bodyLoadState)
    s.(ms_bodyMaterializing) s.(ms_bodyError) s.(ms_refreshActivity) s.(ms_error).

Definition setMailboxView (view : option MailboxView) (s : MailState) : MailState :=
  mkMailState s.(ms_accounts) s.(ms_selectedAccountKey) s.(ms_selectedMailboxId) s.(ms_selectedEmailId) s.(ms_visiblePage)
    s.(ms_loadState) s.(ms_mailboxes) view s.(ms_emails) s.(ms_emailBody) s.(ms_bodyLoadState)
    s.(ms_bodyMaterializing) s.(ms_bodyError) s.(ms_refreshActivity) s.(ms_error).

Definition setEmails (values : list Email) (s : MailState) : MailState :=
  mkMailState s.(ms_accounts) s.(ms_selectedAccountKey) s.(ms_selectedMailboxId) s.(ms_selectedEmailId) s.(ms_visiblePage)
    s.(ms_loadState) s.(ms_mailboxes) s.(ms_mailboxView) values s.(ms_emailBody) s.(ms_bodyLoadState)
    s.(ms_bodyMaterializing) s.(ms_bodyError) s.(ms_refreshActivity) s.(ms_error).

Definition setEmailBody (body : option EmailBody) (state : BodyLoadState) (s : MailState) : MailState :=
  mkMailState s.(ms_accounts) s.(ms_selectedAccountKey) s.(ms_selectedMailboxId) s.(ms_selectedEmailId) s.(ms_visiblePage)
    s.(ms_loadState) s.(ms_mailboxes) s.(ms_mailboxView) s.(ms_emails) body state
    (if state === body_cached then false else s.(ms_bodyMaterializing))
    (if state === body_error then s.(ms_bodyError) else None) s.(ms_refreshActivity) s.(ms_error).

Definition setBodyMaterializing (value : bool) (s : MailState) : MailState :=
  mkMailState s.(ms_accounts) s.(ms_selectedAccountKey) s.(ms_selectedMailboxId) s.(ms_selectedEmailId) s.(ms_visiblePage)
    s.(ms_loadState) s.(ms_mailboxes) s.(ms_mailboxView) s.(ms_emails) s.(ms_emailBody) s.(ms_bodyLoadState)
    value s.(ms_bodyError) s.(ms_refreshActivity) s.(ms_error).

Definition setBodyError (message : option Text) (s : MailState) : MailState :=
  mkMailState s.(ms_accounts) s.(ms_selectedAccountKey) s.(ms_selectedMailboxId) s.(ms_selectedEmailId) s.(ms_visiblePage)
    s.(ms_loadState) s.(ms_mailboxes) s.(ms_mailboxView) s.(ms_emails) s.(ms_emailBody) s.(ms_bodyLoadState)
    s.(ms_bodyMaterializing) message s.(ms_refreshActivity) s.(ms_error).

Definition put_refreshActivity (activity : jsmap string RefreshActivity) (s : MailState) : MailState :=
  mkMailState s.(ms_accounts) s.(ms_selectedAccountKey) s.(ms_selectedMailboxId) s.(ms_selectedEmailId) s.(ms_visiblePage)
    s.(ms_loadState) s.(ms_mailboxes) s.(ms_mailboxView) s.(ms_emails) s.(ms_emailBody) s.(ms_bodyLoadState)
    s.(ms_bodyMaterializing) s.(ms_bodyError) activity s.(ms_error).
Definition setRefreshActivity (accountKey : AccountKey) (activity : RefreshActivity) (s : MailState) : MailState :=
  put_refreshActivity (map_set accountKey activity s.(ms_refreshActivity)) s.
Definition clearRefreshActivity (s : MailState) : MailState := put_refreshActivity map_new s.

Definition setLoadState (state : MailLoadState) (error : option Text) (s : MailState) : MailState :=
  mkMailState s.(ms_accounts) s.(ms_selectedAccountKey) s.(ms_selectedMailboxId) s.(ms_selectedEmailId) s.(ms_visiblePage)
    state s.(ms_mailboxes) s.(ms_mailboxView) s.(ms_emails) s.(ms_emailBody) s.(ms_bodyLoadState)
    s.(ms_bodyMaterializing) s.(ms_bodyError) s.(ms_refreshActivity) error.

(** ** app/stores/runtime.ts

    [AuthState] and [ConnectivityState] have the values of [RemoteAuthState] and
    [RemoteConnectivityState]. *)

Inductive LocalState : Type := local_opening | local_ready | local_error.

#[export] Instance LocalState_eq_dec : EqDecision LocalState.
Proof. solve_decision. Defined.

Record RuntimeState : Type := mkRuntimeState {
  runtime_local : LocalState;
  runtime_auth : RemoteAuthState;
  runtime_connectivity : RemoteConnectivityState;
}.

(** The initial state, and what [reset] sets. *)
Definition runtime_initial : RuntimeState := mkRuntimeState local_opening anonymous offline.
Definition setLocal (status : LocalState) (s : RuntimeState) : RuntimeState :=
  mkRuntimeState status s.(runtime_auth) s.(runtime_connectivity).
Definition setAuth (status : RemoteAuthState) (s : RuntimeState) : RuntimeState :=
  mkRuntimeState s.(runtime_local) status s.(runtime_connectivity).
Definition setConnectivity (status : RemoteConnectivityState) (s : RuntimeState) : RuntimeState :=
  mkRuntimeState s.(runtime_local) s.(runtime_auth) status.
Definition isLocalReady (s : RuntimeState) : bool := s.(runtime_local) === local_ready.
Definition isOnline (s : RuntimeState) : bool := s.(runtime_connectivity) === online.
Definition isAuthenticated (s : RuntimeState) : bool := s.(runtime_auth) === authenticated.
Definition isLocalReadyAndAnonymous (s : RuntimeState) : bool :=
  (s.(runtime_local) === local_ready) && (s.(runtime_auth) === anonymous).
Definition runtime_reset (s : RuntimeState) : RuntimeState := runtime_initial.

(** ** app/root-view-state.ts *)

Inductive RootViewMode : Type := view_boot | view_localError | view_setup | view_shell.

Definition rootViewMode (local : LocalState) (values : list Account) : RootViewMode :=
  match local with
  | local_opening => view_boot
  | local_error => view_localError
  | local_ready => if bool_decide (values = []) then view_setup else view_shell
  end.

(** ** app/connection-status-view.ts *)

Inductive ConnectionStatusKind : Type :=
| status_local | status_connecting | status_online | status_offline | status_expired | status_localError.

(** The labels follow from the kind. *)
Record ConnectionStatusView : Type := mkConnectionStatusView {
  view_kind : ConnectionStatusKind;
  view_canReconnect : bool;
}.

#[export] Instance RootViewMode_eq_dec : EqDecision RootViewMode.
Proof. solve_decision. Defined.
#[export] Instance ConnectionStatusKind_eq_dec : EqDecision ConnectionStatusKind.
Proof. solve_decision. Defined.

Definition connectionStatusView (runtime : RuntimeState) : ConnectionStatusView :=
  if runtime.(runtime_local) === local_error then mkConnectionStatusView status_localError false
  else if runtime.(runtime_auth) === authenticating then mkConnectionStatusView status_connecting false
  else if runtime.(runtime_auth) === expired then mkConnectionStatusView status_expired true
  else if (runtime.(runtime_auth) === authenticated) && (runtime.(runtime_connectivity) === online)
  then mkConnectionStatusView status_online false
  else if runtime.(runtime_auth) === authenticated then mkConnectionStatusView status_offline false
  else mkConnectionStatusView status_local true.

(** ** app/stores/mutation-status.ts *)

Record MutationStatusView : Type := mkMutationStatusView {
  sv_accountKey : AccountKey;
  sv_mutationId : MutationId;
  sv_kind : MutationKind;
  sv_emailId : option ScopedEmailId;
  sv_lifecycle : MutationStatus;
  sv_attemptCount : number;
  sv_securityMode : option SendSecurityMode;
  sv_needsReconciliation : bool;
}.

Record RecentMutationConfirmation : Type := mkRecent {
  recent_accountKey : AccountKey;
  recent_mutationId : MutationId;
  recent_kind : MutationKind;
  recent_emailId : option ScopedEmailId;
}.

Record MutationStatusState : Type := mkMutationStatusState {
  byAccount : jsmap string (list MutationStatusView);
  reconciliation : jsmap string bool;
  recentConfirmations : jsmap string RecentMutationConfirmation;
}.

Definition statuses_initial : MutationStatusState := mkMutationStatusState map_new map_new map_new.

Definition NUL : string := String "000" "".
(** [`${accountKey}\u0000${mutationId}`]. *)
Definition mutation_identity (accountKey : AccountKey) (mutationId : MutationId) : string :=
  accountKey +:+ NUL +:+ mutationId.

Definition statusesForAccount (accountKey : option AccountKey) (s : MutationStatusState) :
    list MutationStatusView :=
  match accountKey with
  | None => []
  | Some accountKey => default [] (map_get accountKey s.(byAccount))
  end.

Definition latestSendForAccount (accountKey : option AccountKey) (s : MutationStatusState) :
    option (MutationStatusView + RecentMutationConfirmation) :=
  match accountKey with
  | None => None
  | Some accountKey =>
      match List.find (λ status, status.(sv_kind) === kind_send)
              (rev (default [] (map_get accountKey s.(byAccount)))) with
      | Some send => Some (inl send)
      | None =>
          inr <$> last (List.filter
            (λ value, (value.(recent_accountKey) === accountKey) && (value.(recent_kind) === kind_send))
            (map_values s.(recentConfirmations)))
      end
  end.

Definition recentConfirmationForEmail (emailId : ScopedEmailId) (s : MutationStatusState) :
    option RecentMutationConfirmation :=
  last (List.filter (λ value, bool_decide (value.(recent_emailId) = Some emailId))
          (map_values s.(recentConfirmations))).

(** [delete this.reconciliation[key]] for the keys of the account that [keep] leaves out. *)
Definition forget_keys {V} (accountKey : AccountKey) (keep : string → bool) (entries : jsmap string V) :
    jsmap string V :=
  fold_left (λ entries key,
    if startsWith key (accountKey +:+ NUL) && negb (keep key) then map_delete key entries else entries)
    entries.*1 entries.

Definition with_reconciliation (needs : bool) (value : MutationStatusView) : MutationStatusView :=
  mkMutationStatusView value.(sv_accountKey) value.(sv_mutationId) value.(sv_kind) value.(sv_emailId)
    value.(sv_lifecycle) value.(sv_attemptCount) value.(sv_securityMode) needs.

Definition setStatuses (accountKey : AccountKey) (values : list MutationStatusView)
    (s : MutationStatusState) : MutationStatusState :=
  let projected := List.map (λ value,
    with_reconciliation
      (default false (map_get (mutation_identity accountKey value.(sv_mutationId)) s.(reconciliation))) value)
    values in
  let present := set_of_list (List.map (λ value, mutation_identity accountKey value.(sv_mutationId)) projected) in
  mkMutationStatusState (map_set accountKey projected s.(byAccount))
    (forget_keys accountKey (λ key, set_has key present) s.(reconciliation)) s.(recentConfirmations).

Definition markNeedsReconciliation (accountKey : AccountKey) (mutationId : MutationId)
    (s : MutationStatusState) : MutationStatusState :=
  let marked := map_set (mutation_identity accountKey mutationId) true s.(reconciliation) in
  match map_get accountKey s.(byAccount) with
  | None => mkMutationStatusState s.(byAccount) marked s.(recentConfirmations)
  | Some statuses =>
      mkMutationStatusState
        (map_set accountKey
           (List.map (λ value, if value.(sv_mutationId) === mutationId then with_reconciliation true value
                               else value) statuses) s.(byAccount))
        marked s.(recentConfirmations)
  end.

Definition markConfirmed (accountKey : AccountKey) (mutationId : MutationId) (kind : MutationKind)
    (emailId : option ScopedEmailId) (s : MutationStatusState) : MutationStatusState :=
  mkMutationStatusState s.(byAccount) s.(reconciliation)
    (map_set (mutation_identity accountKey mutationId) (mkRecent accountKey mutationId kind emailId)
       s.(recentConfirmations)).

Definition clearAccount (accountKey : AccountKey) (s : MutationStatusState) : MutationStatusState :=
  mkMutationStatusState (map_delete accountKey s.(byAccount))
    (forget_keys accountKey (λ _, false) s.(reconciliation))
    (forget_keys accountKey (λ _, false) s.(recentConfirmations)).

Definition statuses_reset (s : MutationStatusState) : MutationStatusState := statuses_initial.

(** ** app/stores/composer.ts *)

Inductive ComposerPhase : Type := composer_idle | composer_editing | composer_queueing | composer_error.

#[export] Instance ComposerPhase_eq_dec : EqDecision ComposerPhase.
Proof. solve_decision. Defined.

Record ComposerState : Type := mkComposerState {
  co_isOpen : bool;
  co_to : string;
  co_cc : string;
  co_bcc : string;
  co_subject : string;
  co_body : string;
  co_securityMode : SendSecurityMode;
  co_phase : ComposerPhase;
  co_error : option Text;
}.

(** The initial state, and what [reset] sets. *)
Definition composer_initial : ComposerState :=
  mkComposerState false "" "" "" "" "" mode_plain composer_idle None.
Definition composer_reset (s : ComposerState) : ComposerState := composer_initial.
Definition composer_close (s : ComposerState) : ComposerState := composer_reset s.
Definition composer_open (to subject body : option string) (s : ComposerState) : ComposerState :=
  mkComposerState true (default "" to) "" "" (default "" subject) (default "" body) mode_plain
    composer_editing None.
Definition setPhase (phase : ComposerPhase) (error : option Text) (s : ComposerState) : ComposerState :=
  mkComposerState s.(co_isOpen) s.(co_to) s.(co_cc) s.(co_bcc) s.(co_subject) s.(co_body)
    s.(co_securityMode) phase error.

(** [s.trim()]: the white space below 256. *)
Definition is_space (c : ascii) : bool :=
  let n := nat_of_ascii c in ((9 <=? n) && (n <=? 13) || (n =? 32) || (n =? 160))%nat.
Fixpoint trim_start (s : string) : string :=
  match s with
  | String c rest => if is_space c then trim_start rest else s
  | EmptyString => EmptyString
  end.
(** [s] up to its last character that [skip] does not hold of. *)
Fixpoint trim_end_by (skip : ascii → bool) (s : string) : string :=
  match s with
  | EmptyString => EmptyString
  | String c rest =>
      let kept := trim_end_by skip rest in
      if is_empty kept && skip c then EmptyString else String c kept
  end.
Definition trim (s : string) : string := trim_end_by is_space (trim_start s).

Definition canSend (s : ComposerState) : bool :=
  negb (is_empty (trim s.(co_to))) && (s.(co_phase) !== composer_queueing).

(** ** app/stores/account-setup.ts *)

Inductive AccountSetupProfile : Type := boxplotLocalImap | gmailOAuth.
Inductive AccountSetupPhase : Type := setup_idle | setup_validating | setup_connecting.

#[export] Instance AccountSetupProfile_eq_dec : EqDecision AccountSetupProfile.
Proof. solve_decision. Defined.

Inductive AccountSetupRequest : Type :=
| SetupLocalImap (username password host : string) (imapPort smtpPort : number)
| SetupGmail (username : string) (reauthorize : bool).

Record AccountSetupState : Type := mkAccountSetupState {
  setup_profile : AccountSetupProfile;
  setup_username : string;
  setup_password : string;
  setup_host : string;
  setup_port : string;
  setup_phase : AccountSetupPhase;
  setup_error : option Text;
}.

Definition BOXPLOT_LOCAL_IMAP_HOST : string := "127.0.0.1".
Definition BOXPLOT_LOCAL_IMAP_PORT : string := "1143".
Definition BOXPLOT_LOCAL_SMTP_PORT : number := Int 1587.

Definition setup_initial : AccountSetupState :=
  mkAccountSetupState boxplotLocalImap "" "" BOXPLOT_LOCAL_IMAP_HOST BOXPLOT_LOCAL_IMAP_PORT setup_idle None.

(** [/^\d+$/], then [Number(value)]. *)
Definition digit_value (c : ascii) : option Z :=
  let n := nat_of_ascii c in
  if ((48 <=? n) && (n <=? 57))%nat then Some (Z.of_nat n - 48)%Z else None.
Fixpoint digits_value (acc : Z) (s : string) : option Z :=
  match s with
  | EmptyString => Some acc
  | String c rest => digit ← digit_value c; digits_value (10 * acc + digit)%Z rest
  end.
Definition parseImapPort (value : string) : option number :=
  if is_empty value then None
  else
    match digits_value 0 value with
    | None => None
    | Some parsed => if (parsed <? 1)%Z || (65535 <? parsed)%Z then None else Some (Int parsed)
    end.

Definition setProfile (profile : AccountSetupProfile) (s : AccountSetupState) : AccountSetupState :=
  mkAccountSetupState profile s.(setup_username) "" BOXPLOT_LOCAL_IMAP_HOST BOXPLOT_LOCAL_IMAP_PORT
    s.(setup_phase) None.

Definition setUsername (value : string) (s : AccountSetupState) : AccountSetupState :=
  mkAccountSetupState s.(setup_profile) value s.(setup_password) s.(setup_host) s.(setup_port)
    s.(setup_phase) None.
Definition setPassword (value : string) (s : AccountSetupState) : AccountSetupState :=
  mkAccountSetupState s.(setup_profile) s.(setup_username) value s.(setup_host) s.(setup_port)
    s.(setup_phase) None.
Definition setHost (value : string) (s : AccountSetupState) : AccountSetupState :=
  mkAccountSetupState s.(setup_profile) s.(setup_username) s.(setup_password) value s.(setup_port)
    s.(setup_phase) None.
Definition setPort (value : string) (s : AccountSetupState) : AccountSetupState :=
  mkAccountSetupState s.(setup_profile) s.(setup_username) s.(setup_password) s.(setup_host) value
    s.(setup_phase) None.

(** The error [validate] finds. *)
Definition setup_problem (s : AccountSetupState) : option Text :=
  if is_empty s.(setup_username) then Some UsernameRequired
  else if s.(setup_profile) === gmailOAuth then
    if includes s.(setup_username) "@" then None else Some GoogleAccountInvalid
  else if is_empty s.(setup_password) then Some PasswordRequired
  else if is_empty s.(setup_host) then Some HostRequired
  else if is_empty s.(setup_port) then Some PortRequired
  else if bool_decide (parseImapPort s.(setup_port) = None) then Some PortInvalid
  else None.

Definition validate (s : AccountSetupState) : bool * AccountSetupState :=
  let problem := setup_problem s in
  (bool_decide (problem = None),
   mkAccountSetupState s.(setup_profile) s.(setup_username) s.(setup_password) s.(setup_host) s.(setup_port)
     setup_idle problem).

Definition buildRequest (s : AccountSetupState) : (AccountSetupRequest + Text) * AccountSetupState :=
  let '(valid, s) := validate s in
  (if negb valid then inr (default SetupInvalid s.(setup_error))
   else
     match s.(setup_profile) with
     | gmailOAuth => inl (SetupGmail (trim s.(setup_username)) false)
     | boxplotLocalImap =>
         match parseImapPort s.(setup_port) with
         | None => inr SetupInvalid
         | Some imapPort =>
             inl (SetupLocalImap s.(setup_username) s.(setup_password) s.(setup_host) imapPort
                    BOXPLOT_LOCAL_SMTP_PORT)
         end
     end, s).

Definition clearSensitive (s : AccountSetupState) : AccountSetupState :=
  mkAccountSetupState s.(setup_profile) s.(setup_username) "" s.(setup_host) s.(setup_port)
    s.(setup_phase) s.(setup_error).
Definition beginConnection (s : AccountSetupState) : AccountSetupState :=
  mkAccountSetupState s.(setup_profile) s.(setup_username) s.(setup_password) s.(setup_host) s.(setup_port)
    setup_connecting None.
Definition setConnectionError (message : Text) (s : AccountSetupState) : AccountSetupState :=
  mkAccountSetupState s.(setup_profile) s.(setup_username) s.(setup_password) s.(setup_host) s.(setup_port)
    setup_idle (Some message).
Definition finishConnection (s : AccountSetupState) : AccountSetupState :=
  mkAccountSetupState s.(setup_profile) s.(setup_username) s.(setup_password) s.(setup_host) s.(setup_port)
    setup_idle s.(setup_error).
Definition setup_reset (s : AccountSetupState) : AccountSetupState := setup_initial.
