(* ===== verification/Coordinator.v ===== *)
(** * The sync coordinator: sync/coordinator.ts

    [Coordinator] brings an account up to date: it reads the cursor of a
    collection, asks the remote side for the transition since that state, and
    commits it with the cursor as its precondition, once more on a conflict. *)

From S2P Require Import Prelude.
From S2P Require Import JsNumber.
From S2P Require Import JsString.
From S2P Require Import JsCollections.
From S2P Require Import Errors.
From S2P Require Import DomainIds.
From S2P Require Import DomainEmail.
From S2P Require Import DomainMailbox.
From S2P Require Import MailboxView.
From S2P Require Import SendIntent.
From S2P Require Import Ports.
From S2P Require Import MemoryState.
From S2P Require Import MailStore.
From S2P Require Import EngineInterface.
From S2P Require Import Remote.
From S2P Require Import Mappers.
From S2P Require Import Prog.
Open Scope string_scope.
Open Scope list_scope.
Open Scope js_scope.

Definition QUERY_PAGE_SIZE : number := Int 500.

(** ** The dependencies: [RemoteMail], [SyncPort], [ReadRepository] *)

Inductive SyncCall : Type → Type :=
| SyncPortCall {X : Type} (c : PortCall X) : SyncCall X
| SyncIdentities (accountId : RemoteAccountId) (previousState : option RemoteSyncState) :
    SyncCall (RemoteCollectionSync RemoteIdentity RemoteIdentityId)
| SyncMailboxes (accountId : RemoteAccountId) (previousState : option RemoteSyncState) :
    SyncCall (RemoteCollectionSync RemoteMailbox RemoteMailboxId)
| SyncEmails (accountId : RemoteAccountId) (previousState : option RemoteSyncState) :
    SyncCall (RemoteCollectionSync RemoteEmail RemoteEmailId)
| QueryMailbox (accountId : RemoteAccountId) (mailboxId : RemoteMailboxId)
    (options : RemoteQueryOptions) : SyncCall RemoteMailboxQuery.

Abbreviation coordinator := (prog SyncCall).

(** A commit waiting for its precondition. *)
Definition CreateCommit : Type := CollectionCursorPrecondition → outcome exn CollectionSyncCommit.

Definition nextCursor (accountKey : AccountKey) (dataType : CollectionDataType) (state : RemoteSyncState) :
    CollectionSyncCursor :=
  collectionSyncCursor {| cursor_accountKey := accountKey; cursor_dataType := dataType;
                          cursor_state := localCollectionState state |}.

(** [value.map(map)] where [map] throws on [null]. *)
Definition map_or_throw {A B} (what : string) (id_of : A → string) (mapper : A → option B) :
    list A → outcome exn (list B) :=
  mapM (λ value,
    match mapper value with
    | Some mapped => Return mapped
    | None => Throw (Error ("Remote " +:+ what +:+ " " +:+ id_of value +:+ " failed Domain validation"))
    end).

(** [value.map(map).filter((value) => value !== null)]. *)
Definition map_and_skip {A B} (mapper : A → option B) : list A → outcome exn (list B) :=
  λ values, Return (omap mapper values).

(** The three commits differ in their mapper, what they do with [null], the
    constructor and the words of the message. *)
Definition collection_commit {A B} (wrap : CollectionCommit B ScopedId → CollectionSyncCommit)
    (what : string) (map_values : list A → outcome exn (list B))
    (local_id : AccountKey → string → outcome exn ScopedId)
    (accountKey : AccountKey) (next : CollectionSyncCursor)
    (transition : RemoteCollectionSync A string) : CreateCommit := λ expectedCursor,
  match transition with
  | RemoteReplace _ snapshot =>
      values ← map_values snapshot;
      Return (wrap (Replace expectedCursor next values))
  | RemoteDelta _ changed destroyed =>
      match expectedCursor with
      | ExpectAbsent => Throw (Error (what +:+ " delta requires a previous cursor"))
      | ExpectMatches cursor =>
          values ← map_values changed;
          ids ← mapM (local_id accountKey) destroyed;
          Return (wrap (Delta cursor next values ids))
      end
  end.

Definition identityCommit (accountKey : AccountKey)
    (transition : RemoteCollectionSync RemoteIdentity RemoteIdentityId) : CreateCommit :=
  collection_commit IdentityCommit "Identity"
    (map_or_throw "Identity" r_identity_id (toDomainIdentity accountKey))
    localIdentityId accountKey (nextCursor accountKey data_identity (transition_state transition)) transition.

Definition mailboxCommit (accountKey : AccountKey)
    (transition : RemoteCollectionSync RemoteMailbox RemoteMailboxId) : CreateCommit :=
  collection_commit MailboxCommit "Mailbox" (map_and_skip (toDomainMailbox accountKey))
    localMailboxId accountKey (nextCursor accountKey data_mailbox (transition_state transition)) transition.

Definition emailCommit (accountKey : AccountKey)
    (transition : RemoteCollectionSync RemoteEmail RemoteEmailId) : CreateCommit :=
  collection_commit EmailCommit "Email"
    (map_or_throw "Email" r_email_id (toDomainEmailRecord accountKey))
    localEmailId accountKey (nextCursor accountKey data_email (transition_state transition)) transition.

(** ** One collection *)

Definition not_registered (accountKey : AccountKey) : exn :=
  Error ("Account " +:+ accountKey +:+ " is not registered locally").

(** The cursor the account has, if any. *)
Definition readCursorOutcome (accountKey : AccountKey) (dataType : CollectionDataType) :
    coordinator (option CollectionSyncCursor) :=
  result ← await (SyncPortCall (ReadCollectionSyncCursor accountKey dataType));
  match result with
  | PortError kind =>
      Raise (Error ("readCollectionSyncCursor(" +:+ data_type_string dataType +:+ ") failed: " +:+
        read_error_string kind))
  | PortOk OptionalOwnerAbsent => Raise (not_registered accountKey)
  | PortOk OptionalAbsent => Ret None
  | PortOk (OptionalPresent cursor) => Ret (Some cursor)
  end.

Definition precondition_of (outcome : option CollectionSyncCursor) : CollectionCursorPrecondition :=
  match outcome with None => ExpectAbsent | Some cursor => ExpectMatches cursor end.

(** One turn of the loop: whether it returned. *)
Definition sync_attempt (accountKey : AccountKey) (dataType : CollectionDataType)
    (build : option RemoteSyncState → coordinator CreateCommit) : coordinator bool :=
  outcome ← readCursorOutcome accountKey dataType;
  createCommit ← build (cursor_state <$> outcome);
  commit ← of_outcome (createCommit (precondition_of outcome));
  result ← await (SyncPortCall (Write (OpApplyCollectionSync commit)));
  match result with
  | PortOk _ => Ret true
  | PortError write_conflict => Ret false
  | PortError kind =>
      Raise (Error ("applyCollectionSync(" +:+ data_type_string dataType +:+ ") failed: " +:+
        write_error_string kind))
  end.

(** [for (let attempt = 0; attempt < 2; attempt++)]. *)
Fixpoint sync_attempts (attempts : nat) (accountKey : AccountKey) (dataType : CollectionDataType)
    (build : option RemoteSyncState → coordinator CreateCommit) : coordinator unit :=
  match attempts with
  | O => Raise (Error ("applyCollectionSync(" +:+ data_type_string dataType +:+
                       "): conflict persisted after retry"))
  | S attempts =>
      done_ ← sync_attempt accountKey dataType build;
      if (done_ : bool) then Ret tt else sync_attempts attempts accountKey dataType build
  end.

Definition syncCollection (accountKey : AccountKey) (dataType : CollectionDataType)
    (build : option RemoteSyncState → coordinator CreateCommit) : coordinator unit :=
  sync_attempts 2 accountKey dataType build.

Definition syncIdentities (accountKey : AccountKey) (remoteAccountId : RemoteAccountId) : coordinator unit :=
  syncCollection accountKey data_identity (λ previous,
    transition ← await (SyncIdentities remoteAccountId previous);
    Ret (identityCommit accountKey transition)).

Definition syncMailboxes (accountKey : AccountKey) (remoteAccountId : RemoteAccountId) : coordinator unit :=
  syncCollection accountKey data_mailbox (λ previous,
    transition ← await (SyncMailboxes remoteAccountId previous);
    Ret (mailboxCommit accountKey transition)).

Definition syncEmails (accountKey : AccountKey) (remoteAccountId : RemoteAccountId) : coordinator unit :=
  syncCollection accountKey data_email (λ previous,
    transition ← await (SyncEmails remoteAccountId previous);
    Ret (emailCommit accountKey transition)).

(** ** Views, and the whole account *)

Definition page_options : RemoteQueryOptions :=
  {| query_position := None; query_limit := Some QUERY_PAGE_SIZE; query_anchor := None;
     query_anchorOffset := None |}.

Definition syncQueryView (accountKey : AccountKey) (remoteAccountId : RemoteAccountId)
    (spec : MailboxViewSpec) : coordinator unit :=
  mailboxId ← of_outcome (remoteMailboxId spec.(spec_mailboxId));
  result ← await (QueryMailbox remoteAccountId mailboxId page_options);
  match toMailboxView spec accountKey result with
  | None => Ret tt
  | Some view =>
      writeResult ← await (SyncPortCall (Write (OpReplaceMailboxView view)));
      match writeResult with
      | PortOk _ => Ret tt
      | PortError kind => Raise (Error ("replaceMailboxView failed: " +:+ write_error_string kind))
      end
  end.

Definition searchEmails (remoteAccountId : RemoteAccountId) (mailboxId : RemoteMailboxId)
    (options : RemoteQueryOptions) : coordinator RemoteMailboxQuery :=
  await (QueryMailbox remoteAccountId mailboxId options).

Definition view_spec_of (m : Mailbox) : MailboxViewSpec :=
  mailboxViewSpec m.(mailbox_id) mailboxViewFilterAll (mailboxViewSort descending).

Definition syncAccount (accountKey : AccountKey) (remoteAccountId : RemoteAccountId) : coordinator unit :=
  syncIdentities accountKey remoteAccountId;;
  syncMailboxes accountKey remoteAccountId;;
  syncEmails accountKey remoteAccountId;;
  mailboxes ← await (SyncPortCall (ListMailboxes accountKey));
  match mailboxes with
  | PortError kind => Raise (Error ("listMailboxes failed: " +:+ read_error_string kind))
  | PortOk SnapshotOwnerAbsent => Raise (not_registered accountKey)
  | PortOk (SnapshotPresent l) =>
      prog_for l (λ _ mailbox, syncQueryView accountKey remoteAccountId (view_spec_of mailbox)) tt
  end.
