(* ===== verification/MutationRunner.v ===== *)
(** * The mutation runner: outbox/mutation-runner.ts, outbox/types.ts

    [DefaultMutationRunner] claims a staged mutation with a compare-and-swap,
    performs its remote effect, and settles it; a mutation found in flight is
    reconciled, never executed again.  Every method is a program over the
    runner's dependencies. *)

From S2P Require Import Prelude.
From S2P Require Import JsNumber.
From S2P Require Import JsString.
From S2P Require Import JsCollections.
From S2P Require Import Errors.
From S2P Require Import DomainIds.
From S2P Require Import DomainEmail.
From S2P Require Import SendIntent.
From S2P Require Import PendingMutation.
From S2P Require Import Ports.
From S2P Require Import MailStore.
From S2P Require Import EngineInterface.
From S2P Require Import JsDate.
From S2P Require Import Remote.
From S2P Require Import Prog.
From S2P Require Import E2ee.
(** ** When to try again: outbox/retry-policy.ts *)

Open Scope string_scope.
Open Scope list_scope.

Definition RETRY_DELAYS_MS : list Z := [5000; 15000; 60000; 300000]%Z.

(** [xs[index]]: [undefined] unless the index is one of the list's. *)
Definition element_at (xs : list Z) (index : number) : option Z :=
  match index with
  | Int i => if (0 <=? i)%Z then xs !! Z.to_nat i else None
  | _ => None
  end.

Definition retry_index (attemptCount : number) : number :=
  num_min (num_add (num_max attemptCount (Int 1)) (Int (-1))) (Int 3).

(** [other] reads the clock strings that are not canonical ([JsDate.date_parse]). *)
Definition nextRetryInstant (other : string → number) (attemptCount : number) (now : MutationInstant) :
    outcome exn MutationInstant :=
  let instant := date_parse other now in
  throw_if (negb (isFinite instant))
    (TypeError "Mutation retry clock must be an ISO-compatible instant");;
  iso ← date_toISOString
    match element_at RETRY_DELAYS_MS (retry_index attemptCount) with
    | Some delay => num_add instant (Int delay)
    | None => NaN
    end;
  mutationInstantFromString iso.

(** ** Facts *)

(** The delay after the [n]th attempt, in milliseconds. *)
Definition retry_delay (n : Z) : Z :=
  (if n <=? 1 then 5000 else if n =? 2 then 15000 else if n =? 3 then 60000 else 300000)%Z.

Lemma retry_index_Int n :
  (Z.abs n <= 2 ^ 52)%Z → retry_index (Int n) = Int (Z.min (Z.max n 1 - 1) 3).
Proof.
  intros Hn. unfold retry_index, num_max, num_min. rewrite num_ltb_Int.
  destruct (Z.ltb_spec n 1).
  - rewrite num_add_exact by lia. rewrite num_ltb_Int.
    destruct (Z.ltb_spec 3 (1 + -1)%Z); f_equal; lia.
  - rewrite num_add_exact by lia. rewrite num_ltb_Int.
    destruct (Z.ltb_spec 3 (n + -1)%Z); f_equal; lia.
Qed.

Lemma element_at_delays n :
  element_at RETRY_DELAYS_MS (Int (Z.min (Z.max n 1 - 1) 3)) = Some (retry_delay n).
Proof.
  unfold retry_delay.
  destruct (Z.leb_spec n 1); [by replace (Z.min (Z.max n 1 - 1) 3)%Z with 0%Z by lia|].
  destruct (Z.eqb_spec n 2); [by replace (Z.min (Z.max n 1 - 1) 3)%Z with 1%Z by lia|].
  destruct (Z.eqb_spec n 3); [by replace (Z.min (Z.max n 1 - 1) 3)%Z with 2%Z by lia|].
  by replace (Z.min (Z.max n 1 - 1) 3)%Z with 3%Z by lia.
Qed.

Lemma retry_delay_bounds n : (5000 <= retry_delay n <= 300000)%Z.
Proof. unfold retry_delay. destruct (n <=? 1)%Z, (n =? 2)%Z, (n =? 3)%Z; lia. Qed.

Lemma retry_delay_mono n m : (n <= m)%Z → (retry_delay n <= retry_delay m)%Z.
Proof.
  unfold retry_delay. intros Hnm.
  destruct (Z.leb_spec n 1), (Z.leb_spec m 1), (Z.eqb_spec n 2), (Z.eqb_spec m 2),
    (Z.eqb_spec n 3), (Z.eqb_spec m 3); lia.
Qed.

(** On a canonical clock the next attempt is exactly the delay away. *)
Lemma nextRetryInstant_iso other n t :
  (Z.abs n <= 2 ^ 52)%Z → (Z.abs t <= MAX_TIME)%Z → (t + retry_delay n <= MAX_TIME)%Z →
  nextRetryInstant other (Int n) (iso_string t) = Return (iso_string (t + retry_delay n)).
Proof.
  intros Hn Ht Htd. unfold nextRetryInstant, date_parse. rewrite parse_iso_string by done.
  rewrite retry_index_Int, element_at_delays by done. simpl.
  pose proof (retry_delay_bounds n) as Hb. unfold MAX_TIME in *.
  rewrite num_add_exact by lia. unfold date_toISOString, MAX_TIME.
  rewrite (proj2 (Z.leb_le _ _)) by lia. simpl.
  apply mutationInstantFromString_return. split; [done|].
  pose proof (parse_iso_string (t + retry_delay n)) as Hp. intros Hempty. rewrite Hempty in Hp.
  unfold MAX_TIME in Hp. specialize (Hp ltac:(lia)). vm_compute in Hp. done.
Qed.

Open Scope js_scope.

(** ** outbox/types.ts *)

Inductive MutationSkipReason : Type :=
| skip_notFound | skip_notDue | skip_terminal | skip_claimConflict | skip_notConnected.

Inductive MutationExecutionOutcome : Type :=
| outcome_confirmed
| outcome_retrying
| outcome_failedTerminal
| outcome_needsReconciliation
| outcome_skipped (reason : MutationSkipReason).

Record MutationRunSummary : Type := mkSummary {
  attempted : number;
  confirmed : number;
  retrying : number;
  terminal : number;
  reconciliation : number;
  skipped : number;
}.

(** ** The dependencies: [MutationRunnerDependencies] *)

Inductive RunnerCall : Type → Type :=
| Port {X : Type} (c : PortCall X) : RunnerCall X
| IsConnected (ak : AccountKey) : RunnerCall bool
| Submit (ak : AccountKey) (message : RemoteSubmissionDraft) (idempotencyKey : MutationId) :
    RunnerCall SubmissionResult
| ApplyKeywordChange (ak : AccountKey) (emailId : RemoteEmailId) (change : RemoteKeywordChange) :
    RunnerCall unit
| ApplyMembershipChange (ak : AccountKey) (emailId : RemoteEmailId) (change : RemoteMembershipChange) :
    RunnerCall unit
| ReconcileSend (ak : AccountKey) (idempotencyKey : MutationId) : RunnerCall RemoteMutationEvidence
| ReconcileMembership (ak : AccountKey) (idempotencyKey : MutationId) (emailId : RemoteEmailId)
    (change : RemoteMembershipChange) : RunnerCall RemoteMutationEvidence
| EncryptFor (input : EncryptForInput) : RunnerCall (E2eeResult BoxplotE2eeEnvelope)
| RefreshAccount (ak : AccountKey) : RunnerCall unit
| Now : RunnerCall MutationInstant.

Abbreviation runner := (prog RunnerCall).

(** The optional dependencies, and the reading of non-canonical clock strings. *)
Record RunnerOptions : Type := mkRunnerOptions {
  has_reconciler : bool;
  has_refresh : bool;
  parse_other : string → number;
}.

Definition replaceMutation (expected next : PendingMutation) : runner WriteResult :=
  await (Port (Write (OpReplacePendingMutationIfCurrent expected next))).

Definition instanceof_remote_failure (e : exn) : option RemoteMutationSourceFailure :=
  match e with RemoteMutationSourceError failure => Some failure | _ => None end.

(** [{ ...value }] on an address copies it. *)
Definition submissionDraft (intent : SendIntent) (body : SubmissionBody) :
    outcome exn RemoteSubmissionDraft :=
  identityId ← remoteIdentityId intent.(intent_identityId);
  Return {| draft_identityId := Some identityId;
            draft_from := intent.(intent_from);
            draft_to := intent.(intent_to);
            draft_cc := intent.(intent_cc);
            draft_bcc := intent.(intent_bcc);
            draft_replyTo := intent.(intent_replyTo);
            draft_subject := intent.(intent_subject);
            draft_body := body |}.

Inductive PreparedSend : Type :=
| PreparedReady (message : RemoteSubmissionDraft)
| PreparedE2eeFailure (error : E2eeErrorKind).

Definition prepareSend (mutation : SendMutation) : runner PreparedSend :=
  let intent := mutation.(send_intent) in
  match intent.(intent_securityMode) with
  | mode_plain =>
      message ← of_outcome (submissionDraft intent
        (SubmitPlain intent.(intent_body).(send_text) intent.(intent_body).(send_html)));
      Ret (PreparedReady message)
  | boxplotE2eeV1 =>
      encrypted ← match encryptSendIntent intent with
                  | E2eeFailed kind => Ret (E2eeFailed kind)
                  | E2eeOk input => await (EncryptFor input)
                  end;
      match encrypted with
      | E2eeFailed kind => Ret (PreparedE2eeFailure kind)
      | E2eeOk envelope =>
          message ← of_outcome (submissionDraft intent
            (SubmitE2ee (serializeBoxplotE2eeEnvelope envelope)));
          Ret (PreparedReady message)
      end
  end.

(** ** Settling *)

(** The private method [replace]: whether the swap took place. *)
Definition replace_ (expected next : PendingMutation) : runner bool :=
  result ← replaceMutation expected next;
  match result with
  | PortOk _ => Ret true
  | PortError write_conflict => Ret false
  | PortError kind => Raise (Error ("mutation settlement failed: " +:+ write_error_string kind))
  end.

Definition removeConfirmed (mutation : PendingMutation) : runner unit :=
  result ← await (Port (Write (OpRemoveConfirmedMutation (mutation_accountKey mutation)
                                 (mutation_id mutation))));
  match result with
  | PortOk _ => Ret tt
  | PortError write_conflict => Ret tt
  | PortError kind =>
      Raise (Error ("removeConfirmedMutation failed: " +:+ write_error_string kind))
  end.

Definition confirmAndRemove (expected confirmed : PendingMutation) : runner bool :=
  swapped ← replace_ expected confirmed;
  if negb swapped then Ret false
  else removeConfirmed confirmed;; Ret true.

Section options.
Context (options : RunnerOptions).

Definition settleRetry (mutation : PendingMutation) : runner MutationExecutionOutcome :=
  now ← await Now;
  instant ← of_outcome (nextRetryInstant options.(parse_other) (mutation_attemptCount mutation) now);
  next ← of_outcome (scheduleMutationRetry mutation instant);
  swapped ← replace_ mutation next;
  Ret (if (swapped : bool) then outcome_retrying else outcome_needsReconciliation).

Definition settleTerminal (mutation : PendingMutation) : runner MutationExecutionOutcome :=
  next ← of_outcome (failMutationTerminal mutation);
  swapped ← replace_ mutation next;
  Ret (if (swapped : bool) then outcome_failedTerminal else outcome_needsReconciliation).

Definition settleE2eeFailure (mutation : SendMutation) (error : E2eeErrorKind) :
    runner MutationExecutionOutcome :=
  match error with
  | e2ee_unavailable => settleRetry (MutSend mutation)
  | _ => settleTerminal (MutSend mutation)
  end.

Definition settleRemoteFailure (mutation : PendingMutation) (error : exn) :
    runner MutationExecutionOutcome :=
  match instanceof_remote_failure error with
  | None => Ret outcome_needsReconciliation
  | Some failure_notConnected => settleRetry mutation
  | Some (failure_remote remote) =>
      if (remote.(remote_outcome) === outcome_unknown) || (remote.(remote_retry) === retry_reconcile)
      then Ret outcome_needsReconciliation
      else if (remote.(remote_outcome) === knownNotApplied) &&
              ((remote.(remote_retry) === safeImmediate) || (remote.(remote_retry) === safeBackoff))
      then settleRetry mutation
      else settleTerminal mutation
  | Some _ => Ret outcome_needsReconciliation
  end.

(** ** Executing a claimed mutation *)

Definition confirmed_outcome (swapped : bool) : MutationExecutionOutcome :=
  if swapped then outcome_confirmed else outcome_needsReconciliation.

Definition confirm_update (mutation : EmailUpdateMutation) : runner MutationExecutionOutcome :=
  confirmed ← of_outcome (confirmEmailUpdateMutation mutation);
  swapped ← confirmAndRemove (of_update mutation) (of_update confirmed);
  Ret (confirmed_outcome swapped).

Definition confirm_send (mutation : SendMutation) (emailId : RemoteEmailId) :
    runner MutationExecutionOutcome :=
  id ← of_outcome (localEmailId mutation.(send_accountKey) emailId);
  confirmed ← of_outcome (confirmSendMutation mutation (sendConfirmation id));
  swapped ← confirmAndRemove (MutSend mutation) (MutSend confirmed);
  Ret (confirmed_outcome swapped).

Definition executeSend (mutation : SendMutation) (message : RemoteSubmissionDraft) :
    runner MutationExecutionOutcome :=
  prog_try
    (result ← await (Submit mutation.(send_accountKey) message mutation.(send_mutationId));
     match result.(submission_emailId) with
     | None => Ret outcome_needsReconciliation
     | Some emailId => confirm_send mutation emailId
     end)
    (settleRemoteFailure (MutSend mutation)).

Definition executeKeyword (mutation : KeywordMutation) : runner MutationExecutionOutcome :=
  prog_try
    (emailId ← of_outcome (remoteEmailId mutation.(kw_emailId));
     await (ApplyKeywordChange mutation.(kw_accountKey) emailId
              {| remote_keyword_add := mutation.(kw_change).(keyword_add);
                 remote_keyword_remove := mutation.(kw_change).(keyword_remove) |});;
     confirm_update (UpdateKeyword mutation))
    (settleRemoteFailure (MutKeyword mutation)).

(** [{ add: change.add.map(remoteMailboxId), remove: change.remove.map(remoteMailboxId) }]. *)
Definition remote_membership_change (change : MailboxMembershipChange) :
    outcome exn RemoteMembershipChange :=
  add ← mapM remoteMailboxId change.(membership_add);
  remove ← mapM remoteMailboxId change.(membership_remove);
  Return {| remote_membership_add := add; remote_membership_remove := remove |}.

Definition executeMembership (mutation : MailboxMembershipMutation) :
    runner MutationExecutionOutcome :=
  prog_try
    (emailId ← of_outcome (remoteEmailId mutation.(mm_emailId));
     change ← of_outcome (remote_membership_change mutation.(mm_change));
     await (ApplyMembershipChange mutation.(mm_accountKey) emailId change);;
     confirm_update (UpdateMembership mutation))
    (settleRemoteFailure (MutMembership mutation)).

(** ** Reconciling a mutation found in flight *)

Definition reconcileSend (mutation : SendMutation) : runner MutationExecutionOutcome :=
  if negb options.(has_reconciler) then Ret outcome_needsReconciliation
  else
    prog_try
      (evidence ← await (ReconcileSend mutation.(send_accountKey) mutation.(send_mutationId));
       match evidence with
       | EvidenceInconclusive => Ret outcome_needsReconciliation
       | EvidenceApplied emailId => confirm_send mutation emailId
       end)
      (λ _, Ret outcome_needsReconciliation).

Definition reconcileMembership (mutation : MailboxMembershipMutation) :
    runner MutationExecutionOutcome :=
  if negb options.(has_reconciler) then Ret outcome_needsReconciliation
  else
    prog_try
      (emailId ← of_outcome (remoteEmailId mutation.(mm_emailId));
       change ← of_outcome (remote_membership_change mutation.(mm_change));
       evidence ← await (ReconcileMembership mutation.(mm_accountKey) mutation.(mm_mutationId)
                           emailId change);
       match evidence with
       | EvidenceInconclusive => Ret outcome_needsReconciliation
       | EvidenceApplied _ => confirm_update (UpdateMembership mutation)
       end)
      (λ _, Ret outcome_needsReconciliation).

(** Whether an email's keywords already show the change. *)
Definition keywords_applied (change : KeywordChange) (keywords : KeywordSet) : bool :=
  forallb (λ value, set_has value keywords) change.(keyword_add) &&
  forallb (λ value, negb (set_has value keywords)) change.(keyword_remove).

(** The [try] block ends with [return this.settleX(mutation)], not awaited: what
    that call throws is not caught.  The block returns the program to finish with. *)
Definition reconcileKeyword (mutation : KeywordMutation) : runner MutationExecutionOutcome :=
  if negb options.(has_refresh) then Ret outcome_needsReconciliation
  else
    connected ← await (IsConnected mutation.(kw_accountKey));
    if negb connected then Ret outcome_needsReconciliation
    else
      finish ← prog_try
        (await (RefreshAccount mutation.(kw_accountKey));;
         current ← await (Port (ReadEmail mutation.(kw_emailId)));
         match current with
         | PortError _ => Ret (Ret outcome_needsReconciliation)
         | PortOk EntityAbsent => Ret (settleTerminal (MutKeyword mutation))
         | PortOk (EntityPresent current) =>
             if negb (keywords_applied mutation.(kw_change) current.(email_keywords))
             then Ret (settleRetry (MutKeyword mutation))
             else outcome ← confirm_update (UpdateKeyword mutation); Ret (Ret outcome)
         end)
        (λ _, Ret (Ret outcome_needsReconciliation));
      finish.

Definition reconcile (mutation : PendingMutation) : runner MutationExecutionOutcome :=
  match mutation with
  | MutSend m => reconcileSend m
  | MutMembership m => reconcileMembership m
  | MutKeyword m => reconcileKeyword m
  end.

(** ** [runMutation] and [runAccount] *)

Definition readMutation (ak : AccountKey) (id : MutationId) : runner (option PendingMutation) :=
  result ← await (Port (ReadPendingMutation ak id));
  match result with
  | PortError kind => Raise (Error ("readPendingMutation failed: " +:+ read_error_string kind))
  | PortOk (OptionalPresent value) => Ret (Some value)
  | PortOk _ => Ret None
  end.

(** From the connection check on: prepare, claim, execute. *)
Definition claimAndExecute (ak : AccountKey) (current : PendingMutation) :
    runner MutationExecutionOutcome :=
  connected ← await (IsConnected ak);
  if negb connected then Ret (outcome_skipped skip_notConnected)
  else
    prepared ← match current with
               | MutSend m => p ← prepareSend m; Ret (Some p)
               | _ => Ret None
               end;
    inFlight ← of_outcome (startMutationAttempt current);
    claimed ← replaceMutation current inFlight;
    match claimed with
    | PortError write_conflict => Ret (outcome_skipped skip_claimConflict)
    | PortError kind => Raise (Error ("mutation claim failed: " +:+ write_error_string kind))
    | PortOk _ =>
        match inFlight with
        | MutSend m =>
            match prepared with
            | Some (PreparedE2eeFailure error) => settleE2eeFailure m error
            | Some (PreparedReady message) => executeSend m message
            | None => settleTerminal (MutSend m)
            end
        | MutKeyword m => executeKeyword m
        | MutMembership m => executeMembership m
        end
    end.

Definition runMutation (ak : AccountKey) (id : MutationId) : runner MutationExecutionOutcome :=
  found ← readMutation ak id;
  match found with
  | None => Ret (outcome_skipped skip_notFound)
  | Some current =>
      match mutation_lifecycle current with
      | Confirmed _ _ => removeConfirmed current;; Ret outcome_confirmed
      | FailedTerminal _ => Ret (outcome_skipped skip_terminal)
      | InFlight _ => reconcile current
      | Retrying _ nextAttemptAt =>
          now ← await Now;
          if string_gtb nextAttemptAt now then Ret (outcome_skipped skip_notDue)
          else claimAndExecute ak current
      | Pending _ => claimAndExecute ak current
      end
  end.

Definition mutableSummary : MutationRunSummary :=
  {| attempted := Int 0; confirmed := Int 0; retrying := Int 0; terminal := Int 0;
     reconciliation := Int 0; skipped := Int 0 |}.
Definition emptySummary : MutationRunSummary := mutableSummary.

Definition bump (condition : bool) (n : number) : number :=
  if condition then num_add n (Int 1) else n.

Definition countOutcome (s : MutationRunSummary) (o : MutationExecutionOutcome) : MutationRunSummary :=
  match o with
  | outcome_skipped _ =>
      {| attempted := s.(attempted); confirmed := s.(confirmed); retrying := s.(retrying);
         terminal := s.(terminal); reconciliation := s.(reconciliation);
         skipped := num_add s.(skipped) (Int 1) |}
  | _ =>
      {| attempted := num_add s.(attempted) (Int 1);
         confirmed := bump match o with outcome_confirmed => true | _ => false end s.(confirmed);
         retrying := bump match o with outcome_retrying => true | _ => false end s.(retrying);
         terminal := bump match o with outcome_failedTerminal => true | _ => false end s.(terminal);
         reconciliation :=
           bump match o with outcome_needsReconciliation => true | _ => false end s.(reconciliation);
         skipped := s.(skipped) |}
  end.

Definition runAccount (ak : AccountKey) : runner MutationRunSummary :=
  result ← await (Port (ListPendingMutations ak));
  match result with
  | PortError kind => Raise (Error ("listPendingMutations failed: " +:+ read_error_string kind))
  | PortOk SnapshotOwnerAbsent => Ret emptySummary
  | PortOk (SnapshotPresent value) =>
      prog_for value (λ summary mutation,
        outcome ← runMutation ak (mutation_id mutation);
        Ret (countOutcome summary outcome)) mutableSummary
  end.
End options.
