(* ===== verification/Application.v ===== *)
(** * The application controller: app/application.ts (its state, what is current, the
    status of the observed account)

    [MailApplicationController] answers the user interface: it reads the local store into
    the stores of [Stores], follows the hints of local changes, connects and refreshes
    accounts through the remote application, and starts local mutations.  Its fields, the
    stores it writes and what the remote application shows of itself are one shared state;
    a method is a program whose synchronous parts are atomic.

    [void p] starts [p] and goes on: the model puts [p] among the [background] tasks,
    which [Controller.run_task] runs.  A promise that is shared is a number: a method that joins a
    running attempt answers its number.  What is asked of the OAuth broker without waiting for
    its answer is a log, [forgotten]. *)

From S2P Require Import Prelude.
From S2P Require Import JsNumber.
From S2P Require Import JsString.
From S2P Require Import JsCollections.
From S2P Require Import Errors.
From S2P Require Import DomainIds.
From S2P Require Import DomainEmail.
From S2P Require Import DomainMailbox.
From S2P Require Import MailboxView.
From S2P Require Import SendIntent.
From S2P Require Import PendingMutation.
From S2P Require Import Ports.
From S2P Require Import MailStore.
From S2P Require Import EngineInterface.
From S2P Require Import Remote.
From S2P Require Import Prog.
From S2P Require Import JsText.
From S2P Require Import SharedState.
From S2P Require Import RemoteApplication.
From S2P Require Import Stores.
From S2P Require Import MutationRunner.
From Stdlib Require Import ZArith.
Open Scope string_scope.
Open Scope list_scope.
Open Scope js_scope.

(** ** The state *)

Inductive ConnectionAttemptTarget : Type := FirstRun | Reconnect (accountKey : AccountKey).

#[export] Instance ConnectionAttemptTarget_eq_dec : EqDecision ConnectionAttemptTarget.
Proof. solve_decision. Defined.

Record Controller : Type := mkController {
  c_subscription : option nat;
  c_accountsGeneration : Z;
  c_mailboxesGeneration : Z;
  c_mailboxViewGeneration : Z;
  c_bodyGeneration : Z;
  c_pendingHints : list LocalChangeHint;
  c_invalidationScheduled : bool;
  c_remoteStatusUnsubscribe : option nat;
  c_observedRemoteAccountKey : option AccountKey;
  c_activeConnectionAttempt : option (ConnectionAttemptTarget * nat);
  c_connectionGeneration : Z;
  c_activeRefreshAttempt : option (AccountKey * nat);
  c_refreshGeneration : Z;
  c_mutationStatusGenerations : jsmap string Z;
  c_activeMutationRuns : jsmap string nat;
  c_bodyMaterializationAttempts : jsmap string nat;
  c_disposed : bool;
}.

Definition controller_initial : Controller :=
  mkController None 0 0 0 0 [] false None None None 0 None 0 map_new map_new map_new false.

(** Assignments to the fields. *)
Definition put_subscription (x : option nat) (s : Controller) : Controller :=
  mkController x s.(c_accountsGeneration) s.(c_mailboxesGeneration) s.(c_mailboxViewGeneration)
    s.(c_bodyGeneration) s.(c_pendingHints) s.(c_invalidationScheduled)
    s.(c_remoteStatusUnsubscribe) s.(c_observedRemoteAccountKey) s.(c_activeConnectionAttempt)
    s.(c_connectionGeneration) s.(c_activeRefreshAttempt) s.(c_refreshGeneration)
    s.(c_mutationStatusGenerations) s.(c_activeMutationRuns) s.(c_bodyMaterializationAttempts)
    s.(c_disposed).
Definition put_accountsGeneration (x : Z) (s : Controller) : Controller :=
  mkController s.(c_subscription) x s.(c_mailboxesGeneration) s.(c_mailboxViewGeneration)
    s.(c_bodyGeneration) s.(c_pendingHints) s.(c_invalidationScheduled)
    s.(c_remoteStatusUnsubscribe) s.(c_observedRemoteAccountKey) s.(c_activeConnectionAttempt)
    s.(c_connectionGeneration) s.(c_activeRefreshAttempt) s.(c_refreshGeneration)
    s.(c_mutationStatusGenerations) s.(c_activeMutationRuns) s.(c_bodyMaterializationAttempts)
    s.(c_disposed).
Definition put_mailboxesGeneration (x : Z) (s : Controller) : Controller :=
  mkController s.(c_subscription) s.(c_accountsGeneration) x s.(c_mailboxViewGeneration)
    s.(c_bodyGeneration) s.(c_pendingHints) s.(c_invalidationScheduled)
    s.(c_remoteStatusUnsubscribe) s.(c_observedRemoteAccountKey) s.(c_activeConnectionAttempt)
    s.(c_connectionGeneration) s.(c_activeRefreshAttempt) s.(c_refreshGeneration)
    s.(c_mutationStatusGenerations) s.(c_activeMutationRuns) s.(c_bodyMaterializationAttempts)
    s.(c_disposed).
Definition put_mailboxViewGeneration (x : Z) (s : Controller) : Controller :=
  mkController s.(c_subscription) s.(c_accountsGeneration) s.(c_mailboxesGeneration) x
    s.(c_bodyGeneration) s.(c_pendingHints) s.(c_invalidationScheduled)
    s.(c_remoteStatusUnsubscribe) s.(c_observedRemoteAccountKey) s.(c_activeConnectionAttempt)
    s.(c_connectionGeneration) s.(c_activeRefreshAttempt) s.(c_refreshGeneration)
    s.(c_mutationStatusGenerations) s.(c_activeMutationRuns) s.(c_bodyMaterializationAttempts)
    s.(c_disposed).
Definition put_bodyGeneration (x : Z) (s : Controller) : Controller :=
  mkController s.(c_subscription) s.(c_accountsGeneration) s.(c_mailboxesGeneration)
    s.(c_mailboxViewGeneration) x s.(c_pendingHints) s.(c_invalidationScheduled)
    s.(c_remoteStatusUnsubscribe) s.(c_observedRemoteAccountKey) s.(c_activeConnectionAttempt)
    s.(c_connectionGeneration) s.(c_activeRefreshAttempt) s.(c_refreshGeneration)
    s.(c_mutationStatusGenerations) s.(c_activeMutationRuns) s.(c_bodyMaterializationAttempts)
    s.(c_disposed).
Definition put_pendingHints (x : list LocalChangeHint) (s : Controller) : Controller :=
  mkController s.(c_subscription) s.(c_accountsGeneration) s.(c_mailboxesGeneration)
    s.(c_mailboxViewGeneration) s.(c_bodyGeneration) x s.(c_invalidationScheduled)
    s.(c_remoteStatusUnsubscribe) s.(c_observedRemoteAccountKey) s.(c_activeConnectionAttempt)
    s.(c_connectionGeneration) s.(c_activeRefreshAttempt) s.(c_refreshGeneration)
    s.(c_mutationStatusGenerations) s.(c_activeMutationRuns) s.(c_bodyMaterializationAttempts)
    s.(c_disposed).
Definition put_invalidationScheduled (x : bool) (s : Controller) : Controller :=
  mkController s.(c_subscription) s.(c_accountsGeneration) s.(c_mailboxesGeneration)
    s.(c_mailboxViewGeneration) s.(c_bodyGeneration) s.(c_pendingHints) x
    s.(c_remoteStatusUnsubscribe) s.(c_observedRemoteAccountKey) s.(c_activeConnectionAttempt)
    s.(c_connectionGeneration) s.(c_activeRefreshAttempt) s.(c_refreshGeneration)
    s.(c_mutationStatusGenerations) s.(c_activeMutationRuns) s.(c_bodyMaterializationAttempts)
    s.(c_disposed).
Definition put_remoteStatusUnsubscribe (x : option nat) (s : Controller) : Controller :=
  mkController s.(c_subscription) s.(c_accountsGeneration) s.(c_mailboxesGeneration)
    s.(c_mailboxViewGeneration) s.(c_bodyGeneration) s.(c_pendingHints) s.(c_invalidationScheduled)
    x s.(c_observedRemoteAccountKey) s.(c_activeConnectionAttempt) s.(c_connectionGeneration)
    s.(c_activeRefreshAttempt) s.(c_refreshGeneration) s.(c_mutationStatusGenerations)
    s.(c_activeMutationRuns) s.(c_bodyMaterializationAttempts) s.(c_disposed).
Definition put_observedRemoteAccountKey (x : option AccountKey) (s : Controller) : Controller :=
  mkController s.(c_subscription) s.(c_accountsGeneration) s.(c_mailboxesGeneration)
    s.(c_mailboxViewGeneration) s.(c_bodyGeneration) s.(c_pendingHints) s.(c_invalidationScheduled)
    s.(c_remoteStatusUnsubscribe) x s.(c_activeConnectionAttempt) s.(c_connectionGeneration)
    s.(c_activeRefreshAttempt) s.(c_refreshGeneration) s.(c_mutationStatusGenerations)
    s.(c_activeMutationRuns) s.(c_bodyMaterializationAttempts) s.(c_disposed).
Definition put_activeConnectionAttempt (x : option (ConnectionAttemptTarget * nat)) (s : Controller) : Controller :=
  mkController s.(c_subscription) s.(c_accountsGeneration) s.(c_mailboxesGeneration)
    s.(c_mailboxViewGeneration) s.(c_bodyGeneration) s.(c_pendingHints) s.(c_invalidationScheduled)
    s.(c_remoteStatusUnsubscribe) s.(c_observedRemoteAccountKey) x s.(c_connectionGeneration)
    s.(c_activeRefreshAttempt) s.(c_refreshGeneration) s.(c_mutationStatusGenerations)
    s.(c_activeMutationRuns) s.(c_bodyMaterializationAttempts) s.(c_disposed).
Definition put_connectionGeneration (x : Z) (s : Controller) : Controller :=
  mkController s.(c_subscription) s.(c_accountsGeneration) s.(c_mailboxesGeneration)
    s.(c_mailboxViewGeneration) s.(c_bodyGeneration) s.(c_pendingHints) s.(c_invalidationScheduled)
    s.(c_remoteStatusUnsubscribe) s.(c_observedRemoteAccountKey) s.(c_activeConnectionAttempt) x
    s.(c_activeRefreshAttempt) s.(c_refreshGeneration) s.(c_mutationStatusGenerations)
    s.(c_activeMutationRuns) s.(c_bodyMaterializationAttempts) s.(c_disposed).
Definition put_activeRefreshAttempt (x : option (AccountKey * nat)) (s : Controller) : Controller :=
  mkController s.(c_subscription) s.(c_accountsGeneration) s.(c_mailboxesGeneration)
    s.(c_mailboxViewGeneration) s.(c_bodyGeneration) s.(c_pendingHints) s.(c_invalidationScheduled)
    s.(c_remoteStatusUnsubscribe) s.(c_observedRemoteAccountKey) s.(c_activeConnectionAttempt)
    s.(c_connectionGeneration) x s.(c_refreshGeneration) s.(c_mutationStatusGenerations)
    s.(c_activeMutationRuns) s.(c_bodyMaterializationAttempts) s.(c_disposed).
Definition put_refreshGeneration (x : Z) (s : Controller) : Controller :=
  mkController s.(c_subscription) s.(c_accountsGeneration) s.(c_mailboxesGeneration)
    s.(c_mailboxViewGeneration) s.(c_bodyGeneration) s.(c_pendingHints) s.(c_invalidationScheduled)
    s.(c_remoteStatusUnsubscribe) s.(c_observedRemoteAccountKey) s.(c_activeConnectionAttempt)
    s.(c_connectionGeneration) s.(c_activeRefreshAttempt) x s.(c_mutationStatusGenerations)
    s.(c_activeMutationRuns) s.(c_bodyMaterializationAttempts) s.(c_disposed).
Definition put_mutationStatusGenerations (x : jsmap string Z) (s : Controller) : Controller :=
  mkController s.(c_subscription) s.(c_accountsGeneration) s.(c_mailboxesGeneration)
    s.(c_mailboxViewGeneration) s.(c_bodyGeneration) s.(c_pendingHints) s.(c_invalidationScheduled)
    s.(c_remoteStatusUnsubscribe) s.(c_observedRemoteAccountKey) s.(c_activeConnectionAttempt)
    s.(c_connectionGeneration) s.(c_activeRefreshAttempt) s.(c_refreshGeneration) x
    s.(c_activeMutationRuns) s.(c_bodyMaterializationAttempts) s.(c_disposed).
Definition put_activeMutationRuns (x : jsmap string nat) (s : Controller) : Controller :=
  mkController s.(c_subscription) s.(c_accountsGeneration) s.(c_mailboxesGeneration)
    s.(c_mailboxViewGeneration) s.(c_bodyGeneration) s.(c_pendingHints) s.(c_invalidationScheduled)
    s.(c_remoteStatusUnsubscribe) s.(c_observedRemoteAccountKey) s.(c_activeConnectionAttempt)
    s.(c_connectionGeneration) s.(c_activeRefreshAttempt) s.(c_refreshGeneration)
    s.(c_mutationStatusGenerations) x s.(c_bodyMaterializationAttempts) s.(c_disposed).
Definition put_bodyMaterializationAttempts (x : jsmap string nat) (s : Controller) : Controller :=
  mkController s.(c_subscription) s.(c_accountsGeneration) s.(c_mailboxesGeneration)
    s.(c_mailboxViewGeneration) s.(c_bodyGeneration) s.(c_pendingHints) s.(c_invalidationScheduled)
    s.(c_remoteStatusUnsubscribe) s.(c_observedRemoteAccountKey) s.(c_activeConnectionAttempt)
    s.(c_connectionGeneration) s.(c_activeRefreshAttempt) s.(c_refreshGeneration)
    s.(c_mutationStatusGenerations) s.(c_activeMutationRuns) x s.(c_disposed).
Definition put_disposed (x : bool) (s : Controller) : Controller :=
  mkController s.(c_subscription) s.(c_accountsGeneration) s.(c_mailboxesGeneration)
    s.(c_mailboxViewGeneration) s.(c_bodyGeneration) s.(c_pendingHints) s.(c_invalidationScheduled)
    s.(c_remoteStatusUnsubscribe) s.(c_observedRemoteAccountKey) s.(c_activeConnectionAttempt)
    s.(c_connectionGeneration) s.(c_activeRefreshAttempt) s.(c_refreshGeneration)
    s.(c_mutationStatusGenerations) s.(c_activeMutationRuns) s.(c_bodyMaterializationAttempts) x.

(** What the remote application shows: the status of every account, whether it is
    disposed, and the subscriptions to statuses, each with its account and whether it
    lasts. *)
Record RemoteView : Type := mkRemoteView {
  rv_status : AccountKey → RemoteAccountStatus;
  rv_disposed : bool;
  rv_subscriptions : list (AccountKey * bool);
}.

(** What runs in the background: a task was begun (its first synchronous part is done),
    so it carries the number of its promise or its generation. *)
Inductive Task : Type :=
| TaskFlush
| TaskMaterialize (emailId : ScopedEmailId) (promise : nat)
| TaskStatuses (accountKey : AccountKey) (generation : Z)
| TaskRun (accountKey : AccountKey) (mutationId : MutationId) (promise : nat) (generation : Z).

(** [forgotten] is the log of the credentials that the OAuth broker was asked to forget. *)
Record Application : Type := mkApplication {
  controller : Controller;
  mail : MailState;
  runtime : RuntimeState;
  statuses : MutationStatusState;
  composer : ComposerState;
  remote_view : RemoteView;
  next_promise : nat;
  background : list Task;
  forgotten : list string;
}.

Definition on_controller (f : Controller → Controller) (s : Application) : Application :=
  mkApplication (f s.(controller)) s.(mail) s.(runtime) s.(statuses) s.(composer) s.(remote_view)
    s.(next_promise) s.(background) s.(forgotten).
Definition on_mail (f : MailState → MailState) (s : Application) : Application :=
  mkApplication s.(controller) (f s.(mail)) s.(runtime) s.(statuses) s.(composer) s.(remote_view)
    s.(next_promise) s.(background) s.(forgotten).
Definition on_runtime (f : RuntimeState → RuntimeState) (s : Application) : Application :=
  mkApplication s.(controller) s.(mail) (f s.(runtime)) s.(statuses) s.(composer) s.(remote_view)
    s.(next_promise) s.(background) s.(forgotten).
Definition on_statuses (f : MutationStatusState → MutationStatusState) (s : Application) : Application :=
  mkApplication s.(controller) s.(mail) s.(runtime) (f s.(statuses)) s.(composer) s.(remote_view)
    s.(next_promise) s.(background) s.(forgotten).
Definition on_composer (f : ComposerState → ComposerState) (s : Application) : Application :=
  mkApplication s.(controller) s.(mail) s.(runtime) s.(statuses) (f s.(composer)) s.(remote_view)
    s.(next_promise) s.(background) s.(forgotten).
Definition on_remote (f : RemoteView → RemoteView) (s : Application) : Application :=
  mkApplication s.(controller) s.(mail) s.(runtime) s.(statuses) s.(composer) (f s.(remote_view))
    s.(next_promise) s.(background) s.(forgotten).
Definition fresh_promise (s : Application) : Application :=
  mkApplication s.(controller) s.(mail) s.(runtime) s.(statuses) s.(composer) s.(remote_view)
    (S s.(next_promise)) s.(background) s.(forgotten).
Definition put_background (tasks : list Task) (s : Application) : Application :=
  mkApplication s.(controller) s.(mail) s.(runtime) s.(statuses) s.(composer) s.(remote_view)
    s.(next_promise) tasks s.(forgotten).
(** [void broker.forget(credentialRef).catch(() => undefined)]: the broker is asked; nothing
    waits for its answer and nothing reads it. *)
Definition ask_to_forget (credentialRef : string) (s : Application) : Application :=
  mkApplication s.(controller) s.(mail) s.(runtime) s.(statuses) s.(composer) s.(remote_view)
    s.(next_promise) s.(background) (s.(forgotten) ++ [credentialRef]).
(** [void task]. *)
Definition spawn (task : Task) (s : Application) : Application :=
  put_background (s.(background) ++ [task]) s.

(** The remote application at the start of a program, and the stores. *)
Definition application_initial (remote : RemoteView) : Application :=
  mkApplication controller_initial mail_initial runtime_initial statuses_initial composer_initial remote 0 [] [].

(** ** Calls out of the controller

    A subscription to local changes and its [unsubscribe]; [connect] and
    [refreshAccount] of the remote application; the OAuth broker; the body materializer;
    the mutation runner; the worker of the legacy path; the callback of a connection; the
    generator of account keys, the random part of ids and the clock. *)
Inductive ControllerCall : Type → Type :=
| ControllerPort {X : Type} (c : PortCall X) : ControllerCall X
| SubscribeChanges : ControllerCall (option nat)
| UnsubscribeChanges (subscription : nat) : ControllerCall unit
| RemoteConnect (request : RemoteConnectRequest) : ControllerCall unit
| RemoteRefresh (accountKey : AccountKey) : ControllerCall unit
| Authorize (accountKey : AccountKey) (username : string) : ControllerCall string
| Materialize (emailId : ScopedEmailId) : ControllerCall unit
| RunMutation (accountKey : AccountKey) (mutationId : MutationId) :
    ControllerCall MutationExecutionOutcome
| WorkerSync (accountKey : AccountKey) (jmapAccountId : JmapAccountId) : ControllerCall unit
| WorkerSend (accountKey : AccountKey) (jmapAccountId : JmapAccountId) (mutationId : MutationId) :
    ControllerCall unit
| OnAuthenticated : ControllerCall unit
| FreshAccountKey : ControllerCall AccountKey
| Entropy : ControllerCall string
| Clock : ControllerCall string.

Abbreviation app := (prog (with_state Application ControllerCall)).
Abbreviation act := (action exn Application).

Definition port {X} (c : PortCall X) : app X := outside (ControllerPort c).
(** A synchronous part that only writes. *)
Definition change (f : Application → Application) : app unit := atomically (modify f).
Definition look {X} (f : Application → X) : app X := atomically (read f).

(** Which of the optional dependencies the context has. *)
Record Installed : Type := mkInstalled {
  has_remoteApplication : bool;
  has_bodyMaterializer : bool;
  has_mutationRunner : bool;
  has_googleOAuthBroker : bool;
  has_workerClient : bool;
}.

(** A method that shares a running attempt answers its number; the others answer a
    value. *)
Inductive Shared (A : Type) : Type := Settled (value : A) | SharesPromise (promise : nat).
Arguments Settled {A} value.
Arguments SharesPromise {A} promise.
(** Beginning a shared attempt: what the one that starts knows. *)
Inductive Claim (A : Type) : Type := Started (value : A) | Joins (promise : nat) | Refused.
Arguments Started {A} value.
Arguments Joins {A} promise.
Arguments Refused {A}.

(** [{ ok: true }] is [None] in these two. *)
Definition RemoteRefreshResult : Type := option RemoteRefreshErrorKind.
Definition BodyLoadResult : Type := option BodyLoadErrorKind.
Definition AccountConnectionResult : Type := AccountKey + AccountConnectionErrorKind.

Inductive SelectedBodyRereadState : Type :=
| reread_cached | reread_notCached | reread_ownerAbsent | reread_failed | reread_stale.

(** ** What is current *)

Definition isCurrentConnection (generation : Z) (s : Application) : bool :=
  negb s.(controller).(c_disposed) && (s.(controller).(c_connectionGeneration) =? generation)%Z.
Definition isCurrentRefresh (generation : Z) (s : Application) : bool :=
  negb s.(controller).(c_disposed) && (s.(controller).(c_refreshGeneration) =? generation)%Z.
Definition isSelectedEmail (emailId : ScopedEmailId) (s : Application) : bool :=
  match s.(mail).(ms_selectedEmailId) with
  | None => false
  | Some selected => sameScopedEmailId selected emailId
  end.

(** ** The status of the observed account *)

Definition show_status (status : RemoteAccountStatus) (s : Application) : Application :=
  on_runtime (setConnectivity status.(status_connectivity)) (on_runtime (setAuth status.(status_auth)) s).
Definition show_nothing (s : Application) : Application :=
  on_runtime (setConnectivity offline) (on_runtime (setAuth anonymous) s).

(** The listener of [observeRemoteStatus]. *)
Definition status_listener (accountKey : AccountKey) (status : RemoteAccountStatus) (s : Application) :
    Application :=
  if s.(controller).(c_disposed) || negb (bool_decide (s.(controller).(c_observedRemoteAccountKey) = Some accountKey))
  then s else show_status status s.

(** The remote application ends a subscription. *)
Definition unsubscribe_remote (subscription : option nat) (s : Application) : Application :=
  match subscription with
  | None => s
  | Some n =>
      on_remote (λ v, mkRemoteView v.(rv_status) v.(rv_disposed)
        (alter (λ '(accountKey, _), (accountKey, false)) n v.(rv_subscriptions))) s
  end.

(** [remoteApplication.subscribe]: it throws when disposed; otherwise it calls the new
    listener with the status of the account. *)
Definition subscribe_remote (accountKey : AccountKey) (s : Application) : option (nat * Application) :=
  let v := s.(remote_view) in
  if v.(rv_disposed) then None
  else
    let s := on_remote (λ v, mkRemoteView v.(rv_status) v.(rv_disposed)
               (v.(rv_subscriptions) ++ [(accountKey, true)])) s in
    Some (length v.(rv_subscriptions), status_listener accountKey (v.(rv_status) accountKey) s).

Definition observeRemoteStatus (installed : Installed) (accountKey : option AccountKey) (s : Application) : Application :=
  if bool_decide (s.(controller).(c_observedRemoteAccountKey) = accountKey) then s
  else
    let s := unsubscribe_remote s.(controller).(c_remoteStatusUnsubscribe) s in
    let s := on_controller (put_remoteStatusUnsubscribe None) s in
    let s := on_controller (put_observedRemoteAccountKey accountKey) s in
    match accountKey with
    | None => show_nothing s
    | Some accountKey =>
        if negb installed.(has_remoteApplication) then show_nothing s
        else
          match subscribe_remote accountKey s with
          | None => show_nothing s
          | Some (subscription, s) => on_controller (put_remoteStatusUnsubscribe (Some subscription)) s
          end
    end.

Definition projectRemoteStatus (installed : Installed) (accountKey : AccountKey) (s : Application) : Application :=
  if negb (bool_decide (s.(controller).(c_observedRemoteAccountKey) = Some accountKey)) then s
  else if negb installed.(has_remoteApplication) then s
  else show_status (s.(remote_view).(rv_status) accountKey) s.

(** The remote application publishes a status: every lasting subscription of the account
    hears of it. *)
Definition publish_remote (accountKey : AccountKey) (status : RemoteAccountStatus) (s : Application) :
    Application :=
  let s := on_remote (λ v, mkRemoteView
             (λ key, if bool_decide (key = accountKey) then status else v.(rv_status) key)
             v.(rv_disposed) v.(rv_subscriptions)) s in
  fold_left (λ s '(key, lasts),
    if bool_decide (key = accountKey) && lasts then status_listener accountKey status s else s)
    s.(remote_view).(rv_subscriptions) s.

(** The remote application is disposed: statuses change without notice, every
    subscription ends. *)
Definition dispose_remote (statuses : AccountKey → RemoteAccountStatus) (s : Application) : Application :=
  on_remote (λ v, mkRemoteView statuses true
    (List.map (λ '(key, _), (key, false)) v.(rv_subscriptions))) s.
