(* ===== verification/Controller.v ===== *)
(** * The methods of the application controller: app/application.ts,
    app/services/send-service.ts

    A call of another async method runs up to its first [await] within the caller's
    synchronous part.  So a method is split: [begin_x] is its first synchronous part, an
    action that callers include in theirs, and [x_from] is the program after it. *)

From S2P Require Import Prelude.
From S2P Require Import JsNumber.
From S2P Require Import JsString.
From S2P Require Import JsCollections.
From S2P Require Import Errors.
From S2P Require Import DomainIds.
From S2P Require Import DomainEmail.
From S2P Require Import DomainMailbox.
From S2P Require Import MailboxView.
From S2P Require Import SendIntent.
From S2P Require Import PendingMutation.
From S2P Require Import Ports.
From S2P Require Import MailStore.
From S2P Require Import EngineInterface.
From S2P Require Import Remote.
From S2P Require Import Prog.
From S2P Require Import JsText.
From S2P Require Import SharedState.
From S2P Require Import RemoteApplication.
From S2P Require Import Stores.
From S2P Require Import MutationRunner.
From S2P Require Import Application.
From Stdlib Require Import ZArith.
Open Scope string_scope.
Open Scope list_scope.
Open Scope js_scope.

(** ** Functions of the module *)

Definition mutation_emailId (value : PendingMutation) : option ScopedEmailId :=
  match value with
  | MutSend _ => None
  | MutKeyword m => Some m.(kw_emailId)
  | MutMembership m => Some m.(mm_emailId)
  end.

Definition mutationStatusView (value : PendingMutation) : MutationStatusView :=
  mkMutationStatusView (mutation_accountKey value) (mutation_id value) (mutation_kind value)
    (mutation_emailId value) (mutation_status value) (mutation_attemptCount value)
    (match value with MutSend m => Some m.(send_intent).(intent_securityMode) | _ => None end)
    false.

(** [`${emailId.accountKey}\u0000${emailId.jmapId}`]. *)
Definition body_key (emailId : ScopedEmailId) : string :=
  mutation_identity emailId.(accountKey) emailId.(jmapId).

(** [createProspectiveAccountKey]; [entropy] is its random part. *)
Definition createProspectiveAccountKey (entropy : string) : outcome exn AccountKey :=
  accountKeyFromString ("account-" +:+ entropy).

(** [encodeURIComponent], a code unit below 256 at a time: itself, or the escaped bytes
    of its UTF-8 encoding. *)
Definition is_unreserved (c : ascii) : bool :=
  let n := nat_of_ascii c in
  ((48 <=? n) && (n <=? 57) || (65 <=? n) && (n <=? 90) || (97 <=? n) && (n <=? 122))%nat ||
  bool_decide (c ∈ ["-"; "_"; "."; "!"; "~"; "*"; "'"; "("; ")"]%char).
Definition hex_digit (n : nat) : ascii :=
  ascii_of_nat (if (n <? 10)%nat then 48 + n else 55 + n).
Definition escape_byte (n : nat) : string :=
  String "%" (String (hex_digit (n / 16)) (String (hex_digit (n mod 16)) EmptyString)).
Definition encode_char (c : ascii) : string :=
  let n := nat_of_ascii c in
  if is_unreserved c then String c EmptyString
  else if (n <? 128)%nat then escape_byte n
  else escape_byte (192 + n / 64) +:+ escape_byte (128 + n mod 64).
Fixpoint encodeURIComponent (s : string) : string :=
  match s with
  | EmptyString => EmptyString
  | String c rest => encode_char c +:+ encodeURIComponent rest
  end.

Definition gmailCredentialRefForAccount (accountKey : AccountKey) : string :=
  "gmail-oauth-v1/" +:+ encodeURIComponent accountKey.

(** [s.replace(/\.+$/, '')]. *)
Definition strip_dots (s : string) : string := trim_end_by (λ c, bool_decide (c = "."%char)) s.

Section functions.
Context {platform : Platform}.

Definition serviceKeyForSetup (request : AccountSetupRequest) : outcome exn ServiceKey :=
  match request with
  | SetupGmail _ _ => serviceKeyFromString "gmail:imap-smtp:v1"
  | SetupLocalImap _ _ host imapPort smtpPort =>
      let host := strip_dots (toLowerCase (trim host)) in
      serviceKeyFromString
        ("imap-smtp:" +:+ host +:+ ":" +:+ number_text platform_numeral imapPort +:+ ":" +:+ number_text platform_numeral smtpPort)
  end.

Definition localConnectionConfigForSetup (request : AccountSetupRequest) :
    outcome exn RemoteConnectionConfig :=
  match request with
  | SetupLocalImap username password host imapPort smtpPort =>
      Return (ConfigImapSmtp host username password imapPort smtpPort)
  | SetupGmail _ _ => Throw (TypeError "Gmail setup has no local password configuration")
  end.

(** [[...accounts].sort(...)] and the sort of mailboxes. *)
Definition sort_accounts (values : list Account) : list Account :=
  js_sort (λ left right, localeCompare left.(account_key) right.(account_key)) values.

(** The sign of [left.sortOrder - right.sortOrder], zero for [NaN]. *)
Definition compare_orders (left right : number) : Z :=
  if num_ltb left right then -1 else if num_ltb right left then 1 else 0.
Definition sort_mailboxes (values : list Mailbox) : list Mailbox :=
  js_sort (λ left right,
    let orders := compare_orders left.(mailbox_sortOrder) right.(mailbox_sortOrder) in
    if (orders =? 0)%Z then localeCompare left.(mailbox_name) right.(mailbox_name) else orders) values.
End functions.

Definition default_view (mailboxId : ScopedMailboxId) : MailboxViewSpec :=
  mailboxViewSpec mailboxId mailboxViewFilterAll (mailboxViewSort descending).

(** [nextMutationId()] and [nowMutationInstant()]. *)
Definition nextMutationId : app MutationId :=
  entropy ← outside Entropy; of_outcome (mutationIdFromString ("application-" +:+ entropy)).
Definition nowMutationInstant : app MutationInstant :=
  now ← outside Clock; of_outcome (mutationInstantFromString now).

(** ** Generations *)

(** [const generation = ++this.x]. *)
Definition next_generation (get : Controller → Z) (put : Z → Controller → Controller) : act Z := λ s,
  let generation := (get s.(controller) + 1)%Z in
  (Return generation, on_controller (put generation) s).
Definition next_accounts : act Z := next_generation c_accountsGeneration put_accountsGeneration.
Definition next_mailboxes : act Z := next_generation c_mailboxesGeneration put_mailboxesGeneration.
Definition next_view : act Z := next_generation c_mailboxViewGeneration put_mailboxViewGeneration.
Definition next_body : act Z := next_generation c_bodyGeneration put_bodyGeneration.
Definition next_connection : act Z := next_generation c_connectionGeneration put_connectionGeneration.
Definition next_refresh : act Z := next_generation c_refreshGeneration put_refreshGeneration.

Definition action_map {A B} (f : A → B) (m : act A) : act B := a ← m; mret (f a).
Infix "<$$>" := action_map (at level 61, left associativity).

Definition in_mail (f : MailState → MailState) : act unit := modify (on_mail f).
Definition in_runtime (f : RuntimeState → RuntimeState) : act unit := modify (on_runtime f).

(** [current === null || !same(current, next)]. *)
Definition differs_from (current : option ScopedId) (next : ScopedId) : bool :=
  match current with
  | None => true
  | Some current => negb (sameScopedId current next)
  end.

(** ** refreshMutationStatuses *)

Definition begin_statuses (accountKey : AccountKey) : act Z := λ s,
  let generations := s.(controller).(c_mutationStatusGenerations) in
  let generation := (default 0 (map_get accountKey generations) + 1)%Z in
  (Return generation,
   on_controller (put_mutationStatusGenerations (map_set accountKey generation generations)) s).

Definition receive_statuses (accountKey : AccountKey) (generation : Z)
    (result : ReadResult (OwnedSnapshotRead (list PendingMutation))) : act (option (list PendingMutation)) := λ s,
  if s.(controller).(c_disposed) ||
     (map_get accountKey s.(controller).(c_mutationStatusGenerations) !== Some generation)
  then (Return None, s)
  else
    match result with
    | PortError _ => (Return None, s)
    | PortOk SnapshotOwnerAbsent => (Return (Some []), on_statuses (clearAccount accountKey) s)
    | PortOk (SnapshotPresent values) =>
        (Return (Some values),
         on_statuses (setStatuses accountKey (List.map mutationStatusView values)) s)
    end.

Definition statuses_from (accountKey : AccountKey) (generation : Z) : app (option (list PendingMutation)) :=
  result ← port (ListPendingMutations accountKey);
  atomically (receive_statuses accountKey generation result).

Definition refreshMutationStatuses (accountKey : AccountKey) : app (option (list PendingMutation)) :=
  generation ← atomically (begin_statuses accountKey); statuses_from accountKey generation.

(** ** refreshSelectedBody *)

(** What an interrupted read goes on with: what was selected, and its generation. *)
Definition Selected (A : Type) : Type := option (A * Z).

Definition begin_body : act (Selected ScopedEmailId) :=
  emailId ← read (λ s, s.(mail).(ms_selectedEmailId));
  generation ← next_body;
  match emailId with
  | None => in_mail (setEmailBody None body_idle);; mret None
  | Some emailId => in_mail (setEmailBody None body_loading);; mret (Some (emailId, generation))
  end.

Definition receive_body (emailId : ScopedEmailId) (generation : Z)
    (result : ReadResult (OwnedCacheRead EmailBody)) : act SelectedBodyRereadState := λ s,
  if negb (generation =? s.(controller).(c_bodyGeneration))%Z ||
     differs_from s.(mail).(ms_selectedEmailId) emailId
  then (Return reread_stale, s)
  else
    match result with
    | PortError _ => (Return reread_failed, on_mail (setEmailBody None body_error) s)
    | PortOk (Cached value) => (Return reread_cached, on_mail (setEmailBody (Some value) body_cached) s)
    | PortOk NotCached => (Return reread_notCached, on_mail (setEmailBody None body_notCached) s)
    | PortOk CacheOwnerAbsent =>
        (Return reread_ownerAbsent, on_mail (setEmailBody None body_ownerAbsent) s)
    end.

Definition body_from (selected : Selected ScopedEmailId) : app SelectedBodyRereadState :=
  match selected with
  | None => Ret reread_stale
  | Some (emailId, generation) =>
      result ← port (ReadEmailBody emailId);
      atomically (receive_body emailId generation result)
  end.

Definition refreshSelectedBody : app SelectedBodyRereadState :=
  selected ← atomically begin_body; body_from selected.

Section controller.
Context {platform : Platform} (installed : Installed).

(** ** materializeBody *)

Definition load_kind (kind : BodyMaterializationErrorKind) : BodyLoadErrorKind :=
  match kind with
  | body_emailAbsent => load_emailAbsent | body_notConnected => load_notConnected
  | body_remote => load_remote | body_local => load_local
  | body_invalidEnvelope => load_invalidEnvelope
  | body_metadataUnavailable => load_metadataUnavailable
  | body_e2ee => load_e2ee | body_cancelled => load_cancelled | body_unexpected => load_unexpected
  end.

(** [finishBodyMaterialization] answers the result it is given. *)
Definition finishBodyMaterialization (emailId : ScopedEmailId) (result : BodyLoadResult)
    (s : Application) : Application :=
  if negb (isSelectedEmail emailId s) || s.(controller).(c_disposed) then s
  else
    let s := on_mail (setBodyMaterializing false) s in
    match result with
    | None => s
    | Some kind =>
        if kind === load_cancelled then s
        else
          let s := on_mail (setEmailBody None
                     (if kind === load_emailAbsent then body_ownerAbsent else body_notCached)) s in
          on_mail (setBodyError (Some (BodyText kind))) s
    end.
Definition finish_body (emailId : ScopedEmailId) (result : BodyLoadResult) : act BodyLoadResult := λ s,
  (Return result, finishBodyMaterialization emailId result s).

(** [materializeBody] up to the first [await]. *)
Definition claim_body (emailId : ScopedEmailId) : act (Claim nat) := λ s,
  match map_get (body_key emailId) s.(controller).(c_bodyMaterializationAttempts) with
  | Some current => (Return (Joins current), s)
  | None =>
      let attempt := s.(next_promise) in
      let s := fresh_promise s in
      let s :=
        if negb installed.(has_bodyMaterializer) then finishBodyMaterialization emailId (Some load_unexpected) s
        else if isSelectedEmail emailId s
        then on_mail (setBodyMaterializing true) (on_mail (setBodyError None) s)
        else s in
      (Return (Started attempt),
       on_controller (λ c, put_bodyMaterializationAttempts
         (map_set (body_key emailId) attempt c.(c_bodyMaterializationAttempts)) c) s)
  end.

(** After [await materializer.materialize(emailId)]. *)
Definition materialized_body (emailId : ScopedEmailId) : act (BodyLoadResult + Selected ScopedEmailId) := λ s,
  if s.(controller).(c_disposed) then (Return (inl (Some load_cancelled)), s)
  else if isSelectedEmail emailId s then (selected ← begin_body; mret (inr selected)) s
  else (result ← finish_body emailId None; mret (inl result)) s.

Definition reread_result (reread : SelectedBodyRereadState) : BodyLoadResult :=
  match reread with
  | reread_failed | reread_notCached => Some load_local
  | reread_ownerAbsent => Some load_emailAbsent
  | reread_cached | reread_stale => None
  end.

Definition failed_body (emailId : ScopedEmailId) (error : exn) : act BodyLoadResult := λ s,
  if s.(controller).(c_disposed) then (Return (Some load_cancelled), s)
  else
    finish_body emailId
      (Some match error with
            | BodyMaterializationError kind _ => load_kind kind
            | _ => load_unexpected
            end) s.

Definition performBodyMaterialization (emailId : ScopedEmailId) : app BodyLoadResult :=
  if negb installed.(has_bodyMaterializer) then Ret (Some load_unexpected)
  else
    prog_try
      (outside (Materialize emailId);;
       next ← atomically (materialized_body emailId);
       match next with
       | inl result => Ret result
       | inr selected =>
           reread ← body_from selected;
           atomically (finish_body emailId (reread_result reread))
       end)
      (λ error, atomically (failed_body emailId error)).

Definition release_body (emailId : ScopedEmailId) (attempt : nat) : Application → Application :=
  on_controller (λ c,
    let attempts := c.(c_bodyMaterializationAttempts) in
    if bool_decide (map_get (body_key emailId) attempts = Some attempt)
    then put_bodyMaterializationAttempts (map_delete (body_key emailId) attempts) c else c).

Definition body_attempt (emailId : ScopedEmailId) (attempt : nat) : app BodyLoadResult :=
  prog_finally (performBodyMaterialization emailId) (release_body emailId attempt).

Definition materializeBody (emailId : ScopedEmailId) : app (Shared BodyLoadResult) :=
  claim ← atomically (claim_body emailId);
  match claim with
  | Started attempt => result ← body_attempt emailId attempt; Ret (Settled result)
  | Joins attempt => Ret (SharesPromise attempt)
  | Refused => Ret (Settled None)
  end.

Definition demandSelectedBody (emailId : ScopedEmailId) : act unit := λ s,
  if negb (isSelectedEmail emailId s) || (s.(mail).(ms_bodyLoadState) !== body_notCached)
  then (Return tt, s)
  else
    (claim ← claim_body emailId;
     match claim with
     | Started attempt => modify (spawn (TaskMaterialize emailId attempt))
     | _ => mret tt
     end) s.

(** ** refreshMailboxWindow *)

Definition begin_window : act (Selected ScopedMailboxId) :=
  mailboxId ← read (λ s, s.(mail).(ms_selectedMailboxId));
  generation ← next_view;
  match mailboxId with
  | None => mret None
  | Some mailboxId => in_mail (setLoadState mail_loading None);; mret (Some (mailboxId, generation))
  end.

Definition stale_window (mailboxId : ScopedMailboxId) (generation : Z) (s : Application) : bool :=
  negb (generation =? s.(controller).(c_mailboxViewGeneration))%Z ||
  differs_from s.(mail).(ms_selectedMailboxId) mailboxId.

(** The view to read the messages of. *)
Definition receive_view (mailboxId : ScopedMailboxId) (generation : Z)
    (result : ReadResult (OwnedCacheRead MailboxView)) : act (option MailboxView) := λ s,
  if stale_window mailboxId generation s then (Return None, s)
  else
    match result with
    | PortError _ => (Return None, on_mail (setLoadState mail_error (Some LocalViewUnreadable)) s)
    | PortOk CacheOwnerAbsent =>
        (Return None,
         on_mail (setLoadState mail_error (Some LocalMailboxGone))
           (on_mail (setEmails []) (on_mail (setMailboxView None) s)))
    | PortOk NotCached =>
        (Return None,
         on_mail (setLoadState mail_notCached None) (on_mail (setEmails []) (on_mail (setMailboxView None) s)))
    | PortOk (Cached view) => (Return (Some view), s)
    end.

(** The messages that are present; [None] when one is absent. *)
Fixpoint all_present (items : list (LocalEntityRead Email)) : option (list Email) :=
  match items with
  | [] => Some []
  | EntityAbsent :: _ => None
  | EntityPresent value :: items => emails ← all_present items; Some (value :: emails)
  end.

Definition present_emails (result : ReadResult (list (LocalEntityRead Email))) : option (list Email) :=
  match result with PortOk items => all_present items | PortError _ => None end.

(** Which message is to be selected. *)
Definition next_email (selected : option ScopedEmailId) (emails : list Email) : option ScopedEmailId :=
  match selected with
  | Some selected =>
      if existsb (λ value, sameScopedEmailId value.(email_id) selected) emails then Some selected
      else email_id <$> head emails
  | None => email_id <$> head emails
  end.
Definition email_changed (selected next : option ScopedEmailId) : bool :=
  match selected, next with
  | Some selected, Some next => negb (sameScopedEmailId selected next)
  | _, _ => true
  end.

(** The body to read, and the message whose body is to be demanded after that. *)
Definition receive_window (mailboxId : ScopedMailboxId) (generation : Z) (view : MailboxView)
    (result : ReadResult (list (LocalEntityRead Email))) :
    act (option (Selected ScopedEmailId * option ScopedEmailId)) := λ s,
  if stale_window mailboxId generation s ||
     negb (sameMailboxViewSpec (default_view mailboxId) view.(view_spec))
  then (Return None, s)
  else
    match present_emails result with
    | None =>
        (Return None,
         on_mail (setLoadState mail_error (Some LocalViewDangling))
           (on_mail (setEmails []) (on_mail (setMailboxView (Some view)) s)))
    | Some emails =>
        (in_mail (setMailboxView (Some view));;
         in_mail (setEmails emails);;
         selected ← read (λ s, s.(mail).(ms_selectedEmailId));
         let next := next_email selected emails in
         let changed := email_changed selected next in
         (if changed then in_mail (selectEmailInStore next) else mret tt);;
         in_mail (setLoadState mail_ready None);;
         body ← begin_body;
         mret (Some (body, if changed then next else None))) s
    end.

Definition window_from (selected : Selected ScopedMailboxId) : app unit :=
  match selected with
  | None => Ret tt
  | Some (mailboxId, generation) =>
      result ← port (ReadMailboxView (default_view mailboxId));
      view ← atomically (receive_view mailboxId generation result);
      match view with
      | None => Ret tt
      | Some view =>
          result ← port (ReadEmails (List.map item_emailId view.(view_items)));
          shown ← atomically (receive_window mailboxId generation view result);
          match shown with
          | None => Ret tt
          | Some (body, demanded) =>
              body_from body;;
              match demanded with
              | None => Ret tt
              | Some emailId => atomically (demandSelectedBody emailId)
              end
          end
      end
  end.

Definition refreshMailboxWindow : app unit :=
  selected ← atomically begin_window; window_from selected.

(** ** refreshMailboxes *)

Definition begin_mailboxes : act (Selected AccountKey) :=
  accountKey ← read (λ s, s.(mail).(ms_selectedAccountKey));
  generation ← next_mailboxes;
  mret ((λ accountKey, (accountKey, generation)) <$> accountKey).

Definition next_mailbox (selected : option ScopedMailboxId) (mailboxes : list Mailbox) : option ScopedMailboxId :=
  let first :=
    mailbox_id <$>
      match List.find (λ value, bool_decide (value.(mailbox_role) = Some "inbox")) mailboxes with
      | Some inbox => Some inbox
      | None => head mailboxes
      end in
  match selected with
  | Some selected =>
      if existsb (λ value, sameScopedMailboxId value.(mailbox_id) selected) mailboxes then Some selected
      else first
  | None => first
  end.

(** The window to read. *)
Definition receive_mailboxes (accountKey : AccountKey) (generation : Z)
    (result : ReadResult (OwnedSnapshotRead (list Mailbox))) : act (Selected ScopedMailboxId) := λ s,
  if negb (generation =? s.(controller).(c_mailboxesGeneration))%Z ||
     (s.(mail).(ms_selectedAccountKey) !== Some accountKey)
  then (Return None, s)
  else
    match result with
    | PortError error => (Throw (Error ("listMailboxes failed: " +:+ read_error_string error)), s)
    | PortOk SnapshotOwnerAbsent =>
        (Return None,
         on_mail (setLoadState mail_error (Some LocalAccountGone))
           (on_mail (selectMailboxInStore None) (on_mail (setMailboxes []) s)))
    | PortOk (SnapshotPresent values) =>
        let mailboxes := sort_mailboxes values in
        (in_mail (setMailboxes mailboxes);;
         selected ← read (λ s, s.(mail).(ms_selectedMailboxId));
         match next_mailbox selected mailboxes with
         | None =>
             in_mail (selectMailboxInStore None);; in_mail (setLoadState mail_ready None);; mret None
         | Some next =>
             (if differs_from selected next then in_mail (selectMailboxInStore (Some next)) else mret tt);;
             begin_window
         end) s
    end.

Definition mailboxes_from (selected : Selected AccountKey) : app unit :=
  match selected with
  | None => Ret tt
  | Some (accountKey, generation) =>
      result ← port (ListMailboxes accountKey);
      window ← atomically (receive_mailboxes accountKey generation result);
      window_from window
  end.

Definition refreshMailboxes : app unit :=
  selected ← atomically begin_mailboxes; mailboxes_from selected.

(** ** refreshAccounts *)

(** What to go on with: the mailboxes to read and the account they are of. *)
Definition receive_accounts (generation : Z) (result : ReadResult (list Account)) :
    act (option (AccountKey * Selected AccountKey)) := λ s,
  if negb (generation =? s.(controller).(c_accountsGeneration))%Z then (Return None, s)
  else
    match result with
    | PortError error => (Throw (Error ("listAccounts failed: " +:+ read_error_string error)), s)
    | PortOk values =>
        let accounts := sort_accounts values in
        (in_mail (setAccounts accounts);;
         selected ← read (λ s, s.(mail).(ms_selectedAccountKey));
         let exists_still :=
           existsb (λ value, bool_decide (Some value.(account_key) = selected)) accounts in
         match (if exists_still then selected else account_key <$> head accounts) with
         | None =>
             in_mail (selectAccountInStore None);;
             modify (on_statuses statuses_reset);;
             in_mail (setLoadState mail_ready None);;
             modify (observeRemoteStatus installed None);;
             mret None
         | Some next =>
             (if bool_decide (selected = Some next) then mret tt
              else in_mail (selectAccountInStore (Some next)));;
             modify (observeRemoteStatus installed (Some next));;
             mailboxes ← begin_mailboxes;
             mret (Some (next, mailboxes))
         end) s
    end.

Definition accounts_from (generation : Z) : app unit :=
  result ← port ListAccounts;
  next ← atomically (receive_accounts generation result);
  match next with
  | None => Ret tt
  | Some (accountKey, mailboxes) =>
      mailboxes_from mailboxes;;
      refreshMutationStatuses accountKey;;
      Ret tt
  end.

Definition refreshAccounts : app unit :=
  generation ← atomically next_accounts; accounts_from generation.

(** ** initialize, retry, dispose *)

Definition begin_initialize : act bool := λ s,
  if bool_decide (s.(controller).(c_subscription) = None)
  then (Return true, on_runtime (setLocal local_opening) s) else (Return false, s).

(** Both [initialize] and [retry] end so; the former shows an error of the mail too. *)
Definition read_everything (error_text : option Text) (generation : Z) : app unit :=
  prog_try
    (accounts_from generation;; change (on_runtime (setLocal local_ready)))
    (λ error,
      change (λ s,
        let s := on_runtime (setLocal local_error) s in
        match error_text with
        | None => s
        | Some text => on_mail (setLoadState mail_error (Some text)) s
        end);;
      Raise error).

Definition initialize : app unit :=
  begun ← atomically begin_initialize;
  if negb begun then Ret tt
  else
    subscription ← outside SubscribeChanges;
    match subscription with
    | None =>
        change (λ s, on_mail (setLoadState mail_error (Some LocalStorageUnavailable))
                       (on_runtime (setLocal local_error) s));;
        Raise (Error "LocalChangeSource is unavailable")
    | Some subscription =>
        generation ← atomically
          (modify (on_controller (put_subscription (Some subscription)));; next_accounts);
        read_everything (Some LocalStorageUnreadable) generation
    end.

Definition begin_retry : act (option Z) := λ s,
  if bool_decide (s.(controller).(c_subscription) = None) then (Return None, s)
  else (in_runtime (setLocal local_opening);; generation ← next_accounts; mret (Some generation)) s.

Definition retry : app unit :=
  begun ← atomically begin_retry;
  match begun with
  | None => initialize
  | Some generation => read_everything None generation
  end.

(** [dispose] is one synchronous part; [this.subscription?.unsubscribe()] is called
    within it, neither calls back nor throws, and stands last here. *)
Definition disposed_fields (s : Application) : Application :=
  let s := on_controller (put_disposed true) s in
  let s := on_controller (λ c, put_connectionGeneration (c.(c_connectionGeneration) + 1) c) s in
  let s := on_controller (put_subscription None) s in
  let s := unsubscribe_remote s.(controller).(c_remoteStatusUnsubscribe) s in
  let s := on_controller (put_remoteStatusUnsubscribe None) s in
  let s := on_controller (put_observedRemoteAccountKey None) s in
  let s := on_controller (λ c, put_refreshGeneration (c.(c_refreshGeneration) + 1) c) s in
  let s := on_mail clearRefreshActivity s in
  let s := on_statuses statuses_reset s in
  let s := on_controller (put_activeMutationRuns map_new) s in
  let s := on_mail (setBodyMaterializing false) s in
  on_controller (put_bodyMaterializationAttempts map_new) s.
Definition dispose : app unit :=
  subscription ← atomically (
    subscription ← read (λ s, s.(controller).(c_subscription));
    modify disposed_fields;;
    mret subscription);
  match subscription with
  | None => Ret tt
  | Some subscription => outside (UnsubscribeChanges subscription)
  end.

(** ** selectAccount, selectMailbox, selectEmail *)

Definition selectAccount (accountKey : AccountKey) : app unit :=
  mailboxes ← atomically (
    selected ← read (λ s, s.(mail).(ms_selectedAccountKey));
    (if bool_decide (selected = Some accountKey) then mret tt
     else in_mail (selectAccountInStore (Some accountKey)));;
    modify (observeRemoteStatus installed (Some accountKey));;
    begin_mailboxes);
  mailboxes_from mailboxes;;
  refreshMutationStatuses accountKey;;
  Ret tt.

Definition selectMailbox (mailboxId : ScopedMailboxId) : app unit :=
  window ← atomically (
    selected ← read (λ s, s.(mail).(ms_selectedMailboxId));
    (if differs_from selected mailboxId then in_mail (selectMailboxInStore (Some mailboxId)) else mret tt);;
    begin_window);
  window_from window.

Definition selectEmail (emailId : ScopedEmailId) : app unit :=
  body ← atomically (
    selected ← read (λ s, s.(mail).(ms_selectedEmailId));
    (if differs_from selected emailId then in_mail (selectEmailInStore (Some emailId)) else mret tt);;
    begin_body);
  body_from body;;
  atomically (demandSelectedBody emailId).

(** ** connectAccount, reconnectAccount *)

Definition claim_connection (target : ConnectionAttemptTarget) : act (Claim (nat * Z)) := λ s,
  match s.(controller).(c_activeConnectionAttempt) with
  | Some (active, promise) =>
      (Return (if bool_decide (active = target) then Joins promise else Refused), s)
  | None =>
      let attempt := s.(next_promise) in
      let s := on_controller (put_activeConnectionAttempt (Some (target, attempt))) (fresh_promise s) in
      if negb installed.(has_remoteApplication) then (Return (Started (attempt, 0%Z)), s)
      else (generation ← next_connection; mret (Started (attempt, generation))) s
  end.

Definition release_connection (attempt : nat) : Application → Application :=
  on_controller (λ c,
    match c.(c_activeConnectionAttempt) with
    | Some (_, promise) =>
        if bool_decide (promise = attempt) then put_activeConnectionAttempt None c else c
    | None => c
    end).

(** The account to connect, if there is one, or why there is no connection. *)
Definition existing_account (reconnect : option AccountKey) (generation : Z)
    (accounts : ReadResult (list Account)) (s : Application) :
    option Account + AccountConnectionErrorKind :=
  if negb (isCurrentConnection generation s) then inr connection_cancelled
  else
    match accounts with
    | PortError _ => inr connection_local
    | PortOk values =>
        match reconnect with
        | None =>
            inl match List.find (λ value, bool_decide (Some value.(account_key) = s.(mail).(ms_selectedAccountKey)))
                        values with
                | Some value => Some value
                | None => head (sort_accounts values)
                end
        | Some key =>
            match List.find (λ value, bool_decide (value.(account_key) = key)) values with
            | Some value => inl (Some value)
            | None => inr connection_accountUnavailable
            end
        end
    end.

(** [forgetFirstRunCredential]: the broker is asked at once, and the method goes on. *)
Definition forget_credential (credentialRef : option string) : app unit :=
  match credentialRef with
  | None => Ret tt
  | Some credentialRef => change (ask_to_forget credentialRef)
  end.

(** The configuration, and the credential to forget if the connection fails. *)
Definition connection_config (request : AccountSetupRequest) (existing : option Account)
    (accountKey : AccountKey) (generation : Z) :
    app ((RemoteConnectionConfig * option string) + AccountConnectionErrorKind) :=
  match request with
  | SetupGmail username reauthorize =>
      if bool_decide (existing ≠ None) && negb reauthorize
      then Ret (inl (ConfigGmail username (gmailCredentialRefForAccount accountKey), None))
      else if negb installed.(has_googleOAuthBroker) then Ret (inr connection_unexpected)
      else
        prog_try
          (authorized ← outside (Authorize accountKey username);
           current ← look (isCurrentConnection generation);
           if negb current
           then forget_credential (Some authorized);; Ret (inr connection_cancelled)
           else Ret (inl (ConfigGmail username authorized, Some authorized)))
          (λ _, Ret (inr connection_auth))
  | SetupLocalImap _ _ _ _ _ =>
      config ← of_outcome (localConnectionConfigForSetup request); Ret (inl (config, None))
  end.

Definition connection_kind (error : exn) : AccountConnectionErrorKind :=
  match error with
  | RemoteApplicationError app_auth => connection_auth
  | RemoteApplicationError app_network => connection_network
  | RemoteApplicationError app_accountMismatch => connection_accountMismatch
  | RemoteApplicationError app_accountSelectionRequired => connection_accountSelectionRequired
  | RemoteApplicationError app_local => connection_local
  | RemoteApplicationError app_cancelled => connection_cancelled
  | _ => connection_unexpected
  end.

(** The [try] around [remoteApplication.connect]; [notifies] says that the options have
    an [onAuthenticated]. *)
Definition connect_and_reread (request : RemoteConnectRequest) (credential : option string)
    (notifies : bool) (generation : Z) : app AccountConnectionResult :=
  let accountKey := request.(request_accountKey) in
  let fail kind : app AccountConnectionResult := forget_credential credential;; Ret (inr kind) in
  prog_try
    (outside (RemoteConnect request);;
     current ← look (isCurrentConnection generation);
     if negb current then fail connection_cancelled
     else
       (if notifies then outside OnAuthenticated else Ret tt);;
       reread ← attempt refreshAccounts;
       match reread with
       | Throw _ => fail connection_local
       | Return _ =>
           '(current, present) ← look (λ s,
             (isCurrentConnection generation s,
              existsb (λ value, bool_decide (value.(account_key) = accountKey)) s.(mail).(ms_accounts)));
           if negb current then fail connection_cancelled
           else if negb present then fail connection_local
           else Ret (inl accountKey)
       end)
    (λ error,
      current ← look (isCurrentConnection generation);
      if negb current then fail connection_cancelled
      else
        forget_credential credential;;
        change (projectRemoteStatus installed accountKey);;
        Ret (inr (connection_kind error))).

Definition performAccountConnection (request : AccountSetupRequest) (notifies : bool)
    (reconnect : option AccountKey) (generation : Z) : app AccountConnectionResult :=
  if negb installed.(has_remoteApplication) then Ret (inr connection_unexpected)
  else
    accounts ← attempt (port ListAccounts);
    match accounts with
    | Throw _ => Ret (inr connection_local)
    | Return accounts =>
        existing ← look (existing_account reconnect generation accounts);
        match existing with
        | inr kind => Ret (inr kind)
        | inl existing =>
            accountKey ← match existing with
                         | Some value => Ret value.(account_key)
                         | None => outside FreshAccountKey
                         end;
            serviceKey ← match existing with
                         | Some value => Ret value.(remoteRef).(serviceKey)
                         | None => of_outcome (serviceKeyForSetup request)
                         end;
            expected ← match reconnect with
                       | None => Ret serviceKey
                       | Some _ => of_outcome (serviceKeyForSetup request)
                       end;
            if expected !== serviceKey
            then Ret (inr connection_serviceMismatch)
            else
              change (λ s,
                if bool_decide (reconnect = None) ||
                   bool_decide (s.(mail).(ms_selectedAccountKey) = Some accountKey)
                then observeRemoteStatus installed (Some accountKey) s else s);;
              config ← connection_config request existing accountKey generation;
              match config with
              | inr kind => Ret (inr kind)
              | inl (config, credential) =>
                  connect_and_reread (mkConnectRequest accountKey serviceKey config) credential
                    notifies generation
              end
        end
    end.

Definition startAccountConnection (target : ConnectionAttemptTarget) (request : AccountSetupRequest)
    (notifies : bool) : app (Shared AccountConnectionResult) :=
  claim ← atomically (claim_connection target);
  match claim with
  | Started (attempt, generation) =>
      result ← prog_finally
        (performAccountConnection request notifies
           (match target with FirstRun => None | Reconnect accountKey => Some accountKey end) generation)
        (release_connection attempt);
      Ret (Settled result)
  | Joins attempt => Ret (SharesPromise attempt)
  | Refused => Ret (Settled (inr connection_connectionInProgress))
  end.

Definition connectAccount (request : AccountSetupRequest) (notifies : bool) :
    app (Shared AccountConnectionResult) := startAccountConnection FirstRun request notifies.
Definition reconnectAccount (accountKey : AccountKey) (request : AccountSetupRequest) (notifies : bool) :
    app (Shared AccountConnectionResult) := startAccountConnection (Reconnect accountKey) request notifies.

(** ** refreshAccount *)

Definition set_activity (accountKey : AccountKey) (phase : RefreshPhase) (error : option RemoteRefreshErrorKind) :
    Application → Application :=
  on_mail (setRefreshActivity accountKey (mkRefreshActivity phase (RefreshText <$> error))).

Definition finishRefresh (accountKey : AccountKey) (generation : Z) (result : RemoteRefreshResult) :
    act RemoteRefreshResult := λ s,
  if negb (isCurrentRefresh generation s) then (Return (Some refresh_cancelled), s)
  else
    (Return result,
     set_activity accountKey (if bool_decide (result = None) then phase_idle else phase_error) result s).

(** Without a remote application the refresh is finished at once. *)
Definition claim_refresh (accountKey : AccountKey) : act (Claim (nat * Z * option RemoteRefreshResult)) := λ s,
  match s.(controller).(c_activeRefreshAttempt) with
  | Some (active, promise) =>
      if bool_decide (active = accountKey) then (Return (Joins promise), s)
      else (Return Refused, set_activity accountKey phase_error (Some refresh_connectionInProgress) s)
  | None =>
      (generation ← next_refresh;
       modify (set_activity accountKey phase_refreshing None);;
       finished ← (if negb installed.(has_remoteApplication)
                   then result ← finishRefresh accountKey generation (Some refresh_unexpected);
                        mret (Some result)
                   else mret None);
       attempt ← read next_promise;
       modify (λ s, on_controller (put_activeRefreshAttempt (Some (accountKey, attempt))) (fresh_promise s));;
       mret (Started (attempt, generation, finished))) s
  end.

Definition release_refresh (attempt : nat) : Application → Application :=
  on_controller (λ c,
    match c.(c_activeRefreshAttempt) with
    | Some (_, promise) => if bool_decide (promise = attempt) then put_activeRefreshAttempt None c else c
    | None => c
    end).

Definition refresh_kind (error : exn) : RemoteRefreshErrorKind :=
  match error with
  | RemoteApplicationError app_notConnected => refresh_notConnected
  | RemoteApplicationError app_auth => refresh_auth
  | RemoteApplicationError app_network => refresh_network
  | RemoteApplicationError app_remote => refresh_remote
  | RemoteApplicationError app_local => refresh_local
  | RemoteApplicationError app_cancelled => refresh_cancelled
  | _ => refresh_unexpected
  end.

(** After the synchronous part. *)
Definition performRefresh (accountKey : AccountKey) (generation : Z) (finished : option RemoteRefreshResult) :
    app RemoteRefreshResult :=
  match finished with
  | Some result => Ret result
  | None =>
      prog_try
        (outside (RemoteRefresh accountKey);; atomically (finishRefresh accountKey generation None))
        (λ error, atomically (finishRefresh accountKey generation (Some (refresh_kind error))))
  end.

Definition refreshAccount (accountKey : AccountKey) : app (Shared RemoteRefreshResult) :=
  claim ← atomically (claim_refresh accountKey);
  match claim with
  | Started (attempt, generation, finished) =>
      result ← prog_finally (performRefresh accountKey generation finished) (release_refresh attempt);
      Ret (Settled result)
  | Joins attempt => Ret (SharesPromise attempt)
  | Refused => Ret (Settled (Some refresh_connectionInProgress))
  end.

(** ** syncSelectedAccount *)

(** [if (!accountKey)] holds of the empty string too. *)
Definition selected_account (s : Application) : option AccountKey :=
  match s.(mail).(ms_selectedAccountKey) with
  | Some accountKey => if is_empty accountKey then None else Some accountKey
  | None => None
  end.

Definition syncSelectedAccount : app unit :=
  selected ← atomically (
    selected ← read selected_account;
    (if bool_decide (selected = None) then mret tt else in_runtime (setLocal local_opening));;
    mret selected);
  match selected with
  | None => Ret tt
  | Some accountKey =>
      prog_try
        (result ← port (ReadAccount accountKey);
         match result with
         | PortOk (EntityPresent value) =>
             if negb installed.(has_workerClient) then Raise (Error "The remote Worker is unavailable")
             else
               outside (WorkerSync accountKey value.(remoteRef).(jmapAccountId));;
               change (on_runtime (setLocal local_ready))
         | _ => Raise (Error "The selected Account is unavailable locally")
         end)
        (λ _, change (on_runtime (setLocal local_error)))
  end.

(** ** runMutation *)

Definition claim_run (accountKey : AccountKey) (mutationId : MutationId) : act (Claim (nat * Z)) := λ s,
  let key := mutation_identity accountKey mutationId in
  match map_get key s.(controller).(c_activeMutationRuns) with
  | Some active => (Return (Joins active), s)
  | None =>
      (generation ← begin_statuses accountKey;
       attempt ← read next_promise;
       modify (λ s, on_controller
         (λ c, put_activeMutationRuns (map_set key attempt c.(c_activeMutationRuns)) c) (fresh_promise s));;
       mret (Started (attempt, generation))) s
  end.

Definition release_run (accountKey : AccountKey) (mutationId : MutationId) (attempt : nat) :
    Application → Application :=
  let key := mutation_identity accountKey mutationId in
  on_controller (λ c,
    if bool_decide (map_get key c.(c_activeMutationRuns) = Some attempt)
    then put_activeMutationRuns (map_delete key c.(c_activeMutationRuns)) c else c).

(** After [await runner.runMutation(...)]: the generation of the reread. *)
Definition mutation_ran (accountKey : AccountKey) (mutationId : MutationId)
    (outcome : MutationExecutionOutcome) : act (option Z) := λ s,
  if s.(controller).(c_disposed) then (Return None, s)
  else
    (match outcome with
     | outcome_needsReconciliation => modify (on_statuses (markNeedsReconciliation accountKey mutationId))
     | _ => mret tt
     end;;
     generation ← begin_statuses accountKey;
     mret (Some generation)) s.

Definition confirm_mutation (accountKey : AccountKey) (mutationId : MutationId)
    (outcome : MutationExecutionOutcome) (known : option PendingMutation)
    (after : option (list PendingMutation)) (s : Application) : Application :=
  match outcome, known, after with
  | outcome_confirmed, Some known, Some after =>
      if existsb (λ value, bool_decide (mutation_id value = mutationId)) after then s
      else
        on_statuses (markConfirmed accountKey mutationId (mutation_kind known) (mutation_emailId known)) s
  | _, _, _ => s
  end.

Definition performMutationRun (accountKey : AccountKey) (mutationId : MutationId) (generation : Z) : app unit :=
  before ← statuses_from accountKey generation;
  let known :=
    before ≫= List.find (λ value, bool_decide (mutation_id value = mutationId)) in
  disposed ← look (λ s, s.(controller).(c_disposed));
  if negb installed.(has_mutationRunner) || disposed then Ret tt
  else
    outcome ← attempt (outside (RunMutation accountKey mutationId));
    match outcome with
    | Throw _ => refreshMutationStatuses accountKey;; Ret tt
    | Return outcome =>
        reread ← atomically (mutation_ran accountKey mutationId outcome);
        match reread with
        | None => Ret tt
        | Some generation =>
            after ← statuses_from accountKey generation;
            change (confirm_mutation accountKey mutationId outcome known after)
        end
    end.

Definition run_attempt (accountKey : AccountKey) (mutationId : MutationId) (attempt : nat) (generation : Z) :
    app unit :=
  prog_finally (performMutationRun accountKey mutationId generation) (release_run accountKey mutationId attempt).

Definition runMutation (accountKey : AccountKey) (mutationId : MutationId) : app (Shared unit) :=
  claim ← atomically (claim_run accountKey mutationId);
  match claim with
  | Started (attempt, generation) =>
      run_attempt accountKey mutationId attempt generation;; Ret (Settled tt)
  | Joins attempt => Ret (SharesPromise attempt)
  | Refused => Ret (Settled tt)
  end.

Definition trackStagedMutation (mutation : PendingMutation) : act unit :=
  let accountKey := mutation_accountKey mutation in
  let mutationId := mutation_id mutation in
  generation ← begin_statuses accountKey;
  modify (spawn (TaskStatuses accountKey generation));;
  claim ← claim_run accountKey mutationId;
  match claim with
  | Started (attempt, generation) => modify (spawn (TaskRun accountKey mutationId attempt generation))
  | _ => mret tt
  end.

(** ** toggleKeyword, moveEmail, sendEmail *)

Definition staged (what : string) (result : WriteResult) : app unit :=
  match result with
  | PortOk _ => Ret tt
  | PortError error => Raise (Error (what +:+ " failed: " +:+ write_error_string error))
  end.

Definition toggleKeyword (email : Email) (keyword : string) : app unit :=
  let change := if set_has keyword email.(email_keywords) then mkKeywordChange [] [keyword]
                else mkKeywordChange [keyword] [] in
  mutationId ← nextMutationId;
  createdAt ← nowMutationInstant;
  mutation ← of_outcome
    (keywordMutation mutationId email.(email_id).(accountKey) createdAt email.(email_id) change);
  result ← port (Write (OpApplyOptimisticKeywordMutation mutation));
  staged "keyword write" result;;
  atomically (trackStagedMutation (MutKeyword mutation)).

Definition moveEmail (emailId : ScopedEmailId) (targetRole : string) : app unit :=
  target ← look (λ s,
    List.find (λ mailbox, bool_decide (mailbox.(mailbox_role) = Some targetRole)) s.(mail).(ms_mailboxes));
  match target with
  | None => Raise (Error ("Mailbox role " +:+ targetRole +:+ " missing"))
  | Some target =>
      memberships ← port (ReadEmailMemberships emailId);
      match memberships with
      | PortOk (SnapshotPresent values) =>
          let remove := List.filter (λ mailboxId, negb (sameScopedMailboxId mailboxId target.(mailbox_id)))
                          (List.map em_mailboxId values) in
          if bool_decide (remove = []) then Ret tt
          else
            mutationId ← nextMutationId;
            createdAt ← nowMutationInstant;
            mutation ← of_outcome (mailboxMembershipMutation mutationId emailId.(accountKey) createdAt emailId
                         (mkMembershipChange [target.(mailbox_id)] remove));
            result ← port (Write (OpApplyOptimisticMailboxMembershipMutation mutation));
            staged "membership write" result;;
            atomically (trackStagedMutation (MutMembership mutation))
      | _ => Raise (Error "Email memberships are unavailable")
      end
  end.

Definition sendEmail (intent : SendIntent) : app unit :=
  selected ← look selected_account;
  match selected with
  | None => Raise (Error "No account selected")
  | Some accountKey =>
      result ← port (ReadAccount accountKey);
      match result with
      | PortOk (EntityPresent value) =>
          if negb installed.(has_workerClient) then Raise (Error "The remote Worker is unavailable")
          else
            mutationId ← nextMutationId;
            createdAt ← nowMutationInstant;
            mutation ← of_outcome (sendMutation mutationId accountKey createdAt intent);
            result ← port (Write (OpStageSendMutation mutation));
            staged "stageSendMutation" result;;
            outside (WorkerSend accountKey value.(remoteRef).(jmapAccountId) mutation.(send_mutationId))
      | _ => Raise (Error "The selected Account is unavailable locally")
      end
  end.

(** ** Invalidations *)

Definition scheduleInvalidation (batch : LocalChangeBatch) (s : Application) : Application :=
  let s := on_controller (λ c, put_pendingHints (c.(c_pendingHints) ++ batch_hints batch) c) s in
  if s.(controller).(c_invalidationScheduled) then s
  else spawn TaskFlush (on_controller (put_invalidationScheduled true) s).

Definition concerns_mailboxes (selected : option AccountKey) (hint : LocalChangeHint) : bool :=
  match hint with MailboxesChanged key => bool_decide (Some key = selected) | _ => false end.
Definition concerns_window (selected : option AccountKey) (mailboxId : option ScopedMailboxId)
    (hint : LocalChangeHint) : bool :=
  match hint with
  | MailboxViewChanged spec =>
      match mailboxId with
      | Some mailboxId => sameScopedMailboxId spec.(spec_mailboxId) mailboxId
      | None => false
      end
  | EmailsChanged key | EmailMembershipsChanged key => bool_decide (Some key = selected)
  | _ => false
  end.
Definition concerns_body (selected : option ScopedEmailId) (hint : LocalChangeHint) : bool :=
  match hint, selected with
  | EmailBodyChanged emailId, Some selected => sameScopedEmailId emailId selected
  | _, _ => false
  end.
Definition concerns_mutations (selected : option AccountKey) (hint : LocalChangeHint) : bool :=
  match hint with PendingMutationsChanged key => bool_decide (Some key = selected) | _ => false end.

(** What a batch of hints makes the controller read again. *)
Inductive Reread : Type :=
| RereadAccounts (generation : Z)
| RereadMailboxes (selected : Selected AccountKey)
| RereadWindow (selected : Selected ScopedMailboxId)
| RereadBody (selected : Selected ScopedEmailId)
| RereadNothing.

(** With the account whose mutations are to be read again. *)
Definition begin_flush : act (Reread * option AccountKey) := λ s,
  let hints := s.(controller).(c_pendingHints) in
  let account := s.(mail).(ms_selectedAccountKey) in
  let mutations := if existsb (concerns_mutations account) hints then account else None in
  (modify (on_controller (put_invalidationScheduled false));;
   modify (on_controller (put_pendingHints []));;
   reread ←
     (if bool_decide (AccountsChanged ∈ hints) then RereadAccounts <$$> next_accounts
      else if existsb (concerns_mailboxes account) hints then RereadMailboxes <$$> begin_mailboxes
      else if existsb (concerns_window account s.(mail).(ms_selectedMailboxId)) hints
      then RereadWindow <$$> begin_window
      else if existsb (concerns_body s.(mail).(ms_selectedEmailId)) hints then RereadBody <$$> begin_body
      else mret RereadNothing);
   mret (reread, mutations)) s.

Definition reread_from (reread : Reread) : app unit :=
  match reread with
  | RereadAccounts generation => accounts_from generation
  | RereadMailboxes selected => mailboxes_from selected
  | RereadWindow selected => window_from selected
  | RereadBody selected => body_from selected;; Ret tt
  | RereadNothing => Ret tt
  end.

Definition flushInvalidations : app unit :=
  '(reread, mutations) ← atomically begin_flush;
  prog_try
    (reread_from reread;;
     match mutations with
     | None => Ret tt
     | Some accountKey => refreshMutationStatuses accountKey;; Ret tt
     end)
    (λ _, change (on_runtime (setLocal local_error))).

(** ** Background tasks *)

(** [void task]: nobody reads how it ends. *)
Definition run_background (task : Task) : app unit :=
  match task with
  | TaskFlush => flushInvalidations
  | TaskMaterialize emailId promise => attempt (body_attempt emailId promise);; Ret tt
  | TaskStatuses accountKey generation => attempt (statuses_from accountKey generation);; Ret tt
  | TaskRun accountKey mutationId promise generation =>
      attempt (run_attempt accountKey mutationId promise generation);; Ret tt
  end.

Definition take_task (i : nat) : act (option Task) := λ s,
  (Return (s.(background) !! i), put_background (delete i s.(background)) s).

Definition run_task (i : nat) : app unit :=
  task ← atomically (take_task i);
  match task with
  | None => Ret tt
  | Some task => run_background task
  end.
End controller.

(** ** app/services/send-service.ts *)

Inductive SendError : Type := emptyRecipient | invalidAddress | engineError | notReady | noIdentity.
Definition SendResult : Type := (AccountKey * MutationId) + SendError.

#[export] Instance SendError_eq_dec : EqDecision SendError.
Proof. solve_decision. Defined.

(** [s.split(/[,;]/)]. *)
Fixpoint split_by (separates : ascii → bool) (s : string) : list string :=
  match s with
  | EmptyString => [EmptyString]
  | String c rest =>
      if separates c then EmptyString :: split_by separates rest
      else
        match split_by separates rest with
        | piece :: pieces => String c piece :: pieces
        | [] => [String c EmptyString]
        end
  end.
Definition is_separator (c : ascii) : bool := bool_decide (c = ","%char) || bool_decide (c = ";"%char).

Definition parseRecipients (rawTo : string) : list EmailAddress :=
  List.map (emailAddress None)
    (List.filter (λ value, negb (is_empty value)) (List.map trim (split_by is_separator rawTo))).

Section send.
Context {platform : Platform}.

Definition generateMutationId : app string := entropy ← outside Entropy; Ret ("send-" +:+ entropy).

Definition first_identity (values : list Identity) : option Identity :=
  head (js_sort (λ left right, localeCompare left.(identity_id).(jmapId) right.(identity_id).(jmapId))
          (List.filter (λ value, negb (isWildcardIdentity value)) values)).

(** [composerStore.setPhase('error', text); return { ok: false, error }]. *)
Definition send_fails (error : SendError) (text : Text) : app SendResult :=
  change (on_composer (setPhase composer_error (Some text)));; Ret (inr error).

(** The input of [sendIntent], from what the composer holds when it is read. *)
Definition composed (to : list EmailAddress) (identity : Identity) (c : ComposerState) : SendIntentInput :=
  mkSendIntentInput c.(co_securityMode) identity to [] [] c.(co_subject) (mkSendBody c.(co_body) None).

Definition executeSend : app SendResult :=
  '(to, selected) ← atomically (
    modify (on_composer (λ c, setPhase composer_queueing None c));;
    read (λ s, (parseRecipients s.(composer).(co_to), s.(mail).(ms_selectedAccountKey))));
  if bool_decide (to = []) then send_fails emptyRecipient RecipientsEmpty
  else
    match selected with
    | None => send_fails notReady NoAccountSelected
    | Some accountKey =>
        identities ← port (ListIdentities accountKey);
        match identities with
        | PortError _ => send_fails engineError IdentitiesUnreadable
        | PortOk SnapshotOwnerAbsent => send_fails notReady SenderAccountGone
        | PortOk (SnapshotPresent values) =>
            match first_identity values with
            | None => send_fails noIdentity NoSendIdentity
            | Some identity =>
                input ← look (λ s, composed to identity s.(composer));
                match sendIntent input with
                | Throw _ => send_fails invalidAddress AddressInvalid
                | Return intent =>
                    id ← generateMutationId;
                    mutationId ← of_outcome (mutationIdFromString id);
                    createdAt ← nowMutationInstant;
                    mutation ← of_outcome (sendMutation mutationId accountKey createdAt intent);
                    result ← port (Write (OpStageSendMutation mutation));
                    match result with
                    | PortError _ => send_fails engineError SendNotStored
                    | PortOk _ =>
                        change (on_composer composer_reset);;
                        Ret (inl (accountKey, mutation.(send_mutationId)))
                    end
                end
            end
        end
    end.
End send.

(** ** What may run

    The methods that the user interface calls, the tasks in the background, and what
    happens around the controller: a batch of hints arrives, the remote application
    publishes a status or is disposed, the composer is edited. *)

Definition starts {A} (method : app A) : app unit := method;; Ret tt.

Section may_run.
Context {platform : Platform} (installed : Installed).

Inductive controller_method : app unit → Prop :=
| Runs_initialize : controller_method (initialize installed)
| Runs_retry : controller_method (retry installed)
| Runs_dispose : controller_method dispose
| Runs_selectAccount accountKey : controller_method (selectAccount installed accountKey)
| Runs_selectMailbox mailboxId : controller_method (selectMailbox installed mailboxId)
| Runs_selectEmail emailId : controller_method (selectEmail installed emailId)
| Runs_connectAccount request notifies : controller_method (starts (connectAccount installed request notifies))
| Runs_reconnectAccount accountKey request notifies :
    controller_method (starts (reconnectAccount installed accountKey request notifies))
| Runs_refreshAccount accountKey : controller_method (starts (refreshAccount installed accountKey))
| Runs_syncSelectedAccount : controller_method (syncSelectedAccount installed)
| Runs_refreshMailboxWindow : controller_method (refreshMailboxWindow installed)
| Runs_refreshSelectedBody : controller_method (starts refreshSelectedBody)
| Runs_materializeBody emailId : controller_method (starts (materializeBody installed emailId))
| Runs_toggleKeyword email keyword : controller_method (toggleKeyword email keyword)
| Runs_moveEmail emailId targetRole : controller_method (moveEmail emailId targetRole)
| Runs_runMutation accountKey mutationId : controller_method (starts (runMutation installed accountKey mutationId))
| Runs_sendEmail intent : controller_method (sendEmail installed intent)
| Runs_executeSend : controller_method (starts executeSend)
| Runs_task i : controller_method (run_task installed i)
| Runs_batch batch : controller_method (change (scheduleInvalidation batch))
| Runs_status accountKey status :
    installed.(has_remoteApplication) = true → controller_method (change (publish_remote accountKey status))
| Runs_remote_dispose statuses : controller_method (change (dispose_remote statuses))
| Runs_composer edit : controller_method (change (on_composer edit)).
End may_run.
