(* ===== verification/ControllerFacts.v ===== *)
(** * What the methods of the controller keep: invariants of its stores, and the
    protocol of its shared attempts *)

From S2P Require Import Prelude.
From S2P Require Import JsNumber.
From S2P Require Import JsString.
From S2P Require Import JsCollections.
From S2P Require Import Errors.
From S2P Require Import DomainIds.
From S2P Require Import DomainEmail.
From S2P Require Import DomainMailbox.
From S2P Require Import MailboxView.
From S2P Require Import SendIntent.
From S2P Require Import PendingMutation.
From S2P Require Import Ports.
From S2P Require Import MailStore.
From S2P Require Import EngineInterface.
From S2P Require Import Remote.
From S2P Require Import Prog.
From S2P Require Import JsText.
From S2P Require Import SharedState.
From S2P Require Import Locks.
From S2P Require Import RemoteApplication.
From S2P Require Import Stores.
From S2P Require Import MutationRunner.
From S2P Require Import Application.
From S2P Require Import Controller.
From Stdlib Require Import ZArith.
Open Scope string_scope.
Open Scope list_scope.
Open Scope js_scope.

Lemma same_id a b : sameScopedId a b = true ↔ a = b.
Proof.
  unfold sameScopedId. rewrite andb_true_iff, !bool_decide_eq_true. destruct a, b; cbn. naive_solver.
Qed.
Lemma differs_from_false current next : differs_from current next = false ↔ current = Some next.
Proof.
  unfold differs_from. destruct current as [current|]; [|done]. rewrite negb_false_iff, same_id. naive_solver.
Qed.
Lemma selected_email emailId s : isSelectedEmail emailId s = true ↔ s.(mail).(ms_selectedEmailId) = Some emailId.
Proof.
  unfold isSelectedEmail. destruct (ms_selectedEmailId _) as [selected|]; [|done].
  unfold sameScopedEmailId. rewrite same_id. naive_solver.
Qed.
Lemma same_view_spec a b : sameMailboxViewSpec a b = true → a = b.
Proof.
  unfold sameMailboxViewSpec, sameScopedMailboxId. intros H. bool_hyps.
  destruct a as [ia [fa] [pa da]], b as [ib [fb] [pb db]]; cbn in *.
  rewrite same_id in *. by subst.
Qed.

(** ** What the mail store shows *)

Record shows (m : MailState) : Prop := {
  (** The mailboxes are those of the selected account. *)
  shows_mailboxes : Forall (λ b, m.(ms_selectedAccountKey) = Some b.(mailbox_id).(accountKey)) m.(ms_mailboxes);
  (** The view is the default view of the selected mailbox. *)
  shows_view v : m.(ms_mailboxView) = Some v →
    ∃ id, m.(ms_selectedMailboxId) = Some id ∧ v.(view_spec) = default_view id;
  (** The messages are those of the view, in its order. *)
  shows_emails : m.(ms_emails) = [] ∨
    ∃ v, m.(ms_mailboxView) = Some v ∧ map email_id m.(ms_emails) = map item_emailId v.(view_items);
  (** The body is that of the selected message. *)
  shows_body b : m.(ms_emailBody) = Some b →
    m.(ms_selectedEmailId) = Some b.(body_emailId) ∧ m.(ms_bodyLoadState) = body_cached;
  shows_cached : m.(ms_bodyLoadState) = body_cached → is_Some m.(ms_emailBody);
  (** Without a selected message nothing loads. *)
  shows_nothing : m.(ms_selectedEmailId) = None →
    m.(ms_bodyLoadState) = body_idle ∧ m.(ms_bodyMaterializing) = false;
}.

Lemma shows_initial : shows mail_initial.
Proof. split; cbn; try done. by left. Qed.

Ltac shows_by := intros; split; cbn in *; naive_solver.

Lemma shows_setAccounts l m : shows m → shows (setAccounts l m).
Proof. intros []. by split. Qed.
Lemma shows_selectAccount k m : shows (selectAccountInStore k m).
Proof. split; cbn; try done. by left. Qed.
Lemma shows_selectMailbox id m : shows m → shows (selectMailboxInStore id m).
Proof. intros []. split; cbn; try done. by left. Qed.
Lemma shows_selectEmail id m : shows m → shows (selectEmailInStore id m).
Proof. intros []. split; cbn; try done; by destruct id. Qed.
Lemma shows_setMailboxes l m :
  Forall (λ b, m.(ms_selectedAccountKey) = Some b.(mailbox_id).(accountKey)) l → shows m → shows (setMailboxes l m).
Proof. intros Hl []. by split. Qed.
Lemma shows_window v l m id :
  m.(ms_selectedMailboxId) = Some id → v.(view_spec) = default_view id →
  l = [] ∨ map email_id l = map item_emailId v.(view_items) → shows m →
  shows (setEmails l (setMailboxView (Some v) m)).
Proof.
  intros Hid Hv Hl []. split; cbn; try done.
  - intros v' [= <-]. by exists id.
  - destruct Hl as [->|Hl]; [by left|right]. by exists v.
Qed.
Lemma shows_no_window m : shows m → shows (setEmails [] (setMailboxView None m)).
Proof. intros []. split; cbn; try done. by left. Qed.
Lemma shows_setEmailBody b st m :
  (∀ b', b = Some b' → m.(ms_selectedEmailId) = Some b'.(body_emailId)) →
  (is_Some b ↔ st = body_cached) → (m.(ms_selectedEmailId) = None → st = body_idle) →
  shows m → shows (setEmailBody b st m).
Proof.
  intros Hb Hst Hidle []. split; cbn; try done.
  - intros b' ->. split; [by apply Hb|]. by apply Hst.
  - intros ->. by apply Hst.
  - intros Hnone. split; [by apply Hidle|]. destruct (bool_decide _); [done|]. by apply shows_nothing0.
Qed.
Lemma shows_setBodyMaterializing v m :
  (m.(ms_selectedEmailId) = None → v = false) → shows m → shows (setBodyMaterializing v m).
Proof. intros Hv []. split; cbn; try done. intros Hn. split; [by apply shows_nothing0|by apply Hv]. Qed.
Lemma shows_setBodyError e m : shows m → shows (setBodyError e m).
Proof. intros []. by split. Qed.
Lemma shows_put_refreshActivity a m : shows m → shows (put_refreshActivity a m).
Proof. intros []. by split. Qed.
Lemma shows_setLoadState st e m : shows m → shows (setLoadState st e m).
Proof. intros []. by split. Qed.

Create HintDb shows.
#[export] Hint Resolve shows_setAccounts shows_selectAccount shows_selectMailbox shows_selectEmail
  shows_no_window shows_setBodyError shows_put_refreshActivity shows_setLoadState : shows.

(** What a controller call answers: what it was asked for. *)
Definition asked_for {X} (c : PortCall X) : outcome exn X → Prop :=
  match c in PortCall X return outcome exn X → Prop with
  | ListMailboxes ak => λ r, ∀ l, r = Return (PortOk (SnapshotPresent l)) →
      Forall (λ b, b.(mailbox_id).(accountKey) = ak) l
  | ReadEmails ids => λ r, ∀ l, r = Return (PortOk l) →
      Forall2 (λ id item, ∀ e, item = EntityPresent e → e.(email_id) = id) ids l
  | ReadEmailBody id => λ r, ∀ b, r = Return (PortOk (Cached b)) → b.(body_emailId) = id
  | _ => λ _, True
  end.

Definition answered_as_asked X (c : ControllerCall X) : outcome exn X → Prop :=
  match c in ControllerCall X return outcome exn X → Prop with
  | ControllerPort c => asked_for c
  | _ => λ _, True
  end.

(** ** The status on the screen *)

Definition follows (installed : Installed) (disposed : bool) (view : RemoteView) (observed : option AccountKey)
    (subscription : option nat) (auth : RemoteAuthState) (connectivity : RemoteConnectivityState) : Prop :=
  disposed = false → view.(rv_disposed) = false →
  match observed with
  | Some key =>
      if installed.(has_remoteApplication) then
        ∃ n, subscription = Some n ∧ view.(rv_subscriptions) !! n = Some (key, true) ∧
          auth = (view.(rv_status) key).(status_auth) ∧
          connectivity = (view.(rv_status) key).(status_connectivity)
      else auth = anonymous ∧ connectivity = offline
  | None => subscription = None ∧ auth = anonymous ∧ connectivity = offline
  end.

Definition follows_status (installed : Installed) (s : Application) : Prop :=
  follows installed s.(controller).(c_disposed) s.(remote_view) s.(controller).(c_observedRemoteAccountKey)
    s.(controller).(c_remoteStatusUnsubscribe) s.(runtime).(runtime_auth) s.(runtime).(runtime_connectivity).

(** What is on the screen is of one piece. *)
Definition coherent (installed : Installed) (s : Application) : Prop :=
  shows s.(mail) ∧ follows_status installed s.

Section coherent.
Context {platform : Platform} (installed : Installed).
Abbreviation C := (coherent installed).

Lemma coherent_mail f s : (shows s.(mail) → shows (f s.(mail))) → C s → C (on_mail f s).
Proof. intros Hf [Hs Hfol]. split; [by apply Hf|exact Hfol]. Qed.

Lemma keeps_mail f : (∀ m, shows m → shows (f m)) → keeps C (in_mail f).
Proof. intros Hf. apply keeps_modify. intros s. apply coherent_mail, Hf. Qed.

(** An assignment that none of this reads. *)
Lemma keeps_same (f : Application → Application) : (∀ s, C s → C (f s)) → keeps C (modify f).
Proof. apply keeps_modify. Qed.

Lemma keeps_generation get put :
  (∀ x c, (put x c).(c_disposed) = c.(c_disposed) ∧
     (put x c).(c_observedRemoteAccountKey) = c.(c_observedRemoteAccountKey) ∧
     (put x c).(c_remoteStatusUnsubscribe) = c.(c_remoteStatusUnsubscribe)) →
  keeps C (next_generation get put).
Proof.
  intros Hput s [Hs Hfol]. split; [exact Hs|]. unfold follows_status. cbn.
  destruct (Hput (get s.(controller) + 1)%Z s.(controller)) as (-> & -> & ->). exact Hfol.
Qed.

Lemma coherent_observe key s : C s → C (observeRemoteStatus installed key s).
Proof.
  intros [Hs Hfol]. unfold observeRemoteStatus. case_bool_decide as Hkey; [done|].
  split.
  { destruct s.(controller).(c_remoteStatusUnsubscribe), key as [key|]; cbn; [|done| |done];
      destruct (negb _); try exact Hs; unfold subscribe_remote; cbn;
      destruct (rv_disposed _); cbn; try exact Hs; unfold status_listener; cbn;
      destruct (c_disposed _ || _); exact Hs. }
  destruct key as [key|]; [|by destruct s.(controller).(c_remoteStatusUnsubscribe); intros _ _].
  destruct (has_remoteApplication installed) eqn:Hhas.
  2: { destruct s.(controller).(c_remoteStatusUnsubscribe); intros ? ?; cbn; by rewrite Hhas. }
  unfold subscribe_remote. cbn.
  destruct s.(controller).(c_remoteStatusUnsubscribe) as [n|]; cbn;
    destruct (rv_disposed _) eqn:Hrv; cbn; try (intros _ Hno; cbn in Hno; congruence);
    unfold status_listener; cbn; rewrite bool_decide_eq_true_2 by done;
    rewrite orb_false_r; destruct (c_disposed _) eqn:Hd; cbn;
    intros Hdis _; cbn in *; rewrite Hhas; try congruence; eexists; split_and!; try done;
      by apply list_lookup_middle.
Qed.

Lemma coherent_project key s : C s → C (projectRemoteStatus installed key s).
Proof.
  intros [Hs Hfol]. unfold projectRemoteStatus. destruct (bool_decide _) eqn:Hk; [|done]. cbn.
  apply bool_decide_eq_true in Hk. destruct (has_remoteApplication installed) eqn:Hhas; [|done].
  split; [exact Hs|]. intros Hd Hr. specialize (Hfol Hd Hr). cbn in *. rewrite Hk, Hhas in Hfol |- *.
  destruct Hfol as (n & ? & ? & _). by exists n.
Qed.

Create HintDb coherent.
Ltac keeps_actions :=
  repeat first
    [ solve [eauto with coherent]
    | apply keeps_return | apply keeps_read
    | apply keeps_mail; solve [eauto with shows]
    | apply keeps_generation; solve [done]
    | apply keeps_modify; intros ? ?; solve [eauto using coherent_observe]
    | apply keeps_bind; [|intros ?]
    | match goal with
      | |- keeps _ (match ?x with _ => _ end) => destruct x
      | |- keeps _ (if ?x then _ else _) => destruct x
      end ].

(** *** Reading the body *)

Lemma keeps_begin_body : keeps C begin_body.
Proof.
  intros s [Hs Hfol]. unfold begin_body. cbn. unfold mbind, action_mbind, action_bind, read, next_body, next_generation.
  cbn. destruct s.(mail).(ms_selectedEmailId) eqn:Hsel; (split; [|exact Hfol]); cbn;
    (apply shows_setEmailBody; [done|by split; [intros []|]|by rewrite Hsel|done]).
Qed.

#[local] Hint Resolve keeps_begin_body : coherent.

Lemma keeps_receive_body emailId generation result :
  (∀ b, result = PortOk (Cached b) → b.(body_emailId) = emailId) → keeps C (receive_body emailId generation result).
Proof.
  intros Hlaw s HC. unfold receive_body. destruct (_ || _) eqn:Hstale; [exact HC|].
  apply orb_false_iff in Hstale as [_ Hsel]. apply differs_from_false in Hsel.
  destruct result as [[| |b]|]; (apply coherent_mail; [|exact HC]); apply shows_setEmailBody;
    try done; try (by split; [intros []|]); rewrite ?Hsel; try done.
  intros b' [= <-]. by rewrite (Hlaw _ eq_refl).
Qed.

Lemma coherent_finish emailId result s : C s → C (finishBodyMaterialization emailId result s).
Proof.
  intros HC. unfold finishBodyMaterialization. destruct (_ || _) eqn:Hsel; [done|].
  apply orb_false_iff in Hsel as [Hsel _]. apply negb_false_iff, selected_email in Hsel.
  assert (C (on_mail (setBodyMaterializing false) s)) as HC' by (apply coherent_mail; [|done]; by apply shows_setBodyMaterializing).
  destruct result as [kind|]; [|done]. destruct (bool_decide _); [done|].
  apply coherent_mail; [apply shows_setBodyError|]. apply coherent_mail; [|done].
  apply shows_setEmailBody; cbn; rewrite ?Hsel; try done; destruct (bool_decide _); by split; [intros []|].
Qed.

Lemma keeps_claim_body emailId : keeps C (claim_body installed emailId).
Proof.
  intros s HC. unfold claim_body. destruct (map_get _ _); [exact HC|]. cbn.
  assert (∀ x, C x → C (on_controller (λ c, put_bodyMaterializationAttempts
    (map_set (body_key emailId) s.(next_promise) c.(c_bodyMaterializationAttempts)) c) x)) as Hput by done.
  apply Hput. destruct (negb _); [by apply coherent_finish|]. destruct (isSelectedEmail _ _) eqn:Hsel; [|exact HC].
  apply selected_email in Hsel. apply coherent_mail; [|apply coherent_mail; [apply shows_setBodyError|exact HC]].
  apply shows_setBodyMaterializing. cbn in *. by rewrite Hsel.
Qed.

Lemma keeps_finish_body emailId result : keeps C (finish_body emailId result).
Proof. intros s. apply coherent_finish. Qed.

Lemma keeps_materialized emailId : keeps C (materialized_body emailId).
Proof.
  intros s HC. unfold materialized_body. destruct (c_disposed _); [exact HC|].
  destruct (isSelectedEmail _ _); [|by apply coherent_finish].
  revert s HC. apply (keeps_bind C); [apply keeps_begin_body|]. intros. apply keeps_return.
Qed.

Lemma keeps_failed_body emailId error : keeps C (failed_body emailId error).
Proof. intros s HC. unfold failed_body. destruct (c_disposed _); [exact HC|]. by apply coherent_finish. Qed.

Lemma keeps_demand emailId : keeps C (demandSelectedBody installed emailId).
Proof.
  intros s HC. unfold demandSelectedBody. destruct (_ || _); [exact HC|].
  revert s HC. apply (keeps_bind C); [apply keeps_claim_body|]. intros [attempt|attempt|]; try apply keeps_return.
  by apply keeps_modify.
Qed.

(** *** Reading the window, the mailboxes and the accounts *)

Lemma keeps_begin_window : keeps C begin_window.
Proof. unfold begin_window. keeps_actions. Qed.

Lemma stale_window_false mailboxId generation s :
  stale_window mailboxId generation s = false → s.(mail).(ms_selectedMailboxId) = Some mailboxId.
Proof. unfold stale_window. intros [_ H]%orb_false_iff. by apply differs_from_false in H. Qed.

Lemma keeps_receive_view mailboxId generation result : keeps C (receive_view mailboxId generation result).
Proof.
  intros s HC. unfold receive_view. destruct (stale_window _ _ _); [exact HC|].
  assert (∀ st e, C (on_mail (setLoadState st e) (on_mail (setEmails []) (on_mail (setMailboxView None) s)))) as Hnone.
  { intros st e. apply coherent_mail; [apply shows_setLoadState|]. destruct HC as [Hs Hfol]. split; [|exact Hfol].
    by apply shows_no_window. }
  destruct result as [[| |v]|]; [apply Hnone..|exact HC|]. by apply coherent_mail; [apply shows_setLoadState|].
Qed.

Lemma all_present_ids ids items emails :
  Forall2 (λ id item, ∀ e, item = EntityPresent e → e.(email_id) = id) ids items →
  all_present items = Some emails → map email_id emails = ids.
Proof.
  intros H. revert emails. induction H as [|id item ids items Hid _ IH]; intros emails; cbn; [by intros [= <-]|].
  destruct item as [|e]; [done|]. destruct (all_present items) as [rest|]; [|done]. intros [= <-].
  cbn. by rewrite (Hid e eq_refl), (IH rest eq_refl).
Qed.

Lemma keeps_receive_window mailboxId generation view result :
  (∀ l, result = PortOk l →
     Forall2 (λ id item, ∀ e, item = EntityPresent e → e.(email_id) = id) (map item_emailId view.(view_items)) l) →
  keeps C (receive_window mailboxId generation view result).
Proof.
  intros Hlaw s HC. unfold receive_window. destruct (_ || _) eqn:Hstale; [exact HC|].
  apply orb_false_iff in Hstale as [Hsel Hspec]. apply stale_window_false in Hsel.
  apply negb_false_iff, same_view_spec in Hspec.
  destruct (present_emails result) as [emails|] eqn:Hemails.
  - assert (C (on_mail (λ m, setEmails emails (setMailboxView (Some view) m)) s)) as HC'.
    { apply coherent_mail; [|done]. apply (shows_window _ _ _ mailboxId); [done|done|right].
      destruct result as [items|]; [|done]. by eapply all_present_ids; [apply Hlaw|]. }
    set (s' := on_mail _ s) in HC'.
    assert (keeps C (selected ← read (λ s, s.(mail).(ms_selectedEmailId));
         let next := next_email selected emails in
         let changed := email_changed selected next in
         (if changed then in_mail (selectEmailInStore next) else mret tt);;
         in_mail (setLoadState mail_ready None);;
         body ← begin_body;
         mret (Some (body, if changed then next else None)))) as Hrest.
    { apply keeps_bind; [apply keeps_read|]. intros selected. cbn zeta. keeps_actions. }
    exact (Hrest s' HC').
  - cbn. apply coherent_mail; [apply shows_setLoadState|].
    destruct HC as [Hs Hfol]. split; [|exact Hfol]. apply (shows_window view [] _ mailboxId); try done. by left.
Qed.

Lemma keeps_begin_mailboxes : keeps C begin_mailboxes.
Proof. unfold begin_mailboxes. keeps_actions. Qed.

#[local] Hint Resolve keeps_finish_body keeps_materialized keeps_failed_body keeps_demand
  keeps_begin_window keeps_receive_view keeps_receive_window keeps_begin_mailboxes : coherent.

Lemma keeps_receive_mailboxes accountKey generation result :
  (∀ l, result = PortOk (SnapshotPresent l) → Forall (λ b, b.(mailbox_id).(DomainIds.accountKey) = accountKey) l) →
  keeps C (receive_mailboxes accountKey generation result).
Proof.
  intros Hlaw s HC. unfold receive_mailboxes. destruct (_ || _) eqn:Hstale; [exact HC|].
  apply orb_false_iff in Hstale as [_ Hsel]. apply negb_false_iff, bool_decide_eq_true in Hsel.
  assert (∀ l, Forall (λ b, b.(mailbox_id).(DomainIds.accountKey) = accountKey) l → C (on_mail (setMailboxes l) s)) as Hset.
  { intros l Hl. apply coherent_mail; [|done]. apply shows_setMailboxes. eapply Forall_impl; [exact Hl|].
    intros b <-. exact Hsel. }
  destruct result as [[|l]|]; [| |exact HC].
  - cbn. apply coherent_mail; [apply shows_setLoadState|]. apply coherent_mail; [apply shows_selectMailbox|].
    by apply Hset.
  - set (sorted := sort_mailboxes l). assert (C (on_mail (setMailboxes sorted) s)) as HC'.
    { apply Hset. unfold sorted, sort_mailboxes. rewrite js_sort_perm. by apply Hlaw. }
    assert (keeps C (selected ← read (λ s, s.(mail).(ms_selectedMailboxId));
         match next_mailbox selected sorted with
         | None =>
             in_mail (selectMailboxInStore None);; in_mail (setLoadState mail_ready None);; mret None
         | Some next =>
             (if differs_from selected next then in_mail (selectMailboxInStore (Some next)) else mret tt);;
             begin_window
         end)) as Hrest by keeps_actions.
    exact (Hrest _ HC').
Qed.

Lemma keeps_receive_accounts generation result : keeps C (receive_accounts installed generation result).
Proof.
  intros s HC. unfold receive_accounts. destruct (negb _); [exact HC|]. destruct result as [l|]; [|exact HC].
  revert s HC. change (keeps C (in_mail (setAccounts (sort_accounts l));;
         selected ← read (λ s, s.(mail).(ms_selectedAccountKey));
         let exists_still :=
           existsb (λ value, bool_decide (Some value.(account_key) = selected)) (sort_accounts l) in
         match (if exists_still then selected else account_key <$> head (sort_accounts l)) with
         | None =>
             in_mail (selectAccountInStore None);;
             modify (on_statuses statuses_reset);;
             in_mail (setLoadState mail_ready None);;
             modify (observeRemoteStatus installed None);;
             mret None
         | Some next =>
             (if bool_decide (selected = Some next) then mret tt
              else in_mail (selectAccountInStore (Some next)));;
             modify (observeRemoteStatus installed (Some next));;
             mailboxes ← begin_mailboxes;
             mret (Some (next, mailboxes))
         end)). cbn zeta. keeps_actions.
Qed.

(** *** The rest *)

(** An action all of whose branches leave the screen and the status alone. *)
Ltac keeps_by_cases f :=
  let s := fresh "s" in let HC := fresh "HC" in
  intros s HC; unfold f; repeat case_match; exact HC.

Lemma keeps_begin_statuses key : keeps C (begin_statuses key).
Proof. intros s HC. exact HC. Qed.
#[local] Hint Resolve keeps_begin_statuses : coherent.
Lemma keeps_receive_statuses key generation result : keeps C (receive_statuses key generation result).
Proof. keeps_by_cases receive_statuses. Qed.
Lemma keeps_begin_initialize : keeps C begin_initialize.
Proof. keeps_by_cases begin_initialize. Qed.
Lemma keeps_begin_retry : keeps C begin_retry.
Proof. keeps_by_cases begin_retry. Qed.
(** A disposed controller follows no status. *)
Lemma coherent_disposed s : C s → C (disposed_fields s).
Proof.
  intros [Hs _]. unfold disposed_fields. cbn.
  destruct (c_remoteStatusUnsubscribe _); (split; [|intros Hnot; by cbn in Hnot]); cbn;
    (apply shows_setBodyMaterializing; [done|]; by apply shows_put_refreshActivity).
Qed.

Lemma keeps_claim_connection target : keeps C (claim_connection installed target).
Proof. keeps_by_cases claim_connection. Qed.
Lemma coherent_release_connection attempt s : C s → C (release_connection attempt s).
Proof.
  intros [Hs Hfol]. split; [exact Hs|]. unfold release_connection, follows_status. cbn.
  destruct (c_activeConnectionAttempt _) as [[? ?]|]; [|exact Hfol]. destruct (bool_decide _); exact Hfol.
Qed.
Lemma coherent_activity key phase error s : C s → C (set_activity key phase error s).
Proof. intros HC. apply coherent_mail; [|done]. apply shows_put_refreshActivity. Qed.
Lemma keeps_finishRefresh key generation result : keeps C (finishRefresh key generation result).
Proof.
  intros s HC. unfold finishRefresh. destruct (negb _); [exact HC|]. by apply coherent_activity.
Qed.
#[local] Hint Resolve coherent_activity keeps_finishRefresh : coherent.
Lemma keeps_claim_refresh key : keeps C (claim_refresh installed key).
Proof.
  intros s HC. unfold claim_refresh. destruct (c_activeRefreshAttempt _) as [[? ?]|].
  - destruct (bool_decide _); [exact HC|]. by apply coherent_activity.
  - revert s HC. match goal with |- ∀ s, C s → C (?f s).2 => change (keeps C f) end.
    keeps_actions; apply keeps_modify; eauto with coherent.
Qed.
Lemma coherent_release_refresh attempt s : C s → C (release_refresh attempt s).
Proof.
  intros [Hs Hfol]. split; [exact Hs|]. unfold release_refresh, follows_status. cbn.
  destruct (c_activeRefreshAttempt _) as [[? ?]|]; [|exact Hfol]. destruct (bool_decide _); exact Hfol.
Qed.
Lemma coherent_release_body emailId attempt s : C s → C (release_body emailId attempt s).
Proof.
  intros [Hs Hfol]. split; [exact Hs|]. unfold release_body, follows_status. cbn. destruct (bool_decide _); exact Hfol.
Qed.
Lemma keeps_claim_run key id : keeps C (claim_run key id).
Proof. intros s HC. unfold claim_run. destruct (map_get _ _); exact HC. Qed.
Lemma coherent_release_run key id attempt s : C s → C (release_run key id attempt s).
Proof.
  intros [Hs Hfol]. split; [exact Hs|]. unfold release_run, follows_status. cbn. destruct (bool_decide _); exact Hfol.
Qed.
Lemma keeps_mutation_ran key id outcome : keeps C (mutation_ran key id outcome).
Proof. keeps_by_cases mutation_ran. Qed.
Lemma coherent_confirm key id outcome known after s : C s → C (confirm_mutation key id outcome known after s).
Proof. intros HC. unfold confirm_mutation. by repeat case_match. Qed.
Lemma keeps_track m : keeps C (trackStagedMutation m).
Proof.
  unfold trackStagedMutation. cbn zeta. apply keeps_bind; [apply keeps_begin_statuses|]. intros generation.
  apply keeps_bind; [by apply keeps_modify|]. intros _. apply keeps_bind; [apply keeps_claim_run|].
  intros [[? ?]| |]; [by apply keeps_modify|apply keeps_return..].
Qed.
Lemma keeps_begin_flush : keeps C begin_flush.
Proof.
  intros s HC. unfold begin_flush. revert s HC. intros s0.
  set (hints := c_pendingHints _). set (account := ms_selectedAccountKey _).
  set (mailbox := ms_selectedMailboxId _). set (email := ms_selectedEmailId _).
  match goal with |- C s0 → C (?f s0).2 => enough (keeps C f) as H by exact (H s0) end.
  apply keeps_bind; [by apply keeps_modify|]. intros _. apply keeps_bind; [by apply keeps_modify|]. intros _.
  apply keeps_bind; [|intros; apply keeps_return]. unfold action_map. keeps_actions.
Qed.
Lemma coherent_schedule batch s : C s → C (scheduleInvalidation batch s).
Proof. intros HC. unfold scheduleInvalidation. by case_match. Qed.
Lemma keeps_take i : keeps C (take_task i).
Proof. intros s HC. exact HC. Qed.

Lemma coherent_composer f s : C s → C (on_composer f s).
Proof. done. Qed.

(** *** What the remote application does *)

(** Hearing of a status changes the status shown, and only if the account is observed. *)
Lemma listener_shows key status s :
  let s' := status_listener key status s in
  s'.(mail) = s.(mail) ∧ s'.(controller) = s.(controller) ∧ s'.(remote_view) = s.(remote_view) ∧
  (s.(controller).(c_observedRemoteAccountKey) ≠ Some key → s' = s) ∧
  (s.(controller).(c_observedRemoteAccountKey) = Some key → s.(controller).(c_disposed) = false →
   s'.(runtime).(runtime_auth) = status.(status_auth) ∧
   s'.(runtime).(runtime_connectivity) = status.(status_connectivity)).
Proof.
  cbn zeta. unfold status_listener. destruct (c_disposed _) eqn:Hd; cbn; [by split_and!|].
  case_bool_decide; cbn; by split_and!.
Qed.

Lemma publish_shows key status subscriptions s :
  let tell := (λ s '(k, lasts),
    if bool_decide (k = key) && lasts then status_listener key status s else s) in
  let s' := fold_left tell subscriptions s in
  s'.(mail) = s.(mail) ∧ s'.(controller) = s.(controller) ∧ s'.(remote_view) = s.(remote_view) ∧
  (s.(controller).(c_observedRemoteAccountKey) ≠ Some key → s' = s) ∧
  (s.(controller).(c_observedRemoteAccountKey) = Some key → s.(controller).(c_disposed) = false →
   (key, true) ∈ subscriptions ∨
   s.(runtime).(runtime_auth) = status.(status_auth) ∧ s.(runtime).(runtime_connectivity) = status.(status_connectivity) →
   s'.(runtime).(runtime_auth) = status.(status_auth) ∧
   s'.(runtime).(runtime_connectivity) = status.(status_connectivity)).
Proof.
  cbn zeta. revert s. induction subscriptions as [|[k lasts] l IH]; intros s; cbn [fold_left].
  - split_and!; try done. intros _ _ [Hin|]; [by apply elem_of_nil in Hin|done].
  - destruct (bool_decide (k = key) && lasts) eqn:Hk.
    + destruct (listener_shows key status s) as (Hm & Hc & Hr & Hno & Hyes).
      destruct (IH (status_listener key status s)) as (Hm' & Hc' & Hr' & Hno' & Hyes').
      rewrite Hm', Hc', Hr', Hm, Hc, Hr in *. split_and!; try done.
      * intros Hne. rewrite (Hno' Hne). by apply Hno.
      * intros Ho Hd _. apply Hyes'; [done|done|]. right. by apply Hyes.
    + destruct (IH s) as (Hm & Hc & Hr & Hno & Hyes). split_and!; try done.
      intros Ho Hd Hin. apply Hyes; [done|done|]. destruct Hin as [[[= <- <-]|Hin]%elem_of_cons|Hshown]; [|by left|by right].
      by rewrite bool_decide_eq_true_2 in Hk.
Qed.

Lemma coherent_publish key status s :
  installed.(has_remoteApplication) = true → C s → C (publish_remote key status s).
Proof.
  intros Hhas [Hs Hfol]. unfold publish_remote. cbn zeta.
  set (s1 := on_remote _ s).
  destruct (publish_shows key status s1.(remote_view).(rv_subscriptions) s1) as (Hm & Hc & Hr & Hno & Hyes).
  set (s2 := fold_left _ _ _) in *. split; [by rewrite Hm|]. intros Hd Hrv.
  rewrite Hc, Hr in *. cbn in *. specialize (Hfol Hd Hrv).
  destruct (c_observedRemoteAccountKey _) as [k|] eqn:Ho; [|by rewrite Hno].
  rewrite Hhas in Hfol |- *. destruct Hfol as (n & Hn & Hsub & Ha & Hcon). exists n. split; [done|]. split; [done|].
  destruct (decide (k = key)) as [->|Hne].
  - rewrite bool_decide_eq_true_2 by done. apply Hyes; [done|done|]. left. by eapply list_elem_of_lookup_2.
  - rewrite bool_decide_eq_false_2 by done. rewrite Hno by congruence. done.
Qed.

Lemma coherent_dispose_remote statuses s : C s → C (dispose_remote statuses s).
Proof. intros [Hs _]. split; [exact Hs|]. by intros _ Hno. Qed.

(** ** Every method *)

#[local] Hint Resolve keeps_receive_statuses keeps_begin_initialize keeps_begin_retry keeps_claim_body
  keeps_claim_connection keeps_claim_refresh keeps_claim_run keeps_mutation_ran keeps_track keeps_begin_flush
  keeps_take keeps_receive_accounts keeps_modify coherent_mail coherent_observe coherent_project coherent_release_connection
  coherent_release_refresh coherent_release_body coherent_release_run coherent_confirm coherent_schedule
  coherent_publish coherent_dispose_remote coherent_disposed coherent_composer : coherent.

Abbreviation given := (method_given answered_as_asked C).

Ltac keep_screen :=
  repeat first
    [ solve [eauto with keeping]
    | apply given_answer; intros ? ?
    | apply given_finally; [|solve [eauto with coherent]]
    | apply given_bind; [|intros ?]
    | apply given_try; [|intros ?]
    | apply given_attempt
    | apply given_atomic; solve [eauto with coherent | keeps_actions]
    | match goal with
      | |- method_given _ _ (match ?x with _ => _ end) => destruct x
      | |- method_given _ _ (if ?x then _ else _) => destruct x
      end ].

Lemma given_statuses_from key generation : given (statuses_from key generation).
Proof. unfold statuses_from, port. keep_screen. Qed.
Lemma given_body_from selected : given (body_from selected).
Proof.
  unfold body_from, port. destruct selected as [[emailId generation]|]; cbv beta iota; [|apply given_ret].
  apply given_answer. intros result Hlaw. apply given_atomic, keeps_receive_body. cbn in Hlaw.
  intros b ->. by apply Hlaw.
Qed.
#[local] Hint Resolve given_statuses_from given_body_from : keeping.

Lemma given_window_from selected : given (window_from installed selected).
Proof.
  unfold window_from, port. destruct selected as [[mailboxId generation]|]; cbv beta iota; [|apply given_ret].
  apply given_bind; [apply given_outside|]. intros result. apply given_bind; [by apply given_atomic, keeps_receive_view|].
  intros [view|]; [|apply given_ret]. apply given_answer. intros emails Hlaw.
  apply given_bind; [|intros; keep_screen].
  apply given_atomic, keeps_receive_window. cbn in Hlaw. intros l ->. by apply Hlaw.
Qed.
#[local] Hint Resolve given_window_from : keeping.

Lemma given_mailboxes_from selected : given (mailboxes_from installed selected).
Proof.
  unfold mailboxes_from, port. destruct selected as [[accountKey generation]|]; cbv beta iota; [|apply given_ret].
  apply given_answer. intros result Hlaw. apply given_bind; [|intros; keep_screen].
  apply given_atomic, keeps_receive_mailboxes. cbn in Hlaw. intros l ->. by apply Hlaw.
Qed.
#[local] Hint Resolve given_mailboxes_from : keeping.

Lemma given_refreshMutationStatuses key : given (refreshMutationStatuses key).
Proof. unfold refreshMutationStatuses. keep_screen. Qed.
#[local] Hint Resolve given_refreshMutationStatuses : keeping.
Lemma given_accounts_from generation : given (accounts_from installed generation).
Proof. unfold accounts_from, port. keep_screen. Qed.
#[local] Hint Resolve given_accounts_from : keeping.
Lemma given_refreshAccounts : given (refreshAccounts installed).
Proof. unfold refreshAccounts, next_accounts. keep_screen. Qed.
#[local] Hint Resolve given_refreshAccounts : keeping.
Lemma given_read_everything text generation : given (read_everything installed text generation).
Proof.
  unfold read_everything, change. apply given_try; [keep_screen|]. intros error.
  apply given_bind; [|intros; apply given_raise]. apply given_atomic, keeps_modify. intros s HC.
  destruct text; [|exact HC]. apply coherent_mail; [apply shows_setLoadState|exact HC].
Qed.
#[local] Hint Resolve given_read_everything : keeping.
Lemma given_initialize : given (initialize installed).
Proof.
  unfold initialize, change. apply given_bind; [keep_screen|]. intros []; cbv beta iota; [|apply given_ret].
  apply given_bind; [apply given_outside|]. intros [subscription|].
  - apply given_bind; [|intros; keep_screen]. apply given_atomic, keeps_bind; [by apply keeps_modify|].
    intros _. unfold next_accounts. keeps_actions.
  - apply given_bind; [|intros; apply given_raise]. apply given_atomic, keeps_modify. intros s HC.
    apply coherent_mail; [apply shows_setLoadState|exact HC].
Qed.
#[local] Hint Resolve given_initialize : keeping.
Lemma given_body_attempt emailId attempt : given (body_attempt installed emailId attempt).
Proof. unfold body_attempt, performBodyMaterialization. keep_screen. Qed.
#[local] Hint Resolve given_body_attempt : keeping.
Lemma given_forget ref : given (forget_credential ref).
Proof. unfold forget_credential. keep_screen. Qed.
#[local] Hint Resolve given_forget : keeping.
Lemma given_config request existing key generation : given (connection_config installed request existing key generation).
Proof. unfold connection_config, look. keep_screen. Qed.
#[local] Hint Resolve given_config : keeping.
Lemma given_connect_and_reread request credential notifies generation :
  given (connect_and_reread installed request credential notifies generation).
Proof. unfold connect_and_reread, look, change. cbv zeta. keep_screen. Qed.
#[local] Hint Resolve given_connect_and_reread : keeping.
Lemma given_performAccountConnection request notifies reconnect generation :
  given (performAccountConnection installed request notifies reconnect generation).
Proof.
  unfold performAccountConnection, look, change, port. keep_screen. apply given_atomic, keeps_modify.
  intros s HC. case_match; [by apply coherent_observe|done].
Qed.
#[local] Hint Resolve given_performAccountConnection : keeping.
Lemma given_run_attempt key id attempt generation : given (run_attempt installed key id attempt generation).
Proof. unfold run_attempt, performMutationRun, look, change. cbv zeta. keep_screen. Qed.
#[local] Hint Resolve given_run_attempt : keeping.
Lemma given_flush : given (flushInvalidations installed).
Proof. unfold flushInvalidations, reread_from, change. keep_screen. Qed.
#[local] Hint Resolve given_flush : keeping.

Lemma given_executeSend : given executeSend.
Proof. unfold executeSend, send_fails, generateMutationId, nowMutationInstant, port, look, change. keep_screen. Qed.
#[local] Hint Resolve given_executeSend : keeping.

(** Every method keeps the screen of one piece. *)
Lemma given_method p : controller_method installed p → given p.
Proof.
  intros Hp. destruct Hp; unfold starts, change.
  - apply given_initialize.
  - unfold retry. keep_screen.
  - unfold dispose. keep_screen.
  - unfold selectAccount. keep_screen.
  - unfold selectMailbox. keep_screen.
  - unfold selectEmail. keep_screen.
  - unfold connectAccount, startAccountConnection. keep_screen.
  - unfold reconnectAccount, startAccountConnection. keep_screen.
  - unfold refreshAccount, performRefresh. keep_screen.
  - unfold syncSelectedAccount, port, change. keep_screen.
  - unfold refreshMailboxWindow. keep_screen.
  - unfold refreshSelectedBody. keep_screen.
  - unfold materializeBody. keep_screen.
  - unfold toggleKeyword, nextMutationId, nowMutationInstant, staged, port. cbv zeta. keep_screen.
  - unfold moveEmail, nextMutationId, nowMutationInstant, staged, port, look. cbv zeta. keep_screen.
  - unfold runMutation. keep_screen.
  - unfold sendEmail, nextMutationId, nowMutationInstant, staged, port, look. keep_screen.
  - keep_screen.
  - unfold run_task, run_background. keep_screen.
  - keep_screen.
  - keep_screen.
  - keep_screen.
  - keep_screen.
Qed.
End coherent.
