(* ===== verification/ControllerLocks.v ===== *)
(** * The shared attempts of the controller

    [activeConnectionAttempt], [activeRefreshAttempt], [bodyMaterializationAttempts] and
    [activeMutationRuns] are locks ([Locks]).  [spinning] and [refreshing] are what the
    user sees of an attempt that runs. *)

From S2P Require Import Prelude.
From S2P Require Import JsNumber.
From S2P Require Import JsString.
From S2P Require Import JsCollections.
From S2P Require Import Errors.
From S2P Require Import DomainIds.
From S2P Require Import DomainEmail.
From S2P Require Import DomainMailbox.
From S2P Require Import MailboxView.
From S2P Require Import SendIntent.
From S2P Require Import PendingMutation.
From S2P Require Import Ports.
From S2P Require Import MailStore.
From S2P Require Import EngineInterface.
From S2P Require Import Remote.
From S2P Require Import Prog.
From S2P Require Import JsText.
From S2P Require Import SharedState.
From S2P Require Import Locks.
From S2P Require Import RemoteApplication.
From S2P Require Import Stores.
From S2P Require Import MutationRunner.
From S2P Require Import Application.
From S2P Require Import Controller.
From S2P Require Import ControllerFacts.
From Stdlib Require Import ZArith.
Open Scope string_scope.
Open Scope list_scope.
Open Scope js_scope.

Inductive AttemptName : Type :=
| ConnectionAttempt | RefreshAttempt | BodyAttempt (key : string) | RunAttempt (key : string).

Definition attempt_of (s : Application) (n : AttemptName) : option nat :=
  match n with
  | ConnectionAttempt => snd <$> s.(controller).(c_activeConnectionAttempt)
  | RefreshAttempt => snd <$> s.(controller).(c_activeRefreshAttempt)
  | BodyAttempt key => map_get key s.(controller).(c_bodyMaterializationAttempts)
  | RunAttempt key => map_get key s.(controller).(c_activeMutationRuns)
  end.

(** The calls that an attempt makes. *)
Definition attempt_under X (c : ControllerCall X) : option AttemptName :=
  match c with
  | RemoteConnect _ | Authorize _ _ | OnAuthenticated => Some ConnectionAttempt
  | RemoteRefresh _ => Some RefreshAttempt
  | Materialize emailId => Some (BodyAttempt (body_key emailId))
  | RunMutation accountKey mutationId => Some (RunAttempt (mutation_identity accountKey mutationId))
  | _ => None
  end.

Definition is_disposed (s : Application) : Prop := s.(controller).(c_disposed) = true.

(** The body of the selected message, whose key this is, is being loaded. *)
Definition spinning (s : Application) (key : string) : Prop :=
  s.(mail).(ms_bodyMaterializing) = true ∧ body_key <$> s.(mail).(ms_selectedEmailId) = Some key.

Definition refreshing (s : Application) (accountKey : AccountKey) : Prop :=
  refresh_phase <$> map_get accountKey s.(mail).(ms_refreshActivity) = Some phase_refreshing.

Record attempts_ok (s : Application) : Prop := {
  ok_spinning key : spinning s key → is_Some (attempt_of s (BodyAttempt key));
  ok_refreshing key : refreshing s key → fst <$> s.(controller).(c_activeRefreshAttempt) = Some key;
  ok_bodies : map_wf s.(controller).(c_bodyMaterializationAttempts);
  ok_runs : map_wf s.(controller).(c_activeMutationRuns);
}.

Definition attempt_quiet (n : AttemptName) (s s' : Application) : Prop :=
  match n with
  | BodyAttempt key =>
      spinning s' key → spinning s key ∧ s'.(mail).(ms_selectedEmailId) = s.(mail).(ms_selectedEmailId)
  | RefreshAttempt =>
      s'.(controller).(c_refreshGeneration) = s.(controller).(c_refreshGeneration) ∧
      ∀ key, refreshing s' key → refreshing s key
  | _ => True
  end.

(** What an attempt knows: that what spins is its message, or that it is over. *)
Definition body_known (emailId : ScopedEmailId) (s : Application) : Prop :=
  spinning s (body_key emailId) → s.(mail).(ms_selectedEmailId) = Some emailId.
Definition body_over (emailId : ScopedEmailId) (s : Application) : Prop := ¬ spinning s (body_key emailId).
Definition refresh_known (accountKey : AccountKey) (generation : Z) (s : Application) : Prop :=
  s.(controller).(c_refreshGeneration) = generation ∧ ∀ key, refreshing s key → key = accountKey.
Definition refresh_over (s : Application) : Prop := ∀ key, ¬ refreshing s key.
Definition nothing_known (s : Application) : Prop := True.

Section locks.
Context {platform : Platform} (installed : Installed).

Definition body_knows (emailId : ScopedEmailId) : Application → Prop :=
  if installed.(has_bodyMaterializer) then body_known emailId else body_over emailId.

Definition body_lock (emailId : ScopedEmailId) (attempt : nat) (known : Application → Prop) :
    held_lock (S := Application) := (BodyAttempt (body_key emailId), attempt, known).
Definition run_lock (accountKey : AccountKey) (mutationId : MutationId) (attempt : nat) :
    held_lock (S := Application) := (RunAttempt (mutation_identity accountKey mutationId), attempt, nothing_known).

Definition task_lock (task : Task) : option (held_lock (S := Application) (N := AttemptName)) :=
  match task with
  | TaskMaterialize emailId attempt => Some (body_lock emailId attempt (body_knows emailId))
  | TaskRun accountKey mutationId attempt _ => Some (run_lock accountKey mutationId attempt)
  | _ => None
  end.
Definition task_locks (s : Application) : list held_lock := omap task_lock s.(background).

Abbreviation lasts := (lasting attempts_ok attempt_quiet).
Abbreviation move := (lock_move attempts_ok attempt_of attempt_quiet task_locks).
Abbreviation gently := (gentle attempts_ok is_disposed attempt_of attempt_quiet attempt_under task_locks).
Abbreviation locked := (locking attempts_ok is_disposed attempt_of attempt_quiet attempt_under task_locks).
Abbreviation is_mild := (mild attempts_ok is_disposed attempt_of attempt_quiet task_locks).

Lemma body_known_lasts emailId : lasts (BodyAttempt (body_key emailId)) (body_known emailId).
Proof. intros s s' _ _ Hq Hk Hs. destruct (Hq Hs) as [Hs' ->]. by apply Hk. Qed.
Lemma body_over_lasts emailId : lasts (BodyAttempt (body_key emailId)) (body_over emailId).
Proof. intros s s' _ _ Hq Hk Hs. destruct (Hq Hs) as [Hs' _]. by apply Hk. Qed.
Lemma body_knows_lasts emailId : lasts (BodyAttempt (body_key emailId)) (body_knows emailId).
Proof. unfold body_knows. destruct (has_bodyMaterializer _); [apply body_known_lasts|apply body_over_lasts]. Qed.
Lemma refresh_known_lasts key generation : lasts RefreshAttempt (refresh_known key generation).
Proof. intros s s' _ _ [Hg Hq] [Hk Hr]. split; [congruence|]. intros k Hk'. by apply Hr, Hq. Qed.
Lemma refresh_over_lasts : lasts RefreshAttempt refresh_over.
Proof. intros s s' _ _ [_ Hq] Hr k Hk. by apply (Hr k), Hq. Qed.
Lemma nothing_lasts n : lasts n nothing_known.
Proof. done. Qed.
#[local] Hint Resolve body_known_lasts body_over_lasts body_knows_lasts refresh_known_lasts refresh_over_lasts
  nothing_lasts : correo.

(** ** Actions that leave the attempts alone *)

Record frame (s s' : Application) : Prop := {
  frame_disposed : s'.(controller).(c_disposed) = s.(controller).(c_disposed);
  frame_attempts n : attempt_of s' n = attempt_of s n;
  frame_refresh : s'.(controller).(c_activeRefreshAttempt) = s.(controller).(c_activeRefreshAttempt);
  frame_bodies : s'.(controller).(c_bodyMaterializationAttempts) = s.(controller).(c_bodyMaterializationAttempts);
  frame_runs : s'.(controller).(c_activeMutationRuns) = s.(controller).(c_activeMutationRuns);
  frame_generation : s'.(controller).(c_refreshGeneration) = s.(controller).(c_refreshGeneration);
  frame_tasks : task_locks s' = task_locks s;
  frame_refreshing key : refreshing s' key → refreshing s key;
  frame_spinning : s'.(mail).(ms_bodyMaterializing) = true →
    s.(mail).(ms_bodyMaterializing) = true ∧ s'.(mail).(ms_selectedEmailId) = s.(mail).(ms_selectedEmailId);
}.

Ltac trivial_frame :=
  split; [done|by intros []|done..|intros ? Hsame; exact Hsame|first [done | intros Hsame; split; [exact Hsame|done]]].

Lemma frame_refl s : frame s s.
Proof. trivial_frame. Qed.
Lemma frame_trans s1 s2 s3 : frame s1 s2 → frame s2 s3 → frame s1 s3.
Proof.
  intros [] []. split; try congruence.
  - intros key Hk. auto.
  - intros Hm. destruct (frame_spinning1 Hm) as [Hm2 ->]. by apply frame_spinning0.
Qed.

Lemma frame_on_mail f s :
  (f s.(mail)).(ms_refreshActivity) = s.(mail).(ms_refreshActivity) →
  ((f s.(mail)).(ms_bodyMaterializing) = true →
   s.(mail).(ms_bodyMaterializing) = true ∧ (f s.(mail)).(ms_selectedEmailId) = s.(mail).(ms_selectedEmailId)) →
  frame s (on_mail f s).
Proof.
  intros Ha Hm. split; try done. intros key. unfold refreshing. cbn. by rewrite Ha.
Qed.

Lemma frame_mild s s' : attempts_ok s → frame s s' → mild_move attempts_ok attempt_of attempt_quiet task_locks s s'.
Proof.
  intros [Hspin Href Hwb Hwr] [_ Ha Hr Hb Hru Hg Ht Hrefr Hs].
  assert (∀ key, spinning s' key → spinning s key ∧ s'.(mail).(ms_selectedEmailId) = s.(mail).(ms_selectedEmailId)) as Hspin'.
  { intros key [Hm Hk]. destruct (Hs Hm) as [Hm' Heq]. split; [|done]. split; [done|]. by rewrite <- Heq. }
  split_and!.
  - split.
    + intros key Hk. rewrite Ha. apply Hspin. by apply Hspin'.
    + intros key Hk. rewrite Hr. by apply Href, Hrefr.
    + by rewrite Hb.
    + by rewrite Hru.
  - intros n p Hn. rewrite Ha. split; [done|]. destruct n; cbn; try done; by apply Hspin'.
  - intros own. by apply Move_stays.
Qed.

Definition frames {X} (f : act X) : Prop := ∀ s, frame s (f s).2.

Lemma frames_mild {X} (f : act X) : frames f → is_mild f.
Proof. intros Hf s HI. right. by apply frame_mild. Qed.
Lemma frames_disposed {X} (f : act X) : frames f → keeps is_disposed f.
Proof. intros Hf s Hd. unfold is_disposed. by rewrite (frame_disposed _ _ (Hf s)). Qed.
Lemma gentle_frames lock {X} (f : act X) : frames f → gently lock (atomically f).
Proof. intros Hf. apply gentle_atomic; [by apply frames_mild|by apply frames_disposed]. Qed.
Lemma frames_return {X} (x : X) : frames (mret x).
Proof. intros s. apply frame_refl. Qed.
Lemma frames_read {X} (f : Application → X) : frames (read f).
Proof. intros s. apply frame_refl. Qed.
Lemma frames_modify f : (∀ s, frame s (f s)) → frames (modify f).
Proof. intros Hf s. apply Hf. Qed.
Lemma frames_bind {X Y} (f : act X) (g : X → act Y) : frames f → (∀ x, frames (g x)) → frames (f ≫= g).
Proof.
  intros Hf Hg s. specialize (Hf s). unfold mbind, action_mbind, action_bind.
  destruct (f s) as [[x|e] s']; [|done]. eapply frame_trans; [exact Hf|apply Hg].
Qed.
Lemma frames_in_mail f :
  (∀ m, (f m).(ms_refreshActivity) = m.(ms_refreshActivity) ∧
     ((f m).(ms_bodyMaterializing) = true →
      m.(ms_bodyMaterializing) = true ∧ (f m).(ms_selectedEmailId) = m.(ms_selectedEmailId))) →
  frames (in_mail f).
Proof. intros Hf. apply frames_modify. intros s. by apply frame_on_mail; apply Hf. Qed.

Create HintDb framing.
Ltac frames_actions :=
  repeat first
    [ solve [eauto with framing]
    | apply frames_return | apply frames_read
    | apply frames_in_mail; solve [intros []; cbn; split; [done|first [done | intros; by split]]]
    | apply frames_modify; intros ?; solve [eauto with framing | trivial_frame]
    | apply frames_bind; [|intros ?]
    | match goal with
      | |- frames (match ?x with _ => _ end) => destruct x
      | |- frames (if ?x then _ else _) => destruct x
      end ].

Lemma frames_setEmailBody b st : frames (in_mail (setEmailBody b st)).
Proof.
  apply frames_in_mail. intros m. split; [done|]. cbn. destruct (bool_decide _); [done|]. by intros ->.
Qed.
#[local] Hint Resolve frames_setEmailBody frame_refl : framing.

Lemma frames_next_generation get put :
  (∀ x c, (put x c).(c_activeConnectionAttempt) = c.(c_activeConnectionAttempt) ∧
     (put x c).(c_activeRefreshAttempt) = c.(c_activeRefreshAttempt) ∧
     (put x c).(c_bodyMaterializationAttempts) = c.(c_bodyMaterializationAttempts) ∧
     (put x c).(c_activeMutationRuns) = c.(c_activeMutationRuns) ∧
     (put x c).(c_refreshGeneration) = c.(c_refreshGeneration) ∧ (put x c).(c_disposed) = c.(c_disposed)) →
  frames (next_generation get put).
Proof.
  intros Hput s. destruct (Hput (get s.(controller) + 1)%Z s.(controller)) as (H1 & H2 & H3 & H4 & H5 & H6).
  split; try done. intros []; cbn; by rewrite ?H1, ?H2, ?H3, ?H4.
Qed.
Lemma frames_next_accounts : frames next_accounts.
Proof. by apply frames_next_generation. Qed.
Lemma frames_next_mailboxes : frames next_mailboxes.
Proof. by apply frames_next_generation. Qed.
Lemma frames_next_view : frames next_view.
Proof. by apply frames_next_generation. Qed.
Lemma frames_next_body : frames next_body.
Proof. by apply frames_next_generation. Qed.
Lemma frames_next_connection : frames next_connection.
Proof. by apply frames_next_generation. Qed.
#[local] Hint Resolve frames_next_accounts frames_next_mailboxes frames_next_view frames_next_body
  frames_next_connection : framing.

Lemma frames_begin_statuses key : frames (begin_statuses key).
Proof. intros s. trivial_frame. Qed.
Lemma frames_receive_statuses key generation result : frames (receive_statuses key generation result).
Proof. intros s. unfold receive_statuses. repeat case_match; trivial_frame. Qed.
Lemma frames_begin_body : frames begin_body.
Proof. unfold begin_body. frames_actions. Qed.
#[local] Hint Resolve frames_begin_statuses frames_receive_statuses frames_begin_body : framing.

Lemma frame_setEmailBody b st s : frame s (on_mail (setEmailBody b st) s).
Proof. apply (frames_setEmailBody b st s). Qed.
Lemma frames_receive_body emailId generation result : frames (receive_body emailId generation result).
Proof. intros s. unfold receive_body. repeat case_match; first [apply frame_refl | apply frame_setEmailBody]. Qed.

Lemma frame_finish emailId result s : frame s (finishBodyMaterialization emailId result s).
Proof.
  unfold finishBodyMaterialization. destruct (_ || _); [apply frame_refl|].
  assert (frame s (on_mail (setBodyMaterializing false) s)) as Hf by by apply frame_on_mail.
  destruct result as [kind|]; [|done]. destruct (bool_decide _); [done|].
  eapply frame_trans; [exact Hf|]. eapply frame_trans; [apply frame_setEmailBody|]. apply frame_on_mail; [done|].
  intros Hm. by split.
Qed.
Lemma frames_finish_body emailId result : frames (finish_body emailId result).
Proof. intros s. apply frame_finish. Qed.
#[local] Hint Resolve frames_receive_body frames_finish_body : framing.

Ltac frame_cases := repeat case_match; trivial_frame.

Lemma frame_observe key s : frame s (observeRemoteStatus installed key s).
Proof.
  unfold observeRemoteStatus. destruct (bool_decide _); [apply frame_refl|].
  assert (frame s (on_controller (put_observedRemoteAccountKey key) (on_controller (put_remoteStatusUnsubscribe None)
    (unsubscribe_remote s.(controller).(c_remoteStatusUnsubscribe) s)))) as Hf.
  { unfold unsubscribe_remote. frame_cases. }
  destruct key as [key|]; [|eapply frame_trans; [exact Hf|]; trivial_frame].
  destruct (negb _); [eapply frame_trans; [exact Hf|]; trivial_frame|]. cbv zeta.
  match goal with |- context[subscribe_remote key ?s1] => set (s1' := s1) in * end.
  destruct (subscribe_remote key s1') as [[n s2]|] eqn:Hsub; [|eapply frame_trans; [exact Hf|]; trivial_frame].
  eapply frame_trans; [exact Hf|]. unfold subscribe_remote in Hsub. destruct (rv_disposed _); [done|].
  injection Hsub as _ <-. unfold status_listener. destruct (_ || _); trivial_frame.
Qed.
Lemma frame_project key s : frame s (projectRemoteStatus installed key s).
Proof. unfold projectRemoteStatus. frame_cases. Qed.
Lemma frame_publish key status s : frame s (publish_remote key status s).
Proof.
  unfold publish_remote. cbv zeta. set (s1 := on_remote _ s). eapply (frame_trans _ s1); [trivial_frame|].
  generalize s1.(remote_view).(rv_subscriptions). intros l. generalize s1. clear.
  induction l as [|[k lasts] l IH]; intros s1; cbn [fold_left]; [apply frame_refl|].
  eapply frame_trans; [|apply IH]. destruct (_ && _); [|apply frame_refl].
  unfold status_listener. destruct (_ || _); trivial_frame.
Qed.
Lemma frame_schedule batch s : frame s (scheduleInvalidation batch s).
Proof.
  unfold scheduleInvalidation. cbv zeta. destruct (c_invalidationScheduled _); [trivial_frame|].
  split; try done. unfold task_locks, spawn. cbn. by rewrite omap_app, app_nil_r.
Qed.
Lemma frame_confirm key id outcome known after s : frame s (confirm_mutation key id outcome known after s).
Proof. unfold confirm_mutation. frame_cases. Qed.
#[local] Hint Resolve frame_observe frame_project frame_publish frame_schedule frame_confirm : framing.

Lemma frames_begin_window : frames begin_window.
Proof. unfold begin_window. frames_actions. Qed.
#[local] Hint Resolve frames_begin_window : framing.
Lemma frames_receive_view mailboxId generation result : frames (receive_view mailboxId generation result).
Proof. intros s. unfold receive_view. frame_cases. Qed.
Lemma frames_receive_window mailboxId generation view result : frames (receive_window mailboxId generation view result).
Proof.
  intros s. unfold receive_window. destruct (_ || _); [apply frame_refl|].
  destruct (present_emails result) as [emails|]; [|trivial_frame]. revert s.
  match goal with |- ∀ s, frame s (?f s).2 => change (frames f) end. cbv zeta. frames_actions.
Qed.
Lemma frames_begin_mailboxes : frames begin_mailboxes.
Proof. unfold begin_mailboxes. frames_actions. Qed.
#[local] Hint Resolve frames_receive_view frames_receive_window frames_begin_mailboxes : framing.
Lemma frames_receive_mailboxes key generation result : frames (receive_mailboxes key generation result).
Proof.
  intros s. unfold receive_mailboxes. destruct (_ || _); [apply frame_refl|].
  destruct result as [[|l]|]; [trivial_frame| |apply frame_refl]. revert s. cbv zeta.
  match goal with |- ∀ s, frame s (?f s).2 => change (frames f) end. frames_actions.
Qed.
Lemma frames_receive_accounts generation result : frames (receive_accounts installed generation result).
Proof.
  intros s. unfold receive_accounts. destruct (negb _); [apply frame_refl|].
  destruct result as [l|]; [|apply frame_refl]. revert s. cbv zeta.
  match goal with |- ∀ s, frame s (?f s).2 => change (frames f) end. frames_actions.
Qed.
Lemma frames_begin_initialize : frames begin_initialize.
Proof. intros s. unfold begin_initialize. frame_cases. Qed.
Lemma frames_begin_retry : frames begin_retry.
Proof.
  intros s. unfold begin_retry. destruct (bool_decide _); [apply frame_refl|]. revert s.
  match goal with |- ∀ s, frame s (?f s).2 => change (frames f) end. unfold in_runtime. frames_actions.
Qed.
Lemma frames_mutation_ran key id outcome : frames (mutation_ran key id outcome).
Proof.
  intros s. unfold mutation_ran. destruct (c_disposed _); [apply frame_refl|]. revert s.
  match goal with |- ∀ s, frame s (?f s).2 => change (frames f) end. frames_actions.
Qed.
Lemma frames_begin_flush : frames begin_flush.
Proof.
  intros s. unfold begin_flush. set (hints := c_pendingHints _). set (account := ms_selectedAccountKey _).
  set (mailbox := ms_selectedMailboxId _). set (email := ms_selectedEmailId _). cbv zeta. generalize s at 1 2.
  match goal with |- ∀ s, frame s (?f s).2 => change (frames f) end. unfold action_map. frames_actions.
Qed.
#[local] Hint Resolve frames_receive_mailboxes frames_receive_accounts frames_begin_initialize frames_begin_retry
  frames_mutation_ran frames_begin_flush : framing.

(** ** Claims *)

(** A step that adds one attempt. *)
Record claims (n : AttemptName) (p : nat) (s s' : Application) : Prop := {
  claims_free : attempt_of s n = None;
  claims_ok : attempts_ok s';
  claims_holder m q : attempt_of s' m = Some q ↔ attempt_of s m = Some q ∨ (m, q) = (n, p);
  claims_quiet m q : attempt_of s m = Some q → attempt_quiet m s s';
}.

Lemma claims_mild n p known s s' :
  claims n p s s' → task_locks s' = task_locks s ++ [(n, p, known)] → lasts n known → known s' →
  mild_move attempts_ok attempt_of attempt_quiet task_locks s s'.
Proof.
  intros [Hfree Hok Hh Hq] Ht Hl Hk. split_and!; [done| |].
  - intros m q Hm. split; [|by eapply Hq]. apply Hh. by left.
  - intros own. eapply Move_spawns; [done|done|done|]. split_and!; [|done|done]. apply Hh. by right.
Qed.

Lemma claims_step n p known s s' :
  claims n p s s' → task_locks s' = task_locks s → lasts n known → known s' →
  step_locks attempts_ok attempt_of attempt_quiet task_locks s s' None (Some (n, p, known)).
Proof.
  intros [Hfree Hok Hh Hq] Ht Hl Hk. split_and!; [done| | |].
  - by apply Move_claims.
  - intros m q Hm _. by eapply Hq.
  - intros h [= <-]. split_and!; [|done|done]. apply Hh. by right.
Qed.

(** What [claim_body] does to the screen before it records the attempt. *)
Definition body_begun (emailId : ScopedEmailId) (s : Application) : Application :=
  if negb installed.(has_bodyMaterializer) then finishBodyMaterialization emailId (Some load_unexpected) s
  else if isSelectedEmail emailId s
  then on_mail (setBodyMaterializing true) (on_mail (setBodyError None) s)
  else s.

Lemma body_begun_same emailId s :
  (body_begun emailId s).(controller) = s.(controller) ∧ (body_begun emailId s).(background) = s.(background) ∧
  (body_begun emailId s).(mail).(ms_refreshActivity) = s.(mail).(ms_refreshActivity) ∧
  (body_begun emailId s).(mail).(ms_selectedEmailId) = s.(mail).(ms_selectedEmailId).
Proof. unfold body_begun, finishBodyMaterialization. by repeat case_match. Qed.

Lemma finish_over emailId result s :
  s.(controller).(c_disposed) = false → body_known emailId s →
  body_over emailId (finishBodyMaterialization emailId result s).
Proof.
  intros Hd Hk [Hm Hsel]. unfold finishBodyMaterialization in *. rewrite Hd, orb_false_r in *.
  destruct (isSelectedEmail emailId s) eqn:He; cbn in Hm, Hsel.
  - destruct result as [kind|]; [|done]. destruct (bool_decide _); [done|]. cbn in Hm. by case_bool_decide.
  - assert (s.(mail).(ms_selectedEmailId) = Some emailId) as Hs by by apply Hk. apply selected_email in Hs. congruence.
Qed.

Lemma body_begun_spins emailId s key :
  spinning (body_begun emailId s) key →
  spinning s key ∨ s.(mail).(ms_selectedEmailId) = Some emailId ∧ key = body_key emailId.
Proof.
  intros [Hm Hsel]. destruct (body_begun_same emailId s) as (_ & _ & _ & Hsame). rewrite Hsame in Hsel.
  unfold body_begun in Hm. destruct (negb _).
  - left. split; [|done]. by apply (frame_finish emailId (Some load_unexpected) s).
  - destruct (isSelectedEmail emailId s) eqn:He; [right|by left]. apply selected_email in He.
    rewrite He in Hsel. split; [done|]. by injection Hsel.
Qed.

Lemma disposed_claim_body emailId : keeps is_disposed (claim_body installed emailId).
Proof.
  intros s Hd. unfold is_disposed, claim_body. destruct (map_get _ _); [done|]. cbv zeta.
  destruct (body_begun_same emailId (fresh_promise s)) as (Hc & _). unfold body_begun in Hc. cbn.
  rewrite Hc. exact Hd.
Qed.

Lemma claim_body_claims emailId s :
  attempts_ok s → attempt_of s (BodyAttempt (body_key emailId)) = None → s.(controller).(c_disposed) = false →
  let s' := (claim_body installed emailId s).2 in
  (claim_body installed emailId s).1 = Return (Started s.(next_promise)) ∧
  claims (BodyAttempt (body_key emailId)) s.(next_promise) s s' ∧
  task_locks s' = task_locks s ∧ body_knows emailId s'.
Proof.
  intros [Hspin Href Hwb Hwr] Hfree Hd. cbn in Hfree. unfold claim_body. rewrite Hfree. cbn zeta.
  fold (body_begun emailId (fresh_promise s)).
  destruct (body_begun_same emailId (fresh_promise s)) as (Hc & Hb & Hr & Hs).
  assert (∀ key, spinning (body_begun emailId (fresh_promise s)) key →
    spinning s key ∨ s.(mail).(ms_selectedEmailId) = Some emailId ∧ key = body_key emailId) as Hspin'.
  { exact (λ key, body_begun_spins emailId (fresh_promise s) key). }
  assert (¬ spinning s (body_key emailId)) as Hno.
  { intros Hsp. apply Hspin in Hsp as [p Hp]. cbn in Hp. congruence. }
  pose proof (finish_over emailId (Some load_unexpected) (fresh_promise s) Hd) as Hover.
  set (b := body_begun emailId (fresh_promise s)) in *. cbn [fst snd].
  split; [done|]. split_and!.
  - split.
    + done.
    + split.
      * intros key Hk. cbn. rewrite Hc. cbn. rewrite map_get_set. case_decide; [eauto|].
        destruct (Hspin' key Hk) as [Hk'|[_ ->]]; [by apply Hspin|done].
      * intros key Hk. cbn. rewrite Hc. apply Href. unfold refreshing in *. cbn in Hk. by rewrite Hr in Hk.
      * cbn. rewrite Hc. by apply map_wf_set.
      * cbn. by rewrite Hc.
    + intros m q. clear -Hc Hfree. destruct m as [| |key|key]; cbn; rewrite ?Hc; cbn; try naive_solver.
      rewrite map_get_set. case_decide as Hkey; [subst; rewrite Hfree; naive_solver|naive_solver].
    + intros m q Hm. destruct m as [| |key|key]; cbn in Hm |- *; try done.
      * rewrite Hc. split; [done|]. intros k. unfold refreshing. cbn. by rewrite Hr.
      * intros Hk. destruct (Hspin' key Hk) as [Hk'|[_ ->]]; [|congruence]. split; [done|]. by rewrite Hs.
  - unfold task_locks. cbn. by rewrite Hb.
  - unfold body_knows, b, body_begun in *. destruct (has_bodyMaterializer installed); cbn [negb] in *.
    + intros Hk. destruct (Hspin' _ Hk) as [?|[Hsel _]]; [done|]. cbn. by rewrite Hs.
    + apply Hover. intros ?. done.
Qed.

(** Run an action on a state. *)
Ltac run_action :=
  unfold mbind, action_mbind, action_bind, read, modify, mret, action_mret, begin_statuses, next_connection,
    next_refresh, next_generation, pure_step; cbn [fst snd].

Lemma claim_run_claims key id s :
  attempts_ok s → attempt_of s (RunAttempt (mutation_identity key id)) = None →
  let s' := (claim_run key id s).2 in
  (∃ generation, (claim_run key id s).1 = Return (Started (s.(next_promise), generation))) ∧
  claims (RunAttempt (mutation_identity key id)) s.(next_promise) s s' ∧ task_locks s' = task_locks s.
Proof.
  intros [Hspin Href Hwb Hwr] Hfree. cbn in Hfree. unfold claim_run. cbv zeta. rewrite Hfree. run_action.
  split; [by eexists|]. split; [|done]. split.
  - done.
  - split; [exact Hspin|exact Href|exact Hwb|]. by apply map_wf_set.
  - intros m q. destruct m as [| |k|k]; cbn; try naive_solver.
    rewrite map_get_set. case_decide as Hkey; [subst; rewrite Hfree; naive_solver|naive_solver].
  - intros m q Hm. by destruct m.
Qed.

Lemma claim_connection_claims target s :
  attempts_ok s → attempt_of s ConnectionAttempt = None →
  let s' := (claim_connection installed target s).2 in
  (∃ generation, (claim_connection installed target s).1 = Return (Started (s.(next_promise), generation))) ∧
  claims ConnectionAttempt s.(next_promise) s s' ∧ task_locks s' = task_locks s.
Proof.
  intros [Hspin Href Hwb Hwr] Hfree. cbn in Hfree. unfold claim_connection.
  destruct (c_activeConnectionAttempt _) as [[? ?]|] eqn:Hnone; [done|]. cbv zeta.
  destruct (negb _); run_action; (split; [by eexists|]; split; [|done]; split; cbn; try done;
    [by rewrite Hnone
    |intros m q; destruct m as [| |k|k]; cbn; rewrite ?Hnone; naive_solver
    |intros m q Hm; destruct m; cbn; try done; intros Hk; by split]).
Qed.

Definition refresh_knows (key : AccountKey) (generation : Z) (finished : option RemoteRefreshResult) :
    Application → Prop :=
  match finished with None => refresh_known key generation | Some _ => refresh_over end.

Lemma set_activity_refreshing key phase error s k :
  refreshing (set_activity key phase error s) k ↔
  if decide (key = k) then phase = phase_refreshing else refreshing s k.
Proof.
  unfold refreshing, set_activity. cbn. rewrite map_get_set. case_decide; [|done]. cbn.
  split; [by intros [= ->]|by intros ->].
Qed.

Lemma no_refresh s : attempts_ok s → attempt_of s RefreshAttempt = None → ∀ key, ¬ refreshing s key.
Proof. intros [_ Href _ _] Hfree key Hk. apply Href in Hk. cbn in Hfree. by destruct (c_activeRefreshAttempt _). Qed.

Lemma finish_refresh_over key generation result s :
  s.(controller).(c_disposed) = false → refresh_known key generation s →
  refresh_over (finishRefresh key generation result s).2.
Proof.
  intros Hd [Hg Hk] k Hr. unfold finishRefresh, isCurrentRefresh in Hr. rewrite Hd, Hg, Z.eqb_refl in Hr. cbn in Hr.
  apply set_activity_refreshing in Hr. case_decide as Hkey; [by case_bool_decide|]. by apply Hkey; symmetry; apply Hk.
Qed.

Lemma claim_refresh_claims key s :
  attempts_ok s → attempt_of s RefreshAttempt = None → s.(controller).(c_disposed) = false →
  let s' := (claim_refresh installed key s).2 in
  (∃ generation finished, (claim_refresh installed key s).1 = Return (Started (s.(next_promise), generation, finished)) ∧
     refresh_knows key generation finished s') ∧
  claims RefreshAttempt s.(next_promise) s s' ∧ task_locks s' = task_locks s.
Proof.
  intros Hok Hfree Hd. pose proof (no_refresh _ Hok Hfree) as Hno. destruct Hok as [Hspin Href Hwb Hwr].
  cbn in Hfree. unfold claim_refresh. destruct (c_activeRefreshAttempt _) as [[? ?]|] eqn:Hnone; [done|].
  set (g := (s.(controller).(c_refreshGeneration) + 1)%Z).
  set (s1 := set_activity key phase_refreshing None (on_controller (put_refreshGeneration g) s)).
  assert (refresh_known key g s1) as Hknown.
  { split; [done|]. intros k Hk. apply set_activity_refreshing in Hk. case_decide; [done|]. by destruct (Hno k). }
  pose proof (finish_refresh_over key _ (Some refresh_unexpected) s1 Hd Hknown) as Hover.
  assert (∀ s2, s2.(controller) = s1.(controller) → s2.(background) = s1.(background) →
    s2.(mail).(ms_bodyMaterializing) = s1.(mail).(ms_bodyMaterializing) →
    s2.(mail).(ms_selectedEmailId) = s1.(mail).(ms_selectedEmailId) →
    (∀ k, refreshing s2 k → k = key) →
    let s' := on_controller (put_activeRefreshAttempt (Some (key, s.(next_promise)))) (fresh_promise s2) in
    claims RefreshAttempt s.(next_promise) s s' ∧ task_locks s' = task_locks s) as Hclaims.
  { intros s2 Hc Hb Hm Hs Hk. cbn zeta. split; [|unfold task_locks; cbn; by rewrite Hb].
    assert (∀ k, spinning s2 k → spinning s k) as Hspin'.
    { intros k. unfold spinning. by rewrite Hm, Hs. }
    split.
    - cbn. by rewrite Hnone.
    - split; cbn; rewrite ?Hc; try done; [intros k Hk'; by apply Hspin, Hspin'|]. intros k Hk'. by rewrite (Hk k Hk').
    - intros m q. destruct m as [| |k|k]; cbn; rewrite ?Hc, ?Hnone; cbn; naive_solver.
    - intros m q Hmq. destruct m as [| |k|k]; cbn in Hmq |- *; [done|by rewrite Hnone in Hmq| |done].
      intros Hk'. split; [by apply Hspin'|done]. }
  destruct (negb _) eqn:Hremote; run_action.
  - assert (finishRefresh key g (Some refresh_unexpected) s1 =
      (Return (Some refresh_unexpected), set_activity key phase_error (Some refresh_unexpected) s1)) as Hfinish.
    { unfold finishRefresh, isCurrentRefresh. cbn. by rewrite Hd, Z.eqb_refl. }
    fold g. fold s1. rewrite Hfinish in Hover |- *. cbn [fst snd] in *. split.
    + exists g, (Some (Some refresh_unexpected)). split; [done|exact Hover].
    + apply Hclaims; try done. intros k Hk. by destruct (Hover k).
  - split; [|apply Hclaims; try done; apply Hknown]. exists g, None. split; [done|]. split; [done|apply Hknown].
Qed.

(** *** Tasks *)

Lemma demand_mild emailId : is_mild (demandSelectedBody installed emailId).
Proof.
  intros s Hok. unfold demandSelectedBody. destruct (_ || _); [right; by apply frame_mild, frame_refl|].
  destruct (c_disposed s.(controller)) eqn:Hd.
  { left. pose proof (disposed_claim_body emailId s Hd) as Hd'. run_action.
    by destruct (claim_body installed emailId s) as [[[]|] ?]. }
  right. destruct (attempt_of s (BodyAttempt (body_key emailId))) as [p|] eqn:Hfree.
  - cbn in Hfree. run_action. unfold claim_body. rewrite Hfree. by apply frame_mild, frame_refl.
  - pose proof (claim_body_claims emailId s Hok Hfree Hd) as (Hr & Hclaims & Ht & Hk). cbn zeta in *.
    run_action. destruct (claim_body installed emailId s) as [r s'] eqn:Hcl. cbn in Hr, Hclaims, Ht, Hk. subst r.
    cbn [fst snd]. apply (claims_mild (BodyAttempt (body_key emailId)) s.(next_promise) (body_knows emailId)).
    + by destruct Hclaims as [H1 [? ? ? ?] H3 H4].
    + unfold task_locks, spawn in *. cbn. rewrite omap_app, Ht. done.
    + apply body_knows_lasts.
    + clear -Hk. unfold body_knows in *. by destruct (has_bodyMaterializer installed).
Qed.

Lemma demand_disposed emailId : keeps is_disposed (demandSelectedBody installed emailId).
Proof.
  intros s Hd. unfold demandSelectedBody. destruct (_ || _); [done|]. revert s Hd.
  apply (keeps_bind is_disposed); [apply disposed_claim_body|]. intros []; [apply keeps_modify; intros s Hd; exact Hd|apply keeps_return..].
Qed.
Lemma track_disposed m : keeps is_disposed (trackStagedMutation m).
Proof.
  unfold trackStagedMutation. cbv zeta. apply keeps_bind; [intros s Hd; exact Hd|]. intros g.
  apply keeps_bind; [apply keeps_modify; intros s Hd; exact Hd|]. intros _. apply keeps_bind.
  - intros s Hd. unfold claim_run. by destruct (map_get _ _).
  - intros [[]| |]; [by apply keeps_modify|apply keeps_return..].
Qed.

Lemma track_mild m : is_mild (trackStagedMutation m).
Proof.
  intros s Hok. right. set (key := mutation_accountKey m). set (id := mutation_id m).
  unfold trackStagedMutation. cbv zeta. fold key id.
  destruct (begin_statuses key s) as [r1 s1] eqn:H1. injection H1 as <- <-. run_action.
  set (s2 := spawn _ _). assert (frame s s2) as Hframe.
  { split; try done. unfold task_locks, s2, spawn. cbn. by rewrite omap_app, app_nil_r. }
  pose proof (frame_mild s s2 Hok Hframe) as (Hok2 & Hq2 & _).
  destruct (attempt_of s2 (RunAttempt (mutation_identity key id))) as [p|] eqn:Hfree.
  - unfold attempt_of in Hfree. unfold claim_run. cbv zeta. rewrite Hfree. by apply frame_mild.
  - pose proof (claim_run_claims key id s2 Hok2 Hfree) as ([g Hr] & Hclaims & Ht). cbn zeta in *.
    destruct (claim_run key id s2) as [r s3] eqn:Hcl. cbn in Hr, Hclaims, Ht. subst r. cbn [fst snd].
    apply (claims_mild (RunAttempt (mutation_identity key id)) s2.(next_promise) nothing_known); [| |done|done].
    + by destruct Hclaims as [Hf [? ? ? ?] Hh Hq].
    + unfold task_locks, spawn in *. cbn. rewrite omap_app, Ht. f_equal. apply (frame_tasks _ _ Hframe).
Qed.

(** ** Releases *)

Record releases (n : AttemptName) (p : nat) (s s' : Application) : Prop := {
  releases_ok : attempts_ok s';
  releases_holder m q : attempt_of s' m = Some q ↔ attempt_of s m = Some q ∧ (m, q) ≠ (n, p);
  releases_quiet m : attempt_quiet m s s';
  releases_tasks : task_locks s' = task_locks s;
}.

Lemma releases_step n p known s s' :
  releases n p s s' → step_locks attempts_ok attempt_of attempt_quiet task_locks s s' (Some (n, p, known)) None.
Proof. intros [Hok Hh Hq Ht]. split_and!; [done|by apply Move_releases|by intros|done]. Qed.

Lemma release_body_releases emailId p s :
  attempts_ok s → attempt_of s (BodyAttempt (body_key emailId)) = Some p → body_over emailId s →
  releases (BodyAttempt (body_key emailId)) p s (release_body emailId p s).
Proof.
  intros [Hspin Href Hwb Hwr] Hp Hover. cbn in Hp.
  assert (release_body emailId p s = on_controller (put_bodyMaterializationAttempts
    (map_delete (body_key emailId) s.(controller).(c_bodyMaterializationAttempts))) s) as ->.
  { unfold release_body, on_controller. cbv zeta. by rewrite bool_decide_eq_true_2. }
  split; try done.
  - split; try done; [|by apply map_wf_delete].
    intros key Hk. cbn. rewrite map_get_delete by done. case_decide; [|by apply Hspin]. subst. by destruct Hover.
  - intros m q. destruct m as [| |k|k]; cbn; try naive_solver.
    rewrite map_get_delete by done. case_decide; naive_solver.
  - by intros [].
Qed.

Lemma release_run_releases key id p s :
  attempts_ok s → attempt_of s (RunAttempt (mutation_identity key id)) = Some p →
  releases (RunAttempt (mutation_identity key id)) p s (release_run key id p s).
Proof.
  intros [Hspin Href Hwb Hwr] Hp. cbn in Hp.
  assert (release_run key id p s = on_controller (put_activeMutationRuns
    (map_delete (mutation_identity key id) s.(controller).(c_activeMutationRuns))) s) as ->.
  { unfold release_run, on_controller. cbv zeta. by rewrite bool_decide_eq_true_2. }
  split; try done.
  - split; try done. by apply map_wf_delete.
  - intros m q. destruct m as [| |k|k]; cbn; try naive_solver.
    rewrite map_get_delete by done. case_decide; naive_solver.
  - by intros [].
Qed.

Lemma release_connection_releases p s :
  attempts_ok s → attempt_of s ConnectionAttempt = Some p → releases ConnectionAttempt p s (release_connection p s).
Proof.
  intros [Hspin Href Hwb Hwr] Hp. cbn in Hp.
  assert (release_connection p s = on_controller (put_activeConnectionAttempt None) s) as ->.
  { unfold release_connection, on_controller. destruct (c_activeConnectionAttempt _) as [[target q]|]; [|done].
    injection Hp as ->. by rewrite bool_decide_eq_true_2. }
  split; try done; [|by intros []]. intros m q. destruct m as [| |k|k]; cbn; naive_solver.
Qed.

Lemma release_refresh_releases p s :
  attempts_ok s → attempt_of s RefreshAttempt = Some p → refresh_over s →
  releases RefreshAttempt p s (release_refresh p s).
Proof.
  intros [Hspin Href Hwb Hwr] Hp Hover. cbn in Hp.
  assert (release_refresh p s = on_controller (put_activeRefreshAttempt None) s) as ->.
  { unfold release_refresh, on_controller. destruct (c_activeRefreshAttempt _) as [[key q]|]; [|done].
    injection Hp as ->. by rewrite bool_decide_eq_true_2. }
  split; try done; [|  |by intros []].
  - split; try done. intros k Hk. by destruct (Hover k).
  - intros m q. destruct m as [| |k|k]; cbn; naive_solver.
Qed.

(** ** The attempts *)

Section body.
Context (emailId : ScopedEmailId) (p : nat).
Let own := Some (body_lock emailId p (body_known emailId)).
Let over := Some (body_lock emailId p (body_over emailId)).

Lemma finish_learns s result :
  attempts_ok s → aware attempts_ok attempt_of attempt_quiet task_locks own s →
  s.(controller).(c_disposed) = false →
  step_locks attempts_ok attempt_of attempt_quiet task_locks s (finishBodyMaterialization emailId result s) own over.
Proof.
  intros Hok Hown Hd. destruct (Hown _ (or_introl eq_refl)) as (Hp & Hk & _). pose proof (frame_finish emailId result s) as Hf.
  destruct (frame_mild _ _ Hok Hf) as (Hok' & Hq & _). split_and!; [done| |by intros m q Hm _; eapply Hq|].
  - apply Move_learns; [apply (frame_tasks _ _ Hf)|apply (frame_attempts _ _ Hf)].
  - intros h [= <-]. split_and!; [by eapply Hq|by apply finish_over|apply body_over_lasts].
Qed.

Lemma finish_disposed s result :
  s.(controller).(c_disposed) = true → finishBodyMaterialization emailId result s = s.
Proof. intros Hd. unfold finishBodyMaterialization. by rewrite Hd, orb_true_r. Qed.

Lemma locked_finish result (Q : outcome exn BodyLoadResult → option held_lock → Prop) :
  (∀ r, Q (Return r) over) → locked (atomically (finish_body emailId result)) own Q.
Proof.
  intros HQ. apply locking_atomic. intros s Hok Hown. cbn.
  destruct (c_disposed s.(controller)) eqn:Hd; [left; by rewrite finish_disposed|right].
  exists over. split; [by apply finish_learns|done].
Qed.

Lemma locked_failed error (Q : outcome exn BodyLoadResult → option held_lock → Prop) :
  (∀ r, Q r over) → locked (atomically (failed_body emailId error)) own Q.
Proof.
  intros HQ. apply locking_atomic. intros s Hok Hown. unfold failed_body.
  destruct (c_disposed s.(controller)) eqn:Hd; [by left|right].
  exists over. split; [by apply finish_learns|done].
Qed.

Lemma gently_body_from lock selected : gently lock (body_from selected).
Proof.
  unfold body_from, port. destruct selected as [[e g]|]; [|apply gentle_ret].
  apply gentle_bind; [by apply gentle_outside|]. intros result. apply gentle_frames, frames_receive_body.
Qed.

Lemma materialization_locked (Q : outcome exn BodyLoadResult → option held_lock → Prop) :
  installed.(has_bodyMaterializer) = true → (∀ r, Q r over) →
  locked (performBodyMaterialization installed emailId) own Q.
Proof.
  intros Hhas HQ. unfold performBodyMaterialization. rewrite Hhas. cbn [negb]. apply locking_try.
  assert (∀ e, locked (atomically (failed_body emailId e)) own Q) as Hfailed by (intros; by apply locked_failed).
  apply locking_bind, locking_outside; [intros n [= <-]; by eexists _, _|]. intros [[]|e]; [|apply Hfailed].
  apply locking_bind, locking_atomic. intros s Hok Hown. unfold materialized_body.
  destruct (c_disposed s.(controller)) eqn:Hd; [by left|right]. destruct (isSelectedEmail emailId s).
  - exists own. split.
    + apply mild_step; [done|done|]. apply frame_mild; [done|]. apply frames_bind; [apply frames_begin_body|].
      intros. apply frames_return.
    + unfold mbind, action_mbind, action_bind. destruct (begin_body s) as [[selected|e] s'] eqn:Hb; cbn; [|apply Hfailed].
      apply locking_bind, gentle_locking; [apply gently_body_from|]. intros [reread|e]; [|apply Hfailed].
      by apply locked_finish.
  - exists over. split; [by apply finish_learns|]. cbn. apply HQ.
Qed.

Lemma release_body_locked (r : outcome exn BodyLoadResult) :
  locked (atomically (modify (release_body emailId p))) over
    (λ done own', match done with Return _ => ends_free r own' | Throw _ => False end).
Proof.
  apply locking_atomic. intros s Hok Hown. right. exists None. split; [|done].
  destruct (Hown _ (or_introl eq_refl)) as (Hq & Hover & _). by apply releases_step, release_body_releases.
Qed.

Lemma body_attempt_locked :
  locked (body_attempt installed emailId p) (Some (body_lock emailId p (body_knows emailId))) ends_free.
Proof.
  apply locking_finally. unfold body_knows. destruct (has_bodyMaterializer installed) eqn:Hhas.
  - apply materialization_locked; [done|]. intros r. apply release_body_locked.
  - unfold performBodyMaterialization. rewrite Hhas. apply release_body_locked.
Qed.
End body.

(** *** Methods without attempts of their own *)

Create HintDb gentling.
#[local] Hint Resolve gentle_ret gentle_raise gentle_outcome gently_body_from demand_mild track_mild demand_disposed
  track_disposed : gentling.

Ltac gently_go :=
  repeat first
    [ solve [eauto with gentling]
    | apply gentle_outside; solve [by intros | by intros ? [= <-]]
    | apply gentle_bind; [|intros ?]
    | apply gentle_try; [|intros ?]
    | apply gentle_attempt
    | apply gentle_atomic; solve [eauto with gentling]
    | apply gentle_frames; solve [frames_actions]
    | match goal with
      | |- gentle _ _ _ _ _ _ _ (match ?x with _ => _ end) => destruct x
      | |- gentle _ _ _ _ _ _ _ (if ?x then _ else _) => destruct x
      end ].

Section methods.
Context (lock : option AttemptName).

Lemma gently_statuses_from key generation : gently lock (statuses_from key generation).
Proof. unfold statuses_from, port. gently_go. Qed.
#[local] Hint Resolve gently_statuses_from : gentling.
Lemma gently_refreshMutationStatuses key : gently lock (refreshMutationStatuses key).
Proof. unfold refreshMutationStatuses. gently_go. Qed.
#[local] Hint Resolve gently_refreshMutationStatuses : gentling.
Lemma gently_window_from selected : gently lock (window_from installed selected).
Proof. unfold window_from, port. gently_go. Qed.
#[local] Hint Resolve gently_window_from : gentling.
Lemma gently_mailboxes_from selected : gently lock (mailboxes_from installed selected).
Proof. unfold mailboxes_from, port. gently_go. Qed.
#[local] Hint Resolve gently_mailboxes_from : gentling.
Lemma gently_accounts_from generation : gently lock (accounts_from installed generation).
Proof. unfold accounts_from, port. gently_go. Qed.
#[local] Hint Resolve gently_accounts_from : gentling.
Lemma gently_refreshAccounts : gently lock (refreshAccounts installed).
Proof. unfold refreshAccounts. gently_go. Qed.
#[local] Hint Resolve gently_refreshAccounts : gentling.
Lemma gently_read_everything text generation : gently lock (read_everything installed text generation).
Proof.
  unfold read_everything, change. gently_go.
  apply gentle_frames, frames_modify. intros s. destruct text; trivial_frame.
Qed.
#[local] Hint Resolve gently_read_everything : gentling.
Lemma gently_initialize : gently lock (initialize installed).
Proof. unfold initialize, change. gently_go. Qed.
#[local] Hint Resolve gently_initialize : gentling.
Lemma gently_flush : gently lock (flushInvalidations installed).
Proof. unfold flushInvalidations, reread_from, change. gently_go. Qed.
End methods.
#[local] Hint Resolve gently_statuses_from gently_refreshMutationStatuses gently_window_from gently_mailboxes_from
  gently_accounts_from gently_refreshAccounts gently_read_everything gently_initialize gently_flush : gentling.

(** *** The other attempts *)

Lemma gently_forget ref : gently (Some ConnectionAttempt) (forget_credential ref).
Proof. unfold forget_credential. gently_go. Qed.
#[local] Hint Resolve gently_forget : gentling.
Lemma gently_config request existing key generation :
  gently (Some ConnectionAttempt) (connection_config installed request existing key generation).
Proof. unfold connection_config, look. gently_go. Qed.
#[local] Hint Resolve gently_config : gentling.
Lemma gently_connect_and_reread request credential notifies generation :
  gently (Some ConnectionAttempt) (connect_and_reread installed request credential notifies generation).
Proof. unfold connect_and_reread, look, change. cbv zeta. gently_go. Qed.
#[local] Hint Resolve gently_connect_and_reread : gentling.
Lemma gently_performAccountConnection request notifies reconnect generation :
  gently (Some ConnectionAttempt) (performAccountConnection installed request notifies reconnect generation).
Proof.
  unfold performAccountConnection, look, change, port. gently_go.
  apply gentle_frames, frames_modify. intros s.
  destruct (_ || _); [apply frame_observe|apply frame_refl].
Qed.

Lemma connection_attempt_locked request notifies reconnect generation p known :
  locked (prog_finally (performAccountConnection installed request notifies reconnect generation) (release_connection p))
    (Some (ConnectionAttempt, p, known)) ends_free.
Proof.
  apply locking_finally, gentle_locking; [apply gently_performAccountConnection|]. intros r.
  apply locking_atomic. intros s Hok Hown. right. exists None. split; [|done].
  destruct (Hown _ (or_introl eq_refl)) as (Hq & _). by apply releases_step, release_connection_releases.
Qed.

Lemma gently_performMutationRun key id generation :
  gently (Some (RunAttempt (mutation_identity key id))) (performMutationRun installed key id generation).
Proof. unfold performMutationRun, look, change. cbv zeta. gently_go. Qed.

Lemma run_attempt_locked key id p generation :
  locked (run_attempt installed key id p generation) (Some (run_lock key id p)) ends_free.
Proof.
  apply locking_finally, gentle_locking; [apply gently_performMutationRun|]. intros r.
  apply locking_atomic. intros s Hok Hown. right. exists None. split; [|done].
  destruct (Hown _ (or_introl eq_refl)) as (Hq & _). by apply releases_step, release_run_releases.
Qed.

Lemma finish_refresh_learns key generation result p (Q : outcome exn RemoteRefreshResult → option held_lock → Prop) :
  (∀ r, Q (Return r) (Some (RefreshAttempt, p, refresh_over))) →
  locked (atomically (finishRefresh key generation result)) (Some (RefreshAttempt, p, refresh_known key generation)) Q.
Proof.
  intros HQ. apply locking_atomic. intros s Hok Hown. destruct (Hown _ (or_introl eq_refl)) as (Hp & Hk & _).
  destruct (c_disposed s.(controller)) eqn:Hd.
  { left. unfold finishRefresh. destruct (negb _); exact Hd. }
  right. pose proof (finish_refresh_over key generation result s Hd Hk) as Hover.
  assert (frame s (finishRefresh key generation result s).2) as Hf.
  { unfold finishRefresh. destruct (negb _); [apply frame_refl|]. split; try done.
    intros k Hr. apply set_activity_refreshing in Hr. case_decide; [by case_bool_decide|done]. }
  destruct (frame_mild _ _ Hok Hf) as (Hok' & Hq & _). exists (Some (RefreshAttempt, p, refresh_over)). split.
  - split_and!; [done| |by intros m q Hm _; eapply Hq|].
    + apply Move_learns; [apply (frame_tasks _ _ Hf)|apply (frame_attempts _ _ Hf)].
    + intros h [= <-]. split_and!; [by eapply Hq|done|apply refresh_over_lasts].
  - assert (∃ r, (finishRefresh key generation result s).1 = Return r) as [r ->]; [|apply HQ].
    unfold finishRefresh. destruct (negb _); by eexists.
Qed.

Lemma refresh_attempt_locked key generation finished p :
  locked (prog_finally (performRefresh key generation finished) (release_refresh p))
    (Some (RefreshAttempt, p, refresh_knows key generation finished)) ends_free.
Proof.
  apply locking_finally.
  assert (∀ r : outcome exn RemoteRefreshResult,
    locked (atomically (modify (release_refresh p))) (Some (RefreshAttempt, p, refresh_over))
      (λ done own', match done with Return _ => ends_free r own' | Throw _ => False end)) as Hrelease.
  { intros r. apply locking_atomic. intros s Hok Hown. right. exists None. split; [|done].
    destruct (Hown _ (or_introl eq_refl)) as (Hq & Hover & _). by apply releases_step, release_refresh_releases. }
  unfold performRefresh. destruct finished as [result|]; [apply Hrelease|].
  apply locking_try, locking_bind, locking_outside; [intros n [= <-]; by eexists _, _|].
  intros [[]|e]; apply finish_refresh_learns; intros r; apply Hrelease.
Qed.

(** ** Every method *)

(** A lock nobody takes. *)
Lemma locked_gently {A} (p : app A) : gently None p → locked p None ends_free.
Proof. intros Hp. by apply gentle_locking. Qed.

Lemma starts_locked {A} (p : app A) : locked p None ends_free → locked (starts p) None ends_free.
Proof.
  intros Hp. apply locking_bind. eapply locking_mono; [|exact Hp]. by intros [a|e] own.
Qed.

Lemma settled_locked {A B} (p : app A) (f : A → B) own :
  locked p own ends_free → locked (r ← p; Ret (f r)) own ends_free.
Proof. intros Hp. apply locking_bind. eapply locking_mono; [|exact Hp]. by intros [a|e] own'. Qed.

Lemma forgotten_locked {A} (p : app A) own : locked p own ends_free → locked (attempt p;; Ret tt) own ends_free.
Proof. intros Hp. apply locking_bind, locking_attempt. eapply locking_mono; [|exact Hp]. by intros [a|e] own'. Qed.

(** An attempt that is found running, or refused. *)
Lemma stays_put {X} (f : act X) s :
  attempts_ok s → aware attempts_ok attempt_of attempt_quiet task_locks None s → frame s (f s).2 →
  step_locks attempts_ok attempt_of attempt_quiet task_locks s (f s).2 None None.
Proof. intros Hok Hown Hf. by apply mild_step; [| |apply frame_mild]. Qed.

Lemma materializeBody_locked emailId : locked (materializeBody installed emailId) None ends_free.
Proof.
  apply locking_bind, locking_atomic. intros s Hok Hown.
  destruct (c_disposed s.(controller)) eqn:Hd; [left; by apply disposed_claim_body|right].
  destruct (attempt_of s (BodyAttempt (body_key emailId))) as [q|] eqn:Hq.
  - exists None. cbn in Hq. assert (claim_body installed emailId s = (Return (Joins q), s)) as Hc.
    { unfold claim_body. by rewrite Hq. }
    split; [apply stays_put; [done|done|rewrite Hc; apply frame_refl]|]. by rewrite Hc.
  - destruct (claim_body_claims emailId s Hok Hq Hd) as (Hr & Hclaims & Ht & Hk).
    exists (Some (body_lock emailId s.(next_promise) (body_knows emailId))). rewrite Hr. split.
    + by apply claims_step; [| |apply body_knows_lasts|].
    + apply settled_locked, body_attempt_locked.
Qed.

Lemma runMutation_locked key id : locked (runMutation installed key id) None ends_free.
Proof.
  apply locking_bind, locking_atomic. intros s Hok Hown. right.
  destruct (attempt_of s (RunAttempt (mutation_identity key id))) as [q|] eqn:Hq.
  - exists None. cbn in Hq. assert (claim_run key id s = (Return (Joins q), s)) as Hc.
    { unfold claim_run. cbv zeta. by rewrite Hq. }
    split; [apply stays_put; [done|done|rewrite Hc; apply frame_refl]|]. by rewrite Hc.
  - destruct (claim_run_claims key id s Hok Hq) as ((g & Hr) & Hclaims & Ht).
    exists (Some (run_lock key id s.(next_promise))). rewrite Hr. split; [by apply claims_step|].
    apply settled_locked, run_attempt_locked.
Qed.

Lemma connection_locked target request notifies :
  locked (startAccountConnection installed target request notifies) None ends_free.
Proof.
  apply locking_bind, locking_atomic. intros s Hok Hown. right.
  destruct (attempt_of s ConnectionAttempt) as [q|] eqn:Hq.
  - exists None. cbn in Hq. destruct (c_activeConnectionAttempt _) as [[active q']|] eqn:Ha; [|done].
    assert (∃ claim, claim_connection installed target s = (Return claim, s) ∧ (claim = Joins q' ∨ claim = Refused))
      as (claim & Hc & Hclaim).
    { unfold claim_connection. rewrite Ha. destruct (bool_decide _); eauto. }
    split; [apply stays_put; [done|done|rewrite Hc; apply frame_refl]|]. rewrite Hc. by destruct Hclaim as [-> | ->].
  - destruct (claim_connection_claims target s Hok Hq) as ((g & Hr) & Hclaims & Ht).
    exists (Some (ConnectionAttempt, s.(next_promise), nothing_known)). rewrite Hr. split; [by apply claims_step|].
    apply settled_locked, connection_attempt_locked.
Qed.

Lemma refused_refresh key s :
  is_Some (attempt_of s RefreshAttempt) →
  frame s (claim_refresh installed key s).2 ∧
  ∃ claim, (claim_refresh installed key s).1 = Return claim ∧ (claim = Refused ∨ ∃ q, claim = Joins q).
Proof.
  intros [q Hq]. cbn in Hq. unfold claim_refresh. destruct (c_activeRefreshAttempt _) as [[active q']|] eqn:Ha; [|done].
  destruct (bool_decide _); (split; [|eauto]); [apply frame_refl|].
  split; try done. intros k Hr. apply set_activity_refreshing in Hr. by case_decide.
Qed.

Lemma disposed_claim_refresh key : keeps is_disposed (claim_refresh installed key).
Proof.
  intros s Hd. unfold claim_refresh. destruct (c_activeRefreshAttempt _) as [[? ?]|]; [by destruct (bool_decide _)|].
  run_action. unfold finishRefresh. destruct (negb _); [|exact Hd]. by destruct (negb _).
Qed.

Lemma refreshAccount_locked key : locked (refreshAccount installed key) None ends_free.
Proof.
  apply locking_bind, locking_atomic. intros s Hok Hown.
  destruct (c_disposed s.(controller)) eqn:Hd; [left; by apply disposed_claim_refresh|right].
  destruct (attempt_of s RefreshAttempt) as [q|] eqn:Hq.
  - exists None. destruct (refused_refresh key s) as (Hf & claim & Hr & Hclaim); [by rewrite Hq|].
    split; [by apply stays_put|]. rewrite Hr. by destruct Hclaim as [->|[? ->]].
  - destruct (claim_refresh_claims key s Hok Hq Hd) as ((g & finished & Hr & Hk) & Hclaims & Ht).
    exists (Some (RefreshAttempt, s.(next_promise), refresh_knows key g finished)). rewrite Hr. split.
    + apply claims_step; [done|done| |done]. destruct finished; [apply refresh_over_lasts|apply refresh_known_lasts].
    + apply settled_locked, refresh_attempt_locked.
Qed.

(** A task is taken from the background with its lock. *)
Lemma take_frame i s : frame s (put_background (delete i s.(background)) s) ∨
  ∃ task h, s.(background) !! i = Some task ∧ task_lock task = Some h ∧
    task_locks s ≡ₚ h :: task_locks (put_background (delete i s.(background)) s).
Proof.
  destruct (s.(background) !! i) as [task|] eqn:Hi.
  - destruct (task_lock task) as [h|] eqn:Hh.
    + right. exists task, h. split_and!; [done|done|]. unfold task_locks. cbn.
      rewrite (delete_Permutation _ _ _ Hi) at 1. cbn. by rewrite Hh.
    + left. split; try done. unfold task_locks. cbn.
      rewrite delete_take_drop. rewrite <- (take_drop_middle _ _ _ Hi) at 3. rewrite !omap_app. cbn. by rewrite Hh.
  - left. split; try done. unfold task_locks. cbn. rewrite delete_take_drop.
    apply lookup_ge_None in Hi. rewrite take_ge, drop_ge, app_nil_r by lia. done.
Qed.

Lemma background_locked task h : task_lock task = Some h → locked (run_background installed task) (Some h) ends_free.
Proof.
  destruct task as [|e p|k g|k id p g]; intros [= <-]; unfold run_background; apply forgotten_locked; [apply body_attempt_locked|apply run_attempt_locked].
Qed.
Lemma background_gently task : task_lock task = None → gently None (run_background installed task).
Proof. destruct task; intros Hn; try done; unfold run_background; gently_go. Qed.

Lemma run_task_locked i : locked (run_task installed i) None ends_free.
Proof.
  apply locking_bind, locking_atomic. intros s Hok Hown. right. cbn [take_task fst snd].
  destruct (take_frame i s) as [Hf|(task & h & Hi & Hh & Hp)].
  - destruct (s.(background) !! i) as [task|] eqn:Hi.
    + destruct (task_lock task) as [h|] eqn:Hh.
      * exfalso. pose proof (frame_tasks _ _ Hf) as Hsame. unfold task_locks in Hsame. cbn in Hsame.
        pose proof (omap_Permutation task_lock _ _ (delete_Permutation _ _ _ Hi)) as Hperm. cbn in Hperm.
        rewrite Hh, Hsame in Hperm. apply Permutation_length in Hperm. cbn in Hperm. lia.
      * exists None. split; [by apply (stays_put (take_task i))|].
        by apply locked_gently, background_gently.
    + exists None. by split; [apply (stays_put (take_task i))|].
  - exists (Some h). rewrite Hi. split; [|by apply background_locked].
    set (s' := put_background _ s) in *. assert (holds attempts_ok attempt_of attempt_quiet h s) as Hholds.
    { apply Hown. right. rewrite Hp. by left. }
    destruct Hok as [Hspin Href Hwb Hwr]. split_and!.
    + by split.
    + apply Move_takes; [done|]. by intros [].
    + intros n p Hn _. by destruct n.
    + intros h' [= <-]. destruct task as [|e p|k g|k id p g]; try discriminate Hh; injection Hh as <-; cbn in Hholds |- *.
      * destruct Hholds as (H1 & H2 & H3). split_and!; [done| |done]. unfold body_knows in *.
        by destruct (has_bodyMaterializer installed).
      * destruct Hholds as (H1 & H2 & H3). by split_and!.
Qed.

Lemma dispose_locked : locked dispose None ends_free.
Proof.
  apply locking_bind, locking_atomic. intros s _ _. left. unfold disposed_fields. run_action.
  by destruct (c_remoteStatusUnsubscribe _).
Qed.

(** *** A disposed controller stays so *)

Abbreviation stays_disposed := (method_keeps is_disposed).

Lemma disposed_gently lock {A} (p : app A) : gently lock p → stays_disposed p.
Proof. apply gentle_keeps. Qed.

Lemma disposed_claim_run key id : keeps is_disposed (claim_run key id).
Proof. intros s Hd. unfold claim_run. by destruct (map_get _ _). Qed.
Lemma disposed_claim_connection target : keeps is_disposed (claim_connection installed target).
Proof.
  intros s Hd. unfold claim_connection. destruct (c_activeConnectionAttempt _) as [[? ?]|]; [done|]. cbv zeta.
  by destruct (negb _).
Qed.
Lemma disposed_release_body emailId p s : is_disposed s → is_disposed (release_body emailId p s).
Proof. intros Hd. unfold release_body, is_disposed. cbn. by destruct (bool_decide _). Qed.
Lemma disposed_release_run key id p s : is_disposed s → is_disposed (release_run key id p s).
Proof. intros Hd. unfold release_run, is_disposed. cbn. by destruct (bool_decide _). Qed.
Lemma disposed_release_connection p s : is_disposed s → is_disposed (release_connection p s).
Proof.
  intros Hd. unfold release_connection, is_disposed. cbn.
  destruct (c_activeConnectionAttempt _) as [[? ?]|]; [by destruct (bool_decide _)|done].
Qed.
Lemma disposed_release_refresh p s : is_disposed s → is_disposed (release_refresh p s).
Proof.
  intros Hd. unfold release_refresh, is_disposed. cbn.
  destruct (c_activeRefreshAttempt _) as [[? ?]|]; [by destruct (bool_decide _)|done].
Qed.
Lemma disposed_materialized emailId : keeps is_disposed (materialized_body emailId).
Proof.
  intros s Hd. unfold materialized_body. by rewrite Hd.
Qed.
Lemma disposed_failed emailId e : keeps is_disposed (failed_body emailId e).
Proof. intros s Hd. unfold failed_body. by rewrite Hd. Qed.
Lemma disposed_finishRefresh key g result : keeps is_disposed (finishRefresh key g result).
Proof. intros s Hd. unfold finishRefresh. destruct (negb _); exact Hd. Qed.
Lemma disposed_finish emailId result : keeps is_disposed (finish_body emailId result).
Proof. apply frames_disposed, frames_finish_body. Qed.

Create HintDb disposing.
#[local] Hint Resolve disposed_claim_run disposed_claim_connection disposed_claim_body disposed_claim_refresh
  disposed_release_body disposed_release_run disposed_release_connection disposed_release_refresh
  disposed_materialized disposed_failed disposed_finishRefresh disposed_finish : disposing.

Ltac keep_disposed :=
  repeat first
    [ solve [eauto with keeping disposing]
    | apply method_finally; [|solve [eauto with disposing]]
    | apply method_bind; [|intros ?]
    | apply method_try; [|intros ?]
    | apply method_attempt
    | apply method_atomic; solve [eauto with disposing]
    | match goal with
      | |- method_keeps _ (match ?x with _ => _ end) => destruct x
      | |- method_keeps _ (if ?x then _ else _) => destruct x
      end ].

Lemma disposed_body_from selected : stays_disposed (body_from selected).
Proof. apply (disposed_gently None), gently_body_from. Qed.
#[local] Hint Resolve disposed_body_from : disposing.
Lemma disposed_body_attempt emailId p : stays_disposed (body_attempt installed emailId p).
Proof. unfold body_attempt, performBodyMaterialization. keep_disposed. Qed.
Lemma disposed_run_attempt key id p g : stays_disposed (run_attempt installed key id p g).
Proof.
  apply method_finally; [|eauto with disposing].
  apply (disposed_gently (Some (RunAttempt (mutation_identity key id)))), gently_performMutationRun.
Qed.
Lemma disposed_connection request notifies reconnect g : stays_disposed (performAccountConnection installed request notifies reconnect g).
Proof. apply (disposed_gently (Some ConnectionAttempt)), gently_performAccountConnection. Qed.
#[local] Hint Resolve disposed_body_attempt disposed_run_attempt disposed_connection : disposing.

Lemma disposed_task i : stays_disposed (run_task installed i).
Proof.
  unfold run_task. apply method_bind; [apply method_atomic; by intros s Hd|]. intros [task|]; [|apply method_ret].
  destruct (task_lock task) as [h|] eqn:Hh; [|by apply (disposed_gently None), background_gently].
  destruct task; try done; unfold run_background; keep_disposed.
Qed.

(** Every method keeps to the protocol of the attempts. *)
Definition protocol {A} (p : app A) : Prop := locked p None ends_free ∧ stays_disposed p.

Lemma gently_protocol {A} (p : app A) : gently None p → protocol p.
Proof. intros Hp. split; [by apply locked_gently|by eapply disposed_gently]. Qed.

Lemma starts_protocol {A} (p : app A) : protocol p → protocol (starts p).
Proof.
  intros [Hl Hd]. split; [by apply starts_locked|]. apply method_bind; [done|]. intros. apply method_ret.
Qed.

Lemma method_protocol p : controller_method installed p → protocol p.
Proof.
  intros Hp. destruct Hp; unfold change.
  - apply gently_protocol, gently_initialize.
  - apply gently_protocol. unfold retry. gently_go.
  - split; [apply dispose_locked|]. unfold dispose. apply method_bind; [|intros; keep_disposed].
    apply method_atomic. intros s _. unfold disposed_fields. run_action. by destruct (c_remoteStatusUnsubscribe _).
  - apply gently_protocol. unfold selectAccount. gently_go.
  - apply gently_protocol. unfold selectMailbox. gently_go.
  - apply gently_protocol. unfold selectEmail. gently_go.
  - apply starts_protocol. split; [apply connection_locked|]. unfold connectAccount, startAccountConnection. keep_disposed.
  - apply starts_protocol. split; [apply connection_locked|]. unfold reconnectAccount, startAccountConnection. keep_disposed.
  - apply starts_protocol. split; [apply refreshAccount_locked|]. unfold refreshAccount, performRefresh. keep_disposed.
  - apply gently_protocol. unfold syncSelectedAccount, port, change. gently_go.
  - apply gently_protocol. unfold refreshMailboxWindow. gently_go.
  - apply starts_protocol, gently_protocol. unfold refreshSelectedBody. gently_go.
  - apply starts_protocol. split; [apply materializeBody_locked|]. unfold materializeBody. keep_disposed.
  - apply gently_protocol. unfold toggleKeyword, nextMutationId, nowMutationInstant, staged, port. cbv zeta. gently_go.
  - apply gently_protocol. unfold moveEmail, nextMutationId, nowMutationInstant, staged, port, look. cbv zeta. gently_go.
  - apply starts_protocol. split; [apply runMutation_locked|]. unfold runMutation. keep_disposed.
  - apply gently_protocol. unfold sendEmail, nextMutationId, nowMutationInstant, staged, port, look. gently_go.
  - apply starts_protocol, gently_protocol.
    unfold executeSend, send_fails, generateMutationId, nowMutationInstant, port, look, change. gently_go.
  - split; [apply run_task_locked|apply disposed_task].
  - apply gently_protocol. gently_go.
  - apply gently_protocol. gently_go.
  - apply gently_protocol. gently_go.
  - apply gently_protocol. gently_go.
Qed.

Lemma attempts_ok_initial remote : attempts_ok (application_initial remote).
Proof. split; cbn; try apply map_wf_new; [by intros key [Hm _]|by intros key Hr]. Qed.
End locks.
