(* ===== verification/RunnerSafety.v ===== *)
(** * What the mutation runner never does

    Under any interleaving of any number of runs, over any engine that meets
    [LocalEngine] and with any answers of the remote side. *)

From S2P Require Import Prelude.
From S2P Require Import JsNumber.
From S2P Require Import JsString.
From S2P Require Import JsCollections.
From S2P Require Import Errors.
From S2P Require Import DomainIds.
From S2P Require Import DomainEmail.
From S2P Require Import SendIntent.
From S2P Require Import PendingMutation.
From S2P Require Import Ports.
From S2P Require Import MemoryState.
From S2P Require Import MemoryFacts.
From S2P Require Import MailStore.
From S2P Require Import MemoryEngine.
From S2P Require Import EngineInterface.
From S2P Require Import StoreEffects.
From S2P Require Import Remote.
From S2P Require Import Prog.
From S2P Require Import E2ee.
From S2P Require Import MutationRunner.
Open Scope list_scope.

(** ** The environment of a runner *)

(** An answer some engine, or the remote side, can give. *)
Definition runner_possible X (c : RunnerCall X) : outcome exn X → Prop :=
  match c in RunnerCall X return outcome exn X → Prop with
  | Port c => λ r, (∃ st, read_spec c st r) ∧ answer_wf c r
  | _ => λ _, True
  end.

Section environment.
Context {W : Type} `{!LocalEngine W} (interferes : W → W → Prop).

(** The engine answers its calls; every other call may be answered anything, and
    meanwhile the rest of the application may have used the engine. *)
Definition runner_answers X (c : RunnerCall X) (w : W) : outcome exn X → W → Prop :=
  match c in RunnerCall X return outcome exn X → W → Prop with
  | Port c => λ r w', call_wf c → (r, w') = engine_answer c w
  | _ => λ _ w', interferes w w'
  end.
End environment.

(** ** Every write is well formed and moves a mutation along a Domain edge *)

(** What the runner may call: a well-formed port call, and of the writes only the
    compare-and-swap of a mutation by the Domain's next state of it, and the
    removal of a confirmed mutation. *)
Definition runner_may X (c : RunnerCall X) : Prop :=
  match c with
  | Port c =>
      call_wf c ∧
      match c with
      | Write (OpReplacePendingMutationIfCurrent expected next) => domain_step expected next
      | Write (OpRemoveConfirmedMutation _ _) => True
      | Write _ => False
      | _ => True
      end
  | _ => True
  end.

Definition discipline : monitor RunnerCall unit := allow_monitor runner_may runner_possible.
Abbreviation disciplined := (safe discipline).

#[local] Hint Resolve domain_step_sets : core.

Ltac go := repeat match goal with
  | |- safe _ (Ret _) _ => apply safe_ret
  | |- safe _ (Raise _) _ => apply safe_raise
  | |- safe _ (of_outcome ?o ≫= _) _ =>
      eapply (safe_bind _ _ _ (λ a, o = Return a)); [by apply safe_outcome | intros ? ?]
  | |- safe _ (await _) _ => apply safe_await; [intros; simpl; auto | intros ? ?]
  | |- safe _ (if ?b then _ else _) _ => destruct b eqn:?
  | |- safe _ (match ?x with _ => _ end) _ => destruct x eqn:?
  end.

Lemma replace_disciplined expected next :
  mutation_sets_wf expected → domain_step expected next →
  disciplined (replace_ expected next) (λ _, True).
Proof.
  intros Hsets Hstep. eapply (safe_bind _ _ _ (λ _, True)); [|intros; by go].
  apply safe_await; [|done]. intros u. simpl. split_and!; eauto.
Qed.

Lemma removeConfirmed_disciplined m : disciplined (removeConfirmed m) (λ _, True).
Proof. eapply (safe_bind _ _ _ (λ _, True)); [apply safe_await; done | intros; by go]. Qed.

Lemma confirmAndRemove_disciplined expected confirmed :
  mutation_sets_wf expected → domain_step expected confirmed →
  disciplined (confirmAndRemove expected confirmed) (λ _, True).
Proof.
  intros Hsets Hstep. eapply safe_bind; [by apply replace_disciplined|]. intros swapped _. go; [done|].
  eapply safe_bind; [apply removeConfirmed_disciplined | by go].
Qed.

#[local] Hint Resolve step_start step_retry step_confirm_update step_confirm_send step_fail : core.

Section discipline_of_methods.
Context (options : RunnerOptions).

Lemma settleRetry_disciplined m :
  mutation_sets_wf m → disciplined (settleRetry options m) (λ _, True).
Proof.
  intros Hsets. eapply (safe_bind _ _ _ (λ _, True)); [by go|]. intros now _. go.
  eapply safe_bind; [apply replace_disciplined; eauto | by go].
Qed.

Lemma settleTerminal_disciplined m :
  mutation_sets_wf m → disciplined (settleTerminal m) (λ _, True).
Proof. intros Hsets. unfold settleTerminal. go. eapply safe_bind; [apply replace_disciplined; eauto | by go]. Qed.

Lemma settleE2eeFailure_disciplined m e : disciplined (settleE2eeFailure options m e) (λ _, True).
Proof. destruct e; first [by apply settleTerminal_disciplined | by apply settleRetry_disciplined]. Qed.

Lemma settleRemoteFailure_disciplined m e :
  mutation_sets_wf m → disciplined (settleRemoteFailure options m e) (λ _, True).
Proof.
  intros Hsets. unfold settleRemoteFailure.
  go; try done; [by apply settleRetry_disciplined.. | by apply settleTerminal_disciplined].
Qed.

Lemma confirm_update_disciplined m :
  mutation_sets_wf (of_update m) → disciplined (confirm_update m) (λ _, True).
Proof.
  intros Hsets. unfold confirm_update. go.
  eapply safe_bind; [apply confirmAndRemove_disciplined; eauto | by go].
Qed.

Lemma confirm_send_disciplined m e : disciplined (confirm_send m e) (λ _, True).
Proof.
  unfold confirm_send. go. eapply safe_bind; [apply confirmAndRemove_disciplined; [done | eauto] | by go].
Qed.

Lemma await_disciplined {X} (c : RunnerCall X) (A : Type) (k : X → runner A) P :
  runner_may X c → (∀ x, runner_possible X c (Return x) → disciplined (k x) P) →
  disciplined (await c ≫= k) P.
Proof. intros Hc Hk. eapply safe_bind; [|exact Hk]. by apply safe_await. Qed.

Lemma executeSend_disciplined m message : disciplined (executeSend options m message) (λ _, True).
Proof.
  apply safe_try; [|intros; by apply settleRemoteFailure_disciplined].
  apply await_disciplined; [done|]. intros result _. go; [apply confirm_send_disciplined | done].
Qed.

Lemma executeKeyword_disciplined m :
  mutation_sets_wf (MutKeyword m) → disciplined (executeKeyword options m) (λ _, True).
Proof.
  intros Hsets. apply safe_try; [|intros; by apply settleRemoteFailure_disciplined]. go.
  apply await_disciplined; [done|]. intros _ _. by apply confirm_update_disciplined.
Qed.

Lemma executeMembership_disciplined m : disciplined (executeMembership options m) (λ _, True).
Proof.
  apply safe_try; [|intros; by apply settleRemoteFailure_disciplined]. go.
  apply await_disciplined; [done|]. intros _ _. by apply confirm_update_disciplined.
Qed.

Lemma reconcile_disciplined m :
  mutation_sets_wf m → disciplined (reconcile options m) (λ _, True).
Proof.
  intros Hsets. destruct m as [m|m|m]; simpl.
  - unfold reconcileSend. go; [done|]. apply safe_try; [|intros; by go].
    apply await_disciplined; [done|]. intros evidence _. go; [apply confirm_send_disciplined | done].
  - unfold reconcileKeyword. go; [done|]. apply await_disciplined; [done|]. intros connected _.
    go; [done|]. eapply (safe_bind _ _ _ (λ p, disciplined p (λ _, True))); [|by intros].
    apply safe_try; [|intros; by repeat apply safe_ret].
    apply await_disciplined; [done|]. intros _ _. apply await_disciplined; [done|].
    intros current _. go; try by repeat apply safe_ret.
    + by apply settleTerminal_disciplined.
    + by apply settleRetry_disciplined.
    + eapply safe_bind; [by apply confirm_update_disciplined|]. intros o _. by repeat apply safe_ret.
  - unfold reconcileMembership. go; [done|]. apply safe_try; [|intros; by go]. go.
    apply await_disciplined; [done|]. intros evidence _. go; [|done].
    by apply confirm_update_disciplined.
Qed.

Lemma prepareSend_disciplined m : disciplined (prepareSend m) (λ _, True).
Proof.
  unfold prepareSend. destruct (intent_securityMode _).
  - by go.
  - eapply (safe_bind _ _ _ (λ _, True)); [by go|]. intros r _. by go.
Qed.

Lemma claimAndExecute_disciplined ak m :
  mutation_sets_wf m → disciplined (claimAndExecute options ak m) (λ _, True).
Proof.
  intros Hsets. apply await_disciplined; [done|]. intros connected _. go; [done|].
  eapply (safe_bind _ _ _ (λ _, True)).
  { destruct m; [|by go..]. eapply safe_bind; [apply prepareSend_disciplined | by go]. }
  intros prepared _. go. rename a into inFlight. apply await_disciplined.
  { simpl. split_and!; eauto. }
  intros claimed _. assert (mutation_sets_wf inFlight) as Hin by eauto.
  go; try done; first [by apply settleTerminal_disciplined | apply settleE2eeFailure_disciplined
    | apply executeSend_disciplined | by apply executeKeyword_disciplined
    | apply executeMembership_disciplined].
Qed.

Lemma runMutation_disciplined ak id : disciplined (runMutation options ak id) (λ _, True).
Proof.
  eapply (safe_bind _ _ _ (λ m, ∀ m', m = Some m' → mutation_sets_wf m')).
  { unfold readMutation. apply await_disciplined; [done|]. intros result [_ Hwf]. go; try done.
    intros m [= <-]. by apply Hwf. }
  intros [current|] Hwf; [|by go]. specialize (Hwf _ eq_refl).
  destruct (mutation_lifecycle current).
  - by apply claimAndExecute_disciplined.
  - by apply reconcile_disciplined.
  - apply await_disciplined; [done|]. intros now _. go; [done | by apply claimAndExecute_disciplined].
  - eapply safe_bind; [apply removeConfirmed_disciplined | by go].
  - by go.
Qed.

Lemma runAccount_disciplined ak : disciplined (runAccount options ak) (λ _, True).
Proof.
  apply await_disciplined; [done|]. intros result _. go; try done.
  apply safe_for; [done|]. intros acc m _ _. eapply safe_bind; [apply runMutation_disciplined | by go].
Qed.
End discipline_of_methods.

(** ** A send is submitted at most once per attempt

    One send mutation, [(ak0, id0)].  A successful claim grants a token; a
    submission spends one, and so does scheduling a retry; an answer that the
    submission was not applied gives the token back. *)

(** The submission was certainly not applied: [settleRemoteFailure] retries it. *)
Definition known_not_applied (e : exn) : bool :=
  match instanceof_remote_failure e with
  | Some failure_notConnected => true
  | Some (failure_remote remote) =>
      bool_decide (remote.(remote_outcome) = knownNotApplied) &&
      (bool_decide (remote.(remote_retry) = safeImmediate) ||
       bool_decide (remote.(remote_retry) = safeBackoff))
  | _ => false
  end.

Definition count_if (b : bool) : nat := if b then 1 else 0.

Section at_most_once.
Context (ak0 : AccountKey) (id0 : MutationId).

Definition is_target (ak : AccountKey) (id : MutationId) : bool :=
  bool_decide (ak = ak0) && bool_decide (id = id0).

Definition target_status (m : PendingMutation) : option MutationStatus :=
  match m with
  | MutSend s => if is_target s.(send_accountKey) s.(send_mutationId)
                 then Some (mutation_status m) else None
  | _ => None
  end.

Definition written_status {X} (c : RunnerCall X) : option MutationStatus :=
  match c with
  | Port (Write (OpReplacePendingMutationIfCurrent _ next)) => target_status next
  | _ => None
  end.

Definition succeeded (r : outcome exn WriteResult) : bool :=
  match r with Return (PortOk _) => true | _ => false end.

(** A submission of the target. *)
Definition is_submission X (c : RunnerCall X) : bool :=
  match c with Submit ak _ id => is_target ak id | _ => false end.

(** An attempt to write the target's next retry. *)
Definition is_retry X (c : RunnerCall X) : bool :=
  bool_decide (written_status c = Some st_retrying).

(** A write of the target with this status, answered with success. *)
Definition writes_status (st : MutationStatus) X (c : RunnerCall X) : outcome exn X → nat :=
  match c in RunnerCall X return outcome exn X → nat with
  | Port c =>
      match c in PortCall X return outcome exn X → nat with
      | Write (OpReplacePendingMutationIfCurrent _ next) => λ r,
          count_if (bool_decide (target_status next = Some st) && succeeded r)
      | _ => λ _, 0%nat
      end
  | _ => λ _, 0%nat
  end.

(** A submission of the target answered "not applied". *)
Definition not_applied X (c : RunnerCall X) : outcome exn X → nat :=
  match c in RunnerCall X return outcome exn X → nat with
  | Submit ak _ id => λ r,
      count_if (is_target ak id && match r with Throw e => known_not_applied e | _ => false end)
  | _ => λ _, 0%nat
  end.

Definition attempt_spends X (c : RunnerCall X) : bool := is_submission X c || is_retry X c.
Definition attempt_granted X (c : RunnerCall X) (r : outcome exn X) : nat :=
  (writes_status st_inFlight X c r + not_applied X c r)%nat.

Definition attempts : monitor RunnerCall nat :=
  token_monitor attempt_granted attempt_spends runner_possible.
Abbreviation harmless := (safe attempts).

Lemma await_harmless {X A} (c : RunnerCall X) (k : X → runner A) P :
  attempt_spends X c = false → (∀ x, runner_possible X c (Return x) → harmless (k x) P) →
  harmless (await c ≫= k) P.
Proof.
  intros Hc Hk. eapply safe_bind; [|exact Hk]. apply safe_await; [|done].
  intros m. simpl. by rewrite Hc.
Qed.

Lemma replace_harmless expected next :
  target_status next ≠ Some st_retrying → harmless (replace_ expected next) (λ _, True).
Proof.
  intros Hst. apply await_harmless; [|intros; by go].
  unfold attempt_spends, is_retry. simpl. by apply bool_decide_false.
Qed.

Lemma target_status_eq m : target_status m = None ∨ target_status m = Some (mutation_status m).
Proof. unfold target_status. destruct m; auto. destruct (is_target _ _); auto. Qed.

Lemma target_status_not m st : mutation_status m ≠ st → target_status m ≠ Some st.
Proof. destruct (target_status_eq m) as [->| ->]; [done|]. congruence. Qed.

Lemma removeConfirmed_harmless m : harmless (removeConfirmed m) (λ _, True).
Proof. apply await_harmless; [done|]. intros; by go. Qed.

Lemma confirmAndRemove_harmless expected confirmed :
  mutation_status confirmed = st_confirmed → harmless (confirmAndRemove expected confirmed) (λ _, True).
Proof.
  intros Hst. eapply safe_bind.
  { apply replace_harmless, target_status_not. by rewrite Hst. }
  intros swapped _. go; [done|]. eapply safe_bind; [apply removeConfirmed_harmless | by go].
Qed.

Lemma confirm_update_harmless m : harmless (confirm_update m) (λ _, True).
Proof.
  unfold confirm_update. go. match goal with H : _ = Return _ |- _ => rename H into Hc end.
  eapply safe_bind; [apply confirmAndRemove_harmless | by go].
  apply confirmEmailUpdate_return in Hc as (z & _ & _ & _ & Hl). unfold mutation_status. by rewrite Hl.
Qed.

Lemma confirm_send_harmless m e : harmless (confirm_send m e) (λ _, True).
Proof.
  unfold confirm_send. go. match goal with H : confirmSendMutation _ _ = Return _ |- _ => rename H into Hc end.
  eapply safe_bind; [apply confirmAndRemove_harmless | by go].
  apply confirmSend_return in Hc as (z & _ & _ & _ & _ & Hl). unfold mutation_status. simpl. by rewrite Hl.
Qed.

Lemma settleTerminal_harmless m : harmless (settleTerminal m) (λ _, True).
Proof.
  unfold settleTerminal. go. match goal with H : _ = Return _ |- _ => rename H into Hc end.
  apply failMutationTerminal_return in Hc as (z & _ & _ & ->).
  eapply safe_bind; [apply replace_harmless, target_status_not | by go].
  unfold mutation_status. by rewrite lifecycle_replace.
Qed.

(** A retry of the target needs a token; a retry of anything else does not. *)
Lemma settleRetry_obeys options m n :
  (target_status (replaceLifecycle m (ToInFlight (Int 1))) ≠ None → (0 < n)%nat) →
  obeys attempts (settleRetry options m) n (λ _ _, True).
Proof.
  intros Hn. apply obeys_mbind, obeys_await; [done|]. intros [now|e] _; simpl; [|done].
  apply obeys_mbind, obeys_outcome. destruct (nextRetryInstant _ _ _); [|done].
  apply obeys_mbind, obeys_outcome. destruct (scheduleMutationRetry m _) as [next|] eqn:Hs; [|done].
  apply scheduleMutationRetry_return in Hs as (z & _ & _ & ->).
  split.
  - simpl. unfold attempt_spends, is_retry. simpl. intros Hspend%bool_decide_eq_true.
    rewrite Nat.add_0_r. apply Hn. destruct m; simpl in *; try done. by destruct (is_target _ _).
  - intros [[|[]]|e] _; done.
Qed.

Lemma settleRemoteFailure_obeys options m e n :
  (target_status (replaceLifecycle m (ToInFlight (Int 1))) ≠ None → known_not_applied e = true →
     (0 < n)%nat) →
  obeys attempts (settleRemoteFailure options m e) n (λ _ _, True).
Proof.
  intros Hn. unfold settleRemoteFailure, known_not_applied in *.
  destruct (instanceof_remote_failure e) as [[| |remote|]|]; try exact I.
  - apply settleRetry_obeys. auto.
  - destruct (bool_decide (remote_outcome remote = outcome_unknown) ||
              bool_decide (remote_retry remote = retry_reconcile)); [exact I|].
    destruct (bool_decide (remote_outcome remote = knownNotApplied) && _) eqn:Hb.
    + apply settleRetry_obeys. auto.
    + eapply obeys_mono; [|apply settleTerminal_harmless]. done.
Qed.

(** Nothing but a send's retry spends a token for a send. *)
Lemma settleRetry_harmless options m :
  target_status (replaceLifecycle m (ToInFlight (Int 1))) = None →
  harmless (settleRetry options m) (λ _, True).
Proof.
  intros Hm n. eapply obeys_mono; [|apply settleRetry_obeys; congruence]. by intros [].
Qed.

Lemma settleRemoteFailure_harmless options m e :
  target_status (replaceLifecycle m (ToInFlight (Int 1))) = None →
  harmless (settleRemoteFailure options m e) (λ _, True).
Proof.
  intros Hm n. eapply obeys_mono; [|apply settleRemoteFailure_obeys; congruence]. by intros [].
Qed.

Lemma target_in_flight m :
  target_status (MutSend m) =
    if is_target m.(send_accountKey) m.(send_mutationId) then Some (mutation_status (MutSend m)) else None.
Proof. done. Qed.

(** Confirming throws no failure of the remote side: what it throws, a Domain
    function threw, or it reports a broken engine. *)
Definition not_remote (e : exn) : Prop := instanceof_remote_failure e = None.
Abbreviation quietly := (safely attempts not_remote).

Lemma throws_not_remote {A} (m : outcome exn A) :
  only_type_errors m → ∀ e, m = Throw e → not_remote e.
Proof. intros H e He. by destruct (H e He) as [msg ->]. Qed.

Lemma assertStarted_type_errors n : only_type_errors (assertStartedAttemptCount n).
Proof. unfold assertStartedAttemptCount. intros e [_ <-]%throw_if_throw. by eexists. Qed.

Lemma confirmSend_type_errors m c : only_type_errors (confirmSendMutation m c).
Proof.
  unfold confirmSendMutation, only_type_errors. intros e.
  destruct (send_lifecycle m); try (intros [= <-]; by eexists).
  rewrite bind_throw. intros [H|(u & _ & H)]; [by eapply assertStarted_type_errors|].
  apply bind_throw in H as [H|(u' & _ & H)]; [|done].
  apply throw_if_throw in H as [_ <-]. by eexists.
Qed.

Lemma localEmailId_type_errors ak id : only_type_errors (localEmailId ak id).
Proof.
  unfold localEmailId, jmapEmailIdFromString, opaqueIdFromString. intros e.
  destruct (is_empty id); simpl; [intros [= <-]; by eexists | done].
Qed.

Lemma replace_answer expected next st (r : outcome exn WriteResult) :
  read_spec (Write (OpReplacePendingMutationIfCurrent expected next)) st r →
  r = Return (PortOk tt) ∨ r = Return (PortError write_conflict).
Proof.
  simpl. unfold spec_replace. destruct (st_mutation st _); [|auto].
  unfold reject_unless. case_decide; auto.
Qed.

Lemma remove_answer ak id st (r : outcome exn WriteResult) :
  read_spec (Write (OpRemoveConfirmedMutation ak id)) st r →
  r = Return (PortOk tt) ∨ r = Return (PortError write_conflict).
Proof.
  simpl. unfold spec_remove. destruct (st_mutation st _); [|auto].
  unfold reject_unless. case_decide; auto.
Qed.

Lemma replace_quietly expected next :
  target_status next ≠ Some st_retrying → quietly (replace_ expected next) (λ _, True).
Proof.
  intros Hst. eapply (safely_bind _ _ _ _ (λ r, r = PortOk tt ∨ r = PortError write_conflict)).
  - apply safely_await.
    + intros m. simpl. unfold attempt_spends, is_retry. simpl. by rewrite bool_decide_false.
    + intros r [[st Hr] _]. apply replace_answer in Hr. naive_solver.
    + intros e [[st Hr] _]. apply replace_answer in Hr. naive_solver.
  - intros r [-> | ->]; by apply safely_ret.
Qed.

Lemma confirm_send_quietly m emailId : quietly (confirm_send m emailId) (λ _, True).
Proof.
  unfold confirm_send. eapply (safely_bind _ _ _ _ (λ _, True)).
  { apply safely_outcome; [done|]. apply throws_not_remote, localEmailId_type_errors. }
  intros id _. eapply (safely_bind _ _ _ _ (λ c, confirmSendMutation m (sendConfirmation id) = Return c)).
  { apply safely_outcome; [done|]. apply throws_not_remote, confirmSend_type_errors. }
  intros c Hc. apply confirmSend_return in Hc as (z & _ & _ & _ & _ & Hl).
  eapply (safely_bind _ _ _ _ (λ _, True)); [|intros; by apply safely_ret].
  unfold confirmAndRemove. eapply safely_bind.
  { apply replace_quietly, target_status_not. unfold mutation_status. simpl. by rewrite Hl. }
  intros swapped _. destruct (negb swapped); [by apply safely_ret|].
  eapply (safely_bind _ _ _ _ (λ _, True)); [|intros; by apply safely_ret].
  eapply (safely_bind _ _ _ _ (λ r, r = PortOk tt ∨ r = PortError write_conflict)).
  - apply safely_await; [done| |]; intros x [[st Hr] _]; apply remove_answer in Hr; naive_solver.
  - intros r [-> | ->]; by apply safely_ret.
Qed.

Lemma executeSend_obeys options m message n :
  (is_target m.(send_accountKey) m.(send_mutationId) = true → (0 < n)%nat) →
  obeys attempts (executeSend options m message) n (λ _ _, True).
Proof.
  intros Hn. apply obeys_try, obeys_mbind, obeys_await.
  { simpl. unfold attempt_spends, is_retry. simpl. rewrite orb_false_r. exact Hn. }
  intros [result|e] _; cbv beta iota.
  - destruct (submission_emailId result) as [emailId|]; [|exact I].
    eapply obeys_mono; [|apply confirm_send_quietly]. intros [o|e] n' He; [done|].
    unfold settleRemoteFailure. by rewrite He.
  - apply settleRemoteFailure_obeys. intros Ht Hna. simpl in Ht.
    destruct (is_target (send_accountKey m) (send_mutationId m)) eqn:Hm; [|done].
    cbn [attempts token_monitor watch]. unfold attempt_granted, not_applied, writes_status.
    rewrite Hm, Hna. simpl. lia.
Qed.

Lemma executeKeyword_harmless options m : harmless (executeKeyword options m) (λ _, True).
Proof.
  apply safe_try; [|intros; by apply settleRemoteFailure_harmless]. go.
  apply await_harmless; [done|]. intros _ _. apply confirm_update_harmless.
Qed.

Lemma executeMembership_harmless options m : harmless (executeMembership options m) (λ _, True).
Proof.
  apply safe_try; [|intros; by apply settleRemoteFailure_harmless]. go.
  apply await_harmless; [done|]. intros _ _. apply confirm_update_harmless.
Qed.

(** A mutation found in flight is never executed: reconciling spends nothing. *)
Lemma reconcile_harmless options m : harmless (reconcile options m) (λ _, True).
Proof.
  destruct m as [m|m|m]; simpl.
  - unfold reconcileSend. go; [done|]. apply safe_try; [|intros; by go].
    apply await_harmless; [done|]. intros evidence _. go; [apply confirm_send_harmless | done].
  - unfold reconcileKeyword. go; [done|]. apply await_harmless; [done|]. intros connected _.
    go; [done|]. eapply (safe_bind _ _ _ (λ p, harmless p (λ _, True))); [|by intros].
    apply safe_try; [|intros; by repeat apply safe_ret].
    apply await_harmless; [done|]. intros _ _. apply await_harmless; [done|].
    intros current _. go; try by repeat apply safe_ret.
    + apply settleTerminal_harmless.
    + by apply settleRetry_harmless.
    + eapply safe_bind; [apply confirm_update_harmless|]. intros o _. by repeat apply safe_ret.
  - unfold reconcileMembership. go; [done|]. apply safe_try; [|intros; by go]. go.
    apply await_harmless; [done|]. intros evidence _. go; [|done]. apply confirm_update_harmless.
Qed.

Lemma prepareSend_harmless m : harmless (prepareSend m) (λ _, True).
Proof.
  unfold prepareSend. destruct (intent_securityMode _).
  - by go.
  - eapply (safe_bind _ _ _ (λ _, True)); [by go | intros r _; by go].
Qed.

Lemma settleE2eeFailure_obeys options m e n :
  (is_target m.(send_accountKey) m.(send_mutationId) = true → (0 < n)%nat) →
  obeys attempts (settleE2eeFailure options m e) n (λ _ _, True).
Proof.
  intros Hn. destruct e;
    try (eapply obeys_mono; [|apply settleTerminal_harmless]; by intros [|]).
  apply settleRetry_obeys. simpl. destruct (is_target _ _); auto.
Qed.

Lemma started_status m m' : startMutationAttempt m = Return m' → mutation_status m' = st_inFlight.
Proof.
  intros [[_ ->]|(z & a & _ & _ & ->)]%startMutationAttempt_return; unfold mutation_status;
    by rewrite lifecycle_replace.
Qed.

Lemma claim_granted expected m (r : outcome exn WriteResult) :
  mutation_status (MutSend m) = st_inFlight → succeeded r = true →
  is_target m.(send_accountKey) m.(send_mutationId) = true →
  attempt_granted _ (Port (Write (OpReplacePendingMutationIfCurrent expected (MutSend m)))) r = 1%nat.
Proof.
  intros Hst Hr Ht. unfold attempt_granted, writes_status, not_applied, target_status.
  rewrite Ht, Hst, Hr. by rewrite bool_decide_true.
Qed.

Lemma claimAndExecute_harmless options ak m : harmless (claimAndExecute options ak m) (λ _, True).
Proof.
  apply await_harmless; [done|]. intros connected _. go; [done|].
  eapply (safe_bind _ _ _ (λ _, True)).
  { destruct m; [|by go..]. eapply safe_bind; [apply prepareSend_harmless | by go]. }
  intros prepared _. eapply (safe_bind _ _ _ (λ a, startMutationAttempt m = Return a));
    [by apply safe_outcome|].
  intros inFlight Hst%started_status n. apply obeys_mbind, obeys_await.
  { simpl. unfold attempt_spends, is_retry. simpl.
    rewrite bool_decide_false; [done|]. apply target_status_not. by rewrite Hst. }
  intros [claimed|e] Hr; [|done]. cbv beta iota.
  set (n' := watch attempts n _ _).
  destruct claimed as [u|[]]; try exact I.
  destruct inFlight as [s|k|k].
  - assert (is_target (send_accountKey s) (send_mutationId s) = true → 0 < n')%nat as Hn.
    { intros Ht. unfold n'. cbn [attempts token_monitor watch]. rewrite claim_granted by done. lia. }
    destruct prepared as [[message|error]|].
    + eapply obeys_mono; [|by apply executeSend_obeys]. by intros [].
    + eapply obeys_mono; [|by apply settleE2eeFailure_obeys]. by intros [].
    + apply settleTerminal_harmless.
  - apply executeKeyword_harmless.
  - apply executeMembership_harmless.
Qed.

Lemma runMutation_harmless options ak id : harmless (runMutation options ak id) (λ _, True).
Proof.
  eapply (safe_bind _ _ _ (λ _, True)).
  { apply await_harmless; [done|]. intros result _. by go. }
  intros [current|] _; [|by go]. destruct (mutation_lifecycle current).
  - apply claimAndExecute_harmless.
  - apply reconcile_harmless.
  - apply await_harmless; [done|]. intros now _. go; [done | apply claimAndExecute_harmless].
  - eapply safe_bind; [apply removeConfirmed_harmless | by go].
  - by go.
Qed.

Lemma runAccount_harmless options ak : harmless (runAccount options ak) (λ _, True).
Proof.
  apply await_harmless; [done|]. intros result _. go; try done.
  apply safe_for; [done|]. intros acc m _ _. eapply safe_bind; [apply runMutation_harmless | by go].
Qed.
End at_most_once.

(** ** Many runs at once

    Any number of [runAccount] and [runMutation] calls, interleaved call by call
    over one engine, with arbitrary answers of the remote side and with the rest
    of the application using the engine in between. *)

Inductive task : Type :=
| TaskAccount (options : RunnerOptions) (ak : AccountKey)
| TaskMutation (options : RunnerOptions) (ak : AccountKey) (id : MutationId).

Definition task_program (t : task) : runner unit :=
  match t with
  | TaskAccount options ak => runAccount options ak;; Ret tt
  | TaskMutation options ak id => runMutation options ak id;; Ret tt
  end.

Lemma task_harmless ak0 id0 t : safe (attempts ak0 id0) (task_program t) (λ _, True).
Proof.
  destruct t; (eapply safe_bind; [first [apply runAccount_harmless | apply runMutation_harmless]|]);
    intros; by apply safe_ret.
Qed.

Lemma task_disciplined t : safe discipline (task_program t) (λ _, True).
Proof.
  destruct t; (eapply safe_bind; [first [apply runAccount_disciplined | apply runMutation_disciplined]|]);
    intros; by apply safe_ret.
Qed.

(** ** Counting over a history *)

Section sums.
Context {X : Type}.
Implicit Types (f g h : X → nat) (l : list X).

Lemma sum_le f g l : (∀ x, f x ≤ g x)%nat → (sum_list_with f l ≤ sum_list_with g l)%nat.
Proof. intros H. induction l as [|x l IH]; simpl; [done|]. specialize (H x). lia. Qed.

Lemma sum_plus f g l :
  sum_list_with (λ x, f x + g x)%nat l = (sum_list_with f l + sum_list_with g l)%nat.
Proof. induction l as [|x l IH]; simpl; [done|]. lia. Qed.
End sums.

Section pool.
Context {W : Type} `{!LocalEngine W} (ak0 : AccountKey) (id0 : MutationId).

(** What the rest of the application may do to the store: anything but settle or
    remove mutations, which only the runner does, and stage the same id again. *)
Definition foreign_op (op : SyncOp) : Prop :=
  match op with
  | OpReplacePendingMutationIfCurrent _ _ | OpRemoveConfirmedMutation _ _ => False
  | OpStageSendMutation m => (m.(send_accountKey), m.(send_mutationId)) ≠ (ak0, id0)
  | OpApplyOptimisticKeywordMutation m => (m.(kw_accountKey), m.(kw_mutationId)) ≠ (ak0, id0)
  | OpApplyOptimisticMailboxMembershipMutation m =>
      (m.(mm_accountKey), m.(mm_mutationId)) ≠ (ak0, id0)
  | _ => True
  end.

Definition foreign_step (w w' : W) : Prop :=
  ∃ op, foreign_op op ∧ op_wf op ∧ w' = (engine_answer (Write op) w).2.
Definition foreign : W → W → Prop := rtc foreign_step.

Definition system_of (tasks : list task) (w : W) : system RunnerCall unit W :=
  start (map task_program tasks) w.

Definition reaches : system RunnerCall unit W → system RunnerCall unit W → Prop :=
  pool_reaches (runner_answers foreign).

(** The counters of the theorem, over the calls made so far. *)
Definition count (f : ∀ X, RunnerCall X → outcome exn X → nat) (h : list (event RunnerCall)) : nat :=
  sum_list_with (λ e, match e with Event c r => f _ c r end) h.

Definition submissions : list (event RunnerCall) → nat :=
  count (λ X c _, count_if (is_submission ak0 id0 X c)).
Definition not_applied_answers : list (event RunnerCall) → nat :=
  count (not_applied ak0 id0).
Definition claims : list (event RunnerCall) → nat := count (writes_status ak0 id0 st_inFlight).
Definition retries : list (event RunnerCall) → nat := count (writes_status ak0 id0 st_retrying).

(** ** The store bounds the claims *)

Definition budget (st : Store) (claimed retried : nat) : Prop :=
  match st_mutation st (ak0, id0) with
  | Some (MutSend m) =>
      match mutation_status (MutSend m) with
      | st_pending | st_retrying => (claimed ≤ retried)%nat
      | _ => (claimed ≤ retried + 1)%nat
      end
  | _ => (claimed ≤ retried + 1)%nat
  end.

Lemma budget_le st c r : budget st c r → (c ≤ r + 1)%nat.
Proof.
  unfold budget. destruct (st_mutation st _) as [[m|m|m]|]; [|lia..].
  destruct (mutation_status _); lia.
Qed.

Lemma budget_mono st c r r' : (r ≤ r')%nat → budget st c r → budget st c r'.
Proof.
  unfold budget. intros Hr. destruct (st_mutation st _) as [[m|m|m]|]; [|lia..].
  destruct (mutation_status _); lia.
Qed.

Lemma budget_same st st' c r :
  st_mutation st' (ak0, id0) = st_mutation st (ak0, id0) → budget st c r → budget st' c r.
Proof. unfold budget. by intros ->. Qed.

Lemma equiv_mutation (st st' : Store) k : st ≡ st' → st_mutation st k = st_mutation st' k.
Proof. intros H. unfold equiv, store_equiv in H. destruct_and! H. auto. Qed.

Lemma put_other m st :
  (mutation_accountKey m, mutation_id m) ≠ (ak0, id0) →
  st_mutation (put_in_store m st) (ak0, id0) = st_mutation st (ak0, id0).
Proof. intros H. simpl. unfold upd. by rewrite decide_False. Qed.

Lemma foreign_op_target op st :
  foreign_op op → st_mutation (performed op st) (ak0, id0) = st_mutation st (ak0, id0).
Proof.
  intros Hop. unfold performed. destruct op; simpl in *; try done;
    unfold spec_register, spec_sync, spec_cache_body, spec_attachments, spec_view, spec_stage,
      spec_keyword, spec_membership, reject_unless, refuse_or;
    repeat case_match; simplify_eq; try done; by rewrite put_other.
Qed.

Lemma target_status_elsewhere m :
  (mutation_accountKey m, mutation_id m) ≠ (ak0, id0) → target_status ak0 id0 m = None.
Proof.
  intros H. destruct m as [m|m|m]; simpl in *; [|done..]. unfold is_target.
  destruct (bool_decide _) eqn:Ha; [|done]. destruct (bool_decide (_ = id0)) eqn:Hi; [|done].
  bool_hyps. congruence.
Qed.

Lemma target_status_here m :
  (mutation_accountKey m, mutation_id m) = (ak0, id0) →
  target_status ak0 id0 m = match m with MutSend _ => Some (mutation_status m) | _ => None end.
Proof.
  intros [= Ha Hi]. destruct m as [m|m|m]; simpl in *; [|done..]. unfold is_target.
  by rewrite !bool_decide_true.
Qed.

(** What one accepted compare-and-swap of the target does to the budget. *)
Lemma swap_budget current expected next st c t :
  st_mutation st (ak0, id0) = Some current → swappable current expected next →
  (mutation_accountKey next, mutation_id next) = (ak0, id0) →
  budget st c t →
  budget (put_in_store next st)
    (c + count_if (bool_decide (target_status ak0 id0 next = Some st_inFlight)))
    (t + count_if (bool_decide (target_status ak0 id0 next = Some st_retrying))).
Proof.
  intros Hcur ([Hrec Hl] & _ & Hsame & Hedge) Hkey. pose proof (same_record_equivalence).
  rewrite (target_status_here next Hkey). unfold budget. rewrite Hcur. simpl. unfold upd.
  rewrite decide_True by done.
  assert (same_record current next) as Hcn by (by transitivity expected).
  rewrite <- Hl in Hedge.
  destruct current as [cm|cm|cm], next as [nm|nm|nm]; try done; [|simpl; lia..].
  unfold mutation_status in *. simpl in *.
  destruct Hedge; simpl; repeat (rewrite bool_decide_true by done || rewrite bool_decide_false by done);
    simpl; lia.
Qed.

Lemma replace_budget expected next st r c t :
  read_spec (Write (OpReplacePendingMutationIfCurrent expected next)) st r → budget st c t →
  budget (performed (OpReplacePendingMutationIfCurrent expected next) st)
    (c + count_if (bool_decide (target_status ak0 id0 next = Some st_inFlight) && succeeded r))
    (t + count_if (bool_decide (target_status ak0 id0 next = Some st_retrying) && succeeded r)).
Proof.
  simpl. unfold performed. simpl. unfold spec_replace.
  assert (∀ e, Return (PortError write_conflict) = e → budget st c t →
    budget st (c + count_if (bool_decide (target_status ak0 id0 next = Some st_inFlight) && succeeded e))
      (t + count_if (bool_decide (target_status ak0 id0 next = Some st_retrying) && succeeded e))) as Hno.
  { intros e <-. by rewrite !andb_false_r, !Nat.add_0_r. }
  destruct (st_mutation st (mutation_accountKey expected, mutation_id expected)) as [current|] eqn:Hcur;
    [|intros; by apply Hno].
  unfold reject_unless. destruct (decide _) as [Hswap|_]; [|intros; by apply Hno].
  intros -> Hb. cbn [succeeded]. rewrite !andb_true_r.
  destruct Hswap as (Heq & Hcount & Hrec & Hedge).
  pose proof (same_record_fields _ _ Hrec) as (_ & Ha & Hi & _).
  destruct (decide ((mutation_accountKey next, mutation_id next) = (ak0, id0))) as [Hkey|Hkey].
  - eapply swap_budget; [|done..]. rewrite <- Hkey, <- Ha, <- Hi. exact Hcur.
  - rewrite target_status_elsewhere by done. rewrite !bool_decide_false by done.
    rewrite !Nat.add_0_r. eapply budget_same; [|done]. by rewrite put_other.
Qed.

Lemma remove_budget ak id st c t :
  budget st c t → budget (performed (OpRemoveConfirmedMutation ak id) st) c t.
Proof.
  intros Hb. unfold performed. simpl. unfold spec_remove.
  destruct (st_mutation st (ak, id)) as [m|]; [|done]. unfold reject_unless.
  destruct (decide _); [|done]. pose proof (budget_le _ _ _ Hb). unfold budget in *. simpl. unfold upd.
  by destruct (decide _).
Qed.

Lemma foreign_budget w w' c t :
  foreign w w' → engine_ok w → budget (engine_store w) c t →
  engine_ok w' ∧ budget (engine_store w') c t.
Proof.
  intros Hf Hok Hb. induction Hf as [|w1 w2 w3 (op & Hop & Hwf & ->) _ IH]; [done|].
  apply IH; [by apply engine_ok_kept|]. eapply budget_same; [|exact Hb].
  rewrite (equiv_mutation _ _ _ (engine_writes op w1 Hok Hwf)). by apply foreign_op_target.
Qed.

(** ** The system *)

Definition accounted (s : system RunnerCall unit W) : Prop :=
  engine_ok s.(world) ∧ Forall (obedient discipline) s.(programs) ∧
  budget (engine_store s.(world)) (claims s.(history)) (retries s.(history)).

Lemma count_snoc f h X (c : RunnerCall X) r : count f (h ++ [Event c r]) = (count f h + f X c r)%nat.
Proof. unfold count. by rewrite sum_list_with_snoc. Qed.

(** A port call that the discipline allows keeps the accounts. *)
Lemma port_step_budget X (c : PortCall X) w cl rt :
  engine_ok w → runner_may X (Port c) → budget (engine_store w) cl rt →
  budget (engine_store (engine_answer c w).2)
    (cl + writes_status ak0 id0 st_inFlight X (Port c) (engine_answer c w).1)
    (rt + writes_status ak0 id0 st_retrying X (Port c) (engine_answer c w).1).
Proof.
  intros Hok [Hwf Hmay] Hb. pose proof (engine_answers X c w Hok Hwf) as Hr.
  destruct (is_write c) eqn:Hw.
  - destruct c as [op| | | | | | | | | | | | | | |]; try done.
    eapply budget_same; [by apply equiv_mutation, engine_writes|].
    destruct op as [| | | | | | | |expected next|ak id]; try done.
    + by apply replace_budget.
    + simpl. rewrite !Nat.add_0_r. by apply remove_budget.
  - assert (writes_status ak0 id0 st_inFlight X (Port c) (engine_answer c w).1 = 0%nat) as -> by (by destruct c).
    assert (writes_status ak0 id0 st_retrying X (Port c) (engine_answer c w).1 = 0%nat) as -> by (by destruct c).
    rewrite !Nat.add_0_r. eapply budget_same; [|exact Hb].
    by apply equiv_mutation, engine_reads.
Qed.

(** What the pool's programs are answered, they can be answered. *)
Definition possibly_answers X (c : RunnerCall X) (w : W) (r : outcome exn X) (w' : W) : Prop :=
  runner_answers foreign X c w r w' ∧ runner_possible X c r.

Lemma answer_possible X (c : RunnerCall X) w r w' :
  engine_ok w → runner_may X c → runner_answers foreign X c w r w' → runner_possible X c r.
Proof.
  intros Hok Hmay Hans. destruct c; try done. simpl in *. destruct Hmay as [Hwf _].
  specialize (Hans Hwf). apply (f_equal fst) in Hans as Hr. simpl in Hr. subst r.
  split; [by eexists; apply engine_answers | by apply engine_answer_wf].
Qed.

Lemma accounted_possible s s' :
  accounted s → pool_step (runner_answers foreign) s s' → pool_step possibly_answers s s'.
Proof.
  intros (Hok & Hobey & _) Hstep. destruct Hstep as [ps w h i X c k r w' Hi Hans]. simpl in *.
  rewrite Forall_lookup in Hobey. destruct (Hobey i _ Hi) as [u [Hmay _]].
  constructor; [done|]. split; [done|]. by eapply answer_possible.
Qed.

Lemma accounted_step s s' : accounted s → pool_step (runner_answers foreign) s s' → accounted s'.
Proof.
  intros (Hok & Hobey & Hb) Hstep. destruct Hstep as [ps w h i X c k r w' Hi Hans]. simpl in *.
  pose proof Hobey as Hall. rewrite Forall_lookup in Hobey.
  destruct (Hobey i _ Hi) as [u [Hmay Hk]]. simpl in Hmay. unfold accounted. simpl.
  pose proof (answer_possible X c w r w' Hok Hmay Hans) as Hposs.
  assert (Forall (obedient discipline) (<[i:=k r]> ps)) as Hps.
  { apply Forall_insert; [done|]. eexists. by apply Hk. }
  unfold claims, retries. rewrite !count_snoc. destruct c as [X c| | | | | | | | |].
  { simpl in Hans. destruct Hmay as [Hwf Hmay]. specialize (Hans Hwf).
    apply (f_equal fst) in Hans as Hr. apply (f_equal snd) in Hans. simpl in Hr, Hans. subst r w'.
    split_and!; [by apply engine_ok_kept | done|]. by apply port_step_budget. }
  all: simpl in Hans; simpl; rewrite !Nat.add_0_r;
    destruct (foreign_budget _ _ _ _ Hans Hok Hb); by split_and!.
Qed.

Lemma accounted_start tasks w : engine_ok w → accounted (system_of tasks w).
Proof.
  intros Hok. split_and!; [done | |].
  - apply Forall_map, Forall_forall. intros t _. eapply (safe_obedient _ _ _ tt), task_disciplined.
  - unfold budget, claims, retries, count. simpl. repeat case_match; lia.
Qed.

Lemma reaches_possible s s' :
  accounted s → reaches s s' → accounted s' ∧ pool_reaches possibly_answers s s'.
Proof.
  intros Hs Hreach. induction Hreach as [s|s1 s2 s3 H12 _ IH]; [by split; [|apply rtc_refl]|].
  destruct IH as [? ?]; [by eapply accounted_step|]. split; [done|].
  eapply rtc_l; [by apply accounted_possible | done].
Qed.

Lemma pool_attempts tasks w s :
  engine_ok w → reaches (system_of tasks w) s →
  (submissions s.(history) + count (λ X c _, count_if (is_retry ak0 id0 X c)) s.(history)
   ≤ claims s.(history) + not_applied_answers s.(history))%nat.
Proof.
  intros Hok Hreach. destruct (reaches_possible _ _ (accounted_start tasks w Hok) Hreach) as [_ Hposs].
  apply (pool_tokens (attempt_granted ak0 id0) (attempt_spends ak0 id0) runner_possible) in Hposs.
  - unfold submissions, claims, not_applied_answers, count. rewrite <- !sum_plus.
    etransitivity; [|etransitivity; [exact Hposs|]]; apply sum_le; intros [X c r]; simpl; [|done].
    unfold attempt_spends, is_retry. destruct c as [X c| | | | | | | | |]; try done; simpl.
    by destruct (is_target _ _ _ _).
  - by intros X c v r v' [_ ?].
  - apply Forall_map, Forall_forall. intros t _. eapply obeys_mono; [|apply task_harmless]. done.
Qed.

Lemma retries_attempted h :
  (retries h ≤ count (λ X c _, count_if (is_retry ak0 id0 X c)) h)%nat.
Proof.
  apply sum_le. intros [X c r]. unfold is_retry. destruct c as [X c| | | | | | | | |]; simpl; try lia.
  destruct c as [op| | | | | | | | | | | | | | |]; simpl; try lia.
  destruct op; simpl; try lia. destruct (bool_decide _), (succeeded r); simpl; lia.
Qed.
End pool.

(** ** One run of one mutation, step by step

    [runMutation] reads the mutation; only if it is pending or due does it claim
    it; only then, and once, does it perform the mutation's remote effect.  The phases of
    a mutation that was found carry what the cryptography made of it. *)

Inductive phase : Type :=
| Idle
| Found (m : PendingMutation) (encrypted : option BoxplotE2eeEnvelope)
| Claimed (m : PendingMutation) (encrypted : option BoxplotE2eeEnvelope)
| Executed (m : PendingMutation).

Definition claimable (m : PendingMutation) : bool :=
  match mutation_status m with st_pending | st_retrying => true | _ => false end.

(** A message says what an intent says, and nothing else: its text as it is, or what the
    cryptography made of it. *)
Record says_intent (i : SendIntent) (encrypted : option BoxplotE2eeEnvelope) (d : RemoteSubmissionDraft) : Prop := {
  says_identity : ∃ id, remoteIdentityId i.(intent_identityId) = Return id ∧ d.(draft_identityId) = Some id;
  says_from : d.(draft_from) = i.(intent_from);
  says_to : d.(draft_to) = i.(intent_to);
  says_cc : d.(draft_cc) = i.(intent_cc);
  says_bcc : d.(draft_bcc) = i.(intent_bcc);
  says_replyTo : d.(draft_replyTo) = i.(intent_replyTo);
  says_subject : d.(draft_subject) = i.(intent_subject);
  says_body : match i.(intent_securityMode) with
              | mode_plain => d.(draft_body) = SubmitPlain i.(intent_body).(send_text) i.(intent_body).(send_html)
              | boxplotE2eeV1 => ∃ envelope, encrypted = Some envelope ∧
                  d.(draft_body) = SubmitE2ee (serializeBoxplotE2eeEnvelope envelope)
              end;
}.

(** What is given to the cryptography: the text of a secure intent, for its one recipient. *)
Record encrypts_intent (i : SendIntent) (input : EncryptForInput) : Prop := {
  encrypts_secure : i.(intent_securityMode) = boxplotE2eeV1;
  encrypts_recipient : List.map address_email (intent_recipients i) = [input.(enc_recipientIdentity)];
  encrypts_from : input.(enc_localIdentity) = i.(intent_from).(address_email);
  encrypts_subject : input.(enc_subject) = i.(intent_subject);
  encrypts_text : input.(enc_text) = i.(intent_body).(send_text);
  encrypts_html : input.(enc_html) = i.(intent_body).(send_html);
}.

(** The remote effect of a mutation. *)
Definition effect_of {X} (c : RunnerCall X) (m : PendingMutation) (encrypted : option BoxplotE2eeEnvelope) : Prop :=
  match c, m with
  | Submit ak message id, MutSend s =>
      ak = s.(send_accountKey) ∧ id = s.(send_mutationId) ∧ says_intent s.(send_intent) encrypted message
  | ApplyKeywordChange ak e change, MutKeyword k =>
      ak = k.(kw_accountKey) ∧ remoteEmailId k.(kw_emailId) = Return e ∧
      change = {| remote_keyword_add := k.(kw_change).(keyword_add);
                  remote_keyword_remove := k.(kw_change).(keyword_remove) |}
  | ApplyMembershipChange ak e change, MutMembership k =>
      ak = k.(mm_accountKey) ∧ remoteEmailId k.(mm_emailId) = Return e ∧
      remote_membership_change k.(mm_change) = Return change
  | _, _ => False
  end.

Definition is_effect {X} (c : RunnerCall X) : bool :=
  match c with
  | Submit _ _ _ | ApplyKeywordChange _ _ _ | ApplyMembershipChange _ _ _ => true
  | _ => false
  end.

(** A claim: the found mutation is swapped for its next attempt. *)
Definition next_phase X (p : phase) (c : RunnerCall X) : outcome exn X → phase :=
  match c in RunnerCall X return outcome exn X → phase with
  | Port c =>
      match c in PortCall X return outcome exn X → phase with
      | ReadPendingMutation _ _ => λ r,
          match p, r with
          | Idle, Return (PortOk (OptionalPresent m)) => if claimable m then Found m None else Idle
          | _, _ => p
          end
      | Write (OpReplacePendingMutationIfCurrent expected next) => λ r,
          match p with
          | Found m encrypted =>
              if bool_decide (expected = m) && bool_decide (startMutationAttempt m = Return next) && succeeded r
              then Claimed next encrypted else p
          | _ => p
          end
      | _ => λ _, p
      end
  | Submit _ _ _ | ApplyKeywordChange _ _ _ | ApplyMembershipChange _ _ _ => λ _,
      match p with Claimed m _ => Executed m | _ => p end
  | EncryptFor _ => λ r,
      match p, r with Found m None, Return (E2eeOk envelope) => Found m (Some envelope) | _, _ => p end
  | _ => λ _, p
  end.

Definition phase_allows X (p : phase) (c : RunnerCall X) : Prop :=
  (is_effect c = true → ∃ m encrypted, p = Claimed m encrypted ∧ effect_of c m encrypted) ∧
  match c with
  | EncryptFor input => ∃ s, p = Found (MutSend s) None ∧ encrypts_intent s.(send_intent) input
  | _ => True
  end.

Definition protocol : monitor RunnerCall phase :=
  {| allowed := phase_allows;
     watch := next_phase;
     possible := runner_possible |}.

(** ** Everything but an execution makes no effect *)

Abbreviation effectless := (safe protocol).

Ltac quiet := repeat match goal with
  | |- safe _ (Ret _) _ => apply safe_ret
  | |- safe _ (Raise _) _ => apply safe_raise
  | |- safe _ (of_outcome _) _ => apply safe_outcome; intros
  | |- safe _ (await _) _ => apply safe_await; [done | intros ? ?]
  | |- safe _ (_ ≫= _) _ => eapply (safe_bind _ _ _ (λ _, True)); [|intros ? _]
  | |- safe _ (prog_try _ _) _ => apply safe_try; [|intros ?]
  | |- safe _ (if ?b then _ else _) _ => destruct b
  | |- safe _ (match ?x with _ => _ end) _ => destruct x
  end; try done.

Lemma confirmAndRemove_effectless e c : effectless (confirmAndRemove e c) (λ _, True).
Proof. unfold confirmAndRemove, replace_, replaceMutation, removeConfirmed. quiet. Qed.

Lemma settleRetry_effectless options m : effectless (settleRetry options m) (λ _, True).
Proof. unfold settleRetry, replace_, replaceMutation. quiet. Qed.

Lemma settleTerminal_effectless m : effectless (settleTerminal m) (λ _, True).
Proof. unfold settleTerminal, replace_, replaceMutation. quiet. Qed.

Lemma settleRemoteFailure_effectless options m e : effectless (settleRemoteFailure options m e) (λ _, True).
Proof.
  unfold settleRemoteFailure.
  quiet; first [apply settleRetry_effectless | apply settleTerminal_effectless].
Qed.

Lemma settleE2eeFailure_effectless options m e : effectless (settleE2eeFailure options m e) (λ _, True).
Proof. destruct e; first [apply settleTerminal_effectless | apply settleRetry_effectless]. Qed.

Lemma confirm_update_effectless m : effectless (confirm_update m) (λ _, True).
Proof. unfold confirm_update. quiet. apply confirmAndRemove_effectless. Qed.

Lemma confirm_send_effectless m e : effectless (confirm_send m e) (λ _, True).
Proof. unfold confirm_send. quiet. apply confirmAndRemove_effectless. Qed.

Lemma reconcile_effectless options m : effectless (reconcile options m) (λ _, True).
Proof.
  destruct m; unfold reconcile, reconcileSend, reconcileMembership.
  - quiet. apply confirm_send_effectless.
  - unfold reconcileKeyword. destruct (negb _); [by apply safe_ret|].
    eapply (safe_bind _ _ _ (λ _, True)); [by apply safe_await|]. intros connected _.
    destruct (negb connected); [by apply safe_ret|].
    eapply (safe_bind _ _ _ (λ p, effectless p (λ _, True))); [|by intros].
    apply safe_try; [|intros; by repeat apply safe_ret].
    eapply (safe_bind _ _ _ (λ _, True)); [by apply safe_await|]. intros _ _.
    eapply (safe_bind _ _ _ (λ _, True)); [by apply safe_await|]. intros current _.
    destruct current as [[|current]|]; [|destruct (negb _)|]; try (by repeat apply safe_ret);
      try apply safe_ret; [apply settleTerminal_effectless | apply settleRetry_effectless |].
    eapply (safe_bind _ _ _ (λ _, True)); [apply confirm_update_effectless|].
    intros; by repeat apply safe_ret.
  - quiet. apply confirm_update_effectless.
Qed.

Lemma effectless_obeys {A} (p : runner A) (P : A → Prop) ph :
  effectless p P → obeys protocol p ph (λ _ _, True).
Proof. intros Hp. by eapply obeys_mono; [|apply Hp]. Qed.

(** ** An execution performs the claimed mutation's effect, once *)

Lemma submissionDraft_says i body d encrypted :
  submissionDraft i body = Return d →
  match i.(intent_securityMode) with
  | mode_plain => body = SubmitPlain i.(intent_body).(send_text) i.(intent_body).(send_html)
  | boxplotE2eeV1 => ∃ envelope, encrypted = Some envelope ∧ body = SubmitE2ee (serializeBoxplotE2eeEnvelope envelope)
  end → says_intent i encrypted d.
Proof.
  unfold submissionDraft. destruct (remoteIdentityId _) as [id|] eqn:Hid; [|done]. intros [= <-] Hbody.
  split; try done. by exists id.
Qed.

Lemma started_intent s m' :
  startMutationAttempt (MutSend s) = Return m' → ∃ s', m' = MutSend s' ∧ s'.(send_intent) = s.(send_intent).
Proof. intros [[_ ->]|(z & a & _ & _ & ->)]%startMutationAttempt_return; by eexists. Qed.

Lemma executeSend_obeys_protocol options m message encrypted :
  says_intent m.(send_intent) encrypted message →
  obeys protocol (executeSend options m message) (Claimed (MutSend m) encrypted) (λ _ _, True).
Proof.
  intros Hsays. apply obeys_try, obeys_mbind, obeys_await; [by split; [eexists _, _|]|].
  intros [result|e] _; cbv beta iota.
  - destruct (submission_emailId result); [|exact I].
    eapply obeys_mono; [|apply confirm_send_effectless]. intros [o|e] ph _; [done|].
    eapply effectless_obeys, settleRemoteFailure_effectless.
  - eapply effectless_obeys, settleRemoteFailure_effectless.
Qed.

(** What is prepared for a mutation that was found. *)
Definition well_prepared (m : PendingMutation) (prepared : option PreparedSend) (p : phase) : Prop :=
  ∃ encrypted, p = Found m encrypted ∧
    match m, prepared with
    | MutSend s, Some (PreparedReady message) => says_intent s.(send_intent) encrypted message
    | _, _ => True
    end.

Lemma prepareSend_obeys_protocol s :
  obeys protocol (prepareSend s) (Found (MutSend s) None)
    (λ r p, match r with Return prepared => well_prepared (MutSend s) (Some prepared) p | Throw _ => True end).
Proof.
  unfold prepareSend. destruct (intent_securityMode _) eqn:Hmode.
  - apply obeys_mbind, obeys_outcome. destruct (submissionDraft _ _) as [d|] eqn:Hd; [|done].
    exists None. split; [done|]. eapply submissionDraft_says; [exact Hd|]. by rewrite Hmode.
  - apply obeys_mbind. destruct (encryptSendIntent _) as [input|kind] eqn:Hinput; [|by exists None].
    apply obeys_await.
    + split; [done|]. exists s. split; [done|]. unfold encryptSendIntent in Hinput.
      destruct (intent_to _) as [|recipient [|]] eqn:Hto; [done| |done].
      destruct (_ || _) eqn:Hnone; [done|]. injection Hinput as <-.
      apply orb_false_iff in Hnone as [Hcc Hbcc]. apply negb_false_iff, bool_decide_eq_true, nil_length_inv in Hcc, Hbcc.
      split; try done. cbn. unfold intent_recipients. by rewrite Hto, Hcc, Hbcc.
    + intros [[envelope|kind]|e] _; [|by exists None|done].
      apply obeys_mbind, obeys_outcome. destruct (submissionDraft _ _) as [d|] eqn:Hd; [|done].
      exists (Some envelope). split; [done|]. eapply submissionDraft_says; [exact Hd|]. rewrite Hmode. by eexists.
Qed.

Lemma confirm_update_then options k m ph :
  obeys protocol (confirm_update m) ph
    (λ r ph', match r with
              | Return a => True
              | Throw e => obeys protocol (settleRemoteFailure options k e) ph' (λ _ _, True)
              end).
Proof.
  eapply obeys_mono; [|apply confirm_update_effectless]. intros [o|e] ph' _; [done|].
  eapply effectless_obeys, settleRemoteFailure_effectless.
Qed.

Lemma executeKeyword_obeys_protocol options m encrypted :
  obeys protocol (executeKeyword options m) (Claimed (MutKeyword m) encrypted) (λ _ _, True).
Proof.
  apply obeys_try, obeys_mbind, obeys_outcome.
  destruct (remoteEmailId (kw_emailId m)) as [e|e] eqn:He;
    [|eapply effectless_obeys, settleRemoteFailure_effectless].
  apply obeys_mbind, obeys_await; [by split; [eexists _, _|]|]. intros [[]|e'] _; cbv beta iota.
  - apply confirm_update_then.
  - eapply effectless_obeys, settleRemoteFailure_effectless.
Qed.

Lemma executeMembership_obeys_protocol options m encrypted :
  obeys protocol (executeMembership options m) (Claimed (MutMembership m) encrypted) (λ _ _, True).
Proof.
  apply obeys_try, obeys_mbind, obeys_outcome.
  destruct (remoteEmailId (mm_emailId m)) as [e|e] eqn:He;
    [|eapply effectless_obeys, settleRemoteFailure_effectless].
  apply obeys_mbind, obeys_outcome.
  destruct (remote_membership_change (mm_change m)) as [change|e'] eqn:Hch;
    [|eapply effectless_obeys, settleRemoteFailure_effectless].
  apply obeys_mbind, obeys_await; [by split; [eexists _, _|]|]. intros [[]|e'] _; cbv beta iota.
  - apply confirm_update_then.
  - eapply effectless_obeys, settleRemoteFailure_effectless.
Qed.

Lemma claimAndExecute_obeys_protocol options ak m :
  obeys protocol (claimAndExecute options ak m) (Found m None) (λ _ _, True).
Proof.
  apply obeys_mbind, obeys_await; [done|]. intros [connected|e] _; [|exact I]. cbv beta iota.
  change (watch protocol (Found m None) (IsConnected ak) (Return connected)) with (Found m None).
  destruct (negb connected); [exact I|].
  apply obeys_mbind, (obeys_mono _ _ _ (λ r p,
    match r with Return prepared => well_prepared m prepared p | Throw _ => True end)).
  - intros [prepared|e] ph; [|done]. intros (encrypted & -> & Hprepared). apply obeys_mbind, obeys_outcome.
    destruct (startMutationAttempt m) as [inFlight|] eqn:Hst; [|exact I].
    apply obeys_mbind, obeys_await; [done|]. intros [claimed|e] _; [|exact I]. cbv beta iota.
    destruct claimed as [u|[]]; try exact I.
    match goal with |- obeys _ _ ?ph _ =>
      assert (ph = Claimed inFlight encrypted) as -> by (simpl; by rewrite !bool_decide_true) end.
    destruct inFlight as [s|k|k]; [|apply executeKeyword_obeys_protocol|apply executeMembership_obeys_protocol].
    destruct prepared as [[message|error]|].
    + apply executeSend_obeys_protocol. destruct m as [s0|k|k]; [|by apply startMutationAttempt_return in Hst as [[_ [=]]|(? & ? & _ & _ & [=])]..].
      apply started_intent in Hst as (s' & [= ->] & ->). exact Hprepared.
    + eapply effectless_obeys, settleE2eeFailure_effectless.
    + eapply effectless_obeys, settleTerminal_effectless.
  - destruct m as [s|k|k]; [|by exists None..]. apply obeys_mbind. eapply obeys_mono; [|apply prepareSend_obeys_protocol].
    by intros [prepared|e] p.
Qed.

Lemma removed_effectless m : effectless (removeConfirmed m;; Ret outcome_confirmed) (λ _, True).
Proof. unfold removeConfirmed. quiet. Qed.

Lemma runMutation_obeys_protocol options ak id :
  obeys protocol (runMutation options ak id) Idle (λ _ _, True).
Proof.
  apply obeys_mbind, obeys_mbind, obeys_await; [done|]. intros [result|e] _; [|exact I].
  destruct result as [[| |current]|kind]; try exact I. simpl.
  destruct (claimable current) eqn:Hc; unfold claimable, mutation_status in Hc;
    destruct (mutation_lifecycle current); try done.
  - apply claimAndExecute_obeys_protocol.
  - split; [done|]. intros [now|e] _; [|exact I]. simpl.
    destruct (string_gtb _ _); [exact I | apply claimAndExecute_obeys_protocol].
  - eapply effectless_obeys, reconcile_effectless.
  - exact (effectless_obeys _ _ Idle (removed_effectless current)).
Qed.
