(* ===== verification/Outbox.v ===== *)
(** * The straight-line outbox: sync/outbox.ts

    [Outbox.processSendMutation] claims one staged send, submits it, and settles
    it.  Unlike the mutation runner it reconciles nothing, schedules retries at
    once, and rethrows a known failure after settling it. *)

From S2P Require Import Prelude.
From S2P Require Import JsNumber.
From S2P Require Import JsString.
From S2P Require Import JsCollections.
From S2P Require Import Errors.
From S2P Require Import DomainIds.
From S2P Require Import DomainEmail.
From S2P Require Import SendIntent.
From S2P Require Import PendingMutation.
From S2P Require Import Ports.
From S2P Require Import MemoryState.
From S2P Require Import MemoryFacts.
From S2P Require Import MailStore.
From S2P Require Import MemoryEngine.
From S2P Require Import EngineInterface.
From S2P Require Import StoreEffects.
From S2P Require Import Remote.
From S2P Require Import Mappers.
From S2P Require Import Prog.
Open Scope string_scope.
Open Scope list_scope.
Open Scope js_scope.

Inductive SendSkipReason : Type :=
| send_notFound | send_notDue | send_alreadyInFlight | send_terminal | send_claimConflict.

Inductive SendMutationOutcome : Type :=
| send_sent
| send_needsReconciliation
| send_skipped (reason : SendSkipReason).

(** [MutationLookup]: found, or the reason it is skipped. *)
Inductive MutationLookup : Type :=
| LookupFound (mutation : SendMutation)
| LookupSkipped (reason : SendSkipReason).

(** ** The dependencies *)

Inductive OutboxCall : Type → Type :=
| OutboxPort {X : Type} (c : PortCall X) : OutboxCall X
| OutboxSubmit (message : SubmissionMessage) (idempotencyKey : MutationId) : OutboxCall SubmissionResult
| OutboxNow : OutboxCall MutationInstant.

Abbreviation outbox := (prog OutboxCall).

Definition isAmbiguousSubmissionFailure (error : exn) : bool :=
  match error with
  | ThrownRemoteError e => (e.(remote_retry) === retry_reconcile) || (e.(remote_outcome) === outcome_unknown)
  | _ => true
  end.

Definition isRetryableRemoteFailure (error : exn) : bool :=
  match error with
  | ThrownRemoteError e => (e.(remote_retry) === safeImmediate) || (e.(remote_retry) === safeBackoff)
  | _ => false
  end.

Definition status_string (s : MutationStatus) : string :=
  match s with
  | st_pending => "pending" | st_inFlight => "inFlight" | st_retrying => "retrying"
  | st_confirmed => "confirmed" | st_failedTerminal => "failedTerminal"
  end.
Definition kind_string (k : MutationKind) : string :=
  match k with
  | kind_send => "send" | kind_keyword => "keyword" | kind_mailboxMembership => "mailboxMembership"
  end.

Definition swap (expected next : PendingMutation) : outbox WriteResult :=
  await (OutboxPort (Write (OpReplacePendingMutationIfCurrent expected next))).

Definition settleKnownFailure (inFlight : PendingMutation) (err : exn) : outbox unit :=
  next ← (if isRetryableRemoteFailure err then
            now ← await OutboxNow; of_outcome (scheduleMutationRetry inFlight now)
          else of_outcome (failMutationTerminal inFlight));
  result ← swap inFlight next;
  match result with
  | PortOk _ => Ret tt
  | PortError kind =>
      Raise (Error ("replacePendingMutationIfCurrent(" +:+ status_string (mutation_status next) +:+
        ") failed: " +:+ write_error_string kind))
  end.

Definition readCurrentSendMutation (ak : AccountKey) (mutationId : MutationId) : outbox MutationLookup :=
  result ← await (OutboxPort (ReadPendingMutation ak mutationId));
  match result with
  | PortError kind => Raise (Error ("readPendingMutation failed: " +:+ read_error_string kind))
  | PortOk OptionalOwnerAbsent => Raise (Error ("Account " +:+ ak +:+ " is not registered locally"))
  | PortOk OptionalAbsent => Ret (LookupSkipped send_notFound)
  | PortOk (OptionalPresent value) =>
      match value with
      | MutSend m =>
          match m.(send_lifecycle) with
          | Pending _ => Ret (LookupFound m)
          | Retrying _ nextAttemptAt =>
              now ← await OutboxNow;
              if string_leb nextAttemptAt now then Ret (LookupFound m)
              else Ret (LookupSkipped send_notDue)
          | InFlight _ => Ret (LookupSkipped send_alreadyInFlight)
          | Confirmed _ _ | FailedTerminal _ => Ret (LookupSkipped send_terminal)
          end
      | other =>
          Raise (Error ("Mutation " +:+ mutationId +:+ " is not a SendMutation (kind: " +:+
            kind_string (mutation_kind other) +:+ ")"))
      end
  end.

(** After the submission was accepted: confirm and remove. *)
Definition confirmSubmitted (ak : AccountKey) (mutationId : MutationId) (inFlight : SendMutation)
    (emailId : RemoteEmailId) : outbox SendMutationOutcome :=
  id ← of_outcome (localEmailId ak emailId);
  confirmed ← of_outcome (confirmSendMutation inFlight (sendConfirmation id));
  confirmResult ← swap (MutSend inFlight) (MutSend confirmed);
  match confirmResult with
  | PortError kind =>
      Raise (Error ("replacePendingMutationIfCurrent(confirmed) failed: " +:+ write_error_string kind))
  | PortOk _ =>
      removeResult ← await (OutboxPort (Write (OpRemoveConfirmedMutation ak mutationId)));
      match removeResult with
      | PortError kind => Raise (Error ("removeConfirmedMutation failed: " +:+ write_error_string kind))
      | PortOk _ => Ret send_sent
      end
  end.

(** After the claim: submit and settle. *)
Definition submitClaimed (ak : AccountKey) (remoteAccountId : RemoteAccountId) (mutationId : MutationId)
    (inFlight : SendMutation) : outbox SendMutationOutcome :=
  message ← of_outcome (submissionMessageFromSendIntent remoteAccountId inFlight.(send_intent));
  submitted ← prog_try
    (result ← await (OutboxSubmit message inFlight.(send_mutationId)); Ret (Some result))
    (λ err,
       if isAmbiguousSubmissionFailure err then Ret None
       else settleKnownFailure (MutSend inFlight) err;; Raise err);
  match submitted with
  | Some {| submission_emailId := Some emailId |} => confirmSubmitted ak mutationId inFlight emailId
  | _ => Ret send_needsReconciliation
  end.

Definition processSendMutation (ak : AccountKey) (remoteAccountId : RemoteAccountId)
    (mutationId : MutationId) : outbox SendMutationOutcome :=
  lookup ← readCurrentSendMutation ak mutationId;
  match lookup with
  | LookupSkipped reason => Ret (send_skipped reason)
  | LookupFound expected =>
      started ← of_outcome (startMutationAttempt (MutSend expected));
      match started with
      | MutSend inFlight =>
          claimed ← swap (MutSend expected) (MutSend inFlight);
          match claimed with
          | PortError write_conflict => Ret (send_skipped send_claimConflict)
          | PortError kind =>
              Raise (Error ("replacePendingMutationIfCurrent(inFlight) failed: " +:+
                write_error_string kind))
          | PortOk _ => submitClaimed ak remoteAccountId mutationId inFlight
          end
      | _ => Raise (TypeError "unreachable: a send's next state is a send")
      end
  end.

(** ** The order of its calls *)

Inductive outbox_phase : Type :=
| OutboxIdle
| OutboxFound (m : SendMutation)
| OutboxClaimed (m : SendMutation)
| OutboxSubmitted (m : SendMutation).

Definition sendable (m : SendMutation) : bool :=
  match m.(send_lifecycle) with Pending _ | Retrying _ _ => true | _ => false end.

(** Only a claimed send is submitted, once, under its own id; and every write is a
    Domain step of a mutation, or removes a confirmed one. *)
Definition outbox_allowed X (p : outbox_phase) (c : OutboxCall X) : Prop :=
  match c with
  | OutboxSubmit message id => ∃ m, p = OutboxClaimed m ∧ id = m.(send_mutationId) ∧
      message.(message_draft).(draft_to) = m.(send_intent).(intent_to) ∧
      m.(send_intent).(intent_securityMode) = mode_plain
  | OutboxPort (Write (OpReplacePendingMutationIfCurrent expected next)) => domain_step expected next
  | OutboxPort (Write (OpRemoveConfirmedMutation _ _)) => ∃ m, p = OutboxSubmitted m
  | OutboxPort (Write _) => False
  | _ => True
  end.

Definition outbox_watch X (p : outbox_phase) (c : OutboxCall X) : outcome exn X → outbox_phase :=
  match c in OutboxCall X return outcome exn X → outbox_phase with
  | OutboxPort c =>
      match c in PortCall X return outcome exn X → outbox_phase with
      | ReadPendingMutation _ _ => λ r,
          match p, r with
          | OutboxIdle, Return (PortOk (OptionalPresent (MutSend m))) =>
              if sendable m then OutboxFound m else p
          | _, _ => p
          end
      | Write (OpReplacePendingMutationIfCurrent expected next) => λ r,
          match p, next, r with
          | OutboxFound m, MutSend m', Return (PortOk _) =>
              if bool_decide (expected = MutSend m) &&
                 bool_decide (startMutationAttempt (MutSend m) = Return (MutSend m'))
              then OutboxClaimed m' else p
          | _, _, _ => p
          end
      | _ => λ _, p
      end
  | OutboxSubmit _ _ => λ _, match p with OutboxClaimed m => OutboxSubmitted m | _ => p end
  | OutboxNow => λ _, p
  end.

Definition outbox_protocol : monitor OutboxCall outbox_phase :=
  {| allowed := outbox_allowed; watch := outbox_watch; possible := λ _ _ _, True |}.

Lemma submission_message_return rid intent message :
  submissionMessageFromSendIntent rid intent = Return message →
  intent.(intent_securityMode) = mode_plain ∧ message.(message_draft).(draft_to) = intent.(intent_to).
Proof.
  unfold submissionMessageFromSendIntent. rewrite seq_return, throw_if_return, differs_false.
  intros (Hmode & H). rewrite bind_return in H. by destruct H as (i & _ & [= <-]).
Qed.

Lemma settleKnownFailure_obeys m err p :
  obeys outbox_protocol (settleKnownFailure (MutSend m) err) (OutboxSubmitted p)
    (λ _ q, q = OutboxSubmitted p).
Proof.
  apply obeys_mbind.
  apply (obeys_mono _ _ _ (λ r q, q = OutboxSubmitted p ∧
    match r with Return next => domain_step (MutSend m) next | Throw _ => True end)).
  - intros [next|e] q [-> Hstep]; [|done]. apply obeys_mbind, obeys_await; [done|].
    by intros [[]|e] _.
  - destruct (isRetryableRemoteFailure err).
    + apply obeys_mbind, obeys_await; [done|]. intros [now|e] _; [|done]. apply obeys_outcome.
      split; [done|]. destruct (scheduleMutationRetry _ _) eqn:H; [|done]. by eapply step_retry.
    + apply obeys_outcome. split; [done|]. destruct (failMutationTerminal _) eqn:H; [|done].
      by eapply step_fail.
Qed.

Lemma confirmSubmitted_obeys ak id m e :
  obeys outbox_protocol (confirmSubmitted ak id m e) (OutboxSubmitted m) (λ _ _, True).
Proof.
  apply obeys_mbind, obeys_outcome.
  destruct (localEmailId ak e) as [eid|]; [|done]. apply obeys_mbind, obeys_outcome.
  destruct (confirmSendMutation _ _) as [c|] eqn:Hc; [|done].
  apply obeys_mbind, obeys_await; [by eapply step_confirm_send|]. intros [[u|k]|e'] _; try done.
  apply obeys_mbind, obeys_await; [by exists m|]. by intros [[]|e'] _.
Qed.

Lemma submitClaimed_obeys ak rid id m :
  obeys outbox_protocol (submitClaimed ak rid id m) (OutboxClaimed m) (λ _ _, True).
Proof.
  apply obeys_mbind, obeys_outcome.
  destruct (submissionMessageFromSendIntent _ _) as [message|] eqn:Hm; [|done].
  apply submission_message_return in Hm as [Hmode Hto]. apply obeys_mbind.
  apply (obeys_mono _ _ _ (λ r p, p = OutboxSubmitted m)).
  - intros [[[[e|] receipt]|]|e] p ->; try done. apply confirmSubmitted_obeys.
  - apply obeys_try, obeys_mbind, obeys_await; [by exists m|]. intros [result|err] _; [done|].
    cbv beta iota. change (watch outbox_protocol _ _ _) with (OutboxSubmitted m).
    destruct (isAmbiguousSubmissionFailure err); [done|].
    apply obeys_mbind. eapply obeys_mono; [|apply settleKnownFailure_obeys]. by intros [] q.
Qed.

Lemma processSendMutation_obeys ak rid id :
  obeys outbox_protocol (processSendMutation ak rid id) OutboxIdle (λ _ _, True).
Proof.
  apply obeys_mbind.
  apply (obeys_mono _ _ _ (λ r p, match r with
    | Return (LookupFound m) => p = OutboxFound m | _ => True end)).
  - intros [[m|reason]|e] p; [|done..]. intros ->. apply obeys_mbind, obeys_outcome.
    destruct (startMutationAttempt (MutSend m)) as [[m'| |]|] eqn:Hst; try done.
    apply obeys_mbind, obeys_await; [by eapply step_start|]. intros [[u|[]]|e] _; try done.
    simpl. rewrite !bool_decide_true by done. apply submitClaimed_obeys.
  - apply obeys_mbind, obeys_await; [done|]. intros [[[| |value]|kind]|e] _; try done. cbv beta iota.
    destruct value as [m|m|m]; try done. simpl. unfold sendable.
    destruct (send_lifecycle m) eqn:Hl; try done.
    apply (obeys_mbind outbox_protocol (await OutboxNow)), obeys_await; [done|].
    intros [now|e] _; [|done]. simpl. by destruct (string_leb _ _).
Qed.

(** ** What one [processSendMutation] achieves on an engine *)

Open Scope list_scope.

(** The submission and the clock, during one call. *)
Record OutboxSide : Type := mkOutboxSide {
  side_submit : SubmissionMessage → MutationId → outcome exn SubmissionResult;
  side_now : MutationInstant;
}.

Section outbox.
Context {W : Type} `{!LocalEngine W} (side : OutboxSide).

Definition outbox_handler X (c : OutboxCall X) (w : W) : outcome exn X * W :=
  match c in OutboxCall X return outcome exn X * W with
  | OutboxPort c => engine_answer c w
  | OutboxSubmit message key => (side.(side_submit) message key, w)
  | OutboxNow => (Return side.(side_now), w)
  end.

(** The send may be attempted now. *)
Definition send_due (s : SendMutation) : Prop :=
  match s.(send_lifecycle) with
  | Pending _ => True
  | Retrying _ nextAttemptAt => string_leb nextAttemptAt side.(side_now) = true
  | _ => False
  end.

Context (s s' : SendMutation).
Context (Hstart : startMutationAttempt (MutSend s) = Return (MutSend s')).

Lemma swap_runs w m m' (Q : outcome exn WriteResult → W → Prop) :
  engine_ok w → stored w m → mutation_sets_wf m → domain_step m m' →
  (∀ w', engine_ok w' → stored w' m' → Q (Return (PortOk tt)) w') →
  runs outbox_handler (swap m m') w Q.
Proof.
  intros Hok Hm Hsets Hstep HQ. destruct (engine_swap w m m' Hok Hm Hsets Hstep) as (w' & Hrun & Hok' & Hm' & _).
  eapply runs_call; [exact Hrun|]. by apply HQ.
Qed.

Lemma lookup_runs w (Q : outcome exn MutationLookup → W → Prop) :
  engine_ok w → stored w (MutSend s) → st_account (engine_store w) s.(send_accountKey) ≠ None →
  send_due s →
  (∀ w', engine_ok w' → stored w' (MutSend s) → Q (Return (LookupFound s)) w') →
  runs outbox_handler (readCurrentSendMutation s.(send_accountKey) s.(send_mutationId)) w Q.
Proof.
  intros Hok Hs Hreg Hdue HQ. set (c := ReadPendingMutation s.(send_accountKey) s.(send_mutationId)).
  pose proof (engine_answers _ c w Hok I) as Hr. simpl in Hr. unfold stored in Hs. simpl in Hs.
  rewrite Hs in Hr. destruct (st_account _ _) as [a|]; [|done]. simpl in Hr.
  assert (∀ w', w' = (engine_answer c w).2 → Q (Return (LookupFound s)) w') as HQ'.
  { intros w' ->. apply HQ; [by apply engine_ok_kept|]. unfold stored.
    destruct (equiv_lookups _ _ (engine_reads _ c w eq_refl)) as (_ & _ & _ & Hmut). by rewrite Hmut. }
  assert (outbox_handler _ (OutboxPort c) w =
    (Return (PortOk (OptionalPresent (MutSend s))), (engine_answer c w).2)) as Hrun
    by (simpl; rewrite <- Hr; by destruct (engine_answer c w)).
  apply runs_bind. eapply runs_call; [exact Hrun|]. cbv beta iota.
  unfold send_due in Hdue. destruct (send_lifecycle s) as [n|n|n at_|n k|n]; try done.
  - by apply HQ'.
  - apply runs_bind, runs_await. cbn [outbox_handler fst snd]. rewrite Hdue. by apply HQ'.
Qed.

(** The claim: what follows it decides the result. *)
Lemma processSendMutation_claims w rid (Q : outcome exn SendMutationOutcome → W → Prop) :
  engine_ok w → stored w (MutSend s) → st_account (engine_store w) s.(send_accountKey) ≠ None →
  send_due s →
  (∀ w', engine_ok w' → stored w' (MutSend s') →
    runs outbox_handler (submitClaimed s.(send_accountKey) rid s.(send_mutationId) s') w' Q) →
  runs outbox_handler (processSendMutation s.(send_accountKey) rid s.(send_mutationId)) w Q.
Proof.
  intros Hok Hs Hreg Hdue HQ. apply runs_bind, lookup_runs; [done..|]. intros w1 Hok1 Hs1.
  apply runs_bind, runs_outcome. rewrite Hstart. apply runs_bind, swap_runs; [done..| |].
  - by apply step_start.
  - intros w2 Hok2 Hs2. by apply HQ.
Qed.

(** An encrypted send: the message is built after the claim and outside the [try]. *)
Lemma encrypted_send_runs w rid :
  engine_ok w → stored w (MutSend s) → st_account (engine_store w) s.(send_accountKey) ≠ None →
  send_due s → s'.(send_intent).(intent_securityMode) ≠ mode_plain →
  runs outbox_handler (processSendMutation s.(send_accountKey) rid s.(send_mutationId)) w (λ r w',
    r = Throw (TypeError "Encrypted SendIntent cannot use the plaintext submission converter") ∧
    stored w' (MutSend s')).
Proof.
  intros Hok Hs Hreg Hdue Hmode. apply processSendMutation_claims; [done..|].
  intros w' Hok' Hs'. apply runs_bind, runs_outcome. unfold submissionMessageFromSendIntent.
  rewrite (proj2 (differs_true _ _)) by done. done.
Qed.
End outbox.
