(* ===== verification/RunnerBehaviour.v ===== *)
(** * What a run of the mutation runner achieves

    One [runMutation] over an engine, with a remote side that answers as given. *)

From S2P Require Import Prelude.
From S2P Require Import JsNumber.
From S2P Require Import JsString.
From S2P Require Import JsCollections.
From S2P Require Import Errors.
From S2P Require Import DomainIds.
From S2P Require Import SendIntent.
From S2P Require Import PendingMutation.
From S2P Require Import Ports.
From S2P Require Import MemoryState.
From S2P Require Import MemoryFacts.
From S2P Require Import MailStore.
From S2P Require Import MemoryEngine.
From S2P Require Import EngineInterface.
From S2P Require Import StoreEffects.
From S2P Require Import Remote.
From S2P Require Import Prog.
From S2P Require Import E2ee.
From S2P Require Import MutationRunner.
From S2P Require Import RunnerSafety.
Open Scope list_scope.

(** The remote side, the clock and the cryptography, during one run. *)
Record Outside : Type := mkOutside {
  out_connected : bool;
  out_submit : RemoteSubmissionDraft → MutationId → outcome exn SubmissionResult;
  out_keyword : RemoteEmailId → RemoteKeywordChange → outcome exn unit;
  out_membership : RemoteEmailId → RemoteMembershipChange → outcome exn unit;
  out_reconcileSend : MutationId → outcome exn RemoteMutationEvidence;
  out_reconcileMembership : MutationId → outcome exn RemoteMutationEvidence;
  out_encrypt : EncryptForInput → outcome exn (E2eeResult BoxplotE2eeEnvelope);
  out_refresh : outcome exn unit;
  out_now : MutationInstant;
}.

Section behaviour.
Context {W : Type} `{!LocalEngine W} (outside : Outside) (options : RunnerOptions).

Definition runner_handler X (c : RunnerCall X) (w : W) : outcome exn X * W :=
  match c in RunnerCall X return outcome exn X * W with
  | Port c => engine_answer c w
  | IsConnected _ => (Return outside.(out_connected), w)
  | Submit _ message key => (outside.(out_submit) message key, w)
  | ApplyKeywordChange _ e change => (outside.(out_keyword) e change, w)
  | ApplyMembershipChange _ e change => (outside.(out_membership) e change, w)
  | ReconcileSend _ key => (outside.(out_reconcileSend) key, w)
  | ReconcileMembership _ key _ _ => (outside.(out_reconcileMembership) key, w)
  | EncryptFor input => (outside.(out_encrypt) input, w)
  | RefreshAccount _ => (outside.(out_refresh), w)
  | Now => (Return outside.(out_now), w)
  end.

Definition execute {A} (p : runner A) (w : W) : outcome exn A * W := run runner_handler p w.

Lemma execute_bind {A B} (p : runner A) (f : A → runner B) w :
  execute (p ≫= f) w =
    match execute p w with
    | (Return a, w') => execute (f a) w'
    | (Throw e, w') => (Throw e, w')
    end.
Proof. apply run_bind. Qed.

Lemma execute_bind_return {A B} (p : runner A) (f : A → runner B) w a w' :
  execute p w = (Return a, w') → execute (p ≫= f) w = execute (f a) w'.
Proof. intros H. rewrite execute_bind. by rewrite H. Qed.

Lemma execute_bind_throw {A B} (p : runner A) (f : A → runner B) w e w' :
  execute p w = (Throw e, w') → execute (p ≫= f) w = (Throw e, w').
Proof. intros H. rewrite execute_bind. by rewrite H. Qed.

Lemma execute_try_return {A} (p : runner A) h w a w' :
  execute p w = (Return a, w') → execute (prog_try p h) w = (Return a, w').
Proof. intros H. unfold execute. rewrite run_try. by setoid_rewrite H. Qed.

Lemma execute_try_throw {A} (p : runner A) h w e w' :
  execute p w = (Throw e, w') → execute (prog_try p h) w = execute (h e) w'.
Proof. intros H. unfold execute. rewrite run_try. by setoid_rewrite H. Qed.

Lemma execute_await {X} (c : RunnerCall X) w : execute (await c) w = runner_handler X c w.
Proof. unfold execute. simpl. by destruct (runner_handler X c w) as [[] ?]. Qed.

Lemma execute_outcome {A} (o : outcome exn A) w : execute (of_outcome o) w = (o, w).
Proof. by destruct o. Qed.

Lemma execute_pure_return {A B} (o : outcome exn A) (f : A → runner B) w a :
  o = Return a → execute (of_outcome o ≫= f) w = execute (f a) w.
Proof. by intros ->. Qed.

(** Run the first statement of a program, whose outcome [H] gives. *)
Ltac step_run H := etransitivity; [eapply execute_bind_return; exact H|]; cbv beta iota.

Ltac step_pure H := etransitivity; [eapply execute_pure_return; exact H|]; cbv beta iota.

(** ** Swaps along Domain edges succeed *)

Lemma swap_succeeds w m m' :
  engine_ok w → stored w m → mutation_sets_wf m → domain_step m m' →
  ∃ w', execute (replaceMutation m m') w = (Return (PortOk tt), w') ∧ engine_ok w' ∧ stored w' m' ∧
    ∀ k, k ≠ (mutation_accountKey m, mutation_id m) →
      st_mutation (engine_store w') k = st_mutation (engine_store w) k.
Proof.
  intros Hok Hm Hsets Hstep. destruct (engine_swap w m m' Hok Hm Hsets Hstep) as (w' & Hrun & H).
  exists w'. split; [|done]. unfold replaceMutation. by rewrite execute_await.
Qed.

Lemma replace_succeeds w m m' :
  engine_ok w → stored w m → mutation_sets_wf m → domain_step m m' →
  ∃ w', execute (replace_ m m') w = (Return true, w') ∧ engine_ok w' ∧ stored w' m' ∧
    ∀ k, k ≠ (mutation_accountKey m, mutation_id m) →
      st_mutation (engine_store w') k = st_mutation (engine_store w) k.
Proof.
  intros Hok Hm Hsets Hstep. destruct (swap_succeeds w m m' Hok Hm Hsets Hstep) as (w' & Hrun & H).
  exists w'. split; [|done]. unfold replace_.
  by step_run Hrun.
Qed.

Lemma remove_succeeds w m n c :
  engine_ok w → stored w m → mutation_lifecycle m = Confirmed n c →
  ∃ w', execute (removeConfirmed m) w = (Return tt, w') ∧ engine_ok w' ∧
    ∀ k, st_mutation (engine_store w') k =
      if decide (k = (mutation_accountKey m, mutation_id m)) then None
      else st_mutation (engine_store w) k.
Proof.
  intros Hok Hm Hl. unfold removeConfirmed. rewrite execute_bind, execute_await. simpl.
  set (op := OpRemoveConfirmedMutation (mutation_accountKey m) (mutation_id m)).
  assert (spec op (engine_store w) =
    Accepted (st_with_mutation (upd (mutation_accountKey m, mutation_id m) None
      (st_mutation (engine_store w))) (engine_store w))
      (mkBatch (PendingMutationsChanged (mutation_accountKey m)) [])) as Hspec.
  { simpl. unfold spec_remove. unfold stored in Hm. rewrite Hm. unfold reject_unless.
    rewrite decide_True; [done|]. unfold mutation_status. by rewrite Hl. }
  pose proof (engine_answers _ (Write op) w Hok I) as Hr. simpl in Hr. simpl in Hspec. rewrite Hspec in Hr.
  pose proof (engine_writes op w Hok I) as Hw. unfold performed in Hw. simpl in Hw. rewrite Hspec in Hw.
  exists (engine_answer (Write op) w).2. split_and!.
  - destruct (engine_answer (Write op) w) as [r w'] eqn:He. simpl in Hr. by rewrite Hr.
  - by apply engine_ok_kept.
  - intros k. rewrite (equiv_mutation _ _ _ Hw). simpl. unfold upd.
    destruct (decide _) as [<-|]; [by rewrite decide_True | by rewrite decide_False].
Qed.

Lemma confirmAndRemove_succeeds w m m' n c :
  engine_ok w → stored w m → mutation_sets_wf m → domain_step m m' →
  mutation_lifecycle m' = Confirmed n c →
  ∃ w', execute (confirmAndRemove m m') w = (Return true, w') ∧ engine_ok w' ∧
    ∀ k, st_mutation (engine_store w') k =
      if decide (k = (mutation_accountKey m, mutation_id m)) then None
      else st_mutation (engine_store w) k.
Proof.
  intros Hok Hm Hsets Hstep Hl.
  destruct (replace_succeeds w m m' Hok Hm Hsets Hstep) as (w1 & Hrun & Hok1 & Hm1 & Hrest).
  destruct (remove_succeeds w1 m' n c Hok1 Hm1 Hl) as (w2 & Hrun2 & Hok2 & Hrest2).
  destruct (domain_step_key m m' Hstep) as [Ha Hi].
  exists w2. unfold confirmAndRemove. split_and!; [step_run Hrun; by step_run Hrun2 | done |]. intros k. rewrite Hrest2, Ha, Hi. destruct (decide _) as [|Hk]; [done|].
  apply Hrest. by rewrite Ha, Hi.
Qed.

(** ** Claiming *)

Lemma claimed_lifecycle m m' :
  startMutationAttempt m = Return m' →
  ∃ z, mutation_lifecycle m' = InFlight (Int z) ∧ (1 <= z <= MAX_SAFE_INTEGER)%Z ∧
    m' = replaceLifecycle m (ToInFlight (Int z)).
Proof.
  intros [[_ ->]|(z & a & _ & Hz & ->)]%startMutationAttempt_return; eexists; rewrite lifecycle_replace;
    (split_and!; [done | unfold MAX_SAFE_INTEGER in *; lia.. | done]).
Qed.

(** ** Settling *)

(** What the settlement of a failed effect comes to. *)
Inductive settlement : Type := settle_retry | settle_ambiguous | settle_terminal.

Definition settlement_of (e : exn) : settlement :=
  match e with
  | RemoteMutationSourceError failure_notConnected => settle_retry
  | RemoteMutationSourceError (failure_remote remote) =>
      match remote.(remote_outcome), remote.(remote_retry) with
      | outcome_unknown, _ | _, retry_reconcile => settle_ambiguous
      | knownNotApplied, (safeImmediate | safeBackoff) => settle_retry
      | _, _ => settle_terminal
      end
  | _ => settle_ambiguous
  end.

Section settling.
Context (w : W) (m : PendingMutation) (z : Z) (Hok : engine_ok w) (Hm : stored w m).
Context (Hsets : mutation_sets_wf m) (Hl : mutation_lifecycle m = InFlight (Int z)).
Context (Hz : (1 <= z <= MAX_SAFE_INTEGER)%Z).

Lemma settleTerminal_run :
  ∃ w', execute (settleTerminal m) w = (Return outcome_failedTerminal, w') ∧ engine_ok w' ∧
    stored w' (replaceLifecycle m (ToFailedTerminal (Int z))).
Proof.
  set (next := replaceLifecycle m (ToFailedTerminal (Int z))).
  assert (failMutationTerminal m = Return next) as Hf by (apply failMutationTerminal_return; by exists z).
  destruct (replace_succeeds w m next Hok Hm Hsets (step_fail _ _ Hf)) as (w' & Hrun & ? & ? & _).
  exists w'. split_and!; [|done..]. unfold settleTerminal. step_pure Hf. by step_run Hrun.
Qed.

Lemma settleRetry_run instant :
  nextRetryInstant options.(parse_other) (Int z) outside.(out_now) = Return instant →
  ∃ w', execute (settleRetry options m) w = (Return outcome_retrying, w') ∧ engine_ok w' ∧
    stored w' (replaceLifecycle m (ToRetrying (Int z) instant)).
Proof.
  intros Hi. set (next := replaceLifecycle m (ToRetrying (Int z) instant)).
  assert (scheduleMutationRetry m instant = Return next) as Hs
    by (apply scheduleMutationRetry_return; by exists z).
  destruct (replace_succeeds w m next Hok Hm Hsets (step_retry _ _ _ Hs)) as (w' & Hrun & ? & ? & _).
  exists w'. split_and!; [|done..]. unfold settleRetry. step_run (execute_await Now w).
  replace (mutation_attemptCount m) with (Int z) by (unfold mutation_attemptCount; by rewrite Hl).
  step_pure Hi. step_pure Hs. by step_run Hrun.
Qed.

(** The state in which [settleRemoteFailure] leaves a claimed mutation. *)
Definition settles (e : exn) (instant : MutationInstant) (o : MutationExecutionOutcome) (w' : W) : Prop :=
  match settlement_of e with
  | settle_retry => o = outcome_retrying ∧ stored w' (replaceLifecycle m (ToRetrying (Int z) instant))
  | settle_ambiguous => o = outcome_needsReconciliation ∧ stored w' m
  | settle_terminal =>
      o = outcome_failedTerminal ∧ stored w' (replaceLifecycle m (ToFailedTerminal (Int z)))
  end.

Lemma settleRemoteFailure_run e instant :
  nextRetryInstant options.(parse_other) (Int z) outside.(out_now) = Return instant →
  ∃ o w', execute (settleRemoteFailure options m e) w = (Return o, w') ∧ engine_ok w' ∧
    settles e instant o w'.
Proof.
  intros Hi. destruct settleTerminal_run as (wt & Ht & Hokt & Hst).
  destruct (settleRetry_run instant Hi) as (wr & Hr & Hokr & Hsr).
  unfold settleRemoteFailure, settles.
  destruct e as [| | | |[| |remote|]| | | | | | |]; try (by exists outcome_needsReconciliation, w);
    [by exists outcome_retrying, wr|]. simpl.
  destruct (remote_outcome remote), (remote_retry remote); simpl;
    first [by exists outcome_needsReconciliation, w | by exists outcome_retrying, wr
          | by exists outcome_failedTerminal, wt].
Qed.
End settling.

(** ** A whole run of a send *)

Definition registered (w : W) (ak : AccountKey) : Prop := st_account (engine_store w) ak ≠ None.

(** Not yet attempted, or due for another attempt. *)
Definition due (m : PendingMutation) : Prop :=
  match mutation_lifecycle m with
  | Pending _ => True
  | Retrying _ nextAttemptAt => string_gtb nextAttemptAt outside.(out_now) = false
  | _ => False
  end.

Definition same_mutations (w w' : W) (except : AccountKey * MutationId) : Prop :=
  ∀ k, k ≠ except → st_mutation (engine_store w') k = st_mutation (engine_store w) k.

Lemma readMutation_run w m :
  engine_ok w → stored w m → registered w (mutation_accountKey m) →
  ∃ w', execute (readMutation (mutation_accountKey m) (mutation_id m)) w = (Return (Some m), w') ∧
    engine_ok w' ∧ (∀ k, st_mutation (engine_store w') k = st_mutation (engine_store w) k) ∧
    mutation_sets_wf m.
Proof.
  intros Hok Hm Hreg. set (c := ReadPendingMutation (mutation_accountKey m) (mutation_id m)).
  pose proof (engine_answers _ c w Hok I) as Hr. simpl in Hr. unfold stored in Hm. rewrite Hm in Hr.
  unfold registered in Hreg. destruct (st_account _ _) as [a|]; [|done]. simpl in Hr.
  exists (engine_answer c w).2. split_and!.
  - assert (execute (await (Port c)) w =
      (Return (PortOk (OptionalPresent m)), (engine_answer c w).2)) as Hrun.
    { rewrite execute_await. simpl. rewrite <- Hr. by destruct (engine_answer c w). }
    unfold readMutation. by step_run Hrun.
  - by apply engine_ok_kept.
  - intros k. by apply equiv_mutation, engine_reads.
  - eapply (engine_answer_wf _ c w). exact Hr.
Qed.

Section send.
Context (w : W) (s s' : SendMutation) (message : RemoteSubmissionDraft).
Context (Hok : engine_ok w) (Hs : stored w (MutSend s)) (Hreg : registered w s.(send_accountKey)).
Context (Hdue : due (MutSend s)) (Hconn : outside.(out_connected) = true).
Context (Hplain : s.(send_intent).(intent_securityMode) = mode_plain).
Context (Hdraft : submissionDraft s.(send_intent)
  (SubmitPlain s.(send_intent).(intent_body).(send_text) s.(send_intent).(intent_body).(send_html))
  = Return message).
Context (Hstart : startMutationAttempt (MutSend s) = Return (MutSend s')).

(** The run comes to submit the claimed mutation. *)
Lemma send_run :
  ∃ w1, engine_ok w1 ∧ stored w1 (MutSend s') ∧
    same_mutations w w1 (s.(send_accountKey), s.(send_mutationId)) ∧
    execute (runMutation options s.(send_accountKey) s.(send_mutationId)) w =
    execute (executeSend options s' message) w1.
Proof.
  destruct (readMutation_run w (MutSend s) Hok Hs Hreg) as (w0 & Hread & Hok0 & Heq & Hsets).
  assert (stored w0 (MutSend s)) as Hs0 by (unfold stored; by rewrite Heq).
  destruct (swap_succeeds w0 _ _ Hok0 Hs0 Hsets (step_start _ _ Hstart))
    as (w1 & Hswap & Hok1 & Hs1 & Hothers).
  exists w1. split_and!; [done..| |].
  { intros k Hk. rewrite Hothers by done. apply Heq. }
  assert (execute (claimAndExecute options s.(send_accountKey) (MutSend s)) w0 =
          execute (executeSend options s' message) w1) as Hclaim.
  { unfold claimAndExecute.
    step_run (eq_trans (execute_await (IsConnected s.(send_accountKey)) w0)
      (f_equal (λ b, (Return b, w0)) Hconn)). simpl negb. cbv iota.
    assert (execute (p ← prepareSend s; Ret (Some p)) w0 = (Return (Some (PreparedReady message)), w0))
      as Hprep.
    { unfold prepareSend. rewrite Hplain, Hdraft. done. }
    step_run Hprep. step_pure Hstart. by step_run Hswap. }
  unfold runMutation. step_run Hread. unfold due in Hdue.
  destruct (mutation_lifecycle (MutSend s)); try done.
  step_run (execute_await Now w0). by rewrite Hdue.
Qed.

Lemma started_send :
  ∃ z, s'.(send_lifecycle) = InFlight (Int z) ∧ (1 <= z <= MAX_SAFE_INTEGER)%Z ∧
    s'.(send_accountKey) = s.(send_accountKey) ∧ s'.(send_mutationId) = s.(send_mutationId).
Proof.
  destruct (claimed_lifecycle _ _ Hstart) as (z & Hl & Hz & Heq). injection Heq as ->.
  by exists z.
Qed.

Lemma accepted_send_run e receipt :
  outside.(out_submit) message s.(send_mutationId) =
    Return {| submission_emailId := Some e; submission_receiptId := receipt |} →
  e ≠ "" →
  ∃ w', execute (runMutation options s.(send_accountKey) s.(send_mutationId)) w =
      (Return outcome_confirmed, w') ∧
    engine_ok w' ∧ st_mutation (engine_store w') (s.(send_accountKey), s.(send_mutationId)) = None ∧
    same_mutations w w' (s.(send_accountKey), s.(send_mutationId)).
Proof.
  intros Hsub He. destruct send_run as (w1 & Hok1 & Hs1 & Hothers & ->).
  destruct started_send as (z & Hl & Hz & Hak & Hid).
  set (id := scopedEmailId s'.(send_accountKey) e).
  assert (localEmailId s'.(send_accountKey) e = Return id) as Hlocal.
  { unfold localEmailId, jmapEmailIdFromString. by rewrite (proj2 (opaqueId_return e _ e)). }
  set (c := {| send_mutationId := s'.(send_mutationId); send_accountKey := s'.(send_accountKey);
               send_createdAt := s'.(send_createdAt); send_intent := s'.(send_intent);
               send_lifecycle := Confirmed (Int z) (sendConfirmation id) |}).
  assert (confirmSendMutation s' (sendConfirmation id) = Return c) as Hconf.
  { unfold confirmSendMutation. rewrite Hl. 
    apply seq_return. split; [by apply assertStarted_return, attempt_started_Int|].
    simpl. by rewrite bool_decide_true. }
  destruct (confirmAndRemove_succeeds w1 (MutSend s') (MutSend c) (Int z) (Some (sendConfirmation id))
    Hok1 Hs1 I (step_confirm_send _ _ _ Hconf) eq_refl) as (w' & Hrun & Hok' & Hmut).
  simpl in Hmut. rewrite Hak, Hid in Hmut. exists w'. split_and!; [|done| |].
  - apply execute_try_return. rewrite <- Hid in Hsub.
    step_run (eq_trans (execute_await (Submit s'.(send_accountKey) message s'.(send_mutationId)) w1)
      (f_equal (λ r, (r, w1)) Hsub)). simpl submission_emailId. cbv iota.
    unfold confirm_send. step_pure Hlocal. step_pure Hconf. by step_run Hrun.
  - rewrite Hmut. by rewrite decide_True.
  - intros k Hk. rewrite Hmut, decide_False by done. by apply Hothers.
Qed.

Lemma failed_send_run e :
  outside.(out_submit) message s.(send_mutationId) = Throw e →
  ∃ z, s'.(send_lifecycle) = InFlight (Int z) ∧
    ∀ instant, nextRetryInstant options.(parse_other) (Int z) outside.(out_now) = Return instant →
    ∃ o w', execute (runMutation options s.(send_accountKey) s.(send_mutationId)) w = (Return o, w') ∧
      engine_ok w' ∧ settles (MutSend s') z e instant o w'.
Proof.
  intros Hsub. destruct send_run as (w1 & Hok1 & Hs1 & Hothers & ->).
  destruct started_send as (z & Hl & Hz & Hak & Hid). exists z. split; [done|]. intros instant Hi.
  assert (mutation_lifecycle (MutSend s') = InFlight (Int z)) as Hl' by (simpl; by rewrite Hl).
  destruct (settleRemoteFailure_run w1 (MutSend s') z Hok1 Hs1 I Hl' Hz e instant Hi)
    as (o & w' & Hrun & Hok' & Hset).
  exists o, w'. split_and!; [|done..]. unfold executeSend.
  etransitivity; [eapply execute_try_throw, execute_bind_throw; rewrite execute_await; simpl;
    by rewrite Hid, Hsub | exact Hrun].
Qed.
End send.

(** ** What a run leaves alone *)

Lemma not_due_run w m :
  engine_ok w → stored w m → registered w (mutation_accountKey m) →
  match mutation_lifecycle m with
  | Retrying _ nextAttemptAt => string_gtb nextAttemptAt outside.(out_now) = true
  | FailedTerminal _ => True
  | _ => False
  end →
  ∃ reason w', execute (runMutation options (mutation_accountKey m) (mutation_id m)) w =
      (Return (outcome_skipped reason), w') ∧
    ∀ k, st_mutation (engine_store w') k = st_mutation (engine_store w) k.
Proof.
  intros Hok Hm Hreg Hdue. destruct (readMutation_run w m Hok Hm Hreg) as (w' & Hread & _ & Heq & _).
  destruct (mutation_lifecycle m) as [| |n at_| |] eqn:Hl; try done.
  - exists skip_notDue, w'. split; [|done]. unfold runMutation. step_run Hread. rewrite Hl.
    step_run (execute_await Now w'). by rewrite Hdue.
  - exists skip_terminal, w'. split; [|done]. unfold runMutation. step_run Hread. by rewrite Hl.
Qed.

(** ** The summary of [runAccount] *)

(** [n] outcomes have been counted. *)
Definition summary_of (n : nat) (s : MutationRunSummary) : Prop :=
  ∃ c r t q k : nat, (c + r + t + q + k = n)%nat ∧
    s = {| attempted := Int (Z.of_nat (c + r + t + q)); confirmed := Int (Z.of_nat c);
           retrying := Int (Z.of_nat r); terminal := Int (Z.of_nat t);
           reconciliation := Int (Z.of_nat q); skipped := Int (Z.of_nat k) |}.

Lemma add_one k : (Z.of_nat k < 2 ^ 53)%Z → num_add (Int (Z.of_nat k)) (Int 1) = Int (Z.of_nat (S k)).
Proof. intros. rewrite num_add_exact by lia. f_equal. lia. Qed.

Lemma countOutcome_summary n s o :
  (Z.of_nat n < 2 ^ 53)%Z → summary_of n s → summary_of (S n) (countOutcome s o).
Proof.
  intros Hn (c & r & t & q & k & Hsum & ->). unfold summary_of.
  destruct o; unfold countOutcome, bump; cbn [attempted confirmed retrying terminal reconciliation skipped];
    rewrite ?add_one by lia.
  - exists (S c), r, t, q, k. split; [lia|]. done.
  - exists c, (S r), t, q, k. split; [lia|]. do 2 f_equal. lia.
  - exists c, r, (S t), q, k. split; [lia|]. do 2 f_equal. lia.
  - exists c, r, t, (S q), k. split; [lia|]. do 2 f_equal. lia.
  - exists c, r, t, q, (S k). split; [lia|]. done.
Qed.

Lemma summarised l n acc s w w' ak :
  (Z.of_nat (n + length l) < 2 ^ 53)%Z → summary_of n acc →
  execute (prog_for l (λ summary mutation,
    outcome ← runMutation options ak (mutation_id mutation);
    Ret (countOutcome summary outcome)) acc) w = (Return s, w') →
  summary_of (n + length l) s.
Proof.
  revert n acc w. induction l as [|m l IH]; intros n acc w Hn Hacc.
  - intros [= <- _]. by rewrite Nat.add_0_r.
  - cbn [prog_for]. change (prog_bind ?g ?p) with (p ≫= g). rewrite !execute_bind.
    destruct (execute (runMutation options ak (mutation_id m)) w) as [[o|e] w1]; [|done].
    intros H. apply (IH (S n)) in H; simpl length in *.
    + by replace (n + S (length l))%nat with (S n + length l)%nat by lia.
    + lia.
    + apply countOutcome_summary; [lia | done].
Qed.

Lemma runAccount_summary w s w' ak :
  engine_ok w → execute (runAccount options ak) w = (Return s, w') →
  ∃ l : list PendingMutation,
    (∀ m, m ∈ l ↔ registered w ak ∧ mutation_accountKey m = ak ∧ stored w m) ∧
    NoDup (map mutation_id l) ∧ ((Z.of_nat (length l) < 2 ^ 53)%Z → summary_of (length l) s).
Proof.
  intros Hok. unfold runAccount. rewrite execute_bind, execute_await. simpl.
  set (c := ListPendingMutations ak).
  pose proof (engine_answers _ c w Hok I) as Hr. simpl in Hr.
  destruct (engine_answer c w) as [[[[|l]|kind]|e] w1]; try done; simpl in *.
  - intros [= <- <-]. exists []. split_and!; [|constructor|].
    + intros m. split; [intros H; by apply not_elem_of_nil in H|]. by intros [? _].
    + intros _. by exists 0%nat, 0%nat, 0%nat, 0%nat, 0%nat.
  - destruct Hr as (Hreg & Hnd & Hl). intros Hrun. exists l. split_and!; [|done|].
    + intros m. rewrite Hl. unfold registered, stored. split; [|naive_solver].
      intros [<- ?]. by split_and!.
    + intros Hlen. apply (summarised l 0) in Hrun; [done|done|].
      by exists 0%nat, 0%nat, 0%nat, 0%nat, 0%nat.
Qed.

(** ** Schedules: which task makes the next call *)

Definition next_call (s : system RunnerCall unit W) (i : nat) : system RunnerCall unit W :=
  match s.(programs) !! i with
  | Some (@Call _ _ X c k) =>
      let answer := runner_handler X c s.(world) in
      mkSystem (<[i := k answer.1]> s.(programs)) answer.2 (s.(history) ++ [Event c answer.1])
  | _ => s
  end.

Definition run_schedule (schedule : list nat) (s : system RunnerCall unit W) :
    system RunnerCall unit W :=
  fold_left next_call schedule s.

Lemma run_schedule_reaches ak id schedule s : reaches ak id s (run_schedule schedule s).
Proof.
  revert s. induction schedule as [|i schedule IH]; intros s; [apply rtc_refl|].
  simpl. etransitivity; [|apply IH]. unfold next_call. destruct s as [ps w h]. simpl.
  destruct (ps !! i) as [[a|e|X c k]|] eqn:Hi; [apply rtc_refl..| |apply rtc_refl].
  apply rtc_once, Pool_step; [done|].
  destruct c; simpl; first [apply rtc_refl | intros _; by destruct (engine_answer c w)].
Qed.
End behaviour.
