(* ===== verification/Fixtures.v ===== *)
(** * A small mail store, for the concrete instances of the theorems

    One account with an inbox, an archive and two messages, built by the
    engine's own writes; one staged send. *)

From S2P Require Import Prelude.
From S2P Require Import JsNumber.
From S2P Require Import JsString.
From S2P Require Import JsCollections.
From S2P Require Import Errors.
From S2P Require Import DomainIds.
From S2P Require Import DomainEmail.
From S2P Require Import DomainMailbox.
From S2P Require Import MailboxView.
From S2P Require Import SendIntent.
From S2P Require Import PendingMutation.
From S2P Require Import Ports.
From S2P Require Import MemoryState.
From S2P Require Import MemorySyncPort.
From S2P Require Import MailStore.
From S2P Require Import MemoryEngine.
From S2P Require Import EngineInterface.
From S2P Require Import StoreEffects.
From S2P Require Import Remote.
From S2P Require Import E2ee.
From S2P Require Import MutationRunner.
From S2P Require Import RunnerBehaviour.
Open Scope string_scope.
Open Scope list_scope.

Definition ana : AccountKey := "ana".
Definition bob : AccountKey := "bob".

Definition ana_account : Account := account ana (remoteAccountRef "service" "A1").

Definition all_rights : MailboxRights :=
  {| mayReadItems := true; mayAddItems := true; mayRemoveItems := true; maySetSeen := true;
     maySetKeywords := true; maySubmit := true |}.

Definition sample_mailbox (id name : string) : Mailbox :=
  {| mailbox_id := scopedMailboxId ana id; mailbox_name := name; mailbox_parent := None;
     mailbox_role := None; mailbox_sortOrder := Int 0; mailbox_totalEmails := Int 2;
     mailbox_unreadEmails := Int 1; mailbox_rights := all_rights |}.

Definition inbox : Mailbox := sample_mailbox "inbox" "Inbox".
Definition archive : Mailbox := sample_mailbox "archive" "Archive".

Definition sample_email (id : string) (keywords : KeywordSet) : Email :=
  {| email_id := scopedEmailId ana id; email_blobId := scopedBlobId ana (id +:+ "-blob");
     email_threadId := scopedThreadId ana (id +:+ "-thread"); email_sender := None;
     email_from := Some [emailAddress None "carol@example.org"]; email_replyTo := None;
     email_to := None; email_cc := None; email_bcc := None; email_subject := Some "Hello";
     email_sentAt := None; email_receivedAt := "2024-05-01T10:00:00Z"; email_size := Int 1200;
     email_preview := "Hello"; email_hasAttachment := false; email_keywords := keywords |}.

Definition first_email : Email := sample_email "m1" ["$seen"].
Definition second_email : Email := sample_email "m2" [].

Definition in_inbox (e : Email) : EmailSyncRecord :=
  {| record_email := e;
     record_memberships := [{| em_emailId := email_id e; em_mailboxId := mailbox_id inbox |}] |}.

Definition cursor_at (t : CollectionDataType) (state : string) : CollectionSyncCursor :=
  collectionSyncCursor {| cursor_accountKey := ana; cursor_dataType := t; cursor_state := state |}.

Definition seed_ops : list SyncOp := [
  OpRegisterAccount ana_account;
  OpApplyCollectionSync (MailboxCommit (Replace ExpectAbsent (cursor_at data_mailbox "b1") [inbox; archive]));
  OpApplyCollectionSync (EmailCommit (Replace ExpectAbsent (cursor_at data_email "e1")
    [in_inbox first_email; in_inbox second_email]))].

Definition seeded : World := perform_all seed_ops createMemoryLocalEngine.

Definition ana_identity : Identity :=
  {| identity_id := scopedIdentityId ana "i1"; identity_name := "Ana";
     identity_email := "ana@example.org"; identity_replyTo := None;
     identity_bcc := Some [emailAddress None "log@example.org"] |}.

Definition send_input : SendIntentInput :=
  {| input_securityMode := mode_plain; input_identity := ana_identity;
     input_to := [emailAddress (Some "Carol") "carol@example.org"]; input_cc := [];
     input_bcc := [emailAddress None "log@example.org"]; input_subject := "Re: Hello";
     input_body := {| send_text := "Hi"; send_html := None |} |}.

Definition sample_intent : SendIntent :=
  match sendIntent send_input with Return i => i | Throw _ =>
    {| intent_securityMode := mode_plain; intent_identityId := scopedIdentityId ana "";
       intent_from := emailAddress None ""; intent_replyTo := []; intent_to := []; intent_cc := [];
       intent_bcc := []; intent_subject := ""; intent_body := {| send_text := ""; send_html := None |} |}
  end.

Definition sample_send : SendMutation :=
  {| send_mutationId := "s1"; send_accountKey := ana; send_createdAt := "2024-05-01T10:05:00.000Z";
     send_intent := sample_intent; send_lifecycle := pendingLifecycle |}.

Definition sample_keyword : KeywordMutation :=
  {| kw_mutationId := "k1"; kw_accountKey := ana; kw_createdAt := "2024-05-01T10:06:00.000Z";
     kw_emailId := email_id second_email;
     kw_change := {| keyword_add := ["$flagged"]; keyword_remove := ["$seen"] |};
     kw_lifecycle := pendingLifecycle |}.

Definition sample_move : MailboxMembershipMutation :=
  {| mm_mutationId := "v1"; mm_accountKey := ana; mm_createdAt := "2024-05-01T10:07:00.000Z";
     mm_emailId := email_id first_email;
     mm_change := {| membership_add := [mailbox_id archive]; membership_remove := [mailbox_id inbox] |};
     mm_lifecycle := pendingLifecycle |}.

(** The store with the send staged. *)
Definition outbox_world : World := (perform (OpStageSendMutation sample_send) seeded).2.

Definition send_started : SendMutation :=
  {| send_mutationId := "s1"; send_accountKey := ana; send_createdAt := "2024-05-01T10:05:00.000Z";
     send_intent := sample_intent; send_lifecycle := InFlight (Int 1) |}.

Definition options0 : RunnerOptions :=
  {| has_reconciler := true; has_refresh := true; parse_other := λ _, NaN |}.

(** A remote side where submissions are answered [submit] and nothing else succeeds. *)
Definition outside_with (submit : outcome exn SubmissionResult) : Outside :=
  {| out_connected := true;
     out_submit := λ _ _, submit;
     out_keyword := λ _ _, Throw (Error "not used");
     out_membership := λ _ _, Throw (Error "not used");
     out_reconcileSend := λ _, Return EvidenceInconclusive;
     out_reconcileMembership := λ _, Return EvidenceInconclusive;
     out_encrypt := λ _, Return (E2eeFailed keyUnavailable);
     out_refresh := Return tt;
     out_now := "2024-05-01T10:10:00.000Z" |}.

Definition accepted : outcome exn SubmissionResult :=
  Return {| submission_emailId := Some "m9"; submission_receiptId := None |}.
Definition offline : outcome exn SubmissionResult :=
  Throw (RemoteMutationSourceError failure_notConnected).

(** ** The fixtures are what they claim to be *)

Lemma seed_wf : state_wf (db createMemoryLocalEngine).
Proof. apply state_wf_new. Defined.

Lemma seed_ops_wf : Forall op_wf seed_ops.
Proof. repeat constructor. Defined.

Lemma seeded_ok : state_wf (db seeded).
Proof. apply perform_all_wf, state_wf_new. Defined.

Lemma outbox_ok : state_wf (db outbox_world).
Proof. apply perform_state_wf, seeded_ok. Defined.

Lemma sample_send_new : sendMutation "s1" ana "2024-05-01T10:05:00.000Z" sample_intent = Return sample_send.
Proof. vm_compute. reflexivity. Defined.

Lemma sample_send_stored : stored outbox_world (MutSend sample_send).
Proof. vm_compute. reflexivity. Defined.
