(* ===== verification/RunnerTheorems.v ===== *)
(** * What the mutation runner guarantees

    Safety for any number of interleaved runs over any engine ([at_most_once],
    [writes_follow_the_domain]), the order of one run's calls ([claim_before_effect]),
    and what one run achieves.  The witnesses run the memory engine. *)

From S2P Require Import Prelude.
From S2P Require Import JsNumber.
From S2P Require Import JsString.
From S2P Require Import JsCollections.
From S2P Require Import Errors.
From S2P Require Import DomainIds.
From S2P Require Import SendIntent.
From S2P Require Import PendingMutation.
From S2P Require Import Ports.
From S2P Require Import MemoryState.
From S2P Require Import MemorySyncPort.
From S2P Require Import MemoryFacts.
From S2P Require Import MailStore.
From S2P Require Import MemoryEngine.
From S2P Require Import EngineInterface.
From S2P Require Import StoreEffects.
From S2P Require Import Remote.
From S2P Require Import Prog.
From S2P Require Import E2ee.
From S2P Require Import MutationRunner.
From S2P Require Import RunnerSafety.
From S2P Require Import RunnerBehaviour.
From S2P Require Import Fixtures.
Open Scope string_scope.
Open Scope list_scope.

Section theorems.
Context {W : Type} `{!LocalEngine W}.

(** C1: A send mutation is handed to the remote side at most once, plus once for
    every answer that certified that a submission was not applied.  This holds
    for any number of [runAccount] and [runMutation] calls interleaved in any
    way, any answers of the remote side, and any other use of the engine in
    between that does not itself settle or stage that mutation. *)
Theorem at_most_once (ak : AccountKey) (id : MutationId) (tasks : list task) (w : W)
    (s : system RunnerCall unit W) :
  engine_ok w → reaches ak id (system_of tasks w) s →
  (submissions ak id s.(history) ≤ 1 + not_applied_answers ak id s.(history))%nat.
Proof.
  intros Hok Hreach. pose proof (pool_attempts ak id tasks w s Hok Hreach) as Hcount.
  destruct (reaches_possible ak id _ _ (accounted_start ak id tasks w Hok) Hreach) as [(_ & _ & Hb) _].
  apply budget_le in Hb. pose proof (retries_attempted ak id s.(history)). lia.
Qed.

(** C2: Every write that any interleaving of runs makes is the compare-and-swap
    of a mutation by the Domain's next state of it, or the removal of a confirmed
    one, and its arguments are well formed. *)
Theorem writes_follow_the_domain (ak : AccountKey) (id : MutationId) (tasks : list task) (w : W)
    (s : system RunnerCall unit W) :
  engine_ok w → reaches ak id (system_of tasks w) s →
  Forall (λ e, match e with Event c _ => runner_may _ c end) s.(history).
Proof.
  intros Hok Hreach.
  apply (pool_invariant (runner_answers (foreign ak id)) (λ s, accounted ak id s ∧
    Forall (λ e, match e with Event c _ => runner_may _ c end) s.(history))) in Hreach;
    [by destruct Hreach | | by split; [apply accounted_start | constructor]].
  intros s1 s2 [Hacc Hall] Hstep. split; [by eapply accounted_step|].
  destruct Hacc as (_ & Hobey & _), Hstep as [ps v h i X c k r v' Hi _]. simpl in *.
  rewrite Forall_lookup in Hobey. destruct (obedient_call _ _ _ (Hobey i _ Hi)) as [u Hmay].
  apply Forall_app. by split; [|constructor].
Qed.

(** C4: One run performs a remote effect only for the mutation it found, only
    after it claimed that mutation by a successful compare-and-swap to its next
    attempt, only the effect the mutation describes, and only once; a mutation
    found in flight is reconciled without any effect.  What is submitted says what the
    intent says: its identity, sender, recipients, reply addresses and subject, with its
    text as it is, or, of a secure intent, what the cryptography made of that text for its
    only recipient. *)
Theorem claim_before_effect (options : RunnerOptions) (ak : AccountKey) (id : MutationId) :
  obeys protocol (runMutation options ak id) Idle (λ _ _, True).
Proof. apply runMutation_obeys_protocol. Qed.

Section one_run.
Context (outside : Outside) (options : RunnerOptions).

(** C5: When the client is connected, a due plain send whose submission is
    accepted with the id of the new email ends confirmed and is removed from the
    store, and no other mutation changes. *)
Theorem accepted_send_is_confirmed (w : W) (s s' : SendMutation) (message : RemoteSubmissionDraft)
    (e : RemoteEmailId) (receipt : option string) :
  engine_ok w → stored w (MutSend s) → registered w s.(send_accountKey) → due outside (MutSend s) →
  outside.(out_connected) = true → s.(send_intent).(intent_securityMode) = mode_plain →
  submissionDraft s.(send_intent) (SubmitPlain s.(send_intent).(intent_body).(send_text)
    s.(send_intent).(intent_body).(send_html)) = Return message →
  startMutationAttempt (MutSend s) = Return (MutSend s') →
  outside.(out_submit) message s.(send_mutationId) =
    Return {| submission_emailId := Some e; submission_receiptId := receipt |} →
  e ≠ "" →
  ∃ w', execute outside (runMutation options s.(send_accountKey) s.(send_mutationId)) w =
      (Return outcome_confirmed, w') ∧
    engine_ok w' ∧ st_mutation (engine_store w') (s.(send_accountKey), s.(send_mutationId)) = None ∧
    same_mutations w w' (s.(send_accountKey), s.(send_mutationId)).
Proof. intros. by eapply accepted_send_run. Qed.

(** C6: When the submission of a due plain send throws instead, the run settles
    the claimed attempt by what is known of the failure: certainly not applied
    and safe to retry, it is scheduled for [nextRetryInstant]; ambiguous, it
    stays in flight for reconciliation; otherwise it fails terminally. *)
Theorem failed_send_is_settled (w : W) (s s' : SendMutation) (message : RemoteSubmissionDraft) (e : exn) :
  engine_ok w → stored w (MutSend s) → registered w s.(send_accountKey) → due outside (MutSend s) →
  outside.(out_connected) = true → s.(send_intent).(intent_securityMode) = mode_plain →
  submissionDraft s.(send_intent) (SubmitPlain s.(send_intent).(intent_body).(send_text)
    s.(send_intent).(intent_body).(send_html)) = Return message →
  startMutationAttempt (MutSend s) = Return (MutSend s') →
  outside.(out_submit) message s.(send_mutationId) = Throw e →
  ∃ z, s'.(send_lifecycle) = InFlight (Int z) ∧
    ∀ instant, nextRetryInstant options.(parse_other) (Int z) outside.(out_now) = Return instant →
    ∃ o w', execute outside (runMutation options s.(send_accountKey) s.(send_mutationId)) w =
        (Return o, w') ∧
      engine_ok w' ∧ settles (MutSend s') z e instant o w'.
Proof. intros. by eapply failed_send_run. Qed.

(** A mutation that failed terminally, or that waits for a later retry, is
    skipped and the stored mutations stay as they are. *)
Theorem not_due_is_skipped (w : W) (m : PendingMutation) :
  engine_ok w → stored w m → registered w (mutation_accountKey m) →
  match mutation_lifecycle m with
  | Retrying _ nextAttemptAt => string_gtb nextAttemptAt outside.(out_now) = true
  | FailedTerminal _ => True
  | _ => False
  end →
  ∃ reason w', execute outside (runMutation options (mutation_accountKey m) (mutation_id m)) w =
      (Return (outcome_skipped reason), w') ∧
    ∀ k, st_mutation (engine_store w') k = st_mutation (engine_store w) k.
Proof. apply not_due_run. Qed.

(** [runAccount] visits exactly the mutations stored for the account, each
    once, and its summary adds up: attempted = confirmed + retrying + terminal +
    reconciliation, and attempted + skipped = the number visited. *)
Theorem account_summary_adds_up (w w' : W) (s : MutationRunSummary) (ak : AccountKey) :
  engine_ok w → execute outside (runAccount options ak) w = (Return s, w') →
  ∃ l : list PendingMutation,
    (∀ m, m ∈ l ↔ registered w ak ∧ mutation_accountKey m = ak ∧ stored w m) ∧
    NoDup (map mutation_id l) ∧ ((Z.of_nat (length l) < 2 ^ 53)%Z → summary_of (length l) s).
Proof. apply runAccount_summary. Qed.
End one_run.
End theorems.

(** ** Concrete instances *)

(** Two runs of the same account, taking turns; the remote side is offline. *)
Definition turns : list nat := [0; 1; 0; 1; 0; 1; 0; 1; 0; 1; 0; 1; 0; 1; 0; 1]%nat.

Definition contended : system RunnerCall unit World :=
  run_schedule (outside_with offline) turns
    (system_of [TaskAccount options0 ana; TaskAccount options0 ana] outbox_world).

Lemma at_most_once_witness :
  (1 ≤ submissions ana "s1" contended.(history))%nat ∧
  (submissions ana "s1" contended.(history) ≤ 1 + not_applied_answers ana "s1" contended.(history))%nat.
Proof.
  split; [vm_compute; lia|].
  exact (at_most_once ana "s1" _ _ _ outbox_ok (run_schedule_reaches _ ana "s1" turns _)).
Defined.

Lemma writes_follow_the_domain_witness :
  Forall (λ e, match e with Event c _ => runner_may _ c end) contended.(history).
Proof.
  exact (writes_follow_the_domain ana "s1" _ _ _ outbox_ok (run_schedule_reaches _ ana "s1" turns _)).
Defined.

Definition sample_message : RemoteSubmissionDraft :=
  {| draft_identityId := Some "i1"; draft_from := emailAddress (Some "Ana") "ana@example.org";
     draft_to := [emailAddress (Some "Carol") "carol@example.org"]; draft_cc := [];
     draft_bcc := [emailAddress None "log@example.org"]; draft_replyTo := [];
     draft_subject := "Re: Hello"; draft_body := SubmitPlain "Hi" None |}.

Lemma accepted_send_is_confirmed_witness :
  ∃ w', execute (outside_with accepted) (runMutation options0 ana "s1") outbox_world =
      (Return outcome_confirmed, w') ∧
    engine_ok w' ∧ st_mutation (engine_store w') (ana, "s1") = None ∧
    same_mutations outbox_world w' (ana, "s1").
Proof.
  apply (accepted_send_is_confirmed (outside_with accepted) options0 outbox_world sample_send
    send_started sample_message "m9" None); try (vm_compute; done).
  apply outbox_ok.
Defined.

Lemma failed_send_is_settled_witness :
  ∃ z, send_started.(send_lifecycle) = InFlight (Int z) ∧
    ∀ instant, nextRetryInstant options0.(parse_other) (Int z) (outside_with offline).(out_now) =
      Return instant →
    ∃ o w', execute (outside_with offline) (runMutation options0 ana "s1") outbox_world = (Return o, w') ∧
      engine_ok w' ∧
      settles (MutSend send_started) z (RemoteMutationSourceError failure_notConnected) instant o w'.
Proof.
  apply (failed_send_is_settled (outside_with offline) options0 outbox_world sample_send send_started
    sample_message (RemoteMutationSourceError failure_notConnected)); try (vm_compute; done).
  apply outbox_ok.
Defined.

(** The send, after its first attempt was answered "not connected". *)
Definition send_waiting : SendMutation :=
  {| send_mutationId := "s1"; send_accountKey := ana; send_createdAt := "2024-05-01T10:05:00.000Z";
     send_intent := sample_intent;
     send_lifecycle := Retrying (Int 1) "2024-05-01T10:10:05.000Z" |}.

Definition waiting_world : World :=
  perform_all [OpReplacePendingMutationIfCurrent (MutSend sample_send) (MutSend send_started);
               OpReplacePendingMutationIfCurrent (MutSend send_started) (MutSend send_waiting)]
    outbox_world.

Lemma not_due_is_skipped_witness :
  ∃ reason w', execute (outside_with offline) (runMutation options0 ana "s1") waiting_world =
      (Return (outcome_skipped reason), w') ∧
    ∀ k, st_mutation (engine_store w') k = st_mutation (engine_store waiting_world) k.
Proof.
  apply (not_due_is_skipped (outside_with offline) options0 waiting_world (MutSend send_waiting));
    try (vm_compute; done).
  apply perform_all_wf, outbox_ok.
Defined.

Lemma account_summary_adds_up_witness :
  ∃ l : list PendingMutation,
    (∀ m, m ∈ l ↔ registered outbox_world ana ∧ mutation_accountKey m = ana ∧ stored outbox_world m) ∧
    NoDup (map mutation_id l) ∧
    ((Z.of_nat (length l) < 2 ^ 53)%Z → summary_of (length l)
      {| attempted := Int 1; confirmed := Int 1; retrying := Int 0; terminal := Int 0;
         reconciliation := Int 0; skipped := Int 0 |}).
Proof.
  apply (account_summary_adds_up (outside_with accepted) options0 outbox_world
    (execute (outside_with accepted) (runAccount options0 ana) outbox_world).2).
  - apply outbox_ok.
  - vm_compute. reflexivity.
Defined.
