(* ===== verification/EngineTheorems.v ===== *)
(** * What the memory engine guarantees

    The engine keeps its invariant, implements [MailStore.spec], is atomic, and
    its accepted writes have the effects the ports document. *)

From S2P Require Import Prelude.
From S2P Require Import JsNumber.
From S2P Require Import JsString.
From S2P Require Import JsCollections.
From S2P Require Import Errors.
From S2P Require Import DomainIds.
From S2P Require Import DomainEmail.
From S2P Require Import DomainMailbox.
From S2P Require Import MailboxView.
From S2P Require Import SendIntent.
From S2P Require Import PendingMutation.
From S2P Require Import Ports.
From S2P Require Import MemoryState.
From S2P Require Import MemorySyncPort.
From S2P Require Import MemoryFacts.
From S2P Require Import MemoryReadRepository.
From S2P Require Import MailStore.
From S2P Require Import MemoryRefinement.
From S2P Require Import MemoryEngine.
From S2P Require Import EngineInterface.
From S2P Require Import StoreEffects.
From S2P Require Import Fixtures.
Open Scope string_scope.
Open Scope list_scope.

(** C27: Whatever writes are performed, with whatever arguments and in whatever
    order, starting from a fresh engine, the state stays well formed: every value
    sits under its own key and belongs to a registered account; mailboxes, identities,
    emails, memberships, attachments and views satisfy their factory's rules; every email
    has its membership list; and the sets of a mutation's change have no duplicates (the
    engine keeps a mutation as it is staged, and checks nothing else of it). *)
Theorem engine_invariant (ops : list SyncOp) :
  state_wf (db (perform_all ops createMemoryLocalEngine)).
Proof. apply perform_all_wf, state_wf_new. Qed.

(** C3: The engine implements the abstract store: every write answers with the
    store's verdict and publishes exactly its batch, and the state it leaves
    represents the store's next state. *)
Theorem writes_implement_store (op : SyncOp) (w : World) :
  state_wf (db w) → op_wf op → refines (perform op) w (spec op (abs (db w))).
Proof. apply perform_refines. Qed.

(** A run of writes on a fresh engine represents the run of their verdicts
    on the empty store. *)
Theorem runs_implement_store (ops : list SyncOp) :
  Forall op_wf ops →
  abs (db (perform_all ops createMemoryLocalEngine)) ≡ performed_all ops (abs new_MemoryState).
Proof. intros Hops. apply perform_all_performed; [apply state_wf_new | done]. Qed.

(** Every write is atomic, in any state: one that does not succeed changes
    nothing and publishes nothing, one that does publishes exactly one batch. *)
Theorem writes_are_atomic (op : SyncOp) (w : World) :
  match perform op w with
  | (Return (PortOk tt), w') => ∃ b, published w' = published w ++ [b]
  | (Return (PortError e), w') => e = write_conflict ∧ w' = w
  | (Throw _, w') => w' = w
  end.
Proof.
  pose proof (perform_atomic op w) as H. unfold writes in H.
  destruct (perform op w) as [[[[]|e]|e] w']; [|done..]. by destruct H as (b & ? & _); exists b.
Qed.

(** Every read of a well-formed state returns the abstract store's values,
    never throws, and changes nothing. *)
Theorem reads_return_store (X : Type) (c : PortCall X) (w : World) :
  state_wf (db w) → is_write c = false →
  read_spec c (abs (db w)) (memory_answer X c w).1 ∧ (memory_answer X c w).2 = w.
Proof.
  intros Hwf Hc. split; [|by destruct c].
  assert (call_wf c) as Hcall by (by destruct c). exact (engine_answers X c w Hwf Hcall).
Qed.

(** Of two compare-and-swaps from the same expected mutation, made one after
    the other, at most one succeeds. *)
Theorem one_swap_wins (w w' : World) (expected a b : PendingMutation) :
  state_wf (db w) → mutation_sets_wf expected → mutation_sets_wf a → mutation_sets_wf b →
  perform (OpReplacePendingMutationIfCurrent expected a) w = (Return (PortOk tt), w') →
  perform (OpReplacePendingMutationIfCurrent expected b) w' = (Return (PortError write_conflict), w').
Proof.
  intros Hwf He Ha Hb Hrun.
  set (op := OpReplacePendingMutationIfCurrent expected a).
  assert (op_wf op) as Hop by done.
  destruct (accepted_write op w w' Hwf Hop Hrun) as (st & batch & Hspec & Hst & _).
  apply rejected_write; [|done|].
  - pose proof (perform_state_wf op w Hwf) as H. unfold op in H. rewrite Hrun in H. exact H.
  - exact (second_swap_rejected _ _ a b _ _ _ Hspec Hst).
Qed.

(** The engine accepts every step of the Domain's mutation lifecycle: the
    swap of a stored mutation by its next state succeeds and stores that state. *)
Theorem domain_steps_are_accepted (w : World) (m m' : PendingMutation) :
  state_wf (db w) → stored w m → mutation_sets_wf m → domain_step m m' →
  ∃ w', perform (OpReplacePendingMutationIfCurrent m m') w = (Return (PortOk tt), w') ∧
    stored w' m' ∧
    ∀ k, k ≠ (mutation_accountKey m, mutation_id m) →
      st_mutation (abs (db w')) k = st_mutation (abs (db w)) k.
Proof.
  intros Hwf Hm Hsets Hstep. destruct (engine_swap (LocalEngine0 := memory_engine) w m m' Hwf Hm Hsets Hstep) as (w' & Hrun & _ & H).
  by exists w'.
Qed.

(** A compound key determines the list of its parts, so no two entities share
    a key of the engine's maps. *)
Theorem compound_keys_are_injective (a b : list string) : compoundKey a = compoundKey b → a = b.
Proof. apply compoundKey_inj. Qed.

(** A sync commit whose expected cursor is not the stored one is rejected as
    a conflict and changes nothing. *)
Theorem stale_commits_conflict (w : World) (commit : CollectionSyncCommit) :
  state_wf (db w) → ¬ cursor_current (abs (db w)) commit →
  perform (OpApplyCollectionSync commit) w = (Return (PortError write_conflict), w).
Proof.
  intros Hwf Hstale. apply rejected_write; [done..|]. simpl. unfold spec_sync, reject_unless.
  rewrite decide_False; [done|]. intros (_ & _ & Hcur & _). by apply Hstale.
Qed.

(** After an accepted email commit, every record it brings is stored as the
    email factory makes it, with its memberships; what it destroys or, when it
    replaces the collection, what it does not bring is gone; every other email
    is untouched; and the cursor is the commit's next cursor. *)
Theorem email_commits_take_effect (w w' : World) (c : CollectionCommit EmailSyncRecord ScopedEmailId) :
  state_wf (db w) →
  perform (OpApplyCollectionSync (EmailCommit c)) w = (Return (PortOk tt), w') →
  email_commit_effect c (abs (db w)) (abs (db w')).
Proof.
  intros Hwf Hrun.
  destruct (accepted_write (OpApplyCollectionSync (EmailCommit c)) w w' Hwf I Hrun)
    as (st & batch & Hspec & Hst & _).
  by eapply email_commit_effects.
Qed.

(** An accepted optimistic keyword mutation gives the email exactly its
    current and added keywords less the removed ones, changes nothing else of it
    and no other email, and is stored. *)
Theorem keyword_mutations_take_effect (w w' : World) (value : KeywordMutation) :
  state_wf (db w) → mutation_sets_wf (MutKeyword value) →
  perform (OpApplyOptimisticKeywordMutation value) w = (Return (PortOk tt), w') →
  ∃ target next, st_email (abs (db w)) value.(kw_emailId) = Some target ∧
    st_email (abs (db w')) value.(kw_emailId) = Some next ∧
    (∀ k, k ∈ next.(email_keywords) ↔
      (k ∈ target.(email_keywords) ∨ k ∈ value.(kw_change).(keyword_add)) ∧
      k ∉ value.(kw_change).(keyword_remove)) ∧
    with_keywords next [] = with_keywords target [] ∧
    (∀ id, id ≠ value.(kw_emailId) → st_email (abs (db w')) id = st_email (abs (db w)) id) ∧
    st_mutation (abs (db w')) (value.(kw_accountKey), value.(kw_mutationId)) = Some (MutKeyword value).
Proof.
  intros Hwf Hsets Hrun.
  destruct (accepted_write (OpApplyOptimisticKeywordMutation value) w w' Hwf Hsets Hrun)
    as (st & batch & Hspec & Hst & _).
  by eapply keyword_effects.
Qed.

(** An accepted optimistic move leaves the email in exactly the mailboxes it
    keeps and the added ones, at least one, touches no other email's mailboxes,
    and is stored. *)
Theorem membership_mutations_take_effect (w w' : World) (value : MailboxMembershipMutation) :
  state_wf (db w) →
  perform (OpApplyOptimisticMailboxMembershipMutation value) w = (Return (PortOk tt), w') →
  ∃ next, st_memberships (abs (db w')) value.(mm_emailId) = Some next ∧ next ≠ [] ∧
    (∀ id, id ∈ map em_mailboxId next ↔
      id ∈ value.(mm_change).(membership_add) ∨
      id ∈ map em_mailboxId (default [] (st_memberships (abs (db w)) value.(mm_emailId))) ∧
      id ∉ value.(mm_change).(membership_remove)) ∧
    Forall (λ em, em.(em_emailId) = value.(mm_emailId)) next ∧
    (∀ id, id ≠ value.(mm_emailId) →
      st_memberships (abs (db w')) id = st_memberships (abs (db w)) id) ∧
    st_mutation (abs (db w')) (value.(mm_accountKey), value.(mm_mutationId)) =
      Some (MutMembership value).
Proof.
  intros Hwf Hrun.
  destruct (accepted_write (OpApplyOptimisticMailboxMembershipMutation value) w w' Hwf I Hrun)
    as (st & batch & Hspec & Hst & _).
  by eapply membership_effects.
Qed.

(** ** Concrete instances *)

Lemma writes_implement_store_witness :
  refines (perform (OpApplyOptimisticKeywordMutation sample_keyword)) outbox_world
    (spec (OpApplyOptimisticKeywordMutation sample_keyword) (abs (db outbox_world))).
Proof.
  apply writes_implement_store; [apply outbox_ok|].
  split; apply (bool_decide_unpack _); vm_compute; exact I.
Defined.

Lemma runs_implement_store_witness : abs (db seeded) ≡ performed_all seed_ops (abs new_MemoryState).
Proof. exact (runs_implement_store seed_ops seed_ops_wf). Defined.

Lemma reads_return_store_witness :
  read_spec (ReadEmail (email_id first_email)) (abs (db seeded))
    (memory_answer _ (ReadEmail (email_id first_email)) seeded).1 ∧
  (memory_answer _ (ReadEmail (email_id first_email)) seeded).2 = seeded.
Proof. exact (reads_return_store _ (ReadEmail (email_id first_email)) seeded seeded_ok eq_refl). Defined.

Definition claimed_world : World :=
  (perform (OpReplacePendingMutationIfCurrent (MutSend sample_send) (MutSend send_started)) outbox_world).2.

Lemma one_swap_wins_witness :
  perform (OpReplacePendingMutationIfCurrent (MutSend sample_send) (MutSend send_started)) claimed_world =
    (Return (PortError write_conflict), claimed_world).
Proof.
  apply (one_swap_wins outbox_world claimed_world (MutSend sample_send) (MutSend send_started)
    (MutSend send_started)); try exact I; [apply outbox_ok | vm_compute; reflexivity].
Defined.

Lemma domain_steps_are_accepted_witness :
  ∃ w', perform (OpReplacePendingMutationIfCurrent (MutSend sample_send) (MutSend send_started))
      outbox_world = (Return (PortOk tt), w') ∧
    stored w' (MutSend send_started) ∧
    ∀ k, k ≠ (ana, "s1") → st_mutation (abs (db w')) k = st_mutation (abs (db outbox_world)) k.
Proof.
  apply (domain_steps_are_accepted outbox_world (MutSend sample_send) (MutSend send_started));
    [apply outbox_ok | apply sample_send_stored | done | constructor; vm_compute; reflexivity].
Defined.

Lemma compound_keys_are_injective_witness : ["1:a"; ""] = ["1:a"; ""].
Proof. exact (compound_keys_are_injective ["1:a"; ""] ["1:a"; ""] eq_refl). Defined.

(** A commit made against the cursor before the last one. *)
Definition late_commit : CollectionSyncCommit :=
  EmailCommit (Delta (cursor_at data_email "e0") (cursor_at data_email "e1") [] [email_id first_email]).

Lemma stale_commits_conflict_witness :
  perform (OpApplyCollectionSync late_commit) seeded = (Return (PortError write_conflict), seeded).
Proof.
  apply stale_commits_conflict; [apply seeded_ok|]. intros [H _]. vm_compute in H. discriminate H.
Defined.

(** The first email disappears, the second gains a keyword. *)
Definition delta_commit : CollectionCommit EmailSyncRecord ScopedEmailId :=
  Delta (cursor_at data_email "e1") (cursor_at data_email "e2")
    [in_inbox (sample_email "m2" ["$seen"])] [email_id first_email].

Lemma email_commits_take_effect_witness :
  email_commit_effect delta_commit (abs (db seeded))
    (abs (db (perform (OpApplyCollectionSync (EmailCommit delta_commit)) seeded).2)).
Proof. apply email_commits_take_effect; [apply seeded_ok | vm_compute; reflexivity]. Defined.

Lemma keyword_mutations_take_effect_witness :
  ∃ target next, st_email (abs (db seeded)) (email_id second_email) = Some target ∧
    st_email (abs (db (perform (OpApplyOptimisticKeywordMutation sample_keyword) seeded).2))
      (email_id second_email) = Some next ∧
    (∀ k, k ∈ next.(email_keywords) ↔
      (k ∈ target.(email_keywords) ∨ k ∈ ["$flagged"]) ∧ k ∉ ["$seen"]).
Proof.
  destruct (keyword_mutations_take_effect seeded
    (perform (OpApplyOptimisticKeywordMutation sample_keyword) seeded).2 sample_keyword)
    as (target & next & H1 & H2 & H3 & _).
  - apply seeded_ok.
  - split; apply (bool_decide_unpack _); vm_compute; exact I.
  - vm_compute. reflexivity.
  - exists target, next. exact (conj H1 (conj H2 H3)).
Defined.

Lemma membership_mutations_take_effect_witness :
  ∃ next, st_memberships (abs (db (perform (OpApplyOptimisticMailboxMembershipMutation sample_move)
      seeded).2)) (email_id first_email) = Some next ∧ next ≠ [].
Proof.
  destruct (membership_mutations_take_effect seeded
    (perform (OpApplyOptimisticMailboxMembershipMutation sample_move) seeded).2 sample_move)
    as (next & H1 & H2 & _).
  - apply seeded_ok.
  - vm_compute. reflexivity.
  - exists next. exact (conj H1 H2).
Defined.

(** ** Where the memory engine is more permissive than the rest *)

(** The body of a destroyed email is kept, and is the body of an email that comes
    back under the same id. *)
Definition body_ops : list SyncOp := [
  OpCacheEmailBody {| body_emailId := email_id first_email; body_text := Some "old"; body_html := None |};
  OpApplyCollectionSync (EmailCommit (Delta (cursor_at data_email "e1") (cursor_at data_email "e2")
    [] [email_id first_email]));
  OpApplyCollectionSync (EmailCommit (Delta (cursor_at data_email "e2") (cursor_at data_email "e3")
    [in_inbox first_email] []))].

Example stale_body_resurfaces :
  readEmailBody (email_id first_email) (db (perform_all body_ops seeded)) =
    ok (Cached {| body_emailId := email_id first_email; body_text := Some "old"; body_html := None |}).
Proof. vm_compute. reflexivity. Qed.

(** A confirmation with another account's email passes the compare-and-swap; the
    Domain refuses it. *)
Definition foreign_confirmation : SendConfirmation := sendConfirmation (scopedEmailId bob "m9").

Definition confirmed_elsewhere : SendMutation :=
  {| send_mutationId := "s1"; send_accountKey := ana; send_createdAt := "2024-05-01T10:05:00.000Z";
     send_intent := sample_intent; send_lifecycle := Confirmed (Int 1) foreign_confirmation |}.

Example foreign_confirmation_accepted :
  (perform (OpReplacePendingMutationIfCurrent (MutSend send_started) (MutSend confirmed_elsewhere))
    claimed_world).1 = Return (PortOk tt) ∧
  returns (confirmSendMutation send_started foreign_confirmation) = false.
Proof. vm_compute. split; reflexivity. Qed.
