(* ===== verification/DomainTheorems.v ===== *)
(** * What the Domain factories and transitions guarantee *)

From S2P Require Import Prelude.
From S2P Require Import JsNumber.
From S2P Require Import JsString.
From S2P Require Import JsCollections.
From S2P Require Import Errors.
From S2P Require Import DomainIds.
From S2P Require Import DomainEmail.
From S2P Require Import DomainMailbox.
From S2P Require Import MailboxView.
From S2P Require Import SendIntent.
From S2P Require Import PendingMutation.
From S2P Require Import JsDate.
From S2P Require Import MutationRunner.
From S2P Require Import Fixtures.
Open Scope string_scope.
Open Scope list_scope.

(** The email factory accepts exactly the inputs whose ids share one account,
    whose size is a non-negative safe integer, whose dates are non-empty and
    whose keywords are non-empty, and returns the input with its keywords made a
    set; what it returned once it returns unchanged. *)
Theorem email_factory (i e : Email) :
  email i = Return e ↔
  email_wf (MemorySyncPort.with_keywords i (set_of_list i.(email_keywords))) ∧
  Forall (λ k, k ≠ "") i.(email_keywords) ∧
  e = MemorySyncPort.with_keywords i (set_of_list i.(email_keywords)).
Proof.
  split.
  - intros H. pose proof (email_return_wf i e H) as Hwf. unfold email in H. run_guards H.
    match goal with H : keywordSet _ = Return _ |- _ => apply keywordSet_return in H as [Hne ->] end.
    assert (∀ a : EmailAddressList, snapshotAddressList a = a) as Hsnap by (by intros []).
    rewrite !Hsnap in *. done.
  - intros ([Hb Ht Hs Hr Hsent [Hnd _]] & Hne & ->). unfold email. simpl in *.
    pass_guard by (apply orb_false_iff; split; by apply differs_false).
    pass_guard by (by apply size_guard).
    pass_guard by (by apply is_empty_false).
    pass_guard by (by apply bool_decide_eq_false).
    rewrite (proj2 (keywordSet_return _ _) (conj Hne eq_refl)). simpl.
    assert (∀ a : EmailAddressList, snapshotAddressList a = a) as Hsnap by (by intros []).
    by rewrite !Hsnap.
Qed.

(** A send intent that the factory returns has at least one recipient, only
    addresses of the shape local@domain free of CR, LF and NUL, a non-wildcard
    sender, no BCC address twice, and the sender, recipients and mode it was
    asked for. *)
Theorem send_intent_guarantees (i : SendIntentInput) (s : SendIntent) :
  Forall fits (input_addresses i) → sendIntent i = Return s →
  intent_wf s ∧ isWildcardIdentity i.(input_identity) = false ∧
  s.(intent_identityId) = i.(input_identity).(identity_id) ∧
  s.(intent_securityMode) = i.(input_securityMode) ∧
  s.(intent_to) = i.(input_to) ∧ s.(intent_cc) = i.(input_cc) ∧
  s.(intent_bcc) = mergeBcc i.(input_bcc) i.(input_identity).(identity_bcc).
Proof. apply sendIntent_return. Qed.

(** Merging BCC keeps, in order, the first address of every email of the
    user's list and then of the identity's defaults, and loses no email. *)
Theorem bcc_merge (user : list EmailAddress) (defaults : option (list EmailAddress)) :
  NoDup (map address_email (mergeBcc user defaults)) ∧
  mergeBcc user defaults `sublist_of` user ++ default [] defaults ∧
  (∀ x, x ∈ map address_email (mergeBcc user defaults) ↔
        x ∈ map address_email user ∨ x ∈ map address_email (default [] defaults)).
Proof. apply mergeBcc_spec. Qed.

(** The mailbox view factory accepts exactly the well-formed views: coverage
    ranges non-empty, ordered, separated and within the total, items exactly at
    the covered positions in ascending order, distinct emails of the view's
    account; and returns its input. *)
Theorem view_factory (i v : MailboxView) : mailboxView i = Return v ↔ view_wf i ∧ v = i.
Proof. apply mailboxView_return. Qed.

(** The mailbox factory accepts exactly the mailboxes with a name, a parent
    (if any) of the same account and not itself, a role that is absent or
    non-empty, a sort order below 2^31, and safe counts with unread at most
    total; and returns its input. *)
Theorem mailbox_factory (i m : Mailbox) : mailbox i = Return m ↔ mailbox_wf i ∧ m = i.
Proof. apply mailbox_return. Qed.

(** The attempts a mutation has started. *)
Definition attempts_of (m : PendingMutation) : Z :=
  match mutation_attemptCount m with Int z => z | _ => 0 end.

Lemma domain_step_attempts m m' :
  domain_step m m' →
  (attempts_of m' = attempts_of m + if decide (mutation_status m' = st_inFlight) then 1 else 0)%Z.
Proof.
  intros [_ Hedge]%domain_step_edge. unfold attempts_of, mutation_attemptCount, mutation_status.
  destruct Hedge; simpl; lia.
Qed.

Lemma same_payload_refl m : same_payload m m.
Proof. destruct m as [[]|[]|[]]; constructor. Qed.

Lemma same_payload_trans a b c : same_payload a b → same_payload b c → same_payload a c.
Proof.
  intros Hab Hbc. destruct Hab; inversion Hbc; subst; simpl;
    match goal with
    | |- same_payload (MutSend ?m) (MutSend (mkSendMutation _ _ _ _ ?l)) => exact (same_send m l)
    | |- same_payload (MutKeyword ?m) (MutKeyword (mkKeywordMutation _ _ _ _ _ ?l)) =>
        exact (same_keyword m l)
    | |- same_payload (MutMembership ?m) (MutMembership (mkMembershipMutation _ _ _ _ _ ?l)) =>
        exact (same_membership m l)
    end.
Qed.

Lemma domain_reach m0 m :
  domain_new m0 → rtc domain_step m0 m →
  mutation_wf m ∧ same_payload m0 m ∧ (attempts_of m0 <= attempts_of m)%Z.
Proof.
  intros Hnew Hsteps. pose proof (domain_new_wf _ Hnew) as Hwf. clear Hnew.
  induction Hsteps as [m|m1 m2 m3 Hstep _ IH].
  - split_and!; [done | apply same_payload_refl | lia].
  - destruct IH as (Hm3 & Hs & Ha); [by eapply domain_step_wf|]. split_and!; [done| |].
    + eapply same_payload_trans; [by eapply domain_step_edge | done].
    + pose proof (domain_step_attempts _ _ Hstep). destruct (decide _); lia.
Qed.

(** Whatever transitions the Domain applies to a freshly staged mutation, it
    stays well formed, only its lifecycle changes, its attempt count never
    decreases, every new attempt adds exactly one, and a confirmed or terminally
    failed mutation has no further transition. *)
Theorem lifecycle_reachability (m0 m : PendingMutation) :
  domain_new m0 → rtc domain_step m0 m →
  mutation_wf m ∧ same_payload m0 m ∧ (attempts_of m0 <= attempts_of m)%Z ∧
  ∀ m', domain_step m m' →
    (attempts_of m' = attempts_of m + if decide (mutation_status m' = st_inFlight) then 1 else 0)%Z ∧
    mutation_status m ≠ st_confirmed ∧ mutation_status m ≠ st_failedTerminal.
Proof.
  intros Hnew Hsteps. destruct (domain_reach m0 m Hnew Hsteps) as (? & ? & ?). split_and!; try done.
  intros m' Hstep. split; [by apply domain_step_attempts|].
  destruct (domain_step_edge _ _ Hstep) as [_ Hedge]. unfold mutation_status.
  destruct Hedge; done.
Qed.

(** C40: On a canonical clock, a mutation whose [n]th attempt failed at time [t]
    comes due again exactly when the backoff delay (5s, 15s, 60s, then 300s) has
    elapsed: the runner's string comparison of the two instants agrees with the
    times. *)
Theorem retry_is_due_after_delay (other : string → number) (n t u : Z) (at_ : MutationInstant) :
  (0 <= n <= 2 ^ 52)%Z → (Z.abs t <= MAX_TIME)%Z → four_digit_year (t + retry_delay n) →
  four_digit_year u → (t + retry_delay n <= MAX_TIME)%Z →
  nextRetryInstant other (Int n) (iso_string t) = Return at_ →
  string_gtb at_ (iso_string u) = false ↔ (t + retry_delay n <= u)%Z.
Proof.
  intros Hn Ht Hy Hu Hmax H. rewrite nextRetryInstant_iso in H by lia. injection H as <-.
  rewrite iso_string_gtb by done. by rewrite Z.ltb_ge.
Qed.

(** ** Concrete instances *)

Lemma send_intent_guarantees_witness :
  intent_wf sample_intent ∧ sample_intent.(intent_bcc) = [emailAddress None "log@example.org"].
Proof.
  destruct (send_intent_guarantees send_input sample_intent) as (H & _ & _ & _ & _ & _ & Hbcc).
  - repeat constructor; vm_compute; discriminate.
  - vm_compute. reflexivity.
  - split; [exact H | vm_compute; reflexivity].
Defined.

Lemma lifecycle_reachability_witness :
  mutation_wf (MutSend send_started) ∧ same_payload (MutSend sample_send) (MutSend send_started).
Proof.
  destruct (lifecycle_reachability (MutSend sample_send) (MutSend send_started)) as (H1 & H2 & _).
  - eapply new_send. exact sample_send_new.
  - apply rtc_once, step_start. vm_compute. reflexivity.
  - exact (conj H1 H2).
Defined.

(** 2024-05-01T10:10:00.000Z, first attempt: due from 10:10:05.000Z on. *)
Lemma retry_is_due_after_delay_witness :
  string_gtb "2024-05-01T10:10:05.000Z" "2024-05-01T10:10:04.999Z" = true ∧
  (string_gtb "2024-05-01T10:10:05.000Z" (iso_string 1714558205000) = false ↔
   (1714558200000 + retry_delay 1 <= 1714558205000)%Z).
Proof.
  split; [vm_compute; reflexivity|].
  apply (retry_is_due_after_delay (λ _, NaN) 1 1714558200000 1714558205000).
  - lia.
  - vm_compute. discriminate.
  - vm_compute. split; discriminate.
  - vm_compute. split; discriminate.
  - vm_compute. discriminate.
  - vm_compute. reflexivity.
Defined.
