(* ===== verification/SyncTheorems.v ===== *)
(** * What synchronisation guarantees

    The coordinator, the straight-line outbox, the checks on remote transitions,
    and the mappers into the Domain. *)

From S2P Require Import Prelude.
From S2P Require Import JsNumber.
From S2P Require Import JsString.
From S2P Require Import JsCollections.
From S2P Require Import Errors.
From S2P Require Import DomainIds.
From S2P Require Import DomainEmail.
From S2P Require Import DomainMailbox.
From S2P Require Import MailboxView.
From S2P Require Import SendIntent.
From S2P Require Import PendingMutation.
From S2P Require Import Ports.
From S2P Require Import MemoryState.
From S2P Require Import MemorySyncPort.
From S2P Require Import MemoryFacts.
From S2P Require Import MailStore.
From S2P Require Import MemoryRefinement.
From S2P Require Import MemoryEngine.
From S2P Require Import EngineInterface.
From S2P Require Import StoreEffects.
From S2P Require Import ChangeHub.
From S2P Require Import Remote.
From S2P Require Import Mappers.
From S2P Require Import Prog.
From S2P Require Import Coordinator.
From S2P Require Import Outbox.
From S2P Require Import Fixtures.
(** ** How the coordinator commits

    [sync_protocol]: the order of one coordinator's calls, whatever the answers.
    [synced_emails]: what one [syncEmails] achieves on an engine. *)

Open Scope list_scope.

(** ** The commits *)

Lemma collection_commit_return {A B} (wrap : CollectionCommit B ScopedId → CollectionSyncCommit)
    what (map_values : list A → outcome exn (list B)) local_id ak next transition expected commit :
  collection_commit wrap what map_values local_id ak next transition expected = Return commit →
  ∃ c, commit = wrap c ∧ collection_expected c = expected ∧ collection_next c = next ∧
    map_values (transition_values transition) = Return (collection_records c).
Proof.
  destruct transition as [state snapshot|state changed destroyed]; simpl.
  - rewrite bind_return. intros (values & Hv & [= <-]). by exists (Replace expected next values).
  - destruct expected as [|cursor]; [done|]. rewrite bind_return. intros (values & Hv & H).
    rewrite bind_return in H. destruct H as (ids & _ & [= <-]). by exists (Delta cursor next values ids).
Qed.

(** ** The protocol *)

Inductive sync_phase : Type :=
| SyncIdle
| CursorKnown (ak : AccountKey) (t : CollectionDataType) (cursor : option CollectionSyncCursor)
| TransitionKnown (ak : AccountKey) (t : CollectionDataType) (cursor : option CollectionSyncCursor)
    (state : RemoteSyncState).

(** A remote request continues from the cursor just read; a commit expects that
    cursor, is of that collection, and moves it to the state fetched; a view is well
    formed; and nothing else is written. *)
Definition sync_allowed X (p : sync_phase) (c : SyncCall X) : Prop :=
  match c with
  | SyncPortCall (Write (OpApplyCollectionSync commit)) =>
      match p with
      | TransitionKnown ak t cursor state =>
          commit_kind commit = t ∧ commit_expectedCursor commit = precondition_of cursor ∧
          commit_nextCursor commit = nextCursor ak t state
      | _ => False
      end
  | SyncPortCall (Write (OpReplaceMailboxView view)) => view_wf view
  | SyncPortCall (Write _) => False
  | SyncIdentities _ previous => ∃ ak c, p = CursorKnown ak data_identity c ∧ previous = cursor_state <$> c
  | SyncMailboxes _ previous => ∃ ak c, p = CursorKnown ak data_mailbox c ∧ previous = cursor_state <$> c
  | SyncEmails _ previous => ∃ ak c, p = CursorKnown ak data_email c ∧ previous = cursor_state <$> c
  | _ => True
  end.

Definition fetched (p : sync_phase) (state : RemoteSyncState) : sync_phase :=
  match p with CursorKnown ak t c => TransitionKnown ak t c state | _ => p end.

Definition sync_watch X (p : sync_phase) (c : SyncCall X) : outcome exn X → sync_phase :=
  match c in SyncCall X return outcome exn X → sync_phase with
  | SyncPortCall c =>
      match c in PortCall X return outcome exn X → sync_phase with
      | ReadCollectionSyncCursor ak t => λ r,
          match r with
          | Return (PortOk OptionalAbsent) => CursorKnown ak t None
          | Return (PortOk (OptionalPresent c)) => CursorKnown ak t (Some c)
          | _ => SyncIdle
          end
      | Write _ => λ _, SyncIdle
      | _ => λ _, p
      end
  | SyncIdentities _ _ => λ r, match r with Return t => fetched p (transition_state t) | _ => SyncIdle end
  | SyncMailboxes _ _ => λ r, match r with Return t => fetched p (transition_state t) | _ => SyncIdle end
  | SyncEmails _ _ => λ r, match r with Return t => fetched p (transition_state t) | _ => SyncIdle end
  | QueryMailbox _ _ _ => λ _, p
  end.

Definition sync_protocol : monitor SyncCall sync_phase :=
  {| allowed := sync_allowed; watch := sync_watch; possible := λ _ _ _, True |}.

(** What [build] must do: fetch the transition since the cursor and make commits of it. *)
Definition fetches (ak : AccountKey) (t : CollectionDataType)
    (build : option RemoteSyncState → coordinator CreateCommit) : Prop :=
  ∀ c, obeys sync_protocol (build (cursor_state <$> c)) (CursorKnown ak t c) (λ r p,
    match r with
    | Return create => ∃ state, p = TransitionKnown ak t c state ∧
        ∀ commit, create (precondition_of c) = Return commit →
          commit_kind commit = t ∧ commit_expectedCursor commit = precondition_of c ∧
          commit_nextCursor commit = nextCursor ak t state
    | Throw _ => True
    end).

Lemma sync_attempts_obey n ak t build p :
  fetches ak t build → obeys sync_protocol (sync_attempts n ak t build) p (λ _ _, True).
Proof.
  intros Hbuild. revert p. induction n as [|n IH]; intros p; [done|].
  apply obeys_mbind, obeys_mbind, obeys_mbind, obeys_await; [done|]. intros [r|e] _; [|done].
  cbv beta iota. apply (obeys_mono _ _ _ (λ r p, match r with
    | Return c => p = CursorKnown ak t c | Throw _ => True end)).
  2:{ by destruct r as [[| |c]|kind]. }
  intros [c|e] q; [|done]. intros ->.
  apply obeys_mbind. eapply obeys_mono; [|apply Hbuild].
  intros [create|e] q; [|done]. intros (state & -> & Hcreate).
  apply obeys_mbind, obeys_outcome. destruct (create _) as [commit|]; [|done].
  destruct (Hcreate commit eq_refl) as (? & ? & ?).
  apply obeys_mbind, obeys_await; [by split_and!|]. intros [[u|[]]|e] _; try done. apply IH.
Qed.

Lemma fetches_identities ak rid :
  fetches ak data_identity (λ previous,
    transition ← await (SyncIdentities rid previous); Ret (identityCommit ak transition)).
Proof.
  intros c. apply obeys_mbind, obeys_await; [by exists ak, c|]. intros [tr|e] _; [|done].
  exists (transition_state tr). split; [done|]. intros commit H.
  apply collection_commit_return in H as (cc & -> & ? & ? & _). by split_and!.
Qed.

Lemma fetches_mailboxes ak rid :
  fetches ak data_mailbox (λ previous,
    transition ← await (SyncMailboxes rid previous); Ret (mailboxCommit ak transition)).
Proof.
  intros c. apply obeys_mbind, obeys_await; [by exists ak, c|]. intros [tr|e] _; [|done].
  exists (transition_state tr). split; [done|]. intros commit H.
  apply collection_commit_return in H as (cc & -> & ? & ? & _). by split_and!.
Qed.

Lemma fetches_emails ak rid :
  fetches ak data_email (λ previous,
    transition ← await (SyncEmails rid previous); Ret (emailCommit ak transition)).
Proof.
  intros c. apply obeys_mbind, obeys_await; [by exists ak, c|]. intros [tr|e] _; [|done].
  exists (transition_state tr). split; [done|]. intros commit H.
  apply collection_commit_return in H as (cc & -> & ? & ? & _). by split_and!.
Qed.

Lemma syncQueryView_obeys ak rid spec p :
  obeys sync_protocol (syncQueryView ak rid spec) p (λ _ _, True).
Proof.
  apply obeys_mbind, obeys_outcome. destruct (remoteMailboxId _); [|done].
  apply obeys_mbind, obeys_await; [done|]. intros [result|e] _; [|done]. cbv beta iota.
  destruct (toMailboxView spec ak result) as [view|] eqn:Hv; [|done].
  apply toMailboxView_some in Hv as [Hv _]. apply obeys_mbind, obeys_await; [done|].
  by intros [[]|e] _.
Qed.

Lemma syncAccount_obeys ak rid p : obeys sync_protocol (syncAccount ak rid) p (λ _ _, True).
Proof.
  apply obeys_mbind. eapply obeys_mono; [|apply (sync_attempts_obey 2), fetches_identities].
  intros [[]|e] q _; [|done]. apply obeys_mbind.
  eapply obeys_mono; [|apply (sync_attempts_obey 2), fetches_mailboxes].
  intros [[]|e] q' _; [|done]. apply obeys_mbind.
  eapply obeys_mono; [|apply (sync_attempts_obey 2), fetches_emails].
  intros [[]|e] q'' _; [|done]. apply obeys_mbind, obeys_await; [done|].
  intros [[[|l]|kind]|e] _; try done. cbv beta iota.
  apply (obeys_for _ _ _ (λ _ _, True)); [done| |done]. intros [] m x _ _.
  eapply obeys_mono; [|apply syncQueryView_obeys]. by intros [].
Qed.

(** ** What a synchronisation of emails achieves *)

(** The remote side during one synchronisation. *)
Record RemoteSide : Type := mkRemoteSide {
  side_identities : option RemoteSyncState → outcome exn (RemoteCollectionSync RemoteIdentity RemoteIdentityId);
  side_mailboxes : option RemoteSyncState → outcome exn (RemoteCollectionSync RemoteMailbox RemoteMailboxId);
  side_emails : option RemoteSyncState → outcome exn (RemoteCollectionSync RemoteEmail RemoteEmailId);
  side_query : RemoteMailboxId → RemoteQueryOptions → outcome exn RemoteMailboxQuery;
}.

Lemma mapped_record_checked ak raw r :
  toDomainEmailRecord ak raw = Some r → checked_record r = Return r.
Proof.
  intros (Hwf & _ & Hm)%toDomainEmailRecord_some. unfold checked_record.
  rewrite (email_id_wf _ Hwf). simpl. rewrite mapM_return_id.
  - by destruct r.
  - rewrite Hm. apply Forall_map, Forall_forall. intros id _. simpl.
    by apply emailMailbox_return.
Qed.

(** What [emailCommit] needs of a transition to make a commit the engine takes. *)
Record transition_mappable (ak : AccountKey) (tr : RemoteCollectionSync RemoteEmail RemoteEmailId)
    (records : list EmailSyncRecord) : Prop := {
  mappable_records :
    Forall2 (λ raw r, toDomainEmailRecord ak raw = Some r) (transition_values tr) records;
  mappable_mailboxes : Forall (λ raw, NoDup raw.(r_email_mailboxIds)) (transition_values tr);
  mappable_ids : NoDup (map r_email_id (transition_values tr));
  mappable_destroyed : ∀ state changed destroyed, tr = RemoteDelta state changed destroyed →
    NoDup destroyed ∧ Forall (λ id, id ≠ ""%string) destroyed ∧
    ∀ id, id ∈ destroyed → id ∉ map r_email_id changed;
}.

Definition email_commit_of (ak : AccountKey) (tr : RemoteCollectionSync RemoteEmail RemoteEmailId)
    (cursor : option CollectionSyncCursor) (records : list EmailSyncRecord) :
    option (CollectionCommit EmailSyncRecord ScopedEmailId) :=
  let next := nextCursor ak data_email (transition_state tr) in
  match tr, cursor with
  | RemoteReplace _ _, _ => Some (Replace (precondition_of cursor) next records)
  | RemoteDelta _ _ destroyed, Some cursor =>
      Some (Delta cursor next records (map (scopedEmailId ak) destroyed))
  | RemoteDelta _ _ _, None => None
  end.

Lemma map_or_throw_return {A B} what id_of (mapper : A → option B) l k :
  map_or_throw what id_of mapper l = Return k ↔ Forall2 (λ x y, mapper x = Some y) l k.
Proof.
  unfold map_or_throw. rewrite mapM_return_Forall2.
  split; intros H; (eapply Forall2_impl; [exact H|]); intros x y; simpl; destruct (mapper x); congruence.
Qed.

Lemma emailCommit_return ak tr cursor records c :
  transition_mappable ak tr records → email_commit_of ak tr cursor records = Some c →
  emailCommit ak tr (precondition_of cursor) = Return (EmailCommit c).
Proof.
  intros [Hrec _ _ Hd] Hc. unfold emailCommit, collection_commit, email_commit_of in *.
  destruct tr as [state snapshot|state changed destroyed]; simpl in *.
  - injection Hc as <-. by rewrite (proj2 (map_or_throw_return _ _ _ _ _) Hrec).
  - destruct cursor as [cursor|]; [|done]. injection Hc as <-. simpl.
    rewrite (proj2 (map_or_throw_return _ _ _ _ _) Hrec). simpl.
    destruct (Hd _ _ _ eq_refl) as (_ & Hne & _).
    apply bind_return. exists (map (scopedEmailId ak) destroyed). split; [|done].
    apply mapM_return_Forall2. clear Hd. induction Hne as [|id ids Hid _ IH]; simpl; constructor; [|done].
    by apply localEmailId_return.
Qed.

Lemma mapped_ids ak raws rs :
  Forall2 (λ raw r, toDomainEmailRecord ak raw = Some r) raws rs →
  map record_id rs = map (scopedEmailId ak) (map r_email_id raws).
Proof.
  induction 1 as [|raw r raws rs H _ IH]; simpl; [done|].
  apply toDomainEmailRecord_some in H as (_ & Hid & _). by rewrite <- Hid, IH.
Qed.

Lemma scoped_NoDup ak ids : NoDup ids → NoDup (map (scopedEmailId ak) ids).
Proof. intros H. apply NoDup_fmap_2; [|done]. by intros ? ? [= ->]. Qed.

Lemma mapped_memberships ak raws rs :
  Forall2 (λ raw r, toDomainEmailRecord ak raw = Some r) raws rs →
  Forall (λ raw, NoDup raw.(r_email_mailboxIds)) raws → Forall record_valid rs.
Proof.
  induction 1 as [|raw r raws rs H _ IH]; [constructor|]. intros [Hnd Hrest]%Forall_cons.
  constructor; [|auto]. apply toDomainEmailRecord_some in H as (_ & Hid & Hm). unfold record_valid.
  rewrite Hm. split.
  - apply Forall_map, Forall_forall. intros id _. simpl. unfold record_id. by rewrite Hid.
  - apply NoDup_fmap_2; [|done]. by intros ? ? [= ->].
Qed.

Lemma scoped_accounts ak ids : Forall (λ id : ScopedId, id.(accountKey) = ak) (map (scopedEmailId ak) ids).
Proof. apply Forall_map, Forall_forall. done. Qed.

(** The commit of a mappable transition is one the store allows. *)
Lemma email_commit_allowed ak tr cursor records c st :
  transition_mappable ak tr records → email_commit_of ak tr cursor records = Some c →
  st_account st ak ≠ None → st_cursor st (ak, data_email) = cursor →
  (∀ cur, cursor = Some cur → cur.(cursor_accountKey) = ak ∧ cur.(cursor_dataType) = data_email) →
  commit_allowed st (EmailCommit c).
Proof.
  intros [Hrec Hmem Hids Hd] Hc Hreg Hcur Hcursor.
  pose proof (mapped_ids _ _ _ Hrec) as Hmapped. pose proof (mapped_memberships _ _ _ Hrec Hmem) as Hvalid.
  assert (collection_records c = records ∧
    collection_next c = nextCursor ak data_email (transition_state tr) ∧
    collection_expected c = precondition_of cursor) as (Hrecords & Hnext & Hexp).
  { unfold email_commit_of in Hc. destruct tr, cursor; try done; by injection Hc as <-. }
  unfold commit_allowed, cursor_current, commit_expectedCursor, commit_nextCursor, commit_kind, commit_valid.
  rewrite Hnext, Hexp. unfold ScopedEmailId in *. rewrite Hrecords. cbn [cursor_accountKey cursor_dataType].
  split_and!; try done.
  - destruct cursor as [cur|]; simpl; [|done]. by destruct (Hcursor cur eq_refl) as [-> ->].
  - rewrite Hmapped. apply scoped_accounts.
  - rewrite Hmapped. by apply scoped_NoDup.
  - unfold email_commit_of in Hc. destruct tr, cursor; try done; injection Hc as <-; simpl;
      [constructor..|apply scoped_accounts].
  - unfold email_commit_of in Hc. destruct tr as [|state changed destroyed], cursor; try done;
      injection Hc as <-; simpl; [constructor..|].
    apply scoped_NoDup. by destruct (Hd _ _ _ eq_refl) as (? & _).
  - rewrite Hmapped. unfold email_commit_of in Hc. destruct tr as [|state changed destroyed], cursor; try done;
      injection Hc as <-; simpl; apply Forall_forall; intros id Hid;
      [apply not_elem_of_nil..|].
    apply list_elem_of_fmap in Hid as (raw_id & -> & Hraw). intros Hdes.
    apply list_elem_of_fmap in Hdes as (d & [= ->] & Hdes).
    destruct (Hd _ _ _ eq_refl) as (_ & _ & Hdis). by apply (Hdis d).
Qed.

Section quiet_sync.
Context {W : Type} `{!LocalEngine W} (side : RemoteSide).

Definition sync_handler X (c : SyncCall X) (w : W) : outcome exn X * W :=
  match c in SyncCall X return outcome exn X * W with
  | SyncPortCall c => engine_answer c w
  | SyncIdentities _ previous => (side.(side_identities) previous, w)
  | SyncMailboxes _ previous => (side.(side_mailboxes) previous, w)
  | SyncEmails _ previous => (side.(side_emails) previous, w)
  | QueryMailbox _ id options => (side.(side_query) id options, w)
  end.

Definition synchronise {A} (p : coordinator A) (w : W) : outcome exn A * W := run sync_handler p w.

Lemma synchronise_bind {A B} (p : coordinator A) (f : A → coordinator B) w a w' :
  synchronise p w = (Return a, w') → synchronise (p ≫= f) w = synchronise (f a) w'.
Proof.
  intros H. change (run sync_handler (prog_bind f p) w = synchronise (f a) w'). rewrite run_bind.
  by setoid_rewrite H.
Qed.

Lemma synchronise_await {X} (c : SyncCall X) w : synchronise (await c) w = sync_handler X c w.
Proof. unfold synchronise. simpl. by destruct (sync_handler X c w) as [[] ?]. Qed.

Ltac sync_run H := etransitivity; [eapply synchronise_bind; exact H|]; cbv beta iota.

Lemma readCursorOutcome_run w ak t :
  engine_ok w → st_account (engine_store w) ak ≠ None →
  ∃ w', synchronise (readCursorOutcome ak t) w = (Return (st_cursor (engine_store w) (ak, t)), w') ∧
    engine_ok w' ∧ engine_store w' ≡ engine_store w.
Proof.
  intros Hok Hreg. set (c := ReadCollectionSyncCursor ak t).
  pose proof (engine_answers _ c w Hok I) as Hr. simpl in Hr.
  destruct (st_account _ _) as [a|]; [|done]. simpl in Hr.
  exists (engine_answer c w).2. split_and!; [|by apply engine_ok_kept|by apply engine_reads].
  assert (synchronise (await (SyncPortCall c)) w =
    (Return (PortOk match st_cursor (engine_store w) (ak, t) with
                    | Some v => OptionalPresent v | None => OptionalAbsent end), (engine_answer c w).2)) as Hrun.
  { rewrite synchronise_await. simpl. rewrite <- Hr. by destruct (engine_answer c w). }
  unfold readCursorOutcome. sync_run Hrun. by destruct (st_cursor _ _).
Qed.

Lemma email_commit_effect_equiv c st0 st st' :
  st0 ≡ st → email_commit_effect c st0 st' → email_commit_effect c st st'.
Proof.
  intros (He & Hm & _)%equiv_lookups [H1 H2 H3 H4]. split; [done..| |done].
  intros id Hid Hgone. rewrite <- He, <- Hm. auto.
Qed.

(** A synchronisation that meets no conflict takes one attempt. *)
Lemma syncEmails_run w ak rid tr records c :
  engine_ok w → st_account (engine_store w) ak ≠ None →
  (∀ cur, st_cursor (engine_store w) (ak, data_email) = Some cur →
    cur.(cursor_accountKey) = ak ∧ cur.(cursor_dataType) = data_email) →
  side.(side_emails) (cursor_state <$> st_cursor (engine_store w) (ak, data_email)) = Return tr →
  transition_mappable ak tr records →
  email_commit_of ak tr (st_cursor (engine_store w) (ak, data_email)) records = Some c →
  ∃ w', synchronise (syncEmails ak rid) w = (Return tt, w') ∧ engine_ok w' ∧
    email_commit_effect c (engine_store w) (engine_store w').
Proof.
  intros Hok Hreg Hcur Hside Hmap Hc. set (cursor := st_cursor (engine_store w) (ak, data_email)) in *.
  destruct (readCursorOutcome_run w ak data_email Hok Hreg) as (w0 & Hread & Hok0 & Heq).
  pose proof (email_commit_allowed ak tr cursor records c (engine_store w) Hmap Hc Hreg eq_refl Hcur) as Hallowed.
  set (op := OpApplyCollectionSync (EmailCommit c)).
  assert (collection_records c = records) as Hrecords
    by (unfold email_commit_of in Hc; destruct tr, cursor; try done; by injection Hc as <-).
  assert (∃ st batch, spec op (engine_store w) = Accepted st batch) as (st & batch & Hspec).
  { simpl. unfold spec_sync, reject_unless. rewrite decide_True by done.
    rewrite mapM_return_id; [by do 2 eexists|]. rewrite Hrecords. apply Forall_forall. intros r Hr.
    destruct Hmap as [Hrec _ _ _]. apply list_elem_of_lookup in Hr as [i Hi].
    destruct (Forall2_lookup_r _ _ _ _ _ Hrec Hi) as (raw & _ & Hraw).
    by eapply mapped_record_checked. }
  pose proof (spec_equiv op _ _ Heq) as Hverdict. rewrite Hspec in Hverdict.
  assert (∃ st0, spec op (engine_store w0) = Accepted st0 batch) as (st0 & Hspec0)
    by (destruct (spec op (engine_store w0)); inversion Hverdict; subst; by eexists).
  pose proof (engine_answers _ (Write op) w0 Hok0 I) as Hr. simpl in Hr, Hspec0. rewrite Hspec0 in Hr.
  pose proof (engine_writes op w0 Hok0 I) as Hw. unfold performed in Hw. simpl in Hw. rewrite Hspec0 in Hw.
  exists (engine_answer (Write op) w0).2. split_and!.
  - assert (synchronise (sync_attempt ak data_email (λ previous,
      transition ← await (SyncEmails rid previous); Ret (emailCommit ak transition))) w =
      (Return true, (engine_answer (Write op) w0).2)) as Hattempt.
    { unfold sync_attempt. sync_run Hread. fold cursor.
      assert (synchronise (transition ← await (SyncEmails rid (cursor_state <$> cursor));
        Ret (emailCommit ak transition)) w0 = (Return (emailCommit ak tr), w0)) as Hbuild.
      { sync_run (eq_trans (synchronise_await (SyncEmails rid (cursor_state <$> cursor)) w0)
          (f_equal (λ r, (r, w0)) Hside)). done. }
      sync_run Hbuild.
      assert (synchronise (of_outcome (emailCommit ak tr (precondition_of cursor))) w0 =
        (Return (EmailCommit c), w0)) as Hcommit
        by (by rewrite (emailCommit_return _ _ _ _ _ Hmap Hc)).
      sync_run Hcommit.
      assert (synchronise (await (SyncPortCall (Write op))) w0 =
        (Return (PortOk tt), (engine_answer (Write op) w0).2)) as Hwrite.
      { rewrite synchronise_await. simpl. rewrite <- Hr. by destruct (engine_answer (Write op) w0). }
      by sync_run Hwrite. }
    unfold syncEmails, syncCollection. cbn [sync_attempts]. by sync_run Hattempt.
  - by apply engine_ok_kept.
  - eapply email_commit_effect_equiv; [exact Heq|]. by eapply email_commit_effects.
Qed.
End quiet_sync.

Open Scope string_scope.
Open Scope list_scope.

(** C26: Whatever the engine and the remote side answer, [syncAccount] asks for a
    collection from the cursor it has just read, commits a transition only right
    after fetching it, with that cursor as the precondition and the fetched state
    as the next cursor, replaces only well-formed views, and writes nothing else. *)
Theorem sync_account_protocol (ak : AccountKey) (rid : RemoteAccountId) (p : sync_phase) :
  obeys sync_protocol (syncAccount ak rid) p (λ _ _, True).
Proof. apply syncAccount_obeys. Qed.

(** Whatever the engine and the submission answer, [processSendMutation]
    submits at most once, only a plain send it has just moved to in flight, under
    that send's id and to its recipients; it removes a mutation only after a
    submission; and its other writes are Domain steps of the mutation. *)
Theorem outbox_order (ak : AccountKey) (rid : RemoteAccountId) (id : MutationId) :
  obeys outbox_protocol (processSendMutation ak rid id) OutboxIdle (λ _ _, True).
Proof. apply processSendMutation_obeys. Qed.

(** An end-to-end encrypted send that [processSendMutation] finds due is claimed
    and then refused with a [TypeError], outside the [try] that would settle it: it
    stays in flight, and nothing was submitted. *)
Theorem encrypted_send_stays_in_flight {W : Type} `{!LocalEngine W} (side : OutboxSide) (w : W)
    (rid : RemoteAccountId) (s s' : SendMutation) :
  engine_ok w → stored w (MutSend s) → st_account (engine_store w) s.(send_accountKey) ≠ None →
  send_due side s → startMutationAttempt (MutSend s) = Return (MutSend s') →
  s'.(send_intent).(intent_securityMode) ≠ mode_plain →
  ∃ w', run (outbox_handler side) (processSendMutation s.(send_accountKey) rid s.(send_mutationId)) w =
      (Throw (TypeError "Encrypted SendIntent cannot use the plaintext submission converter"), w') ∧
    stored w' (MutSend s').
Proof.
  intros Hok Hs Hreg Hdue Hstart Hmode.
  destruct (encrypted_send_runs side s s' Hstart w rid Hok Hs Hreg Hdue Hmode) as [H1 H2].
  eexists. split; [|exact H2]. rewrite <- H1. by destruct (run _ _ w).
Qed.

(** The sample send, sealed. *)
Definition sealed_intent : SendIntent :=
  {| intent_securityMode := boxplotE2eeV1; intent_identityId := sample_intent.(intent_identityId);
     intent_from := sample_intent.(intent_from); intent_replyTo := []; intent_to := sample_intent.(intent_to);
     intent_cc := []; intent_bcc := []; intent_subject := "Re: Hello";
     intent_body := sample_intent.(intent_body) |}.

Definition sealed_send (lifecycle : SendMutationLifecycle) : SendMutation :=
  {| send_mutationId := "s2"; send_accountKey := ana; send_createdAt := "2024-05-01T10:05:00.000Z";
     send_intent := sealed_intent; send_lifecycle := lifecycle |}.

Definition sealed_world : World := (MemoryEngine.perform (OpStageSendMutation (sealed_send pendingLifecycle)) seeded).2.

Definition quiet_side : OutboxSide :=
  {| side_submit := λ _ _, Throw (Error "not used"); side_now := "2024-05-01T10:10:00.000Z" |}.

Lemma encrypted_send_stays_in_flight_witness :
  ∃ w', run (outbox_handler quiet_side) (processSendMutation ana "A1" "s2") sealed_world =
      (Throw (TypeError "Encrypted SendIntent cannot use the plaintext submission converter"), w') ∧
    stored w' (MutSend (sealed_send (InFlight (Int 1)))).
Proof.
  apply (encrypted_send_stays_in_flight (LocalEngine0 := memory_engine) quiet_side sealed_world "A1"
    (sealed_send pendingLifecycle) (sealed_send (InFlight (Int 1)))).
  - apply perform_state_wf, seeded_ok.
  - vm_compute. reflexivity.
  - vm_compute. discriminate.
  - exact I.
  - vm_compute. reflexivity.
  - discriminate.
Defined.

(** ** Remote transitions *)

(** A transition passes the check exactly when its values have distinct ids
    and, for a delta, the destroyed ids are distinct and none is also changed; a
    transition that passes is returned as it is. *)
Theorem remote_transition_check {T} (t t' : RemoteCollectionSync T string) (identityOf : T → string) :
  validateRemoteCollectionSync t identityOf = Return t' ↔
  t' = t ∧ NoDup (map identityOf (transition_values t)) ∧
  match t with
  | RemoteReplace _ _ => True
  | RemoteDelta _ _ destroyed =>
      NoDup destroyed ∧ ∀ id, id ∈ destroyed → id ∉ map identityOf (transition_values t)
  end.
Proof. apply remote_transition_check_iff. Qed.

(** ** The crossing between remote and local ids *)

Lemma remote_id_return name value id :
  remoteIdFromString value name = Return id ↔ value ≠ "" ∧ id = value.
Proof.
  unfold remoteIdFromString. rewrite seq_return, throw_if_return, is_empty_false. naive_solver.
Qed.

Lemma crossing (f : AccountKey → string → ScopedId) local_name remote_name ak id s :
  (∀ ak id, f ak id = mkScopedId ak id) →
  (j ← opaqueIdFromString id local_name; Return (f ak j)) = Return s ↔
  s.(accountKey) = ak ∧ remoteIdFromString s.(jmapId) remote_name = Return id.
Proof.
  intros Hf. rewrite local_id_return, remote_id_return, Hf. destruct s as [ak' id']; simpl. split.
  - by intros [Hid [= -> ->]].
  - by intros (-> & Hid & ->).
Qed.

(** For each of the five kinds of id, the local id of a remote id under an
    account is the one local id of that account whose remote id is it; so the
    crossing round-trips in both directions, and refuses the empty id both ways. *)
Theorem ids_cross_both_ways (ak : AccountKey) (id : string) (s : ScopedId) :
  (localEmailId ak id = Return s ↔ s.(accountKey) = ak ∧ remoteEmailId s = Return id) ∧
  (localMailboxId ak id = Return s ↔ s.(accountKey) = ak ∧ remoteMailboxId s = Return id) ∧
  (localIdentityId ak id = Return s ↔ s.(accountKey) = ak ∧ remoteIdentityId s = Return id) ∧
  (localThreadId ak id = Return s ↔ s.(accountKey) = ak ∧ remoteThreadId s = Return id) ∧
  (localBlobId ak id = Return s ↔ s.(accountKey) = ak ∧ remoteBlobId s = Return id).
Proof. split_and!; by apply crossing. Qed.

(** ** The mappers *)

(** A remote email is mapped exactly when its ids are not empty, its size is a
    non-negative safe integer, and its dates and keywords are not empty; the record
    has its fields, its keywords as a set, and one membership per mailbox.  Every
    other remote email is dropped, and the mapper never throws. *)
Theorem email_mapper (ak : AccountKey) (raw : RemoteEmail) (r : EmailSyncRecord) :
  toDomainEmailRecord ak raw = Some r ↔ remote_email_ok raw ∧ r = record_of_remote ak raw.
Proof. apply toDomainEmailRecord_iff. Qed.

(** A mailbox query is mapped exactly when its state is not empty, its total is
    a safe integer, and its ids are distinct, non-empty and fit below the total at
    its position; the view covers one range, its items are the ids in order. *)
Theorem view_mapper (spec : MailboxViewSpec) (ak : AccountKey) (q : RemoteMailboxQuery) (v : MailboxView) :
  toMailboxView spec ak q = Some v ↔ query_ok spec ak q ∧ v = view_of_query spec ak q.
Proof. apply toMailboxView_iff. Qed.

(** ** A synchronisation of emails *)

Lemma checked_transition_mappable ak (tr : RemoteCollectionSync RemoteEmail RemoteEmailId) :
  validateRemoteCollectionSync tr r_email_id = Return tr →
  Forall remote_email_ok (transition_values tr) →
  Forall (λ raw, NoDup raw.(r_email_mailboxIds)) (transition_values tr) →
  (∀ state changed destroyed, tr = RemoteDelta state changed destroyed → Forall (λ id, id ≠ "") destroyed) →
  transition_mappable ak tr (map (record_of_remote ak) (transition_values tr)).
Proof.
  intros Hcheck Hok Hmail Hd. apply remote_transition_check_iff in Hcheck as (_ & Hnd & Hdes). split.
  - clear -Hok. induction Hok as [|raw raws Hraw _ IH]; simpl; constructor; [|done].
    by apply toDomainEmailRecord_iff.
  - done.
  - done.
  - intros state changed destroyed ->. destruct Hdes as [Hnd' Hnot]. split_and!; [done|by eapply Hd|done].
Qed.

(** C18: On any engine, when the remote side answers the request from the stored
    cursor with a transition of acceptable emails that passes the check,
    [syncEmails] finishes in one attempt, and its commit has taken effect: the
    changed emails and memberships are stored, the destroyed ones are gone, the
    others are kept (a delta) or gone (a replacement), and the cursor has moved. *)
Theorem email_sync_takes_effect {W : Type} `{!LocalEngine W} (side : RemoteSide) (w : W)
    (ak : AccountKey) (rid : RemoteAccountId) (tr : RemoteCollectionSync RemoteEmail RemoteEmailId)
    (c : CollectionCommit EmailSyncRecord ScopedEmailId) :
  engine_ok w → st_account (engine_store w) ak ≠ None →
  (∀ cur, st_cursor (engine_store w) (ak, data_email) = Some cur →
    cur.(cursor_accountKey) = ak ∧ cur.(cursor_dataType) = data_email) →
  side.(side_emails) (cursor_state <$> st_cursor (engine_store w) (ak, data_email)) = Return tr →
  validateRemoteCollectionSync tr r_email_id = Return tr →
  Forall remote_email_ok (transition_values tr) →
  Forall (λ raw, NoDup raw.(r_email_mailboxIds)) (transition_values tr) →
  (∀ state changed destroyed, tr = RemoteDelta state changed destroyed → Forall (λ id, id ≠ "") destroyed) →
  email_commit_of ak tr (st_cursor (engine_store w) (ak, data_email))
    (map (record_of_remote ak) (transition_values tr)) = Some c →
  ∃ w', synchronise side (syncEmails ak rid) w = (Return tt, w') ∧ engine_ok w' ∧
    email_commit_effect c (engine_store w) (engine_store w').
Proof.
  intros Hok Hreg Hcur Hside Hcheck Hemails Hmail Hd Hc.
  by eapply syncEmails_run; [..|apply checked_transition_mappable|].
Qed.

(** A delta from the seeded cursor: the first email is gone, the second was read. *)
Definition remote_second : RemoteEmail :=
  {| r_email_id := "m2"; r_email_blobId := "m2-blob"; r_email_threadId := "m2-thread";
     r_email_sender := None; r_email_from := None; r_email_replyTo := None; r_email_to := None;
     r_email_cc := None; r_email_bcc := None; r_email_subject := Some "Hello"; r_email_sentAt := None;
     r_email_receivedAt := "2024-05-01T10:00:00Z"; r_email_size := Int 1200; r_email_preview := "Hello";
     r_email_hasAttachment := false; r_email_keywords := ["$seen"]; r_email_mailboxIds := ["inbox"] |}.

Definition remote_delta : RemoteCollectionSync RemoteEmail RemoteEmailId :=
  RemoteDelta "e2" [remote_second] ["m1"].

Definition seeded_side : RemoteSide :=
  {| side_identities := λ _, Throw (Error "not used"); side_mailboxes := λ _, Throw (Error "not used");
     side_emails := λ previous,
       if bool_decide (previous = Some "e1") then Return remote_delta else Throw (Error "unknown state");
     side_query := λ _ _, Throw (Error "not used") |}.

Lemma remote_second_ok : remote_email_ok remote_second.
Proof.
  constructor; simpl; [discriminate..| |discriminate|discriminate| |].
  - exists 1200%Z. split; [reflexivity|]. unfold MAX_SAFE_INTEGER. lia.
  - repeat constructor; discriminate.
  - repeat constructor; discriminate.
Defined.

Lemma email_sync_takes_effect_witness :
  ∃ w', synchronise seeded_side (syncEmails ana "A1") seeded = (Return tt, w') ∧ state_wf (db w') ∧
    email_commit_effect
      (Delta (cursor_at data_email "e1") (cursor_at data_email "e2")
        [record_of_remote ana remote_second] [scopedEmailId ana "m1"])
      (abs (db seeded)) (abs (db w')).
Proof.
  apply (email_sync_takes_effect (LocalEngine0 := memory_engine) seeded_side seeded ana "A1" remote_delta).
  - apply seeded_ok.
  - vm_compute. discriminate.
  - intros cur H. vm_compute in H. injection H as <-. done.
  - vm_compute. reflexivity.
  - vm_compute. reflexivity.
  - constructor; [apply remote_second_ok | constructor].
  - repeat constructor. apply not_elem_of_nil.
  - intros state changed destroyed [= _ _ <-]. by repeat constructor.
  - vm_compute. reflexivity.
Defined.

(** ** Change notifications *)

(** Publishing delivers the batch once to every subscriber, in the order of
    subscription, even to those that come after a subscriber that throws. *)
Theorem hub_delivers_once {Listener Client : Type}
    (call : Listener → LocalChangeBatch → MemoryChangeHub Listener * Client →
            (MemoryChangeHub Listener * Client) * bool)
    (log : Client → list (Listener * LocalChangeBatch))
    (call_logs : ∀ l batch s, log (call l batch s).1.2 = log s.2 ++ [(l, batch)])
    (first : LocalChangeHint) (rest : list LocalChangeHint) (s : MemoryChangeHub Listener * Client) :
  log (hub_publish call first rest s).2 =
    log s.2 ++ map (λ l, (l, mkBatch first rest)) (map_values s.1.(listeners)).
Proof. by apply publish_log. Qed.

(** Two subscribers that record what they get and then throw. *)
Definition recording_call (l : nat) (batch : LocalChangeBatch)
    (s : MemoryChangeHub nat * list (nat * LocalChangeBatch)) :
    (MemoryChangeHub nat * list (nat * LocalChangeBatch)) * bool :=
  ((s.1, s.2 ++ [(l, batch)]), true).

Lemma hub_delivers_once_witness :
  (hub_publish recording_call AccountsChanged []
    ((hub_subscribe 8 (hub_subscribe 7 new_MemoryChangeHub).2).2, [])).2 =
  [(7, mkBatch AccountsChanged []); (8, mkBatch AccountsChanged [])].
Proof. exact (hub_delivers_once recording_call id (λ l batch s, eq_refl) AccountsChanged []
  ((hub_subscribe 8 (hub_subscribe 7 new_MemoryChangeHub).2).2, [])). Defined.

(** Once a subscription is ended, no later publication reaches its listener
    under that subscription, whatever else subscribes or unsubscribes, and ending
    it again does nothing. *)
Theorem unsubscribe_is_final {Listener : Type} (l : Listener) (before between after : list (hub_op Listener)) :
  let '(s, h) := source_subscribe l (hub_steps before new_MemoryChangeHub) in
  let '(s', h') := unsubscribe s (hub_steps between h) in
  map_get s.(sub_id) (hub_steps after h').(listeners) = None ∧
  unsubscribe s' (hub_steps after h') = (s', hub_steps after h').
Proof.
  simpl. set (h0 := hub_steps before new_MemoryChangeHub).
  assert (hub_wf h0) as Hwf by apply hub_steps_wf, hub_wf_new.
  pose proof (hub_subscribe_wf l h0 Hwf) as Hwf1.
  pose proof (hub_steps_wf between _ Hwf1) as Hwf2.
  pose proof (hub_steps_next between (hub_subscribe l h0).2) as Hnext. simpl in Hnext.
  split; [|done]. apply hub_steps_absent.
  - by apply hub_unsubscribe_wf.
  - simpl. lia.
  - simpl. apply map_get_delete_eq. apply Hwf2.
Qed.

(** A listener that ends the other subscription (its id is 1) when it is called: the
    other one is called all the same, since [publish] goes through a snapshot. *)
Definition ending_call (l : nat) (batch : LocalChangeBatch)
    (s : MemoryChangeHub nat * list nat) : (MemoryChangeHub nat * list nat) * bool :=
  ((if (l =? 7)%nat then hub_unsubscribe 1 s.1 else s.1, s.2 ++ [l]), false).

Example unsubscribed_while_publishing :
  (hub_publish ending_call AccountsChanged []
    ((hub_subscribe 8 (hub_subscribe 7 new_MemoryChangeHub).2).2, [])).2 = [7; 8].
Proof. reflexivity. Qed.
