(* ===== verification/BodyTheorems.v ===== *)
(** * What the body materializer guarantees *)

From S2P Require Import Prelude.
From S2P Require Import JsNumber.
From S2P Require Import JsString.
From S2P Require Import JsCollections.
From S2P Require Import Errors.
From S2P Require Import DomainIds.
From S2P Require Import DomainEmail.
From S2P Require Import DomainMailbox.
From S2P Require Import SendIntent.
From S2P Require Import Ports.
From S2P Require Import MemoryState.
From S2P Require Import MemorySyncPort.
From S2P Require Import MemoryFacts.
From S2P Require Import MailStore.
From S2P Require Import MemoryRefinement.
From S2P Require Import MemoryEngine.
From S2P Require Import EngineInterface.
From S2P Require Import StoreEffects.
From S2P Require Import Remote.
From S2P Require Import Prog.
From S2P Require Import E2ee.
From S2P Require Import BodyMaterializer.
From S2P Require Import Fixtures.
(** ** What a materialization achieves

    [materialization]: the outcome of [materializeOnce] as a function of the local
    store, the remote source and the cryptography, and what it caches; the program
    implements it on any engine.  The second part is [materialize], which shares the
    materializations in flight. *)

Open Scope string_scope.
Open Scope list_scope.

(** The remote source and the cryptography during one materialization. *)
Record BodySide : Type := mkBodySide {
  side_fetch : AccountKey → RemoteEmailId → outcome exn RemoteBodyFetch;
  side_current : nat → outcome exn unit;
  side_decrypt : DecryptFromInput → outcome exn (E2eeResult E2eePlaintext);
}.

Section effects.
Context (wide : nat → string) (other_number : string → option number).
Context (side : BodySide).

(** ** The specification *)

(** What the local store expects of the encrypted body of an email. *)
Definition metadata_of (st : Store) (id : ScopedEmailId) (m : ExpectedE2eeMetadata) : Prop :=
  ∃ email identity,
    st_email st id = Some email ∧ st_account st email.(email_id).(accountKey) ≠ None ∧
    encrypted_parties email = Some (m.(meta_expectedSender), m.(meta_expectedRecipient)) ∧
    email.(email_subject) = Some m.(meta_expectedSubject) ∧
    m.(meta_localIdentity) = m.(meta_expectedRecipient) ∧
    identity.(identity_id).(accountKey) = email.(email_id).(accountKey) ∧
    st_identity st identity.(identity_id) = Some identity ∧
    identity.(identity_email) = m.(meta_localIdentity).

Inductive decryption (st : Store) (id : ScopedEmailId) (body : RemoteBody) : outcome exn EmailBody → Prop :=
| Decryption_metadata :
    (∀ m, ¬ metadata_of st id m) →
    decryption st id body (Throw (body_error body_metadataUnavailable))
| Decryption_envelope m e :
    metadata_of st id m → parse_envelope wide other_number body = Throw e →
    decryption st id body (Throw (body_error body_invalidEnvelope))
| Decryption_thrown m envelope e :
    metadata_of st id m → parse_envelope wide other_number body = Return envelope →
    side.(side_decrypt) (decrypt_input m envelope) = Throw e →
    decryption st id body (Throw e)
| Decryption_refused m envelope kind :
    metadata_of st id m → parse_envelope wide other_number body = Return envelope →
    side.(side_decrypt) (decrypt_input m envelope) = Return (E2eeFailed kind) →
    decryption st id body (Throw (BodyMaterializationError body_e2ee (Some kind)))
| Decryption_done m envelope plain :
    metadata_of st id m → parse_envelope wide other_number body = Return envelope →
    side.(side_decrypt) (decrypt_input m envelope) = Return (E2eeOk plain) →
    decryption st id body (Return (decrypted_body id plain)).

Definition obtains (st : Store) (id : ScopedEmailId) (body : RemoteBody) (r : outcome exn EmailBody) : Prop :=
  match body with
  | PlainBody text html => r = Return (mkEmailBody id text html)
  | BoxplotE2eeBody _ => decryption st id body r
  end.

(** The result, and the body that is cached, if one is. *)
Inductive materialization (st : Store) (id : ScopedEmailId) :
    outcome exn BodyMaterializationResult → option EmailBody → Prop :=
| Mat_absent :
    st_email st id = None → materialization st id (Throw (body_error body_emailAbsent)) None
| Mat_cached body :
    st_email st id ≠ None → st_body st id = Some body →
    materialization st id (Return alreadyCached) None
| Mat_bad_id e :
    st_email st id ≠ None → st_body st id = None → remoteEmailId id = Throw e →
    materialization st id (Throw (as_materialization_error e)) None
| Mat_not_fetched remote e :
    st_email st id ≠ None → st_body st id = None → remoteEmailId id = Return remote →
    side.(side_fetch) id.(accountKey) remote = Throw e →
    materialization st id (Throw (as_materialization_error e)) None
| Mat_not_obtained remote fetched e :
    st_email st id ≠ None → st_body st id = None → remoteEmailId id = Return remote →
    side.(side_fetch) id.(accountKey) remote = Return fetched →
    obtains st id fetched.(fetch_body) (Throw e) →
    materialization st id (Throw (as_materialization_error e)) None
| Mat_stale remote fetched body e :
    st_email st id ≠ None → st_body st id = None → remoteEmailId id = Return remote →
    side.(side_fetch) id.(accountKey) remote = Return fetched →
    obtains st id fetched.(fetch_body) (Return body) →
    side.(side_current) fetched.(fetch_session) = Throw e →
    materialization st id (Throw (as_materialization_error e)) None
| Mat_stored remote fetched body :
    st_email st id ≠ None → st_body st id = None → remoteEmailId id = Return remote →
    side.(side_fetch) id.(accountKey) remote = Return fetched →
    obtains st id fetched.(fetch_body) (Return body) →
    side.(side_current) fetched.(fetch_session) = Return tt →
    materialization st id (Return materialized) (Some body).

Definition cached (st : Store) (id : ScopedEmailId) (change : option EmailBody) : Store :=
  match change with
  | None => st
  | Some body => st_with_body (upd id (Some body) (st_body st)) st
  end.

(** ** Running on an engine *)

Context {W : Type} `{!LocalEngine W}.

Definition body_handler X (c : BodyCall X) (w : W) : outcome exn X * W :=
  match c in BodyCall X return outcome exn X * W with
  | BodyPort c => engine_answer c w
  | FetchBody ak id => (side.(side_fetch) ak id, w)
  | AssertCurrent session => (side.(side_current) session, w)
  | DecryptFrom input => (side.(side_decrypt) input, w)
  end.

(** A read: its answer is what [st] holds, and nothing that matters changes. *)
Definition holds (st : Store) (w : W) : Prop := engine_ok w ∧ engine_store w ≡ st.

Lemma runs_read {X} (c : PortCall X) st w (Q : outcome exn X → W → Prop) :
  is_write c = false → call_wf c → holds st w →
  (∀ r w', read_spec c (engine_store w) r → holds st w' → Q r w') →
  runs body_handler (await (BodyPort c)) w Q.
Proof.
  intros Hread Hwf [Hok Hst] HQ. apply runs_await. simpl. apply HQ; [by apply engine_answers|].
  split; [by apply engine_ok_kept|]. etransitivity; [by apply engine_reads | done].
Qed.

Lemma equal_lookups (st st' : Store) :
  st ≡ st' → (∀ k, st_account st k = st_account st' k) ∧ (∀ k, st_identity st k = st_identity st' k) ∧
    (∀ k, st_email st k = st_email st' k) ∧ (∀ k, st_body st k = st_body st' k).
Proof. intros H. unfold equiv, store_equiv in H. destruct_and! H. by split_and!. Qed.

Lemma matching_identity l recipient identity :
  identity ∈ l → identity.(identity_email) = recipient →
  length (matchingEmails l recipient) = 1%nat.
Proof.
  intros Hin Hemail.
  assert (∀ e, e ∈ matchingEmails l recipient ↔ e = recipient) as Hall.
  { intros e. unfold matchingEmails. rewrite set_of_list_elem, list_elem_of_In, filter_In, bool_decide_eq_true.
    split; [by intros [_ ?]|]. intros ->. split; [|done]. apply list_elem_of_In, list_elem_of_fmap.
    by exists identity. }
  pose proof (set_of_list_NoDup
    (List.filter (λ value, bool_decide (value = recipient)) (map identity_email l))) as Hnd.
  change (NoDup (matchingEmails l recipient)) in Hnd.
  destruct (matchingEmails l recipient) as [|a [|b rest]]; [|done|].
  - pose proof (proj2 (Hall recipient) eq_refl) as H. by apply not_elem_of_nil in H.
  - pose proof (proj1 (Hall a) ltac:(by left)). pose proof (proj1 (Hall b) ltac:(right; by left)).
    subst. apply NoDup_cons in Hnd as [Hnot _]. destruct Hnot. by left.
Qed.

Lemma resolveExpectedMetadata_runs st id w :
  holds st w → st_email st id ≠ None →
  runs body_handler (resolveExpectedMetadata id) w (λ r w', holds st w' ∧
    match r with
    | Return m => metadata_of st id m
    | Throw e => e = body_error body_metadataUnavailable ∧ ∀ m, ¬ metadata_of st id m
    end).
Proof.
  intros Hw Hemail. apply runs_bind, (runs_read _ st); [done..|].
  intros r w1 Hr Hw1. simpl in Hr. destruct (equal_lookups _ _ (proj2 Hw)) as (_ & _ & He & _).
  rewrite He in Hr. destruct (st_email st id) as [email|] eqn:Hid; [|done]. subst r.
  cbn [entity]. destruct (encrypted_parties email) as [[sender recipient]|] eqn:Hp.
  2:{ split; [done|]. split; [done|]. intros m (email' & i & Hid' & _ & Hp' & _). congruence. }
  apply runs_bind, (runs_read _ st); [done..|]. intros r w2 Hr Hw2. simpl in Hr.
  destruct (equal_lookups _ _ (proj2 Hw1)) as (Ha & Hi & _ & _). rewrite Ha in Hr.
  destruct r as [[[|l]|kind]|e]; simpl in Hr; try done.
  { split; [done|]. split; [done|]. intros m (email' & i & Hid' & Hacc & _). congruence. }
  destruct Hr as [Hacc [Hnd Hl]]. apply runs_bind, runs_outcome.
  apply encrypted_parties_some in Hp as Hparts. destruct Hparts as (_ & _ & _ & _ & Hs).
  destruct (throw_if _ _) as [[]|e] eqn:Hone.
  - apply throw_if_return, differs_false, matching_one, list_elem_of_fmap in Hone as (i & Hrec & Hin).
    apply Hl in Hin as [Hiak Hin]. rewrite Hi in Hin.
    apply runs_bind, runs_outcome. unfold subject_or_fail.
    destruct (email_subject email) as [subject|] eqn:Hsub; [|done]. split; [done|].
    exists email, i. by split_and!.
  - apply throw_if_throw in Hone as [Hone <-]. apply differs_true in Hone. split; [done|].
    split; [done|]. intros m (email' & i & Hid' & _ & Hp' & _ & Hloc & Hiak & Hin & Hrec). apply Hone.
    assert (email' = email) as -> by congruence. apply (matching_identity l recipient i); [|congruence].
    apply Hl. by rewrite Hi.
Qed.

Lemma parse_envelope_throw body e :
  parse_envelope wide other_number body = Throw e → e = body_error body_invalidEnvelope.
Proof.
  unfold parse_envelope. destruct body; simpl; [congruence|].
  destruct (parseBoxplotE2eeEnvelope _ _ _); simpl; congruence.
Qed.

Lemma decryptBody_runs st id fetched w :
  holds st w → st_email st id ≠ None →
  runs body_handler (decryptBody wide other_number id fetched) w (λ r w', holds st w' ∧
    decryption st id fetched.(fetch_body) r).
Proof.
  intros Hw Hemail. apply runs_bind. eapply runs_mono; [|by apply resolveExpectedMetadata_runs].
  intros [m|e] w1 [Hw1 Hm].
  2:{ destruct Hm as [-> Hm]. split; [done|]. by constructor. }
  apply runs_bind, runs_outcome. destruct (parse_envelope _ _ _) as [envelope|e] eqn:Henv.
  2:{ split; [done|]. assert (e = body_error body_invalidEnvelope) as ->.
      { by eapply parse_envelope_throw. }
      by eapply Decryption_envelope. }
  apply runs_bind, runs_await. simpl. destruct (side_decrypt _ _) as [[plain|kind]|e] eqn:Hd; (split; [done|]).
  - by eapply Decryption_done.
  - by eapply Decryption_refused.
  - by eapply Decryption_thrown.
Qed.

Lemma body_of_fetch_runs st id fetched w :
  holds st w → st_email st id ≠ None →
  runs body_handler (body_of_fetch wide other_number id fetched) w (λ r w', holds st w' ∧
    obtains st id fetched.(fetch_body) r ∧
    match r with Return body => body.(body_emailId) = id | Throw _ => True end).
Proof.
  intros Hw Hemail. unfold body_of_fetch, obtains. destruct (fetch_body fetched) eqn:Hbody.
  - by split_and!.
  - eapply runs_mono; [|by apply decryptBody_runs]. intros r w' [Hw' Hr]. rewrite Hbody in Hr.
    split_and!; [done..|]. by inversion Hr.
Qed.

Lemma store_body_runs st id fetched body w :
  holds st w → st_email st id ≠ None → body.(body_emailId) = id →
  runs body_handler (store_body fetched body) w (λ r w',
    match side.(side_current) fetched.(fetch_session) with
    | Throw e => r = Throw e ∧ holds st w'
    | Return _ => r = Return materialized ∧ holds (cached st id (Some body)) w'
    end).
Proof.
  intros [Hok Hst] Hemail Hid. apply runs_bind, runs_await. cbn [body_handler fst snd].
  destruct (side_current _ _) as [u|e]; [|by split]. apply runs_bind, runs_await. cbn [body_handler fst snd].
  destruct (equal_lookups _ _ Hst) as (_ & _ & He & Hb).
  pose proof (engine_answers _ (Write (OpCacheEmailBody body)) w Hok I) as Hr.
  pose proof (engine_writes (OpCacheEmailBody body) w Hok I) as Hw.
  pose proof (engine_ok_kept _ (Write (OpCacheEmailBody body)) w Hok) as Hok'.
  unfold performed in Hw. simpl in Hr, Hw. unfold spec_cache_body, reject_unless in Hr, Hw. rewrite Hid in Hr, Hw.
  rewrite (decide_True (P := st_email (engine_store w) id ≠ None)) in Hr, Hw by (by rewrite He).
  destruct (engine_answer _ w) as [r w']. simpl in *. subst r. split; [done|]. split; [done|].
  etransitivity; [exact Hw|]. unfold equiv, store_equiv in *. destruct_and! Hst. simpl.
  split_and!; try done. intros k. unfold upd. by case_decide.
Qed.

Theorem materializeOnce_runs st id w :
  holds st w →
  runs body_handler (materializeOnce wide other_number id) w (λ r w',
    ∃ change, materialization st id r change ∧ holds (cached st id change) w').
Proof.
  intros Hw. apply runs_try, runs_bind, (runs_read _ st); [done..|]. intros r w1 Hr Hw1. simpl in Hr.
  destruct (equal_lookups _ _ (proj2 Hw)) as (_ & _ & He & Hb). rewrite He, Hb in Hr.
  destruct (st_email st id) as [email|] eqn:Hid; subst r; cbn [owned_cache].
  2:{ exists None. split; [by constructor | done]. }
  assert (st_email st id ≠ None) as Hemail by (by rewrite Hid).
  destruct (st_body st id) as [body|] eqn:Hbody.
  { exists None. split; [by eapply Mat_cached | done]. }
  apply runs_bind, runs_outcome. destruct (remoteEmailId id) as [remote|e] eqn:Hremote.
  2:{ exists None. split; [by eapply Mat_bad_id | done]. }
  apply runs_bind, runs_await. simpl. destruct (side_fetch _ _ _) as [fetched|e] eqn:Hf.
  2:{ exists None. split; [by eapply Mat_not_fetched | done]. }
  apply runs_bind. eapply runs_mono; [|by apply body_of_fetch_runs].
  intros [body|e] w2 (Hw2 & Hobt & Hbid).
  2:{ exists None. split; [by eapply Mat_not_obtained | done]. }
  eapply runs_mono; [|by eapply store_body_runs]. intros r w3.
  destruct (side_current _ _) as [[]|e] eqn:Hc; intros [-> Hw3].
  - exists (Some body). split; [by eapply Mat_stored | done].
  - exists None. split; [by eapply Mat_stale | done].
Qed.
End effects.


(** An encrypted envelope that is serialized is parsed back unchanged, whatever
    characters its fields hold; and whatever the payload is, the parser fails with
    one error only. *)
Theorem envelope_round_trip (wide : nat → string) (other_number : string → option number)
    (e : BoxplotE2eeEnvelope) (payload : string) :
  parseBoxplotE2eeEnvelope wide other_number (serializeBoxplotE2eeEnvelope e) = Return e ∧
  match parseBoxplotE2eeEnvelope wide other_number payload with
  | Return _ => True
  | Throw error => error = TypeError "Invalid Boxplot E2EE envelope"
  end.
Proof.
  split; [apply parse_envelope_fields|].
  destruct (parseBoxplotE2eeEnvelope _ _ payload) eqn:H; [done|]. by apply parse_envelope_throws in H.
Qed.

(** C7: On any engine, one materialization has exactly the outcome that the local
    store, the remote source and the cryptography determine: an absent email, a
    cached body, each failure with its own kind, or the plain or decrypted body;
    and it changes the store only by caching that body. *)
Theorem materialization_refines {W : Type} `{!LocalEngine W} (wide : nat → string)
    (other_number : string → option number) (side : BodySide) (w : W) (id : ScopedEmailId) :
  engine_ok w →
  ∃ change,
    materialization wide other_number side (engine_store w) id
      (run (body_handler side) (materializeOnce wide other_number id) w).1 change ∧
    engine_ok (run (body_handler side) (materializeOnce wide other_number id) w).2 ∧
    engine_store (run (body_handler side) (materializeOnce wide other_number id) w).2 ≡
      cached (engine_store w) id change.
Proof.
  intros Hok. destruct (materializeOnce_runs wide other_number side (engine_store w) id w)
    as (change & Hm & Hok' & Hst); [by split|]. by exists change.
Qed.

Definition no_wide (n : nat) : string := "".
Definition no_number (s : string) : option number := None.

Definition plain_side : BodySide :=
  {| side_fetch := λ _ id, Return {| fetch_body := PlainBody (Some "Hello Ana") None; fetch_session := 4 |};
     side_current := λ _, Return tt;
     side_decrypt := λ _, Throw (Error "not used") |}.

Lemma materialization_refines_witness :
  let final := run (body_handler plain_side) (materializeOnce no_wide no_number (email_id first_email)) seeded in
  final.1 = Return materialized ∧
  ∃ change, materialization no_wide no_number plain_side (abs (db seeded)) (email_id first_email) final.1 change ∧
    state_wf (db final.2) ∧ abs (db final.2) ≡ cached (abs (db seeded)) (email_id first_email) change.
Proof.
  split; [vm_compute; reflexivity|].
  exact (materialization_refines (LocalEngine0 := memory_engine) no_wide no_number plain_side seeded
    (email_id first_email) seeded_ok).
Defined.

(** C25: Whatever its dependencies answer, a materialization fetches once, under the
    email's own account and id; asks for a decryption at most once, of the envelope
    it fetched, with the sender, recipient and subject of the local email and a
    recipient that is a local identity; caches only a body it obtained so for this
    email, right after the session was found current; writes nothing else; and
    fails with no other error than its own. *)
Theorem materialization_protocol (wide : nat → string) (other_number : string → option number)
    (id : ScopedEmailId) :
  obeys (body_protocol wide other_number id) (materializeOnce wide other_number id) body_start
    (λ r _, match r with
            | Return _ => True
            | Throw e => ∃ kind e2eeKind, e = BodyMaterializationError kind e2eeKind
            end).
Proof. apply materializeOnce_obeys. Qed.

(** Whenever a body is asked for, the promise returned is of a materialization
    of that email that has not settled; if one was running it is that one and none
    is started, and otherwise one is started.  Account keys without NUL assumed. *)
Theorem flights_are_shared (s : table_system) (id : ScopedEmailId) :
  table_reaches s → includes id.(accountKey) nul = false →
  (∀ op id', running s op id' → includes id'.(accountKey) nul = false) →
  let '(op, t) := materialize id s.(table) in
  running (mkTableSystem t s.(done_operations)) op id ∧
  ((running s op id ∧ t = s.(table)) ∨
   ((∀ op', ¬ running s op' id) ∧ t.(operations) = s.(table).(operations) ++ [id])) ∧
  ∀ op', running (mkTableSystem t s.(done_operations)) op' id → op' = op.
Proof.
  intros Hs Hid Hkeys. apply table_reaches_wf in Hs as Hwf.
  pose proof (materialize_wf s id Hwf) as Hwf'. pose proof (wf_running _ Hwf') as Hrun'.
  pose proof (wf_running _ Hwf) as Hrun. unfold materialize in *.
  destruct (map_get (flight_key id) (inFlight (table s))) as [op|] eqn:Hget; simpl in *.
  - apply Hrun in Hget as (id' & Hr & Hkey).
    apply flight_key_inj in Hkey as <-; [|done|by eapply Hkeys].
    destruct s as [t d]; simpl in *. split_and!; [done|by left|]. intros op' Hr'.
    assert (map_get (flight_key id) (inFlight t) = Some op') as H1 by (apply Hrun; by exists id).
    assert (map_get (flight_key id) (inFlight t) = Some op) as H2 by (apply Hrun; by exists id).
    congruence.
  - set (op := length (operations (table s))) in *.
    assert (running (mkTableSystem (mkBodyTable (map_set (flight_key id) op (inFlight (table s)))
      (operations (table s) ++ [id])) (done_operations s)) op id) as Hnew.
    { split; simpl.
      - rewrite lookup_app_r by done. by rewrite Nat.sub_diag.
      - intros Hin%(wf_settled _ Hwf). unfold op in Hin. lia. }
    split_and!; [done| |].
    + right. split; [|done]. intros op' Hr. enough (Some op' = None) by done. rewrite <- Hget. symmetry.
      apply Hrun. by exists id.
    + intros op' Hr.
      assert (map_get (flight_key id) (map_set (flight_key id) op (inFlight (table s))) = Some op') as H1
        by (apply Hrun'; by exists id).
      rewrite map_get_set_eq in H1. congruence.
Qed.

Definition asked_once : table_system :=
  mkTableSystem (materialize (email_id first_email) table_new).2 [].

Lemma flights_are_shared_witness :
  let '(op, t) := materialize (email_id first_email) asked_once.(table) in
  running (mkTableSystem t []) op (email_id first_email) ∧
  ((running asked_once op (email_id first_email) ∧ t = asked_once.(table)) ∨
   ((∀ op', ¬ running asked_once op' (email_id first_email)) ∧
    t.(operations) = asked_once.(table).(operations) ++ [email_id first_email])) ∧
  ∀ op', running (mkTableSystem t []) op' (email_id first_email) → op' = op.
Proof.
  apply (flights_are_shared asked_once (email_id first_email)).
  - eapply rtc_l; [apply Table_materialize | apply rtc_refl].
  - vm_compute. reflexivity.
  - intros op id' [H _]. destruct op as [|op]; vm_compute in H; [|discriminate H].
    injection H as <-. vm_compute. reflexivity.
Defined.
