(* ===== verification/TauriTheorems.v ===== *)
(** * The IPC boundary: theorems

    Round trips of the codecs, validity of what is decoded, and the behaviour of
    the adapters over an arbitrary native side and over one that serves an engine. *)

From S2P Require Import Prelude.
From S2P Require Import JsNumber.
From S2P Require Import JsString.
From S2P Require Import JsCollections.
From S2P Require Import Errors.
From S2P Require Import DomainIds.
From S2P Require Import DomainEmail.
From S2P Require Import DomainMailbox.
From S2P Require Import MailboxView.
From S2P Require Import SendIntent.
From S2P Require Import PendingMutation.
From S2P Require Import Ports.
From S2P Require Import MemoryState.
From S2P Require Import MemorySyncPort.
From S2P Require Import MemoryReadRepository.
From S2P Require Import EngineInterface.
From S2P Require Import Prog.
From S2P Require Import IpcDto.
From S2P Require Import IpcCodecs.
From S2P Require Import CodecFacts.
From S2P Require Import TauriAdapters.
From S2P Require Import TauriFacts.
From S2P Require Import Fixtures.
Open Scope string_scope.
Open Scope list_scope.

(** ** Codecs *)

(** C19: A pending mutation crosses the IPC boundary and comes back unchanged, in each
    of its three kinds and five lifecycles, when its ids are non-empty and its
    payload and lifecycle are the ones the Domain builds. *)
Theorem mutation_survives_ipc (m : PendingMutation) :
  wire_mutation m → mutation_sized m → decodePendingMutation (encodePendingMutation m) = Return m.
Proof. apply decode_encode_mutation. Qed.

Definition confirmed_send : PendingMutation :=
  MutSend {| send_mutationId := "s1"; send_accountKey := ana;
             send_createdAt := "2024-05-01T10:05:00.000Z"; send_intent := sample_intent;
             send_lifecycle := Confirmed (Int 2) (sendConfirmation (scopedEmailId ana "m9")) |}.

Lemma sample_intent_sized : intent_sized sample_intent.
Proof. repeat constructor; vm_compute; discriminate. Defined.

Lemma sample_intent_wire : wire_intent sample_intent.
Proof.
  assert (decodeSendIntent (encodeSendIntent sample_intent) = Return sample_intent) as H
    by (vm_compute; reflexivity).
  exact (decodeSendIntent_valid _ _ H).
Defined.

Lemma mutation_survives_ipc_witness :
  decodePendingMutation (encodePendingMutation confirmed_send) = Return confirmed_send.
Proof.
  apply (mutation_survives_ipc confirmed_send).
  - split_and!; try done. split_and!; [apply sample_intent_wire | done |].
    split; [|done]. exists 2%Z. split; [done|]. unfold MAX_SAFE_INTEGER. lia.
  - apply sample_intent_sized.
Defined.

(** The same for the records the store holds: emails, mailboxes and whole mailbox
    views, identities and attachments. *)
Theorem records_survive_ipc (e : Email) (m : Mailbox) (v : MailboxView) (i : Identity)
    (a : AttachmentRef) :
  wire_email e → wire_mailbox m → wire_view v → wire_identity i → wire_attachment a →
  decodeEmail (encodeEmail e) = Return e ∧ decodeMailbox (encodeMailbox m) = Return m ∧
  decodeMailboxView (encodeMailboxView v) = Return v ∧
  decodeIdentity (encodeIdentity i) = Return i ∧
  decodeAttachmentRef (encodeAttachmentRef a) = Return a.
Proof.
  intros. split_and!;
    [by apply decode_encode_email | by apply decodeMailbox_return | by apply decode_encode_view
    | by apply decodeIdentity_return | by apply decodeAttachmentRef_return].
Qed.

Definition sample_view : MailboxView :=
  {| view_spec := mailboxViewSpec (mailbox_id inbox) mailboxViewFilterAll (mailboxViewSort descending);
     view_queryState := "q1"; view_total := Int 5;
     view_coverage := [{| range_start := Int 0; range_end := Int 1 |};
                       {| range_start := Int 3; range_end := Int 4 |}];
     view_items := [{| item_position := Int 0; item_emailId := email_id first_email |};
                    {| item_position := Int 3; item_emailId := email_id second_email |}] |}.
Definition sample_attachment : AttachmentRef :=
  {| att_emailId := email_id first_email; att_partId := "2"; att_blobId := scopedBlobId ana "b2";
     att_name := Some "a.pdf"; att_mediaType := "application/pdf"; att_size := Int 10;
     att_disposition := None; att_cid := None |}.

Lemma records_survive_ipc_witness :
  decodeMailboxView (encodeMailboxView sample_view) = Return sample_view.
Proof.
  assert (wire_view sample_view) as Hv
    by (apply (decodeMailboxView_valid (encodeMailboxView sample_view)); vm_compute; reflexivity).
  assert (wire_email first_email) as He
    by (apply (decodeEmail_valid (encodeEmail first_email)); vm_compute; reflexivity).
  assert (wire_mailbox inbox) as Hm
    by (apply (decodeMailbox_return (encodeMailbox inbox)); vm_compute; reflexivity).
  assert (wire_identity ana_identity) as Hi
    by (apply (decodeIdentity_return (encodeIdentity ana_identity)); vm_compute; reflexivity).
  assert (wire_attachment sample_attachment) as Ha
    by (apply (decodeAttachmentRef_return (encodeAttachmentRef sample_attachment)); vm_compute; reflexivity).
  apply (records_survive_ipc first_email inbox sample_view ana_identity sample_attachment He Hm Hv Hi Ha).
Defined.

(** Decoding is a type check: whatever the native side sends for a mutation either is
    refused with a [TypeError] or decodes to a mutation that satisfies the Domain's
    invariant; an unknown status, an attempt count that does not fit the status, or
    a confirmation of another account does not decode. *)
Theorem decoded_mutations_are_typed (v : IpcPendingMutation) :
  match decodePendingMutation v with
  | Return m => mutation_wf m ∧ wire_mutation m
  | Throw e => ∃ message, e = TypeError message
  end.
Proof.
  destruct (decodePendingMutation v) as [m|e] eqn:H.
  - apply decodePendingMutation_valid in H. split; [by apply wire_mutation_wf | done].
  - by apply decodePendingMutation_type_errors in H.
Qed.

(** A sync commit crosses without loss: two commits with the same encoding are the
    same commit. *)
Theorem commits_lose_nothing (c c' : CollectionSyncCommit) :
  encodeCollectionSyncCommit c = encodeCollectionSyncCommit c' → c = c'.
Proof. apply encodeCollectionSyncCommit_inj. Qed.

Lemma commits_lose_nothing_witness :
  EmailCommit (Replace ExpectAbsent (cursor_at data_email "e1") [in_inbox first_email]) =
  EmailCommit (Replace ExpectAbsent (cursor_at data_email "e1") [in_inbox first_email]).
Proof. apply commits_lose_nothing. reflexivity. Defined.

(** ** Adapters *)

(** Whatever the native side answers (a value of any shape, or a rejection), a
    method of the two ports makes exactly one invocation and resolves with a result
    of its port: it never throws, and what it gives as a success is made of valid
    Domain values only, an email of a bulk read being the one asked for at its
    position. *)
Theorem adapters_are_typed {W X} (native : ∀ X, Invocation X → W → outcome exn X * W)
    (c : PortCall X) (w : W) :
  ∃ r, run native (tauri c) w = (Return r, (native _ (wire_call c) w).2) ∧ answer_valid c r.
Proof. eexists. split; [apply tauri_run | apply tauri_result_valid]. Qed.

(** C28: Over a native side that answers a call with the encoding of an engine's answer,
    the adapters answer as the engine does, errors of the port included. *)
Theorem adapters_are_transparent {W X} (engine : ∀ X, PortCall X → W → outcome exn X * W)
    (native : ∀ X, Invocation X → W → outcome exn X * W) (c : PortCall X) (w w' : W) (r : X) :
  engine X c w = (Return r, w') →
  native _ (wire_call c) w = (Return (wire_answer c r), w') →
  answer_valid c r → answer_sized c r →
  run native (tauri c) w = engine X c w.
Proof.
  intros He Hn Hv Hs. rewrite tauri_run, Hn, He. cbn. by rewrite tauri_result_encoded.
Qed.

(** A native side that serves bulk reads of emails from the memory engine. *)
Definition native_emails (X : Type) (c : Invocation X) (w : World) : outcome exn X * World :=
  match c in Invocation X return outcome exn X * World with
  | InvReadEmails request =>
      match mapM decodeScopedEmailId request.(rq_emailIds) with
      | Return ids =>
          match readEmails ids (db w) with
          | Return r => (Return (wire_answer (ReadEmails ids) r), w)
          | Throw e => (Throw e, w)
          end
      | Throw e => (Throw e, w)
      end
  | _ => (Throw (Error "unknown command"), w)
  end.

Definition wanted_emails : list ScopedEmailId :=
  [email_id second_email; scopedEmailId ana "gone"; email_id first_email].

Lemma adapters_are_transparent_witness :
  run native_emails (tauri (ReadEmails wanted_emails)) seeded =
    (Return (PortOk [EntityPresent second_email; EntityAbsent; EntityPresent first_email]), seeded).
Proof.
  assert (wire_email first_email) as H1
    by (apply (decodeEmail_valid (encodeEmail first_email)); vm_compute; reflexivity).
  assert (wire_email second_email) as H2
    by (apply (decodeEmail_valid (encodeEmail second_email)); vm_compute; reflexivity).
  apply (adapters_are_transparent memory_answer native_emails (ReadEmails wanted_emails) seeded seeded
           (PortOk [EntityPresent second_email; EntityAbsent; EntityPresent first_email])).
  - vm_compute. reflexivity.
  - vm_compute. reflexivity.
  - intros l [= <-]. constructor; [split; [exact H2 | reflexivity]|].
    constructor; [exact I|]. constructor; [split; [exact H1 | reflexivity]|]. constructor.
  - constructor.
Defined.

(** A subscription to the native side's events hands over exactly the batches that
    decode, in order, until it is unsubscribed, and nothing after; every hint in
    them is valid; and the native side's [unlisten] is called once, however often
    the subscription is cancelled. *)
Theorem subscriptions_deliver_until_cancelled {Client}
    (listener : LocalChangeBatch → Client → outcome exn unit * Client)
    (hs : list tauri_happening) (client : Client) :
  let final := tauri_happens_all listener hs ({| ts_active := true; ts_unlistened := 0 |}, client) in
  final.2 = fold_left (λ client batch, (listener batch client).2) (delivered hs) client ∧
  Forall (λ b, Forall wire_hint (batch_hints b)) (delivered hs) ∧
  final.1.(ts_unlistened) = (if existsb is_unsubscription hs then 1 else 0)%nat ∧
  final.1.(ts_active) = negb (existsb is_unsubscription hs).
Proof.
  cbn zeta. rewrite tauri_happens_all_spec. split_and!; try done. apply delivered_valid.
Qed.

Example cancelled_subscription_is_silent :
  delivered [Arrives (PayloadObject (Some (HintsArray [IpcEmailsChanged "ana"; IpcOtherHint])));
             Arrives (PayloadObject (Some (HintsArray [IpcEmailsChanged "ana"])));
             Unsubscribes;
             Arrives (PayloadObject (Some (HintsArray [IpcAccountsChanged])))] =
  [{| batch_first := EmailsChanged "ana"; batch_rest := [] |}].
Proof. reflexivity. Qed.

(** The commands are the ones ipc/commands.ts lists, one per invocation. *)
Example read_command_example : command_of InvListAccounts = Some "local_list_accounts".
Proof. reflexivity. Qed.
