(* ===== verification/ImapTheorems.v ===== *)
(** * What the IMAP adapter guarantees *)

Set Warnings "-register-all".
From S2P Require Import Prelude.
From S2P Require Import JsNumber.
From S2P Require Import JsString.
From S2P Require Import JsCollections.
From S2P Require Import Errors.
From S2P Require Import DomainIds.
From S2P Require Import Remote.
From S2P Require Import Prog.
From S2P Require Import Json.
From S2P Require Import JsText.
From S2P Require Import NativeMail.
From S2P Require Import ImapIds.
From S2P Require Import ImapRemoteMail.
From S2P Require Import ImapConnection.
From Stdlib Require Import ZArith Lia Sorting.Sorted OrdersEx.
From Stdlib Require Import ZArith Lia Sorting.Sorted.
(** ** Facts about the IMAP adapter: fingerprints, order of a query, what a
    synchronisation asks *)

Open Scope string_scope.
Open Scope list_scope.
Open Scope js_scope.

Section facts.
Context {platform : Platform} {laws : PlatformLaws}.

(** ** Fingerprints determine what they print *)

(** What a fingerprint says of a mailbox. *)
Definition signature (m : NativeMailboxDto) : string * number * number * number * number :=
  (m.(nm_name), m.(nm_uidValidity), m.(nm_uidNext), m.(nm_messages), m.(nm_unseen)).

(** The counters of a mailbox are the unsigned integers of the native side. *)
Definition mailbox_dto_ok (m : NativeMailboxDto) : Prop :=
  isSafeInteger m.(nm_uidValidity) = true ∧ isSafeInteger m.(nm_uidNext) = true ∧
  isSafeInteger m.(nm_messages) = true ∧ isSafeInteger m.(nm_unseen) = true.

(** A numeral in an array ends at the comma or the bracket that follows. *)
Lemma numeral_inj_app (d : ascii) a b x y :
  d = ","%char ∨ d = "]"%char →
  isSafeInteger a = true → isSafeInteger b = true →
  json_number platform_numeral a +:+ String d x = json_number platform_numeral b +:+ String d y →
  a = b ∧ x = y.
Proof.
  intros Hd Ha Hb H.
  destruct (json_number_delimited platform_numeral a platform_numerals) as [Hac Hab].
  destruct (json_number_delimited platform_numeral b platform_numerals) as [Hbc Hbb].
  apply cut_at_inj in H as [H ->]; [|by destruct Hd as [-> | ->]..].
  split; [|done]. by apply (json_number_safe_inj platform_numeral).
Qed.

Lemma mailbox_row_text m rest :
  stringify (mailbox_row m) +:+ rest =
    "[" +:+ json_string m.(nm_name) +:+ String ","
      (json_number platform_numeral m.(nm_uidValidity) +:+ String ","
        (json_number platform_numeral m.(nm_uidNext) +:+ String ","
          (json_number platform_numeral m.(nm_messages) +:+ String ","
            (json_number platform_numeral m.(nm_unseen) +:+ String "]" rest)))).
Proof.
  unfold stringify, mailbox_row. cbn [JSON_stringify List.map join_commas].
  by rewrite ?string_app_assoc, ?string_app_cons, ?string_app_nil.
Qed.

Lemma mailbox_row_inj m n x y :
  mailbox_dto_ok m → mailbox_dto_ok n →
  stringify (mailbox_row m) +:+ x = stringify (mailbox_row n) +:+ y →
  signature m = signature n ∧ x = y.
Proof.
  intros (Hm1 & Hm2 & Hm3 & Hm4) (Hn1 & Hn2 & Hn3 & Hn4). rewrite !mailbox_row_text.
  rewrite !string_app_cons, !string_app_nil. intros H%string_cons_inj.
  apply json_string_inj_app in H as [Hname H]. apply string_cons_inj in H.
  apply numeral_inj_app in H as [H1 H]; [|auto..].
  apply numeral_inj_app in H as [H2 H]; [|auto..].
  apply numeral_inj_app in H as [H3 H]; [|auto..].
  apply numeral_inj_app in H as [H4 ->]; [|auto..].
  unfold signature. by rewrite Hname, H1, H2, H3, H4.
Qed.

Lemma row_starts m rest : ∃ t, stringify (mailbox_row m) +:+ rest = String "[" t.
Proof. rewrite mailbox_row_text. rewrite string_app_cons. eauto. Qed.

Lemma join_rows_cons m l rest :
  join_commas (List.map stringify (List.map mailbox_row (m :: l))) +:+ String "]" rest =
    stringify (mailbox_row m) +:+
      match l with
      | [] => String "]" rest
      | _ => String "," (join_commas (List.map stringify (List.map mailbox_row l)) +:+ String "]" rest)
      end.
Proof.
  destruct l as [|n l]; [done|]. cbn [List.map join_commas].
  by rewrite string_app_assoc, (string_app_assoc ","), string_app_cons, string_app_nil.
Qed.

Lemma join_rows_inj l k x y :
  Forall mailbox_dto_ok l → Forall mailbox_dto_ok k →
  join_commas (List.map stringify (List.map mailbox_row l)) +:+ String "]" x =
  join_commas (List.map stringify (List.map mailbox_row k)) +:+ String "]" y →
  List.map signature l = List.map signature k.
Proof.
  revert k. induction l as [|m l IH]; intros [|n k] Hl Hk.
  - done.
  - rewrite join_rows_cons. destruct (row_starts n (match k with [] => String "]" y
      | _ => String "," (join_commas (List.map stringify (List.map mailbox_row k)) +:+ String "]" y) end))
      as [t ->]. done.
  - rewrite join_rows_cons. destruct (row_starts m (match l with [] => String "]" x
      | _ => String "," (join_commas (List.map stringify (List.map mailbox_row l)) +:+ String "]" x) end))
      as [t ->]. done.
  - apply Forall_cons in Hl as [Hm Hl]. apply Forall_cons in Hk as [Hn Hk].
    rewrite !join_rows_cons. intros H. apply mailbox_row_inj in H as [Hs H]; [|done..].
    cbn [List.map]. rewrite Hs. f_equal.
    destruct l as [|m' l], k as [|n' k]; [done..|]. injection H as H. by apply IH.
Qed.

Lemma mailboxFingerprint_inj l k :
  Forall mailbox_dto_ok l → Forall mailbox_dto_ok k →
  mailboxFingerprint l = mailboxFingerprint k → List.map signature l = List.map signature k.
Proof.
  intros Hl Hk. unfold mailboxFingerprint. intros H.
  apply (join_rows_inj l k "" ""); [done..|].
  unfold stringify in H. cbn [JSON_stringify] in H. rewrite !string_app_cons, !string_app_nil in H.
  injection H as H. exact H.
Qed.

(** ** The order of a query *)

(** Newest first; among emails of one instant, the highest UID first. *)
Definition newer_first (x y : RemoteEmail) : Prop :=
  ∃ c, compareEmails x y = Return c ∧ (c <= 0)%Z.

(** An email whose id decodes, with its UID. *)
Definition email_uid (email : RemoteEmail) (uid : Z) : Prop :=
  ∃ mailbox v, decodeImapEmailId email.(r_email_id) = Return (mkDecodedImapEmailId mailbox v (Int uid)).

Lemma compareEmails_uids x y a b :
  email_uid x a → email_uid y b →
  compareEmails x y =
    Return (let dates := localeCompare y.(r_email_receivedAt) x.(r_email_receivedAt) in
            if (dates =? 0)%Z then (b - a)%Z else dates).
Proof.
  intros (m & v & Hx) (m' & v' & Hy). unfold compareEmails. rewrite Hx, Hy. cbn.
  by destruct (_ =? 0)%Z.
Qed.

Lemma newer_first_trans x y z a b c :
  email_uid x a → email_uid y b → email_uid z c →
  newer_first x y → newer_first y z → newer_first x z.
Proof.
  intros Hx Hy Hz (p & Hp & Hple) (q & Hq & Hqle). unfold newer_first.
  rewrite (compareEmails_uids x y a b) in Hp by done. injection Hp as Hp.
  rewrite (compareEmails_uids y z b c) in Hq by done. injection Hq as Hq.
  rewrite (compareEmails_uids x z a c) by done. eexists; split; [done|].
  set (dx := x.(r_email_receivedAt)) in *. set (dy := y.(r_email_receivedAt)) in *.
  set (dz := z.(r_email_receivedAt)) in *. cbv zeta in *.
  pose proof (locale_trans dz dy dx) as Ht1. pose proof (locale_trans dx dz dy) as Ht2.
  pose proof (locale_trans dy dx dz) as Ht3.
  pose proof (locale_opposite dx dy) as Ho1. pose proof (locale_opposite dy dz) as Ho2.
  pose proof (locale_opposite dx dz) as Ho3.
  destruct (Z.eqb_spec (localeCompare dy dx) 0), (Z.eqb_spec (localeCompare dz dy) 0),
    (Z.eqb_spec (localeCompare dz dx) 0); lia.
Qed.

(** ** Messages the native side may return *)

Definition message_ok (value : NativeMessageMetadataDto) : Prop :=
  value.(nd_mailbox) ≠ "" ∧ positive_safe value.(nd_uidValidity) ∧ positive_safe value.(nd_uid).

Lemma mapNativeEmail_ok value :
  message_ok value →
  ∃ email v u,
    mapNativeEmail value = Return email ∧
    value.(nd_uidValidity) = Int v ∧ value.(nd_uid) = Int u ∧
    email.(r_email_id) = email_id_text value.(nd_mailbox) v u ∧
    (0 < v <= MAX_SAFE_INTEGER)%Z ∧ (0 < u <= MAX_SAFE_INTEGER)%Z ∧
    email.(r_email_receivedAt) = value.(nd_internalDate) ∧
    decodeImapEmailId email.(r_email_id) =
      Return (mkDecodedImapEmailId value.(nd_mailbox) (Int v) (Int u)).
Proof.
  intros (Hm & (v & Hv & Hvb) & (u & Hu & Hub)). unfold mapNativeEmail.
  assert (imapEmailId (message_identity value) =
          Return (email_id_text value.(nd_mailbox) v u)) as Hid.
  { apply imapEmailId_return. exists v, u. unfold message_identity. cbn. by rewrite Hv, Hu. }
  rewrite Hid. cbn [mbind outcome_mbind outcome_bind].
  rewrite imapBlobId_return, imapThreadId_return, imapMailboxId_return.
  cbn [mbind outcome_mbind outcome_bind].
  eexists _, v, u. split_and!; try done; try lia. cbn. by apply decode_email_id_text.
Qed.

Lemma mapNativeEmail_throw value e : mapNativeEmail value = Throw e → e = invalidId.
Proof.
  unfold mapNativeEmail. intros [H|(id & _ & H)]%bind_throw.
  - unfold imapEmailId in H. unfold assertPositiveInteger in H.
    apply bind_throw in H as [[_ <-]%throw_if_throw|(? & _ & H)]; [done|].
    apply bind_throw in H as [[_ <-]%throw_if_throw|(? & _ & H)]; [done|].
    unfold remoteEmailIdFromString in H. by rewrite prefixed_id_return in H.
  - by rewrite imapBlobId_return, imapThreadId_return, imapMailboxId_return in H.
Qed.

(** Mapping a list keeps it in step with the messages. *)
Lemma mapNativeEmail_all messages :
  Forall message_ok messages →
  ∃ emails, mapM mapNativeEmail messages = Return emails ∧
    Forall2 (λ value email, mapNativeEmail value = Return email) messages emails ∧
    Forall (λ email, ∃ u, email_uid email u) emails.
Proof.
  induction 1 as [|value messages Hv _ (emails & IH & H2 & Hu)].
  - exists []. split_and!; [done|constructor..].
  - destruct (mapNativeEmail_ok value Hv) as (email & v & u & He & _ & _ & _ & _ & _ & _ & Hd).
    exists (email :: emails). rewrite mapM_cons_outcome, He, IH. split_and!; [done|by constructor|].
    constructor; [|done]. exists u. by eexists _, _.
Qed.

Lemma compareEmails_total x y a b :
  email_uid x a → email_uid y b → ∃ c, compareEmails x y = Return c.
Proof. intros Hx Hy. rewrite (compareEmails_uids x y a b) by done. eauto. Qed.

Lemma compareEmails_newer x y a b c :
  email_uid x a → email_uid y b → compareEmails x y = Return c →
  if (c <=? 0)%Z then newer_first x y else newer_first y x.
Proof.
  intros Hx Hy Hc. destruct (Z.leb_spec c 0) as [Hle|Hgt]; [by exists c|].
  unfold newer_first. rewrite (compareEmails_uids y x b a) by done. eexists; split; [done|].
  rewrite (compareEmails_uids x y a b) in Hc by done. injection Hc as Hc. cbv zeta in *.
  pose proof (locale_opposite x.(r_email_receivedAt) y.(r_email_receivedAt)) as Ho.
  destruct (Z.eqb_spec (localeCompare y.(r_email_receivedAt) x.(r_email_receivedAt)) 0),
    (Z.eqb_spec (localeCompare x.(r_email_receivedAt) y.(r_email_receivedAt)) 0); lia.
Qed.

(** Sorting the emails of a snapshot never throws, and orders them. *)
Lemma sort_emails emails :
  Forall (λ email, ∃ u, email_uid email u) emails →
  ∃ sorted, js_sortM compareEmails emails = Return sorted ∧ sorted ≡ₚ emails ∧
    StronglySorted newer_first sorted.
Proof.
  intros Hu. destruct (js_sortM_return compareEmails emails) as [sorted Hs].
  { intros x y Hx Hy. rewrite Forall_forall in Hu.
    destruct (Hu x Hx) as [a Ha], (Hu y Hy) as [b Hb]. by eapply compareEmails_total. }
  exists sorted. split_and!; [done|by eapply js_sortM_perm|].
  eapply (js_sortM_sorted compareEmails (λ email, ∃ u, email_uid email u)); [| |exact Hu|exact Hs].
  - intros x y c [a Ha] [b Hb]. by eapply compareEmails_newer.
  - intros x y z [a Ha] [b Hb] [c Hc]. by eapply newer_first_trans.
Qed.

(** ** Pages *)

(** The ids of a page, from a position and a limit that the code accepts. *)
Lemma query_page_ids (emails : list RemoteEmail) p n :
  (0 <= p)%Z → (0 <= n)%Z → (p + n <= 2 ^ 53)%Z →
  List.map r_email_id (js_slice emails (Int p) (num_add (Int p) (Int n))) =
    take (Z.to_nat n) (drop (Z.to_nat p) (List.map r_email_id emails)).
Proof.
  intros Hp Hn Hsum. rewrite num_add_exact by lia. rewrite js_slice_in_range by lia.
  change (@List.map) with (@fmap list _). by rewrite fmap_take, fmap_drop.
Qed.
End facts.

(** ** The protocol of an IMAP synchronisation

    A ghost that follows [syncEmails] call by call: which mailboxes the current
    attempt listed, what it has snapshotted, which snapshot is due next, and how the
    attempt ended.  The ghost allows a call only in the phase it belongs to. *)

Inductive sync_phase : Type :=
| AtStart (attempt : nat)
| Snapping (attempt : nat) (initial : list NativeMailboxDto) (taken : list NativeMailboxSnapshotDto)
    (due : list NativeMailboxDto)
| Completed (attempt : nat) (initial : list NativeMailboxDto) (taken : list NativeMailboxSnapshotDto)
    (final : list NativeMailboxDto)
| Interrupted (attempt : nat) (error : exn).

(** The error that makes [syncEmails] start again. *)
Definition retried (error : exn) : bool :=
  let error := toNativeRemoteError error in
  (error.(remote_kind) === kind_conflict) && (error.(remote_retry) === safeImmediate).

Section protocol.
Context {platform : Platform} (self : ImapRemoteMail).

Definition received (values : list NativeMailboxDto) : list NativeMailboxDto :=
  syncMailboxesForPolicy self (sortMailboxes values).

Definition sync_allowed X (phase : sync_phase) (c : NativeCall X) : Prop :=
  match c with
  | NativeListMailboxes session =>
      session = self.(imap_sessionId) ∧
      match phase with
      | AtStart _ => True
      | Snapping _ _ _ due => due = []
      | Completed attempt initial taken final =>
          attempt = 0%nat ∧ snapshot_changed initial taken final = true
      | Interrupted attempt error => attempt = 0%nat ∧ retried error = true
      end
  | NativeSnapshotMailbox session name =>
      session = self.(imap_sessionId) ∧
      match phase with
      | Snapping _ _ _ (mailbox :: _) => name = mailbox.(nm_name)
      | _ => False
      end
  | _ => False
  end.

Definition attempt_of (phase : sync_phase) : nat :=
  match phase with
  | AtStart attempt | Snapping attempt _ _ _ | Completed attempt _ _ _ | Interrupted attempt _ => attempt
  end.

(** A listing opens an attempt, or closes the one whose snapshots are taken. *)
Definition listed (phase : sync_phase) (r : outcome exn (list NativeMailboxDto)) : sync_phase :=
  match phase, r with
  | AtStart attempt, Return values => Snapping attempt (received values) [] (received values)
  | Snapping attempt initial taken _, Return values => Completed attempt initial taken (received values)
  | Completed attempt _ _ _, Return values | Interrupted attempt _, Return values =>
      Snapping (S attempt) (received values) [] (received values)
  | (AtStart attempt | Snapping attempt _ _ _), Throw e => Interrupted attempt e
  | (Completed attempt _ _ _ | Interrupted attempt _), Throw e => Interrupted (S attempt) e
  end.

Definition snapped (phase : sync_phase) (r : outcome exn NativeMailboxSnapshotDto) : sync_phase :=
  match phase, r with
  | Snapping attempt initial taken (_ :: due), Return snapshot =>
      Snapping attempt initial (taken ++ [snapshot]) due
  | _, Throw e => Interrupted (attempt_of phase) e
  | _, Return _ => phase
  end.

Definition sync_watch X (phase : sync_phase) (c : NativeCall X) : outcome exn X → sync_phase :=
  match c in NativeCall X return outcome exn X → sync_phase with
  | NativeListMailboxes _ => listed phase
  | NativeSnapshotMailbox _ _ => snapped phase
  | _ => λ _, phase
  end.

(** The counters the native side reports are unsigned integers of at most 32 bits. *)
Definition sync_answer X (c : NativeCall X) : outcome exn X → Prop :=
  match c in NativeCall X return outcome exn X → Prop with
  | NativeListMailboxes _ => λ r, ∀ values, r = Return values → Forall mailbox_dto_ok values
  | NativeSnapshotMailbox _ _ => λ r, ∀ s, r = Return s → mailbox_dto_ok s.(snapshot_mailbox)
  | _ => λ _, True
  end.

Definition sync_protocol : monitor NativeCall sync_phase :=
  {| allowed := sync_allowed; watch := sync_watch; possible := sync_answer |}.

(** What an accepted synchronisation rests on: the two listings and the snapshots
    describe the same mailboxes, one snapshot each, and the emails are the messages of
    the snapshots, under distinct ids. *)
Definition trusted (phase : sync_phase) (t : RemoteCollectionSync RemoteEmail RemoteEmailId) : Prop :=
  ∃ attempt initial taken final emails state,
    phase = Completed attempt initial taken final ∧ (attempt <= 1)%nat ∧
    length taken = length initial ∧
    List.map signature initial = List.map signature final ∧
    List.map signature initial = List.map signature (sortMailboxes (List.map snapshot_mailbox taken)) ∧
    t = RemoteReplace state emails ∧
    Forall2 (λ value email, mapNativeEmail value = Return email) (email_records taken) emails ∧
    NoDup (List.map r_email_id emails).

(** ** The proof *)

Context {laws : PlatformLaws}.

Lemma received_ok values : Forall mailbox_dto_ok values → Forall mailbox_dto_ok (received values).
Proof.
  intros Hv. assert (Forall mailbox_dto_ok (sortMailboxes values)) as Hs.
  { unfold sortMailboxes. by rewrite js_sort_perm. }
  unfold received, syncMailboxesForPolicy. destruct (imap_syncPolicy self); [done|].
  rewrite Forall_forall in *. intros m Hm. apply Hs.
  apply list_elem_of_In, filter_In in Hm as [Hm _]. by apply list_elem_of_In.
Qed.

(** The part of an attempt's ghost that the fingerprints need. *)
Definition counters_ok (phase : sync_phase) : Prop :=
  match phase with
  | Snapping _ initial taken due =>
      Forall mailbox_dto_ok initial ∧ Forall mailbox_dto_ok (List.map snapshot_mailbox taken) ∧
      length initial = (length taken + length due)%nat
  | _ => True
  end.

Lemma take_snapshots_obeys attempt initial due taken (Q : outcome exn _ → sync_phase → Prop) :
  counters_ok (Snapping attempt initial taken due) →
  (∀ taken', counters_ok (Snapping attempt initial taken' []) →
     Q (Return taken') (Snapping attempt initial taken' [])) →
  (∀ e, Q (Throw e) (Interrupted attempt e)) →
  obeys sync_protocol
    (prog_for due (λ snapshots mailbox,
       snapshot ← await (NativeSnapshotMailbox self.(imap_sessionId) mailbox.(nm_name));
       Ret (snapshots ++ [snapshot])) taken)
    (Snapping attempt initial taken due) Q.
Proof.
  intros Hok Hret Hthrow. revert taken Hok.
  induction due as [|mailbox due IH]; intros taken (Hi & Ht & Hlen); cbn [prog_for].
  - by apply Hret.
  - apply obeys_bind, obeys_mbind, obeys_await; [done|].
    intros [s|e] Hs; [|by apply Hthrow]. cbv beta iota. apply IH. split_and!; [done|..].
    + change (@List.map) with (@fmap list _). rewrite fmap_app. apply Forall_app. split; [done|].
      constructor; [by apply Hs|constructor].
    + rewrite length_app. cbn in *. lia.
Qed.

(** An attempt, from a phase in which a listing opens one. *)
Lemma attempt_obeys attempt phase :
  (attempt <= 1)%nat →
  sync_allowed _ phase (NativeListMailboxes self.(imap_sessionId)) →
  (∀ r, listed phase r = match r with
                         | Return values => Snapping attempt (received values) [] (received values)
                         | Throw e => Interrupted attempt e
                         end) →
  obeys sync_protocol (syncEmailsAttempt self) phase
    (λ r phase', match r with
     | Return t => trusted phase' t
     | Throw e => retried e = true →
         (∃ initial taken final, phase' = Completed attempt initial taken final ∧
            snapshot_changed initial taken final = true) ∨
         phase' = Interrupted attempt e
     end).
Proof.
  intros Hattempt Hallowed Hlisted. unfold syncEmailsAttempt, list_for_sync.
  apply obeys_mbind, obeys_mbind, obeys_await; [done|]. intros r Hr.
  change (watch sync_protocol _ _ r) with (listed phase r). rewrite Hlisted.
  destruct r as [values|e]; [|by intros _; right]. cbv beta iota. cbn [obeys].
  apply obeys_mbind. eapply (take_snapshots_obeys attempt); [| |by intros e _; right].
  { split_and!; [by apply received_ok, Hr|constructor|done]. }
  intros taken (Hi & Ht & Hlen). cbv beta iota.
  apply obeys_mbind, obeys_mbind, obeys_await; [done|]. intros [values'|e] Hr'; [|by intros _; right].
  cbv beta iota. cbn [obeys watch]. apply obeys_mbind, obeys_outcome.
  fold (received values) (received values').
  destruct (snapshot_changed (received values) taken (received values')) eqn:Hchanged; cbn [throw_if].
  { intros _. left. by do 3 eexists. }
  apply obeys_outcome. unfold snapshot_changed in Hchanged. apply orb_false_iff in Hchanged.
  rewrite !differs_false in Hchanged. destruct Hchanged as [Hsnap Hfinal].
  destruct (email_transition taken) as [t|e] eqn:Hm; unfold email_transition in Hm.
  - apply bind_return in Hm as (emails & Hemails & Hv). apply validate_replace in Hv as [-> Hnd].
    apply mapM_return_Forall2 in Hemails. cbn in Hlen.
    eexists attempt, (received values), taken, (received values'), emails, _.
    split_and!; try done; [lia| |].
    + apply mailboxFingerprint_inj; [done|by apply received_ok, Hr'|done].
    + apply mailboxFingerprint_inj; [done| |done]. unfold sortMailboxes. by rewrite js_sort_perm.
  - intros Hretry. exfalso. apply bind_throw in Hm as [Hm|(emails & _ & Hm)].
    + enough (e = invalidId) as -> by done.
      revert e Hm Hretry. induction (email_records taken) as [|value l IH]; intros e; [done|].
      rewrite mapM_cons_outcome. intros [Hm|(email & _ & Hm)]%bind_throw Hretry.
      * by eapply mapNativeEmail_throw.
      * apply bind_throw in Hm as [Hm|(k & _ & Hm)]; [by apply IH|done].
    + apply validate_type_errors in Hm as [message ->]. done.
Qed.

(** Every exception of the IMAP adapter is a [RemoteError]. *)
Definition is_remote_error (e : exn) : Prop := ∃ error, e = ThrownRemoteError error.

Lemma sync_attempts_obeys :
  obeys sync_protocol (sync_attempts self 0 2) (AtStart 0)
    (λ r phase, match r with
     | Return t => trusted phase t
     | Throw e => is_remote_error e
     end).
Proof.
  cbn [sync_attempts]. apply obeys_try. eapply obeys_mono; [|apply (attempt_obeys 0)].
  - intros [t|e] phase; [done|]. intros He. rewrite bool_decide_eq_true_2 by done.
    change (true && (remote_kind (toNativeRemoteError e) === kind_conflict) &&
            (remote_retry (toNativeRemoteError e) === safeImmediate)) with (retried e).
    destruct (retried e) eqn:Hretry; [|by eexists].
    apply obeys_try. eapply obeys_mono; [|apply (attempt_obeys 1)].
    + intros [t|e'] phase'; [done|]. intros _. by eexists.
    + done.
    + split; [done|]. by destruct (He eq_refl) as [(initial & taken & final & -> & ?)| ->].
    + intros r. by destruct (He eq_refl) as [(initial & taken & final & -> & ?)| ->], r.
  - lia.
  - done.
  - by intros [].
Qed.
End protocol.


(** ** A platform *)

(** Collation by code units. *)
Definition plain_platform : Platform :=
  {| platform_wide := λ _, "?"; platform_numeral := λ _, "0.5";
     localeCompare := compare_code_units |}.

Lemma compare_code_units_spec a b :
  compare_code_units a b =
    match String.compare a b with Lt => -1 | Eq => 0 | Gt => 1 end%Z.
Proof.
  unfold compare_code_units, string_ltb, String.ltb.
  rewrite (String.compare_antisym b a). by destruct (String.compare a b).
Qed.

Lemma code_unit_le a b : (compare_code_units a b <= 0)%Z ↔ a = b ∨ String_as_OT.lt a b.
Proof.
  rewrite compare_code_units_spec. change String.compare with String_as_OT.compare.
  destruct (String_as_OT.compare_spec a b) as [->|H|H].
  - split; [by left|lia].
  - split; [by right|lia].
  - split; [lia|]. intros [->|H']; exfalso; apply (StrictOrder_Irreflexive (R := String_as_OT.lt) b).
    + done.
    + by eapply (StrictOrder_Transitive (R := String_as_OT.lt)).
Qed.

Lemma plain_laws : @PlatformLaws plain_platform.
Proof.
  split; cbn.
  - by intros n.
  - intros x y. rewrite !compare_code_units_spec, (String.compare_antisym x y).
    by destruct (String.compare y x).
  - intros x y z. rewrite !code_unit_le. intros [->|Hxy] [->|Hyz]; [by left|by right..|].
    right. by eapply (StrictOrder_Transitive (R := String_as_OT.lt)).
Qed.

Section theorems.
Context {platform : Platform}.

(** ** Identities *)

(** An email identity with a non-empty mailbox and positive safe numbers
    packs into an id that decodes to it and that no other identity packs into; its
    mailbox name, taken as a mailbox, a user or an identity, survives the same way. *)
Theorem imap_ids_round_trip (value : DecodedImapEmailId) :
  value.(imap_mailbox) ≠ "" →
  positive_safe value.(imap_uidValidity) → positive_safe value.(imap_uid) →
  (∃ id, imapEmailId value = Return id ∧ decodeImapEmailId id = Return value ∧
     ∀ other, imapEmailId other = Return id → other = value) ∧
  (∃ id, imapMailboxId value.(imap_mailbox) = Return id ∧
     decodeImapMailboxId id = Return value.(imap_mailbox)) ∧
  (∃ id, imapAccountId value.(imap_mailbox) = Return id ∧
     decodeImapAccountId id = Return value.(imap_mailbox)) ∧
  (∃ id, imapIdentityId value.(imap_mailbox) = Return id ∧
     decodeImapIdentityId id = Return value.(imap_mailbox)).
Proof.
  destruct value as [m v u]. cbn. intros Hm (vz & -> & Hv) (uz & -> & Hu).
  unfold decodeImapMailboxId, decodeImapAccountId, decodeImapIdentityId.
  rewrite imapMailboxId_return, imapAccountId_return, imapIdentityId_return.
  split; [|split_and!; eexists; (split; [done|by apply decode_with_encode])].
  exists (email_id_text m vz uz). split_and!.
  - apply imapEmailId_return. by exists vz, uz.
  - by apply decode_email_id_text.
  - intros other (v' & u' & -> & Hv' & Hu' & H)%imapEmailId_return. cbn in H.
    apply email_id_text_inj in H as (<- & <- & <-); [done|lia..].
Qed.

(** What [decodeImapEmailId] throws is always the same [RemoteError], and what it
    returns can be packed again. *)
Lemma decodeImapEmailId_total id :
  match decodeImapEmailId id with
  | Return value => positive_safe value.(imap_uidValidity) ∧ positive_safe value.(imap_uid)
  | Throw e => e = invalidId
  end.
Proof.
  unfold decodeImapEmailId. destruct (exec_email_id id) as [[[mailbox validity] uid]|]; [|done].
  destruct (assertPositiveInteger (digits_number validity)) as [u|e] eqn:Hv; cbn.
  2: { by apply throw_if_throw in Hv as [_ <-]. }
  destruct (assertPositiveInteger (digits_number uid)) as [u'|e] eqn:Hu; cbn.
  2: { by apply throw_if_throw in Hu as [_ <-]. }
  apply assertPositiveInteger_return in Hv, Hu. unfold decode.
  by destruct (mbind _ (atob _)).
Qed.

Lemma assertAccount_own (self : ImapRemoteMail) : assertAccount self self.(imap_accountId) = Ret tt.
Proof. unfold assertAccount. by rewrite bool_decide_eq_true_2. Qed.

(** ** Synchronisation *)

(** C21: [syncEmails] lists the mailboxes, snapshots each of them once in that
    order, lists them again, and does so a second time only after a conflict of the
    first.  It returns only emails read between two listings and in snapshots that
    agree on every mailbox's name, UIDVALIDITY, UIDNEXT and counters; all its
    exceptions are [RemoteError]s. *)
Theorem imap_sync_protocol {laws : PlatformLaws} (self : ImapRemoteMail) (accountId : RemoteAccountId) :
  obeys (sync_protocol self) (imap_syncEmails self accountId) (AtStart 0)
    (λ r phase, match r with
     | Return t => accountId = self.(imap_accountId) ∧ trusted phase t
     | Throw e => is_remote_error e
     end).
Proof.
  unfold imap_syncEmails, assertAccount. apply obeys_mbind, obeys_outcome.
  destruct (throw_if _ _) as [[]|e] eqn:Hg.
  - rewrite throw_if_return, differs_false in Hg. eapply obeys_mono; [|by apply sync_attempts_obeys].
    by intros [t|e] phase.
  - apply throw_if_throw in Hg as [_ <-]. by eexists.
Qed.

(** ** Queries *)

(** The position a query without or with an anchor starts at. *)
Definition starts_at (mailbox : string) (emails : list RemoteEmail) (options : RemoteQueryOptions)
    (p : Z) : Prop :=
  ∃ q, default (Int 0) options.(query_position) = Int q ∧ (0 <= q <= MAX_SAFE_INTEGER)%Z ∧
    match options.(query_anchor) with
    | None => p = q
    | Some anchor => ∃ index offset v u,
        index_of_email anchor emails = Some index ∧
        decodeImapEmailId anchor = Return (mkDecodedImapEmailId mailbox v u) ∧
        default (Int 0) options.(query_anchorOffset) = Int offset ∧
        (Z.abs (Z.of_nat index + offset) <= 2 ^ 53)%Z ∧ p = Z.max 0 (Z.of_nat index + offset)
    end.

Lemma num_max_0 z : num_max (Int 0) (Int z) = Int (Z.max 0 z).
Proof.
  unfold num_max. rewrite num_ltb_Int. destruct (Z.ltb_spec 0 z); f_equal; lia.
Qed.

Lemma safe_nonnegative z :
  (0 <= z <= MAX_SAFE_INTEGER)%Z → negb (isSafeInteger (Int z)) || num_ltb (Int z) (Int 0) = false.
Proof.
  intros Hz. rewrite num_ltb_Int, (proj2 (Z.ltb_ge _ _)) by lia. rewrite orb_false_r.
  apply negb_false_iff, isSafeInteger_spec. exists z. split; [done|lia].
Qed.

#[local] Arguments num_max : simpl never.

Lemma query_start_at mailbox emails options p :
  starts_at mailbox emails options p → query_start mailbox emails options = Return (Int p).
Proof.
  intros (q & Hq & Hqb & Ha). unfold query_start. rewrite Hq, safe_nonnegative by done. cbn.
  destruct (query_anchor options) as [anchor|]; [|by subst].
  destruct Ha as (index & offset & v & u & Hi & Hd & Ho & Hb & ->). rewrite Hd, Hi, Ho. cbn.
  rewrite bool_decide_eq_true_2 by done. cbn. by rewrite num_add_exact, num_max_0.
Qed.

(** A mailbox query reads one snapshot and answers pages of one fixed
    arrangement of its messages, newest first: every page is the requested number of
    ids from the requested position, or from the anchor's. *)
Theorem imap_query_is_a_page {laws : PlatformLaws} {S : Type}
    (answer : ∀ X, NativeCall X → S → outcome exn X * S) (self : ImapRemoteMail) (mailbox : string)
    (mailboxId : RemoteMailboxId) (s s' : S) (snapshot : NativeMailboxSnapshotDto) :
  mailbox ≠ "" → imapMailboxId mailbox = Return mailboxId →
  answer _ (NativeSnapshotMailbox self.(imap_sessionId) mailbox) s = (Return snapshot, s') →
  Forall message_ok snapshot.(snapshot_messages) →
  ∃ emails sorted,
    Forall2 (λ value email, mapNativeEmail value = Return email) snapshot.(snapshot_messages) emails ∧
    sorted ≡ₚ emails ∧ StronglySorted newer_first sorted ∧
    ∀ options p n,
      starts_at mailbox sorted options p → default (Int 500) options.(query_limit) = Int n →
      (0 <= n <= MAX_SAFE_INTEGER)%Z → (p + n <= 2 ^ 53)%Z →
      run answer (imap_queryMailbox self self.(imap_accountId) mailboxId None options) s =
        (Return {|
           query_ids := take (Z.to_nat n) (drop (Z.to_nat p) (List.map r_email_id sorted));
           query_queryState := sync_state "query" (JArray (List.map query_row snapshot.(snapshot_messages)));
           query_total := len snapshot.(snapshot_messages);
           query_result_position := Int p;
           query_canCalculateChanges := false |}, s').
Proof.
  intros Hm Hid Hanswer Hok. rewrite imapMailboxId_return in Hid. injection Hid as <-.
  destruct (mapNativeEmail_all _ Hok) as (emails & Hmap & H2 & Hu).
  destruct (sort_emails emails Hu) as (sorted & Hsort & Hperm & Hsorted).
  exists emails, sorted. split_and!; [done..|]. intros options p n Hp Hn Hnb Hsum.
  unfold imap_queryMailbox. rewrite assertAccount_own.
  cbn [of_outcome mbind prog_mbind prog_bind].
  unfold decodeImapMailboxId. rewrite decode_with_encode by done. cbn [of_outcome prog_bind].
  unfold await. cbn [mbind prog_mbind prog_bind prog_try run].
  rewrite Hanswer. cbn [fst snd of_outcome prog_bind].
  assert (query_result mailbox (snapshot_messages snapshot) options =
    Return {|
      query_ids := take (Z.to_nat n) (drop (Z.to_nat p) (List.map r_email_id sorted));
      query_queryState := sync_state "query" (JArray (List.map query_row snapshot.(snapshot_messages)));
      query_total := len snapshot.(snapshot_messages);
      query_result_position := Int p;
      query_canCalculateChanges := false |}) as ->; [|done].
  unfold query_result. rewrite Hmap. cbn [mbind outcome_mbind outcome_bind]. rewrite Hsort.
  cbn [mbind outcome_mbind outcome_bind]. rewrite (query_start_at _ _ _ p) by done.
  cbn [mbind outcome_mbind outcome_bind]. rewrite Hn, safe_nonnegative by done.
  cbn [throw_if mbind outcome_mbind outcome_bind]. rewrite query_page_ids; [| |lia|done].
  - unfold len. by rewrite (Permutation_length Hperm), (Forall2_length _ _ _ H2).
  - destruct Hp as (q & _ & Hq & Ha). destruct (query_anchor options); [|by subst; lia].
    destruct Ha as (index & offset & v & u & _ & _ & _ & Hb & ->). lia.
Qed.

(** ** Changes *)

(** At most one call, and one that [P] accepts; the ghost says whether it was made. *)
Definition once (P : ∀ X, NativeCall X → Prop) : monitor NativeCall bool :=
  {| allowed := λ X made c, made = false ∧ P X c; watch := λ X _ _ _, true;
     possible := λ _ _ _, True |}.

(** A change that fails before its call says that nothing was applied. *)
Definition changed_once {A} (unneeded : Prop) (r : outcome exn A) (made : bool) : Prop :=
  match r with
  | Return _ => made = true ∨ unneeded
  | Throw e => ∃ error, e = ThrownRemoteError error ∧
                        (made = false → error.(remote_outcome) = knownNotApplied)
  end.

Definition keyword_call (self : ImapRemoteMail) (emailId : RemoteEmailId) (change : RemoteKeywordChange)
    X (c : NativeCall X) : Prop :=
  match c with
  | NativeStoreFlags target add remove =>
      imap_target self emailId = Return target ∧
      Forall2 (λ k f, convert_keyword k = Return f) change.(remote_keyword_add) add ∧
      Forall2 (λ k f, convert_keyword k = Return f) change.(remote_keyword_remove) remove
  | _ => False
  end.

Definition move_call (self : ImapRemoteMail) (emailId : RemoteEmailId) (change : RemoteMembershipChange)
    X (c : NativeCall X) : Prop :=
  match c with
  | NativeMove target destination => ∃ added removed,
      imap_target self emailId = Return target ∧
      change = mkRemoteMembershipChange [added] [removed] ∧
      decodeImapMailboxId removed = Return target.(target_mailbox) ∧
      decodeImapMailboxId added = Return destination
  | _ => False
  end.

Definition submit_call (self : NativeSessionRef) (message : SubmissionMessage) (key : string)
    X (c : NativeCall X) : Prop :=
  match c with
  | NativeSmtpSubmit request =>
      message.(message_accountId) = self.(ref_accountId) ∧
      request.(smtp_sessionId) = self.(ref_sessionId) ∧ request.(smtp_idempotencyKey) = key ∧
      request.(smtp_from) = message.(message_draft).(draft_from) ∧
      request.(smtp_to) = message.(message_draft).(draft_to) ∧
      request.(smtp_cc) = message.(message_draft).(draft_cc) ∧
      request.(smtp_bcc) = message.(message_draft).(draft_bcc) ∧
      request.(smtp_replyTo) = message.(message_draft).(draft_replyTo) ∧
      request.(smtp_subject) = message.(message_draft).(draft_subject)
  | _ => False
  end.

(** An id that does not decode is reported as not applied. *)
Definition not_applied (e : exn) : Prop :=
  ∃ error, e = ThrownRemoteError error ∧ error.(remote_outcome) = knownNotApplied.

Lemma decode_not_applied value e : decode value = Throw e → not_applied e.
Proof. unfold decode. destruct (mbind _ (atob _)); intros [= <-]. by eexists. Qed.

Lemma decodeImapMailboxId_not_applied id e : decodeImapMailboxId id = Throw e → not_applied e.
Proof.
  unfold decodeImapMailboxId, decode_with. destruct (exec_id _ _); [apply decode_not_applied|].
  intros [= <-]. by eexists.
Qed.

Lemma imap_target_not_applied self emailId e : imap_target self emailId = Throw e → not_applied e.
Proof.
  unfold imap_target. intros [H|(? & _ & H)]%bind_throw; [|done].
  pose proof (decodeImapEmailId_total emailId) as Ht. rewrite H in Ht. subst. by eexists.
Qed.

Lemma convert_keyword_not_applied l e : mapM convert_keyword l = Throw e → not_applied e.
Proof.
  induction l as [|k l IH]; [done|]. rewrite mapM_cons_outcome.
  intros [H|(f & _ & [H|(k' & _ & H)]%bind_throw)]%bind_throw; [|by apply IH|done].
  unfold convert_keyword in H. repeat case_bool_decide; try done. injection H as <-. by eexists.
Qed.

Lemma one_mailbox_move_cases source change :
  match one_mailbox_move source change with
  | Return added => ∃ removed, change = mkRemoteMembershipChange [added] [removed] ∧
      decodeImapMailboxId removed = Return source.(imap_mailbox)
  | Throw e => not_applied e
  end.
Proof.
  unfold one_mailbox_move. destruct change as [[|added [|]] [|removed [|]]]; cbn; try by eexists.
  destruct (decodeImapMailboxId removed) as [mailbox|e] eqn:Hd; cbn.
  - destruct (throw_if _ _) as [u|e] eqn:Hg; cbn.
    + rewrite throw_if_return, differs_false in Hg. subst. by exists removed.
    + apply throw_if_throw in Hg as [_ <-]. by eexists.
  - by apply decodeImapMailboxId_not_applied in Hd.
Qed.

(** Before its call, a change throws what says that nothing was applied. *)
Lemma changed_not_applied {A} unneeded e : not_applied e → changed_once (A := A) unneeded (Throw e) false.
Proof. intros (error & -> & H). by exists error. Qed.

Lemma rethrow_not_applied e error :
  not_applied e → ThrownRemoteError (toNativeRemoteError e) = ThrownRemoteError error →
  error.(remote_outcome) = knownNotApplied.
Proof. intros (error' & -> & H) [= <-]. done. Qed.

(** The last part of every change: a native call inside [try]. *)
Lemma change_call_obeys {A X} (P : ∀ X, NativeCall X → Prop) unneeded (c : NativeCall X)
    (k : X → native A) :
  P X c → (∀ x, ∃ a, k x = Ret a) →
  obeys (once P) (prog_try (x ← await c; k x) rethrow_native) false (changed_once unneeded).
Proof.
  intros Hc Hk. split; [done|]. intros r _. destruct r as [x|e]; cbn [of_outcome].
  - destruct (Hk x) as [a Ha]. cbn. rewrite Ha. by left.
  - cbn. by eexists.
Qed.

Lemma rethrow_obeys {A} (P : ∀ X, NativeCall X → Prop) unneeded e :
  not_applied e → obeys (once P) (rethrow_native (A := A) e) false (changed_once unneeded).
Proof. intros (error & -> & H). by exists error. Qed.

Lemma keyword_obeys self emailId change :
  obeys (once (keyword_call self emailId change))
    (imap_applyKeywordChange self self.(imap_accountId) emailId change) false (changed_once False).
Proof.
  unfold imap_applyKeywordChange. rewrite assertAccount_own. apply obeys_mbind. cbn [obeys].
  apply obeys_mbind, obeys_outcome.
  destruct (mapM convert_keyword (remote_keyword_add change)) as [add|e] eqn:Hadd;
    [|by apply changed_not_applied, (convert_keyword_not_applied (remote_keyword_add change))].
  apply obeys_mbind, obeys_outcome.
  destruct (mapM convert_keyword (remote_keyword_remove change)) as [remove|e] eqn:Hremove;
    [|by apply changed_not_applied, (convert_keyword_not_applied (remote_keyword_remove change))].
  destruct (imap_target self emailId) as [target|e] eqn:Ht.
  - cbn [of_outcome mbind prog_mbind prog_bind]. apply obeys_try, obeys_await.
    + split; [done|]. split_and!; [done|by apply mapM_return_Forall2..].
    + intros [x|e] _; cbn; [by left|by eexists].
  - apply rethrow_obeys. by eapply imap_target_not_applied.
Qed.

Lemma membership_obeys self emailId change :
  obeys (once (move_call self emailId change))
    (imap_applyMembershipChange self self.(imap_accountId) emailId change) false
    (changed_once (change = mkRemoteMembershipChange [] [])).
Proof.
  unfold imap_applyMembershipChange. rewrite assertAccount_own. apply obeys_mbind. cbn [obeys].
  destruct (bool_decide _ && bool_decide _) eqn:He.
  { bool_hyps. right. destruct change. cbn in *. by subst. }
  apply obeys_mbind, obeys_outcome.
  destruct (decodeImapEmailId emailId) as [source|e] eqn:Hs.
  2: { apply changed_not_applied. pose proof (decodeImapEmailId_total emailId) as Ht.
       rewrite Hs in Ht. subst. by eexists. }
  apply obeys_mbind, obeys_outcome. pose proof (one_mailbox_move_cases source change) as Hmove.
  destruct (one_mailbox_move source change) as [added|e]; [|by apply changed_not_applied].
  destruct Hmove as (removed & Hchange & Hremoved).
  assert (imap_target self emailId = Return (mkNativeMessageRequest self.(imap_sessionId)
    source.(imap_mailbox) source.(imap_uidValidity) source.(imap_uid))) as Ht
    by (unfold imap_target; by rewrite Hs).
  rewrite Ht. cbn [of_outcome mbind prog_mbind prog_bind].
  destruct (decodeImapMailboxId added) as [destination|e] eqn:Ha.
  - cbn [of_outcome prog_bind]. apply change_call_obeys; [|by eauto].
    by exists added, removed.
  - apply rethrow_obeys. by eapply decodeImapMailboxId_not_applied.
Qed.

Lemma smtp_address_id l : List.map smtp_address l = l.
Proof. induction l as [|[]]; cbn; [done|]. by f_equal. Qed.

Lemma submit_obeys self message key :
  obeys (once (submit_call self message key)) (smtp_submit self message key) false (changed_once False).
Proof.
  unfold smtp_submit. apply obeys_mbind, obeys_outcome.
  destruct (throw_if _ _) as [u|e] eqn:Hg.
  - rewrite throw_if_return, differs_false in Hg. apply change_call_obeys; [|by eauto].
    cbn. rewrite !smtp_address_id. split_and!; try done.
    by destruct (draft_from (message_draft message)).
  - apply throw_if_throw in Hg as [_ <-]. by apply changed_not_applied; eexists.
Qed.

(** A keyword change, a membership change and a submission each ask the
    native side at most once, for exactly the change: flags of the email's own message,
    a MOVE of it out of the one mailbox it is in, the message as drafted.  One that
    fails before asking says that nothing was applied. *)
Theorem imap_changes_at_most_once (self : ImapRemoteMail) (ref : NativeSessionRef)
    (emailId : RemoteEmailId) (keywords : RemoteKeywordChange) (membership : RemoteMembershipChange)
    (message : SubmissionMessage) (key : string) :
  obeys (once (keyword_call self emailId keywords))
    (imap_applyKeywordChange self self.(imap_accountId) emailId keywords) false (changed_once False) ∧
  obeys (once (move_call self emailId membership))
    (imap_applyMembershipChange self self.(imap_accountId) emailId membership) false
    (changed_once (membership = mkRemoteMembershipChange [] [])) ∧
  obeys (once (submit_call ref message key)) (smtp_submit ref message key) false (changed_once False).
Proof. split_and!; [apply keyword_obeys|apply membership_obeys|apply submit_obeys]. Qed.

(** ** Evidence of a submission *)

Inductive evidence_phase : Type :=
| EvidenceStart
| MailboxesListed (values : list NativeMailboxDto)
| MessageSearched (response : NativeFindMessageIdResponse)
| EvidenceFailed.

Definition is_sent (mailbox : NativeMailboxDto) : bool :=
  roleFor mailbox.(nm_specialUse) mailbox.(nm_name) === Some "sent".

Definition evidence_allowed (self : NativeSessionRef) (key : string) X (phase : evidence_phase)
    (c : NativeCall X) : Prop :=
  match c, phase with
  | NativeListMailboxes session, EvidenceStart => session = self.(ref_sessionId)
  | NativeFindMessageId session mailbox messageId, MailboxesListed values =>
      session = self.(ref_sessionId) ∧ messageId = smtpMessageId key ∧
      ∃ m, List.filter is_sent values = [m] ∧ mailbox = m.(nm_name)
  | _, _ => False
  end.

Definition evidence_watch X (phase : evidence_phase) (c : NativeCall X) : outcome exn X → evidence_phase :=
  match c in NativeCall X return outcome exn X → evidence_phase with
  | NativeListMailboxes _ => λ r, match r with Return v => MailboxesListed v | Throw _ => EvidenceFailed end
  | NativeFindMessageId _ _ _ => λ r,
      match r with Return v => MessageSearched v | Throw _ => EvidenceFailed end
  | _ => λ _, EvidenceFailed
  end.

Definition evidence_protocol (self : NativeSessionRef) (key : string) :
    monitor NativeCall evidence_phase :=
  {| allowed := evidence_allowed self key; watch := evidence_watch; possible := λ _ _ _, True |}.

Lemma sent_mailboxes_filter index values :
  sent_mailboxes index values = Return (List.filter is_sent values).
Proof.
  revert index. induction values as [|m values IH]; intros index; [done|]. cbn [sent_mailboxes].
  unfold mapNativeMailbox. rewrite imapMailboxId_return. cbn. rewrite IH. cbn.
  unfold is_sent. by case_match.
Qed.

Lemma smtpMessageId_inj k k' : smtpMessageId k = smtpMessageId k' → k = k'.
Proof.
  unfold smtpMessageId. rewrite !string_app_cons, !string_app_nil. intros H.
  simplify_eq H. clear H. intros H.
  change (String "@" "boxplot.invalid>") with ("@boxplot.invalid>") in H.
  apply (cut_at_inj "@") in H as [H _]; [by apply encode_inj in H|..];
    (eapply string_forallb_includes; [apply base64url_chars|done]).
Qed.

(** The reconciler searches the one sent mailbox, and no other, for the
    message id of the submission's own key, which no other key shares; it answers
    "applied" only when exactly that message was found, and with its id. *)
Theorem imap_evidence_is_exact (self : NativeSessionRef) (key : string) :
  obeys (evidence_protocol self key) (imap_reconcileSend self self.(ref_accountId) key) EvidenceStart
    (λ r phase, match r with
     | Return (EvidenceApplied id) => ∃ found,
         phase = MessageSearched (MessageFound found) ∧
         imapEmailId (mkDecodedImapEmailId found.(found_mailbox) found.(found_uidValidity)
                        found.(found_uid)) = Return id
     | Return EvidenceInconclusive => True
     | Throw e => is_remote_error e
     end) ∧
  ∀ key', smtpMessageId key' = smtpMessageId key → key' = key.
Proof.
  split; [|intros; by apply smtpMessageId_inj].
  unfold imap_reconcileSend, assert_session_account. apply obeys_mbind, obeys_outcome.
  rewrite bool_decide_eq_true_2 by done. cbn [negb throw_if].
  apply obeys_try, obeys_mbind, obeys_await; [done|]. intros [values|e] _; [|by eexists].
  cbv beta iota. rewrite sent_mailboxes_filter. cbn [of_outcome]. apply obeys_mbind. cbn [obeys].
  destruct (List.filter is_sent values) as [|m [|]] eqn:Hf; [done| |done].
  apply obeys_mbind, obeys_await.
  { split_and!; [done..|]. by exists m. }
  intros [[|found|]|e] _; cbv beta iota; [done| |done|by eexists].
  apply obeys_mbind, obeys_outcome.
  destruct (imapEmailId _) as [id|e] eqn:Hid; cbn; [by exists found|by eexists].
Qed.
End theorems.

(** ** Witnesses *)

Module ImapFixtures.
#[export] Existing Instance plain_platform.

Definition inbox : NativeMailboxDto := mkNativeMailboxDto "INBOX" (Int 2) (Int 1) (Int 3) (Int 8) None.
Definition message (uid : Z) (date : string) : NativeMessageMetadataDto :=
  mkNativeMessageMetadataDto "INBOX" (Int 3) (Int uid) ["\Seen"] date (Int 100) None None None None None
    None (Some "s") None "" false.
Definition snapshot : NativeMailboxSnapshotDto :=
  mkNativeMailboxSnapshotDto inbox [message 6 "2024-01-01"; message 7 "2024-02-01"].

(** A server with one mailbox. *)
Definition server X (c : NativeCall X) (n : nat) : outcome exn X * nat :=
  (match c in NativeCall X return outcome exn X with
   | NativeListMailboxes _ => Return [inbox]
   | NativeSnapshotMailbox _ _ => Return snapshot
   | _ => Throw (Error "unavailable")
   end, S n).

Definition mail : ImapRemoteMail := mkImapRemoteMail "s1" "ann" genericImap "imap-account-v1:YW5u".
End ImapFixtures.
Import ImapFixtures.

Lemma imap_ids_round_trip_witness :
  let value := mkDecodedImapEmailId "INBOX" (Int 3) (Int 7) in
  imapEmailId value = Return "imap-email-v1:SU5CT1g:3:7" ∧
  ∃ id, imapEmailId value = Return id ∧ decodeImapEmailId id = Return value.
Proof.
  split; [reflexivity|].
  destruct (imap_ids_round_trip (mkDecodedImapEmailId "INBOX" (Int 3) (Int 7))) as [(id & Hid & Hd & _) _].
  - discriminate.
  - exists 3%Z. split; [reflexivity|done].
  - exists 7%Z. split; [reflexivity|done].
  - exists id. split; assumption.
Defined.

Lemma imap_sync_protocol_witness :
  returns (run server (imap_syncEmails mail "imap-account-v1:YW5u") 0).1 = true ∧
  obeys (sync_protocol mail) (imap_syncEmails mail "imap-account-v1:YW5u") (AtStart 0)
    (λ r phase, match r with
     | Return t => "imap-account-v1:YW5u" = mail.(imap_accountId) ∧ trusted phase t
     | Throw e => is_remote_error e
     end).
Proof.
  split; [vm_compute; reflexivity|].
  apply (imap_sync_protocol (laws := plain_laws) mail "imap-account-v1:YW5u").
Defined.

Lemma imap_query_is_a_page_witness :
  ∃ sorted, StronglySorted newer_first sorted ∧
    ∀ options p n,
      starts_at "INBOX" sorted options p → default (Int 500) options.(query_limit) = Int n →
      (0 <= n <= MAX_SAFE_INTEGER)%Z → (p + n <= 2 ^ 53)%Z →
      ∃ page, run server (imap_queryMailbox mail mail.(imap_accountId) "imap-mailbox-v1:SU5CT1g" None
                            options) 0 = (Return page, 1) ∧
        page.(query_ids) = take (Z.to_nat n) (drop (Z.to_nat p) (List.map r_email_id sorted)).
Proof.
  assert (∀ u date, (0 < u <= MAX_SAFE_INTEGER)%Z → message_ok (message u date)) as Hok.
  { intros u date Hu. split_and!; [discriminate|exists 3%Z; split; [reflexivity|done]|].
    exists u. split; [reflexivity|done]. }
  destruct (imap_query_is_a_page (laws := plain_laws) server mail "INBOX" "imap-mailbox-v1:SU5CT1g" 0 1
              snapshot) as (emails & sorted & _ & _ & Hs & Hpage).
  - discriminate.
  - reflexivity.
  - reflexivity.
  - constructor; [apply Hok; done|]. constructor; [apply Hok; done|constructor].
  - exists sorted. split; [exact Hs|]. intros options p n H1 H2 H3 H4. eexists. split.
    + apply (Hpage options p n); assumption.
    + reflexivity.
Defined.
