(* ===== verification/JmapTheorems.v ===== *)
(** * What the JMAP adapter guarantees *)

From S2P Require Import Prelude.
From S2P Require Import JsNumber.
From S2P Require Import JsString.
From S2P Require Import JsCollections.
From S2P Require Import Errors.
From S2P Require Import DomainIds.
From S2P Require Import Remote.
From S2P Require Import Prog.
From S2P Require Import JmapTypes.
From S2P Require Import JmapRemoteMail.
From S2P Require Import JmapFacts.
From Stdlib Require Import ZArith Lia.
Open Scope string_scope.
Open Scope list_scope.
Open Scope js_scope.

(** C20: A synchronisation from nothing, against any server, asks only for pages
    of at most 500 ids of the mailboxes it listed and for emails it saw.  When it
    returns, it read every mailbox to its end under one total and one query state, and
    answers, under distinct ids, exactly the emails on the pages it read; all its
    exceptions are [RemoteError]s. *)
Theorem jmap_snapshot_is_exact (accountId : RemoteAccountId) :
  obeys (snapshot_protocol accountId) (jmap_syncEmails accountId None) (mkSnapshotGhost None [])
    (λ r g, match r with Return t => replaced g t | Throw e => is_remote e end).
Proof. apply completeEmailSnapshot_obeys. Qed.

(** C36: Against a server that does not change meanwhile, whatever its page size,
    the snapshot terminates and answers every email of every mailbox. *)
Theorem jmap_snapshot_completes (server : JmapServer) (accountId : RemoteAccountId) :
  server_ok server →
  ∃ emails,
    run (server_answer server) (jmap_syncEmails accountId None) tt =
      (Return (RemoteReplace server.(server_state) emails), tt) ∧
    NoDup (List.map r_email_id emails) ∧
    ∀ id, id ∈ List.map r_email_id emails ↔ id ∈ server_ids server.
Proof. intros Hok. by apply complete_run. Qed.

(** C33: A synchronisation from a state follows the chain of states the server
    names, for at most 20 pages, then fetches exactly the ids that some page changed and
    neither it nor a later one destroyed, and answers them with every destroyed id and
    the last state.  It falls back on a snapshot exactly when a call said that changes
    cannot be calculated. *)
Theorem jmap_delta_is_exact (accountId : RemoteAccountId) (previous : RemoteSyncState) :
  obeys (delta_protocol accountId previous) (jmap_syncEmails accountId (Some previous)) delta_start
    (λ r g, match r with Return t => synchronised previous g t | Throw e => is_remote e end) ∧
  ∀ deltas id,
    (id ∈ (delta_sets deltas).1 ↔
       ∃ before delta after, deltas = before ++ delta :: after ∧
         (id ∈ delta.(jd_created) ∨ id ∈ delta.(jd_updated)) ∧
         ∀ later, later ∈ delta :: after → id ∉ later.(jd_destroyed)) ∧
    (id ∈ (delta_sets deltas).2 ↔ ∃ delta, delta ∈ deltas ∧ id ∈ delta.(jd_destroyed)).
Proof.
  split; [apply syncEmails_from_obeys|]. intros deltas id.
  split; [apply delta_sets_changed|apply delta_sets_destroyed].
Qed.

(** A submission to a server that answers [r]: accepted with the server's ids;
    or refused with an error whose outcome is unknown, and which must be reconciled,
    exactly when the transport failed. *)
Theorem jmap_submission_outcome (message : SubmissionMessage) (identityId : RemoteIdentityId)
    (text : string) (html : option string) (r : outcome exn (string * string)) :
  message.(message_draft).(draft_identityId) = Some identityId →
  message.(message_draft).(draft_body) = SubmitPlain text html →
  (∀ ids, r = Return ids → ids.1 ≠ "") →
  (∀ e, r = Throw e → ∃ failure, e = ThrownJmapError failure) →
  (run (λ X (c : JmapCall X) u,
     (match c in JmapCall X return outcome exn X with
      | SubmitEmail _ _ _ => r
      | _ => Throw (Error "not served")
      end, u)) (jmap_submit message) tt).1 =
    match r with
    | Return ids => Return (mkSubmissionResult (Some ids.1) (Some ids.2))
    | Throw e => Throw (ThrownRemoteError (toRemoteError e (submission_outcome e)))
    end ∧
  ∀ e, r = Throw e →
    let error := toRemoteError e (submission_outcome e) in
    (error.(remote_outcome) = outcome_unknown ↔ error.(remote_retry) = retry_reconcile) ∧
    (error.(remote_outcome) = outcome_unknown ↔
       ∃ text, e = ThrownJmapError (JmapNetworkError text) ∨
               e = ThrownJmapError (JmapSubmissionAmbiguousError text)) ∧
    (error.(remote_outcome) ≠ outcome_unknown → error.(remote_outcome) = knownNotApplied).
Proof.
  intros Hid Hbody Hne Hfail. split.
  - unfold jmap_submit. rewrite Hid, Hbody, run_try, run_await. destruct r as [[emailId submissionId]|e].
    + specialize (Hne _ eq_refl). cbn [fst] in Hne. by destruct emailId.
    + done.
  - intros e He. destruct (Hfail e He) as [[] ->]; cbn.
    4: { destruct (bool_decide _); cbn; split_and!; try done; split; try done; by intros (? & [|]). }
    all: split_and!; try done; split; try done; eauto; by intros (? & [|]).
Qed.

(** ** Witnesses *)

Module JmapFixtures.
Definition email (id : string) : JmapEmail :=
  mkJmapEmail id "b" "t" None None None None None None (Some "s") None "2024-01-01" (Int 1) "" false
    [("$seen", true)] ["m1"].
Definition mailbox (id : string) : JmapMailbox :=
  mkJmapMailbox id id None None (Int 0) (Int 2) (Int 0) (mkRemoteMailboxRights true true true true true true).
(** Two mailboxes that share an email, read one id at a time. *)
Definition server : JmapServer :=
  mkJmapServer [mailbox "m1"; mailbox "m2"]
    (λ id, if bool_decide (id = "m1") then ["e1"; "e2"] else ["e2"; "e3"])
    [email "e3"; email "e1"; email "e2"] 1 "s7".

Lemma ok : server_ok server.
Proof.
  split.
  - unfold PAGE_SIZE. cbn. lia.
  - intros m _. cbn [server_listing server server_page]. destruct (bool_decide _); split;
      try (cbn; lia); by apply (bool_decide_eq_true_1 (NoDup _)); vm_compute.
  - apply (bool_decide_eq_true_1 (NoDup _)). vm_compute. reflexivity.
  - intros m id _. cbn [server_listing server server_emails]. destruct (bool_decide _);
      intros H; repeat (apply elem_of_cons in H as [->|H]); try (by apply elem_of_nil in H);
      apply (bool_decide_eq_true_1 (_ ∈ _)); vm_compute; reflexivity.
  - repeat constructor; eexists; vm_compute; reflexivity.
Qed.
End JmapFixtures.
Import JmapFixtures.

Lemma jmap_snapshot_completes_witness :
  server_ok server ∧
  ∃ emails, run (server_answer server) (jmap_syncEmails "a" None) tt =
    (Return (RemoteReplace "s7" emails), tt) ∧ "e2" ∈ List.map r_email_id emails.
Proof.
  split; [apply ok|]. destruct (jmap_snapshot_completes server "a" ok) as (emails & Hrun & _ & Hids).
  exists emails. split; [exact Hrun|]. apply Hids.
  apply (bool_decide_eq_true_1 (_ ∈ _)). vm_compute. reflexivity.
Defined.

Lemma jmap_submission_outcome_witness :
  let message := mkSubmissionMessage "a" (mkRemoteSubmissionDraft (Some "i") (mkEmailAddress None "x@y")
                   [] [] [] [] "s" (SubmitPlain "hi" None)) in
  let e := ThrownJmapError (JmapNetworkError "reset") in
  (toRemoteError e (submission_outcome e)).(remote_outcome) = outcome_unknown.
Proof.
  intros message e.
  destruct (jmap_submission_outcome message "i" "hi" None (Throw e)) as [_ H].
  - reflexivity.
  - reflexivity.
  - intros ids H. discriminate H.
  - intros e' H. injection H as <-. eexists. reflexivity.
  - apply (H e eq_refl). exists "reset". left. reflexivity.
Defined.
