(* ===== verification/JmapClientTheorems.v ===== *)
(** * What JMAP operations do over the network

    The remote mail of [JmapRemoteMail] run over the client of [JmapClient], by
    [Prog.interpret]: what it asks of the network and what it answers, whatever the
    network answers. *)

Set Warnings "-register-all".
From S2P Require Import Prelude.
From S2P Require Import JsNumber.
From S2P Require Import JsString.
From S2P Require Import JsCollections.
From S2P Require Import Errors.
From S2P Require Import DomainIds.
From S2P Require Import Remote.
From S2P Require Import Prog.
From S2P Require Import Json.
From S2P Require Import JmapTypes.
From S2P Require Import JmapRemoteMail.
From S2P Require Import JmapFacts.
From S2P Require Import JmapWire.
From S2P Require Import JmapClient.
From S2P Require Import JmapClientFacts.
From Stdlib Require Import ZArith.
Open Scope string_scope.
Open Scope list_scope.
Open Scope js_scope.

Section over_the_wire.
Context {rejections : Rejections} (sessionUrl : string) (auth : AuthConfig) (sessionData : option JmapSession).

(** A method of the remote mail, over the network. *)
Definition over_wire {A} (p : jmap A) : wire A := interpret (jmap_client sessionUrl auth sessionData) p.

(** C35: Whatever the network answers, a synchronisation of an account only reads,
    of this account and by at most 500 emails a request.  An email is let through exactly
    when it has its ids, its date and a mailbox; the emails answered have non-empty ids and
    date, at least one mailbox, none with an empty id, and a size that is a safe
    non-negative integer, and their ids are distinct; everything thrown is a
    [RemoteError]. *)
Theorem wire_emails_are_well_formed (accountId : RemoteAccountId) (previousState : option RemoteSyncState) :
  obeys (read_wire accountId) (over_wire (jmap_syncEmails accountId previousState)) tt
    (λ r _, match r with Return t => sound_transition t | Throw e => is_remote e end) ∧
  ∀ raw, is_Some (validateAndMapEmail raw) ↔
    present raw.(re_id) ∧ present raw.(re_blobId) ∧ present raw.(re_threadId) ∧
    present raw.(re_receivedAt) ∧
    ∃ ids id, raw.(re_mailboxIds) = Some ids ∧ map_get id ids = Some true.
Proof.
  split; [|apply validateAndMapEmail_accepts].
  eapply obeys_mono; [|eapply (obeys_interpret _ _ (read_port accountId) eq); [..|apply syncEmails_reads]].
  - by intros r m ([] & _ & H).
  - intros X c n m. apply jmap_client_reads.
  - done.
Qed.

(** A synchronisation from a state reads a whole snapshot only after a
    response with the property [cannotCalculateChanges].  When the request for changes is
    rejected, whatever the library rejects with, the synchronisation makes no further
    request and fails: with an authentication failure that ends the session, or with a
    protocol failure to be retried. *)
Theorem rejected_changes_fail_the_sync (accountId : RemoteAccountId) (previous : RemoteSyncState) :
  obeys (fallback_wire) (over_wire (jmap_syncEmails accountId (Some previous))) false (λ _ _, True) ∧
  ∀ S (answer : ∀ X, WireCall X → S → outcome exn X * S) s e,
    (answer _ (JamEmailChanges accountId previous) s).1 = Throw e →
    ∃ error,
      run answer (over_wire (jmap_syncEmails accountId (Some previous))) s =
        (Throw (ThrownRemoteError error), (answer _ (JamEmailChanges accountId previous) s).2) ∧
      ((error.(remote_kind) = kind_auth ∧ error.(remote_session) = session_expire) ∨
       (error.(remote_kind) = kind_protocol ∧ error.(remote_retry) = safeBackoff ∧
        error.(remote_session) = session_keep)).
Proof.
  split.
  - eapply obeys_mono; [|eapply (obeys_interpret _ _ (delta_protocol accountId previous) told);
      [..|apply (syncEmails_from_obeys accountId previous)]].
    + done.
    + intros X c n m. apply jmap_client_told.
    + done.
  - intros S answer s e He.
    exists (toRemoteError (jmap_request_error "Email/changes" e) knownNotApplied). split.
    + unfold over_wire, jmap_syncEmails, delta_pages, MAX_DELTA_PAGES. cbn.
      destruct (answer _ (JamEmailChanges accountId previous) s) as [r s']. cbn in He |- *. subst r. cbn.
      by rewrite request_error_calculable.
    + unfold jmap_request_error.
      destruct e as [| | | | | | | |[]| | |]; cbn; try (by left); case_match; cbn; auto.
Qed.

(** C34: A plain message with an identity, submitted over the network: the drafts
    mailbox is asked for, then at most one batch is sent, which creates the draft in that
    mailbox and submits it.  The submission is accepted exactly with the ids the batch
    created.  Its outcome is unknown, to be reconciled, exactly when the batch was sent and
    its transport failed; after any other failure it is not applied. *)
Theorem wire_submission_outcome (apiUrl : string) (message : SubmissionMessage) (identityId : RemoteIdentityId)
    (text : string) (html : option string) :
  message.(message_draft).(draft_identityId) = Some identityId →
  message.(message_draft).(draft_body) = SubmitPlain text html →
  apiUrl_of sessionData = Return apiUrl →
  let draft := message.(message_draft) in
  let sent := mkJmapEmailDraft [jmap_address draft.(draft_from)] (List.map jmap_address draft.(draft_to))
                (List.map jmap_address draft.(draft_cc)) (List.map jmap_address draft.(draft_bcc))
                (List.map jmap_address draft.(draft_replyTo)) draft.(draft_subject) (Some text) html in
  obeys (submission_protocol apiUrl auth message.(message_accountId) sent identityId)
    (over_wire (jmap_submit message)) []
    (λ r g,
      match r with
      | Return result =>
          ∃ first batch responses emailId submissionId,
            g = [first; batch] ∧ raw_outcome batch = Return responses ∧
            created_in responses "e1" "draft1" emailId ∧ created_in responses "s1" "sub1" submissionId ∧
            result = mkSubmissionResult (Some emailId) (Some submissionId)
      | Throw e =>
          ∃ error, e = ThrownRemoteError error ∧
            (error.(remote_outcome) = outcome_unknown ↔ batch_lost g) ∧
            (error.(remote_retry) = retry_reconcile ↔ batch_lost g) ∧
            (error.(remote_outcome) = outcome_unknown ∨ error.(remote_outcome) = knownNotApplied)
      end).
Proof.
  intros Hid Hbody Hurl draft sent. unfold over_wire, jmap_submit. rewrite Hid, Hbody.
  apply obeys_interpret_try, obeys_interpret_bind, obeys_interpret_await.
  cbn [jmap_client]. rewrite Hurl. apply obeys_mbind. cbn [of_outcome obeys].
  eapply obeys_mono; [|apply submitEmail_obeys]. intros [[emailId submissionId]|e] g Hr; cbn [fst snd].
  - destruct Hr as (first & batch & responses & -> & Hr & Hemail & Hsub). cbn in Hemail, Hsub.
    assert (remoteEmailIdFromString emailId = Return emailId) as Hne.
    { apply remoteId_return. by destruct Hemail as (? & _ & _ & ?). }
    apply obeys_interpret_bind, obeys_interpret_outcome. rewrite Hne.
    by exists first, batch, responses, emailId, submissionId.
  - cbn [interpret obeys]. eexists. split; [done|]. destruct Hr as [[[t ->] Hlost]|[Hdef Hno]].
    + cbn. by split_and!; [..|left].
    + destruct (definite_outcome e Hdef) as [-> Hretry]. split_and!; [by split..|by right].
Qed.

Lemma update_over_wire {S} (answer : ∀ X, WireCall X → S → outcome exn X * S) apiUrl (c : JmapCall unit)
    emailId update mismatch failure s :
  jmap_client sessionUrl auth sessionData unit c =
    (apiUrl ← of_outcome (apiUrl_of sessionData); set_email apiUrl auth emailId update mismatch failure) →
  apiUrl_of sessionData = Return apiUrl →
  let request := raw_request apiUrl auth [("Email/set", update, "e1")] in
  run answer (over_wire (prog_try (await c) rethrow_jmap)) s =
    (match update_outcome emailId mismatch failure (answer _ request s).1 with
     | Return u => Return u
     | Throw e => Throw (ThrownRemoteError (toRemoteError e knownNotApplied))
     end, (answer _ request s).2).
Proof.
  intros Hc Hurl request. unfold over_wire. cbn [prog_try await interpret].
  rewrite run_continue, Hc, Hurl, run_mbind. cbn [run of_outcome]. rewrite set_email_run. fold request.
  cbn [fst snd]. by destruct (update_outcome _ _ _ _) as [[]|e].
Qed.

(** A change of keywords, or of mailboxes, is one request: it sets every added
    one to [true] and every removed one to [false].  The change counts as made exactly when
    the server answered and did not list the email among those not updated; otherwise the
    failure is not applied and keeps the session, to be retried after a failed request,
    and invalid state after a mismatch. *)
Theorem wire_changes_outcome {S} (answer : ∀ X, WireCall X → S → outcome exn X * S) (apiUrl : string)
    (accountId : RemoteAccountId) (emailId : RemoteEmailId) (add remove : list string)
    (method : jmap unit) (update : MethodArguments) s :
  apiUrl_of sessionData = Return apiUrl →
  (method, update) ∈
    [(jmap_applyKeywordChange accountId emailId (mkRemoteKeywordChange add remove),
      SetKeywords accountId emailId (change_patch add remove));
     (jmap_applyMembershipChange accountId emailId (mkRemoteMembershipChange add remove),
      SetMailboxIds accountId emailId (change_patch add remove))] →
  let '(r, s') := answer _ (raw_request apiUrl auth [("Email/set", update, "e1")]) s in
  (∀ key, map_get key (change_patch add remove) =
     if bool_decide (key ∈ remove) then Some false else if bool_decide (key ∈ add) then Some true else None) ∧
  match raw_outcome r with
  | Throw _ =>
      run answer (over_wire method) s =
        (Throw (ThrownRemoteError (remote_error "Remote protocol operation failed" kind_protocol safeBackoff
                  session_keep knownNotApplied)), s')
  | Return responses =>
      match not_updated emailId responses with
      | None => run answer (over_wire method) s = (Return tt, s')
      | Some refused =>
          ∃ error, run answer (over_wire method) s = (Throw (ThrownRemoteError error), s') ∧
            error.(remote_outcome) = knownNotApplied ∧ error.(remote_session) = session_keep ∧
            (refused.(se_type) = Some "stateMismatch" →
               error.(remote_kind) = kind_stateInvalid ∧ error.(remote_retry) = never)
      end
  end.
Proof.
  intros Hurl Hmethod. set (request := raw_request apiUrl auth [("Email/set", update, "e1")]).
  assert (∃ mismatch failure, run answer (over_wire method) s =
    (match update_outcome emailId mismatch failure (answer _ request s).1 with
     | Return u => Return u
     | Throw e => Throw (ThrownRemoteError (toRemoteError e knownNotApplied))
     end, (answer _ request s).2)) as (mismatch & failure & Hrun).
  { apply elem_of_cons in Hmethod as [[= -> ->]|Hmethod%list_elem_of_singleton]; [|injection Hmethod as -> ->];
      do 2 eexists; by apply update_over_wire. }
  rewrite Hrun. destruct (answer _ request s) as [r s']. cbn [fst snd]. split; [apply change_patch_get|].
  unfold update_outcome. destruct (raw_outcome r) as [responses|e]; [|done].
  destruct (not_updated emailId responses) as [refused|]; [|done].
  case_bool_decide as Ht; eexists; (split; [done|]); cbn; split_and!; try done.
Qed.
End over_the_wire.

(** C39: A body is the content of the first part of its type, in document order, that
    is whole: neither damaged, cut nor empty; there is none exactly when no part is.  The
    attachments are the parts with a blob that are set aside, inline or no main text, in
    document order. *)
Theorem message_parts_in_order (emailId : string) (bodyStructure : RawJmapEmailBodyPart)
    (bodyValues : jsmap string RawJmapEmailBodyValue) :
  (∀ body, extractEmailBody emailId bodyStructure bodyValues = Some body →
     body.(jb_emailId) = emailId ∧
     (∀ html, body.(jb_html) = Some html ↔ first_whole bodyValues "text/html" (document bodyStructure) html) ∧
     (∀ text, body.(jb_text) = Some text ↔ first_whole bodyValues "text/plain" (document bodyStructure) text)) ∧
  (extractEmailBody emailId bodyStructure bodyValues = None ↔
     ∀ part type partId content, part ∈ document bodyStructure → type ∈ ["text/html"; "text/plain"] →
       has_content_id type part = Some partId → ¬ whole bodyValues partId content) ∧
  extractAttachments bodyStructure =
    List.map attachment_of (List.filter is_attachment (document bodyStructure)).
Proof.
  split_and!; [| |apply traverse_document].
  - intros body H. unfold extractEmailBody in H. rewrite !findPartIdsByType_document in H.
    pose proof (first_content_spec bodyValues "text/html" (document bodyStructure)) as Hh.
    pose proof (first_content_spec bodyValues "text/plain" (document bodyStructure)) as Ht.
    destruct (first_content _ _) as [h|] in H, Hh; destruct (first_content _ _) as [t|] in H, Ht;
      try done; injection H as <-; by split_and!.
  - unfold extractEmailBody. rewrite !findPartIdsByType_document.
    pose proof (first_content_none bodyValues "text/html" (document bodyStructure)) as Hh.
    pose proof (first_content_none bodyValues "text/plain" (document bodyStructure)) as Ht.
    destruct (first_content bodyValues (omap (has_content_id "text/html") _)) as [h|];
      destruct (first_content bodyValues (omap (has_content_id "text/plain") _)) as [t|];
      (split; [intros Hn; try done|intros Hno; try done; exfalso]).
    + enough (Some h = None) by done. apply Hh. intros part i c Hin. apply Hno; [done|by left].
    + enough (Some h = None) by done. apply Hh. intros part i c Hin. apply Hno; [done|by left].
    + enough (Some t = None) by done. apply Ht. intros part i c Hin. apply Hno; [done|by right; left].
    + intros part type i c Hin Htype; apply elem_of_cons in Htype as [->|Htype%list_elem_of_singleton]; [|subst type]; [by apply Hh|by apply Ht].
Qed.

(** ** Witnesses *)

Module WireFixtures.
(** A library whose rejections carry no status. *)
#[export] Instance rejections : Rejections :=
  {| rejection_status := λ _, None; rejection_detail := λ _, "{}"; rejection_text := λ _, "failed" |}.
Definition session : option JmapSession :=
  Some (mkJmapSession "https://m/api" "d" "u" "e" None [("urn:ietf:params:jmap:mail", "a")] []).
Definition bearer : AuthConfig := Bearer "t".

(** A network on which every raw request is answered [responses]. *)
Definition answering (responses : list MethodResponse) X (c : WireCall X) (u : unit) : outcome exn X * unit :=
  (match c in WireCall X return outcome exn X with
   | FetchMethods _ _ _ _ => Return (mkHttpResponse 200 (Return (Some responses)))
   | _ => Throw (OtherThrown "offline")
   end, u).

Definition refusal : RawMethodResult :=
  mkMethodResult None None None None
    (Some [("e1", mkRawSetError (Some "stateMismatch") None)]) None None None None None None.
(** The response of a method that failed: [["error", { type: "serverFail" }, "e1"]]. *)
Definition failed_method : MethodResponse :=
  ("error", mkMethodResult (Some "serverFail") None None None None None None None None None None, "e1").

(** A message of two texts, the first cut, and a picture. *)
Definition text_part (id : string) : RawJmapEmailBodyPart :=
  mkBodyPart (Some id) (Some "b") None None "text/plain" None None None.
Definition picture : RawJmapEmailBodyPart :=
  mkBodyPart (Some "3") (Some "blob") (Some (Int 9)) (Some "x.png") "image/png" None None None.
Definition structure : RawJmapEmailBodyPart :=
  mkBodyPart None None None None "multipart/mixed" None None (Some [text_part "1"; text_part "2"; picture]).
Definition values : jsmap string RawJmapEmailBodyValue :=
  [("1", mkBodyValue (Some "Dear") None (Some true)); ("2", mkBodyValue (Some "Dear all") None None)].

Definition submission : SubmissionMessage :=
  mkSubmissionMessage "a" (mkRemoteSubmissionDraft (Some "i") (mkEmailAddress None "x@y")
    [] [] [] [] "s" (SubmitPlain "hi" None)).
End WireFixtures.
Import WireFixtures.

Lemma wire_submission_outcome_witness :
  let sent := mkJmapEmailDraft [mkEmailAddress None "x@y"] [] [] [] [] "s" (Some "hi") None in
  obeys (submission_protocol "https://m/api" bearer "a" sent "i")
    (over_wire "https://m" bearer session (jmap_submit submission)) [] (λ _ _, True).
Proof.
  intros sent. eapply obeys_mono.
  2: { apply (wire_submission_outcome "https://m" bearer session "https://m/api" submission "i" "hi" None);
       reflexivity. }
  done.
Defined.

Lemma rejected_changes_fail_the_sync_witness :
  ∃ error,
    (run (answering []) (over_wire "https://m" bearer session (jmap_syncEmails "a" (Some "s1"))) tt).1 =
      Throw (ThrownRemoteError error) ∧ error.(remote_kind) = kind_protocol.
Proof.
  destruct (rejected_changes_fail_the_sync "https://m" bearer session "a" "s1") as [_ H].
  destruct (H unit (answering []) tt (OtherThrown "offline") eq_refl) as (error & Hrun & Hkind).
  exists error. split; [exact (f_equal fst Hrun)|]. destruct Hkind as [[Hkind _]|[Hkind _]]; [|exact Hkind].
  exfalso. vm_compute in Hrun. injection Hrun as <-. discriminate Hkind.
Defined.

Lemma wire_changes_outcome_witness :
  ∃ error,
    run (answering [("Email/set", refusal, "e1")])
      (over_wire "https://m" bearer session
         (jmap_applyKeywordChange "a" "e1" (mkRemoteKeywordChange ["$seen"] ["$flagged"]))) tt =
      (Throw (ThrownRemoteError error), tt) ∧ error.(remote_kind) = kind_stateInvalid.
Proof.
  pose proof (wire_changes_outcome "https://m" bearer session (answering [("Email/set", refusal, "e1")])
                "https://m/api" "a" "e1" ["$seen"] ["$flagged"] _ _ tt eq_refl (list_elem_of_here _ _)) as [_ H].
  destruct H as (error & Hrun & _ & _ & Hkind). exists error. split; [exact Hrun|]. apply Hkind. reflexivity.
Defined.

Lemma message_parts_in_order_witness :
  extractEmailBody "e" structure values = Some (mkJmapEmailBody "e" None (Some "Dear all")) ∧
  first_whole values "text/plain" (document structure) "Dear all" ∧
  extractAttachments structure = [attachment_of picture].
Proof.
  destruct (message_parts_in_order "e" structure values) as (Hbody & _ & Hatt).
  destruct (Hbody (mkJmapEmailBody "e" None (Some "Dear all")) eq_refl) as (_ & _ & Htext).
  split; [reflexivity|]. split; [apply Htext; reflexivity|]. rewrite Hatt. reflexivity.
Defined.

(** An update that the server failed to run is reported as made: the error response names
    no email. *)
Lemma failed_update_counts_as_made :
  run (answering [failed_method])
    (over_wire "https://m" bearer session
       (jmap_applyKeywordChange "a" "e1" (mkRemoteKeywordChange ["$seen"] []))) tt = (Return tt, tt).
Proof. vm_compute. reflexivity. Qed.
