(* ===== verification/CapabilityTheorems.v ===== *)
(** * What the capability store guarantees

    Between the start of an operation and its answer anything may happen to the store:
    a sequence of events.  An answer is only passed on when none of them took the
    session away. *)

From S2P Require Import Prelude.
From S2P Require Import JsNumber.
From S2P Require Import JsString.
From S2P Require Import JsCollections.
From S2P Require Import Errors.
From S2P Require Import DomainIds.
From S2P Require Import Remote.
From S2P Require Import Prog.
From S2P Require Import BodyMaterializer.
From S2P Require Import SharedState.
From S2P Require Import RemoteApplication.
From S2P Require Import Ports.
From S2P Require Import CapabilityStore.
From Stdlib Require Import ZArith Lia.
Open Scope string_scope.
Open Scope list_scope.
Open Scope js_scope.

(** ** The invariant *)

Record store_wf (s : CapabilityStore) : Prop := {
  wf_keys : map_wf s.(cs_active);
  (** A capability is filed under its account, at the account's generation, with a
      number already given out. *)
  wf_entry k c : map_get k s.(cs_active) = Some c →
    c.(cap_accountKey) = k ∧ c.(cap_generation) = store_generation k s ∧
    (c.(cap_identity) < s.(cs_next))%nat;
  (** Numbers are not shared. *)
  wf_identity k k' c c' : map_get k s.(cs_active) = Some c → map_get k' s.(cs_active) = Some c' →
    c.(cap_identity) = c'.(cap_identity) → k = k';
  wf_disposed : s.(cs_disposed) = true → s.(cs_active) = map_new;
}.

Lemma new_store_wf : store_wf new_store.
Proof. split; cbn; try done. constructor. Qed.

Lemma store_generation_invalidate k k' s :
  store_generation k' (invalidate k s) =
    (if decide (k = k') then store_generation k s + 1 else store_generation k' s)%Z.
Proof. unfold store_generation, invalidate. cbn. rewrite map_get_set. by case_decide. Qed.

Lemma invalidate_wf k s : store_wf s → store_wf (invalidate k s).
Proof.
  intros [Hkeys Hentry Hid Hdisp]. split.
  - by apply map_wf_delete.
  - intros k' c. rewrite store_generation_invalidate. cbn. rewrite map_get_delete by done.
    case_decide as Hk; [done|]. intros Hc. by apply Hentry.
  - intros k1 k2 c c'. cbn. rewrite !map_get_delete by done. repeat case_decide; try done. by apply Hid.
  - cbn. intros Hd. by rewrite (Hdisp Hd).
Qed.

Lemma fold_invalidate_wf ks s : store_wf s → store_wf (fold_left (λ s k, invalidate k s) ks s).
Proof. revert s. induction ks as [|k ks IH]; intros s Hs; cbn; [done|]. by apply IH, invalidate_wf. Qed.

Lemma dispose_fields s :
  (dispose_store s).(cs_disposed) = true ∧ (dispose_store s).(cs_next) = s.(cs_next) ∧
  (dispose_store s).(cs_active) = map_new.
Proof.
  assert (∀ ks s0, cs_next (fold_left (λ s k, invalidate k s) ks s0) = cs_next s0 ∧
    cs_disposed (fold_left (λ s k, invalidate k s) ks s0) = cs_disposed s0) as H.
  { intros ks. induction ks as [|k ks IH]; intros s0; cbn [fold_left]; [done|].
    by destruct (IH (invalidate k s0)) as [-> ->]. }
  unfold dispose_store. cbn [cs_disposed cs_next cs_active].
  edestruct H as [-> ->]. done.
Qed.

Lemma fold_invalidate_generation ks s k :
  (store_generation k s <= store_generation k (fold_left (λ s k, invalidate k s) ks s))%Z ∧
  (k ∈ ks → (store_generation k s < store_generation k (fold_left (λ s k, invalidate k s) ks s))%Z).
Proof.
  revert s. induction ks as [|k' ks IH]; intros s; cbn [fold_left].
  - split; [lia|]. intros H. by apply elem_of_nil in H.
  - destruct (IH (invalidate k' s)) as [H1 H2]. rewrite store_generation_invalidate in H1.
    split; [case_decide; subst; lia|]. intros [->|Hk]%elem_of_cons.
    + rewrite decide_True in H1 by done. lia.
    + specialize (H2 Hk). rewrite store_generation_invalidate in H2. case_decide; subst; lia.
Qed.

Lemma activate_cases k acc session rec g s :
  activate k acc session rec g s = s ∨
  s.(cs_disposed) = false ∧ store_generation k s = g ∧
  activate k acc session rec g s =
    mkCapabilityStore (map_set k (mkCapability s.(cs_next) k acc session rec g) s.(cs_active))
      s.(cs_generations) s.(cs_statusAuthority) s.(cs_disposed) (S s.(cs_next)).
Proof.
  unfold activate. destruct (_ || _ || _) eqn:Hguard; [by left|right]. bool_hyps.
  split_and!; [done|by apply Z.eqb_eq|done].
Qed.

Lemma activate_wf k acc session rec g s : store_wf s → store_wf (activate k acc session rec g s).
Proof.
  intros Hs. destruct (activate_cases k acc session rec g s) as [->|(Hd & Hg & ->)]; [done|].
  destruct Hs as [Hkeys Hentry Hid Hdisp]. split; cbn.
  - by apply map_wf_set.
  - intros k' c. rewrite map_get_set. unfold store_generation in *. cbn. case_decide as Hk.
    + intros [= <-]. subst. cbn. split_and!; [done|done|lia].
    + intros Hc. destruct (Hentry _ _ Hc) as (? & ? & ?). split_and!; [done|done|lia].
  - intros k1 k2 c c'. rewrite !map_get_set. repeat case_decide; subst; try done.
    + intros [= <-] Hc Heq. destruct (Hentry _ _ Hc) as (_ & _ & Hlt). cbn in Heq. lia.
    + intros Hc [= <-] Heq. destruct (Hentry _ _ Hc) as (_ & _ & Hlt). cbn in Heq. lia.
    + by apply Hid.
  - congruence.
Qed.

Lemma dispose_wf s : store_wf s → store_wf (dispose_store s).
Proof.
  intros [Hkeys Hentry Hid Hdisp]. unfold dispose_store. split; cbn; try done. constructor.
Qed.

(** ** Events *)

Inductive store_event : Type :=
| Activated (accountKey : AccountKey) (remoteAccountId : RemoteAccountId) (session : nat)
    (reconciler : bool) (expectedGeneration : Z)
| Invalidated (accountKey : AccountKey)
| Disposed
| AuthorityIs (authority : AccountKey → bool).

Definition happen (s : CapabilityStore) (e : store_event) : CapabilityStore :=
  match e with
  | Activated k acc session rec g => activate k acc session rec g s
  | Invalidated k => invalidate k s
  | Disposed => dispose_store s
  | AuthorityIs authority => setStatusAuthority authority s
  end.
Definition happens (events : list store_event) (s : CapabilityStore) : CapabilityStore :=
  fold_left happen events s.

(** The events that take an account's session away. *)
Definition takes_away (k : AccountKey) (e : store_event) : Prop := e = Invalidated k ∨ e = Disposed.

Lemma happen_wf e s : store_wf s → store_wf (happen s e).
Proof.
  intros Hs. destruct e; cbn; [by apply activate_wf|by apply invalidate_wf|by apply dispose_wf|].
  destruct Hs. by split.
Qed.

Lemma happens_wf events s : store_wf s → store_wf (happens events s).
Proof. revert s. induction events as [|e events IH]; intros s Hs; cbn; [done|]. by apply IH, happen_wf. Qed.

(** A capability that is no longer filed never is again: its number is not given out
    twice. *)
Definition gone (c : ActiveBodyCapability) (s : CapabilityStore) : Prop :=
  (c.(cap_identity) < s.(cs_next))%nat ∧
  ∀ k c', map_get k s.(cs_active) = Some c' → c'.(cap_identity) ≠ c.(cap_identity).

Lemma happen_gone c e s : store_wf s → gone c s → gone c (happen s e).
Proof.
  intros Hs [Hlt Hgone]. destruct e as [k acc session rec g|k| |authority]; cbn.
  - destruct (activate_cases k acc session rec g s) as [->|(_ & _ & ->)]; [done|].
    split; cbn; [lia|]. intros k' c'. rewrite map_get_set. case_decide; [|by apply Hgone].
    intros [= <-]. cbn. lia.
  - split; [done|]. intros k' c'. cbn. rewrite map_get_delete by apply Hs. case_decide; [done|]. apply Hgone.
  - destruct (dispose_fields s) as (_ & Hnext & Hactive). split; [by rewrite Hnext|].
    by rewrite Hactive.
  - done.
Qed.

Lemma happens_gone c events s : store_wf s → gone c s → gone c (happens events s).
Proof.
  revert s. induction events as [|e events IH]; intros s Hs Hg; cbn; [done|].
  apply IH; [by apply happen_wf|by apply happen_gone].
Qed.

Lemma gone_not_current c s : gone c s → isCurrent c s = false.
Proof.
  intros [_ Hgone]. unfold isCurrent. destruct (map_get _ _) as [c'|] eqn:Hc; [|by rewrite !andb_false_r].
  rewrite bool_decide_eq_false_2 by by eapply Hgone. by rewrite !andb_false_r.
Qed.

(** What takes a filed capability away, or files another one in its place, makes it
    gone. *)
Lemma taken_away k c e s :
  store_wf s → map_get k s.(cs_active) = Some c →
  takes_away k e ∨ map_get k (happen s e).(cs_active) ≠ Some c → gone c (happen s e).
Proof.
  intros Hs Hc Htaken. destruct (wf_entry _ Hs _ _ Hc) as (Hk & Hg & Hlt).
  destruct e as [k' acc session rec g|k'| |authority]; cbn in *.
  - destruct (activate_cases k' acc session rec g s) as [Hsame|(_ & _ & Hset)].
    { rewrite Hsame in Htaken. destruct Htaken as [[?|?]|?]; done. }
    rewrite Hset in *. cbn in Htaken. destruct Htaken as [[?|?]|Htaken]; [done..|].
    split; cbn; [lia|]. intros k1 c1. rewrite map_get_set in Htaken |- *.
    destruct (decide (k' = k)) as [->|Hne]; [|done]. case_decide as Hk1.
    + intros [= <-]. cbn. lia.
    + intros Hc1 Heq. apply Hk1. by eapply (wf_identity _ Hs).
  - assert (k' = k) as ->.
    { destruct Htaken as [[[= ->]|?]|Htaken]; [done..|]. rewrite map_get_delete in Htaken by apply Hs.
      by case_decide. }
    split; [done|]. intros k1 c1. cbn. rewrite map_get_delete by apply Hs. case_decide as Hk1; [done|].
    intros Hc1 Heq. apply Hk1. symmetry. by eapply (wf_identity _ Hs).
  - destruct (dispose_fields s) as (_ & Hnext & Hactive). split; [by rewrite Hnext|].
    by rewrite Hactive.
  - destruct Htaken as [[?|?]|?]; done.
Qed.

(** A capability still current was filed all along, and nothing took it away. *)
Lemma current_throughout k c events s :
  store_wf s → map_get k s.(cs_active) = Some c → isCurrent c (happens events s) = true →
  Forall (λ e, ¬ takes_away k e) events ∧ map_get k (happens events s).(cs_active) = Some c.
Proof.
  revert s. induction events as [|e events IH]; intros s Hs Hc Hcurrent; cbn in *; [done|].
  destruct (decide (map_get k (happen s e).(cs_active) = Some c)) as [Hsame|Hdiff].
  - destruct (IH (happen s e)) as [Hall Hget]; [by apply happen_wf|done|done|]. split; [|done].
    constructor; [|done]. intros Htakes.
    assert (gone c (happen s e)) as Hgone by (eapply taken_away; [done|done|by left]).
    apply (happens_gone _ events) in Hgone; [|by apply happen_wf].
    apply gone_not_current in Hgone. unfold happens in *. congruence.
  - assert (gone c (happen s e)) as Hgone by (eapply taken_away; [done|done|by right]).
    apply (happens_gone _ events) in Hgone; [|by apply happen_wf].
    apply gone_not_current in Hgone. unfold happens in *. congruence.
Qed.

(** ** Answers *)

Lemma mutationCapability_return k s c s' :
  store_wf s → mutationCapability k s = (Return c, s') →
  map_get k s.(cs_active) = Some c ∧ isCurrent c s = true ∧ s' = s.
Proof.
  unfold mutationCapability. intros Hs. destruct (map_get k _) as [c'|]; [|done].
  destruct (isCurrent c' s) eqn:Hc; [|done]. by intros [= <- <-].
Qed.

Lemma body_capability_return k s c s' :
  body_capability k s = (Return c, s') → map_get k s.(cs_active) = Some c.
Proof.
  unfold body_capability. destruct (map_get k _); [|done]. destruct (_ || _); [done|]. by intros [= -> _].
Qed.

Lemma finish_mutation_return {A} c (r : outcome exn A) s a s' :
  finish_mutation c r s = (Return a, s') → r = Return a ∧ isCurrent c s = true ∧ s' = s.
Proof.
  destruct r as [a'|e]; cbn [finish_mutation].
  - unfold assertMutationCurrent, handleMutationFailure.
    destruct (isCurrent c s); cbn; [by intros [= <- <-]|done].
  - unfold handleMutationFailure. destruct (negb _); [done|]. by destruct e.
Qed.

Lemma finish_body_return c r s fetched s' :
  finish_body c r s = (Return fetched, s') →
  r = Return fetched.(fetch_body) ∧ fetched.(fetch_session) = c.(cap_identity) ∧
  isCurrent c s = true ∧ s' = s.
Proof.
  destruct r as [body|e]; cbn [finish_body].
  - unfold assertCurrent, body_failure. destruct (isCurrent c s); cbn; [by intros [= <- <-]|done].
  - unfold body_failure, assertCurrent. destruct e; try done; destruct (isCurrent c s); done.
Qed.

(** C22: The answer of a session is passed on, to the mutation runner or to the
    body materializer, only if the session was the account's from the start of the
    operation to its end: nothing invalidated it, disposed of the store or put another
    session in its place, and the account's status still authorises it.  Otherwise the
    operation throws. *)
Theorem answers_come_from_the_current_session {A} (k : AccountKey) (s : CapabilityStore)
    (c : ActiveBodyCapability) (events : list store_event) :
  store_wf s →
  let s' := happens events s in
  let uninterrupted := Forall (λ e, ¬ takes_away k e) events ∧
    map_get k s'.(cs_active) = Some c ∧ has_status k s' = true in
  (mutationCapability k s = (Return c, s) →
     ∀ (r : outcome exn A) a s'', finish_mutation c r s' = (Return a, s'') →
       r = Return a ∧ s'' = s' ∧ uninterrupted) ∧
  (body_capability k s = (Return c, s) →
     ∀ r fetched s'', finish_body c r s' = (Return fetched, s'') →
       r = Return fetched.(fetch_body) ∧ s'' = s' ∧ uninterrupted).
Proof.
  intros Hs s' uninterrupted.
  assert (map_get k s.(cs_active) = Some c → isCurrent c s' = true → uninterrupted) as H.
  { intros Hc Hcurrent. destruct (current_throughout k c events s Hs Hc Hcurrent) as [Hall Hget].
    split_and!; [done|done|]. destruct (wf_entry _ Hs _ _ Hc) as (Hk & _).
    unfold isCurrent in Hcurrent. rewrite Hk in Hcurrent. by apply andb_true_iff in Hcurrent as [_ ?]. }
  split.
  - intros Hm r a s'' (-> & Hcurrent & ->)%finish_mutation_return.
    apply mutationCapability_return in Hm as (Hc & _ & _); [auto|done].
  - intros Hb r fetched s'' (-> & _ & Hcurrent & ->)%finish_body_return. split_and!; [done|done|].
    apply H; [|done]. by apply body_capability_return in Hb.
Qed.

(** ** Late activations *)

Lemma happen_generation k e s :
  (store_generation k s <= store_generation k (happen s e))%Z ∧
  (e = Invalidated k → store_generation k s < store_generation k (happen s e))%Z.
Proof.
  destruct e as [k' acc session rec g|k'| |authority]; cbn [happen].
  - destruct (activate_cases k' acc session rec g s) as [->|(_ & _ & ->)];
      unfold store_generation; cbn; split; (lia || done).
  - rewrite store_generation_invalidate. split; [case_decide; subst; lia|].
    intros [= ->]. rewrite decide_True by done. lia.
  - split; [|done]. unfold dispose_store.
    pose proof (fold_invalidate_generation s.(cs_active).*1
      (mkCapabilityStore s.(cs_active) s.(cs_generations) s.(cs_statusAuthority) true s.(cs_next)) k) as [H _].
    unfold store_generation in *. cbn in *. exact H.
  - unfold store_generation. cbn. split; [lia|done].
Qed.

Lemma happens_generation k events s :
  (store_generation k s <= store_generation k (happens events s))%Z ∧
  (Invalidated k ∈ events → store_generation k s < store_generation k (happens events s))%Z.
Proof.
  revert s. induction events as [|e events IH]; intros s; cbn [happens fold_left].
  - split; [cbn; lia|]. intros H. by apply elem_of_nil in H.
  - destruct (happen_generation k e s) as [H1 H2], (IH (happen s e)) as [H3 H4].
    unfold happens in *. split; [lia|]. intros [<-|Hin]%elem_of_cons; [specialize (H2 eq_refl)|specialize (H4 Hin)]; lia.
Qed.

Lemma happen_disposed e s : s.(cs_disposed) = true → (happen s e).(cs_disposed) = true.
Proof.
  intros Hd. destruct e as [k acc session rec g|k| |authority]; cbn; [|done| |done].
  - by destruct (activate_cases k acc session rec g s) as [->|(_ & _ & ->)].
  - apply dispose_fields.
Qed.

Lemma happens_disposed events s :
  (s.(cs_disposed) = true ∨ Disposed ∈ events) → (happens events s).(cs_disposed) = true.
Proof.
  revert s. induction events as [|e events IH]; intros s H; cbn.
  - destruct H as [H|H]; [done|by apply elem_of_nil in H].
  - apply IH. destruct H as [H|[<-|H]%elem_of_cons]; [left; by apply happen_disposed| |by right].
    left. apply dispose_fields.
Qed.

(** A session that connected under the generation read at the start of its
    connection becomes active only if nothing invalidated the account or disposed of the
    store in between: a late activation changes nothing. *)
Theorem late_activations_change_nothing (k : AccountKey) (s : CapabilityStore)
    (events : list store_event) (remoteAccountId : RemoteAccountId) (session : nat) (reconciler : bool) :
  Exists (takes_away k) events →
  let s' := happens events s in
  activate k remoteAccountId session reconciler (store_generation k s) s' = s'.
Proof.
  intros (e & He & Htakes)%Exists_exists s'. destruct (activate_cases k remoteAccountId session reconciler
    (store_generation k s) s') as [?|(Hd & Hg & _)]; [done|]. exfalso. destruct Htakes as [-> | ->].
  - destruct (happens_generation k events s) as [_ H]. specialize (H He). fold s' in H. lia.
  - unfold s' in Hd. rewrite happens_disposed in Hd; [done|by right].
Qed.

(** ** The composed application *)

(** What is seen of a connection: the delegate's answers, and the state before and after
    each step on the composition. *)
Record Connecting : Type := mkConnecting {
  connection : option (AccountKey * option (RemoteSession * bool));
  auths : list RemoteAuthState;
  local_account : option Account;
  failures : list exn;
  steps : list (Composition * Composition);
}.
Definition nothing_seen : Connecting := mkConnecting None [] None [] [].

Definition connecting_watch (request : RemoteConnectRequest) X (m : Connecting) (c : DelegateCall X) :
    outcome exn X → Connecting :=
  match c in DelegateCall X return outcome exn X → Connecting with
  | DelegateConnect _ => λ r, match r with
      | Return answer => mkConnecting (Some answer) m.(auths) m.(local_account) m.(failures) m.(steps)
      | Throw e => mkConnecting m.(connection) m.(auths) m.(local_account) (m.(failures) ++ [e]) m.(steps)
      end
  | DelegateStatus _ => λ r, match r with
      | Return auth => mkConnecting m.(connection) (m.(auths) ++ [auth]) m.(local_account) m.(failures) m.(steps)
      | Throw e => mkConnecting m.(connection) m.(auths) m.(local_account) (m.(failures) ++ [e]) m.(steps)
      end
  | DelegateReadAccount _ => λ r, match r with
      | Return (PortOk (EntityPresent account)) =>
          mkConnecting m.(connection) m.(auths) (Some account) m.(failures) m.(steps)
      | Return _ => m
      | Throw e => mkConnecting m.(connection) m.(auths) m.(local_account) (m.(failures) ++ [e]) m.(steps)
      end
  | _ => λ _, m
  end.

(** The delegate is asked to connect as the caller asked, once, and about no other account. *)
Definition connecting_allowed (request : RemoteConnectRequest) X (m : Connecting) (c : DelegateCall X) : Prop :=
  match c with
  | DelegateConnect r => r = request ∧ m.(connection) = None ∧ m.(failures) = []
  | DelegateStatus k | DelegateReadAccount k => k = request.(request_accountKey)
  | _ => False
  end.

Definition connecting_monitor (request : RemoteConnectRequest) : monitor DelegateCall Connecting :=
  {| allowed := connecting_allowed request; watch := connecting_watch request; possible := λ _ _ _, True |}.

Definition step_seen (before after : Composition) (m : Connecting) : Connecting :=
  mkConnecting m.(connection) m.(auths) m.(local_account) m.(failures) (m.(steps) ++ [(before, after)]).

(** The session to lend and the account it is bound to: the delegate connected and opened a
    session, it said that the account is authenticated before and after the local account was
    read, and the remote id of that account is one of the session's. *)
Definition to_lend (m : Connecting) : option (RemoteAccountId * nat * bool) :=
  match m.(connection), m.(auths), m.(local_account) with
  | Some (_, Some (session, reconciler)), [authenticated; authenticated], Some account =>
      let id := account.(remoteRef).(jmapAccountId) in
      if negb (is_empty id) && bool_decide (id ∈ List.map descriptor_id session.(session_accounts))
      then Some (id, session.(session_handle), reconciler) else None
  | _, _, _ => None
  end.

(** Lending: unless the store was disposed of, the account was invalidated or is not
    authenticated any more, the account has the new capability, and nothing else changes. *)
Definition lends (k : AccountKey) (id : RemoteAccountId) (handle : nat) (reconciler : bool)
    (began before after : CapabilityStore) : Prop :=
  if before.(cs_disposed) || negb (store_generation k before =? store_generation k began)%Z || negb (has_status k before)
  then after = before
  else
    map_get k after.(cs_active) =
      Some (mkCapability before.(cs_next) k id handle reconciler (store_generation k began)) ∧
    (∀ k', k' ≠ k → map_get k' after.(cs_active) = map_get k' before.(cs_active)) ∧
    after.(cs_generations) = before.(cs_generations) ∧ after.(cs_disposed) = false ∧
    after.(cs_statusAuthority) = before.(cs_statusAuthority) ∧ after.(cs_next) = S before.(cs_next).

Lemma activate_lends k id handle reconciler began before :
  lends k id handle reconciler began before (activate k id handle reconciler (store_generation k began) before).
Proof.
  unfold lends, activate. destruct (_ || _ || _) eqn:Hguard; [done|]. bool_hyps. cbn. split_and!; try done.
  - apply map_get_set_eq.
  - intros k' Hne. rewrite map_get_set. by rewrite decide_False.
Qed.

(** A store in which the account was invalidated since [began], or which was disposed of,
    lends nothing. *)
Lemma overtaken_lends_nothing k id handle reconciler began events after :
  Exists (takes_away k) events → lends k id handle reconciler began (happens events began) after →
  after = happens events began.
Proof.
  unfold lends. intros (e & He & [-> | ->])%Exists_exists.
  - destruct (happens_generation k events began) as [_ Hlt]. specialize (Hlt He).
    rewrite (proj2 (Z.eqb_neq _ _)) by lia. by rewrite orb_true_r.
  - rewrite happens_disposed; [done|by right].
Qed.

(** How the steps of a connection leave the store of capabilities. *)
Definition only_lends (k : AccountKey) (m : Connecting) : Prop :=
  match to_lend m with
  | None => Forall (λ step, step.2 = step.1) m.(steps)
  | Some (id, handle, reconciler) =>
      ∃ began second before after, m.(steps) = [(began, began); (second, second); (before, after)] ∧
        after.(composition_disposed) = before.(composition_disposed) ∧
        lends k id handle reconciler began.(capabilities) before.(capabilities) after.(capabilities)
  end.

Definition resolves_as_delegate (r : outcome exn AccountKey) (m : Connecting) : Prop :=
  match r with
  | Return result => m.(failures) = [] ∧ ∃ session, m.(connection) = Some (result, session)
  | Throw e => m.(failures) = [e] ∨
      ∃ account, m.(local_account) = Some account ∧ account.(remoteRef).(jmapAccountId) = ""
  end.

Lemma session_has_account id (descriptors : list RemoteAccountDescriptor) :
  existsb (λ value, bool_decide (value.(descriptor_id) = id)) descriptors =
  bool_decide (id ∈ List.map descriptor_id descriptors).
Proof.
  apply eq_true_iff_eq. rewrite bool_decide_eq_true, existsb_exists, list_elem_of_In, in_map_iff. split.
  - intros (d & Hd & He%bool_decide_eq_true). by exists d.
  - intros (d & <- & Hd). exists d. split; [done|]. by apply bool_decide_eq_true_2.
Qed.

(** The steps after the delegate has connected. *)
Lemma activation_lends request s0 result session :
  let k := request.(request_accountKey) in
  watched (connecting_monitor request) step_seen
    (activateAfterBinding k (store_generation k s0.(capabilities)) session)
    (mkConnecting (Some (result, session)) [] None [] [(s0, s0)])
    (λ r m, only_lends k m ∧ resolves_as_delegate (_ ← r; Return result) m).
Proof.
  intros k. unfold activateAfterBinding, is_authenticated.
  set (first := [(s0, s0)]).
  assert (∀ auths local failures s1, to_lend (mkConnecting (Some (result, session)) auths local failures []) = None →
    only_lends k (mkConnecting (Some (result, session)) auths local failures (first ++ [(s1, s1)]))) as Hnone.
  { intros auths local failures s1 H. unfold only_lends.
    change (to_lend (mkConnecting _ auths local failures (first ++ [(s1, s1)])))
      with (to_lend (mkConnecting (Some (result, session)) auths local failures [])). rewrite H. by repeat constructor. }
  apply watched_bind, watched_atomic. intros s1. cbn [read fst snd step_seen connection auths local_account failures steps].
  destruct session as [[session reconciler]|]; [|by split; [apply Hnone|split; [done|by eexists]]].
  destruct (composition_disposed s1); [by split; [apply Hnone|split; [done|by eexists]]|].
  apply watched_bind, watched_bind, watched_outside; [done|].
  intros [auth|e] _; [|by split; [apply Hnone|left]]. cbn [watch connecting_monitor connecting_watch app].
  cbn [watched]. destruct (decide (auth = authenticated)) as [->|Hno].
  2: { rewrite (bool_decide_eq_false_2 _ Hno). split; [|split; [done|by eexists]]. apply Hnone. by destruct auth. }
  rewrite bool_decide_eq_true_2 by done. cbn [negb].
  apply watched_bind, watched_outside; [done|]. intros [local|e] _; [|by split; [apply Hnone|left]].
  destruct local as [[|account]|]; [by split; [apply Hnone|split; [done|by eexists]]| |by split; [apply Hnone|split; [done|by eexists]]].
  cbn [watch connecting_monitor connecting_watch].
  apply watched_bind, watched_bind, watched_outside; [done|].
  intros [auth|e] _; [|by split; [apply Hnone|left]]. cbn [watch connecting_monitor connecting_watch app].
  cbn [watched]. destruct (decide (auth = authenticated)) as [->|Hno].
  2: { rewrite (bool_decide_eq_false_2 _ Hno). split; [|split; [done|by eexists]]. apply Hnone. by destruct auth. }
  rewrite bool_decide_eq_true_2 by done. cbn [negb].
  apply watched_bind, watched_outcome. unfold selected_account, Remote.remoteAccountId.
  destruct (is_empty account.(remoteRef).(jmapAccountId)) eqn:Hempty.
  { assert (account.(remoteRef).(jmapAccountId) = "") as Hid by by destruct (jmapAccountId _).
    rewrite Hid. split; [|right; by exists account]. apply Hnone. cbn. by rewrite Hid. }
  unfold remoteAccountIdFromString, remoteIdFromString. rewrite Hempty. cbn [throw_if mbind outcome_mbind outcome_bind].
  rewrite session_has_account. case_bool_decide as Hin; [|split; [|split; [done|by eexists]]].
  2: { apply Hnone. cbn. rewrite (bool_decide_eq_false_2 _ Hin). by rewrite andb_false_r. }
  apply watched_atomic. intros s2. cbn [modify fst snd].
  split; [|split; [done|by eexists]]. unfold only_lends. cbn [to_lend step_seen connection auths local_account steps app].
  rewrite Hempty, (bool_decide_eq_true_2 _ Hin). cbn [andb negb].
  exists s0, s1, s2, (on_capabilities (activate k account.(remoteRef).(jmapAccountId) session.(session_handle) reconciler
    (store_generation k s0.(capabilities))) s2).
  split_and!; [done|done|apply activate_lends].
Qed.

(** C32: Whatever happens between its steps, a connection through the composed application
    asks the delegate to connect once and resolves as it does, unless reading the status or the
    local account fails or that account has no remote id.  It lends the session exactly if
    the delegate opened one, the account was authenticated before and after the local account
    was read, and the account is bound to one of the session's: then the account gets that
    session's capability, unless meanwhile the account was invalidated, the store disposed of
    or the status lost; otherwise, and for every other account, nothing changes in the store.
    So a session of a connection that was overtaken is never lent. *)
Theorem only_bound_sessions_are_lent (request : RemoteConnectRequest) :
  let k := request.(request_accountKey) in
  watched (connecting_monitor request) step_seen (composed_connect request) nothing_seen
    (λ r m, only_lends k m ∧ resolves_as_delegate r m) ∧
  (∀ id handle reconciler began events after, Exists (takes_away k) events →
     lends k id handle reconciler began (happens events began) after → after = happens events began).
Proof.
  intros k. split; [|intros; by eapply overtaken_lends_nothing].
  unfold composed_connect. fold k. apply watched_bind, watched_atomic. intros s0. cbn [read fst snd step_seen].
  apply watched_bind, watched_outside; [done|]. intros [[result session]|e] _.
  2: { split; [by repeat constructor|by left]. }
  apply watched_bind. eapply watched_mono; [|apply activation_lends].
  intros [[]|e] m [Hlends Hend]; (split; [exact Hlends|]); [|exact Hend]. exact Hend.
Qed.

(** ** Witnesses *)

Module CapabilityFixtures.
Definition connected : CapabilityStore :=
  activate "A1" "r1" 7 true 0 (setStatusAuthority (λ _, true) new_store).
Definition lent : ActiveBodyCapability := mkCapability 0 "A1" "r1" 7 true 0.
End CapabilityFixtures.
Import CapabilityFixtures.

Lemma answers_come_from_the_current_session_witness :
  finish_mutation lent (Return tt) (happens [Invalidated "A2"] connected) =
    (Return tt, happens [Invalidated "A2"] connected) ∧
  Forall (λ e, ¬ takes_away "A1" e) [Invalidated "A2"] ∧
  (finish_mutation (A := unit) lent (Return tt) (happens [Invalidated "A1"] connected)).1 =
    Throw (source_failure failure_cancelled).
Proof.
  assert (store_wf connected) as Hwf.
  { apply activate_wf. destruct new_store_wf. split; assumption. }
  split; [vm_compute; reflexivity|]. split; [|vm_compute; reflexivity].
  destruct (answers_come_from_the_current_session (A := unit) "A1" connected lent [Invalidated "A2"] Hwf)
    as [H _].
  apply (H eq_refl (Return tt) tt (happens [Invalidated "A2"] connected)). vm_compute. reflexivity.
Defined.

Lemma late_activations_change_nothing_witness :
  map_get "A1" (activate "A1" "r1" 8 true (store_generation "A1" connected)
                  (happens [Invalidated "A1"] connected)).(cs_active) = None.
Proof.
  rewrite (late_activations_change_nothing "A1" connected [Invalidated "A1"] "r1" 8 true).
  - vm_compute. reflexivity.
  - left. left. reflexivity.
Defined.

(** A session that is bound while nothing else happens is lent; one whose account is
    disconnected meanwhile is not. *)
Module CompositionFixtures.
Definition request : RemoteConnectRequest := mkConnectRequest "A1" "imap.example.org" (ConfigGmail "ana" "ref").
Definition session : RemoteSession := mkRemoteSession 7 [mkDescriptor "r1" []].
Definition account_one : Account := account "A1" (mkRemoteAccountRef "imap.example.org" "r1").
Definition bound X (c : DelegateCall X) : outcome exn X :=
  match c in DelegateCall X return outcome exn X with
  | DelegateConnect _ => Return ("A1", Some (session, true))
  | DelegateStatus _ => Return authenticated
  | DelegateReadAccount _ => Return (Ports.PortOk (Ports.EntityPresent account_one))
  | DelegateDisconnect _ | DelegateRefresh _ | DelegateDispose => Return tt
  end.
Definition disconnected_meanwhile X (c : DelegateCall X) : list store_event :=
  match c with DelegateReadAccount k => [Invalidated k] | _ => [] end.
(** The calls of the composed application, answered so; meanwhile the store changes. *)
Definition answered_so (meanwhile : ∀ X, DelegateCall X → list store_event) X (c : DelegateCall X) (s : Composition) :
    outcome exn X * Composition := (bound X c, on_capabilities (happens (meanwhile X c)) s).
Definition composition : Composition := mkComposition (setStatusAuthority (λ _, true) new_store) false.
End CompositionFixtures.
Import CompositionFixtures.

Lemma only_bound_sessions_are_lent_witness :
  let undisturbed := watch_run (connecting_monitor request) step_seen (answered_so (λ _ _, []))
    (composed_connect request) composition nothing_seen in
  let overtaken := watch_run (connecting_monitor request) step_seen (answered_so disconnected_meanwhile)
    (composed_connect request) composition nothing_seen in
  undisturbed.1 = Return "A1" ∧ only_lends "A1" undisturbed.2 ∧
  (snd <$> last undisturbed.2.(steps)) = Some (mkComposition connected false) ∧
  (∀ after, lends "A1" "r1" 7 true composition.(capabilities) (happens [Invalidated "A1"] composition.(capabilities)) after →
     after.(cs_active) = map_new) ∧
  (λ step, step.2.(capabilities).(cs_active)) <$> last overtaken.2.(steps) = Some map_new.
Proof.
  destruct (only_bound_sessions_are_lent request) as [H Hovertaken].
  pose proof (watched_run (connecting_monitor request) step_seen (answered_so (λ _ _, [])) _ composition nothing_seen _
    (λ _ _ _, Logic.I) H) as [Hlends _].
  split_and!; [reflexivity|exact Hlends|reflexivity| |reflexivity].
  intros after Hafter. apply Hovertaken in Hafter as ->; [reflexivity|left; by left].
Defined.
