(* ===== verification/ApplicationTheorems.v ===== *)
(** * What the remote application guarantees

    Any number of its methods may run at once, a listener may call it back in the middle
    of a publication, and a connection may answer anything: the sessions are accounted
    for, and the statuses tell the truth. *)

From S2P Require Import Prelude.
From S2P Require Import JsNumber.
From S2P Require Import JsString.
From S2P Require Import JsCollections.
From S2P Require Import Errors.
From S2P Require Import DomainIds.
From S2P Require Import Ports.
From S2P Require Import MailStore.
From S2P Require Import EngineInterface.
From S2P Require Import Remote.
From S2P Require Import Prog.
From S2P Require Import SharedState.
From S2P Require Import RemoteApplication.
From S2P Require Import RemoteLifecycle.
From Stdlib Require Import ZArith Lia.
Open Scope string_scope.
Open Scope list_scope.

(** ** The methods, as requests *)

Inductive AppRequest : Type :=
| Connect (request : RemoteConnectRequest)
| Disconnect (accountKey : AccountKey)
| RefreshAccount (accountKey : AccountKey)
| GetStatus (accountKey : AccountKey)
| Subscribe (accountKey : AccountKey) (listener : nat)
| Unsubscribe (subscription : nat)
| Dispose.

Definition serve (rounds : nat) (request : AppRequest) : app_method unit :=
  match request with
  | Connect request => _ ← connect rounds request; Ret tt
  | Disconnect accountKey => disconnect rounds accountKey
  | RefreshAccount accountKey => refreshAccount rounds accountKey
  | GetStatus accountKey => _ ← atomically (read (getStatus accountKey)); Ret tt
  | Subscribe accountKey listener => _ ← app_subscribe accountKey listener; Ret tt
  | Unsubscribe subscription => atomically (modify (app_unsubscribe subscription))
  | Dispose => app_dispose
  end.

Lemma owned_serve rounds request :
  owned app_wf guarantee held_sessions app_opens app_closes (serve rounds request) [] (λ _, True) ends_well.
Proof.
  assert (∀ {A} (p : app_method A),
    owned app_wf guarantee held_sessions app_opens app_closes p [] (λ _, True) ends_well →
    owned app_wf guarantee held_sessions app_opens app_closes (_ ← p; Ret tt) [] (λ _, True) ends_well) as Hunit.
  { intros A p Hp. apply owned_bind. eapply owned_mono; [|exact Hp]. intros [a|e] own known [-> Hfail].
    - apply ends_returning.
    - split; [done|]. intros e' [= <-]. by apply Hfail. }
  destruct request; cbn [serve].
  - apply Hunit, owned_connect.
  - apply owned_disconnect.
  - apply owned_refreshAccount.
  - apply Hunit, owned_look; [apply guarantee_refl|done|done|]. intros. apply ends_returning.
  - apply Hunit, owned_app_subscribe.
  - apply owned_atomic. intros s Hs _. destruct (app_unsubscribe_ok subscription s Hs) as (Hwf & HG & Hheld).
    cbn [modify fst snd]. split_and!; [done|done|]. exists [], (λ _, True). rewrite Hheld.
    split_and!; [done|done|done|apply ends_returning].
  - apply owned_app_dispose.
Qed.

(** An application in use: its state and the sessions that are open. *)
Abbreviation app_reaches := (pool_reaches (accountable app_opens app_closes)).
Definition in_use (rounds : nat) (requests : list AppRequest) :
    system (with_state RemoteApp AppCall) unit (RemoteApp * list nat) :=
  start (List.map (serve rounds) requests) (new_app, []).

Lemma in_use_owned rounds requests σ :
  app_reaches (in_use rounds requests) σ →
  app_wf σ.(world).1 ∧ (∃ owns, σ.(world).2 ≡ₚ held_sessions σ.(world).1 ++ owns) ∧
  (∀ i p r, σ.(programs) !! i = Some p → finished p = Some r → fails_as_application r) ∧
  (Forall (λ p, is_Some (finished p)) σ.(programs) → σ.(world).2 ≡ₚ held_sessions σ.(world).1).
Proof.
  apply (pool_owned app_wf guarantee held_sessions app_opens app_closes fails_as_application);
    [apply guarantee_refl| |apply new_app_wf|done].
  apply Forall_forall. intros p Hp. apply list_elem_of_In, in_map_iff in Hp as (request & <- & _).
  apply owned_serve.
Qed.

(** C8: However the methods of the application interleave, no session is leaked: a session
    that is open is in the registry or in the hands of a method still running, which will
    close it or register it; once every method has ended the open sessions are those of
    the registry, and none is left after [dispose].  A method that fails, fails with a
    [RemoteApplicationError]. *)
Theorem no_session_is_leaked (rounds : nat) (requests : list AppRequest) σ :
  app_reaches (in_use rounds requests) σ →
  let '(app, open) := σ.(world) in
  (∃ in_hand, open ≡ₚ held_sessions app ++ in_hand) ∧
  (∀ i p e, σ.(programs) !! i = Some p → finished p = Some (Throw e) → ∃ kind, e = RemoteApplicationError kind) ∧
  (Forall (λ p, is_Some (finished p)) σ.(programs) →
     open ≡ₚ held_sessions app ∧ (app.(app_isDisposed) = true → open = [])).
Proof.
  intros Hreach. destruct (in_use_owned _ _ _ Hreach) as (Hwf & Hopen & Herr & Hend).
  destruct σ.(world) as [app open]. cbn in *. split_and!; [done| |].
  - intros i p e Hi He. by eapply Herr.
  - intros Hfin. specialize (Hend Hfin). split; [done|]. intros Hd. rewrite held_disposed in Hend by done.
    by apply Permutation_nil_r in Hend.
Qed.

(** C24: The status an observer reads tells what is true of the account, in every
    state the methods can reach: it says [authenticated] exactly when the registry holds a
    session, which is then the account's own and of its current generation; it says
    [authenticating] exactly when a connection is being made; and a disposed application
    has neither. *)
Theorem statuses_tell_the_truth (rounds : nat) (requests : list AppRequest) σ (k : AccountKey) :
  app_reaches (in_use rounds requests) σ →
  let app := σ.(world).1 in
  (auth_of k app = authenticated ↔ is_Some (session_of k app)) ∧
  (auth_of k app = authenticating ↔ is_Some (pending_of k app)) ∧
  (∀ active, session_of k app = Some active →
     active.(active_accountKey) = k ∧ active.(active_generation) = generation_of k app ∧
     pending_of k app = None) ∧
  (app.(app_isDisposed) = true → session_of k app = None ∧ pending_of k app = None).
Proof.
  intros Hreach app. destruct (in_use_owned _ _ _ Hreach) as (Hwf & _).
  pose proof (wf_account _ Hwf k) as Hk. fold app in Hk. unfold account_ok in Hk.
  assert (∀ {A}, ¬ is_Some (@None A)) as Hnot by (intros A [? [=]]).
  destruct (session_of k app) as [active|], (pending_of k app) as [g|]; [done|..].
  - destruct Hk as (Hkey & Hgen & Hauth & Hd & _). rewrite Hauth, Hd. split_and!; [naive_solver..| |done].
    intros ? [= <-]. unfold generation_of. by rewrite Hgen.
  - destruct Hk as (Hgen & Hauth & Hd). rewrite Hauth, Hd. split_and!; naive_solver.
  - destruct Hk as (H1 & H2). split_and!; naive_solver.
Qed.

(** ** A connection on its own

    The calls out are answered by [env], which may answer the ports differently each
    time; the second component of the state counts the calls of the ports and lists the
    sessions that were closed and the statuses that were published. *)

Section alone.
Context (env : nat → ∀ X, AppCall X → outcome exn X).

Record trace : Type := mkTrace {
  asked : nat;
  closed : list nat;
  published : list (nat * RemoteAccountStatus);
}.

Definition traced {X} (c : AppCall X) (t : trace) : trace :=
  match c with
  | CloseSession session => mkTrace t.(asked) (t.(closed) ++ [session]) t.(published)
  | AppPort _ => mkTrace (S t.(asked)) t.(closed) t.(published)
  | NotifyListener listener status => mkTrace t.(asked) t.(closed) (t.(published) ++ [(listener, status)])
  | _ => t
  end.

Definition alone X (c : with_state RemoteApp AppCall X) (w : RemoteApp * trace) : outcome exn X * (RemoteApp * trace) :=
  match c in with_state _ _ X return outcome exn X * (RemoteApp * trace) with
  | Atomic f => ((f w.1).1, ((f w.1).2, w.2))
  | Outside c => (env w.2.(asked) _ c, (w.1, traced c w.2))
  end.

Lemma run_atomically {X A} (f : app_action X) (g : X → app_method A) w :
  run alone (atomically f ≫= g) w =
    match f w.1 with
    | (Return x, s) => run alone (g x) (s, w.2)
    | (Throw e, s) => (Throw e, (s, w.2))
    end.
Proof. unfold atomically. rewrite run_await. cbn. by destruct (f w.1) as [[x|e] s]. Qed.

Lemma run_outside {X A} (c : AppCall X) (g : X → app_method A) w :
  run alone (outside c ≫= g) w =
    match env w.2.(asked) X c with
    | Return x => run alone (g x) (w.1, traced c w.2)
    | Throw e => (Throw e, (w.1, traced c w.2))
    end.
Proof. unfold outside. rewrite run_await. cbn. by destruct (env _ X c). Qed.

Lemma run_attempt {A B} (p : app_method A) (g : outcome exn A → app_method B) w :
  run alone (attempt p ≫= g) w = run alone (g (run alone p w).1) (run alone p w).2.
Proof.
  unfold attempt. rewrite run_mbind, run_try, run_mbind. by destruct (run alone p w) as [[a|e] w'].
Qed.

Lemma run_outcome {A} (m : outcome exn A) w : run alone (of_outcome m) w = (m, w).
Proof. by destruct m. Qed.

(** The listeners a walk still has to visit. *)
Definition to_notify (set position : nat) (s : RemoteApp) : list nat :=
  omap id (drop position (default [] (s.(app_sets) !! set))).

(** A walk that no listener disturbs visits every position from its own on. *)
Lemma run_walk fuel set position status s t :
  (length (default [] (s.(app_sets) !! set)) < fuel + position)%nat →
  run alone (walk fuel set position status) (s, t) =
    (Return tt, (s, mkTrace t.(asked) t.(closed)
                      (t.(published) ++ List.map (λ listener, (listener, status)) (to_notify set position s)))).
Proof.
  unfold to_notify. revert position t. induction fuel as [|fuel IH]; intros position t Hfuel; cbn [walk].
  - rewrite drop_ge by lia. cbn. rewrite app_nil_r. by destruct t.
  - rewrite run_atomically. cbn [read fst snd].
    destruct (default [] (s.(app_sets) !! set) !! position) as [entry|] eqn:Hentry.
    + rewrite (drop_S _ _ _ Hentry). destruct entry as [listener|]; cbn [omap list_omap id].
      * unfold notify. rewrite run_mbind, run_mbind. unfold attempt. rewrite run_try, run_outside. cbn [fst snd traced].
        destruct (env _ _ _); cbn [run]; rewrite IH by lia; cbn; by rewrite <- (assoc (++)).
      * rewrite IH by lia. done.
    + apply lookup_ge_None_1 in Hentry. rewrite drop_ge by done. cbn. rewrite app_nil_r. by destruct t.
Qed.

(** The listeners of an account, in the order they will be called. *)
Definition listeners_of (k : AccountKey) (s : RemoteApp) : list nat :=
  match map_get k s.(app_listeners) with Some set => to_notify set 0 s | None => [] end.
Definition longest_set (s : RemoteApp) : nat := list_max (List.map length s.(app_sets)).

Lemma set_is_short set s : (length (default [] (s.(app_sets) !! set)) <= longest_set s)%nat.
Proof.
  unfold longest_set. destruct (s.(app_sets) !! set) as [entries|] eqn:Hset; cbn; [|lia].
  pose proof (proj1 (list_max_le (List.map length s.(app_sets)) _) (Nat.le_refl _)) as Hall.
  rewrite List.Forall_forall in Hall. apply Hall, in_map_iff. exists entries. split; [done|].
  apply list_elem_of_In. by eapply list_elem_of_lookup_2.
Qed.

Definition announced (p : publication) (s : RemoteApp) : list (nat * RemoteAccountStatus) :=
  match p with
  | Some (Some set, status) => List.map (λ listener, (listener, status)) (to_notify set 0 s)
  | _ => []
  end.

Lemma run_announce {A} rounds p (g : unit → app_method A) s t :
  (longest_set s < rounds)%nat →
  run alone (announce rounds p ≫= g) (s, t) =
    run alone (g tt) (s, mkTrace t.(asked) t.(closed) (t.(published) ++ announced p s)).
Proof.
  intros Hrounds. rewrite run_mbind. unfold announce, announced.
  destruct p as [[[set|] status]|]; cbn [run]; [|by rewrite app_nil_r; destruct t..].
  rewrite run_walk by (pose proof (set_is_short set s); lia). done.
Qed.

Lemma set_status_sets k status s : (set_status k status s).2.(app_sets) = s.(app_sets).
Proof. unfold set_status. by case_bool_decide. Qed.

(** A status that changes is stored and handed to every listener of its account,
    in order and once each; one that stays is not published.  A walk of the set takes no
    more rounds than it has positions, so it ends. *)
Theorem changed_statuses_are_published (rounds : nat) (k : AccountKey) (status : RemoteAccountStatus)
    (s : RemoteApp) (t : trace) :
  (longest_set s < rounds)%nat →
  let '(r, (s', t')) := run alone (publishStatus rounds k status) (s, t) in
  r = Return tt ∧ getStatus k s' = status ∧ (∀ k', k' ≠ k → getStatus k' s' = getStatus k' s) ∧
  t' = mkTrace t.(asked) t.(closed)
         (t.(published) ++ if bool_decide (getStatus k s = status) then []
                           else List.map (λ listener, (listener, status)) (listeners_of k s)).
Proof.
  intros Hrounds. unfold publishStatus. rewrite run_atomically. cbn [fst snd].
  pose proof (changes_set_status k status s) as Hch.
  unfold set_status in *. case_bool_decide as Hsame.
  - cbn. split_and!; [done|by destruct t|done|]. rewrite app_nil_r. by destruct t.
  - set (s1 := put_statuses _ s) in *. cbn [snd] in Hch.
    assert (getStatus k s1 = status) as Hk by (unfold getStatus; cbn; by rewrite map_get_set_eq).
    unfold announce, listeners_of. destruct (map_get k s.(app_listeners)) as [set|].
    + rewrite run_walk by (pose proof (set_is_short set s); cbn; lia). cbn.
      split_and!; [done|done|exact (changes_status k s s1 Hch)|done].
    + cbn [run]. split_and!; [done|done|exact (changes_status k s s1 Hch)|]. rewrite app_nil_r. by destruct t.
Qed.

(** ** What [connect] comes to *)

(** The account the session stands for: the one the store knows under this key, if the
    service is the same and the session offers it; else the only one the session offers,
    which is registered; a registration that lost a race is checked against the winner. *)
Definition same_binding (service : ServiceKey) (local : Account) (offered : list RemoteAccountId) :
    outcome exn RemoteAccountId :=
  if bool_decide (local.(remoteRef).(serviceKey) = service) then
    expected ← remoteAccountId local.(remoteRef).(jmapAccountId);
    if bool_decide (expected ∈ offered) then Return expected else Throw (app_failure app_accountMismatch)
  else Throw (app_failure app_accountMismatch).

Definition binding (k : AccountKey) (service : ServiceKey) (offered : list RemoteAccountId) :
    outcome exn RemoteAccountId :=
  known ← env 0 _ (AppPort (ReadAccount k));
  match known, offered with
  | PortError _, _ => Throw (app_failure app_local)
  | PortOk (EntityPresent local), _ => same_binding service local offered
  | PortOk EntityAbsent, [selected] =>
      id ← localAccountId selected;
      write ← env 1 _ (AppPort (Write (OpRegisterAccount (account k (remoteAccountRef service id)))));
      match write with
      | PortOk _ => Return selected
      | PortError write_conflict =>
          winner ← env 2 _ (AppPort (ReadAccount k));
          match winner with
          | PortError _ => Throw (app_failure app_local)
          | PortOk EntityAbsent => Throw (app_failure app_accountMismatch)
          | PortOk (EntityPresent local) => same_binding service local [selected]
          end
      | PortError _ => Throw (app_failure app_local)
      end
  | PortOk EntityAbsent, _ => Throw (app_failure app_accountSelectionRequired)
  end.

Lemma run_authority {A} k g (h : unit → app_method A) s t :
  hasConnectAuthority k g s = true →
  run alone (atomically (assertConnectAuthority k g) ≫= h) (s, t) = run alone (h tt) (s, t).
Proof. intros H. rewrite run_atomically. unfold assertConnectAuthority. cbn [fst]. by rewrite H. Qed.

Lemma run_resolveBinding k service session g s closes pubs :
  hasConnectAuthority k g s = true →
  ∃ n, run alone (resolveBinding k service session g) (s, mkTrace 0 closes pubs) =
    (binding k service (List.map descriptor_id session.(session_accounts)), (s, mkTrace n closes pubs)).
Proof.
  intros Hauth. unfold resolveBinding, binding. rewrite run_outside. cbn [fst snd traced asked closed published].
  destruct (env 0 _ _) as [[[|local]|]|e]; cbn [mbind outcome_mbind outcome_bind]; try rewrite run_authority by done.
  - destruct session.(session_accounts) as [|descriptor [|]]; cbn [List.map]; [by eexists| |by eexists].
    rewrite run_mbind, run_outcome. destruct (localAccountId _) as [id|]; [|by eexists].
    rewrite run_outside. cbn [fst snd traced asked closed published].
    cbn [mbind outcome_mbind outcome_bind].
    destruct (env 1 _ _) as [[|[]]|e]; try rewrite run_authority by done; try by eexists.
    rewrite run_outside. cbn [fst snd traced asked closed published].
    destruct (env 2 _ _) as [[[|local]|]|e]; try rewrite run_authority by done; try by eexists.
    cbn [mbind outcome_mbind outcome_bind].
    unfold same_binding. case_bool_decide as Hservice; [|by eexists].
    rewrite run_mbind, run_outcome. destruct (remoteAccountId _) as [known|]; [|by eexists].
    cbn [mbind outcome_mbind outcome_bind].
    destruct (decide (known = descriptor.(descriptor_id))) as [->|Hne].
    + rewrite (bool_decide_eq_true_2 (_ = _)) by done. rewrite bool_decide_eq_true_2 by set_solver. by eexists.
    + rewrite (bool_decide_eq_false_2 (_ = _)) by done. rewrite bool_decide_eq_false_2 by set_solver. by eexists.
  - unfold same_binding. case_bool_decide as Hservice; cbn [negb]; [|by eexists].
    rewrite run_mbind, run_outcome. destruct (remoteAccountId _) as [expected|]; [|by eexists].
    cbn [mbind outcome_mbind outcome_bind].
    assert (existsb (λ d, bool_decide (d.(descriptor_id) = expected)) session.(session_accounts) =
      bool_decide (expected ∈ List.map descriptor_id session.(session_accounts))) as ->.
    { apply Bool.eq_iff_eq_true. rewrite existsb_exists, bool_decide_eq_true, list_elem_of_In, in_map_iff.
      split; intros (d & H1 & H2); exists d; [apply bool_decide_eq_true in H2; by split|].
      split; [done|by apply bool_decide_eq_true]. }
    case_bool_decide; by eexists.
  - by eexists.
  - by eexists.
Qed.

Lemma run_closeQuietly {A} session (g : unit → app_method A) s t :
  run alone (closeQuietly session ≫= g) (s, t) =
    run alone (g tt) (s, mkTrace t.(asked) (t.(closed) ++ [session.(session_handle)]) t.(published)).
Proof.
  unfold closeQuietly. rewrite !run_mbind. unfold attempt. rewrite run_try, run_outside.
  cbn [fst snd traced]. by destruct (env _ _ _).
Qed.

(** How an attempt that still has its authority fails. *)
Lemma run_connect_failed {A} rounds k g session error s t :
  app_wf s → pending_of k s = Some g → (longest_set s < rounds)%nat →
  let kind := classifyConnectError error in
  let '(r, (s', t')) := run alone (connect_failed (A := A) rounds k g session error) (s, t) in
  r = Throw (app_failure kind) ∧ session_of k s' = None ∧ pending_of k s' = None ∧
  getStatus k s' = connectFailureStatus kind (bool_decide (is_Some session)) ∧
  t'.(closed) = t.(closed) ++ option_list (session_handle <$> session).
Proof.
  intros Hs Hp Hrounds kind. unfold connect_failed.
  set (opened := bool_decide (is_Some session)).
  assert (∀ t, let '(r, (s', t')) := run alone (A := A)
      ('(kind, p) ← atomically (abandon k g error opened); announce rounds p;; Raise (app_failure kind)) (s, t) in
    r = Throw (app_failure kind) ∧ session_of k s' = None ∧ pending_of k s' = None ∧
    getStatus k s' = connectFailureStatus kind opened ∧ t'.(closed) = t.(closed)) as Hrest.
  { intros t0. rewrite run_atomically. cbn [fst snd].
    assert (begun k g s) as Hg.
    { destruct (has_authority k g s Hs) as (_ & _ & <- & _); [by apply pending_authority|]. unfold begun. lia. }
    destruct (abandon_ok k g error opened s Hs Hg)
      as [(_ & _ & Hno)|(p & s' & -> & _ & _ & _ & _ & Hse & Hst & Hpe & Hsets)].
    { by rewrite (pending_authority k g s Hs Hp) in Hno. }
    rewrite run_announce by (unfold longest_set in *; by rewrite Hsets). cbn [run]. by split_and!. }
  destruct session as [session|]; cbn [fmap option_fmap option_map option_list].
  - rewrite run_closeQuietly. apply Hrest.
  - rewrite app_nil_r. exact (Hrest t).
Qed.

Lemma run_open_session rounds request g p s closes pubs :
  hasConnectAuthority request.(request_accountKey) g s = true → (longest_set s < rounds)%nat →
  run alone (open_session rounds request g p) (s, mkTrace 0 closes pubs) =
    (connection ← env 0 _ (ConnectionFactory request.(request_config)); env 0 _ (OpenConnection connection),
     (s, mkTrace 0 closes (pubs ++ announced p s))).
Proof.
  intros Hauth Hrounds. unfold open_session. rewrite run_announce, run_authority by done.
  rewrite run_outside. cbn [fst snd traced asked closed published].
  destruct (env 0 _ (ConnectionFactory _)) as [connection|e]; [|done]. rewrite run_authority by done.
  cbn. by destruct (env 0 _ (OpenConnection _)).
Qed.

(** C37: A connection that nothing disturbs succeeds or leaves nothing behind.  It
    succeeds when the connection opens and its account can be bound: the session is then
    registered under the bound account, and stays open.  If the connection cannot be
    opened, or the account cannot be bound, the error is classified, the account is left
    disconnected with the status that says why, and the session, if there was one, is
    closed. *)
Theorem connect_is_all_or_nothing (rounds : nat) (request : RemoteConnectRequest) (s : RemoteApp) :
  let k := request.(request_accountKey) in
  app_wf s → s.(app_isDisposed) = false → session_of k s = None → pending_of k s = None →
  (longest_set s < rounds)%nat →
  let opened := connection ← env 0 _ (ConnectionFactory request.(request_config));
                env 0 _ (OpenConnection connection) in
  let '(r, (s', t)) := run alone (connect rounds request) (s, mkTrace 0 [] []) in
  pending_of k s' = None ∧
  let failed error session :=
    r = Throw (app_failure (classifyConnectError error)) ∧ session_of k s' = None ∧
    getStatus k s' = connectFailureStatus (classifyConnectError error) (bool_decide (is_Some session)) ∧
    t.(closed) = option_list (session_handle <$> session) in
  match opened with
  | Throw error => failed error None
  | Return session =>
      match binding k request.(request_serviceKey) (List.map descriptor_id session.(session_accounts)) with
      | Throw error => failed error (Some session)
      | Return remoteId =>
          r = Return k ∧ (∃ n g, session_of k s' = Some (mkActive n k remoteId session g)) ∧
          getStatus k s' = onlineStatus ∧ t.(closed) = []
      end
  end.
Proof.
  intros k Hs Hd Hsess Hpend Hrounds opened. unfold connect. rewrite run_atomically. cbn [fst snd]. fold k.
  destruct (begin_connect_ok k s Hs)
    as [(kind & _ & [H|[H|H]])|(p & s1 & -> & Hwf & _ & _ & Hgen & Hp & Hsets)];
    [congruence|by rewrite Hsess in H; destruct H|by rewrite Hpend in H; destruct H|].
  set (g := (generation_of k s + 1)%Z) in *.
  pose proof (pending_authority k g s1 Hwf Hp) as Hauth.
  assert (longest_set s1 < rounds)%nat as Hrounds1 by (unfold longest_set in *; by rewrite Hsets).
  unfold prog_finally. rewrite run_attempt. match goal with |- context [run alone ?p (s1, _)] => set (body := p) end.
  assert (∀ (P : outcome exn AccountKey → RemoteApp → trace → Prop),
    (let '(r, (s', t)) := run alone body (s1, mkTrace 0 [] []) in pending_of k s' = None ∧ P r s' t) →
    let '(r, (s', t)) := run alone (atomically (modify (forget_pending k g));;
        of_outcome (run alone body (s1, mkTrace 0 [] [])).1) (run alone body (s1, mkTrace 0 [] [])).2 in
    pending_of k s' = None ∧ P r s' t) as Hfinally.
  { intros P H. destruct (run alone body _) as [r [s' t]]. destruct H as [Hnone HP]. cbn [fst snd].
    rewrite run_atomically. cbn [modify fst snd]. rewrite run_outcome.
    assert (forget_pending k g s' = s') as -> by (unfold forget_pending, pending_of in *; by rewrite Hnone).
    done. }
  apply Hfinally. clear Hfinally. subst body. rewrite run_attempt, run_open_session by done. fold opened.
  cbn [fst snd]. destruct opened as [session|error].
  2:{ pose proof (run_connect_failed (A := AccountKey) rounds k g None error s1
        (mkTrace 0 [] ([] ++ announced p s1)) Hwf Hp Hrounds1) as H.
      destruct (run alone _ _) as [r [s' t]]. by destruct H as (-> & Hse & Hpe & Hst & ->). }
  rewrite run_attempt. unfold bind_session. rewrite run_authority by done. rewrite run_mbind.
  fold k. destruct (run_resolveBinding k request.(request_serviceKey) session g s1 [] ([] ++ announced p s1) Hauth)
    as [n ->]. cbn [fst snd].
  destruct (binding k _ _) as [remoteId|error].
  - rewrite run_atomically. cbn [fst snd]. fold k.
    assert (begun k g s1) as Hbegun by (unfold begun; lia).
    destruct (install_ok k remoteId session g s1 Hwf Hbegun)
      as [(_ & Hno)|(p' & s' & -> & _ & _ & _ & _ & Hse & Hst & Hpe & Hsets')]; [congruence|].
    rewrite run_announce by (unfold longest_set in *; by rewrite Hsets'). cbn [run fst snd closed].
    split_and!; try done. by eexists _, _.
  - cbn [fst snd].
    pose proof (run_connect_failed (A := AccountKey) rounds k g (Some session) error s1
        (mkTrace n [] ([] ++ announced p s1)) Hwf Hp Hrounds1) as H. fold k.
    destruct (run alone _ _) as [r [s' t]]. by destruct H as (-> & Hse & Hpe & Hst & ->).
Qed.
End alone.

(** ** Witnesses *)

Module ApplicationFixtures.
Definition ana_request : RemoteConnectRequest :=
  mkConnectRequest "A1" "https://mail.example" (ConfigJmap "https://mail.example/session").
Definition ana_session : RemoteSession := mkRemoteSession 7 [mkDescriptor "acc" ["mail"]].

(** An engine that knows no account, and a server that opens [ana_session]. *)
Definition ana_port X (c : PortCall X) : outcome exn X :=
  match c in PortCall X return outcome exn X with
  | ReadAccount _ => Return (PortOk EntityAbsent)
  | Write _ => Return (PortOk tt)
  | _ => Throw (Error "not asked")
  end.
Definition ana_env (_ : nat) X (c : AppCall X) : outcome exn X :=
  match c in AppCall X return outcome exn X with
  | ConnectionFactory _ => Return 0
  | OpenConnection _ => Return ana_session
  | AppPort c => ana_port _ c
  | CloseSession _ | SyncAccount _ _ _ | NotifyListener _ _ => Return tt
  end.

(** Listeners 3 and 5 follow account A1. *)
Definition watched : RemoteApp :=
  (add_listener "A1" 5 (add_listener "A1" 3 new_app).2).2.
End ApplicationFixtures.
Import ApplicationFixtures.

(** One call of the first program: an action, or a call out with its answer. *)
Ltac act := eapply rtc_l; [eapply (Pool_step _ _ _ _ 0); [reflexivity|cbn; split; reflexivity]|cbn].
Ltac answer r := eapply rtc_l; [eapply (Pool_step _ _ _ _ 0 _ _ _ r); [reflexivity|cbn; reflexivity]|cbn].

(** An account connects for the first time. *)
Lemma connected_reachable : ∃ σ, app_reaches (in_use 10 [Connect ana_request]) σ ∧
  σ.(world).2 = [7] ∧ getStatus "A1" σ.(world).1 = onlineStatus ∧
  session_of "A1" σ.(world).1 = Some (mkActive 0 "A1" "acc" ana_session 1) ∧
  Forall (λ p, is_Some (finished p)) σ.(programs).
Proof.
  eexists. split.
  - unfold in_use, start. cbn [List.map serve].
    act. act. answer (Return 0 : outcome exn nat). act. answer (Return ana_session : outcome exn RemoteSession). act.
    answer (Return (PortOk EntityAbsent) : outcome exn (ReadResult (LocalEntityRead Account))). act.
    answer (Return (PortOk tt) : outcome exn WriteResult). act. act. act. apply rtc_refl.
  - split_and!; [reflexivity..|]. repeat constructor. by eexists.
Defined.

Lemma no_session_is_leaked_witness : ∃ σ : system (with_state RemoteApp AppCall) unit (RemoteApp * list nat),
  σ.(world).2 = [7] ∧ σ.(world).2 ≡ₚ held_sessions σ.(world).1.
Proof.
  destruct connected_reachable as (σ & Hreach & Hopen & Hstatus & Hsession & Hend). exists σ. split; [exact Hopen|].
  pose proof (no_session_is_leaked 10 [Connect ana_request] σ Hreach) as H.
  destruct σ.(world) as [app open]. apply H. exact Hend.
Defined.

Lemma statuses_tell_the_truth_witness : ∃ σ : system (with_state RemoteApp AppCall) unit (RemoteApp * list nat),
  auth_of "A1" σ.(world).1 = authenticated ∧ is_Some (session_of "A1" σ.(world).1).
Proof.
  destruct connected_reachable as (σ & Hreach & Hopen & Hstatus & Hsession & Hend). exists σ.
  assert (auth_of "A1" σ.(world).1 = authenticated) as Hauth by (unfold auth_of; by rewrite Hstatus).
  split; [exact Hauth|]. by apply (statuses_tell_the_truth 10 [Connect ana_request] σ "A1" Hreach).
Defined.

Lemma connect_is_all_or_nothing_witness :
  let '(r, (s', t)) := run (alone ana_env) (connect 5 ana_request) (watched, mkTrace 0 [] []) in
  r = Return "A1" ∧ getStatus "A1" s' = onlineStatus ∧ t.(closed) = [].
Proof.
  pose proof (connect_is_all_or_nothing ana_env 5 ana_request watched) as H.
  assert (app_wf watched) as Hwf.
  { destruct (add_listener_ok "A1" 3 new_app new_app_wf) as (r1 & s1 & H1 & Hwf1 & _).
    destruct (add_listener_ok "A1" 5 s1 Hwf1) as (r2 & s2 & H2 & Hwf2 & _).
    unfold watched. by rewrite H1; cbn [snd]; rewrite H2. }
  specialize (H Hwf eq_refl eq_refl eq_refl ltac:(vm_compute; lia)).
  destruct (run _ _ _) as [r [s' t]]. cbn in H. destruct H as (_ & -> & _ & Hst & Ht).
  split; [reflexivity|]. split; [exact Hst|exact Ht].
Defined.

Lemma changed_statuses_are_published_witness :
  let '(_, (_, t)) := run (alone ana_env) (publishStatus 5 "A1" onlineStatus) (watched, mkTrace 0 [] []) in
  t.(published) = [(3, onlineStatus); (5, onlineStatus)].
Proof.
  pose proof (changed_statuses_are_published ana_env 5 "A1" onlineStatus watched (mkTrace 0 [] [])
    ltac:(vm_compute; lia)) as H.
  destruct (run _ _ _) as [r [s' t]]. destruct H as (_ & _ & _ & ->). vm_compute. reflexivity.
Defined.
