(* ===== verification/ControllerTheorems.v ===== *)
(** * What the application controller guarantees

    Its methods, however they interleave, keep the screen of one piece
    ([screen_is_coherent]), share their attempts ([attempts_are_exclusive]) and leave none
    behind ([nothing_is_left_in_progress]).  A failed connection forgets the credential it
    obtained ([credentials_are_forgotten]).  A reread that nothing disturbs displays what
    the local store holds ([reread_shows_the_store]). *)

From S2P Require Import Prelude.
From S2P Require Import JsNumber.
From S2P Require Import JsString.
From S2P Require Import JsCollections.
From S2P Require Import Errors.
From S2P Require Import DomainIds.
From S2P Require Import DomainEmail.
From S2P Require Import DomainMailbox.
From S2P Require Import MailboxView.
From S2P Require Import SendIntent.
From S2P Require Import PendingMutation.
From S2P Require Import Ports.
From S2P Require Import MemoryState.
From S2P Require Import MemorySyncPort.
From S2P Require Import MemoryFacts.
From S2P Require Import MemoryInvariant.
From S2P Require Import MailStore.
From S2P Require Import MemoryRefinement.
From S2P Require Import MemoryEngine.
From S2P Require Import EngineInterface.
From S2P Require Import StoreEffects.
From S2P Require Import Remote.
From S2P Require Import Prog.
From S2P Require Import JsText.
From S2P Require Import ImapTheorems.
From S2P Require Import SharedState.
From S2P Require Import Locks.
From S2P Require Import RemoteApplication.
From S2P Require Import Stores.
From S2P Require Import MutationRunner.
From S2P Require Import Application.
From S2P Require Import Controller.
From S2P Require Import ControllerFacts.
From S2P Require Import ControllerLocks.
From S2P Require Import Fixtures.
From Stdlib Require Import ZArith.
Open Scope string_scope.
Open Scope list_scope.
Open Scope js_scope.

Section together.
Context {platform : Platform} (installed : Installed).

(** Methods of the controller, its tasks and what happens around it, run together until
    some point. *)
Definition controller_reaches (ps : list (app unit)) (remote : RemoteView)
    (σ : system (with_state Application ControllerCall) unit Application) : Prop :=
  Forall (controller_method installed) ps ∧
  pool_reaches (given_answers answered_as_asked) (start ps (application_initial remote)) σ.

Lemma coherent_initial remote : coherent installed (application_initial remote).
Proof. split; [apply shows_initial|]. by intros _ _. Qed.

Lemma reached_coherent ps remote σ : controller_reaches ps remote σ → coherent installed σ.(world).
Proof.
  intros [Hps Hreach]. eapply pool_given; [|apply coherent_initial|exact Hreach].
  eapply List.Forall_impl; [|exact Hps]. intros p. apply given_method.
Qed.

(** Whatever methods run and however they interleave, what the stores show is of one
    piece: the mailboxes are those of the selected account, the view is that of the
    selected mailbox, the messages are those of the view in its order, the body is that of
    the selected message, and the connection status is the one the remote application has
    for the observed account.  No late answer to a read is shown for another selection. *)
Theorem screen_is_coherent (ps : list (app unit)) (remote : RemoteView) σ :
  controller_reaches ps remote σ → coherent installed σ.(world).
Proof. apply reached_coherent. Qed.

Lemma reached_locks ps remote σ :
  controller_reaches ps remote σ →
  is_disposed σ.(world) ∨
  attempts_ok σ.(world) ∧
  (∀ i j X Y (c : ControllerCall X) (d : ControllerCall Y) k l n,
     σ.(programs) !! i = Some (Call (Outside c) k) → σ.(programs) !! j = Some (Call (Outside d) l) →
     attempt_under _ c = Some n → attempt_under _ d = Some n → i = j) ∧
  (Forall (λ p, is_Some (finished p)) σ.(programs) → task_locks installed σ.(world) = [] →
   ∀ n, attempt_of σ.(world) n = None).
Proof.
  intros [Hps Hreach%given_shared]. eapply pool_locked; [| |apply attempts_ok_initial| |by intros []|exact Hreach].
  - eapply List.Forall_impl; [|exact Hps]. intros p Hp. by apply method_protocol.
  - eapply List.Forall_impl; [|exact Hps]. intros p Hp. by apply (method_protocol installed p Hp).
  - done.
Qed.

(** C11: Until the controller is disposed, at most one call is in flight that connects an
    account or asks for its credential, at most one that refreshes an
    account, at most one per message that fetches its body and at most one per mutation
    that runs it: a method that finds such an attempt joins it or is refused. *)
Theorem attempts_are_exclusive (ps : list (app unit)) (remote : RemoteView) σ i j X Y
    (c : ControllerCall X) (d : ControllerCall Y) k l (n : AttemptName) :
  controller_reaches ps remote σ → σ.(world).(controller).(c_disposed) = false →
  σ.(programs) !! i = Some (Call (Outside c) k) → σ.(programs) !! j = Some (Call (Outside d) l) →
  attempt_under _ c = Some n → attempt_under _ d = Some n →
  i = j.
Proof.
  intros Hreach Hd. destruct (reached_locks _ _ _ Hreach) as [Hcl|(_ & Hone & _)]; [|by apply Hone].
  unfold is_disposed in Hcl. congruence.
Qed.

End together.

(** ** The credential of a connection *)

(** What an attempt to connect did so far: the credential it obtained, what it asked the
    remote application for, whether that connected, and the credentials it asked the broker
    to forget. *)
Record Attempted : Type := mkAttempted {
  obtained : option string;
  requested : option RemoteConnectRequest;
  connected : bool;
  released : list string;
}.
Definition not_attempted : Attempted := mkAttempted None None false [].

Definition credential_of (config : RemoteConnectionConfig) : option string :=
  match config with ConfigGmail _ credentialRef => Some credentialRef | _ => None end.

Definition attempt_allowed X (m : Attempted) (c : ControllerCall X) : Prop :=
  match c with
  | Authorize _ _ => m = not_attempted
  | RemoteConnect request =>
      m.(requested) = None ∧ m.(released) = [] ∧
      (m.(obtained) = None ∨ credential_of request.(request_config) = m.(obtained))
  | OnAuthenticated => m.(connected) = true
  | _ => True
  end.

Definition attempt_watch X (m : Attempted) (c : ControllerCall X) : outcome exn X → Attempted :=
  match c in ControllerCall X return outcome exn X → Attempted with
  | Authorize _ _ => λ r,
      match r with
      | Return ref => mkAttempted (Some ref) m.(requested) m.(connected) m.(released)
      | Throw _ => m
      end
  | RemoteConnect request => λ r,
      mkAttempted m.(obtained) (Some request) (match r with Return _ => true | Throw _ => false end) m.(released)
  | _ => λ _, m
  end.

Definition connection_monitor : monitor ControllerCall Attempted :=
  {| allowed := attempt_allowed; watch := attempt_watch; possible := λ _ _ _, True |}.

(** What a step adds to the log of credentials to forget. *)
Definition asked_for_release (s s' : Application) (m : Attempted) : Attempted :=
  mkAttempted m.(obtained) m.(requested) m.(connected)
    (m.(released) ++ drop (length s.(forgotten)) s'.(forgotten)).

Section connection.
Context {platform : Platform} (installed : Installed).
Abbreviation watching := (watched connection_monitor asked_for_release).

(** A method that leaves the log alone. *)
Definition forgets_nothing {A} (p : app A) : Prop := ∀ l, method_keeps (λ s, s.(forgotten) = l) p.

Lemma nothing_asked s s' m : s'.(forgotten) = s.(forgotten) → asked_for_release s s' m = m.
Proof. intros Hsame. unfold asked_for_release. rewrite Hsame, drop_all, app_nil_r. by destruct m. Qed.

(** What makes no call of a connection leaves the attempt as it is. *)
Lemma bystander {A} (p : app A) m (Q : outcome exn A → Attempted → Prop) :
  gentle attempts_ok is_disposed attempt_of attempt_quiet attempt_under (task_locks installed) None p →
  forgets_nothing p → (∀ r, Q r m) → watching p m Q.
Proof.
  intros Hp Hf HQ. specialize (Hp tt).
  assert (∀ l, obeys (keeper (λ s, s.(forgotten) = l)) p tt (λ r _, match r with Return _ => True | Throw _ => True end)) as Hlog.
  { intros l. exact (Hf l tt). }
  clear Hf. revert Hp Hlog. induction p as [a|e|X c k IH]; cbn; intros Hp Hlog; [apply HQ..|].
  destruct Hp as [Hc Hk]. destruct c as [X f|X c]; cbn in *.
  - intros s. rewrite nothing_asked by by apply (proj1 (Hlog s.(forgotten))).
    apply IH; [by apply Hk|]. intros l. by apply (proj2 (Hlog l)).
  - assert (attempt_under X c = None) as Hnone.
    { destruct (attempt_under X c) as [n|]; [|done]. by specialize (Hc n eq_refl). }
    split; [by destruct c|]. intros r _.
    assert (attempt_watch X m c r = m) as -> by by destruct c.
    apply IH; [by apply Hk|]. intros l. by apply (proj2 (Hlog l)).
Qed.

(** The steps of a reread leave the log alone. *)
Lemma observe_forgets key s : (observeRemoteStatus installed key s).(forgotten) = s.(forgotten).
Proof.
  unfold observeRemoteStatus, unsubscribe_remote, subscribe_remote, show_nothing, status_listener, show_status.
  repeat case_match; simplify_eq; done.
Qed.
Lemma project_forgets key s : (projectRemoteStatus installed key s).(forgotten) = s.(forgotten).
Proof. unfold projectRemoteStatus, show_status. by repeat case_match. Qed.

Section log.
Context (l : list string).
Abbreviation log_kept := (keeps (λ s : Application, s.(forgotten) = l)).

Ltac keeps_log :=
  repeat first
    [ solve [eauto with keeping]
    | apply keeps_bind; [|intros ?]
    | apply keeps_modify; intros ? <-; first [done | apply observe_forgets]
    | match goal with
      | |- keeps _ (match ?x with _ => _ end) => destruct x
      | |- keeps _ (if ?x then _ else _) => destruct x
      end ].
(** An action that looks at the state and then goes on as another. *)
Ltac log_by_cases :=
  repeat case_match; try done;
  match goal with
  | |- forgotten (snd (?g ?s)) = l =>
      let Hg := fresh in enough (log_kept g) as Hg by (by apply Hg)
  end;
  keeps_log.

Lemma log_generation get put : log_kept (next_generation get put).
Proof. by intros s Hs. Qed.
#[local] Hint Resolve log_generation : keeping.
Lemma log_begin_body : log_kept begin_body.
Proof. unfold begin_body, next_body, in_mail. keeps_log. Qed.
#[local] Hint Resolve log_begin_body : keeping.
Lemma log_receive_body emailId generation result : log_kept (receive_body emailId generation result).
Proof. intros s Hs. unfold receive_body. by repeat case_match. Qed.
Lemma log_finish_body emailId result s : (finishBodyMaterialization emailId result s).(forgotten) = s.(forgotten).
Proof. unfold finishBodyMaterialization. by repeat case_match. Qed.
Lemma log_claim_body emailId : log_kept (claim_body installed emailId).
Proof. intros s Hs. unfold claim_body. repeat case_match; cbn; rewrite ?log_finish_body; done. Qed.
#[local] Hint Resolve log_receive_body log_claim_body : keeping.
Lemma log_demand emailId : log_kept (demandSelectedBody installed emailId).
Proof. intros s Hs. unfold demandSelectedBody. log_by_cases. Qed.
Lemma log_receive_view mailboxId generation result : log_kept (receive_view mailboxId generation result).
Proof. intros s Hs. unfold receive_view. by repeat case_match. Qed.
Lemma log_receive_window mailboxId generation view result : log_kept (receive_window mailboxId generation view result).
Proof. intros s Hs. unfold receive_window, in_mail. log_by_cases. Qed.
Lemma log_begin_window : log_kept begin_window.
Proof. unfold begin_window, next_view, in_mail. keeps_log. Qed.
#[local] Hint Resolve log_demand log_receive_view log_receive_window log_begin_window : keeping.
Lemma log_receive_mailboxes key generation result : log_kept (receive_mailboxes key generation result).
Proof. intros s Hs. unfold receive_mailboxes, in_mail. log_by_cases. Qed.
Lemma log_begin_mailboxes : log_kept begin_mailboxes.
Proof. unfold begin_mailboxes, next_mailboxes. keeps_log. Qed.
#[local] Hint Resolve log_receive_mailboxes log_begin_mailboxes : keeping.
Lemma log_receive_accounts generation result : log_kept (receive_accounts installed generation result).
Proof. intros s Hs. unfold receive_accounts, in_mail. log_by_cases. Qed.
Lemma log_statuses key generation result : log_kept (receive_statuses key generation result).
Proof. intros s Hs. unfold receive_statuses. by repeat case_match. Qed.
Lemma log_begin_statuses key : log_kept (begin_statuses key).
Proof. by intros s Hs. Qed.
#[local] Hint Resolve log_receive_accounts log_statuses log_begin_statuses : keeping.

Lemma log_refreshAccounts : method_keeps (λ s, s.(forgotten) = l) (refreshAccounts installed).
Proof.
  unfold refreshAccounts, next_accounts, accounts_from, mailboxes_from, window_from, body_from,
    refreshMutationStatuses, statuses_from, port. keep_method.
Qed.
End log.

Lemma watching_look {X} (f : Application → X) m (Q : outcome exn X → Attempted → Prop) :
  (∀ s, Q (Return (f s)) m) → watching (look f) m Q.
Proof. intros HQ. apply watched_atomic. intros s. cbn [read fst snd]. by rewrite nothing_asked. Qed.
Lemma watching_change f m (Q : outcome exn unit → Attempted → Prop) :
  (∀ s, (f s).(forgotten) = s.(forgotten)) → Q (Return tt) m → watching (change f) m Q.
Proof. intros Hf HQ. apply watched_atomic. intros s. cbn [modify fst snd]. by rewrite nothing_asked. Qed.

(** The credential obtained is handed to the broker. *)
Lemma watching_forget ref requested connected (Q : outcome exn unit → Attempted → Prop) :
  Q (Return tt) (mkAttempted ref requested connected (option_list ref)) →
  watching (forget_credential ref) (mkAttempted ref requested connected []) Q.
Proof.
  intros HQ. destruct ref as [ref|]; [|done]. apply watched_atomic. intros s.
  unfold asked_for_release, ask_to_forget. cbn. by rewrite drop_app_length.
Qed.

Lemma watching_outside {X A} (c : ControllerCall X) (f : X → app A) m (Q : outcome exn A → Attempted → Prop) :
  attempt_allowed X m c →
  (∀ x, watching (f x) (attempt_watch X m c (Return x)) Q) →
  (∀ e, Q (Throw e) (attempt_watch X m c (Throw e))) →
  watching (outside c ≫= f) m Q.
Proof. intros Hc Hf HQ. apply watched_bind, watched_outside; [done|]. intros [x|e] _; [apply Hf|apply HQ]. Qed.
Lemma watching_looking {X A} (f : Application → X) (g : X → app A) m (Q : outcome exn A → Attempted → Prop) :
  (∀ s, watching (g (f s)) m Q) → watching (look f ≫= g) m Q.
Proof. intros Hg. apply watched_bind, watching_look. exact Hg. Qed.

(** A configuration that needs a credential carries the one obtained. *)
Lemma config_obtained request existing key generation
    (Q : outcome exn ((RemoteConnectionConfig * option string) + AccountConnectionErrorKind) → Attempted → Prop) :
  (∀ config credential, (credential = None ∨ credential_of config = credential) →
     Q (Return (inl (config, credential))) (mkAttempted credential None false [])) →
  (∀ kind ref, Q (Return (inr kind)) (mkAttempted ref None false (option_list ref))) →
  (∀ e, Q (Throw e) not_attempted) →
  watching (connection_config installed request existing key generation) not_attempted Q.
Proof.
  intros Hconfig Hkind Hthrow. unfold connection_config. destruct request as [username password host p1 p2|username again].
  - apply watched_bind, watched_outcome. destruct (localConnectionConfigForSetup _); cbn; [|done].
    apply Hconfig. by left.
  - destruct (_ && _); [apply Hconfig; by left|]. destruct (negb _); [exact (Hkind _ None)|].
    apply watched_try, watching_outside; [done| |intros e; exact (Hkind _ None)]. intros ref.
    apply watching_looking. intros s. destruct (negb _).
    + apply watched_bind, watching_forget. apply Hkind.
    + apply Hconfig. by right.
Qed.

Lemma connects request credential notifies generation (Q : outcome exn AccountConnectionResult → Attempted → Prop) :
  credential = None ∨ credential_of request.(request_config) = credential →
  Q (Return (inl request.(request_accountKey))) (mkAttempted credential (Some request) true []) →
  (∀ kind ok, Q (Return (inr kind)) (mkAttempted credential (Some request) ok (option_list credential))) →
  watching (connect_and_reread installed request credential notifies generation)
    (mkAttempted credential None false []) Q.
Proof.
  intros Hcred Hok Hfail. unfold connect_and_reread. cbv zeta.
  set (fail kind := (forget_credential credential;; Ret (inr kind)) : app AccountConnectionResult).
  assert (∀ kind ok (Q' : outcome exn AccountConnectionResult → Attempted → Prop),
    Q' (Return (inr kind)) (mkAttempted credential (Some request) ok (option_list credential)) →
    watching (fail kind) (mkAttempted credential (Some request) ok []) Q') as Hfails.
  { intros kind ok Q' HQ. by apply watched_bind, watching_forget. }
  set (handler := λ error : exn, _ : app AccountConnectionResult).
  assert (∀ e ok, watching (handler e) (mkAttempted credential (Some request) ok []) Q) as Hhandler.
  { intros e ok. apply watching_looking. intros s. destruct (negb _); [by apply Hfails|].
    apply watched_bind, watching_forget, watched_bind, watching_change; [apply project_forgets|apply Hfail]. }
  apply watched_try, watching_outside; [by split_and!; [| |destruct Hcred; [left|right]]| |intros e; apply Hhandler].
  intros []. cbn [attempt_watch obtained requested released]. apply watching_looking. intros s.
  destruct (negb _); [by apply Hfails|].
  apply watched_bind, (watched_mono _ _ _ _ (λ r m, m = mkAttempted credential (Some request) true [])).
  { intros [[]|e] m ->; [|apply Hhandler]. apply watched_bind, watched_attempt.
    eapply bystander; [apply gently_refreshAccounts|intros l; apply log_refreshAccounts|].
    intros [[]|e]; [|by apply Hfails].
    apply watching_looking. intros s'. destruct (negb _); [by apply Hfails|]. destruct (negb _); [by apply Hfails|]. done. }
  destruct notifies; [|done]. by apply watched_outside.
Qed.

(** C13: An attempt to connect asks the remote application at most once, with the
    credential it obtained if it obtained one; it reports that the user is authenticated
    only after that succeeded.  If it succeeds, it asks the broker to forget nothing; if it
    ends in any other way, then by that time it has asked the broker to forget the
    credential it obtained, once, and no other.  This holds whatever failed and whatever
    ran in between; the attempt does not wait for the broker to forget. *)
Theorem credentials_are_forgotten (request : AccountSetupRequest) (notifies : bool)
    (reconnect : option AccountKey) (generation : Z) :
  watched connection_monitor asked_for_release
    (performAccountConnection installed request notifies reconnect generation) not_attempted
    (λ r m,
      match r with
      | Return (inl accountKey) =>
          m.(connected) = true ∧ m.(released) = [] ∧
          ∃ asked, m.(requested) = Some asked ∧ asked.(request_accountKey) = accountKey
      | _ => m.(released) = option_list m.(obtained)
      end).
Proof.
  unfold performAccountConnection. destruct (negb _); [done|].
  apply watched_bind, watched_attempt, watched_outside; [done|]. intros [accounts|e] _; [|done].
  apply watching_looking. intros s. destruct (existing_account _ _ _ _) as [existing|kind]; [|done].
  apply watched_bind, (watched_mono _ _ _ _ (λ _ m, m = not_attempted)).
  2: { destruct existing; [done|]. by apply watched_outside. }
  intros [key|e] m ->; [|done]. apply watched_bind, (watched_mono _ _ _ _ (λ _ m, m = not_attempted)).
  2: { destruct existing; [done|]. by apply watched_outcome. }
  intros [service|e] m ->; [|done]. apply watched_bind, (watched_mono _ _ _ _ (λ _ m, m = not_attempted)).
  2: { destruct reconnect; [|done]. by apply watched_outcome. }
  intros [expected|e] m ->; [|done]. destruct (negb _); [done|].
  apply watched_bind, watching_change.
  { intros s'. destruct (_ || _); [apply observe_forgets|done]. }
  apply watched_bind, config_obtained; [|done..].
  intros config credential Hcred. apply connects; [done| |done]. cbn. split_and!; [done|done|]. by eexists.
Qed.
End connection.

(** ** What the controller reads is what the store holds *)

(** The records of a store lie under their own ids. *)
Record keyed_store (st : Store) : Prop := {
  keyed_email id e : st_email st id = Some e → e.(email_id) = id;
  keyed_body id b : st_body st id = Some b → b.(body_emailId) = id;
  keyed_view spec v : st_view st spec = Some v → v.(view_spec) = spec;
}.

Lemma memory_keyed w : state_wf (db w) → keyed_store (abs (db w)).
Proof.
  intros Hwf. split; cbn.
  - intros id e [Hk _]%(wf_emails _ Hwf). symmetry. by apply emailKey_inj.
  - intros id b [Hk _]%(wf_bodies _ Hwf). symmetry. by apply emailKey_inj.
  - intros spec v [Hk _]%(wf_views _ Hwf). symmetry. by apply viewKey_inj.
Qed.

(** A store that is keyed so answers a call with what was asked for. *)
Lemma store_answers_as_asked {X} (c : PortCall X) st r : keyed_store st → read_spec c st r → asked_for c r.
Proof.
  intros Hst. destruct c; cbn; try done.
  - intros Hl l ->. cbn in Hl. destruct Hl as [_ [_ Hl]]. apply Forall_forall. intros b Hb. by apply Hl.
  - intros -> l [= <-]. induction ids as [|id ids IH]; cbn; constructor; [|exact IH].
    intros e He. apply (keyed_email _ Hst). by destruct (st_email st id); [injection He as ->|].
  - intros -> b. unfold owned_cache. destruct (st_email st id); [|done].
    destruct (st_body st id) as [b'|] eqn:Hb; [|done]. intros [= <-]. by apply (keyed_body _ Hst).
Qed.

Section reread.
Context {platform : Platform} (installed : Installed) {W : Type} `{!LocalEngine W}.
Context (elsewhere : ∀ X, ControllerCall X → outcome exn X).

(** The ports are the engine; other calls out are answered by [elsewhere]. *)
Definition over_engine X (c : with_state Application ControllerCall X) (w : Application * W) :
    outcome exn X * (Application * W) :=
  match c in with_state _ _ X return outcome exn X * (Application * W) with
  | Atomic f => ((f w.1).1, ((f w.1).2, w.2))
  | Outside c =>
      match c in ControllerCall X return outcome exn X * (Application * W) with
      | ControllerPort c => ((engine_answer c w.2).1, (w.1, (engine_answer c w.2).2))
      | c => (elsewhere _ c, w)
      end
  end.
Abbreviation running := (runs over_engine).

(** *** What it is to display a store *)

Definition displays_body (st : Store) (m : MailState) : Prop :=
  match m.(ms_selectedEmailId) with
  | None => m.(ms_emailBody) = None ∧ m.(ms_bodyLoadState) = body_idle
  | Some id =>
      m.(ms_emailBody) = st_body st id ∧
      m.(ms_bodyLoadState) = match st_body st id with Some _ => body_cached | None => body_notCached end
  end.

(** The stored view, and its messages if the store has them all. *)
Definition displays_window (st : Store) (mailboxId : ScopedMailboxId) (m : MailState) : Prop :=
  m.(ms_mailboxView) = st_view st (default_view mailboxId) ∧
  match st_view st (default_view mailboxId) with
  | None => m.(ms_emails) = [] ∧ m.(ms_loadState) = mail_notCached
  | Some view =>
      match mapM (st_email st) (List.map item_emailId view.(view_items)) with
      | None => m.(ms_emails) = [] ∧ m.(ms_loadState) = mail_error
      | Some emails =>
          m.(ms_emails) = emails ∧ m.(ms_loadState) = mail_ready ∧ displays_body st m ∧
          match m.(ms_selectedEmailId) with
          | None => emails = []
          | Some id => id ∈ List.map email_id emails
          end
      end
  end.

Definition displays_mailboxes (st : Store) (accountKey : AccountKey) (m : MailState) : Prop :=
  lists mailbox_id (λ b, b.(mailbox_id).(DomainIds.accountKey) = accountKey) (st_mailbox st) m.(ms_mailboxes) ∧
  match m.(ms_selectedMailboxId) with
  | None => m.(ms_mailboxes) = [] ∧ m.(ms_emails) = [] ∧ m.(ms_loadState) = mail_ready
  | Some id => id ∈ List.map mailbox_id m.(ms_mailboxes) ∧ displays_window st id m
  end.

Definition displays_statuses (st : Store) (accountKey : AccountKey) (s : MutationStatusState) : Prop :=
  ∃ pending, NoDup (List.map mutation_id pending) ∧
    (∀ m, m ∈ pending ↔ mutation_accountKey m = accountKey ∧ st_mutation st (accountKey, mutation_id m) = Some m) ∧
    Forall2 (λ m v, v = with_reconciliation v.(sv_needsReconciliation) (mutationStatusView m))
      pending (statusesForAccount (Some accountKey) s).

Definition displays (st : Store) (s : Application) : Prop :=
  lists account_key (λ _, True) (st_account st) s.(mail).(ms_accounts) ∧
  match s.(mail).(ms_selectedAccountKey) with
  | None => s.(mail).(ms_accounts) = [] ∧ s.(mail).(ms_mailboxes) = [] ∧ s.(mail).(ms_emails) = []
  | Some accountKey =>
      accountKey ∈ List.map account_key s.(mail).(ms_accounts) ∧
      displays_mailboxes st accountKey s.(mail) ∧ displays_statuses st accountKey s.(statuses)
  end.

(** What was selected stays selected while it is there. *)
Definition stays_selected {K} (old : option K) (all : list K) (new : option K) : Prop :=
  ∀ k, old = Some k → k ∈ all → new = Some k.

(** *** Running over the engine *)

Definition holding (st : Store) (w : W) : Prop := engine_ok w ∧ engine_store w ≡ st.

Lemma running_atomically {X A} (f : act X) (g : X → app A) s w Q :
  match f s with
  | (Return x, s') => running (g x) (s', w) Q
  | (Throw e, s') => Q (Throw e) (s', w)
  end → running (atomically f ≫= g) (s, w) Q.
Proof. intros H. unfold runs, atomically. rewrite run_await. cbn. by destruct (f s) as [[x|e] s']. Qed.

Lemma runs_unit {A} (p : app A) w (Q : outcome exn A → Application * W → Prop) :
  running (x ← p; Ret x) w Q → running p w Q.
Proof. unfold runs. rewrite run_mbind. by destruct (run over_engine p w) as [[x|e] w']. Qed.

Lemma running_action {X} (f : act X) s w (Q : outcome exn X → Application * W → Prop) :
  Q (f s).1 ((f s).2, w) → running (atomically f) (s, w) Q.
Proof. intros HQ. by apply runs_await. Qed.

Lemma lists_same {K V} (key_of : V → K) mine (f g : K → option V) l :
  (∀ k, f k = g k) → lists key_of mine f l → lists key_of mine g l.
Proof. intros Hfg [Hn Hl]. split; [done|]. intros v. by rewrite <- Hfg. Qed.
Lemma lists_perm {K V} (key_of : V → K) mine (f : K → option V) l l' :
  l ≡ₚ l' → lists key_of mine f l → lists key_of mine f l'.
Proof. intros Hp [Hn Hl]. split; [by rewrite <- Hp|]. intros v. by rewrite <- Hp. Qed.

Lemma listed_lookup {K V} (key_of : V → K) mine (f : K → option V) l k :
  lists key_of mine f l → k ∈ List.map key_of l → is_Some (f k).
Proof. intros [_ Hl] (v & -> & Hv)%list_elem_of_fmap. apply Hl in Hv as [_ ->]. by eexists. Qed.

Lemma lists_owned_same {K V} (key_of : V → K) mine (f g : K → option V) (o o' : option Account) r :
  (∀ k, f k = g k) → o = o' → lists_owned o (lists key_of mine f) r → lists_owned o' (lists key_of mine g) r.
Proof.
  intros Hfg <-. unfold lists_owned. destruct r as [[[|l]|]|]; try done.
  intros [Ho Hl]. split; [done|]. by eapply lists_same.
Qed.

Lemma read_same {X} (c : PortCall X) st st' r :
  is_write c = false → st ≡ st' → read_spec c st r → read_spec c st' r.
Proof.
  intros Hw (Ha & Hb & Hi & He & Hm & Hd & Ht & Hv & Hc & Hp). destruct c; cbn; try done;
    try (by rewrite ?Ha, ?Hb, ?Hi, ?He, ?Hm, ?Hd, ?Ht, ?Hv, ?Hc, ?Hp).
  - intros (l & -> & Hl). exists l. split; [done|]. by eapply lists_same.
  - by apply lists_owned_same.
  - by apply lists_owned_same.
  - intros ->. do 2 f_equal. apply map_ext. intros id. by rewrite He.
  - destruct r as [[[|l]|]|]; try done; [by rewrite Ha|]. intros (Ho & Hn & Hl). split_and!; [by rewrite <- Ha|done|].
    intros m. rewrite Hl. by rewrite Hp.
Qed.

Lemma running_port {X A} (c : PortCall X) (g : X → app A) st s w Q :
  is_write c = false → call_wf c → holding st w →
  (∀ r w', read_spec c st r → holding st w' →
     match r with Return x => running (g x) (s, w') Q | Throw e => Q (Throw e) (s, w') end) →
  running (port c ≫= g) (s, w) Q.
Proof.
  intros Hread Hwf [Hok Hst] HQ. unfold runs, port, outside. rewrite run_await. cbn.
  pose proof (engine_answers _ c w Hok Hwf) as Hans. apply (read_same _ _ _ _ Hread Hst) in Hans.
  assert (holding st (engine_answer c w).2) as Hst'.
  { split; [by apply engine_ok_kept|]. etransitivity; [by apply engine_reads|done]. }
  specialize (HQ _ _ Hans Hst'). by destruct (engine_answer c w) as [[x|e] w'].
Qed.

(** *** The stages of a reread *)

Context (st : Store) (keyed : keyed_store st).

(** What the reading of a window leaves alone. *)
Record around (s s' : Application) : Prop := {
  around_accounts : s'.(mail).(ms_accounts) = s.(mail).(ms_accounts);
  around_account : s'.(mail).(ms_selectedAccountKey) = s.(mail).(ms_selectedAccountKey);
  around_mailboxes : s'.(mail).(ms_mailboxes) = s.(mail).(ms_mailboxes);
  around_mailbox : s'.(mail).(ms_selectedMailboxId) = s.(mail).(ms_selectedMailboxId);
  around_disposed : s'.(controller).(c_disposed) = s.(controller).(c_disposed);
}.

Lemma around_refl s : around s s.
Proof. done. Qed.
Lemma around_trans s1 s2 s3 : around s1 s2 → around s2 s3 → around s1 s3.
Proof. intros [] []. split; congruence. Qed.

(** The same window is displayed. *)
Record same_window (m m' : MailState) : Prop := {
  same_view : m'.(ms_mailboxView) = m.(ms_mailboxView);
  same_emails : m'.(ms_emails) = m.(ms_emails);
  same_load : m'.(ms_loadState) = m.(ms_loadState);
  same_email : m'.(ms_selectedEmailId) = m.(ms_selectedEmailId);
  same_body : m'.(ms_emailBody) = m.(ms_emailBody);
  same_state : m'.(ms_bodyLoadState) = m.(ms_bodyLoadState);
}.

Lemma displays_same_window id m m' : same_window m m' → displays_window st id m → displays_window st id m'.
Proof. intros [H1 H2 H3 H4 H5 H6]. unfold displays_window, displays_body. by rewrite H1, H2, H3, H4, H5, H6. Qed.

Lemma demand_same emailId s w (Q : outcome exn unit → Application * W → Prop) :
  displays_body st s.(mail) →
  (∀ s', around s s' → same_window s.(mail) s'.(mail) → Q (Return tt) (s', w)) →
  running (atomically (demandSelectedBody installed emailId)) (s, w) Q.
Proof.
  intros Hbody HQ. apply running_action. unfold demandSelectedBody.
  destruct (_ || _) eqn:Hcold; [by apply HQ|]. apply orb_false_iff in Hcold as [Hsel Hcold].
  apply negb_false_iff in Hsel. apply negb_false_iff, bool_decide_eq_true in Hcold.
  unfold mbind, action_mbind, action_bind, claim_body.
  destruct (map_get _ _) as [p|]; cbn; [by apply HQ|]. destruct (has_bodyMaterializer _); cbn.
  - change (isSelectedEmail emailId (fresh_promise s)) with (isSelectedEmail emailId s). rewrite Hsel. by apply HQ.
  - unfold finishBodyMaterialization.
    change (isSelectedEmail emailId (fresh_promise s)) with (isSelectedEmail emailId s). rewrite Hsel. cbn.
    destruct (c_disposed _); cbn; [by apply HQ|]. apply selected_email in Hsel.
    unfold displays_body in Hbody. rewrite Hsel in Hbody. destruct Hbody as [Hb Hstate].
    apply HQ; split; try done; cbn.
    + rewrite Hb. rewrite Hcold in Hstate. by destruct (st_body st emailId).
Qed.

(** Reading the body of the message that is selected. *)
Lemma body_displayed s w (g : SelectedBodyRereadState → app unit) Q selected :
  holding st w → (∀ id, s.(mail).(ms_selectedEmailId) = Some id → is_Some (st_email st id)) →
  selected = ((λ id, (id, s.(controller).(c_bodyGeneration))) <$> s.(mail).(ms_selectedEmailId)) →
  (s.(mail).(ms_selectedEmailId) = None → displays_body st s.(mail)) →
  (∀ s' w' x, holding st w' → around s s' → displays_body st s'.(mail) →
     s'.(mail).(ms_mailboxView) = s.(mail).(ms_mailboxView) → s'.(mail).(ms_emails) = s.(mail).(ms_emails) →
     s'.(mail).(ms_loadState) = s.(mail).(ms_loadState) →
     s'.(mail).(ms_selectedEmailId) = s.(mail).(ms_selectedEmailId) → running (g x) (s', w') Q) →
  running (body_from selected ≫= g) (s, w) Q.
Proof.
  intros Hw Hsome -> Hnone HQ. destruct (ms_selectedEmailId _) as [id|] eqn:Hsel; cbn [fmap option_fmap option_map body_from].
  2: { apply (HQ s w reread_stale); try done. by apply Hnone. }
  apply runs_bind. apply (running_port _ _ st); [done..|].
  intros r w' -> Hw'. destruct (Hsome id eq_refl) as [e He]. rewrite He.
  apply running_action. unfold receive_body. rewrite Z.eqb_refl, Hsel. cbn [negb orb].
  replace (differs_from (Some id) id) with false by (symmetry; by apply differs_from_false).
  destruct (st_body st id) as [b|] eqn:Hb; cbn; (apply HQ; [done|done| |done..]);
    unfold displays_body; cbn; by rewrite Hsel, Hb.
Qed.

Lemma all_present_lookup ids : all_present (List.map (λ id, entity (st_email st id)) ids) = mapM (st_email st) ids.
Proof.
  induction ids as [|id ids IH]; [done|]. cbn. rewrite IH. by destruct (st_email st id).
Qed.

Lemma present_ids ids emails : mapM (st_email st) ids = Some emails → List.map email_id emails = ids.
Proof.
  revert emails. induction ids as [|id ids IH]; intros emails; cbn; [by intros [= <-]|].
  destruct (st_email st id) as [e|] eqn:He; [|done]. destruct (mapM _ ids) as [l|]; [|done].
  intros [= <-]. cbn. f_equal; [by apply (keyed_email _ keyed)|by apply IH].
Qed.

Lemma next_email_is_there selected emails :
  (next_email selected emails = None ↔ emails = []) ∧
  (∀ id, next_email selected emails = Some id → id ∈ List.map email_id emails) ∧
  stays_selected selected (List.map email_id emails) (next_email selected emails).
Proof.
  assert (∀ id, existsb (λ value, sameScopedEmailId value.(email_id) id) emails = true ↔ id ∈ List.map email_id emails) as Hin.
  { intros id. rewrite existsb_exists, list_elem_of_fmap. split; intros (e & H1 & H2); exists e.
    - apply same_id in H2. by rewrite list_elem_of_In.
    - rewrite <- list_elem_of_In. split; [done|]. by apply same_id. }
  assert ((email_id <$> head emails = None ↔ emails = []) ∧
    (∀ id, email_id <$> head emails = Some id → id ∈ List.map email_id emails)) as [Hh1 Hh2].
  { split; [by destruct emails|]. destruct emails; [done|]. intros id [= <-]. by left. }
  unfold next_email, stays_selected. destruct selected as [id|]; [|done].
  destruct (existsb _ emails) eqn:Hex.
  - apply Hin in Hex. split_and!; [|by intros ? [= <-]|by intros ? [= <-]]. by destruct emails; [apply elem_of_nil in Hex|].
  - split_and!; [done..|]. intros ? [= <-] Hno. apply Hin in Hno. congruence.
Qed.

(** What [receive_window] leaves when the messages are there. *)
Lemma window_received id generation view result emails s :
  stale_window id generation s = false → sameMailboxViewSpec (default_view id) view.(view_spec) = true →
  present_emails result = Some emails →
  let next := next_email s.(mail).(ms_selectedEmailId) emails in
  ∃ demanded g s',
    receive_window id generation view result s = (Return (Some ((λ id, (id, g)) <$> next, demanded)), s') ∧
    g = s'.(controller).(c_bodyGeneration) ∧ around s s' ∧ s'.(mail).(ms_selectedEmailId) = next ∧ s'.(mail).(ms_mailboxView) = Some view ∧
    s'.(mail).(ms_emails) = emails ∧ s'.(mail).(ms_loadState) = mail_ready ∧
    (next = None → displays_body st s'.(mail)).
Proof.
  intros Hfresh Hspec Hemails next. unfold receive_window. rewrite Hfresh, Hspec, Hemails.
  assert (email_changed s.(mail).(ms_selectedEmailId) next = false → s.(mail).(ms_selectedEmailId) = next) as Hsame.
  { unfold email_changed. destruct (ms_selectedEmailId _) as [a|], next as [b|]; try done.
    intros Hs%negb_false_iff. f_equal. by apply same_id. }
  unfold begin_body, next_body, next_generation, in_mail, modify, read, mbind, action_mbind, action_bind, mret,
    action_mret. cbn -[next_email]. fold next.
  destruct (email_changed _ next); cbn -[next_email]; [clear Hsame|specialize (Hsame eq_refl)];
    destruct next as [e|]; try rewrite Hsame; cbn; (eexists _, _, _; split; [reflexivity|split; [reflexivity|]]); split_and!; try done; cbn; unfold displays_body; cbn; by rewrite ?Hsame.
Qed.

(** Reading the window of the selected mailbox, once that began. *)
Lemma window_displayed id s w (g : unit → app unit) Q :
  holding st w → is_Some (st_mailbox st id) → s.(mail).(ms_selectedMailboxId) = Some id →
  (∀ s' w', holding st w' → around s s' → displays_window st id s'.(mail) →
     stays_selected s.(mail).(ms_selectedEmailId) (List.map email_id s'.(mail).(ms_emails)) s'.(mail).(ms_selectedEmailId) →
     running (g tt) (s', w') Q) →
  running (window_from installed (Some (id, s.(controller).(c_mailboxViewGeneration))) ≫= g) (s, w) Q.
Proof.
  intros Hw [b Hb] Hid HQ. apply runs_bind. cbn [window_from]. apply (running_port _ _ st); [done..|].
  intros r w1 -> Hw1. cbn [spec_mailboxId default_view mailboxViewSpec]. rewrite Hb.
  assert (∀ s', s'.(controller).(c_mailboxViewGeneration) = s.(controller).(c_mailboxViewGeneration) →
    s'.(mail).(ms_selectedMailboxId) = Some id → stale_window id s.(controller).(c_mailboxViewGeneration) s' = false) as Hfresh.
  { intros s' Hg Hs'. unfold stale_window. rewrite Hg, Z.eqb_refl. cbn. by apply differs_from_false. }
  apply running_atomically. unfold receive_view. rewrite Hfresh by done.
  destruct (st_view st (default_view id)) as [view|] eqn:Hview; cbn [owned_cache].
  2: { apply HQ; [done|done| |].
       - unfold displays_window. by rewrite Hview.
       - intros k _ Hk. by apply elem_of_nil in Hk. }
  apply (running_port _ _ st); [done..|]. intros r w2 -> Hw2.
  assert (sameMailboxViewSpec (default_view id) view.(view_spec) = true) as Hspec.
  { rewrite (keyed_view _ keyed _ _ Hview). unfold sameMailboxViewSpec, sameScopedMailboxId. cbn.
    rewrite !andb_true_iff, same_id. done. }
  apply running_atomically.
  destruct (mapM (st_email st) (List.map item_emailId view.(view_items))) as [emails|] eqn:Hemails.
  2: { unfold receive_window. rewrite Hfresh, Hspec by done. cbn [negb orb present_emails]. rewrite all_present_lookup, Hemails.
       apply HQ; [done|done| |].
       - unfold displays_window. by rewrite Hview, Hemails.
       - intros k _ Hk. by apply elem_of_nil in Hk. }
  destruct (window_received id s.(controller).(c_mailboxViewGeneration) view
    (PortOk (List.map (λ id, entity (st_email st id)) (List.map item_emailId view.(view_items)))) emails s)
    as (demanded & gen & s1 & -> & -> & Haround & Hsel & Hv & Hem & Hload & Hidle);
    [by apply Hfresh|done|by cbn; rewrite all_present_lookup|].
  destruct (next_email_is_there s.(mail).(ms_selectedEmailId) emails) as (Hnone & Hsome & Hstays).
  set (next := next_email _ emails) in *.
  assert (∀ s2, around s1 s2 → displays_body st s2.(mail) → s2.(mail).(ms_mailboxView) = Some view →
    s2.(mail).(ms_emails) = emails → s2.(mail).(ms_loadState) = mail_ready → s2.(mail).(ms_selectedEmailId) = next →
    displays_window st id s2.(mail) ∧ around s s2 ∧
    stays_selected s.(mail).(ms_selectedEmailId) (List.map email_id s2.(mail).(ms_emails)) s2.(mail).(ms_selectedEmailId)) as Hdone.
  { intros s2 Har Hbody H1 H2 H3 H4. split_and!; [|by eapply around_trans|by rewrite H2, H4].
    unfold displays_window. rewrite H1, Hview, Hemails, H2, H3, H4. split_and!; try done.
    destruct next as [n|]; [by apply Hsome|by apply Hnone]. }
  eapply body_displayed; [done| |by rewrite Hsel|by rewrite Hsel|].
  { rewrite Hsel. intros n Hn%Hsome. rewrite (present_ids _ _ Hemails) in Hn.
    clear -Hemails Hn. revert emails Hemails Hn. generalize (List.map item_emailId view.(view_items)) as ids.
    induction ids as [|i ids IH]; intros emails; cbn; [by intros _ ?%elem_of_nil|].
    destruct (st_email st i) as [e|] eqn:He; [|done]. destruct (mapM _ ids) as [l|]; [|done].
    intros _ [->|Hn]%elem_of_cons; [by rewrite He|by apply (IH l)]. }
  intros s2 w3 x Hw3 Har Hbody H1 H2 H3 H4. rewrite Hsel in H4. rewrite Hv in H1. rewrite Hem in H2. rewrite Hload in H3.
  destruct (Hdone s2 Har Hbody H1 H2 H3 H4) as (Hd & Hs & Hst).
  destruct demanded as [emailId|]; [|by apply HQ].
  apply demand_same; [done|]. intros s3 Har3 Hsame. destruct (Hdone s3) as (Hd3 & Hs3 & Hst3).
  - by eapply around_trans.
  - unfold displays_body. by rewrite (same_email _ _ Hsame), (same_body _ _ Hsame), (same_state _ _ Hsame).
  - by rewrite (same_view _ _ Hsame).
  - by rewrite (same_emails _ _ Hsame).
  - by rewrite (same_load _ _ Hsame).
  - by rewrite (same_email _ _ Hsame).
  - by apply HQ.
Qed.

Lemma next_mailbox_is_there selected mailboxes :
  (next_mailbox selected mailboxes = None ↔ mailboxes = []) ∧
  (∀ id, next_mailbox selected mailboxes = Some id → id ∈ List.map mailbox_id mailboxes) ∧
  stays_selected selected (List.map mailbox_id mailboxes) (next_mailbox selected mailboxes).
Proof.
  assert (∀ id, existsb (λ value, sameScopedMailboxId value.(mailbox_id) id) mailboxes = true ↔
    id ∈ List.map mailbox_id mailboxes) as Hin.
  { intros id. rewrite existsb_exists, list_elem_of_fmap. split; intros (e & H1 & H2); exists e.
    - apply same_id in H2. by rewrite list_elem_of_In.
    - rewrite <- list_elem_of_In. split; [done|]. by apply same_id. }
  unfold next_mailbox, stays_selected.
  set (first := mailbox_id <$> match List.find _ mailboxes with Some inbox => Some inbox | None => head mailboxes end).
  assert ((first = None ↔ mailboxes = []) ∧ ∀ id, first = Some id → id ∈ List.map mailbox_id mailboxes) as [Hh1 Hh2].
  { subst first. destruct (List.find _ mailboxes) as [b|] eqn:Hf.
    - apply find_some in Hf as [Hf%list_elem_of_In _]. split; [split; [done|]; by intros ->; apply elem_of_nil in Hf|].
      intros id [= <-]. by apply list_elem_of_fmap_2.
    - split; [by destruct mailboxes|]. destruct mailboxes; [done|]. intros id [= <-]. by left. }
  destruct selected as [id|]; [|done]. destruct (existsb _ mailboxes) eqn:Hex.
  - apply Hin in Hex. split_and!; [|by intros ? [= <-]|by intros ? [= <-]]. by destruct mailboxes; [apply elem_of_nil in Hex|].
  - split_and!; [done..|]. intros ? [= <-] Hno. apply Hin in Hno. congruence.
Qed.

(** What [receive_mailboxes] leaves when the account is there. *)
Lemma mailboxes_received k values s :
  s.(mail).(ms_selectedAccountKey) = Some k →
  let mailboxes := sort_mailboxes values in
  let next := next_mailbox s.(mail).(ms_selectedMailboxId) mailboxes in
  ∃ g s',
    receive_mailboxes k s.(controller).(c_mailboxesGeneration) (PortOk (SnapshotPresent values)) s =
      (Return ((λ id, (id, g)) <$> next), s') ∧
    g = s'.(controller).(c_mailboxViewGeneration) ∧
    s'.(mail).(ms_accounts) = s.(mail).(ms_accounts) ∧ s'.(mail).(ms_selectedAccountKey) = Some k ∧
    s'.(controller).(c_disposed) = s.(controller).(c_disposed) ∧
    s'.(mail).(ms_mailboxes) = mailboxes ∧ s'.(mail).(ms_selectedMailboxId) = next ∧
    match next with
    | None => s'.(mail).(ms_emails) = [] ∧ s'.(mail).(ms_loadState) = mail_ready
    | Some id => s.(mail).(ms_selectedMailboxId) = Some id → s'.(mail).(ms_selectedEmailId) = s.(mail).(ms_selectedEmailId)
    end.
Proof.
  intros Hk mailboxes next. unfold receive_mailboxes. rewrite Z.eqb_refl, Hk, bool_decide_eq_true_2 by done.
  cbn [negb orb]. fold mailboxes. change (sort_mailboxes values) with mailboxes.
  unfold begin_window, next_view, next_generation, in_mail, modify, read, mbind, action_mbind, action_bind, mret,
    action_mret. cbn -[next_mailbox differs_from]. fold next.
  destruct next as [id|]; cbn -[differs_from].
  2: { eexists _, _. split; [reflexivity|]. split; [reflexivity|]. by split_and!. }
  destruct (differs_from _ id) eqn:Hdiff; cbn -[differs_from].
  - (eexists _, _; split; [reflexivity|]; split; [reflexivity|]); split_and!; try done. cbn.
    intros Hid. exfalso. enough (differs_from s.(mail).(ms_selectedMailboxId) id = false) by congruence.
    by apply differs_from_false.
  - apply differs_from_false in Hdiff. rewrite Hdiff. cbn.
    (eexists _, _; split; [reflexivity|]; split; [reflexivity|]); split_and!; done.
Qed.

(** Reading the mailboxes of the selected account, once that began. *)
Lemma mailboxes_displayed k s w (g : unit → app unit) Q :
  holding st w → is_Some (st_account st k) → s.(mail).(ms_selectedAccountKey) = Some k →
  (∀ s' w', holding st w' → s'.(mail).(ms_accounts) = s.(mail).(ms_accounts) →
     s'.(mail).(ms_selectedAccountKey) = Some k → s'.(controller).(c_disposed) = s.(controller).(c_disposed) →
     displays_mailboxes st k s'.(mail) →
     stays_selected s.(mail).(ms_selectedMailboxId) (List.map mailbox_id s'.(mail).(ms_mailboxes)) s'.(mail).(ms_selectedMailboxId) →
     (s'.(mail).(ms_selectedMailboxId) = s.(mail).(ms_selectedMailboxId) →
      stays_selected s.(mail).(ms_selectedEmailId) (List.map email_id s'.(mail).(ms_emails)) s'.(mail).(ms_selectedEmailId)) →
     running (g tt) (s', w') Q) →
  running (mailboxes_from installed (Some (k, s.(controller).(c_mailboxesGeneration))) ≫= g) (s, w) Q.
Proof.
  intros Hw [a Ha] Hk HQ. apply runs_bind. cbn [mailboxes_from]. apply (running_port _ _ st); [done..|].
  intros [[[|values]|]|] w1 Hans Hw1; cbn in Hans; try done; [congruence|]. destruct Hans as [_ Hlists].
  apply running_atomically.
  destruct (mailboxes_received k values s Hk) as (gen & s1 & -> & -> & Hacc & Hsel & Hdis & Hboxes & Hbox & Hrest).
  assert (lists mailbox_id (λ b, b.(mailbox_id).(accountKey) = k) (st_mailbox st) s1.(mail).(ms_mailboxes)) as Hlisted.
  { rewrite Hboxes. eapply lists_perm; [|exact Hlists]. unfold sort_mailboxes. by rewrite js_sort_perm. }
  destruct (next_mailbox_is_there s.(mail).(ms_selectedMailboxId) (sort_mailboxes values)) as (Hnone & Hsome & Hstays).
  set (next := next_mailbox _ (sort_mailboxes values)) in *. rewrite <- Hboxes in Hnone, Hsome, Hstays.
  destruct next as [id|]; cbn [fmap option_fmap option_map].
  - specialize (Hsome id eq_refl). cbn [mailboxes_from].
    apply runs_unit, window_displayed; [done|by eapply listed_lookup|done|]. intros s2 w2 Hw2 [] Hwin Hstay. apply HQ; try congruence; try done.
    + split; [by rewrite around_mailboxes0|]. by rewrite around_mailbox0, Hbox, around_mailboxes0.
    + by rewrite around_mailboxes0, around_mailbox0, Hbox.
    + rewrite around_mailbox0, Hbox. intros Hid. by rewrite <- Hrest.
  - destruct Hrest as [Hem Hload]. apply HQ; try done.
    + split; [done|]. rewrite Hbox. split_and!; [by apply Hnone|done..].
    + by rewrite Hbox.
    + intros _. rewrite Hem. by intros e _ Hno%elem_of_nil.
Qed.

(** Reading the pending mutations. *)
Lemma statuses_displayed k s w (g : option (list PendingMutation) → app unit) Q :
  holding st w → is_Some (st_account st k) → s.(controller).(c_disposed) = false →
  (∀ s' w' x, holding st w' → s'.(mail) = s.(mail) → displays_statuses st k s'.(statuses) →
     running (g x) (s', w') Q) →
  running (refreshMutationStatuses k ≫= g) (s, w) Q.
Proof.
  intros Hw [a Ha] Hd HQ. apply runs_bind. unfold refreshMutationStatuses. apply running_atomically.
  unfold begin_statuses. cbn iota beta. unfold statuses_from. apply (running_port _ _ st); [done..|].
  intros [[[|values]|]|] w1 Hans Hw1; cbn in Hans; try done; [congruence|]. destruct Hans as (_ & Hn & Hl).
  apply running_action. unfold receive_statuses. cbn. rewrite Hd, map_get_set, decide_True by done.
  rewrite bool_decide_eq_true_2 by done. cbn.
  apply HQ; [done..|]. exists values. split_and!; [done..|]. cbn. rewrite map_get_set, decide_True by done. cbn.
  rewrite map_map. clear. induction values as [|m values IH]; cbn; constructor; [done|exact IH].
Qed.

Lemma observe_mail key s :
  (observeRemoteStatus installed key s).(mail) = s.(mail) ∧
  (observeRemoteStatus installed key s).(controller).(c_disposed) = s.(controller).(c_disposed).
Proof.
  unfold observeRemoteStatus. destruct (bool_decide _); [done|].
  destruct key as [key|]; [|by destruct (c_remoteStatusUnsubscribe _)].
  destruct (has_remoteApplication _); cbn [negb]; [|by destruct (c_remoteStatusUnsubscribe _)].
  unfold subscribe_remote, status_listener.
  destruct (c_remoteStatusUnsubscribe _); cbn; destruct (rv_disposed _); cbn; try done; by destruct (_ || _).
Qed.

(** Which account is to be selected. *)
Definition next_account (selected : option AccountKey) (accounts : list Account) : option AccountKey :=
  if existsb (λ value, bool_decide (Some value.(account_key) = selected)) accounts then selected
  else account_key <$> head accounts.

Lemma next_account_is_there selected accounts :
  (next_account selected accounts = None ↔ accounts = []) ∧
  (∀ k, next_account selected accounts = Some k → k ∈ List.map account_key accounts) ∧
  stays_selected selected (List.map account_key accounts) (next_account selected accounts).
Proof.
  unfold next_account, stays_selected. destruct (existsb _ accounts) eqn:Hex.
  - apply existsb_exists in Hex as (a & Ha & <-%bool_decide_eq_true). apply list_elem_of_In in Ha. split_and!.
    + split; [done|]. intros ->. by apply elem_of_nil in Ha.
    + intros k [= <-]. by apply list_elem_of_fmap_2.
    + by intros k [= <-].
  - split_and!; [by destruct accounts| |].
    + destruct accounts; [done|]. intros k [= <-]. by left.
    + intros k -> (a & -> & Ha)%list_elem_of_fmap. apply not_true_iff_false in Hex. destruct Hex.
      apply existsb_exists. exists a. by rewrite <- list_elem_of_In, bool_decide_eq_true.
Qed.

(** What [receive_accounts] leaves. *)
Lemma accounts_received values s :
  let accounts := sort_accounts values in
  let next := next_account s.(mail).(ms_selectedAccountKey) accounts in
  ∃ g s',
    receive_accounts installed s.(controller).(c_accountsGeneration) (PortOk values) s =
      (Return ((λ k, (k, Some (k, g))) <$> next), s') ∧
    g = s'.(controller).(c_mailboxesGeneration) ∧ s'.(controller).(c_disposed) = s.(controller).(c_disposed) ∧
    s'.(mail).(ms_accounts) = accounts ∧ s'.(mail).(ms_selectedAccountKey) = next ∧
    match next with
    | None => s'.(mail).(ms_mailboxes) = [] ∧ s'.(mail).(ms_emails) = []
    | Some k => s.(mail).(ms_selectedAccountKey) = Some k →
        s'.(mail).(ms_selectedMailboxId) = s.(mail).(ms_selectedMailboxId) ∧
        s'.(mail).(ms_selectedEmailId) = s.(mail).(ms_selectedEmailId)
    end.
Proof.
  intros accounts next. unfold receive_accounts. rewrite Z.eqb_refl. cbn [negb].
  change (sort_accounts values) with accounts.
  unfold begin_mailboxes, next_mailboxes, next_generation, in_mail, modify, read, mbind, action_mbind, action_bind,
    mret, action_mret. cbn -[existsb observeRemoteStatus]. fold (next_account s.(mail).(ms_selectedAccountKey) accounts).
  fold next. destruct next as [k|]; cbn -[observeRemoteStatus].
  2: { match goal with |- context[observeRemoteStatus installed None ?s1] => destruct (observe_mail None s1) as [Hm Hd] end.
       (eexists _, _; split; [reflexivity|]; split; [reflexivity|]). rewrite Hm, Hd. by split_and!. }
  destruct (bool_decide _) eqn:Hsame; cbn -[observeRemoteStatus];
    match goal with |- context[observeRemoteStatus installed (Some k) ?s1] => destruct (observe_mail (Some k) s1) as [Hm Hd] end;
    rewrite !Hm; cbn [on_mail mail selectAccountInStore setAccounts ms_selectedAccountKey].
  - apply bool_decide_eq_true in Hsame. rewrite Hsame. cbn [fmap option_fmap option_map].
    (eexists _, _; split; [reflexivity|]; split; [reflexivity|]).
    cbn [on_controller controller mail put_mailboxesGeneration c_disposed]. rewrite Hm, Hd. by split_and!.
  - apply bool_decide_eq_false in Hsame. cbn [fmap option_fmap option_map].
    (eexists _, _; split; [reflexivity|]; split; [reflexivity|]).
    cbn [on_controller controller mail put_mailboxesGeneration c_disposed]. rewrite Hm, Hd. by split_and!.
Qed.

(** C10: A reread of everything that nothing disturbs ends, and the screen then displays
    what the local store holds: its accounts; the mailboxes of the selected account; the
    stored view of the selected mailbox with its messages (or that it is not cached, or
    that a message of it is missing); the stored body of the selected message (or that it
    is not cached); and the account's pending mutations.  What was selected stays selected
    if it is still there.  The store is not changed. *)
Theorem reread_shows_the_store (s : Application) (w : W) :
  holding st w → s.(controller).(c_disposed) = false →
  let '(r, (s', w')) := run over_engine (refreshAccounts installed) (s, w) in
  r = Return tt ∧ holding st w' ∧ displays st s' ∧
  let before := s.(mail) in let after := s'.(mail) in
  stays_selected before.(ms_selectedAccountKey) (List.map account_key after.(ms_accounts)) after.(ms_selectedAccountKey) ∧
  (after.(ms_selectedAccountKey) = before.(ms_selectedAccountKey) →
   stays_selected before.(ms_selectedMailboxId) (List.map mailbox_id after.(ms_mailboxes)) after.(ms_selectedMailboxId) ∧
   (after.(ms_selectedMailboxId) = before.(ms_selectedMailboxId) →
    stays_selected before.(ms_selectedEmailId) (List.map email_id after.(ms_emails)) after.(ms_selectedEmailId))).
Proof.
  intros Hw Hd. enough (running (refreshAccounts installed) (s, w) (λ r p,
    r = Return tt ∧ holding st p.2 ∧ displays st p.1 ∧
    stays_selected s.(mail).(ms_selectedAccountKey) (List.map account_key p.1.(mail).(ms_accounts)) p.1.(mail).(ms_selectedAccountKey) ∧
    (p.1.(mail).(ms_selectedAccountKey) = s.(mail).(ms_selectedAccountKey) →
     stays_selected s.(mail).(ms_selectedMailboxId) (List.map mailbox_id p.1.(mail).(ms_mailboxes)) p.1.(mail).(ms_selectedMailboxId) ∧
     (p.1.(mail).(ms_selectedMailboxId) = s.(mail).(ms_selectedMailboxId) →
      stays_selected s.(mail).(ms_selectedEmailId) (List.map email_id p.1.(mail).(ms_emails)) p.1.(mail).(ms_selectedEmailId))))) as H.
  { unfold runs in H. by destruct (run over_engine _ _) as [r [s' w']]. }
  unfold refreshAccounts. apply running_atomically. unfold next_accounts, next_generation. cbn iota beta.
  set (s0 := on_controller _ s). unfold accounts_from. apply (running_port _ _ st); [done..|].
  intros r w1 (values & -> & Hlists) Hw1. apply running_atomically.
  destruct (accounts_received values s0) as (gen & s1 & Heq & -> & Hdis & Hacc & Hsel & Hrest).
  cbn [controller c_accountsGeneration put_accountsGeneration on_controller s0] in Heq. rewrite Heq. clear Heq.
  assert (lists account_key (λ _, True) (st_account st) (sort_accounts values)) as Hlisted.
  { eapply lists_perm; [|exact Hlists]. unfold sort_accounts. by rewrite js_sort_perm. }
  change s0.(mail) with s.(mail) in *. change (c_disposed s0.(controller)) with (c_disposed s.(controller)) in Hdis.
  destruct (next_account_is_there s.(mail).(ms_selectedAccountKey) (sort_accounts values)) as (Hnone & Hsome & Hstays).
  set (next := next_account _ (sort_accounts values)) in *.
  destruct next as [k|]; cbn [fmap option_fmap option_map].
  2: { destruct Hrest as [Hb He]. unfold runs. cbn [run fst snd]. rewrite Hacc, Hsel. split_and!; [done|done| |done|].
       - unfold displays. rewrite Hacc, Hsel. split; [done|]. split_and!; [by apply Hnone|done|done].
       - intros _. split; [rewrite Hb|intros _; rewrite He]; by intros x _ Hno%elem_of_nil. }
  specialize (Hsome k eq_refl). pose proof (listed_lookup _ _ _ _ _ Hlisted Hsome) as Hk.
  apply mailboxes_displayed; [done..|]. intros s2 w2 Hw2 Ha2 Hsel2 Hd2 Hboxes Hstay1 Hstay2.
  apply statuses_displayed; [done|done|congruence|]. intros s3 w3 x Hw3 Hmail Hstatuses. unfold runs. cbn [run fst snd]. unfold displays. rewrite Hmail, Ha2, Hsel2, Hacc. split_and!; try done.
  intros Hsame. destruct (Hrest (eq_sym Hsame)) as [Hbox Hem]. rewrite <- Hbox, <- Hem. by split.
Qed.
End reread.

(** ** Sending what the composer holds *)

(** ** What a draft says *)

(** A text with the pieces between its separators. *)
Fixpoint joined (first : string) (rest : list (ascii * string)) : string :=
  match rest with
  | [] => first
  | (separator, piece) :: rest => first +:+ String separator (joined piece rest)
  end.

(** The recipients typed in a field: one per piece between commas and semicolons that holds
    more than spaces, without them and without a name. *)
Definition typed_recipients (raw : string) (to : list EmailAddress) : Prop :=
  ∃ first rest, raw = joined first rest ∧
    Forall (λ c, c = ","%char ∨ c = ";"%char) rest.*1 ∧
    Forall (λ piece, includes piece ","%char = false ∧ includes piece ";"%char = false) (first :: rest.*2) ∧
    to = omap (λ piece, if is_empty (trim piece) then None else Some (mkEmailAddress None (trim piece)))
           (first :: rest.*2).

Lemma split_by_joined s :
  ∃ first rest, split_by is_separator s = first :: rest.*2 ∧ s = joined first rest ∧
    Forall (λ c, c = ","%char ∨ c = ";"%char) rest.*1 ∧
    Forall (λ piece, includes piece ","%char = false ∧ includes piece ";"%char = false) (first :: rest.*2).
Proof.
  induction s as [|c s (first & rest & Hsplit & Hs & Hsep & Hpieces)]; cbn [split_by].
  - by exists "", []; repeat constructor.
  - rewrite Hsplit. destruct (is_separator c) eqn:Hc.
    + exists "", ((c, first) :: rest). split_and!; [done|by rewrite Hs| |by constructor].
      constructor; [|done]. unfold is_separator in Hc. apply orb_true_iff in Hc as [Hc|Hc];
        apply bool_decide_eq_true in Hc; [by left|by right].
    + exists (String c first), rest. split_and!; [done| |done|].
      { rewrite Hs. by destruct rest as [|[? ?] ?]. }
      apply Forall_cons in Hpieces as [[Hcomma Hsemi] Hpieces]. constructor; [|done].
      unfold is_separator in Hc. apply orb_false_iff in Hc as [H1%bool_decide_eq_false H2%bool_decide_eq_false].
      cbn. split; apply orb_false_iff; (split; [by apply bool_decide_eq_false_2; congruence|done]).
Qed.

Lemma parsed_recipients raw : typed_recipients raw (parseRecipients raw).
Proof.
  destruct (split_by_joined raw) as (first & rest & Hsplit & Hraw & Hsep & Hpieces).
  exists first, rest. split_and!; [done..|]. unfold parseRecipients. rewrite Hsplit.
  clear. generalize (first :: rest.*2) as l. induction l as [|piece l IH]; [done|].
  cbn. destruct (is_empty (trim piece)); cbn; [exact IH|]. f_equal. exact IH.
Qed.

(** An intent says what the draft and the identity say, and nothing else. *)
Record carries (draft : ComposerState) (identity : Identity) (i : SendIntent) : Prop := {
  carries_to : typed_recipients draft.(co_to) i.(intent_to) ∧ i.(intent_to) ≠ [];
  carries_subject : i.(intent_subject) = draft.(co_subject);
  carries_body : i.(intent_body) = mkSendBody draft.(co_body) None;
  carries_security : i.(intent_securityMode) = draft.(co_securityMode);
  carries_identity : i.(intent_identityId) = identity.(identity_id);
  carries_from : i.(intent_from) = mkEmailAddress (Some identity.(identity_name)) identity.(identity_email);
  carries_replyTo : i.(intent_replyTo) = default [] identity.(identity_replyTo);
  carries_cc : i.(intent_cc) = [];
  carries_bcc : i.(intent_bcc) `sublist_of` default [] identity.(identity_bcc) ∧
    NoDup (List.map address_email i.(intent_bcc)) ∧
    ∀ email, email ∈ List.map address_email i.(intent_bcc) ↔
      email ∈ List.map address_email (default [] identity.(identity_bcc));
  carries_usable : Forall fits (intent_addresses i) → Forall address_usable (intent_addresses i);
}.

(** An address that the draft and the identity put in a header and that cannot be used. *)
Definition unusable (draft : ComposerState) (identity : Identity) : Prop :=
  ∃ to address, typed_recipients draft.(co_to) to ∧
    address ∈ mkEmailAddress (Some identity.(identity_name)) identity.(identity_email) ::
      default [] identity.(identity_replyTo) ++ to ++ default [] identity.(identity_bcc) ∧
    (fits address → ¬ address_usable address).

Lemma refused_address l e : assertAllUsable l = Throw e → ∃ address, address ∈ l ∧ (fits address → ¬ address_usable address).
Proof.
  induction l as [|a l IH]; cbn; [done|]. destruct (assertUsableOutboundAddress a) as [u|e'] eqn:Ha; cbn.
  - intros (b & Hb & Hbad)%IH. exists b. split; [by right|done].
  - intros _. exists a. split; [by left|]. intros Hfits Husable.
    apply (assertUsable_return a tt Hfits) in Husable. congruence.
Qed.

Lemma sent_as_composed identity draft :
  isWildcardIdentity identity = false → parseRecipients draft.(co_to) ≠ [] →
  match sendIntent (composed (parseRecipients draft.(co_to)) identity draft) with
  | Return intent => carries draft identity intent
  | Throw _ => unusable draft identity
  end.
Proof.
  intros Hwild Hto. pose proof (mergeBcc_spec [] identity.(identity_bcc)) as (Hnodup & Hsub & Hemails).
  unfold sendIntent, composed. cbn -[assertAllUsable parseRecipients mergeBcc]. rewrite Hwild. cbn -[assertAllUsable parseRecipients mergeBcc].
  rewrite bool_decide_eq_false_2 by (destruct (parseRecipients _); [done|cbn; lia]).
  cbn -[assertAllUsable parseRecipients mergeBcc].
  match goal with |- context[assertAllUsable ?l] => destruct (assertAllUsable l) as [u|e] eqn:Hall end;
    cbn -[assertAllUsable parseRecipients mergeBcc].
  - split; cbn -[parseRecipients mergeBcc]; try done.
    + split; [apply parsed_recipients|done].
    + split_and!; [exact Hsub|exact Hnodup|]. intros email. rewrite Hemails. split; [|by right].
      intros [Hno|]; [by apply elem_of_nil in Hno|done].
    + intros Hfits. by apply (assertAllUsable_return _ u Hfits).
  - destruct (refused_address _ _ Hall) as (a & Ha & Hbad). exists (parseRecipients draft.(co_to)), a.
    split_and!; [apply parsed_recipients| |done]. revert Ha. cbn -[parseRecipients mergeBcc].
    rewrite !elem_of_cons, !elem_of_app. intros [->|[Hr|[Ht|Hb]]]; [by left|right; by left|right; right; by left|].
    right; right; right. by eapply elem_of_sublist.
Qed.

Section sending.
Context {platform : Platform} {W : Type} `{!LocalEngine W}.
Context (elsewhere : ∀ X, ControllerCall X → outcome exn X) (st : Store).
Context (entropy now : string).
Context (entropy_given : elsewhere _ Entropy = Return entropy) (clock_given : elsewhere _ Clock = Return now)
  (clock_shows : now ≠ "").
Abbreviation running := (runs (over_engine elsewhere)).

Lemma running_change {A} (f : Application → Application) (g : unit → app A) s w Q :
  running (g tt) (f s, w) Q → running (change f ≫= g) (s, w) Q.
Proof. intros HQ. by apply running_atomically. Qed.

Lemma running_outcome {X A} (m : outcome exn X) (g : X → app A) p Q :
  match m with Return x => running (g x) p Q | Throw e => Q (Throw e) p end → running (of_outcome m ≫= g) p Q.
Proof. by destruct m. Qed.

Lemma running_entropy {A} (g : string → app A) p Q :
  running (g entropy) p Q → running (outside Entropy ≫= g) p Q.
Proof. unfold runs, outside. rewrite run_await. cbn. by rewrite entropy_given. Qed.
Lemma running_clock {A} (g : string → app A) p Q :
  running (g now) p Q → running (outside Clock ≫= g) p Q.
Proof. unfold runs, outside. rewrite run_await. cbn. by rewrite clock_given. Qed.

(** A write does what [spec] says, and answers so. *)
Lemma running_write {A} op (g : WriteResult → app A) s w Q :
  op_wf op → holding st w →
  (∀ w', holding (performed op st) w' →
     match spec op st with
     | Accepted _ _ => running (g (PortOk tt)) (s, w') Q
     | Rejected => running (g (PortError write_conflict)) (s, w') Q
     | MailStore.Refused e => Q (Throw e) (s, w')
     end) →
  running (port (Write op) ≫= g) (s, w) Q.
Proof.
  intros Hop [Hok Hst] HQ. unfold runs, port, outside. rewrite run_await. cbn.
  pose proof (engine_answers _ (Write op) w Hok Hop) as Hans. cbn in Hans.
  assert (holding (performed op st) (engine_answer (Write op) w).2) as Hst'.
  { split; [by apply engine_ok_kept|]. rewrite engine_writes by done. by apply performed_proper. }
  specialize (HQ _ Hst'). destruct (engine_answer (Write op) w) as [r w']. cbn in Hans, HQ |- *.
  destruct (spec_equiv op _ _ Hst) as [st1 st2 batch Heq| |e]; by subst r.
Qed.

(** The identities of an account that may send. *)
Definition may_send (accountKey : AccountKey) (identity : Identity) : Prop :=
  st_identity st identity.(identity_id) = Some identity ∧ identity.(identity_id).(DomainIds.accountKey) = accountKey ∧
  isWildcardIdentity identity = false.

Lemma first_identity_may_send k values :
  lists identity_id (λ i, i.(identity_id).(accountKey) = k) (st_identity st) values →
  match first_identity values with
  | Some identity => may_send k identity
  | None => ∀ identity, ¬ may_send k identity
  end.
Proof.
  intros [_ Hl]. unfold first_identity. pose proof (js_sort_perm (λ left right,
    localeCompare left.(identity_id).(jmapId) right.(identity_id).(jmapId))
    (List.filter (λ value, negb (isWildcardIdentity value)) values)) as Hp.
  destruct (js_sort _ _) as [|i l]; cbn.
  - intros i (Hi & Hk & Hwild). assert (i ∈ List.filter (λ value, negb (isWildcardIdentity value)) values) as Hin.
    { apply list_elem_of_In, filter_In. split; [apply list_elem_of_In, Hl; by split|by rewrite Hwild]. }
    rewrite <- Hp in Hin. by apply elem_of_nil in Hin.
  - assert (i ∈ List.filter (λ value, negb (isWildcardIdentity value)) values) as Hin by (rewrite <- Hp; by left).
    apply list_elem_of_In, filter_In in Hin as [Hin%list_elem_of_In Hwild%negb_true_iff].
    apply Hl in Hin as [Hk Hi]. by split_and!.
Qed.

Lemma staged_identity k input i :
  sendIntent input = Return i → input.(input_identity).(identity_id).(accountKey) = k →
  i.(intent_identityId).(accountKey) = k.
Proof.
  unfold sendIntent. destruct (isWildcardIdentity _); [done|]. cbn -[assertAllUsable]. destruct (bool_decide _); [done|].
  cbn -[assertAllUsable]. destruct (assertAllUsable _); cbn; [|done]. by intros [= <-].
Qed.

(** Why nothing is sent. *)
Definition not_sent (draft : ComposerState) (selected : option AccountKey) (error : SendError) : Prop :=
  match error with
  | emptyRecipient => typed_recipients draft.(co_to) []
  | notReady => ∀ accountKey, selected = Some accountKey → st_account st accountKey = None
  | noIdentity => ∃ accountKey, selected = Some accountKey ∧ ∀ identity, ¬ may_send accountKey identity
  | invalidAddress => ∃ accountKey identity, selected = Some accountKey ∧ may_send accountKey identity ∧
      unusable draft identity
  | engineError => ∃ accountKey, selected = Some accountKey ∧
      is_Some (st_mutation st (accountKey, "send-" +:+ entropy))
  end.

(** C14: Sending what the composer holds either stages it whole or keeps it.  If it
    succeeds, the store holds a new pending mutation of the selected account that carries
    the draft: the recipients typed between commas and semicolons, the subject, the text and
    the security of the draft, from an identity of that account with its reply and blind
    copy addresses, and nothing else; and the composer is empty.  Otherwise the store is as
    before, the draft is still in the composer with a message that says why, and the reason
    is real.  It never ends in another way. *)
Theorem send_is_staged_or_draft_kept (s : Application) (w : W) :
  holding st w →
  let '(r, (s', w')) := run (over_engine elsewhere) executeSend (s, w) in
  let draft := s.(composer) in
  match r with
  | Return (inl (accountKey, mutationId)) =>
      s.(mail).(ms_selectedAccountKey) = Some accountKey ∧ mutationId = "send-" +:+ entropy ∧
      st_mutation st (accountKey, mutationId) = None ∧ s'.(composer) = composer_initial ∧
      ∃ identity intent, may_send accountKey identity ∧ carries draft identity intent ∧
        holding (put_in_store (MutSend (mkSendMutation mutationId accountKey now intent pendingLifecycle)) st) w'
  | Return (inr error) =>
      holding st w' ∧ not_sent draft s.(mail).(ms_selectedAccountKey) error ∧
      ∃ text, s'.(composer) = setPhase composer_error (Some text) draft
  | Throw _ => False
  end.
Proof.
  intros Hw. enough (running executeSend (s, w) (λ r p, let draft := s.(composer) in
    match r with
    | Return (inl (accountKey, mutationId)) =>
        s.(mail).(ms_selectedAccountKey) = Some accountKey ∧ mutationId = "send-" +:+ entropy ∧
        st_mutation st (accountKey, mutationId) = None ∧ p.1.(composer) = composer_initial ∧
        ∃ identity intent, may_send accountKey identity ∧ carries draft identity intent ∧
          holding (put_in_store (MutSend (mkSendMutation mutationId accountKey now intent pendingLifecycle)) st) p.2
    | Return (inr error) =>
        holding st p.2 ∧ not_sent draft s.(mail).(ms_selectedAccountKey) error ∧
        ∃ text, p.1.(composer) = setPhase composer_error (Some text) draft
    | Throw _ => False
    end)) as H.
  { unfold runs in H. by destruct (run (over_engine elsewhere) _ _) as [r [s' w']]. }
  unfold executeSend. apply running_atomically.
  lazymatch goal with |- match ?a with _ => _ end => let b := eval cbv [mbind action_mbind action_bind modify read] in a in change a with b end.
  cbv beta iota.
  assert (∀ error text (s1 : Application) w1 (Q : outcome exn SendResult → Application * W → Prop),
    Q (Return (inr error)) (on_composer (setPhase composer_error (Some text)) s1, w1) →
    running (send_fails error text) (s1, w1) Q) as Hfails.
  { intros error text s1 w1 Q HQ. by apply running_change. }
  case_bool_decide as Hto.
  { apply Hfails. split_and!; [done| |by eexists]. cbn. rewrite <- Hto. apply parsed_recipients. }
  destruct (ms_selectedAccountKey _) as [k|] eqn:Hk.
  2: { apply Hfails. split_and!; [done|done|by eexists]. }
  apply (running_port _ _ _ st); [done..|]. intros [[[|values]|]|] w1 Hans Hw1; cbn in Hans; try done.
  { apply Hfails. split_and!; [done|by intros ? [= <-]|by eexists]. }
  destruct Hans as [Haccount Hlists]. apply first_identity_may_send in Hlists.
  destruct (first_identity values) as [identity|]; [|apply Hfails; split_and!; [done|by eexists|by eexists]].
  apply running_atomically. unfold read. cbv beta iota.
  match goal with |- context[sendIntent ?x] => change x with (composed (parseRecipients s.(composer).(co_to)) identity s.(composer)) end.
  pose proof (sent_as_composed identity s.(composer) (proj2 (proj2 Hlists)) Hto) as Hsent.
  destruct (sendIntent _) as [intent|e] eqn:Hintent; [|apply Hfails; split_and!; [done|by eexists _, _|by eexists]].
  apply runs_bind. unfold generateMutationId. apply running_entropy. unfold runs at 1. cbn [run].
  apply running_outcome. change (mutationIdFromString ("send-" +:+ entropy)) with (Return (E := exn) ("send-" +:+ entropy)).
  cbv beta iota. apply runs_bind. unfold nowMutationInstant. apply running_clock. apply runs_outcome.
  rewrite (proj2 (mutationInstantFromString_return now now)) by done. apply running_outcome.
  unfold sendMutation. rewrite (staged_identity k _ _ Hintent) by apply Hlists. rewrite bool_decide_eq_true_2 by done.
  cbn [negb throw_if mbind outcome_mbind outcome_bind].
  match goal with |- context[OpStageSendMutation ?m] => set (mutation := m) end.
  apply running_write; [done|done|]. intros w2 Hw2. unfold performed in Hw2. cbn [spec] in Hw2 |- *.
  unfold spec_stage, reject_unless in *. destruct (decide (stageable _ st)) as [[_ Hnew]|Hno].
  - apply running_change. unfold runs. cbn [run fst snd]. split_and!; [done..|]. by exists identity, intent.
  - apply Hfails. split_and!; [done| |by eexists]. exists k. split; [done|].
    destruct (st_mutation st (k, "send-" +:+ entropy)) eqn:Hm; [by eexists|]. by destruct Hno.
Qed.
End sending.

(** ** Witnesses *)

Module ControllerFixtures.
#[export] Existing Instance plain_platform.

Definition everything : Installed := mkInstalled true true true true true.
Definition quiet_remote : RemoteView := mkRemoteView (λ _, onlineStatus) false [].

(** A store with a view of the inbox, the body of its first message and an identity. *)
Definition inbox_view : MailboxView :=
  mkMailboxView (default_view (mailbox_id Fixtures.inbox)) "q1" (Int 2) [mkRange (Int 0) (Int 2)]
    [mkItem (Int 0) (email_id first_email); mkItem (Int 1) (email_id second_email)].
Definition first_body : EmailBody := mkEmailBody (email_id first_email) (Some "Hello Ana") None.
Definition full_ops : list SyncOp := [
  OpReplaceMailboxView inbox_view; OpCacheEmailBody first_body;
  OpApplyCollectionSync (IdentityCommit (Replace ExpectAbsent (cursor_at data_identity "i1") [ana_identity]))].
Definition full : World := perform_all full_ops seeded.
Lemma full_ok : state_wf (db full).
Proof. apply perform_all_wf, seeded_ok. Defined.

(** The ports answer from [full]; what else is asked for succeeds. *)
Definition full_elsewhere X (c : ControllerCall X) : outcome exn X :=
  match c in ControllerCall X return outcome exn X with
  | ControllerPort c => (memory_answer _ c full).1
  | SubscribeChanges => Return (Some 0)
  | UnsubscribeChanges _ | RemoteConnect _ | RemoteRefresh _ | Materialize _ | WorkerSync _ _
  | WorkerSend _ _ _ | OnAuthenticated => Return tt
  | Authorize _ _ => Return "ref"
  | RunMutation _ _ => Return outcome_confirmed
  | FreshAccountKey => Return "fresh"
  | Entropy => Return "e7"
  | Clock => Return "2024-05-01T10:00:00.000Z"
  end.
Definition full_answer X (c : with_state Application ControllerCall X) (s : Application) :
    outcome exn X * Application :=
  match c in with_state _ _ X return outcome exn X * Application with
  | Atomic f => f s
  | Outside c => (full_elsewhere _ c, s)
  end.

Lemma full_answers X c s : given_answers answered_as_asked X c s (full_answer X c s).1 (full_answer X c s).2.
Proof.
  unfold given_answers. destruct c as [X f|X c]; cbn; [split; [by destruct (f s)|done]|]. split; [done|].
  destruct c as [X c| | | | | | | | | | | | | ]; try done. unfold answered_as_asked, full_elsewhere.
  destruct (is_write c) eqn:Hw; [by destruct c|].
  apply (store_answers_as_asked c (abs (db full))); [apply memory_keyed, full_ok|].
  apply (engine_answers (LocalEngine := memory_engine) _ c full); [apply full_ok|by destruct c].
Qed.

Definition run_together (ps : list (app unit)) (schedule : list nat) : system (with_state Application ControllerCall) unit Application :=
  follow full_answer schedule (start ps (application_initial quiet_remote)).

Lemma run_together_reaches ps schedule :
  Forall (controller_method everything) ps → controller_reaches everything ps quiet_remote (run_together ps schedule).
Proof. intros Hps. split; [done|]. apply follow_reaches, full_answers. Qed.
End ControllerFixtures.
Import ControllerFixtures.

(** Everything is read; then the inbox is selected, and while its window is read the second
    message: the last of them wins. *)
Definition browsing : list (app unit) :=
  [initialize everything; selectMailbox everything (mailbox_id Fixtures.inbox);
   selectEmail everything (email_id second_email)].

Lemma screen_is_coherent_witness :
  let σ := run_together browsing (replicate 13 0 ++ replicate 3 1 ++ [2] ++ replicate 20 1 ++ replicate 20 2)%nat in
  coherent everything σ.(world) ∧ σ.(world).(mail).(ms_emails) = [first_email; second_email] ∧
  σ.(world).(mail).(ms_selectedEmailId) = Some (email_id second_email).
Proof.
  split; [|by vm_compute]. apply (screen_is_coherent everything browsing quiet_remote).
  apply run_together_reaches. repeat constructor.
Defined.

(** An account is refreshed while another call of the same asks for it. *)
Definition refreshing_twice : list (app unit) :=
  [starts (refreshAccount everything ana); starts (refreshAccount everything ana)].

Lemma attempts_are_exclusive_witness :
  ∃ k, (run_together refreshing_twice [0; 1]%nat).(programs) !! 0%nat = Some (Call (Outside (RemoteRefresh ana)) k) ∧
  0%nat = 0%nat.
Proof.
  eexists. split; [reflexivity|].
  eapply (attempts_are_exclusive everything refreshing_twice quiet_remote (run_together refreshing_twice [0; 1]%nat) 0 0
    _ _ (RemoteRefresh ana) (RemoteRefresh ana) _ _ RefreshAttempt); try reflexivity.
  apply run_together_reaches. repeat constructor.
Defined.



Lemma reread_shows_the_store_witness :
  let '(r, (s', w')) := run (over_engine (LocalEngine0 := memory_engine) full_elsewhere) (refreshAccounts everything)
    (application_initial quiet_remote, full) in
  r = Return tt ∧ displays (abs (db full)) s'.
Proof.
  pose proof (reread_shows_the_store everything full_elsewhere (abs (db full)) (memory_keyed full full_ok)
    (application_initial quiet_remote) full) as H.
  assert (holding (abs (db full)) full) as Hw by (split; [exact full_ok|done]).
  specialize (H Hw eq_refl). destruct (run _ _ _) as [r [s' w']]. destruct H as (Hr & _ & Hd & _). by split.
Defined.

Definition composing : Application :=
  on_composer (λ _, mkComposerState true "carol@example.org; dan@example.org" "" "" "Hi" "Hello" mode_plain
    composer_editing None)
    (on_mail (selectAccountInStore (Some ana)) (application_initial quiet_remote)).

Lemma send_is_staged_or_draft_kept_witness :
  let '(r, (s', w')) := run (over_engine (LocalEngine0 := memory_engine) full_elsewhere) executeSend (composing, full) in
  r = Return (inl (ana, "send-e7")) ∧ s'.(composer) = composer_initial.
Proof.
  pose proof (send_is_staged_or_draft_kept full_elsewhere (abs (db full)) "e7" "2024-05-01T10:00:00.000Z" eq_refl eq_refl
    ltac:(done) composing full) as H.
  assert (holding (abs (db full)) full) as Hw by (split; [exact full_ok|done]).
  specialize (H Hw). destruct (run _ _ _) as [r [s' w']] eqn:Hrun.
  assert (r = Return (inl (ana, "send-e7"))) as -> by (replace r with (run (over_engine (LocalEngine0 := memory_engine) full_elsewhere) executeSend (composing, full)).1 by (by rewrite Hrun); vm_compute; reflexivity).
  split; [reflexivity|]. by destruct H as (_ & _ & _ & H & _).
Defined.
