(* ===== verification/Workers.v ===== *)
(** * The JMAP worker: workers/protocol.ts, jmap/auth/token-manager.ts,
    workers/ipc-bridge.ts, workers/jmap-worker.ts and app/worker-client.ts

    The worker owns the token and the JMAP session; the main thread asks it by messages,
    and runs the native commands that the worker cannot run.  [postMessage] appends to a
    log; [link_step], at the end, carries the messages across.  A handler is a program
    whose synchronous parts are atomic; what it awaits answers later, and other
    messages, timers and calls come in between. *)

From S2P Require Import Prelude.
From S2P Require Import JsNumber.
From S2P Require Import JsString.
From S2P Require Import JsCollections.
From S2P Require Import Errors.
From S2P Require Import DomainIds.
From S2P Require Import Remote.
From S2P Require Import Prog.
From S2P Require Import Json.
From S2P Require Import TauriAdapters.
From S2P Require Import SharedState.
From S2P Require Import RemoteApplication.
From S2P Require Import Outbox.
Open Scope string_scope.
Open Scope list_scope.
Open Scope js_scope.

(** ** workers/protocol.ts *)

Definition WorkerRequestId : Type := string.

Definition workerRequestIdFromString (value : string) : outcome exn WorkerRequestId :=
  throw_if (is_empty value) (TypeError "WorkerRequestId cannot be empty");;
  Return value.

Record RemoteSessionInput : Type := mkSessionInput {
  input_sessionUrl : string;
  input_token : string;
  input_expiresInSeconds : option number;
}.

Inductive RemoteConnectionStatus : Type :=
| conn_anonymous | conn_connecting | conn_authenticated | conn_expired | conn_error.

(** The payload of an [IPC_INVOKE_RESULT]; the value crosses unread. *)
Inductive IpcFailureKind : Type := ipc_unavailable | ipc_unexpected.
Inductive IpcInvokeOutcome : Type :=
| IpcValue (value : json)
| IpcFailed (kind : IpcFailureKind) (message : string).

Inductive MainToWorkerMessage : Type :=
| INIT_SESSION (requestId : WorkerRequestId) (payload : RemoteSessionInput)
| TEARDOWN_SESSION (requestId : WorkerRequestId)
| SYNC_ACCOUNT (requestId : WorkerRequestId) (accountKey : AccountKey) (jmapAccountId : string)
| SEND_EMAIL (requestId : WorkerRequestId) (accountKey : AccountKey) (jmapAccountId : string)
    (mutationId : MutationId)
| IPC_INVOKE_RESULT (requestId : WorkerRequestId) (payload : IpcInvokeOutcome).

(** [outcome.kind] of a send. *)
Inductive SendOutcomeKind : Type := sent | skipped | needsReconciliation.
Definition outcome_kind (outcome : SendMutationOutcome) : SendOutcomeKind :=
  match outcome with
  | send_sent => sent
  | send_needsReconciliation => needsReconciliation
  | send_skipped _ => skipped
  end.

Inductive WorkerToMainMessage : Type :=
| SESSION_READY (requestId : WorkerRequestId) (primaryAccounts : jsmap string RemoteAccountId)
| SESSION_ERROR (requestId : WorkerRequestId) (error : string)
| SESSION_TEARDOWN (canary : string)
| TEARDOWN_COMPLETE (requestId : WorkerRequestId) (canary : string)
| SYNC_SUCCESS (requestId : WorkerRequestId) (accountKey : AccountKey)
| SYNC_ERROR (requestId : WorkerRequestId) (accountKey : AccountKey) (error : string)
| SEND_SUCCESS (requestId : WorkerRequestId) (mutationId : MutationId) (outcome : SendOutcomeKind)
| SEND_ERROR (requestId : WorkerRequestId) (mutationId : MutationId) (error : string)
| STATE_CHANGE (changed : json)
| CONNECTION_STATUS (status : RemoteConnectionStatus)
| IPC_INVOKE (requestId : WorkerRequestId) (command : string) (request : json).

#[export] Instance SendOutcomeKind_eq_dec : EqDecision SendOutcomeKind.
Proof. solve_decision. Defined.
#[export] Instance RemoteConnectionStatus_eq_dec : EqDecision RemoteConnectionStatus.
Proof. solve_decision. Defined.

(** ** jmap/auth/token-manager.ts

    [Owner] is the state of the object that owns the manager; a listener is a number, and
    [call] is what it does.  The event loop's timers are a list: [setTimeout] adds one,
    [clearTimeout] removes it, and so does firing. *)

Record TokenManager : Type := mkTokenManager {
  currentToken : option string;
  expirationTimer : option nat;
  token_listeners : list (option nat);
  scheduled : jsmap nat number;
  next_timer : nat;
}.

Definition new_tokenManager : TokenManager := mkTokenManager None None [] [] 0.

(** [n * 1000]. *)
Definition milliseconds (n : number) : number :=
  match scaled n with
  | Some (m, k) => of_scaled (m * 1000) k
  | None => n
  end.

(** [clearTimeout(timer)]. *)
Definition clear_timer {A} (timer : nat) (timers : jsmap nat A) : jsmap nat A :=
  map_delete timer timers.

Definition clearToken (tokens : TokenManager) : TokenManager :=
  match tokens.(expirationTimer) with
  | Some timer =>
      mkTokenManager None None tokens.(token_listeners) (clear_timer timer tokens.(scheduled))
        tokens.(next_timer)
  | None =>
      mkTokenManager None None tokens.(token_listeners) tokens.(scheduled) tokens.(next_timer)
  end.

Definition setToken (token : string) (expiresInSeconds : option number) (tokens : TokenManager) :
    TokenManager :=
  let tokens := clearToken tokens in
  match expiresInSeconds with
  | Some seconds =>
      if num_ltb (Int 0) seconds then
        mkTokenManager (Some token) (Some tokens.(next_timer)) tokens.(token_listeners)
          (tokens.(scheduled) ++ [(tokens.(next_timer), milliseconds seconds)])
          (S tokens.(next_timer))
      else mkTokenManager (Some token) None tokens.(token_listeners) tokens.(scheduled) tokens.(next_timer)
  | None => mkTokenManager (Some token) None tokens.(token_listeners) tokens.(scheduled) tokens.(next_timer)
  end.

Definition getToken (tokens : TokenManager) : option string := tokens.(currentToken).

(** An empty token is falsy. *)
Definition getAuthConfig (tokens : TokenManager) : option string :=
  match tokens.(currentToken) with
  | Some token => if is_empty token then None else Some token
  | None => None
  end.

Definition getCanaryStatus (tokens : TokenManager) : string :=
  match tokens.(currentToken) with
  | None => "TOKEN_CLEARED_OK"
  | Some _ => "TOKEN_LEAK_WARN"
  end.

Definition onTokenExpired (listener : nat) (tokens : TokenManager) : TokenManager :=
  mkTokenManager tokens.(currentToken) tokens.(expirationTimer)
    (entries_add listener tokens.(token_listeners)) tokens.(scheduled) tokens.(next_timer).

(** The function it returns. *)
Definition offTokenExpired (listener : nat) (tokens : TokenManager) : TokenManager :=
  mkTokenManager tokens.(currentToken) tokens.(expirationTimer)
    (entries_delete listener tokens.(token_listeners)) tokens.(scheduled) tokens.(next_timer).

Section token_manager.
Context {Owner : Type} (tokens : Owner → TokenManager) (put_tokens : TokenManager → Owner → Owner).
Context (call : nat → action exn Owner unit).

(** [try { listener() } catch { console.error(...) }]. *)
Definition call_safely (listener : nat) : action exn Owner unit := λ s, (Return tt, (call listener s).2).

(** The walk over the set, which listeners may change; [rounds] bounds it. *)
Fixpoint notifyExpired (rounds position : nat) : action exn Owner unit :=
  match rounds with
  | O => mret tt
  | S rounds =>
      entry ← read (λ s, (tokens s).(token_listeners) !! position);
      match entry with
      | None => mret tt
      | Some None => notifyExpired rounds (position + 1)
      | Some (Some listener) => call_safely listener;; notifyExpired rounds (position + 1)
      end
  end.

Definition invalidate (rounds : nat) : action exn Owner unit :=
  modify (λ s, put_tokens (clearToken (tokens s)) s);;
  notifyExpired rounds 0.

(** A timer of the manager fires, if it is still there. *)
Definition fire_timer (rounds timer : nat) : action exn Owner unit :=
  there ← read (λ s, map_has timer (tokens s).(scheduled));
  if (there : bool) then
    modify (λ s, let m := tokens s in
      put_tokens (mkTokenManager m.(currentToken) m.(expirationTimer) m.(token_listeners)
        (clear_timer timer m.(scheduled)) m.(next_timer)) s);;
    invalidate rounds
  else mret tt.
End token_manager.

(** ** workers/ipc-bridge.ts *)

Definition ALLOWED_COMMANDS : list string := IPC_READ_COMMANDS ++ IPC_WRITE_COMMANDS.

(** A promise is a number; [bridge_settled] logs the calls of its [resolve] and
    [reject], [bridge_invoked] what it was made for. *)
Record Bridge : Type := mkBridge {
  bridge_pending : jsmap WorkerRequestId nat;
  bridge_counter : nat;
  bridge_invoked : list (string * json);
  bridge_settled : list (nat * outcome exn json);
}.

Definition new_bridge : Bridge := mkBridge map_new 0 [] [].

Definition worker_request_id (counter : nat) : WorkerRequestId := "w:" +:+ decimal counter.
Definition main_request_id (counter : nat) : WorkerRequestId := "m:" +:+ decimal counter.

(** [invoke]: the promise, and the message it posts. *)
Definition bridge_invoke (command : string) (request : option json) (bridge : Bridge) :
    nat * option WorkerToMainMessage * Bridge :=
  let promise := length bridge.(bridge_invoked) in
  let payload := default (JObject map_new) request in
  let invoked := bridge.(bridge_invoked) ++ [(command, payload)] in
  if negb (bool_decide (command ∈ ALLOWED_COMMANDS)) then
    (promise, None,
     mkBridge bridge.(bridge_pending) bridge.(bridge_counter) invoked
       (bridge.(bridge_settled) ++ [(promise, Throw (Error ("ipc-bridge: command " +:+ quoted command +:+
          " is not in the Local Engine allowlist")))]))
  else
    let counter := S bridge.(bridge_counter) in
    let requestId := worker_request_id counter in
    (promise, Some (IPC_INVOKE requestId command payload),
     mkBridge (map_set requestId promise bridge.(bridge_pending)) counter invoked bridge.(bridge_settled)).

Definition resolveInvoke (requestId : WorkerRequestId) (payload : IpcInvokeOutcome) (bridge : Bridge) :
    Bridge :=
  match map_get requestId bridge.(bridge_pending) with
  | None => bridge
  | Some promise =>
      mkBridge (map_delete requestId bridge.(bridge_pending)) bridge.(bridge_counter)
        bridge.(bridge_invoked)
        (bridge.(bridge_settled) ++
           [(promise, match payload with
                      | IpcValue value => Return value
                      | IpcFailed _ message => Throw (Error message)
                      end)])
  end.

(** [unsupportedListen]. *)
Definition unsupportedListen : outcome exn (nat → bool) :=
  Throw (Error ("ipc-bridge: listen() is not supported inside the JMAP worker " +:+
    "(LocalChangeSource is Application-only, see docs/architecture/layers.md)")).

(** ** workers/jmap-worker.ts

    What a handler does to the outside at once is logged: a message, a JMAP client that
    is made (its number, its URL, its token), a session whose [close()] is called.  The
    coordinator and the outbox are those made for a session: they are its number. *)

Inductive WorkerEffect : Type :=
| Post (message : WorkerToMainMessage)
| MadeClient (client : nat) (sessionUrl token : string)
| ClosedSession (session : nat).

Record Worker : Type := mkWorker {
  tokenManager : TokenManager;
  jmapClient : option nat;
  remoteSession : option RemoteSession;
  coordinator : option nat;
  worker_outbox : option nat;
  sessionGeneration : nat;
  explicitTeardownInFlight : bool;
  invalidationStatus : RemoteConnectionStatus;
  bridge : Bridge;
  emitted : list WorkerEffect;
  next_client : nat;
}.

Inductive WorkerCall : Type → Type :=
| OpenJmap (client : nat) : WorkerCall RemoteSession
| SyncWith (coordinator : nat) (accountKey : AccountKey) (remoteAccountId : RemoteAccountId) :
    WorkerCall unit
| SendWith (outbox : nat) (accountKey : AccountKey) (remoteAccountId : RemoteAccountId)
    (mutationId : MutationId) : WorkerCall SendMutationOutcome.

Abbreviation worker_method := (prog (with_state Worker WorkerCall)).
Abbreviation worker_action := (action exn Worker).

Definition put_tokenManager (x : TokenManager) (s : Worker) : Worker :=
  mkWorker x s.(jmapClient) s.(remoteSession) s.(coordinator) s.(worker_outbox) s.(sessionGeneration)
    s.(explicitTeardownInFlight) s.(invalidationStatus) s.(bridge) s.(emitted) s.(next_client).
Definition put_client (x : option nat) (next : nat) (s : Worker) : Worker :=
  mkWorker s.(tokenManager) x s.(remoteSession) s.(coordinator) s.(worker_outbox) s.(sessionGeneration)
    s.(explicitTeardownInFlight) s.(invalidationStatus) s.(bridge) s.(emitted) next.
Definition put_session (x : option RemoteSession) (c o : option nat) (s : Worker) : Worker :=
  mkWorker s.(tokenManager) s.(jmapClient) x c o s.(sessionGeneration)
    s.(explicitTeardownInFlight) s.(invalidationStatus) s.(bridge) s.(emitted) s.(next_client).
Definition put_generation (x : nat) (s : Worker) : Worker :=
  mkWorker s.(tokenManager) s.(jmapClient) s.(remoteSession) s.(coordinator) s.(worker_outbox) x
    s.(explicitTeardownInFlight) s.(invalidationStatus) s.(bridge) s.(emitted) s.(next_client).
Definition put_teardown (x : bool) (s : Worker) : Worker :=
  mkWorker s.(tokenManager) s.(jmapClient) s.(remoteSession) s.(coordinator) s.(worker_outbox)
    s.(sessionGeneration) x s.(invalidationStatus) s.(bridge) s.(emitted) s.(next_client).
Definition put_invalidation (x : RemoteConnectionStatus) (s : Worker) : Worker :=
  mkWorker s.(tokenManager) s.(jmapClient) s.(remoteSession) s.(coordinator) s.(worker_outbox)
    s.(sessionGeneration) s.(explicitTeardownInFlight) x s.(bridge) s.(emitted) s.(next_client).
Definition put_bridge (x : Bridge) (s : Worker) : Worker :=
  mkWorker s.(tokenManager) s.(jmapClient) s.(remoteSession) s.(coordinator) s.(worker_outbox)
    s.(sessionGeneration) s.(explicitTeardownInFlight) s.(invalidationStatus) x s.(emitted)
    s.(next_client).
Definition emit (effects : list WorkerEffect) (s : Worker) : Worker :=
  mkWorker s.(tokenManager) s.(jmapClient) s.(remoteSession) s.(coordinator) s.(worker_outbox)
    s.(sessionGeneration) s.(explicitTeardownInFlight) s.(invalidationStatus) s.(bridge)
    (s.(emitted) ++ effects) s.(next_client).

Definition post (message : WorkerToMainMessage) : worker_action unit := modify (emit [Post message]).
Definition postStatus (status : RemoteConnectionStatus) : worker_action unit :=
  post (CONNECTION_STATUS status).

Definition resetToAnonymous : worker_action unit := modify (λ s,
  let closing := s.(remoteSession) in
  let s := put_session None None None (put_client None s.(next_client)
             (put_generation (s.(sessionGeneration) + 1) s)) in
  match closing with
  | Some session => emit [ClosedSession session.(session_handle)] s
  | None => s
  end).

(** The listener that the runtime registers: number 0. *)
Definition on_expired : worker_action unit :=
  resetToAnonymous;;
  status ← read invalidationStatus;
  postStatus status;;
  modify (put_invalidation conn_expired);;
  explicit ← read explicitTeardownInFlight;
  if (explicit : bool) then mret tt
  else
    canary ← read (λ s, getCanaryStatus s.(tokenManager));
    post (SESSION_TEARDOWN canary).

Definition run_token_listener (listener : nat) : worker_action unit :=
  match listener with O => on_expired | S _ => mret tt end.

(** The set has one element and nothing changes it: one round more than that. *)
Definition invalidate_token : worker_action unit :=
  invalidate tokenManager put_tokenManager run_token_listener 2.

(** [createWorkerRuntime]. *)
Definition new_worker : Worker :=
  mkWorker (onTokenExpired 0 new_tokenManager) None None None None 0 false conn_expired new_bridge [] 0.

Definition safeRemoteError (error : exn) : string :=
  match error with
  | ThrownRemoteError error =>
      if error.(remote_kind) === kind_auth then "Remote authentication failed" else "Remote operation failed"
  | _ => "Remote operation failed"
  end.

Definition invalidateOnAuthError (error : exn) (operationClient : option nat) : worker_action unit :=
  client ← read jmapClient;
  match error with
  | ThrownRemoteError error =>
      if (error.(remote_session) === session_expire) && (client === operationClient) then
        modify (put_invalidation conn_expired);;
        invalidate_token
      else mret tt
  | _ => mret tt
  end.

(** [INIT_SESSION], up to [connection.open()]: the generation and the client to open with. *)
Definition begin_session (requestId : WorkerRequestId) (input : RemoteSessionInput) :
    worker_action (option (nat * nat)) :=
  postStatus conn_connecting;;
  modify (λ s, put_tokenManager
    (setToken input.(input_token) input.(input_expiresInSeconds) s.(tokenManager)) s);;
  authConfig ← read (λ s, getAuthConfig s.(tokenManager));
  match authConfig with
  | None =>
      postStatus conn_error;;
      post (SESSION_ERROR requestId "Failed to store the session token.");;
      mret None
  | Some token =>
      resetToAnonymous;;
      generation ← read sessionGeneration;
      client ← read next_client;
      modify (emit [MadeClient client input.(input_sessionUrl) token]);;
      modify (put_client (Some client) (S client));;
      mret (Some (generation, client))
  end.

(** [Object.fromEntries] of the capabilities of all accounts. *)
Definition primary_accounts (session : RemoteSession) : jsmap string RemoteAccountId :=
  fold_left (λ m entry, map_set entry.1 entry.2 m)
    (descriptor ← session.(session_accounts);
     List.map (λ capability, (capability, descriptor.(descriptor_id))) descriptor.(descriptor_capabilities))
    map_new.

(** The [then] of [open]. *)
Definition session_opened (requestId : WorkerRequestId) (generation client : nat) (session : RemoteSession) :
    worker_action unit :=
  superseded ← read (λ s, negb (generation =? s.(sessionGeneration))%nat ||
    (s.(jmapClient) !== Some client) || (getToken s.(tokenManager) === None));
  if (superseded : bool) then modify (emit [ClosedSession session.(session_handle)])
  else
    modify (put_session (Some session) (Some session.(session_handle)) (Some session.(session_handle)));;
    postStatus conn_authenticated;;
    post (SESSION_READY requestId (primary_accounts session)).

(** Its [catch]. *)
Definition session_failed (requestId : WorkerRequestId) (generation : nat) (error : exn) : worker_action unit :=
  current ← read (λ s, (generation =? s.(sessionGeneration))%nat);
  if negb current then mret tt
  else
    modify (λ s, put_tokenManager (clearToken s.(tokenManager)) s);;
    resetToAnonymous;;
    postStatus conn_error;;
    post (SESSION_ERROR requestId (safeRemoteError error)).

Definition teardown (requestId : WorkerRequestId) : worker_action unit :=
  modify (put_teardown true);;
  modify (put_invalidation conn_anonymous);;
  invalidate_token;;
  modify (put_teardown false);;
  canary ← read (λ s, getCanaryStatus s.(tokenManager));
  post (TEARDOWN_COMPLETE requestId canary).

(** [SYNC_ACCOUNT] and [SEND_EMAIL], up to the call: the coordinator or the outbox, the
    client it works for, and the account.  [remoteAccountIdFromString] may throw. *)
Definition begin_operation (performer : Worker → option nat) (refusal : WorkerToMainMessage)
    (jmapAccountId : string) : worker_action (option (nat * option nat * RemoteAccountId)) :=
  active ← read performer;
  operationClient ← read jmapClient;
  match active with
  | None => post refusal;; mret None
  | Some active =>
      remoteAccountId ← pure_step (remoteAccountIdFromString jmapAccountId);
      mret (Some (active, operationClient, remoteAccountId))
  end.

Definition operation_failed (operationClient : option nat) (error : exn) (refusal : WorkerToMainMessage) :
    worker_action unit :=
  invalidateOnAuthError error operationClient;;
  post refusal.

Definition no_session : string := "No authenticated JMAP session".

Definition handleMessage (data : MainToWorkerMessage) : worker_method unit :=
  match data with
  | IPC_INVOKE_RESULT requestId payload =>
      atomically (modify (λ s, put_bridge (resolveInvoke requestId payload s.(bridge)) s))
  | INIT_SESSION requestId payload =>
      started ← atomically (begin_session requestId payload);
      match started with
      | None => Ret tt
      | Some (generation, client) =>
          prog_try
            (session ← outside (OpenJmap client);
             atomically (session_opened requestId generation client session))
            (λ error, atomically (session_failed requestId generation error))
      end
  | TEARDOWN_SESSION requestId => atomically (teardown requestId)
  | SYNC_ACCOUNT requestId accountKey jmapAccountId =>
      started ← atomically (begin_operation coordinator (SYNC_ERROR requestId accountKey no_session) jmapAccountId);
      match started with
      | None => Ret tt
      | Some (active, operationClient, remoteAccountId) =>
          prog_try
            (outside (SyncWith active accountKey remoteAccountId);;
             atomically (post (SYNC_SUCCESS requestId accountKey)))
            (λ error, atomically (operation_failed operationClient error
               (SYNC_ERROR requestId accountKey (safeRemoteError error))))
      end
  | SEND_EMAIL requestId accountKey jmapAccountId mutationId =>
      started ← atomically (begin_operation worker_outbox (SEND_ERROR requestId mutationId no_session) jmapAccountId);
      match started with
      | None => Ret tt
      | Some (active, operationClient, remoteAccountId) =>
          prog_try
            (outcome ← outside (SendWith active accountKey remoteAccountId mutationId);
             atomically (post (SEND_SUCCESS requestId mutationId (outcome_kind outcome))))
            (λ error, atomically (operation_failed operationClient error
               (SEND_ERROR requestId mutationId (safeRemoteError error))))
      end
  end.

(** The worker's timers, and the calls of its adapters to the bridge. *)
Definition token_timer (timer : nat) : worker_method unit :=
  atomically (fire_timer tokenManager put_tokenManager run_token_listener 2 timer).

Definition worker_invoke (command : string) (request : option json) : worker_method unit :=
  atomically (modify (λ s,
    let '(_, message, b) := bridge_invoke command request s.(bridge) in
    emit (match message with Some m => [Post m] | None => [] end) (put_bridge b s))).

(** ** app/worker-client.ts *)

Definition ALLOWED_IPC_COMMANDS : list string := IPC_READ_COMMANDS ++ IPC_WRITE_COMMANDS.

(** What a promise resolves with. *)
Inductive WorkerAnswer : Type :=
| AnswerSession (primaryAccounts : jsmap string RemoteAccountId)
| AnswerTeardown (canary : string)
| AnswerSync (accountKey : AccountKey)
| AnswerSend (mutationId : MutationId) (outcome : SendOutcomeKind).

Inductive WorkerRequest : Type :=
| RequestInit (input : RemoteSessionInput)
| RequestTeardown
| RequestSync (accountKey : AccountKey) (jmapAccountId : string)
| RequestSend (accountKey : AccountKey) (jmapAccountId : string) (mutationId : MutationId).

Definition request_type (request : WorkerRequest) : string :=
  match request with
  | RequestInit _ => "INIT_SESSION"
  | RequestTeardown => "TEARDOWN_SESSION"
  | RequestSync _ _ => "SYNC_ACCOUNT"
  | RequestSend _ _ _ => "SEND_EMAIL"
  end.

(** [{ type, requestId, ...rest }]. *)
Definition request_message (requestId : WorkerRequestId) (request : WorkerRequest) : MainToWorkerMessage :=
  match request with
  | RequestInit input => INIT_SESSION requestId input
  | RequestTeardown => TEARDOWN_SESSION requestId
  | RequestSync accountKey jmapAccountId => SYNC_ACCOUNT requestId accountKey jmapAccountId
  | RequestSend accountKey jmapAccountId mutationId => SEND_EMAIL requestId accountKey jmapAccountId mutationId
  end.

Record PendingRequest : Type := mkPending {
  pending_promise : nat;
  pending_timer : nat;
}.

(** A timer keeps what its function captures. *)
Record TimeoutClosure : Type := mkTimeout {
  timeout_requestId : WorkerRequestId;
  timeout_type : string;
  timeout_promise : nat;
}.

Inductive ListenerKind : Type := on_status | on_change | on_teardown.

(** A promise is the number of its request; [client_requests] logs the requests,
    [client_settled] the calls of [resolve] and [reject], [client_sent] the messages. *)
Record WorkerClient : Type := mkClient {
  client_pending : jsmap WorkerRequestId PendingRequest;
  client_counter : nat;
  connectionStatusListeners : list (option nat);
  stateChangeListeners : list (option nat);
  sessionTeardownListeners : list (option nat);
  client_timers : jsmap nat TimeoutClosure;
  client_next_timer : nat;
  client_requests : list WorkerRequest;
  client_settled : list (nat * outcome exn WorkerAnswer);
  client_sent : list MainToWorkerMessage;
  terminated : bool;
}.

Definition new_client : WorkerClient := mkClient map_new 0 [] [] [] [] 0 [] [] [] false.

Inductive ClientCall : Type → Type :=
| TauriInvoke (command : string) (request : json) : ClientCall json
| CallStatusListener (listener : nat) (status : RemoteConnectionStatus) : ClientCall unit
| CallChangeListener (listener : nat) (changed : json) : ClientCall unit
| CallTeardownListener (listener : nat) (canary : string) : ClientCall unit.

Abbreviation client_method := (prog (with_state WorkerClient ClientCall)).
Abbreviation client_action := (action exn WorkerClient).

Definition put_requests (pending : jsmap WorkerRequestId PendingRequest) (timers : jsmap nat TimeoutClosure)
    (settled : list (nat * outcome exn WorkerAnswer)) (s : WorkerClient) : WorkerClient :=
  mkClient pending s.(client_counter) s.(connectionStatusListeners) s.(stateChangeListeners)
    s.(sessionTeardownListeners) timers s.(client_next_timer) s.(client_requests) settled
    s.(client_sent) s.(terminated).
Definition put_client_listeners (kind : ListenerKind) (f : list (option nat) → list (option nat))
    (s : WorkerClient) : WorkerClient :=
  let on k l := match kind, k with
    | on_status, on_status | on_change, on_change | on_teardown, on_teardown => f l
    | _, _ => l
    end in
  mkClient s.(client_pending) s.(client_counter) (on on_status s.(connectionStatusListeners))
    (on on_change s.(stateChangeListeners)) (on on_teardown s.(sessionTeardownListeners))
    s.(client_timers) s.(client_next_timer) s.(client_requests) s.(client_settled) s.(client_sent)
    s.(terminated).
Definition put_sent (message : MainToWorkerMessage) (s : WorkerClient) : WorkerClient :=
  mkClient s.(client_pending) s.(client_counter) s.(connectionStatusListeners) s.(stateChangeListeners)
    s.(sessionTeardownListeners) s.(client_timers) s.(client_next_timer) s.(client_requests)
    s.(client_settled) (s.(client_sent) ++ [message]) s.(terminated).

(** [initSession], [teardownSession], [syncAccount] and [sendEmail], by [request]. *)
Definition client_request (request : WorkerRequest) : client_action nat := λ s,
  let counter := S s.(client_counter) in
  let requestId := main_request_id counter in
  let promise := length s.(client_requests) in
  let timer := s.(client_next_timer) in
  (Return promise,
   put_sent (request_message requestId request)
     (mkClient (map_set requestId (mkPending promise timer) s.(client_pending)) counter
        s.(connectionStatusListeners) s.(stateChangeListeners) s.(sessionTeardownListeners)
        (s.(client_timers) ++ [(timer, mkTimeout requestId (request_type request) promise)])
        (S timer) (s.(client_requests) ++ [request]) s.(client_settled) s.(client_sent) s.(terminated))).

(** The function given to [setTimeout], if the timer is still there. *)
Definition request_timeout (timer : nat) (s : WorkerClient) : WorkerClient :=
  match map_get timer s.(client_timers) with
  | None => s
  | Some timeout =>
      put_requests (map_delete timeout.(timeout_requestId) s.(client_pending))
        (clear_timer timer s.(client_timers))
        (s.(client_settled) ++ [(timeout.(timeout_promise),
           Throw (Error ("JmapWorkerClient: " +:+ quoted timeout.(timeout_type) +:+ " timed out")))]) s
  end.

Definition settle (requestId : WorkerRequestId) (result : outcome exn WorkerAnswer) (s : WorkerClient) :
    WorkerClient :=
  match map_get requestId s.(client_pending) with
  | None => s
  | Some entry =>
      put_requests (map_delete requestId s.(client_pending))
        (clear_timer entry.(pending_timer) s.(client_timers))
        (s.(client_settled) ++ [(entry.(pending_promise), result)]) s
  end.

(** One turn of the loop of [dispose]. *)
Definition dispose_entry (s : WorkerClient) (entry : PendingRequest) : WorkerClient :=
  put_requests s.(client_pending) (clear_timer entry.(pending_timer) s.(client_timers))
    (s.(client_settled) ++ [(entry.(pending_promise), Throw (Error "JmapWorkerClient disposed"))]) s.

Definition dispose_client (s : WorkerClient) : WorkerClient :=
  let s := fold_left dispose_entry (map_values s.(client_pending)) s in
  mkClient map_new s.(client_counter) s.(connectionStatusListeners) s.(stateChangeListeners)
    s.(sessionTeardownListeners) s.(client_timers) s.(client_next_timer) s.(client_requests)
    s.(client_settled) s.(client_sent) true.

Definition replyIpcInvoke (requestId : WorkerRequestId) (payload : IpcInvokeOutcome) (s : WorkerClient) :
    WorkerClient :=
  put_sent (IPC_INVOKE_RESULT requestId payload) s.

Section client.
(** How many positions of a set a walk visits at most; [cause instanceof Error ?
    cause.message : String(cause)]. *)
Context (rounds : nat) (describe : exn → string).

(** [for (const listener of set) listener(value)]: what one throws ends the walk. *)
Fixpoint walk_listeners (fuel position : nat) (set : WorkerClient → list (option nat))
    (call : nat → client_method unit) : client_method unit :=
  match fuel with
  | O => Ret tt
  | S fuel =>
      entry ← atomically (read (λ s, set s !! position));
      match entry with
      | None => Ret tt
      | Some None => walk_listeners fuel (S position) set call
      | Some (Some listener) =>
          call listener;;
          walk_listeners fuel (S position) set call
      end
  end.

Definition handleIpcInvoke (requestId : WorkerRequestId) (command : string) (request : json) :
    client_method unit :=
  if negb (bool_decide (command ∈ ALLOWED_IPC_COMMANDS)) then
    atomically (modify (replyIpcInvoke requestId (IpcFailed ipc_unexpected
      ("command " +:+ quoted command +:+ " is not in the Local Engine allowlist"))))
  else
    prog_try
      (value ← outside (TauriInvoke command (JObject (map_set "request" request map_new)));
       atomically (modify (replyIpcInvoke requestId (IpcValue value))))
      (λ cause, atomically (modify (replyIpcInvoke requestId (IpcFailed ipc_unavailable (describe cause))))).

Definition client_handleMessage (data : WorkerToMainMessage) : client_method unit :=
  match data with
  | IPC_INVOKE requestId command request => handleIpcInvoke requestId command request
  | SESSION_READY requestId primaryAccounts =>
      atomically (modify (settle requestId (Return (AnswerSession primaryAccounts))))
  | SESSION_ERROR requestId error => atomically (modify (settle requestId (Throw (Error error))))
  | TEARDOWN_COMPLETE requestId canary =>
      atomically (modify (settle requestId (Return (AnswerTeardown canary))))
  | SYNC_SUCCESS requestId accountKey =>
      atomically (modify (settle requestId (Return (AnswerSync accountKey))))
  | SYNC_ERROR requestId _ error => atomically (modify (settle requestId (Throw (Error error))))
  | SEND_SUCCESS requestId mutationId outcome =>
      atomically (modify (settle requestId (Return (AnswerSend mutationId outcome))))
  | SEND_ERROR requestId _ error => atomically (modify (settle requestId (Throw (Error error))))
  | SESSION_TEARDOWN canary =>
      walk_listeners rounds 0 sessionTeardownListeners (λ l, outside (CallTeardownListener l canary))
  | CONNECTION_STATUS status =>
      walk_listeners rounds 0 connectionStatusListeners (λ l, outside (CallStatusListener l status))
  | STATE_CHANGE changed =>
      walk_listeners rounds 0 stateChangeListeners (λ l, outside (CallChangeListener l changed))
  end.

(** What the rest of the application does to the client, and its timers. *)
Inductive ClientEntry : Type :=
| CallRequest (request : WorkerRequest)
| CallDispose
| AddListener (kind : ListenerKind) (listener : nat)
| RemoveListener (kind : ListenerKind) (listener : nat)
| FireTimeout (timer : nat).

Definition client_entry (entry : ClientEntry) : client_method unit :=
  match entry with
  | CallRequest request => _ ← atomically (client_request request); Ret tt
  | CallDispose => atomically (modify dispose_client)
  | AddListener kind listener => atomically (modify (put_client_listeners kind (entries_add listener)))
  | RemoveListener kind listener => atomically (modify (put_client_listeners kind (entries_delete listener)))
  | FireTimeout timer => atomically (modify (request_timeout timer))
  end.

(** What happens in the worker beside the messages. *)
Inductive WorkerEntry : Type :=
| FireToken (timer : nat)
| BridgedInvoke (command : string) (request : option json).

Definition worker_entry (entry : WorkerEntry) : worker_method unit :=
  match entry with
  | FireToken timer => token_timer timer
  | BridgedInvoke command request => worker_invoke command request
  end.

(** ** The two sides together

    A message is delivered once, in the order of posting, while the worker is not
    terminated; delivering it starts its handler.  The programs of either side
    interleave. *)

Definition worker_posts (s : Worker) : list WorkerToMainMessage :=
  omap (λ effect, match effect with Post message => Some message | _ => None end) s.(emitted).

Record link : Type := mkLink {
  main_side : system (with_state WorkerClient ClientCall) unit WorkerClient;
  worker_side : system (with_state Worker WorkerCall) unit Worker;
  to_worker : nat;
  to_main : nat;
}.

Definition spawn {E A W} (p : prog E A) (σ : system E A W) : system E A W :=
  mkSystem (σ.(programs) ++ [p]) σ.(world) σ.(history).

Inductive link_step : link → link → Prop :=
| Main_runs c c' w i j :
    pool_step shared_answers c c' → link_step (mkLink c w i j) (mkLink c' w i j)
| Worker_runs c w w' i j :
    c.(world).(terminated) = false →
    pool_step shared_answers w w' → link_step (mkLink c w i j) (mkLink c w' i j)
| Main_called c w i j entry :
    link_step (mkLink c w i j) (mkLink (spawn (client_entry entry) c) w i j)
| Worker_called c w i j entry :
    link_step (mkLink c w i j) (mkLink c (spawn (worker_entry entry) w) i j)
| To_worker c w i j message :
    c.(world).(terminated) = false → c.(world).(client_sent) !! i = Some message →
    link_step (mkLink c w i j) (mkLink c (spawn (handleMessage message) w) (S i) j)
| To_main c w i j message :
    c.(world).(terminated) = false → worker_posts w.(world) !! j = Some message →
    link_step (mkLink c w i j) (mkLink (spawn (client_handleMessage message) c) w i (S j)).

Definition new_link : link := mkLink (start [] new_client) (start [] new_worker) 0 0.
Definition link_reaches : link → link → Prop := rtc link_step.
End client.
