(* ===== verification/WorkerTheorems.v ===== *)
(** * The worker

    However its handlers and its timers interleave: every request is answered at most once,
    no session is lost, and no token outlives its session. *)

From S2P Require Import Prelude.
From S2P Require Import JsNumber.
From S2P Require Import JsString.
From S2P Require Import JsCollections.
From S2P Require Import Errors.
From S2P Require Import DomainIds.
From S2P Require Import Remote.
From S2P Require Import Prog.
From S2P Require Import Json.
From S2P Require Import TauriAdapters.
From S2P Require Import SharedState.
From S2P Require Import RemoteApplication.
From S2P Require Import Outbox.
From S2P Require Import Workers.
Open Scope string_scope.
Open Scope list_scope.
Open Scope js_scope.

(** ** The state of the worker *)

(** What the worker lets out: a canary says that there is no token, and a client has one. *)
Definition harmless (effect : WorkerEffect) : Prop :=
  match effect with
  | Post (SESSION_TEARDOWN canary) | Post (TEARDOWN_COMPLETE _ canary) => canary = "TOKEN_CLEARED_OK"
  | MadeClient _ _ token => token ≠ ""
  | _ => True
  end.

(** The only timer that waits is the one of the current token. *)
Record tokens_ok (m : TokenManager) : Prop := {
  tokens_listener : m.(token_listeners) = [Some 0];
  tokens_timer : List.map fst m.(scheduled) = option_list m.(expirationTimer);
  tokens_next t : m.(expirationTimer) = Some t → (t < m.(next_timer))%nat ∧ m.(currentToken) ≠ None;
}.

Record worker_ok (s : Worker) : Prop := {
  ok_tokens : tokens_ok s.(tokenManager);
  ok_client c : s.(jmapClient) = Some c → (c < s.(next_client))%nat ∧ getToken s.(tokenManager) ≠ None;
  ok_coordinator : s.(coordinator) = session_handle <$> s.(remoteSession);
  ok_outbox : s.(worker_outbox) = session_handle <$> s.(remoteSession);
  ok_session : s.(remoteSession) ≠ None → s.(jmapClient) ≠ None;
  ok_teardown : s.(explicitTeardownInFlight) = false;
  ok_effects : Forall harmless s.(emitted);
}.

Lemma new_worker_ok : worker_ok new_worker.
Proof. by split. Qed.

Lemma tokens_clear m : tokens_ok m → tokens_ok (clearToken m) ∧ (clearToken m).(scheduled) = [].
Proof.
  intros [Hl Ht Hn]. destruct m as [token timer listeners timers next]. cbn in *. unfold clearToken. cbn.
  destruct timer as [t|]; cbn in *.
  - destruct timers as [|[t' d] [|]]; cbn in Ht; [done| |done]. injection Ht as ->.
    unfold clear_timer. cbn. rewrite decide_True by done. by split.
  - destruct timers; [|done]. by split.
Qed.

Lemma tokens_set token expires m : tokens_ok m → tokens_ok (setToken token expires m).
Proof.
  intros Hm. destruct (tokens_clear m Hm) as [[Hl _ _] Hs]. unfold setToken.
  assert ((clearToken m).(expirationTimer) = None) as Hnone by (unfold clearToken; by destruct (expirationTimer m)).
  destruct expires as [seconds|]; [destruct (num_ltb (Int 0) seconds)|]; split; cbn; rewrite ?Hs; try done.
  intros t [= <-]. split; [lia|done].
Qed.

Lemma clear_token m : (clearToken m).(currentToken) = None.
Proof. unfold clearToken. by destruct (expirationTimer m). Qed.

(** Logs that are equal up to the grouping of their parts. *)
Ltac flatten_log := cbn -[clearToken setToken]; rewrite ?app_nil_r; repeat (rewrite <- !app_assoc; cbn -[clearToken setToken]); reflexivity.

(** ** What an invalidation does *)

Definition closing (s : Worker) : list WorkerEffect :=
  match s.(remoteSession) with Some session => [ClosedSession session.(session_handle)] | None => [] end.

Definition expiry_effects (s : Worker) : list WorkerEffect :=
  closing s ++ Post (CONNECTION_STATUS s.(invalidationStatus)) ::
  (if s.(explicitTeardownInFlight) then [] else [Post (SESSION_TEARDOWN "TOKEN_CLEARED_OK")]).

(** The worker without a session. *)
Definition anonymous_worker (tokens : TokenManager) (effects : list WorkerEffect) (s : Worker) : Worker :=
  mkWorker tokens None None None None (s.(sessionGeneration) + 1) s.(explicitTeardownInFlight)
    s.(invalidationStatus) s.(bridge) (s.(emitted) ++ effects) s.(next_client).

Lemma reset_anonymous s :
  resetToAnonymous s = (Return tt, anonymous_worker s.(tokenManager) (closing s) s).
Proof.
  destruct s as [m c r co o g e i b l n]. unfold resetToAnonymous, anonymous_worker, closing, modify. cbn.
  destruct r; [done|]. cbn. by rewrite app_nil_r.
Qed.

Lemma invalidate_expires s :
  s.(tokenManager).(token_listeners) = [Some 0] →
  invalidate_token s =
    (Return tt, put_invalidation conn_expired (anonymous_worker (clearToken s.(tokenManager)) (expiry_effects s) s)).
Proof.
  intros Hl. destruct s as [m c r co o g e i b l n]. cbn in Hl. unfold invalidate_token, invalidate.
  assert ((clearToken m).(token_listeners) = [Some 0]) as Hl'
    by (unfold clearToken; by destruct (expirationTimer m)).
  assert (getCanaryStatus (clearToken m) = "TOKEN_CLEARED_OK") as Hc by (unfold getCanaryStatus; by rewrite clear_token).
  unfold mbind, action_mbind, action_bind, modify, read, mret, action_mret. cbn -[clearToken].
  unfold mbind, action_mbind, action_bind, modify, read, mret, action_mret. cbn -[clearToken].
  rewrite Hl'. cbn -[clearToken]. unfold call_safely, run_token_listener, on_expired.
  unfold mbind, action_mbind, action_bind. rewrite reset_anonymous.
  unfold read, modify, postStatus, post, expiry_effects, anonymous_worker, put_invalidation, closing, modify, mret, action_mret.
  destruct e; cbn -[clearToken getCanaryStatus closing]; rewrite Hl', ?Hc; unfold emit; cbn -[clearToken];
    destruct r; flatten_log.
Qed.

(** ** Actions of the worker, as what they return and leave *)

Lemma begin_session_eq requestId input s :
  worker_ok s →
  let tokens := setToken input.(input_token) input.(input_expiresInSeconds) s.(tokenManager) in
  begin_session requestId input s =
    if is_empty input.(input_token) then
      (Return None, emit [Post (CONNECTION_STATUS conn_connecting); Post (CONNECTION_STATUS conn_error);
         Post (SESSION_ERROR requestId "Failed to store the session token.")] (put_tokenManager tokens s))
    else
      (Return (Some (s.(sessionGeneration) + 1, s.(next_client))),
       put_client (Some s.(next_client)) (S s.(next_client))
         (anonymous_worker tokens (Post (CONNECTION_STATUS conn_connecting) :: closing s ++
            [MadeClient s.(next_client) input.(input_sessionUrl) input.(input_token)]) s)).
Proof.
  intros _ tokens. subst tokens. destruct s as [m c r co o g e i b l n], input as [url token expires]. cbn.
  assert ((setToken token expires m).(currentToken) = Some token) as Htoken
    by (unfold setToken; destruct expires as [x|]; [by destruct (num_ltb (Int 0) x)|done]).
  unfold begin_session, postStatus, post.
  unfold mbind, action_mbind, action_bind, modify, read, mret, action_mret. cbn -[setToken resetToAnonymous].
  unfold getAuthConfig. rewrite Htoken. destruct (is_empty token) eqn:Hempty; cbn -[setToken resetToAnonymous].
  - unfold emit, put_tokenManager. cbn -[setToken resetToAnonymous]. flatten_log.
  - rewrite reset_anonymous. unfold anonymous_worker, emit, put_tokenManager, put_client, closing. cbn -[setToken resetToAnonymous].
    destruct r; flatten_log.
Qed.

Definition superseded (generation client : nat) (s : Worker) : bool :=
  negb (generation =? s.(sessionGeneration))%nat || (s.(jmapClient) !== Some client) ||
  (getToken s.(tokenManager) === None).

Lemma session_opened_eq requestId generation client session s :
  session_opened requestId generation client session s =
    (Return tt,
     if superseded generation client s then emit [ClosedSession session.(session_handle)] s
     else
       emit [Post (CONNECTION_STATUS conn_authenticated);
             Post (SESSION_READY requestId (primary_accounts session))]
         (put_session (Some session) (Some session.(session_handle)) (Some session.(session_handle)) s)).
Proof.
  destruct s as [m c r co o g e i b l n]. unfold session_opened, postStatus, post.
  unfold mbind, action_mbind, action_bind, modify, read, mret, action_mret. unfold superseded. cbn.
  destruct (negb _ || _ || _); [done|]. unfold emit, put_session. flatten_log.
Qed.

Lemma session_failed_eq requestId generation error s :
  session_failed requestId generation error s =
    (Return tt,
     if negb (generation =? s.(sessionGeneration))%nat then s
     else
       anonymous_worker (clearToken s.(tokenManager))
         (closing s ++ [Post (CONNECTION_STATUS conn_error);
            Post (SESSION_ERROR requestId (safeRemoteError error))]) s).
Proof.
  destruct s as [m c r co o g e i b l n]. unfold session_failed, postStatus, post.
  unfold mbind, action_mbind, action_bind, modify, read, mret, action_mret. cbn -[clearToken resetToAnonymous].
  destruct (generation =? g)%nat; [|done]. cbn -[clearToken resetToAnonymous]. rewrite reset_anonymous.
  unfold anonymous_worker, emit, put_tokenManager, closing. cbn -[clearToken resetToAnonymous].
  destruct r; flatten_log.
Qed.

Lemma teardown_eq requestId s :
  worker_ok s →
  teardown requestId s =
    (Return tt, put_teardown false (put_invalidation conn_expired
       (anonymous_worker (clearToken s.(tokenManager))
          (closing s ++ [Post (CONNECTION_STATUS conn_anonymous);
             Post (TEARDOWN_COMPLETE requestId "TOKEN_CLEARED_OK")]) s))).
Proof.
  intros [[Hl _ _] _ _ _ _ _ _]. destruct s as [m c r co o g e i b l n]. cbn in Hl.
  unfold teardown, post. unfold mbind, action_mbind, action_bind, modify, read. cbn -[clearToken invalidate_token].
  rewrite invalidate_expires by done. cbn -[clearToken]. unfold getCanaryStatus. rewrite clear_token.
  unfold anonymous_worker, emit, put_invalidation, put_teardown, expiry_effects, closing. cbn -[clearToken].
  destruct r; flatten_log.
Qed.

(** Whether an error makes the session end. *)
Definition expires_session (error : exn) (operationClient : option nat) (s : Worker) : bool :=
  match error with
  | ThrownRemoteError error =>
      (error.(remote_session) === session_expire) && (s.(jmapClient) === operationClient)
  | _ => false
  end.

Lemma operation_failed_eq operationClient error refusal s :
  worker_ok s →
  operation_failed operationClient error refusal s =
    (Return tt,
     if expires_session error operationClient s then
       put_invalidation conn_expired (anonymous_worker (clearToken s.(tokenManager))
         (closing s ++ [Post (CONNECTION_STATUS conn_expired); Post (SESSION_TEARDOWN "TOKEN_CLEARED_OK");
            Post refusal]) s)
     else emit [Post refusal] s).
Proof.
  intros [[Hl _ _] _ _ _ _ Ht _]. destruct s as [m c r co o g e i b l n]. cbn in Hl, Ht. subst e.
  unfold operation_failed, invalidateOnAuthError, post.
  unfold mbind, action_mbind, action_bind, read, mret, action_mret.
  destruct error; try done. cbn -[clearToken invalidate_token]. destruct (_ && _); [|done].
  unfold modify. rewrite invalidate_expires by done.
  unfold anonymous_worker, emit, put_invalidation, expiry_effects, closing. cbn -[clearToken].
  destruct r; flatten_log.
Qed.

(** ** The invariant is kept *)

Lemma anonymous_ok tokens effects s :
  worker_ok s → tokens_ok tokens → Forall harmless effects → worker_ok (anonymous_worker tokens effects s).
Proof. intros [] Htokens Heffects. split; cbn; try done. by apply Forall_app. Qed.

Lemma invalidation_ok x s : worker_ok s → worker_ok (put_invalidation x s).
Proof. intros []. by split. Qed.
Lemma teardown_ok s : worker_ok s → worker_ok (put_teardown false s).
Proof. intros []. by split. Qed.
Lemma bridge_ok x s : worker_ok s → worker_ok (put_bridge x s).
Proof. intros []. by split. Qed.
Lemma emit_ok effects s : worker_ok s → Forall harmless effects → worker_ok (emit effects s).
Proof. intros [] Heffects. split; cbn; try done. by apply Forall_app. Qed.

Lemma set_token token expires m : getToken (setToken token expires m) = Some token.
Proof. unfold setToken. destruct expires as [x|]; [by destruct (num_ltb (Int 0) x)|done]. Qed.

Lemma put_tokens_ok m s :
  worker_ok s → tokens_ok m → (∀ c, s.(jmapClient) = Some c → getToken m ≠ None) → worker_ok (put_tokenManager m s).
Proof. intros [Ht Hc ? ? ? ? ?] Hm Hget. split; cbn; try done. intros c Hsome. split; [by apply Hc|by eapply Hget]. Qed.

Lemma connected_ok m s :
  worker_ok s → s.(tokenManager) = m → getToken m ≠ None → s.(remoteSession) = None →
  worker_ok (put_client (Some s.(next_client)) (S s.(next_client)) s).
Proof.
  intros [] <- Htoken Hnone. split; cbn; try done. intros c [= <-]. split; [lia|done].
Qed.

Lemma installed_ok session s client :
  worker_ok s → s.(jmapClient) = Some client →
  worker_ok (put_session (Some session) (Some session.(session_handle)) (Some session.(session_handle)) s).
Proof. intros [] Hclient. split; cbn; try done. by rewrite Hclient. Qed.

Lemma closing_harmless s : Forall harmless (closing s).
Proof. unfold closing. destruct (remoteSession s); [by constructor|constructor]. Qed.

(** ** Rights: a session to close, a request to answer *)

Inductive right : Type :=
| SessionRight (session : nat)
| AnswerRight (requestId : WorkerRequestId).

(** The request a message answers. *)
Definition answered_id (message : WorkerToMainMessage) : option WorkerRequestId :=
  match message with
  | SESSION_READY requestId _ | SESSION_ERROR requestId _ | TEARDOWN_COMPLETE requestId _
  | SYNC_SUCCESS requestId _ | SYNC_ERROR requestId _ _
  | SEND_SUCCESS requestId _ _ | SEND_ERROR requestId _ _ => Some requestId
  | _ => None
  end.

Definition effect_right (effect : WorkerEffect) : option right :=
  match effect with
  | Post message => AnswerRight <$> answered_id message
  | ClosedSession session => Some (SessionRight session)
  | MadeClient _ _ _ => None
  end.

Definition current_session (s : Worker) : list nat := option_list (session_handle <$> s.(remoteSession)).
Definition worker_held (s : Worker) : list right :=
  omap effect_right s.(emitted) ++ List.map SessionRight (current_session s).

Definition worker_grants X (c : WorkerCall X) : outcome exn X → list right :=
  match c with
  | OpenJmap _ => λ r, match r with Return session => [SessionRight session.(session_handle)] | Throw _ => [] end
  | _ => λ _, []
  end.

(** What is known of a start, by the number of the client that it made: while it opens, a
    worker that still has its client has no session, and the generation of the start; once it
    is superseded, its client never is the worker's again. *)
Inductive start_stage : Type :=
| Opening (input : RemoteSessionInput) (generation : nat)
| Superseded (input : RemoteSessionInput).

Definition made_for (input : RemoteSessionInput) (client : nat) (s : Worker) : Prop :=
  MadeClient client input.(input_sessionUrl) input.(input_token) ∈ s.(emitted).

Definition start_fact (stage : start_stage) (client : nat) (s : Worker) : Prop :=
  match stage with
  | Opening input generation =>
      made_for input client s ∧
      (s.(jmapClient) = Some client → s.(remoteSession) = None ∧ s.(sessionGeneration) = generation)
  | Superseded input => made_for input client s ∧ s.(jmapClient) ≠ Some client
  end.

Abbreviation worker_accounts := (accounts worker_ok worker_held worker_grants next_client start_fact).
Abbreviation worker_ticket := (ticket_step worker_ok next_client start_fact).
Abbreviation start_ticket := (valid_ticket next_client start_fact).

Lemma held_emit effects s : worker_held (emit effects s) ≡ₚ worker_held s ++ omap effect_right effects.
Proof.
  unfold worker_held. cbn. rewrite omap_app, <- !(assoc (++)). f_equiv. apply Permutation_app_comm.
Qed.

Lemma closing_rights s : omap effect_right (closing s) = List.map SessionRight (current_session s).
Proof. unfold closing, current_session. by destruct (remoteSession s). Qed.

Lemma held_anonymous tokens before after s :
  worker_held (anonymous_worker tokens (before ++ closing s ++ after) s) ≡ₚ
  worker_held s ++ omap effect_right (before ++ after).
Proof.
  unfold worker_held at 1. cbn. rewrite app_nil_r, !omap_app, closing_rights. unfold worker_held.
  rewrite <- !(assoc (++)). f_equiv. apply Permutation_app_swap_app.
Qed.

(** A step that leaves no client behind, or leaves client and session alone, respects all
    tickets. *)
Lemma fact_kept stage client s s' :
  (∃ more, s'.(emitted) = s.(emitted) ++ more) →
  s'.(jmapClient) = None ∨
    s'.(jmapClient) = s.(jmapClient) ∧ s'.(remoteSession) = s.(remoteSession) ∧
    s'.(sessionGeneration) = s.(sessionGeneration) →
  start_fact stage client s → start_fact stage client s'.
Proof.
  intros [more Hmore] Hsame. assert (∀ input, made_for input client s → made_for input client s') as Hmade.
  { intros input. unfold made_for. rewrite Hmore, elem_of_app. by left. }
  destruct stage; intros [Hin Hfact]; (split; [by apply Hmade|]).
  - destruct Hsame as [->|(-> & -> & ->)]; [done|exact Hfact].
  - destruct Hsame as [->|(-> & _)]; [done|exact Hfact].
Qed.

Lemma ticket_kept s s' ticket :
  worker_ok s' → s'.(next_client) = s.(next_client) → (∃ more, s'.(emitted) = s.(emitted) ++ more) →
  s'.(jmapClient) = None ∨
    s'.(jmapClient) = s.(jmapClient) ∧ s'.(remoteSession) = s.(remoteSession) ∧
    s'.(sessionGeneration) = s.(sessionGeneration) →
  start_ticket ticket s → worker_ticket s s' ticket ticket.
Proof.
  intros Hok Hnext Hmore Hsame Hticket. split_and!; [done|lia| | |by left].
  - intros t k _ _. by apply fact_kept.
  - intros t k Ht. destruct (Hticket t k Ht) as [? Hfact]. split; [lia|]. by eapply fact_kept.
Qed.

Lemma ticket_anonymous s s' ticket :
  worker_ok s' → s'.(next_client) = s.(next_client) → (∃ more, s'.(emitted) = s.(emitted) ++ more) →
  s'.(jmapClient) = None → start_ticket ticket s → worker_ticket s s' ticket ticket.
Proof. intros. apply ticket_kept; auto. Qed.

Lemma ticket_same s s' ticket :
  worker_ok s' → (∃ more, s'.(emitted) = s.(emitted) ++ more) → s'.(remoteSession) = s.(remoteSession) →
  s'.(jmapClient) = s.(jmapClient) → s'.(sessionGeneration) = s.(sessionGeneration) →
  s'.(next_client) = s.(next_client) → start_ticket ticket s → worker_ticket s s' ticket ticket.
Proof. intros. apply ticket_kept; auto. Qed.

Lemma nothing_emitted {A} (l : list A) : ∃ more, l = l ++ more.
Proof. exists []. by rewrite app_nil_r. Qed.
Lemma emitted_more {A} (l more : list A) : ∃ more', l ++ more = l ++ more'.
Proof. by exists more. Qed.
#[local] Hint Resolve nothing_emitted emitted_more : core.

Lemma drop_ticket s s' ticket ticket' : worker_ticket s s' ticket ticket' → worker_ticket s s' ticket None.
Proof. intros (? & ? & ? & _ & _). by split_and!. Qed.

(** The client of a start that was superseded is not the worker's. *)
Lemma superseded_receipt input generation client s :
  worker_ok s → start_fact (Opening input generation) client s → superseded generation client s = true →
  start_fact (Superseded input) client s.
Proof.
  intros Hok [Hmade Hfact] Hsup. split; [done|]. intros Hclient. destruct (Hfact Hclient) as [_ Hgeneration].
  unfold superseded in Hsup. rewrite Hgeneration, Nat.eqb_refl, Hclient in Hsup. cbn in Hsup.
  apply orb_true_iff in Hsup as [Hsup|Hsup].
  - apply negb_true_iff, bool_decide_eq_false in Hsup. done.
  - apply bool_decide_eq_true in Hsup. by destruct (ok_client _ Hok client Hclient).
Qed.

Lemma move_receipt s s' input generation client :
  worker_ticket s s' (Some (client, Opening input generation)) (Some (client, Opening input generation)) →
  start_fact (Superseded input) client s' →
  worker_ticket s s' (Some (client, Opening input generation)) (Some (client, Superseded input)).
Proof.
  intros (? & ? & ? & Hvalid & _) Hfact. split_and!; [done|done|done| |by left].
  intros t k [= <- <-]. split; [|done]. by destruct (Hvalid client _ eq_refl).
Qed.

(** ** What each handler does with its rights *)

Definition request_id (message : MainToWorkerMessage) : option WorkerRequestId :=
  match message with
  | INIT_SESSION requestId _ | TEARDOWN_SESSION requestId
  | SYNC_ACCOUNT requestId _ _ | SEND_EMAIL requestId _ _ _ => Some requestId
  | IPC_INVOKE_RESULT _ _ => None
  end.
Definition names_no_account (message : MainToWorkerMessage) : Prop :=
  match message with
  | SYNC_ACCOUNT _ _ jmapAccountId | SEND_EMAIL _ _ jmapAccountId _ => jmapAccountId = ""
  | _ => False
  end.
Definition message_rights (message : MainToWorkerMessage) : list right :=
  match request_id message with Some requestId => [AnswerRight requestId] | None => [] end.

(** How a handler may end without having answered: it started a session and was superseded,
    of which it keeps the receipt, or it threw because the message names no account. *)
Definition ends_well (message : option MainToWorkerMessage) (r : outcome exn unit) (own : list right)
    (ticket : option (nat * start_stage)) : Prop :=
  own = [] ∧ ticket = None ∨
  ∃ m, message = Some m ∧ own = message_rights m ∧
    match r with
    | Return _ => ∃ requestId input client, m = INIT_SESSION requestId input ∧ ticket = Some (client, Superseded input)
    | Throw _ => names_no_account m ∧ ticket = None
    end.

Lemma accounts_runs {X} (f : worker_action X) (k : outcome exn X → worker_method unit) own ticket Q :
  (∀ s, worker_ok s → start_ticket ticket s → ∃ x s' own' ticket',
     f s = (Return x, s') ∧ worker_ticket s s' ticket ticket' ∧
     worker_held s ++ own ≡ₚ worker_held s' ++ own' ∧ worker_accounts (k (Return x)) own' ticket' Q) →
  worker_accounts (Call (Atomic f) k) own ticket Q.
Proof.
  intros H s Hs Hticket. destruct (H s Hs Hticket) as (x & s' & own' & ticket' & Hf & Hrest).
  exists own', ticket'. by rewrite Hf.
Qed.

(** Posting an answer, and nothing else. *)
Lemma accounts_posts (f : worker_action unit) k own ticket (Q : outcome exn unit → list right → option (nat * start_stage) → Prop) :
  k (Return tt) = Ret tt →
  (∀ s, worker_ok s → start_ticket ticket s → ∃ s',
     f s = (Return tt, s') ∧ worker_ticket s s' ticket None ∧
     worker_held s' ≡ₚ worker_held s ++ own) →
  Q (Return tt) [] None → worker_accounts (Call (Atomic f) k) own ticket Q.
Proof.
  intros Hk H HQ. apply accounts_runs. intros s Hs Hticket. destruct (H s Hs Hticket) as (s' & Hf & Hstep & Hheld).
  exists tt, s', [], None. split_and!; [done|done| |by rewrite Hk]. by rewrite Hheld, app_nil_r.
Qed.

Lemma accounts_teardown requestId :
  worker_accounts (handleMessage (TEARDOWN_SESSION requestId)) [AnswerRight requestId] None
    (ends_well (Some (TEARDOWN_SESSION requestId))).
Proof.
  apply accounts_posts; [done| |by left]. intros s Hs Hticket. eexists. split; [by apply teardown_eq|].
  destruct (tokens_clear _ (ok_tokens _ Hs)) as [Htokens _]. split.
  - apply ticket_anonymous; try done; [|by eexists]. apply teardown_ok, invalidation_ok, anonymous_ok; try done.
    apply Forall_app. split; [apply closing_harmless|by repeat constructor].
  - change (worker_held (anonymous_worker (clearToken s.(tokenManager))
      (([] ++ closing s ++ [Post (CONNECTION_STATUS conn_anonymous);
         Post (TEARDOWN_COMPLETE requestId "TOKEN_CLEARED_OK")])) s) ≡ₚ worker_held s ++ [AnswerRight requestId]).
    by rewrite held_anonymous.
Qed.

Lemma refusal_accounts operationClient error refusal k ticket requestId (Q : outcome exn unit → list right → option (nat * start_stage) → Prop) :
  k (Return tt) = Ret tt →
  answered_id refusal = Some requestId → harmless (Post refusal) → Q (Return tt) [] None →
  worker_accounts (Call (Atomic (operation_failed operationClient error refusal)) k) [AnswerRight requestId] ticket Q.
Proof.
  intros Hk Hid Hharmless. apply accounts_posts; [done|]. intros s Hs Hticket. eexists. split; [by apply operation_failed_eq|].
  destruct (tokens_clear _ (ok_tokens _ Hs)) as [Htokens _]. destruct (expires_session error operationClient s).
  - split.
    + eapply drop_ticket, ticket_anonymous; try done; [|by eexists]. apply invalidation_ok, anonymous_ok; try done.
      apply Forall_app. split; [apply closing_harmless|by repeat constructor].
    + change (worker_held (anonymous_worker (clearToken s.(tokenManager))
        ([] ++ closing s ++ [Post (CONNECTION_STATUS conn_expired); Post (SESSION_TEARDOWN "TOKEN_CLEARED_OK");
           Post refusal]) s) ≡ₚ worker_held s ++ [AnswerRight requestId]).
      rewrite held_anonymous. cbn. by rewrite Hid.
  - split; [|rewrite held_emit; cbn; by rewrite Hid].
    eapply drop_ticket, ticket_same; try done; [|by eexists]. apply emit_ok; [done|by constructor].
Qed.

Lemma post_accounts message k ticket requestId (Q : outcome exn unit → list right → option (nat * start_stage) → Prop) :
  k (Return tt) = Ret tt →
  answered_id message = Some requestId → harmless (Post message) → Q (Return tt) [] None →
  worker_accounts (Call (Atomic (post message)) k) [AnswerRight requestId] ticket Q.
Proof.
  intros Hk Hid Hharmless. apply accounts_posts; [done|]. intros s Hs Hticket. eexists. split; [done|]. split.
  - eapply drop_ticket, ticket_same; try done; [|by eexists]. apply emit_ok; [done|by constructor].
  - rewrite held_emit. cbn. by rewrite Hid.
Qed.

Lemma begin_operation_eq performer refusal jmapAccountId s :
  begin_operation performer refusal jmapAccountId s =
    match performer s with
    | None => (Return None, emit [Post refusal] s)
    | Some active =>
        (remoteAccountId ← remoteAccountIdFromString jmapAccountId;
         Return (Some (active, s.(jmapClient), remoteAccountId)), s)
    end.
Proof.
  unfold begin_operation, post. unfold mbind, action_mbind, action_bind, read, pure_step, mret, action_mret.
  destruct (performer s); [|done]. by destruct (remoteAccountIdFromString jmapAccountId).
Qed.

(** The shape that [SYNC_ACCOUNT] and [SEND_EMAIL] share. *)
Lemma operation_accounts message requestId performer refusal jmapAccountId continue :
  request_id message = Some requestId → (jmapAccountId = "" → names_no_account message) →
  answered_id refusal = Some requestId → harmless (Post refusal) →
  (∀ started, worker_accounts (continue started) [AnswerRight requestId] None (ends_well (Some message))) →
  worker_accounts
    (started ← atomically (begin_operation performer refusal jmapAccountId);
     match started with None => Ret tt | Some started => continue started end)
    [AnswerRight requestId] None (ends_well (Some message)).
Proof.
  intros Hid Hempty Hrefusal Hharmless Hcontinue. cbn. intros s Hs Hticket. rewrite begin_operation_eq.
  destruct (performer s) as [active|]; cbn [fst snd].
  - exists [AnswerRight requestId], None. split_and!.
    + by apply ticket_same; auto.
    + done.
    + destruct (remoteAccountIdFromString jmapAccountId) as [i|e] eqn:Hi; cbn; [apply Hcontinue|].
      right. exists message. split_and!; [done|by unfold message_rights; rewrite Hid| |done].
      apply Hempty. unfold remoteAccountIdFromString in Hi. destruct jmapAccountId; [done|]. by cbn in Hi.
  - exists [], None. split_and!.
    + apply ticket_same; try done; [|by eexists]. apply emit_ok; [done|by constructor].
    + rewrite held_emit. cbn. rewrite Hrefusal. by rewrite app_nil_r.
    + by left.
Qed.

Lemma accounts_sync requestId key account :
  worker_accounts (handleMessage (SYNC_ACCOUNT requestId key account)) [AnswerRight requestId] None
    (ends_well (Some (SYNC_ACCOUNT requestId key account))).
Proof.
  apply operation_accounts; try done. intros [[active client] id]. intros [[]|e].
  - apply post_accounts; try done. by left.
  - apply refusal_accounts; try done. by left.
Qed.

Lemma accounts_send requestId key account mutation :
  worker_accounts (handleMessage (SEND_EMAIL requestId key account mutation)) [AnswerRight requestId] None
    (ends_well (Some (SEND_EMAIL requestId key account mutation))).
Proof.
  apply operation_accounts; try done. intros [[active client] id]. intros [outcome|e].
  - apply post_accounts; try done. by left.
  - apply refusal_accounts; try done. by left.
Qed.

(** The end of an attempt to open a session. *)
Lemma accounts_opened requestId input generation client session k :
  k (Return tt) = Ret tt →
  worker_accounts (Call (Atomic (session_opened requestId generation client session)) k)
    [SessionRight session.(session_handle); AnswerRight requestId] (Some (client, Opening input generation))
    (ends_well (Some (INIT_SESSION requestId input))).
Proof.
  intros Hk. apply accounts_runs. intros s Hs Hticket.
  destruct (Hticket client _ eq_refl) as [Hlt Hfact]. rewrite session_opened_eq.
  destruct (superseded generation client s) eqn:Hsup.
  - exists tt. eexists _, [AnswerRight requestId], (Some (client, Superseded input)). split_and!; [done| | |].
    + apply move_receipt; [apply ticket_same; try done; [by apply emit_ok, Forall_singleton|cbn; auto]|].
      eapply fact_kept; [cbn; auto|by right|]. by eapply superseded_receipt.
    + rewrite held_emit. cbn. by rewrite <- (assoc (++)).
    + rewrite Hk. right. exists (INIT_SESSION requestId input). split_and!; [done|done|by eexists _, _, _].
  - apply orb_false_iff in Hsup as [[_ Hclient]%orb_false_iff _].
    apply (proj1 (differs_false _ _)) in Hclient. destruct Hfact as [Hmade Hfact]. destruct (Hfact Hclient) as [Hnone _].
    exists tt. eexists _, [], None. split_and!; [done| | |rewrite Hk; by left].
    + split_and!; [|cbn; lia| |by intros t|by intros t].
      * apply emit_ok; [by eapply installed_ok|by repeat constructor].
      * intros t stage _ Hne Ht. assert (t ≠ client) as Hother by (intros ->; by apply Hne).
        assert (∀ input', made_for input' t s → made_for input' t
          (emit [Post (CONNECTION_STATUS conn_authenticated); Post (SESSION_READY requestId (primary_accounts session))]
             (put_session (Some session) (Some session.(session_handle)) (Some session.(session_handle)) s))) as Hkeep.
        { intros input'. unfold made_for. cbn. rewrite elem_of_app. by left. }
        destruct stage; (split; [by apply Hkeep, Ht|]); cbn; congruence.
    + rewrite held_emit. unfold worker_held, current_session. rewrite Hnone. cbn.
      by rewrite <- !(assoc (++)).
Qed.

Lemma accounts_failed requestId input generation client error k :
  k (Return tt) = Ret tt →
  worker_accounts (Call (Atomic (session_failed requestId generation error)) k) [AnswerRight requestId]
    (Some (client, Opening input generation)) (ends_well (Some (INIT_SESSION requestId input))).
Proof.
  intros Hk. apply accounts_runs. intros s Hs Hticket. rewrite session_failed_eq.
  destruct (Hticket client _ eq_refl) as [Hlt Hfact].
  destruct (tokens_clear _ (ok_tokens _ Hs)) as [Htokens _].
  destruct (generation =? sessionGeneration s)%nat eqn:Hgeneration; cbn [negb].
  - exists tt. eexists _, [], None. split_and!; [done| | |rewrite Hk; by left].
    + eapply drop_ticket, ticket_anonymous; try done; [|cbn; auto]. apply anonymous_ok; try done.
      apply Forall_app. split; [apply closing_harmless|by repeat constructor].
    + change (closing s ++ ?l) with ([] ++ closing s ++ l). rewrite held_anonymous. by rewrite app_nil_r.
  - exists tt. eexists _, [AnswerRight requestId], (Some (client, Superseded input)). split_and!; [done| |done|].
    + apply move_receipt; [by apply ticket_same; auto|]. eapply superseded_receipt; [done|exact Hfact|].
      unfold superseded. by rewrite Hgeneration.
    + rewrite Hk. right. exists (INIT_SESSION requestId input). split_and!; [done|done|by eexists _, _, _].
Qed.

Lemma accounts_init requestId input :
  worker_accounts (handleMessage (INIT_SESSION requestId input)) [AnswerRight requestId] None
    (ends_well (Some (INIT_SESSION requestId input))).
Proof.
  apply accounts_runs. intros s Hs Hticket. rewrite begin_session_eq by done. cbv zeta.
  pose proof (tokens_set input.(input_token) input.(input_expiresInSeconds) _ (ok_tokens _ Hs)) as Htokens.
  pose proof (set_token input.(input_token) input.(input_expiresInSeconds) s.(tokenManager)) as Htoken.
  destruct (is_empty input.(input_token)) eqn:Hempty.
  - exists None. eexists _, [], None. split_and!; [done| | |by left].
    + apply ticket_same; try done; [|cbn; auto]. apply emit_ok; [|by repeat constructor].
      apply put_tokens_ok; [done|done|]. intros c _. by rewrite Htoken.
    + rewrite held_emit. cbn. by rewrite app_nil_r.
  - apply is_empty_false in Hempty. eexists.
    eexists _, [AnswerRight requestId], (Some (s.(next_client), Opening input (s.(sessionGeneration) + 1))).
    split; [done|]. split_and!.
    + split_and!; [|cbn; lia| | |].
      * refine (connected_ok _ (anonymous_worker _ _ s) _ eq_refl _ eq_refl); [|cbn; by rewrite Htoken].
        apply anonymous_ok; [done|done|].
        constructor; [done|]. apply Forall_app. split; [apply closing_harmless|]. by constructor.
      * intros t stage Hlt _ Hfact. assert (∀ input', made_for input' t s → made_for input' t
          (put_client (Some s.(next_client)) (S s.(next_client)) (anonymous_worker
            (setToken input.(input_token) input.(input_expiresInSeconds) s.(tokenManager))
            (Post (CONNECTION_STATUS conn_connecting) :: closing s ++
              [MadeClient s.(next_client) input.(input_sessionUrl) input.(input_token)]) s))) as Hkeep.
        { intros input'. unfold made_for. cbn. rewrite elem_of_app. by left. }
        destruct stage; (split; [by apply Hkeep, Hfact|]); cbn; intros [= <-]; lia.
      * intros t stage [= <- <-]. cbn. split; [lia|]. split; [|done]. unfold made_for. cbn.
        rewrite elem_of_app, elem_of_cons, elem_of_app. right; right; right. by left.
      * intros t [= <-]. by right.
    + f_equiv. symmetry. etransitivity; [|rewrite <- (app_nil_r (worker_held s)); reflexivity].
      exact (held_anonymous (setToken input.(input_token) input.(input_expiresInSeconds) s.(tokenManager))
        [Post (CONNECTION_STATUS conn_connecting)]
        [MadeClient s.(next_client) input.(input_sessionUrl) input.(input_token)] s).
    + intros [session|e].
      * by apply accounts_opened.
      * by apply accounts_failed.
Qed.

Lemma accounts_message message :
  worker_accounts (handleMessage message) (message_rights message) None (ends_well (Some message)).
Proof.
  destruct message; [apply accounts_init|apply accounts_teardown|apply accounts_sync|apply accounts_send|].
  apply accounts_posts; [done| |by left]. intros s Hs Hticket. eexists. split; [done|]. split.
  - apply ticket_same; try done; [.. |cbn; auto]. by apply bridge_ok.
  - by rewrite app_nil_r.
Qed.

(** The manager when its timer has fired. *)
Definition fired (timer : nat) (m : TokenManager) : TokenManager :=
  mkTokenManager m.(currentToken) m.(expirationTimer) m.(token_listeners)
    (clear_timer timer m.(scheduled)) m.(next_timer).

Lemma tokens_fired timer m : tokens_ok m → tokens_ok (clearToken (fired timer m)).
Proof.
  intros [Hl Ht Hn]. destruct m as [token current listeners timers next]. cbn in *.
  unfold clearToken, fired, clear_timer. cbn.
  destruct current as [t|]; cbn in *.
  - destruct timers as [|[t' d] [|]]; cbn in Ht; [done| |done]. injection Ht as ->.
    cbn. case_decide; cbn; rewrite ?decide_True by done; by split.
  - destruct timers; [|done]. by split.
Qed.

Lemma token_timer_eq timer s :
  worker_ok s →
  fire_timer tokenManager put_tokenManager run_token_listener 2 timer s =
    (Return tt,
     if map_has timer s.(tokenManager).(scheduled) then
       put_invalidation conn_expired (anonymous_worker (clearToken (fired timer s.(tokenManager)))
         (closing s ++ [Post (CONNECTION_STATUS s.(invalidationStatus));
            Post (SESSION_TEARDOWN "TOKEN_CLEARED_OK")]) s)
     else s).
Proof.
  intros [[Hl _ _] _ _ _ _ Ht _]. unfold fire_timer.
  unfold mbind, action_mbind, action_bind, read, modify, mret, action_mret.
  destruct (map_has _ _); [|done]. fold (invalidate_token). fold (fired timer (tokenManager s)).
  rewrite invalidate_expires by done. unfold expiry_effects. cbn -[clearToken closing fired]. by rewrite Ht.
Qed.

Lemma accounts_entry entry : worker_accounts (worker_entry entry) [] None (ends_well None).
Proof.
  destruct entry as [timer|command request]; (apply accounts_posts; [done| |by left]); intros s Hs Hticket.
  - eexists. split; [by apply token_timer_eq|]. destruct (map_has _ _).
    + split.
      * apply ticket_anonymous; try done; [|by eexists]. apply invalidation_ok, anonymous_ok; [done|by apply tokens_fired, ok_tokens|].
        apply Forall_app. split; [apply closing_harmless|by repeat constructor].
      * change (closing s ++ ?l) with ([] ++ closing s ++ l). unfold put_invalidation.
        pose proof (held_anonymous (clearToken (fired timer s.(tokenManager))) []
          [Post (CONNECTION_STATUS s.(invalidationStatus)); Post (SESSION_TEARDOWN "TOKEN_CLEARED_OK")] s) as Hheld.
        exact Hheld.
    + split; [by apply ticket_same; auto|]. by rewrite app_nil_r.
  - eexists. split; [done|]. unfold bridge_invoke. destruct (negb _); cbv beta iota zeta.
    + split.
      * apply ticket_same; try done; [|by eexists]. by apply emit_ok; [apply bridge_ok|constructor].
      * by rewrite held_emit.
    + split.
      * apply ticket_same; try done; [|by eexists]. apply emit_ok; [by apply bridge_ok|by constructor].
      * by rewrite held_emit.
Qed.

(** ** All handlers together *)

Definition worker_pool (messages : list MainToWorkerMessage) (entries : list WorkerEntry) :
    list (worker_method unit) :=
  List.map handleMessage messages ++ List.map worker_entry entries.

(** The sessions that calls have opened, those that were asked to close, and the requests
    that were answered. *)
Definition opened_by (e : event (with_state Worker WorkerCall)) : list nat :=
  match e with
  | Event c r =>
      match c in with_state _ _ X return outcome exn X → list nat with
      | Atomic _ => λ _, []
      | Outside c =>
          match c in WorkerCall X return outcome exn X → list nat with
          | OpenJmap _ => λ r, match r with Return session => [session.(session_handle)] | Throw _ => [] end
          | _ => λ _, []
          end
      end r
  end.
Definition opened_sessions (h : list (event (with_state Worker WorkerCall))) : list nat :=
  concat (List.map opened_by h).
Definition closed_sessions (s : Worker) : list nat :=
  omap (λ effect, match effect with ClosedSession session => Some session | _ => None end) s.(emitted).
Definition answered_requests (s : Worker) : list WorkerRequestId := omap answered_id (worker_posts s).

Definition all_finished {E A W} (σ : system E A W) : Prop :=
  Forall (λ p, is_Some (finished p)) σ.(programs).

Definition right_session (x : right) : option nat :=
  match x with SessionRight session => Some session | AnswerRight _ => None end.
Definition right_answer (x : right) : option WorkerRequestId :=
  match x with SessionRight _ => None | AnswerRight requestId => Some requestId end.

Lemma omap_map_SessionRight l :
  omap right_session (List.map SessionRight l) = l ∧ omap right_answer (List.map SessionRight l) = [].
Proof. induction l as [|x l [IH1 IH2]]; cbn; [done|]. unfold omap in *. by rewrite IH1, IH2. Qed.

Lemma held_sessions s : omap right_session (worker_held s) = closed_sessions s ++ current_session s.
Proof.
  unfold worker_held, closed_sessions. rewrite omap_app, (proj1 (omap_map_SessionRight _)). f_equal.
  induction s.(emitted) as [|[message|client url token|session] l IH]; cbn; [done|..].
  - destruct (answered_id message); exact IH.
  - exact IH.
  - unfold omap in *. by rewrite IH.
Qed.


Lemma granted_sessions h : granted worker_grants h = List.map SessionRight (opened_sessions h).
Proof.
  unfold granted, opened_sessions. induction h as [|[X c r] h IH]; cbn; [done|].
  rewrite IH, List.map_app. f_equal. destruct c as [Y f|Y c]; [done|].
  destruct c; [by destruct r|done|done].
Qed.

Lemma given_answers_of messages :
  omap right_answer (concat (List.map message_rights messages)) = omap request_id messages ∧
  omap right_session (concat (List.map message_rights messages)) = [].
Proof.
  induction messages as [|m l [IH1 IH2]]; cbn; [done|]. rewrite !omap_app, IH1, IH2.
  unfold message_rights. by destruct (request_id m).
Qed.

(** What a handler holds: what it was started with, its rights, and its ticket. *)
Abbreviation worker_holding :=
  (holding (R := right) (T := option MainToWorkerMessage) (K := start_stage)).

(** The accounts of the pool of all handlers. *)
Lemma worker_books messages entries σ :
  pool_reaches shared_answers (start (worker_pool messages entries) new_worker) σ →
  worker_ok σ.(world) ∧ ∃ accs : list worker_holding, one_holder accs ∧
    concat (List.map message_rights messages) ++ List.map SessionRight (opened_sessions σ.(history)) ≡ₚ
      worker_held σ.(world) ++ rights_of accs ∧
    Forall (λ a, start_ticket a.2 σ.(world) ∧ ∀ m, a.1.1 = Some m → m ∈ messages) accs ∧
    (all_finished σ → Forall (λ a, ∃ r, ends_well a.1.1 r a.1.2 a.2) accs).
Proof.
  intros Hreach.
  set (starts := List.map (λ m, (Some m, handleMessage m, message_rights m)) messages ++
                 List.map (λ e, (None, worker_entry e, [])) entries).
  assert (worker_pool messages entries = List.map (λ x, x.1.2) starts) as Hpool.
  { unfold worker_pool, starts. by rewrite List.map_app, !List.map_map. }
  assert (concat (List.map snd starts) = concat (List.map message_rights messages)) as Hgiven.
  { unfold starts. rewrite List.map_app, !List.map_map, concat_app. cbn.
    transitivity (concat (List.map message_rights messages) ++ []); [|apply app_nil_r]. f_equal.
    clear. by induction entries. }
  rewrite Hpool in Hreach.
  destruct (pool_accounts worker_ok worker_held worker_grants next_client start_fact ends_well
    starts new_worker (concat (List.map message_rights messages)) σ) as (Hok & accs & Hone & Htags & Hperm & Hend).
  - unfold starts. apply Forall_app. rewrite !Forall_forall. split.
    + intros x (m & <- & _)%list_elem_of_In%in_map_iff. apply accounts_message.
    + intros x (e & <- & _)%list_elem_of_In%in_map_iff. apply accounts_entry.
  - apply new_worker_ok.
  - by rewrite Hgiven.
  - exact Hreach.
  - split; [done|]. exists accs. rewrite granted_sessions in Hperm. split_and!; [done|done| |].
    + apply Forall_forall. intros a Ha. split.
      * apply list_elem_of_lookup in Ha as [i Hi].
        by destruct (Forall2_lookup_r _ _ _ _ _ Hend Hi) as (p & _ & Hvalid & _).
      * intros m Hm. assert (In a.1.1 (List.map (λ x, x.1.1) starts)) as Ha'.
        { rewrite <- Htags. apply (in_map (λ a, a.1.1)). by apply list_elem_of_In. }
        clear Ha. rename Ha' into Ha. rewrite Hm in Ha. unfold starts in Ha. rewrite List.map_app, !List.map_map in Ha.
        apply list_elem_of_In. apply in_app_or in Ha as [Ha|Ha]; apply in_map_iff in Ha as (x & Hx & Hin); [|done].
        by injection Hx as <-.
    + intros Hfin. apply Forall_forall. intros a [i Hi]%list_elem_of_lookup.
      destruct (Forall2_lookup_r _ _ _ _ _ Hend Hi) as (p & Hp & _ & Hends).
      unfold all_finished in Hfin. rewrite Forall_lookup in Hfin. destruct (Hfin _ _ Hp) as [r Hr].
      exists r. by apply Hends.
Qed.

(** ** What is left unanswered *)



(** A handler that has finished keeps no session. *)
Lemma no_session_kept (accs : list worker_holding) :
  Forall (λ a, ∃ r, ends_well a.1.1 r a.1.2 a.2) accs → omap right_session (rights_of accs) = [].
Proof.
  induction 1 as [|a accs [r Ha] _ IH]; [done|]. unfold rights_of in *. cbn -[omap]. rewrite omap_app, IH.
  destruct a as [[message own] ticket]. cbn in Ha. destruct Ha as [[-> _]|(m & _ & -> & _)]; [done|]. unfold message_rights. by destruct (request_id m).
Qed.



(** C17: However they interleave, every session the worker has opened is its current one, was asked
    to close once, or belongs to an attempt under way; the coordinator and the outbox are those of
    the current session, and there is no session without a client and a token. *)
Theorem worker_sessions_are_accounted_for messages entries σ :
  pool_reaches shared_answers (start (worker_pool messages entries) new_worker) σ →
  let w := σ.(world) in
  (∃ opening, opened_sessions σ.(history) ≡ₚ closed_sessions w ++ current_session w ++ opening ∧
     (all_finished σ → opening = [])) ∧
  w.(coordinator) = session_handle <$> w.(remoteSession) ∧
  w.(worker_outbox) = session_handle <$> w.(remoteSession) ∧
  (w.(remoteSession) ≠ None → w.(jmapClient) ≠ None ∧ getToken w.(tokenManager) ≠ None).
Proof.
  intros Hreach. destruct (worker_books _ _ _ Hreach) as (Hok & accs & _ & Hperm & _ & Hrest). cbv zeta.
  split; [|split_and!; [by apply ok_coordinator|by apply ok_outbox|]].
  - exists (omap right_session (rights_of accs)). split.
    + apply (omap_Permutation right_session) in Hperm. revert Hperm.
      rewrite !omap_app, held_sessions, (proj2 (given_answers_of _)), (proj1 (omap_map_SessionRight _)).
      by rewrite <- (assoc (++)).
    + intros Hfin. by apply no_session_kept, Hrest.
  - intros Hsession. pose proof (ok_session _ Hok Hsession) as Hclient. split; [done|].
    destruct (jmapClient (world σ)) as [c|] eqn:Hc; [|done]. by destruct (ok_client _ Hok c Hc).
Qed.

(** C38: Whatever happens, a canary says that there is no token, no client is made without one,
    and the only timer that waits is that of the current token. *)
Theorem tokens_never_outlive_their_session messages entries σ :
  pool_reaches shared_answers (start (worker_pool messages entries) new_worker) σ →
  (∀ requestId canary, TEARDOWN_COMPLETE requestId canary ∈ worker_posts σ.(world) → canary = "TOKEN_CLEARED_OK") ∧
  (∀ canary, SESSION_TEARDOWN canary ∈ worker_posts σ.(world) → canary = "TOKEN_CLEARED_OK") ∧
  (∀ client url token, MadeClient client url token ∈ σ.(world).(emitted) → token ≠ "") ∧
  let m := σ.(world).(tokenManager) in
  List.map fst m.(scheduled) = option_list m.(expirationTimer) ∧
  (m.(currentToken) = None → m.(scheduled) = []).
Proof.
  intros Hreach. destruct (worker_books _ _ _ Hreach) as (Hok & _).
  pose proof (ok_effects _ Hok) as Heffects. rewrite Forall_forall in Heffects.
  assert (∀ message, message ∈ worker_posts σ.(world) → harmless (Post message)) as Hposts.
  { intros message (e & He & Hm)%list_elem_of_omap. destruct e; try done. injection Hm as ->. by apply Heffects. }
  destruct (ok_tokens _ Hok) as [Hl Ht Hn]. cbv zeta. split_and!.
  - intros id canary Hin. apply (Hposts _ Hin).
  - intros canary Hin. apply (Hposts _ Hin).
  - intros client url token Hin. apply (Heffects _ Hin).
  - done.
  - intros Hnone. destruct (expirationTimer _) as [t|]; [by destruct (Hn t eq_refl)|].
    by destruct (scheduled _).
Qed.

(** ** Concrete runs *)

Module WorkerFixtures.
(** What is outside answers at once. *)
Definition server_session : RemoteSession := mkRemoteSession 7 [mkDescriptor "acc" ["urn:ietf:params:jmap:mail"]].
Definition worker_world X (c : WorkerCall X) : outcome exn X :=
  match c in WorkerCall X return outcome exn X with
  | OpenJmap _ => Return server_session
  | SyncWith _ _ _ => Return tt
  | SendWith _ _ _ _ => Return send_sent
  end.
Definition answering {S E} (reply : ∀ X, E X → outcome exn X) X (c : with_state S E X) (s : S) : outcome exn X * S :=
  match c in with_state _ _ X return outcome exn X * S with
  | Atomic f => f s
  | Outside c => (reply _ c, s)
  end.
Lemma answering_shared {S E} (reply : ∀ X, E X → outcome exn X) X (c : with_state S E X) s :
  shared_answers X c s (answering reply X c s).1 (answering reply X c s).2.
Proof. destruct c as [X f|X c]; cbn; [by destruct (f s)|done]. Qed.

Definition input : RemoteSessionInput := mkSessionInput "https://mail.example" "secret" (Some (Int 3600)).

Definition run_worker (messages : list MainToWorkerMessage) (entries : list WorkerEntry) (schedule : list nat) :
    system (with_state Worker WorkerCall) unit Worker :=
  follow (answering worker_world) schedule (start (worker_pool messages entries) new_worker).

Lemma run_worker_reaches messages entries schedule :
  pool_reaches shared_answers (start (worker_pool messages entries) new_worker) (run_worker messages entries schedule).
Proof. apply follow_reaches, answering_shared. Qed.

(** A session starts, synchronises an account, and is torn down before it has sent. *)
Definition morning : list MainToWorkerMessage :=
  [INIT_SESSION "m:1" input; SYNC_ACCOUNT "m:2" "A1" "acc"; SEND_EMAIL "m:3" "A1" "acc" "mut"; TEARDOWN_SESSION "m:4"].

(** A second session is started while the first one opens. *)
Definition restarted : list MainToWorkerMessage := [INIT_SESSION "m:1" input; INIT_SESSION "m:2" input].
Definition restarted_schedule : list nat := [0; 1; 0; 0; 1; 1].
End WorkerFixtures.
Import WorkerFixtures.


Lemma worker_sessions_are_accounted_for_witness :
  let σ := run_worker restarted [] restarted_schedule in
  all_finished σ ∧ opened_sessions σ.(history) ≡ₚ closed_sessions σ.(world) ++ current_session σ.(world).
Proof.
  destruct (worker_sessions_are_accounted_for _ _ _ (run_worker_reaches restarted [] restarted_schedule))
    as [(opening & H & Hend) _].
  assert (all_finished (run_worker restarted [] restarted_schedule)) as Hfin
    by (vm_compute; repeat constructor; by eexists).
  split; [exact Hfin|]. cbv zeta in *. rewrite (Hend Hfin), app_nil_r in H. exact H.
Defined.

Lemma tokens_never_outlive_their_session_witness :
  let w := (run_worker morning [FireToken 0] [0; 0; 0; 4]).(world) in
  SESSION_TEARDOWN "TOKEN_CLEARED_OK" ∈ worker_posts w ∧ w.(tokenManager).(scheduled) = [].
Proof.
  destruct (tokens_never_outlive_their_session _ _ _ (run_worker_reaches morning [FireToken 0] [0; 0; 0; 4]))
    as (_ & _ & _ & _ & H).
  split; [apply list_elem_of_In; vm_compute; tauto|]. apply H. vm_compute. reflexivity.
Defined.

(** The first start is never answered: its session is closed and nothing is posted for it,
    so the main thread waits for its timer. *)
Example superseded_start_is_not_answered :
  let σ := run_worker restarted [] restarted_schedule in
  all_finished σ ∧ answered_requests σ.(world) = ["m:2"].
Proof. vm_compute. split; [repeat constructor; by eexists|done]. Qed.

(** A start with an empty token is refused, but the session there is goes on: the worker has
    announced an error and still synchronises. *)
Example refused_start_keeps_the_session :
  let messages := [INIT_SESSION "m:1" input; INIT_SESSION "m:2" (mkSessionInput "https://mail.example" "" None);
                   SYNC_ACCOUNT "m:3" "A1" "acc"] in
  let w := (run_worker messages [] [0; 0; 0; 1; 2; 2; 2]).(world) in
  worker_posts w =
    [CONNECTION_STATUS conn_connecting; CONNECTION_STATUS conn_authenticated;
     SESSION_READY "m:1" [("urn:ietf:params:jmap:mail", "acc")];
     CONNECTION_STATUS conn_connecting; CONNECTION_STATUS conn_error;
     SESSION_ERROR "m:2" "Failed to store the session token."; SYNC_SUCCESS "m:3" "A1"] ∧
  is_Some w.(remoteSession).
Proof. vm_compute. split; [done|by eexists]. Qed.

(** A request that names no account throws in the handler: it is never answered. *)
Example nameless_request_is_not_answered :
  let σ := run_worker [INIT_SESSION "m:1" input; SYNC_ACCOUNT "m:2" "A1" ""] [] [0; 0; 0; 1] in
  all_finished σ ∧ answered_requests σ.(world) = ["m:1"].
Proof. vm_compute. split; [repeat constructor; by eexists|done]. Qed.
