(* ===== verification/WorkerLink.v ===== *)
(** * The worker and the main thread, together

    An invariant of [link_step]: what a message claims, the other side has done.  From it, a
    promise of the client settles once, with the answer to its own request, and a promise of
    the bridge settles once, with what the native side answered to its own command. *)

From S2P Require Import Prelude.
From S2P Require Import JsNumber.
From S2P Require Import JsString.
From S2P Require Import JsCollections.
From S2P Require Import Errors.
From S2P Require Import DomainIds.
From S2P Require Import Remote.
From S2P Require Import Prog.
From S2P Require Import Json.
From S2P Require Import TauriAdapters.
From S2P Require Import SharedState.
From S2P Require Import RemoteApplication.
From S2P Require Import Outbox.
From S2P Require Import Workers.
From S2P Require Import WorkerTheorems.
Open Scope string_scope.
Open Scope list_scope.
Open Scope js_scope.

(** ** Request ids *)

#[local] Instance worker_request_id_inj : Inj (=) (=) worker_request_id.
Proof. intros a b H. injection H as H. by apply decimal_inj. Qed.
Lemma main_request_id_inj a b : main_request_id a = main_request_id b → a = b.
Proof. intros H. injection H as H. by apply decimal_inj. Qed.
#[local] Opaque worker_request_id main_request_id.

(** ** What an answer must be *)

Definition answers_request (request : WorkerRequest) (answer : WorkerAnswer) : Prop :=
  match request, answer with
  | RequestInit _, AnswerSession _ => True
  | RequestTeardown, AnswerTeardown canary => canary = "TOKEN_CLEARED_OK"
  | RequestSync key _, AnswerSync key' => key' = key
  | RequestSend _ _ mutation, AnswerSend mutation' _ => mutation' = mutation
  | _, _ => False
  end.

(** The request a message of the worker answers, and what the client settles it with. *)
Definition message_answer (message : WorkerToMainMessage) : option (WorkerRequestId * outcome exn WorkerAnswer) :=
  match message with
  | SESSION_READY requestId accounts => Some (requestId, Return (AnswerSession accounts))
  | SESSION_ERROR requestId error | SYNC_ERROR requestId _ error | SEND_ERROR requestId _ error =>
      Some (requestId, Throw (Error error))
  | TEARDOWN_COMPLETE requestId canary => Some (requestId, Return (AnswerTeardown canary))
  | SYNC_SUCCESS requestId key => Some (requestId, Return (AnswerSync key))
  | SEND_SUCCESS requestId mutation outcome => Some (requestId, Return (AnswerSend mutation outcome))
  | _ => None
  end.

(** A message that answers, answers this one. *)
Definition proper_reply (m : MainToWorkerMessage) (message : WorkerToMainMessage) : Prop :=
  match message with
  | SESSION_READY requestId _ | SESSION_ERROR requestId _ => ∃ input, m = INIT_SESSION requestId input
  | TEARDOWN_COMPLETE requestId canary => m = TEARDOWN_SESSION requestId ∧ canary = "TOKEN_CLEARED_OK"
  | SYNC_SUCCESS requestId key | SYNC_ERROR requestId key _ => ∃ account, m = SYNC_ACCOUNT requestId key account
  | SEND_SUCCESS requestId mutation _ | SEND_ERROR requestId mutation _ =>
      ∃ key account, m = SEND_EMAIL requestId key account mutation
  | _ => True
  end.

Lemma reply_answers requestId request message id r a :
  proper_reply (request_message requestId request) message → message_answer message = Some (id, r) →
  id = requestId ∧ (r = Return a → answers_request request a).
Proof.
  destruct message; try done; intros Hproper [= <- <-]; destruct request; naive_solver.
Qed.

(** ** The client *)

Definition settled_promises (s : WorkerClient) : list nat := s.(client_settled).*1.

(** The promise of a request is pending under its id, with a timer of its own, or it has
    been settled. *)
Definition pending_ok (s : WorkerClient) (id : WorkerRequestId) (e : PendingRequest) : Prop :=
  (e.(pending_promise) < length s.(client_requests))%nat ∧
  id = main_request_id (S e.(pending_promise)) ∧
  (e.(pending_promise) ∉ settled_promises s) ∧
  ∃ type, map_get e.(pending_timer) s.(client_timers) = Some (mkTimeout id type e.(pending_promise)).

Record client_ok (s : WorkerClient) : Prop := {
  co_counter : s.(client_counter) = length s.(client_requests);
  co_wf : map_wf s.(client_pending);
  co_timers_wf : map_wf s.(client_timers);
  co_pending id e : map_get id s.(client_pending) = Some e → pending_ok s id e;
  co_timers t c : map_get t s.(client_timers) = Some c → (t < s.(client_next_timer))%nat ∧
    map_get c.(timeout_requestId) s.(client_pending) = Some (mkPending c.(timeout_promise) t);
  co_settled : NoDup (settled_promises s);
  co_made p : p ∈ settled_promises s → (p < length s.(client_requests))%nat;
  co_all p : (p < length s.(client_requests))%nat →
    p ∈ settled_promises s ∨ is_Some (map_get (main_request_id (S p)) s.(client_pending));
  co_answers p a : (p, Return a) ∈ s.(client_settled) →
    ∃ request, s.(client_requests) !! p = Some request ∧ answers_request request a;
  co_sent m id : m ∈ s.(client_sent) → request_id m = Some id →
    ∃ n request, s.(client_requests) !! n = Some request ∧ m = request_message (main_request_id (S n)) request;
}.

Lemma new_client_ok : client_ok new_client.
Proof. split; cbn; try done; [constructor|constructor|constructor|by intros p Hp%elem_of_nil|lia|by intros p a Hp%elem_of_nil|by intros m id Hm%elem_of_nil]. Qed.

Lemma fst_snoc {X Y} (l : list (X * Y)) x y : (l ++ [(x, y)]).*1 = l.*1 ++ [x].
Proof. by rewrite fmap_app. Qed.

(** Settling one pending promise. *)
Lemma settle_ok s id e r :
  client_ok s → map_get id s.(client_pending) = Some e →
  (∀ a, r = Return a → ∃ request, s.(client_requests) !! e.(pending_promise) = Some request ∧ answers_request request a) →
  client_ok (put_requests (map_delete id s.(client_pending)) (clear_timer e.(pending_timer) s.(client_timers))
    (s.(client_settled) ++ [(e.(pending_promise), r)]) s).
Proof.
  intros [Hc Hwf Htwf Hp Ht Hs Hm Hall Ha Hsent] He Hr. destruct (Hp _ _ He) as (Hlt & Hid & Hnew & ty & Htimer).
  assert (∀ id', id' ≠ id → map_get id' (map_delete id s.(client_pending)) = map_get id' s.(client_pending)) as Hother
    by (intros; by apply map_get_delete_ne).
  split; cbn; try done.
  - by apply map_wf_delete.
  - by apply map_wf_delete.
  - intros id' e' He'. destruct (decide (id' = id)) as [->|Hne].
    { by rewrite map_get_delete_eq in He'. }
    rewrite Hother in He' by done. destruct (Hp _ _ He') as (Hlt' & Hid' & Hnew' & ty' & Htimer').
    assert (e'.(pending_promise) ≠ e.(pending_promise)) as Hdiff by (intros Heq; apply Hne; by rewrite Hid', Hid, Heq).
    split_and!; [done|done| |exists ty'].
    + unfold settled_promises. cbn. rewrite fst_snoc, elem_of_app, list_elem_of_singleton. intros [|]; [done|]. by apply Hdiff.
    + cbn. unfold clear_timer. rewrite map_get_delete_ne; [done|done|].
      intros Heq. rewrite Heq, Htimer' in Htimer. by injection Htimer as -> _ _.
  - intros t c Hget. unfold clear_timer in Hget. destruct (decide (t = e.(pending_timer))) as [->|Hne].
    { by rewrite map_get_delete_eq in Hget. }
    rewrite map_get_delete_ne in Hget by done. destruct (Ht _ _ Hget) as [? Hpend]. split; [done|].
    rewrite Hother; [done|]. intros Heq. rewrite Heq, He in Hpend. apply Hne. by injection Hpend as ->.
  - unfold settled_promises. cbn. rewrite fst_snoc. apply NoDup_app. split_and!; [done| |apply NoDup_singleton].
    intros x Hx [= ->]%list_elem_of_singleton. done.
  - intros p. unfold settled_promises. cbn. rewrite fst_snoc, elem_of_app, list_elem_of_singleton. intros [Hin|Heq]; [by apply Hm|]. by rewrite Heq.
  - intros p Hplt. unfold settled_promises. cbn. rewrite fst_snoc, elem_of_app, list_elem_of_singleton. cbn.
    destruct (Hall p Hplt) as [?|Hpend]; [by left; left|].
    destruct (decide (p = e.(pending_promise))) as [->|Hne]; [by left; right|]. right. rewrite Hother; [done|].
    intros Heq. apply Hne. rewrite Hid in Heq. apply main_request_id_inj in Heq. by injection Heq.
  - intros p a [Hin|[= -> <-]%list_elem_of_singleton]%elem_of_app; [by apply Ha|]. by apply Hr.
Qed.

Lemma client_settle_ok s id r :
  client_ok s →
  (∀ e a, map_get id s.(client_pending) = Some e → r = Return a →
     ∃ request, s.(client_requests) !! e.(pending_promise) = Some request ∧ answers_request request a) →
  client_ok (settle id r s).
Proof. intros Hok Hr. unfold settle. destruct (map_get id _) as [e|] eqn:He; [|done]. apply settle_ok; eauto. Qed.

Lemma client_timeout_ok s timer : client_ok s → client_ok (request_timeout timer s).
Proof.
  intros Hok. unfold request_timeout. destruct (map_get timer _) as [[id type promise]|] eqn:Ht; [|done].
  destruct (co_timers _ Hok _ _ Ht) as [_ Hpend]. cbn in *.
  by apply (settle_ok s id (mkPending promise timer)).
Qed.

Lemma client_request_ok s request : client_ok s → client_ok (client_request request s).2.
Proof.
  intros [Hc Hwf Htwf Hp Ht Hs Hm Hall Ha Hsent]. cbn. rewrite Hc.
  set (n := length s.(client_requests)). set (id := main_request_id (S n)).
  assert (map_get id s.(client_pending) = None) as Hfresh.
  { destruct (map_get id s.(client_pending)) as [e|] eqn:He; [|done]. destruct (Hp _ _ He) as (Hlt & Hid & _).
    apply main_request_id_inj in Hid. injection Hid as Hid. subst n. lia. }
  assert (map_get s.(client_next_timer) s.(client_timers) = None) as Htimer.
  { destruct (map_get _ s.(client_timers)) as [c|] eqn:Hget; [|done]. destruct (Ht _ _ Hget). lia. }
  assert (∀ t c, map_get t (s.(client_timers) ++ [(s.(client_next_timer), c)]) =
    if decide (s.(client_next_timer) = t) then Some c else map_get t s.(client_timers)) as Hget.
  { intros t c. rewrite <- map_get_set. f_equal. clear -Htimer. induction s.(client_timers) as [|[t' c'] l IH]; cbn in *; [done|].
    case_decide; [done|]. by rewrite IH. }
  split; unfold settled_promises, pending_ok in *; cbn.
  - by rewrite length_app, Nat.add_comm.
  - by apply map_wf_set.
  - unfold map_wf. rewrite fst_snoc. apply NoDup_app. split_and!; [done| |apply NoDup_singleton].
    intros t Hin ->%list_elem_of_singleton. by apply map_get_None_keys in Htimer.
  - intros id' e. rewrite map_get_set, length_app. case_decide as Hid'; [intros [= <-]; subst id'|].
    + cbn. split_and!; [lia|done| |].
      * intros Hin%Hm. lia.
      * eexists. by rewrite Hget, decide_True.
    + intros He. destruct (Hp _ _ He) as (Hlt & ? & ? & type & Hold). split_and!; [lia|done|done|]. exists type.
      rewrite Hget, decide_False; [done|]. intros Heq. by rewrite Heq, Hold in Htimer.
  - intros t c. rewrite Hget, map_get_set. case_decide as Heq.
    { intros [= <-]. subst t. cbn. split; [lia|by rewrite decide_True]. }
    intros Hold. destruct (Ht _ _ Hold) as [? Hpend]. split; [lia|]. rewrite decide_False; [done|].
    intros Hid. by rewrite <- Hid, Hfresh in Hpend.
  - done.
  - intros p Hin. rewrite length_app. apply Hm in Hin. lia.
  - intros p. rewrite length_app, map_get_set. cbn. intros Hlt. case_decide as Hid; [by right|]. apply Hall.
    assert (p ≠ n) by (intros ->; by apply Hid). subst n. lia.
  - intros p a Hin. destruct (Ha p a Hin) as (q & Hq & Hans). exists q. split; [|done]. by apply lookup_app_l_Some.
  - intros m id' [Hin| ->%list_elem_of_singleton]%elem_of_app Hid.
    + destruct (Hsent m id' Hin Hid) as (k & q & Hq & ->). exists k, q. split; [|done]. by apply lookup_app_l_Some.
    + exists n, request. split; [|done]. by rewrite lookup_app_r, Nat.sub_diag by done.
Qed.

Lemma client_same_ok s s' :
  client_ok s → s'.(client_pending) = s.(client_pending) → s'.(client_counter) = s.(client_counter) →
  s'.(client_timers) = s.(client_timers) → s'.(client_next_timer) = s.(client_next_timer) →
  s'.(client_requests) = s.(client_requests) → s'.(client_settled) = s.(client_settled) →
  (∀ m id, m ∈ s'.(client_sent) → request_id m = Some id → m ∈ s.(client_sent)) → client_ok s'.
Proof.
  destruct s, s'. cbn. intros [] -> -> -> -> -> -> Hsent. split; cbn in *; try done. intros m id Hm Hid. eauto.
Qed.

Lemma client_listeners_ok s kind f : client_ok s → client_ok (put_client_listeners kind f s).
Proof. intros Hok. by eapply client_same_ok. Qed.

Lemma client_reply_ok s id payload : client_ok s → client_ok (replyIpcInvoke id payload s).
Proof.
  intros Hok. eapply client_same_ok; try done. cbn.
  by intros m id' [?| ->%list_elem_of_singleton]%elem_of_app Hid.
Qed.

(** ** [dispose] *)

Definition disposed_error : outcome exn WorkerAnswer := Throw (Error "JmapWorkerClient disposed").

Lemma dispose_entries es s :
  fold_left dispose_entry es s =
    put_requests s.(client_pending) (fold_left (λ timers e, clear_timer e.(pending_timer) timers) es s.(client_timers))
      (s.(client_settled) ++ List.map (λ e, (e.(pending_promise), disposed_error)) es) s.
Proof.
  revert s. induction es as [|e es IH]; intros s; cbn; [destruct s; cbn; by rewrite app_nil_r|].
  rewrite IH. unfold put_requests, dispose_entry. cbn. by rewrite <- app_assoc.
Qed.

Lemma cleared_timers es (timers : jsmap nat TimeoutClosure) :
  map_wf timers →
  let left := fold_left (λ timers e, clear_timer e.(pending_timer) timers) es timers in
  map_wf left ∧ ∀ t c, map_get t left = Some c → map_get t timers = Some c ∧ ∀ e, e ∈ es → e.(pending_timer) ≠ t.
Proof.
  revert timers. induction es as [|e es IH]; intros timers Hwf; cbn.
  { split; [done|]. intros t c Ht. split; [done|]. by intros e He%elem_of_nil. }
  destruct (IH (clear_timer e.(pending_timer) timers)) as [Hwf' Hleft]; [by apply map_wf_delete|]. split; [done|].
  intros t c Ht. destruct (Hleft t c Ht) as [Hget Hes]. unfold clear_timer in Hget.
  rewrite map_get_delete in Hget by done. case_decide as Hne; [done|]. split; [done|].
  intros e' [->|He']%elem_of_cons; [done|by apply Hes].
Qed.

Lemma map_all_empty {K V} `{!EqDecision K} (m : jsmap K V) : (∀ k, map_get k m = None) → m = [].
Proof. destruct m as [|[k v] m]; [done|]. intros H. specialize (H k). cbn in H. by rewrite decide_True in H. Qed.

Lemma values_distinct {K} `{!EqDecision K} (f : nat → K) (m : jsmap K PendingRequest) :
  map_wf m → (∀ id e, (id, e) ∈ m → id = f e.(pending_promise)) → NoDup (List.map pending_promise (map_values m)).
Proof.
  unfold map_wf, map_values. intros Hwf Hid. apply (NoDup_fmap_1 f).
  enough (f <$> List.map pending_promise m.*2 = m.*1) as -> by done.
  clear Hwf. induction m as [|[id e] m IH]; cbn; [done|]. rewrite IH by (intros; apply Hid; by right).
  by rewrite <- (Hid id e) by by left.
Qed.

(** After it nothing is pending, no timer waits, and every promise has been settled. *)
Lemma dispose_facts s :
  client_ok s → let s' := dispose_client s in
  s'.(client_pending) = [] ∧ s'.(client_timers) = [] ∧ NoDup (settled_promises s') ∧
  s'.(client_requests) = s.(client_requests) ∧
  (∀ p, p ∈ settled_promises s' ↔ (p < length s.(client_requests))%nat) ∧
  (∀ p a, (p, Return a) ∈ s'.(client_settled) → (p, Return a) ∈ s.(client_settled)).
Proof.
  intros [Hc Hwf Htwf Hp Ht Hs Hm Hall Ha Hsent]. cbv zeta.
  unfold dispose_client. rewrite dispose_entries. cbn.
  set (es := map_values s.(client_pending)).
  assert (∀ e, e ∈ es ↔ ∃ id, map_get id s.(client_pending) = Some e) as Hes by (intros; by apply map_values_elem).
  destruct (cleared_timers es s.(client_timers) Htwf) as [_ Hleft].
  assert ((List.map (λ e, (e.(pending_promise), disposed_error)) es).*1 = List.map pending_promise es) as Hfst.
  { clear. induction es as [|e l IH]; cbn; [done|]. by f_equal. }
  unfold settled_promises in *. cbn. rewrite fmap_app, Hfst.
  split_and!; [done| | |done| |].
  - apply map_all_empty. intros t. destruct (map_get t _) as [c|] eqn:Hget; [|done].
    destruct (Hleft t c Hget) as [Hold Hnone]. destruct (Ht _ _ Hold) as [_ Hpend].
    destruct (Hnone (mkPending c.(timeout_promise) t)); [|done]. apply Hes. by eexists.
  - apply NoDup_app. split_and!; [done| |].
    + intros p Hin (e & <- & He)%list_elem_of_In%in_map_iff. apply list_elem_of_In, Hes in He as [id He].
      by destruct (Hp _ _ He) as (_ & _ & Hnew & _).
    + apply (values_distinct (λ p, main_request_id (S p))); [done|].
      intros id e He. by apply (map_elem_get _ _ _ Hwf), Hp in He as (_ & ? & _).
  - intros p. rewrite elem_of_app. split.
    + intros [Hin|(e & <- & He)%list_elem_of_In%in_map_iff]; [by apply Hm|].
      apply list_elem_of_In, Hes in He as [id He]. by destruct (Hp _ _ He) as (? & _).
    + intros Hlt. destruct (Hall p Hlt) as [?|[e He]]; [by left|]. right.
      destruct (Hp _ _ He) as (_ & Hid & _). apply main_request_id_inj in Hid. injection Hid as ->.
      apply list_elem_of_In, in_map_iff. exists e. split; [done|]. apply list_elem_of_In, Hes. by eexists.
  - intros p a [Hin|Hin]%elem_of_app; [done|].
    by apply list_elem_of_In, in_map_iff in Hin as (e & [= _ ?] & _).
Qed.

Lemma client_dispose_ok s : client_ok s → client_ok (dispose_client s).
Proof.
  intros Hok. destruct (dispose_facts s Hok) as (Hpend & Htimers & Hnodup & Hreq & Hall & Hans).
  destruct Hok as [Hc Hwf Htwf Hp Ht Hs Hm Hmade Ha Hsent].
  split; try (by rewrite ?Hpend, ?Htimers); rewrite ?Hreq.
  - cbn. rewrite dispose_entries. exact Hc.
  - rewrite Hpend. constructor.
  - rewrite Htimers. constructor.
  - intros p. apply Hall.
  - intros p Hlt. left. by apply Hall.
  - intros p a Hin. by apply Ha, Hans.
  - cbn. rewrite dispose_entries. exact Hsent.
Qed.

(** ** What a program of the main thread does, and on what grounds

    [source] is the message it handles, if it handles one; [facts] are the calls it has made. *)

Abbreviation client_event := (event (with_state WorkerClient ClientCall)).

Definition invoke_payload (request : json) : json := JObject (map_set "request" request map_new).

(** The native side answered [command] with [value]. *)
Definition native_answer (command : string) (request value : json) : client_event :=
  Event (Outside (TauriInvoke command (invoke_payload request))) (Return value).

Inductive client_move (source : option WorkerToMainMessage) (facts : list client_event) (s : WorkerClient) :
  WorkerClient → Prop :=
| Client_looks : client_move source facts s s
| Client_listens kind f : client_move source facts s (put_client_listeners kind f s)
| Client_settles message id r :
    source = Some message → message_answer message = Some (id, r) → client_move source facts s (settle id r s)
| Client_requests request : client_move source facts s (client_request request s).2
| Client_disposes : client_move source facts s (dispose_client s)
| Client_times_out timer : client_move source facts s (request_timeout timer s)
| Client_relays id command request value :
    source = Some (IPC_INVOKE id command request) → native_answer command request value ∈ facts →
    client_move source facts s (replyIpcInvoke id (IpcValue value) s)
| Client_refuses id kind text :
    client_move source facts s (replyIpcInvoke id (IpcFailed kind text) s).

Definition main_allows (source : option WorkerToMainMessage) X (facts : list client_event)
    (c : with_state WorkerClient ClientCall X) : Prop :=
  match c with
  | Atomic f => ∀ s, client_move source facts s (f s).2
  | Outside (TauriInvoke command _) => command ∈ ALLOWED_IPC_COMMANDS
  | Outside _ => True
  end.

Definition main_monitor (source : option WorkerToMainMessage) : monitor (with_state WorkerClient ClientCall) (list client_event) :=
  {| allowed := main_allows source; watch := λ X facts c r, facts ++ [Event c r]; possible := λ _ _ _, True |}.

Abbreviation main_obeys source p facts := (obeys (main_monitor source) p facts (λ _ _, True)).

Section main.
Context (rounds : nat) (describe : exn → string).

Lemma walk_obeys source fuel position set (call : nat → ClientCall unit) facts :
  (∀ l facts, main_allows source unit facts (Outside (call l))) →
  main_obeys source (walk_listeners fuel position set (λ l, outside (call l))) facts.
Proof.
  intros Hcall. revert position facts. induction fuel as [|fuel IH]; intros position facts; [done|].
  cbn -[main_allows]. split; [intros s; by apply Client_looks|].
  intros [entry|e] _; cbn -[main_allows]; [|done]. destruct entry as [[listener|]|]; [|apply IH|done].
  cbn -[main_allows]. split; [apply Hcall|]. intros [[]|e] _; cbn; [apply IH|done].
Qed.

Lemma settles_obeys message id r facts :
  message_answer message = Some (id, r) →
  main_obeys (Some message) (atomically (modify (settle id r))) facts.
Proof. intros Hm. split; [intros s; by eapply Client_settles|]. by intros [[]|e]. Qed.

Lemma invoke_obeys id command request facts :
  main_obeys (Some (IPC_INVOKE id command request)) (handleIpcInvoke describe id command request) facts.
Proof.
  unfold handleIpcInvoke. destruct (bool_decide _) eqn:Hallowed; cbn [negb].
  - apply bool_decide_eq_true in Hallowed. split; [exact Hallowed|].
    assert (∀ cause facts', main_obeys (Some (IPC_INVOKE id command request))
      (atomically (modify (replyIpcInvoke id (IpcFailed ipc_unavailable (describe cause))))) facts') as Hrefuses.
    { intros cause facts'. split; [intros s; apply Client_refuses|]. by intros [[]|e]. }
    intros [value|cause] _; [|apply Hrefuses]. split; [|intros [[]|cause] _; [done|apply Hrefuses]].
    intros s. eapply Client_relays; [done|]. apply elem_of_app. right. by left.
  - split; [intros s; apply Client_refuses|]. by intros [[]|e].
Qed.

Lemma message_obeys message : main_obeys (Some message) (client_handleMessage rounds describe message) [].
Proof.
  destruct message; try (by apply settles_obeys); try apply invoke_obeys; apply walk_obeys; done.
Qed.

Lemma entry_obeys entry : main_obeys None (client_entry entry) [].
Proof.
  destruct entry; (split; [|by intros [?|e]]); intros s; constructor.
Qed.
End main.

(** ** What a program of the worker does *)

Definition posts_of (effects : list WorkerEffect) : list WorkerToMainMessage :=
  omap (λ effect, match effect with Post message => Some message | _ => None end) effects.

(** A message that is no call of the bridge, and answers only what was asked. *)
Definition fair_post (source : option MainToWorkerMessage) (message : WorkerToMainMessage) : Prop :=
  (∀ id command request, message ≠ IPC_INVOKE id command request) ∧
  (is_Some (message_answer message) → ∃ m, source = Some m ∧ proper_reply m message).

Inductive worker_move (source : option MainToWorkerMessage) (s : Worker) : Worker → Prop :=
| Worker_posts effects s' :
    s'.(emitted) = s.(emitted) ++ effects → s'.(bridge) = s.(bridge) →
    Forall (fair_post source) (posts_of effects) → worker_move source s s'
| Worker_resolves id payload :
    source = Some (IPC_INVOKE_RESULT id payload) →
    worker_move source s (put_bridge (resolveInvoke id payload s.(bridge)) s)
| Worker_invokes command request :
    worker_move source s
      (let '(_, message, b) := bridge_invoke command request s.(bridge) in
       emit (match message with Some m => [Post m] | None => [] end) (put_bridge b s)).

Definition worker_allows (source : option MainToWorkerMessage) X (c : with_state Worker WorkerCall X) : Prop :=
  match c with
  | Atomic f => ∀ s, worker_ok s → worker_ok (f s).2 ∧ worker_move source s (f s).2
  | Outside _ => True
  end.

Definition worker_monitor (source : option MainToWorkerMessage) : monitor (with_state Worker WorkerCall) unit :=
  allow_monitor (worker_allows source) (λ _ _ _, True).

Abbreviation worker_obeys source p := (obeys (worker_monitor source) p tt (λ _ _, True)).

Lemma accounts_keep {X} (f : worker_action X) (k : outcome exn X → worker_method unit) own Q :
  worker_accounts (Call (Atomic f) k) own None Q → ∀ s, worker_ok s → worker_ok (f s).2.
Proof. intros H s Hs. destruct (H s Hs) as (own' & ticket' & (Hok & _) & _); [by intros t stage|done]. Qed.

Lemma posts_app a b : posts_of (a ++ b) = posts_of a ++ posts_of b.
Proof. apply omap_app. Qed.
Lemma posts_closing s : posts_of (closing s) = [].
Proof. unfold closing. by destruct (remoteSession s). Qed.

Lemma fair_status source status : fair_post source (CONNECTION_STATUS status).
Proof. split; [done|]. by intros [? ?]. Qed.
Lemma fair_canary source canary : fair_post source (SESSION_TEARDOWN canary).
Proof. split; [done|]. by intros [? ?]. Qed.
Lemma fair_reply m message :
  proper_reply m message → is_Some (message_answer message) → fair_post (Some m) message.
Proof. intros Hm [x Hx]. split; [by intros id c r ->|]. intros _. by exists m. Qed.

(** Messages that answer nothing, or the message [source]. *)
Ltac fair_posts :=
  rewrite ?posts_app, ?posts_closing; cbn;
  repeat first [apply Forall_nil_2 | apply Forall_cons_2];
  first [done | apply fair_status | apply fair_canary | apply fair_reply; [cbn; eauto|by eexists]].

(** An action whose posts are fair. *)
Lemma posts_moves source s s' effects :
  s'.(emitted) = s.(emitted) ++ effects → s'.(bridge) = s.(bridge) →
  Forall (fair_post source) (posts_of effects) → worker_move source s s'.
Proof. apply Worker_posts. Qed.

Lemma quiet_moves source s s' :
  s'.(emitted) = s.(emitted) → s'.(bridge) = s.(bridge) → worker_move source s s'.
Proof. intros He Hb. apply (Worker_posts _ _ []); [by rewrite app_nil_r|done|constructor]. Qed.

Lemma refusal_allowed source client error refusal :
  fair_post source refusal → harmless (Post refusal) → is_Some (answered_id refusal) →
  worker_allows source unit (Atomic (operation_failed client error refusal)).
Proof.
  intros Hfair Hharmless [id Hid] s Hs. split.
  - eapply (accounts_keep _ of_outcome [AnswerRight id] (λ _ _ _, True)); [|done]. by apply refusal_accounts.
  - rewrite operation_failed_eq by done. destruct (expires_session _ _ _); cbn.
    + eapply posts_moves; [done|done|]. fair_posts.
    + eapply posts_moves; [done|done|]. fair_posts.
Qed.

Lemma post_allowed source message :
  fair_post source message → harmless (Post message) → worker_allows source unit (Atomic (post message)).
Proof.
  intros Hfair Hharmless s Hs. split; [by apply emit_ok, Forall_singleton|].
  eapply posts_moves; [done|done|]. fair_posts.
Qed.

Lemma opened_allowed id input generation client session :
  worker_allows (Some (INIT_SESSION id input)) unit (Atomic (session_opened id generation client session)).
Proof.
  intros s Hs. rewrite session_opened_eq. cbn. destruct (superseded generation client s) eqn:Hsup.
  - split; [by apply emit_ok, Forall_singleton|]. eapply posts_moves; [done|done|]. fair_posts.
  - apply orb_false_iff in Hsup as [[_ Hclient]%orb_false_iff _]. apply (proj1 (differs_false _ _)) in Hclient. split.
    + apply emit_ok; [by eapply installed_ok|by repeat constructor].
    + eapply posts_moves; [done|done|]. fair_posts.
Qed.

Lemma failed_allowed id input generation error :
  worker_allows (Some (INIT_SESSION id input)) unit (Atomic (session_failed id generation error)).
Proof.
  intros s Hs. rewrite session_failed_eq. cbn. destruct (negb _); [by split; [|apply quiet_moves]|]. split.
  - apply anonymous_ok; [done|by apply tokens_clear, ok_tokens|].
    apply Forall_app. split; [apply closing_harmless|by repeat constructor].
  - eapply posts_moves; [done|done|]. fair_posts.
Qed.

Lemma begin_session_allowed id input :
  worker_allows (Some (INIT_SESSION id input)) _ (Atomic (begin_session id input)).
Proof.
  intros s Hs. split; [eapply accounts_keep; [apply (accounts_init id input)|done]|].
  rewrite begin_session_eq by done. cbv zeta. destruct (is_empty _).
  - eapply posts_moves; [done|done|]. fair_posts.
  - eapply posts_moves; [done|done|]. change (?x :: closing s ++ ?l) with ([x] ++ closing s ++ l). fair_posts.
Qed.

Lemma teardown_allowed id : worker_allows (Some (TEARDOWN_SESSION id)) _ (Atomic (teardown id)).
Proof.
  intros s Hs. split; [eapply accounts_keep; [apply (accounts_teardown id)|done]|].
  rewrite teardown_eq by done. eapply posts_moves; [done|done|]. fair_posts.
Qed.

Lemma begin_operation_allowed source performer refusal account :
  fair_post source refusal → harmless (Post refusal) →
  worker_allows source _ (Atomic (begin_operation performer refusal account)).
Proof.
  intros Hfair Hharmless s Hs. rewrite begin_operation_eq. destruct (performer s); cbn.
  - split; [done|]. by apply quiet_moves.
  - split; [by apply emit_ok, Forall_singleton|]. eapply posts_moves; [done|done|]. fair_posts.
Qed.

Lemma timer_allowed timer :
  worker_allows None _ (Atomic (fire_timer tokenManager put_tokenManager run_token_listener 2 timer)).
Proof.
  intros s Hs. split; [eapply accounts_keep; [apply (accounts_entry (FireToken timer))|done]|].
  rewrite token_timer_eq by done. cbn. destruct (map_has _ _); [|by apply quiet_moves].
  eapply posts_moves; [done|done|]. fair_posts.
Qed.

Lemma operation_obeys {A} source performer refusal account (call : nat → RemoteAccountId → WorkerCall A)
    (done_message : A → WorkerToMainMessage) (failed_message : exn → WorkerToMainMessage) :
  fair_post source refusal → harmless (Post refusal) →
  (∀ a, fair_post source (done_message a) ∧ harmless (Post (done_message a))) →
  (∀ e, fair_post source (failed_message e) ∧ harmless (Post (failed_message e)) ∧ is_Some (answered_id (failed_message e))) →
  worker_obeys source
    (started ← atomically (begin_operation performer refusal account);
     match started with
     | None => Ret tt
     | Some (active, client, id) =>
         prog_try (a ← outside (call active id); atomically (post (done_message a)))
           (λ error, atomically (operation_failed client error (failed_message error)))
     end).
Proof.
  intros Hr Hh Hdone Hfailed. split; [by apply begin_operation_allowed|].
  intros [[[[active client] id]|]|e] _; [|done|done].
  assert (∀ error, worker_obeys source (atomically (operation_failed client error (failed_message error)))) as Hrefuse.
  { intros error. destruct (Hfailed error) as (? & ? & ?). split; [by apply refusal_allowed|]. by intros [[]|e]. }
  split; [done|]. intros [a|error] _; [|apply Hrefuse]. destruct (Hdone a) as [? ?].
  split; [by apply post_allowed|]. intros [[]|error] _; [done|apply Hrefuse].
Qed.

Lemma handler_obeys message : worker_obeys (Some message) (handleMessage message).
Proof.
  destruct message as [id input|id|id key account|id key account mutation|id payload].
  - assert (∀ generation error, worker_obeys (Some (INIT_SESSION id input))
      (atomically (session_failed id generation error))) as Hfailed.
    { intros generation error. split; [apply failed_allowed|]. by intros [[]|e]. }
    split; [apply begin_session_allowed|]. intros [[[generation client]|]|e] _; [|done|done].
    split; [done|]. intros [session|error] _; [|apply Hfailed].
    split; [apply opened_allowed|]. intros [[]|error] _; [done|apply Hfailed].
  - split; [apply teardown_allowed|]. by intros [[]|e].
  - apply (operation_obeys _ _ _ _ (λ active id', SyncWith active key id') (λ _, SYNC_SUCCESS id key)
      (λ e, SYNC_ERROR id key (safeRemoteError e))); try done; intros; split_and?; try done; apply fair_reply; cbn; eauto.
  - apply (operation_obeys _ _ _ _ (λ active id', SendWith active key id' mutation)
      (λ outcome, SEND_SUCCESS id mutation (outcome_kind outcome))
      (λ e, SEND_ERROR id mutation (safeRemoteError e))); try done; intros; split_and?; try done; apply fair_reply; cbn; eauto.
  - split; [|by intros [[]|e]]. intros s Hs. split; [by apply bridge_ok|]. by apply Worker_resolves.
Qed.

Lemma worker_entry_obeys entry : worker_obeys None (worker_entry entry).
Proof.
  destruct entry as [timer|command request]; (split; [|by intros [[]|e]]).
  - apply timer_allowed.
  - intros s Hs. split; [|apply Worker_invokes].
    eapply accounts_keep; [apply (accounts_entry (BridgedInvoke command request))|done].
Qed.

(** ** The bridge *)

Definition ipc_posts (posts : list WorkerToMainMessage) : list (WorkerRequestId * (string * json)) :=
  omap (λ message, match message with IPC_INVOKE id command request => Some (id, (command, request)) | _ => None end) posts.

Lemma ipc_posts_elem posts id command request :
  (id, (command, request)) ∈ ipc_posts posts ↔ IPC_INVOKE id command request ∈ posts.
Proof.
  unfold ipc_posts. rewrite list_elem_of_omap. split.
  - intros (message & Hin & Hm). destruct message; try done. by injection Hm as -> -> ->.
  - intros Hin. by eexists.
Qed.

Definition settled_invokes (b : Bridge) : list nat := b.(bridge_settled).*1.

(** [posts] is what the worker has posted, [h] what the main thread has called. *)
Record bridge_sound (b : Bridge) (posts : list WorkerToMainMessage) (h : list client_event) : Prop := {
  bs_ids : (ipc_posts posts).*1 = worker_request_id <$> seq 1 b.(bridge_counter);
  bs_wf : map_wf b.(bridge_pending);
  bs_pending id p : map_get id b.(bridge_pending) = Some p → (p ∉ settled_invokes b) ∧
    ∃ call, (id, call) ∈ ipc_posts posts ∧ b.(bridge_invoked) !! p = Some call;
  bs_distinct id id' p :
    map_get id b.(bridge_pending) = Some p → map_get id' b.(bridge_pending) = Some p → id = id';
  bs_settled : NoDup (settled_invokes b);
  bs_made p : p ∈ settled_invokes b → (p < length b.(bridge_invoked))%nat;
  bs_answers p value : (p, Return value) ∈ b.(bridge_settled) →
    ∃ command request, b.(bridge_invoked) !! p = Some (command, request) ∧ native_answer command request value ∈ h;
}.

Lemma new_bridge_sound : bridge_sound new_bridge [] [].
Proof. split; cbn; try done; [constructor|constructor|by intros p Hp%elem_of_nil|by intros p v Hp%elem_of_nil]. Qed.

Lemma ipc_posts_unique b posts h id call call' :
  bridge_sound b posts h → (id, call) ∈ ipc_posts posts → (id, call') ∈ ipc_posts posts → call = call'.
Proof.
  intros Hb Hin Hin'. assert (NoDup (ipc_posts posts).*1) as Hnodup.
  { rewrite (bs_ids _ _ _ Hb). apply (NoDup_fmap_2 _), NoDup_seq. }
  apply (map_elem_get id) in Hin, Hin'; [|done..]. by rewrite Hin in Hin'; injection Hin'.
Qed.

(** More messages that are no calls, and more calls of the main thread. *)
Lemma bridge_sound_later b posts h more h' :
  bridge_sound b posts h → ipc_posts more = [] → bridge_sound b (posts ++ more) (h ++ h').
Proof.
  intros [Hi Hwf Hp Hd Hs Hm Ha] Hmore.
  assert (ipc_posts (posts ++ more) = ipc_posts posts) as Heq.
  { unfold ipc_posts in *. by rewrite omap_app, Hmore, app_nil_r. }
  split; rewrite ?Heq; try done. intros p v Hin. destruct (Ha p v Hin) as (c & r & ? & ?). exists c, r.
  split; [done|]. apply elem_of_app. by left.
Qed.

Lemma resolve_sound id payload b posts h :
  bridge_sound b posts h →
  (∀ value, payload = IpcValue value →
     ∃ command request, IPC_INVOKE id command request ∈ posts ∧ native_answer command request value ∈ h) →
  bridge_sound (resolveInvoke id payload b) posts h.
Proof.
  intros Hb Hvalue. unfold resolveInvoke. destruct (map_get id _) as [promise|] eqn:Hget; [|done].
  pose proof Hb as [Hi Hwf Hp Hd Hs Hm Ha]. destruct (Hp _ _ Hget) as (Hnew & call & Hcall & Hinvoked).
  split; unfold settled_invokes in *; cbn; try done; rewrite ?fst_snoc.
  - by apply map_wf_delete.
  - intros id' p. rewrite map_get_delete by done. case_decide as Hne; [done|]. intros Hpend.
    destruct (Hp _ _ Hpend) as [Hp1 Hp2]. split; [|done].
    rewrite elem_of_app, list_elem_of_singleton. intros [|Heq]; [done|]. apply Hne.
    rewrite Heq in Hpend. by eapply Hd.
  - intros id1 id2 p. rewrite !map_get_delete by done. do 2 (case_decide; [done|]). apply Hd.
  - apply NoDup_app. split_and!; [done| |apply NoDup_singleton]. by intros x Hx ->%list_elem_of_singleton.
  - intros p. rewrite elem_of_app, list_elem_of_singleton. intros [Hin| ->]; [by apply Hm|]. by eapply lookup_lt_Some.
  - intros p v [Hin|Heq%list_elem_of_singleton]%elem_of_app; [by apply Ha|]. injection Heq as -> Hval.
    destruct payload as [value|kind text]; [|done]. injection Hval as ->.
    destruct (Hvalue _ eq_refl) as (command & request & Hpost & Hnative). exists command, request. split; [|done].
    rewrite Hinvoked. f_equal. eapply ipc_posts_unique; [done|done|]. by apply ipc_posts_elem.
Qed.

Lemma invoke_sound command request b posts h :
  bridge_sound b posts h →
  let '(_, message, b') := bridge_invoke command request b in
  bridge_sound b' (posts ++ match message with Some m => [m] | None => [] end) h.
Proof.
  intros [Hi Hwf Hp Hd Hs Hm Ha]. unfold bridge_invoke.
  set (payload := default (JObject map_new) request). set (n := length b.(bridge_invoked)).
  assert (n ∉ settled_invokes b) as Hnew by (intros Hin%Hm; subst n; lia).
  assert (∀ id p, map_get id b.(bridge_pending) = Some p → p ≠ n) as Hold.
  { intros id p Hget ->. destruct (Hp _ _ Hget) as (_ & call & _ & Hcall). apply lookup_lt_Some in Hcall. subst n. lia. }
  destruct (negb _).
  - rewrite app_nil_r. split; unfold settled_invokes in *; cbn; rewrite ?fst_snoc; try done.
    + intros id p Hget. destruct (Hp _ _ Hget) as (? & call & ? & ?). split.
      * rewrite elem_of_app, list_elem_of_singleton. intros [|]; [done|]. by eapply Hold.
      * exists call. split; [done|]. by apply lookup_app_l_Some.
    + apply NoDup_app. split_and!; [done| |apply NoDup_singleton]. by intros x Hx ->%list_elem_of_singleton.
    + intros p. rewrite length_app, elem_of_app, list_elem_of_singleton. cbn. intros [Hin%Hm| ->]; subst n; lia.
    + intros p v [Hin|[= _ ?]%list_elem_of_singleton]%elem_of_app. destruct (Ha p v Hin) as (c & r & ? & ?).
      exists c, r. split; [|done]. by apply lookup_app_l_Some.
  - set (id := worker_request_id (S b.(bridge_counter))).
    assert (ipc_posts (posts ++ [IPC_INVOKE id command payload]) = ipc_posts posts ++ [(id, (command, payload))]) as Hposts
      by (unfold ipc_posts; by rewrite omap_app).
    split; rewrite ?Hposts; unfold settled_invokes in *;
      cbn [bridge_pending bridge_counter bridge_invoked bridge_settled]; try done.
    + by rewrite fst_snoc, Hi, seq_S, fmap_app.
    + by apply map_wf_set.
    + intros id' p. rewrite map_get_set. case_decide as Heq; [intros [= <-]; subst id'|].
      * split; [done|]. exists (command, payload). split; [apply elem_of_app; right; by left|].
        subst n. by rewrite lookup_app_r, Nat.sub_diag by done.
      * intros Hget. destruct (Hp _ _ Hget) as (? & call & ? & ?). split; [done|]. exists call.
        split; [apply elem_of_app; by left|by apply lookup_app_l_Some].
    + intros id1 id2 p. rewrite !map_get_set. repeat case_decide.
      * congruence.
      * intros [= <-] Hget. by destruct (Hold _ _ Hget).
      * intros Hget [= <-]. by destruct (Hold _ _ Hget).
      * apply Hd.
    + intros p Hin%Hm. rewrite length_app. lia.
    + intros p v Hin. destruct (Ha p v Hin) as (c & r & ? & ?). exists c, r. split; [by apply lookup_app_l_Some|done].
Qed.

(** ** What a move of the client keeps *)

Lemma reply_id m message id r :
  proper_reply m message → message_answer message = Some (id, r) → request_id m = Some id.
Proof. destruct message; try done; intros Hproper [= <- _]; naive_solver. Qed.

Lemma client_move_ok source facts s s' :
  client_move source facts s s' → client_ok s →
  (∀ message, source = Some message → is_Some (message_answer message) → ∃ m, m ∈ s.(client_sent) ∧ proper_reply m message) →
  client_ok s'.
Proof.
  intros Hmove Hok Hsource.
  destruct Hmove as [|kind f|message id r Hsrc Hanswer|request| |timer|id command request value Hsrc Hin|id kind text].
  - done.
  - by apply client_listeners_ok.
  - apply client_settle_ok; [done|]. intros e a He Hr.
    destruct (Hsource message Hsrc (ex_intro _ _ Hanswer)) as (m & Hm & Hproper).
    pose proof (reply_id _ _ _ _ Hproper Hanswer) as Hid.
    destruct (co_sent _ Hok m id Hm Hid) as (n & q & Hq & ->).
    destruct (reply_answers _ _ _ _ _ a Hproper Hanswer) as [Heq Hans].
    destruct (co_pending _ Hok _ _ He) as (_ & Hpid & _). rewrite Heq in Hpid.
    apply main_request_id_inj in Hpid. injection Hpid as ->. exists q. auto.
  - by apply client_request_ok.
  - by apply client_dispose_ok.
  - by apply client_timeout_ok.
  - by apply client_reply_ok.
  - by apply client_reply_ok.
Qed.

Lemma client_move_sent source facts s s' :
  client_move source facts s s' →
  (∀ m, m ∈ s.(client_sent) → m ∈ s'.(client_sent)) ∧
  (∀ id value, IPC_INVOKE_RESULT id (IpcValue value) ∈ s'.(client_sent) →
     IPC_INVOKE_RESULT id (IpcValue value) ∈ s.(client_sent) ∨
     ∃ command request, source = Some (IPC_INVOKE id command request) ∧ native_answer command request value ∈ facts).
Proof.
  intros Hmove.
  destruct Hmove as [|kind f|message id r Hsrc Hanswer|request| |timer|id command request value Hsrc Hin|id kind text].
  - split; [done|]. intros. by left.
  - split; [done|]. intros. by left.
  - unfold settle. destruct (map_get id _); (split; [done|]; intros; by left).
  - cbn. split; [intros m Hm; apply elem_of_app; by left|].
    intros id value [Hin|Hin%list_elem_of_singleton]%elem_of_app; [by left|]. by destruct request.
  - unfold dispose_client. rewrite dispose_entries. split; [done|]. intros. by left.
  - unfold request_timeout. destruct (map_get timer _); (split; [done|]; intros; by left).
  - cbn. split; [intros m Hm; apply elem_of_app; by left|].
    intros id' value' [Hold|Heq%list_elem_of_singleton]%elem_of_app; [by left|]. injection Heq as -> ->.
    right. by exists command, request.
  - cbn. split; [intros m Hm; apply elem_of_app; by left|].
    intros id' value' [Hold|Heq%list_elem_of_singleton]%elem_of_app; [by left|done].
Qed.

(** ** What a move of the worker keeps *)

Lemma no_ipc source posts : Forall (fair_post source) posts → ipc_posts posts = [].
Proof.
  induction 1 as [|message posts [Hno _] _ IH]; [done|]. unfold ipc_posts in *. cbn.
  destruct message; try exact IH. by destruct (Hno requestId command request).
Qed.

Lemma posts_emit effects s : worker_posts (emit effects s) = worker_posts s ++ posts_of effects.
Proof. apply posts_app. Qed.

(** The messages a move posts, and the bridge after it. *)
Lemma worker_move_keeps source s s' h :
  worker_move source s s' → bridge_sound s.(bridge) (worker_posts s) h →
  (∀ id value, source = Some (IPC_INVOKE_RESULT id (IpcValue value)) →
     ∃ command request, IPC_INVOKE id command request ∈ worker_posts s ∧ native_answer command request value ∈ h) →
  bridge_sound s'.(bridge) (worker_posts s') h ∧
  ∃ more, worker_posts s' = worker_posts s ++ more ∧
    ∀ message, message ∈ more → is_Some (message_answer message) → ∃ m, source = Some m ∧ proper_reply m message.
Proof.
  intros Hmove Hb Hsource. destruct Hmove as [effects s' He Hbridge Hfair|id payload Hsrc|command request].
  - assert (worker_posts s' = worker_posts s ++ posts_of effects) as Hposts.
    { unfold worker_posts. rewrite He. apply posts_app. }
    rewrite Hposts, Hbridge. split.
    + rewrite <- (app_nil_r h). apply bridge_sound_later; [done|]. by eapply no_ipc.
    + exists (posts_of effects). split; [done|]. intros message Hin. rewrite Forall_forall in Hfair.
      apply (Hfair _ Hin).
  - split; [|exists []; split; [by rewrite app_nil_r|by intros m Hm%elem_of_nil]].
    apply resolve_sound; [done|]. intros value ->. by apply (Hsource id).
  - pose proof (invoke_sound command request _ _ _ Hb) as Hinvoke.
    assert (∀ m, (bridge_invoke command request s.(bridge)).1.2 = Some m → message_answer m = None) as Hno.
    { unfold bridge_invoke. destruct (negb _); cbn; [done|]. by intros m [= <-]. }
    destruct (bridge_invoke command request s.(bridge)) as [[promise message] b'] eqn:Heq. cbn in Hno.
    rewrite posts_emit. cbn [bridge put_bridge emit].
    change (worker_posts (put_bridge b' s)) with (worker_posts s).
    destruct message as [m|]; (split; [exact Hinvoke|]); eexists; (split; [done|]).
    + intros message Hin Hans. apply list_elem_of_singleton in Hin as ->. rewrite (Hno m eq_refl) in Hans. by destruct Hans.
    + by intros message Hin%elem_of_nil.
Qed.

(** ** The invariant of both sides *)

Definition main_program_ok (c : system (with_state WorkerClient ClientCall) unit WorkerClient)
    (posts : list WorkerToMainMessage) (p : client_method unit) : Prop :=
  ∃ source facts, main_obeys source p facts ∧ (∀ m, source = Some m → m ∈ posts) ∧
    (∀ e, e ∈ facts → e ∈ c.(history)).
Definition worker_program_ok (sent : list MainToWorkerMessage) (p : worker_method unit) : Prop :=
  ∃ source, worker_obeys source p ∧ (∀ m, source = Some m → m ∈ sent).

(** Only commands of the Local Engine are run. *)
Definition call_allowed (e : client_event) : Prop :=
  match e with
  | Event c _ => match c with Outside (TauriInvoke command _) => command ∈ ALLOWED_COMMANDS | _ => True end
  end.

Record link_ok (l : link) : Prop := {
  link_client : client_ok l.(main_side).(world);
  link_worker : worker_ok l.(worker_side).(world);
  link_bridge : bridge_sound l.(worker_side).(world).(bridge) (worker_posts l.(worker_side).(world)) l.(main_side).(history);
  link_replies message : message ∈ worker_posts l.(worker_side).(world) → is_Some (message_answer message) →
    ∃ m, m ∈ l.(main_side).(world).(client_sent) ∧ proper_reply m message;
  link_relays id value : IPC_INVOKE_RESULT id (IpcValue value) ∈ l.(main_side).(world).(client_sent) →
    ∃ command request, IPC_INVOKE id command request ∈ worker_posts l.(worker_side).(world) ∧
      native_answer command request value ∈ l.(main_side).(history);
  link_main : Forall (main_program_ok l.(main_side) (worker_posts l.(worker_side).(world))) l.(main_side).(programs);
  link_workers : Forall (worker_program_ok l.(main_side).(world).(client_sent)) l.(worker_side).(programs);
  link_native e : e ∈ l.(main_side).(history) → call_allowed e;
}.

Lemma new_link_ok : link_ok new_link.
Proof.
  split; cbn.
  - apply new_client_ok.
  - apply new_worker_ok.
  - apply new_bridge_sound.
  - by intros m Hm%elem_of_nil.
  - by intros id v Hm%elem_of_nil.
  - constructor.
  - constructor.
  - by intros e He%elem_of_nil.
Qed.

Lemma main_program_later c c' posts more p :
  (∀ e, e ∈ c.(history) → e ∈ c'.(history)) → main_program_ok c posts p → main_program_ok c' (posts ++ more) p.
Proof.
  intros Hh (source & facts & Hp & Hs & Hf). exists source, facts. split_and!; [done| |auto].
  intros m Hm. apply elem_of_app. left. by apply Hs.
Qed.

Lemma worker_program_later sent sent' p :
  (∀ m, m ∈ sent → m ∈ sent') → worker_program_ok sent p → worker_program_ok sent' p.
Proof. intros Hsent (source & Hp & Hs). exists source. auto. Qed.

(** ** Every step keeps it *)

Lemma Forall_snoc_2 {A} (P : A → Prop) l x : Forall P l → P x → Forall P (l ++ [x]).
Proof. intros Hl Hx. apply Forall_app. split; [done|by constructor]. Qed.

Lemma main_step_ok c c' w i j :
  link_ok (mkLink c w i j) → pool_step shared_answers c c' → link_ok (mkLink c' w i j).
Proof.
  intros Hok Hstep. destruct Hok as [Hclient Hworker Hbridge Hreplies Hrelays Hmain Hworkers Hnative]. cbn in *.
  destruct Hstep as [ps s h n X call k r s' Hn Hans]. cbn in *.
  pose proof Hmain as Hall. rewrite Forall_lookup in Hall. destruct (Hall n _ Hn) as (source & facts & Hp & Hsource & Hfacts).
  destruct Hp as [Hallowed Hnext].
  assert (client_move source facts s s') as Hmove.
  { destruct call as [Y f|Y call]; cbn in Hans; [|subst; apply Client_looks].
    cbn in Hallowed. specialize (Hallowed s). by rewrite <- Hans in Hallowed. }
  destruct (client_move_sent _ _ _ _ Hmove) as [Hsent Hrelayed].
  split; cbn; [| done| | | | | |].
  - eapply client_move_ok; [exact Hmove|done|]. intros message Hm Hanswer. by apply Hreplies; [apply Hsource|].
  - rewrite <- (app_nil_r (worker_posts _)). by apply bridge_sound_later.
  - intros message Hm Hanswer. destruct (Hreplies _ Hm Hanswer) as (m & ? & ?). exists m. auto.
  - intros id value [Hold|(command & request & Hsrc & Hin)]%Hrelayed.
    + destruct (Hrelays _ _ Hold) as (command & request & ? & ?). exists command, request. split; [done|].
      apply elem_of_app. by left.
    + exists command, request. split; [by apply Hsource|]. apply elem_of_app. left. by apply Hfacts.
  - apply Forall_insert.
    + eapply List.Forall_impl; [|exact Hmain]. intros p Hp. rewrite <- (app_nil_r (worker_posts _)).
      eapply main_program_later; [|exact Hp]. intros e He. apply elem_of_app. by left.
    + exists source, (facts ++ [Event call r]). split_and!; [by apply Hnext|done|]. cbn.
      intros e [He|He]%elem_of_app; apply elem_of_app; [left; by apply Hfacts|by right].
  - eapply List.Forall_impl; [|exact Hworkers]. intros p. by apply worker_program_later.
  - intros e [Hold| ->%list_elem_of_singleton]%elem_of_app; [by apply Hnative|].
    clear -Hallowed. destruct call as [Y f|Y call]; [done|]. by destruct call.
Qed.

Lemma worker_step_ok c w w' i j :
  link_ok (mkLink c w i j) → pool_step shared_answers w w' → link_ok (mkLink c w' i j).
Proof.
  intros Hok Hstep. destruct Hok as [Hclient Hworker Hbridge Hreplies Hrelays Hmain Hworkers Hnative]. cbn in *.
  destruct Hstep as [ps s h n X call k r s' Hn Hans]. cbn in *.
  pose proof Hworkers as Hall. rewrite Forall_lookup in Hall. destruct (Hall n _ Hn) as (source & Hp & Hsource).
  destruct Hp as [Hallowed Hnext].
  assert (worker_ok s' ∧ worker_move source s s') as [Hworker' Hmove].
  { destruct call as [Y f|Y call]; cbn in Hans; [|subst; split; [done|by apply quiet_moves]].
    cbn in Hallowed. specialize (Hallowed s Hworker). by rewrite <- Hans in Hallowed. }
  destruct (worker_move_keeps source s s' c.(history) Hmove Hbridge) as (Hbridge' & more & Hposts & Hmore).
  { intros id value Hsrc. apply Hrelays. by apply Hsource. }
  split; cbn; [done|done|done| | | | |done].
  - rewrite Hposts. intros message [Hold|Hnew]%elem_of_app Hanswer; [by apply Hreplies|].
    destruct (Hmore _ Hnew Hanswer) as (m & Hm & ?). exists m. split; [by apply Hsource|done].
  - rewrite Hposts. intros id value (command & request & ? & ?)%Hrelays. exists command, request. split; [|done].
    apply elem_of_app. by left.
  - rewrite Hposts. eapply List.Forall_impl; [|exact Hmain]. intros p. by apply main_program_later.
  - apply Forall_insert; [done|]. exists source. split; [|done]. by apply (Hnext r).
Qed.

Lemma link_step_ok rounds describe l l' : link_step rounds describe l l' → link_ok l → link_ok l'.
Proof.
  intros Hstep Hok.
  destruct Hstep as [c c' w i j Hc|c w w' i j _ Hw|c w i j entry|c w i j entry|c w i j message _ Hm|c w i j message _ Hm].
  - by eapply main_step_ok.
  - by eapply worker_step_ok.
  - destruct Hok. split; cbn in *; try done. apply Forall_snoc_2; [done|].
    exists None, []. split_and!; [apply entry_obeys|done|by intros e He%elem_of_nil].
  - destruct Hok. split; cbn in *; try done. apply Forall_snoc_2; [done|].
    exists None. split; [apply worker_entry_obeys|done].
  - destruct Hok. split; cbn in *; try done. apply Forall_snoc_2; [done|].
    exists (Some message). split; [apply handler_obeys|]. intros m [= <-]. by eapply list_elem_of_lookup_2.
  - destruct Hok. split; cbn in *; try done. apply Forall_snoc_2; [done|].
    exists (Some message), []. split_and!; [apply message_obeys| |by intros e He%elem_of_nil].
    intros m [= <-]. by eapply list_elem_of_lookup_2.
Qed.

Lemma reached_link_ok rounds describe l : link_reaches rounds describe new_link l → link_ok l.
Proof.
  intros Hreach. assert (∀ l', link_ok l' → rtc (link_step rounds describe) l' l → link_ok l) as H; [|by apply (H new_link new_link_ok)].
  clear. intros l' Hok Hreach. induction Hreach; [done|]. eauto using link_step_ok.
Qed.

(** ** The theorems *)

(** C15: Whatever the worker, the timers, the listeners and the rest of the application do, a
    promise of the client is settled at most once; when it resolves, it resolves with an answer of
    the kind of its own request, about the same account or mutation; and until it is settled a
    timer waits that will. *)
Theorem promises_get_their_own_answer rounds describe l :
  link_reaches rounds describe new_link l →
  let c := l.(main_side).(world) in
  NoDup c.(client_settled).*1 ∧
  (∀ p answer, (p, Return answer) ∈ c.(client_settled) →
     ∃ request, c.(client_requests) !! p = Some request ∧ answers_request request answer) ∧
  (∀ p, (p < length c.(client_requests))%nat →
     p ∈ c.(client_settled).*1 ∨
     ∃ timer timeout, map_get timer c.(client_timers) = Some timeout ∧ timeout.(timeout_promise) = p).
Proof.
  intros Hreach. pose proof (link_client _ (reached_link_ok _ _ _ Hreach)) as Hok. cbv zeta.
  split_and!; [by apply co_settled|by apply co_answers|].
  intros p Hp. destruct (co_all _ Hok p Hp) as [?|[e He]]; [by left|]. right.
  destruct (co_pending _ Hok _ _ He) as (_ & Hid & _ & type & Htimer).
  apply main_request_id_inj in Hid. injection Hid as ->. by eexists _, _.
Qed.

(** C23: A promise of the bridge is settled at most once; when it resolves, it is with what the
    native side answered, on the main thread, to that very command and request.  Nothing but the
    commands of the Local Engine is ever run for the worker. *)
Theorem bridged_calls_get_their_own_answer rounds describe l :
  link_reaches rounds describe new_link l →
  let b := l.(worker_side).(world).(bridge) in
  NoDup b.(bridge_settled).*1 ∧
  (∀ p value, (p, Return value) ∈ b.(bridge_settled) →
     ∃ command request, b.(bridge_invoked) !! p = Some (command, request) ∧
       native_answer command request value ∈ l.(main_side).(history)) ∧
  (∀ command payload r, Event (Outside (TauriInvoke command payload)) r ∈ l.(main_side).(history) →
     command ∈ IPC_READ_COMMANDS ++ IPC_WRITE_COMMANDS).
Proof.
  intros Hreach. pose proof (reached_link_ok _ _ _ Hreach) as Hok. pose proof (link_bridge _ Hok) as Hb. cbv zeta.
  split_and!; [by eapply bs_settled|by apply (bs_answers _ _ _ Hb)|].
  intros command payload r Hin. apply (link_native _ Hok _ Hin).
Qed.

(** Disposing of the client, whenever it is done, settles every promise that was not, leaves
    the others as they are, and leaves no timer behind. *)
Theorem disposing_settles_everything rounds describe l :
  link_reaches rounds describe new_link l →
  let c := l.(main_side).(world) in
  let c' := dispose_client c in
  c'.(client_pending) = [] ∧ c'.(client_timers) = [] ∧ c'.(terminated) = true ∧
  NoDup c'.(client_settled).*1 ∧
  (∀ p, p ∈ c'.(client_settled).*1 ↔ (p < length c.(client_requests))%nat) ∧
  (∃ more, c'.(client_settled) = c.(client_settled) ++ more ∧
     Forall (λ entry, entry.2 = Throw (Error "JmapWorkerClient disposed")) more).
Proof.
  intros Hreach. pose proof (link_client _ (reached_link_ok _ _ _ Hreach)) as Hok. cbv zeta.
  destruct (dispose_facts _ Hok) as (Hpend & Htimers & Hnodup & _ & Hall & _).
  split_and!; [done|done|done|done|done|].
  unfold dispose_client. rewrite dispose_entries. cbn. eexists. split; [done|].
  apply Forall_forall. by intros entry (e & <- & _)%list_elem_of_In%in_map_iff.
Qed.

(** ** A conversation *)

Import WorkerFixtures.

Module LinkFixtures.
Definition main_world X (c : ClientCall X) : outcome exn X :=
  match c in ClientCall X return outcome exn X with
  | TauriInvoke command _ => Return (JString command)
  | _ => Return tt
  end.
(** What may happen next; a move that is not possible changes nothing. *)
Inductive link_turn : Type :=
| Main_turn (i : nat) | Worker_turn (i : nat) | Main_calls (entry : ClientEntry)
| Worker_calls (entry : WorkerEntry) | Deliver_to_worker | Deliver_to_main.

Definition no_description (_ : exn) : string := "".

Definition take_turn (l : link) (t : link_turn) : link :=
  let '(mkLink c w i j) := l in
  match t with
  | Main_turn n => mkLink (turn (answering main_world) c n) w i j
  | Worker_turn n => if c.(world).(terminated) then l else mkLink c (turn (answering worker_world) w n) i j
  | Main_calls entry => mkLink (spawn (client_entry entry) c) w i j
  | Worker_calls entry => mkLink c (spawn (worker_entry entry) w) i j
  | Deliver_to_worker =>
      match c.(world).(client_sent) !! i with
      | Some m => if c.(world).(terminated) then l else mkLink c (spawn (handleMessage m) w) (S i) j
      | None => l
      end
  | Deliver_to_main =>
      match worker_posts w.(world) !! j with
      | Some m =>
          if c.(world).(terminated) then l
          else mkLink (spawn (client_handleMessage 5 no_description m) c) w i (S j)
      | None => l
      end
  end.

Lemma turn_steps {E A W} (answers : ∀ X, E X → W → outcome exn X → W → Prop)
    (answer : ∀ X, E X → W → outcome exn X * W) (σ : system E A W) n :
  (∀ X c w, answers X c w (answer X c w).1 (answer X c w).2) →
  turn answer σ n = σ ∨ pool_step answers σ (turn answer σ n).
Proof.
  intros Hans. destruct σ as [ps w h]. unfold turn. cbn. destruct (ps !! n) as [[a|e|X c k]|] eqn:Hn; try by left.
  right. specialize (Hans X c w). destruct (answer X c w) as [r w']. by apply Pool_step.
Qed.

Lemma take_turn_steps l t : take_turn l t = l ∨ link_step 5 no_description l (take_turn l t).
Proof.
  destruct l as [c w i j], t as [n|n|entry|entry| |]; cbn.
  - destruct (turn_steps shared_answers (answering main_world) c n) as [->|H]; [apply answering_shared|by left|].
    right. by apply Main_runs.
  - destruct (terminated _) eqn:Ht; [by left|].
    destruct (turn_steps shared_answers (answering worker_world) w n) as [->|H]; [apply answering_shared|by left|].
    right. by apply Worker_runs.
  - right. apply Main_called.
  - right. apply Worker_called.
  - destruct (_ !! i) as [m|] eqn:Hm; [|by left]. destruct (terminated _) eqn:Ht; [by left|]. right. by apply To_worker.
  - destruct (_ !! j) as [m|] eqn:Hm; [|by left]. destruct (terminated _) eqn:Ht; [by left|]. right. by apply To_main.
Qed.

Definition converse (turns : list link_turn) : link := fold_left take_turn turns new_link.

Lemma converse_reaches turns : link_reaches 5 no_description new_link (converse turns).
Proof.
  unfold converse, link_reaches. generalize new_link. induction turns as [|t turns IH]; intros l; [apply rtc_refl|].
  cbn. etransitivity; [|apply IH]. destruct (take_turn_steps l t) as [->|H]; [apply rtc_refl|by apply rtc_once].
Qed.

(** A session starts, an account is synchronised, its adapter reads the accounts through the
    bridge, and a mutation is sent that is not answered yet. *)
Definition conversation : list link_turn :=
  [Main_calls (CallRequest (RequestInit input)); Main_turn 0; Deliver_to_worker;
   Worker_turn 0; Worker_turn 0; Worker_turn 0;
   Deliver_to_main; Deliver_to_main; Deliver_to_main; Main_turn 1; Main_turn 2; Main_turn 3;
   Main_calls (CallRequest (RequestSync "A1" "acc")); Main_turn 4; Deliver_to_worker; Worker_turn 1;
   Worker_calls (BridgedInvoke "local_list_accounts" None); Worker_turn 2; Deliver_to_main;
   Main_turn 5; Main_turn 5; Deliver_to_worker; Worker_turn 3;
   Worker_turn 1; Worker_turn 1; Deliver_to_main; Main_turn 6;
   Main_calls (CallRequest (RequestSend "A1" "acc" "mut")); Main_turn 7].
End LinkFixtures.
Import LinkFixtures.

Lemma promises_get_their_own_answer_witness :
  let c := (converse conversation).(main_side).(world) in
  c.(client_settled).*1 = [0; 1] ∧
  ∃ request, c.(client_requests) !! 1 = Some request ∧ answers_request request (AnswerSync "A1").
Proof.
  destruct (promises_get_their_own_answer 5 no_description _ (converse_reaches conversation)) as (_ & H & _).
  split; [vm_compute; reflexivity|]. apply H. vm_compute. right. left.
Defined.

Lemma bridged_calls_get_their_own_answer_witness :
  let b := (converse conversation).(worker_side).(world).(bridge) in
  b.(bridge_settled) = [(0, Return (JString "local_list_accounts"))] ∧
  ∃ command request, b.(bridge_invoked) !! 0 = Some (command, request) ∧
    native_answer command request (JString "local_list_accounts") ∈ (converse conversation).(main_side).(history).
Proof.
  destruct (bridged_calls_get_their_own_answer 5 no_description _ (converse_reaches conversation)) as (_ & H & _).
  split; [vm_compute; reflexivity|]. apply H. vm_compute. left.
Defined.

Lemma disposing_settles_everything_witness :
  let c := (converse conversation).(main_side).(world) in
  length c.(client_requests) = 3 ∧ 2 ∈ (dispose_client c).(client_settled).*1.
Proof.
  destruct (disposing_settles_everything 5 no_description _ (converse_reaches conversation)) as (_ & _ & _ & _ & H & _).
  assert (length (converse conversation).(main_side).(world).(client_requests) = 3) as Hlen by (vm_compute; reflexivity).
  split; [exact Hlen|]. apply H. rewrite Hlen. lia.
Defined.
