(* ===== verification/E2eeAdapter.v ===== *)
(** * The native end-to-end encryption: e2ee/tauri-e2ee-adapter.ts

    [TauriE2eeAdapter] implements [E2eePort] by one native command per method.  The
    native side answers with a value of any shape, or rejects; a decoder per result checks the
    shape, and nothing is ever thrown to the caller. *)

From S2P Require Import Prelude.
From S2P Require Import JsNumber.
From S2P Require Import JsString.
From S2P Require Import JsCollections.
From S2P Require Import Json.
From S2P Require Import Errors.
From S2P Require Import DomainIds.
From S2P Require Import SendIntent.
From S2P Require Import Prog.
From S2P Require Import E2ee.
Open Scope string_scope.
Open Scope list_scope.

(** ** e2ee/types.ts *)

Record E2eePublicIdentity : Type := mkPublicIdentity {
  identity_localIdentity : string;
  identity_publicKey : string;
}.

Inductive PeerKeyStatus : Type := peer_missing | peer_trusted (publicKey : string).

(** ** Decoders *)

Definition ERROR_KINDS : list (string * E2eeErrorKind) := [
  ("multipleRecipientsUnsupported", multipleRecipientsUnsupported);
  ("keyUnavailable", keyUnavailable);
  ("peerKeyUnavailable", peerKeyUnavailable);
  ("keyMismatch", keyMismatch);
  ("invalidPublicKey", invalidPublicKey);
  ("invalidEnvelope", e2ee_invalidEnvelope);
  ("metadataMismatch", metadataMismatch);
  ("authenticationFailed", authenticationFailed);
  ("unavailable", e2ee_unavailable);
  ("unexpected", e2ee_unexpected)].

Definition record (value : json) : outcome exn (jsmap string json) :=
  match value with
  | JObject fields => Return fields
  | _ => Throw (TypeError "Malformed E2EE IPC value")
  end.

Definition stringField (value : jsmap string json) (key : string) : outcome exn string :=
  match get_field key value with
  | Some (JString field) => Return field
  | _ => Throw (TypeError ("Malformed E2EE " +:+ key))
  end.

Definition decodePublicIdentity (value : json) : outcome exn E2eePublicIdentity :=
  item ← record value;
  localIdentity ← stringField item "localIdentity";
  publicKey ← stringField item "publicKey";
  Return (mkPublicIdentity localIdentity publicKey).

Definition decodeUnit (value : json) : outcome exn unit :=
  match value with
  | JNull => Return tt
  | _ => Throw (TypeError "Malformed E2EE unit response")
  end.

Definition decodePeerStatus (value : json) : outcome exn PeerKeyStatus :=
  item ← record value;
  if is_string "missing" (get_field "kind" item) then Return peer_missing
  else if is_string "trusted" (get_field "kind" item) then
    publicKey ← stringField item "publicKey";
    Return (peer_trusted publicKey)
  else Throw (TypeError "Malformed E2EE peer status").

Definition decodeEnvelope (value : json) : outcome exn BoxplotE2eeEnvelope :=
  item ← record value;
  throw_if (negb (is_number (Int 1) (get_field "version" item)) ||
            negb (is_string "boxplot-crypto-box-v1" (get_field "algorithm" item)))
    (TypeError "Malformed E2EE envelope discriminator");;
  sender ← stringField item "sender";
  recipient ← stringField item "recipient";
  senderPublicKey ← stringField item "senderPublicKey";
  recipientPublicKey ← stringField item "recipientPublicKey";
  nonce ← stringField item "nonce";
  ciphertext ← stringField item "ciphertext";
  Return (mkEnvelope sender recipient senderPublicKey recipientPublicKey nonce ciphertext).

(** [Reflect.get(item, 'html')]: a string or [null]; anything else is malformed. *)
Definition nullable_html (value : option json) : option (option string) :=
  match value with
  | Some JNull => Some None
  | Some (JString html) => Some (Some html)
  | _ => None
  end.

Definition decodePlaintext (value : json) : outcome exn E2eePlaintext :=
  item ← record value;
  match is_number (Int 1) (get_field "version" item), nullable_html (get_field "html" item) with
  | true, Some html =>
      sender ← stringField item "sender";
      recipient ← stringField item "recipient";
      subject ← stringField item "subject";
      text ← stringField item "text";
      Return (mkPlaintext sender recipient subject text html)
  | _, _ => Throw (TypeError "Malformed E2EE plaintext")
  end.

(** [decodeError]: a rejection that is one of the known strings names its kind. *)
Definition decodeError (cause : exn) : E2eeErrorKind :=
  match cause with
  | OtherThrown text => default e2ee_unavailable (map_get text ERROR_KINDS)
  | TypeError _ => e2ee_unexpected
  | _ => e2ee_unavailable
  end.

(** ** The methods *)

Inductive NativeE2ee : Type → Type :=
| InvokeE2ee (command : string) (request : json) : NativeE2ee json.

Definition call {T} (command : string) (request : json) (decode : json → outcome exn T) :
    prog NativeE2ee (E2eeResult T) :=
  prog_try
    (answer ← await (InvokeE2ee command (JObject [("request", request)]));
     value ← of_outcome (decode answer);
     Ret (E2eeOk value))
    (λ cause, Ret (E2eeFailed (decodeError cause))).

Definition html_json (html : option string) : json :=
  match html with Some html => JString html | None => JNull end.

Definition ensureLocalIdentity (localIdentity : string) : prog NativeE2ee (E2eeResult E2eePublicIdentity) :=
  call "e2ee_ensure_local_identity" (JObject [("localIdentity", JString localIdentity)]) decodePublicIdentity.

Definition trustPeerPublicKey (localIdentity peerIdentity publicKey : string) :
    prog NativeE2ee (E2eeResult unit) :=
  call "e2ee_trust_peer_public_key"
    (JObject [("localIdentity", JString localIdentity); ("peerIdentity", JString peerIdentity);
              ("publicKey", JString publicKey)]) decodeUnit.

Definition peerKeyStatus (localIdentity peerIdentity : string) : prog NativeE2ee (E2eeResult PeerKeyStatus) :=
  call "e2ee_peer_key_status"
    (JObject [("localIdentity", JString localIdentity); ("peerIdentity", JString peerIdentity)]) decodePeerStatus.

(** The input goes to the native side as it is. *)
Definition encrypt_request (input : EncryptForInput) : json :=
  JObject [("localIdentity", JString input.(enc_localIdentity));
           ("recipientIdentity", JString input.(enc_recipientIdentity));
           ("subject", JString input.(enc_subject)); ("text", JString input.(enc_text));
           ("html", html_json input.(enc_html))].
Definition encryptFor (input : EncryptForInput) : prog NativeE2ee (E2eeResult BoxplotE2eeEnvelope) :=
  call "e2ee_encrypt" (encrypt_request input) decodeEnvelope.

Definition decrypt_request (input : DecryptFromInput) : json :=
  JObject [("localIdentity", JString input.(dec_localIdentity));
           ("expectedSender", JString input.(dec_expectedSender));
           ("expectedRecipient", JString input.(dec_expectedRecipient));
           ("expectedSubject", JString input.(dec_expectedSubject));
           ("envelope", JObject (envelope_fields input.(dec_envelope)))].
Definition decryptFrom (input : DecryptFromInput) : prog NativeE2ee (E2eeResult E2eePlaintext) :=
  call "e2ee_decrypt" (decrypt_request input) decodePlaintext.

(** ** What the native side sends for a value *)

Definition public_identity_json (identity : E2eePublicIdentity) : json :=
  JObject [("localIdentity", JString identity.(identity_localIdentity));
           ("publicKey", JString identity.(identity_publicKey))].
Definition peer_status_json (status : PeerKeyStatus) : json :=
  match status with
  | peer_missing => JObject [("kind", JString "missing")]
  | peer_trusted key => JObject [("kind", JString "trusted"); ("publicKey", JString key)]
  end.
Definition plaintext_json (plain : E2eePlaintext) : json :=
  JObject [("version", JNumber (Int 1)); ("sender", JString plain.(plain_sender));
           ("recipient", JString plain.(plain_recipient)); ("subject", JString plain.(plain_subject));
           ("text", JString plain.(plain_text)); ("html", html_json plain.(plain_html))].

(** ** Facts *)

Lemma stringField_throws fields key : only_type_errors (stringField fields key).
Proof.
  unfold stringField. destruct (get_field key fields) as [[]|];
    first [apply type_errors_return|apply type_errors_throw].
Qed.

Lemma record_throws value : only_type_errors (record value).
Proof. destruct value; first [apply type_errors_return|apply type_errors_throw]. Qed.

Ltac decoder_throws :=
  repeat first
    [ apply stringField_throws | apply record_throws | apply type_errors_return | apply type_errors_throw
    | apply type_errors_guard | apply type_errors_bind; [|intros ?]
    | match goal with |- only_type_errors (match ?x with _ => _ end) => destruct x end ].

Lemma decoders_throw_type_errors value :
  only_type_errors (decodePublicIdentity value) ∧ only_type_errors (decodeUnit value) ∧
  only_type_errors (decodePeerStatus value) ∧ only_type_errors (decodeEnvelope value) ∧
  only_type_errors (decodePlaintext value).
Proof.
  unfold decodePublicIdentity, decodeUnit, decodePeerStatus, decodeEnvelope, decodePlaintext.
  split_and!; decoder_throws.
Qed.

(** A field is a string or the decoder fails. *)
Lemma stringField_return fields key s :
  stringField fields key = Return s ↔ get_field key fields = Some (JString s).
Proof. unfold stringField. destruct (get_field key fields) as [[]|]; split; congruence. Qed.

Lemma requiredString_return fields key s :
  requiredString fields key = Return s ↔ get_field key fields = Some (JString s).
Proof. unfold requiredString. destruct (get_field key fields) as [[]|]; split; congruence. Qed.

(** The two readers of an envelope differ in the errors they throw. *)
Definition envelope_entries (envelope : BoxplotE2eeEnvelope) : list (string * string) :=
  [("sender", envelope.(env_sender)); ("recipient", envelope.(env_recipient));
   ("senderPublicKey", envelope.(env_senderPublicKey)); ("recipientPublicKey", envelope.(env_recipientPublicKey));
   ("nonce", envelope.(env_nonce)); ("ciphertext", envelope.(env_ciphertext))].

Definition read_envelope (refused : bool) (error : exn) (read : string → outcome exn string) :
    outcome exn BoxplotE2eeEnvelope :=
  throw_if refused error;;
  sender ← read "sender"; recipient ← read "recipient";
  senderPublicKey ← read "senderPublicKey"; recipientPublicKey ← read "recipientPublicKey";
  nonce ← read "nonce"; ciphertext ← read "ciphertext";
  Return (mkEnvelope sender recipient senderPublicKey recipientPublicKey nonce ciphertext).

Lemma read_envelope_return refused error read (holds : string → string → Prop) envelope :
  (∀ key s, read key = Return s ↔ holds key s) →
  read_envelope refused error read = Return envelope ↔
    refused = false ∧ Forall (λ entry, holds entry.1 entry.2) (envelope_entries envelope).
Proof.
  intros Hread. destruct envelope as [s r sk rk n c]. unfold read_envelope, envelope_entries. cbn. split.
  - intros H. run_guards H. split; [done|]. repeat (constructor; [by apply Hread|]). constructor.
  - intros [-> H]. rewrite !Forall_cons in H. destruct H as (H1 & H2 & H3 & H4 & H5 & H6 & _).
    apply Hread in H1, H2, H3, H4, H5, H6. cbn in *. by rewrite H1; cbn; rewrite H2; cbn; rewrite H3; cbn; rewrite H4; cbn; rewrite H5; cbn; rewrite H6.
Qed.

Lemma discriminators_ok fields :
  negb (is_number (Int 1) (get_field "version" fields)) ||
  negb (is_string "boxplot-crypto-box-v1" (get_field "algorithm" fields)) = false ↔
  is_number (Int 1) (get_field "version" fields) = true ∧
  get_field "algorithm" fields = Some (JString "boxplot-crypto-box-v1").
Proof.
  rewrite orb_false_iff, !negb_false_iff. f_equiv. unfold is_string.
  destruct (get_field "algorithm" fields) as [[]|]; try (split; congruence).
  rewrite bool_decide_eq_true. split; congruence.
Qed.

Lemma decodeEnvelope_return value envelope :
  decodeEnvelope value = Return envelope ↔
    ∃ fields, value = JObject fields ∧
      is_number (Int 1) (get_field "version" fields) = true ∧
      get_field "algorithm" fields = Some (JString "boxplot-crypto-box-v1") ∧
      Forall (λ entry, get_field entry.1 fields = Some (JString entry.2)) (envelope_entries envelope).
Proof.
  destruct value as [| | | | |fields]; try (split; [done|by intros (? & ? & _)]).
  change (decodeEnvelope (JObject fields)) with (read_envelope
    (negb (is_number (Int 1) (get_field "version" fields)) ||
     negb (is_string "boxplot-crypto-box-v1" (get_field "algorithm" fields)))
    (TypeError "Malformed E2EE envelope discriminator") (stringField fields)).
  rewrite (read_envelope_return _ _ _ (λ key s, get_field key fields = Some (JString s))) by apply stringField_return.
  rewrite discriminators_ok. split; [intros [[? ?] ?]; by exists fields|].
  intros (? & [= <-] & ? & ? & ?). done.
Qed.

Lemma parse_return wide other_number text envelope :
  parseBoxplotE2eeEnvelope wide other_number text = Return envelope ↔
    ∃ value, JSON_parse wide other_number text = Some value ∧ decodeEnvelope value = Return envelope.
Proof.
  unfold parseBoxplotE2eeEnvelope. destruct (JSON_parse _ _ text) as [value|]; [|split; [done|by intros (? & ? & _)]].
  transitivity (decodeEnvelope value = Return envelope); [|split; [by exists value|by intros (? & [= <-] & ?)]].
  rewrite decodeEnvelope_return. destruct value as [| | | | |fields]; try (split; [done|by intros (? & ? & _)]).
  cbn [isRecord].
  match goal with |- ?lhs = _ ↔ _ => change lhs with (read_envelope
    (negb (is_number (Int 1) (get_field "version" fields)) ||
     negb (is_string "boxplot-crypto-box-v1" (get_field "algorithm" fields))) invalid_envelope (requiredString fields)) end.
  rewrite (read_envelope_return _ _ _ (λ key s, get_field key fields = Some (JString s))) by apply requiredString_return.
  rewrite discriminators_ok. split; [intros [[? ?] ?]; by exists fields|].
  intros (? & [= <-] & ? & ? & ?). done.
Qed.

(** ** The port as one type: what is asked, and how it is served *)

Inductive E2eeMethod : Type → Type :=
| EnsureLocalIdentity (localIdentity : string) : E2eeMethod E2eePublicIdentity
| TrustPeerPublicKey (localIdentity peerIdentity publicKey : string) : E2eeMethod unit
| GetPeerKeyStatus (localIdentity peerIdentity : string) : E2eeMethod PeerKeyStatus
| Encrypt (input : EncryptForInput) : E2eeMethod BoxplotE2eeEnvelope
| Decrypt (input : DecryptFromInput) : E2eeMethod E2eePlaintext.

Definition serve_e2ee {T} (method : E2eeMethod T) : prog NativeE2ee (E2eeResult T) :=
  match method with
  | EnsureLocalIdentity localIdentity => ensureLocalIdentity localIdentity
  | TrustPeerPublicKey localIdentity peerIdentity publicKey => trustPeerPublicKey localIdentity peerIdentity publicKey
  | GetPeerKeyStatus localIdentity peerIdentity => peerKeyStatus localIdentity peerIdentity
  | Encrypt input => encryptFor input
  | Decrypt input => decryptFrom input
  end.

(** A native side that keeps a log of what it is asked. *)
Definition native_log : Type := list (string * json).
Definition logging (native : string → json → outcome exn json) X (c : NativeE2ee X) (log : native_log) :
    outcome exn X * native_log :=
  match c in NativeE2ee X return outcome exn X * native_log with
  | InvokeE2ee command args => (native command args, log ++ [(command, args)])
  end.

(** What a method resolves to, by the answer of the native side and the decoder. *)
Definition settled_result {T} (answer : outcome exn json) (decode : json → outcome exn T) : E2eeResult T :=
  match answer with
  | Throw cause => E2eeFailed (decodeError cause)
  | Return value => match decode value with Return x => E2eeOk x | Throw _ => E2eeFailed e2ee_unexpected end
  end.

Lemma call_settles {T} native command request (decode : json → outcome exn T) log :
  (∀ value, only_type_errors (decode value)) →
  let args := JObject [("request", request)] in
  run (logging native) (call command request decode) log =
    (Return (settled_result (native command args) decode), log ++ [(command, args)]).
Proof.
  intros Hdecode args. unfold call. cbn. subst args.
  destruct (native command _) as [value|cause]; cbn; [|done].
  destruct (decode value) as [x|e] eqn:Hx; cbn; [done|]. by destruct (Hdecode value e Hx) as [message ->].
Qed.

(** The command of each method, its request, and what it resolves to. *)
Definition method_command {T} (method : E2eeMethod T) : string :=
  match method with
  | EnsureLocalIdentity _ => "e2ee_ensure_local_identity"
  | TrustPeerPublicKey _ _ _ => "e2ee_trust_peer_public_key"
  | GetPeerKeyStatus _ _ => "e2ee_peer_key_status"
  | Encrypt _ => "e2ee_encrypt"
  | Decrypt _ => "e2ee_decrypt"
  end.

Definition method_outcome {T} (method : E2eeMethod T) : outcome exn json → E2eeResult T :=
  match method with
  | EnsureLocalIdentity _ => λ answer, settled_result answer decodePublicIdentity
  | TrustPeerPublicKey _ _ _ => λ answer, settled_result answer decodeUnit
  | GetPeerKeyStatus _ _ => λ answer, settled_result answer decodePeerStatus
  | Encrypt _ => λ answer, settled_result answer decodeEnvelope
  | Decrypt _ => λ answer, settled_result answer decodePlaintext
  end.

(** ** The theorems *)

Definition method_request {T} (method : E2eeMethod T) : json :=
  match method with
  | EnsureLocalIdentity localIdentity => JObject [("localIdentity", JString localIdentity)]
  | TrustPeerPublicKey localIdentity peerIdentity publicKey =>
      JObject [("localIdentity", JString localIdentity); ("peerIdentity", JString peerIdentity); ("publicKey", JString publicKey)]
  | GetPeerKeyStatus localIdentity peerIdentity =>
      JObject [("localIdentity", JString localIdentity); ("peerIdentity", JString peerIdentity)]
  | Encrypt input => encrypt_request input
  | Decrypt input => decrypt_request input
  end.

(** Whatever the native side does, every method of the encryption port resolves: it runs its
    own command exactly once, with its own arguments; a rejection becomes the kind it names, and
    an answer of the wrong shape is [unexpected]. *)
Theorem encryption_port_always_resolves {T} (method : E2eeMethod T) native log :
  let args := JObject [("request", method_request method)] in
  run (logging native) (serve_e2ee method) log =
    (Return (method_outcome method (native (method_command method) args)),
     log ++ [(method_command method, args)]).
Proof. destruct method; apply call_settles; intros value; apply (decoders_throw_type_errors value). Qed.

(** What the native side encodes is decoded to the same value, for every type that crosses;
    and an envelope is decoded only from an object that holds its discriminators and its fields. *)
Theorem encryption_codecs_round_trip :
  (∀ identity, decodePublicIdentity (public_identity_json identity) = Return identity) ∧
  (∀ status, decodePeerStatus (peer_status_json status) = Return status) ∧
  (∀ envelope, decodeEnvelope (JObject (envelope_fields envelope)) = Return envelope) ∧
  (∀ plain, decodePlaintext (plaintext_json plain) = Return plain) ∧
  (∀ value envelope, decodeEnvelope value = Return envelope ↔
     ∃ fields, value = JObject fields ∧
       is_number (Int 1) (get_field "version" fields) = true ∧
       get_field "algorithm" fields = Some (JString "boxplot-crypto-box-v1") ∧
       Forall (λ entry, get_field entry.1 fields = Some (JString entry.2)) (envelope_entries envelope)).
Proof. split_and!; [by intros []|by intros [|]|by intros []|by intros [? ? ? ? [|]]|apply decodeEnvelope_return]. Qed.

(** The two readers of an envelope, that of the mail's attachment and that of the native side's
    answer, accept the same values. *)
Theorem envelope_readers_agree wide other_number text envelope :
  parseBoxplotE2eeEnvelope wide other_number text = Return envelope ↔
    ∃ value, JSON_parse wide other_number text = Some value ∧ decodeEnvelope value = Return envelope.
Proof. apply parse_return. Qed.
