(* ===== verification/Sanitizer.v ===== *)
(** * The HTML sanitizer: security/sanitizer.ts

    DOMPurify is a parameter; what the code does around it is modelled: escaping, the check
    of links, the fallback of regular expressions and the document of the sandbox.  The
    regular expressions run on a backtracking matcher with the rules of ECMAScript. *)

From S2P Require Import Prelude.
From S2P Require Import JsNumber.
From S2P Require Import JsString.
From S2P Require Import JsCollections.
From S2P Require Import Json.
From S2P Require Import Errors.
From S2P Require Import Stores.
Open Scope string_scope.
Open Scope list_scope.

(** ** Regular expressions

    The constructs the code uses; with the flag [i] a letter matches in either case. *)

Inductive regex : Type :=
| Nothing
| Chr (accepts : ascii → bool)
| Then (first second : regex)
| Star (greedy : bool) (body : regex)
| Boundary
| Not_ahead (body : regex)
| Group (body : regex).

(** What is left of the input, the character before it, and what the group holds. *)
Record cursor : Type := mkCursor {
  before : option ascii;
  rest : string;
  group : option string;
}.

(** [\w]. *)
Definition is_word (c : ascii) : bool :=
  let n := nat_of_ascii c in
  ((48 <=? n) && (n <=? 57) || (65 <=? n) && (n <=? 90) || (97 <=? n) && (n <=? 122) || (n =? 95))%nat.

(** [\b]. *)
Definition at_boundary (st : cursor) : bool :=
  let left := match st.(before) with Some c => is_word c | None => false end in
  let right := match st.(rest) with String c _ => is_word c | EmptyString => false end in
  xorb left right.

(** The text between two positions. *)
Definition text_between (from to : string) : string :=
  String.substring 0 (String.length from - String.length to) from.

(** A star: [once] matches its body.  An iteration that consumes nothing fails, so there are
    at most as many as characters. *)
Definition iterate (greedy : bool) (once : cursor → (cursor → option cursor) → option cursor)
    (k : cursor → option cursor) : nat → cursor → option cursor :=
  fix iterate (rounds : nat) (st : cursor) : option cursor :=
    match rounds with
    | O => k st
    | S rounds =>
        let again := once st (λ st',
          if (String.length st'.(rest) <? String.length st.(rest))%nat then iterate rounds st' else None) in
        if greedy then match again with Some result => Some result | None => k st end
        else match k st with Some result => Some result | None => again end
    end.

(** The matches of [r] at [st] in order of preference: the first one that lets [k] succeed. *)
Fixpoint matcher (r : regex) (st : cursor) (k : cursor → option cursor) : option cursor :=
  match r with
  | Nothing => k st
  | Chr accepts =>
      match st.(rest) with
      | String c rest => if accepts c then k (mkCursor (Some c) rest st.(group)) else None
      | EmptyString => None
      end
  | Then first second => matcher first st (λ st, matcher second st k)
  | Star greedy body => iterate greedy (matcher body) k (String.length st.(rest)) st
  | Boundary => if at_boundary st then k st else None
  | Not_ahead body => match matcher body st Some with Some _ => None | None => k st end
  | Group body =>
      matcher body st (λ st', k (mkCursor st'.(before) st'.(rest) (Some (text_between st.(rest) st'.(rest)))))
  end.

(** The first match in [s], which comes after [previous]: what precedes it, the match, what
    its group holds, the character it ends with, and what follows. *)
Record found : Type := mkFound {
  found_before : string;
  found_text : string;
  found_group : option string;
  found_last : option ascii;
  found_rest : string;
}.

Fixpoint search (r : regex) (previous : option ascii) (s : string) : option found :=
  match matcher r (mkCursor previous s None) Some with
  | Some st => Some (mkFound "" (text_between s st.(rest)) st.(group) st.(before) st.(rest))
  | None =>
      match s with
      | EmptyString => None
      | String c s' =>
          f ← search r (Some c) s';
          Some (mkFound (String c f.(found_before)) f.(found_text) f.(found_group) f.(found_last) f.(found_rest))
      end
  end.

(** [s.match(r)], [r.test(s)] and [s.replace(r, f)] without the flag [g]. *)
Definition js_match (r : regex) (s : string) : option found := search r None s.
Definition js_test (r : regex) (s : string) : bool :=
  match js_match r s with Some _ => true | None => false end.
Definition replace_first (r : regex) (by_ : string) (s : string) : string :=
  match js_match r s with
  | Some f => f.(found_before) +:+ by_ +:+ f.(found_rest)
  | None => s
  end.

(** [s.replace(r, f)] with the flag [g]; after an empty match one character is skipped.  The
    search goes on in what follows, so one round per character is enough. *)
Fixpoint replace_from (rounds : nat) (r : regex) (by_ : found → string) (previous : option ascii) (s : string) : string :=
  match rounds with
  | O => s
  | S rounds =>
      match search r previous s with
      | None => s
      | Some f =>
          f.(found_before) +:+ by_ f +:+
          (if is_empty f.(found_text) then
             match f.(found_rest) with
             | EmptyString => EmptyString
             | String c rest => String c (replace_from rounds r by_ (Some c) rest)
             end
           else replace_from rounds r by_ f.(found_last) f.(found_rest))
      end
  end.
Definition replace_all (r : regex) (by_ : found → string) (s : string) : string :=
  replace_from (S (String.length s)) r by_ None s.

(** ** Their parts *)

Definition any_case (c : ascii) : regex := Chr (λ d, bool_decide (lower_char d = lower_char c)).
Fixpoint text_of (s : string) : regex :=
  match s with EmptyString => Nothing | String c s => Then (any_case c) (text_of s) end.
Definition one_of (l : list ascii) : regex := Chr (λ c, bool_decide (c ∈ l)).
Definition none_of (l : list ascii) : regex := Chr (λ c, negb (bool_decide (c ∈ l))).
Definition many (r : regex) : regex := Star true r.
Definition some_of (r : regex) : regex := Then r (Star true r).
Definition a_few (r : regex) : regex := Star false r.
Fixpoint in_order (l : list regex) : regex :=
  match l with [] => Nothing | r :: l => Then r (in_order l) end.

(** [\s], [\S], [\w], a quotation mark, and [.] (all but the ends of a line). *)
Definition space : regex := Chr is_space.
Definition non_space : regex := Chr (λ c, negb (is_space c)).
Definition word : regex := Chr is_word.
Definition quotes : list ascii := [quote_mark; "'"%char].
Definition dot : regex := none_of [ascii_of_nat 10; ascii_of_nat 13].

(** ** security/sanitizer.ts *)

Record SanitizerConfig : Type := mkSanitizerConfig {
  ALLOWED_TAGS : list string;
  ALLOWED_ATTR : list string;
  ALLOW_DATA_ATTR : bool;
  FORBID_TAGS : list string;
  FORBID_ATTR : list string;
  ALLOW_ARIA_ATTR : bool;
}.

Definition SANITIZER_CONFIG : SanitizerConfig := mkSanitizerConfig
  ["a"; "b"; "blockquote"; "br"; "code"; "div"; "em"; "h1"; "h2"; "h3"; "h4"; "h5"; "h6"; "hr"; "i";
   "li"; "ol"; "p"; "pre"; "span"; "strong"; "table"; "tbody"; "td"; "tfoot"; "th"; "thead"; "tr"; "u"; "ul"]
  ["href"; "target"; "rel"; "title"; "class"]
  false
  ["script"; "style"; "iframe"; "object"; "embed"; "form"; "input"; "button"; "svg"; "math"; "img";
   "audio"; "video"; "source"]
  ["style"; "onerror"; "onload"; "onclick"; "onmouseover"; "onfocus"; "onblur"]
  false.

(** [replaceAll(c, t)] for one character. *)
Fixpoint replace_char (c : ascii) (t : string) (s : string) : string :=
  match s with
  | EmptyString => EmptyString
  | String d s => if bool_decide (d = c) then t +:+ replace_char c t s else String d (replace_char c t s)
  end.

Definition escapeEmailText (text : string) : string :=
  replace_char "'" "&#39;"
    (replace_char quote_mark "&quot;"
       (replace_char ">" "&gt;"
          (replace_char "<" "&lt;"
             (replace_char "&" "&amp;" text)))).

Definition isSafeUrl (url : string) : bool :=
  if is_empty url then false
  else
    let trimmed := toLowerCase (trim url) in
    if startsWith trimmed "javascript:" || startsWith trimmed "data:" ||
       startsWith trimmed "vbscript:" || startsWith trimmed "file:"
    then false
    else startsWith trimmed "http://" || startsWith trimmed "https://".

(** [name=value], the value between quotation marks. *)
Definition attribute (name value : string) : string := name +:+ "=" +:+ quoted value.
(** The name, [=], and the shortest text between two quotation marks, which is the group. *)
Definition attribute_pattern (name : string) : regex :=
  in_order [text_of name; text_of "="; one_of quotes; Group (a_few dot); one_of quotes].
Definition anchor_pattern : regex :=
  in_order [text_of "<a"; some_of space; Group (a_few (none_of [">"%char])); any_case ">"].

(** An attribute is set: added, or put in the place of the first one. *)
Definition force_attribute (name value : string) (attrs : string) : string :=
  if negb (js_test (text_of (name +:+ "=")) attrs)
  then attrs +:+ " " +:+ attribute name value
  else replace_first (attribute_pattern name) (attribute name value) attrs.

Definition safe_attributes (attrs : string) : string :=
  let checked :=
    match js_match (attribute_pattern "href") attrs with
    | Some f =>
        if negb (isSafeUrl (trim (default "" f.(found_group))))
        then replace_first (attribute_pattern "href") (attribute "href" "#") attrs
        else attrs
    | None => attrs
    end in
  force_attribute "rel" "noopener noreferrer" (force_attribute "target" "_blank" checked).

(** What takes the place of an opening tag. *)
Definition safe_anchor (f : found) : string := "<a " +:+ safe_attributes (default "" f.(found_group)) +:+ ">".

Definition forceSafeLinks (html : string) : string := replace_all anchor_pattern safe_anchor html.

(** From the opening tag to the first closing one. *)
Definition element_pattern (tag : string) : regex :=
  let close := text_of ("</" +:+ tag +:+ ">") in
  in_order [text_of ("<" +:+ tag); Boundary; many (none_of ["<"%char]);
            many (in_order [Not_ahead close; any_case "<"; many (none_of ["<"%char])]); close].
(** An image tag. *)
Definition image_pattern : regex :=
  in_order [text_of "<img"; Boundary; many (none_of [">"%char]); any_case ">"].
(** The style attribute and the handlers, with their quoted values. *)
Definition quoted_value : regex := in_order [one_of quotes; many (none_of quotes); one_of quotes].
Definition style_pattern : regex := in_order [some_of space; text_of "style="; quoted_value].
Definition handler_pattern : regex := in_order [some_of space; text_of "on"; some_of word; text_of "="; quoted_value].
(** [/\s+on\w+=\S+/gi]. *)
Definition bare_handler_pattern : regex :=
  in_order [some_of space; text_of "on"; some_of word; text_of "="; some_of non_space].
(** A quoted link to a script. *)
Definition script_link_pattern : regex :=
  in_order [text_of "href="; one_of quotes; text_of "javascript:"; many (none_of quotes); one_of quotes].

Definition remove (r : regex) (html : string) : string := replace_all r (λ _, "") html.

Definition fallbackSanitize (html : string) : string :=
  replace_all script_link_pattern (λ _, attribute "href" "#")
    (remove bare_handler_pattern
      (remove handler_pattern
        (remove style_pattern
          (remove image_pattern
            (remove (element_pattern "form")
              (remove (element_pattern "iframe")
                (remove (element_pattern "style")
                  (remove (element_pattern "script") html)))))))).

Section purifier.
(** [DOMPurify.sanitize], if it is loaded. *)
Context (purify : option (SanitizerConfig → string → outcome exn string)).

Definition sanitizeEmailHtml (rawHtml : string) : string :=
  if is_empty rawHtml then ""
  else
    match purify with
    | Some sanitize =>
        match sanitize SANITIZER_CONFIG rawHtml with
        | Return sanitized => forceSafeLinks (fallbackSanitize sanitized)
        | Throw _ => forceSafeLinks (fallbackSanitize rawHtml)
        end
    | None => forceSafeLinks (fallbackSanitize rawHtml)
    end.
End purifier.

(** ** The document of the sandbox *)

Definition new_line : string := String (ascii_of_nat 10) "".
Fixpoint lines (l : list string) : string :=
  match l with
  | [] => ""
  | [line] => line
  | line :: l => line +:+ new_line +:+ lines l
  end.
(** The quotation marks of the template are written as grave accents. *)
Definition marks (s : string) : string := replace_char "`" (String quote_mark "") s.

Definition csp : string :=
  "default-src 'none'; style-src 'unsafe-inline'; script-src 'none'; img-src 'none'; connect-src 'none'; frame-src 'none';".

Definition srcdoc_head : string := marks (lines [
  "<!DOCTYPE html>";
  "<html>";
  "<head>";
  "  <meta charset=`utf-8`>";
  "  <meta http-equiv=`Content-Security-Policy` content=`" +:+ csp +:+ "`>";
  "  <style>";
  "    body {";
  "      font-family: -apple-system, BlinkMacSystemFont, 'Segoe UI', Roboto, Helvetica, Arial, sans-serif;";
  "      font-size: 14px;";
  "      line-height: 1.6;";
  "      color: #334155;";
  "      margin: 0;";
  "      padding: 16px;";
  "      word-break: break-word;";
  "      background-color: transparent;";
  "    }";
  "    a {";
  "      color: #2563eb;";
  "      text-decoration: underline;";
  "    }";
  "    p {";
  "      margin: 0 0 1em 0;";
  "    }";
  "    p:last-child {";
  "      margin-bottom: 0;";
  "    }";
  "    blockquote {";
  "      border-left: 3px solid #cbd5e1;";
  "      margin: 0.5em 0;";
  "      padding-left: 12px;";
  "      color: #64748b;";
  "    }";
  "    pre, code {";
  "      font-family: ui-monospace, SFMono-Regular, Menlo, Monaco, Consolas, monospace;";
  "      background-color: #f1f5f9;";
  "      padding: 2px 4px;";
  "      border-radius: 4px;";
  "      font-size: 13px;";
  "    }";
  "    table {";
  "      border-collapse: collapse;";
  "      width: 100%;";
  "      margin: 1em 0;";
  "    }";
  "    th, td {";
  "      border: 1px solid #e2e8f0;";
  "      padding: 6px 10px;";
  "      text-align: left;";
  "    }";
  "  </style>";
  "</head>";
  "<body>";
  "  "]).

Definition srcdoc_tail : string := lines [""; "</body>"; "</html>"].

Definition createSandboxedIframeSrcDoc (sanitizedHtml : string) : string :=
  srcdoc_head +:+ sanitizedHtml +:+ srcdoc_tail.

(** ** Facts about the matcher *)

(** The characters of a string, and its ends. *)
Fixpoint has_char (p : ascii → bool) (s : string) : bool :=
  match s with EmptyString => false | String c s => p c || has_char p s end.

Inductive suffix_of : string → string → Prop :=
| Suffix_all s : suffix_of s s
| Suffix_later c s s' : suffix_of s' s → suffix_of s' (String c s).

Lemma suffix_trans a b c : suffix_of a b → suffix_of b c → suffix_of a c.
Proof. intros Hab Hbc. induction Hbc; [done|]. by apply Suffix_later, IHHbc. Qed.

Lemma suffix_chars p a b : suffix_of a b → has_char p b = false → has_char p a = false.
Proof. induction 1; [done|]. cbn. intros [_ ?]%orb_false_iff. auto. Qed.

(** If nothing that follows lets the continuation succeed, there is no match. *)
Lemma matcher_fails r st k :
  (∀ st', suffix_of st'.(rest) st.(rest) → k st' = None) → matcher r st k = None.
Proof.
  revert st k. induction r as [|accepts|a IHa b IHb|greedy body IH| |body IH|body IH]; intros st k Hk; cbn.
  - apply Hk, Suffix_all.
  - destruct (rest st) as [|c s] eqn:Hs; [done|]. destruct (accepts c); [|done].
    apply Hk. apply Suffix_later, Suffix_all.
  - apply IHa. intros st' Hst'. apply IHb. intros st2 Hst2. apply Hk. by eapply suffix_trans.
  - generalize (String.length (rest st)) as rounds. intros rounds. revert st Hk.
    induction rounds as [|rounds IHr]; intros st Hk; cbn; [apply Hk, Suffix_all|].
    rewrite (Hk st (Suffix_all _)), IH; [by destruct greedy|]. intros st' Hst'.
    match goal with |- (if ?b then _ else _) = _ => destruct b; [|done] end. apply IHr. intros st2 Hst2. apply Hk. by eapply suffix_trans.
  - destruct (at_boundary st); [apply Hk, Suffix_all|done].
  - destruct (matcher body st Some); [done|apply Hk, Suffix_all].
  - apply IH. intros st' Hst'. by apply Hk.
Qed.

(** Every match of [r] takes a character that [p] holds of. *)
Fixpoint takes (p : ascii → bool) (r : regex) : Prop :=
  match r with
  | Chr accepts => ∀ c, accepts c = true → p c = true
  | Then a b => takes p a ∨ takes p b
  | Group body => takes p body
  | _ => False
  end.

Lemma matcher_takes p r st k : takes p r → has_char p st.(rest) = false → matcher r st k = None.
Proof.
  revert st k. induction r as [|accepts|a IHa b IHb| | | |body IH]; intros st k Hp Hchars; cbn in *; try done.
  - destruct (rest st) as [|c s]; [done|]. cbn in Hchars. apply orb_false_iff in Hchars as [Hc _].
    destruct (accepts c) eqn:Ha; [|done]. by rewrite (Hp c Ha) in Hc.
  - destruct Hp as [Ha|Hb]; [by apply IHa|]. apply matcher_fails. intros st' Hst'. apply IHb; [done|].
    by eapply suffix_chars.
  - by apply IH.
Qed.

Lemma search_none r previous s :
  (∀ s' previous', suffix_of s' s → matcher r (mkCursor previous' s' None) Some = None) → search r previous s = None.
Proof.
  revert previous. induction s as [|c s IH]; intros previous H; cbn; rewrite H by apply Suffix_all; [done|].
  by rewrite IH by (intros; by apply H, Suffix_later).
Qed.

Lemma replace_none r by_ s : search r None s = None → replace_all r by_ s = s.
Proof. intros H. unfold replace_all. cbn. by rewrite H. Qed.

Lemma replace_takes p r by_ s : takes p r → has_char p s = false → replace_all r by_ s = s.
Proof.
  intros Hp Hs. apply replace_none, search_none. intros s' previous Hs'.
  apply (matcher_takes p); [done|]. by eapply suffix_chars.
Qed.

(** ** Escaping *)

Definition escaped_char (c : ascii) : string :=
  if bool_decide (c = "&"%char) then "&amp;"
  else if bool_decide (c = "<"%char) then "&lt;"
  else if bool_decide (c = ">"%char) then "&gt;"
  else if bool_decide (c = quote_mark) then "&quot;"
  else if bool_decide (c = "'"%char) then "&#39;"
  else String c "".

Fixpoint escaped (s : string) : string :=
  match s with EmptyString => "" | String c s => escaped_char c +:+ escaped s end.

Lemma replace_char_app c t a b : replace_char c t (a +:+ b) = replace_char c t a +:+ replace_char c t b.
Proof.
  induction a as [|d a IH]; [done|]. rewrite string_app_cons. cbn.
  case_bool_decide; rewrite IH; [by rewrite string_app_assoc|done].
Qed.

(** The five replacements are one pass. *)
Lemma escape_one_pass text : escapeEmailText text = escaped text.
Proof.
  induction text as [|c text IH]; [done|]. cbn [escaped]. rewrite <- IH. unfold escapeEmailText.
  change (String c text) with (String c "" +:+ text). rewrite !replace_char_app. f_equal.
  unfold escaped_char. cbn [replace_char]. repeat (case_bool_decide; [subst; reflexivity|]; cbn [replace_char]).
  reflexivity.
Qed.

(** The marks that HTML gives a meaning to. *)
Definition is_markup (c : ascii) : bool := bool_decide (c ∈ ["<"%char; ">"%char; quote_mark; "'"%char]).

Lemma has_char_app p a b : has_char p (a +:+ b) = has_char p a || has_char p b.
Proof. induction a as [|c a IH]; [done|]. rewrite string_app_cons. cbn. by rewrite IH, orb_assoc. Qed.

Lemma escaped_inert text : has_char is_markup (escaped text) = false.
Proof.
  induction text as [|c text IH]; [done|]. cbn. rewrite has_char_app, IH, orb_false_r.
  unfold escaped_char. repeat (case_bool_decide; [reflexivity|]). cbn. rewrite orb_false_r.
  apply bool_decide_eq_false. rewrite !elem_of_cons, elem_of_nil. naive_solver.
Qed.

(** What a reader of HTML makes of the five references. *)
Fixpoint unescape (s : string) : string :=
  match s with
  | String "&" (String "a" (String "m" (String "p" (String ";" s)))) => String "&" (unescape s)
  | String "&" (String "l" (String "t" (String ";" s))) => String "<" (unescape s)
  | String "&" (String "g" (String "t" (String ";" s))) => String ">" (unescape s)
  | String "&" (String "q" (String "u" (String "o" (String "t" (String ";" s))))) => String quote_mark (unescape s)
  | String "&" (String "#" (String "3" (String "9" (String ";" s)))) => String "'" (unescape s)
  | String c s => String c (unescape s)
  | EmptyString => EmptyString
  end.

Lemma unescape_escaped text : unescape (escaped text) = text.
Proof.
  induction text as [|c text IH]; [done|]. cbn [escaped]. unfold escaped_char.
  repeat (case_bool_decide; [subst; cbn; by rewrite IH|]).
  change (String c "" +:+ escaped text) with (String c (escaped text)).
  rewrite <- IH at 2. destruct c as [[] [] [] [] [] [] [] []]; try reflexivity; exfalso; by auto.
Qed.

(** How HTML writes the text of an element: quotation marks stay as they are. *)
Definition serialized_char (c : ascii) : string :=
  if bool_decide (c = "&"%char) then "&amp;"
  else if bool_decide (c = "<"%char) then "&lt;"
  else if bool_decide (c = ">"%char) then "&gt;"
  else String c "".
Fixpoint serialized (s : string) : string :=
  match s with EmptyString => "" | String c s => serialized_char c +:+ serialized s end.

(** The marks that open and close tags. *)
Definition is_angle (c : ascii) : bool := bool_decide (c ∈ ["<"%char; ">"%char]).

Lemma serialized_inert text : has_char is_angle (serialized text) = false.
Proof.
  induction text as [|c text IH]; [done|]. cbn. rewrite has_char_app, IH, orb_false_r.
  unfold serialized_char. repeat (case_bool_decide; [reflexivity|]). cbn. rewrite orb_false_r.
  apply bool_decide_eq_false. rewrite !elem_of_cons, elem_of_nil. naive_solver.
Qed.

Lemma unescape_serialized text : unescape (serialized text) = text.
Proof.
  induction text as [|c text IH]; [done|]. cbn [serialized]. unfold serialized_char.
  repeat (case_bool_decide; [subst; cbn; by rewrite IH|]).
  change (String c "" +:+ serialized text) with (String c (serialized text)).
  rewrite <- IH at 2. destruct c as [[] [] [] [] [] [] [] []]; try reflexivity; exfalso; by auto.
Qed.

Lemma markup_angle s : has_char is_markup s = false → has_char is_angle s = false.
Proof.
  induction s as [|c s IH]; [done|]. cbn. intros [Hc Hs]%orb_false_iff. rewrite IH, orb_false_r by done.
  unfold is_markup in Hc. apply bool_decide_eq_false in Hc. apply bool_decide_eq_false. set_solver.
Qed.

(** ** Text as a document *)

(** What the viewer makes of a text without HTML. *)
Definition pre (text : string) : string := "<pre>" +:+ text +:+ "</pre>".

Lemma suffix_app_cases a b s :
  suffix_of s (a +:+ b) → suffix_of s b ∨ ∃ a', suffix_of a' a ∧ s = a' +:+ b.
Proof.
  induction a as [|c a IH]; intros Hs; [left; exact Hs|]. rewrite string_app_cons in Hs.
  inversion Hs; subst.
  - right. exists (String c a). split; [apply Suffix_all|]. by rewrite string_app_cons.
  - destruct (IH ltac:(assumption)) as [?|(a' & ? & ->)]; [by left|]. right. exists a'. split; [by apply Suffix_later|done].
Qed.

Lemma suffix_cons_cases a c s : suffix_of a (String c s) → a = String c s ∨ suffix_of a s.
Proof. inversion 1; subst; auto. Qed.

(** A tag opens only at the two ends. *)
Lemma pre_tags text r :
  has_char is_angle text = false → suffix_of (String "<" r) (pre text) →
  r = "pre>" +:+ text +:+ "</pre>" ∨ r = "/pre>".
Proof.
  intros Htext H. unfold pre in H. change ("<pre>" +:+ text +:+ "</pre>") with
    (String "<" (String "p" (String "r" (String "e" (String ">" (text +:+ "</pre>")))))) in H.
  apply suffix_cons_cases in H as [[= ->]|H]; [by left|right].
  do 4 (apply suffix_cons_cases in H as [?|H]; [discriminate|]).
  apply suffix_app_cases in H as [H|([|c a] & Ha & Hr)].
  - apply suffix_cons_cases in H as [[= ->]|H]; [done|].
    do 5 (apply suffix_cons_cases in H as [?|H]; [discriminate|]). inversion H.
  - by injection Hr.
  - injection Hr as <- _. by apply (suffix_chars is_angle _ _ Ha) in Htext.
Qed.

(** The pattern of another tag finds nothing. *)
Lemma pre_has_no_tag c tag l text :
  has_char is_angle text = false → lower_char c ≠ "p"%char → lower_char c ≠ "/"%char →
  search (Then (text_of (String "<" (String c tag))) l) None (pre text) = None.
Proof.
  intros Htext Hp Hslash. apply search_none. intros s previous Hs. cbn.
  destruct s as [|d s]; [done|]. case_bool_decide as Hd; [|done].
  assert (d = "<"%char) as -> by (destruct d as [[] [] [] [] [] [] [] []]; by vm_compute in Hd).
  apply pre_tags in Hs as [-> | ->]; [| |done];
    [change ("pre>" +:+ text +:+ "</pre>") with (String "p" ("re>" +:+ text +:+ "</pre>"))|]; cbn;
    case_bool_decide as Hc; [|done| |done]; by rewrite <- Hc in *.
Qed.

(** Whether something in [html] reads as an attribute that the fallback takes out. *)
Definition reads_as_attribute (html : string) : bool :=
  js_test style_pattern html || js_test handler_pattern html || js_test bare_handler_pattern html ||
  js_test script_link_pattern html.

Lemma untouched r by_ html : js_test r html = false → replace_all r by_ html = html.
Proof. intros H. apply replace_none. unfold js_test, js_match in H. by destruct (search r None html). Qed.

Lemma fallback_keeps_pre text :
  has_char is_angle text = false → reads_as_attribute (pre text) = false → fallbackSanitize (pre text) = pre text.
Proof.
  intros Htext [[[Hstyle Hhandler]%orb_false_iff Hbare]%orb_false_iff Hscript]%orb_false_iff.
  unfold fallbackSanitize, remove.
  do 5 (rewrite (replace_none _ _ (pre text)); [|by apply pre_has_no_tag]).
  by do 4 (rewrite (untouched _ _ (pre text)); [|done]).
Qed.

Lemma links_keep_pre text : has_char is_angle text = false → forceSafeLinks (pre text) = pre text.
Proof. intros Htext. by apply replace_none, pre_has_no_tag. Qed.

(** ** Links *)

Lemma text_of_matches w previous s g :
  match matcher (text_of w) (mkCursor previous s g) Some with Some _ => true | None => false end =
  startsWith (toLowerCase s) (toLowerCase w).
Proof.
  revert previous s. unfold startsWith. induction w as [|c w IH]; intros previous s; [by destruct s|].
  cbn [text_of matcher any_case rest]. destruct s as [|d s]; [done|]. cbn [toLowerCase String.prefix].
  case_bool_decide as Hd.
  - rewrite IH, Hd. by destruct (ascii_dec (lower_char c) (lower_char c)).
  - by destruct (ascii_dec (lower_char c) (lower_char d)).
Qed.

Lemma test_text w s : js_test (text_of w) s = contains (toLowerCase w) (toLowerCase s).
Proof.
  unfold js_test, js_match. generalize (@None ascii) as previous.
  induction s as [|c s IH]; intros previous.
  - cbn [search]. pose proof (text_of_matches w previous "" None) as H. destruct (matcher _ _ _); cbn in *; by rewrite <- H.
  - cbn [search]. pose proof (text_of_matches w previous (String c s) None) as H.
    cbn [contains toLowerCase]. cbn [toLowerCase] in H. rewrite <- H, <- (IH (Some c)).
    destruct (matcher _ _ _); [done|]. by destruct (search _ _ s).
Qed.

Lemma prefix_apart w a c b :
  has_char (λ d, bool_decide (d = c)) w = false → startsWith (a +:+ String c b) w = startsWith a w.
Proof.
  unfold startsWith. revert a. induction w as [|d w IH]; intros a Hw; [by destruct a|]. cbn in Hw.
  apply orb_false_iff in Hw as [Hd Hw]. apply bool_decide_eq_false in Hd.
  destruct a as [|e a]; [rewrite string_app_nil; cbn; by destruct (ascii_dec d c)|]. rewrite string_app_cons. cbn.
  destruct (ascii_dec d e); [|done]. by apply IH.
Qed.

(** What [w] does not have separates what contains it. *)
Lemma contains_apart w a c b :
  has_char (λ d, bool_decide (d = c)) w = false → is_empty w = false →
  contains w (a +:+ String c b) = contains w a || contains w b.
Proof.
  intros Hw Hempty. induction a as [|d a IH].
  - rewrite string_app_nil. cbn [contains]. rewrite <- (string_app_nil (String c b)), prefix_apart by done.
    by destruct w.
  - rewrite string_app_cons. cbn [contains]. rewrite IH, orb_assoc. f_equal. f_equal.
    by rewrite <- string_app_cons, prefix_apart.
Qed.

Lemma toLowerCase_app a b : toLowerCase (a +:+ b) = toLowerCase a +:+ toLowerCase b.
Proof. induction a as [|c a IH]; [done|]. rewrite string_app_cons. cbn. by rewrite IH. Qed.

(** The last character of [s], which comes after [previous]. *)
Fixpoint last_of (previous : option ascii) (s : string) : option ascii :=
  match s with EmptyString => previous | String c s => last_of (Some c) s end.

(** A lazy star passes the characters where what follows fails. *)
Lemma lazy_star accepts stops k body t previous g st :
  has_char (λ c, negb (accepts c)) body = false → has_char stops body = false →
  (∀ c previous s, stops c = false → k (mkCursor previous (String c s) g) = None) →
  k (mkCursor (last_of previous body) t g) = Some st →
  matcher (Star false (Chr accepts)) (mkCursor previous (body +:+ t) g) k = Some st.
Proof.
  intros Haccepts Hstops Hfails Hk. cbn [matcher rest].
  assert (Hrounds : (String.length body ≤ String.length (body +:+ t))%nat) by (rewrite string_length_app; lia).
  revert Hrounds. generalize (String.length (body +:+ t)) as rounds. intros rounds.
  revert rounds previous Hk. induction body as [|c body IH]; intros rounds previous Hk Hrounds.
  - rewrite string_app_nil. destruct rounds; cbn; cbn in Hk; by rewrite Hk.
  - rewrite string_app_cons. destruct rounds as [|rounds]; [cbn in Hrounds; lia|].
    cbn in Haccepts, Hstops. apply orb_false_iff in Haccepts as [Hc Haccepts], Hstops as [Hs Hstops].
    cbn. rewrite Hfails by done. apply negb_false_iff in Hc. rewrite Hc. cbn.
    rewrite (proj2 (Nat.leb_le _ _)) by lia. cbn in Hrounds. apply IH; [done..|lia].
Qed.

Lemma between_app a b : text_between (a +:+ b) b = a.
Proof.
  unfold text_between. rewrite string_length_app. replace (String.length a + String.length b - String.length b)%nat with (String.length a) by lia.
  induction a as [|c a IH]; [by destruct b|]. rewrite string_app_cons. cbn. by rewrite IH.
Qed.

Lemma search_here r previous s st :
  matcher r (mkCursor previous s None) Some = Some st →
  search r previous s = Some (mkFound "" (text_between s st.(rest)) st.(group) st.(before) st.(rest)).
Proof. intros H. destruct s; cbn [search]; by rewrite H. Qed.

(** What a quoted value may hold, and the text of an opening tag. *)
Definition plain_value (c : ascii) : bool :=
  negb (bool_decide (c ∈ [quote_mark; "'"%char; ">"%char; ascii_of_nat 10; ascii_of_nat 13])).
Definition plain (value : string) : Prop := has_char (λ c, negb (plain_value c)) value = false.

Lemma has_char_weaken (p q : ascii → bool) s :
  (∀ c, q c = true → p c = true) → has_char p s = false → has_char q s = false.
Proof.
  intros Hpq. induction s as [|c s IH]; [done|]. cbn. intros [Hc Hs]%orb_false_iff. rewrite IH by done.
  rewrite orb_false_r. destruct (q c) eqn:Hq; [|done]. by rewrite Hpq in Hc.
Qed.

Lemma text_fails w st k :
  startsWith (toLowerCase st.(rest)) (toLowerCase w) = false → matcher (text_of w) st k = None.
Proof.
  unfold startsWith. revert st k. induction w as [|c w IH]; intros [previous s g] k H; cbn [rest] in H; [by destruct s|].
  cbn [text_of matcher any_case rest]. destruct s as [|d s]; [done|]. cbn [toLowerCase String.prefix] in H.
  case_bool_decide as Hd; [|done]. apply IH. cbn [rest]. rewrite Hd in H.
  by destruct (ascii_dec (lower_char c) (lower_char c)).
Qed.

Lemma text_takes w t previous g k :
  matcher (text_of w) (mkCursor previous (w +:+ t) g) k = k (mkCursor (last_of previous w) t g).
Proof.
  revert previous. induction w as [|c w IH]; intros previous; [by rewrite string_app_nil|].
  rewrite string_app_cons. cbn [text_of matcher any_case rest group last_of].
  by rewrite bool_decide_eq_true_2, IH.
Qed.

Lemma text_of_app a b st k :
  matcher (text_of (a +:+ b)) st k = matcher (text_of a) st (λ st, matcher (text_of b) st k).
Proof.
  revert st. induction a as [|c a IH]; intros st; [by rewrite string_app_nil|].
  rewrite string_app_cons. cbn [text_of matcher any_case]. destruct (rest st); [done|]. by rewrite IH.
Qed.

Definition prepend (s : string) (f : found) : found :=
  mkFound (s +:+ f.(found_before)) f.(found_text) f.(found_group) f.(found_last) f.(found_rest).

Lemma prepend_app a b (o : option found) : prepend a <$> (prepend b <$> o) = prepend (a +:+ b) <$> o.
Proof. destruct o as [[]|]; [|done]. unfold prepend. cbn. by rewrite string_app_assoc. Qed.

(** The search for a text, and what has to follow it, passes a stretch that does not hold the
    text, up to a character that it does not have. *)
Lemma search_apart w l a c b previous :
  has_char (λ d, bool_decide (d = lower_char c)) (toLowerCase w) = false → is_empty (toLowerCase w) = false →
  contains (toLowerCase w) (toLowerCase a) = false →
  search (Then (text_of w) l) previous (a +:+ String c b) =
    prepend (a +:+ String c "") <$> search (Then (text_of w) l) (Some c) b.
Proof.
  intros Hw Hempty. revert previous. induction a as [|d a IH]; intros previous Ha.
  - rewrite !string_app_nil. cbn [search matcher]. rewrite text_fails; [by destruct (search _ _ b)|].
    cbn [rest]. cbn [toLowerCase]. rewrite <- (string_app_nil (String (lower_char c) _)), prefix_apart by done.
    by destruct (toLowerCase w).
  - cbn [toLowerCase contains] in Ha. apply orb_false_iff in Ha as [Hd Ha].
    rewrite !string_app_cons. cbn [search matcher]. rewrite text_fails.
    + rewrite IH by done. by destruct (search _ _ b).
    + cbn [rest]. rewrite <- (string_app_cons d), toLowerCase_app. cbn [toLowerCase]. by rewrite prefix_apart.
Qed.

(** ** Attributes *)

(** The value of an attribute, between quotation marks. *)
Definition value_pattern : regex := in_order [one_of quotes; Group (a_few dot); one_of quotes].

Lemma search_same r r' previous s :
  (∀ st k, matcher r st k = matcher r' st k) → search r previous s = search r' previous s.
Proof. intros H. revert previous. induction s as [|c s IH]; intros previous; cbn [search]; by rewrite H, ?IH. Qed.

Lemma attribute_search name previous s :
  search (attribute_pattern name) previous s = search (Then (text_of (name +:+ "=")) value_pattern) previous s.
Proof.
  apply search_same. intros st k. unfold attribute_pattern. cbn [in_order]. cbn [matcher].
  by rewrite text_of_app.
Qed.

Lemma attribute_app name value after :
  attribute name value +:+ after = (name +:+ "=") +:+ String quote_mark (value +:+ String quote_mark after).
Proof. unfold attribute, quoted. by rewrite ?string_app_assoc, ?string_app_cons, ?string_app_assoc, ?string_app_cons. Qed.

Lemma attribute_found name value after previous :
  plain value →
  search (attribute_pattern name) previous (attribute name value +:+ after) =
    Some (mkFound "" (attribute name value) (Some value) (Some quote_mark) after).
Proof.
  intros Hvalue.
  assert (Hk : matcher (Star false (Chr (λ c, negb (bool_decide (c ∈ [ascii_of_nat 10; ascii_of_nat 13])))))
      (mkCursor (Some quote_mark) (value +:+ String quote_mark after) None)
      (λ st', matcher (in_order [one_of quotes])
        (mkCursor st'.(before) st'.(rest) (Some (text_between (value +:+ String quote_mark after) st'.(rest)))) Some)
    = Some (mkCursor (Some quote_mark) after (Some value))).
  { apply (lazy_star _ (λ c, bool_decide (c ∈ quotes))).
    - revert Hvalue. apply has_char_weaken. intros c. unfold plain_value. rewrite !negb_involutive, !bool_decide_eq_true. set_solver.
    - revert Hvalue. apply has_char_weaken. intros c. unfold plain_value, quotes. rewrite negb_involutive, !bool_decide_eq_true. set_solver.
    - intros c previous' s Hc. cbn [in_order matcher one_of rest]. by rewrite Hc.
    - cbn. by rewrite between_app. }
  rewrite attribute_search, (search_here _ _ _ (mkCursor (Some quote_mark) after (Some value))).
  - cbn. by rewrite between_app.
  - rewrite attribute_app. cbn [matcher]. rewrite text_takes. exact Hk.
Qed.

(** An attribute: its name and its value. *)
Definition attr : Type := string * string.
Definition attr_text (a : attr) : string := attribute a.1 a.2.

(** The attributes of a tag, one space apart. *)
Fixpoint leading (l : list attr) : string :=
  match l with [] => "" | a :: l => attr_text a +:+ " " +:+ leading l end.
Fixpoint trailing (l : list attr) : string :=
  match l with [] => "" | a :: l => " " +:+ attr_text a +:+ trailing l end.
Definition attributes (l : list attr) : string :=
  match l with [] => "" | a :: l => attr_text a +:+ trailing l end.

Lemma attributes_middle l1 a l2 : attributes (l1 ++ a :: l2) = leading l1 +:+ attr_text a +:+ trailing l2.
Proof.
  destruct l1 as [|b l1]; [done|]. cbn [app attributes leading]. rewrite !string_app_assoc. f_equal.
  revert b. induction l1 as [|c l1 IH]; intros b; [done|]. cbn [app trailing leading].
  by rewrite (IH b), !string_app_assoc.
Qed.

Lemma attributes_snoc l a : l ≠ [] → attributes (l ++ [a]) = attributes l +:+ " " +:+ attr_text a.
Proof.
  destruct l as [|b l]; [done|]. intros _. cbn [app attributes]. rewrite string_app_assoc. f_equal.
  induction l as [|c l IH]; cbn [app trailing]; [by rewrite string_app_nil_r|].
  by rewrite IH, !string_app_assoc.
Qed.

(** The attributes that the code looks for, by name. *)
Definition looked_for : list string := ["href"; "target"; "rel"].

(** A value that could not be taken for one of them. *)
Definition calm (value : string) : Prop :=
  Forall (λ name, contains (name +:+ "=") (toLowerCase value) = false) looked_for.

(** The attributes of a link that DOMPurify leaves: allowed ones, each at most once; their
    values can stand between quotation marks. *)
Definition good_attr (a : attr) : Prop := a.1 ∈ SANITIZER_CONFIG.(ALLOWED_ATTR) ∧ plain a.2 ∧ calm a.2.
Definition good_attrs (l : list attr) : Prop := l ≠ [] ∧ NoDup l.*1 ∧ Forall good_attr l.

(** By the names there are. *)
Ltac each_name H :=
  unfold looked_for, SANITIZER_CONFIG in H; cbn [ALLOWED_ATTR] in H;
  rewrite !elem_of_cons, elem_of_nil in H; destruct_or! H; try subst; try done.

Lemma other_name name other :
  name ∈ looked_for → other ∈ SANITIZER_CONFIG.(ALLOWED_ATTR) →
  contains (name +:+ "=") (toLowerCase (other +:+ "=")) = bool_decide (other = name).
Proof. intros Hname Hother. each_name Hname; each_name Hother. Qed.

Lemma looked_for_text name c :
  name ∈ looked_for → c = quote_mark ∨ c = " "%char →
  toLowerCase (name +:+ "=") = name +:+ "=" ∧ lower_char c = c ∧
  has_char (λ d, bool_decide (d = c)) (name +:+ "=") = false ∧ is_empty (name +:+ "=") = false.
Proof. intros Hname [-> | ->]; each_name Hname. Qed.

Lemma calm_value name value : calm value → name ∈ looked_for → contains (name +:+ "=") (toLowerCase value) = false.
Proof. unfold calm. rewrite Forall_forall. auto. Qed.

(** The pattern of [name] up to a quotation mark or a space. *)
Lemma pattern_apart name a c b previous :
  name ∈ looked_for → c = quote_mark ∨ c = " "%char → contains (name +:+ "=") (toLowerCase a) = false →
  search (attribute_pattern name) previous (a +:+ String c b) =
    prepend (a +:+ String c "") <$> search (attribute_pattern name) (Some c) b.
Proof.
  intros Hname Hc Ha. rewrite !attribute_search.
  destruct (looked_for_text name c Hname Hc) as (Hlower & Hchar & Hhas & Hempty).
  apply search_apart; by rewrite ?Hlower, ?Hchar.
Qed.

(** The pattern of one attribute passes the others. *)
Lemma pattern_passes name a after previous :
  name ∈ looked_for → good_attr a → a.1 ≠ name →
  search (attribute_pattern name) previous (attr_text a +:+ after) =
    prepend (attr_text a) <$> search (attribute_pattern name) (Some quote_mark) after.
Proof.
  intros Hname (Hallowed & _ & Hcalm) Hne. destruct a as [other value]. unfold attr_text. cbn [fst snd] in *.
  rewrite attribute_app, pattern_apart; [|done|by left|by rewrite other_name, bool_decide_eq_false_2].
  rewrite pattern_apart; [|done|by left|by apply calm_value]. rewrite prepend_app. f_equal. f_equal.
  rewrite <- (string_app_nil_r (attribute other value)), attribute_app. by rewrite string_app_assoc.
Qed.

Lemma pattern_passes_all name l after previous :
  name ∈ looked_for → Forall good_attr l → name ∉ l.*1 → ∃ previous',
  search (attribute_pattern name) previous (leading l +:+ after) =
    prepend (leading l) <$> search (attribute_pattern name) previous' after.
Proof.
  intros Hname Hl. revert previous. induction Hl as [|a l Ha _ IH]; intros previous Hnot.
  - exists previous. rewrite string_app_nil. by destruct (search _ _ after) as [[]|].
  - cbn in Hnot. rewrite elem_of_cons in Hnot. destruct (IH (Some " "%char)) as [previous' H]; [naive_solver|].
    exists previous'. cbn [leading]. rewrite !string_app_assoc, pattern_passes by naive_solver.
    change (" " +:+ leading l +:+ after) with ("" +:+ String " " (leading l +:+ after)).
    rewrite pattern_apart by (auto || by each_name Hname). by rewrite H, !prepend_app, string_app_assoc.
Qed.

(** Whether an attribute is there can be seen from its name and [=]. *)
Lemma contains_attr name a after :
  name ∈ looked_for → good_attr a →
  contains (name +:+ "=") (toLowerCase (attr_text a +:+ after)) =
    bool_decide (a.1 = name) || contains (name +:+ "=") (toLowerCase after).
Proof.
  intros Hname (Hallowed & _ & Hcalm). destruct a as [other value]. unfold attr_text. cbn [fst snd] in *.
  destruct (looked_for_text name quote_mark Hname (or_introl eq_refl)) as (_ & _ & Hhas & Hempty).
  assert (∀ a b, toLowerCase (a +:+ String quote_mark b) = toLowerCase a +:+ String quote_mark (toLowerCase b)) as Hlower
    by (intros; by rewrite toLowerCase_app).
  rewrite attribute_app, !Hlower, !contains_apart by done. by rewrite other_name, (calm_value _ _ Hcalm Hname).
Qed.

Lemma contains_attributes name l :
  name ∈ looked_for → Forall good_attr l →
  contains (name +:+ "=") (toLowerCase (attributes l)) = bool_decide (name ∈ l.*1).
Proof.
  intros Hname Hl.
  assert (∀ l, Forall good_attr l →
    contains (name +:+ "=") (toLowerCase (trailing l)) = bool_decide (name ∈ l.*1)) as Htrailing.
  { clear l Hl. intros l. induction 1 as [|a l Ha _ IH].
    - by each_name Hname.
    - cbn [trailing]. change (" " +:+ ?t) with ("" +:+ String " " t). rewrite toLowerCase_app. cbn [toLowerCase].
      destruct (looked_for_text name " " Hname (or_intror eq_refl)) as (_ & Hchar & Hhas & Hempty).
      rewrite Hchar, contains_apart, contains_attr, IH by done.
      replace (contains (name +:+ "=") "") with false by (by each_name Hname). cbn [orb fmap list_fmap].
      apply eq_true_iff_eq. rewrite orb_true_iff, !bool_decide_eq_true, elem_of_cons. naive_solver. }
  destruct Hl as [|a l Ha Hl]; [by each_name Hname|]. cbn [attributes].
  rewrite contains_attr, Htrailing by done. cbn [fmap list_fmap].
  apply eq_true_iff_eq. rewrite orb_true_iff, !bool_decide_eq_true, elem_of_cons. naive_solver.
Qed.

(** The first attribute of that name is found, with its value. *)
Lemma present_found name l1 value l2 :
  name ∈ looked_for → Forall good_attr (l1 ++ (name, value) :: l2) → name ∉ l1.*1 →
  js_match (attribute_pattern name) (attributes (l1 ++ (name, value) :: l2)) =
    Some (mkFound (leading l1) (attribute name value) (Some value) (Some quote_mark) (trailing l2)).
Proof.
  intros Hname [Hl1 [Hvalue Hl2]%Forall_cons]%Forall_app Hnot. unfold js_match.
  rewrite attributes_middle. destruct (pattern_passes_all name l1 (attr_text (name, value) +:+ trailing l2) None) as [previous ->]; [done..|].
  destruct Hvalue as (_ & Hplain & _). unfold attr_text. cbn [fst snd]. rewrite attribute_found by done.
  unfold prepend. cbn. by rewrite string_app_nil_r.
Qed.

Lemma absent_not_found name l :
  name ∈ looked_for → Forall good_attr l → name ∉ l.*1 → js_match (attribute_pattern name) (attributes l) = None.
Proof.
  intros Hname Hl Hnot. unfold js_match. destruct l as [|a l _] using rev_ind; [by each_name Hname|].
  rewrite fmap_app, elem_of_app in Hnot. apply Forall_app in Hl as [Hl [Ha _]%Forall_cons].
  rewrite attributes_middle. cbn [trailing].
  destruct (pattern_passes_all name l (attr_text a +:+ "") None) as [previous ->]; [naive_solver..|].
  rewrite pattern_passes; [|done|done|cbn in Hnot; set_solver]. by each_name Hname.
Qed.

(** ** Setting attributes *)

(** The new value of each attribute. *)
Definition revalue (f : string → string → string) (l : list attr) : list attr :=
  List.map (λ a, (a.1, f a.1 a.2)) l.
Definition replacing (name : string) (f : string → string) (other value : string) : string :=
  if bool_decide (other = name) then f value else value.

Definition set_attr (name value : string) (l : list attr) : list attr :=
  if bool_decide (name ∈ l.*1) then revalue (replacing name (λ _, value)) l else l ++ [(name, value)].

Lemma revalue_names f l : (revalue f l).*1 = l.*1.
Proof. induction l as [|a l IH]; [done|]. cbn. by f_equal. Qed.

Lemma revalue_others name f l : name ∉ l.*1 → revalue (replacing name f) l = l.
Proof.
  induction l as [|[other value] l IH]; [done|]. cbn [fmap list_fmap fst]. rewrite elem_of_cons. intros Hnot.
  cbn [revalue List.map fst snd]. fold (revalue (replacing name f) l). rewrite IH by naive_solver.
  unfold replacing. rewrite bool_decide_eq_false_2; naive_solver.
Qed.

Lemma revalue_middle name f l1 value l2 :
  NoDup (l1 ++ (name, value) :: l2).*1 →
  revalue (replacing name f) (l1 ++ (name, value) :: l2) = l1 ++ (name, f value) :: l2 ∧ name ∉ l1.*1.
Proof.
  rewrite fmap_app, NoDup_app. cbn. rewrite NoDup_cons. intros (_ & Hdisjoint & Hnot & _).
  assert (name ∉ l1.*1) as Hl1 by (intros Hin; by eapply Hdisjoint, list_elem_of_here).
  split; [|done]. unfold revalue at 1. rewrite List.map_app. cbn. f_equal; [by apply revalue_others|].
  f_equal; [|by apply revalue_others]. unfold replacing. by rewrite bool_decide_eq_true_2.
Qed.

Lemma attr_split name (l : list attr) : name ∈ l.*1 → ∃ l1 value l2, l = l1 ++ (name, value) :: l2.
Proof.
  intros ([name' value] & -> & Hin)%list_elem_of_fmap. apply list_elem_of_split in Hin as (l1 & l2 & ->).
  by exists l1, value, l2.
Qed.

Lemma forced_text name value l :
  name ∈ looked_for → good_attrs l →
  force_attribute name value (attributes l) = attributes (set_attr name value l).
Proof.
  intros Hname (Hne & Hdup & Hgood). unfold force_attribute, set_attr. rewrite test_text.
  destruct (looked_for_text name quote_mark Hname (or_introl eq_refl)) as (-> & _).
  rewrite contains_attributes by done. case_bool_decide as Hin; cbn [negb].
  - destruct (attr_split _ _ Hin) as (l1 & old & l2 & ->).
    destruct (revalue_middle name (λ _, value) l1 old l2 Hdup) as [-> Hnot].
    unfold replace_first. rewrite present_found by done. cbn [found_before found_rest].
    by rewrite attributes_middle.
  - by rewrite attributes_snoc.
Qed.

Definition safe_href (url : string) : string := if isSafeUrl (trim url) then url else "#".

Lemma checked_text l :
  good_attrs l →
  match js_match (attribute_pattern "href") (attributes l) with
  | Some f =>
      if negb (isSafeUrl (trim (default "" f.(found_group))))
      then replace_first (attribute_pattern "href") (attribute "href" "#") (attributes l)
      else attributes l
  | None => attributes l
  end = attributes (revalue (replacing "href" safe_href) l).
Proof.
  intros (_ & Hdup & Hgood). assert ("href" ∈ looked_for) as Hname by by left.
  destruct (decide ("href" ∈ l.*1)) as [Hin|Hnot].
  - destruct (attr_split _ _ Hin) as (l1 & old & l2 & ->).
    destruct (revalue_middle "href" safe_href l1 old l2 Hdup) as [-> Hnot].
    unfold replace_first. rewrite present_found by done. cbn [found_before found_rest found_group default].
    change (id old) with old. unfold safe_href.
    destruct (isSafeUrl (trim old)); cbn [negb]; by rewrite ?attributes_middle.
  - by rewrite absent_not_found, revalue_others.
Qed.

(** The attributes of the link that takes its place. *)
Definition forced (l : list attr) : list attr :=
  set_attr "rel" "noopener noreferrer" (set_attr "target" "_blank" (revalue (replacing "href" safe_href) l)).

Lemma revalue_good name f l :
  (∀ value, good_attr (name, value) → good_attr (name, f value)) →
  good_attrs l → good_attrs (revalue (replacing name f) l).
Proof.
  intros Hf (Hne & Hdup & Hgood). split_and!; [by destruct l|by rewrite revalue_names|].
  apply Forall_map. eapply Forall_impl; [exact Hgood|]. intros [other value] Ha. unfold replacing. cbn.
  case_bool_decide; [subst; by apply Hf|done].
Qed.

Lemma set_attr_good name value l : good_attr (name, value) → good_attrs l → good_attrs (set_attr name value l).
Proof.
  intros Hvalue Hl. unfold set_attr. case_bool_decide as Hin; [by apply revalue_good|].
  destruct Hl as (Hne & Hdup & Hgood). split_and!; [by destruct l| |by apply Forall_app; split; [|constructor]].
  rewrite fmap_app. apply NoDup_app. split_and!; [done| |apply NoDup_singleton].
  intros x Hx Hx'. by apply list_elem_of_singleton in Hx' as ->.
Qed.

Lemma checked_good l : good_attrs l → good_attrs (revalue (replacing "href" safe_href) l).
Proof.
  apply revalue_good. intros value Hvalue. unfold safe_href. destruct (isSafeUrl _); [done|].
  split_and!; [by left|done|by repeat constructor].
Qed.

Lemma target_good l : good_attrs l → good_attrs (set_attr "target" "_blank" l).
Proof. apply set_attr_good. split_and!; [by vm_compute; repeat constructor|done|by repeat constructor]. Qed.

Lemma safe_attributes_of l : good_attrs l → safe_attributes (attributes l) = attributes (forced l).
Proof.
  intros Hl. unfold safe_attributes. rewrite checked_text by done. cbv zeta.
  rewrite forced_text; [|by right; left|by apply checked_good].
  rewrite forced_text; [done|by right; right; left|by apply target_good, checked_good].
Qed.


(** ** Documents *)

(** A document: text and tags that are not links, and the opening tags of links. *)
Inductive piece : Type :=
| Markup (text : string)
| Link (attrs : list attr).

Definition written (p : piece) : string :=
  match p with Markup text => text | Link attrs => "<a " +:+ attributes attrs +:+ ">" end.
Definition force (p : piece) : piece :=
  match p with Markup text => Markup text | Link attrs => Link (forced attrs) end.
Fixpoint document (l : list piece) : string :=
  match l with [] => "" | p :: l => written p +:+ document l end.

(** Nowhere in [s] does the tag of a link begin: [<a] and a space.  It does not end with the
    beginning of one either. *)
Fixpoint no_anchor (s : string) : bool :=
  match s with
  | EmptyString => true
  | String c rest =>
      (if bool_decide (c = "<"%char) then
         match rest with
         | EmptyString => false
         | String d rest =>
             negb (bool_decide (lower_char d = "a"%char)) ||
             match rest with EmptyString => false | String e _ => negb (is_space e) end
         end
       else true) && no_anchor rest
  end.

Definition good_piece (p : piece) : Prop :=
  match p with Markup text => no_anchor text = true | Link attrs => good_attrs attrs end.

(** The search passes a text without links. *)
Lemma search_passes text previous t :
  no_anchor text = true →
  search anchor_pattern previous (text +:+ t) = prepend text <$> search anchor_pattern (last_of previous text) t.
Proof.
  revert previous. induction text as [|c text IH]; intros previous Htext.
  - rewrite string_app_nil. cbn. by destruct (search _ _ t) as [[]|].
  - rewrite string_app_cons. cbn in Htext. apply andb_true_iff in Htext as [Hc Htext]. cbn [search].
    replace (matcher anchor_pattern _ _) with (@None cursor).
    + rewrite IH by done. cbn [last_of]. by destruct (search _ _ t).
    + symmetry. unfold anchor_pattern. cbn [in_order]. generalize (Then (Group (a_few (none_of [">"%char]))) (Then (any_case ">") Nothing)). intros r.
      cbn [text_of matcher any_case rest].
      destruct (decide (lower_char c = lower_char "<")) as [Hd|Hd]; [|by rewrite (bool_decide_eq_false_2 _ Hd)].
      assert (c = "<"%char) as -> by (destruct c as [[] [] [] [] [] [] [] []]; by vm_compute in Hd).
      destruct text as [|d text]; [done|]. rewrite string_app_cons. cbn.
      destruct (decide (lower_char d = "a"%char)) as [Ha|Ha].
      2: { change (lower_char "a") with "a"%char. by rewrite (bool_decide_eq_false_2 _ Ha). }
      cbn in Hc. rewrite (bool_decide_eq_true_2 _ Ha) in Hc. cbn in Hc.
      change (lower_char "a") with "a"%char. rewrite (bool_decide_eq_true_2 _ Ha).
      destruct text as [|e text]; [done|]. rewrite string_app_cons. cbn.
      by apply negb_true_iff in Hc as ->.
Qed.

(** Allowed names and plain values hold no [>]. *)
Lemma attributes_open l : Forall good_attr l → has_char (λ c, bool_decide (c = ">"%char)) (attributes l) = false.
Proof.
  intros Hl. assert (∀ a, good_attr a → has_char (λ c, bool_decide (c = ">"%char)) (attr_text a) = false) as Hattr.
  { intros [name value] (Hname & Hplain & _). cbn [fst snd] in *.
    assert (Hvalue : has_char (λ c, bool_decide (c = ">"%char)) value = false).
    { revert Hplain. apply has_char_weaken. intros c. unfold plain_value.
      rewrite negb_involutive, !bool_decide_eq_true. intros ->. set_solver. }
    unfold attr_text, attribute, quoted. cbn [fst snd]. rewrite !has_char_app. cbn [has_char].
    rewrite has_char_app, Hvalue. by each_name Hname. }
  destruct Hl as [|a l Ha Hl]; [done|]. cbn [attributes]. rewrite has_char_app, Hattr by done. cbn [orb].
  induction Hl as [|b l Hb _ IH]; [done|]. cbn [trailing]. by rewrite !has_char_app, Hattr, IH.
Qed.

Lemma matcher_then a b st k : matcher (Then a b) st k = matcher a st (λ st, matcher b st k).
Proof. done. Qed.

Lemma one_space previous c s g k :
  is_space c = false →
  matcher (some_of space) (mkCursor previous (String " " (String c s)) g) k = k (mkCursor (Some " "%char) (String c s) g).
Proof. intros Hc. cbn. rewrite Hc. by destruct (k _). Qed.

Lemma attributes_start l :
  l ≠ [] → Forall good_attr l → ∃ c s, attributes l = String c s ∧ is_space c = false.
Proof.
  intros Hne Hl. destruct Hl as [|[name value] l (Hname & _) _]; [done|].
  cbn [attributes]. unfold attr_text, attribute. cbn [fst snd] in *. by each_name Hname; eexists _, _.
Qed.

(** The opening tag of a link is found where it stands. *)
Lemma anchor_found previous l t :
  good_attrs l →
  search anchor_pattern previous (written (Link l) +:+ t) =
    Some (mkFound "" (written (Link l)) (Some (attributes l)) (Some ">"%char) t).
Proof.
  intros (Hne & _ & Hl). pose proof (attributes_open l Hl) as Hgt.
  assert (Hk : matcher (Star false (Chr (λ c, negb (bool_decide (c ∈ [">"%char])))))
      (mkCursor (Some " "%char) (attributes l +:+ String ">" t) None)
      (λ st', matcher (in_order [any_case ">"])
        (mkCursor st'.(before) st'.(rest) (Some (text_between (attributes l +:+ String ">" t) st'.(rest)))) Some)
    = Some (mkCursor (Some ">"%char) t (Some (attributes l)))).
  { apply (lazy_star _ (λ c, bool_decide (c = ">"%char))).
    - revert Hgt. apply has_char_weaken. intros c. rewrite negb_involutive, !bool_decide_eq_true. set_solver.
    - done.
    - intros c previous' s Hc. cbn [in_order matcher any_case rest].
      apply bool_decide_eq_false in Hc. rewrite bool_decide_false; [done|]. contradict Hc.
      by destruct c as [[] [] [] [] [] [] [] []]; vm_compute in Hc.
    - cbn. by rewrite between_app. }
  assert (Happ : written (Link l) +:+ t = "<a " +:+ attributes l +:+ String ">" t).
  { cbn [written]. by rewrite !string_app_assoc. }
  rewrite (search_here _ _ _ (mkCursor (Some ">"%char) t (Some (attributes l)))).
  - cbn [rest group before]. by rewrite between_app.
  - rewrite Happ. destruct (attributes_start l Hne Hl) as (c & s & Hs & Hc). rewrite Hs in Hk |- *.
    change ("<a " +:+ ?x) with ("<a" +:+ String " " x). unfold anchor_pattern. cbn [in_order].
    rewrite matcher_then, text_takes, matcher_then, string_app_cons, one_space; [exact Hk|done].
Qed.

Lemma replace_passes rounds previous text t :
  no_anchor text = true →
  replace_from (S rounds) anchor_pattern safe_anchor previous (text +:+ t) =
  text +:+ replace_from (S rounds) anchor_pattern safe_anchor (last_of previous text) t.
Proof.
  intros H. cbn [replace_from]. rewrite search_passes by done.
  destruct (search _ (last_of previous text) t) as [f|]; cbn; [|done]. by rewrite string_app_assoc.
Qed.

Lemma replace_link rounds previous l t :
  good_attrs l →
  replace_from (S rounds) anchor_pattern safe_anchor previous (written (Link l) +:+ t) =
  written (Link (forced l)) +:+ replace_from rounds anchor_pattern safe_anchor (Some ">"%char) t.
Proof.
  intros Hl. cbn [replace_from]. rewrite anchor_found by done.
  unfold safe_anchor. cbn [found_before found_text found_group found_last found_rest].
  change (default "" (Some ?x)) with x. rewrite safe_attributes_of by done.
  cbn [written]. by rewrite !string_app_assoc.
Qed.

Lemma document_forced doc : Forall good_piece doc → forceSafeLinks (document doc) = document (List.map force doc).
Proof.
  intros Hdoc. unfold forceSafeLinks, replace_all. generalize (@None ascii) as previous.
  assert (Hlen : (String.length (document doc) < S (String.length (document doc)))%nat) by lia.
  revert Hlen. generalize (S (String.length (document doc))) as rounds.
  induction Hdoc as [|[text|l] doc Hp _ IH]; intros rounds Hrounds previous; (destruct rounds as [|rounds]; [lia|]).
  - done.
  - cbn [document written List.map force] in *. rewrite replace_passes by done. f_equal. apply IH.
    rewrite string_length_app in Hrounds. lia.
  - cbn [document List.map force]. rewrite replace_link by done. f_equal. apply IH.
    cbn [document] in Hrounds. rewrite string_length_app in Hrounds.
    assert (0 < String.length (written (Link l)))%nat by (cbn [written]; rewrite string_length_app; change (String.length "<a ") with 3%nat; lia). lia.
Qed.

(** ** What a link becomes *)

(** The value of the attribute [name]. *)
Fixpoint value_of (name : string) (l : list attr) : option string :=
  match l with
  | [] => None
  | a :: l => if bool_decide (a.1 = name) then Some a.2 else value_of name l
  end.

(** An http or https address, whatever the case, and spaces around it. *)
Definition web_address (url : string) : Prop :=
  startsWith (toLowerCase (trim url)) "http://" = true ∨ startsWith (toLowerCase (trim url)) "https://" = true.

(** [new] opens outside and without a hold on its opener, leads to where [old] led if that is
    a web address and nowhere else if it led anywhere, and otherwise is as [old] was. *)
Record made_safe (old new : list attr) : Prop := {
  opens_outside : value_of "target" new = Some "_blank";
  no_opener : value_of "rel" new = Some "noopener noreferrer";
  no_new_address : value_of "href" old = None → value_of "href" new = None;
  web_address_kept url : value_of "href" old = Some url → web_address (trim url) → value_of "href" new = Some url;
  other_address_dropped url :
    value_of "href" old = Some url → ¬ web_address (trim url) → value_of "href" new = Some "#";
  others_kept name : name ∉ looked_for → value_of name new = value_of name old;
}.

Lemma value_of_none name l : name ∉ l.*1 → value_of name l = None.
Proof.
  induction l as [|[other value] l IH]; [done|]. cbn. rewrite elem_of_cons. intros Hnot.
  rewrite bool_decide_eq_false_2 by naive_solver. apply IH. naive_solver.
Qed.

Lemma value_of_app name l l' :
  value_of name (l ++ l') = match value_of name l with Some value => Some value | None => value_of name l' end.
Proof. induction l as [|a l IH]; [done|]. cbn. by case_bool_decide. Qed.

Lemma value_of_revalue name f l other :
  value_of other (revalue (replacing name f) l) =
  (λ value, if bool_decide (other = name) then f value else value) <$> value_of other l.
Proof.
  induction l as [|[n value] l IH]; [done|]. cbn [revalue List.map value_of fst snd].
  fold (revalue (replacing name f) l). rewrite IH. destruct (decide (n = other)) as [->|Hne].
  - by rewrite !(bool_decide_eq_true_2 (other = other)).
  - by rewrite !(bool_decide_eq_false_2 (n = other)).
Qed.

Lemma value_of_set name value l other :
  value_of other (set_attr name value l) = if bool_decide (other = name) then Some value else value_of other l.
Proof.
  unfold set_attr. case_bool_decide as Hin.
  - rewrite value_of_revalue. case_bool_decide as Hother; [subst|by destruct (value_of other l)].
    clear -Hin. induction l as [|[n v] l IH]; [by apply elem_of_nil in Hin|]. cbn in *.
    case_bool_decide; [done|]. apply IH. rewrite elem_of_cons in Hin. naive_solver.
  - rewrite value_of_app. cbn [value_of fst snd]. case_bool_decide as Hother.
    + subst. by rewrite value_of_none, bool_decide_eq_true_2.
    + rewrite bool_decide_eq_false_2 by naive_solver. by destruct (value_of other l).
Qed.

(** An address is let through exactly if, spaces and case aside, it is an http or https
    address. *)
Theorem safe_urls_are_web_urls url : isSafeUrl url = true ↔ web_address url.
Proof.
  unfold web_address. rewrite <- orb_true_iff. unfold isSafeUrl. destruct url as [|c url]; [done|]. cbn [is_empty].
  generalize (toLowerCase (trim (String c url))) as s. intros s.
  destruct s as [|c1 s]; [done|]. unfold startsWith. cbn [String.prefix].
  destruct (ascii_dec "h" c1) as [<-|]; [done|]. cbn [orb]. by destruct (_ || _).
Qed.

Lemma forced_safe l : made_safe l (forced l).
Proof.
  split; unfold forced.
  - by rewrite !value_of_set.
  - by rewrite !value_of_set.
  - rewrite !value_of_set, value_of_revalue. by cbn; intros ->.
  - intros url Hurl Hweb. rewrite !value_of_set, value_of_revalue, Hurl. cbn. unfold safe_href.
    by rewrite (proj2 (safe_urls_are_web_urls _) Hweb).
  - intros url Hurl Hweb. rewrite !value_of_set, value_of_revalue, Hurl. cbn. unfold safe_href.
    destruct (isSafeUrl (trim url)) eqn:Hsafe; [|done]. by apply safe_urls_are_web_urls in Hsafe.
  - intros name Hname. unfold looked_for in Hname. rewrite !not_elem_of_cons in Hname.
    destruct Hname as (Hhref & Htarget & Hrel & _). rewrite !value_of_set, value_of_revalue.
    rewrite !bool_decide_eq_false_2 by done. by destruct (value_of name l).
Qed.

(** C29: ForceSafeLinks rewrites a document exactly at its links.  The links are those written
    as DOMPurify writes them: at least one of the attributes that SANITIZER_CONFIG allows, each
    at most once and one space apart, in double quotation marks, with values that hold no
    quotation mark of either kind, no [>] and no end of a line, and nowhere mention [href=],
    [target=] or [rel=].  Everything else stays as it is; a link, whether it had a target or a
    rel or not, has the target [_blank] and the rel [noopener noreferrer], keeps its address if
    it is a web address and has the address [#] otherwise, and keeps its other attributes. *)
Theorem links_are_forced doc :
  Forall good_piece doc →
  ∃ doc', forceSafeLinks (document doc) = document doc' ∧ Forall good_piece doc' ∧
    Forall2 (λ p p', match p, p' with
      | Markup text, Markup text' => text' = text
      | Link attrs, Link attrs' => made_safe attrs attrs'
      | _, _ => False
      end) doc doc'.
Proof.
  intros Hdoc. exists (List.map force doc). split_and!; [by apply document_forced| |].
  - apply Forall_map. eapply Forall_impl; [exact Hdoc|]. intros [text|l] Hp; [done|].
    apply set_attr_good; [|by apply target_good, checked_good].
    split_and!; [by vm_compute; repeat constructor|done|by repeat constructor].
  - clear Hdoc. induction doc as [|[text|l] doc IH]; cbn; constructor; try done. apply forced_safe.
Qed.

Definition newsletter : list piece :=
  [Markup "<p><abbr>Read</abbr> <a>"; Link [("href", " https://example.org/a?b=c ")];
   Markup "this</a> or <b>not</b> "; Link [("class", "x"); ("href", "JavaScript:alert(1)")]; Markup "that</a>, ";
   Link [("rel", "opener"); ("target", "_self"); ("title", "more"); ("href", "http://example.org")]; Markup "more</a></p>"].

Lemma newsletter_good : Forall good_piece newsletter.
Proof.
  repeat first [apply Forall_cons_2 | apply Forall_nil_2]; try reflexivity; (split; [done|split]);
    repeat first [apply NoDup_cons_2 | apply NoDup_nil_2 | apply Forall_cons_2 | apply Forall_nil_2];
    try (vm_compute; set_solver); (split; [vm_compute; set_solver|split; [done|by repeat constructor]]).
Qed.

Lemma links_are_forced_witness :
  forceSafeLinks (document newsletter) =
    marks "<p><abbr>Read</abbr> <a><a href=` https://example.org/a?b=c ` target=`_blank` rel=`noopener noreferrer`>this</a> or <b>not</b> <a class=`x` href=`#` target=`_blank` rel=`noopener noreferrer`>that</a>, <a rel=`noopener noreferrer` target=`_blank` title=`more` href=`http://example.org`>more</a></p>" ∧
  ∃ doc', forceSafeLinks (document newsletter) = document doc' ∧ length doc' = 7%nat.
Proof.
  destruct (links_are_forced newsletter newsletter_good) as (doc' & H & _ & Hdoc).
  split; [vm_compute; reflexivity|]. exists doc'. split; [exact H|]. by rewrite <- (Forall2_length _ _ _ Hdoc).
Defined.

(** Plain text is made inert: what escapeEmailText yields holds none of the marks that
    open or close a tag or an attribute, and reads back as the text it was given. *)
Theorem escaping_is_inert text :
  has_char is_markup (escapeEmailText text) = false ∧ unescape (escapeEmailText text) = text.
Proof. rewrite escape_one_pass. split; [apply escaped_inert|apply unescape_escaped]. Qed.

(** What DOMPurify promises of text: it parses the document and writes it again, so that
    text without tags between [pre] tags comes back as HTML writes text.  A parser drops a line
    end after [<pre>] and null characters and makes carriage returns line ends, and the
    no-break space is written as a reference: texts with them are left out. *)
Definition ordinary (text : string) : Prop :=
  has_char (λ c, bool_decide (c ∈ [ascii_of_nat 0; ascii_of_nat 13; ascii_of_nat 160])) text = false ∧
  startsWith text new_line = false.
Definition writes_back (sanitize : SanitizerConfig → string → outcome exn string) : Prop :=
  ∀ text, ordinary text → ∀ result,
    sanitize SANITIZER_CONFIG (pre (escaped text)) = Return result → result = pre (serialized text).

(** The escaped text of a message without HTML is shown, with quotation marks written as
    references or as they are. *)
Lemma sanitize_keeps_text purify text :
  match purify with Some sanitize => writes_back sanitize ∧ ordinary text | None => True end →
  reads_as_attribute (pre (escaped text)) = false → reads_as_attribute (pre (serialized text)) = false →
  ∃ shown, sanitizeEmailHtml purify (pre (escapeEmailText text)) = pre shown ∧
    (shown = escaped text ∨ shown = serialized text).
Proof.
  intros Hpurify Hescaped Hserialized. rewrite escape_one_pass.
  assert (∀ shown, has_char is_angle shown = false → reads_as_attribute (pre shown) = false →
    forceSafeLinks (fallbackSanitize (pre shown)) = pre shown) as Hkeeps.
  { intros shown Hangle Hreads. by rewrite fallback_keeps_pre, links_keep_pre. }
  pose proof (Hkeeps _ (markup_angle _ (escaped_inert text)) Hescaped) as H1.
  pose proof (Hkeeps _ (serialized_inert text) Hserialized) as H2.
  unfold sanitizeEmailHtml. change (is_empty (pre _)) with false. cbn iota.
  destruct purify as [sanitize|]; [|exists (escaped text); by auto].
  destruct (sanitize _ _) as [result|e] eqn:H; [|exists (escaped text); by auto].
  destruct Hpurify as [Hwrites Hordinary]. rewrite (Hwrites text Hordinary result H). exists (serialized text). by auto.
Qed.

(** ** Where the fallback falls short *)

(** Text is taken out of a plain message although none of it is markup. *)
Example plain_text_loses_words :
  fallbackSanitize (pre (escapeEmailText "run it with once=true today")) = pre "run it with today".
Proof. vm_compute. reflexivity. Qed.

(** With DOMPurify the quotation marks of the text are not references any more, and what
    they hold goes too. *)
Example quoted_text_loses_words :
  forceSafeLinks (fallbackSanitize (pre (serialized (marks "set style=`red` there")))) = pre "set there" ∧
  fallbackSanitize (pre (escapeEmailText (marks "set style=`red` there"))) =
    pre (escapeEmailText (marks "set style=`red` there")).
Proof. by vm_compute. Qed.

(** Taking a tag out can make another one. *)
Example fallback_builds_a_tag : fallbackSanitize "<im<img>g src=x>" = "<img src=x>".
Proof. vm_compute. reflexivity. Qed.

(** A link to a script stays if its address is not quoted. *)
Example unquoted_script_link_stays :
  forceSafeLinks (fallbackSanitize "<a href=javascript:alert(1)>x</a>") =
  marks "<a href=javascript:alert(1) target=`_blank` rel=`noopener noreferrer`>x</a>".
Proof. vm_compute. reflexivity. Qed.

(** An address that mentions an attribute passes for it: the link does not open outside. *)
Example address_passes_for_attributes :
  forceSafeLinks (marks "<a href=`https://example.org/?target=1&rel=2`>x</a>") =
  marks "<a href=`https://example.org/?target=1&rel=2`>x</a>".
Proof. vm_compute. reflexivity. Qed.
