(* ===== verification/Views.v ===== *)
(** * The user interface: the scripts of the components under src/components/ and App.vue

    What the components compute from the stores, and what their handlers call.  A handler
    is a program over the application, as the methods of the controller are: it reads the
    stores and calls methods ([void method()] does not await, but does not stop either).
    The setup forms and the dialog that reconnects an account have their own store and are
    a machine of events.  The markup is not modelled, but for the conditions that disable
    a button where the handlers rely on them. *)

From S2P Require Import Prelude.
From S2P Require Import JsNumber.
From S2P Require Import JsString.
From S2P Require Import JsCollections.
From S2P Require Import Errors.
From S2P Require Import DomainIds.
From S2P Require Import DomainEmail.
From S2P Require Import DomainMailbox.
From S2P Require Import PendingMutation.
From S2P Require Import Remote.
From S2P Require Import Prog.
From S2P Require Import JsText.
From S2P Require Import SharedState.
From S2P Require Import RemoteApplication.
From S2P Require Import Stores.
From S2P Require Import Application.
From S2P Require Import Controller.
From S2P Require Import ControllerFacts.
From S2P Require Import ControllerTheorems.
From S2P Require Import Sanitizer.
From S2P Require Import Fixtures.
From S2P Require Import EngineInterface.
From Stdlib Require Import ZArith.
Open Scope string_scope.
Open Scope list_scope.
Open Scope js_scope.

(** [text || other]. *)
Definition or_else (text : option string) (other : string) : string :=
  match text with
  | Some text => if is_empty text then other else text
  | None => other
  end.

(** [ó]. *)
Definition o_acute : string := String (ascii_of_nat 243) "".

(** A rejected method is reported in the store of the mail. *)
Definition reported (text : string) (method : app unit) : app unit :=
  prog_try method (λ _, change (on_mail (setLoadState mail_error (Some (OtherText text))))).

Section views.
Context {platform : Platform} (installed : Installed).

(** ** components/message-list/MessageList.vue *)

Definition folderTitle (s : Application) : string :=
  match selectedMailbox s.(mail) with Some mailbox => mailbox.(mailbox_name) | None => "Correo local" end.

Definition getFromLabel (from : EmailAddressList) : string :=
  match from with
  | Some (first :: _) => or_else first.(address_name) first.(address_email)
  | _ => "Sin remitente"
  end.

(** What the filter looks into, and the filter. *)
Definition matches_query (query : string) (msg : Email) : bool :=
  contains query (toLowerCase (default "" msg.(email_subject))) ||
  contains query (toLowerCase (getFromLabel msg.(email_from))) ||
  contains query (toLowerCase msg.(email_preview)).
Definition filteredEmails (searchQuery : string) (s : Application) : list Email :=
  let query := toLowerCase (trim searchQuery) in
  if is_empty query then s.(mail).(ms_emails)
  else List.filter (matches_query query) s.(mail).(ms_emails).

Definition messagesCount (searchQuery : string) (s : Application) : string :=
  if s.(mail).(ms_loadState) === mail_loading then "Cargando..."
  else
    match length (filteredEmails searchQuery s) with
    | 0%nat => "Sin mensajes"
    | 1%nat => "1 mensaje"
    | count => decimal count +:+ " mensajes"
    end.

Definition refreshActivity (s : Application) : RefreshActivity :=
  match s.(mail).(ms_selectedAccountKey) with
  | None => mkRefreshActivity phase_idle None
  | Some accountKey => default (mkRefreshActivity phase_idle None) (map_get accountKey s.(mail).(ms_refreshActivity))
  end.

Definition canRefresh (s : Application) : bool :=
  negb (bool_decide (s.(mail).(ms_selectedAccountKey) = None)) && (s.(runtime).(runtime_auth) === authenticated).

Definition handleRefresh : app unit :=
  allowed ← look (λ s,
    if negb (canRefresh s) || ((refreshActivity s).(refresh_phase) === phase_refreshing) then None
    else s.(mail).(ms_selectedAccountKey));
  match allowed with
  | None => Ret tt
  | Some accountKey => starts (refreshAccount installed accountKey)
  end.

Definition isEmailSelected (emailId : ScopedEmailId) (s : Application) : bool :=
  match s.(mail).(ms_selectedEmailId) with
  | None => false
  | Some selected => sameScopedEmailId selected emailId
  end.
Definition isUnread (email : Email) : bool := negb (set_has "$seen" email.(email_keywords)).
Definition isFlagged (email : Email) : bool := set_has "$flagged" email.(email_keywords).

(** How much a status wants to be seen. *)
Definition rank (status : MutationStatusView) : Z :=
  if status.(sv_lifecycle) === st_failedTerminal then 4
  else if status.(sv_needsReconciliation) || (status.(sv_lifecycle) === st_inFlight) then 3
  else if status.(sv_lifecycle) === st_retrying then 2
  else 1.
Definition concerns_email (emailId : ScopedEmailId) (value : MutationStatusView) : bool :=
  bool_decide (value.(sv_emailId) = Some emailId).
Definition mutationForEmail (emailId : ScopedEmailId) (s : Application) : option MutationStatusView :=
  head (js_sort (λ left right, rank right - rank left)%Z
    (List.filter (concerns_email emailId) (statusesForAccount (Some emailId.(accountKey)) s.(statuses)))).

Inductive MutationLabel : Type :=
| label_synchronized | label_verifying | label_failed | label_synchronizing | label_retrying | label_pending.

Definition mutationLabel (emailId : ScopedEmailId) (s : Application) : option MutationLabel :=
  match mutationForEmail emailId s with
  | None =>
      match recentConfirmationForEmail emailId s.(statuses) with
      | None => None
      | Some _ => Some label_synchronized
      end
  | Some value => Some (
      if value.(sv_needsReconciliation) || (value.(sv_lifecycle) === st_confirmed) then label_verifying
      else if value.(sv_lifecycle) === st_failedTerminal then label_failed
      else if value.(sv_lifecycle) === st_inFlight then label_synchronizing
      else if value.(sv_lifecycle) === st_retrying then label_retrying
      else label_pending)
  end.

Definition may_retry (value : MutationStatusView) : bool :=
  negb ((value.(sv_lifecycle) === st_failedTerminal) || (value.(sv_lifecycle) === st_confirmed)).

Definition retryMutation (emailId : ScopedEmailId) : app unit :=
  found ← look (mutationForEmail emailId);
  match found with
  | None => Ret tt
  | Some value =>
      if negb (may_retry value) then Ret tt
      else starts (runMutation installed value.(sv_accountKey) value.(sv_mutationId))
  end.

(** [handleToggleSeen] and [handleToggleFlag]. *)
Definition toggle_in_list (keyword : string) (emailId : ScopedEmailId) : app unit :=
  value ← look (λ s, List.find (λ email, sameScopedEmailId email.(email_id) emailId) s.(mail).(ms_emails));
  match value with
  | None => Ret tt
  | Some value => reported "No se pudo actualizar el mensaje." (toggleKeyword value keyword)
  end.
Definition list_handleToggleSeen : ScopedEmailId → app unit := toggle_in_list "$seen".
Definition list_handleToggleFlag : ScopedEmailId → app unit := toggle_in_list "$flagged".

Definition list_handleDelete (emailId : ScopedEmailId) : app unit :=
  reported "No se pudo mover el mensaje." (moveEmail emailId "trash").
Definition handleSelectEmail (emailId : ScopedEmailId) : app unit := selectEmail installed emailId.

(** ** components/message-viewer/MessageViewer.vue *)

(** [toLocaleString] and [URL] are the environment's; [openUrl] is the opener's.
    [formatDate] gives an absent date as the empty text. *)
Context (toLocaleString : string → string) (purify : option (SanitizerConfig → string → outcome exn string)).
Context (protocol_of : string → option string).

Definition join_with (separator : string) (l : list string) : string :=
  match l with
  | [] => ""
  | text :: l => text +:+ foldr (λ text rest, separator +:+ text +:+ rest) "" l
  end.

Definition formatAddressList (addresses : EmailAddressList) : string :=
  match addresses with
  | Some ((_ :: _) as l) => join_with ", " (List.map (λ addr,
      let name := default "" addr.(address_name) in
      if is_empty name then addr.(address_email) else name +:+ " <" +:+ addr.(address_email) +:+ ">") l)
  | _ => "Ninguno"
  end.

(** [toUpperCase] of one code unit below 256. *)
Definition upper_of (c : ascii) : string :=
  let n := nat_of_ascii c in
  if ((97 <=? n) && (n <=? 122) || (224 <=? n) && (n <=? 254) && negb (n =? 247))%nat
  then String (ascii_of_nat (n - 32)) ""
  else if (n =? 181)%nat then platform_wide 924
  else if (n =? 223)%nat then "SS"
  else if (n =? 255)%nat then platform_wide 376
  else String c "".

Definition getSenderInitial (from : EmailAddressList) : string :=
  match from with
  | Some (first :: _) =>
      match or_else first.(address_name) first.(address_email) with
      | EmptyString => ""
      | String c _ => upper_of c
      end
  | _ => "?"
  end.
Definition getSenderName : EmailAddressList → string := getFromLabel.
Definition getSenderEmail (from : EmailAddressList) : string :=
  match from with Some (first :: _) => first.(address_email) | _ => "" end.
Definition formatDate (date : option string) : string :=
  match date with None => "" | Some date => if is_empty date then "" else toLocaleString date end.

Definition reply_subject (subject : option string) : string :=
  match subject with
  | Some subject => if startsWith subject "Re:" then subject else "Re: " +:+ subject
  | None => "Re: "
  end.
Definition reply_body (email : Email) : string :=
  new_line +:+ new_line +:+ "--- En fecha " +:+ formatDate (Some email.(email_receivedAt)) +:+ ", " +:+
  formatAddressList email.(email_from) +:+ " escribi" +:+ o_acute +:+ ":" +:+ new_line +:+ "> " +:+ email.(email_preview).
Definition handleReply : app unit :=
  change (λ s,
    match selectedEmail s.(mail) with
    | None => s
    | Some email => on_composer (composer_open (Some (getSenderEmail email.(email_from)))
        (Some (reply_subject email.(email_subject))) (Some (reply_body email))) s
    end).

(** The handlers of the selected message: what a method rejects with is not caught. *)
Definition with_selected (handler : Email → app unit) : app unit :=
  email ← look (λ s, selectedEmail s.(mail));
  match email with None => Ret tt | Some email => handler email end.
Definition viewer_handleToggleFlag : app unit := with_selected (λ email, toggleKeyword email "$flagged").
Definition viewer_handleToggleSeen : app unit := with_selected (λ email, toggleKeyword email "$seen").
Definition handleMarkSpam : app unit := with_selected (λ email, moveEmail email.(email_id) "junk").
Definition viewer_handleDelete : app unit := with_selected (λ email, moveEmail email.(email_id) "trash").

Definition retryBody : app unit :=
  wanted ← look (λ s, if s.(mail).(ms_bodyMaterializing) then None else s.(mail).(ms_selectedEmailId));
  match wanted with
  | None => Ret tt
  | Some emailId => starts (materializeBody installed emailId)
  end.

Definition selected_isFlagged (s : Application) : bool :=
  match selectedEmail s.(mail) with Some email => isFlagged email | None => false end.
Definition selected_isSeen (s : Application) : bool :=
  match selectedEmail s.(mail) with Some email => set_has "$seen" email.(email_keywords) | None => false end.

Definition raw_html (body : EmailBody) : string :=
  match body.(body_html), body.(body_text) with
  | Some html, _ => html
  | None, Some text => "<pre>" +:+ escapeEmailText text +:+ "</pre>"
  | None, None => "<p><em>(Mensaje sin representaci" +:+ o_acute +:+ "n textual o HTML)</em></p>"
  end.
Definition iframeDocument (s : Application) : string :=
  match s.(mail).(ms_emailBody) with
  | Some body =>
      if s.(mail).(ms_bodyLoadState) === body_cached
      then createSandboxedIframeSrcDoc (sanitizeEmailHtml purify (raw_html body))
      else ""
  | None => ""
  end.

(** *** security/external-links.ts: a click on a link of the document *)

(** [protocol_of url] is [new URL(url).protocol], [None] if the constructor throws. *)
Definition isAllowedExternalUrl (value : string) : bool :=
  match protocol_of value with
  | Some protocol => (protocol === "http:") || (protocol === "https:")
  | None => false
  end.
(** The address that is opened. *)
Definition openSafeExternalUrl (value : string) : option string :=
  if isAllowedExternalUrl value then Some value else None.
(** What the handler does with the [href] of the anchor that was clicked, if one was. *)
Definition handleIframeLinkClick (anchor : option (option string)) : option string :=
  href ← anchor; openSafeExternalUrl (default "" href).

(** ** components/mailbox/MailboxSidebar.vue *)

Definition mailboxIcon (mailbox : Mailbox) : string :=
  match mailbox.(mailbox_role) with
  | Some role =>
      if role === "inbox" then "inbox"
      else if role === "drafts" then "drafts"
      else if role === "sent" then "sent"
      else if role === "junk" then "spam"
      else if role === "trash" then "trash"
      else "folder"
  | None => "folder"
  end.
Definition isFolderSelected (mailbox : Mailbox) (s : Application) : bool :=
  match s.(mail).(ms_selectedMailboxId) with
  | None => false
  | Some selected => sameScopedMailboxId selected mailbox.(mailbox_id)
  end.
Definition handleSelectFolder (mailbox : Mailbox) : app unit := selectMailbox installed mailbox.(mailbox_id).
Definition accountLabel (s : Application) : string :=
  or_else s.(mail).(ms_selectedAccountKey) "Sin cuenta local".
Definition runtimeDotClass (s : Application) : string :=
  match (connectionStatusView s.(runtime)).(view_kind) with
  | status_localError => "dot--error"
  | status_online => "dot--online"
  | _ => "dot--offline"
  end.
(** The account whose reconnection it emits. *)
Definition reconnect (s : Application) : option AccountKey :=
  match s.(mail).(ms_selectedAccountKey) with
  | Some accountKey =>
      if is_empty accountKey || negb (connectionStatusView s.(runtime)).(view_canReconnect) then None
      else Some accountKey
  | None => None
  end.

(** ** components/composer/Composer.vue *)

Definition handleClose : app unit := change (on_composer composer_close).
Definition handleSend : app unit :=
  allowed ← look (λ s, canSend s.(composer));
  if negb allowed then Ret tt
  else
    result ← executeSend;
    match result with
    | inl (accountKey, mutationId) => starts (runMutation installed accountKey mutationId)
    | inr _ => Ret tt
    end.

(** ** components/layout/SendStatus.vue *)

Inductive SendLabel : Type :=
| send_label_sent | send_label_verifying | send_label_queued | send_label_retrying | send_label_sending | send_label_failed.

Definition latestSend (s : Application) : option (MutationStatusView + RecentMutationConfirmation) :=
  latestSendForAccount s.(mail).(ms_selectedAccountKey) s.(statuses).
Definition send_label (s : Application) : option SendLabel :=
  match latestSend s with
  | None => None
  | Some (inr _) => Some send_label_sent
  | Some (inl value) => Some (
      if value.(sv_needsReconciliation) || (value.(sv_lifecycle) === st_confirmed) then send_label_verifying
      else match value.(sv_lifecycle) with
           | st_pending => send_label_queued
           | st_retrying => send_label_retrying
           | st_inFlight => send_label_sending
           | _ => send_label_failed
           end)
  end.
(** What [retry] runs: [canRetry], and the mutation. *)
Definition retryable_send (s : Application) : option MutationStatusView :=
  match latestSend s with
  | Some (inl value) =>
      if (value.(sv_lifecycle) === st_pending) || (value.(sv_lifecycle) === st_retrying) ||
         (value.(sv_lifecycle) === st_inFlight)
      then Some value else None
  | _ => None
  end.
Definition retry_send : app unit :=
  found ← look retryable_send;
  match found with
  | None => Ret tt
  | Some value => starts (runMutation installed value.(sv_accountKey) value.(sv_mutationId))
  end.

(** ** App.vue *)

Definition rootMode (s : Application) : RootViewMode := rootViewMode s.(runtime).(runtime_local) s.(mail).(ms_accounts).
Definition retryLocal : app unit := prog_try (retry installed) (λ _, Ret tt).
Definition onMounted : app unit := prog_try (initialize installed) (λ _, Ret tt).
Definition onBeforeUnmount : app unit := dispose.
End views.

(** ** The setup forms: AccountSetup.vue, AccountReconnectDialog.vue, AppShell.vue, and
    the connection of App.vue

    The forms share one store.  An attempt was begun by the form of the first run, or by
    the dialog with a number, at one of its generations; it runs until its answer comes.
    A dialog keeps its variables when it is gone: an attempt still reads them. *)

Inductive Origin : Type :=
| FromFirstRun
| FromDialog (dialog attempt : nat).
#[export] Instance Origin_eq_dec : EqDecision Origin.
Proof. solve_decision. Defined.

Record Dialog : Type := mkDialog {
  generation : nat;
  googleReauthorization : bool;
}.

Record Forms : Type := mkForms {
  store : AccountSetupState;
  reconnectAccountKey : option AccountKey;
  dialogs : list Dialog;
  mounted : bool;
  running : list (Origin * AccountSetupRequest);
}.

Definition new_forms : Forms := mkForms setup_initial None [] false [].

Definition put_store (x : AccountSetupState) (s : Forms) : Forms :=
  mkForms x s.(reconnectAccountKey) s.(dialogs) s.(mounted) s.(running).
Definition put_running (x : list (Origin * AccountSetupRequest)) (s : Forms) : Forms :=
  mkForms s.(store) s.(reconnectAccountKey) s.(dialogs) s.(mounted) x.
Definition put_dialogs (x : list Dialog) (s : Forms) : Forms :=
  mkForms s.(store) s.(reconnectAccountKey) x s.(mounted) s.(running).
(** [openReconnect] and [closeReconnect]. *)
Definition put_reconnectAccountKey (x : option AccountKey) (s : Forms) : Forms :=
  mkForms s.(store) x s.(dialogs) s.(mounted) s.(running).
Definition put_mounted (x : bool) (s : Forms) : Forms :=
  mkForms s.(store) s.(reconnectAccountKey) s.(dialogs) x s.(running).

(** The dialog that is shown. *)
Definition current_dialog (s : Forms) : nat := pred (length s.(dialogs)).
Definition next_generation (dialog : Dialog) : Dialog :=
  mkDialog (S dialog.(generation)) dialog.(googleReauthorization).

(** What the user changes in the form. *)
Inductive Edit : Type :=
| EditProfile (profile : AccountSetupProfile)
| EditUsername (value : string)
| EditPassword (value : string)
| EditHost (value : string)
| EditPort (value : string).
Definition edit (e : Edit) : AccountSetupState → AccountSetupState :=
  match e with
  | EditProfile profile => setProfile profile
  | EditUsername value => setUsername value
  | EditPassword value => setPassword value
  | EditHost value => setHost value
  | EditPort value => setPort value
  end.

(** [handleSubmit]: the request it emits. *)
Definition handleSubmit (googleReauthorization : bool) (s : AccountSetupState) :
    option AccountSetupRequest * AccountSetupState :=
  let '(result, s) := buildRequest s in
  (match result with
   | inr _ => None
   | inl (SetupGmail username reauthorize) => Some (SetupGmail username (googleReauthorization || reauthorize))
   | inl request => Some request
   end, s).

Definition is_connecting (s : Forms) : bool :=
  match s.(store).(setup_phase) with setup_connecting => true | _ => false end.

(** [connectAccount] and [reconnect], up to the call of the controller. *)
Definition begin_connect (origin : Forms → Origin) (begin : Forms → Forms) (request : AccountSetupRequest) (s : Forms) : Forms :=
  if is_connecting s then s
  else
    let s := begin s in
    put_running (s.(running) ++ [(origin s, request)]) (put_store (beginConnection s.(store)) s).
Definition connectAccount_form : AccountSetupRequest → Forms → Forms := begin_connect (λ _, FromFirstRun) (λ s, s).
Definition reconnect_form : AccountSetupRequest → Forms → Forms :=
  begin_connect
    (λ s, FromDialog (current_dialog s) (default 0 (generation <$> s.(dialogs) !! current_dialog s)))
    (λ s, put_dialogs (alter next_generation (current_dialog s) s.(dialogs)) s).

(** [attempt === generation], and always for the form of the first run. *)
Definition is_current (values : list Dialog) (origin : Origin) : bool :=
  match origin with
  | FromFirstRun => true
  | FromDialog dialog attempt => bool_decide (generation <$> values !! dialog = Some attempt)
  end.

(** What follows the answer of the controller. *)
Definition answered (origin : Origin) (request : AccountSetupRequest) (result : AccountConnectionResult) (s : Forms) : Forms :=
  if negb (is_current s.(dialogs) origin) then s
  else
    match result with
    | inr kind =>
        let s := match origin, request with
          | FromDialog dialog _, SetupGmail _ _ =>
              if kind === connection_auth
              then put_dialogs (alter (λ d, mkDialog d.(generation) true) dialog s.(dialogs)) s else s
          | _, _ => s
          end in
        put_store (setConnectionError (ConnectionText kind) s.(store)) s
    | inl _ =>
        let s := put_store (finishConnection s.(store)) s in
        match origin with FromFirstRun => s | FromDialog _ _ => put_reconnectAccountKey None s end
    end.

(** [close], and [onBeforeUnmount]. *)
Definition close (s : Forms) : Forms :=
  put_reconnectAccountKey None
    (put_store (setup_reset s.(store)) (put_dialogs (alter next_generation (current_dialog s) s.(dialogs)) s)).
Definition unmount (s : Forms) : Forms :=
  put_mounted false
    (put_store (clearSensitive s.(store)) (put_dialogs (alter next_generation (current_dialog s) s.(dialogs)) s)).

(** What happens to the forms.  The buttons of a form are disabled while the phase of the
    store is [connecting]; a dialog is mounted when the shell has a key for it. *)
Inductive FormEvent : Type :=
| Edited (e : Edit)
| SubmittedFirstRun
| SubmittedReconnect
| OpenedReconnect (accountKey : AccountKey)
| MountedDialog
| UnmountedDialog
| Cancelled
| Authenticated (i : nat)
| Answered (i : nat) (result : AccountConnectionResult).

Definition submit (googleReauthorization : bool) (connect : AccountSetupRequest → Forms → Forms) (s : Forms) : Forms :=
  if is_connecting s then s
  else
    let '(request, store) := handleSubmit googleReauthorization s.(store) in
    let s := put_store store s in
    match request with None => s | Some request => connect request s end.

Definition happen (event : FormEvent) (s : Forms) : Forms :=
  match event with
  | Edited e => put_store (edit e s.(store)) s
  | SubmittedFirstRun => submit false connectAccount_form s
  | SubmittedReconnect =>
      if negb s.(mounted) then s
      else submit (default false (googleReauthorization <$> s.(dialogs) !! current_dialog s)) reconnect_form s
  | OpenedReconnect accountKey => put_reconnectAccountKey (Some accountKey) s
  | MountedDialog =>
      match s.(mounted), s.(reconnectAccountKey) with
      | false, Some _ => put_mounted true (put_dialogs (s.(dialogs) ++ [mkDialog 0 false]) s)
      | _, _ => s
      end
  | UnmountedDialog => if s.(mounted) then put_reconnectAccountKey None (unmount s) else s
  | Cancelled => if negb s.(mounted) || is_connecting s then s else close s
  | Authenticated i => match s.(running) !! i with None => s | Some _ => put_store (clearSensitive s.(store)) s end
  | Answered i result =>
      match s.(running) !! i with
      | None => s
      | Some (origin, request) =>
          answered origin request result (put_running (take i s.(running) ++ drop (S i) s.(running)) s)
      end
  end.

Fixpoint events (l : list FormEvent) (s : Forms) : Forms :=
  match l with [] => s | event :: l => events l (happen event s) end.

(** ** Facts about the status of a message *)

Lemma js_sort_cons {A} (compare : A → A → Z) x l :
  head (js_sort compare (x :: l)) = Some (match head (js_sort compare l) with
    | Some y => if (compare x y <=? 0)%Z then x else y
    | None => x end).
Proof.
  unfold js_sort. cbn [js_sortM]. destruct (js_sortM _ l) as [k|[]]. cbn.
  destruct k as [|y k]; [done|]. cbn. destruct (compare x y <=? 0)%Z; [done|].
  destruct (sort_insert _ x k) as [k'|[]]. done.
Qed.

Definition below (v : MutationStatusView) (value : MutationStatusView) : Prop := (rank value < rank v)%Z.
Definition not_above (v : MutationStatusView) (value : MutationStatusView) : Prop := (rank value <= rank v)%Z.

(** The first of the most urgent. *)
Lemma head_of_ranks l :
  match head (js_sort (λ left right, rank right - rank left)%Z l) with
  | None => l = []
  | Some v => ∃ before after, l = before ++ v :: after ∧ Forall (below v) before ∧ Forall (not_above v) after
  end.
Proof.
  induction l as [|x l IH]; [done|]. rewrite js_sort_cons.
  destruct (head (js_sort _ l)) as [v|]; [|subst; by exists [], []].
  destruct IH as (before & after & -> & Hbefore & Hafter). destruct (Z.leb_spec (rank v - rank x) 0).
  - exists [], (before ++ v :: after). split_and!; [done|done|]. apply Forall_app. split.
    + eapply Forall_impl; [exact Hbefore|]. unfold below, not_above. cbn. lia.
    + constructor; [unfold not_above; lia|]. eapply Forall_impl; [exact Hafter|]. unfold not_above. cbn. lia.
  - exists (x :: before), after. split_and!; [done| |done]. constructor; [unfold below; lia|done].
Qed.

(** The status shown for a message is the most urgent of its pending mutations, and of
    those the first: an error, then what is being sent or must be verified, then what will
    be retried, then the rest.  None is shown exactly if no mutation concerns the message. *)
Theorem most_urgent_status_is_shown (emailId : ScopedEmailId) (s : Application) :
  let concerned := List.filter (concerns_email emailId) (statusesForAccount (Some emailId.(accountKey)) s.(statuses)) in
  match mutationForEmail emailId s with
  | None => concerned = []
  | Some v => ∃ before after, concerned = before ++ v :: after ∧ Forall (below v) before ∧ Forall (not_above v) after
  end.
Proof. apply head_of_ranks. Qed.

(** ** Handlers and the methods of the controller *)

Section handlers.
Context {platform : Platform} (installed : Installed) (toLocaleString : string → string).

Inductive view_handler : app unit → Prop :=
| Handles_refresh : view_handler (handleRefresh installed)
| Handles_retryMutation emailId : view_handler (retryMutation installed emailId)
| Handles_list_seen emailId : view_handler (list_handleToggleSeen emailId)
| Handles_list_flag emailId : view_handler (list_handleToggleFlag emailId)
| Handles_list_delete emailId : view_handler (list_handleDelete emailId)
| Handles_select emailId : view_handler (handleSelectEmail installed emailId)
| Handles_reply : view_handler (handleReply toLocaleString)
| Handles_flag : view_handler viewer_handleToggleFlag
| Handles_seen : view_handler viewer_handleToggleSeen
| Handles_spam : view_handler handleMarkSpam
| Handles_delete : view_handler viewer_handleDelete
| Handles_retryBody : view_handler (retryBody installed)
| Handles_folder mailbox : view_handler (handleSelectFolder installed mailbox)
| Handles_close : view_handler handleClose
| Handles_send : view_handler (handleSend installed)
| Handles_retry_send : view_handler (retry_send installed)
| Handles_retryLocal : view_handler (retryLocal installed)
| Handles_mounted : view_handler (onMounted installed)
| Handles_unmount : view_handler onBeforeUnmount.

Abbreviation C := (coherent installed).
Abbreviation given := (method_given answered_as_asked C).

Lemma given_look {X} (f : Application → X) : given (look f).
Proof. apply given_atomic. intros s HC. exact HC. Qed.
Lemma given_change f : (∀ s, C s → C (f s)) → given (change f).
Proof. intros H. apply given_atomic. intros s HC. by apply H. Qed.
Lemma given_controller p : controller_method installed p → given p.
Proof. apply given_method. Qed.

Lemma given_reported text p : given p → given (reported text p).
Proof.
  intros Hp. apply given_try; [done|]. intros error. apply given_change. intros s HC.
  apply coherent_mail; [apply shows_setLoadState|exact HC].
Qed.

Lemma given_handler p : view_handler p → given p.
Proof.
  assert (Hmethod : ∀ p, controller_method installed p → given p) by apply given_controller.
  assert (Hselected : ∀ handler, (∀ email, given (handler email)) → given (with_selected handler)).
  { intros handler H. apply given_bind; [apply given_look|]. intros [email|]; [apply H|apply given_ret]. }
  assert (Htoggle : ∀ keyword emailId, given (toggle_in_list keyword emailId)).
  { intros keyword emailId. apply given_bind; [apply given_look|]. intros [value|]; [|apply given_ret].
    apply given_reported, Hmethod. constructor. }
  intros [| | | | | | | | | | | | | | | | | |]; try (apply Hmethod; constructor); try apply Htoggle;
    try (apply Hselected; intros email; apply Hmethod; constructor).
  - apply given_bind; [apply given_look|]. intros [k|]; [apply Hmethod; constructor|apply given_ret].
  - apply given_bind; [apply given_look|]. intros [v|]; [|apply given_ret].
    destruct (negb (may_retry v)); [apply given_ret|apply Hmethod; constructor].
  - apply given_reported, Hmethod. constructor.
  - apply given_change. intros s HC. destruct (selectedEmail s.(mail)); [by apply coherent_composer|done].
  - apply given_bind; [apply given_look|]. intros [k|]; [apply Hmethod; constructor|apply given_ret].
  - apply given_bind; [apply given_look|]. intros []; cbn [negb]; [|apply given_ret].
    apply given_bind; [apply given_executeSend|]. intros [[k m]|]; [apply Hmethod; constructor|apply given_ret].
  - apply given_bind; [apply given_look|]. intros [v|]; [apply Hmethod; constructor|apply given_ret].
  - apply given_try; [apply Hmethod; constructor|intros; apply given_ret].
  - apply given_try; [apply Hmethod; constructor|intros; apply given_ret].
Qed.

(** C9: The handlers of the user interface keep the screen of one piece, however they
    interleave with each other and with the methods of the controller. *)
Theorem views_keep_the_screen_coherent (ps : list (app unit)) (remote : RemoteView) σ :
  Forall (λ p, view_handler p ∨ controller_method installed p) ps →
  pool_reaches (given_answers answered_as_asked) (start ps (application_initial remote)) σ →
  C σ.(world).
Proof.
  intros Hps Hreach. eapply pool_given; [|apply coherent_initial|exact Hreach].
  eapply List.Forall_impl; [|exact Hps]. intros p [Hp|Hp]; [by apply given_handler|by apply given_method].
Qed.
End handlers.

(** ** What becomes of a failure *)

Section failures.
Context {W : Type} (elsewhere : ∀ X, ControllerCall X → Application * W → outcome exn X * W).

(** The application answers for itself, the rest of the world for what is asked of it. *)
Definition in_world X (c : with_state Application ControllerCall X) (w : Application * W) :
    outcome exn X * (Application * W) :=
  match c in with_state _ _ X return outcome exn X * (Application * W) with
  | Atomic f => ((f w.1).1, ((f w.1).2, w.2))
  | Outside c => ((elsewhere _ c w).1, (w.1, (elsewhere _ c w).2))
  end.

(** What a handler of the list does with the end of a method. *)
Definition after_failure (text : string) (ended : outcome exn unit * (Application * W)) : outcome exn unit * (Application * W) :=
  match ended with
  | (Return _, w) => (Return tt, w)
  | (Throw _, (s, w)) => (Return tt, (on_mail (setLoadState mail_error (Some (OtherText text))) s, w))
  end.

Lemma run_reported text p w : run in_world (reported text p) w = after_failure text (run in_world p w).
Proof. unfold reported. rewrite run_try. by destruct (run in_world p w) as [[[]|e] [s v]]. Qed.

Definition listed (emailId : ScopedEmailId) (s : Application) : option Email :=
  List.find (λ email, sameScopedEmailId email.(email_id) emailId) s.(mail).(ms_emails).

(** An action on the list of messages never fails unseen: whatever the application and
    the world do, its handler ends well, with the effects of the controller's method, and
    if that method failed the list shows an error.  An action on a message that is no
    longer listed does nothing. *)
Theorem list_actions_report_failures (keyword : string) (emailId : ScopedEmailId) (s : Application) (w : W) :
  run in_world (list_handleDelete emailId) (s, w) =
    after_failure "No se pudo mover el mensaje." (run in_world (moveEmail emailId "trash") (s, w)) ∧
  run in_world (toggle_in_list keyword emailId) (s, w) =
    match listed emailId s with
    | None => (Return tt, (s, w))
    | Some value =>
        after_failure "No se pudo actualizar el mensaje." (run in_world (toggleKeyword value keyword) (s, w))
    end.
Proof.
  split; [apply run_reported|]. unfold toggle_in_list, look, atomically. rewrite run_await.
  cbn [in_world read fst snd]. unfold listed. destruct (List.find _ _) as [value|]; [apply run_reported|done].
Qed.
End failures.

(** ** The text of a message *)

(** C30: A message without HTML is displayed as its text: the document of the sandbox holds
    it between [pre] tags, with no mark in it that opens or closes a tag, and it reads back as
    it was.  This holds whether DOMPurify writes the text back as HTML writes text (with the
    quotation marks as they are; no character that a parser drops or changes), throws or is
    missing, on the condition that nothing in the text, escaped or written back, matches one of
    the patterns of attributes that the fallback takes out of any document. *)
Theorem text_messages_are_displayed (purify : option (SanitizerConfig → string → outcome exn string))
    (s : Application) (body : EmailBody) (text : string) :
  s.(mail).(ms_emailBody) = Some body → s.(mail).(ms_bodyLoadState) = body_cached →
  body.(body_html) = None → body.(body_text) = Some text →
  match purify with Some sanitize => writes_back sanitize ∧ ordinary text | None => True end →
  reads_as_attribute (pre (escaped text)) = false → reads_as_attribute (pre (serialized text)) = false →
  ∃ shown, iframeDocument purify s = srcdoc_head +:+ pre shown +:+ srcdoc_tail ∧
    has_char is_angle shown = false ∧ unescape shown = text.
Proof.
  intros Hbody Hstate Hhtml Htext Hpurify Hescaped Hserialized.
  destruct (sanitize_keeps_text purify text Hpurify Hescaped Hserialized) as (shown & Hshown & Hcases).
  exists shown. split.
  - unfold iframeDocument. rewrite Hbody, Hstate. unfold raw_html. rewrite Hhtml, Htext.
    change ("<pre>" +:+ escapeEmailText text +:+ "</pre>") with (pre (escapeEmailText text)).
    by rewrite bool_decide_eq_true_2, Hshown.
  - destruct Hcases as [-> | ->].
    + split; [apply markup_angle, escaped_inert|apply unescape_escaped].
    + split; [apply serialized_inert|apply unescape_serialized].
Qed.

(** ** The forms *)

Definition current_attempts (s : Forms) : list (Origin * AccountSetupRequest) :=
  List.filter (λ r, is_current s.(dialogs) r.1) s.(running).

(** The dialog is not torn down while it connects (the shell that holds it is, when the
    local store fails or is opened anew). *)
Fixpoint orderly (l : list FormEvent) (s : Forms) : bool :=
  match l with
  | [] => true
  | event :: l =>
      negb (match event with UnmountedDialog => s.(mounted) && is_connecting s | _ => false end) &&
      orderly l (happen event s)
  end.

(** An attempt has the number of a dialog and a generation that the dialog reached. *)
Definition was_begun (values : list Dialog) (origin : Origin) : Prop :=
  match origin with
  | FromFirstRun => True
  | FromDialog dialog attempt => ∃ d, values !! dialog = Some d ∧ (attempt ≤ d.(generation))%nat
  end.

(** Every history keeps at most the attempt that the phase tells of; an orderly one, exactly. *)
Record tidy (exact : bool) (s : Forms) : Prop := {
  tidy_begun : Forall (λ r, was_begun s.(dialogs) r.1) s.(running);
  tidy_mounted : s.(mounted) = true → s.(dialogs) ≠ [];
  tidy_current : (length (current_attempts s) <= if is_connecting s then 1 else 0)%nat;
  tidy_exact : exact = true → length (current_attempts s) = if is_connecting s then 1%nat else 0%nat;
}.

Definition no_current (values : list Dialog) (l : list (Origin * AccountSetupRequest)) : Prop :=
  Forall (λ r, is_current values r.1 = false) l.

Lemma no_current_count values l :
  length (List.filter (λ r : Origin * AccountSetupRequest, is_current values r.1) l) = 0%nat ↔ no_current values l.
Proof.
  unfold no_current. induction l as [|r l IH]; cbn; [by split|]. rewrite Forall_cons.
  destruct (is_current values r.1); cbn; [split; [done|by intros [? _]]|]. rewrite IH. tauto.
Qed.

Lemma idle_no_current exact s : tidy exact s → is_connecting s = false → no_current s.(dialogs) s.(running).
Proof. intros [_ _ H _] Hc. rewrite Hc in H. apply no_current_count. by apply Nat.le_0_r. Qed.

(** A new generation of a dialog leaves every attempt behind that was. *)
Lemma begun_next values i l :
  Forall (λ r : Origin * AccountSetupRequest, was_begun values r.1) l →
  Forall (λ r, was_begun (alter next_generation i values) r.1) l.
Proof.
  intros H. eapply Forall_impl; [exact H|]. intros [[|dialog attempt] r]; cbn; [done|]. intros (d & Hd & Hle). cbn.
  destruct (decide (i = dialog)) as [->|Hne].
  - exists (next_generation d). rewrite list_lookup_alter_eq, Hd. split; [done|]. cbn. lia.
  - exists d. by rewrite list_lookup_alter_ne.
Qed.

Lemma next_current values i o :
  was_begun values o → is_current (alter next_generation i values) o = true → is_current values o = true.
Proof.
  destruct o as [|dialog attempt]; [done|]. intros (d & Hd & Hle). cbn. rewrite !bool_decide_eq_true.
  destruct (decide (i = dialog)) as [->|Hne]; [|by rewrite list_lookup_alter_ne].
  rewrite list_lookup_alter_eq, Hd. cbn. intros [= Heq]. lia.
Qed.

Lemma next_no_current values i l :
  Forall (λ r : Origin * AccountSetupRequest, was_begun values r.1) l → no_current values l →
  no_current (alter next_generation i values) l.
Proof.
  unfold no_current. rewrite !Forall_forall. intros Hbegun Hno r Hr. specialize (Hbegun r Hr). specialize (Hno r Hr).
  destruct (is_current (alter _ _ _) _) eqn:Hcurrent; [|done]. apply next_current in Hcurrent; [|done].
  cbn in *. congruence.
Qed.

Lemma fewer {A} (p q : A → bool) l :
  (∀ x, x ∈ l → q x = true → p x = true) → (length (List.filter q l) <= length (List.filter p l))%nat.
Proof.
  induction l as [|x l IH]; intros H; [done|]. cbn.
  assert (length (List.filter q l) <= length (List.filter p l))%nat by (apply IH; intros; apply H; [by right|done]).
  destruct (q x) eqn:Hq; [rewrite (H x (list_elem_of_here _ _) Hq)|]; [cbn; lia|]. destruct (p x); cbn; lia.
Qed.

(** The same attempts are current if the phase is the same. *)
Lemma tidy_same exact s s' :
  s'.(dialogs) = s.(dialogs) → s'.(mounted) = s.(mounted) → s'.(running) = s.(running) →
  s'.(store).(setup_phase) = s.(store).(setup_phase) → tidy exact s → tidy exact s'.
Proof.
  intros Hd Hm Hr Hp [H1 H2 H3 H4]. constructor; unfold current_attempts, is_connecting in *; by rewrite ?Hd, ?Hm, ?Hr, ?Hp.
Qed.

Lemma tidy_idle exact s' :
  Forall (λ r, was_begun s'.(dialogs) r.1) s'.(running) → (s'.(mounted) = true → s'.(dialogs) ≠ []) →
  no_current s'.(dialogs) s'.(running) → is_connecting s' = false → tidy exact s'.
Proof.
  intros H1 H2 H3 H4. apply no_current_count in H3.
  constructor; [done|done| |intros _]; unfold current_attempts; rewrite H3, H4; done.
Qed.

Lemma submitted_idle reauthorization s request s' :
  handleSubmit reauthorization s = (request, s') → s'.(setup_phase) = setup_idle.
Proof. unfold handleSubmit, buildRequest, validate. by intros [= _ <-]. Qed.

(** An attempt that begins is the current one. *)
Lemma tidy_begin exact s origin request store :
  tidy exact s → is_connecting s = false → is_current s.(dialogs) origin = true → was_begun s.(dialogs) origin →
  tidy exact (put_running (s.(running) ++ [(origin, request)]) (put_store (beginConnection store) s)).
Proof.
  intros Hs Hc Hcurrent Hbegun. pose proof (idle_no_current _ _ Hs Hc) as Hno. destruct Hs as [H1 H2 _ _].
  assert (Hone : length (List.filter (λ r, is_current s.(dialogs) r.1) (s.(running) ++ [(origin, request)])) = 1%nat).
  { rewrite List.filter_app, length_app. cbn. rewrite Hcurrent. by rewrite (proj2 (no_current_count _ _) Hno). }
  constructor; cbn; [|done|unfold current_attempts; cbn; by rewrite Hone|intros _; exact Hone].
  apply Forall_app. split; [done|]. by constructor.
Qed.

Lemma tidy_submit exact reauthorization connect s :
  (∀ request s', s'.(mounted) = s.(mounted) → tidy exact s' → is_connecting s' = false → tidy exact (connect request s')) →
  tidy exact s → tidy exact (submit reauthorization connect s).
Proof.
  intros Hconnect Hs. unfold submit. destruct (is_connecting s) eqn:Hc; [done|].
  destruct (handleSubmit reauthorization s.(store)) as [request store] eqn:Hsubmit.
  apply submitted_idle in Hsubmit.
  assert (tidy exact (put_store store s)).
  { apply tidy_idle; [apply Hs|apply Hs|exact (idle_no_current exact s Hs Hc)|]. unfold is_connecting. cbn. by rewrite Hsubmit. }
  destruct request as [request|]; [|done]. apply Hconnect; [done|done|]. unfold is_connecting. cbn. by rewrite Hsubmit.
Qed.

Lemma tidy_connect exact request s :
  tidy exact s → is_connecting s = false → tidy exact (connectAccount_form request s).
Proof.
  intros Hs Hc. unfold connectAccount_form, begin_connect. rewrite Hc. by apply tidy_begin.
Qed.

Lemma tidy_reconnect exact request s :
  s.(mounted) = true → tidy exact s → is_connecting s = false → tidy exact (reconnect_form request s).
Proof.
  intros Hmounted Hs Hc. unfold reconnect_form, begin_connect. rewrite Hc.
  destruct s.(dialogs) as [|d0 ds0] eqn:Hds; [by apply (tidy_mounted _ _ Hs) in Hmounted|]. rewrite <- Hds.
  assert (is_Some (s.(dialogs) !! current_dialog s)) as [d Hd].
  { apply lookup_lt_is_Some. unfold current_dialog. rewrite Hds. cbn. lia. }
  set (s1 := put_dialogs (alter next_generation (current_dialog s) s.(dialogs)) s).
  assert (Hcur : current_dialog s1 = current_dialog s) by (unfold current_dialog, s1; cbn; by rewrite length_alter).
  assert (Hd1 : alter next_generation (current_dialog s) s.(dialogs) !! current_dialog s1 = Some (next_generation d)).
  { by rewrite Hcur, list_lookup_alter_eq, Hd. }
  assert (tidy exact s1).
  { apply tidy_idle; [exact (begun_next _ _ _ (tidy_begun _ _ Hs))|..|done].
    - intros _ H. apply (f_equal length) in H. unfold s1 in H. cbn in H. rewrite length_alter, Hds in H. done.
    - apply next_no_current; [exact (tidy_begun _ _ Hs)|by apply (idle_no_current exact s)]. }
  apply tidy_begin; [done|done|..]; cbn; rewrite Hd1; cbn.
  - by apply bool_decide_eq_true.
  - by exists (next_generation d).
Qed.

(** Taking an attempt away. *)
Lemma without_attempt {A} (p : A → bool) l i x :
  l !! i = Some x →
  length (List.filter p l) = ((if p x then 1 else 0) + length (List.filter p (take i l ++ drop (S i) l)))%nat.
Proof.
  intros H. rewrite <- (take_drop_middle l i x H) at 1. rewrite !List.filter_app, !length_app. cbn.
  destruct (p x); cbn; lia.
Qed.

Lemma forall_without {A} (P : A → Prop) l i : Forall P l → Forall P (take i l ++ drop (S i) l).
Proof. intros H. apply Forall_app. split; [by apply Forall_take|by apply Forall_drop]. Qed.

(** An answer to the current attempt releases the form; another leaves the store alone. *)
Lemma answer_releases i result s origin request :
  s.(running) !! i = Some (origin, request) →
  let s' := happen (Answered i result) s in
  if is_current s.(dialogs) origin then is_connecting s' = false
  else s'.(store) = s.(store) ∧ s'.(dialogs) = s.(dialogs) ∧ s'.(reconnectAccountKey) = s.(reconnectAccountKey).
Proof.
  intros H. cbn. rewrite H. unfold answered. cbn. destruct (is_current s.(dialogs) origin) eqn:Hcurrent; cbn; [|done].
  destruct result as [k|kind]; destruct origin; cbn; try done; destruct request; try done; by case_match.
Qed.

Lemma answer_keeps i result s origin request :
  s.(running) !! i = Some (origin, request) →
  let s' := happen (Answered i result) s in
  s'.(running) = take i s.(running) ++ drop (S i) s.(running) ∧ s'.(mounted) = s.(mounted) ∧
  (∀ dialog, generation <$> s'.(dialogs) !! dialog = generation <$> s.(dialogs) !! dialog) ∧
  (is_current s.(dialogs) origin = false → s'.(store) = s.(store)).
Proof.
  intros H. cbn. rewrite H. unfold answered. cbn. destruct (is_current s.(dialogs) origin); cbn; [|done].
  assert (Hg : ∀ i dialog, generation <$> alter (λ d, mkDialog d.(generation) true) i s.(dialogs) !! dialog =
    generation <$> s.(dialogs) !! dialog).
  { intros j dialog. destruct (decide (j = dialog)) as [->|Hne]; [|by rewrite list_lookup_alter_ne].
    rewrite list_lookup_alter_eq. by destruct (s.(dialogs) !! dialog). }
  destruct result as [k|kind]; destruct origin; cbn; try done; destruct request; try done;
    case_match; cbn; split_and!; first [done|apply Hg].
Qed.

Lemma generations_current values values' origin :
  (∀ dialog, generation <$> values' !! dialog = generation <$> values !! dialog) →
  is_current values' origin = is_current values origin.
Proof. intros H. destruct origin as [|dialog attempt]; [done|]. cbn. by rewrite H. Qed.

Lemma tidy_answered exact i result s : tidy exact s → tidy exact (happen (Answered i result) s).
Proof.
  intros Hs. destruct (s.(running) !! i) as [[origin request]|] eqn:Hi; [|cbn; by rewrite Hi].
  pose proof (answer_keeps i result s origin request Hi) as (Hrunning & Hmounted & Hgenerations & Hstore).
  pose proof (answer_releases i result s origin request Hi) as Hreleases. cbv zeta in *.
  set (s' := happen (Answered i result) s) in *. destruct Hs as [H1 H2 H3 H4].
  assert (Hsame : ∀ o, is_current s'.(dialogs) o = is_current s.(dialogs) o) by (intros; by apply generations_current).
  assert (Hcount : length (current_attempts s) =
    ((if is_current s.(dialogs) origin then 1 else 0) + length (current_attempts s'))%nat).
  { unfold current_attempts. rewrite (without_attempt _ _ _ _ Hi), Hrunning. cbn [fst]. do 2 f_equal.
    apply List.filter_ext. intros r. by rewrite Hsame. }
  constructor.
  - rewrite Hrunning. eapply Forall_impl; [apply forall_without, H1|]. intros [[|dialog attempt] r]; cbn; [done|].
    intros (d & Hd & Hle). specialize (Hgenerations dialog). rewrite Hd in Hgenerations.
    destruct (s'.(dialogs) !! dialog) as [d'|] eqn:Hd'; [|done]. exists d'. split; [done|]. injection Hgenerations as ->. done.
  - rewrite Hmounted. intros H. specialize (H2 H). intros Hnil. specialize (Hgenerations 0%nat).
    rewrite Hnil in Hgenerations. by destruct s.(dialogs).
  - destruct (is_current s.(dialogs) origin).
    + rewrite Hreleases. destruct (is_connecting s); lia.
    + unfold is_connecting. rewrite Hstore by done. unfold is_connecting in H3. lia.
  - intros Hexact. specialize (H4 Hexact). destruct (is_current s.(dialogs) origin).
    + rewrite Hreleases. destruct (is_connecting s); lia.
    + unfold is_connecting. rewrite Hstore by done. unfold is_connecting in H4. lia.
Qed.

Lemma tidy_happen exact event s :
  tidy exact s →
  (exact = true → match event with UnmountedDialog => s.(mounted) && is_connecting s | _ => false end = false) →
  tidy exact (happen event s).
Proof.
  intros Hs Horderly. destruct event as [e| | |key| | | |i|i result]; cbn [happen].
  - eapply tidy_same; [..|exact Hs]; try done. by destruct e.
  - apply tidy_submit; [|done]. intros request s' _. apply tidy_connect.
  - destruct s.(mounted) eqn:Hm; [|done]. cbn [negb]. apply tidy_submit; [|done].
    intros request s' Hm'. apply tidy_reconnect. congruence.
  - by eapply tidy_same; [..|exact Hs].
  - destruct s.(mounted) eqn:Hm; [done|]. destruct s.(reconnectAccountKey); [|done]. destruct Hs as [H1 H2 H3 H4].
    assert (Hlook : ∀ r, r ∈ s.(running) → was_begun (s.(dialogs) ++ [mkDialog 0 false]) r.1 ∧
      is_current (s.(dialogs) ++ [mkDialog 0 false]) r.1 = is_current s.(dialogs) r.1).
    { intros [[|dialog attempt] r] Hr; [done|]. rewrite Forall_forall in H1. specialize (H1 _ Hr) as (d & Hd & Hle).
      cbn in *. rewrite lookup_app_l by by eapply lookup_lt_Some. split; [by exists d|done]. }
    assert (Hsame : List.filter (λ r, is_current (s.(dialogs) ++ [mkDialog 0 false]) r.1) s.(running) = current_attempts s).
    { apply List.filter_ext_in. intros r Hr. by apply Hlook, list_elem_of_In. }
    constructor; [| |unfold current_attempts at 1; cbn; by rewrite Hsame..]; cbn.
    + apply Forall_forall. intros r Hr. by apply Hlook.
    + intros _ H. by apply app_eq_nil in H as [_ ?].
  - destruct s.(mounted) eqn:Hm; [|done].
    assert (Hless : (length (List.filter (λ r, is_current (alter next_generation (current_dialog s) s.(dialogs)) r.1) s.(running))
      <= length (current_attempts s))%nat).
    { apply fewer. intros [o r] Hr. pose proof (tidy_begun _ _ Hs) as Hb. rewrite Forall_forall in Hb. by apply next_current, Hb. }
    pose proof (tidy_current _ _ Hs) as Hcount.
    set (s' := put_reconnectAccountKey None (unmount s)).
    change (length (current_attempts s') <= length (current_attempts s))%nat in Hless.
    assert (Hphase : is_connecting s' = is_connecting s) by done.
    constructor; [exact (begun_next _ _ _ (tidy_begun _ _ Hs))|done|rewrite Hphase; lia|].
    intros Hexact. specialize (Horderly Hexact). cbn in Horderly. rewrite Hphase, Horderly in *. lia.
  - destruct s.(mounted) eqn:Hm; [|done]. cbn [negb orb]. destruct (is_connecting s) eqn:Hc; [done|]. apply tidy_idle; cbn.
    + exact (begun_next _ _ _ (tidy_begun _ _ Hs)).
    + intros _ H. apply (f_equal length) in H. rewrite length_alter in H. apply (tidy_mounted _ _ Hs) in Hm. by destruct s.(dialogs).
    + apply next_no_current; [exact (tidy_begun _ _ Hs)|by apply (idle_no_current exact s)].
    + done.
  - destruct (s.(running) !! i); [|done]. by eapply tidy_same; [..|exact Hs].
  - by apply tidy_answered.
Qed.

Lemma events_tidy exact l s : tidy exact s → (exact = true → orderly l s = true) → tidy exact (events l s).
Proof.
  revert s. induction l as [|event l IH]; intros s Hs Hl; [done|]. cbn in *.
  apply IH; [apply tidy_happen; [done|]|]; intros Hexact; specialize (Hl Hexact); apply andb_true_iff in Hl as [Hevent Hl];
    [by apply negb_true_iff in Hevent|done].
Qed.

(** C31: The forms follow the attempt they began last.  At any time at most one attempt runs
    that no closing left behind, and only while the forms say that they connect; they say so
    exactly as long, unless the dialog was torn down while it connected.  The answer to that
    attempt releases the forms, and the answer to one that was left behind changes nothing of
    what they show. *)
Theorem forms_follow_their_attempt (l : list FormEvent) :
  let s := events l new_forms in
  (length (current_attempts s) <= if is_connecting s then 1 else 0)%nat ∧
  (orderly l new_forms = true → length (current_attempts s) = if is_connecting s then 1%nat else 0%nat) ∧
  ∀ i origin request result, s.(running) !! i = Some (origin, request) →
    let s' := happen (Answered i result) s in
    if is_current s.(dialogs) origin then is_connecting s = true ∧ is_connecting s' = false
    else s'.(store) = s.(store) ∧ s'.(dialogs) = s.(dialogs) ∧ s'.(reconnectAccountKey) = s.(reconnectAccountKey).
Proof.
  intros s. assert (Hs : tidy (orderly l new_forms) s) by (apply events_tidy; [by constructor|done]).
  split_and!; [apply Hs|apply Hs|]. intros i origin request result Hi s'.
  pose proof (answer_releases i result s origin request Hi) as H. cbv zeta in H.
  fold s' in H. destruct (is_current s.(dialogs) origin) eqn:Hcurrent; [|done]. split; [|done].
  pose proof (tidy_current _ _ Hs) as Hcount. unfold current_attempts in Hcount.
  rewrite (without_attempt _ _ _ _ Hi) in Hcount. cbn [fst] in Hcount. rewrite Hcurrent in Hcount.
  destruct (is_connecting s); [done|lia].
Qed.

(** ** Witnesses and shortcomings *)

Import ControllerFixtures.

(** The application is mounted, a folder is chosen, and a message is deleted while the
    window is read. *)
Definition clicking : list (app unit) :=
  [onMounted everything; handleSelectFolder everything Fixtures.inbox; list_handleDelete (email_id second_email)].
Definition clicked : system (with_state Application ControllerCall) unit Application :=
  follow full_answer (replicate 13 0 ++ replicate 3 1 ++ replicate 2 2 ++ replicate 20 1 ++ replicate 20 2)%nat
    (start clicking (application_initial quiet_remote)).

Lemma views_keep_the_screen_coherent_witness :
  coherent everything clicked.(world) ∧ clicked.(world).(mail).(ms_emails) = [first_email; second_email].
Proof.
  split; [|by vm_compute].
  apply (views_keep_the_screen_coherent everything (λ date, date) clicking quiet_remote).
  - repeat (constructor; [left; constructor|]). constructor.
  - apply follow_reaches, full_answers.
Defined.

Definition showing (text : string) : Application :=
  on_mail (setEmailBody (Some (mkEmailBody (email_id first_email) (Some text) None)) body_cached)
    (application_initial quiet_remote).

(** A DOMPurify that writes back the text between [pre] tags. *)
Definition inside_pre (html : string) : string :=
  match html with
  | String _ (String _ (String _ (String _ (String _ rest)))) => text_between rest "</pre>"
  | _ => html
  end.
Definition serializing : SanitizerConfig → string → outcome exn string :=
  λ _ html, Return (pre (serialized (unescape (inside_pre html)))).

Lemma serializing_writes_back : writes_back serializing.
Proof.
  intros text _ result H. unfold serializing in H.
  assert (inside_pre (pre (escaped text)) = escaped text) as Hinside
    by exact (between_app (escaped text) "</pre>").
  rewrite Hinside, unescape_escaped in H. by injection H as <-.
Qed.

Definition remark : string := marks "1 < 2 & say `<b>`, it's".

Lemma text_messages_are_displayed_witness :
  iframeDocument (Some serializing) (showing remark) =
    srcdoc_head +:+ marks "<pre>1 &lt; 2 &amp; say `&lt;b&gt;`, it's</pre>" +:+ srcdoc_tail ∧
  ∃ shown, iframeDocument (Some serializing) (showing remark) = srcdoc_head +:+ pre shown +:+ srcdoc_tail ∧
    has_char is_angle shown = false ∧ unescape shown = remark.
Proof.
  split; [vm_compute; reflexivity|].
  apply (text_messages_are_displayed (Some serializing) (showing remark)
    (mkEmailBody (email_id first_email) (Some remark) None) remark); try reflexivity.
  split; [apply serializing_writes_back|split; vm_compute; reflexivity].
Defined.

Definition first_run : list FormEvent :=
  [Edited (EditUsername "ana"); Edited (EditPassword "secret"); SubmittedFirstRun; Authenticated 0].

Lemma forms_follow_their_attempt_witness :
  length (current_attempts (events first_run new_forms)) = 1%nat ∧
  is_connecting (happen (Answered 0 (inr connection_auth)) (events first_run new_forms)) = false.
Proof.
  destruct (forms_follow_their_attempt first_run) as (_ & Hone & Hanswer).
  split; [by rewrite Hone|]. by apply (Hanswer 0%nat FromFirstRun
    (SetupLocalImap "ana" "secret" "127.0.0.1" (Int 1143) (Int 1587)) (inr connection_auth) eq_refl).
Defined.

(** A dialog that is torn down while it connects leaves the forms connecting for good: the
    answer is of an attempt left behind, and every button of a new dialog is disabled. *)
Definition torn_down : list FormEvent :=
  [Edited (EditUsername "ana"); Edited (EditPassword "secret"); OpenedReconnect "account-1"; MountedDialog;
   SubmittedReconnect; UnmountedDialog; Answered 0 (inl "account-1");
   OpenedReconnect "account-1"; MountedDialog; Edited (EditPassword "secret"); SubmittedReconnect; Cancelled].
Example torn_down_dialog_blocks_the_forms :
  is_connecting (events torn_down new_forms) = true ∧ (events torn_down new_forms).(running) = [].
Proof. by vm_compute. Qed.

(** A failed deletion in the viewer of a message is a rejection that nothing handles, and
    shows nothing; in the list it is an error. *)
Definition no_trash : Application :=
  on_mail (λ m, setEmails [first_email] (selectEmailInStore (Some (email_id first_email)) m)) (application_initial quiet_remote).
Definition nowhere X (c : ControllerCall X) (w : Application * unit) : outcome exn X * unit := (full_elsewhere X c, tt).

Example viewer_failure_is_unseen :
  run (in_world nowhere) viewer_handleDelete (no_trash, tt) =
    (Throw (Error "Mailbox role trash missing"), (no_trash, tt)) ∧
  run (in_world nowhere) (list_handleDelete (email_id first_email)) (no_trash, tt) =
    (Return tt, (on_mail (setLoadState mail_error (Some (OtherText "No se pudo mover el mensaje."))) no_trash, tt)).
Proof. by vm_compute. Qed.
